(* ===== verification/_CoqProject ===== *)
-Q . S2P
Prelude.v
Types.v
Chain.v
RefModel.v
Service.v
ChainRefines.v
Run.v
Query.v
Metrics.v
Registry.v
Http.v
Lifecycle.v
Rate.v
RpcClient.v
Flight.v
Transport.v
Observability.v
WsRouting.v
Ws.v
WsReset.v
RpcData.v
Rlp.v
TxEncode.v
Commitments.v
ChainUtils.v
Frames.v
EvmTypes.v
Finality.v
Prober.v
RawBlock.v
Continuity.v
FetchChecks.v
Sender.v
Components.v
Fetch.v
Acquire.v
Cadence.v
Ingest.v
Adapter.v
Process.v
Normalize.v
Sim.v
Validators.v
Conformance.v
Driver.v
Stub.v
Race.v
Bench.v
