(* ===== verification/Prelude.v ===== *)
(** * HotBlocks: a verification development

    The program under [src/] is a service that follows the head of an EVM
    chain over JSON-RPC, keeps the recent blocks in memory, and serves them
    over HTTP. This library models its core as executable functions, and
    proves what they promise.

    ** The parts of the program and how they interact

    - [crates/data-service-core]: the chain-agnostic service. [chain.rs] is the
      buffer: a window of linked blocks with a finalized prefix. [service.rs]
      writes it: batches from the adapter's stream are checked, applied under
      one lock with an undo log, committed or rolled back; sessions end in a
      fork, a violation, an error or a stop, and the run ladder decides whether
      and where to resume. [service.rs] also reads it: a query is answered from
      the window, from the adapter (below the window, spliced onto the
      buffer), or after a wait. [http.rs] turns an answer into a response.
      It keeps the service's metrics ([metrics.rs]) and renders one of them.
    - [crates/rpc-client]: the JSON-RPC client: retries, batching and
      splitting, the rate meter.
    - [crates/evm-source]: the EVM adapter: fetching, verification of what the
      node reports against the header's commitments, normalization, mapping.
    - [crates/harness]: the conformance harness: an executable reference model
      of the service ([model.rs]), a simulated adapter ([script.rs],
      [sim.rs]), and validators that follow a served stream
      ([validators.rs]).
    - [crates/evm-data-service]: the binary: arguments, startup, exit code.
    - [crates/latency-bench]: benchmarks.

    ** The files

    - [Prelude] (this file): results, panics, machine integers, strings,
      adjacency of lists, automation.
    - [Types]: [types.rs] and the stream items of [source.rs].
    - [Chain]: [chain.rs], whole. State: the record [Chain]; one definition per
      method. Its theorems: well-formedness of every reachable buffer, exact
      rollback, stability of the finalized prefix, the outcome of a push, a
      finality report, a compaction, a query and a fork walk on every branch,
      termination of the binary search.
    - [RefModel]: [harness/src/model.rs], the abstract specification.
    - [Service]: the write side of [service.rs] ([validate_ingest_batch],
      [apply_batch_locked], [ingest_session], [init], [run]). What the code
      publishes is a list of [Effect]s.
    - [ChainRefines]: the refinement: each buffer operation, a whole batch, a
      whole session, a query and a fork signal simulate the model's.
    - [Run]: safety of the run ladder: no panic, why it may end, what the next
      session starts from, what a rejected or redelivered batch publishes.
    - [Query]: the read side of [service.rs] ([classify_query], [below_query],
      [wait_for_block]): what is forwarded is linked and in range.
    - [Metrics]: [metrics.rs], the values: counters and gauges, the counting of
      batches and queries, the block-time cache, the stall alarm and readiness.
    - [Registry]: [metrics.rs], what a scrape of those values shows: the table
      of families, histogram buckets, the metric endpoint's answer. The
      encoder of the text format is a class with its law.
    - [Http]: [http.rs]: the stream handler and its body loop, and the head,
      block-time, metric and readiness endpoints: one outcome per request, a
      body that is a prefix of the answer, no panic.
    - [Lifecycle]: [run_data_service], its handle and its tasks ([service.rs]),
      as a machine over their wake-ups, on the metrics of [Metrics]. Theorems:
      what a start leaves; a service that has caught up stays ready without a
      gap while the node answers the paced head reads.
    - [Rate]: [rate.rs] and the gate of [client.rs]: the ring of slots counts
      exactly the events of the window, and admissions respect the limit.
    - [RpcClient]: [error.rs], [client.rs], the correlation of
      [transport.rs]: the retry ladder, order and provenance of batched
      answers, admissible configurations.
    - [Flight]: the state the calls of a client share ([client.rs]: id counter,
      rate gate, semaphore), as a machine over the points where they can
      interleave or be cancelled. Theorems: permits, ids and reservations are
      accounted for; no call is stuck; the gate bounds the reservations, and
      what reaches the wire can be a burst of them.
    - [Transport]: HTTP in [transport.rs]: frames, the POST, and the pairing of
      a reply with its requests, under the client of [RpcClient]. Theorems: a
      value handed out for a call comes from a response for it; a node that
      answers in any order is understood.
    - [Observability]: the adapter's [observability.rs]: how a failed fetch is
      classified, and that the counters account for every round trip.
    - [WsRouting], [Ws], [WsReset]: [transport/ws.rs]. [WsRouting] is the
      pending table: one definition per taking of its lock, and what a whole
      array frame does when nothing comes in between. [Ws] is a connection as a
      machine over the points where its tasks can interleave: every await and
      every taking of that lock, so other tasks run between the items of an
      array and while a sender taken out is in its taker's hands (shared dials,
      generations, resets, calls, deadlines, cancellation). Theorems: every open
      channel has its sender in a table or in one task's hands, and no waiter
      is settled twice; an answer has the ids of its request; a reset leaves no
      sender behind in its table; an uninterrupted array does what [WsRouting]
      says. [WsReset] says when a short batch is told apart from a lost
      connection, and exhibits the interleavings the comments of the code rule
      out.
    - [RpcData], [Rlp], [TxEncode], [Commitments], [ChainUtils]: the part of
      [evm-source] that checks a node's answers ([rpc_data.rs],
      [verification.rs], [chain_utils.rs]): the RLP encoders against a reader
      of the format, the wire format of each transaction type, what a block
      hash, the logs bloom and the trie roots commit to, and which network
      departs from the baseline in what.
    - [Frames]: the debug-trace checks of [verification.rs] and the mapping of
      [normalization.rs]: an accepted trace is mapped frame by frame, with
      nothing dropped or invented.
    - [Normalize]: the rest of [normalization.rs]: transactions with their
      receipts, logs, trace-API frames, state diffs, and the block. Theorems:
      accepted replays are attributed without loss; a diff lists each changed
      slot once; a revert reason is read back as encoded.
    - [EvmTypes], [RawBlock]: [types.rs], the rest of [rpc_data.rs] and
      [mapping.rs]: the data request, the block the fetch layer fills in and
      the mark an acquisition leaves on it.
    - [FetchChecks], [Components], [Fetch]: [fetch.rs]. [FetchChecks] judges
      one answer (options, error hooks, headers, receipts, commitment gates);
      [Components] turns a trace answer into a component, or into the reason
      the block is incoherent; [Fetch] runs the legs of an acquisition over a
      client, applies them to the blocks, and retries a head block. Theorems:
      which answers are accepted and what is served of them; a batch is a
      chain; an enriched block is complete and checked; the retry ends.
    - [Sender]: the signing payloads of [verification.rs] and the recovery of a
      transaction's sender: a payload binds every signed field, the recovery
      id used for each type is the one its encoding carries, an honestly
      signed transaction is accepted with its signer. The curve is a class.
    - [Finality]: the finalized-head cache of [fetch.rs] as a machine of its
      lock acquisitions, refined by "the highest answer of this epoch".
    - [Acquire], [Ingest]: [ingest.rs]. [Acquire] has the cadence predictor
      and the acquisition of one range of final blocks; [Ingest] is
      [ingest_range] as a machine over the events it waits for. Theorems:
      in every interleaving the emissions are the consecutive heights from the
      one asked for, each block complete, a failure last; no event the machine
      waits for is one it refuses.
    - [Cadence]: the [cadence.rs] benchmark, which replays block arrivals
      through the predictor of [Acquire]: a skipped slot costs no detection
      latency; every replay, every synthetic trace and the program itself end.
    - [Race]: the [detect-race.rs] probe, its legs as an interleaving machine
      over a shared ledger: no block is asked for by both patterns, a stamp is
      the first report of its block.
    - [Bench]: the chain the benchmarks fabricate and the upstream that serves
      it ([latency-bench/src/lib.rs], [upstream.rs]): linked and labelled
      throughout; released blocks, and only those, are served.
    - [Continuity], [Prober], [Adapter]: [source.rs]. [Continuity] cuts the
      stream where it stops being linked; [Prober] interleaves the stream loop
      and the finality prober; [Adapter] composes the machine of [Ingest]
      with both, and proves end to end that what the adapter hands over passes
      the service's own validation ([Service]), which closes the loop with
      the assumptions the service makes on its stream.
    - [Process]: [main.rs] of the binary: accepted arguments, the client's
      configuration, what is announced, the main loop, the exit code.
    - [Sim]: [script.rs] and [sim.rs] of the harness: the simulated adapter's
      session, in the service's own terms.
    - [Validators]: [validators.rs]: the byte framing, the parsing of stream
      lines, and the follower's judgement of a served chain.
    - [Conformance]: the harness against the service: a follower of what the
      modelled service serves stays in agreement with the reference model.
    - [Driver]: [client.rs] of the harness, and the router of [http.rs]: a
      request through both, and what the client captures of the answer, which
      is what the validators judge.
    - [Stub]: [upstream.rs] of the harness, the fault-injecting node: every
      answer and every counter over any history of calls, and the linked chain
      it serves where no fault applies.

    ** Conventions

    A [u64] or [u128] is an [N], an [i64] a [Z] with its cast written out, a
    [usize] index a [nat]; wrapping and saturating operations are defined
    here. A string is a [string]. A panic is [None], an error is [Err], and a
    function that can do both returns [option (Result A E)]; [let!] and [let?]
    sequence them. State is passed explicitly; what is published is returned.
    What the environment decides (clocks, the adapter's stream, the client's
    reads, the transport's answers) is an argument, a list or an oracle
    indexed by the attempt. Third-party code (hex, Keccak, the trie builder,
    rayon's split, the compressor) is a section variable or a class of
    operations with a class of laws, and every law has an instance on which
    the theorems are run.

    ** Fuel

    The binary search takes the slice's length, which it at least halves
    ([Chain.bisect_correct]); the fork walk is structural; the splitting of a
    batch takes the number of calls, which each split lowers
    ([RpcClient.batch_answers_in_order]); the retry loop takes one more than
    its attempts ([RpcClient.retry_ladder_correct]); the RLP reader takes the
    input's length ([Rlp.decode_items_concat]); a block's enrichment takes ten
    turns and one per 50 ms of its budget ([Fetch.enrichment_terminates]); the
    cutting of a backfill into strides takes one step per height
    ([Ingest.strides_partition]); a range acquisition is structural on its
    retry budget; a replay takes a step per millisecond until the arrival
    ([Cadence.replay_bounded]), a synthetic trace at most the period of its
    random source per block ([Cadence.synthetic_finishes]). Each of these
    theorems states that the fuel suffices, not only what holds if it does.

    ** What is not modelled

    Logs, the encoder of the metrics text, sockets and the HTTP and JSON
    libraries (parameters where the code relies on them), sleeping and real
    time (a pause is returned as a number), the rounding of [f64] rates (exact
    rationals here), task scheduling beyond the orders a theorem quantifies
    over, the WebSocket's socket and keepalive, the order of serialized fields
    in a served response, argument parsing and signal handling of the binary
    (both are inputs of [Process]), secp256k1 itself, and the probes of
    latency-bench other than [cadence.rs] and [detect-race.rs], which time live
    nodes over the network. *)
From stdpp Require Export base tactics numbers list strings gmap.
From Stdlib Require Export Lia.

(** ** Rust results and panics *)

(** [Result A Err] is Rust's [Result<A, E>]. A Rust panic (an index out of
    range, an [expect] on [None], a failed [assert!]) is [None] of the
    ordinary [option] type, so a function that can both panic and fail
    returns [option (Result A E)]. *)
Inductive Result (A E : Type) : Type :=
  | Ok (a : A)
  | Err (e : E).
Arguments Ok {A E} a.
Arguments Err {A E} e.

Definition is_ok {A E} (r : Result A E) : bool :=
  match r with Ok _ => true | Err _ => false end.

Definition map_err {A E F} (f : E -> F) (r : Result A E) : Result A F :=
  match r with Ok a => Ok a | Err e => Err (f e) end.

Definition map_ok {A B E} (f : A -> B) (r : Result A E) : Result B E :=
  match r with Ok a => Ok (f a) | Err e => Err e end.

Declare Scope rust_scope.
Delimit Scope rust_scope with rust.

(** [let? x := e in k] is Rust's [let x = e?; k]. *)
Notation "'let?' x := e 'in' k" :=
  (match e with Ok x => k | Err err => Err err end)
  (at level 10, x pattern, e at level 100, k at level 200) : rust_scope.

(** [let! x := e in k] sequences computations that may panic. *)
Notation "'let!' x := e 'in' k" :=
  (match e with Some x => k | None => None end)
  (at level 10, x pattern, e at level 100, k at level 200) : rust_scope.

(** [.collect::<Result<Vec<_>, _>>()]: the first error wins. *)
Fixpoint collect_results {A E} (l : list (Result A E)) : Result (list A) E :=
  match l with
  | [] => Ok []
  | r :: rest =>
      match r with
      | Err e => Err e
      | Ok a => match collect_results rest with
                | Ok t => Ok (a :: t)
                | Err e => Err e
                end
      end
  end.

(** ** Machine integers *)

(** An unsigned integer is an [N] with its width as a side condition; the
    operations that differ from [N]'s are written out here. *)
Definition u64_max : N := 18446744073709551615%N.
Definition u128_max : N := 340282366920938463463374607431768211455%N.

Definition saturating_add (a b : N) : N := N.min u64_max (a + b).
Definition saturating_sub (a b : N) : N := (a - b)%N.

Definition checked_add_u128 (a b : N) : option N :=
  if (a + b <=? u128_max)%N then Some (a + b)%N else None.

(** ** Strings *)

(** [s.contains(needle)] and [s.find(needle)], on the UTF-8 bytes. *)
Definition str_find (needle s : string) : option nat := String.index 0 needle s.

Definition str_contains (needle s : string) : bool :=
  match str_find needle s with Some _ => true | None => false end.

(** ** Tactics *)

(** Case analysis on the innermost match of the goal or of a hypothesis,
    with the usual clean-up: the workhorse of the functional proofs. *)
Ltac case_goal := repeat (case_match; simplify_eq/=; try done).

Ltac destruct_ands :=
  repeat match goal with
  | H : _ /\ _ |- _ => destruct H
  | H : exists _, _ |- _ => destruct H
  end.

Create HintDb hotblocks.

(** ** Adjacent elements of a list *)

Section adjacent.
Context {A : Type} (R : A -> A -> Prop).

(** Every element is [R]-related to its successor: the shape Rust code
    checks with [windows(2)]. *)
Definition adjacent (l : list A) : Prop :=
  forall i x y, l !! i = Some x -> l !! S i = Some y -> R x y.

Lemma adjacent_nil : adjacent [].
Proof. by intros i x y H. Qed.

Lemma adjacent_singleton x : adjacent [x].
Proof. intros [|i] ? ? ? H; done. Qed.

Lemma adjacent_cons x y l :
  adjacent (x :: y :: l) <-> R x y /\ adjacent (y :: l).
Proof.
  split.
  - intros H. split; [by apply (H 0)|]. intros i a b Ha Hb. by apply (H (S i)).
  - intros [Hxy H] [|i] a b Ha Hb; simplify_eq/=; [done|]. by apply (H i).
Qed.

Lemma adjacent_tail x l : adjacent (x :: l) -> adjacent l.
Proof. intros H i a b Ha Hb. by apply (H (S i)). Qed.

Lemma adjacent_take n l : adjacent l -> adjacent (take n l).
Proof.
  intros H i x y [Hx _]%lookup_take_Some [Hy _]%lookup_take_Some. eauto.
Qed.

Lemma adjacent_drop n l : adjacent l -> adjacent (drop n l).
Proof.
  intros H i x y. rewrite !lookup_drop, Nat.add_succ_r. apply H.
Qed.

Lemma adjacent_snoc l x y :
  adjacent l -> last l = Some x -> R x y -> adjacent (l ++ [y]).
Proof.
  intros H Hlast Hxy i a b Ha Hb. rewrite last_lookup in Hlast.
  pose proof (lookup_lt_Some _ _ _ Hb) as Hlen. rewrite length_app in Hlen. simpl in Hlen.
  rewrite lookup_app_l in Ha by lia.
  destruct (decide (S i < length l)) as [Hlt|Hge].
  - rewrite lookup_app_l in Hb by lia. eauto.
  - assert (i = Nat.pred (length l)) as -> by lia.
    rewrite lookup_app_r in Hb by lia.
    replace (S (Nat.pred (length l)) - length l) with 0 in Hb by lia. by simplify_eq/=.
Qed.

Lemma adjacent_app l1 l2 :
  adjacent (l1 ++ l2) <->
  adjacent l1 /\ adjacent l2 /\
  (forall x y, last l1 = Some x -> head l2 = Some y -> R x y).
Proof.
  induction l1 as [|a l1 IH]; simpl.
  - split; [|naive_solver]. intros H. split_and!; [apply adjacent_nil|done|done].
  - destruct l1 as [|b l1]; simpl in *.
    + destruct l2 as [|c l2]; simpl.
      * split; [|intros; apply adjacent_singleton].
        intros. split_and!; [apply adjacent_singleton|apply adjacent_nil|done].
      * rewrite adjacent_cons. split.
        -- intros [? ?]. split_and!; [apply adjacent_singleton|done|]. naive_solver.
        -- intros (_ & ? & H). split; [|done]. by apply H.
    + rewrite !adjacent_cons, IH. naive_solver.
Qed.

Context `{!Transitive R}.

Lemma adjacent_lt l i j x y :
  adjacent l -> i < j -> l !! i = Some x -> l !! j = Some y -> R x y.
Proof.
  intros Hl Hij Hx. revert y. induction Hij as [|j Hij IH]; intros y Hy; [eauto|].
  destruct (l !! j) as [z|] eqn:Hz.
  - etransitivity; [by apply IH|eauto].
  - apply lookup_ge_None in Hz. apply lookup_lt_Some in Hy. lia.
Qed.
End adjacent.

Lemma adjacent_impl {A} (R S : A -> A -> Prop) l :
  (forall x y, R x y -> S x y) -> adjacent R l -> adjacent S l.
Proof. intros H Hl i x y Hx Hy. eauto. Qed.

Lemma adjacent_fmap {A B} (f : A -> B) (R : B -> B -> Prop) l :
  adjacent R (f <$> l) <-> adjacent (fun x y => R (f x) (f y)) l.
Proof.
  split.
  - intros H i x y Hx Hy. apply (H i); by rewrite list_lookup_fmap, ?Hx, ?Hy.
  - intros H i x y. rewrite !list_lookup_fmap.
    destruct (l !! i) eqn:Hi, (l !! S i) eqn:HSi; intros; simplify_eq/=. eauto.
Qed.

(** Rust's [slice.windows(2)]. *)
Fixpoint windows2 {A} (l : list A) : list (A * A) :=
  match l with
  | x :: ((y :: _) as t) => (x, y) :: windows2 t
  | _ => []
  end.

Lemma adjacent_windows2 {A} (R : A -> A -> Prop) l :
  adjacent R l <-> Forall (fun '(x, y) => R x y) (windows2 l).
Proof.
  induction l as [|x [|y l] IH]; simpl in *.
  - split; intros _; [constructor|apply adjacent_nil].
  - split; intros _; [constructor|apply adjacent_singleton].
  - rewrite adjacent_cons, Forall_cons, IH. done.
Qed.

Lemma find_fmap {A B} (f : A -> B) (p : B -> bool) (l : list A) :
  List.find p (f <$> l) = f <$> List.find (fun x => p (f x)) l.
Proof. induction l as [|x l IH]; [done|]. rewrite fmap_cons. simpl. by destruct (p (f x)). Qed.

Lemma find_ext {A} (p q : A -> bool) (l : list A) :
  (forall x, p x = q x) -> List.find p l = List.find q l.
Proof. intros H. induction l as [|x l IH]; [done|]. simpl. rewrite H. by destruct (q x). Qed.

#[export] Hint Resolve adjacent_nil adjacent_singleton adjacent_take adjacent_drop : hotblocks.
