(* ===== verification/Types.v ===== *)
(** * Types: the data of [data-service-core] (types.rs, source.rs)

    Block references, headers, buffered blocks with their timing stamps, the
    integrity violations a batch can commit, the query response, and the
    stream items a [DataSource] yields. A [u64] is an [N]; a [Duration] or a
    monotonic [Instant] is an [N] of nanoseconds; a hash is a [string]; the
    compressed JSON line is the list of its bytes. *)
From S2P Require Import Prelude.
From Stdlib Require Import Strings.Byte.

(** ** Timing stamps *)

(** Where an enrichment spent its time (types.rs, [EnrichProfile]). *)
Record EnrichProfile := mkEnrichProfile {
  attempts : N;
  waited : N;
  leg_logs : N;
  leg_receipts : N;
  leg_traces : N
}.

Definition EnrichProfile_default : EnrichProfile := mkEnrichProfile 0 0 0 0 0.

(** What the round actually waited for, the legs being concurrent. *)
Definition slowest_leg (p : EnrichProfile) : N :=
  N.max (N.max (leg_logs p) (leg_receipts p)) (leg_traces p).

Record BlockTimings := mkBlockTimings {
  poll_issued : N;
  null_polls : N;
  body_received : N;
  enrich_done : N;
  enrich_profile : EnrichProfile;
  normalize_done : N;
  compress_duration : N
}.

Definition compress_done (t : BlockTimings) : N :=
  (normalize_done t + compress_duration t)%N.

(** ** References, headers, blocks *)

Record BlockRef := mkBlockRef { br_number : N; br_hash : string }.

#[export] Instance BlockRef_eq_dec : EqDecision BlockRef.
Proof. solve_decision. Defined.

Record BlockHeader := mkBlockHeader {
  bh_number : N;
  bh_hash : string;
  bh_parent_number : N;
  bh_parent_hash : string;
  bh_timestamp : option N
}.

Definition header_block_ref (h : BlockHeader) : BlockRef :=
  mkBlockRef (bh_number h) (bh_hash h).

(** A fully-ingested block with its zstd-compressed JSON payload. *)
Record Block := mkBlock {
  number : N;
  hash : string;
  parent_number : N;
  parent_hash : string;
  timestamp : option N;
  json_line_zstd : list byte;
  timings : option BlockTimings
}.

Definition block_ref (b : Block) : BlockRef := mkBlockRef (number b) (hash b).

(** The reference a block makes to its parent. *)
Definition parent_ref (b : Block) : BlockRef :=
  mkBlockRef (parent_number b) (parent_hash b).

Definition header (b : Block) : BlockHeader :=
  mkBlockHeader (number b) (hash b) (parent_number b) (parent_hash b) (timestamp b).

(** ** Errors *)

(** The supplied base block is not on the chain: previous refs follow. *)
Record InvalidBaseBlock := mkInvalidBaseBlock { prev : list BlockRef }.

(** Input that contradicts the buffer it is applied to (WP-5). *)
Inductive IntegrityViolation : Type :=
  | RefEquivocation (number : N) (hash : string)
  | DescendingHeight (number parent_number : N)
  | ParentNotBuffered (number parent_number : N)
  | WriteBelowFinality (number : N)
  | ParentHashMismatch (number : N) (buffered claimed : string)
  | UnbufferedFinality (number : N)
  | FinalityHashMismatch (number : N) (buffered reported : string).

(** What a block stream can yield (source.rs, [StreamError]): [Fork] names the
    references the source emitted just before the divergence, and any other
    error is an [E], which is [AnyError] below. *)
Inductive StreamErrorOf (E : Type) : Type :=
  | Fork (previous_blocks : list BlockRef)
  | Other (e : E).
Arguments Fork {E} previous_blocks.
Arguments Other {E} e.

(** The messages the core builds with [anyhow!] and [ensure!], one constructor
    per message with the values it interpolates; [FromStream] is [?] turning a
    [StreamError] into an [anyhow::Error], and [SourceError] an error the chain
    adapter raised itself. *)
Inductive AnyError : Type :=
  | EmptyBatch
  | EmptyBlockHash (height : N)
  | EmptyParentHash (height : N)
  | UnsafeBlockHash (height : N)
  | UnsafeParentHash (height : N)
  | EmptyFinalityHash (height : N)
  | UnsafeFinalityHash (height : N)
  | NotPairwiseLinked (a b : BlockRef)
  | ConflictingReports (height : N) (current reported : string)
  | BatchContradicts (v : IntegrityViolation)
  | ObligationContradicts (v : IntegrityViolation)
  | EmptyForkSignal
  | StreamEndedWithoutError
  | HeadStreamEndedBeforeFirstBlock
  | FirstSessionDied (e : AnyError)
  | RollbackBehindFinalized (finalized : BlockRef) (fork_refs : list BlockRef)
  | ZeroCacheSize
  | SeedHeadFailed (e : AnyError)
  | SeedHeadEmptyHash
  | SeedHeadUnsafeHash
  | SeedFetchFailed (e : StreamErrorOf AnyError)
  | SeedNoBlocks
  | SeedCountMismatch (height : N) (got : nat)
  | SeedParentAbove (number parent_number : N)
  | SeedMismatch (seed head : BlockRef)
  | DivergentReseed (seed seed_parent held held_parent : BlockRef)
  | BelowQueryNoBlocks (from to : N)
  | BelowQueryEmptyFork
  | BelowQueryFailed (e : AnyError)
  | BelowQueryEndedEmpty
  | ContinuityViolated (at_ref parent : BlockRef)
  | FromStream (e : StreamErrorOf AnyError)
  | SourceError (what : string).

Definition StreamError : Type := StreamErrorOf AnyError.

Definition is_fork (e : StreamError) : bool :=
  match e with Fork _ => true | Other _ => false end.

(** Error returned by [DataService::query]. *)
Inductive QueryError : Type :=
  | QInvalidBaseBlock (e : InvalidBaseBlock)
  | QInternal (e : AnyError).

(** ** Requests, batches, responses *)

Record StreamRequest := mkStreamRequest {
  req_from : N;
  req_to : option N;
  req_parent_hash : option string
}.

Record BlockBatch := mkBlockBatch {
  batch_blocks : list Block;
  batch_finalized_head : option BlockRef
}.

(** The asynchronous head of a response, as the items it delivers in order. *)
Definition HeadStream : Type := list (Result (list Block) AnyError).

Record DataResponse := mkDataResponse {
  resp_finalized_head : option BlockRef;
  resp_head : option HeadStream;
  resp_tail : option (list Block)
}.
