(* ===== verification/Chain.v ===== *)
(** * Chain: the in-memory chain buffer (chain.rs)

    A sliding window of linked blocks with a finalized-head index and an undo
    log for the batch being applied. [usize] indices are [nat]; a Rust panic
    (an index out of range, [expect] on an empty buffer) is [None]. *)
From S2P Require Import Prelude Types.
Local Open Scope rust_scope.

(** Returns true if [a] is the direct parent of [b]. *)
Definition is_chain (a b : Block) : bool :=
  (number a =? parent_number b)%N && bool_decide (hash a = parent_hash b).

(** The binary search's loop. [fuel] bounds the iterations; each one shrinks
    [hi - lo], so the length of the slice is enough. *)
Fixpoint bisect_loop (fuel : nat) (blocks : list Block) (target : N) (lo hi : nat)
    : option nat :=
  if lo <? hi then
    match fuel with
    | 0 => None
    | S fuel =>
        let mid := lo + (hi - lo) / 2 in
        let! b := blocks !! mid in
        if (number b <? target)%N then bisect_loop fuel blocks target (mid + 1) hi
        else bisect_loop fuel blocks target lo mid
    end
  else Some lo.

(** Index of the first block with [number >= target]. *)
Definition bisect (blocks : list Block) (target : N) : option nat :=
  bisect_loop (length blocks) blocks target 0 (length blocks).

(** What a [push] did to the buffer. *)
Inductive Push : Type := Inserted | Absorbed.

#[export] Instance Push_eq_dec : EqDecision Push.
Proof. solve_decision. Defined.

(** What compaction could do about the window this time. *)
Record Compaction := mkCompaction {
  excess : nat;
  force_advanced_past : option N
}.

Definition Compaction_default : Compaction := mkCompaction 0 None.

Definition within_window (c : Compaction) : bool := excess c =? 0.

(** Undo log for the batch currently being applied: the leading blocks the
    batch has not touched, and the originals above them. *)
Record BatchUndo := mkBatchUndo {
  intact : nat;
  removed : list Block;
  undo_finalized_head : nat
}.

Record Chain := mkChain {
  blocks : list Block;
  finalized_head : nat;
  max_size : nat;
  auto_adjust_finalized_head : bool;
  undo : option BatchUndo
}.

Definition set_blocks (c : Chain) (bs : list Block) : Chain :=
  mkChain bs (finalized_head c) (max_size c) (auto_adjust_finalized_head c) (undo c).

Definition set_finalized_head (c : Chain) (f : nat) : Chain :=
  mkChain (blocks c) f (max_size c) (auto_adjust_finalized_head c) (undo c).

Definition set_undo (c : Chain) (u : option BatchUndo) : Chain :=
  mkChain (blocks c) (finalized_head c) (max_size c) (auto_adjust_finalized_head c) u.

(** [assert!(max_size > 0)] panics otherwise. *)
Definition chain_new (base : Block) (max_size : nat) (auto_adjust : bool) : option Chain :=
  if max_size =? 0 then None
  else Some (mkChain [base] 0 max_size auto_adjust None).

(** ** Getters *)

Definition first_block (c : Chain) : option Block := blocks c !! 0.
Definition block_at (c : Chain) (n : N) : option Block :=
  List.find (fun b => (number b =? n)%N) (blocks c).
Definition last_block (c : Chain) : option Block := last (blocks c).
Definition first_block_number (c : Chain) : option N := number <$> first_block c.
Definition last_block_number (c : Chain) : option N := number <$> last_block c.
Definition window_excess (c : Chain) : nat := length (blocks c) - max_size c.
Definition chain_size (c : Chain) : nat := length (blocks c).
Definition get_finalized_head (c : Chain) : option BlockRef :=
  block_ref <$> (blocks c !! finalized_head c).
Definition get_finalized_header (c : Chain) : option BlockHeader :=
  header <$> (blocks c !! finalized_head c).
Definition get_head (c : Chain) : option BlockRef := block_ref <$> last_block c.
Definition get_header (c : Chain) : option BlockHeader := header <$> last_block c.

(** ** Batch atomicity (WP-5) *)

(** Release-build behaviour: opening a batch discards any log still open. *)
Definition begin_batch (c : Chain) : Chain :=
  set_undo c (Some (mkBatchUndo (length (blocks c)) [] (finalized_head c))).

Definition commit_batch (c : Chain) : Chain := set_undo c None.

Definition rollback_batch (c : Chain) : Chain :=
  match undo c with
  | None => c
  | Some u =>
      mkChain (take (intact u) (blocks c) ++ removed u) (undo_finalized_head u)
        (max_size c) (auto_adjust_finalized_head c) None
  end.

(** Save the originals a truncation down to [from] is about to drop. The
    slice [blocks[from..intact]] panics when [intact] is past the end. *)
Definition record_removal (c : Chain) (from : nat) : option Chain :=
  match undo c with
  | None => Some c
  | Some u =>
      if intact u <=? from then Some c
      else if intact u <=? length (blocks c) then
        let originals := take (intact u - from) (drop from (blocks c)) in
        Some (set_undo c (Some (mkBatchUndo from (originals ++ removed u)
                                  (undo_finalized_head u))))
      else None
  end.

(** ** Mutation *)

(** The duplicate / equivocation verdict against the block already held at
    the new block's height, if any. *)
Definition held_verdict (held : option Block) (new_block : Block)
    : option (Result Push IntegrityViolation) :=
  match held with
  | Some h =>
      if (number h =? number new_block)%N && bool_decide (hash h = hash new_block) then
        if (parent_number h =? parent_number new_block)%N
           && bool_decide (parent_hash h = parent_hash new_block)
        then Some (Ok Absorbed)
        else Some (Err (RefEquivocation (number new_block) (hash new_block)))
      else None
  | None => None
  end.

Definition push (c : Chain) (new_block : Block)
    : option (Chain * Result Push IntegrityViolation) :=
  let! at_ := bisect (blocks c) (number new_block) in
  match held_verdict (blocks c !! at_) new_block with
  | Some verdict => Some (c, verdict)
  | None =>
  if (number new_block <=? parent_number new_block)%N then
    Some (c, Err (DescendingHeight (number new_block) (parent_number new_block)))
  else
  let! last := last_block c in
  if (number last =? parent_number new_block)%N then
    if is_chain last new_block then
      Some (set_blocks c (blocks c ++ [new_block]), Ok Inserted)
    else
      Some (c, Err (ParentHashMismatch (number new_block) (hash last)
                      (parent_hash new_block)))
  else
  let! pos := bisect (blocks c) (parent_number new_block) in
  if pos <? finalized_head c then
    Some (c, Err (WriteBelowFinality (number new_block)))
  else
  match blocks c !! pos with
  | None =>
      Some (c, Err (ParentNotBuffered (number new_block) (parent_number new_block)))
  | Some p =>
      if negb (number p =? parent_number new_block)%N then
        Some (c, Err (ParentNotBuffered (number new_block) (parent_number new_block)))
      else if negb (bool_decide (hash p = parent_hash new_block)) then
        Some (c, Err (ParentHashMismatch (number new_block) (hash p)
                        (parent_hash new_block)))
      else
        let! c' := record_removal c (pos + 1) in
        Some (set_blocks c' (take (pos + 1) (blocks c') ++ [new_block]), Ok Inserted)
  end
  end.

(** Advance the finalized head to [head]; [true] if it actually moved. *)
Definition finalize (c : Chain) (head : BlockRef)
    : option (Chain * Result bool IntegrityViolation) :=
  let! fin := blocks c !! finalized_head c in
  if (br_number head <? number fin)%N then Some (c, Ok false)
  else
  let current := finalized_head c in
  let! last := last_block c in
  if (number last <? br_number head)%N then
    let f := length (blocks c) - 1 in
    Some (set_finalized_head c f, Ok (current <? f))
  else
  let! pos := (if (br_number head =? number last)%N then Some (length (blocks c) - 1)
               else bisect (blocks c) (br_number head)) in
  let! b := blocks c !! pos in
  if negb (number b =? br_number head)%N then
    Some (c, Err (UnbufferedFinality (br_number head)))
  else if negb (bool_decide (hash b = br_hash head)) then
    Some (c, Err (FinalityHashMismatch (br_number head) (hash b) (br_hash head)))
  else
    let f := Nat.max (finalized_head c) pos in
    Some (set_finalized_head c f, Ok (current <? f)).

(** Trim old finalized blocks to keep the buffer at or below [max_size]. *)
Definition compact (c : Chain) : option (Chain * Compaction) :=
  let extra := length (blocks c) - max_size c in
  if extra =? 0 then Some (c, Compaction_default)
  else
  let! (c1, past) :=
    (if (finalized_head c <? extra) && auto_adjust_finalized_head c then
       let! new_last := blocks c !! (extra - 1) in
       Some (set_finalized_head c extra, Some (number new_last))
     else Some (c, None)) in
  let trim := Nat.min extra (finalized_head c1) in
  let c2 := mkChain (drop trim (blocks c1)) (finalized_head c1 - trim) (max_size c1)
              (auto_adjust_finalized_head c1) (undo c1) in
  Some (c2, mkCompaction (length (blocks c2) - max_size c2) past).

(** ** Queries *)

Definition empty_response : DataResponse := mkDataResponse None None None.

(** The refs a conflict at window position [pos] reports. *)
Definition conflict_prev_in_window (c : Chain) (pos : nat) : option (list BlockRef) :=
  let start := pos - 100 in
  let window := take (pos + 1 - start) (drop start (blocks c)) in
  let prev :=
    parent_ref <$> List.filter (fun b => negb (parent_number b =? number b)%N) window in
  match prev with
  | [] => let! first := first_block c in Some [block_ref first]
  | _ => Some prev
  end.

(** The refs a conflict one past the head reports. *)
Definition conflict_prev_at_head (c : Chain) : list BlockRef :=
  let start := length (blocks c) - 100 in
  block_ref <$> drop start (blocks c).

(** [last.number + 1], which panics (or wraps) past [u64::MAX]. *)
Definition succ_u64 (n : N) : option N :=
  if (n <? u64_max)%N then Some (n + 1)%N else None.

Definition query (c : Chain) (from : N) (base_block_hash : option string)
    : option (Result DataResponse InvalidBaseBlock) :=
  let! first := first_block c in
  if negb (parent_number first =? number first)%N && (from <=? parent_number first)%N then
    Some (Ok empty_response)
  else
  let! pos := bisect (blocks c) from in
  if pos <? length (blocks c) then
    let! b := blocks c !! pos in
    let mismatch :=
      match base_block_hash with
      | Some bhash => negb (bool_decide (parent_hash b = bhash))
      | None => false
      end in
    if mismatch then
      let! prev := conflict_prev_in_window c pos in
      Some (Err (mkInvalidBaseBlock prev))
    else
      let! fin := get_finalized_head c in
      Some (Ok (mkDataResponse (Some fin) None (Some (drop pos (blocks c)))))
  else
    match base_block_hash with
    | Some bhash =>
        let! last := last_block c in
        let! next := succ_u64 (number last) in
        if (from =? next)%N && negb (bool_decide (bhash = hash last)) then
          Some (Err (mkInvalidBaseBlock (conflict_prev_at_head c)))
        else
          let! fin := get_finalized_head c in
          Some (Ok (mkDataResponse (Some fin) None None))
    | None =>
        let! fin := get_finalized_head c in
        Some (Ok (mkDataResponse (Some fin) None None))
    end.

Definition snapshot (c : Chain) : list Block := blocks c.

(** ** Fork base *)

(** [while fh.number > head.number { fh = prev.pop() }], with the stack of
    refs still to be popped kept in reverse (its head is the next pop). *)
Fixpoint pop_above (head : BlockRef) (stack : list BlockRef) : list BlockRef :=
  match stack with
  | r :: rest => if (br_number head <? br_number r)%N then pop_above head rest else stack
  | [] => []
  end.

(** The walk from index [top] down to the finalized head; the stack's first
    element is [fh], and an empty stack is [fh = None]. *)
Fixpoint fork_walk (c : Chain) (n : nat) (stack : list BlockRef) : option (option BlockRef) :=
  match n with
  | 0 => Some None
  | S top =>
      if top <? finalized_head c then Some None
      else
      let! b := blocks c !! top in
      let head := block_ref b in
      let stack := pop_above head stack in
      match stack with
      | [] => Some (Some head)
      | fh :: _ =>
          if (br_number fh =? br_number head)%N && bool_decide (br_hash fh = br_hash head)
          then Some (Some head)
          else fork_walk c top stack
      end
  end.

Definition get_fork_base (c : Chain) (prev : list BlockRef) : option (option BlockRef) :=
  fork_walk c (length (blocks c)) (rev prev).

(** ** The shape of a buffer (INV-1..3) *)

(** [b] may follow [a]: linked and strictly above it. *)
Definition follows (a b : Block) : Prop :=
  is_chain a b = true /\ (number a < number b)%N.

Definition below (a b : Block) : Prop := (number a < number b)%N.

(** The buffer's shape: linked, strictly ascending, and a first block whose
    parent coordinate is not above it (DEF-4). *)
Record chain_shape (bs : list Block) : Prop := {
  shape_nonempty : bs <> [];
  shape_linked : adjacent follows bs;
  shape_root : forall b, bs !! 0 = Some b -> (parent_number b <= number b)%N
}.

Record chain_wf (c : Chain) : Prop := {
  wf_shape : chain_shape (blocks c);
  wf_fin : finalized_head c < length (blocks c);
  wf_max : 0 < max_size c
}.

(** The batch's undo log describes [c0], the buffer the batch was opened on. *)
Record log_of (c0 c : Chain) : Prop := {
  log_open : exists u, undo c = Some u /\ intact u <= length (blocks c) /\
               take (intact u) (blocks c) ++ removed u = blocks c0 /\
               undo_finalized_head u = finalized_head c0;
  log_max : max_size c = max_size c0;
  log_auto : auto_adjust_finalized_head c = auto_adjust_finalized_head c0
}.

(** What a batch may do to the buffer between [begin_batch] and its end. *)
Inductive BatchOp : Type :=
  | OpPush (b : Block)
  | OpFinalize (r : BlockRef).

Definition run_batch_op (c : Chain) (op : BatchOp) : option Chain :=
  match op with
  | OpPush b => fst <$> push c b
  | OpFinalize r => fst <$> finalize c r
  end.

Fixpoint run_batch_ops (c : Chain) (ops : list BatchOp) : option Chain :=
  match ops with
  | [] => Some c
  | op :: ops => match run_batch_op c op with
                 | Some c' => run_batch_ops c' ops
                 | None => None
                 end
  end.

(** ** Binary search *)

(** The specification of [bisect]: count the leading blocks below [target]. *)
Fixpoint lower_bound (bs : list Block) (target : N) : nat :=
  match bs with
  | b :: rest => if (number b <? target)%N then S (lower_bound rest target) else 0
  | [] => 0
  end.

Lemma lower_bound_le bs t : lower_bound bs t <= length bs.
Proof. induction bs as [|b bs IH]; simpl; [lia|]. case_match; lia. Qed.

Lemma lower_bound_before bs t i b :
  bs !! i = Some b -> i < lower_bound bs t -> (number b < t)%N.
Proof.
  revert i. induction bs as [|a bs IH]; intros i Hi Hlt; simpl in *; [lia|].
  destruct (N.ltb_spec (number a) t); [|lia].
  destruct i as [|i]; simplify_eq/=; [done|]. apply (IH i); [done|lia].
Qed.

Lemma lower_bound_at bs t b :
  bs !! lower_bound bs t = Some b -> (t <= number b)%N.
Proof.
  induction bs as [|a bs IH]; simpl; [done|].
  destruct (N.ltb_spec (number a) t); simpl; [done|]. intros. by simplify_eq.
Qed.

#[export] Instance below_transitive : Transitive below.
Proof. intros a b c. unfold below. lia. Qed.

Lemma below_at_or_after bs t i b :
  adjacent below bs -> bs !! i = Some b -> lower_bound bs t <= i -> (t <= number b)%N.
Proof.
  intros Hasc Hi Hle. destruct (decide (lower_bound bs t = i)) as [<-|Hne].
  - by apply (lower_bound_at bs).
  - destruct (bs !! lower_bound bs t) as [a|] eqn:Ha.
    + pose proof (lower_bound_at _ _ _ Ha).
      assert (below a b) as Hab
        by (by apply (adjacent_lt below bs (lower_bound bs t) i a b); [|lia|..]).
      unfold below in Hab. lia.
    + apply lookup_ge_None in Ha. apply lookup_lt_Some in Hi. lia.
Qed.

Lemma bisect_loop_spec fuel bs t lo hi :
  adjacent below bs ->
  lo <= lower_bound bs t <= hi -> hi <= length bs -> hi - lo <= fuel ->
  bisect_loop fuel bs t lo hi = Some (lower_bound bs t).
Proof.
  intros Hasc. revert lo hi. induction fuel as [|fuel IH]; intros lo hi Hlb Hhi Hf; cbn [bisect_loop].
  - destruct (Nat.ltb_spec lo hi); [lia|]. f_equal. lia.
  - destruct (Nat.ltb_spec lo hi); [|f_equal; lia].
    set (mid := lo + _).
    assert (lo <= mid < hi) as Hmid.
    { subst mid. assert ((hi - lo) / 2 < hi - lo) by (apply Nat.div_lt; lia). lia. }
    destruct (bs !! mid) as [b|] eqn:Hb; [|apply lookup_ge_None in Hb; lia].
    destruct (N.ltb_spec (number b) t).
    + apply IH; [|lia..]. split; [|lia].
      destruct (decide (mid < lower_bound bs t)) as [|Hn]; [lia|].
      pose proof (below_at_or_after bs t mid b Hasc Hb ltac:(lia)). lia.
    + apply IH; [|lia..]. split; [lia|].
      destruct (decide (lower_bound bs t <= mid)) as [|Hn]; [lia|].
      pose proof (lower_bound_before bs t mid b Hb ltac:(lia)). lia.
Qed.

Lemma bisect_eq bs t :
  adjacent below bs -> bisect bs t = Some (lower_bound bs t).
Proof.
  intros H. apply bisect_loop_spec; [done| |lia|lia].
  pose proof (lower_bound_le bs t). lia.
Qed.

(** An exact hit: the only block at [t] sits at the lower bound. *)
Lemma lower_bound_exact bs i b :
  adjacent below bs -> bs !! i = Some b -> lower_bound bs (number b) = i.
Proof.
  intros Hasc Hi.
  destruct (Nat.lt_trichotomy (lower_bound bs (number b)) i) as [Hlt|[?|Hgt]]; [|done|].
  - destruct (bs !! lower_bound bs (number b)) as [a|] eqn:Ha.
    + pose proof (lower_bound_at _ _ _ Ha).
      assert (below a b) as Hab by (by apply (adjacent_lt below bs (lower_bound bs (number b)) i a b)). unfold below in Hab. lia.
    + apply lookup_ge_None in Ha. apply lookup_lt_Some in Hi. lia.
  - pose proof (lower_bound_before _ _ _ _ Hi Hgt). lia.
Qed.

(** Heights grow with the index. *)
Lemma below_le bs i j a b :
  adjacent below bs -> bs !! i = Some a -> bs !! j = Some b -> i <= j ->
  (number a <= number b)%N.
Proof.
  intros Hasc Ha Hb Hle. destruct (decide (i = j)) as [->|]; [by simplify_eq|].
  apply N.lt_le_incl. apply (adjacent_lt below bs i j); auto; lia.
Qed.

Lemma follows_below bs : adjacent follows bs -> adjacent below bs.
Proof. apply adjacent_impl. by intros x y []. Qed.
#[export] Hint Resolve follows_below : hotblocks.

(** ** Push *)

#[local] Arguments take : simpl never.
#[local] Arguments drop : simpl never.

Definition undo_ok (c : Chain) : Prop :=
  match undo c with Some u => intact u <= length (blocks c) | None => True end.

(** The three things a push can do: absorb a redelivery, cut the buffer at the
    block's parent (at or above finality) and append, or reject untouched. *)
Inductive push_effect (c : Chain) (b : Block) : Chain -> Result Push IntegrityViolation -> Prop :=
  | effect_absorbed h :
      h ∈ blocks c -> block_ref h = block_ref b -> parent_ref h = parent_ref b ->
      push_effect c b c (Ok Absorbed)
  | effect_inserted i p c1 :
      blocks c !! i = Some p -> finalized_head c <= i -> follows p b ->
      record_removal c (S i) = Some c1 ->
      push_effect c b (set_blocks c1 (take (S i) (blocks c) ++ [b])) (Ok Inserted)
  | effect_rejected v : push_effect c b c (Err v).

Lemma is_chain_spec a b :
  is_chain a b = true <-> number a = parent_number b /\ hash a = parent_hash b.
Proof. unfold is_chain. rewrite andb_true_iff, N.eqb_eq, bool_decide_eq_true. done. Qed.

Lemma record_removal_total c from :
  undo_ok c -> from <= length (blocks c) ->
  exists c1, record_removal c from = Some c1 /\
    blocks c1 = blocks c /\ finalized_head c1 = finalized_head c /\
    max_size c1 = max_size c /\
    auto_adjust_finalized_head c1 = auto_adjust_finalized_head c.
Proof.
  unfold undo_ok, record_removal. intros Hu Hf.
  destruct (undo c) as [u|] eqn:Eu; [|by eauto 10].
  case_match; [by eauto 10|]. rewrite (proj2 (Nat.leb_le _ _) Hu). by eauto 10.
Qed.

Lemma record_removal_none c from c1 :
  undo c = None -> record_removal c from = Some c1 -> c1 = c.
Proof. unfold record_removal. intros ->. congruence. Qed.

Lemma last_block_lookup c b :
  last_block c = Some b -> blocks c !! (length (blocks c) - 1) = Some b.
Proof.
  unfold last_block. rewrite last_lookup. intros <-. f_equal. lia.
Qed.

Lemma last_block_some c : blocks c <> [] -> exists b, last_block c = Some b.
Proof.
  unfold last_block. intros H. destruct (last (blocks c)) eqn:E; [eauto|].
  by apply last_None in E.
Qed.

Lemma set_blocks_id c : set_blocks c (blocks c) = c.
Proof. by destruct c. Qed.

Lemma held_verdict_some o b r :
  held_verdict o b = Some r ->
  exists h, o = Some h /\ block_ref h = block_ref b /\
    ((r = Ok Absorbed /\ parent_ref h = parent_ref b) \/ exists v, r = Err v).
Proof.
  unfold held_verdict, block_ref, parent_ref. destruct o as [h|]; [|done].
  destruct (N.eqb_spec (number h) (number b)); [|done]; simpl.
  case_bool_decide; [|done]. intros Hr. exists h. split_and!; [done|congruence|].
  destruct (N.eqb_spec (parent_number h) (parent_number b)); simpl in Hr;
    [case_bool_decide|]; simplify_eq; eauto. left. split; [done|congruence].
Qed.

Lemma push_total c b :
  chain_wf c -> undo_ok c ->
  exists c' r, push c b = Some (c', r) /\ push_effect c b c' r.
Proof.
  intros [[Hne Hlk Hroot] Hfin Hmax] Hundo. unfold push.
  pose proof (follows_below _ Hlk) as Hasc.
  rewrite !bisect_eq by done. simpl.
  destruct (held_verdict _ b) as [v|] eqn:Ev.
  { apply held_verdict_some in Ev as (h & Hh & Hr & [[-> Hp]|[v' ->]]);
      do 2 eexists; (split; [done|]); [|constructor].
    eapply effect_absorbed; eauto. by eapply list_elem_of_lookup_2. }
  clear Ev. destruct (N.leb_spec (number b) (parent_number b)) as [|Hlt].
  { do 2 eexists. split; [done|constructor]. }
  destruct (last_block_some c Hne) as [l Hl]. rewrite Hl.
  pose proof (last_block_lookup c l Hl) as Hll.
  destruct (N.eqb_spec (number l) (parent_number b)) as [Hnum|Hnum].
  { destruct (is_chain l b) eqn:Hic; [|do 2 eexists; split; [done|constructor]].
    destruct (record_removal_total c (length (blocks c)) Hundo ltac:(lia)) as (c1 & Hc1 & _).
    assert (c1 = c) as ->.
    { unfold record_removal, undo_ok in *. destruct (undo c) as [u|]; [|congruence].
      rewrite (proj2 (Nat.leb_le _ _) Hundo) in Hc1. congruence. }
    do 2 eexists. split; [done|].
    pose proof (effect_inserted c b (length (blocks c) - 1) l c) as E.
    replace (S (length (blocks c) - 1)) with (length (blocks c)) in E by lia.
    rewrite take_ge in E by lia. apply E; auto; [lia|].
    apply is_chain_spec in Hic as Hic'. split; [done|lia]. }
  destruct (Nat.ltb_spec (lower_bound (blocks c) (parent_number b)) (finalized_head c)).
  { do 2 eexists. split; [done|constructor]. }
  destruct (blocks c !! lower_bound (blocks c) (parent_number b)) as [p|] eqn:Hp;
    [|do 2 eexists; split; [done|constructor]].
  destruct (N.eqb_spec (number p) (parent_number b)) as [Hpn|]; simpl;
    [|do 2 eexists; split; [done|constructor]].
  case_bool_decide as Hph; simpl; [|do 2 eexists; split; [done|constructor]].
  pose proof (lookup_lt_Some _ _ _ Hp) as Hlen.
  destruct (record_removal_total c (lower_bound (blocks c) (parent_number b) + 1)
    Hundo ltac:(lia)) as (c1 & Hc1 & Hb1 & _).
  rewrite Hc1. do 2 eexists. split; [done|]. rewrite Hb1.
  rewrite Nat.add_1_r in *. econstructor; eauto.
  split; [by apply is_chain_spec|lia].
Qed.

Lemma shape_push bs i p b :
  chain_shape bs -> bs !! i = Some p -> follows p b -> chain_shape (take (S i) bs ++ [b]).
Proof.
  intros [Hne Hlk Hroot] Hi Hf. pose proof (lookup_lt_Some _ _ _ Hi).
  split.
  - by destruct (take (S i) bs).
  - apply (adjacent_snoc _ _ p); [auto with hotblocks| |done].
    rewrite last_lookup, length_take_le, lookup_take_lt by lia. done.
  - intros x Hx. destruct bs as [|a bs]; simplify_eq/=. by apply Hroot.
Qed.

Lemma shape_drop bs k :
  chain_shape bs -> k < length bs -> chain_shape (drop k bs).
Proof.
  intros [Hne Hlk Hroot] Hk. split.
  - intros E%(f_equal length). rewrite length_drop in E. simpl in E. lia.
  - auto with hotblocks.
  - intros b. rewrite lookup_drop, Nat.add_0_r. intros Hb.
    destruct k as [|k]; [by apply Hroot|].
    destruct (bs !! k) as [a|] eqn:Ha; [|apply lookup_ge_None in Ha; lia].
    destruct (Hlk _ _ _ Ha Hb) as [[E _]%is_chain_spec ?]. lia.
Qed.
#[export] Hint Resolve shape_push shape_drop : hotblocks.

Lemma push_effect_wf c b c' r :
  chain_wf c -> undo_ok c -> push_effect c b c' r -> chain_wf c'.
Proof.
  intros Hwf Hu [ | i p c1 Hi Hfin Hf Hrm | ]; [done| |done].
  destruct Hwf as [Hs Hfl Hm]. pose proof (lookup_lt_Some _ _ _ Hi).
  destruct (record_removal_total c (S i) Hu ltac:(lia)) as (c2 & Hc2 & _ & Ef & Em & _).
  simplify_eq. split; simpl.
  - eauto with hotblocks.
  - rewrite length_app, length_take_le, Ef by lia. simpl. lia.
  - by rewrite Em.
Qed.

(** The record a truncation leaves: either nothing changes, or the log grows
    down to the cut. *)
Lemma record_removal_log c0 c c1 from b :
  log_of c0 c -> from <= length (blocks c) -> record_removal c from = Some c1 ->
  log_of c0 (set_blocks c1 (take from (blocks c) ++ [b])).
Proof.
  intros [(u & Eu & Hi & Hb & Hf) Hm Ha] Hlen. unfold record_removal. rewrite Eu.
  destruct (Nat.leb_spec (intact u) from) as [Hle|Hlt].
  - intros [= <-]. split; simpl; [|done..]. exists u. split_and!; [done| |  |done].
    + rewrite length_app, length_take. simpl. lia.
    + rewrite take_app_le, take_take, Nat.min_l; [done|lia|rewrite length_take; lia].
  - rewrite (proj2 (Nat.leb_le _ _) Hi). intros [= <-]. split; simpl; [|done..].
    eexists. split_and!; [reflexivity|simpl..]; [ | |done].
    + rewrite length_app, length_take. simpl. lia.
    + rewrite take_app_le, take_take, Nat.min_l by (rewrite ?length_take; lia).
      rewrite <- Hb, app_assoc. f_equal.
      replace (intact u) with (from + (intact u - from)) at 2 by lia.
      by rewrite take_take_drop.
Qed.

Lemma push_effect_log c0 c b c' r :
  log_of c0 c -> push_effect c b c' r -> log_of c0 c'.
Proof.
  intros Hl [ | i p c1 Hi Hfin Hf Hrm | ]; [done| |done].
  eapply record_removal_log; eauto. pose proof (lookup_lt_Some _ _ _ Hi). lia.
Qed.

Lemma log_of_undo_ok c0 c : log_of c0 c -> undo_ok c.
Proof. intros [(u & Eu & Hi & _) _ _]. unfold undo_ok. by rewrite Eu. Qed.
#[export] Hint Resolve log_of_undo_ok push_effect_log push_effect_wf : hotblocks.

(** ** Finalize *)

Inductive finalize_effect (c : Chain) (h : BlockRef)
    : Chain -> Result bool IntegrityViolation -> Prop :=
  | effect_stale fin :
      blocks c !! finalized_head c = Some fin -> (br_number h < number fin)%N ->
      finalize_effect c h c (Ok false)
  | effect_whole_buffer l :
      last_block c = Some l -> (number l < br_number h)%N ->
      finalize_effect c h (set_finalized_head c (length (blocks c) - 1))
        (Ok (finalized_head c <? length (blocks c) - 1))
  | effect_exact i b :
      blocks c !! i = Some b -> block_ref b = h -> finalized_head c <= i ->
      finalize_effect c h (set_finalized_head c i) (Ok (finalized_head c <? i))
  | effect_unbuffered fin l :
      blocks c !! finalized_head c = Some fin -> last_block c = Some l ->
      (number fin <= br_number h <= number l)%N ->
      (forall b, b ∈ blocks c -> number b <> br_number h) ->
      finalize_effect c h c (Err (UnbufferedFinality (br_number h)))
  | effect_mismatch fin b :
      blocks c !! finalized_head c = Some fin -> (number fin <= br_number h)%N ->
      b ∈ blocks c -> number b = br_number h -> hash b <> br_hash h ->
      finalize_effect c h c (Err (FinalityHashMismatch (br_number h) (hash b) (br_hash h))).

(** No block of the buffer is at [t] when the lower bound is not one. *)
Lemma lower_bound_miss bs t b :
  adjacent below bs -> bs !! lower_bound bs t = Some b -> number b <> t ->
  forall a, a ∈ bs -> number a <> t.
Proof.
  intros Hasc Hb Hne a [i Hi]%list_elem_of_lookup_1 <-.
  rewrite (lower_bound_exact _ _ _ Hasc Hi) in Hb. congruence.
Qed.

Lemma finalize_total c h :
  chain_wf c -> exists c' r, finalize c h = Some (c', r) /\ finalize_effect c h c' r.
Proof.
  intros [[Hne Hlk Hroot] Hfin Hmax]. unfold finalize.
  pose proof (follows_below _ Hlk) as Hasc.
  destruct (blocks c !! finalized_head c) as [fin|] eqn:Hf;
    [|apply lookup_ge_None in Hf; lia].
  destruct (N.ltb_spec (br_number h) (number fin)) as [|Hge].
  { do 2 eexists. split; [done|]. by econstructor. }
  destruct (last_block_some c Hne) as [l Hl]. rewrite Hl.
  destruct (N.ltb_spec (number l) (br_number h)) as [|Hle].
  { do 2 eexists. split; [done|]. by econstructor. }
  pose proof (last_block_lookup c l Hl) as Hll.
  assert ((if (br_number h =? number l)%N then Some (length (blocks c) - 1)
           else bisect (blocks c) (br_number h)) = Some (lower_bound (blocks c) (br_number h)))
    as ->.
  { rewrite bisect_eq by done. destruct (N.eqb_spec (br_number h) (number l)) as [->|]; [|done].
    by rewrite (lower_bound_exact _ _ _ Hasc Hll). }
  destruct (blocks c !! lower_bound (blocks c) (br_number h)) as [b|] eqn:Hb.
  2:{ apply lookup_ge_None in Hb.
      pose proof (lower_bound_before _ (br_number h) _ _ Hll ltac:(lia)). lia. }
  destruct (N.eqb_spec (number b) (br_number h)) as [Hn|Hn]; simpl.
  2:{ do 2 eexists. split; [done|]. eapply effect_unbuffered; eauto.
      eapply lower_bound_miss; eauto. }
  case_bool_decide as Hh; simpl.
  2:{ do 2 eexists. split; [done|]. econstructor; eauto using list_elem_of_lookup_2. }
  do 2 eexists. split; [done|].
  assert (finalized_head c <= lower_bound (blocks c) (br_number h)) as Hfl.
  { rewrite <- Hn in Hge |- *. rewrite (lower_bound_exact _ _ _ Hasc Hb).
    destruct (Nat.le_gt_cases (finalized_head c) (lower_bound (blocks c) (br_number h)))
      as [|Hlt]; [done|].
    assert (below b fin) as Hbf by (by eapply (adjacent_lt below _ _ _ _ _ Hasc Hlt)).
    unfold below in Hbf. lia. }
  rewrite Nat.max_r by done. econstructor; eauto.
  unfold block_ref. destruct h; simpl in *. congruence.
Qed.

(** No block of the buffer is above its head. *)
Lemma number_le_last c l i b :
  chain_wf c -> last_block c = Some l -> blocks c !! i = Some b -> (number b <= number l)%N.
Proof.
  intros [[_ Hlk _] _ _] Hl Hi. pose proof (lookup_lt_Some _ _ _ Hi).
  pose proof (last_block_lookup _ _ Hl).
  eapply (below_le (blocks c) i (length (blocks c) - 1)); eauto with hotblocks; lia.
Qed.

Lemma finalize_effect_form c h c' r :
  chain_wf c -> finalize_effect c h c' r ->
  exists f, c' = set_finalized_head c f /\ finalized_head c <= f < length (blocks c).
Proof.
  intros [Hs Hf Hm] He.
  assert (c = set_finalized_head c (finalized_head c)) as Hid by (by destruct c).
  destruct He as [ | | i b Hi | | ]; try (exists (finalized_head c); done).
  - exists (length (blocks c) - 1). split; [done|lia].
  - exists i. pose proof (lookup_lt_Some _ _ _ Hi). done.
Qed.

Lemma finalize_effect_wf c h c' r :
  chain_wf c -> finalize_effect c h c' r -> chain_wf c'.
Proof.
  intros Hwf He. destruct (finalize_effect_form _ _ _ _ Hwf He) as (f & -> & Hf).
  destruct Hwf. split; simpl; [done|lia|done].
Qed.

Lemma finalize_effect_log c0 c h c' r :
  chain_wf c -> log_of c0 c -> finalize_effect c h c' r -> log_of c0 c'.
Proof.
  intros Hwf [? ? ?] He. destruct (finalize_effect_form _ _ _ _ Hwf He) as (f & -> & Hf).
  by split.
Qed.
#[export] Hint Resolve finalize_effect_wf finalize_effect_log : hotblocks.

(** ** Batches of pushes and reports *)

Lemma run_batch_op_total c op :
  chain_wf c -> undo_ok c -> exists c', run_batch_op c op = Some c'.
Proof.
  intros Hwf Hu. destruct op as [b|h]; simpl.
  - destruct (push_total c b Hwf Hu) as (c' & r & -> & _). eauto.
  - destruct (finalize_total c h Hwf) as (c' & r & -> & _). eauto.
Qed.

Lemma run_batch_op_inv c0 c op c' :
  chain_wf c -> log_of c0 c -> run_batch_op c op = Some c' ->
  chain_wf c' /\ log_of c0 c'.
Proof.
  intros Hwf Hl. destruct op as [b|h]; simpl.
  - destruct (push_total c b Hwf) as (c1 & r & -> & ?); [eauto with hotblocks|].
    intros [= <-]. eauto with hotblocks.
  - destruct (finalize_total c h Hwf) as (c1 & r & -> & ?).
    intros [= <-]. eauto with hotblocks.
Qed.

Lemma run_batch_ops_inv c0 c ops :
  chain_wf c -> log_of c0 c ->
  exists c', run_batch_ops c ops = Some c' /\ chain_wf c' /\ log_of c0 c'.
Proof.
  revert c. induction ops as [|op ops IH]; intros c Hwf Hl; simpl; [eauto|].
  destruct (run_batch_op_total c op Hwf) as [c1 Hc1]; [eauto with hotblocks|].
  rewrite Hc1. destruct (run_batch_op_inv _ _ _ _ Hwf Hl Hc1). eauto.
Qed.

Lemma log_of_begin c : log_of c (begin_batch c).
Proof.
  split; simpl; [|done..]. eexists. split_and!; [done|simpl; lia| |done].
  simpl. by rewrite take_ge, app_nil_r by lia.
Qed.

Lemma begin_batch_wf c : chain_wf c -> chain_wf (begin_batch c).
Proof. by intros [? ? ?]. Qed.

Lemma commit_batch_wf c : chain_wf c -> chain_wf (commit_batch c).
Proof. by intros [? ? ?]. Qed.
#[export] Hint Resolve log_of_begin begin_batch_wf commit_batch_wf : hotblocks.

Lemma rollback_log c0 c : log_of c0 c -> rollback_batch c = set_undo c0 None.
Proof.
  intros [(u & Eu & _ & Hb & Hf) Hm Ha]. unfold rollback_batch, set_undo.
  by rewrite Eu, Hb, Hf, Hm, Ha.
Qed.

(** The finalized prefix survives one operation. *)
Lemma run_batch_op_prefix c op c' :
  chain_wf c -> undo_ok c -> run_batch_op c op = Some c' ->
  finalized_head c <= finalized_head c' /\
  take (S (finalized_head c)) (blocks c') = take (S (finalized_head c)) (blocks c).
Proof.
  intros Hwf Hu. destruct op as [b|h]; simpl.
  - destruct (push_total c b Hwf Hu) as (c1 & r & -> & He). intros [= <-].
    destruct He as [ | i p c2 Hi Hfin Hf Hrm | ]; [done| |done]; simpl.
    pose proof (lookup_lt_Some _ _ _ Hi).
    destruct (record_removal_total c (S i) Hu ltac:(lia)) as (c3 & Hc3 & _ & Ef & _).
    simplify_eq. rewrite Ef. split; [done|].
    rewrite take_app_le, take_take, Nat.min_l by (rewrite ?length_take_le; lia). done.
  - destruct (finalize_total c h Hwf) as (c1 & r & -> & He). intros [= <-].
    destruct (finalize_effect_form _ _ _ _ Hwf He) as (f & -> & Hf). simpl. split; [lia|done].
Qed.

Lemma run_batch_ops_prefix c0 c ops c' :
  chain_wf c -> log_of c0 c -> run_batch_ops c ops = Some c' ->
  finalized_head c <= finalized_head c' /\
  take (S (finalized_head c)) (blocks c') = take (S (finalized_head c)) (blocks c).
Proof.
  revert c. induction ops as [|op ops IH]; intros c Hwf Hl; simpl; [by intros [= ->]|].
  destruct (run_batch_op c op) as [c1|] eqn:E1; [|done]. intros E2.
  destruct (run_batch_op_prefix _ _ _ Hwf (log_of_undo_ok _ _ Hl) E1) as [Hle Ht].
  destruct (run_batch_op_inv _ _ _ _ Hwf Hl E1) as [Hwf1 Hl1].
  destruct (IH c1 Hwf1 Hl1 E2) as [Hle2 Ht2]. split; [lia|].
  rewrite <- Ht. apply (f_equal (take (S (finalized_head c)))) in Ht2.
  rewrite !take_take, Nat.min_l in Ht2 by lia. done.
Qed.

(** ** Compaction *)

(** The number of leading blocks a compaction drops. *)
Definition compact_drop (c : Chain) : nat :=
  let extra := length (blocks c) - max_size c in
  if auto_adjust_finalized_head c then extra else Nat.min extra (finalized_head c).

(** The height it reports having force-advanced past. *)
Definition compact_past (c : Chain) : option N :=
  let extra := length (blocks c) - max_size c in
  if auto_adjust_finalized_head c && (finalized_head c <? extra)
  then number <$> (blocks c !! (extra - 1)) else None.

Definition compact_spec (c : Chain) : Chain * Compaction :=
  let k := compact_drop c in
  (mkChain (drop k (blocks c)) (finalized_head c - k) (max_size c)
     (auto_adjust_finalized_head c) (undo c),
   mkCompaction (length (blocks c) - k - max_size c) (compact_past c)).

Lemma compact_eq c : chain_wf c -> compact c = Some (compact_spec c).
Proof.
  intros [Hs Hf Hm]. unfold compact, compact_spec, compact_drop, compact_past.
  destruct (Nat.eqb_spec (length (blocks c) - max_size c) 0) as [He|He].
  - rewrite He. simpl.
    replace (finalized_head c <? 0) with false by done. rewrite andb_false_r.
    replace (if auto_adjust_finalized_head c then 0 else 0) with 0 by by case_match.
    rewrite drop_0, !Nat.sub_0_r, He. by destruct c.
  - destruct (Nat.ltb_spec (finalized_head c) (length (blocks c) - max_size c)) as [Hlt|Hge];
      destruct (auto_adjust_finalized_head c) eqn:Ea; simpl.
    + destruct (blocks c !! (length (blocks c) - max_size c - 1)) as [b|] eqn:Hb;
        [|apply lookup_ge_None in Hb; lia]. simpl.
      rewrite Nat.min_id, length_drop, Ea. do 3 f_equal; lia.
    + by rewrite Ea, length_drop.
    + rewrite Ea, Nat.min_l, length_drop by lia. done.
    + by rewrite Ea, Nat.min_l, length_drop by lia.
Qed.

Lemma compact_drop_lt c : chain_wf c -> compact_drop c < length (blocks c).
Proof. intros [Hs Hf Hm]. unfold compact_drop. case_match; lia. Qed.

Lemma compact_spec_wf c : chain_wf c -> chain_wf (compact_spec c).1.
Proof.
  intros Hwf. pose proof (compact_drop_lt c Hwf). destruct Hwf.
  split; simpl; [auto with hotblocks|rewrite length_drop; lia|done].
Qed.
#[export] Hint Resolve compact_spec_wf : hotblocks.

(** ** Reachable buffers *)

(** Every way the buffer changes, with the service's discipline: a batch is
    opened on a closed log and compaction runs only on a closed log. *)
Inductive chain_step : Chain -> Chain -> Prop :=
  | step_begin c : undo c = None -> chain_step c (begin_batch c)
  | step_push c b c' r : push c b = Some (c', r) -> chain_step c c'
  | step_finalize c h c' r : finalize c h = Some (c', r) -> chain_step c c'
  | step_commit c : chain_step c (commit_batch c)
  | step_rollback c : chain_step c (rollback_batch c)
  | step_compact c c' r : undo c = None -> compact c = Some (c', r) -> chain_step c c'.

Definition chain_inv (c : Chain) : Prop :=
  chain_wf c /\ (undo c = None \/ exists c0, chain_wf c0 /\ log_of c0 c).

Lemma chain_inv_undo_ok c : chain_inv c -> undo_ok c.
Proof.
  intros [_ [Hu|(c0 & _ & Hl)]]; [unfold undo_ok; by rewrite Hu|eauto with hotblocks].
Qed.

Lemma push_effect_undo_none c b c' r :
  undo c = None -> push_effect c b c' r -> undo c' = None.
Proof.
  intros Hu [ | i p c1 _ _ _ Hrm | ]; [done| |done].
  simpl. apply record_removal_none in Hrm as ->; done.
Qed.

Lemma chain_step_inv c c' : chain_inv c -> chain_step c c' -> chain_inv c'.
Proof.
  intros Hinv Hst. pose proof (chain_inv_undo_ok _ Hinv) as Huo.
  destruct Hinv as [Hwf Hlog].
  destruct Hst as [c Hu|c b c' r E|c h c' r E|c|c|c c' r Hu E].
  - split; eauto with hotblocks.
  - destruct (push_total c b Hwf Huo) as (? & ? & E' & He). simplify_eq.
    split; [eauto with hotblocks|].
    destruct Hlog as [Hu|(c0 & ? & ?)]; [left; by eapply push_effect_undo_none|].
    right. eauto with hotblocks.
  - destruct (finalize_total c h Hwf) as (? & ? & E' & He). simplify_eq.
    split; [eauto with hotblocks|].
    destruct Hlog as [Hu|(c0 & ? & ?)]; [left|right; eauto with hotblocks].
    by destruct (finalize_effect_form _ _ _ _ Hwf He) as (f & -> & _).
  - split; [eauto with hotblocks|by left].
  - destruct Hlog as [Hu|(c0 & Hwf0 & Hl)].
    + unfold rollback_batch. rewrite Hu. split; auto.
    + rewrite (rollback_log c0) by done. split; [by destruct Hwf0|by left].
  - rewrite compact_eq in E by done. 
    assert (c' = (compact_spec c).1) as -> by (destruct (compact_spec c); simpl; congruence).
    split; [auto with hotblocks|by left].
Qed.

Lemma chain_new_inv base max auto c :
  (parent_number base <= number base)%N -> chain_new base max auto = Some c -> chain_inv c.
Proof.
  unfold chain_new. intros Hroot. destruct (Nat.eqb_spec max 0); [done|]. intros [= <-].
  split; [|by left]. split; simpl; [split|lia|lia]; simpl.
  - done.
  - apply adjacent_singleton.
  - intros b Hb. by simplify_eq/=.
Qed.

(** ** Queries *)

(** The refs a client may resolve: the buffered blocks and the parents they
    name, except a root's own height. *)
Definition known_ref (c : Chain) (r : BlockRef) : Prop :=
  exists b, b ∈ blocks c /\
    (block_ref b = r \/ (parent_number b <> number b /\ parent_ref b = r)).

Definition ref_below (a b : BlockRef) : Prop := (br_number a < br_number b)%N.

Lemma filter_all_but_head {A} (p : A -> bool) x l :
  (forall y, y ∈ l -> p y = true) ->
  List.filter p (x :: l) = if p x then x :: l else l.
Proof.
  intros H. simpl. assert (List.filter p l = l) as ->; [|by case_match].
  induction l as [|y l IH]; simpl; [done|]. rewrite H by left.
  f_equal. apply IH. intros z Hz. apply H. by right.
Qed.

Lemma follows_parent_below a b :
  follows a b -> (parent_number a <= number a)%N -> parent_number a <> number a ->
  ref_below (parent_ref a) (parent_ref b).
Proof.
  intros [[E _]%is_chain_spec _] ? ?. unfold ref_below, parent_ref; simpl. lia.
Qed.

(** Past its first block, no block of a buffer is a root. *)
Lemma shape_not_root bs i b :
  chain_shape bs -> bs !! i = Some b -> (parent_number b <= number b)%N /\
  (0 < i -> parent_number b <> number b).
Proof.
  intros [_ Hlk Hr] Hb. destruct i as [|i]; [split; [auto|lia]|].
  destruct (bs !! i) as [a|] eqn:Ha;
    [|apply lookup_ge_None in Ha; apply lookup_lt_Some in Hb; lia].
  destruct (Hlk _ _ _ Ha Hb) as [[E _]%is_chain_spec ?]. split; lia.
Qed.

Lemma shape_slice bs start n :
  chain_shape bs -> adjacent follows (take n (drop start bs)).
Proof. intros [_ H _]. auto with hotblocks. Qed.

(** The parent refs of a stretch of the buffer, a root's excluded, ascend. *)
Lemma parents_of_slice bs start n x l :
  chain_shape bs -> take n (drop start bs) = x :: l ->
  adjacent ref_below
    (parent_ref <$> List.filter (fun b => negb (parent_number b =? number b)%N) (x :: l)).
Proof.
  intros Hs E.
  assert (forall i y, (x :: l) !! i = Some y -> (parent_number y <= number y)%N /\
            (0 < i -> parent_number y <> number y)) as Hnr.
  { intros i y Hy. rewrite <- E in Hy. apply lookup_take_Some in Hy as [Hy _].
    rewrite lookup_drop in Hy. destruct (shape_not_root _ _ _ Hs Hy) as [? Hn].
    split; [done|]. intros. apply Hn. lia. }
  pose proof (shape_slice bs start n Hs) as Hadj. rewrite E in Hadj.
  rewrite filter_all_but_head.
  2:{ intros y [i Hi]%list_elem_of_lookup_1. destruct (Hnr (S i) y Hi) as [_ Hn].
      apply negb_true_iff, N.eqb_neq, Hn. lia. }
  apply adjacent_fmap. destruct (N.eqb_spec (parent_number x) (number x)) as [Heq|Hne]; simpl.
  - intros i a b Ha Hb. destruct (Hnr (S i) a Ha) as [? Hn].
    apply follows_parent_below; [by apply (Hadj (S i))|done|apply Hn; lia].
  - intros i a b Ha Hb. destruct (Hnr i a Ha) as [? Hn].
    apply follows_parent_below; [by apply (Hadj i)|done|].
    destruct i as [|i]; [by simplify_eq/=|apply Hn; lia].
Qed.

Lemma last_block_in c l : last_block c = Some l -> l ∈ blocks c.
Proof. intros H%last_block_lookup. by eapply list_elem_of_lookup_2. Qed.

Lemma block_ref_known c b : b ∈ blocks c -> known_ref c (block_ref b).
Proof. intros H. exists b. eauto. Qed.

(** A conflict inside the window: the refs are usable by the client. *)
Lemma conflict_in_window_ok c pos :
  chain_wf c -> pos < length (blocks c) ->
  exists prev, conflict_prev_in_window c pos = Some prev /\
    prev <> [] /\ length prev <= 101 /\ adjacent ref_below prev /\ Forall (known_ref c) prev.
Proof.
  intros [Hs Hf Hm] Hpos. unfold conflict_prev_in_window.
  destruct (take (pos + 1 - (pos - 100)) (drop (pos - 100) (blocks c))) as [|x l] eqn:E.
  { apply (f_equal length) in E. rewrite length_take, length_drop in E. simpl in E. lia. }
  pose proof (parents_of_slice _ _ _ _ _ Hs E) as Hadj.
  assert (length (parent_ref <$> List.filter (fun b => negb (parent_number b =? number b)%N)
            (x :: l)) <= 101) as Hlen.
  { rewrite length_fmap. etransitivity; [apply List.filter_length_le|].
    rewrite <- E, length_take, length_drop. lia. }
  assert (Forall (known_ref c) (parent_ref <$>
            List.filter (fun b => negb (parent_number b =? number b)%N) (x :: l))) as Hk.
  { apply Forall_fmap, Forall_forall. intros b Hb%list_elem_of_In.
    apply List.filter_In in Hb as [Hb Hn]. apply negb_true_iff, N.eqb_neq in Hn.
    apply list_elem_of_In in Hb. exists b. split; [|right; done].
    rewrite <- E in Hb. eapply elem_of_take in Hb as (i & Hi & _).
    rewrite lookup_drop in Hi. by eapply list_elem_of_lookup_2. }
  destruct (parent_ref <$> _) as [|r rs]; [|eexists; split; [done|]; auto].
  destruct (blocks c) as [|b bs] eqn:Eb; [simpl in Hpos; lia|].
  assert (first_block c = Some b) as -> by (unfold first_block; by rewrite Eb).
  eexists. split; [done|]. split_and!; [done|simpl; lia|auto with hotblocks|].
  constructor; [|done]. apply block_ref_known. rewrite Eb. by left.
Qed.

Lemma conflict_at_head_ok c :
  chain_wf c ->
  let prev := conflict_prev_at_head c in
  prev <> [] /\ length prev <= 101 /\ adjacent ref_below prev /\ Forall (known_ref c) prev.
Proof.
  intros [[Hne Hlk Hr] Hf Hm]. unfold conflict_prev_at_head. simpl. split_and!.
  - intros E%(f_equal length). rewrite length_fmap, length_drop in E. simpl in E. lia.
  - rewrite length_fmap, length_drop. lia.
  - apply adjacent_fmap. eapply adjacent_impl; [|by apply adjacent_drop].
    intros x y [_ ?]. done.
  - apply Forall_fmap, Forall_forall. intros b [i Hi]%list_elem_of_lookup_1.
    rewrite lookup_drop in Hi. apply block_ref_known. by eapply list_elem_of_lookup_2.
Qed.

Lemma finalized_head_some c : chain_wf c ->
  exists b, blocks c !! finalized_head c = Some b /\ get_finalized_head c = Some (block_ref b).
Proof.
  intros [_ Hf _]. unfold get_finalized_head.
  destruct (blocks c !! finalized_head c) eqn:E; [eauto|apply lookup_ge_None in E; lia].
Qed.

Lemma first_block_some c : blocks c <> [] -> exists b, first_block c = Some b.
Proof. unfold first_block. destruct (blocks c); [done|eauto]. Qed.

(** The shape of every answer: [query_answer] lists the cases in the order
    the code decides them; the theorems below and the reference model's
    verdict are read off it. *)
Definition not_below_window (c : Chain) (from : N) : Prop :=
  forall first, first_block c = Some first ->
    parent_number first = number first \/ (parent_number first < from)%N.

Inductive query_answer (c : Chain) (from : N) (base : option string)
    : Result DataResponse InvalidBaseBlock -> Prop :=
  | answer_below first :
      first_block c = Some first -> parent_number first <> number first ->
      (from <= parent_number first)%N -> query_answer c from base (Ok empty_response)
  | answer_conflict pos b bhash prev :
      not_below_window c from ->
      pos = lower_bound (blocks c) from -> blocks c !! pos = Some b ->
      base = Some bhash -> parent_hash b <> bhash ->
      conflict_prev_in_window c pos = Some prev ->
      query_answer c from base (Err (mkInvalidBaseBlock prev))
  | answer_tail pos b fin :
      not_below_window c from ->
      pos = lower_bound (blocks c) from -> blocks c !! pos = Some b ->
      (forall bhash, base = Some bhash -> parent_hash b = bhash) ->
      get_finalized_head c = Some fin ->
      query_answer c from base (Ok (mkDataResponse (Some fin) None (Some (drop pos (blocks c)))))
  | answer_head_conflict last bhash :
      last_block c = Some last -> from = (number last + 1)%N -> base = Some bhash ->
      bhash <> hash last ->
      query_answer c from base (Err (mkInvalidBaseBlock (conflict_prev_at_head c)))
  | answer_above last fin :
      last_block c = Some last -> (number last < from)%N ->
      (forall bhash, base = Some bhash -> from = (number last + 1)%N -> bhash = hash last) ->
      get_finalized_head c = Some fin ->
      query_answer c from base (Ok (mkDataResponse (Some fin) None None)).

Lemma query_total c from base :
  chain_wf c -> (from <= u64_max)%N ->
  exists r, query c from base = Some r /\ query_answer c from base r.
Proof.
  intros Hwf Hu. pose proof Hwf as [[Hne Hlk Hr] Hf Hm]. unfold query.
  destruct (first_block_some c Hne) as [first Hfirst]. rewrite Hfirst.
  destruct (_ && _) eqn:Ebelow.
  { apply andb_true_iff in Ebelow as [H1 H2].
    apply negb_true_iff, N.eqb_neq in H1. apply N.leb_le in H2.
    eexists. split; [done|]. by econstructor. }
  assert (not_below_window c from) as Hnb.
  { intros f Hf'. apply andb_false_iff in Ebelow as [H1|H1]; simplify_eq.
    - left. by apply negb_false_iff, N.eqb_eq in H1.
    - right. by apply N.leb_gt. }
  rewrite bisect_eq by auto with hotblocks.
  destruct (finalized_head_some c Hwf) as (fb & Hfb & Hfin). rewrite Hfin.
  destruct (Nat.ltb_spec (lower_bound (blocks c) from) (length (blocks c))) as [Hlt|Hge].
  - destruct (blocks c !! lower_bound (blocks c) from) as [b|] eqn:Hb;
      [|apply lookup_ge_None in Hb; lia].
    destruct (conflict_in_window_ok c _ Hwf Hlt) as (prev & Hprev & _).
    destruct base as [bhash|]; [case_bool_decide as Hh; simpl|].
    + eexists. split; [done|]. eapply answer_tail; eauto. by intros ? [= <-].
    + rewrite Hprev. eexists. split; [done|]. by eapply answer_conflict.
    + eexists. split; [done|]. eapply answer_tail; eauto. done.
  - destruct (last_block_some c Hne) as [l Hl]. rewrite Hl.
    assert (number l < from)%N as Hlast.
    { pose proof (last_block_lookup c l Hl). eapply lower_bound_before; [done|].
      apply lookup_lt_Some in H. lia. }
    destruct base as [bhash|].
    + unfold succ_u64. rewrite (proj2 (N.ltb_lt _ _)) by lia.
      destruct (N.eqb_spec from (number l + 1)) as [->|Hneq]; simpl.
      * case_bool_decide as Hh; simpl; eexists; (split; [done|]).
        -- eapply answer_above; eauto. by intros ? [= <-].
        -- by eapply answer_head_conflict.
      * eexists; split; [done|]. by eapply answer_above.
    + eexists; split; [done|]. by eapply answer_above.
Qed.

(** ** Fork base *)

(** The specification (T6): the newest buffered block, not below finality,
    that the signal names or that lies below everything it names. *)
Definition fork_base_ok (prev : list BlockRef) (b : Block) : bool :=
  bool_decide (block_ref b ∈ prev) || forallb (fun r => (number b <? br_number r)%N) prev.

Definition fork_base_spec (c : Chain) (prev : list BlockRef) : option BlockRef :=
  block_ref <$> List.find (fork_base_ok prev) (rev (drop (finalized_head c) (blocks c))).

Definition refs_ascending (prev : list BlockRef) : Prop := adjacent ref_below prev.

#[export] Instance ref_below_transitive : Transitive ref_below.
Proof. intros a b c. unfold ref_below. lia. Qed.

Lemma stack_head_max fh stack r :
  adjacent (flip ref_below) (fh :: stack) -> r ∈ stack -> (br_number r < br_number fh)%N.
Proof.
  intros Hadj [i Hi]%list_elem_of_lookup_1.
  apply (adjacent_lt (flip ref_below) (fh :: stack) 0 (S i)); auto; lia.
Qed.

(** Popping removes exactly the refs above [head], the stack being the
    reversal of an ascending list. *)
Lemma pop_above_spec head stack :
  adjacent (flip ref_below) stack ->
  exists popped, stack = popped ++ pop_above head stack /\
    Forall (fun r => (br_number head < br_number r)%N) popped /\
    Forall (fun r => (br_number r <= br_number head)%N) (pop_above head stack).
Proof.
  induction stack as [|r stack IH]; intros Hadj; simpl; [by exists []|].
  destruct (N.ltb_spec (br_number head) (br_number r)) as [Hlt|Hge].
  - destruct IH as (popped & E & Hp & Hr); [by eapply adjacent_tail|].
    exists (r :: popped). simpl. split_and!; [congruence|by constructor|done].
  - exists []. split_and!; [done|constructor|]. constructor; [done|].
    apply Forall_forall. intros x Hx. pose proof (stack_head_max _ _ _ Hadj Hx). lia.
Qed.

Lemma adjacent_rev {A} (R : A -> A -> Prop) l : adjacent R l -> adjacent (flip R) (rev l).
Proof.
  intros H. induction l as [|x l IH]; simpl; [apply adjacent_nil|].
  apply adjacent_app. split_and!; [apply IH; by eapply adjacent_tail|apply adjacent_singleton|].
  intros a b Ha Hb. simplify_eq/=. rewrite rev_alt in Ha. change (last (reverse l) = Some a) in Ha.
  rewrite last_reverse in Ha. destruct l as [|y l]; [done|]. simplify_eq/=.
  by apply (H 0).
Qed.

(** One block's verdict agrees with the walk's test on the popped stack. *)
Lemma fork_test_agrees prev popped stack b :
  rev prev = popped ++ stack ->
  Forall (fun r => (number b < br_number r)%N) popped ->
  Forall (fun r => (br_number r <= number b)%N) stack ->
  adjacent (flip ref_below) stack ->
  fork_base_ok prev b =
  match stack with
  | [] => true
  | fh :: _ => (br_number fh =? number b)%N && bool_decide (br_hash fh = hash b)
  end.
Proof.
  intros Erev Hpop Hst Hadj. unfold fork_base_ok.
  assert (forall r, r ∈ prev <-> r ∈ popped \/ r ∈ stack) as Hin.
  { intros r. rewrite <- elem_of_app, <- Erev. rewrite !list_elem_of_In. apply in_rev. }
  assert (block_ref b ∉ popped) as Hno.
  { intros Hr. rewrite Forall_forall in Hpop. apply Hpop in Hr. simpl in Hr. lia. }
  destruct stack as [|fh stack].
  - apply orb_true_iff. right. apply forallb_forall. intros r Hr%list_elem_of_In.
    apply Hin in Hr as [Hr|Hr]; [|by apply elem_of_nil in Hr].
    rewrite Forall_forall in Hpop. by apply N.ltb_lt, Hpop.
  - assert (forallb (fun r => (number b <? br_number r)%N) prev = false) as ->.
    { apply not_true_is_false. intros Hf. rewrite forallb_forall in Hf.
      specialize (Hf fh). apply Forall_cons in Hst as [Hst _].
      assert (fh ∈ prev) as Hfh by (apply Hin; right; left).
      apply list_elem_of_In in Hfh. specialize (Hf Hfh). apply N.ltb_lt in Hf. lia. }
    rewrite orb_false_r. apply Forall_cons in Hst as [Hfh Hst].
    destruct (N.eqb_spec (br_number fh) (number b)) as [Hn|Hn]; simpl.
    + apply bool_decide_ext. rewrite Hin. split.
      * intros [Hr|Hr%elem_of_cons]; [by apply Hno in Hr|].
        destruct Hr as [<-|Hr]; [done|].
        pose proof (stack_head_max _ _ _ Hadj Hr). simpl in *. lia.
      * intros Hh. right. unfold block_ref. rewrite <- Hn, <- Hh. destruct fh. by left.
    + apply bool_decide_eq_false. rewrite Hin.
      intros [Hr|Hr%elem_of_cons]; [by apply Hno in Hr|].
      destruct Hr as [<-|Hr]; [done|].
      pose proof (stack_head_max _ _ _ Hadj Hr). simpl in *. lia.
Qed.

Lemma fork_walk_spec c prev n popped stack :
  chain_wf c -> refs_ascending prev -> n <= length (blocks c) ->
  rev prev = popped ++ stack ->
  (forall i b, i < n -> blocks c !! i = Some b ->
     Forall (fun r => (number b < br_number r)%N) popped) ->
  fork_walk c n stack =
    Some (block_ref <$> List.find (fork_base_ok prev)
                          (rev (drop (finalized_head c) (take n (blocks c))))).
Proof.
  intros [[Hne Hlk Hr] Hfl Hm] Hprev. revert popped stack.
  induction n as [|n IH]; intros popped stack Hn Erev Hpop; simpl.
  { by rewrite take_0, drop_nil. }
  destruct (Nat.ltb_spec n (finalized_head c)) as [Hlt|Hge].
  { by rewrite drop_ge by (rewrite length_take; lia). }
  destruct (blocks c !! n) as [b|] eqn:Hb; [|apply lookup_ge_None in Hb; lia].
  rewrite (take_S_r _ _ b Hb), drop_app_le by (rewrite length_take; lia).
  rewrite rev_app_distr. simpl.
  apply adjacent_rev in Hprev as Hrp. rewrite Erev in Hrp.
  apply adjacent_app in Hrp as (_ & Hst & _).
  destruct (pop_above_spec (block_ref b) stack Hst) as (pp & Est & Hpp & Hrest).
  set (st := pop_above (block_ref b) stack) in *.
  assert (rev prev = (popped ++ pp) ++ st) as Erev' by (by rewrite Erev, Est, <- app_assoc).
  assert (Forall (fun r => (number b < br_number r)%N) (popped ++ pp)) as Hpop'.
  { apply Forall_app. split; [|done]. eapply (Hpop n); [lia|done]. }
  rewrite (fork_test_agrees prev (popped ++ pp) st b) by
    (auto; rewrite Est in Hst; by apply adjacent_app in Hst as (_ & ? & _)).
  assert (fork_walk c n st =
    Some (block_ref <$> List.find (fork_base_ok prev)
                          (rev (drop (finalized_head c) (take n (blocks c)))))) as IH'.
  { eapply IH; [lia|done|]. intros i a Hi Ha.
    eapply Forall_impl; [done|]. intros r Hrb; simpl in *.
    assert (below a b) as Hab.
    { eapply (adjacent_lt below (blocks c) i n); eauto with hotblocks. }
    unfold below in Hab. lia. }
  destruct st as [|fh st']; [done|]. simpl. by case_match.
Qed.

Lemma get_fork_base_eq c prev :
  chain_wf c -> refs_ascending prev ->
  get_fork_base c prev = Some (fork_base_spec c prev).
Proof.
  intros Hwf Hp. unfold get_fork_base, fork_base_spec.
  rewrite (fork_walk_spec c prev (length (blocks c)) [] (rev prev)); auto.
  by rewrite take_ge.
Qed.

(** The walk itself never panics, whatever the signal's order. *)
Lemma fork_walk_total c n stack :
  n <= length (blocks c) -> exists r, fork_walk c n stack = Some r.
Proof.
  revert stack. induction n as [|n IH]; intros stack Hn; simpl; [eauto|].
  case_match; [eauto|]. destruct (blocks c !! n) eqn:E; [|apply lookup_ge_None in E; lia].
  case_match; [eauto|]. case_match; [eauto|]. apply IH. lia.
Qed.

(** ** Concrete buffers *)

(** A block with an empty payload, as the tests of chain.rs build them. *)
Definition make_block (n : N) (h : string) (pn : N) (ph : string) : Block :=
  mkBlock n h pn ph None [] None.

Definition chain_wfb (c : Chain) : bool :=
  match blocks c with
  | [] => false
  | b :: _ => (parent_number b <=? number b)%N
  end
  && forallb (fun '(a, b) => is_chain a b && (number a <? number b)%N) (windows2 (blocks c))
  && (finalized_head c <? length (blocks c)) && (0 <? max_size c).

Lemma chain_wfb_sound c : chain_wfb c = true -> chain_wf c.
Proof.
  unfold chain_wfb. rewrite !andb_true_iff, !Nat.ltb_lt. intros [[[Hr Hl] ?] ?].
  split; [|done..]. split.
  - by destruct (blocks c).
  - apply adjacent_windows2, Forall_forall. intros [a b] Hab%list_elem_of_In.
    rewrite forallb_forall in Hl. specialize (Hl _ Hab). simpl in Hl.
    apply andb_true_iff in Hl as [? ?%N.ltb_lt]. by split.
  - destruct (blocks c) as [|b bs]; [done|]. intros ? [= <-]. by apply N.leb_le.
Qed.
#[export] Hint Resolve chain_wfb_sound : hotblocks.

(** Five linked blocks, finality on the second one, a window of four. *)
Definition demo_chain : Chain :=
  mkChain [make_block 10 "a" 9 "z"; make_block 11 "b" 10 "a"; make_block 12 "c" 11 "b";
           make_block 13 "d" 12 "c"; make_block 14 "e" 13 "d"] 1 4 false None.

(** Steps of the kinds a batch performs: an append, a reorg below the appended
    block, a finality report, and a rejected block. *)
Definition demo_ops : list BatchOp :=
  [OpPush (make_block 15 "f" 14 "e"); OpPush (make_block 13 "d2" 12 "c");
   OpFinalize (mkBlockRef 12 "c"); OpPush (make_block 12 "c2" 11 "b")].

(** ** The theorems *)

(** C2: From a seed whose parent coordinate is not above it, every sequence of
    batch openings, pushes, finality reports, commits, rollbacks and
    compactions keeps the buffer non-empty, linked, strictly ascending, with a
    finality index inside it (INV-1..3), and no operation panics there. *)
Theorem chain_reachable_safe base max auto c0 c :
  (parent_number base <= number base)%N ->
  chain_new base max auto = Some c0 ->
  rtc chain_step c0 c ->
  chain_wf c /\
  (forall b, is_Some (push c b)) /\ (forall h, is_Some (finalize c h)) /\
  is_Some (compact c) /\
  (forall from bhash, (from <= u64_max)%N -> is_Some (query c from bhash)) /\
  (forall prev, is_Some (get_fork_base c prev)).
Proof.
  intros Hroot Hnew Hst.
  assert (chain_inv c) as Hinv.
  { apply (chain_new_inv _ _ _ _ Hroot) in Hnew. induction Hst; eauto using chain_step_inv. }
  pose proof (chain_inv_undo_ok _ Hinv) as Hu. destruct Hinv as [Hwf _].
  split_and!; [done|..].
  - intros b. destruct (push_total c b Hwf Hu) as (? & ? & -> & _). eauto.
  - intros h. destruct (finalize_total c h Hwf) as (? & ? & -> & _). eauto.
  - rewrite compact_eq by done. eauto.
  - intros from bh Hf. destruct (query_total c from bh Hwf Hf) as (? & -> & _). eauto.
  - intros prev. unfold get_fork_base.
    destruct (fork_walk_total c (length (blocks c)) (rev prev)) as [? ->]; eauto.
Qed.

Lemma chain_reachable_safe_witness :
  exists c0 c, rtc chain_step c0 c /\ c <> c0 /\ chain_wf c /\ is_Some (compact c).
Proof.
  set (c0 := mkChain [make_block 1 "a" 0 "z"] 0 2 false None).
  destruct (push c0 (make_block 2 "b" 1 "a")) as [[c r]|] eqn:E; [|vm_compute in E; done].
  assert (rtc chain_step c0 c) as Hst by (apply rtc_once; by eapply step_push).
  exists c0, c. split; [done|]. split; [vm_compute in E; simplify_eq; done|].
  destruct (chain_reachable_safe (make_block 1 "a" 0 "z") 2 false c0 c) as (Hwf & _ & _ & Hc & _);
    [done|reflexivity|done|]. done.
Defined.

(** C3: Rolling an open batch back restores the buffer exactly as it was when
    the batch was opened, whatever pushes and finality reports the batch made,
    accepted or rejected, reorganisations included (WP-5). *)
Theorem rollback_restores c ops :
  chain_wf c -> undo c = None ->
  exists c', run_batch_ops (begin_batch c) ops = Some c' /\ rollback_batch c' = c.
Proof.
  intros Hwf Hu.
  destruct (run_batch_ops_inv c (begin_batch c) ops) as (c' & Hc' & _ & Hl); auto with hotblocks.
  exists c'. split; [done|]. rewrite (rollback_log _ _ Hl). destruct c; simpl in *. by subst.
Qed.

Lemma rollback_restores_witness :
  chain_wf demo_chain /\
  exists c', run_batch_ops (begin_batch demo_chain) demo_ops = Some c' /\
    blocks c' <> blocks demo_chain /\ rollback_batch c' = demo_chain.
Proof.
  assert (chain_wf demo_chain) as Hwf by by apply chain_wfb_sound.
  destruct (rollback_restores demo_chain demo_ops Hwf) as (c' & Hc' & Hr); [reflexivity|].
  split; [done|]. exists c'. split_and!; [done| |done].
  vm_compute in Hc'. simplify_eq. done.
Defined.

(** C4: Finality is irreversible inside the window: no sequence of pushes and
    finality reports moves the finalized head back, replaces it or changes any
    block below it (INV-11). *)
Theorem finalized_prefix_stable c ops c' :
  chain_wf c -> run_batch_ops (begin_batch c) ops = Some c' ->
  finalized_head c <= finalized_head c' /\
  take (S (finalized_head c)) (blocks c') = take (S (finalized_head c)) (blocks c).
Proof.
  intros Hwf Hrun.
  by apply (run_batch_ops_prefix c (begin_batch c) ops c'); auto with hotblocks.
Qed.

Lemma finalized_prefix_stable_witness :
  exists c', run_batch_ops (begin_batch demo_chain) demo_ops = Some c' /\
    finalized_head demo_chain < finalized_head c' /\
    take 2 (blocks c') = take 2 (blocks demo_chain).
Proof.
  eexists. split; [reflexivity|]. split; [vm_compute; lia|].
  eapply (finalized_prefix_stable demo_chain demo_ops); [by apply chain_wfb_sound|reflexivity].
Defined.

(** A push returns on every well-formed buffer and does one of three
    things: it absorbs a redelivered block (same ref, same parent) and leaves
    the buffer alone, it cuts the buffer at the block's parent, which sits at
    or above finality, and appends, or it rejects and leaves the buffer alone;
    the buffer that results is well formed. *)
Theorem push_correct c b :
  chain_wf c -> undo_ok c ->
  exists c' r, push c b = Some (c', r) /\ chain_wf c' /\
    match r with
    | Ok Absorbed => c' = c /\
        exists h, h ∈ blocks c /\ block_ref h = block_ref b /\ parent_ref h = parent_ref b
    | Ok Inserted =>
        exists i p, blocks c !! i = Some p /\ follows p b /\ finalized_head c <= i /\
          blocks c' = take (S i) (blocks c) ++ [b] /\
          finalized_head c' = finalized_head c
    | Err _ => c' = c
    end.
Proof.
  intros Hwf Hu. destruct (push_total c b Hwf Hu) as (c' & r & E & He).
  exists c', r. split_and!; [done|eauto with hotblocks|].
  destruct He as [h Hh | i p c1 Hi Hfin Hf Hrm | ]; [eauto| |done].
  pose proof (lookup_lt_Some _ _ _ Hi).
  destruct (record_removal_total c (S i) Hu ltac:(lia)) as (c3 & Hc3 & _ & Ef & _).
  simplify_eq. exists i, p. split_and!; done.
Qed.

Lemma push_correct_witness :
  exists c', push demo_chain (make_block 13 "d2" 12 "c") = Some (c', Ok Inserted) /\ chain_wf c'.
Proof.
  destruct (push_correct demo_chain (make_block 13 "d2" 12 "c")) as (c' & r & E & Hwf & _);
    [by apply chain_wfb_sound|exact I|].
  exists c'. split; [|done]. rewrite E. vm_compute in E. congruence.
Defined.

(** A finality report moves the finalized head exactly to the block it
    names, to the head when it names a height above the buffer, and nowhere
    when it is regressive; a height held under another hash and a height the
    buffer skips are the two violations, and the report says whether finality
    advanced. *)
Theorem finalize_correct c h :
  chain_wf c ->
  exists c' r, finalize c h = Some (c', r) /\ finalize_effect c h c' r /\ chain_wf c'.
Proof.
  intros Hwf. destruct (finalize_total c h Hwf) as (c' & r & E & He). eauto 10 with hotblocks.
Qed.

Lemma finalize_correct_witness :
  chain_wf demo_chain /\ exists c' r, finalize demo_chain (mkBlockRef 13 "d") = Some (c', r) /\
    finalized_head c' = 3 /\ r = Ok true /\ chain_wf c'.
Proof.
  assert (chain_wf demo_chain) as Hwf by by apply chain_wfb_sound. split; [done|].
  destruct (finalize_correct demo_chain (mkBlockRef 13 "d") Hwf) as (c' & r & E & _ & Hc).
  exists c', r. rewrite E. vm_compute in E. simplify_eq. done.
Defined.

(** Compaction keeps the shape and the head, drops a prefix and names the
    height it force-advanced past; with auto-adjust the buffer ends inside its
    window, and without it the finalized head is never dropped, the reported
    excess is the real one, and an excess means everything below the
    finalized head is already gone (INV-4, WP-24). *)
Theorem compact_correct c :
  chain_wf c ->
  exists c' r, compact c = Some (c', r) /\ chain_wf c' /\
    last_block c' = last_block c /\
    excess r = length (blocks c') - max_size c /\
    (if auto_adjust_finalized_head c
     then within_window r = true /\ length (blocks c') <= max_size c
     else get_finalized_head c' = get_finalized_head c /\ force_advanced_past r = None /\
          (within_window r = false -> finalized_head c' = 0)) /\
    (force_advanced_past r = None -> get_finalized_head c' = get_finalized_head c).
Proof.
  intros Hwf. pose proof (compact_drop_lt c Hwf) as Hlt.
  rewrite compact_eq by done. eexists _, _. split; [done|]. split; [by apply compact_spec_wf|].
  assert (forall k m a u, k <= finalized_head c ->
          get_finalized_head (mkChain (drop k (blocks c)) (finalized_head c - k) m a u)
          = get_finalized_head c) as Hkeep.
  { intros k m a u Hle. unfold get_finalized_head; simpl. rewrite lookup_drop. do 2 f_equal. lia. }
  unfold within_window, last_block. simpl. rewrite length_drop. split_and!; [| done| |].
  - rewrite !last_lookup, lookup_drop, length_drop. f_equal. lia.
  - destruct Hwf. unfold compact_drop, compact_past in *.
    destruct (auto_adjust_finalized_head c); simpl.
    + rewrite Nat.eqb_eq. lia.
    + split_and!; [apply Hkeep; lia|done|]. intros Hw%Nat.eqb_neq. lia.
  - intros Hp. apply Hkeep. unfold compact_past, compact_drop in *.
    destruct (auto_adjust_finalized_head c); [simpl in Hp|lia].
    destruct (Nat.ltb_spec (finalized_head c) (length (blocks c) - max_size c)); [|lia].
    destruct Hwf. destruct (blocks c !! _) eqn:E; [done|]. apply lookup_ge_None in E. lia.
Qed.

Lemma compact_correct_witness :
  chain_wf demo_chain /\ exists c' r, compact demo_chain = Some (c', r) /\
    length (blocks c') = 4 /\ chain_wf c'.
Proof.
  assert (chain_wf demo_chain) as Hwf by by apply chain_wfb_sound. split; [done|].
  destruct (compact_correct demo_chain Hwf) as (c' & r & E & Hc & _).
  exists c', r. rewrite E. vm_compute in E. simplify_eq. done.
Defined.

(** Every conflict a query reports carries a non-empty, strictly ascending
    list of at most 101 references, each a buffered block's or the parent one
    of them names (RP-7, INV-22). *)
Theorem query_conflict_refs c from base e :
  chain_wf c -> (from <= u64_max)%N -> query c from base = Some (Err e) ->
  prev e <> [] /\ length (prev e) <= 101 /\ refs_ascending (prev e) /\
  Forall (known_ref c) (prev e).
Proof.
  intros Hwf Hu E. destruct (query_total c from base Hwf Hu) as (r & E' & Ha).
  simplify_eq. inversion Ha as [|pos b bh pv _ -> Hb _ _ Hp| |last bh Hl _ _ _|]; subst; simpl.
  - destruct (conflict_in_window_ok c (lower_bound (blocks c) from) Hwf) as (pv' & Hpv & ?);
      [by eapply lookup_lt_Some|]. by simplify_eq.
  - by apply conflict_at_head_ok.
Qed.

Lemma query_conflict_refs_witness :
  exists e, query demo_chain 12 (Some "nope"%string) = Some (Err e) /\
    prev e <> [] /\ length (prev e) <= 101.
Proof.
  eexists. split; [reflexivity|].
  destruct (query_conflict_refs demo_chain 12 (Some "nope"%string) _
    ltac:(by apply chain_wfb_sound) ltac:(done) eq_refl) as (? & ? & _). done.
Defined.

(** A suffix from the lower bound is what a filter by height keeps. *)
Lemma drop_lower_bound bs t :
  adjacent below bs ->
  drop (lower_bound bs t) bs = List.filter (fun b => (t <=? number b)%N) bs.
Proof.
  induction bs as [|a l IH]; intros Hasc; [done|]. simpl.
  destruct (N.ltb_spec (number a) t) as [Hlt|Hge].
  - rewrite (proj2 (N.leb_gt _ _) Hlt). apply IH. by eapply adjacent_tail.
  - rewrite (proj2 (N.leb_le _ _) Hge). change (drop 0 (a :: l)) with (a :: l). f_equal.
    rewrite <- IH by by eapply adjacent_tail.
    replace (lower_bound l t) with 0; [done|]. destruct l as [|b l]; [done|].
    assert (below a b) as Hab by by apply (Hasc 0). unfold below in Hab. simpl.
    destruct (N.ltb_spec (number b) t); [lia|done].
Qed.

(** A query served from the window returns exactly the buffered blocks at
    or above the requested height, linked, with the current finalized head;
    the first of them covers the requested height and names the base hash the
    client claimed as its parent (RP-3). *)
Theorem query_tail_exact c from base resp tail :
  chain_wf c -> (from <= u64_max)%N -> query c from base = Some (Ok resp) ->
  resp_tail resp = Some tail ->
  tail = List.filter (fun b => (from <=? number b)%N) (blocks c) /\
  adjacent follows tail /\ resp_finalized_head resp = get_finalized_head c /\
  exists b, head tail = Some b /\
    (forall bhash, base = Some bhash -> parent_hash b = bhash) /\
    ((parent_number b < from)%N \/ (parent_number b = number b /\ first_block c = Some b)).
Proof.
  intros Hwf Hu E Ht. destruct (query_total c from base Hwf Hu) as (r & E' & Ha). simplify_eq.
  inversion Ha as [| |pos b fin Hnb -> Hb Hh Hfin| |]; subst; simplify_eq/=.
  destruct Hwf as [[Hne Hlk Hr] Hf Hm].
  split_and!; auto with hotblocks; [by apply drop_lower_bound, follows_below|].
  exists b. split_and!; [by rewrite head_lookup, lookup_drop, Nat.add_0_r|done|].
  destruct (lower_bound (blocks c) from) as [|pos] eqn:El.
  - destruct (Hnb b Hb) as [?|?]; [right|left]; done.
  - left. destruct (blocks c !! pos) as [a|] eqn:Hpa;
      [|apply lookup_ge_None in Hpa; apply lookup_lt_Some in Hb; lia].
    destruct (Hlk _ _ _ Hpa Hb) as [[<- _]%is_chain_spec _].
    eapply lower_bound_before; [done|lia].
Qed.

Lemma query_tail_exact_witness :
  exists resp tail, query demo_chain 13 (Some "c"%string) = Some (Ok resp) /\
    resp_tail resp = Some tail /\ length tail = 2 /\ adjacent follows tail.
Proof.
  do 2 eexists. split; [reflexivity|]. split; [reflexivity|]. split; [reflexivity|].
  eapply (query_tail_exact demo_chain 13 (Some "c"%string));
    [by apply chain_wfb_sound|done|reflexivity|reflexivity].
Defined.

(** Searching a suffix backwards finds its last match. *)
Lemma find_rev_drop_spec (p : Block -> bool) (bs : list Block) f :
  match List.find p (rev (drop f bs)) with
  | Some b => exists i, f <= i /\ bs !! i = Some b /\ p b = true /\
                forall j a, i < j -> bs !! j = Some a -> p a = false
  | None => forall j a, f <= j -> bs !! j = Some a -> p a = false
  end.
Proof.
  induction bs as [|x bs IH] using rev_ind; [by rewrite drop_nil|].
  destruct (decide (f <= length bs)) as [Hle|Hgt].
  - rewrite drop_app_le by done. rewrite rev_app_distr; simpl. destruct (p x) eqn:Ex.
    + exists (length bs). split_and!; [done|apply lookup_snoc_Some; by right|done|].
      intros j a Hj [[? _]|[? _]]%lookup_snoc_Some; lia.
    + destruct (List.find p _) as [b|].
      * destruct IH as (i & Hi & Hb & Hp & Hno). exists i. split_and!; [done| |done|].
        -- apply lookup_snoc_Some. left. split; [by eapply lookup_lt_Some|done].
        -- intros j a Hj [[_ Ha]|[_ <-]]%lookup_snoc_Some; eauto.
      * intros j a Hj [[_ Ha]|[_ <-]]%lookup_snoc_Some; eauto.
  - rewrite drop_ge by (rewrite length_app; simpl; lia). simpl.
    intros j a Hj [[? _]|[? _]]%lookup_snoc_Some; lia.
Qed.

(** The fork base is the newest buffered block, not below finality, that
    the signal names or that lies strictly below everything it names, and
    there is none exactly when no block at or above finality qualifies: the
    divergence is below finality (WP-10, T6). *)
Theorem fork_base_correct c prev :
  chain_wf c -> refs_ascending prev ->
  exists r, get_fork_base c prev = Some r /\
    match r with
    | Some base => exists i b, finalized_head c <= i /\ blocks c !! i = Some b /\
        block_ref b = base /\ fork_base_ok prev b = true /\
        forall j a, i < j -> blocks c !! j = Some a -> fork_base_ok prev a = false
    | None => forall j a, finalized_head c <= j -> blocks c !! j = Some a ->
        fork_base_ok prev a = false
    end.
Proof.
  intros Hwf Hp. exists (fork_base_spec c prev). split; [by apply get_fork_base_eq|].
  unfold fork_base_spec.
  pose proof (find_rev_drop_spec (fork_base_ok prev) (blocks c) (finalized_head c)) as H.
  destruct (List.find _ _) as [b|]; simpl; [|done].
  destruct H as (i & ? & ? & ? & ?). exists i, b. split_and!; done.
Qed.

Lemma fork_base_correct_witness :
  refs_ascending [mkBlockRef 12 "c"; mkBlockRef 13 "x"] /\
  get_fork_base demo_chain [mkBlockRef 12 "c"; mkBlockRef 13 "x"] = Some (Some (mkBlockRef 12 "c")).
Proof.
  assert (refs_ascending [mkBlockRef 12 "c"; mkBlockRef 13 "x"]) as Ha
    by (apply adjacent_windows2; repeat constructor).
  split; [done|].
  destruct (fork_base_correct demo_chain _ ltac:(by apply chain_wfb_sound) Ha) as (r & E & _).
  rewrite E. vm_compute in E. congruence.
Defined.

(** On a buffer whose heights ascend, the binary search terminates within
    as many iterations as the slice has elements, never indexes outside it,
    and returns the number of blocks below the target: the index of the first
    block at or above it. *)
Theorem bisect_correct bs target :
  adjacent below bs ->
  exists i, bisect bs target = Some i /\ i <= length bs /\
    (forall j b, bs !! j = Some b -> j < i -> (number b < target)%N) /\
    (forall j b, bs !! j = Some b -> i <= j -> (target <= number b)%N).
Proof.
  intros Hasc. exists (lower_bound bs target). split_and!.
  - by apply bisect_eq.
  - apply lower_bound_le.
  - intros j b Hj Hlt. by eapply lower_bound_before.
  - intros j b Hj Hle. by eapply below_at_or_after.
Qed.

Lemma bisect_correct_witness : bisect (blocks demo_chain) 12 = Some 2.
Proof.
  destruct (bisect_correct (blocks demo_chain) 12) as (i & E & _);
    [by apply adjacent_windows2; repeat constructor|].
  rewrite E. vm_compute in E. done.
Defined.
