(* ===== verification/RefModel.v ===== *)
(** * RefModel: the executable reference model (harness/src/model.rs)

    The conformance harness keeps a single-threaded model of the service: the
    state machine over the buffer, the finality index and the session's
    finality maximum. It is the specification the detailed definitions of
    [Chain] and [Service] are shown to refine. Each operation is the model's
    method with its state made explicit; [None] is a panic ([unwrap] on an
    empty buffer or a failed [assert!]). *)
From S2P Require Import Prelude Types.
From Stdlib Require Import Strings.Ascii.
Local Open Scope rust_scope.
Local Open Scope string_scope.
Local Open Scope list_scope.
Local Open Scope nat_scope.

Record ModelBlock := mkModelBlock {
  mb_number : N;
  mb_hash : string;
  mb_parent_number : N;
  mb_parent_hash : string
}.

#[export] Instance ModelBlock_eq_dec : EqDecision ModelBlock.
Proof. solve_decision. Defined.

Definition mb_ref (b : ModelBlock) : BlockRef := mkBlockRef (mb_number b) (mb_hash b).
Definition mb_parent_ref (b : ModelBlock) : BlockRef :=
  mkBlockRef (mb_parent_number b) (mb_parent_hash b).

Definition linked (a b : ModelBlock) : bool :=
  (mb_number a =? mb_parent_number b)%N && bool_decide (mb_hash a = mb_parent_hash b).

(** [value.bytes().all(..)]: HTAB, or SP and above except DEL. *)
Definition header_safe_byte (a : ascii) : bool :=
  let n := N_of_ascii a in
  (n =? 9)%N || ((32 <=? n)%N && negb (n =? 127)%N).

Definition model_is_header_safe_hash (s : string) : bool :=
  forallb header_safe_byte (String.list_ascii_of_string s).

Definition str_is_empty (s : string) : bool := bool_decide (s = "").

Inductive Alarm : Type :=
  | AlarmIntegrityViolation (what : string)
  | AlarmOverWindow
  | AlarmForceAdvance
  | AlarmTerminal.

Inductive ApplyOutcome : Type :=
  | Applied
  | OutIntegrityViolation (what : string)
  | OutTerminal
  | OutSessionError (what : string).

Inductive InitError : Type :=
  | InitZeroCacheSize
  | InitEmptyBlockHash
  | InitEmptyParentHash
  | InitHeaderUnsafeBlockHash
  | InitHeaderUnsafeParentHash
  | InitParentAboveBlock.

Inductive QueryVerdict : Type :=
  | VData (blocks : list ModelBlock) (finalized : BlockRef)
  | VEmpty (head finalized : BlockRef)
  | VConflict
  | VBackfill.

Record RefModel := mkRefModel {
  m_blocks : list ModelBlock;
  m_f : nat;
  m_cache_size : nat;
  m_auto_adjust : bool;
  m_fin_max : option BlockRef;
  m_alarms : list Alarm
}.

Definition set_m_blocks (m : RefModel) (bs : list ModelBlock) : RefModel :=
  mkRefModel bs (m_f m) (m_cache_size m) (m_auto_adjust m) (m_fin_max m) (m_alarms m).
Definition set_m_f (m : RefModel) (f : nat) : RefModel :=
  mkRefModel (m_blocks m) f (m_cache_size m) (m_auto_adjust m) (m_fin_max m) (m_alarms m).
Definition set_m_fin_max (m : RefModel) (r : option BlockRef) : RefModel :=
  mkRefModel (m_blocks m) (m_f m) (m_cache_size m) (m_auto_adjust m) r (m_alarms m).
Definition alarm (m : RefModel) (a : Alarm) : RefModel :=
  mkRefModel (m_blocks m) (m_f m) (m_cache_size m) (m_auto_adjust m) (m_fin_max m)
    (m_alarms m ++ [a]).

(** INV-1..3, as the model asserts them after every transition. *)
Definition well_formed (m : RefModel) : bool :=
  negb (bool_decide (m_blocks m = []))
  && forallb (fun '(a, b) => linked a b && (mb_number a <? mb_number b)%N) (windows2 (m_blocks m))
  && (m_f m <? length (m_blocks m)).

Definition assert_well_formed (m : RefModel) : option unit :=
  if well_formed m then Some tt else None.

(** T1: seed a one-block buffer. *)
Definition model_init (seed : ModelBlock) (cache_size : nat) (auto_adjust : bool)
    : option (Result RefModel InitError) :=
  if cache_size =? 0 then Some (Err InitZeroCacheSize)
  else if str_is_empty (mb_hash seed) then Some (Err InitEmptyBlockHash)
  else if str_is_empty (mb_parent_hash seed) then Some (Err InitEmptyParentHash)
  else if negb (model_is_header_safe_hash (mb_hash seed)) then
    Some (Err InitHeaderUnsafeBlockHash)
  else if negb (model_is_header_safe_hash (mb_parent_hash seed)) then
    Some (Err InitHeaderUnsafeParentHash)
  else if (mb_number seed <? mb_parent_number seed)%N then Some (Err InitParentAboveBlock)
  else
    let m := mkRefModel [seed] 0 cache_size auto_adjust None [] in
    let! _ := assert_well_formed m in Some (Ok m).

Definition m_head (m : RefModel) : option BlockRef := mb_ref <$> last (m_blocks m).
Definition m_finalized (m : RefModel) : option BlockRef := mb_ref <$> (m_blocks m !! m_f m).

(** [iter().position(p)]. *)
Fixpoint position {A} (p : A -> bool) (l : list A) : option nat :=
  match l with
  | [] => None
  | x :: l => if p x then Some 0 else S <$> position p l
  end.

Definition violation (m : RefModel) (what : string) : RefModel * ApplyOutcome :=
  (alarm m (AlarmIntegrityViolation what), OutIntegrityViolation what).

Definition same_mb_ref (b x : ModelBlock) : bool :=
  (mb_number b =? mb_number x)%N && bool_decide (mb_hash b = mb_hash x).

Definition m_push (m : RefModel) (x : ModelBlock) : option (RefModel * ApplyOutcome) :=
  if existsb (fun b => same_mb_ref b x && (mb_parent_number b =? mb_parent_number x)%N
                       && bool_decide (mb_parent_hash b = mb_parent_hash x)) (m_blocks m)
  then Some (m, Applied)
  else if existsb (fun b => same_mb_ref b x) (m_blocks m)
  then Some (violation m "ref equivocation")
  else if (mb_number x <=? mb_parent_number x)%N then Some (violation m "descending height")
  else
  let! last := last (m_blocks m) in
  if linked last x then Some (set_m_blocks m (m_blocks m ++ [x]), Applied)
  else
  match position (fun b => (mb_number b =? mb_parent_number x)%N) (m_blocks m) with
  | None => Some (violation m "gap: parent not buffered")
  | Some i =>
      if i <? m_f m then Some (violation m "write below finality")
      else
      let! p := m_blocks m !! i in
      if negb (linked p x) then Some (violation m "parent hash mismatch")
      else Some (set_m_blocks m (take (i + 1) (m_blocks m) ++ [x]), Applied)
  end.

(** T4 (WP-23). *)
Definition m_finalize (m : RefModel) (r : BlockRef) : option (RefModel * ApplyOutcome) :=
  let! fin := m_finalized m in
  if (br_number r <? br_number fin)%N then Some (m, Applied)
  else
  let! first := m_blocks m !! 0 in
  if (br_number r <? mb_number first)%N then Some (m, Applied)
  else
  let! last := last (m_blocks m) in
  if (mb_number last <? br_number r)%N then
    Some (set_m_f m (length (m_blocks m) - 1), Applied)
  else
  match position (fun b => (mb_number b =? br_number r)%N) (m_blocks m) with
  | None => Some (violation m "finality names unbuffered height")
  | Some i =>
      let! b := m_blocks m !! i in
      if negb (bool_decide (mb_hash b = br_hash r)) then
        Some (violation m "finality hash mismatch")
      else Some (set_m_f m (Nat.max (m_f m) i), Applied)
  end.

(** WP-12: running maximum with contradiction detection. *)
Definition note_report (m : RefModel) (r : BlockRef) : option (RefModel * ApplyOutcome) :=
  let! fin := m_finalized m in
  if (br_number r <? br_number fin)%N then Some (m, Applied)
  else
  match m_fin_max m with
  | None => Some (set_m_fin_max m (Some r), Applied)
  | Some x =>
      if (br_number r =? br_number x)%N && negb (bool_decide (br_hash r = br_hash x)) then
        Some (violation m "conflicting finality reports")
      else if (br_number x <? br_number r)%N then
        Some (set_m_fin_max m (Some r), Applied)
      else Some (m, Applied)
  end.

Definition settle_report (m : RefModel) : option (RefModel * ApplyOutcome) :=
  let! last := last (m_blocks m) in
  match m_fin_max m with
  | None => Some (m, Applied)
  | Some x =>
      if (br_number x <=? mb_number last)%N then
        let! (m', o) := m_finalize m x in
        match o with
        | OutIntegrityViolation _ => Some (m', o)
        | _ => Some (m', Applied)
        end
      else Some (set_m_f m (length (m_blocks m) - 1), Applied)
  end.

(** T5 (WP-24). *)
Definition m_compact (m : RefModel) : RefModel :=
  let excess := length (m_blocks m) - m_cache_size m in
  let m1 := if (m_f m <? excess) && m_auto_adjust m
            then alarm (set_m_f m excess) AlarmForceAdvance else m in
  let k := Nat.min excess (m_f m1) in
  let m2 := if 0 <? k then set_m_f (set_m_blocks m1 (drop k (m_blocks m1))) (m_f m1 - k)
            else m1 in
  if m_cache_size m2 <? length (m_blocks m2) then alarm m2 AlarmOverWindow else m2.

(** Restore the checkpoint (everything but the alarms) on any outcome that is
    not [Applied]; compact and assert otherwise. *)
Definition atomic_step (step : RefModel -> option (RefModel * ApplyOutcome)) (m : RefModel)
    : option (RefModel * ApplyOutcome) :=
  let! (m', o) := step m in
  match o with
  | Applied =>
      let m'' := m_compact m' in
      let! _ := assert_well_formed m'' in Some (m'', Applied)
  | _ =>
      Some (set_m_fin_max (set_m_f (set_m_blocks m' (m_blocks m)) (m_f m)) (m_fin_max m), o)
  end.

Fixpoint push_all (m : RefModel) (bs : list ModelBlock) : option (RefModel * ApplyOutcome) :=
  match bs with
  | [] => Some (m, Applied)
  | x :: bs =>
      let! (m', o) := m_push m x in
      match o with
      | Applied => push_all m' bs
      | bad => Some (m', bad)
      end
  end.

Definition apply_step (bs : list ModelBlock) (finalized_report : option BlockRef) (m : RefModel)
    : option (RefModel * ApplyOutcome) :=
  let! (m1, o1) := push_all m bs in
  match o1 with
  | Applied =>
      let! (m2, o2) := settle_report m1 in
      match o2 with
      | Applied =>
          match finalized_report with
          | Some r =>
              let! (m3, o3) := note_report m2 r in
              match o3 with Applied => settle_report m3 | bad => Some (m3, bad) end
          | None => Some (m2, Applied)
          end
      | bad => Some (m2, bad)
      end
  | bad => Some (m1, bad)
  end.

Definition is_some_and {A} (o : option A) (p : A -> bool) : bool :=
  match o with Some a => p a | None => false end.

(** One input batch: the checks decidable from the batch alone, then T2/T3
    per block, WP-12 with T4, and T5, as one atomic step. *)
Definition apply_batch (m : RefModel) (bs : list ModelBlock) (report : option BlockRef)
    : option (RefModel * ApplyOutcome) :=
  if bool_decide (bs = []) then Some (m, OutSessionError "empty input batch (DEF-20)")
  else if existsb (fun '(a, b) => (mb_number b <=? mb_number a)%N || negb (linked a b)) (windows2 bs)
  then Some (m, OutSessionError "malformed input batch (DEF-20)")
  else if existsb (fun b => str_is_empty (mb_hash b) || str_is_empty (mb_parent_hash b)) bs
  then Some (m, OutSessionError "empty block hash (DEF-2)")
  else if is_some_and report (fun r => str_is_empty (br_hash r))
  then Some (m, OutSessionError "empty finality hash (DEF-2)")
  else if existsb (fun b => negb (model_is_header_safe_hash (mb_hash b))
                            || negb (model_is_header_safe_hash (mb_parent_hash b))) bs
  then Some (m, OutSessionError "header-unsafe block hash (DEF-2/IB-4)")
  else if is_some_and report (fun r => negb (model_is_header_safe_hash (br_hash r)))
  then Some (m, OutSessionError "header-unsafe finality hash (DEF-2/IB-4)")
  else atomic_step (apply_step bs report) m.

Definition begin_session (m : RefModel) : RefModel := set_m_fin_max m None.

(** T6 (WP-10): the new base, or the terminal or session-error verdict. *)
Definition fork_signal (m : RefModel) (prev : list BlockRef)
    : RefModel * Result BlockRef ApplyOutcome :=
  match prev with
  | [] => (m, Err (OutSessionError "empty fork signal"))
  | p :: ps =>
      let lowest := fold_left (fun a r => N.min a (br_number r)) ps (br_number p) in
      match List.find (fun b => bool_decide (mb_ref b ∈ prev) || (mb_number b <? lowest)%N)
              (rev (drop (m_f m) (m_blocks m))) with
      | Some b => (m, Ok (mb_ref b))
      | None => (alarm m AlarmTerminal, Err OutTerminal)
      end
  end.

(** RP-3 range resolution. *)
Definition m_query (m : RefModel) (from : N) (parent_hash : option string)
    : option QueryVerdict :=
  let! first := m_blocks m !! 0 in
  let rooted := (mb_parent_number first =? mb_number first)%N in
  if negb rooted && (from <=? mb_parent_number first)%N then Some VBackfill
  else
  let! last := last (m_blocks m) in
  let! head := m_head m in
  let! finalized := m_finalized m in
  if (mb_number last <? from)%N then
    if (from =? mb_number last + 1)%N
       && is_some_and parent_hash (fun ph => negb (bool_decide (ph = mb_hash last)))
    then Some VConflict
    else Some (VEmpty head finalized)
  else
  let! pos := position (fun b => (from <=? mb_number b)%N) (m_blocks m) in
  let! x := m_blocks m !! pos in
  if is_some_and parent_hash (fun ph => negb (bool_decide (mb_parent_hash x = ph)))
  then Some VConflict
  else Some (VData (drop pos (m_blocks m)) finalized).

(** INV-22 membership of a conflict ref. *)
Definition is_known_ref (m : RefModel) (r : BlockRef) : bool :=
  existsb (fun b => bool_decide (mb_ref b = r)
                    || (negb (mb_parent_number b =? mb_number b)%N
                        && bool_decide (mb_parent_ref b = r))) (m_blocks m).
