(* ===== verification/Service.v ===== *)
(** * Service: ingestion (service.rs)

    The write side of the data service: the checks decidable from a batch
    alone, the application of one batch under the write lock, the session loop
    over the adapter's stream, the seed of an epoch and the restart ladder.
    What the code publishes (metrics, the block watch, the readiness signal)
    is a list of [Effect]s, so that the order and the absence of observables
    can be stated; log lines are left out. *)
From S2P Require Import Prelude Types Chain.
From Stdlib Require Import Strings.Ascii.
Local Open Scope rust_scope.

(** HTAB, or SP and above except DEL: what [HeaderValue::from_str] accepts. *)
Definition is_header_safe_byte (a : ascii) : bool :=
  let byte := N_of_ascii a in
  (byte =? 9)%N || ((32 <=? byte)%N && negb (byte =? 127)%N).

Definition is_header_safe_hash (value : string) : bool :=
  forallb is_header_safe_byte (String.list_ascii_of_string value).

Definition is_empty (s : string) : bool := bool_decide (s = ""%string).

(** A block a batch actually inserted, and when it became queryable. *)
Record Ingested := mkIngested { index : nat; at_ms : N }.

(** How the ingestion run ended. *)
Inductive RunEnd : Type :=
  | Stopped
  | StartupFailure (e : AnyError)
  | Terminal (e : AnyError).

(** The per-block checks, in the order the loop makes them. *)
Fixpoint validate_hashes (bs : list Block) : Result unit StreamError :=
  match bs with
  | [] => Ok tt
  | b :: bs =>
      if is_empty (hash b) then Err (Other (EmptyBlockHash (number b)))
      else if is_empty (parent_hash b) then Err (Other (EmptyParentHash (number b)))
      else if negb (is_header_safe_hash (hash b)) then
        Err (Other (UnsafeBlockHash (number b)))
      else if negb (is_header_safe_hash (parent_hash b)) then
        Err (Other (UnsafeParentHash (number b)))
      else validate_hashes bs
  end.

Definition validate_report (report : option BlockRef) : Result unit StreamError :=
  match report with
  | None => Ok tt
  | Some r =>
      if is_empty (br_hash r) then Err (Other (EmptyFinalityHash (br_number r)))
      else if negb (is_header_safe_hash (br_hash r)) then
        Err (Other (UnsafeFinalityHash (br_number r)))
      else Ok tt
  end.

Fixpoint validate_links (pairs : list (Block * Block)) : Result unit StreamError :=
  match pairs with
  | [] => Ok tt
  | (a, b) :: pairs =>
      if (number b <=? number a)%N || negb (is_chain a b) then
        Err (Other (NotPairwiseLinked (block_ref a) (block_ref b)))
      else validate_links pairs
  end.

(** Everything decidable from an input batch alone. *)
Definition validate_ingest_batch (batch : BlockBatch) : Result unit StreamError :=
  match batch_blocks batch with
  | [] => Err (Other EmptyBatch)
  | _ =>
      let? _ := validate_hashes (batch_blocks batch) in
      let? _ := validate_report (batch_finalized_head batch) in
      validate_links (windows2 (batch_blocks batch))
  end.

(** Discharge the session's WP-12 obligation against the current buffer. *)
Definition settle_obligation (chain : Chain) (fh : BlockRef)
    : option (Chain * Result unit StreamError) :=
  let! (chain', r) := finalize chain fh in
  match r with
  | Ok _ => Some (chain', Ok tt)
  | Err e => Some (chain', Err (Other (ObligationContradicts e)))
  end.

(** The batch's pushes; [now] is the clock read after the [index]-th push. *)
Fixpoint push_blocks (now : nat -> N) (i : nat) (chain : Chain) (bs : list Block)
    : option (Chain * Result (list Ingested) StreamError) :=
  match bs with
  | [] => Some (chain, Ok [])
  | b :: bs =>
      let! (chain1, r) := push chain b in
      match r with
      | Err e => Some (chain1, Err (Other (BatchContradicts e)))
      | Ok outcome =>
          let! (chain2, rest) := push_blocks now (S i) chain1 bs in
          match rest with
          | Err e => Some (chain2, Err e)
          | Ok l =>
              Some (chain2, Ok (match outcome with
                                | Inserted => mkIngested i (now i) :: l
                                | Absorbed => l
                                end))
          end
      end
  end.

(** WP-12's equal-height contradiction, decidable before the batch is applied. *)
Definition conflicting_report (chain : Chain) (report : option BlockRef)
    (finalized_max : option BlockRef) : option (option StreamError) :=
  match report, finalized_max with
  | Some r, Some current =>
      let! fin := get_finalized_head chain in
      if (br_number fin <=? br_number r)%N && (br_number r =? br_number current)%N
         && negb (bool_decide (br_hash r = br_hash current))
      then Some (Some (Other (ConflictingReports (br_number r) (br_hash current) (br_hash r))))
      else Some None
  | _, _ => Some None
  end.

(** Settle the obligation the previous batch left, when there is one. *)
Definition settle_current (chain : Chain) (finalized_max : option BlockRef)
    : option (Chain * Result unit StreamError) :=
  match finalized_max with
  | Some fh => settle_obligation chain fh
  | None => Some (chain, Ok tt)
  end.

(** Raise the session maximum to this batch's report; the flag says it moved. *)
Definition raise_max (chain : Chain) (report finalized_max : option BlockRef)
    : option (option BlockRef * bool) :=
  match report with
  | None => Some (finalized_max, false)
  | Some r =>
      let! applied := get_finalized_head chain in
      if (br_number applied <=? br_number r)%N
         && match finalized_max with
            | None => true
            | Some current => (br_number current <? br_number r)%N
            end
      then Some (Some r, true) else Some (finalized_max, false)
  end.

(** Apply one batch and its finality report to an open batch scope; the chain
    and the session maximum are returned as the code left them, error or not. *)
Definition apply_batch_locked (now : nat -> N) (chain : Chain) (batch : BlockBatch)
    (finalized_max : option BlockRef)
    : option (Chain * option BlockRef * Result (list Ingested) StreamError) :=
  let report := batch_finalized_head batch in
  let! conflict := conflicting_report chain report finalized_max in
  match conflict with
  | Some e => Some (chain, finalized_max, Err e)
  | None =>
  let! (chain1, r1) := push_blocks now 0 chain (batch_blocks batch) in
  match r1 with
  | Err e => Some (chain1, finalized_max, Err e)
  | Ok inserted =>
  let! (chain2, r2) := settle_current chain1 finalized_max in
  match r2 with
  | Err e => Some (chain2, finalized_max, Err e)
  | Ok _ =>
  let! (max', raised) := raise_max chain2 report finalized_max in
  if raised then
    let! (chain3, r3) := settle_current chain2 max' in
    match r3 with
    | Err e => Some (chain3, max', Err e)
    | Ok _ => Some (chain3, max', Ok inserted)
    end
  else Some (chain2, max', Ok inserted)
  end end end.

(** ** What ingestion publishes *)

Inductive SessionRestart : Type := RestartReset | RestartFork | RestartError.

(** The state levels [trigger_update_locked] sets before it notifies the block
    watch with the last number. *)
Record Levels := mkLevels {
  lv_first_block : N;
  lv_last_block : N;
  lv_last_block_timestamp : N;
  lv_finalized_block : N;
  lv_stored_blocks : nat;
  lv_window_excess : nat
}.

Inductive Effect : Type :=
  | EUpstreamProgress (n : N)
  | EBlockIngestion (n at_ms : N)
  | EBlockLag (timestamp at_ms : N)
  | EIntegrityViolation
  | ECommit
  | EStarted (ok : bool)
  | EForceAdvance (past : N)
  | EUpdate (l : Levels)
  | EWatermarkRegression
  | ETerminalState
  | ESessionRestart (kind : SessionRestart)
  | EForkRebase
  | ESessionEnd (ladder_position : N) (cause : option AnyError).

Definition trigger_update_locked (chain : Chain) : option (list Effect) :=
  let! last := last_block chain in
  let! first := first_block_number chain in
  let! fin := get_finalized_head chain in
  Some [EUpdate (mkLevels first (number last) (default 0%N (timestamp last))
                   (br_number fin) (chain_size chain) (window_excess chain))].

(** Ingest-time observables of a batch that survived. [batch.blocks[index]]
    panics out of range. *)
Fixpoint ingested_effects (bs : list Block) (inserted : list Ingested)
    : option (list Effect) :=
  match inserted with
  | [] => Some []
  | i :: rest =>
      let! b := bs !! index i in
      let! effects := ingested_effects bs rest in
      Some (EBlockIngestion (number b) (at_ms i)
              :: match timestamp b with
                 | Some ts => [EBlockLag ts (at_ms i)]
                 | None => []
                 end ++ effects)
  end.

(** ** One session *)

(** What the ingestion loop owns: the shared buffer, the session's finality
    maximum, whether any block was ever ingested, and what it has published. *)
Record Service := mkService {
  sv_chain : option Chain;
  sv_finalized_max : option BlockRef;
  sv_first_block_ingested : bool;
  sv_published : list Effect
}.

Definition publish (s : Service) (e : list Effect) : Service :=
  mkService (sv_chain s) (sv_finalized_max s) (sv_first_block_ingested s) (sv_published s ++ e).

Definition reset_finalized_max (s : Service) : Service :=
  mkService (sv_chain s) None (sv_first_block_ingested s) (sv_published s).

(** The part of the session loop that runs under the write lock. *)
Definition ingest_batch (now : nat -> N) (s : Service) (batch : BlockBatch)
    : option (Service * Result unit StreamError) :=
  match validate_ingest_batch batch with
  | Err e => Some (s, Err e)
  | Ok _ =>
  let! chain0 := sv_chain s in
  let! (chain1, fm, r) :=
    apply_batch_locked now (begin_batch chain0) batch (sv_finalized_max s) in
  match r with
  | Err e =>
      Some (mkService (Some (rollback_batch chain1)) fm (sv_first_block_ingested s)
              (sv_published s ++ [EIntegrityViolation]), Err e)
  | Ok inserted =>
      let chain2 := commit_batch chain1 in
      let! observed := ingested_effects (batch_blocks batch) inserted in
      let inserted_any := negb (bool_decide (length inserted = 0)) in
      let started :=
        if inserted_any && negb (sv_first_block_ingested s) then [EStarted true] else [] in
      let! (chain3, compaction) := compact chain2 in
      let! updated := trigger_update_locked chain3 in
      Some (mkService (Some chain3) fm (sv_first_block_ingested s || inserted_any)
              (sv_published s
                 ++ match last (batch_blocks batch) with
                    | Some b => [EUpstreamProgress (number b)]
                    | None => []
                    end
                 ++ observed ++ [ECommit] ++ started
                 ++ match force_advanced_past compaction with
                    | Some past => [EForceAdvance past]
                    | None => []
                    end
                 ++ updated), Ok tt)
  end end.

(** What one turn of the session loop sees: the cancellation winning the race,
    the stream's end, an error item, or a batch, with whether [stop()] had been
    called by then and the clock of its pushes. *)
Inductive SessionItem : Type :=
  | ItemCancelled
  | ItemEnd
  | ItemError (e : StreamError)
  | ItemBatch (stopped : bool) (now : nat -> N) (b : BlockBatch).

Definition session_request (base : BlockRef) : StreamRequest :=
  mkStreamRequest (saturating_add (br_number base) 1) None (Some (br_hash base)).

(** The session loop over what the stream delivers. [None] in the second
    component: the items ran out with the session still open. *)
Fixpoint ingest_session (s : Service) (items : list SessionItem)
    : option (Service * option (Result unit StreamError)) :=
  match items with
  | [] => Some (s, None)
  | ItemCancelled :: _ | ItemEnd :: _ => Some (s, Some (Ok tt))
  | ItemError (Fork []) :: _ => Some (s, Some (Err (Other EmptyForkSignal)))
  | ItemError e :: _ => Some (s, Some (Err e))
  | ItemBatch true _ _ :: _ => Some (s, Some (Ok tt))
  | ItemBatch false now b :: items =>
      let! (s', r) := ingest_batch now s b in
      match r with
      | Ok _ => ingest_session s' items
      | Err e => Some (s', Some (Err e))
      end
  end.

(** ** Seeding an epoch *)

(** What the adapter answers during [init]: its finalized head and the first
    item of the one-block finalized stream. *)
Record SeedAnswers := mkSeedAnswers {
  sa_head : Result BlockRef AnyError;
  sa_item : option (Result BlockBatch StreamError)
}.

Definition seed_request (head : BlockRef) : StreamRequest :=
  mkStreamRequest (br_number head) (Some (br_number head)) None.

(** The block the source delivered, once every check on it passed. *)
Definition accept_seed (buffer_size : nat) (a : SeedAnswers) : option (Result Block AnyError) :=
  if buffer_size =? 0 then Some (Err ZeroCacheSize)
  else match sa_head a with
  | Err e => Some (Err (SeedHeadFailed e))
  | Ok head =>
  if is_empty (br_hash head) then Some (Err SeedHeadEmptyHash)
  else if negb (is_header_safe_hash (br_hash head)) then Some (Err SeedHeadUnsafeHash)
  else match sa_item a with
  | None => Some (Err SeedNoBlocks)
  | Some (Err e) => Some (Err (SeedFetchFailed e))
  | Some (Ok batch) =>
  if negb (length (batch_blocks batch) =? 1) then
    Some (Err (SeedCountMismatch (br_number head) (length (batch_blocks batch))))
  else match validate_ingest_batch batch with
  | Err e => Some (Err (FromStream e))
  | Ok _ =>
  let! seed := batch_blocks batch !! 0 in
  if (number seed <? parent_number seed)%N then
    Some (Err (SeedParentAbove (number seed) (parent_number seed)))
  else if negb ((number seed =? br_number head)%N && bool_decide (hash seed = br_hash head)) then
    Some (Err (SeedMismatch (block_ref seed) head))
  else Some (Ok seed)
  end end end.

(** The block already held at the seed's height under another ref or another
    parent link, if the buffer about to be discarded holds one. *)
Definition divergent_held (prev : Chain) (seed : Block) : option Block :=
  match block_at prev (number seed) with
  | Some held =>
      if negb (bool_decide (hash held = hash seed))
         || negb (parent_number held =? parent_number seed)%N
         || negb (bool_decide (parent_hash held = parent_hash seed))
      then Some held else None
  | None => None
  end.

Definition init (buffer_size : nat) (auto_adjust : bool) (s : Service) (a : SeedAnswers)
    : option (Service * Result unit AnyError) :=
  let! seed := accept_seed buffer_size a in
  match seed with
  | Err e => Some (s, Err e)
  | Ok seed =>
  match (prev ← sv_chain s; divergent_held prev seed) with
  | Some held =>
      Some (s, Err (DivergentReseed (block_ref seed) (parent_ref seed)
                      (block_ref held) (parent_ref held)))
  | None =>
  let! regression :=
    match sv_chain s with
    | None => Some []
    | Some prev =>
        let! fin := get_finalized_head prev in
        Some (if (number seed <? br_number fin)%N then [EWatermarkRegression] else [])
    end in
  let! chain := chain_new seed buffer_size auto_adjust in
  let! updated := trigger_update_locked chain in
  Some (mkService (Some chain) (sv_finalized_max s) (sv_first_block_ingested s)
          (sv_published s ++ regression ++ updated), Ok tt)
  end end.

(** ** The run ladder *)

(** [stacked] is an [i32] in the code. It is unbounded here: it grows by one
    per session and rests 30 seconds from the second rung on, so its width is
    out of reach (2^31 rungs). *)
Record RunState := mkRunState {
  rs_service : Service;
  rs_base : BlockRef;
  rs_stacked : N
}.

(** What one turn of [run] sees: the stop flag before and after the session,
    the answers a re-seed would get, and the session's items. *)
Record TurnInput := mkTurnInput {
  ti_stop_before : bool;
  ti_seed : SeedAnswers;
  ti_items : list SessionItem;
  ti_stop_after : bool
}.

Inductive TurnOutcome : Type :=
  | TurnNext (st : RunState) (pause_secs : N)
  | TurnEnded (st : RunState) (e : RunEnd)
  | TurnOpen (st : RunState).

Definition head_ref (s : Service) : option BlockRef :=
  let! c := sv_chain s in header_block_ref <$> get_header c.

Definition is_divergent_reseed (e : AnyError) : bool :=
  match e with DivergentReseed _ _ _ _ => true | _ => false end.

(** A session that died, by an error or by its stream ending: fatal before
    the first block, a rung of the ladder after it. *)
Definition session_died (s : Service) (base : BlockRef) (stacked : N)
    (startup cause : AnyError) : option TurnOutcome :=
  let s := reset_finalized_max s in
  if negb (sv_first_block_ingested s) then
    Some (TurnEnded (mkRunState (publish s [EStarted false]) base stacked)
            (StartupFailure startup))
  else
    let! head := head_ref s in
    let stacked' := if (br_number head =? br_number base)%N then (stacked + 1)%N else 0%N in
    let s' := publish s [ESessionRestart RestartError; ESessionEnd stacked' (Some cause)] in
    Some (TurnNext (mkRunState s' head stacked') (if (1 <? stacked')%N then 30 else 0)).

(** A fork signal: rebase inside the session, or the end of the run. *)
Definition session_forked (s : Service) (base : BlockRef) (previous_blocks : list BlockRef)
    : option TurnOutcome :=
  let! c := sv_chain s in
  let! fork_base := get_fork_base c previous_blocks in
  match fork_base with
  | Some fb =>
      let s' := publish s [ESessionRestart RestartFork; EForkRebase; ESessionEnd 0 None] in
      Some (TurnNext (mkRunState s' fb 0) 0)
  | None =>
      let! finalized := get_finalized_head c in
      let s' := publish s (ETerminalState ::
                  if sv_first_block_ingested s then [] else [EStarted false]) in
      Some (TurnEnded (mkRunState s' base 0)
              (Terminal (RollbackBehindFinalized finalized previous_blocks)))
  end.

Definition session_over (s : Service) (base : BlockRef) (stacked : N) (stop_after : bool)
    (r : Result unit StreamError) : option TurnOutcome :=
  if stop_after then Some (TurnEnded (mkRunState s base stacked) Stopped)
  else
  match r with
  | Ok _ => session_died s base stacked HeadStreamEndedBeforeFirstBlock StreamEndedWithoutError
  | Err (Fork previous_blocks) => session_forked s base previous_blocks
  | Err (Other e) => session_died s base stacked (FirstSessionDied e) e
  end.

Definition session_turn (s : Service) (base : BlockRef) (stacked : N) (i : TurnInput)
    : option TurnOutcome :=
  let! (s', r) := ingest_session s (ti_items i) in
  match r with
  | None => Some (TurnOpen (mkRunState s' base stacked))
  | Some r => session_over s' base stacked (ti_stop_after i) r
  end.

(** One turn of the [run] loop. *)
Definition run_turn (buffer_size : nat) (auto_adjust : bool) (st : RunState) (i : TurnInput)
    : option TurnOutcome :=
  if ti_stop_before i then Some (TurnEnded st Stopped)
  else
  if (5 <? rs_stacked st)%N then
    let s := reset_finalized_max (rs_service st) in
    let! (s', r) := init buffer_size auto_adjust s (ti_seed i) in
    match r with
    | Err e =>
        if is_divergent_reseed e then
          Some (TurnEnded (mkRunState (publish s' [ETerminalState]) (rs_base st) (rs_stacked st))
                  (Terminal e))
        else session_over s' (rs_base st) (rs_stacked st) (ti_stop_after i) (Err (Other e))
    | Ok _ =>
        let s'' := publish s' [ESessionRestart RestartReset] in
        let! base := head_ref s'' in
        session_turn s'' base (rs_stacked st) i
    end
  else session_turn (rs_service st) (rs_base st) (rs_stacked st) i.

(** The run over the turns a schedule offers. *)
Fixpoint run (buffer_size : nat) (auto_adjust : bool) (st : RunState) (turns : list TurnInput)
    : option (RunState * option RunEnd) :=
  match turns with
  | [] => Some (st, None)
  | i :: turns =>
      let! o := run_turn buffer_size auto_adjust st i in
      match o with
      | TurnNext st' _ => run buffer_size auto_adjust st' turns
      | TurnEnded st' e => Some (st', Some e)
      | TurnOpen st' => Some (st', None)
      end
  end.

(** [run]'s initial state: the base is the seeded buffer's head. *)
Definition run_start (s : Service) : option RunState :=
  let! base := head_ref s in Some (mkRunState s base 0).
