(* ===== verification/ChainRefines.v ===== *)
(** * ChainRefines: the buffer and its batches refine the reference model

    The abstraction [abs] forgets payloads and the undo log. Under it a push, a
    finality report, a compaction, a whole ingested batch, a query and a fork
    signal of the service are the reference model's, acceptance and rejection
    included. The two differ in the order of two checks (the service decides
    the equal-height contradiction before it applies the batch) and in the
    wording of rejections; neither shows in the verdict. *)
From S2P Require Import Prelude Types Chain RefModel Service.
Local Open Scope rust_scope.

(** ** The abstraction *)

Definition abs_block (b : Block) : ModelBlock :=
  mkModelBlock (number b) (hash b) (parent_number b) (parent_hash b).

Definition abs (c : Chain) (fin_max : option BlockRef) (alarms : list Alarm) : RefModel :=
  mkRefModel (abs_block <$> blocks c) (finalized_head c) (max_size c)
    (auto_adjust_finalized_head c) fin_max alarms.

(** A rejection by the model: a violation that touched nothing but the
    checkpointed fields and the alarms. *)
Definition rejected (c : Chain) (x : option (RefModel * ApplyOutcome)) : Prop :=
  exists m w, x = Some (m, OutIntegrityViolation w) /\
    m_cache_size m = max_size c /\ m_auto_adjust m = auto_adjust_finalized_head c.

Definition accepted (c : Chain) (fm : option BlockRef) (x : option (RefModel * ApplyOutcome))
    : Prop :=
  exists al, x = Some (abs c fm al, Applied).

Lemma linked_abs a b : linked (abs_block a) (abs_block b) = is_chain a b.
Proof. done. Qed.

Lemma last_abs (bs : list Block) : last (abs_block <$> bs) = abs_block <$> last bs.
Proof. apply fmap_last. Qed.

Lemma m_finalized_abs c fm al : m_finalized (abs c fm al) = get_finalized_head c.
Proof.
  unfold m_finalized, get_finalized_head. simpl. rewrite list_lookup_fmap.
  by destruct (blocks c !! finalized_head c).
Qed.

(** A test that forces the height is decided at the lower bound. *)
Lemma existsb_at (p : ModelBlock -> bool) bs n :
  adjacent below bs -> (forall b, p b = true -> mb_number b = n) ->
  existsb p (abs_block <$> bs) =
  match bs !! lower_bound bs n with Some h => p (abs_block h) | None => false end.
Proof.
  intros Hasc Hp. apply eq_true_iff_eq. rewrite existsb_exists. split.
  - intros (x & Hx%list_elem_of_In & Hpx).
    apply list_elem_of_fmap in Hx as (b & -> & [i Hi]%list_elem_of_lookup_1).
    pose proof (Hp _ Hpx) as Hn. simpl in Hn. rewrite <- Hn.
    by rewrite (lower_bound_exact _ _ _ Hasc Hi), Hi.
  - destruct (bs !! lower_bound bs n) as [h|] eqn:Hh; [|done]. intros Hph.
    exists (abs_block h). split; [|done]. apply list_elem_of_In, list_elem_of_fmap.
    exists h. split; [done|by eapply list_elem_of_lookup_2].
Qed.

Lemma position_none {A} (p : A -> bool) l :
  (forall x, x ∈ l -> p x = false) -> position p l = None.
Proof.
  induction l as [|x l IH]; intros H; simpl; [done|].
  rewrite (H x) by left. rewrite IH; [done|]. intros y Hy. apply H. by right.
Qed.

Lemma position_number bs n :
  adjacent below bs ->
  position (fun b => (mb_number b =? n)%N) (abs_block <$> bs) =
  match bs !! lower_bound bs n with
  | Some b => if (number b =? n)%N then Some (lower_bound bs n) else None
  | None => None
  end.
Proof.
  induction bs as [|a bs IH]; intros Hasc; [done|]. rewrite fmap_cons.
  cbn [position lower_bound abs_block mb_number].
  pose proof (adjacent_tail _ _ _ Hasc) as Ht.
  destruct (N.ltb_spec (number a) n) as [Hlt|Hge].
  - rewrite (proj2 (N.eqb_neq _ _)) by lia. rewrite IH by done. simpl.
    destruct (bs !! lower_bound bs n) as [b|]; [|done]. by destruct (number b =? n)%N.
  - simpl. destruct (N.eqb_spec (number a) n); [done|].
    rewrite position_none; [done|]. intros x (b & -> & [i Hi]%list_elem_of_lookup_1)%list_elem_of_fmap.
    assert (below a b) as Hab by (apply (adjacent_lt below (a :: bs) 0 (S i)); auto; lia).
    unfold below in Hab. apply N.eqb_neq. simpl. lia.
Qed.

Lemma position_at_least bs n :
  position (fun b => (n <=? mb_number b)%N) (abs_block <$> bs) =
  if lower_bound bs n <? length bs then Some (lower_bound bs n) else None.
Proof.
  induction bs as [|a bs IH]; [done|]. rewrite fmap_cons.
  cbn [position lower_bound abs_block mb_number].
  rewrite N.leb_antisym. destruct (number a <? n)%N; simpl; [|done].
  rewrite IH. change (S (lower_bound bs n) <? S (length bs)) with (lower_bound bs n <? length bs).
  by case_match.
Qed.

(** ** Pushes *)

(** The duplicate and equivocation tests agree. *)
Lemma held_agrees c b :
  adjacent below (blocks c) ->
  held_verdict (blocks c !! lower_bound (blocks c) (number b)) b =
  if existsb (fun x => same_mb_ref x (abs_block b)
                && (mb_parent_number x =? mb_parent_number (abs_block b))%N
                && bool_decide (mb_parent_hash x = mb_parent_hash (abs_block b)))
       (abs_block <$> blocks c) then Some (Ok Absorbed)
  else if existsb (fun x => same_mb_ref x (abs_block b)) (abs_block <$> blocks c)
  then Some (Err (RefEquivocation (number b) (hash b)))
  else None.
Proof.
  intros Hasc. rewrite !(existsb_at _ _ (number b)) by
    (done || (intros x; unfold same_mb_ref; simpl; rewrite ?andb_true_iff, ?N.eqb_eq; tauto)).
  destruct (blocks c !! _) as [h|]; [|done]. unfold held_verdict, same_mb_ref; simpl.
  destruct (number h =? number b)%N; simpl; [|done].
  case_bool_decide; simpl; [|done]. by destruct ((_ =? _)%N && _).
Qed.

Lemma push_refines c b fm al :
  chain_wf c -> undo_ok c ->
  exists c' r, push c b = Some (c', r) /\
    match r with
    | Ok _ => accepted c' fm (m_push (abs c fm al) (abs_block b))
    | Err _ => rejected c (m_push (abs c fm al) (abs_block b))
    end.
Proof.
  intros Hwf Hundo. pose proof Hwf as [[Hne Hlk Hroot] Hfin Hmax].
  pose proof (follows_below _ Hlk) as Hasc.
  unfold push, m_push. rewrite !bisect_eq, held_agrees by done. cbn [m_blocks abs].
  destruct (existsb _ _); [do 2 eexists; split; [done|by eexists]|].
  destruct (existsb _ _); [do 2 eexists; split; [done|by do 2 eexists]|].
  cbn [mb_number mb_parent_number abs_block].
  destruct (number b <=? parent_number b)%N; [do 2 eexists; split; [done|by do 2 eexists]|].
  destruct (last_block_some c Hne) as [l Hl]. rewrite Hl.
  pose proof (last_block_lookup c l Hl) as Hll.
  rewrite last_abs. unfold last_block in Hl. rewrite Hl. cbn [fmap option_fmap option_map].
  change (mkModelBlock (number b) (hash b) (parent_number b) (parent_hash b)) with (abs_block b).
  rewrite linked_abs, position_number by done. cbn [m_f abs].
  destruct (is_chain l b) eqn:Hic.
  { apply is_chain_spec in Hic as Hic'. rewrite (proj2 (N.eqb_eq _ _)) by tauto.
    do 2 eexists. split; [done|]. eexists. unfold abs, set_m_blocks; simpl.
    by rewrite fmap_app. }
  destruct (N.eqb_spec (number l) (parent_number b)) as [Hnum|Hnum].
  { rewrite <- Hnum, (lower_bound_exact _ _ _ Hasc Hll), Hll, N.eqb_refl.
    rewrite (proj2 (Nat.ltb_ge _ _)) by lia. rewrite list_lookup_fmap, Hll. simpl.
    rewrite linked_abs, Hic. do 2 eexists. split; [done|by do 2 eexists]. }
  set (pos := lower_bound (blocks c) (parent_number b)) in *.
  destruct (blocks c !! pos) as [p|] eqn:Hp.
  2:{ destruct (pos <? finalized_head c); do 2 eexists; (split; [done|by do 2 eexists]). }
  destruct (N.eqb_spec (number p) (parent_number b)) as [Hpn|]; simpl.
  2:{ destruct (pos <? finalized_head c); do 2 eexists; (split; [done|by do 2 eexists]). }
  destruct (pos <? finalized_head c); [do 2 eexists; split; [done|by do 2 eexists]|].
  rewrite list_lookup_fmap, Hp. simpl. rewrite linked_abs. unfold is_chain.
  rewrite (proj2 (N.eqb_eq _ _)) by done. simpl.
  case_bool_decide; simpl; [|do 2 eexists; split; [done|by do 2 eexists]].
  pose proof (lookup_lt_Some _ _ _ Hp).
  destruct (record_removal_total c (pos + 1) Hundo ltac:(lia)) as (c1 & Hc1 & Hb1 & Hf1 & Hm1 & Ha1).
  rewrite Hc1. do 2 eexists. split; [done|]. eexists.
  unfold abs, set_m_blocks, set_blocks; simpl.
  by rewrite Hb1, Hf1, Hm1, Ha1, fmap_app, fmap_take.
Qed.

(** ** Finality *)

Lemma finalize_refines c h fm al :
  chain_wf c ->
  exists c' r, finalize c h = Some (c', r) /\
    match r with
    | Ok _ => accepted c' fm (m_finalize (abs c fm al) h)
    | Err _ => rejected c (m_finalize (abs c fm al) h)
    end.
Proof.
  intros Hwf. pose proof Hwf as [[Hne Hlk Hroot] Hfin Hmax].
  pose proof (follows_below _ Hlk) as Hasc.
  destruct (finalize_total c h Hwf) as (c' & r & E & He). exists c', r. split; [done|]. clear E.
  destruct (finalized_head_some c Hwf) as (fb & Hfb & Hgf).
  destruct (last_block_some c Hne) as [l Hl].
  destruct (first_block_some c Hne) as [fst0 Hf0]. unfold first_block in Hf0.
  pose proof (last_block_lookup c l Hl) as Hll. pose proof Hl as Hl'. unfold last_block in Hl'.
  assert (number fst0 <= number fb)%N as Hle by (eapply (below_le (blocks c) 0); eauto; lia).
  unfold m_finalize. rewrite m_finalized_abs, Hgf. cbn [br_number block_ref m_blocks abs].
  rewrite list_lookup_fmap, Hf0, last_abs, Hl'. cbn [fmap option_fmap option_map mb_number abs_block].
  assert (forall i b, blocks c !! i = Some b -> finalized_head c <= i ->
            (number fb <= number b)%N) as Hup by (intros; eapply (below_le (blocks c)); eauto).
  assert (forall i b, blocks c !! i = Some b -> (number b <= number l)%N) as Htop
    by (intros; by eapply number_le_last).
  rewrite position_number by done.
  destruct He as [fin Hf Hlt|l' Hl2 Hlt|i b Hi <- Hge|fin l' Hf Hl2 Hr Hno|fin b Hf Hge Hb Hn Hh];
    simplify_eq; simpl.
  - rewrite (proj2 (N.ltb_lt _ _)) by done. by eexists.
  - pose proof (Htop _ _ Hfb). do 2 (rewrite (proj2 (N.ltb_ge _ _)) by lia).
    rewrite (proj2 (N.ltb_lt _ _)) by done. eexists.
    unfold abs, set_m_f; simpl. by rewrite length_fmap.
  - pose proof (Htop _ _ Hi). pose proof (Hup _ _ Hi Hge).
    do 3 (rewrite (proj2 (N.ltb_ge _ _)) by lia).
    rewrite (lower_bound_exact _ _ _ Hasc Hi), Hi, N.eqb_refl, list_lookup_fmap, Hi. simpl.
    rewrite bool_decide_eq_true_2 by done. simpl. eexists. by rewrite Nat.max_r by done.
  - do 3 (rewrite (proj2 (N.ltb_ge _ _)) by lia).
    destruct (blocks c !! lower_bound (blocks c) (br_number h)) as [b|] eqn:Hb;
      [|by do 2 eexists].
    rewrite (proj2 (N.eqb_neq _ _)) by by eapply Hno, list_elem_of_lookup_2. by do 2 eexists.
  - apply list_elem_of_lookup_1 in Hb as [i Hi]. pose proof (Htop _ _ Hi).
    do 3 (rewrite (proj2 (N.ltb_ge _ _)) by lia).
    rewrite <- Hn, (lower_bound_exact _ _ _ Hasc Hi), Hi, N.eqb_refl, list_lookup_fmap, Hi. simpl.
    rewrite bool_decide_eq_false_2 by done. by do 2 eexists.
Qed.

Lemma settle_refines c fm al :
  chain_wf c ->
  exists c' r, settle_current c fm = Some (c', r) /\ chain_wf c' /\
    match r with
    | Ok _ => accepted c' fm (settle_report (abs c fm al))
    | Err _ => rejected c (settle_report (abs c fm al))
    end.
Proof.
  intros Hwf. destruct (last_block_some c (shape_nonempty _ (wf_shape _ Hwf))) as [l Hl].
  unfold settle_current, settle_report, settle_obligation. cbn [m_blocks m_fin_max abs].
  rewrite last_abs. pose proof Hl as Hl'. unfold last_block in Hl'. rewrite Hl'. simpl.
  destruct fm as [x|]; [|do 2 eexists; split_and!; [done|done|by eexists]].
  destruct (finalize_total c x Hwf) as (c1 & r & E & He).
  destruct (finalize_refines c x (Some x) al Hwf) as (c2 & r2 & E2 & Hr). simplify_eq.
  rewrite E. pose proof (finalize_effect_wf _ _ _ _ Hwf He) as Hwf1.
  destruct (N.leb_spec (br_number x) (number l)) as [Hle|Hgt].
  - destruct r as [b|v].
    + destruct Hr as [al' Hr]. rewrite Hr. do 2 eexists. split_and!; [done..|by eexists].
    + destruct Hr as (m & w & Hr & ? & ?). rewrite Hr.
      do 2 eexists. split_and!; [done..|by do 2 eexists].
  - destruct He as [fin Hf Hlt|l' Hl2 Hlt|i b Hi <- Hge|fin l' Hf Hl2 Hrg Hno|fin b Hf Hge Hb Hn Hh];
      simplify_eq.
    + pose proof (number_le_last _ _ _ _ Hwf Hl Hf). lia.
    + do 2 eexists. split_and!; [done..|]. eexists. unfold abs, set_m_f; simpl.
      by rewrite length_fmap.
    + pose proof (number_le_last _ _ _ _ Hwf Hl Hi). simpl in Hgt. lia.
    + lia.
    + apply list_elem_of_lookup_1 in Hb as [i Hi].
      pose proof (number_le_last _ _ _ _ Hwf Hl Hi). lia.
Qed.

(** Settling twice is settling once. *)
Lemma settle_idempotent c c' fm :
  chain_wf c -> settle_current c fm = Some (c', Ok tt) -> settle_current c' fm = Some (c', Ok tt).
Proof.
  intros Hwf. destruct fm as [x|]; [|done]. simpl. unfold settle_obligation.
  destruct (finalize_total c x Hwf) as (c1 & r & E & He). rewrite E.
  destruct r as [moved|]; [|done]. intros [= <-].
  pose proof (finalize_effect_wf _ _ _ _ Hwf He) as Hwf1.
  destruct (finalize_total c1 x Hwf1) as (c2 & r2 & E2 & He2). rewrite E2.
  assert (Hsame : c2 = c1 /\ exists m, r2 = Ok m); [|by destruct Hsame as [-> [m ->]]].
  pose proof (follows_below _ (shape_linked _ (wf_shape _ Hwf))) as Hasc.
  inversion He as [fin Hf Hlt|l' Hl2 Hlt|i b Hi <- Hge| |]; subst.
  - rewrite E in E2. simplify_eq. eauto.
  - assert (last_block (set_finalized_head c (length (blocks c) - 1)) = Some l') as Hl by done.
    assert (forall b, b ∈ blocks c -> (number b <= number l')%N) as Hall.
    { intros b [i Hi]%list_elem_of_lookup_1. by eapply (number_le_last c). }
    inversion He2 as [fin Hf2 Hlt2|l2 Hl3|i b Hi Hr|fin l2 Hf2 Hl3 Hr|fin b Hf2 Hge2 Hb Hn]; subst;
      simplify_eq/=; eauto.
    + apply list_elem_of_lookup_2, Hall in Hi. simpl in Hlt. lia.
    + lia.
    + apply Hall in Hb. lia.
  - assert (forall j a, blocks c !! j = Some a -> number a = number b -> j = i /\ a = b) as Huniq.
    { intros j a Hj Hn. assert (j = i) as ->; [|by simplify_eq].
      by rewrite <- (lower_bound_exact _ _ _ Hasc Hj), Hn, (lower_bound_exact _ _ _ Hasc Hi). }
    inversion He2 as [fin Hf2 Hlt2|l2 Hl3 Hgt|j a Hj Hr|fin l2 Hf2 Hl3 Hr Hno|fin a Hf2 Hge2 Ha Hn Hh];
      subst; simplify_eq/=; eauto.
    + pose proof (number_le_last c l2 i b Hwf Hl3 Hi). lia.
    + destruct (Huniq j a Hj) as [-> ->]; [congruence|]. eauto.
    + by apply list_elem_of_lookup_2, Hno in Hi.
    + apply list_elem_of_lookup_1 in Ha as [j Hj]. destruct (Huniq j a Hj Hn) as [_ ->]. done.
Qed.

(** ** One batch *)

(** What a sequence of pushes keeps: well-formedness, the log, and the
    finalized block. *)
Definition batch_keeps (c0 c c' : Chain) : Prop :=
  chain_wf c' /\ log_of c0 c' /\ get_finalized_head c' = get_finalized_head c.

Lemma push_keeps c0 c b c' r :
  chain_wf c -> log_of c0 c -> push c b = Some (c', r) -> batch_keeps c0 c c'.
Proof.
  intros Hwf Hl E. destruct (push_total c b Hwf) as (c1 & r1 & E1 & He); [eauto with hotblocks|].
  simplify_eq. split_and!; [eauto with hotblocks..|].
  destruct He as [ | i p c1 Hi Hfin Hf Hrm | ]; [done| |done].
  pose proof (lookup_lt_Some _ _ _ Hi).
  destruct (record_removal_total c (S i)) as (c2 & Hc2 & _ & Ef & _);
    [eauto with hotblocks|lia|]. simplify_eq.
  unfold get_finalized_head; simpl. rewrite Ef, lookup_app_l by (rewrite length_take_le; lia).
  by rewrite lookup_take_lt by lia.
Qed.

Lemma push_blocks_refines now i c0 c bs fm al :
  chain_wf c -> log_of c0 c ->
  exists c' r, push_blocks now i c bs = Some (c', r) /\ batch_keeps c0 c c' /\
    match r with
    | Ok _ => accepted c' fm (push_all (abs c fm al) (abs_block <$> bs))
    | Err _ => rejected c0 (push_all (abs c fm al) (abs_block <$> bs))
    end.
Proof.
  revert i c al. induction bs as [|b bs IH]; intros i c al Hwf Hl.
  { exists c, (Ok []). split_and!; [done|done|by eexists]. }
  rewrite fmap_cons. cbn [push_blocks push_all].
  destruct (push_refines c b fm al Hwf) as (c1 & r1 & E1 & Hr); [eauto with hotblocks|].
  rewrite E1. destruct (push_keeps c0 c b c1 r1 Hwf Hl E1) as (Hwf1 & Hl1 & Hf1).
  destruct r1 as [o|v].
  - destruct Hr as [al1 Hr]. rewrite Hr.
    destruct (IH (S i) c1 al1 Hwf1 Hl1) as (c2 & r2 & E2 & (Hwf2 & Hl2 & Hf2) & Hr2). rewrite E2.
    destruct r2; do 2 eexists; (split; [done|]); (split; [split_and!; congruence|done]).
  - destruct Hr as (m & w & Hr & Hc & Ha). rewrite Hr. do 2 eexists. split; [done|].
    split; [done|]. do 2 eexists. split; [done|]. destruct Hl as [_ Hm Hau]. split; congruence.
Qed.

(** Settling moves finality forward only, and settles the maximum it is given. *)
Lemma settle_keeps c0 c fm c' r fin :
  chain_wf c -> log_of c0 c -> settle_current c fm = Some (c', r) ->
  get_finalized_head c = Some fin ->
  chain_wf c' /\ log_of c0 c' /\
  exists fin', get_finalized_head c' = Some fin' /\ (br_number fin <= br_number fin')%N.
Proof.
  intros Hwf Hl E Hfin. destruct fm as [x|]; simpl in E; [|simplify_eq; eauto].
  unfold settle_obligation in E. destruct (finalize_total c x Hwf) as (c1 & r1 & E1 & He).
  rewrite E1 in E. assert (c1 = c') as -> by (destruct r1; congruence). clear E.
  split_and!; [eauto with hotblocks..|].
  pose proof (finalize_effect_wf _ _ _ _ Hwf He) as Hwf'.
  destruct (finalize_effect_form _ _ _ _ Hwf He) as (f & -> & Hf).
  destruct (finalized_head_some _ Hwf') as (b' & Hb' & Hg). exists (block_ref b').
  split; [done|]. destruct (finalized_head_some c Hwf) as (b & Hb & Hg2). simplify_eq.
  eapply (below_le (blocks c)); [|done|done|simpl; lia].
  destruct Hwf as [[_ Hlk _] _ _]. auto with hotblocks.
Qed.

(** After settling, an obligation at the height of an equal report stands. *)
Lemma settled_at c x c' fin fin' :
  chain_wf c -> settle_current c (Some x) = Some (c', Ok tt) ->
  get_finalized_head c = Some fin -> (br_number fin <= br_number x)%N ->
  get_finalized_head c' = Some fin' -> (br_number fin' <= br_number x)%N.
Proof.
  intros Hwf E Hfin Hle Hfin'. simpl in E. unfold settle_obligation in E.
  destruct (finalize_total c x Hwf) as (c1 & r1 & E1 & He). rewrite E1 in E.
  destruct r1 as [m|]; [|done]. simplify_eq.
  inversion He as [f Hf Hlt|l Hl Hlt|i b Hi <- Hge| |]; subst.
  - by simplify_eq.
  - unfold get_finalized_head in Hfin'; simpl in Hfin'.
    rewrite (last_block_lookup _ _ Hl) in Hfin'. simplify_eq/=. lia.
  - unfold get_finalized_head in Hfin'; simpl in Hfin'. rewrite Hi in Hfin'. by simplify_eq/=.
Qed.

(** The model's second half, [note_report] then [settle_report], against the
    service's: no early conflict was found. *)
Lemma report_refines c0 c c2 fm report al fin :
  chain_wf c -> log_of c0 c -> settle_current c fm = Some (c2, Ok tt) ->
  get_finalized_head c = Some fin ->
  conflicting_report c report fm = Some None ->
  exists fm' raised, raise_max c2 report fm = Some (fm', raised) /\
  exists c3 r3, (if raised then settle_current c2 fm' else Some (c2, Ok tt)) = Some (c3, r3) /\
    chain_wf c3 /\ log_of c0 c3 /\
    let model :=
      match report with
      | Some r => let! (m3, o3) := note_report (abs c2 fm al) r in
                  match o3 with Applied => settle_report m3 | bad => Some (m3, bad) end
      | None => Some (abs c2 fm al, Applied)
      end in
    match r3 with Ok _ => accepted c3 fm' model | Err _ => rejected c0 model end.
Proof.
  intros Hwf Hl Es Hfin Hconf. unfold raise_max.
  destruct (settle_keeps _ _ _ _ _ _ Hwf Hl Es Hfin) as (Hwf2 & Hl2 & f2 & Hf2 & Hle2).
  destruct report as [r|]; [|exists fm, false; split; [done|]; do 2 eexists; split_and!; eauto; by eexists].
  unfold note_report. rewrite m_finalized_abs.
  destruct (finalized_head_some c2 Hwf2) as (b2 & Hb2 & Hg2). rewrite Hg2. simpl.
  assert (Hkeep : exists x, settle_report (abs c2 fm al) = Some (abs c2 fm x, Applied)).
  { destruct (settle_refines c2 fm al Hwf2) as (c3 & r3 & E3 & _ & Hr).
    rewrite (settle_idempotent c c2 fm Hwf Es) in E3. simplify_eq. done. }
  rewrite N.leb_antisym. destruct (N.ltb_spec (br_number r) (number b2)) as [Hlt|Hge]; simpl.
  { exists fm, false. split; [done|]. exists c2, (Ok tt). split_and!; done. }
  assert (Hraise : forall fm', exists c3 r3, settle_current c2 fm' = Some (c3, r3) /\
    chain_wf c3 /\ log_of c0 c3 /\
    match r3 with Ok _ => accepted c3 fm' (settle_report (abs c2 fm' al))
             | Err _ => rejected c0 (settle_report (abs c2 fm' al)) end).
  { intros fm'. destruct (settle_refines c2 fm' al Hwf2) as (c3 & r3 & E3 & Hwf3 & Hr).
    destruct (settle_keeps c0 c2 fm' c3 r3 _ Hwf2 Hl2 E3 Hg2) as (_ & Hl3 & _).
    exists c3, r3. split_and!; [done..|]. destruct r3; [done|].
    destruct Hr as (m & w & ? & ? & ?), Hl2 as [_ ? ?]. exists m, w. split_and!; congruence. }
  destruct fm as [x|]; simpl in *; [|exists (Some r), true; split; [done|apply Hraise]].
  rewrite Hfin in Hconf.
  destruct ((br_number r =? br_number x)%N && negb (bool_decide (br_hash r = br_hash x))) eqn:Ec.
  { exfalso. rewrite <- andb_assoc, Ec, andb_true_r in Hconf.
    destruct (N.leb_spec (br_number fin) (br_number r)); [done|]. simplify_eq/=. lia. }
  destruct (br_number x <? br_number r)%N; [exists (Some r), true; split; [done|apply Hraise]|].
  exists (Some x), false. split; [done|]. exists c2, (Ok tt). split_and!; done.
Qed.

(** The early check found a contradiction: the model finds it too, after the
    pushes and the first settlement, unless one of those already failed. *)
Lemma conflict_model c0 c bs report fm al e :
  chain_wf c -> log_of c0 c -> conflicting_report c report fm = Some (Some e) ->
  rejected c0 (apply_step (abs_block <$> bs) report (abs c fm al)).
Proof.
  intros Hwf Hl Hconf. unfold conflicting_report in Hconf.
  destruct report as [r|]; [|done]. destruct fm as [x|]; [|done].
  destruct (finalized_head_some c Hwf) as (b0 & Hb0 & Hg0). rewrite Hg0 in Hconf.
  destruct (_ && _) eqn:Ec in Hconf; [|done].
  rewrite <- andb_assoc in Ec. apply andb_true_iff in Ec as [Hge%N.leb_le Ec].
  unfold apply_step.
  destruct (push_blocks_refines (fun _ => 0%N) 0 c0 c bs (Some x) al Hwf Hl)
    as (c1 & r1 & _ & (Hwf1 & Hl1 & Hg1) & Hr1).
  destruct r1 as [?|?]; [|by destruct Hr1 as (m & w & -> & ? & ?); do 2 eexists].
  destruct Hr1 as [al1 ->].
  destruct (settle_refines c1 (Some x) al1 Hwf1) as (c2 & r2 & E2 & Hwf2 & Hr2).
  destruct r2 as [[]|?].
  2:{ destruct Hr2 as (m & w & -> & ? & ?), Hl1 as [_ ? ?]. do 2 eexists. split; [done|]. split; congruence. }
  destruct Hr2 as [al2 ->]. unfold note_report. rewrite m_finalized_abs.
  destruct (finalized_head_some c2 Hwf2) as (b2 & Hb2 & Hg2). rewrite Hg2. simpl.
  assert (br_number r = br_number x) as Hrx by (by apply andb_true_iff in Ec as [?%N.eqb_eq _]).
  rewrite Hg0 in Hg1.
  pose proof (settled_at c1 x c2 _ _ Hwf1 E2 Hg1 ltac:(lia) Hg2) as Hle. simpl in Hle.
  rewrite (proj2 (N.ltb_ge _ _)) by lia. rewrite Ec.
  destruct (settle_keeps c0 c1 (Some x) c2 (Ok tt) _ Hwf1 Hl1 E2 Hg1) as (_ & [_ ? ?] & _).
  do 2 eexists. split; [done|]. simpl. split; congruence.
Qed.

Lemma apply_batch_refines now c batch fm al :
  chain_wf c ->
  exists c' fm' r, apply_batch_locked now (begin_batch c) batch fm = Some (c', fm', r) /\
    chain_wf c' /\ log_of c c' /\
    let model := apply_step (abs_block <$> batch_blocks batch) (batch_finalized_head batch)
                   (abs c fm al) in
    match r with Ok _ => accepted c' fm' model | Err _ => rejected c model end.
Proof.
  intros Hwf. pose proof (begin_batch_wf _ Hwf) as Hwfb. pose proof (log_of_begin c) as Hlb.
  change (abs c fm al) with (abs (begin_batch c) fm al). unfold apply_batch_locked.
  destruct (conflicting_report (begin_batch c) (batch_finalized_head batch) fm) as [[e|]|] eqn:Ec.
  - exists (begin_batch c), fm, (Err e). split_and!; [done..|]. by eapply conflict_model.
  - unfold apply_step.
    destruct (push_blocks_refines now 0 c (begin_batch c) (batch_blocks batch) fm al Hwfb Hlb)
      as (c1 & r1 & -> & (Hwf1 & Hl1 & Hg1) & Hr1).
    destruct r1 as [ins|e]; [|destruct Hr1 as (m & w & -> & ? & ?);
      exists c1, fm, (Err e); split_and!; [done..|by do 2 eexists]].
    destruct Hr1 as [al1 ->].
    destruct (settle_refines c1 fm al1 Hwf1) as (c2 & r2 & E2 & Hwf2 & Hr2). rewrite E2.
    destruct (finalized_head_some c1 Hwf1) as (b1 & Hb1 & Hf1).
    destruct (settle_keeps c c1 fm c2 r2 _ Hwf1 Hl1 E2 Hf1) as (_ & Hl2 & _).
    destruct r2 as [[]|e].
    2:{ destruct Hr2 as (m & w & -> & ? & ?). exists c2, fm, (Err e). split_and!; [done..|].
        do 2 eexists. split; [done|]. destruct Hl1 as [_ ? ?]. split; congruence. }
    destruct Hr2 as [al2 ->].
    assert (conflicting_report c1 (batch_finalized_head batch) fm = Some None) as Ec1.
    { rewrite <- Ec. unfold conflicting_report. by rewrite Hg1. }
    destruct (report_refines c c1 c2 fm (batch_finalized_head batch) al2 (block_ref b1)
      Hwf1 Hl1 E2 Hf1 Ec1) as (fm' & raised & -> & c3 & r3 & E3 & Hwf3 & Hl3 & Hr3).
    destruct raised.
    + rewrite E3. destruct r3; do 3 eexists; (split_and!; [done..|exact Hr3]).
    + simplify_eq. do 3 eexists. split_and!; [done..|exact Hr3].
  - exfalso. unfold conflicting_report in Ec. destruct (batch_finalized_head batch), fm; try done.
    destruct (finalized_head_some _ Hwfb) as (fb & _ & Hg0). rewrite Hg0 in Ec. by case_match.
Qed.

(** ** Compaction and the checks on the batch alone *)

Lemma well_formed_abs c fm al : chain_wf c -> well_formed (abs c fm al) = true.
Proof.
  intros [[Hne Hlk _] Hf _]. unfold well_formed. simpl. rewrite length_fmap, !andb_true_iff.
  split_and!; [|apply forallb_forall|by apply Nat.ltb_lt].
  - apply negb_true_iff, bool_decide_eq_false. by destruct (blocks c).
  - assert (adjacent (fun a b => linked a b = true /\ (mb_number a < mb_number b)%N)
      (abs_block <$> blocks c)) as Ha.
    { apply adjacent_fmap. eapply adjacent_impl; [|exact Hlk]. by intros x y [? ?]. }
    apply adjacent_windows2 in Ha. rewrite Forall_forall in Ha.
    intros [a b] Hab%list_elem_of_In. destruct (Ha _ Hab) as [-> ?].
    by rewrite (proj2 (N.ltb_lt _ _)).
Qed.

(** The model's compaction, field by field. *)
Lemma m_compact_fields m :
  let excess := length (m_blocks m) - m_cache_size m in
  let f := if (m_f m <? excess) && m_auto_adjust m then excess else m_f m in
  let k := Nat.min excess f in
  exists al, m_compact m =
    mkRefModel (drop k (m_blocks m)) (f - k) (m_cache_size m) (m_auto_adjust m) (m_fin_max m) al.
Proof.
  intros excess f k. unfold m_compact. fold excess.
  assert (exists al1, (if (m_f m <? excess) && m_auto_adjust m
                       then alarm (set_m_f m excess) AlarmForceAdvance else m) =
    mkRefModel (m_blocks m) f (m_cache_size m) (m_auto_adjust m) (m_fin_max m) al1) as [al1 ->].
  { subst f. destruct ((m_f m <? excess) && m_auto_adjust m); [by eexists|].
    exists (m_alarms m). by destruct m. }
  cbn [m_f m_blocks set_m_f set_m_blocks m_cache_size m_auto_adjust m_fin_max m_alarms]. fold k.
  destruct (Nat.ltb_spec 0 k) as [Hk|Hk]; cbn [m_f m_blocks m_cache_size].
  - case_match; eexists; reflexivity.
  - assert (k = 0) as -> by lia. rewrite drop_0, Nat.sub_0_r. case_match; eexists; reflexivity.
Qed.

Lemma compact_refines c fm al :
  chain_wf c -> exists al', m_compact (abs c fm al) = abs (compact_spec c).1 fm al'.
Proof.
  intros [Hs Hf Hm]. destruct (m_compact_fields (abs c fm al)) as [al' ->]. exists al'.
  unfold abs, compact_spec, compact_drop. simpl. rewrite length_fmap, <- fmap_drop.
  set (extra := length (blocks c) - max_size c).
  destruct (auto_adjust_finalized_head c); rewrite ?andb_true_r, ?andb_false_r.
  - destruct (Nat.ltb_spec (finalized_head c) extra); [|by rewrite Nat.min_l by lia].
    rewrite Nat.min_id. by replace (extra - extra) with (finalized_head c - extra) by lia.
  - done.
Qed.

(** The checks on the batch alone reject the same batches. *)
Definition validate_passes (batch : BlockBatch) : Prop :=
  batch_blocks batch <> [] /\
  Forall (fun b => is_empty (hash b) = false /\ is_empty (parent_hash b) = false /\
            is_header_safe_hash (hash b) = true /\ is_header_safe_hash (parent_hash b) = true)
    (batch_blocks batch) /\
  (forall r, batch_finalized_head batch = Some r ->
     is_empty (br_hash r) = false /\ is_header_safe_hash (br_hash r) = true) /\
  adjacent follows (batch_blocks batch).

Lemma validate_hashes_ok bs :
  validate_hashes bs = Ok tt <->
  Forall (fun b => is_empty (hash b) = false /\ is_empty (parent_hash b) = false /\
            is_header_safe_hash (hash b) = true /\ is_header_safe_hash (parent_hash b) = true) bs.
Proof.
  induction bs as [|b bs IH]; simpl; [done|]. rewrite Forall_cons, <- IH.
  destruct (is_empty (hash b)), (is_empty (parent_hash b)), (is_header_safe_hash (hash b)),
    (is_header_safe_hash (parent_hash b)); simpl; naive_solver.
Qed.

Lemma validate_links_ok bs :
  validate_links (windows2 bs) = Ok tt <-> adjacent follows bs.
Proof.
  rewrite adjacent_windows2. induction (windows2 bs) as [|[a b] l IH]; simpl; [done|].
  rewrite Forall_cons, <- IH. unfold follows.
  destruct (N.leb_spec (number b) (number a)); simpl.
  - split; [done|]. intros [[_ ?] _]. lia.
  - destruct (is_chain a b); simpl; naive_solver.
Qed.

Lemma validate_ok batch : validate_ingest_batch batch = Ok tt <-> validate_passes batch.
Proof.
  unfold validate_ingest_batch, validate_passes.
  rewrite <- validate_hashes_ok, <- validate_links_ok.
  destruct (decide (batch_blocks batch = [])) as [->|Hne]; [split; [done|by intros []]|].
  transitivity (validate_hashes (batch_blocks batch) = Ok tt /\
    validate_report (batch_finalized_head batch) = Ok tt /\
    validate_links (windows2 (batch_blocks batch)) = Ok tt).
  - destruct (batch_blocks batch); [done|].
    destruct (validate_hashes _) as [[]|]; [|split; [done|by intros []]].
    destruct (validate_report _) as [[]|]; [|split; [done|by intros (? & ? & ?)]].
    by split; [|intros (? & ? & ?)].
  - assert (validate_report (batch_finalized_head batch) = Ok tt <->
      (forall r, batch_finalized_head batch = Some r ->
         is_empty (br_hash r) = false /\ is_header_safe_hash (br_hash r) = true)) as ->;
      [|tauto].
    unfold validate_report. destruct (batch_finalized_head batch) as [r|]; [|by split].
    destruct (is_empty (br_hash r)) eqn:E1, (is_header_safe_hash (br_hash r)) eqn:E2; simpl;
      (split; [intros ? x [= <-]; by auto || done|intros H; destruct (H r); [done|congruence]]).
Qed.

Lemma header_safe_same s : is_header_safe_hash s = model_is_header_safe_hash s.
Proof. done. Qed.

(** [existsb] of a negated test fails exactly when every element passes. *)
Lemma existsb_false_Forall {A} (p : A -> bool) l :
  existsb p l = false <-> Forall (fun x => p x = false) l.
Proof.
  induction l as [|x l IH]; simpl; [done|].
  by rewrite Forall_cons, orb_false_iff, IH.
Qed.

Lemma malformed_abs bs :
  existsb (fun '(a, b) => (mb_number b <=? mb_number a)%N || negb (linked a b))
    (windows2 (abs_block <$> bs)) = false <-> adjacent follows bs.
Proof.
  rewrite existsb_false_Forall.
  transitivity (adjacent (fun a b => (mb_number b <=? mb_number a)%N || negb (linked a b) = false)
                  (abs_block <$> bs)).
  { rewrite adjacent_windows2. apply Forall_iff. by intros [a b]. }
  rewrite adjacent_fmap. unfold adjacent, follows.
  split; intros H i x y Hx Hy; specialize (H i x y Hx Hy); rewrite ?linked_abs in *; simpl in *.
  - apply orb_false_iff in H as [?%N.leb_gt ?%negb_false_iff]. done.
  - apply orb_false_iff. destruct H as [? ?]. split; [by apply N.leb_gt|by apply negb_false_iff].
Qed.

(** The model's verdict on a batch that fails, or passes, those checks. *)
Lemma apply_batch_checks m batch :
  let bs := abs_block <$> batch_blocks batch in
  let report := batch_finalized_head batch in
  (validate_passes batch /\ apply_batch m bs report = atomic_step (apply_step bs report) m) \/
  (~ validate_passes batch /\ exists w, apply_batch m bs report = Some (m, OutSessionError w)).
Proof.
  unfold apply_batch, validate_passes.
  case_bool_decide as Hne.
  { right. split; [|eauto]. intros [Hb _]. by apply fmap_nil_inv in Hne. }
  destruct (existsb _ (windows2 _)) eqn:Em.
  { right. split; [|eauto]. intros (_ & _ & _ & Hadj). apply malformed_abs in Hadj. congruence. }
  apply malformed_abs in Em.
  assert (forall p, existsb p (abs_block <$> batch_blocks batch) = false <->
            Forall (fun b => p (abs_block b) = false) (batch_blocks batch)) as Hex.
  { intros p. by rewrite existsb_false_Forall, Forall_fmap. }
  destruct (existsb _ _) eqn:Ee.
  { right. split; [|eauto]. intros (_ & Hf & _). apply not_false_iff_true in Ee.
    apply Ee, Hex. eapply Forall_impl; [done|]. intros b (E1 & E2 & _). by apply orb_false_iff. }
  apply Hex in Ee.
  destruct (is_some_and _ (fun r => str_is_empty (br_hash r))) eqn:Er.
  { right. split; [|eauto]. intros (_ & _ & Hr & _).
    destruct (batch_finalized_head batch) as [r|]; [|done]. simpl in Er.
    destruct (Hr r eq_refl). unfold str_is_empty, is_empty in *. congruence. }
  destruct (existsb _ _) eqn:Es.
  { right. split; [|eauto]. intros (_ & Hf & _). apply not_false_iff_true in Es.
    apply Es, Hex. eapply Forall_impl; [done|]. intros b (_ & _ & E1 & E2).
    rewrite header_safe_same in E1, E2. simpl. by rewrite E1, E2. }
  apply Hex in Es.
  destruct (is_some_and _ (fun r => negb (model_is_header_safe_hash (br_hash r)))) eqn:Et.
  { right. split; [|eauto]. intros (_ & _ & Hr & _).
    destruct (batch_finalized_head batch) as [r|]; [|done].
    destruct (Hr r eq_refl) as [_ E]. rewrite header_safe_same in E.
    unfold is_some_and in Et. by rewrite E in Et. }
  rewrite Forall_forall in Ee. rewrite Forall_forall in Es.
  left. split; [|done]. split_and!; [|apply Forall_forall|..].
  - intros Hn. apply Hne. by rewrite Hn.
  - intros b Hb. specialize (Ee b Hb). specialize (Es b Hb). simpl in *.
    apply orb_false_iff in Ee as [? ?]. apply orb_false_iff in Es as [? ?].
    split_and!; try done; by apply negb_false_iff.
  - intros r Hr. rewrite Hr in Er, Et. simpl in *. split; [done|by apply negb_false_iff].
  - done.
Qed.

(** ** The ingested batch *)

Lemma push_blocks_indices now i c bs c' l :
  push_blocks now i c bs = Some (c', Ok l) ->
  Forall (fun x => i <= index x < i + length bs) l.
Proof.
  revert i c l. induction bs as [|b bs IH]; intros i c l; simpl; [by intros [= _ <-]|].
  destruct (push c b) as [[c1 [o|v]]|]; [|done..].
  destruct (push_blocks now (S i) c1 bs) as [[c2 [rest|e]]|] eqn:E; [|done..].
  intros [= <- <-]. apply IH in E.
  assert (Forall (fun x => i <= index x < i + S (length bs)) rest) as Hr
    by (eapply Forall_impl; [done|]; simpl; lia).
  destruct o; [constructor; [simpl; lia|done]|done].
Qed.

Lemma apply_batch_inserted now c batch fm c' fm' l :
  apply_batch_locked now c batch fm = Some (c', fm', Ok l) ->
  Forall (fun x => index x < length (batch_blocks batch)) l.
Proof.
  unfold apply_batch_locked.
  destruct (conflicting_report _ _ _) as [[?|]|]; [done| |done].
  destruct (push_blocks now 0 c _) as [[c1 [ins|e]]|] eqn:E; [|done..].
  apply push_blocks_indices in E.
  assert (Forall (fun x => index x < length (batch_blocks batch)) ins) as Hi
    by (eapply Forall_impl; [done|]; simpl; lia).
  intros H. repeat (case_match; simplify_eq/=; try done).
Qed.

Lemma ingested_effects_total bs l :
  Forall (fun x => index x < length bs) l -> exists es, ingested_effects bs l = Some es.
Proof.
  induction 1 as [|x l Hx Hl [es IH]]; simpl; [eauto|].
  destruct (bs !! index x) eqn:E; [|apply lookup_ge_None in E; lia]. rewrite IH. eauto.
Qed.

Lemma trigger_update_total c : chain_wf c -> exists es, trigger_update_locked c = Some es.
Proof.
  intros Hwf. unfold trigger_update_locked, first_block_number.
  destruct (last_block_some c (shape_nonempty _ (wf_shape _ Hwf))) as [l ->].
  destruct (first_block_some c (shape_nonempty _ (wf_shape _ Hwf))) as [f ->].
  destruct (finalized_head_some c Hwf) as (b & _ & ->). simpl. eauto.
Qed.

Lemma commit_abs c fm al : abs (commit_batch c) fm al = abs c fm al.
Proof. done. Qed.

(** The service's state between batches: a well-formed buffer, no open log. *)
Definition service_ready (s : Service) (c : Chain) : Prop :=
  sv_chain s = Some c /\ chain_wf c /\ undo c = None.

Lemma commit_compact_ready c :
  chain_wf c -> exists c' r, compact (commit_batch c) = Some (c', r) /\
    chain_wf c' /\ undo c' = None /\ c' = (compact_spec (commit_batch c)).1.
Proof.
  intros Hwf. apply commit_batch_wf in Hwf. rewrite compact_eq by done.
  do 2 eexists. split; [done|]. split_and!; [by apply compact_spec_wf|done..].
Qed.

Lemma ingest_batch_refines now s c batch al :
  service_ready s c ->
  exists s' c' r, ingest_batch now s batch = Some (s', r) /\ service_ready s' c' /\
  exists m' o, apply_batch (abs c (sv_finalized_max s) al) (abs_block <$> batch_blocks batch)
                 (batch_finalized_head batch) = Some (m', o) /\
    match r with
    | Ok _ => o = Applied /\ exists al', m' = abs c' (sv_finalized_max s') al'
    | Err _ => o <> Applied /\ c' = c /\ exists al', m' = abs c (sv_finalized_max s) al'
    end.
Proof.
  intros (Hc & Hwf & Hundo). unfold ingest_batch.
  destruct (apply_batch_checks (abs c (sv_finalized_max s) al) batch) as [[Hv Hm]|[Hv [w Hm]]].
  2:{ destruct (validate_ingest_batch batch) as [[]|e] eqn:Ev.
      { exfalso. by apply Hv, validate_ok. }
      exists s, c, (Err e). split_and!; [done..|]. do 2 eexists. split; [exact Hm|]. eauto. }
  rewrite Hm, (proj2 (validate_ok batch) Hv), Hc.
  destruct (apply_batch_refines now c batch (sv_finalized_max s) al Hwf)
    as (c1 & fm' & r & E & Hwf1 & Hl1 & Hr). rewrite E. unfold atomic_step.
  destruct r as [ins|e].
  - destruct Hr as [al1 ->]. apply apply_batch_inserted in E.
    destruct (ingested_effects_total _ _ E) as [es ->].
    destruct (commit_compact_ready c1 Hwf1) as (c2 & cp & -> & Hwf2 & Hu2 & Ec2).
    destruct (trigger_update_total c2 Hwf2) as [us ->].
    destruct (compact_refines (commit_batch c1) fm' al1) as [al2 Hcr]; [by apply commit_batch_wf|].
    rewrite commit_abs, <- Ec2 in Hcr. rewrite Hcr.
    unfold assert_well_formed. rewrite well_formed_abs by done.
    do 3 eexists. split; [done|]. split; [split_and!; done|].
    do 2 eexists. split; [done|]. eauto.
  - destruct Hr as (m & w & -> & Hmc & Hma).
    eexists _, c, (Err e). split; [done|]. split.
    { rewrite (rollback_log _ _ Hl1). split_and!; simpl; [|done..].
      destruct c; simpl in *; by subst. }
    do 2 eexists. split; [done|]. split_and!; [done..|]. exists (m_alarms m).
    unfold set_m_fin_max, set_m_f, set_m_blocks, abs; simpl. congruence.
Qed.

(** The model over a session's batches, up to the first rejected one. *)
Fixpoint model_session (m : RefModel) (batches : list BlockBatch)
    : option (RefModel * ApplyOutcome) :=
  match batches with
  | [] => Some (m, Applied)
  | b :: batches =>
      let! (m', o) := apply_batch m (abs_block <$> batch_blocks b) (batch_finalized_head b) in
      match o with
      | Applied => model_session m' batches
      | bad => Some (m', bad)
      end
  end.

Definition batch_items (batches : list ((nat -> N) * BlockBatch)) : list SessionItem :=
  (fun '(now, b) => ItemBatch false now b) <$> batches.

Definition demo_service : Service := mkService (Some demo_chain) None false [].

(** Two batches the demo buffer accepts: an append, then a reorganisation
    carrying a finality report; and one it rejects. *)
Definition demo_batches : list ((nat -> N) * BlockBatch) :=
  [(fun _ => 7%N, mkBlockBatch [make_block 15 "f" 14 "e"; make_block 16 "g" 15 "f"] None);
   (fun _ => 8%N, mkBlockBatch [make_block 14 "e2" 13 "d"] (Some (mkBlockRef 13 "d")));
   (fun _ => 9%N, mkBlockBatch [make_block 13 "d3" 12 "c"] None)].

Lemma demo_ready : service_ready demo_service demo_chain.
Proof. split_and!; [done|by apply chain_wfb_sound|done]. Qed.

(** ** The theorems *)

(** C1: One ingested batch is the reference model's batch: on every buffer the
    service can hold, the code returns without a panic, accepts exactly the
    batches the model applies, arrives at the same blocks, finality index and
    session maximum, and leaves the buffer untouched when it rejects. *)
Theorem ingest_refines_model now s c batch al :
  service_ready s c ->
  exists s' c' r m' o, ingest_batch now s batch = Some (s', r) /\ service_ready s' c' /\
    apply_batch (abs c (sv_finalized_max s) al) (abs_block <$> batch_blocks batch)
      (batch_finalized_head batch) = Some (m', o) /\
    (is_ok r = true <-> o = Applied) /\
    m_blocks m' = abs_block <$> blocks c' /\ m_f m' = finalized_head c' /\
    (is_ok r = true -> m_fin_max m' = sv_finalized_max s') /\
    (is_ok r = false -> c' = c).
Proof.
  intros Hs. destruct (ingest_batch_refines now s c batch al Hs)
    as (s' & c' & r & E & Hs' & m' & o & Em & Hr).
  exists s', c', r, m', o. split_and!; [done..| | | | |].
  all: destruct r; destruct_ands; subst; simpl; by try split.
Qed.

Lemma ingest_refines_model_witness :
  service_ready demo_service demo_chain /\
  exists s' c', ingest_batch (fun _ => 7%N) demo_service
      (mkBlockBatch [make_block 14 "e2" 13 "d"] (Some (mkBlockRef 13 "d"))) = Some (s', Ok tt) /\
    service_ready s' c' /\ finalized_head c' = 2.
Proof.
  split; [exact demo_ready|].
  destruct (ingest_refines_model (fun _ => 7%N) demo_service demo_chain
    (mkBlockBatch [make_block 14 "e2" 13 "d"] (Some (mkBlockRef 13 "d"))) [] demo_ready)
    as (s' & c' & r & m' & o & E & Hs & _).
  exists s', c'. vm_compute in E. injection E as <- <-. split; [reflexivity|]. split; [done|].
  destruct Hs as (Hc & _). injection Hc as <-. reflexivity.
Defined.

(** The session and the model's run over the same batches, side by side. *)
Definition session_agrees s c batches al : Prop :=
  exists s' c' status m' o,
    ingest_session s (batch_items batches) = Some (s', status) /\ service_ready s' c' /\
    model_session (abs c (sv_finalized_max s) al) (snd <$> batches) = Some (m', o) /\
    m_blocks m' = abs_block <$> blocks c' /\ m_f m' = finalized_head c' /\
    match status with
    | None => o = Applied /\ m_fin_max m' = sv_finalized_max s'
    | Some (Ok _) => False
    | Some (Err _) => o <> Applied
    end.

Lemma session_refines s c batches al : service_ready s c -> session_agrees s c batches al.
Proof.
  unfold session_agrees.
  revert s c al. induction batches as [|[now b] bs IH]; intros s c al Hs.
  { do 5 eexists. split; [done|]. split; [done|]. split; [done|]. done. }
  unfold batch_items. rewrite !fmap_cons. cbn [ingest_session model_session snd].
  destruct (ingest_batch_refines now s c b al Hs) as (s1 & c1 & r & E & Hs1 & m1 & o & Em & Hr).
  rewrite E, Em. destruct r as [[]|e].
  - destruct Hr as [-> [al1 ->]]. apply IH, Hs1.
  - destruct Hr as [Ho [-> [al1 ->]]]. do 5 eexists. split; [done|]. split; [done|].
    destruct o; [done|..]; (split; [done|]; split_and!; done).
Qed.

(** C5: A whole session refines the reference model: over any sequence of
    batches the session stays open exactly as long as the model applies them,
    ends with an error on the batch the model rejects, and the buffer is the
    model's throughout. *)
Theorem session_refines_model s c batches al :
  service_ready s c ->
  exists s' c' status m' o,
    ingest_session s (batch_items batches) = Some (s', status) /\ service_ready s' c' /\
    model_session (abs c (sv_finalized_max s) al) (snd <$> batches) = Some (m', o) /\
    m_blocks m' = abs_block <$> blocks c' /\ m_f m' = finalized_head c' /\
    match status with
    | None => o = Applied /\ m_fin_max m' = sv_finalized_max s'
    | Some (Ok _) => False
    | Some (Err _) => o <> Applied
    end.
Proof. apply session_refines. Qed.

Lemma session_refines_model_witness :
  exists s' e m' o, ingest_session demo_service (batch_items demo_batches) = Some (s', Some (Err e)) /\
    model_session (abs demo_chain None []) (snd <$> demo_batches) = Some (m', o) /\ o <> Applied /\
    length (m_blocks m') = 4.
Proof.
  destruct (session_refines_model demo_service demo_chain demo_batches [] demo_ready)
    as (s' & c' & status & m' & o & E & _ & Em & _ & _ & Hst).
  vm_compute in Em. injection Em as <- <-. vm_compute in E. injection E as <- <-.
  do 4 eexists. split; [reflexivity|]. split; [reflexivity|]. split; [exact Hst|reflexivity].
Defined.

(** What the code's answer means to a reader of the model. *)
Definition query_verdict (c : Chain) (r : Result DataResponse InvalidBaseBlock)
    : option QueryVerdict :=
  match r with
  | Err _ => Some VConflict
  | Ok resp =>
      match resp_finalized_head resp with
      | None => Some VBackfill
      | Some fin =>
          match resp_tail resp with
          | Some tail => Some (VData (abs_block <$> tail) fin)
          | None => let! head := get_head c in Some (VEmpty head fin)
          end
      end
  end.

Lemma is_some_and_false {A} (o : option A) (p : A -> bool) :
  is_some_and o p = false <-> forall a, o = Some a -> p a = false.
Proof. destruct o; simpl; naive_solver. Qed.

(** C7: A query's verdict is the reference model's: the same data suffix and
    finalized head, the same empty answer above the head, a conflict exactly
    when the model reports one, and the same requests sent below the window. *)
Theorem query_refines_model c from ph fm al :
  chain_wf c -> (from <= u64_max)%N ->
  exists r, query c from ph = Some r /\ m_query (abs c fm al) from ph = query_verdict c r.
Proof.
  intros Hwf Hu. destruct (query_total c from ph Hwf Hu) as (r & E & Ha). exists r. split; [done|].
  clear E. unfold m_query. rewrite m_finalized_abs. cbn [m_blocks abs].
  destruct (first_block_some c (shape_nonempty _ (wf_shape _ Hwf))) as [f Hf].
  destruct (last_block_some c (shape_nonempty _ (wf_shape _ Hwf))) as [l Hl].
  destruct (finalized_head_some c Hwf) as (fb & Hfb & Hfin).
  unfold m_head, query_verdict, get_head, last_block, first_block in *. cbn [m_blocks abs].
  rewrite list_lookup_fmap, last_abs, Hf, Hl, Hfin, position_at_least.
  cbn [fmap option_fmap option_map abs_block mb_number mb_parent_number].
  assert (forall pos b, pos = lower_bound (blocks c) from -> blocks c !! pos = Some b ->
    (number l <? from)%N = false /\ (pos <? length (blocks c)) = true) as Hin.
  { intros pos b -> Hb. pose proof (number_le_last c l _ b Hwf Hl Hb).
    pose proof (lower_bound_at _ _ _ Hb). apply lookup_lt_Some in Hb as Hlt.
    split; [apply N.ltb_ge; lia|by apply Nat.ltb_lt]. }
  assert (forall x, not_below_window c from -> (blocks c !! 0 = Some x) ->
    negb (parent_number x =? number x)%N && (from <=? parent_number x)%N = false) as Hnb.
  { intros x Hx Hx0. destruct (Hx x Hx0) as [->|?]; [by rewrite N.eqb_refl|].
    rewrite (proj2 (N.leb_gt _ _)) by done. apply andb_false_r. }
  destruct Ha as [fst0 Hf0 Hne Hle|pos b bh pv Hw Hp Hb -> Hh _|pos b fin Hw Hp Hb Hh Hg
    |l' bh Hl' -> -> Hh|l' fin Hl' Hlt Hh Hg]; simplify_eq; simpl.
  - unfold first_block in Hf0. simplify_eq.
    by rewrite (proj2 (N.eqb_neq _ _) Hne), (proj2 (N.leb_le _ _) Hle).
  - rewrite Hnb by done. destruct (Hin _ _ eq_refl Hb) as [-> ->].
    rewrite list_lookup_fmap, Hb. simpl. by rewrite bool_decide_eq_false_2.
  - rewrite Hnb by done. destruct (Hin _ _ eq_refl Hb) as [-> ->].
    rewrite list_lookup_fmap, Hb, fmap_drop. simpl.
    rewrite (proj2 (is_some_and_false _ _)); [done|].
    intros bh Hbh. rewrite bool_decide_eq_true_2; [done|]. by apply Hh.
  - assert (l' = l) as -> by (unfold last_block in Hl'; congruence).
    rewrite (proj2 (N.ltb_lt _ _)), N.eqb_refl by lia. simpl. rewrite bool_decide_eq_false_2 by done.
    rewrite (proj2 (N.leb_gt _ _)), andb_false_r; [done|].
    pose proof (number_le_last c l _ _ Hwf Hl Hf).
    destruct Hwf as [[_ _ Hr] _ _]. specialize (Hr f Hf). lia.
  - assert (l' = l) as -> by (unfold last_block in Hl'; congruence).
    rewrite (proj2 (N.ltb_lt _ _)) by done.
    rewrite (proj2 (N.leb_gt _ _)), andb_false_r.
    2:{ pose proof (number_le_last c l _ _ Hwf Hl Hf).
        destruct Hwf as [[_ _ Hr] _ _]. specialize (Hr f Hf). lia. }
    destruct (N.eqb_spec from (number l + 1)) as [He|]; [|done]. simpl.
    rewrite (proj2 (is_some_and_false _ _)); [done|].
    intros bh Hbh. rewrite bool_decide_eq_true_2; [done|]. by apply Hh.
Qed.

Lemma query_refines_model_witness :
  m_query (abs demo_chain None []) 12 (Some "b"%string) =
  Some (VData (abs_block <$> drop 2 (blocks demo_chain)) (mkBlockRef 11 "b")).
Proof.
  destruct (query_refines_model demo_chain 12 (Some "b"%string) None []
    ltac:(by apply chain_wfb_sound) ltac:(done)) as (r & E & ->).
  vm_compute in E. injection E as <-. reflexivity.
Defined.

Lemma min_all n p ps :
  (n <? fold_left (fun a r => N.min a (br_number r)) ps (br_number p))%N =
  forallb (fun r => (n <? br_number r)%N) (p :: ps).
Proof.
  simpl. generalize (br_number p) as x. induction ps as [|q ps IH]; intros x; simpl.
  - by rewrite andb_true_r.
  - rewrite IH, andb_assoc. f_equal. apply eq_true_iff_eq.
    rewrite andb_true_iff, !N.ltb_lt. lia.
Qed.

Lemma rev_fmap {A B} (f : A -> B) (l : list A) : rev (f <$> l) = f <$> rev l.
Proof. induction l as [|x l IH]; [done|]. rewrite fmap_cons. simpl. by rewrite IH, fmap_app. Qed.

(** C9: On a non-empty signal with ascending references the fork base is the
    one the reference model's T6 picks, and the walk finds none exactly when
    the model declares the divergence terminal. *)
Theorem fork_base_refines_model c prev fm al :
  chain_wf c -> refs_ascending prev -> prev <> [] ->
  exists r, get_fork_base c prev = Some r /\
    snd (fork_signal (abs c fm al) prev) =
      match r with Some base => Ok base | None => Err OutTerminal end.
Proof.
  intros Hwf Hasc Hne. exists (fork_base_spec c prev). split; [by apply get_fork_base_eq|].
  unfold fork_signal, fork_base_spec. destruct prev as [|p ps]; [done|]. cbn [m_f m_blocks abs].
  rewrite <- fmap_drop, rev_fmap.
  rewrite (find_fmap abs_block), (find_ext _ (fork_base_ok (p :: ps))).
  - by destruct (List.find _ _).
  - intros b. unfold fork_base_ok. by rewrite <- min_all.
Qed.

Lemma fork_base_refines_model_witness :
  snd (fork_signal (abs demo_chain None []) [mkBlockRef 9 "q"]) = Err OutTerminal.
Proof.
  destruct (fork_base_refines_model demo_chain [mkBlockRef 9 "q"] None [])
    as (r & E & ->); [by apply chain_wfb_sound|apply adjacent_singleton|done|].
  vm_compute in E. by injection E as <-.
Defined.
