(* ===== verification/Run.v ===== *)
(** * Run: the session loop and the restart ladder, verified (service.rs)

    The theorems about the loop that drives the buffer: what a session and a
    turn of the ladder keep, when the run may end, and what is published. *)
From S2P Require Import Prelude Types Chain RefModel Service ChainRefines.
Local Open Scope rust_scope.

(** ** Invariants of one step *)

Definition service_ok (s : Service) : Prop := exists c, service_ready s c.

Lemma ingest_batch_ready now s batch :
  service_ok s -> exists s' r, ingest_batch now s batch = Some (s', r) /\ service_ok s'.
Proof.
  intros [c Hs]. destruct (ingest_batch_refines now s c batch [] Hs)
    as (s' & c' & r & E & Hs' & _). do 2 eexists. split; [done|]. by exists c'.
Qed.

Lemma ingest_session_ready s items :
  service_ok s -> exists s' r, ingest_session s items = Some (s', r) /\ service_ok s'.
Proof.
  revert s. induction items as [|i items IH]; intros s Hs; cbn [ingest_session]; [eauto|].
  destruct i as [| |[[|]|]|[] now b]; eauto.
  destruct (ingest_batch_ready now s b Hs) as (s' & r & -> & Hs').
  destruct r; eauto.
Qed.

Lemma publish_ready s e : service_ok s -> service_ok (publish s e).
Proof. done. Qed.

Lemma reset_ready s : service_ok s -> service_ok (reset_finalized_max s).
Proof. done. Qed.

Lemma head_ref_some s : service_ok s -> exists r, head_ref s = Some r.
Proof.
  intros (c & Hc & Hwf & _). unfold head_ref, get_header. rewrite Hc.
  destruct (last_block_some c (shape_nonempty _ (wf_shape _ Hwf))) as [l ->]. simpl. eauto.
Qed.
#[export] Hint Resolve publish_ready reset_ready : hotblocks.

(** A seed that was accepted satisfies what the buffer needs of its base. *)
Lemma accept_seed_spec n a seed :
  accept_seed n a = Some (Ok seed) ->
  0 < n /\ (parent_number seed <= number seed)%N /\
  exists head, sa_head a = Ok head /\ block_ref seed = head.
Proof.
  unfold accept_seed. destruct (Nat.eqb_spec n 0); [done|].
  destruct (sa_head a) as [head|]; [|done].
  destruct (is_empty _); [done|]. destruct (negb (is_header_safe_hash _)); [done|].
  destruct (sa_item a) as [[batch|]|]; [|done..].
  destruct (negb _); [done|]. destruct (validate_ingest_batch _); [|done].
  destruct (batch_blocks batch !! 0) as [b|]; [|done].
  destruct (N.ltb_spec (number b) (parent_number b)); [done|].
  destruct (negb _) eqn:E; [done|]. intros [= <-].
  apply negb_false_iff, andb_true_iff in E as [?%N.eqb_eq ?%bool_decide_eq_true].
  split_and!; [lia|done|]. exists head. split; [done|].
  unfold block_ref. destruct head; simpl in *; congruence.
Qed.

Lemma accept_seed_total n a : exists r, accept_seed n a = Some r.
Proof.
  unfold accept_seed. repeat case_match; simplify_eq; eauto.
  match goal with H : _ !! 0 = None |- _ => apply lookup_ge_None in H end.
  match goal with H : negb (_ =? 1) = false |- _ => apply negb_false_iff, Nat.eqb_eq in H end.
  lia.
Qed.

Lemma chain_new_ready seed n auto :
  0 < n -> (parent_number seed <= number seed)%N ->
  exists c, chain_new seed n auto = Some c /\ chain_wf c /\ undo c = None /\ blocks c = [seed].
Proof.
  intros Hn Hp. destruct (chain_new seed n auto) as [c|] eqn:E.
  - destruct (chain_new_inv _ _ _ _ Hp E) as [Hwf _]. exists c. split_and!; [done..| |].
    all: unfold chain_new in E; destruct (n =? 0); by simplify_eq.
  - unfold chain_new in E. destruct (Nat.eqb_spec n 0); [lia|done].
Qed.

Lemma init_ready n auto s a :
  service_ok s -> exists s' r, init n auto s a = Some (s', r) /\ service_ok s' /\
    sv_finalized_max s' = sv_finalized_max s /\
    sv_first_block_ingested s' = sv_first_block_ingested s.
Proof.
  intros Hs. pose proof Hs as (c & Hc & Hwf & Hu). unfold init.
  destruct (accept_seed_total n a) as [r E]. rewrite E. destruct r as [seed|e]; [|eauto 10].
  apply accept_seed_spec in E as (Hn & Hp & _). rewrite Hc. simpl.
  destruct (divergent_held c seed) as [held|]; [eauto 10|].
  destruct (finalized_head_some c Hwf) as (fb & _ & ->).
  destruct (chain_new_ready seed n auto Hn Hp) as (c1 & -> & Hwf1 & Hu1 & _).
  destruct (trigger_update_total c1 Hwf1) as [us ->].
  do 2 eexists. split; [done|]. split; [|done]. by exists c1.
Qed.

(** The first epoch's seed needs no buffer to replace. *)
Lemma init_first_ready n auto s a :
  sv_chain s = None -> exists s' r, init n auto s a = Some (s', r) /\
    (is_ok r = true -> service_ok s').
Proof.
  intros Hc. unfold init.
  destruct (accept_seed_total n a) as [r E]. rewrite E. destruct r as [seed|e];
    [|do 2 eexists; by split].
  apply accept_seed_spec in E as (Hn & Hp & _). rewrite Hc. simpl.
  destruct (chain_new_ready seed n auto Hn Hp) as (c1 & -> & Hwf1 & Hu1 & _).
  destruct (trigger_update_total c1 Hwf1) as [us ->].
  do 2 eexists. split; [done|]. intros _. by exists c1.
Qed.

(** ** The ladder *)

(** Why a run may end in the state it ended in. *)
Definition end_justified (s : Service) (stop : bool) (e : RunEnd) : Prop :=
  match e with
  | Stopped => stop = true
  | StartupFailure _ => sv_first_block_ingested s = false
  | Terminal err =>
      is_divergent_reseed err = true \/
      exists c refs fin, sv_chain s = Some c /\ get_fork_base c refs = Some None /\
        get_finalized_head c = Some fin /\ err = RollbackBehindFinalized fin refs
  end.

Definition outcome_state (o : TurnOutcome) : RunState :=
  match o with TurnNext st _ => st | TurnEnded st _ => st | TurnOpen st => st end.

(** What every turn keeps: readiness, and a first block once ingested. *)
Definition turn_ok (s : Service) (stop : bool) (o : TurnOutcome) : Prop :=
  let s' := rs_service (outcome_state o) in
  service_ok s' /\
  (sv_first_block_ingested s = true -> sv_first_block_ingested s' = true) /\
  match o with TurnEnded _ e => end_justified s' stop e | _ => True end.

Lemma ingest_batch_first now s batch s' r :
  ingest_batch now s batch = Some (s', r) ->
  sv_first_block_ingested s = true -> sv_first_block_ingested s' = true.
Proof.
  unfold ingest_batch. intros E Hf.
  repeat (case_match; simplify_eq/=; try done). by rewrite Hf.
Qed.

Lemma ingest_session_first s items s' r :
  ingest_session s items = Some (s', r) ->
  sv_first_block_ingested s = true -> sv_first_block_ingested s' = true.
Proof.
  revert s. induction items as [|i items IH]; intros s; cbn [ingest_session];
    [by intros [= <- _]|].
  destruct i as [| |[[|]|]|[] now b]; try by intros [= <- _].
  destruct (ingest_batch now s b) as [[s1 r1]|] eqn:E; [|done].
  intros E2 Hf. pose proof (ingest_batch_first _ _ _ _ _ E Hf).
  destruct r1; [eauto|by simplify_eq].
Qed.

Lemma session_died_ok s base stacked e1 e2 stop :
  service_ok s -> exists o, session_died s base stacked e1 e2 = Some o /\ turn_ok s stop o.
Proof.
  intros Hs. unfold session_died. apply reset_ready in Hs.
  destruct (sv_first_block_ingested (reset_finalized_max s)) eqn:Ef; simpl.
  - destruct (head_ref_some _ Hs) as [h ->]. eexists. split; [done|].
    unfold turn_ok; simpl. split_and!; auto with hotblocks.
  - eexists. split; [done|]. unfold turn_ok; simpl in *. split_and!; [done|congruence|done].
Qed.

Lemma session_forked_ok s base refs stop :
  service_ok s -> exists o, session_forked s base refs = Some o /\ turn_ok s stop o.
Proof.
  intros Hs. pose proof Hs as (c & Hc & Hwf & Hu). unfold session_forked. rewrite Hc.
  destruct (get_fork_base c refs) as [[fb|]|] eqn:Efb.
  - eexists. split; [done|]. unfold turn_ok; simpl. split_and!; done.
  - destruct (finalized_head_some c Hwf) as (b & _ & Hg). rewrite Hg.
    eexists. split; [done|]. unfold turn_ok; simpl.
    split_and!; [done|done|right; exists c, refs, (block_ref b); done].
  - unfold get_fork_base in Efb.
    destruct (fork_walk_total c (length (blocks c)) (rev refs)) as [? E]; [done|]. congruence.
Qed.

Lemma session_over_ok s base stacked (stop_after stop : bool) r :
  service_ok s -> (stop_after = true -> stop = true) ->
  exists o, session_over s base stacked stop_after r = Some o /\ turn_ok s stop o.
Proof.
  intros Hs Hst. unfold session_over. destruct stop_after.
  { eexists. split; [done|]. unfold turn_ok; simpl. split_and!; auto. }
  destruct r as [|[refs|e]]; [by apply session_died_ok|by apply session_forked_ok|
    by apply session_died_ok].
Qed.

Lemma turn_ok_weaken s s' stop o :
  (sv_first_block_ingested s = true -> sv_first_block_ingested s' = true) ->
  turn_ok s' stop o -> turn_ok s stop o.
Proof. intros H (? & ? & ?). split_and!; auto. Qed.

Lemma session_turn_ok s base stacked i stop :
  service_ok s -> (ti_stop_after i = true -> stop = true) ->
  exists o, session_turn s base stacked i = Some o /\ turn_ok s stop o.
Proof.
  intros Hs Hst. unfold session_turn.
  destruct (ingest_session_ready s (ti_items i) Hs) as (s' & r & E & Hs'). rewrite E.
  pose proof (ingest_session_first _ _ _ _ E) as Hf.
  destruct r as [r|].
  - destruct (session_over_ok s' base stacked (ti_stop_after i) stop r Hs' Hst) as (o & -> & Ho).
    eexists. split; [done|]. by eapply turn_ok_weaken.
  - eexists. split; [done|]. split_and!; done.
Qed.

Definition turn_stops (i : TurnInput) : bool := ti_stop_before i || ti_stop_after i.

Lemma run_turn_ok n auto st i :
  service_ok (rs_service st) ->
  exists o, run_turn n auto st i = Some o /\ turn_ok (rs_service st) (turn_stops i) o.
Proof.
  intros Hs. unfold run_turn, turn_stops. destruct (ti_stop_before i); simpl.
  { eexists. split; [done|]. split_and!; done. }
  destruct (5 <? rs_stacked st)%N; [|by apply session_turn_ok].
  destruct (init_ready n auto (reset_finalized_max (rs_service st)) (ti_seed i) Hs)
    as (s' & r & -> & Hs' & _ & Hf).
  destruct r as [[]|e].
  - destruct (head_ref_some (publish s' [ESessionRestart RestartReset]) Hs') as [h ->].
    destruct (session_turn_ok (publish s' [ESessionRestart RestartReset]) h (rs_stacked st) i
      (ti_stop_after i) Hs') as (o & -> & Ho); [done|].
    eexists. split; [done|]. eapply turn_ok_weaken; [|done]. simpl in *. congruence.
  - destruct (is_divergent_reseed e) eqn:Ed.
    + eexists. split; [done|]. unfold turn_ok; simpl. split_and!; [done| |by left].
      simpl in Hf. congruence.
    + destruct (session_over_ok s' (rs_base st) (rs_stacked st) (ti_stop_after i)
        (ti_stop_after i) (Err (Other e)) Hs') as (o & -> & Ho); [done|].
      eexists. split; [done|]. eapply turn_ok_weaken; [|done]. simpl in *. congruence.
Qed.

(** ** What a batch publishes *)

Definition is_ingest_effect (e : Effect) : bool :=
  match e with
  | EBlockIngestion _ _ | EBlockLag _ _ | EStarted _ => true
  | _ => false
  end.

(** A block the buffer holds under the same reference and the same parent. *)
Definition held_in (c : Chain) (b : Block) : Prop :=
  exists h, h ∈ blocks c /\ block_ref h = block_ref b /\ parent_ref h = parent_ref b.

Lemma push_held c b : chain_wf c -> held_in c b -> push c b = Some (c, Ok Absorbed).
Proof.
  intros [[_ Hlk _] _ _] (h & [i Hi]%list_elem_of_lookup_1 & Hr & Hp).
  apply follows_below in Hlk as Hasc. unfold push. rewrite bisect_eq by done.
  assert (number h = number b) as Hn by (unfold block_ref in Hr; congruence).
  rewrite <- Hn, (lower_bound_exact _ _ _ Hasc Hi), Hi. unfold held_verdict.
  unfold block_ref, parent_ref in *. injection Hr as -> ->. injection Hp as -> ->.
  by rewrite !N.eqb_refl, !bool_decide_eq_true_2.
Qed.

Lemma push_blocks_held now i c bs :
  chain_wf c -> Forall (held_in c) bs -> push_blocks now i c bs = Some (c, Ok []).
Proof.
  intros Hwf. revert i. induction bs as [|b bs IH]; intros i; simpl; [done|].
  intros [Hb Hbs]%Forall_cons. rewrite push_held, IH by done. done.
Qed.

Lemma settle_current_blocks c fm c' r :
  chain_wf c -> settle_current c fm = Some (c', r) -> blocks c' = blocks c /\ chain_wf c'.
Proof.
  intros Hwf. destruct fm as [x|]; simpl; [|by intros [= <- _]]. unfold settle_obligation.
  destruct (finalize_total c x Hwf) as (c1 & r1 & -> & He).
  destruct (finalize_effect_form _ _ _ _ Hwf He) as (f & -> & _).
  pose proof (finalize_effect_wf _ _ _ _ Hwf He). by destruct r1; intros [= <- _].
Qed.

Lemma apply_batch_held now c batch fm c' fm' l :
  chain_wf c -> Forall (held_in c) (batch_blocks batch) ->
  apply_batch_locked now c batch fm = Some (c', fm', Ok l) ->
  l = [] /\ blocks c' = blocks c /\ chain_wf c'.
Proof.
  intros Hwf Hh. unfold apply_batch_locked. rewrite push_blocks_held by done.
  destruct (conflicting_report _ _ _) as [[?|]|]; [done| |done].
  destruct (settle_current c fm) as [[c2 [|]]|] eqn:E; [|done..].
  destruct (settle_current_blocks _ _ _ _ Hwf E) as [Hb2 Hwf2].
  destruct (raise_max c2 _ fm) as [[m []]|]; [| |done].
  - destruct (settle_current c2 m) as [[c3 [|]]|] eqn:E3; [|done..].
    destruct (settle_current_blocks _ _ _ _ Hwf2 E3) as [Hb3 Hwf3]. intros [= -> _ <-].
    split_and!; [done|congruence|done].
  - intros [= -> _ <-]. done.
Qed.

(** ** Where the buffer's blocks come from *)

Lemma push_subset c b c' r x :
  chain_wf c -> undo_ok c -> push c b = Some (c', r) -> x ∈ blocks c' -> x ∈ blocks c \/ x = b.
Proof.
  intros Hwf Hu E. destruct (push_total c b Hwf Hu) as (c1 & r1 & E1 & He). simplify_eq.
  destruct He as [ | i p c1 _ _ _ _ | ]; [by left| |by left]. simpl.
  intros [Hx|Hx%list_elem_of_singleton]%elem_of_app; [|by right].
  left. eapply elem_of_take in Hx as (j & Hj & _). by eapply list_elem_of_lookup_2.
Qed.

Lemma push_blocks_subset now c0 i c bs c' r x :
  chain_wf c -> log_of c0 c -> push_blocks now i c bs = Some (c', r) ->
  x ∈ blocks c' -> x ∈ blocks c \/ x ∈ bs.
Proof.
  revert i c r. induction bs as [|b bs IH]; intros i c r Hwf Hl; cbn [push_blocks].
  { intros [= <- _]. by left. }
  destruct (push c b) as [[c1 o]|] eqn:E; [|done].
  destruct (push_keeps c0 c b c1 o Hwf Hl E) as (Hwf1 & Hl1 & _).
  pose proof (push_subset c b c1 o x Hwf (log_of_undo_ok _ _ Hl) E) as Hs.
  destruct o as [o|v]; [|intros [= <- _] Hx; apply Hs in Hx as [?| ->]; [by left|right; by left]].
  destruct (push_blocks now (S i) c1 bs) as [[c2 r2]|] eqn:E2; [|done].
  intros Heq Hx. assert (c2 = c') as -> by (destruct r2; congruence).
  destruct (IH _ _ _ Hwf1 Hl1 E2 Hx) as [H|H]; [|right; by right].
  apply Hs in H as [?| ->]; [by left|right; by left].
Qed.

Lemma apply_batch_subset now c batch fm c' fm' r x :
  chain_wf c -> apply_batch_locked now (begin_batch c) batch fm = Some (c', fm', r) ->
  x ∈ blocks c' -> x ∈ blocks c \/ x ∈ batch_blocks batch.
Proof.
  intros Hwf. unfold apply_batch_locked.
  destruct (conflicting_report _ _ _) as [[?|]|]; [intros [= <- _ _]; by left| |done].
  destruct (push_blocks now 0 _ _) as [[c1 r1]|] eqn:E; [|done].
  pose proof (push_blocks_subset now c 0 (begin_batch c) _ c1 r1 x (begin_batch_wf _ Hwf)
    (log_of_begin c) E) as Hs. simpl in Hs.
  destruct (push_blocks_refines now 0 c (begin_batch c) (batch_blocks batch) None []
    (begin_batch_wf _ Hwf) (log_of_begin c)) as (c1' & r1' & E' & (Hwf1 & _ & _) & _). simplify_eq.
  destruct r1 as [ins|]; [|by intros [= <- _ _]].
  destruct (settle_current c1 fm) as [[c2 r2]|] eqn:E2; [|done].
  destruct (settle_current_blocks _ _ _ _ Hwf1 E2) as [Hb2 Hwf2]. rewrite <- Hb2 in Hs.
  destruct r2; [|by intros [= <- _ _]].
  destruct (raise_max c2 _ fm) as [[mx []]|]; [|by intros [= <- _ _]|done].
  destruct (settle_current c2 mx) as [[c3 r3]|] eqn:E3; [|done].
  destruct (settle_current_blocks _ _ _ _ Hwf2 E3) as [Hb3 _]. rewrite <- Hb3 in Hs.
  by destruct r3; intros [= <- _ _].
Qed.

(** Every hash the buffer holds can be sent as a header value and is not empty. *)
Definition hash_legal (h : string) : Prop := is_empty h = false /\ is_header_safe_hash h = true.

Definition hashes_legal (c : Chain) : Prop :=
  forall b, b ∈ blocks c -> hash_legal (hash b) /\ hash_legal (parent_hash b).

Definition service_legal (s : Service) : Prop :=
  exists c, service_ready s c /\ hashes_legal c.

Lemma validated_legal batch b :
  validate_passes batch -> b ∈ batch_blocks batch -> hash_legal (hash b) /\ hash_legal (parent_hash b).
Proof.
  intros (_ & Hf & _) Hb. rewrite Forall_forall in Hf.
  destruct (Hf b Hb) as (? & ? & ? & ?). by repeat split.
Qed.

Lemma ingest_batch_legal now s batch s' r :
  service_legal s -> ingest_batch now s batch = Some (s', r) -> service_legal s'.
Proof.
  intros (c & Hs & Hc) E.
  destruct (ingest_batch_refines now s c batch [] Hs) as (s1 & c1 & r1 & E1 & Hs1 & m & o & _ & Hr).
  rewrite E in E1. injection E1 as <- <-. exists c1. split; [done|].
  destruct r as [[]|e]; [|by destruct Hr as (_ & -> & _)]. clear Hr.
  destruct Hs as (Hch & Hwf & Hu). unfold ingest_batch in E.
  destruct (validate_ingest_batch batch) as [[]|] eqn:Ev; [|done]. apply validate_ok in Ev.
  rewrite Hch in E. destruct (apply_batch_locked _ _ _ _) as [[[c2 fm] [ins|v]]|] eqn:Ea; [|done..].
  destruct (apply_batch_refines now c batch (sv_finalized_max s) [] Hwf)
    as (c2' & fm' & r' & Ea' & Hwf2 & _). rewrite Ea in Ea'. injection Ea' as <- <- <-.
  destruct (ingested_effects _ _); [|done].
  rewrite compact_eq in E by by apply commit_batch_wf.
  destruct (compact_spec (commit_batch c2)) as [c3 cp] eqn:Ecs.
  destruct (trigger_update_locked c3); [|done]. injection E as <-.
  destruct Hs1 as (Hc1 & _). simpl in Hc1. injection Hc1 as <-.
  unfold compact_spec in Ecs. injection Ecs as <- _. intros b Hb. simpl in Hb.
  assert (b ∈ blocks c2) as Hb2.
  { apply list_elem_of_lookup_1 in Hb as [i Hi]. rewrite lookup_drop in Hi.
    by eapply list_elem_of_lookup_2. }
  eapply apply_batch_subset in Hb2 as [?|?]; [by apply Hc|by eapply validated_legal|done|done].
Qed.

Lemma ingest_session_legal s items s' r :
  service_legal s -> ingest_session s items = Some (s', r) -> service_legal s'.
Proof.
  revert s. induction items as [|i items IH]; intros s Hs; cbn [ingest_session];
    [by intros [= <- _]|].
  destruct i as [| |[[|]|]|[] now b]; try by intros [= <- _].
  destruct (ingest_batch now s b) as [[s1 r1]|] eqn:E; [|done].
  pose proof (ingest_batch_legal _ _ _ _ _ Hs E). destruct r1; [eauto|by intros [= <- _]].
Qed.

Lemma accept_seed_legal n a seed :
  accept_seed n a = Some (Ok seed) -> hash_legal (hash seed) /\ hash_legal (parent_hash seed).
Proof.
  unfold accept_seed. destruct (n =? 0); [done|].
  destruct (sa_head a) as [head|]; [|done].
  destruct (is_empty _); [done|]. destruct (negb (is_header_safe_hash _)); [done|].
  destruct (sa_item a) as [[batch|]|]; [|done..]. destruct (negb (_ =? 1)); [done|].
  destruct (validate_ingest_batch batch) as [[]|] eqn:Hv; [|done]. apply validate_ok in Hv.
  destruct (batch_blocks batch !! 0) as [b|] eqn:Hb; [|done].
  destruct (_ <? _)%N; [done|]. destruct (negb _); [done|]. intros [= <-].
  eapply validated_legal; [exact Hv|by eapply list_elem_of_lookup_2].
Qed.

Lemma init_legal n auto s a s' r :
  service_legal s -> init n auto s a = Some (s', r) -> service_legal s'.
Proof.
  intros Hs E. destruct Hs as (c & Hs & Hc).
  destruct (init_ready n auto s a (ex_intro _ c Hs)) as (s1 & r1 & E1 & (c' & Hs1) & _).
  rewrite E in E1. injection E1 as <- <-. destruct Hs as (Hch & Hwf & Hu).
  unfold init in E. destruct (accept_seed n a) as [[seed|e]|] eqn:Es; [|simplify_eq; by exists c|done].
  pose proof (accept_seed_legal _ _ _ Es) as Hl. apply accept_seed_spec in Es as (Hn & Hp & _).
  rewrite Hch in E. simpl in E.
  destruct (divergent_held c seed); [simplify_eq; by exists c|].
  destruct (get_finalized_head c); [|done].
  destruct (chain_new_ready seed n auto Hn Hp) as (c1 & Ec1 & Hwf1 & Hu1 & Hb1). rewrite Ec1 in E.
  destruct (trigger_update_locked c1); [|done]. injection E as <- _.
  exists c1. split; [done|]. intros x Hx. rewrite Hb1 in Hx.
  by apply list_elem_of_singleton in Hx as ->.
Qed.

Lemma session_over_legal s base stacked stop_after r o :
  service_legal s -> session_over s base stacked stop_after r = Some o ->
  service_legal (rs_service (outcome_state o)).
Proof.
  intros Hs. unfold session_over. destruct stop_after; [by intros [= <-]|].
  assert (forall e1 e2, session_died s base stacked e1 e2 = Some o ->
    service_legal (rs_service (outcome_state o))) as Hd.
  { intros e1 e2. unfold session_died. simpl.
    destruct (negb _); [by intros [= <-]|].
    destruct (head_ref _); [|done]. by intros [= <-]. }
  destruct r as [|[refs|e]]; [apply Hd| |apply Hd]. unfold session_forked.
  destruct (sv_chain s) as [c|]; [|done]. destruct (get_fork_base c refs) as [[fb|]|]; [| |done].
  - by intros [= <-].
  - destruct (get_finalized_head c); [|done]. by intros [= <-].
Qed.

Lemma run_turn_legal n auto st i o :
  service_legal (rs_service st) -> run_turn n auto st i = Some o ->
  service_legal (rs_service (outcome_state o)).
Proof.
  intros Hs. unfold run_turn. destruct (ti_stop_before i); [by intros [= <-]|].
  assert (forall s base stacked, service_legal s -> session_turn s base stacked i = Some o ->
    service_legal (rs_service (outcome_state o))) as Ht.
  { intros s base stacked Hs'. unfold session_turn.
    destruct (ingest_session s (ti_items i)) as [[s1 [r|]]|] eqn:E; [| |done].
    - apply session_over_legal. by eapply ingest_session_legal.
    - intros [= <-]. by eapply ingest_session_legal. }
  destruct (5 <? rs_stacked st)%N; [|by apply Ht].
  destruct (init n auto _ (ti_seed i)) as [[s1 r]|] eqn:E; [|done].
  apply init_legal in E; [|done]. destruct r as [|e].
  - destruct (head_ref _); [|done]. by apply Ht.
  - destruct (is_divergent_reseed e); [by intros [= <-]|]. by apply session_over_legal.
Qed.

(** ** Concrete runs *)

Definition demo_seed : SeedAnswers :=
  mkSeedAnswers (Ok (mkBlockRef 20 "s"))
    (Some (Ok (mkBlockBatch [make_block 20 "s" 19 "r"] None))).

(** A turn that ingests one block, then a stream that ends, then a fork the
    buffer can rebase onto, then one it cannot. *)
Definition demo_turns : list TurnInput :=
  [mkTurnInput false demo_seed
     [ItemBatch false (fun _ => 5%N) (mkBlockBatch [make_block 15 "f" 14 "e"] None); ItemEnd] false;
   mkTurnInput false demo_seed [ItemError (Fork [mkBlockRef 14 "e"; mkBlockRef 15 "x"])] false;
   mkTurnInput false demo_seed [ItemError (Fork [mkBlockRef 2 "y"])] false].

Definition demo_state : RunState := mkRunState demo_service (mkBlockRef 14 "e") 0.

(** ** The theorems *)

(** C6: Over every schedule of batches, errors, forks, re-seeds and stop
    requests the run never panics and keeps a well-formed buffer with no batch
    left open; and it ends only for a reason: [Stopped] only when a stop was
    requested, [StartupFailure] only before the first block was ingested, and
    [Terminal] only on a divergent re-seed or when the fork base would lie
    below finality (WP-9, WP-14, FM-30). *)
Theorem run_safe n auto st turns :
  service_ok (rs_service st) ->
  exists st' e, run n auto st turns = Some (st', e) /\ service_ok (rs_service st') /\
    (sv_first_block_ingested (rs_service st) = true ->
     sv_first_block_ingested (rs_service st') = true) /\
    match e with
    | Some e => end_justified (rs_service st') (existsb turn_stops turns) e
    | None => True
    end.
Proof.
  revert st. induction turns as [|i turns IH]; intros st Hs; cbn [run].
  { do 2 eexists. split_and!; done. }
  destruct (run_turn_ok n auto st i Hs) as (o & -> & Hr & Hf & Ho).
  destruct o as [st1 p|st1 e|st1]; simpl in *.
  - destruct (IH st1 Hr) as (st' & e & E & Hr' & Hf' & He).
    exists st', e. split_and!; [done..|auto|].
    destruct e as [[]|]; simpl in *; auto. by rewrite He, orb_true_r.
  - exists st1, (Some e). split_and!; [done..|]. destruct e; simpl in *; auto. by rewrite Ho.
  - exists st1, None. split_and!; done.
Qed.

Lemma run_safe_witness :
  service_ok demo_service /\
  exists st' e, run 4 false demo_state demo_turns = Some (st', Some (Terminal e)) /\
    service_ok (rs_service st').
Proof.
  assert (service_ok demo_service) as Hr by (exists demo_chain; exact demo_ready).
  split; [done|].
  destruct (run_safe 4 false demo_state demo_turns Hr) as (st' & e & E & Hr' & _).
  exists st'. vm_compute in E. injection E as <- <-. eexists. split; [reflexivity|done].
Defined.

(** What a finished session hands to the next one: a fork keeps the
    session's finality obligation and resumes from the fork base at once; any
    other ending drops the obligation, resumes from the buffer's head, climbs
    one rung when the head has not moved and returns to the bottom when it
    has, and sleeps exactly when two endings in a row made no progress
    (WP-12, LIV-2). *)
Theorem next_session s base stacked r st' pause :
  session_over s base stacked false r = Some (TurnNext st' pause) ->
  match r with
  | Err (Fork refs) =>
      sv_finalized_max (rs_service st') = sv_finalized_max s /\
      (exists c, sv_chain s = Some c /\ get_fork_base c refs = Some (Some (rs_base st'))) /\
      rs_stacked st' = 0%N /\ pause = 0%N
  | _ =>
      sv_first_block_ingested s = true /\
      sv_finalized_max (rs_service st') = None /\
      head_ref s = Some (rs_base st') /\
      rs_stacked st' = (if (br_number (rs_base st') =? br_number base)%N
                        then stacked + 1 else 0)%N /\
      pause = (if (1 <? rs_stacked st')%N then 30 else 0)%N
  end.
Proof.
  assert (forall e1 e2, session_died s base stacked e1 e2 = Some (TurnNext st' pause) ->
    sv_first_block_ingested s = true /\ sv_finalized_max (rs_service st') = None /\
    head_ref s = Some (rs_base st') /\
    rs_stacked st' = (if (br_number (rs_base st') =? br_number base)%N
                      then stacked + 1 else 0)%N /\
    pause = (if (1 <? rs_stacked st')%N then 30 else 0)%N) as Hdied.
  { intros e1 e2. unfold session_died. simpl.
    destruct (sv_first_block_ingested s); simpl; [|done].
    change (head_ref (reset_finalized_max s)) with (head_ref s).
    destruct (head_ref s) as [h|]; [|done]. intros [= <- <-]. done. }
  unfold session_over. destruct r as [|[refs|e]]; [apply Hdied| |apply Hdied].
  unfold session_forked. destruct (sv_chain s) as [c|] eqn:Ec; [|done].
  destruct (get_fork_base c refs) as [[fb|]|] eqn:Ef; [| |done].
  - intros [= <- <-]. simpl. split_and!; eauto.
  - by destruct (get_finalized_head c).
Qed.

Lemma next_session_witness :
  exists st', session_over demo_service (mkBlockRef 11 "b") 1
                false (Err (Fork [mkBlockRef 12 "c"; mkBlockRef 13 "x"])) = Some (TurnNext st' 0) /\
    rs_stacked st' = 0%N.
Proof.
  eexists. split; [reflexivity|].
  destruct (next_session demo_service (mkBlockRef 11 "b") 1
    (Err (Fork [mkBlockRef 12 "c"; mkBlockRef 13 "x"])) _ _ eq_refl) as (_ & _ & H & _).
  exact H.
Defined.

(** A rejected batch publishes nothing but the violation: no block is
    reported ingested, no commit is counted, the readiness signal stays where
    it was and the buffer is the one before the batch (WP-5). *)
Theorem rejected_batch_silent now s c batch s' e :
  service_ready s c -> ingest_batch now s batch = Some (s', Err e) ->
  sv_chain s' = Some c /\ sv_first_block_ingested s' = sv_first_block_ingested s /\
  (sv_published s' = sv_published s \/
   sv_published s' = sv_published s ++ [EIntegrityViolation]).
Proof.
  intros Hs E. destruct (ingest_batch_refines now s c batch [] Hs)
    as (s1 & c1 & r & E1 & (Hc1 & _) & m & o & _ & Hr).
  rewrite E in E1. injection E1 as <- <-. destruct Hr as (_ & -> & _). split; [done|].
  unfold ingest_batch in E. destruct (validate_ingest_batch batch); [|simplify_eq; auto].
  destruct (sv_chain s) as [c0|]; [|done].
  destruct (apply_batch_locked _ _ _ _) as [[[c2 fm] [ins|v]]|]; [| |done].
  - repeat (case_match; simplify_eq/=; try done).
  - simplify_eq/=. auto.
Qed.

Lemma rejected_batch_silent_witness :
  exists s' e, ingest_batch (fun _ => 0%N) demo_service
      (mkBlockBatch [make_block 12 "c9" 11 "b9"] None) = Some (s', Err e) /\
    sv_chain s' = Some demo_chain.
Proof.
  do 2 eexists. split; [vm_compute; reflexivity|].
  destruct (rejected_batch_silent (fun _ => 0%N) demo_service demo_chain
    (mkBlockBatch [make_block 12 "c9" 11 "b9"] None) _ _ demo_ready eq_refl) as (H & _).
  exact H.
Defined.

(** A batch of redelivered blocks is a no-op for readers: when the buffer
    already holds every block of it, the buffer's blocks change only by
    compaction, and neither an ingestion time, a block lag nor the readiness
    signal is published (WP-6, WP-9). *)
Theorem redelivery_unobservable now s c batch s' :
  service_ready s c -> Forall (held_in c) (batch_blocks batch) ->
  ingest_batch now s batch = Some (s', Ok tt) ->
  sv_first_block_ingested s' = sv_first_block_ingested s /\
  (exists c' k, sv_chain s' = Some c' /\ blocks c' = drop k (blocks c)) /\
  exists published, sv_published s' = sv_published s ++ published /\
    forallb (fun e => negb (is_ingest_effect e)) published = true.
Proof.
  intros (Hc & Hwf & Hu) Hh E. unfold ingest_batch in E. rewrite Hc in E.
  destruct (validate_ingest_batch batch); [|done].
  destruct (apply_batch_locked _ _ _ _) as [[[c2 fm] [ins|v]]|] eqn:Ea; [|done..].
  apply apply_batch_held in Ea as (-> & Hb & Hwf2);
    [|by apply begin_batch_wf|by eapply Forall_impl].
  simpl in E. rewrite compact_eq in E by by apply commit_batch_wf.
  destruct (compact_spec (commit_batch c2)) as [c3 cp] eqn:Ecs.
  destruct (trigger_update_locked c3) as [us|] eqn:Eu; [|done]. injection E as <-. simpl.
  rewrite orb_false_r. split_and!; [done| |].
  { unfold compact_spec in Ecs. injection Ecs as <- _. do 2 eexists. split; [done|].
    simpl. by rewrite Hb. }
  eexists. split; [done|]. unfold trigger_update_locked in Eu.
  repeat (case_match; simplify_eq/=; try done).
Qed.

Definition demo_redelivery : BlockBatch :=
  mkBlockBatch [make_block 13 "d" 12 "c"; make_block 14 "e" 13 "d"] None.

Lemma redelivery_unobservable_witness :
  exists s', ingest_batch (fun _ => 0%N) demo_service demo_redelivery = Some (s', Ok tt) /\
    sv_first_block_ingested s' = false.
Proof.
  assert (Forall (held_in demo_chain) (batch_blocks demo_redelivery)) as Hh.
  { repeat constructor.
    - exists (make_block 13 "d" 12 "c"). split_and!; [|done|done]. do 3 right. left.
    - exists (make_block 14 "e" 13 "d"). split_and!; [|done|done]. do 4 right. left. }
  eexists. split; [vm_compute; reflexivity|].
  destruct (redelivery_unobservable (fun _ => 0%N) demo_service demo_chain demo_redelivery _
    demo_ready Hh eq_refl) as (H & _).
  exact H.
Defined.

(** Every hash a reader can meet is legal: from a buffer whose hashes are
    non-empty and safe as HTTP header values, every block the run ever holds,
    whatever the adapter delivers, forks and re-seeds included, has a block
    hash and a parent hash with both properties (DEF-2, IB-4). *)
Theorem run_hashes_legal n auto st turns st' e :
  service_legal (rs_service st) -> run n auto st turns = Some (st', e) ->
  service_legal (rs_service st').
Proof.
  revert st. induction turns as [|i turns IH]; intros st Hs; cbn [run]; [by intros [= <- _]|].
  destruct (run_turn n auto st i) as [o|] eqn:E; [|done].
  pose proof (run_turn_legal _ _ _ _ _ Hs E) as Ho.
  destruct o; [by apply IH|by intros [= <- _]|by intros [= <- _]].
Qed.

Lemma demo_legal : service_legal demo_service.
Proof.
  exists demo_chain. split; [exact demo_ready|]. intros b Hb.
  repeat (apply elem_of_cons in Hb as [->|Hb]; [by repeat split|]). by apply elem_of_nil in Hb.
Qed.

Lemma run_hashes_legal_witness :
  exists st' e, run 4 false demo_state demo_turns = Some (st', Some e) /\
    service_legal (rs_service st').
Proof.
  do 2 eexists. split; [vm_compute; reflexivity|].
  eapply (run_hashes_legal 4 false demo_state demo_turns); [exact demo_legal|].
  vm_compute. reflexivity.
Defined.
