(* ===== verification/Query.v ===== *)
(** * Query: resolving a stream query (service.rs)

    The read side of the data service: the classification of a query, the
    wait for a block above the head, and the below-window path, which splices a
    finalized stream of the adapter onto the buffer's snapshot and checks the
    continuity of everything it forwards. The adapter's stream is the list of
    the items it will deliver; the head of a response is the list of what the
    producer task sends. *)
From S2P Require Import Prelude Types Chain.
Local Open Scope rust_scope.

(** The OB-5 classes (metrics.rs). *)
Inductive QueryClass : Type := QWindow | QBackfill | QWaitEmpty | QConflict | QError.

#[export] Instance QueryClass_eq_dec : EqDecision QueryClass.
Proof. solve_decision. Defined.

(** The predecessor's three labels [queries_total] keeps. *)
Definition compat_label (class : QueryClass) : string :=
  match class with
  | QBackfill => "backfill"
  | QWindow | QWaitEmpty => "cache"
  | QConflict | QError => "error"
  end.

(** A continuity break mid-backfill is a source fault. *)
Definition check_chain_continuity (ph : option string) (prev : option Block) (next : Block)
    : Result unit AnyError :=
  let ok :=
    match prev, ph with
    | Some p, _ => (number p =? parent_number next)%N && bool_decide (hash p = parent_hash next)
    | None, Some h => bool_decide (h = parent_hash next)
    | None, None => true
    end in
  if ok then Ok tt
  else Err (ContinuityViolated (block_ref next) (parent_ref next)).

(** One batch's blocks, checked in order; the last block checked comes back. *)
Fixpoint check_batch (ph : option string) (prev : option Block) (bs : list Block)
    : Result (option Block) AnyError :=
  match bs with
  | [] => Ok prev
  | b :: bs =>
      let? _ := check_chain_continuity ph prev b in
      check_batch ph (Some b) bs
  end.

(** The splice onto the snapshot tail, once the source is exhausted. *)
Definition splice (ph : option string) (prev : option Block) (tail : list Block)
    : list (Result (list Block) AnyError) :=
  match prev with
  | None => [Err BelowQueryEndedEmpty]
  | Some _ =>
      match tail with
      | first_tail :: _ =>
          match check_chain_continuity ph prev first_tail with
          | Ok _ => []
          | Err e => [Err e]
          end
      | [] => []
      end
  end.

(** What the producer task sends, in order; a receiver that goes away sees a
    prefix of it. *)
Fixpoint producer (ph : option string) (prev : option Block) (tail : list Block)
    (source : list (Result BlockBatch StreamError)) : HeadStream :=
  match source with
  | [] => splice ph prev tail
  | Err e :: _ => [Err (FromStream e)]
  | Ok batch :: source =>
      match check_batch ph prev (batch_blocks batch) with
      | Err e => [Err e]
      | Ok prev' => Ok (batch_blocks batch) :: producer ph prev' tail source
      end
  end.

(** The range a below-window query asks the finalized source for. The
    assertion [missing > 0] is a panic. *)
Definition below_request (c : Chain) (from : N) (ph : option string) : option StreamRequest :=
  let! first := first_block c in
  let missing := saturating_add (saturating_sub (parent_number first) from) 1 in
  if (missing =? 0)%N then None
  else Some (mkStreamRequest from (Some (saturating_add from (missing - 1))) ph).

(** [c] is the snapshot; [source] is what the stream opened for
    [below_request] will yield. *)
Definition below_query (c : Chain) (from : N) (ph : option string)
    (source : list (Result BlockBatch StreamError))
    : option (Result DataResponse QueryError) :=
  let tail := snapshot c in
  let! finalized_head := get_finalized_head c in
  let! req := below_request c from ph in
  match source with
  | [] =>
      Some (Err (QInternal (BelowQueryNoBlocks from (default 0%N (req_to req)))))
  | Err (Fork []) :: _ => Some (Err (QInternal BelowQueryEmptyFork))
  | Err (Fork previous_blocks) :: _ =>
      Some (Err (QInvalidBaseBlock (mkInvalidBaseBlock previous_blocks)))
  | Err (Other e) :: _ => Some (Err (QInternal (BelowQueryFailed e)))
  | Ok _ :: _ =>
      Some (Ok (mkDataResponse (Some finalized_head) (Some (producer ph None tail source))
                  (Some tail)))
  end.

(** Which way a query is served, decided on the buffer of that instant. *)
Definition below_window (c : Chain) (from : N) : option bool :=
  let! first := first_block c in
  Some (negb (parent_number first =? number first)%N && (from <=? parent_number first)%N).

Definition lift_conflict (r : Result DataResponse InvalidBaseBlock)
    : Result DataResponse QueryError := map_err QInvalidBaseBlock r.

(** Each read of the shared buffer may see a different one: [c_class] decides
    the path, [c_cache] answers the first lookup (or is the snapshot of the
    below-window path) and [c_waited] the lookup after the wait. *)
Definition classify_query (c_class c_cache c_waited : Chain) (from : N) (ph : option string)
    (source : list (Result BlockBatch StreamError))
    : option (Result (DataResponse * QueryClass) QueryError) :=
  let! below := below_window c_class from in
  if below then
    let! r := below_query c_cache from ph source in
    Some (map_ok (fun resp => (resp, QBackfill)) r)
  else
    let! r := query c_cache from ph in
    match lift_conflict r with
    | Err e => Some (Err e)
    | Ok resp =>
        if bool_decide (is_Some (resp_tail resp)) then Some (Ok (resp, QWindow))
        else
          let! r2 := query c_waited from ph in
          match lift_conflict r2 with
          | Err e => Some (Err e)
          | Ok resp2 =>
              Some (Ok (resp2, if bool_decide (is_Some (resp_tail resp2))
                               then QWindow else QWaitEmpty))
          end
    end.

(** What ends the five-second wait: the watched head reaching the block, the
    sender gone, or the timer. [values] are the watch's value at the start and
    after each change seen before the timer fires. *)
Inductive WaitEnd : Type := WaitReached | WaitClosed | WaitTimeout.

Fixpoint wait_for_block (block_number : N) (values : list N) (closed : bool) : WaitEnd :=
  match values with
  | [] => if closed then WaitClosed else WaitTimeout
  | v :: values =>
      if (block_number <=? v)%N then WaitReached
      else wait_for_block block_number values closed
  end.

(** ** The body's records in order (http.rs, [block_stream]) *)

Inductive RecordSource : Type := FromHead | FromTail.

Fixpoint head_records (head : HeadStream)
    : list (Result (Block * RecordSource) AnyError) :=
  match head with
  | [] => []
  | Err e :: _ => [Err e]
  | Ok bs :: head => ((fun b => Ok (b, FromHead)) <$> bs) ++ head_records head
  end.

(** The prefix first, then the tail; an error item ends the body. *)
Definition block_stream (head : option HeadStream) (tail : list Block)
    : list (Result (Block * RecordSource) AnyError) :=
  let prefix := match head with Some h => head_records h | None => [] end in
  if forallb is_ok prefix then prefix ++ ((fun b => Ok (b, FromTail)) <$> tail) else prefix.

(** The blocks of the records before the first error. *)
Fixpoint served (records : list (Result (Block * RecordSource) AnyError)) : list Block :=
  match records with
  | Ok (b, _) :: rest => b :: served rest
  | _ => []
  end.

(** Linked in the sense of the continuity check. *)
Definition continues (a b : Block) : Prop := is_chain a b = true.

(** ** Continuity *)

Lemma continuity_ok ph prev b :
  check_chain_continuity ph prev b = Ok tt <->
  match prev with
  | Some p => continues p b
  | None => forall h, ph = Some h -> h = parent_hash b
  end.
Proof.
  unfold check_chain_continuity, continues, is_chain.
  destruct prev as [p|]; [by destruct (_ && _)|].
  destruct ph as [h|]; [|by split]. case_bool_decide; naive_solver.
Qed.

(** [bs] continues [prev], or opens a response whose base hash is [ph]. *)
Definition continuing (ph : option string) (prev : option Block) (bs : list Block) : Prop :=
  adjacent continues (match prev with Some p => p :: bs | None => bs end) /\
  (prev = None -> forall b h, head bs = Some b -> ph = Some h -> h = parent_hash b).

Definition last_or (prev : option Block) (bs : list Block) : option Block :=
  match last bs with Some b => Some b | None => prev end.

Lemma check_batch_ok ph prev bs prev' :
  check_batch ph prev bs = Ok prev' ->
  continuing ph prev bs /\ prev' = last_or prev bs.
Proof.
  unfold last_or.
  revert prev. induction bs as [|b bs IH]; intros prev; simpl.
  - intros [= <-]. split; [|done]. split; [destruct prev; auto with hotblocks|done].
  - destruct (check_chain_continuity ph prev b) as [[]|e] eqn:E; [|done].
    apply continuity_ok in E. intros H. apply IH in H as [[Hadj _] ->]. split.
    + destruct prev as [p|]; (split; [|intros]); [by apply adjacent_cons|done|done|].
      simplify_eq/=. eauto.
    + destruct bs as [|b' bs]; [done|]. simpl. by destruct (last (b' :: bs)) eqn:El;
        [|apply last_None in El].
Qed.

Lemma continuing_nil ph prev : continuing ph prev [].
Proof. split; [destruct prev; auto with hotblocks|done]. Qed.

Lemma continuing_app ph prev bs rest :
  continuing ph prev bs -> continuing ph (last_or prev bs) rest ->
  continuing ph prev (bs ++ rest).
Proof.
  unfold last_or. intros [Ha Hh] [Ha' Hh']. split.
  - destruct (last bs) as [l|] eqn:El.
    + assert (forall x, head rest = Some x -> continues l x) as Hx.
      { intros x Hx. destruct rest as [|y rest]; [done|]. simplify_eq/=. by apply (Ha' 0). }
      assert (adjacent continues rest) as Hr by by eapply adjacent_tail.
      destruct prev as [p|]; [change (p :: bs ++ rest) with ((p :: bs) ++ rest)|];
        apply adjacent_app; split_and!; auto.
      * intros x y Hl Hy. rewrite last_cons, El in Hl. simplify_eq. auto.
      * intros x y Hl Hy. simplify_eq. auto.
    + apply last_None in El as ->. done.
  - intros -> b h Hb Hph. destruct bs as [|x bs]; simplify_eq/=; [by eapply Hh'|by eapply Hh].
Qed.

(** The batches a head delivers before its error, if it has one. *)
Fixpoint delivered (head : HeadStream) : list Block :=
  match head with Ok bs :: head => bs ++ delivered head | _ => [] end.

Lemma served_app bs src rest :
  served (((fun b => Ok (b, src)) <$> bs) ++ rest) = bs ++ served rest.
Proof. induction bs as [|b bs IH]; [done|]. rewrite fmap_cons. simpl. by rewrite IH. Qed.

Lemma served_head head : served (head_records head) = delivered head.
Proof. induction head as [|[bs|e] head IH]; simpl; [done| |done]. by rewrite served_app, IH. Qed.

Lemma head_records_ok head : forallb is_ok (head_records head) = forallb is_ok head.
Proof.
  induction head as [|[bs|e] head IH]; simpl; [done| |done].
  rewrite forallb_app, IH. assert (forallb is_ok ((fun b => @Ok _ AnyError (b, FromHead)) <$> bs) = true)
    as ->; [|done]. induction bs; [done|]. by rewrite fmap_cons.
Qed.

(** The records of a response: the delivered prefix, and after it the tail
    exactly when the prefix ended without an error. *)
Lemma served_block_stream h tail :
  served (block_stream (Some h) tail) =
  delivered h ++ (if forallb is_ok h then tail else []).
Proof.
  unfold block_stream. rewrite head_records_ok. destruct (forallb is_ok h) eqn:E.
  - assert (forall rest, served (head_records h ++ rest) = delivered h ++ served rest) as Hs.
    { intros rest. clear tail. induction h as [|[bs|e] h IH]; simpl in *; [done| |done].
      rewrite <- app_assoc, served_app, IH, app_assoc by done. done. }
    rewrite Hs, <- (app_nil_r (fmap _ tail)), served_app. simpl. by rewrite app_nil_r.
  - by rewrite served_head, app_nil_r.
Qed.

Lemma producer_continuing ph prev tail source :
  adjacent continues tail -> tail <> [] ->
  let h := producer ph prev tail source in
  continuing ph prev (delivered h ++ if forallb is_ok h then tail else []) /\
  (forallb is_ok h = true ->
     exists batches, source = Ok <$> batches /\
       delivered h = concat (batch_blocks <$> batches) /\
       (prev = None -> delivered h <> [])).
Proof.
  intros Htail Hne. revert prev. induction source as [|[batch|e] source IH]; intros prev; simpl.
  - unfold splice. destruct prev as [p|]; [|split; [apply continuing_nil|done]].
    destruct tail as [|t tail]; [done|].
    destruct (check_chain_continuity ph (Some p) t) as [[]|e] eqn:E; simpl;
      [|split; [apply continuing_nil|done]].
    apply continuity_ok in E. split; [|by exists []].
    split; [by apply adjacent_cons|done].
  - destruct (check_batch ph prev (batch_blocks batch)) as [prev'|e] eqn:E; simpl;
      [|split; [apply continuing_nil|done]].
    apply check_batch_ok in E as [Hc ->]. destruct (IH (last_or prev (batch_blocks batch)))
      as [Hc' Hok]. split.
    + rewrite <- app_assoc. by apply continuing_app.
    + intros H. destruct (Hok H) as (bs & -> & Hd & Hn). exists (batch :: bs).
      rewrite fmap_cons. split_and!; [done|by rewrite Hd|].
      intros -> [Hb Hd']%app_nil. rewrite Hb in Hn, Hd'. by apply Hn in Hd'.
  - split; [apply continuing_nil|done].
Qed.

(** A short window over [12..14] that continues blocks below it. *)
Definition window_chain : Chain :=
  mkChain [make_block 12 "c" 11 "b"; make_block 13 "d" 12 "c"] 0 4 false None.

Definition backfill_source : list (Result BlockBatch StreamError) :=
  [Ok (mkBlockBatch [make_block 10 "a" 9 "z"] None); Ok (mkBlockBatch [make_block 11 "b" 10 "a"] None)].

(** ** The theorems *)

(** C8: Everything a below-window query serves is one linked chain: whatever
    the source delivers, the records sent, prefix and tail together, continue
    each other by number and hash and start from the base hash the client
    claimed; and a response that ends without an error served every block of
    every batch, at least one, followed by the whole snapshot (RP-8, WP-14). *)
Theorem below_query_linked c from ph source resp h :
  chain_wf c ->
  below_query c from ph source = Some (Ok resp) -> resp_head resp = Some h ->
  let records := block_stream (Some h) (default [] (resp_tail resp)) in
  adjacent continues (served records) /\
  (forall b hash, head (served records) = Some b -> ph = Some hash -> hash = parent_hash b) /\
  (forallb is_ok h = true ->
     exists batches, source = Ok <$> batches /\ concat (batch_blocks <$> batches) <> [] /\
       served records = concat (batch_blocks <$> batches) ++ blocks c).
Proof.
  intros [[Hne Hlk _] _ _] E Hh. unfold below_query in E.
  destruct (get_finalized_head c) as [fh|]; [|done].
  destruct (below_request c from ph) as [req|]; [|done].
  assert (resp = mkDataResponse (Some fh) (Some (producer ph None (snapshot c) source))
    (Some (snapshot c))) as -> by (destruct source as [|[?|[[]|]] ?]; by simplify_eq).
  unfold snapshot in *. simplify_eq/=. rewrite served_block_stream.
  assert (adjacent continues (blocks c)) as Hadj
    by (eapply adjacent_impl; [|exact Hlk]; by intros x y []).
  destruct (producer_continuing ph None (blocks c) source Hadj Hne) as [[Ha Hb] Hok].
  split_and!; [done|by intros; eapply Hb|].
  intros Ho. destruct (Hok Ho) as (bs & Hs & Hd & Hn). exists bs. unfold snapshot.
  rewrite <- Hd, Ho. split_and!; [done|by apply Hn|done].
Qed.

Lemma below_query_linked_witness :
  exists resp h, below_query window_chain 10 (Some "z"%string) backfill_source = Some (Ok resp) /\
    resp_head resp = Some h /\ forallb is_ok h = true /\
    adjacent continues (served (block_stream (Some h) (default [] (resp_tail resp)))).
Proof.
  do 2 eexists. split; [reflexivity|]. split; [reflexivity|]. split; [reflexivity|].
  eapply (below_query_linked window_chain 10 (Some "z"%string) backfill_source);
    [by apply chain_wfb_sound|reflexivity|reflexivity].
Defined.

(** A query below the window asks the finalized source for exactly the
    heights from the requested one up to the parent of the first buffered
    block; the arithmetic neither saturates nor overflows, and the path is
    taken exactly when the buffer's own query has nothing to say (RP-3, RP-8). *)
Theorem below_range_exact c from ph first :
  chain_wf c -> first_block c = Some first -> (number first <= u64_max)%N ->
  below_window c from = Some true ->
  below_request c from ph = Some (mkStreamRequest from (Some (parent_number first)) ph) /\
  (from <= parent_number first)%N /\ query c from ph = Some (Ok empty_response).
Proof.
  intros Hwf Hf Hu. unfold below_window, below_request, query. rewrite Hf. intros [= Hb].
  rewrite Hb. apply andb_true_iff in Hb as [Hn%negb_true_iff%N.eqb_neq Hle%N.leb_le].
  pose proof (shape_root _ (wf_shape _ Hwf) first Hf).
  unfold saturating_add, saturating_sub, u64_max in *.
  destruct (N.eqb_spec (N.min 18446744073709551615 (parent_number first - from + 1)) 0); [lia|].
  split_and!; [do 3 f_equal; lia|done|done].
Qed.

Lemma below_range_exact_witness :
  below_window window_chain 10 = Some true /\
  below_request window_chain 10 None = Some (mkStreamRequest 10 (Some 11%N) None).
Proof.
  split; [reflexivity|].
  destruct (below_range_exact window_chain 10 None (make_block 12 "c" 11 "b")) as [E _];
    [by apply chain_wfb_sound|done|done|done|exact E].
Defined.
