(* ===== verification/Metrics.v ===== *)
(** * Metrics: the state behind the service's observables (metrics.rs)

    The state the metrics keep (levels, counters, the upstream observation,
    the stall clock), one definition per recording, the block-time cache, and
    the pacing of the head reads. A gauge is the integer its [f64] holds, with
    the rounding of the casts written out; an [Instant] and a [Duration] are
    nanoseconds; clocks are arguments. The families and their rendering are in
    [Registry]; histograms are not kept. *)
From stdpp Require Import pretty.
From S2P Require Import Prelude Types Chain Service Query.
Local Open Scope rust_scope.

(** ** Integers in an [f64] *)

(** Rounding to 53 significant bits, ties to even. *)
Definition round53_nat (n : N) : N :=
  let k := (N.log2 n + 1 - 53)%N in
  if (k =? 0)%N then n
  else
    let q := (n / 2 ^ k)%N in
    let r := (n mod 2 ^ k)%N in
    let half := (2 ^ (k - 1))%N in
    let up := (half <? r)%N || ((r =? half)%N && N.odd q) in
    ((if up then q + 1 else q) * 2 ^ k)%N.

Definition round53 (z : Z) : Z := (Z.sgn z * Z.of_N (round53_nat (Z.abs_N z)))%Z.

(** [n as f64]. *)
Definition as_f64 (n : N) : Z := Z.of_N (round53_nat n).

Definition UNREACHED : Z := (-1)%Z.

(** [P_STALL_ALARM]: 60 s. *)
Definition P_STALL_ALARM : N := 60000000000%N.

(** ** Closed label sets *)

(** What [closed_set!] generates: the values and their labels. *)
Class ClosedSet (A : Type) := {
  all_values : list A;
  as_label : A -> string
}.

(** What the pre-registration relies on. *)
Class ClosedSetLaws (A : Type) `{!ClosedSet A} := {
  all_complete : forall a : A, a ∈ all_values;
  label_inj : forall a b : A, as_label a = as_label b -> a = b
}.

Inductive TruncationCause : Type := TruncBudget | TruncError | TruncDisconnect.
Inductive UpstreamRequestKind : Type := KindSingle | KindBatch.
Inductive EnrichmentRetry : Type := DataLagging | HeaderContested | Incoherent.
Inductive UpstreamErrorClass : Type :=
  | ErrRpc | ErrHttp | ErrConnection | ErrDisconnected | ErrTimeout | ErrProtocol
  | ErrRetryRequested.

#[export] Instance QueryClass_labels : ClosedSet QueryClass := {
  all_values := [QWindow; QWaitEmpty; QBackfill; QConflict; QError];
  as_label c := match c with
                | QWindow => "window" | QWaitEmpty => "wait_empty" | QBackfill => "backfill"
                | QConflict => "conflict" | QError => "error"
                end
}.

#[export] Instance TruncationCause_labels : ClosedSet TruncationCause := {
  all_values := [TruncBudget; TruncError; TruncDisconnect];
  as_label c := match c with
                | TruncBudget => "budget" | TruncError => "error" | TruncDisconnect => "disconnect"
                end
}.

#[export] Instance SessionRestart_labels : ClosedSet SessionRestart := {
  all_values := [RestartError; RestartFork; RestartReset];
  as_label c := match c with
                | RestartError => "error" | RestartFork => "fork" | RestartReset => "reset"
                end
}.

#[export] Instance UpstreamRequestKind_labels : ClosedSet UpstreamRequestKind := {
  all_values := [KindSingle; KindBatch];
  as_label c := match c with KindSingle => "single" | KindBatch => "batch" end
}.

#[export] Instance EnrichmentRetry_labels : ClosedSet EnrichmentRetry := {
  all_values := [DataLagging; HeaderContested; Incoherent];
  as_label c := match c with
                | DataLagging => "data_lagging" | HeaderContested => "header_contested"
                | Incoherent => "incoherent"
                end
}.

#[export] Instance UpstreamErrorClass_labels : ClosedSet UpstreamErrorClass := {
  all_values := [ErrRpc; ErrHttp; ErrConnection; ErrDisconnected; ErrTimeout; ErrProtocol;
                 ErrRetryRequested];
  as_label c := match c with
                | ErrRpc => "rpc" | ErrHttp => "http" | ErrConnection => "connection"
                | ErrDisconnected => "disconnected" | ErrTimeout => "timeout"
                | ErrProtocol => "protocol" | ErrRetryRequested => "retry_requested"
                end
}.

Ltac closed_set := split; [intros []; set_solver|by intros [] []].

#[export] Instance QueryClass_closed : ClosedSetLaws QueryClass.
Proof. closed_set. Qed.
#[export] Instance TruncationCause_closed : ClosedSetLaws TruncationCause.
Proof. closed_set. Qed.
#[export] Instance SessionRestart_closed : ClosedSetLaws SessionRestart.
Proof. closed_set. Qed.
#[export] Instance UpstreamRequestKind_closed : ClosedSetLaws UpstreamRequestKind.
Proof. closed_set. Qed.
#[export] Instance EnrichmentRetry_closed : ClosedSetLaws EnrichmentRetry.
Proof. closed_set. Qed.
#[export] Instance UpstreamErrorClass_closed : ClosedSetLaws UpstreamErrorClass.
Proof. closed_set. Qed.

(** ** The block-time cache *)

Record BlockTimestampCache := mkBlockTimestampCache {
  cache : gmap string N;
  max_size : nat;
  ttl : N;
  expiry : gmap string N
}.

Definition cache_new (max_size : nat) (ttl : N) : BlockTimestampCache :=
  mkBlockTimestampCache ∅ max_size ttl ∅.

(** [min_by_key]: the first least entry in iteration order. *)
Fixpoint min_by_value (entries : list (string * N)) : option (string * N) :=
  match entries with
  | [] => None
  | e :: entries =>
      match min_by_value entries with
      | None => Some e
      | Some least => Some (if (e.2 <=? least.2)%N then e else least)
      end
  end.

Section block_times.
(** The order a [HashMap] is iterated in: some order of its entries. *)
Variable order : gmap string N -> list (string * N).

Definition cache_set (now inserted_at : N) (c : BlockTimestampCache) (height : string)
    (timestamp : N) : BlockTimestampCache :=
  let live := filter (fun '(_, exp) => (now < exp)%N) (expiry c) in
  let kept := filter (fun '(k, _) => is_Some (expiry c !! k) -> is_Some (live !! k)) (cache c) in
  let '(kept, live) :=
    if max_size c <=? size kept then
      match min_by_value (order kept) with
      | Some (oldest, _) => (delete oldest kept, delete oldest live)
      | None => (kept, live)
      end
    else (kept, live) in
  mkBlockTimestampCache (<[height := timestamp]> kept) (max_size c) (ttl c)
    (<[height := (inserted_at + ttl c)%N]> live).
End block_times.

Definition cache_get (now : N) (c : BlockTimestampCache) (height : string) : option N :=
  match expiry c !! height with
  | Some exp => if (exp <? now)%N then None else cache c !! height
  | None => cache c !! height
  end.

(** The global: a thousand blocks for thirty minutes. *)
Definition block_timestamp_cache : BlockTimestampCache := cache_new 1000 1800000000000%N.

(** ** The metrics *)

Record UpstreamHeadObservation := mkUpstreamHeadObservation {
  number_observed_at : N;
  explicitly_observed_at : option N;
  observed_number : N
}.

Record StallClock := mkStallClock {
  last_commit_at : option N;
  behind_since : option N
}.

(** What a flip of the stall alarm logs (OB-10). *)
Inductive Capture : Type :=
  | StallRaised (upstream_head committed_head finalized_head stored_blocks : Z) (quiet : N)
      (ladder_position : Z) (last_error : option string)
  | StallCleared (committed_head : Z).

Record Metrics := mkMetrics {
  levels : gmap string Z;
  counts : gmap (string * string) N;
  upstream_head_observation : option UpstreamHeadObservation;
  stall_after : N;
  process_started_at : N;
  stall_active : bool;
  stall_clock : StallClock;
  ladder : Z * option string;
  captures : list Capture
}.

Definition with_levels (m : Metrics) (l : gmap string Z) : Metrics :=
  mkMetrics l (counts m) (upstream_head_observation m) (stall_after m) (process_started_at m)
    (stall_active m) (stall_clock m) (ladder m) (captures m).
Definition with_counts (m : Metrics) (c : gmap (string * string) N) : Metrics :=
  mkMetrics (levels m) c (upstream_head_observation m) (stall_after m) (process_started_at m)
    (stall_active m) (stall_clock m) (ladder m) (captures m).
Definition with_observation (m : Metrics) (o : option UpstreamHeadObservation) : Metrics :=
  mkMetrics (levels m) (counts m) o (stall_after m) (process_started_at m)
    (stall_active m) (stall_clock m) (ladder m) (captures m).
Definition with_stall_clock (m : Metrics) (c : StallClock) : Metrics :=
  mkMetrics (levels m) (counts m) (upstream_head_observation m) (stall_after m)
    (process_started_at m) (stall_active m) c (ladder m) (captures m).
Definition with_ladder (m : Metrics) (l : Z * option string) : Metrics :=
  mkMetrics (levels m) (counts m) (upstream_head_observation m) (stall_after m)
    (process_started_at m) (stall_active m) (stall_clock m) l (captures m).
Definition with_alarm (m : Metrics) (active : bool) (c : list Capture) : Metrics :=
  mkMetrics (levels m) (counts m) (upstream_head_observation m) (stall_after m)
    (process_started_at m) active (stall_clock m) (ladder m) (captures m ++ c).

(** [gauge.set], [gauge.get], [counter.inc_by]: a series is found by its
    family and, for a labelled counter, its label. *)
Definition level (m : Metrics) (name : string) : Z := default 0%Z (levels m !! name).
Definition set_level (name : string) (v : Z) (m : Metrics) : Metrics :=
  with_levels m (<[name := v]> (levels m)).

Definition count (m : Metrics) (name label : string) : N := default 0%N (counts m !! (name, label)).
Definition inc_by (name label : string) (v : N) (m : Metrics) : Metrics :=
  with_counts m (<[(name, label) := round53_nat (count m name label + round53_nat v)]> (counts m)).
Definition inc (name label : string) (m : Metrics) : Metrics := inc_by name label 1 m.

Definition LAST_BLOCK : string := "sqd_hotblocks_last_block".
Definition LAST_BLOCK_LAG : string := "sqd_hotblocks_last_block_lag_ms".
Definition FIRST_BLOCK : string := "sqd_hotblocks_first_block".
Definition FINALIZED_BLOCK : string := "sqd_hotblocks_finalized_block".
Definition STORED_BLOCKS : string := "sqd_hotblocks_stored_blocks".
Definition WINDOW_EXCESS : string := "sqd_hotblocks_window_excess".
Definition COMMITS : string := "sqd_hotblocks_commits_total".
Definition LAST_COMMIT : string := "sqd_hotblocks_last_commit_timestamp_ms".
Definition QUERIES : string := "sqd_hotblocks_queries_total".
Definition QUERY_OUTCOMES : string := "sqd_hotblocks_query_outcomes_total".
Definition TRUNCATIONS : string := "sqd_hotblocks_response_truncations_total".
Definition UPSTREAM_HEAD : string := "sqd_hotblocks_upstream_head".
Definition UPSTREAM_HEAD_TS : string := "sqd_hotblocks_upstream_head_timestamp_ms".
Definition UPSTREAM_FIN : string := "sqd_hotblocks_upstream_finalized_head".
Definition UPSTREAM_FIN_TS : string := "sqd_hotblocks_upstream_finalized_head_timestamp_ms".
Definition UPSTREAM_REQUESTS : string := "sqd_hotblocks_upstream_requests_total".
Definition UPSTREAM_CALLS : string := "sqd_hotblocks_upstream_calls_total".
Definition UPSTREAM_ERRORS : string := "sqd_hotblocks_upstream_errors_total".
Definition UPSTREAM_RETRIES : string := "sqd_hotblocks_upstream_retries_total".
Definition OVER_WINDOW : string := "sqd_hotblocks_over_window".
Definition FORCE_ADVANCES : string := "sqd_hotblocks_force_advances_total".
Definition FORCE_ADVANCED_PAST : string := "sqd_hotblocks_force_advanced_past".
Definition INTEGRITY_VIOLATIONS : string := "sqd_hotblocks_integrity_violations_total".
Definition SESSION_RESTARTS : string := "sqd_hotblocks_session_restarts_total".
Definition ENRICHMENT_RETRIES : string := "sqd_hotblocks_enrichment_retries_total".
Definition RETRY_EXHAUSTIONS : string := "sqd_hotblocks_acquisition_retry_exhaustions_total".
Definition FORK_REBASES : string := "sqd_hotblocks_fork_rebases_total".
Definition WATERMARK_REGRESSIONS : string := "sqd_hotblocks_watermark_regressions_total".
Definition TERMINAL_STATE : string := "sqd_hotblocks_terminal_state".
Definition STALL_ALARM : string := "sqd_hotblocks_stall_alarm".
Definition PROCESS_START : string := "sqd_hotblocks_process_start_timestamp_ms".
Definition FIRST_ACCEPTANCE : string := "sqd_hotblocks_first_acceptance_timestamp_ms".
Definition FIRST_COMMIT : string := "sqd_hotblocks_first_commit_timestamp_ms".
Definition SHUTDOWN_START : string := "sqd_hotblocks_shutdown_start_timestamp_ms".

(** ** Construction *)

(** The levels set before registration; every other gauge starts at zero. *)
Definition initial_levels (now_ms : N) : gmap string Z :=
  <[PROCESS_START := as_f64 now_ms]> (list_to_map ((fun n => (n, UNREACHED))
    <$> [LAST_COMMIT; UPSTREAM_HEAD_TS; UPSTREAM_FIN_TS; FORCE_ADVANCED_PAST; FIRST_ACCEPTANCE;
         FIRST_COMMIT; SHUTDOWN_START])).

(** Every label of every set at zero (OB-8), the unlabelled counters under the
    empty label. *)
Definition preset {A} `{ClosedSet A} (name : string) : list (string * string) :=
  (fun a : A => (name, as_label a)) <$> all_values.

Definition unlabelled : list (string * string) :=
  (fun n => (n, ""%string)) <$> [COMMITS; UPSTREAM_CALLS; FORCE_ADVANCES; INTEGRITY_VIOLATIONS;
    RETRY_EXHAUSTIONS; FORK_REBASES; WATERMARK_REGRESSIONS].

Definition initial_series : list (string * string) :=
  unlabelled
  ++ [(QUERIES, "cache"); (QUERIES, "backfill"); (QUERIES, "error")]%string
  ++ preset (A := QueryClass) QUERY_OUTCOMES
  ++ preset (A := TruncationCause) TRUNCATIONS
  ++ preset (A := SessionRestart) SESSION_RESTARTS
  ++ preset (A := EnrichmentRetry) ENRICHMENT_RETRIES
  ++ preset (A := UpstreamRequestKind) UPSTREAM_REQUESTS
  ++ preset (A := UpstreamErrorClass) UPSTREAM_ERRORS
  ++ preset (A := UpstreamErrorClass) UPSTREAM_RETRIES.

Definition with_stall_alarm (now now_ms stall_after : N) : Metrics :=
  mkMetrics (initial_levels now_ms) (list_to_map ((fun s => (s, 0%N)) <$> initial_series))
    None stall_after now false (mkStallClock None None) (0%Z, None) [].

Definition metrics_new (now now_ms : N) : Metrics := with_stall_alarm now now_ms P_STALL_ALARM.

(** ** OB-1 state levels *)

Definition set_last_block (v : N) : Metrics -> Metrics := set_level LAST_BLOCK (as_f64 v).
Definition set_last_block_timestamp (now_ms v : N) : Metrics -> Metrics :=
  set_level LAST_BLOCK_LAG
    (if (v =? 0)%N then UNREACHED else round53 (as_f64 now_ms - as_f64 v)).
Definition set_first_block (v : N) : Metrics -> Metrics := set_level FIRST_BLOCK (as_f64 v).
Definition set_stored_blocks (v : nat) : Metrics -> Metrics :=
  set_level STORED_BLOCKS (as_f64 (N.of_nat v)).
Definition set_finalized_block (v : N) : Metrics -> Metrics := set_level FINALIZED_BLOCK (as_f64 v).
Definition set_window_excess (excess : nat) (m : Metrics) : Metrics :=
  set_level OVER_WINDOW (if (0 <? excess)%nat then 1 else 0)%Z
    (set_level WINDOW_EXCESS (as_f64 (N.of_nat excess)) m).

(** A moment is kept from the first time it is set. *)
Definition set_once (name : string) (v : Z) (m : Metrics) : Metrics :=
  if (level m name <? 0)%Z then set_level name v m else m.

(** ** OB-2 heartbeat *)

Definition record_commit (now now_ms : N) (m : Metrics) : Metrics :=
  let m := inc COMMITS "" m in
  let m := with_stall_clock m (mkStallClock (Some now) (behind_since (stall_clock m))) in
  let m := set_level LAST_COMMIT (as_f64 now_ms) m in
  set_once FIRST_COMMIT (as_f64 now_ms) m.

(** ** OB-5 queries *)

Definition inc_query (kind : string) : Metrics -> Metrics := inc QUERIES kind.
Definition record_query (class : QueryClass) : Metrics -> Metrics :=
  inc QUERY_OUTCOMES (as_label class).
Definition record_truncation (cause : TruncationCause) : Metrics -> Metrics :=
  inc TRUNCATIONS (as_label cause).

(** ** OB-4 upstream *)

Definition observe_upstream_head (now now_ms number : N) (m : Metrics) : Metrics :=
  let m := with_observation m (Some (mkUpstreamHeadObservation now (Some now) number)) in
  set_level UPSTREAM_HEAD_TS (as_f64 now_ms) (set_level UPSTREAM_HEAD (as_f64 number) m).

Definition observe_upstream_progress (now number : N) (m : Metrics) : Metrics :=
  let advance explicitly :=
    set_level UPSTREAM_HEAD (as_f64 number)
      (with_observation m (Some (mkUpstreamHeadObservation now explicitly number))) in
  match upstream_head_observation m with
  | Some current =>
      if (number <=? observed_number current)%N then m
      else advance (explicitly_observed_at current)
  | None => advance None
  end.

Definition fresh_upstream_head (now : N) (m : Metrics) : option N :=
  let! observation := upstream_head_observation m in
  let! at_ := explicitly_observed_at observation in
  if (now - at_ <? stall_after m)%N then Some (observed_number observation) else None.

Definition upstream_head_refresh_interval (m : Metrics) : N := N.max (stall_after m / 2) 1000000.
Definition upstream_head_refresh_timeout (m : Metrics) : N :=
  N.max (upstream_head_refresh_interval m / 4) 1000000.

Definition observe_upstream_finalized_head (now_ms number : N) (m : Metrics) : Metrics :=
  set_level UPSTREAM_FIN_TS (as_f64 now_ms) (set_level UPSTREAM_FIN (as_f64 number) m).

Definition record_upstream_request (kind : UpstreamRequestKind) (calls : nat) (m : Metrics)
    : Metrics :=
  inc_by UPSTREAM_CALLS "" (N.of_nat calls) (inc UPSTREAM_REQUESTS (as_label kind) m).
Definition record_upstream_error (class : UpstreamErrorClass) : Metrics -> Metrics :=
  inc UPSTREAM_ERRORS (as_label class).
Definition record_upstream_retry (class : UpstreamErrorClass) : Metrics -> Metrics :=
  inc UPSTREAM_RETRIES (as_label class).

(** ** OB-6, OB-7, OB-9 *)

Definition record_force_advance (past_height : N) (m : Metrics) : Metrics :=
  set_level FORCE_ADVANCED_PAST (as_f64 past_height) (inc FORCE_ADVANCES "" m).
Definition record_integrity_violation : Metrics -> Metrics := inc INTEGRITY_VIOLATIONS "".
Definition record_session_restart (cause : SessionRestart) : Metrics -> Metrics :=
  inc SESSION_RESTARTS (as_label cause).
Definition record_enrichment_retry (reason : EnrichmentRetry) : Metrics -> Metrics :=
  inc ENRICHMENT_RETRIES (as_label reason).
Definition record_acquisition_retry_exhausted : Metrics -> Metrics := inc RETRY_EXHAUSTIONS "".
Definition record_fork_rebase : Metrics -> Metrics := inc FORK_REBASES "".
Definition record_watermark_regression : Metrics -> Metrics := inc WATERMARK_REGRESSIONS "".
Definition record_terminal_state : Metrics -> Metrics := set_level TERMINAL_STATE 1%Z.
Definition note_session_end (ladder_position : Z) (error : option string) (m : Metrics) : Metrics :=
  with_ladder m (ladder_position, error).
Definition record_first_acceptance (now_ms : N) : Metrics -> Metrics :=
  set_once FIRST_ACCEPTANCE (as_f64 now_ms).
Definition record_shutdown_start (now_ms : N) : Metrics -> Metrics :=
  set_once SHUTDOWN_START (as_f64 now_ms).

(** ** The stall alarm *)

Definition is_behind (m : Metrics) : bool :=
  match upstream_head_observation m with
  | Some current => (level m LAST_BLOCK <? as_f64 (observed_number current))%Z
  | None => false
  end.

(** The decision under the clock's lock: the clock, whether progress has
    stalled, and for how long it has been quiet. *)
Definition stall_decision (now : N) (m : Metrics) : StallClock * bool * N :=
  let clock := stall_clock m in
  match upstream_head_observation m with
  | Some current =>
      if is_behind m then
        let behind := default (number_observed_at current) (behind_since clock) in
        let committed := default (process_started_at m) (last_commit_at clock) in
        let quiet := (now - N.max committed behind)%N in
        (mkStallClock (last_commit_at clock) (Some behind), (stall_after m <=? quiet)%N, quiet)
      else (mkStallClock (last_commit_at clock) None, false, 0%N)
  | None => (mkStallClock (last_commit_at clock) None, false, 0%N)
  end.

Definition refresh_stall_alarm (now : N) (m : Metrics) : Metrics :=
  let '(clock, stalled, quiet) := stall_decision now m in
  let m := set_level STALL_ALARM (if stalled then 1 else 0)%Z (with_stall_clock m clock) in
  if Bool.eqb (stall_active m) stalled then m
  else
    with_alarm m stalled
      [if stalled then
         StallRaised (level m UPSTREAM_HEAD) (level m LAST_BLOCK) (level m FINALIZED_BLOCK)
           (level m STORED_BLOCKS) quiet (ladder m).1 (ladder m).2
       else StallCleared (level m LAST_BLOCK)].

Definition refresh_derived_levels : N -> Metrics -> Metrics := refresh_stall_alarm.

(** ** Every recording, with the clocks it reads *)

(** [trigger_update_locked]'s levels, in its order. *)
Definition set_levels (now_ms : N) (l : Levels) (m : Metrics) : Metrics :=
  let m := set_first_block (lv_first_block l) m in
  let m := set_last_block (lv_last_block l) m in
  let m := set_last_block_timestamp now_ms (lv_last_block_timestamp l) m in
  let m := set_finalized_block (lv_finalized_block l) m in
  let m := set_stored_blocks (lv_stored_blocks l) m in
  set_window_excess (lv_window_excess l) m.

(** ** Rounding *)

Lemma round53_nat_small n : (n <= 2 ^ 53)%N -> round53_nat n = n.
Proof.
  intros Hn. unfold round53_nat.
  destruct (N.eqb_spec (N.log2 n + 1 - 53) 0) as [|Hk]; [done|].
  assert (n = 2 ^ 53)%N as ->; [|done].
  destruct (N.lt_ge_cases n (2 ^ 53)) as [Hlt|]; [|lia].
  destruct (N.eq_dec n 0%N) as [->|]; [done|]. apply N.log2_lt_pow2 in Hlt; lia.
Qed.

(** A number of [53 + k] bits rounds within its binade. *)
Lemma round53_nat_binade n :
  (0 < n)%N -> (2 ^ N.log2 n <= round53_nat n <= 2 ^ (N.log2 n + 1))%N.
Proof.
  intros Hn. pose proof (N.log2_spec n Hn) as [Hlo Hhi]. rewrite <- N.add_1_r in Hhi.
  unfold round53_nat. set (k := (N.log2 n + 1 - 53)%N).
  destruct (N.eqb_spec k 0) as [|Hk]; [lia|].
  assert (2 ^ N.log2 n = 2 ^ 52 * 2 ^ k)%N as E1 by (rewrite <- N.pow_add_r; f_equal; lia).
  assert (2 ^ (N.log2 n + 1) = 2 ^ 53 * 2 ^ k)%N as E2 by (rewrite <- N.pow_add_r; f_equal; lia).
  assert (0 < 2 ^ k)%N by (apply N.neq_0_lt_0, N.pow_nonzero; lia).
  assert (2 ^ 52 <= n / 2 ^ k)%N by (apply N.div_le_lower_bound; lia).
  assert (n / 2 ^ k < 2 ^ 53)%N by (apply N.Div0.div_lt_upper_bound; lia).
  rewrite E1, E2. destruct (_ || _); split; apply N.mul_le_mono_r; lia.
Qed.

Lemma round53_nat_mono n m : (n <= m)%N -> (round53_nat n <= round53_nat m)%N.
Proof.
  intros Hnm. destruct (N.eq_dec n 0%N) as [->|Hn]; [apply N.le_0_l|].
  pose proof (N.log2_le_mono n m Hnm) as Hlog.
  destruct (N.eq_dec (N.log2 n) (N.log2 m)) as [El|Hl].
  - unfold round53_nat. rewrite <- El. set (k := (N.log2 n + 1 - 53)%N).
    destruct (N.eqb_spec k 0) as [|Hk]; [done|].
    assert (0 < 2 ^ k)%N by (apply N.neq_0_lt_0, N.pow_nonzero; lia).
    pose proof (N.Div0.div_le_mono n m (2 ^ k) Hnm) as Hq.
    apply N.mul_le_mono_r. destruct (N.eq_dec (n / 2 ^ k)%N (m / 2 ^ k)%N) as [Eq|Hne].
    + pose proof (N.div_mod n (2 ^ k) ltac:(lia)). pose proof (N.div_mod m (2 ^ k) ltac:(lia)).
      rewrite Eq in *. destruct (N.ltb_spec (2 ^ (k - 1)) (n mod 2 ^ k)) as [Hr|Hr]; simpl.
      * by rewrite (proj2 (N.ltb_lt _ _)) by lia.
      * destruct (N.eqb_spec (n mod 2 ^ k) (2 ^ (k - 1))) as [Er|]; simpl; [|case_match; lia].
        destruct (N.ltb_spec (2 ^ (k - 1)) (m mod 2 ^ k)); simpl; [case_match; lia|].
        by rewrite (proj2 (N.eqb_eq _ _)) by lia.
    + case_match; case_match; lia.
  - etransitivity; [apply round53_nat_binade; lia|].
    etransitivity; [|apply round53_nat_binade; lia]. apply N.pow_le_mono_r; lia.
Qed.

Lemma as_f64_mono n m : (n <= m)%N -> (as_f64 n <= as_f64 m)%Z.
Proof. intros H. unfold as_f64. pose proof (round53_nat_mono n m H). lia. Qed.

Lemma as_f64_small n : (n <= 2 ^ 53)%N -> as_f64 n = Z.of_N n.
Proof. intros H. unfold as_f64. by rewrite round53_nat_small. Qed.

(** A comparison of casts never reports an order the numbers do not have. *)
Lemma as_f64_lt n m : (as_f64 n < as_f64 m)%Z -> (n < m)%N.
Proof. intros H. destruct (N.lt_ge_cases n m) as [|Hge]; [done|]. apply as_f64_mono in Hge. lia. Qed.

(** ** What a recording leaves alone *)

Arguments level : simpl never.
Arguments set_level : simpl never.

Lemma level_set_same name v m : level (set_level name v m) name = v.
Proof. unfold level, set_level. simpl. by rewrite lookup_insert_eq. Qed.

Lemma level_set_other name name' v m :
  name <> name' -> level (set_level name v m) name' = level m name'.
Proof. intros H. unfold level, set_level. simpl. by rewrite lookup_insert_ne. Qed.

Lemma level_set_once_other name name' v m :
  name <> name' -> level (set_once name v m) name' = level m name'.
Proof. intros H. unfold set_once. case_match; [by apply level_set_other|done]. Qed.

(** What no recording but its own changes: the observation, the clock and the
    alarm's state. *)
Record same_alarm (m m' : Metrics) : Prop := {
  sa_active : stall_active m' = stall_active m;
  sa_captures : captures m' = captures m;
  sa_level : level m' STALL_ALARM = level m STALL_ALARM;
  sa_behind : behind_since (stall_clock m') = behind_since (stall_clock m);
  sa_after : stall_after m' = stall_after m;
  sa_started : process_started_at m' = process_started_at m
}.

Ltac frames :=
  repeat first
    [ done
    | rewrite level_set_other by done
    | rewrite level_set_once_other by done
    | progress unfold record_commit, observe_upstream_head, observe_upstream_progress, set_levels,
        record_force_advance, set_window_excess, record_upstream_request, set_once, set_first_block,
        set_last_block, set_last_block_timestamp, set_finalized_block, set_stored_blocks,
        record_terminal_state, observe_upstream_finalized_head, record_first_acceptance,
        record_shutdown_start in *
    | progress cbn in *
    | case_match ].

Inductive Recording : Type :=
  | RecEffect (e : Effect)
  | RecUpstreamHead (number : N)
  | RecUpstreamFinalized (number : N)
  | RecRequest (kind : UpstreamRequestKind) (calls : nat)
  | RecError (class : UpstreamErrorClass)
  | RecRetry (class : UpstreamErrorClass)
  | RecEnrichment (reason : EnrichmentRetry)
  | RecExhausted
  | RecQuery (class : QueryClass)
  | RecTruncation (cause : TruncationCause)
  | RecAcceptance
  | RecShutdown
  | RecRefresh.

Section recordings.
Variable display_error : AnyError -> string.

(** What the service publishes, recorded. The block-time cache and the
    histograms are elsewhere; [started] is not a metric. *)
Definition record_effect (now now_ms : N) (e : Effect) (m : Metrics) : Metrics :=
  match e with
  | EUpstreamProgress n => observe_upstream_progress now n m
  | EBlockIngestion _ _ | EBlockLag _ _ | EStarted _ => m
  | EIntegrityViolation => record_integrity_violation m
  | ECommit => record_commit now now_ms m
  | EForceAdvance past => record_force_advance past m
  | EUpdate l => set_levels now_ms l m
  | EWatermarkRegression => record_watermark_regression m
  | ETerminalState => record_terminal_state m
  | ESessionRestart kind => record_session_restart kind m
  | EForkRebase => record_fork_rebase m
  | ESessionEnd position cause => note_session_end (Z.of_N position) (display_error <$> cause) m
  end.

Definition record_step (now now_ms : N) (r : Recording) (m : Metrics) : Metrics :=
  match r with
  | RecEffect e => record_effect now now_ms e m
  | RecUpstreamHead n => observe_upstream_head now now_ms n m
  | RecUpstreamFinalized n => observe_upstream_finalized_head now_ms n m
  | RecRequest kind calls => record_upstream_request kind calls m
  | RecError class => record_upstream_error class m
  | RecRetry class => record_upstream_retry class m
  | RecEnrichment reason => record_enrichment_retry reason m
  | RecExhausted => record_acquisition_retry_exhausted m
  | RecQuery class => record_query class (inc_query (compat_label class) m)
  | RecTruncation cause => record_truncation cause m
  | RecAcceptance => record_first_acceptance now_ms m
  | RecShutdown => record_shutdown_start now_ms m
  | RecRefresh => refresh_derived_levels now m
  end.

(** A history: each recording with the monotonic and the wall clock at it. *)
Fixpoint record_all (h : list (N * N * Recording)) (m : Metrics) : Metrics :=
  match h with
  | [] => m
  | (now, now_ms, r) :: h => record_all h (record_step now now_ms r m)
  end.

Lemma record_all_app h1 h2 m : record_all (h1 ++ h2) m = record_all h2 (record_all h1 m).
Proof. revert m. induction h1 as [|[[now ms] r] h1 IH]; intros m; [done|apply IH]. Qed.

Definition is_refresh (r : Recording) : bool := match r with RecRefresh => true | _ => false end.

Lemma record_step_alarm now ms r m :
  is_refresh r = false -> same_alarm m (record_step now ms r m).
Proof.
  intros Hr. destruct r as [e|n|n|kind calls|c|c|c| |c|c| | |]; [destruct e|..]; try done; split; frames.
Qed.

Lemma record_step_config now ms r m :
  stall_after (record_step now ms r m) = stall_after m /\
  process_started_at (record_step now ms r m) = process_started_at m.
Proof.
  destruct (is_refresh r) eqn:Hr.
  - destruct r; try done. cbn. unfold refresh_derived_levels, refresh_stall_alarm. destruct (stall_decision now m) as [[c s] q]. by case_match.
  - by destruct (record_step_alarm now ms r m Hr).
Qed.

Lemma record_all_config h m :
  stall_after (record_all h m) = stall_after m /\
  process_started_at (record_all h m) = process_started_at m.
Proof.
  revert m. induction h as [|[[now ms] r] h IH]; intros m; [done|]. cbn [record_all].
  destruct (IH (record_step now ms r m)) as [-> ->]. apply record_step_config.
Qed.

(** ** The upstream view *)

Definition is_head (r : Recording) : bool :=
  match r with RecUpstreamHead _ => true | _ => false end.

(** The heights committed batches prove, in order. *)
Definition progress_of (h : list (N * N * Recording)) : list N :=
  omap (fun '(_, _, r) => match r with RecEffect (EUpstreamProgress n) => Some n | _ => None end) h.

Definition no_head (h : list (N * N * Recording)) : Prop :=
  Forall (fun '(_, _, r) => is_head r = false) h.

Lemma last_head_split h :
  no_head h \/ exists h1 now ms n h2, h = h1 ++ (now, ms, RecUpstreamHead n) :: h2 /\ no_head h2.
Proof.
  induction h as [|[[now ms] r] h [IH|IH]] using rev_ind; [by left; constructor|..].
  all: destruct (is_head r) eqn:Er; [destruct r; try done; right; exists h, now, ms, number, []; split; [done|constructor]|].
  - left. apply Forall_app. split; [done|]. by repeat constructor.
  - right. destruct IH as (h1 & t & w & n & h2 & -> & Hh). exists h1, t, w, n, (h2 ++ [(now, ms, r)]).
    split; [by rewrite <- app_assoc|]. apply Forall_app. split; [done|]. by repeat constructor.
Qed.

(** One recording that is not a head read leaves the explicit time alone and
    only raises the number, by a progress. *)
Lemma observation_step now ms r m :
  is_head r = false ->
  upstream_head_observation (record_step now ms r m) =
    match r with
    | RecEffect (EUpstreamProgress n) => upstream_head_observation (observe_upstream_progress now n m)
    | _ => upstream_head_observation m
    end.
Proof.
  intros Hr. destruct r as [e|n|n|kind calls|c|c|c| |c|c| | |]; [destruct e|..]; try done.
  - cbn. unfold record_commit, set_once. by case_match.
  - cbn. unfold record_first_acceptance, set_once. by case_match.
  - cbn. unfold record_shutdown_start, set_once. by case_match.
  - cbn. unfold refresh_derived_levels, refresh_stall_alarm.
    destruct (stall_decision now m) as [[c s] q]. by case_match.
Qed.

Lemma explicit_kept h m o te :
  no_head h -> upstream_head_observation m = Some o -> explicitly_observed_at o = Some te ->
  exists o', upstream_head_observation (record_all h m) = Some o' /\ explicitly_observed_at o' = Some te /\
    observed_number o' = fold_left N.max (progress_of h) (observed_number o).
Proof.
  intros Hh. revert m o. induction Hh as [|[[now ms] r] h Hr _ IH]; intros m o Ho He; [by exists o|].
  cbn [record_all]. pose proof (observation_step now ms r m Hr) as Hs.
  assert (exists o1, upstream_head_observation (record_step now ms r m) = Some o1 /\
    explicitly_observed_at o1 = Some te /\
    observed_number o1 = match r with RecEffect (EUpstreamProgress n) => N.max (observed_number o) n
                         | _ => observed_number o end) as (o1 & Ho1 & He1 & Hn1).
  { rewrite Hs. destruct r as [[n| | | | | | | | | | | |]|n|n|kind calls|c|c|c| |c|c| | |]; try (by exists o).
    unfold observe_upstream_progress. rewrite Ho.
    destruct (N.leb_spec n (observed_number o)).
    - exists o. split_and!; [done..|lia].
    - eexists. split; [reflexivity|]. cbn. split; [done|lia]. }
  destruct (IH _ o1 Ho1 He1) as (o' & ? & ? & Hn). exists o'. split_and!; [done..|].
  rewrite Hn, Hn1. by destruct r as [[n| | | | | | | | | | | |]|n|n|kind calls|c|c|c| |c|c| | |].
Qed.

Lemma implicit_kept h m :
  no_head h -> (forall o, upstream_head_observation m = Some o -> explicitly_observed_at o = None) ->
  forall o, upstream_head_observation (record_all h m) = Some o -> explicitly_observed_at o = None.
Proof.
  intros Hh. revert m. induction Hh as [|[[now ms] r] h Hr _ IH]; intros m Hm; [done|].
  cbn [record_all]. apply IH. rewrite (observation_step now ms r m Hr).
  destruct r as [[n| | | | | | | | | | | |]|n|n|kind calls|c|c|c| |c|c| | |]; try done.
  unfold observe_upstream_progress. destruct (upstream_head_observation m) as [cur|] eqn:E.
  - destruct (n <=? observed_number cur)%N; [by rewrite E|]. intros o [= <-]. cbn. by apply Hm.
  - by intros o [= <-].
Qed.

(** The view after an explicit read, whatever else was recorded. *)
Lemma fresh_after_head h1 te ms k h2 m0 now :
  no_head h2 ->
  fresh_upstream_head now (record_all (h1 ++ (te, ms, RecUpstreamHead k) :: h2) m0) =
  if (now - te <? stall_after m0)%N then Some (fold_left N.max (progress_of h2) k) else None.
Proof.
  intros Hh2. rewrite record_all_app. cbn [record_all].
  set (m1 := record_step te ms (RecUpstreamHead k) (record_all h1 m0)).
  destruct (explicit_kept h2 m1 (mkUpstreamHeadObservation te (Some te) k) te Hh2)
    as (o & Ho & He & Hn); [done|done|].
  unfold fresh_upstream_head. rewrite Ho, He, Hn.
  destruct (record_all_config h2 m1) as [-> _]. destruct (record_all_config h1 m0) as [Ea _].
  change (stall_after m1) with (stall_after (record_all h1 m0)). by rewrite Ea.
Qed.

(** The fresh view of the upstream is exactly the last explicit read: it is
    the greatest of that read's height and the heights proved since, it is
    visible while the read is younger than the stall bound, and neither
    progress, nor time, nor any other recording makes a stale view fresh or
    hides a fresh one. *)
Theorem fresh_head_exact (h : list (N * N * Recording)) (m0 : Metrics) (now n : N)
    (Hm0 : upstream_head_observation m0 = None) :
  fresh_upstream_head now (record_all h m0) = Some n <->
  exists h1 te ms k h2, h = h1 ++ (te, ms, RecUpstreamHead k) :: h2 /\ no_head h2 /\
    (now - te < stall_after m0)%N /\ n = fold_left N.max (progress_of h2) k.
Proof.
  split.
  - intros Hf. destruct (last_head_split h) as [Hno|(h1 & te & ms & k & h2 & -> & Hh2)].
    + exfalso. unfold fresh_upstream_head in Hf.
      destruct (upstream_head_observation (record_all h m0)) as [o|] eqn:Eo; [|done].
      by rewrite (implicit_kept h m0 Hno ltac:(by rewrite Hm0) o Eo) in Hf.
    + rewrite fresh_after_head in Hf by done. destruct (N.ltb_spec (now - te) (stall_after m0)); [|done].
      injection Hf as <-. by exists h1, te, ms, k, h2.
  - intros (h1 & te & ms & k & h2 & -> & Hh2 & Hlt & ->). rewrite fresh_after_head by done.
    by rewrite (proj2 (N.ltb_lt _ _)).
Qed.

(** ** The stall alarm *)

(** Clock readings do not go back. *)
Fixpoint timed (lo : N) (h : list (N * N * Recording)) : Prop :=
  match h with
  | [] => True
  | (now, _, _) :: h => (lo <= now)%N /\ timed now h
  end.

Fixpoint end_time (lo : N) (h : list (N * N * Recording)) : N :=
  match h with [] => lo | (now, _, _) :: h => end_time now h end.

Lemma timed_app lo h1 h2 : timed lo (h1 ++ h2) <-> timed lo h1 /\ timed (end_time lo h1) h2.
Proof.
  revert lo. induction h1 as [|[[now ms] r] h1 IH]; intros lo; simpl; [tauto|]. rewrite IH. tauto.
Qed.

Lemma timed_le lo h : timed lo h -> (lo <= end_time lo h)%N.
Proof.
  revert lo. induction h as [|[[now ms] r] h IH]; intros lo; simpl; [lia|].
  intros [? Ht%IH]. lia.
Qed.

Definition commits_of (h : list (N * N * Recording)) : list N :=
  omap (fun '(now, _, r) => match r with RecEffect ECommit => Some now | _ => None end) h.

Lemma last_commit_step now ms r m :
  last_commit_at (stall_clock (record_step now ms r m)) =
  match r with RecEffect ECommit => Some now | _ => last_commit_at (stall_clock m) end.
Proof.
  destruct r as [e|n|n|kind calls|c|c|c| |c|c| | |]; [destruct e|..]; try done; cbn.
  1: unfold observe_upstream_progress; destruct (upstream_head_observation m); [by case_match|done].
  1: unfold record_commit, set_once; by case_match.
  1: unfold record_first_acceptance, set_once; by case_match.
  1: unfold record_shutdown_start, set_once; by case_match.
  unfold refresh_derived_levels, refresh_stall_alarm, stall_decision.
  destruct (upstream_head_observation m); [destruct (is_behind m)|]; cbn; by case_match.
Qed.

Lemma commits_cons now ms r h :
  commits_of ((now, ms, r) :: h) =
  match r with RecEffect ECommit => now :: commits_of h | _ => commits_of h end.
Proof. unfold commits_of. by destruct r as [[]| | | | | | | | | | | |]. Qed.

Lemma last_commit_exact h m :
  last_commit_at (stall_clock (record_all h m)) =
  match last (commits_of h) with Some t => Some t | None => last_commit_at (stall_clock m) end.
Proof.
  revert m. induction h as [|[[now ms] r] h IH]; intros m; [done|]. cbn [record_all].
  rewrite IH, last_commit_step, commits_cons.
  destruct r as [[]| | | | | | | | | | | |]; try done.
  rewrite last_cons. by destruct (last (commits_of h)).
Qed.

(** The last commit is the latest. *)
Lemma commits_timed lo h :
  timed lo h -> Forall (fun t => lo <= t)%N (commits_of h) /\
  forall t, t ∈ commits_of h -> exists l, last (commits_of h) = Some l /\ (t <= l)%N.
Proof.
  revert lo. induction h as [|[[now ms] r] h IH]; intros lo; cbn [timed].
  { intros _. split; [constructor|]. by intros t ?%not_elem_of_nil. }
  intros [Hlo Ht]. destruct (IH now Ht) as [Hge Hlast]. rewrite commits_cons.
  assert (Forall (fun t => lo <= t)%N (commits_of h)) as Hge'
    by (eapply Forall_impl; [exact Hge|]; simpl; lia).
  destruct r as [[]| | | | | | | | | | | |]; try (split; [exact Hge'|exact Hlast]).
  split; [by constructor|]. intros t [->|Hin]%elem_of_cons; rewrite last_cons.
  - destruct (last (commits_of h)) as [l|] eqn:El; [|by exists now]. exists l. split; [done|].
    apply (proj1 (Forall_forall _ _) Hge). by apply last_Some_elem_of.
  - destruct (Hlast t Hin) as (l & -> & ?). by exists l.
Qed.

(** The clock's own times are past. *)
Definition clock_past (m : Metrics) (now : N) : Prop :=
  (process_started_at m <= now)%N /\
  (forall o, upstream_head_observation m = Some o -> (number_observed_at o <= now)%N) /\
  (forall t, last_commit_at (stall_clock m) = Some t -> (t <= now)%N) /\
  (forall t, behind_since (stall_clock m) = Some t -> (t <= now)%N).

Lemma behind_since_step now ms r m :
  behind_since (stall_clock (record_step now ms r m)) =
  match r with
  | RecRefresh =>
      if is_behind m then
        match upstream_head_observation m with
        | Some o => Some (default (number_observed_at o) (behind_since (stall_clock m)))
        | None => None
        end
      else None
  | _ => behind_since (stall_clock m)
  end.
Proof.
  destruct (is_refresh r) eqn:Er.
  - destruct r; try done. cbn. unfold refresh_derived_levels, refresh_stall_alarm, stall_decision.
    destruct (upstream_head_observation m); [destruct (is_behind m)|]; cbn; by repeat case_match.
  - destruct (record_step_alarm now ms r m Er) as [_ _ _ E _ _]. rewrite E. by destruct r.
Qed.

Lemma observation_time now ms r m o :
  upstream_head_observation (record_step now ms r m) = Some o ->
  number_observed_at o = now \/ upstream_head_observation m = Some o.
Proof.
  destruct (is_head r) eqn:Er.
  - destruct r; try done. intros [= <-]. by left.
  - rewrite observation_step by done.
    destruct r as [[n| | | | | | | | | | | |]|n|n|kind calls|c|c|c| |c|c| | |]; auto.
    unfold observe_upstream_progress. destruct (upstream_head_observation m) as [cur|] eqn:E.
    + destruct (n <=? observed_number cur)%N; [rewrite E; auto|]. intros [= <-]. by left.
    + intros [= <-]. by left.
Qed.

Lemma clock_past_step now ms r m t0 :
  clock_past m t0 -> (t0 <= now)%N -> clock_past (record_step now ms r m) now.
Proof.
  intros (Hp & Ho & Hc & Hb) Hle. destruct (record_step_config now ms r m) as [_ Es].
  split_and!; [rewrite Es; lia| | |].
  - intros o [->|H]%observation_time; [lia|]. specialize (Ho o H). lia.
  - intros t. rewrite last_commit_step.
    destruct r as [[]| | | | | | | | | | | |]; first [by intros [= <-]|intros H; specialize (Hc t H); lia].
  - intros t. rewrite behind_since_step. destruct r; try (intros H; specialize (Hb t H); lia).
    destruct (is_behind m); [|done]. destruct (upstream_head_observation m) as [o|]; [|done].
    intros [= <-]. specialize (Ho o eq_refl). destruct (behind_since (stall_clock m)) as [b|]; simpl; [|lia].
    specialize (Hb b eq_refl). lia.
Qed.

Lemma clock_past_all h m lo :
  clock_past m lo -> timed lo h -> clock_past (record_all h m) (end_time lo h).
Proof.
  revert m lo. induction h as [|[[now ms] r] h IH]; intros m lo Hm; [done|].
  intros [Hle Ht]. cbn [record_all end_time]. apply IH; [by eapply clock_past_step|done].
Qed.

(** Every refresh in [h2], run after [m], finds the upstream ahead. *)
Definition refreshes_behind (m : Metrics) (h2 : list (N * N * Recording)) : Prop :=
  forall ha t ms hb, h2 = ha ++ (t, ms, RecRefresh) :: hb -> is_behind (record_all ha m) = true.

Lemma refreshes_behind_cons m now ms r h :
  refreshes_behind m ((now, ms, r) :: h) <->
  (is_refresh r = true -> is_behind m = true) /\ refreshes_behind (record_step now ms r m) h.
Proof.
  split.
  - intros H. split.
    + intros Hr. destruct r; try done. by apply (H [] now ms h).
    + intros ha t w hb ->. by apply (H ((now, ms, r) :: ha) t w hb).
  - intros [H1 H2] [|[[t1 w1] r1] ha] t ms' hb E; simplify_eq/=; [by apply H1|]. by eapply H2.
Qed.

Lemma behind_observed m : is_behind m = true -> is_Some (upstream_head_observation m).
Proof. unfold is_behind. destruct (upstream_head_observation m); [by eexists|done]. Qed.

(** A streak of refreshes that all find the upstream ahead keeps the time it
    began with. *)
Lemma streak_kept h m b :
  behind_since (stall_clock m) = Some b -> refreshes_behind m h ->
  behind_since (stall_clock (record_all h m)) = Some b.
Proof.
  revert m. induction h as [|[[now ms] r] h IH]; intros m Hb Hr; [done|].
  apply refreshes_behind_cons in Hr as [Hnow Hr]. cbn [record_all]. apply IH; [|done].
  rewrite behind_since_step. destruct r; try done. rewrite Hnow by done.
  destruct (behind_observed m) as [o ->]; [by apply Hnow|]. by rewrite Hb.
Qed.

(** Where such a time comes from. *)
Lemma streak_began h m b :
  behind_since (stall_clock m) = None -> behind_since (stall_clock (record_all h m)) = Some b ->
  exists h1 t ms h2 o, h = h1 ++ (t, ms, RecRefresh) :: h2 /\
    is_behind (record_all h1 m) = true /\
    upstream_head_observation (record_all h1 m) = Some o /\ number_observed_at o = b /\
    refreshes_behind (record_all (h1 ++ [(t, ms, RecRefresh)]) m) h2.
Proof.
  intros Hm. induction h as [|[[now ms] r] h IH] using rev_ind; [intros H; simpl in H; congruence|].
  rewrite record_all_app. cbn [record_all]. rewrite behind_since_step.
  assert (behind_since (stall_clock (record_all h m)) = Some b ->
    (is_refresh r = true -> is_behind (record_all h m) = true) ->
    exists h1 t ms0 h2 o, h ++ [(now, ms, r)] = h1 ++ (t, ms0, RecRefresh) :: h2 /\
      is_behind (record_all h1 m) = true /\ upstream_head_observation (record_all h1 m) = Some o /\
      number_observed_at o = b /\
      refreshes_behind (record_all (h1 ++ [(t, ms0, RecRefresh)]) m) h2) as Hold.
  { intros Hb Hr. destruct (IH Hb) as (h1 & t & w & h2 & o & -> & H1 & H2 & H3 & H4).
    exists h1, t, w, (h2 ++ [(now, ms, r)]), o. split_and!; try done; [by rewrite <- app_assoc|].
    intros ha t' w' hb E. destruct hb as [|x hb _] using rev_ind.
    - apply app_inj_tail in E as [<- [= <- <- ->]].
      rewrite <- record_all_app, <- app_assoc. simpl. by apply Hr.
    - rewrite app_comm_cons, app_assoc in E. apply app_inj_tail in E as [-> _]. by eapply H4. }
  destruct (is_refresh r) eqn:Er; [|intros Hb; apply Hold; [by destruct r|done]].
  destruct r; try done. destruct (is_behind (record_all h m)) eqn:Hbh; [|done].
  destruct (upstream_head_observation (record_all h m)) as [o|] eqn:Eo; [|done]. intros [= Hb].
  destruct (behind_since (stall_clock (record_all h m))) as [b0|] eqn:Eb; simpl in Hb.
  - apply Hold; [by subst|done].
  - exists h, now, ms, [], o. split_and!; try done. by intros [|? ?] ? ? ? ?.
Qed.

Lemma alarm_level now ms m :
  level (record_step now ms RecRefresh m) STALL_ALARM =
  (if (stall_decision now m).1.2 then 1 else 0)%Z.
Proof.
  cbn. unfold refresh_derived_levels, refresh_stall_alarm.
  destruct (stall_decision now m) as [[c s] q]. cbn [fst snd].
  case_match; unfold with_alarm, level; simpl; by rewrite lookup_insert_eq.
Qed.

(** C14: The stall alarm says exactly what it means. When a refresh raises it,
    the upstream is ahead of the last stored block, the process has run and
    nothing has committed for the whole stall bound, and for that long every
    refresh has found the upstream ahead, by an observation made that long
    ago; conversely, once the process has run that long, nothing has committed
    for that long, and every refresh since one made that long ago finds the
    upstream ahead, the alarm is raised. *)
Theorem stall_alarm_exact (h : list (N * N * Recording)) (start start_ms bound now ms : N)
    (Htimed : timed start h) (Hnow : (end_time start h <= now)%N) (Hbound : (0 < bound)%N) :
  let m0 := with_stall_alarm start start_ms bound in
  let m := record_all h m0 in
  let quiet := (start + bound <= now)%N /\ (forall t, t ∈ commits_of h -> (t + bound <= now)%N) in
  (level (record_step now ms RecRefresh m) STALL_ALARM = 1%Z ->
     is_behind m = true /\ quiet /\
     ((exists o, upstream_head_observation m = Some o /\ (number_observed_at o + bound <= now)%N) \/
      (exists h1 t ms1 h2 o, h = h1 ++ (t, ms1, RecRefresh) :: h2 /\
        is_behind (record_all h1 m0) = true /\ upstream_head_observation (record_all h1 m0) = Some o /\
        (number_observed_at o + bound <= now)%N /\
        refreshes_behind (record_all (h1 ++ [(t, ms1, RecRefresh)]) m0) h2))) /\
  (is_behind m = true -> quiet ->
     (exists h1 t ms1 h2, h = h1 ++ (t, ms1, RecRefresh) :: h2 /\ (t + bound <= now)%N /\
        is_behind (record_all h1 m0) = true /\
        refreshes_behind (record_all (h1 ++ [(t, ms1, RecRefresh)]) m0) h2) ->
     level (record_step now ms RecRefresh m) STALL_ALARM = 1%Z).
Proof.
  intros m0 m quiet.
  assert (clock_past m0 start) as Hp0 by (split_and!; done || (simpl; lia)).
  destruct (record_all_config h m0) as [Ea Es].
  destruct (commits_timed start h Htimed) as [Hge Hlast].
  assert (last_commit_at (stall_clock m) = last (commits_of h)) as Elc.
  { subst m. rewrite last_commit_exact. by destruct (last (commits_of h)). }
  assert (quiet <-> (default start (last (commits_of h)) + bound <= now)%N) as Hquiet.
  { subst quiet. split.
    - intros [H1 H2]. destruct (last (commits_of h)) as [l|] eqn:El; simpl; [|done].
      apply H2. by apply last_Some_elem_of.
    - intros Hq. split.
      + destruct (last (commits_of h)) as [l|] eqn:El; simpl in Hq; [|done].
        apply last_Some_elem_of in El. rewrite Forall_forall in Hge. specialize (Hge l El). lia.
      + intros t Ht. destruct (Hlast t Ht) as (l & El & ?). rewrite El in Hq. simpl in Hq. lia. }
  rewrite alarm_level. unfold stall_decision. fold m in Ea, Es. rewrite Ea, Es, Elc.
  change (stall_after m0) with bound. change (process_started_at m0) with start.
  split.
  - destruct (upstream_head_observation m) as [o|] eqn:Eo; [|done].
    destruct (is_behind m) eqn:Eb; [|done]. simpl.
    destruct (N.leb_spec bound (now - N.max (default start (last (commits_of h)))
      (default (number_observed_at o) (behind_since (stall_clock m))))) as [Hle|]; [|done].
    intros _. split; [done|]. split; [apply Hquiet; lia|].
    destruct (behind_since (stall_clock m)) as [b|] eqn:Ebs; simpl in Hle.
    + right. destruct (streak_began h m0 b) as (h1 & t & w & h2 & o1 & ? & ? & ? & ? & ?); [done|done|].
      exists h1, t, w, h2, o1. split_and!; try done. lia.
    + left. exists o. split; [done|]. lia.
  - intros Eb Hq (h1 & t & w & h2 & Eh & Ht & Eb1 & Hr). apply Hquiet in Hq.
    destruct (behind_observed m Eb) as [o Eo]. rewrite Eo, Eb. simpl.
    assert (exists b, behind_since (stall_clock m) = Some b /\ (b <= t)%N) as (b & -> & Hb).
    { rewrite Eh in Htimed. apply timed_app in Htimed as [Ht1 [Hle Ht2]].
      pose proof (clock_past_all h1 m0 start Hp0 Ht1) as Hp1.
      pose proof (clock_past_step t w RecRefresh _ _ Hp1 Hle) as (_ & _ & _ & Hb).
      destruct (behind_observed _ Eb1) as [o1 Eo1].
      pose proof (behind_since_step t w RecRefresh (record_all h1 m0)) as Es1. rewrite Eb1, Eo1 in Es1.
      eexists. split; [|by apply Hb, Es1]. subst m. rewrite Eh, record_all_app. cbn [record_all].
      apply streak_kept; [done|]. by rewrite record_all_app in Hr. }
    simpl. by rewrite (proj2 (N.leb_le _ _)) by lia.
Qed.

(** ** One capture per flip *)

(** Captures alternate, and the flag says which came last. *)
Inductive alternating : list Capture -> bool -> Prop :=
  | alternating_nil : alternating [] false
  | alternating_raise l u c f s q p e :
      alternating l false -> alternating (l ++ [StallRaised u c f s q p e]) true
  | alternating_clear l c : alternating l true -> alternating (l ++ [StallCleared c]) false.

Definition alarm_ok (m : Metrics) : Prop :=
  alternating (captures m) (stall_active m) /\
  level m STALL_ALARM = (if stall_active m then 1 else 0)%Z.

Lemma alarm_ok_step now ms r m : alarm_ok m -> alarm_ok (record_step now ms r m).
Proof.
  intros [Ha Hl]. destruct (is_refresh r) eqn:Er.
  - destruct r; try done. unfold alarm_ok. rewrite alarm_level. cbn.
    unfold refresh_derived_levels, refresh_stall_alarm.
    destruct (stall_decision now m) as [[c stalled] q]. cbn [fst snd].
    set (m1 := set_level STALL_ALARM _ _).
    assert (stall_active m1 = stall_active m /\ captures m1 = captures m) as [E1 E2] by done.
    rewrite E1. destruct (stall_active m) eqn:Es, stalled; cbn [Bool.eqb]; (split; [|first [by rewrite E1|by rewrite E1, Es|done]]).
    + change (alternating (captures m) (stall_active m)). by rewrite Es.
    + by constructor.
    + by constructor.
    + change (alternating (captures m) (stall_active m)). by rewrite Es.
  - destruct (record_step_alarm now ms r m Er) as [H1 H2 H3 _ _ _].
    split; by rewrite H1, ?H2, ?H3.
Qed.

(** The alarm's level, its flag and its captures stay in step over any
    history, and a refresh logs exactly when the level flips. *)
Theorem captures_are_edges (h : list (N * N * Recording)) (start start_ms bound now ms : N) :
  let m := record_all h (with_stall_alarm start start_ms bound) in
  let m' := record_step now ms RecRefresh m in
  alternating (captures m) (stall_active m) /\
  level m STALL_ALARM = (if stall_active m then 1 else 0)%Z /\
  (length (captures m') = length (captures m) <-> level m' STALL_ALARM = level m STALL_ALARM).
Proof.
  intros m m'. assert (alarm_ok m) as Hm.
  { subst m. assert (alarm_ok (with_stall_alarm start start_ms bound)) as H0 by (split; [constructor|done]).
    revert H0. generalize (with_stall_alarm start start_ms bound). induction h as [|[[t w] r] h IH]; [done|].
    intros m Hm. apply IH. by apply alarm_ok_step. }
  destruct Hm as [Ha Hl]. split_and!; [done..|]. rewrite Hl. subst m'. rewrite alarm_level. cbn.
  unfold refresh_derived_levels, refresh_stall_alarm.
  destruct (stall_decision now m) as [[c stalled] q]. cbn [fst snd].
  set (m1 := set_level STALL_ALARM _ _).
  assert (stall_active m1 = stall_active m /\ captures m1 = captures m) as [E1 E2] by done.
  rewrite E1. destruct (stall_active m), stalled; simpl; rewrite ?E2, ?length_app; simpl; split; intros; lia.
Qed.

(** ** The series are the registered ones *)

(** What a recording adds to which counter. *)
Definition increments (r : Recording) : list (string * string * N) :=
  match r with
  | RecEffect EIntegrityViolation => [(INTEGRITY_VIOLATIONS, ""%string, 1%N)]
  | RecEffect ECommit => [(COMMITS, ""%string, 1%N)]
  | RecEffect (EForceAdvance _) => [(FORCE_ADVANCES, ""%string, 1%N)]
  | RecEffect EWatermarkRegression => [(WATERMARK_REGRESSIONS, ""%string, 1%N)]
  | RecEffect (ESessionRestart kind) => [(SESSION_RESTARTS, as_label kind, 1%N)]
  | RecEffect EForkRebase => [(FORK_REBASES, ""%string, 1%N)]
  | RecRequest kind calls =>
      [(UPSTREAM_REQUESTS, as_label kind, 1%N); (UPSTREAM_CALLS, ""%string, N.of_nat calls)]
  | RecError class => [(UPSTREAM_ERRORS, as_label class, 1%N)]
  | RecRetry class => [(UPSTREAM_RETRIES, as_label class, 1%N)]
  | RecEnrichment reason => [(ENRICHMENT_RETRIES, as_label reason, 1%N)]
  | RecExhausted => [(RETRY_EXHAUSTIONS, ""%string, 1%N)]
  | RecQuery class => [(QUERIES, compat_label class, 1%N); (QUERY_OUTCOMES, as_label class, 1%N)]
  | RecTruncation cause => [(TRUNCATIONS, as_label cause, 1%N)]
  | _ => []
  end.

Definition add_increments (l : list (string * string * N)) (m : Metrics) : Metrics :=
  fold_left (fun m '(name, label, v) => inc_by name label v m) l m.

Lemma add_increments_counts l m m' :
  counts m = counts m' -> counts (add_increments l m) = counts (add_increments l m').
Proof.
  revert m m'. induction l as [|[[n lb] v] l IH]; intros m m' E; [done|]. apply IH.
  unfold inc_by, count. simpl. by rewrite E.
Qed.

Lemma record_step_counts now ms r m :
  counts (record_step now ms r m) = counts (add_increments (increments r) m).
Proof.
  destruct r as [e|n|n|kind calls|c|c|c| |c|c| | |]; [destruct e|..]; try done; cbn.
  1: unfold observe_upstream_progress; destruct (upstream_head_observation m); [by case_match|done].
  1: unfold record_commit, set_once; by case_match.
  1: unfold record_first_acceptance, set_once; by case_match.
  1: unfold record_shutdown_start, set_once; by case_match.
  unfold refresh_derived_levels, refresh_stall_alarm.
  destruct (stall_decision now m) as [[c s] q]. by case_match.
Qed.

Lemma preset_in {A} `{ClosedSetLaws A} name (a : A) : (name, as_label a) ∈ preset (A := A) name.
Proof. unfold preset. apply (list_elem_of_fmap_2 (fun a => (name, as_label a))), all_complete. Qed.

Lemma increments_registered r n l v : (n, l, v) ∈ increments r -> (n, l) ∈ initial_series.
Proof.
  unfold initial_series. rewrite !elem_of_app.
  destruct r as [e|k|k|kind calls|c|c|c| |c|c| | |]; [destruct e|..]; cbn [increments];
    try (by intros ?%not_elem_of_nil);
    repeat (rewrite elem_of_cons); intros Hin; destruct_or?; simplify_eq;
    try (by apply not_elem_of_nil in Hin);
    try (left; unfold unlabelled; cbn; set_solver);
    try (do 8 try right; apply preset_in).
  all: try (first [right; right; left; apply preset_in
    |right; right; right; left; apply preset_in
    |right; right; right; right; left; apply preset_in
    |right; right; right; right; right; left; apply preset_in
    |right; right; right; right; right; right; left; apply preset_in
    |right; right; right; right; right; right; right; left; apply preset_in]).
  right; left. destruct c; set_solver.
Qed.

(** How much a history adds to a series. *)
Definition total (key : string * string) (h : list (N * N * Recording)) : N :=
  fold_right (fun '(_, _, r) acc =>
    (fold_right (fun '(n, l, v) a => if bool_decide ((n, l) = key) then v + a else a) 0 (increments r) + acc)%N)
    0%N h.

Definition added (key : string * string) (l : list (string * string * N)) : N :=
  fold_right (fun '(n, lb, v) a => if bool_decide ((n, lb) = key) then v + a else a)%N 0%N l.

Lemma add_increments_exact l m n lb :
  (count m n lb + added (n, lb) l <= 2 ^ 53)%N ->
  count (add_increments l m) n lb = (count m n lb + added (n, lb) l)%N.
Proof.
  revert m. induction l as [|[[n1 l1] v] l IH]; intros m Hle; simpl in *; [lia|].
  destruct (decide ((n1, l1) = (n, lb))) as [Hk|Hk].
  - rewrite bool_decide_eq_true_2 in * by done. injection Hk as -> ->.
    assert (count (inc_by n lb v m) n lb = (count m n lb + v)%N) as Ec.
    { unfold count at 1, inc_by. cbn. rewrite lookup_insert_eq. cbn.
      rewrite (round53_nat_small v), round53_nat_small; lia. }
    rewrite IH; rewrite Ec; lia.
  - rewrite bool_decide_eq_false_2 in * by done.
    assert (count (inc_by n1 l1 v m) n lb = count m n lb) as Ec.
    { unfold count at 1, inc_by. cbn. by rewrite lookup_insert_ne. }
    rewrite IH; rewrite Ec; lia.
Qed.

Lemma add_increments_dom (S : list (string * string)) l m :
  dom (counts m) = list_to_set S -> (forall n lb v, (n, lb, v) ∈ l -> (n, lb) ∈ S) ->
  dom (counts (add_increments l m)) = list_to_set S.
Proof.
  revert m. induction l as [|[[n lb] v] l IH]; intros m Hd Hin; [done|].
  cbn [add_increments fold_left]. apply IH.
  - unfold inc_by. cbn [counts with_counts]. rewrite dom_insert_L, Hd.
    assert ((n, lb) ∈ S) by (eapply Hin; by left). set_solver.
  - intros n' lb' v' H. eapply Hin. by right.
Qed.

Definition zero_series (l : list (string * string)) : gmap (string * string) N :=
  list_to_map ((fun s => (s, 0%N)) <$> l).

Lemma zero_series_dom l : dom (zero_series l) = list_to_set l.
Proof. unfold zero_series. rewrite dom_list_to_map_L, <- list_fmap_compose. f_equal. apply list_fmap_id. Qed.

Lemma zero_series_lookup l k : default 0%N (zero_series l !! k) = 0%N.
Proof.
  destruct (zero_series l !! k) as [v|] eqn:E; [|done].
  apply elem_of_list_to_map_2, list_elem_of_fmap in E as (s & [= _ ->] & _). done.
Qed.

Lemma count_counts m m' n lb : counts m = counts m' -> count m n lb = count m' n lb.
Proof. unfold count. by intros ->. Qed.

(** The counters count. Over any history a series holds exactly what the
    recordings added to it, as long as that is at most 2^53; and no recording
    ever creates a series: the series of a scrape are those registered at
    construction, one for every label of every closed set (OB-8). *)
Theorem counters_exact (h : list (N * N * Recording)) (start start_ms bound : N) :
  let m := record_all h (with_stall_alarm start start_ms bound) in
  dom (counts m) = list_to_set initial_series /\
  (forall n l, (total (n, l) h <= 2 ^ 53)%N -> count m n l = total (n, l) h).
Proof.
  assert (forall m, dom (counts m) = list_to_set initial_series ->
    dom (counts (record_all h m)) = list_to_set initial_series /\
    (forall n l, (count m n l + total (n, l) h <= 2 ^ 53)%N ->
      count (record_all h m) n l = (count m n l + total (n, l) h)%N)) as Hall.
  { induction h as [|[[now ms] r] h IH]; intros m Hd.
    - split; [done|]. intros n l _. simpl. lia.
    - cbn [record_all]. pose proof (record_step_counts now ms r m) as Ec.
      assert (dom (counts (record_step now ms r m)) = list_to_set initial_series) as Hd1.
      { rewrite Ec. apply add_increments_dom; [done|]. apply increments_registered. }
      destruct (IH _ Hd1) as [H1 H2]. split; [exact H1|]. intros n l Hle.
      cbn [total fold_right] in Hle |- *. fold (total (n, l) h) in Hle |- *.
      change (fold_right _ 0%N (increments r)) with (added (n, l) (increments r)) in Hle |- *.
      assert (count (record_step now ms r m) n l = (count m n l + added (n, l) (increments r))%N) as E.
      { rewrite (count_counts _ _ _ _ Ec). apply add_increments_exact. lia. }
      rewrite H2; rewrite E; lia. }
  intros m. subst m. destruct (Hall (with_stall_alarm start start_ms bound)) as [H1 H2].
  { apply (zero_series_dom initial_series). }
  split; [exact H1|]. intros n l Hle.
  assert (count (with_stall_alarm start start_ms bound) n l = 0%N) as E0 by apply (zero_series_lookup initial_series).
  rewrite H2; rewrite E0; lia.
Qed.
End recordings.

(** ** The state levels *)

Definition state_level (name : string) (l : Levels) : option Z :=
  if bool_decide (name = LAST_BLOCK) then Some (as_f64 (lv_last_block l))
  else if bool_decide (name = FIRST_BLOCK) then Some (as_f64 (lv_first_block l))
  else if bool_decide (name = FINALIZED_BLOCK) then Some (as_f64 (lv_finalized_block l))
  else if bool_decide (name = STORED_BLOCKS) then Some (as_f64 (N.of_nat (lv_stored_blocks l)))
  else if bool_decide (name = WINDOW_EXCESS) then Some (as_f64 (N.of_nat (lv_window_excess l)))
  else if bool_decide (name = OVER_WINDOW) then Some (if (0 <? lv_window_excess l)%nat then 1 else 0)%Z
  else None.

Lemma set_levels_state now_ms l m name v :
  state_level name l = Some v -> level (set_levels now_ms l m) name = v.
Proof.
  unfold state_level. repeat case_bool_decide; intros [= <-]; subst.
  all: unfold set_levels, set_window_excess, set_stored_blocks, set_finalized_block,
    set_last_block_timestamp, set_last_block, set_first_block;
    repeat rewrite level_set_other by done; by rewrite level_set_same.
Qed.

Definition is_update (r : Recording) : bool :=
  match r with RecEffect (EUpdate _) => true | _ => false end.

Lemma record_step_state display now ms r m name l v :
  is_update r = false -> state_level name l = Some v ->
  level (record_step display now ms r m) name = level m name.
Proof.
  intros Hr Hn.
  assert (name ∈ [LAST_BLOCK; FIRST_BLOCK; FINALIZED_BLOCK; STORED_BLOCKS; WINDOW_EXCESS; OVER_WINDOW]) as Hin
    by (unfold state_level in Hn; repeat case_bool_decide; try done; subst; set_solver).
  clear Hn. repeat (apply elem_of_cons in Hin as [->|Hin]; [|try by apply not_elem_of_nil in Hin]).
  all: destruct r as [e|n|n|kind calls|c|c|c| |c|c| | |]; [destruct e|..]; try done; cbn [record_step record_effect].
  all: try (unfold refresh_derived_levels, refresh_stall_alarm; destruct (stall_decision now m) as [[c s] q];
    case_match; [by rewrite level_set_other|]; unfold with_alarm, level, set_level; simpl; by rewrite lookup_insert_ne).
  all: frames.
Qed.

(** The gauges show the buffer: whatever is recorded after it, the state
    levels read back the last published update, and the over-window flag is
    up exactly when the excess is positive (OB-1, OB-6); and the alarm's
    comparison never takes the upstream to be ahead of a buffer it is not
    ahead of. *)
Theorem gauges_show_last_update display (h1 h2 : list (N * N * Recording)) (now ms : N) (l : Levels) (m : Metrics)
    (Hlast : Forall (fun '(_, _, r) => is_update r = false) h2) :
  let m' := record_all display (h1 ++ (now, ms, RecEffect (EUpdate l)) :: h2) m in
  (forall name v, state_level name l = Some v -> level m' name = v) /\
  (is_behind m' = true -> exists o, upstream_head_observation m' = Some o /\
     (lv_last_block l < observed_number o)%N) /\
  (forall o, upstream_head_observation m' = Some o -> (observed_number o <= 2 ^ 53)%N ->
     (lv_last_block l < observed_number o)%N -> is_behind m' = true).
Proof.
  intros m'.
  assert (forall name v, state_level name l = Some v -> level m' name = v) as Hs.
  { intros name v Hv. subst m'. rewrite record_all_app. cbn [record_all].
    assert (level (record_step display now ms (RecEffect (EUpdate l)) (record_all display h1 m)) name = v) as H1
      by by apply set_levels_state.
    revert H1. generalize (record_step display now ms (RecEffect (EUpdate l)) (record_all display h1 m)).
    induction Hlast as [|[[t w] r] h2 Hr _ IH]; intros m1 H1; [done|]. cbn [record_all]. apply IH.
    by rewrite (record_step_state display t w r m1 name l v). }
  split; [exact Hs|]. unfold is_behind. rewrite (Hs LAST_BLOCK (as_f64 (lv_last_block l)) eq_refl).
  split.
  - destruct (upstream_head_observation m') as [o|]; [|done]. intros Hlt%Z.ltb_lt. exists o.
    split; [done|]. by apply as_f64_lt.
  - intros o -> Hsmall Hlt. apply Z.ltb_lt. rewrite !as_f64_small by lia. lia.
Qed.

(** ** The pacing of the head reads *)

(** The head reads are paced to stay visible: one interval and one timeout
    after any explicit read the view it left, with whatever has been recorded
    since, is still fresh, so a read that completes in time renews it before
    it lapses; this holds for every stall bound above two milliseconds, and
    for no other. *)
Theorem refresh_keeps_fresh display (h1 h2 : list (N * N * Recording)) (te ms k now : N) (m0 : Metrics)
    (Htimed : timed te h2)
    (Hnow : (now <= te + upstream_head_refresh_interval m0 + upstream_head_refresh_timeout m0)%N)
    (Hbound : (2000000 < stall_after m0)%N) :
  (upstream_head_refresh_interval m0 + upstream_head_refresh_timeout m0 < stall_after m0)%N /\
  (exists n, fresh_upstream_head now
     (record_all display (h1 ++ (te, ms, RecUpstreamHead k) :: h2) m0) = Some n) /\
  (forall bound, (bound <= 2000000)%N -> forall m, stall_after m = bound ->
     (bound <= upstream_head_refresh_interval m + upstream_head_refresh_timeout m)%N).
Proof.
  assert (upstream_head_refresh_interval m0 + upstream_head_refresh_timeout m0 < stall_after m0)%N as Hlt.
  { unfold upstream_head_refresh_timeout, upstream_head_refresh_interval.
    set (i := N.max (stall_after m0 / 2) 1000000).
    assert (2 * (stall_after m0 / 2) <= stall_after m0)%N by apply N.Div0.mul_div_le.
    assert (4 * (i / 4) <= i)%N by apply N.Div0.mul_div_le.
    subst i. revert H H0. generalize (N.max (stall_after m0 / 2) 1000000 / 4)%N as b.
    generalize (stall_after m0 / 2)%N as a. lia. }
  split; [exact Hlt|]. split.
  - destruct (last_head_split h2) as [Hno|(ha & t & w & n & hb & -> & Hno)].
    + rewrite fresh_after_head, (proj2 (N.ltb_lt _ _)) by (done || lia). eauto.
    + apply timed_app in Htimed as [Hta [Hle _]]. apply timed_le in Hta.
      replace (h1 ++ (te, ms, RecUpstreamHead k) :: ha ++ (t, w, RecUpstreamHead n) :: hb)
        with ((h1 ++ (te, ms, RecUpstreamHead k) :: ha) ++ (t, w, RecUpstreamHead n) :: hb)
        by by rewrite <- app_assoc.
      rewrite fresh_after_head, (proj2 (N.ltb_lt _ _)) by (done || lia). eauto.
  - intros bound Hb m <-. unfold upstream_head_refresh_timeout, upstream_head_refresh_interval.
    generalize (N.max (stall_after m / 2) 1000000 / 4)%N as b. generalize (stall_after m / 2)%N as a. lia.
Qed.

(** ** The block-time cache *)

(** Both maps have the same keys, and the bound holds. *)
Definition cache_ok (c : BlockTimestampCache) : Prop :=
  dom (cache c) = dom (expiry c) /\ size (cache c) <= Nat.max 1 (max_size c).

Lemma min_by_value_spec l :
  match min_by_value l with
  | Some e => e ∈ l /\ Forall (fun x => e.2 <= x.2)%N l
  | None => l = []
  end.
Proof.
  induction l as [|e l IH]; [done|]. cbn [min_by_value].
  destruct (min_by_value l) as [least|]; [|subst; by repeat constructor].
  destruct IH as [Hin Hall]. destruct (N.leb_spec e.2 least.2).
  - split; [by left|]. constructor; [done|]. eapply Forall_impl; [exact Hall|]. simpl. lia.
  - split; [by right|]. constructor; [lia|done].
Qed.

(** An entry that has not expired. *)
Definition live_entry (now : N) (c : BlockTimestampCache) (k : string) (v : N) : Prop :=
  cache c !! k = Some v /\ exists exp, expiry c !! k = Some exp /\ (now < exp)%N.

(** Setting a height makes it readable until its time to live is over, and
    costs the cache only what has expired and, when what is left still fills
    it, one entry whose timestamp is the least; whatever order the map is
    iterated in. Both maps keep the same keys and the bound holds. *)
Theorem cache_set_exact (order : gmap string N -> list (string * N)) now inserted_at c height ts
    (Horder : forall m, order m ≡ₚ map_to_list m) (Hc : cache_ok c) (Hnow : (now <= inserted_at)%N) :
  let c' := cache_set order now inserted_at c height ts in
  cache_ok c' /\
  (forall t, cache_get t c' height = if (inserted_at + ttl c <? t)%N then None else Some ts) /\
  (forall k, k <> height -> cache c' !! k = cache c !! k /\ expiry c' !! k = expiry c !! k \/
     cache c' !! k = None /\ expiry c' !! k = None) /\
  (forall k v, k <> height -> live_entry now c k v -> cache c' !! k = None ->
     forall k' v', live_entry now c k' v' -> (v <= v')%N).
Proof.
  destruct Hc as [Hdom Hsize]. unfold cache_set.
  set (live := filter (fun '(_, exp) => (now < exp)%N) (expiry c)).
  set (kept := filter (fun '(k, _) => is_Some (expiry c !! k) -> is_Some (live !! k)) (cache c)).
  assert (forall k v, kept !! k = Some v <-> live_entry now c k v) as Hkept.
  { intros k v. unfold kept, live_entry. rewrite map_lookup_filter_Some. split.
    - intros [Hk Hl]. split; [done|].
      assert (k ∈ dom (expiry c)) as Hd by (rewrite <- Hdom; by eapply elem_of_dom_2).
      apply elem_of_dom in Hd. destruct (Hl Hd) as [exp He].
      apply map_lookup_filter_Some in He as [? ?]. by exists exp.
    - intros [Hk (exp & He & Hlt)]. split; [done|]. intros _. exists exp.
      by apply map_lookup_filter_Some. }
  assert (forall k exp, live !! k = Some exp <-> expiry c !! k = Some exp /\ (now < exp)%N) as Hlive
    by (intros; unfold live; by rewrite map_lookup_filter_Some).
  assert (dom kept = dom live) as Hd.
  { apply set_eq. intros k. rewrite !elem_of_dom. split.
    - intros [v Hv%Hkept]. destruct Hv as [_ (exp & He & Hlt)]. exists exp. by apply Hlive.
    - intros [exp [He Hlt]%Hlive].
      assert (k ∈ dom (cache c)) as [v Hv]%elem_of_dom by (rewrite Hdom; by eapply elem_of_dom_2).
      exists v. apply Hkept. split; [done|by exists exp]. }
  assert (forall k, kept !! k = cache c !! k /\ live !! k = expiry c !! k \/ kept !! k = None /\ live !! k = None) as Hsub.
  { intros k. destruct (live !! k) as [exp|] eqn:El.
    - left. pose proof El as [He Hlt]%Hlive. rewrite He. split; [|done].
      assert (k ∈ dom kept) as [v Hv]%elem_of_dom by (rewrite Hd; by eapply elem_of_dom_2).
      rewrite Hv. symmetry. by apply Hkept in Hv as [? _].
    - right. split; [|done]. apply not_elem_of_dom. rewrite Hd. by apply not_elem_of_dom. }
  assert (size kept <= size (cache c)) as Hk1 by (apply map_subseteq_size, map_filter_subseteq).
  (* what is left after the eviction *)
  assert (exists kept' live',
    (if max_size c <=? size kept then
       match min_by_value (order kept) with
       | Some (oldest, _) => (delete oldest kept, delete oldest live)
       | None => (kept, live)
       end
     else (kept, live)) = (kept', live') /\
    dom kept' = dom live' /\ size kept' < Nat.max 1 (max_size c) /\
    (forall k, kept' !! k = kept !! k /\ live' !! k = live !! k \/ kept' !! k = None /\ live' !! k = None) /\
    (forall k v, kept !! k = Some v -> kept' !! k = None ->
       forall k' v', kept !! k' = Some v' -> (v <= v')%N))
    as (kept' & live' & -> & Hd' & Hs' & Hsub' & Hleast).
  { destruct (Nat.leb_spec (max_size c) (size kept)) as [Hfull|Hroom].
    2: { exists kept, live. split_and!; [done|done|lia|auto|]. intros k v H1 H2. congruence. }
    pose proof (min_by_value_spec (order kept)) as Hmin.
    destruct (min_by_value (order kept)) as [[oldest least]|].
    - destruct Hmin as [Hin Hall]. rewrite Horder in Hin. apply elem_of_map_to_list in Hin.
      exists (delete oldest kept), (delete oldest live). split; [done|]. split_and!.
      + by rewrite !dom_delete_L, Hd.
      + rewrite map_size_delete, Hin. assert (size kept <> 0) by (apply map_size_ne_0_lookup; eauto). lia.
      + intros k. destruct (decide (k = oldest)) as [->|].
        * right. by rewrite !lookup_delete_eq.
        * left. by rewrite !lookup_delete_ne.
      + intros k v Hk Hdel k' v' Hk'.
        assert (k = oldest) as -> by (destruct (decide (oldest = k)); [done|by rewrite lookup_delete_ne, Hk in Hdel]).
        assert (v = least) as -> by congruence.
        rewrite Forall_forall in Hall. apply (Hall (k', v')). rewrite Horder. by apply elem_of_map_to_list.
    - assert (size kept = 0) as Hz.
      { rewrite <- length_map_to_list. rewrite <- Horder, Hmin. done. }
      exists kept, live. split_and!; [done|done|lia|auto|]. intros k v H1 H2. congruence. }
  split; [|split_and!].
  - split; cbn [cache expiry max_size].
    + by rewrite !dom_insert_L, Hd'.
    + rewrite map_size_insert. destruct (kept' !! height); unfold id; lia.
  - intros t. unfold cache_get. cbn [cache expiry]. rewrite !lookup_insert_eq. done.
  - intros k Hk. cbn [cache expiry]. rewrite !lookup_insert_ne by done.
    destruct (Hsub' k) as [[-> ->]|[-> ->]]; [|by right]. exact (Hsub k).
  - intros k v Hk Hl Hgone k' v' Hl'. cbn [cache] in Hgone. rewrite lookup_insert_ne in Hgone by done.
    apply (Hleast k v (proj2 (Hkept k v) Hl) Hgone k' v'). by apply Hkept.
Qed.

(** ** Concrete runs *)

Definition no_text (e : AnyError) : string := "".

Lemma fresh_head_exact_witness :
  fresh_upstream_head 90 (record_all no_text
    [(10, 0, RecUpstreamHead 7); (20, 0, RecEffect (EUpstreamProgress 9));
     (50, 0, RecUpstreamHead 8); (60, 0, RecEffect (EUpstreamProgress 11));
     (70, 0, RecEffect (EUpstreamProgress 6))]%N (with_stall_alarm 0 0 41)) = Some 11%N.
Proof.
  apply (fresh_head_exact no_text); [reflexivity|].
  exists [(10, 0, RecUpstreamHead 7); (20, 0, RecEffect (EUpstreamProgress 9))]%N, 50%N, 0%N, 8%N,
    [(60, 0, RecEffect (EUpstreamProgress 11)); (70, 0, RecEffect (EUpstreamProgress 6))]%N.
  split; [reflexivity|]. split; [by repeat constructor|]. split; [by vm_compute|by vm_compute].
Defined.

Definition stall_history : list (N * N * Recording) :=
  [(5, 0, RecEffect (EUpdate (mkLevels 1 1 0 1 1 0))); (6, 0, RecUpstreamHead 3);
   (7, 0, RecEffect ECommit); (8, 0, RecRefresh); (12, 0, RecUpstreamHead 4); (15, 0, RecRefresh)]%N.

Lemma stall_alarm_exact_witness :
  level (record_step no_text 28 0 RecRefresh
    (record_all no_text stall_history (with_stall_alarm 0 0 20))) STALL_ALARM = 1%Z.
Proof.
  destruct (stall_alarm_exact no_text stall_history 0 0 20 28 0) as [_ Hraise];
    [by repeat split|by vm_compute|by vm_compute|].
  apply Hraise.
  - vm_compute; reflexivity.
  - split; [by vm_compute|]. intros t Ht. apply list_elem_of_singleton in Ht as ->. by vm_compute.
  - exists (take 3 stall_history), 8%N, 0%N, (drop 4 stall_history).
    split; [reflexivity|]. split; [by vm_compute|]. split; [vm_compute; reflexivity|].
    intros ha t ms hb E. destruct ha as [|x [|y ha]]; [done| |by destruct ha].
    injection E as <- _. vm_compute. reflexivity.
Defined.

Lemma refresh_keeps_fresh_witness :
  exists n, fresh_upstream_head 37500000000
    (record_all no_text [(0, 0, RecUpstreamHead 5); (3, 0, RecEffect (EUpstreamProgress 6))]%N
      (metrics_new 0 0)) = Some n.
Proof.
  destruct (refresh_keeps_fresh no_text [] [(3, 0, RecEffect (EUpstreamProgress 6))]%N 0 0 5 37500000000
    (metrics_new 0 0)) as (_ & H & _); [by repeat split|by vm_compute|by vm_compute|exact H].
Defined.

Lemma cache_set_exact_witness :
  let c := cache_set map_to_list 0 0 (cache_set map_to_list 0 0 (cache_new 2 100) "5" 50) "6" 60 in
  let c' := cache_set map_to_list 10 10 c "7" 70 in
  cache_get 110 c' "7" = Some 70%N /\ cache_get 20 c' "5" = None /\ cache_get 20 c' "6" = Some 60%N.
Proof.
  intros c c'. destruct (cache_set_exact map_to_list 10 10 c "7" 70) as (_ & Hget & _).
  - done.
  - split; [by vm_compute|]. by apply Nat.leb_le; vm_compute.
  - done.
  - split; [exact (Hget 110%N)|]. split; vm_compute; reflexivity.
Defined.

Lemma gauges_show_last_update_witness :
  level (record_all no_text stall_history (with_stall_alarm 0 0 20)) LAST_BLOCK = 1%Z.
Proof.
  destruct (gauges_show_last_update no_text [] (drop 1 stall_history) 5 0 (mkLevels 1 1 0 1 1 0)
    (with_stall_alarm 0 0 20)) as (H & _); [by repeat constructor|].
  exact (H LAST_BLOCK 1%Z eq_refl).
Defined.
