(* ===== verification/Registry.v ===== *)
(** * Registry: what a scrape shows (data-service-core/src/metrics.rs)

    The registration table, with every family's type, help, label and buckets;
    the observations of the histograms; and the JSON form of the gathered
    families. The prometheus crate's registry and its text encoder are an
    interface: what [gather] returns describes the registered families and the
    values recorded.

    The theorems: the numbers of the JSON form are the values recorded; and a
    scrape shows each registered family once, with the values of the state. *)
From Stdlib Require Import QArith Qround.
From S2P Require Import Prelude Types Chain Service Query Metrics.
Local Open Scope rust_scope.

(** ** The registration table *)

(** [MetricType] of the exposition format. *)
Inductive MetricType : Type := TCounter | TGauge | TSummary | TUntyped | THistogram.

Record Desc := mkDesc {
  desc_type : MetricType;
  desc_name : string;
  desc_help : string;
  desc_labels : list string;
  desc_buckets : list Q
}.

(** The families in the order they are registered. *)
Definition registered_families : list Desc :=
  ([
   mkDesc TGauge "sqd_hotblocks_last_block" "Number of the last stored block" [] [];
   mkDesc TGauge "sqd_hotblocks_last_block_lag_ms" "Lag of the last stored block in ms" [] [];
   mkDesc TGauge "sqd_hotblocks_first_block" "Number of the first stored block" [] [];
   mkDesc TGauge "sqd_hotblocks_finalized_block" "Number of the finalized stored block" [] [];
   mkDesc TGauge "sqd_hotblocks_stored_blocks" "Amount of stored blocks" [] [];
   mkDesc TGauge "sqd_hotblocks_window_excess"
     "Blocks held above the configured window (INV-4)" [] [];
   mkDesc TCounter "sqd_hotblocks_commits_total"
     "Ingestion batches committed to the buffer" [] [];
   mkDesc TGauge "sqd_hotblocks_last_commit_timestamp_ms"
     "Wall clock of the last committed batch in epoch ms, -1 before the first" [] [];
   mkDesc THistogram "sqd_hotblocks_block_lag_ms"
     "Time to process a block from creation to end of processing in ms" []
     [100 # 1; 200 # 1; 500 # 1; 1000 # 1; 2000 # 1; 5000 # 1; 10000 # 1; 15000 # 1; 20000 # 1;
      30000 # 1; 60000 # 1; 300000 # 1; 600000 # 1; 1200000 # 1; 3600000 # 1];
   mkDesc THistogram "sqd_hotblocks_head_detection_gap_ms"
     "Wait before the poll that discovered a new head block in ms" []
     [25 # 1; 50 # 1; 100 # 1; 200 # 1; 300 # 1; 500 # 1; 750 # 1; 1000 # 1; 1500 # 1; 3000 # 1];
   mkDesc THistogram "sqd_hotblocks_head_interval_ms"
     "Observed interval between head block arrivals in ms" []
     [100 # 1; 200 # 1; 300 # 1; 500 # 1; 750 # 1; 1000 # 1; 1300 # 1; 2000 # 1; 2600 # 1;
      3000 # 1; 4000 # 1; 5000 # 1; 6000 # 1; 8000 # 1; 10000 # 1; 12000 # 1; 13000 # 1;
      16000 # 1; 20000 # 1; 24000 # 1; 36000 # 1; 60000 # 1];
   mkDesc THistogram "sqd_hotblocks_processing_time_ms"
     "Time taken to process a block in milliseconds" []
     [1 # 100; 1 # 20; 1 # 10; 1 # 4; 1 # 2; 1 # 1; 2 # 1; 5 # 1; 10 # 1; 20 # 1; 50 # 1;
      100 # 1; 200 # 1; 500 # 1; 1000 # 1];
   mkDesc TCounter "sqd_hotblocks_queries_total" "Total number of queries by type" ["type"] [];
   mkDesc TCounter "sqd_hotblocks_query_outcomes_total"
     "Query outcomes by class (OB-5)" ["class"] [];
   mkDesc THistogram "sqd_hotblocks_query_duration_ms"
     "Time to a query verdict in milliseconds, by class" ["class"]
     [1 # 2; 1 # 1; 5 # 1; 10 # 1; 25 # 1; 50 # 1; 100 # 1; 250 # 1; 500 # 1; 1000 # 1; 2500 # 1;
      5000 # 1; 10000 # 1; 30000 # 1; 60000 # 1];
   mkDesc TCounter "sqd_hotblocks_response_truncations_total"
     "Responses that ended at a record boundary before their range, by cause (RP-12)" ["cause"]
     [];
   mkDesc TGauge "sqd_hotblocks_upstream_head"
     "Upstream head height from the last read or committed source progress" [] [];
   mkDesc TGauge "sqd_hotblocks_upstream_head_timestamp_ms"
     "When the upstream head was last read successfully, epoch ms, -1 if never" [] [];
   mkDesc TGauge "sqd_hotblocks_upstream_finalized_head"
     "Upstream finalized height as last observed" [] [];
   mkDesc TGauge "sqd_hotblocks_upstream_finalized_head_timestamp_ms"
     "When the upstream finalized head was last observed, epoch ms, -1 if never" [] [];
   mkDesc TCounter "sqd_hotblocks_upstream_requests_total"
     "Upstream JSON-RPC round trips by shape" ["kind"] [];
   mkDesc TCounter "sqd_hotblocks_upstream_calls_total"
     "Upstream JSON-RPC calls submitted, counting batch items individually" [] [];
   mkDesc TCounter "sqd_hotblocks_upstream_errors_total"
     "Upstream failures by class" ["class"] [];
   mkDesc TCounter "sqd_hotblocks_upstream_retries_total"
     "Upstream retries by the class that provoked them" ["class"] [];
   mkDesc TGauge "sqd_hotblocks_over_window"
     "1 while the buffer is above its window bound (OB-6)" [] [];
   mkDesc TCounter "sqd_hotblocks_force_advances_total"
     "Finalized-head force advances under auto-adjust (WP-24)" [] [];
   mkDesc TGauge "sqd_hotblocks_force_advanced_past"
     "Height the last force advance moved the finalized head past, -1 if never" [] [];
   mkDesc TCounter "sqd_hotblocks_integrity_violations_total"
     "Batches rejected whole as integrity violations (WP-5)" [] [];
   mkDesc TCounter "sqd_hotblocks_session_restarts_total"
     "Ingestion session restarts by cause (WP-9)" ["cause"] [];
   mkDesc TCounter "sqd_hotblocks_enrichment_retries_total"
     "Block enrichment re-acquisitions by reason (FM-16 / WP-11.4)" ["reason"] [];
   mkDesc TCounter "sqd_hotblocks_acquisition_retry_exhaustions_total"
     "Blocks that exhausted their whole-block re-acquisition budget (WP-11.3)" [] [];
   mkDesc TCounter "sqd_hotblocks_fork_rebases_total"
     "Fork rebases applied to the buffer (T6)" [] [];
   mkDesc TCounter "sqd_hotblocks_watermark_regressions_total"
     "Re-seeds opening an epoch below the previous finalized head (WP-20)" [] [];
   mkDesc TGauge "sqd_hotblocks_terminal_state"
     "1 once ingestion has reached the FM-30 terminal state" [] [];
   mkDesc TGauge "sqd_hotblocks_stall_alarm"
     "1 while the upstream head is ahead and nothing has committed for P-STALL-ALARM (LIV-2)" []
     [];
   mkDesc TGauge "sqd_hotblocks_process_start_timestamp_ms" "Process start, epoch ms" [] [];
   mkDesc TGauge "sqd_hotblocks_first_acceptance_timestamp_ms"
     "First HTTP request served, epoch ms, -1 before it" [] [];
   mkDesc TGauge "sqd_hotblocks_first_commit_timestamp_ms"
     "First committed batch, epoch ms, -1 before it" [] [];
   mkDesc TGauge "sqd_hotblocks_shutdown_start_timestamp_ms"
     "Start of graceful shutdown, epoch ms, -1 before it" [] []
   ])%string.

(** ** Histograms *)

(** An observation: the family, its label, and the value in milliseconds. *)
Definition Observation : Type := string * string * Q.

Definition BLOCK_LAG : string := "sqd_hotblocks_block_lag_ms".
Definition DETECTION_GAP : string := "sqd_hotblocks_head_detection_gap_ms".
Definition HEAD_INTERVAL : string := "sqd_hotblocks_head_interval_ms".
Definition PROCESSING_TIME : string := "sqd_hotblocks_processing_time_ms".
Definition QUERY_DURATION : string := "sqd_hotblocks_query_duration_ms".

(** A duration in nanoseconds as fractional milliseconds. *)
Definition as_millis (nanos : N) : Q := (Z.of_N nanos # 1000000).

Definition observe_block_lag (block_timestamp_ms observed_at_ms : N) : list Observation :=
  if (block_timestamp_ms =? 0)%N then []
  else [(BLOCK_LAG, ""%string,
         inject_Z (round53 (as_f64 observed_at_ms - as_f64 block_timestamp_ms)))].
Definition observe_head_detection_gap (gap : N) : list Observation :=
  [(DETECTION_GAP, ""%string, as_millis gap)].
Definition observe_head_interval (interval : N) : list Observation :=
  [(HEAD_INTERVAL, ""%string, as_millis interval)].
Definition track_processing_time (elapsed : N) : list Observation :=
  [(PROCESSING_TIME, ""%string, as_millis elapsed)].
(** The histogram half of [record_query]. *)
Definition observe_query (class : QueryClass) (elapsed : N) : list Observation :=
  [(QUERY_DURATION, as_label class, as_millis elapsed)].

(** ** Numbers in JSON *)

(** An [f64]: finite ones are rationals. *)
Inductive F64 : Type :=
  | Finite (q : Q)
  | Infinite (negative : bool)
  | NotANumber.

(** The [serde_json::Value]s that are built. *)
Inductive JsonValue : Type :=
  | JNull
  | JU64 (n : N)
  | JI64 (z : Z)
  | JF64 (q : Q)
  | JString (s : string).

(** [value.fract() == 0.0]. *)
Definition is_integer (q : Q) : bool := Qeq_bool (inject_Z (Qfloor q)) q.

(** [u64::MAX as f64] is 2^64 and [i64::MAX as f64] is 2^63; a cast saturates. *)
Definition json_number (value : F64) : JsonValue :=
  match value with
  | Finite q =>
      if is_integer q && Qle_bool 0 q && Qle_bool q (inject_Z (2 ^ 64)) then
        JU64 (N.min u64_max (Z.to_N (Qfloor q)))
      else if is_integer q && Qle_bool (inject_Z (- 2 ^ 63)) q && Qle_bool q (inject_Z (2 ^ 63))
      then
        JI64 (Z.min (2 ^ 63 - 1) (Qfloor q))
      else JF64 q
  | _ => JNull
  end.

(** ** Gathered families *)

Record LabelPair := mkLabelPair { lp_name : string; lp_value : string }.
Record Bucket := mkBucket { upper_bound : F64; cumulative_count : N }.
Record Histogram := mkHistogram { h_bucket : list Bucket; h_sample_count : N; h_sample_sum : F64 }.
Record Quantile := mkQuantile { quantile : F64; quantile_value : F64 }.
Record Summary := mkSummary { s_quantile : list Quantile; s_sample_count : N; s_sample_sum : F64 }.

Record Metric := mkMetric {
  metric_label : list LabelPair;
  metric_gauge : option F64;
  metric_counter : option F64;
  metric_histogram : option Histogram;
  metric_summary : option Summary;
  metric_untyped : option F64
}.

Record MetricFamily := mkMetricFamily {
  family_name : string;
  family_help : string;
  family_type : MetricType;
  family_metric : list Metric
}.

(** A [serde_json::Map] keeps insertion order; an insertion under a key it
    holds replaces the value in place. *)
Definition JsonMap : Type := list (string * JsonValue).

Fixpoint map_insert (k : string) (v : JsonValue) (m : JsonMap) : JsonMap :=
  match m with
  | [] => [(k, v)]
  | (k', v') :: m => if bool_decide (k = k') then (k, v) :: m else (k', v') :: map_insert k v m
  end.

Record JsonMetricValue := mkJsonMetricValue {
  jv_value : JsonValue;
  jv_labels : JsonMap;
  jv_metric_name : option string
}.

Record JsonMetricFamily := mkJsonMetricFamily {
  jf_help : string;
  jf_name : string;
  jf_metric_type : string;
  jf_values : list JsonMetricValue;
  jf_aggregator : string
}.

Definition labels (metric : Metric) : JsonMap :=
  foldl (fun m label => map_insert (lp_name label) (JString (lp_value label)) m) []
    (metric_label metric).

Definition sample : JsonValue -> JsonMap -> option string -> JsonMetricValue := mkJsonMetricValue.

Definition is_infinite (f : F64) : bool := match f with Infinite _ => true | _ => false end.

Definition plus_inf : JsonValue := JString "+Inf".

Definition bucket_sample (name : string) (metric : Metric) (bucket : Bucket) : JsonMetricValue :=
  sample (JU64 (cumulative_count bucket))
    (map_insert "le" (if is_infinite (upper_bound bucket) then plus_inf
                      else json_number (upper_bound bucket)) (labels metric))
    (Some (name +:+ "_bucket")%string).

Definition histogram_values (name : string) (metric : Metric) (histogram : Histogram)
    : list JsonMetricValue :=
  (bucket_sample name metric <$> h_bucket histogram)
  ++ [sample (JU64 (h_sample_count histogram)) (map_insert "le" plus_inf (labels metric))
        (Some (name +:+ "_bucket")%string);
      sample (json_number (h_sample_sum histogram)) (labels metric) (Some (name +:+ "_sum")%string);
      sample (JU64 (h_sample_count histogram)) (labels metric) (Some (name +:+ "_count")%string)].

Definition summary_values (name : string) (metric : Metric) (summary : Summary)
    : list JsonMetricValue :=
  ((fun q => sample (json_number (quantile_value q))
               (map_insert "quantile" (json_number (quantile q)) (labels metric)) (Some name))
     <$> s_quantile summary)
  ++ [sample (json_number (s_sample_sum summary)) (labels metric) (Some (name +:+ "_sum")%string);
      sample (JU64 (s_sample_count summary)) (labels metric) (Some (name +:+ "_count")%string)].

Definition zero : F64 := Finite 0.

Definition metric_samples (name : string) (ty : MetricType) (metric : Metric)
    : list JsonMetricValue :=
  match ty with
  | TGauge => [sample (json_number (default zero (metric_gauge metric))) (labels metric) None]
  | TCounter => [sample (json_number (default zero (metric_counter metric))) (labels metric) None]
  | THistogram => match metric_histogram metric with
                  | Some histogram => histogram_values name metric histogram
                  | None => []
                  end
  | TSummary => match metric_summary metric with
                | Some summary => summary_values name metric summary
                | None => []
                end
  | TUntyped => [sample (json_number (default zero (metric_untyped metric))) (labels metric) None]
  end.

Definition metric_values (family : MetricFamily) : list JsonMetricValue :=
  concat (metric_samples (family_name family) (family_type family) <$> family_metric family).

Definition metric_type_name (ty : MetricType) : string :=
  match ty with
  | TCounter => "counter" | TGauge => "gauge" | TSummary => "summary" | TUntyped => "untyped"
  | THistogram => "histogram"
  end.

Definition json_family (family : MetricFamily) : JsonMetricFamily :=
  mkJsonMetricFamily (family_help family) (family_name family)
    (metric_type_name (family_type family)) (metric_values family) "sum".

(** ** The scrape *)

(** The prometheus crate: what the registry gathers from the recorded values,
    and the text exposition of families; [None] when it fails. *)
Class Prometheus := {
  gather : Metrics -> list Observation -> list MetricFamily;
  encode_text : list MetricFamily -> option string
}.

Section scrape.
Context `{Prometheus}.

Definition gather_text (now : N) (obs : list Observation) (m : Metrics) : Metrics * option string :=
  let m := refresh_derived_levels now m in
  (m, encode_text (gather m obs)).

Definition gather_json (now : N) (obs : list Observation) (m : Metrics)
    : Metrics * list JsonMetricFamily :=
  let m := refresh_derived_levels now m in
  (m, json_family <$> gather m obs).

Definition get_single_metric_text (name : string) (now : N) (obs : list Observation) (m : Metrics)
    : Metrics * option string :=
  let m := refresh_derived_levels now m in
  let found := List.filter (fun mf => bool_decide (family_name mf = name)) (gather m obs) in
  match found with
  | [] => (m, None)
  | _ => (m, encode_text found)
  end.
End scrape.

(** ** What the prometheus crate promises *)

(** The label values a family is pre-registered with; an unlabelled family has
    one series, under the empty label. *)
Definition series_labels (d : Desc) : list string :=
  match desc_labels d with
  | [] => [""%string]
  | _ =>
      if bool_decide (desc_name d = QUERY_DURATION) then as_label <$> all_values (A := QueryClass)
      else omap (fun '(n, l) => if bool_decide (n = desc_name d) then Some l else None) initial_series
  end.

Definition series_pairs (d : Desc) (label : string) : list LabelPair :=
  (fun n => mkLabelPair n label) <$> desc_labels d.

Definition observed_in (name label : string) (obs : list Observation) : list Q :=
  omap (fun '(n, l, v) => if bool_decide ((n, l) = (name, label)) then Some v else None) obs.

Definition at_most (b : Q) (vs : list Q) : N :=
  N.of_nat (length (List.filter (fun v => Qle_bool v b) vs)).

(** A histogram of [vs] over the buckets of [d]. *)
Definition histogram_of (d : Desc) (vs : list Q) : Histogram :=
  mkHistogram ((fun b => mkBucket (Finite b) (at_most b vs)) <$> desc_buckets d)
    (N.of_nat (length vs)) (Finite (foldr Qplus 0%Q vs)).

Definition integer (z : Z) : F64 := Finite (inject_Z z).

Definition series_metric (m : Metrics) (obs : list Observation) (d : Desc) (label : string) : Metric :=
  let pairs := series_pairs d label in
  match desc_type d with
  | TGauge => mkMetric pairs (Some (integer (level m (desc_name d)))) None None None None
  | TCounter =>
      mkMetric pairs None (Some (integer (Z.of_N (count m (desc_name d) label)))) None None None
  | THistogram =>
      mkMetric pairs None None (Some (histogram_of d (observed_in (desc_name d) label obs))) None None
  | _ => mkMetric pairs None None None None None
  end.

(** [f] is the family [d] describes, one metric per series in some order. *)
Definition family_of (m : Metrics) (obs : list Observation) (d : Desc) (f : MetricFamily) : Prop :=
  family_name f = desc_name d /\ family_help f = desc_help d /\ family_type f = desc_type d /\
  family_metric f ≡ₚ series_metric m obs d <$> series_labels d.

(** [Registry::gather]: every registered family once, while the series are the
    pre-registered ones. *)
Class PrometheusLaws (P : Prometheus) : Prop := {
  gather_registered m obs :
    dom (counts m) = list_to_set initial_series ->
    exists ds, ds ≡ₚ registered_families /\ Forall2 (family_of m obs) ds (gather m obs)
}.

(** ** Lemmas *)

Lemma is_integer_spec z : is_integer (inject_Z z) = true.
Proof. unfold is_integer. rewrite Qfloor_Z. by apply Qeq_bool_iff. Qed.

Lemma Qle_bool_inject a b : Qle_bool (inject_Z a) (inject_Z b) = (a <=? b)%Z.
Proof.
  apply eq_true_iff_eq. rewrite Qle_bool_iff, Z.leb_le. by rewrite <- Zle_Qle.
Qed.

(** An integer of a u64 or an i64 is written exactly. *)
Lemma json_number_integer z :
  (- 2 ^ 63 <= z < 2 ^ 64)%Z ->
  json_number (integer z) = if (0 <=? z)%Z then JU64 (Z.to_N z) else JI64 z.
Proof.
  intros Hz. unfold json_number, integer. rewrite is_integer_spec, Qfloor_Z.
  change 0%Q with (inject_Z 0). rewrite !Qle_bool_inject. cbn [andb].
  assert (Z.to_N (2 ^ 64) = u64_max + 1)%N as Hmax by done.
  destruct (Z.leb_spec 0 z); cbn [andb].
  - destruct (Z.leb_spec z (2 ^ 64)); [|lia]. f_equal. apply N.min_r. lia.
  - destruct (Z.leb_spec (- 2 ^ 63) z); [|lia]. destruct (Z.leb_spec z (2 ^ 63)); [|lia].
    f_equal. lia.
Qed.

Lemma concat_fmap_bind {A B} (f : A -> list B) l : concat (f <$> l) = l ≫= f.
Proof. induction l as [|x l IH]; [done|]. rewrite fmap_cons, bind_cons. simpl. by rewrite IH. Qed.

Lemma bind_singleton {A B} (g : A -> B) l : l ≫= (fun x => [g x]) = g <$> l.
Proof. induction l as [|x l IH]; [done|]. rewrite bind_cons, IH. done. Qed.

Lemma registered_names : NoDup (desc_name <$> registered_families).
Proof. apply (bool_decide_unpack _). by vm_compute. Qed.

(** Only counters and histograms are labelled, by one label, and a label's
    values are those pre-registered. *)
Lemma registered_shape d :
  d ∈ registered_families ->
  (desc_type d = TGauge /\ desc_labels d = []) \/ desc_type d = TCounter \/ desc_type d = THistogram.
Proof.
  assert (Forall (fun d => (desc_type d = TGauge /\ desc_labels d = []) \/ desc_type d = TCounter
                           \/ desc_type d = THistogram) registered_families) as Hall.
  { unfold registered_families. repeat (apply Forall_cons_2; [tauto|]). apply Forall_nil_2. }
  rewrite Forall_forall in Hall. apply Hall.
Qed.

Lemma metric_values_perm f g :
  family_name f = family_name g -> family_type f = family_type g ->
  family_metric f ≡ₚ family_metric g -> metric_values f ≡ₚ metric_values g.
Proof.
  intros Hn Ht Hm. unfold metric_values. rewrite !concat_fmap_bind, Hn, Ht. by rewrite Hm.
Qed.

Lemma counts_refresh now m : counts (refresh_derived_levels now m) = counts m.
Proof. exact (record_step_counts (fun _ => ""%string) now 0 RecRefresh m). Qed.

Section laws.
Context `{Prometheus} `{!PrometheusLaws _} (display_error : AnyError -> string).

(** The JSON labels of a series. *)
Definition series_map (d : Desc) (label : string) : JsonMap :=
  match desc_labels d with [] => [] | n :: _ => [(n, JString label)] end.

Definition histogram_samples (d : Desc) (label : string) (vs : list Q) : list JsonMetricValue :=
  let name := desc_name d in
  ((fun b => sample (JU64 (at_most b vs)) (map_insert "le" (json_number (Finite b)) (series_map d label))
               (Some (name +:+ "_bucket")%string)) <$> desc_buckets d)
  ++ [sample (JU64 (N.of_nat (length vs))) (map_insert "le" plus_inf (series_map d label))
        (Some (name +:+ "_bucket")%string);
      sample (json_number (Finite (foldr Qplus 0%Q vs))) (series_map d label)
        (Some (name +:+ "_sum")%string);
      sample (JU64 (N.of_nat (length vs))) (series_map d label) (Some (name +:+ "_count")%string)].

(** What the JSON family of [d] must hold. *)
Definition shows (m : Metrics) (obs : list Observation) (d : Desc) (values : list JsonMetricValue) : Prop :=
  match desc_type d with
  | TGauge => values = [sample (json_number (integer (level m (desc_name d)))) [] None]
  | TCounter =>
      values ≡ₚ (fun l => sample (json_number (integer (Z.of_N (count m (desc_name d) l))))
                            (series_map d l) None) <$> series_labels d
  | THistogram =>
      values ≡ₚ concat ((fun l => histogram_samples d l (observed_in (desc_name d) l obs))
                          <$> series_labels d)
  | _ => False
  end.

Lemma series_labels_map m obs d l :
  length (desc_labels d) <= 1 -> labels (series_metric m obs d l) = series_map d l.
Proof.
  unfold labels, series_metric, series_map, series_pairs.
  destruct (desc_labels d) as [|n [|]]; simpl; [by destruct (desc_type d)|by destruct (desc_type d)|lia].
Qed.

Lemma registered_one_label d : d ∈ registered_families -> length (desc_labels d) <= 1.
Proof.
  assert (Forall (fun d => length (desc_labels d) <= 1) registered_families) as Hall.
  { unfold registered_families. repeat (apply Forall_cons_2; [simpl; lia|]). apply Forall_nil_2. }
  rewrite Forall_forall in Hall. apply Hall.
Qed.

Lemma histogram_values_samples metric d l vs :
  labels metric = series_map d l ->
  histogram_values (desc_name d) metric (histogram_of d vs) = histogram_samples d l vs.
Proof.
  intros Hl. unfold histogram_values, histogram_samples, bucket_sample.
  cbn [histogram_of h_bucket h_sample_count h_sample_sum]. rewrite Hl, <- list_fmap_compose. done.
Qed.

Lemma family_shows m obs d f :
  d ∈ registered_families -> family_of m obs d f -> shows m obs d (metric_values f).
Proof.
  intros Hd (Hn & _ & Ht & Hm). pose proof (registered_one_label d Hd) as H1.
  assert (metric_values f ≡ₚ series_labels d ≫= (fun l => metric_samples (desc_name d) (desc_type d)
            (series_metric m obs d l))) as Hv.
  { unfold metric_values. rewrite concat_fmap_bind, Hn, Ht, Hm. by rewrite list_fmap_bind. }
  unfold shows. destruct (registered_shape d Hd) as [[Hty Hl]|[Hty|Hty]]; rewrite Hty in *.
  - unfold series_labels in Hv. rewrite Hl in Hv. simpl in Hv.
    apply Permutation_singleton_r in Hv. rewrite Hv, (series_labels_map m obs d "" H1).
    unfold series_metric. rewrite Hty. simpl. unfold series_map. by rewrite Hl.
  - rewrite Hv, <- bind_singleton. apply reflexive_eq. apply list_bind_ext; [|done]. intros l.
    rewrite <- (series_labels_map m obs d l H1). unfold metric_samples, series_metric. by rewrite Hty.
  - rewrite Hv, concat_fmap_bind. apply reflexive_eq. apply list_bind_ext; [|done]. intros l.
    rewrite <- (histogram_values_samples _ d l _ (series_labels_map m obs d l H1)).
    unfold metric_samples, series_metric. by rewrite Hty.
Qed.

Lemma gathered m obs :
  dom (counts m) = list_to_set initial_series ->
  Forall (fun f => exists d, d ∈ registered_families /\ family_of m obs d f) (gather m obs) /\
  family_name <$> gather m obs ≡ₚ desc_name <$> registered_families.
Proof.
  intros Hd. destruct (gather_registered m obs Hd) as (ds & Hp & Hall). split.
  - apply Forall_forall. intros f [i Hi]%list_elem_of_lookup_1.
    destruct (Forall2_lookup_r _ _ _ _ _ Hall Hi) as (d & Hdi & Hf). exists d. split; [|done].
    rewrite <- Hp. by eapply list_elem_of_lookup_2.
  - rewrite <- Hp. clear Hp. induction Hall as [|d f ds fs (Hn & _) _ IH]; [done|].
    rewrite !fmap_cons, Hn. by f_equiv.
Qed.

(** C15: A scrape shows the state. Over any history of recordings, the JSON
    scrape holds each registered family exactly once, and nothing else, with
    its help and type; a gauge's one sample is its level; a counter's samples
    are, one per pre-registered label, exactly what the history added to that
    series, written as an integer, while that is at most 2^53; and a
    histogram's are, per label, the cumulative count under every bucket of the
    table, the same number of observations in the infinite bucket and in the
    count, and the sum. *)
Theorem scrape_shows_state (h : list (N * N * Recording)) (obs : list Observation)
    (now start start_ms bound : N) :
  let m0 := record_all display_error h (with_stall_alarm start start_ms bound) in
  let '(m, families) := gather_json now obs m0 in
  jf_name <$> families ≡ₚ desc_name <$> registered_families /\ NoDup (jf_name <$> families) /\
  forall f, f ∈ families -> exists d,
    d ∈ registered_families /\ jf_name f = desc_name d /\ jf_help f = desc_help d /\
    jf_metric_type f = metric_type_name (desc_type d) /\
    match desc_type d with
    | TGauge => jf_values f = [sample (json_number (integer (level m (desc_name d)))) [] None]
    | TCounter =>
        (forall l, l ∈ series_labels d -> (Metrics.total (desc_name d, l) h <= 2 ^ 53)%N) ->
        jf_values f ≡ₚ (fun l => sample (JU64 (Metrics.total (desc_name d, l) h)) (series_map d l) None)
                        <$> series_labels d
    | THistogram =>
        jf_values f ≡ₚ concat ((fun l => histogram_samples d l (observed_in (desc_name d) l obs))
                                <$> series_labels d)
    | _ => False
    end.
Proof.
  intros m0. unfold gather_json. set (m := refresh_derived_levels now m0).
  destruct (counters_exact display_error h start start_ms bound) as [Hdom Hcount]. fold m0 in Hdom, Hcount.
  assert (counts m = counts m0) as Hm by apply counts_refresh.
  destruct (gathered m obs) as [Hall Hnames]; [by rewrite Hm|].
  assert (jf_name <$> (json_family <$> gather m obs) ≡ₚ desc_name <$> registered_families) as Hjs.
  { rewrite <- list_fmap_compose. exact Hnames. }
  split; [done|]. split; [rewrite Hjs; apply registered_names|].
  intros f (fam & -> & Hfam)%list_elem_of_fmap. rewrite Forall_forall in Hall.
  destruct (Hall fam Hfam) as (d & Hd & Hf). exists d.
  pose proof (family_shows m obs d fam Hd Hf) as Hs. destruct Hf as (Hn & Hh & Ht & _).
  split; [done|]. split; [done|]. split; [done|]. split; [by cbn; rewrite Ht|].
  unfold shows in Hs. cbn [json_family jf_values].
  destruct (desc_type d); try done. intros Htot. rewrite Hs. apply reflexive_eq.
  apply list_fmap_ext. intros i l Hl%list_elem_of_lookup_2. f_equal.
  rewrite (count_counts m m0 _ _ Hm), Hcount by by apply Htot.
  pose proof (Htot l Hl). rewrite json_number_integer by lia.
  destruct (Z.leb_spec 0 (Z.of_N (Metrics.total (desc_name d, l) h))); [|lia]. by rewrite N2Z.id.
Qed.

Lemma filter_by_name name fs :
  NoDup (family_name <$> fs) ->
  (name ∉ family_name <$> fs /\
     List.filter (fun f => bool_decide (family_name f = name)) fs = []) \/
  exists f, f ∈ fs /\ family_name f = name /\
    List.filter (fun f => bool_decide (family_name f = name)) fs = [f].
Proof.
  induction fs as [|f fs IH]; [left; split; [apply not_elem_of_nil|done]|].
  rewrite fmap_cons. intros [Hf Hnd]%NoDup_cons. simpl. case_bool_decide as He.
  - right. exists f. split; [by left|]. split; [done|]. destruct (IH Hnd) as [[_ ->]|(g & Hg & Hgn & _)];
      [done|]. destruct Hf. rewrite He, <- Hgn. by apply list_elem_of_fmap_2.
  - destruct (IH Hnd) as [[Hn ->]|(g & Hg & Hgn & ->)].
    + left. split; [|done]. apply not_elem_of_cons. split; [congruence|done].
    + right. exists g. split_and!; [by right|done|done].
Qed.

(** Looking a metric up by name finds exactly the registered ones, and encodes
    that family alone. *)
Theorem single_metric_found (h : list (N * N * Recording)) (obs : list Observation) (name : string)
    (now start start_ms bound : N) :
  let m0 := record_all display_error h (with_stall_alarm start start_ms bound) in
  let '(m, text) := get_single_metric_text name now obs m0 in
  (name ∉ desc_name <$> registered_families /\ text = None) \/
  exists d f, d ∈ registered_families /\ desc_name d = name /\ family_of m obs d f /\ text = encode_text [f].
Proof.
  intros m0. unfold get_single_metric_text. set (m := refresh_derived_levels now m0).
  destruct (counters_exact display_error h start start_ms bound) as [Hdom _]. fold m0 in Hdom.
  destruct (gathered m obs) as [Hall Hnames]; [by unfold m; rewrite counts_refresh|].
  destruct (filter_by_name name (gather m obs)) as [[Hn ->]|(f & Hf & Hfn & ->)].
  - rewrite Hnames. apply registered_names.
  - left. split; [by rewrite <- Hnames|done].
  - right. rewrite Forall_forall in Hall. destruct (Hall f Hf) as (d & Hd & Hof).
    exists d, f. split_and!; [done| |done|done]. destruct Hof as [Ho _]. congruence.
Qed.
End laws.

(** ** A concrete registry *)

Definition toy_family (m : Metrics) (obs : list Observation) (d : Desc) : MetricFamily :=
  mkMetricFamily (desc_name d) (desc_help d) (desc_type d) (series_metric m obs d <$> series_labels d).

Definition toy_prometheus : Prometheus := {|
  gather m obs := toy_family m obs <$> registered_families;
  encode_text fs := Some (String.concat " " (family_name <$> fs))
|}.

Lemma toy_families m obs ds : Forall2 (family_of m obs) ds (toy_family m obs <$> ds).
Proof. induction ds as [|d ds IH]; [constructor|]. rewrite fmap_cons. by constructor. Qed.

#[export] Instance toy_prometheus_laws : PrometheusLaws toy_prometheus.
Proof. split. intros m obs _. exists registered_families. split; [done|]. apply toy_families. Qed.

(** Two retries of one class, as a scrape shows them. *)
Example retries_on_the_scrape :
  let m := record_all (fun _ => ""%string)
             [(5, 7, RecRetry ErrTimeout); (6, 8, RecRetry ErrTimeout)]%N (with_stall_alarm 0 0 1) in
  jf_values <$> List.find (fun f => bool_decide (jf_name f = UPSTREAM_RETRIES))
                  (snd (@gather_json toy_prometheus 9 [] m))
  = Some ((fun '(l, n) => sample (JU64 n) [("class", JString l)] None)
            <$> [("rpc", 0); ("http", 0); ("connection", 0); ("disconnected", 0); ("timeout", 2);
                 ("protocol", 0); ("retry_requested", 0)]%N)%string.
Proof. by vm_compute. Qed.

Lemma scrape_shows_state_witness :
  let m0 := record_all (fun _ => ""%string) [(5, 7, RecRetry ErrTimeout)]%N (with_stall_alarm 0 0 1) in
  let families := snd (@gather_json toy_prometheus 9 [(BLOCK_LAG, ""%string, 150 # 1)] m0) in
  length families = 39 /\ NoDup (jf_name <$> families).
Proof.
  intros m0 families. split; [vm_compute; reflexivity|].
  pose proof (@scrape_shows_state toy_prometheus toy_prometheus_laws (fun _ => ""%string)
    [(5, 7, RecRetry ErrTimeout)]%N [(BLOCK_LAG, ""%string, 150 # 1)] 9 0 0 1) as Hs.
  cbv zeta in Hs. fold m0 in Hs. unfold families. clearbody m0.
  destruct (@gather_json toy_prometheus 9 [(BLOCK_LAG, ""%string, 150 # 1)] m0) as [m js].
  exact (proj1 (proj2 Hs)).
Defined.
