(* ===== verification/Http.v ===== *)
(** * Http: the stream endpoint (http.rs)

    One POST /stream request as a function of what its environment decides:
    the body as read and parsed, the verdict of the query, the clock (which
    waits time out) and the client (which sends park or fail). It returns the
    response and the OB-5 classes settled for the request. The zstd-to-gzip
    transcoding and the header library's check are parameters. *)
From stdpp Require Import pretty.
From S2P Require Import Prelude Types Chain RefModel Service ChainRefines Run Query Metrics.
From Stdlib Require Import Strings.Byte.
Local Open Scope rust_scope.



(** What reading and parsing the body produced. *)
Inductive RequestBody : Type :=
  | BodyTooLarge
  | BodyUnreadable
  | BodyInvalid (error : string)
  | BodyParsed (from_block : N) (parent_block_hash : option string).

(** The timeout around the query, or its result. *)
Inductive Verdict : Type :=
  | VerdictExpired (finalized_now : BlockRef)
  | VerdictDone (r : Result (DataResponse * QueryClass) QueryError).

(** One iteration of the body loop: is the budget spent before the wait, does
    the wait for the next record expire, and what became of the send. *)
Inductive SendResult : Type := SendDone | SendExpired | SendGone.

Record LoopEnv := mkLoopEnv {
  budget_spent : bool;
  wait_expires : bool;
  send_result : SendResult
}.

Inductive ResponseBody : Type :=
  | TextBody (text : string)
  | RefBody (r : BlockRef)
  | EmptyBody
  | PreviousBlocksBody (previous : list BlockRef)
  | FramesBody (zstd : bool) (frames : list (list byte)) (truncated : option TruncationCause).

Record Response := mkResponse {
  status : N;
  finalized_header : option BlockRef;
  response_body : ResponseBody
}.

(** What settling one query records: the compatible label, then the class. *)
Inductive QueryRecord : Type := CountQuery (label : string) | CountClass (class : QueryClass).

Definition record_query_outcome (class : QueryClass) : list QueryRecord :=
  [CountQuery (compat_label class); CountClass class].

(** [\n\n] *)
Definition newlines : string :=
  String (Ascii.ascii_of_nat 10) (String (Ascii.ascii_of_nat 10) "").

Section http.
(** [HeaderValue::from_str(..).is_ok()], zstd's decode followed by gzip, and
    [{e:#}]. *)
Variable header_value_ok : string -> bool.
Variable transcode : list byte -> Result (list byte) AnyError.
Variable display_error : AnyError -> string.

(** Both header insertions unwrap; a number always prints as a legal value. *)
Definition insert_finalized_head (fh : BlockRef) : option BlockRef :=
  if header_value_ok (br_hash fh) then Some fh else None.

Definition encode_block (use_zstd : bool) (b : Block) : Result (list byte) AnyError :=
  if use_zstd then Ok (json_line_zstd b) else transcode (json_line_zstd b).

(** Past the first record: the frames sent, and the truncation cause if the
    body was cut. [env i] is the environment of the [i]-th iteration. *)
Fixpoint body_rest (use_zstd : bool) (env : nat -> LoopEnv) (i : nat)
    (records : list (Result (Block * RecordSource) AnyError))
    : list (list byte) * option TruncationCause :=
  if budget_spent (env i) then ([], Some TruncBudget)
  else if wait_expires (env i) then ([], Some TruncBudget)
  else
  match records with
  | [] => ([], None)
  | Err _ :: _ => ([], Some TruncError)
  | Ok (b, _) :: records =>
      match encode_block use_zstd b with
      | Err _ => ([], Some TruncError)
      | Ok frame =>
          match send_result (env i) with
          | SendExpired => ([], Some TruncBudget)
          | SendGone => ([], Some TruncDisconnect)
          | SendDone =>
              let (frames, cause) := body_rest use_zstd env (S i) records in
              (frame :: frames, cause)
          end
      end
  end.

(** The spawned loop: the first frame was encoded before the status was. *)
Definition body_loop (use_zstd : bool) (env : nat -> LoopEnv) (first : list byte)
    (records : list (Result (Block * RecordSource) AnyError))
    : list (list byte) * option TruncationCause :=
  match send_result (env 0) with
  | SendExpired => ([], Some TruncBudget)
  | SendGone => ([], Some TruncDisconnect)
  | SendDone =>
      let (frames, cause) := body_rest use_zstd env 1 records in (first :: frames, cause)
  end.

Definition text_response (code : N) (text : string) : Response :=
  mkResponse code None (TextBody text).

(** A failure before the first record. *)
Definition internal_error (e : AnyError) : Response :=
  text_response 500 ("Internal server error" +:+ newlines +:+ display_error e).

(** A data response: the first record is produced before the status is chosen. *)
Definition respond (use_zstd first_expires : bool) (env : nat -> LoopEnv)
    (data : DataResponse) (class : QueryClass) : option (Response * list QueryClass) :=
  let! headers :=
    match resp_finalized_head data with
    | Some fh => let! h := insert_finalized_head fh in Some (Some h)
    | None => Some None
    end in
  let tail := default [] (resp_tail data) in
  let has_content := bool_decide (is_Some (resp_head data)) || negb (bool_decide (tail = [])) in
  let empty := Some (mkResponse 204 headers EmptyBody, [QWaitEmpty]) in
  if negb has_content then empty
  else if first_expires then empty
  else
  match block_stream (resp_head data) tail with
  | [] => empty
  | Err e :: _ => Some (internal_error e, [QError])
  | Ok (b, _) :: records =>
      match encode_block use_zstd b with
      | Err e => Some (internal_error e, [QError])
      | Ok frame =>
          let (frames, cause) := body_loop use_zstd env frame records in
          Some (mkResponse 200 headers (FramesBody use_zstd frames cause), [class])
      end
  end.

(** The request. [verdict] is the query's, given the parsed request. *)
Definition handle_stream (accept_encoding : string) (body : RequestBody)
    (verdict : N -> option string -> Verdict) (first_expires : bool) (env : nat -> LoopEnv)
    : option (Response * list QueryClass) :=
  match body with
  | BodyTooLarge => Some (text_response 413 "request body too large", [])
  | BodyUnreadable => Some (text_response 400 "request body unreadable", [])
  | BodyInvalid e => Some (text_response 400 ("invalid request: " +:+ e), [])
  | BodyParsed from ph =>
      match verdict from ph with
      | VerdictExpired fh =>
          let! h := insert_finalized_head fh in
          Some (mkResponse 204 (Some h) EmptyBody, [QWaitEmpty])
      | VerdictDone (Err (QInvalidBaseBlock e)) =>
          Some (mkResponse 409 None (PreviousBlocksBody (prev e)), [QConflict])
      | VerdictDone (Err (QInternal e)) => Some (internal_error e, [QError])
      | VerdictDone (Ok (data, class)) =>
          respond (str_contains "zstd" accept_encoding) first_expires env data class
      end
  end.

(** ** Headers on the wire *)

(** [IntoResponse] of text and of [Json] sets the type; a stream sets its own. *)
Definition content_type (r : Response) : option string :=
  match response_body r with
  | TextBody _ => Some "text/plain; charset=utf-8"%string
  | RefBody _ | PreviousBlocksBody _ => Some "application/json"%string
  | FramesBody _ _ _ => Some "text/plain; charset=UTF-8"%string
  | EmptyBody => None
  end.

Definition content_encoding (r : Response) : option string :=
  match response_body r with
  | FramesBody zstd _ _ => Some (if zstd then "zstd" else "gzip")%string
  | _ => None
  end.

Definition vary (r : Response) : option string :=
  match response_body r with FramesBody _ _ _ => Some "Accept-Encoding"%string | _ => None end.

Definition finalized_number (r : Response) : option string :=
  (fun fh => pretty (br_number fh)) <$> finalized_header r.
Definition finalized_hash (r : Response) : option string := br_hash <$> finalized_header r.

(** ** The other routes *)

Definition handle_root : Response := text_response 200 "Welcome to hot block data service!".

Definition handle_head (c : Chain) : option Response :=
  let! h := get_head c in Some (mkResponse 200 None (RefBody h)).
Definition handle_finalized_head (c : Chain) : option Response :=
  let! h := get_finalized_head c in Some (mkResponse 200 None (RefBody h)).

(** Ready when a fresh view of the upstream head is not above ours. *)
Definition is_ready (now : N) (m : Metrics) (c : Chain) : option bool :=
  match fresh_upstream_head now m with
  | None => Some false
  | Some head => let! h := get_head c in Some (head <=? br_number h)%N
  end.

Definition handle_readiness (now : N) (m : Metrics) (c : Chain) : option Response :=
  let! ready := is_ready now m c in
  Some (if ready then text_response 200 "true" else text_response 503 "false").

(** A scrape: the parameter, and what the gathering returned. *)
Definition handle_metrics (json : option string) (gather_json : Result string string)
    (gather_text : Result string string) : N * string * string :=
  if bool_decide (json = Some "true"%string) then
    match gather_json with
    | Ok body => (200%N, "application/json"%string, body)
    | Err _ => (500%N, "text/plain; charset=utf-8"%string, "metrics serialization error"%string)
    end
  else
    match gather_text with
    | Ok text => (200%N, "text/plain; version=0.0.4; charset=utf-8"%string, text)
    | Err e => (500%N, "text/plain; charset=utf-8"%string, ("metrics error: " +:+ e)%string)
    end.

Definition handle_metrics_name (single : option string) : Response :=
  match single with
  | Some text => text_response 200 text
  | None => text_response 404 "requested metric not found"
  end.

Definition handle_block_time (now : N) (times : BlockTimestampCache) (height : string) : Response :=
  match cache_get now times height with
  | Some ts => text_response 200 (pretty ts)
  | None => text_response 404 "Timestamp not found for the specified block"
  end.

(** The middleware: the acceptance is noted before the handler runs. *)
Definition note_acceptance {A} (now_ms : N) (next : Metrics -> A) (m : Metrics) : A :=
  next (record_first_acceptance now_ms m).

(** ** Lemmas *)

(** [frames] are the encodings of the first records, in order. *)
Definition encodes (use_zstd : bool) (bs : list Block) (frames : list (list byte)) : Prop :=
  Forall2 (fun b f => encode_block use_zstd b = Ok f) bs frames.

Lemma body_rest_encodes use_zstd env i records frames cause :
  body_rest use_zstd env i records = (frames, cause) ->
  exists n, encodes use_zstd (take n (served records)) frames /\
    (cause = None -> n = length records /\ forallb is_ok records = true).
Proof.
  revert i frames cause. induction records as [|[[b src]|e] records IH];
    intros i frames cause; cbn [body_rest served].
  all: destruct (budget_spent (env i)); [intros [= <- <-]; exists 0; by split; [constructor|]|].
  all: destruct (wait_expires (env i)); [intros [= <- <-]; exists 0; by split; [constructor|]|].
  - intros [= <- <-]. exists 0. by split; [constructor|].
  - destruct (encode_block use_zstd b) as [f|] eqn:Ef;
      [|intros [= <- <-]; exists 0; by split; [constructor|]].
    destruct (send_result (env i)); [|intros [= <- <-]; exists 0; by split; [constructor|]..].
    destruct (body_rest use_zstd env (S i) records) as [fs c] eqn:E. intros [= <- <-].
    destruct (IH _ _ _ E) as (n & He & Hc). exists (S n). split; [by constructor|].
    intros Hn. destruct (Hc Hn) as [-> ?]. done.
  - intros [= <- <-]. exists 0. by split; [constructor|].
Qed.

Lemma served_all records :
  forallb is_ok records = true -> length (served records) = length records.
Proof. induction records as [|[[b s]|e] l IH]; simpl; intros H; [done|by rewrite IH|done]. Qed.

(** The status a settled class goes with. *)
Definition class_matches (class : QueryClass) (r : Response) : Prop :=
  match response_body r with
  | FramesBody _ _ _ => status r = 200%N
  | EmptyBody => status r = 204%N /\ class = QWaitEmpty
  | PreviousBlocksBody _ => status r = 409%N /\ class = QConflict
  | TextBody _ => status r = 500%N /\ class = QError
  | RefBody _ => False
  end.

(** C11: A stream request settles exactly one outcome, with the response it is
    true of: 409 is a conflict, 500 an error, 204 an empty wait, and 200 is
    counted under the query's own class; a request rejected before it became a
    query settles none (OB-5). *)
Theorem outcome_settled_once accept body verdict first_expires env r settled :
  handle_stream accept body verdict first_expires env = Some (r, settled) ->
  match body with
  | BodyParsed from ph =>
      exists class, settled = [class] /\ class_matches class r /\
        (status r = 200%N -> exists data, verdict from ph = VerdictDone (Ok (data, class)))
  | _ => settled = [] /\ (status r = 400%N \/ status r = 413%N)
  end.
Proof.
  unfold handle_stream. destruct body as [| |e|from ph].
  1-3: intros [= <- <-]; simpl; auto.
  destruct (verdict from ph) as [fh|[[data class]|[e|e]]] eqn:Ev.
  - destruct (insert_finalized_head fh); [|done]. intros [= <- <-]. exists QWaitEmpty. done.
  - unfold respond.
    destruct (match resp_finalized_head data with Some _ => _ | None => _ end) as [hd|]; [|done].
    destruct (negb _); [intros [= <- <-]; by exists QWaitEmpty|].
    destruct first_expires; [intros [= <- <-]; by exists QWaitEmpty|].
    destruct (block_stream _ _) as [|[[b s]|e] records].
    + intros [= <- <-]. by exists QWaitEmpty.
    + destruct (encode_block _ b); [|intros [= <- <-]; by exists QError].
      destruct (body_loop _ _ _ _) as [fs c]. intros [= <- <-]. exists class.
      split_and!; [done|done|eauto].
    + intros [= <- <-]. by exists QError.
  - intros [= <- <-]. by exists QConflict.
  - intros [= <- <-]. by exists QError.
Qed.

(** The body of a 200 is a prefix of the answer on a record boundary: each
    frame is the encoding of one block of the response, in order and from its
    first; and when no truncation is counted nothing is missing, every record
    was sent and none of them was an error (RP-12, RP-20, REQ-6). *)
Theorem body_is_prefix accept from ph verdict data class first_expires env r settled z fs cause :
  verdict from ph = VerdictDone (Ok (data, class)) ->
  handle_stream accept (BodyParsed from ph) verdict first_expires env = Some (r, settled) ->
  response_body r = FramesBody z fs cause ->
  let records := block_stream (resp_head data) (default [] (resp_tail data)) in
  exists n, encodes z (take n (served records)) fs /\
    (cause = None -> take n (served records) = served records /\ forallb is_ok records = true).
Proof.
  intros Hv E Hb. unfold handle_stream in E. rewrite Hv in E. unfold respond in E.
  destruct (match resp_finalized_head data with Some _ => _ | None => _ end) as [hd|]; [|done].
  destruct (negb _); [by simplify_eq|]. destruct first_expires; [by simplify_eq|].
  destruct (block_stream _ _) as [|[[b s]|e] records]; [by simplify_eq| |by simplify_eq].
  destruct (encode_block _ b) as [f|] eqn:Ef; [|by simplify_eq].
  destruct (body_loop _ _ _ _) as [fs' c'] eqn:El. simplify_eq/=.
  unfold body_loop in El.
  destruct (send_result (env 0)); [|simplify_eq; exists 0; by split; [constructor|]..].
  destruct (body_rest _ env 1 records) as [fs1 c1] eqn:Er. simplify_eq/=.
  destruct (body_rest_encodes _ _ _ _ _ _ Er) as (n & He & Hc). exists (S n).
  split; [by constructor|]. intros Hn. destruct (Hc Hn) as [-> Hok]. split; [|done].
  simpl. f_equal. rewrite take_ge; [done|]. by rewrite served_all.
Qed.

Lemma finalized_legal c fh :
  hashes_legal c -> get_finalized_head c = Some fh -> is_header_safe_hash (br_hash fh) = true.
Proof.
  unfold get_finalized_head. intros Hl E.
  destruct (blocks c !! finalized_head c) as [b|] eqn:Hb; [|done]. simplify_eq/=.
  apply list_elem_of_lookup_2, Hl in Hb as [[_ ?] _]. done.
Qed.

(** The finalized header of any answer is a buffered block's. *)
Lemma classify_finalized c1 c2 c3 from ph source resp class :
  classify_query c1 c2 c3 from ph source = Some (Ok (resp, class)) ->
  match resp_finalized_head resp with
  | Some fh => get_finalized_head c2 = Some fh \/ get_finalized_head c3 = Some fh
  | None => True
  end.
Proof.
  assert (forall c r, query c from ph = Some (Ok r) ->
    match resp_finalized_head r with Some fh => get_finalized_head c = Some fh | None => True end)
    as Hq.
  { intros c r. unfold query. intros E. repeat (case_match; simplify_eq/=; try done). }
  unfold classify_query. destruct (below_window c1 from) as [[]|]; [| |done].
  - unfold below_query. destruct (get_finalized_head c2) as [fh|] eqn:Ef; [|done].
    destruct (below_request c2 from ph); [|done].
    destruct source as [|[b|[[|r rs]|e]] source]; simpl; try done. intros [= <- <-]. by left.
  - destruct (query c2 from ph) as [[r|e]|] eqn:E2; [|done..]. simpl.
    case_bool_decide.
    + intros [= <- <-]. pose proof (Hq _ _ E2). destruct (resp_finalized_head r); auto.
    + destruct (query c3 from ph) as [[r3|e]|] eqn:E3; [|done..]. simpl. intros [= <- <-].
      pose proof (Hq _ _ E3). destruct (resp_finalized_head r3); auto.
Qed.

Lemma classify_total c1 c2 c3 from ph source :
  chain_wf c1 -> chain_wf c2 -> chain_wf c3 -> (from <= u64_max)%N ->
  exists r, classify_query c1 c2 c3 from ph source = Some r.
Proof.
  intros H1 H2 H3 Hu. unfold classify_query, below_window.
  destruct (first_block_some c1 (shape_nonempty _ (wf_shape _ H1))) as [f1 ->].
  destruct (query_total c2 from ph H2 Hu) as (r2 & -> & _).
  destruct (query_total c3 from ph H3 Hu) as (r3 & -> & _).
  destruct (_ && _).
  - unfold below_query, below_request. destruct (finalized_head_some c2 H2) as (b & _ & ->).
    destruct (first_block_some c2 (shape_nonempty _ (wf_shape _ H2))) as [f2 ->].
    unfold saturating_add, u64_max.
    destruct (N.eqb_spec (N.min 18446744073709551615
      (saturating_sub (parent_number f2) from + 1)) 0); [lia|].
    destruct source as [|[bt|[[|r rs]|e]] source]; simpl; eauto.
  - destruct r2 as [resp2|e2]; simpl; [|eauto]. case_bool_decide; [eauto|].
    destruct r3; simpl; eauto.
Qed.

Hypothesis header_value_complete :
  forall h, is_header_safe_hash h = true -> header_value_ok h = true.

(** No stream request panics: whatever its timing and its client do, and
    whichever buffers its lookups meet, on well-formed buffers of legal hashes
    the query resolves and the response is produced, whether the verdict came
    in time or expired, the unwraps of the finalized-head headers included
    (WP-14, IB-4). *)
Theorem stream_never_panics c1 c2 c3 accept from ph source first_expires env :
  (forall c, c = c1 \/ c = c2 \/ c = c3 -> chain_wf c /\ hashes_legal c) ->
  (from <= u64_max)%N ->
  exists q, classify_query c1 c2 c3 from ph source = Some q /\
  forall verdict,
    verdict from ph = VerdictDone q \/
    (exists fh, get_finalized_head c3 = Some fh /\ verdict from ph = VerdictExpired fh) ->
    exists r settled,
      handle_stream accept (BodyParsed from ph) verdict first_expires env = Some (r, settled).
Proof.
  intros Hc Hu. destruct (Hc c1) as [W1 L1]; [auto|]. destruct (Hc c2) as [W2 L2]; [auto|].
  destruct (Hc c3) as [W3 L3]; [auto|].
  destruct (classify_total c1 c2 c3 from ph source W1 W2 W3 Hu) as [q E]. exists q.
  split; [done|]. intros verdict Hv. unfold handle_stream.
  assert (forall fh, get_finalized_head c2 = Some fh \/ get_finalized_head c3 = Some fh ->
    insert_finalized_head fh = Some fh) as Hin.
  { intros fh H. unfold insert_finalized_head. rewrite header_value_complete; [done|].
    destruct H as [H|H]; by eapply finalized_legal in H. }
  destruct Hv as [->|(fh & Hfh & ->)]; [|rewrite Hin by auto; eauto].
  destruct q as [[data class]|[e|e]]; [|eauto..]. unfold respond.
  apply classify_finalized in E. destruct (resp_finalized_head data) as [fh|].
  - rewrite Hin by done. repeat (case_match; eauto).
  - repeat (case_match; eauto).
Qed.
End http.

(** ** Readiness *)

Lemma fold_max_le l k n : (fold_left N.max l k <= n)%N <-> (k <= n)%N /\ Forall (fun x => x <= n)%N l.
Proof.
  revert k. induction l as [|x l IH]; intros k; simpl.
  - split; [by intros|by intros []].
  - rewrite IH, Forall_cons. split; intros; destruct_ands; (repeat split); (done || lia).
Qed.

(** Readiness is exactly what it promises: whatever has been recorded, the
    probe answers, and says ready when, and only when, the last explicit head
    read is younger than the stall bound and the buffer has reached both the
    height it returned and every height a committed batch has proved since. *)
Theorem readiness_exact display (h : list (N * N * Recording)) (m0 : Metrics) (now : N) (c : Chain)
    (Hc : chain_wf c) (Hm0 : upstream_head_observation m0 = None) :
  exists r head, handle_readiness now (record_all display h m0) c = Some r /\ get_head c = Some head /\
    (status r = 200%N /\ response_body r = TextBody "true" \/
     status r = 503%N /\ response_body r = TextBody "false") /\
    (status r = 200%N <->
     exists h1 te ms k h2, h = h1 ++ (te, ms, RecUpstreamHead k) :: h2 /\ no_head h2 /\
       (now - te < stall_after m0)%N /\ (k <= br_number head)%N /\
       Forall (fun n => n <= br_number head)%N (progress_of h2)).
Proof.
  destruct (last_block_some c (shape_nonempty _ (wf_shape _ Hc))) as [l Hl].
  assert (get_head c = Some (block_ref l)) as Hh by (unfold get_head; by rewrite Hl).
  unfold handle_readiness, is_ready. rewrite Hh.
  destruct (fresh_upstream_head now (record_all display h m0)) as [n|] eqn:Ef.
  - apply fresh_head_exact in Ef as (h1 & te & ms & k & h2 & -> & Hno & Hlt & ->); [|done].
    eexists _, (block_ref l). split; [reflexivity|]. split; [done|].
    destruct (N.leb_spec (fold_left N.max (progress_of h2) k) (br_number (block_ref l))) as [Hle|Hgt].
    + split; [by left|]. split; [intros _|done]. apply fold_max_le in Hle as [? ?].
      by exists h1, te, ms, k, h2.
    + split; [by right|]. split; [done|]. intros (h1' & te' & ms' & k' & h2' & E & Hno' & Hlt' & Hk & Hp).
      exfalso. pose proof (fresh_after_head display h1 te ms k h2 m0 now Hno) as F1.
      pose proof (fresh_after_head display h1' te' ms' k' h2' m0 now Hno') as F2.
      rewrite E in F1. rewrite F1, (proj2 (N.ltb_lt _ _)), (proj2 (N.ltb_lt _ _)) in F2 by done.
      injection F2 as F2. rewrite F2 in Hgt.
      pose proof (proj2 (fold_max_le (progress_of h2') k' _) (conj Hk Hp)). lia.
  - eexists _, (block_ref l). split; [reflexivity|]. split; [done|]. split; [by right|]. split; [done|].
    intros (h1 & te & ms & k & h2 & -> & Hno & Hlt & _). exfalso.
    by rewrite fresh_after_head, (proj2 (N.ltb_lt _ _)) in Ef.
Qed.

(** ** Concrete requests *)

Definition demo_transcode (bs : list byte) : Result (list byte) AnyError := Ok (x1f :: bs).
Definition calm : nat -> LoopEnv := fun _ => mkLoopEnv false false SendDone.
Definition hurried : nat -> LoopEnv := fun i => mkLoopEnv (2 <=? i) false SendDone.

Definition demo_verdict (from : N) (ph : option string) : Verdict :=
  match classify_query demo_chain demo_chain demo_chain from ph [] with
  | Some r => VerdictDone r
  | None => VerdictDone (Err (QInternal EmptyBatch))
  end.

Lemma outcome_settled_once_witness :
  exists r, handle_stream is_header_safe_hash demo_transcode no_text "gzip, zstd"
      (BodyParsed 12 (Some "b"%string)) demo_verdict false calm = Some (r, [QWindow]) /\
    class_matches QWindow r.
Proof.
  eexists. split; [vm_compute; reflexivity|].
  destruct (outcome_settled_once is_header_safe_hash demo_transcode no_text "gzip, zstd"
    (BodyParsed 12 (Some "b"%string)) demo_verdict false calm _ _ eq_refl) as (class & Hs & Hm & _).
  injection Hs as <-. exact Hm.
Defined.

Lemma body_is_prefix_witness :
  exists r fs, handle_stream is_header_safe_hash demo_transcode no_text "gzip"
      (BodyParsed 12 (Some "b"%string)) demo_verdict false hurried = Some (r, [QWindow]) /\
    response_body r = FramesBody false fs (Some TruncBudget) /\
    exists n, encodes demo_transcode false (take n (drop 2 (blocks demo_chain))) fs.
Proof.
  do 2 eexists. split; [vm_compute; reflexivity|]. split; [reflexivity|].
  destruct (body_is_prefix is_header_safe_hash demo_transcode no_text "gzip" 12 (Some "b"%string)
    demo_verdict _ _ false hurried _ _ _ _ _ eq_refl eq_refl eq_refl) as (n & He & _).
  exists n. exact He.
Defined.

Lemma stream_never_panics_witness :
  exists r settled, handle_stream is_header_safe_hash demo_transcode no_text "zstd" (BodyParsed 99 None)
    demo_verdict false calm = Some (r, settled) /\ status r = 204%N.
Proof.
  destruct demo_legal as (c & Hs & Hl). destruct Hs as (Hc & Hwf & _). injection Hc as <-.
  destruct (stream_never_panics is_header_safe_hash demo_transcode no_text (fun h H => H)
    demo_chain demo_chain demo_chain "zstd" 99 None [] false calm) as (q & Eq & Hr).
  - by intros c [->|[->| ->]].
  - done.
  - destruct (Hr demo_verdict) as (r & settled & E); [left; unfold demo_verdict; by rewrite Eq|].
    exists r, settled. split; [exact E|]. vm_compute in E. by injection E as <- _.
Defined.

Lemma readiness_exact_witness :
  exists r, handle_readiness 40 (record_all no_text
      [(10, 0, RecUpstreamHead 99); (30, 0, RecUpstreamHead 12); (35, 0, RecEffect (EUpstreamProgress 14))]%N
      (with_stall_alarm 0 0 20)) demo_chain = Some r /\ status r = 200%N.
Proof.
  destruct (readiness_exact no_text
    [(10, 0, RecUpstreamHead 99); (30, 0, RecUpstreamHead 12); (35, 0, RecEffect (EUpstreamProgress 14))]%N
    (with_stall_alarm 0 0 20) 40 demo_chain) as (r & hd & E & Eh & _ & H);
    [by apply chain_wfb_sound|reflexivity|].
  exists r. split; [exact E|]. apply H.
  exists [(10, 0, RecUpstreamHead 99)]%N, 30%N, 0%N, 12%N, [(35, 0, RecEffect (EUpstreamProgress 14))]%N.
  vm_compute in Eh. injection Eh as <-.
  split; [reflexivity|]. split; [by repeat constructor|]. split; [by vm_compute|]. split; [by vm_compute|].
  repeat constructor. by vm_compute.
Defined.
