(* ===== verification/Lifecycle.v ===== *)
(** * Lifecycle: the running service (data-service-core/src/service.rs)

    [run_data_service] seeds the service, binds the listener and starts four
    tasks that share its state: the server, the ingestion loop, the reader of
    the upstream head behind readiness, and the ticker of the derived levels.
    Here they are a machine: [turn] is one task at one of its wake-ups,
    [timeline] an interleaving of them. What the ingestion loop does between
    two wake-ups is what Service.v says it publishes; what it publishes is
    recorded in the metrics of Metrics.v.

    The theorems: what is served between startup and the first batch, and that
    the paced reads keep a service that has caught up ready without a gap. *)
From S2P Require Import Prelude Types Chain Service ChainRefines Run Query Metrics Http.
Local Open Scope rust_scope.

(** ** State *)

(** RP-20, in milliseconds. *)
Definition DEFAULT_RESPONSE_BUDGET : N := 60000.

(** The task that reads the upstream head: between ticks until its deadline, or
    reading since its last tick with the next deadline set. *)
Inductive Observer : Type :=
  | Waiting (due : N)
  | Reading (since due : N).

(** What the tasks share, and where each of them is. An aborted task is [None]
    or [false]. *)
Record DataService := mkDataService {
  ds_state : Service;
  ds_metrics : Metrics;
  ds_response_budget_ms : N;
  ds_observer : option Observer;
  ds_levels_due : option N;
  ds_ingesting : bool;
  ds_accepting : bool;
  ds_cancelled : bool
}.

Definition with_service_state (s : Service) (d : DataService) : DataService :=
  mkDataService s (ds_metrics d) (ds_response_budget_ms d) (ds_observer d) (ds_levels_due d)
    (ds_ingesting d) (ds_accepting d) (ds_cancelled d).

Definition with_metrics (m : Metrics) (d : DataService) : DataService :=
  mkDataService (ds_state d) m (ds_response_budget_ms d) (ds_observer d) (ds_levels_due d)
    (ds_ingesting d) (ds_accepting d) (ds_cancelled d).

Definition with_observer (o : Observer) (d : DataService) : DataService :=
  mkDataService (ds_state d) (ds_metrics d) (ds_response_budget_ms d) (Some o) (ds_levels_due d)
    (ds_ingesting d) (ds_accepting d) (ds_cancelled d).

Definition with_levels_due (due : N) (d : DataService) : DataService :=
  mkDataService (ds_state d) (ds_metrics d) (ds_response_budget_ms d) (ds_observer d) (Some due)
    (ds_ingesting d) (ds_accepting d) (ds_cancelled d).

(** [set_response_budget]: a duration in nanoseconds, kept as a [u64] of
    milliseconds. *)
Definition set_response_budget (budget : N) (d : DataService) : DataService :=
  mkDataService (ds_state d) (ds_metrics d) ((budget / 1000000) mod 2 ^ 64)%N (ds_observer d)
    (ds_levels_due d) (ds_ingesting d) (ds_accepting d) (ds_cancelled d).

(** [response_budget]: in nanoseconds. *)
Definition response_budget (d : DataService) : N := (ds_response_budget_ms d * 1000000)%N.

(** [get_chain_ref]: panics before the seed. *)
Definition get_chain_ref {A} (f : Chain -> option A) (d : DataService) : option A :=
  let! c := sv_chain (ds_state d) in f c.

Definition service_head (d : DataService) : option BlockRef := get_chain_ref get_head d.
Definition service_finalized_head (d : DataService) : option BlockRef := get_chain_ref get_finalized_head d.
Definition service_is_ready (now : N) (d : DataService) : option bool :=
  get_chain_ref (is_ready now (ds_metrics d)) d.

Section lifecycle.
Variable display_error : AnyError -> string.

Definition record_in (now now_ms : N) (r : Recording) (d : DataService) : DataService :=
  with_metrics (record_step display_error now now_ms r (ds_metrics d)) d.

Definition record_effects (now now_ms : N) (effects : list Effect) (d : DataService) : DataService :=
  foldl (fun d e => record_in now now_ms (RecEffect e) d) d effects.

(** ** Startup *)

Inductive StartError : Type :=
  | InitFailed (e : AnyError)
  | BindFailed (what : string).

(** [DataService::with_metrics], before any task runs. *)
Definition service_new (m : Metrics) : DataService :=
  mkDataService (mkService None None false []) m DEFAULT_RESPONSE_BUDGET None None false false false.

(** The port and the running service. The seed comes first: nothing is bound
    when it fails. The tickers fire at once. *)
Definition run_data_service (now now_ms : N) (buffer_size : nat) (auto_adjust : bool) (m : Metrics)
    (seed : SeedAnswers) (bind : Result N string) : option (Result (N * DataService) StartError) :=
  let d := service_new m in
  let! (s, r) := init buffer_size auto_adjust (ds_state d) seed in
  match r with
  | Err e => Some (Err (InitFailed e))
  | Ok _ =>
      let d := record_effects now now_ms (sv_published s) (with_service_state s d) in
      match bind with
      | Err what => Some (Err (BindFailed what))
      | Ok port =>
          Some (Ok (port, mkDataService s (ds_metrics d) (ds_response_budget_ms d)
                            (Some (Waiting now)) (Some now) true true false))
      end
  end.

(** ** The tasks *)

(** What a read of the upstream head comes to; [None]: it timed out. *)
Definition refresh_upstream_head (now now_ms : N) (read : option (Result N string)) (d : DataService) : DataService :=
  match read with
  | Some (Ok head) => record_in now now_ms (RecUpstreamHead head) d
  | _ => d
  end.

(** [DataServiceHandle::shutdown], up to the waits for the tasks. *)
Definition shutdown (now now_ms : N) (d : DataService) : DataService :=
  let d := record_in now now_ms RecShutdown d in
  mkDataService (ds_state d) (ds_metrics d) (ds_response_budget_ms d) None None false false true.

Inductive Turn : Type :=
  | HeadTick (next : N)
  | HeadAnswered (head : Result N string)
  | HeadTimedOut
  | LevelsTick (next : N)
  | Ingested (chain : option Chain) (finalized_max : option BlockRef) (first_block : bool) (effects : list Effect)
  | Recorded (r : Recording)
  | BudgetSet (budget : N)
  | Shutdown.

(** A ticker of period [period] woken at [now] for the deadline [due]: on time
    the next deadline is a period after [due], late it is a period after [now]
    ([MissedTickBehavior::Delay]). *)
Definition next_deadline (due now period next : N) : bool :=
  ((due <=? now) && (due + period <=? next) && (next <=? now + period))%N.

(** One task's turn; [None]: no task is at that point. *)
Definition turn (now now_ms : N) (e : Turn) (d : DataService) : option DataService :=
  match e with
  | HeadTick next =>
      match ds_observer d with
      | Some (Waiting due) =>
          if next_deadline due now (upstream_head_refresh_interval (ds_metrics d)) next
          then Some (with_observer (Reading now next) d) else None
      | _ => None
      end
  | HeadAnswered head =>
      match ds_observer d with
      | Some (Reading since due) =>
          if ((since <=? now) && (now <=? since + upstream_head_refresh_timeout (ds_metrics d)))%N then
            Some (refresh_upstream_head now now_ms (Some head) (with_observer (Waiting due) d))
          else None
      | _ => None
      end
  | HeadTimedOut =>
      match ds_observer d with
      | Some (Reading since due) =>
          if (since + upstream_head_refresh_timeout (ds_metrics d) <=? now)%N
          then Some (refresh_upstream_head now now_ms None (with_observer (Waiting due) d)) else None
      | _ => None
      end
  | LevelsTick next =>
      match ds_levels_due d with
      | Some due =>
          if next_deadline due now 1000000000 next
          then Some (with_levels_due next (record_in now now_ms RecRefresh d)) else None
      | None => None
      end
  | Ingested chain finalized_max first_block effects =>
      if ds_ingesting d then
        Some (record_effects now now_ms effects
          (with_service_state (mkService chain finalized_max first_block (sv_published (ds_state d) ++ effects)) d))
      else None
  | Recorded r =>
      match r with
      | RecEffect _ | RecUpstreamHead _ | RecShutdown | RecRefresh => None
      | _ => Some (record_in now now_ms r d)
      end
  | BudgetSet budget => Some (set_response_budget budget d)
  | Shutdown => Some (shutdown now now_ms d)
  end.

Fixpoint timeline (es : list (N * N * Turn)) (d : DataService) : option DataService :=
  match es with
  | [] => Some d
  | (now, now_ms, e) :: es => let! d := turn now now_ms e d in timeline es d
  end.

(** ** The head view *)

(** [slack]: how late a task wakes up. *)
Definition punctual (slack now : N) (d : DataService) : Prop :=
  match ds_observer d with
  | Some (Waiting due) => (now <= due + slack)%N
  | Some (Reading since _) => (now <= since + upstream_head_refresh_timeout (ds_metrics d))%N
  | None => True
  end.

(** The node answers every head read in time, and nobody shuts down. *)
Definition node_answers (e : Turn) : bool :=
  match e with HeadAnswered (Err _) | HeadTimedOut | Shutdown => false | _ => true end.

Fixpoint healthy (slack : N) (es : list (N * N * Turn)) (d : DataService) : Prop :=
  match es with
  | [] => True
  | (now, now_ms, e) :: es =>
      punctual slack now d /\ node_answers e = true
      /\ match turn now now_ms e d with Some d => healthy slack es d | None => False end
  end.

(** The heights the node answered. *)
Definition heads_read (es : list (N * N * Turn)) : list N :=
  omap (fun '(_, _, e) => match e with HeadAnswered (Ok n) => Some n | _ => None end) es.

(** The heights the committed batches proved. *)
Definition heads_proved (d : DataService) : list N :=
  omap (fun e => match e with EUpstreamProgress n => Some n | _ => None end) (sv_published (ds_state d)).

Abbreviation observation d := (upstream_head_observation (ds_metrics d)).
Abbreviation interval d := (upstream_head_refresh_interval (ds_metrics d)).
Abbreviation timeout d := (upstream_head_refresh_timeout (ds_metrics d)).

(** The explicit read the view rests on is recent: no older than the tasks'
    positions allow. *)
Definition paced (slack : N) (d : DataService) : Prop :=
  exists o a, observation d = Some o /\ explicitly_observed_at o = Some a /\
    match ds_observer d with
    | Some (Waiting due) => (due <= a + interval d)%N
    | Some (Reading since due) => (since <= a + interval d + slack /\ due <= since + interval d)%N
    | None => False
    end.

(** A read that is on has its deadline within a period. *)
Definition deadline_near (d : DataService) : Prop :=
  match ds_observer d with Some (Reading since due) => (due <= since + interval d)%N | _ => True end.

(** What a recording that is no head read keeps of the view. *)
Definition view_kept (d d' : DataService) : Prop :=
  stall_after (ds_metrics d') = stall_after (ds_metrics d)
  /\ forall o a, observation d = Some o -> explicitly_observed_at o = Some a ->
       exists o', observation d' = Some o' /\ explicitly_observed_at o' = Some a.

Lemma view_kept_refl d : view_kept d d.
Proof. split; [done|]. intros o a Ho Ha. by exists o. Qed.

Lemma view_kept_trans d1 d2 d3 : view_kept d1 d2 -> view_kept d2 d3 -> view_kept d1 d3.
Proof.
  intros [H1 K1] [H2 K2]. split; [congruence|]. intros o a Ho Ha.
  destruct (K1 o a Ho Ha) as (o' & Ho' & Ha'). by apply (K2 o').
Qed.

Lemma record_keeps_view now now_ms r d : is_head r = false -> view_kept d (record_in now now_ms r d).
Proof.
  intros Hr. split; [apply record_step_config|]. intros o a Ho Ha.
  unfold record_in, with_metrics. cbn [ds_metrics]. rewrite observation_step by done.
  destruct r as [[n| | | | | | | | | | | |]| | | | | | | | | | | |]; try (by exists o).
  unfold observe_upstream_progress. rewrite Ho. destruct (n <=? observed_number o)%N; [by exists o|].
  eexists. split; [reflexivity|]. done.
Qed.

Lemma record_effects_frame now now_ms effects d :
  let d' := record_effects now now_ms effects d in
  view_kept d d' /\ ds_state d' = ds_state d /\ ds_observer d' = ds_observer d
  /\ ds_response_budget_ms d' = ds_response_budget_ms d.
Proof.
  revert d. induction effects as [|e es IH]; intros d; [split; [apply view_kept_refl|done]|].
  cbn zeta. change (record_effects now now_ms (e :: es) d)
    with (record_effects now now_ms es (record_in now now_ms (RecEffect e) d)).
  destruct (IH (record_in now now_ms (RecEffect e) d)) as (Hv & -> & -> & ->).
  split; [|done]. refine (view_kept_trans _ _ _ _ Hv). by apply record_keeps_view.
Qed.

Lemma paced_frame slack d d' :
  view_kept d d' -> ds_observer d' = ds_observer d ->
  (paced slack d -> paced slack d') /\ (deadline_near d -> deadline_near d').
Proof.
  intros [Hs Hk] Ho. unfold paced, deadline_near, upstream_head_refresh_interval. rewrite Ho, Hs. split; [|done].
  intros (o & a & Hobs & Ha & Hp). destruct (Hk o a Hobs Ha) as (o' & ? & ?). by exists o', a.
Qed.

(** Every turn of a healthy service keeps the view paced, and a read that is
    answered makes it so. *)
Lemma moment_paced slack now now_ms e d d' :
  punctual slack now d -> node_answers e = true -> deadline_near d -> turn now now_ms e d = Some d' ->
  deadline_near d' /\ stall_after (ds_metrics d') = stall_after (ds_metrics d)
  /\ (paced slack d \/ (exists n, e = HeadAnswered (Ok n)) -> paced slack d').
Proof.
  intros Hpt Ha Hn Hm.
  assert (forall d1, view_kept d d1 -> ds_observer d1 = ds_observer d -> (forall n, e <> HeadAnswered (Ok n)) ->
    deadline_near d1 /\ stall_after (ds_metrics d1) = stall_after (ds_metrics d)
    /\ (paced slack d \/ (exists n, e = HeadAnswered (Ok n)) -> paced slack d1)) as Hframe.
  { intros d1 Hv Ho Hne. destruct (paced_frame slack d d1 Hv Ho) as [H1 H2].
    split_and!; [by apply H2|apply Hv|]. intros [Hp|[n ->]]; [by apply H1|by destruct (Hne n)]. }
  destruct e as [next|[n|]| |next|c f b effects|r|b|]; cbn [turn] in Hm; try done.
  - destruct (ds_observer d) as [[due|]|] eqn:Ho; [|done..]. unfold punctual in Hpt. rewrite Ho in Hpt.
    destruct (next_deadline due now (interval d) next) eqn:Hd; [|done]. injection Hm as <-.
    unfold next_deadline in Hd. apply andb_prop in Hd as [_ Hd%N.leb_le].
    split_and!; [exact Hd|done|]. intros [(o & a & Hobs & He & Hp)|[n Hx]]; [|done]. rewrite Ho in Hp.
    exists o, a. split_and!; [done..|cbn; lia].
  - destruct (ds_observer d) as [[|since due]|] eqn:Ho; [done| |done]. unfold deadline_near in Hn. rewrite Ho in Hn.
    destruct ((since <=? now) && _)%N eqn:Hd; [|done]. injection Hm as <-.
    apply andb_prop in Hd as [Hs%N.leb_le _]. split_and!; [done..|]. intros _.
    eexists _, now. split; [reflexivity|]. split; [done|].
    change (due <= now + interval d)%N. lia.
  - destruct (ds_levels_due d) as [due|]; [|done]. destruct (next_deadline _ _ _ _); [|done]. injection Hm as <-.
    apply Hframe; [|done|done]. by apply (record_keeps_view now now_ms RecRefresh d).
  - destruct (ds_ingesting d); [|done]. injection Hm as <-.
    set (d1 := with_service_state _ d). destruct (record_effects_frame now now_ms effects d1) as (Hv & _ & Ho & _).
    by apply Hframe.
  - assert (is_head r = false /\ d' = record_in now now_ms r d) as [Hr ->] by (destruct r; simplify_eq; done).
    apply Hframe; [by apply record_keeps_view|done..].
  - injection Hm as <-. apply Hframe; [split; [done|intros o a ? ?; by exists o]|done..].
Qed.

Lemma timeline_paced slack es : forall d d',
  healthy slack es d -> deadline_near d -> timeline es d = Some d' ->
  stall_after (ds_metrics d') = stall_after (ds_metrics d)
  /\ (paced slack d \/ heads_read es <> [] -> paced slack d').
Proof.
  induction es as [|[[now now_ms] e] es IH]; intros d d' Hh Hn Ht; cbn [timeline] in Ht.
  { injection Ht as <-. split; [done|]. by intros [?|?]. }
  destruct Hh as (Hpt & Ha & Hh). destruct (turn now now_ms e d) as [d1|] eqn:Hm; [|done].
  destruct (moment_paced _ _ _ _ _ _ Hpt Ha Hn Hm) as (Hn1 & Hs1 & Hp1).
  destruct (IH d1 d' Hh Hn1 Ht) as (Hs & Hp). split; [congruence|].
  intros [Hpd|Hr]; [by apply Hp; left; apply Hp1; left|].
  destruct e as [| [n|] | | | | | |]; try (by apply Hp; right).
  apply Hp. left. apply Hp1. right. by exists n.
Qed.

(** A paced view is fresh at any punctual moment. *)
Lemma paced_fresh slack now d :
  paced slack d -> punctual slack now d -> (0 < stall_after (ds_metrics d))%N ->
  (interval d + slack + timeout d < stall_after (ds_metrics d))%N ->
  exists o, observation d = Some o /\ fresh_upstream_head now (ds_metrics d) = Some (observed_number o).
Proof.
  intros (o & a & Ho & Ha & Hp) Hpt H0 Hs. exists o. split; [done|].
  unfold fresh_upstream_head. rewrite Ho, Ha. unfold punctual in Hpt.
  rewrite (proj2 (N.ltb_lt _ _)); [done|]. destruct (ds_observer d) as [[due|since due]|]; [| |done]; lia.
Qed.

(** Every height the view shows was answered, or proved. *)
Definition sourced (read : list N) (d : DataService) : Prop :=
  forall o, observation d = Some o -> observed_number o ∈ read ++ heads_proved d.

Lemma record_observes now now_ms r d o :
  is_head r = false -> observation (record_in now now_ms r d) = Some o ->
  observation d = Some o \/ r = RecEffect (EUpstreamProgress (observed_number o)).
Proof.
  intros Hr. unfold record_in, with_metrics. cbn [ds_metrics]. rewrite observation_step by done.
  destruct r as [[n| | | | | | | | | | | |]| | | | | | | | | | | |]; try by left.
  unfold observe_upstream_progress. destruct (observation d) as [cur|] eqn:Ho.
  - destruct (n <=? observed_number cur)%N; [rewrite Ho; by left|]. intros [= <-]. by right.
  - intros [= <-]. by right.
Qed.

Lemma record_effects_observes now now_ms effects : forall d o,
  observation (record_effects now now_ms effects d) = Some o ->
  observation d = Some o \/ EUpstreamProgress (observed_number o) ∈ effects.
Proof.
  induction effects as [|e es IH]; intros d o H; [by left|].
  change (record_effects now now_ms (e :: es) d)
    with (record_effects now now_ms es (record_in now now_ms (RecEffect e) d)) in H.
  destruct (IH _ _ H) as [H1|H1]; [|right; by right].
  apply record_observes in H1 as [H1|[= ->]]; [by left|right; by left|done].
Qed.

Lemma progress_proved d n : EUpstreamProgress n ∈ sv_published (ds_state d) -> n ∈ heads_proved d.
Proof. intros H. unfold heads_proved. apply list_elem_of_omap. by exists (EUpstreamProgress n). Qed.

Lemma sourced_recorded read now now_ms effects d d1 :
  sourced read d -> observation d1 = observation d ->
  sv_published (ds_state d1) = sv_published (ds_state d) ++ effects ->
  sourced read (record_effects now now_ms effects d1).
Proof.
  intros Hs Ho Hp o H. destruct (record_effects_frame now now_ms effects d1) as (_ & Hst & _).
  apply record_effects_observes in H as [H|H].
  - rewrite Ho in H. apply Hs in H as [H|H]%elem_of_app; apply elem_of_app; [by left|right].
    unfold heads_proved in *. rewrite Hst, Hp, omap_app. apply elem_of_app. by left.
  - apply elem_of_app. right. apply progress_proved. rewrite Hst, Hp. apply elem_of_app. by right.
Qed.

Lemma moment_sourced read now now_ms e d d' :
  sourced read d -> turn now now_ms e d = Some d' ->
  sourced (read ++ heads_read [(now, now_ms, e)]) d'.
Proof.
  intros Hs Hm.
  assert (forall d1, (forall o, observation d1 = Some o -> observation d = Some o) ->
    ds_state d1 = ds_state d -> sourced (read ++ heads_read [(now, now_ms, e)]) d1) as Hframe.
  { intros d1 Ho Hst o H%Ho%Hs. unfold heads_proved in *. rewrite Hst, <- app_assoc. set_solver. }
  assert (forall r, is_head r = false -> (forall n, r <> RecEffect (EUpstreamProgress n)) ->
    forall o, observation (record_in now now_ms r d) = Some o -> observation d = Some o) as Hquiet.
  { intros r Hr Hne o [H|H]%record_observes; [done|by destruct (Hne _ H)|done]. }
  destruct e as [next|[n|]| |next|c f b effects|r|b|]; cbn [turn] in Hm.
  - destruct (ds_observer d) as [[due|]|]; try done. destruct (next_deadline _ _ _ _); simplify_eq. by apply Hframe.
  - destruct (ds_observer d) as [[|since due]|]; try done. destruct ((_ && _)%N); [|done]. injection Hm as <-.
    intros o Ho. injection Ho as <-. cbn. set_solver.
  - destruct (ds_observer d) as [[|since due]|]; try done. destruct ((_ && _)%N); simplify_eq. by apply Hframe.
  - destruct (ds_observer d) as [[|since due]|]; try done. destruct (_ <=? _)%N; simplify_eq. by apply Hframe.
  - destruct (ds_levels_due d); [|done]. destruct (next_deadline _ _ _ _); simplify_eq.
    by apply Hframe; [apply (Hquiet RecRefresh)|].
  - destruct (ds_ingesting d); [|done]. injection Hm as <-. cbn [heads_read omap list_omap]. rewrite app_nil_r.
    by eapply sourced_recorded.
  - assert (is_head r = false /\ (forall n, r <> RecEffect (EUpstreamProgress n)) /\ d' = record_in now now_ms r d)
      as (Hr & Hne & ->) by (destruct r; simplify_eq; done).
    by apply Hframe; [apply Hquiet|].
  - injection Hm as <-. by apply Hframe.
  - injection Hm as <-. by apply Hframe; [apply (Hquiet RecShutdown)|].
Qed.

Lemma timeline_sourced es : forall read d d',
  sourced read d -> timeline es d = Some d' -> sourced (read ++ heads_read es) d'.
Proof.
  induction es as [|[[now now_ms] e] es IH]; intros read d d' Hs Ht; cbn [timeline] in Ht.
  { injection Ht as <-. by rewrite app_nil_r. }
  destruct (turn now now_ms e d) as [d1|] eqn:Hm; [|done].
  pose proof (IH _ d1 d' (moment_sourced read now now_ms e d d1 Hs Hm) Ht) as H.
  rewrite <- app_assoc in H. unfold heads_read in *. by rewrite <- omap_app in H.
Qed.

(** ** The theorems *)

(** The first epoch: the seed's checks decide, and the buffer is the seed. *)
Lemma init_first n auto a :
  exists r, accept_seed n a = Some r /\
    match r with
    | Err e => init n auto (mkService None None false []) a = Some (mkService None None false [], Err e)
    | Ok seed => exists c l, chain_new seed n auto = Some c /\ chain_wf c /\ blocks c = [seed]
        /\ get_finalized_head c = Some (block_ref seed)
        /\ init n auto (mkService None None false []) a
           = Some (mkService (Some c) None false [EUpdate l], Ok tt)
    end.
Proof.
  destruct (accept_seed_total n a) as [r Hr]. exists r. split; [done|]. unfold init. rewrite Hr.
  destruct r as [seed|e]; [|done]. apply accept_seed_spec in Hr as (Hn & Hp & _).
  destruct (chain_new_ready seed n auto Hn Hp) as (c & Hc & Hwf & _ & Hb).
  destruct (trigger_update_total c Hwf) as [us Hus]. pose proof Hus as Hl. unfold trigger_update_locked in Hl.
  destruct (last_block c); [|done]. destruct (first_block_number c); [|done].
  destruct (get_finalized_head c) as [fh|] eqn:Hf; [|done]. injection Hl as <-.
  assert (Some fh = Some (block_ref seed)) as Hfh.
  { rewrite <- Hf. unfold chain_new in Hc. destruct (n =? 0); [done|]. by injection Hc as <-. }
  exists c. eexists. cbn. rewrite Hc. cbn. rewrite Hus. split_and!; by rewrite ?Hf.
Qed.

(** What a start does, from the seed's checks and the listener. *)
Lemma run_data_service_eq now now_ms n auto m a bind :
  exists r, accept_seed n a = Some r /\
    match r with
    | Err e => run_data_service now now_ms n auto m a bind = Some (Err (InitFailed e))
    | Ok seed => exists c l, chain_wf c /\ blocks c = [seed] /\ get_finalized_head c = Some (block_ref seed)
        /\ run_data_service now now_ms n auto m a bind =
           Some match bind with
                | Err what => Err (BindFailed what)
                | Ok port => Ok (port, mkDataService (mkService (Some c) None false [EUpdate l])
                    (set_levels now_ms l m) DEFAULT_RESPONSE_BUDGET (Some (Waiting now)) (Some now) true true false)
                end
    end.
Proof.
  destruct (init_first n auto a) as (r & Hr & Hi). exists r. split; [done|].
  unfold run_data_service. cbn [service_new ds_state]. destruct r as [seed|e]; [|by rewrite Hi].
  destruct Hi as (c & l & _ & Hwf & Hb & Hf & ->). exists c, l. split_and!; [done..|]. by destruct bind.
Qed.

(** Startup never panics. It fails for a seed that is refused, and then binds
    nothing, or for a port that cannot be bound; otherwise the service answers
    with the seed as its head and its finalized head, is not ready before the
    first read of the upstream head, and gives a response a minute. *)
Theorem startup_exact now now_ms n auto m a bind :
  upstream_head_observation m = None ->
  exists r, run_data_service now now_ms n auto m a bind = Some r /\
    match r with
    | Err (InitFailed e) => accept_seed n a = Some (Err e)
    | Err (BindFailed what) => bind = Err what /\ exists seed, accept_seed n a = Some (Ok seed)
    | Ok (port, d) => bind = Ok port /\ exists seed c, accept_seed n a = Some (Ok seed)
        /\ sv_chain (ds_state d) = Some c /\ chain_wf c /\ blocks c = [seed]
        /\ service_head d = Some (block_ref seed) /\ service_finalized_head d = Some (block_ref seed)
        /\ (forall T, service_is_ready T d = Some false) /\ response_budget d = 60000000000%N
    end.
Proof.
  intros Hm. destruct (run_data_service_eq now now_ms n auto m a bind) as (r & Hr & Hrun).
  destruct r as [seed|e]; [|by eexists].
  destruct Hrun as (c & l & Hwf & Hb & Hf & ->). eexists. split; [reflexivity|].
  destruct bind as [port|what]; [|by eauto]. split; [done|]. exists seed, c.
  split_and!; [done|done|done|done| |exact Hf| |done].
  - unfold service_head, get_chain_ref, get_head, last_block. cbn. by rewrite Hb.
  - intros T. unfold service_is_ready, get_chain_ref, is_ready, fresh_upstream_head. cbn [ds_state ds_metrics sv_chain].
    change (upstream_head_observation (set_levels now_ms l m)) with (upstream_head_observation m). by rewrite Hm.
Qed.

(** C13: A service that has caught up stays ready. From startup on, whatever
    batches are ingested, requests served and recordings made in between, as
    long as the node answers each head read before its timeout and tasks wake
    up within three eighths of the stall bound, the readiness endpoint answers
    at every moment after the first read, by a height that was read from the
    node or proved by a batch: ready exactly when the chain's head is not below
    it, so without a gap while the head is at or above all of them. *)
Theorem caught_up_stays_ready now now_ms n auto m a bind port d0 slack es d T c h :
  run_data_service now now_ms n auto m a bind = Some (Ok (port, d0)) ->
  upstream_head_observation m = None -> (8000000 <= stall_after m)%N -> (8 * slack < 3 * stall_after m)%N ->
  timeline es d0 = Some d -> healthy slack es d0 -> heads_read es <> [] -> punctual slack T d ->
  sv_chain (ds_state d) = Some c -> get_head c = Some h ->
  exists k, k ∈ heads_read es ++ heads_proved d
    /\ handle_readiness T (ds_metrics d) c
       = Some (if (k <=? br_number h)%N then text_response 200 "true" else text_response 503 "false")
    /\ ((forall k, k ∈ heads_read es ++ heads_proved d -> (k <= br_number h)%N) ->
        service_is_ready T d = Some true).
Proof.
  intros Hrun Hm Hb Hs Ht Hh Hr HT Hc Hhd.
  destruct (run_data_service_eq now now_ms n auto m a bind) as (r & _ & Hd). rewrite Hrun in Hd.
  destruct r as [seed|e]; [|done]. destruct Hd as (c0 & l & _ & _ & _ & Hd). destruct bind as [p|]; [|done].
  injection Hd as -> ->.
  set (d0 := mkDataService _ _ _ _ _ _ _ _) in *.
  assert (sourced [] d0) as Hs0 by (intros o Ho; change (observation d0) with (upstream_head_observation m) in Ho; congruence).
  destruct (timeline_paced slack es d0 d Hh I Ht) as [Hstall Hp].
  change (stall_after (ds_metrics d0)) with (stall_after m) in Hstall.
  destruct (paced_fresh slack T d (Hp (or_intror Hr)) HT) as (o & Ho & Hf); [lia| |].
  { unfold upstream_head_refresh_timeout, upstream_head_refresh_interval. rewrite Hstall.
    assert (2 * (stall_after m / 2) <= stall_after m)%N by apply N.Div0.mul_div_le.
    assert (4000000 <= stall_after m / 2)%N by (apply N.div_le_lower_bound; lia).
    rewrite (N.max_l _ _) by lia.
    assert (4 * (stall_after m / 2 / 4) <= stall_after m / 2)%N by apply N.Div0.mul_div_le.
    assert (1000000 <= stall_after m / 2 / 4)%N by (apply N.div_le_lower_bound; lia).
    rewrite N.max_l by lia. revert H H0 H1 H2. generalize (stall_after m / 2 / 4)%N as q.
    generalize (stall_after m / 2)%N as p2. lia. }
  pose proof (timeline_sourced es [] d0 d Hs0 Ht o Ho) as Hk. exists (observed_number o). split; [exact Hk|].
  assert (is_ready T (ds_metrics d) c = Some (observed_number o <=? br_number h)%N) as Hready.
  { unfold is_ready. by rewrite Hf, Hhd. }
  split.
  - unfold handle_readiness. rewrite Hready. done.
  - intros Hall. unfold service_is_ready, get_chain_ref. rewrite Hc. cbn. rewrite Hready. f_equal.
    by apply N.leb_le, Hall.
Qed.
End lifecycle.

(** ** Instances *)

(** Seeded at 20, with the default stall bound of a minute: the head is read
    every 30 s, with 7.5 s to answer. *)
Definition demo_started : option (Result (N * DataService) StartError) :=
  run_data_service no_text 0 0 10 true (metrics_new 0 0) demo_seed (Ok 3000%N).

Definition demo_day : list (N * N * Turn) :=
  [(0, 0, HeadTick 30000000000); (1000000000, 0, HeadAnswered (Ok 20));
   (1000000000, 0, LevelsTick 2000000000);
   (2000000000, 0, Ingested (chain_new (make_block 20 "s" 19 "r") 10 true) None true [EUpstreamProgress 20; ECommit]);
   (3000000000, 0, Recorded (RecQuery QWindow)); (30000000000, 0, HeadTick 60000000000)]%N.

(** A read that is missed shows: the view lapses a stall bound after the last
    one, before the next can renew it, and the service is not ready until then. *)
Definition demo_missed : list (N * N * Turn) :=
  demo_day ++ [(37500000000, 0, HeadTimedOut); (60000000000, 0, HeadTick 90000000000)]%N.

Definition demo_readiness (T : N) (es : list (N * N * Turn)) : option bool :=
  match demo_started with
  | Some (Ok (_, d)) => let! d := timeline no_text es d in service_is_ready T d
  | _ => None
  end.

Example one_missed_read_shows :
  demo_readiness 60900000000 demo_missed = Some true /\ demo_readiness 61000000000 demo_missed = Some false
  /\ demo_readiness 62000000000 (demo_missed ++ [(62000000000, 0, HeadAnswered (Ok 20))]%N) = Some true.
Proof. vm_compute. by repeat split. Qed.

Lemma startup_exact_witness :
  exists port d, demo_started = Some (Ok (port, d)) /\ service_head d = Some (mkBlockRef 20 "s")
    /\ service_is_ready 5 d = Some false.
Proof.
  destruct (startup_exact no_text 0 0 10 true (metrics_new 0 0) demo_seed (Ok 3000%N) eq_refl) as (r & E & Hr).
  destruct r as [[port d]|[e|what]]; [|by vm_compute in Hr|by destruct Hr]. exists port, d.
  destruct Hr as (_ & seed & c & Hs & _ & _ & _ & Hh & _ & Hready & _).
  split; [exact E|]. split; [|exact (Hready 5%N)]. rewrite Hh. vm_compute in Hs. by injection Hs as <-.
Defined.

(** What holds of the started service, and of it at the end of the day. *)
Lemma demo_day_healthy :
  match demo_started with
  | Some (Ok (port, d0)) =>
      match timeline no_text demo_day d0 with
      | Some d => port = 3000%N /\ healthy no_text 1000000000 demo_day d0 /\ punctual 1000000000 37000000000 d
          /\ heads_proved d = [20%N] /\ service_head d = Some (mkBlockRef 20 "s")
      | None => False
      end
  | _ => False
  end.
Proof. vm_compute. repeat split; discriminate. Qed.

Lemma caught_up_stays_ready_witness :
  exists d0 d, demo_started = Some (Ok (3000%N, d0)) /\ timeline no_text demo_day d0 = Some d
    /\ service_is_ready 37000000000 d = Some true.
Proof.
  pose proof demo_day_healthy as H.
  destruct demo_started as [[[port d0]|]|] eqn:E; [|done..].
  destruct (timeline no_text demo_day d0) as [d|] eqn:Et; [|done].
  destruct H as (-> & Hh & Hp & Hproved & Hhead). exists d0, d. split; [done|]. split; [exact Et|].
  unfold service_head, get_chain_ref in Hhead. destruct (sv_chain (ds_state d)) as [c|] eqn:Ec; [|done].
  destruct (caught_up_stays_ready no_text 0 0 10 true (metrics_new 0 0) demo_seed (Ok 3000%N) 3000 d0 1000000000
              demo_day d 37000000000 c _ E eq_refl ltac:(by vm_compute) ltac:(by vm_compute) Et Hh
              ltac:(done) Hp Ec Hhead) as (k & _ & _ & Hready).
  apply Hready. rewrite Hproved. intros k' Hk. vm_compute in Hk. cbn. set_solver.
Defined.
