(* ===== verification/Rate.v ===== *)
(** * Rate: the sliding-window rate meter (rate.rs) and its gate (client.rs)

    A ring of [window_size + 1] slots indexed by the slot number modulo its
    length. Slot numbers are [i64]s (a [Z], the cast from [u64] written out),
    counters are [u64]s ([N]; a wrap would need 2^64 calls in one window) and
    the [f64] rates are exact rationals, so rounding is left out. *)
From S2P Require Import Prelude.
From Stdlib Require Import QArith Qround Lqa.
Local Open Scope Z_scope.

Record RateMeter := mkRateMeter {
  window : list N;
  time : Z;
  window_size : nat;
  slot_time : N
}.

Definition rate_meter_new (window_size : nat) (slot_time : N) : RateMeter :=
  mkRateMeter (replicate (window_size + 1) 0%N) 0 window_size slot_time.

Definition Q_of_nat (n : nat) : Q := inject_Z (Z.of_nat n).
Definition Q_of_N (n : N) : Q := inject_Z (Z.of_N n).

(** [(1000.0 / (limit * window_size)).ceil()] below one item per second. *)
Definition for_rate_limit (window_size : nat) (limit : Q) : RateMeter :=
  let slot_time :=
    if Qle_bool 1 limit then 100%N
    else Z.to_N (Qceiling (inject_Z 1000 / (limit * Q_of_nat window_size))%Q) in
  rate_meter_new window_size slot_time.

(** Rate contributed by [count] items within the meter's window. *)
Definition contribution (m : RateMeter) (count : N) : Q :=
  (inject_Z 1000 * Q_of_N count / (Q_of_nat (window_size m) * Q_of_N (slot_time m)))%Q.

Definition calls_per_window (m : RateMeter) (limit : Q) : nat :=
  Z.to_nat (Qfloor (limit / contribution m 1)%Q).

(** [u64 as i64]. *)
Definition as_i64 (n : Z) : Z :=
  if n <? 9223372036854775808 then n else n - 18446744073709551616.

(** [now_ms.div_ceil(slot_time)]; a zero slot time panics. *)
Definition div_ceil (a b : N) : option Z :=
  if (b =? 0)%N then None else Some ((Z.of_N a + Z.of_N b - 1) / Z.of_N b).

Definition to_time (m : RateMeter) (now_ms : N) : option Z :=
  match div_ceil now_ms (slot_time m) with
  | Some t => Some (Z.max (as_i64 t) (time m))
  | None => None
  end.

(** [window[i.rem_euclid(win_len)]]. *)
Definition slot_index (m : RateMeter) (slot : Z) : nat :=
  Z.to_nat (slot mod Z.of_nat (length (window m))).

(** [while c > lo { window[c] = 0; c -= 1 }], [c - lo] iterations. *)
Fixpoint clear_down (index : Z -> nat) (n : nat) (c : Z) (w : list N) : list N :=
  match n with
  | O => w
  | S n => clear_down index n (c - 1) (<[index c := 0%N]> w)
  end.

(** [while time > cutoff { rate += window[time]; time -= 1 }]; [None] is an
    index out of range. *)
Fixpoint sum_down (index : Z -> nat) (w : list N) (n : nat) (t : Z) (rate : N) : option N :=
  match n with
  | O => Some rate
  | S n =>
      match w !! index t with
      | Some c => sum_down index w n (t - 1) (rate + c)%N
      | None => None
      end
  end.

Definition inc (m : RateMeter) (count now_ms : N) : option RateMeter :=
  match to_time m now_ms with
  | None => None
  | Some now =>
      let win_len := Z.of_nat (length (window m)) in
      let cutoff := now - win_len in
      let cleared :=
        if cutoff <? time m then
          clear_down (slot_index m) (Z.to_nat (cutoff - (time m - win_len))) cutoff (window m)
        else replicate (length (window m)) 0%N in
      match cleared !! slot_index m now with
      | None => None
      | Some c =>
          Some (mkRateMeter (<[slot_index m now := (c + count)%N]> cleared) now
                  (window_size m) (slot_time m))
      end
  end.

(** The number of events [get_rate] counts, before it is scaled. *)
Definition window_count (m : RateMeter) (now_ms : N) : option N :=
  match to_time m now_ms with
  | None => None
  | Some now =>
      let cutoff := now - Z.of_nat (length (window m)) in
      sum_down (slot_index m) (window m) (Z.to_nat (time m - cutoff)) (time m) 0
  end.

Definition get_rate (m : RateMeter) (now_ms : N) : option Q :=
  match window_count m now_ms with
  | Some rate => Some (contribution m rate)
  | None => None
  end.

(** One turn of [wait_for_rate]'s loop under the state lock: reserve, or sleep
    a slot ([None] in the sum). *)
Definition try_reserve (m : RateMeter) (limit : Q) (count now_ms : N)
    : option (RateMeter + unit) :=
  match get_rate m now_ms with
  | None => None
  | Some rate =>
      if Qle_bool (rate + contribution m count) limit then
        match inc m count now_ms with Some m' => Some (inl m') | None => None end
      else Some (inr tt)
  end.

(** ** The ring and the events it stands for *)

(** An event: [count] items recorded in a slot. *)
Definition events_in (lo hi : Z) (es : list (Z * N)) : N :=
  foldr (fun e acc => if (lo <? fst e) && (fst e <=? hi) then (snd e + acc)%N else acc) 0%N es.

Definition events_at (slot : Z) (es : list (Z * N)) : N := events_in (slot - 1) slot es.

(** The ring holds exactly the events of the slots it still covers. *)
Record meter_inv (m : RateMeter) (es : list (Z * N)) : Prop := {
  inv_len : length (window m) = (window_size m + 1)%nat;
  inv_slot : (0 < slot_time m)%N;
  inv_past : Forall (fun e => fst e <= time m) es;
  inv_ring : forall s, time m - Z.of_nat (length (window m)) < s <= time m ->
    window m !! slot_index m s = Some (events_at s es)
}.

Lemma events_in_app lo hi es es' :
  events_in lo hi (es ++ es') = (events_in lo hi es + events_in lo hi es')%N.
Proof.
  induction es as [|[s n] es IH]; simpl; [done|]. rewrite IH. case_match; lia.
Qed.

Lemma events_in_split lo mid hi es :
  lo <= mid <= hi -> events_in lo hi es = (events_in lo mid es + events_in mid hi es)%N.
Proof.
  intros H. induction es as [|[s n] es IH]; simpl; [done|]. rewrite IH.
  destruct (Z.ltb_spec lo s), (Z.leb_spec s hi), (Z.leb_spec s mid), (Z.ltb_spec mid s);
    simpl; lia.
Qed.

Lemma events_in_none lo hi es :
  Forall (fun e => fst e <= lo \/ hi < fst e) es -> events_in lo hi es = 0%N.
Proof.
  induction 1 as [|[s n] es Hs _ IH]; simpl in *; [done|]. rewrite IH.
  destruct (Z.ltb_spec lo s), (Z.leb_spec s hi); simpl; lia.
Qed.

Lemma events_in_mono lo lo' hi hi' es :
  lo' <= lo -> hi <= hi' -> (events_in lo hi es <= events_in lo' hi' es)%N.
Proof.
  intros H1 H2. induction es as [|[s n] es IH]; simpl; [lia|].
  destruct (Z.ltb_spec lo s), (Z.leb_spec s hi), (Z.ltb_spec lo' s), (Z.leb_spec s hi');
    simpl; lia.
Qed.

Section ring.
Context (len : nat) (Hlen : (0 < len)%nat).

Definition ring_index (s : Z) : nat := Z.to_nat (s mod Z.of_nat len).

Lemma ring_index_lt s : (ring_index s < len)%nat.
Proof. unfold ring_index. pose proof (Z.mod_pos_bound s (Z.of_nat len) ltac:(lia)). lia. Qed.

Lemma ring_index_inj a b :
  ring_index a = ring_index b -> Z.abs (a - b) < Z.of_nat len -> a = b.
Proof.
  unfold ring_index. intros H Hd.
  pose proof (Z.mod_pos_bound a (Z.of_nat len) ltac:(lia)).
  pose proof (Z.mod_pos_bound b (Z.of_nat len) ltac:(lia)).
  assert (a mod Z.of_nat len = b mod Z.of_nat len) as Hm by lia.
  pose proof (Z.div_mod a (Z.of_nat len) ltac:(lia)).
  pose proof (Z.div_mod b (Z.of_nat len) ltac:(lia)).
  assert (Z.of_nat len * (a / Z.of_nat len - b / Z.of_nat len) = a - b) by lia.
  assert (a / Z.of_nat len - b / Z.of_nat len = 0) by nia. nia.
Qed.

Lemma ring_index_shift s : ring_index (s + Z.of_nat len) = ring_index s.
Proof.
  unfold ring_index. f_equal. rewrite <- (Z_mod_plus_full s 1 (Z.of_nat len)). f_equal. lia.
Qed.

Lemma clear_down_length n c w : length (clear_down ring_index n c w) = length w.
Proof. revert c w. induction n as [|n IH]; intros c w; simpl; [done|]. by rewrite IH, length_insert. Qed.

(** Clearing [n] slots down from [c] zeroes exactly them. *)
Lemma clear_down_lookup n c w s :
  length w = len -> (n <= len)%nat -> c - Z.of_nat n < s <= c - Z.of_nat n + Z.of_nat len ->
  clear_down ring_index n c w !! ring_index s =
  if s <=? c then Some 0%N else w !! ring_index s.
Proof.
  revert c w. induction n as [|n IH]; intros c w Hw Hn Hs; simpl.
  { destruct (Z.leb_spec s c); [lia|done]. }
  destruct (decide (s = c - Z.of_nat n)) as [Heq|Hne].
  - (* the last slot cleared, then untouched *)
    destruct n as [|n'].
    + simpl. replace s with c by lia. destruct (Z.leb_spec c c); [|lia].
      apply list_lookup_insert_eq. rewrite Hw. apply ring_index_lt.
    + rewrite IH; [|by rewrite length_insert|lia|lia].
      destruct (Z.leb_spec s (c - 1)), (Z.leb_spec s c); try lia; done.
  - rewrite IH; [|by rewrite length_insert|lia|lia].
    destruct (Z.leb_spec s (c - 1)), (Z.leb_spec s c); try lia; [done| |].
    + replace s with c by lia. apply list_lookup_insert_eq. rewrite Hw. apply ring_index_lt.
    + apply list_lookup_insert_ne. intros E. apply ring_index_inj in E; lia.
Qed.

Lemma sum_down_spec w n t rate (f : Z -> N) :
  (forall s, t - Z.of_nat n < s <= t -> w !! ring_index s = Some (f s)) ->
  exists r, sum_down ring_index w n t rate = Some r /\
    forall es, (forall s, t - Z.of_nat n < s <= t -> f s = events_at s es) ->
      r = (rate + events_in (t - Z.of_nat n) t es)%N.
Proof.
  revert t rate. induction n as [|n IH]; intros t rate Hf; simpl.
  - exists rate. split; [done|]. intros es _. rewrite events_in_none; [lia|].
    apply Forall_forall. intros e _. lia.
  - rewrite (Hf t) by lia. destruct (IH (t - 1) (rate + f t)%N) as (r & E & Hr).
    { intros s Hs. apply Hf. lia. }
    exists r. split; [done|]. intros es He. rewrite (Hr es) by (intros; apply He; lia).
    rewrite (He t) by lia. unfold events_at.
    rewrite (events_in_split (t - Z.of_nat (S n)) (t - 1) t) by lia.
    replace (t - 1 - Z.of_nat n) with (t - Z.of_nat (S n)) by lia. lia.
Qed.
End ring.

Lemma slot_index_ring m : slot_index m = ring_index (length (window m)).
Proof. done. Qed.

Lemma to_time_some m es now_ms :
  meter_inv m es -> exists t, to_time m now_ms = Some t /\ time m <= t.
Proof.
  intros [_ Hs _ _]. unfold to_time, div_ceil. destruct (N.eqb_spec (slot_time m) 0); [lia|].
  eexists. split; [done|lia].
Qed.

(** No event is later than the meter's current slot. *)
Lemma events_past m es s :
  meter_inv m es -> time m < s -> events_at s es = 0%N.
Proof.
  intros [_ _ Hp _] Hs. apply events_in_none. eapply Forall_impl; [exact Hp|].
  intros e He. simpl in *. lia.
Qed.

(** Expiring the slots that leave the window as it moves to [now]. *)
Lemma cleared_ring m es now s :
  meter_inv m es -> time m <= now ->
  let len := length (window m) in
  now - Z.of_nat len < s <= now ->
  (if now - Z.of_nat len <? time m
   then clear_down (slot_index m) (Z.to_nat (now - Z.of_nat len - (time m - Z.of_nat len)))
          (now - Z.of_nat len) (window m)
   else replicate len 0%N) !! slot_index m s = Some (events_at s es).
Proof.
  intros Hinv Hnow len Hs. pose proof Hinv as [Hlen Hslot Hp Hring].
  rewrite slot_index_ring in *. fold len in Hring |- *.
  assert (0 < len)%nat as Hpos by (unfold len; lia).
  destruct (Z.ltb_spec (now - Z.of_nat len) (time m)) as [Hlt|Hge].
  - set (n := Z.to_nat _). assert (Z.of_nat n = now - time m) as Hn by lia.
    destruct (Z.leb_spec s (time m)).
    + rewrite (clear_down_lookup len Hpos) by (done || lia). destruct (Z.leb_spec s (now - Z.of_nat len)); [lia|].
      apply Hring. lia.
    + rewrite (events_past m es s) by done.
      replace s with (s - Z.of_nat len + Z.of_nat len) by lia.
      rewrite (ring_index_shift len Hpos), (clear_down_lookup len Hpos) by (done || lia).
      destruct (Z.leb_spec (s - Z.of_nat len) (now - Z.of_nat len)); [done|lia].
  - rewrite lookup_replicate_2 by by apply ring_index_lt.
    by rewrite (events_past m es s) by (done || lia).
Qed.

Lemma inc_inv m es count now_ms now :
  meter_inv m es -> to_time m now_ms = Some now ->
  exists m', inc m count now_ms = Some m' /\ meter_inv m' (es ++ [(now, count)]) /\
    time m' = now /\ window_size m' = window_size m /\ slot_time m' = slot_time m.
Proof.
  intros Hinv Ht. pose proof Hinv as [Hlen Hslot Hp Hring].
  destruct (to_time_some m es now_ms Hinv) as (t & Ht' & Hle). simplify_eq.
  unfold inc. rewrite Ht. set (len := length (window m)).
  match goal with |- context [match ?c !! slot_index m now with _ => _ end] => set (cleared := c) end.
  assert (forall s, now - Z.of_nat len < s <= now -> cleared !! slot_index m s = Some (events_at s es))
    as Hc by (intros; by apply cleared_ring).
  assert (0 < len)%nat as Hpos by (unfold len; lia).
  assert (length cleared = len) as Hcl.
  { unfold cleared. case_match; [by rewrite slot_index_ring, clear_down_length|apply length_replicate]. }
  rewrite (Hc now) by lia. eexists. split; [done|]. split_and!; [|done..].
  split; simpl; rewrite ?length_insert, ?Hcl; [done|done| |].
  - apply Forall_app. split; [eapply Forall_impl; [exact Hp|]; simpl; lia|].
    constructor; [simpl; lia|constructor].
  - intros s Hs. unfold slot_index at 1. simpl. rewrite length_insert, Hcl.
    change (Z.to_nat (s mod Z.of_nat len)) with (slot_index m s).
    unfold events_at. rewrite events_in_app. simpl.
    destruct (decide (s = now)) as [->|Hne].
    + rewrite list_lookup_insert_eq by (rewrite Hcl; by apply ring_index_lt).
      destruct (Z.ltb_spec (now - 1) now), (Z.leb_spec now now); simpl; [|lia..].
      f_equal. unfold events_at. lia.
    + rewrite list_lookup_insert_ne, Hc by
        (lia || (intros E; apply (ring_index_inj len Hpos) in E; lia)).
      destruct (Z.ltb_spec (s - 1) now), (Z.leb_spec now s); simpl; [lia|..]; unfold events_at;
        f_equal; lia.
Qed.

Lemma window_count_spec m es now_ms now :
  meter_inv m es -> to_time m now_ms = Some now ->
  window_count m now_ms =
    Some (events_in (now - Z.of_nat (length (window m))) now es).
Proof.
  intros Hinv Ht. pose proof Hinv as [Hlen Hslot Hp Hring].
  destruct (to_time_some m es now_ms Hinv) as (t & Ht' & Hle). simplify_eq.
  unfold window_count. rewrite Ht. set (len := length (window m)).
  rewrite slot_index_ring. fold len.
  assert (0 < len)%nat as Hpos by (unfold len; lia).
  destruct (sum_down_spec len Hpos (window m) (Z.to_nat (time m - (now - Z.of_nat len)))
    (time m) 0 (fun s => events_at s es)) as (r & E & Hr).
  { intros s Hs. unfold len. rewrite <- slot_index_ring. apply Hring. fold len. lia. }
  rewrite E, (Hr es) by done. f_equal. simpl.
  destruct (Z.ltb_spec (now - Z.of_nat len) (time m)).
  - rewrite Z2Nat.id by lia. replace (time m - _) with (now - Z.of_nat len) by lia.
    rewrite (events_in_split (now - Z.of_nat len) (time m) now) by lia.
    rewrite (events_in_none (time m) now); [lia|].
    eapply Forall_impl; [exact Hp|]. simpl. lia.
  - rewrite !events_in_none; [done|eapply Forall_impl; [exact Hp|]; simpl; lia|].
    eapply Forall_impl; [exact Hp|]. simpl. lia.
Qed.

Lemma rate_meter_new_inv ws st : (0 < st)%N -> meter_inv (rate_meter_new ws st) [].
Proof.
  intros Hs. split; simpl; [apply length_replicate|done|done|].
  intros s _. unfold slot_index. simpl. apply lookup_replicate_2.
  rewrite length_replicate.
  pose proof (Z.mod_pos_bound s (Z.of_nat (ws + 1)) ltac:(lia)). lia.
Qed.

(** ** Reservations *)

(** A schedule of reservation attempts: the items asked for and the clock. *)
Fixpoint reserve_all (m : RateMeter) (limit : Q) (asks : list (N * N))
    : option (RateMeter * list (N * N)) :=
  match asks with
  | [] => Some (m, [])
  | (count, now_ms) :: asks =>
      match try_reserve m limit count now_ms with
      | None => None
      | Some (inr _) => reserve_all m limit asks
      | Some (inl m') =>
          match reserve_all m' limit asks with
          | Some (m'', granted) => Some (m'', (count, now_ms) :: granted)
          | None => None
          end
      end
  end.

Lemma contribution_add m a b :
  (contribution m (a + b) == contribution m a + contribution m b)%Q.
Proof.
  unfold contribution, Q_of_N. rewrite N2Z.inj_add, inject_Z_plus.
  unfold Qdiv. ring.
Qed.

Lemma contribution_le m a b : (a <= b)%N -> (contribution m a <= contribution m b)%Q.
Proof.
  intros H. unfold contribution, Qdiv. apply Qmult_le_compat_r.
  - apply Qmult_le_l; [done|]. unfold Q_of_N. rewrite <- Zle_Qle. lia.
  - apply Qinv_le_0_compat. unfold Q_of_nat, Q_of_N. rewrite <- inject_Z_mult.
    change 0%Q with (inject_Z 0). rewrite <- Zle_Qle. lia.
Qed.

(** The slot a clock reading belongs to. *)
Definition slot_of (m : RateMeter) (now_ms : N) : Z :=
  (Z.of_N now_ms + Z.of_N (slot_time m) - 1) / Z.of_N (slot_time m).

(** A clock that does not run backwards, from [t] on, in the range where the
    slot number fits an [i64]. *)
Fixpoint clock_from (t : N) (asks : list (N * N)) : Prop :=
  match asks with
  | [] => True
  | (_, now_ms) :: asks => (t <= now_ms < 9223372036854775808)%N /\ clock_from now_ms asks
  end.

Lemma slot_of_mono m a b :
  (0 < slot_time m)%N -> (a <= b)%N -> slot_of m a <= slot_of m b.
Proof. intros Hs H. unfold slot_of. apply Z.div_le_mono; lia. Qed.

Lemma to_time_slot_of m t now_ms :
  (0 < slot_time m)%N -> time m <= slot_of m t -> (t <= now_ms < 9223372036854775808)%N ->
  to_time m now_ms = Some (slot_of m now_ms).
Proof.
  intros Hs Ht Hn. pose proof (slot_of_mono m t now_ms Hs ltac:(lia)).
  unfold to_time, div_ceil. destruct (N.eqb_spec (slot_time m) 0); [lia|].
  fold (slot_of m now_ms). f_equal. unfold as_i64.
  assert (slot_of m now_ms < 9223372036854775808) as Hlt.
  { unfold slot_of. apply Z.div_lt_upper_bound; nia. }
  destruct (Z.ltb_spec (slot_of m now_ms) 9223372036854775808); lia.
Qed.

(** No window of the ring's length holds more than the limit. *)
Definition windows_within (m : RateMeter) (limit : Q) (es : list (Z * N)) : Prop :=
  forall hi, (contribution m (events_in (hi - Z.of_nat (length (window m))) hi es) <= limit)%Q.

Lemma windows_within_snoc m limit es now count :
  windows_within m limit es -> Forall (fun e => fst e <= now) es ->
  (contribution m (events_in (now - Z.of_nat (length (window m))) now es)
     + contribution m count <= limit)%Q ->
  windows_within m limit (es ++ [(now, count)]).
Proof.
  intros Hw Hp Hc hi. rewrite events_in_app. set (len := Z.of_nat _) in *.
  destruct (Z.leb_spec now hi) as [Hle|Hgt].
  - rewrite <- contribution_add in Hc. eapply Qle_trans; [|exact Hc]. apply contribution_le.
    assert (events_in (hi - len) hi es <= events_in (now - len) now es)%N.
    { destruct (Z.leb_spec (hi - len) now).
      - rewrite (events_in_split (hi - len) now hi) by lia.
        rewrite (events_in_none now hi); [|eapply Forall_impl; [exact Hp|]; simpl; lia].
        pose proof (events_in_mono (hi - len) (now - len) now now es). lia.
      - rewrite (events_in_none (hi - len) hi); [lia|].
        eapply Forall_impl; [exact Hp|]. simpl. lia. }
    assert (events_in (hi - len) hi [(now, count)] <= count)%N by (simpl; case_match; lia).
    lia.
  - replace (events_in (hi - len) hi [(now, count)]) with 0%N; [rewrite N.add_0_r; apply Hw|].
    simpl. destruct (Z.leb_spec now hi); [lia|]. by rewrite andb_false_r.
Qed.

Definition same_shape (m m' : RateMeter) : Prop :=
  window_size m' = window_size m /\ slot_time m' = slot_time m /\
  length (window m') = length (window m).

Lemma contribution_same m m' n : same_shape m m' -> contribution m' n = contribution m n.
Proof. intros (H1 & H2 & _). unfold contribution. by rewrite H1, H2. Qed.

Lemma windows_within_same m m' limit es :
  same_shape m m' -> windows_within m limit es -> windows_within m' limit es.
Proof.
  intros Hsh Hw hi. rewrite (contribution_same m m') by done. destruct Hsh as (_ & _ & ->).
  apply Hw.
Qed.

Lemma try_reserve_spec m es limit count now_ms t :
  meter_inv m es -> windows_within m limit es ->
  time m <= slot_of m t -> (t <= now_ms < 9223372036854775808)%N ->
  exists r, try_reserve m limit count now_ms = Some r /\
    match r with
    | inr _ => (limit < contribution m (events_in (slot_of m now_ms - Z.of_nat (length (window m)))
                          (slot_of m now_ms) es) + contribution m count)%Q
    | inl m' =>
        meter_inv m' (es ++ [(slot_of m now_ms, count)]) /\ same_shape m m' /\
        windows_within m' limit (es ++ [(slot_of m now_ms, count)]) /\
        time m' = slot_of m now_ms
    end.
Proof.
  intros Hinv Hw Ht Hn. pose proof (inv_slot _ _ Hinv) as Hs.
  pose proof (to_time_slot_of m t now_ms Hs Ht Hn) as Htt.
  unfold try_reserve, get_rate. rewrite (window_count_spec m es now_ms _ Hinv Htt).
  destruct (Qle_bool _ limit) eqn:E.
  - destruct (inc_inv m es count now_ms _ Hinv Htt) as (m' & Ei & Hinv' & Htm & Hws & Hst).
    rewrite Ei. eexists. split; [done|].
    assert (same_shape m m') as Hsh.
    { split_and!; [done..|]. destruct Hinv as [Hl _ _ _], Hinv' as [Hl' _ _ _]. lia. }
    split_and!; [done..| |done]. apply (windows_within_same m); [done|].
    apply windows_within_snoc; [done| |by apply Qle_bool_iff].
    eapply Forall_impl; [exact (inv_past _ _ Hinv)|]. simpl. intros e He.
    pose proof (slot_of_mono m t now_ms Hs ltac:(lia)). lia.
  - eexists. split; [done|]. apply Qnot_le_lt. intros Hle. apply Qle_bool_iff in Hle. congruence.
Qed.

Lemma slot_of_same m m' t : same_shape m m' -> slot_of m' t = slot_of m t.
Proof. intros (_ & H & _). unfold slot_of. by rewrite H. Qed.

Lemma reserve_all_spec m es limit asks t :
  meter_inv m es -> windows_within m limit es -> time m <= slot_of m t -> clock_from t asks ->
  exists m' granted, reserve_all m limit asks = Some (m', granted) /\
    same_shape m m' /\ clock_from t granted /\
    windows_within m limit (es ++ ((fun '(n, now_ms) => (slot_of m now_ms, n)) <$> granted)).
Proof.
  revert m es t. induction asks as [|[count now_ms] asks IH]; intros m es t Hinv Hw Ht Hc; simpl.
  { exists m, []. rewrite app_nil_r. by repeat split. }
  destruct Hc as [Hn Hc]. pose proof (inv_slot _ _ Hinv) as Hs.
  destruct (try_reserve_spec m es limit count now_ms t Hinv Hw Ht Hn) as (r & -> & Hr).
  destruct r as [m1|u].
  - destruct Hr as (Hinv1 & Hsh & Hw1 & Htm).
    destruct (IH m1 _ now_ms Hinv1 Hw1) as (m' & g & E & Hsh' & Hcg & Hwg);
      [rewrite (slot_of_same m m1) by done; lia|done|].
    rewrite E. do 2 eexists. split; [done|].
    assert (same_shape m m') as Hsm by (destruct Hsh as (? & ? & ?), Hsh' as (? & ? & ?);
      split_and!; congruence).
    split_and!; [exact Hsm|by split|].
    rewrite fmap_cons. intros hi. specialize (Hwg hi).
    rewrite <- app_assoc in Hwg. rewrite (contribution_same m m1) in Hwg by done.
    destruct Hsh as (? & Hst & Hlen). rewrite Hlen in Hwg. simpl in Hwg.
    assert (((fun '(n, now_ms) => (slot_of m1 now_ms, n)) <$> g) =
            ((fun '(n, now_ms) => (slot_of m now_ms, n)) <$> g)) as Heq.
    { apply list_fmap_ext. intros ? [n x] _. unfold slot_of. by rewrite Hst. }
    rewrite Heq in Hwg. exact Hwg.
  - destruct (IH m es now_ms Hinv Hw) as (m' & g & E & Hsh & Hcg & Hwg);
      [pose proof (slot_of_mono m t now_ms Hs ltac:(lia)); lia|done|].
    do 2 eexists. split; [exact E|]. split_and!; [done| |done].
    destruct g as [|[n x] g]; [done|]. destruct Hcg as [? ?]. split; [lia|done].
Qed.

(** The items granted in the half-open interval of [span] milliseconds. *)
Definition granted_in (t0 span : N) (granted : list (N * N)) : N :=
  foldr (fun g acc => if (t0 <? snd g)%N && (snd g <=? t0 + span)%N then (fst g + acc)%N else acc)
    0%N granted.

Lemma granted_in_slots m t0 granted :
  (0 < slot_time m)%N -> length (window m) = (window_size m + 1)%nat ->
  (granted_in t0 (N.of_nat (window_size m) * slot_time m) granted <=
   events_in (slot_of m t0 - 1) (slot_of m t0 - 1 + Z.of_nat (length (window m)))
     ((fun '(n, now_ms) => (slot_of m now_ms, n)) <$> granted))%N.
Proof.
  intros Hs Hlen. induction granted as [|[n x] g IH]; [done|]. rewrite fmap_cons. simpl.
  destruct (N.ltb_spec t0 x), (N.leb_spec x (t0 + N.of_nat (window_size m) * slot_time m));
    simpl; try (case_match; lia).
  assert (slot_of m t0 <= slot_of m x) by (apply slot_of_mono; lia).
  assert (slot_of m x <= slot_of m t0 + Z.of_nat (window_size m)).
  { unfold slot_of. rewrite <- Z.div_add by lia. apply Z.div_le_mono; lia. }
  destruct (Z.ltb_spec (slot_of m t0 - 1) (slot_of m x)); [|lia].
  destruct (Z.leb_spec (slot_of m x) (slot_of m t0 - 1 + Z.of_nat (length (window m)))); [|lia].
  simpl. lia.
Qed.

(** ** The theorems *)

(** The meter counts exactly the events of the sliding window: after any
    recording, the rate it reports at a time is that of the items recorded in
    the [window_size + 1] slots ending there, neither lost nor counted twice
    as the ring wraps. *)
Theorem meter_counts_window m es count now_ms slot later :
  meter_inv m es -> to_time m now_ms = Some slot ->
  exists m' t, inc m count now_ms = Some m' /\ meter_inv m' (es ++ [(slot, count)]) /\
    to_time m' later = Some t /\ slot <= t /\
    get_rate m' later = Some (contribution m' (events_in (t - Z.of_nat (window_size m' + 1)) t
                                                (es ++ [(slot, count)]))).
Proof.
  intros Hinv Hnow.
  destruct (inc_inv m es count now_ms slot Hinv Hnow) as (m' & E & Hinv' & Htm & Hws & Hst).
  destruct (to_time_some m' _ later Hinv') as (t & Ht & Hle).
  exists m', t. split_and!; [done..|lia|].
  unfold get_rate. rewrite (window_count_spec m' _ later t Hinv' Ht).
  by rewrite (inv_len _ _ Hinv').
Qed.

Lemma meter_counts_window_witness :
  exists m', inc (rate_meter_new 10 100) 7 10000000 = Some m' /\
    meter_inv m' [(100000, 7%N)] /\ get_rate m' 10000900 = Some (contribution m' 7).
Proof.
  destruct (meter_counts_window (rate_meter_new 10 100) [] 7 10000000 100000 10000900)
    as (m' & t & E & Hinv & Ht & _ & Hr); [by apply rate_meter_new_inv|reflexivity|].
  exists m'. split_and!; [done..|]. rewrite Hr. vm_compute in E. injection E as <-.
  vm_compute in Ht. injection Ht as <-. reflexivity.
Defined.

(** C21: The upstream rate limit holds in real time: over any schedule of
    reservations on a clock that does not run backwards, every attempt is
    decided without a panic, and the items granted within any
    [window_size * slot_time] milliseconds contribute at most the limit. *)
Theorem rate_limit_respected ws st limit asks :
  (0 < st)%N -> (0 <= limit)%Q -> clock_from 0 asks ->
  let m := rate_meter_new ws st in
  exists m' granted, reserve_all m limit asks = Some (m', granted) /\
    forall t0, (contribution m (granted_in t0 (N.of_nat ws * st) granted) <= limit)%Q.
Proof.
  intros Hs Hl Hc m. pose proof (rate_meter_new_inv ws st Hs) as Hinv.
  assert (windows_within m limit []) as Hw.
  { intros hi. simpl. unfold contribution, Q_of_N. simpl.
    unfold Qdiv. rewrite Qmult_0_r, Qmult_0_l. done. }
  destruct (reserve_all_spec m [] limit asks 0 Hinv Hw) as (m' & g & E & Hsh & Hcg & Hwg);
    [simpl; unfold slot_of; simpl; apply Z.div_pos; lia|done|].
  exists m', g. split; [done|]. intros t0.
  eapply Qle_trans; [|apply (Hwg (slot_of m t0 - 1 + Z.of_nat (length (window m))))].
  apply contribution_le. replace (_ - _) with (slot_of m t0 - 1) by lia.
  apply (granted_in_slots m t0); [done|by destruct Hinv].
Qed.

Lemma rate_limit_respected_witness :
  exists m' granted,
    reserve_all (rate_meter_new 10 100) 4 [(3, 50); (2, 60); (1, 70); (4, 2000)]%N
      = Some (m', granted) /\
    granted = [(3, 50); (1, 70); (4, 2000)]%N /\
    (contribution (rate_meter_new 10 100) (granted_in 0 1000 granted) <= 4)%Q.
Proof.
  destruct (rate_limit_respected 10 100 4 [(3, 50); (2, 60); (1, 70); (4, 2000)]%N)
    as (m' & g & E & Hg); [done|done|repeat split; lia|].
  exists m', g. split; [exact E|]. split; [vm_compute in E; by injection E as _ <-|].
  exact (Hg 0%N).
Defined.

Lemma contribution_one_pos m :
  (0 < window_size m)%nat -> (0 < slot_time m)%N -> (0 < contribution m 1)%Q.
Proof.
  intros Hw Hs. unfold contribution, Qdiv. apply Qmult_lt_0_compat; [done|].
  apply Qinv_lt_0_compat. unfold Q_of_nat, Q_of_N. rewrite <- inject_Z_mult.
  change 0%Q with (inject_Z 0). rewrite <- Zlt_Qlt. lia.
Qed.

Lemma contribution_scale m n : (contribution m n == Q_of_N n * contribution m 1)%Q.
Proof. unfold contribution, Q_of_N, Qdiv. simpl. ring. Qed.

Lemma calls_within_limit m limit n :
  (0 < window_size m)%nat -> (0 < slot_time m)%N ->
  (N.to_nat n <= calls_per_window m limit)%nat -> (0 <= limit)%Q ->
  (contribution m n <= limit)%Q.
Proof.
  intros Hw Hs Hn Hl. pose proof (contribution_one_pos m Hw Hs) as Hc.
  rewrite contribution_scale. unfold calls_per_window in Hn.
  apply Qle_trans with (limit / contribution m 1 * contribution m 1)%Q.
  - apply Qmult_le_compat_r; [|by apply Qlt_le_weak].
    eapply Qle_trans; [|apply Qfloor_le]. unfold Q_of_N. rewrite <- Zle_Qle.
    assert (0 <= Qfloor (limit / contribution m 1)); [|lia].
    change 0 with (Qfloor 0). apply Qfloor_resp_le. apply Qle_shift_div_l; [done|].
    by rewrite Qmult_0_l.
  - rewrite Qmult_comm, Qmult_div_r; [apply Qle_refl|]. intros E. rewrite E in Hc. by apply Qlt_irrefl in Hc.
Qed.

(** A batch that fits one configured window is never starved by the gate:
    once the items already recorded have left the window, the next attempt
    reserves it, so [wait_for_rate] returns; a larger one is refused even on
    an empty meter. *)
Theorem capped_batch_admitted m es limit count now_ms :
  meter_inv m es -> (0 < window_size m)%nat -> (0 < limit)%Q ->
  time m + Z.of_nat (window_size m + 1) <= slot_of m now_ms ->
  (now_ms < 9223372036854775808)%N ->
  (exists m', try_reserve m limit count now_ms = Some (inl m')) <->
  (N.to_nat count <= calls_per_window m limit)%nat.
Proof.
  intros Hinv Hw Hl Ht Hn. pose proof (inv_slot _ _ Hinv) as Hs.
  assert (to_time m now_ms = Some (slot_of m now_ms)) as Htt
    by (apply (to_time_slot_of m now_ms); [done|lia|lia]).
  unfold try_reserve, get_rate. rewrite (window_count_spec m es now_ms _ Hinv Htt).
  rewrite (inv_len _ _ Hinv), events_in_none by
    (eapply Forall_impl; [exact (inv_past _ _ Hinv)|]; simpl; lia).
  assert (contribution m 0 == 0)%Q as H0 by (rewrite contribution_scale; apply Qmult_0_l).
  destruct (inc_inv m es count now_ms _ Hinv Htt) as (m' & -> & _).
  assert (Qle_bool (contribution m 0 + contribution m count) limit = true <->
    (N.to_nat count <= calls_per_window m limit)%nat) as <-.
  { rewrite Qle_bool_iff, H0, Qplus_0_l. split; [|intros; apply calls_within_limit; auto using Qlt_le_weak].
    intros Hc. rewrite contribution_scale in Hc. unfold calls_per_window.
    pose proof (contribution_one_pos m Hw Hs) as Hp.
    assert (Z.of_N count <= Qfloor (limit / contribution m 1)); [|lia].
    rewrite <- (Qfloor_Z (Z.of_N count)). apply Qfloor_resp_le.
    by apply Qle_shift_div_l. }
  destruct (Qle_bool _ _); split; try done; [by eauto|by intros [? ?]].
Qed.

Lemma capped_batch_admitted_witness :
  exists m', try_reserve (rate_meter_new 10 100) 10 10 10000000 = Some (inl m').
Proof.
  apply (capped_batch_admitted (rate_meter_new 10 100) [] 10 10 10000000);
    [by apply rate_meter_new_inv|simpl; lia|done|vm_compute; done|done|].
  vm_compute. lia.
Defined.
