(* ===== verification/RpcClient.v ===== *)
(** * RpcClient: errors, retries and batching (error.rs, client.rs, transport.rs)

    The JSON-RPC client above its transport: how an error is classified, the
    retry ladder of single and batched calls, the splitting of a batch that
    fails by its shape, the order and provenance of the answers, and the
    validation of the configuration against the rate meter. What the transport
    answers at each attempt is an oracle, and the pauses and the reports to the
    observer are returned. *)
From S2P Require Import Prelude Rate.
From Stdlib Require Import Strings.Ascii QArith Qround.
Local Open Scope rust_scope.
Local Open Scope nat_scope.

(** ** Errors *)

(** What [RpcError::Protocol] says, with the values interpolated. *)
Inductive ProtocolViolation : Type :=
  | InvalidJson
  | InvalidBatchJson
  | UnknownRequest (id : N)
  | BatchLength (expected got : nat)
  | MissingResult (id : N)
  | ShortBatch
  | InvalidUrl (url : string)
  | UnsupportedScheme (scheme : string).

Inductive ConfigViolation : Type :=
  | ZeroCapacity
  | BadRateLimit
  | RateTooSmall
  | ZeroBatchSize
  | BatchExceedsWindow (max_batch : N) (window : nat).

Section rpc.
(** [serde_json::Value]. *)
Context {Value : Type} (Null : Value).

Record RpcErrorInfo := mkRpcErrorInfo {
  info_code : Z;
  info_message : string;
  info_data : option Value
}.

Inductive RpcError : Type :=
  | InvalidConfig (what : ConfigViolation)
  | RpcFailure (code : Z) (message : string) (data : option Value)
  | HttpFailure (status : N) (body : string)
  | Connection (what : string)
  | Disconnected (what : string)
  | Timeout
  | Protocol (what : ProtocolViolation)
  | RetryExhausted (last : RpcError)
  | RetryRequested (what : string).

Definition from_info (i : RpcErrorInfo) : RpcError :=
  RpcFailure (info_code i) (info_message i) (info_data i).

(** [str::to_lowercase] on the ASCII letters; no other character lowers to a
    sequence the patterns below can match. *)
Definition lower_ascii (a : ascii) : ascii :=
  let n := N_of_ascii a in
  if (65 <=? n)%N && (n <=? 90)%N then ascii_of_N (n + 32) else a.

Fixpoint to_lowercase (s : string) : string :=
  match s with
  | EmptyString => EmptyString
  | String a s => String (lower_ascii a) (to_lowercase s)
  end.

Definition message_matches_rate_limit (msg : string) : bool :=
  let lower := to_lowercase msg in
  str_contains "rate limit" lower || str_contains "too many requests" lower.

Definition execution_timeout_re (s : string) : bool :=
  str_contains "execution timeout" (to_lowercase s).

Definition request_timed_out_re (s : string) : bool :=
  let lower := to_lowercase s in
  match str_find "request" lower with
  | Some pos => str_contains "timed out" (String.substring pos (String.length lower - pos) lower)
  | None => false
  end.

Definition internal_error_re (s : string) : bool :=
  let lower := to_lowercase s in
  str_contains "internal error" lower || str_contains "internal server error" lower.

Definition is_retryable (retry_internal_server_errors : bool) (e : RpcError) : bool :=
  match e with
  | InvalidConfig _ => false
  | RetryRequested _ => true
  | Timeout => true
  | Connection _ => true
  | Disconnected _ => true
  | HttpFailure status _ => existsb (N.eqb status) [408; 429; 502; 503; 504; 529]%N
  | RpcFailure code message _ =>
      if (code =? -32005)%Z || (code =? 429)%Z then true
      else if message_matches_rate_limit message then true
      else if execution_timeout_re message then true
      else if request_timed_out_re message then true
      else if retry_internal_server_errors then
        if (code =? -32000)%Z || (code =? -32603)%Z then true
        else internal_error_re message
      else false
  | Protocol _ => false
  | RetryExhausted _ => false
  end.

Definition is_too_large (message : string) : bool :=
  bool_decide (message = "response too large"%string).

Definition is_retryable_batch (flag : bool) (e : RpcError) : bool :=
  if is_retryable flag e then true
  else
  match e with
  | Protocol _ => true
  | RpcFailure code message _ => is_too_large message || (code =? -32000)%Z
  | _ => false
  end.

(** Batch-shape failure: shrinks only by splitting the batch. *)
Definition is_batch_shape (e : RpcError) : bool :=
  match e with
  | Protocol _ => true
  | RpcFailure _ message _ => is_too_large message
  | _ => false
  end.

Definition is_retryable_batch_only (flag : bool) (e : RpcError) : bool :=
  is_retryable_batch flag e && negb (is_retryable flag e).

(** ** Responses *)

(** An incoming frame; [resp_id] is [id.as_u64().unwrap_or(0)]. *)
Record RpcResponse := mkRpcResponse {
  resp_id : N;
  resp_result : option Value;
  resp_error : option RpcErrorInfo
}.

Record CallOptions := mkCallOptions {
  opt_retry_attempts : option nat;
  validate_result : option (Value -> Result Value RpcError);
  validate_error : option (RpcErrorInfo -> Result Value RpcError)
}.

Definition process_response (options : CallOptions) (resp : RpcResponse)
    : Result Value RpcError :=
  match resp_error resp with
  | Some info =>
      match validate_error options with
      | Some ve => ve info
      | None => Err (from_info info)
      end
  | None =>
      let result := default Null (resp_result resp) in
      match validate_result options with
      | Some vr => vr result
      | None => Ok result
      end
  end.

(** HTTP: the single response's id check. *)
Definition check_single (id : N) (resp : RpcResponse) : Result RpcResponse RpcError :=
  if negb (resp_id resp =? id)%N then
    match resp_error resp with
    | Some _ => Ok resp
    | None => Err (Protocol (UnknownRequest (resp_id resp)))
    end
  else Ok resp.

(** The id-to-response map: a later response replaces an earlier one. *)
Definition response_map (responses : list RpcResponse) : gmap N RpcResponse :=
  foldl (fun m r => <[resp_id r := r]> m) ∅ responses.

(** [map.remove(&id)] for each request, in order. *)
Fixpoint take_ordered (ids : list N) (m : gmap N RpcResponse)
    : Result (list RpcResponse) RpcError :=
  match ids with
  | [] => Ok []
  | id :: ids =>
      match m !! id with
      | None => Err (Protocol (MissingResult id))
      | Some resp =>
          let? rest := take_ordered ids (delete id m) in
          Ok (resp :: rest)
      end
  end.

(** A batch response, once parsed: its length check and its reordering. *)
Definition correlate (ids : list N) (responses : list RpcResponse)
    : Result (list RpcResponse) RpcError :=
  if negb (length responses =? length ids) then
    Err (Protocol (BatchLength (length ids) (length responses)))
  else take_ordered ids (response_map responses).

(** What parsing a batch body gives: an array, a lone error envelope, neither. *)
Inductive BatchBody : Type :=
  | ParsedArray (responses : list RpcResponse)
  | ParsedEnvelope (info : RpcErrorInfo)
  | Unparsed.

Definition http_send_batch (ids : list N) (body : BatchBody) : Result (list RpcResponse) RpcError :=
  match body with
  | ParsedArray responses => correlate ids responses
  | ParsedEnvelope info => Err (from_info info)
  | Unparsed => Err (Protocol InvalidBatchJson)
  end.

(** ** The retry ladder *)

(** The shape of one upstream round trip. *)
Inductive RequestKind : Type := Single | Batch.

(** What the observer hears, and the sleeps (in nanoseconds). *)
Inductive ClientEvent : Type :=
  | OnRequest (kind : RequestKind) (calls : nat)
  | OnRetry (e : RpcError)
  | OnError (e : RpcError)
  | Sleep (pause : N).

Definition retry_pause (schedule : list N) (attempt : nat) : N :=
  let idx := Nat.min attempt (length schedule - 1) in
  default 20000000000%N (schedule !! idx).

Record LadderConfig := mkLadderConfig {
  retry_attempts : nat;
  retry_schedule : list N;
  retry_internal : bool
}.

Definition final_error (attempt : nat) (e : RpcError) : RpcError :=
  if 0 <? attempt then RetryExhausted e else e.

(** The loop of [call_with_options] and [batch_chunk]: [execute k] is what the
    [k]-th attempt returns, [asked] what its round trip reports and [report]
    what a success reports. [None]: the fuel ran out. *)
Fixpoint retry_loop {A} (cfg : LadderConfig) (asked : ClientEvent) (report : A -> list ClientEvent)
    (execute : nat -> Result A RpcError) (fuel attempt : nat) : option (Result A RpcError * list ClientEvent) :=
  match fuel with
  | 0 => None
  | S fuel =>
      match execute attempt with
      | Ok v => Some (Ok v, asked :: report v)
      | Err e =>
          if (attempt <? retry_attempts cfg) && is_retryable (retry_internal cfg) e then
            let! (r, events) := retry_loop cfg asked report execute fuel (attempt + 1) in
            Some (r, asked :: OnRetry e :: Sleep (retry_pause (retry_schedule cfg) attempt) :: events)
          else Some (Err (final_error attempt e), [asked; OnError e])
      end
  end.

Definition retry_ladder {A} (cfg : LadderConfig) (asked : ClientEvent) (report : A -> list ClientEvent)
    (execute : nat -> Result A RpcError) : option (Result A RpcError * list ClientEvent) :=
  retry_loop cfg asked report execute (S (retry_attempts cfg)) 0.

(** ** Batches *)

Definition Call : Type := string * option Value.

(** [split_calls]: chunks of at most [chunk_size] calls; [fuel] bounds their
    number. *)
Fixpoint split_loop (fuel : nat) (calls : list Call) (chunk_size : nat)
    : option (list (list Call)) :=
  match take chunk_size calls with
  | [] => Some []
  | chunk =>
      match fuel with
      | 0 => None
      | S fuel =>
          let! rest := split_loop fuel (drop chunk_size calls) chunk_size in
          Some (chunk :: rest)
      end
  end.

(** [chunk_size] is a [usize], possibly [usize::MAX]; taking more than there
    is takes everything. *)
Definition split_calls (calls : list Call) (chunk_size : N) : option (list (list Call)) :=
  split_loop (length calls) calls
    (N.to_nat (N.min chunk_size (N.of_nat (length calls)))).

(** One item's answer, and a whole batch's. *)
Definition Item : Type := Result Value RpcError.

(** What the transport answers: to the [k]-th attempt at the call at position
    [off], and at the [n] calls from [off] on, in request order. *)
Record Upstream := mkUpstream {
  send_single : nat -> nat -> Result RpcResponse RpcError;
  send_batch : nat -> nat -> nat -> Result (list RpcResponse) RpcError
}.

Definition execute_single (options : CallOptions) (up : Upstream) (off attempt : nat) : Item :=
  let? resp := send_single up off attempt in
  process_response options resp.

Definition execute_batch (options : CallOptions) (up : Upstream) (off n attempt : nat)
    : Result (list Item) RpcError :=
  let? responses := send_batch up off n attempt in
  Ok (process_response options <$> responses).

(** A per-item failure is counted when the batch itself succeeded. *)
Definition report_items (items : list Item) : list ClientEvent :=
  omap (fun r => match r with Err e => Some (OnError e) | Ok _ => None end) items.

Definition call_with_options (cfg : LadderConfig) (options : CallOptions) (up : Upstream)
    (off : nat) : option (Item * list ClientEvent) :=
  retry_ladder cfg (OnRequest Single 1) (fun _ => []) (execute_single options up off).

(** [batch_chunk]: nothing, one call through the single ladder, or the batch. *)
Definition batch_chunk (cfg : LadderConfig) (options : CallOptions) (up : Upstream) (off n : nat)
    : option (Result (list Item) RpcError * list ClientEvent) :=
  match n with
  | 0 => Some (Ok [], [])
  | 1 =>
      let! (r, events) := call_with_options cfg options up off in
      Some (Ok [r], events)
  | _ => retry_ladder cfg (OnRequest Batch n) report_items (execute_batch options up off n)
  end.

(** How the whole-batch ladder of [reduce_batch] leaves its loop. *)
Inductive ReduceStep : Type :=
  | ReduceDone (items : list Item)
  | ReduceSplit
  | ReduceFail (e : RpcError).

Fixpoint reduce_loop (cfg : LadderConfig) (asked : ClientEvent) (execute : nat -> Result (list Item) RpcError)
    (fuel attempt : nat) : option (ReduceStep * list ClientEvent) :=
  match fuel with
  | 0 => None
  | S fuel =>
      match execute attempt with
      | Ok v => Some (ReduceDone v, asked :: report_items v)
      | Err e =>
          if is_batch_shape e then Some (ReduceSplit, [asked; OnRetry e])
          else if (attempt <? retry_attempts cfg) && is_retryable (retry_internal cfg) e then
            let! (r, events) := reduce_loop cfg asked execute fuel (attempt + 1) in
            Some (r, asked :: OnRetry e :: Sleep (retry_pause (retry_schedule cfg) attempt) :: events)
          else if is_retryable_batch_only (retry_internal cfg) e then
            Some (ReduceSplit, [asked; OnRetry e])
          else Some (ReduceFail (final_error attempt e), [asked; OnError e])
      end
  end.

(** [reduce_batch] on the [n] calls from [off] on; [fuel] bounds the depth of
    the recursion, the two halves run and their events are listed in order. *)
Fixpoint reduce_batch (fuel : nat) (cfg : LadderConfig) (options : CallOptions) (up : Upstream)
    (off n : nat)
    : option (Result (list Item) RpcError * list ClientEvent) :=
  if n <=? 1 then batch_chunk cfg options up off n
  else
  match fuel with
  | 0 => None
  | S fuel =>
      let! (step, events) :=
        reduce_loop cfg (OnRequest Batch n) (execute_batch options up off n) (S (retry_attempts cfg)) 0 in
      match step with
      | ReduceDone v => Some (Ok v, events)
      | ReduceFail e => Some (Err e, events)
      | ReduceSplit =>
          let mid := (n + 1) / 2 in
          let! (left_items, le) := reduce_batch fuel cfg options up off mid in
          let! (right_items, re) := reduce_batch fuel cfg options up (off + mid) (n - mid) in
          Some (match left_items with
                | Err e => Err e
                | Ok l => match right_items with Err e => Err e | Ok r => Ok (l ++ r) end
                end, events ++ le ++ re)
      end
  end.

(** Chunks run concurrently and are consumed in order; the first chunk to fail
    fails the call. [off] is the position of the chunk's first call. *)
Fixpoint gather (run : nat -> nat -> option (Result (list Item) RpcError * list ClientEvent))
    (off : nat) (chunks : list (list Call)) : option (Result (list Item) RpcError) :=
  match chunks with
  | [] => Some (Ok [])
  | chunk :: chunks =>
      let! (r, _) := run off (length chunk) in
      let! rest := gather run (off + length chunk) chunks in
      Some (match r with
            | Err e => Err e
            | Ok items => match rest with Err e => Err e | Ok more => Ok (items ++ more) end
            end)
  end.

Definition batch_call (cfg : LadderConfig) (options : CallOptions) (up : Upstream)
    (max_batch_call_size : N) (calls : list Call) : option (Result (list Item) RpcError) :=
  let! chunks := split_calls calls max_batch_call_size in
  gather (batch_chunk cfg options up) 0 chunks.

Definition batch_call_reduce_on_retry (cfg : LadderConfig) (options : CallOptions) (up : Upstream)
    (max_batch_call_size : N) (calls : list Call) : option (Result (list Item) RpcError) :=
  let! chunks := split_calls calls max_batch_call_size in
  gather (fun off n => reduce_batch n cfg options up off n) 0 chunks.

(** ** Configuration *)

Definition usize_max : N := 18446744073709551615%N.
Definition rate_window_size : nat := 10.

Record ClientConfig := mkClientConfig {
  cfg_max_batch_call_size : option N;
  cfg_capacity : N;
  cfg_rate_limit : option Q
}.

(** The gate [try_new] builds: the batch cap and the meter, if any. A rate is a
    rational, so the refusal of an infinite or NaN limit is not modelled, nor is the
    transport it builds. *)
Definition try_new (config : ClientConfig) : Result (N * option (RateMeter * Q)) RpcError :=
  if (cfg_capacity config =? 0)%N then Err (InvalidConfig ZeroCapacity)
  else if match cfg_rate_limit config with Some l => Qle_bool l 0 | None => false end then
    Err (InvalidConfig BadRateLimit)
  else
  let rate := (fun l => (for_rate_limit rate_window_size l, l)) <$> cfg_rate_limit config in
  if match rate with Some (m, l) => calls_per_window m l =? 0 | None => false end then
    Err (InvalidConfig RateTooSmall)
  else
  let max_batch :=
    match cfg_max_batch_call_size config with
    | Some n => n
    | None =>
        match cfg_rate_limit config with
        | Some l => Z.to_N (Z.max (Qfloor (l / 5)) 1)
        | None => usize_max
        end
    end in
  if (max_batch =? 0)%N then Err (InvalidConfig ZeroBatchSize)
  else
  match rate with
  | Some (m, l) =>
      if (N.of_nat (calls_per_window m l) <? max_batch)%N then
        Err (InvalidConfig (BatchExceedsWindow max_batch (calls_per_window m l)))
      else Ok (max_batch, Some (m, l))
  | None => Ok (max_batch, None)
  end.

(** ** The ladder's shape *)

Definition pauses (cfg : LadderConfig) (from n : nat) : list N :=
  (retry_pause (retry_schedule cfg)) <$> seq from n.

Definition slept (events : list ClientEvent) : list N :=
  omap (fun e => match e with Sleep p => Some p | _ => None end) events.

(** The rounds that failed and were tried again, from the [from]-th on. *)
Fixpoint rounds (cfg : LadderConfig) (asked : ClientEvent) (from : nat) (errors : list RpcError)
    : list ClientEvent :=
  match errors with
  | [] => []
  | e :: errors =>
      asked :: OnRetry e :: Sleep (retry_pause (retry_schedule cfg) from)
        :: rounds cfg asked (from + 1) errors
  end.

(** A ladder: the failures it tried again, then its last round. *)
Lemma retry_loop_spec {A} cfg asked (report : A -> list ClientEvent) execute fuel attempt :
  attempt <= retry_attempts cfg -> retry_attempts cfg - attempt < fuel ->
  exists errors r last_round,
    retry_loop cfg asked report execute fuel attempt
      = Some (r, rounds cfg asked attempt errors ++ asked :: last_round) /\
    let k := attempt + length errors in
    k <= retry_attempts cfg /\
    (forall j e, errors !! j = Some e ->
       execute (attempt + j) = Err e /\ is_retryable (retry_internal cfg) e = true) /\
    match execute k with
    | Ok v => r = Ok v /\ last_round = report v
    | Err e => r = Err (final_error k e) /\ last_round = [OnError e] /\
                (is_retryable (retry_internal cfg) e = true -> k = retry_attempts cfg)
    end.
Proof.
  revert attempt. induction fuel as [|fuel IH]; intros attempt Ha Hf; [lia|]. cbn [retry_loop].
  destruct (execute attempt) as [v|e] eqn:E.
  { exists []. do 2 eexists. split; [done|]. simpl. rewrite Nat.add_0_r, E. by split_and!. }
  destruct ((attempt <? retry_attempts cfg) && is_retryable (retry_internal cfg) e) eqn:Er.
  - apply andb_true_iff in Er as [Hlt%Nat.ltb_lt Hr].
    destruct (IH (attempt + 1)) as (es & r & lr & El & Hk & Hj & Hm); [lia..|].
    rewrite El. exists (e :: es). do 2 eexists. split; [done|]. simpl.
    replace (attempt + 1 + length es) with (attempt + S (length es)) in * by lia.
    split; [done|]. split; [|done]. intros [|j] x Hx; simplify_eq/=.
    + by rewrite Nat.add_0_r.
    + replace (attempt + S j) with (attempt + 1 + j) by lia. by apply Hj.
  - exists []. do 2 eexists. split; [done|]. simpl. rewrite Nat.add_0_r, E. split_and!; try done.
    intros Hr. rewrite Hr, andb_true_r in Er. apply Nat.ltb_ge in Er. lia.
Qed.

Lemma slept_rounds cfg asked from errors :
  (forall p, asked <> Sleep p) -> slept (rounds cfg asked from errors) = pauses cfg from (length errors).
Proof.
  intros Ha. revert from. induction errors as [|e es IH]; intros from; [done|]. simpl.
  destruct asked; try by destruct (Ha pause). all: by rewrite IH, Nat.add_1_r.
Qed.

(** ** Provenance of the answers *)

(** [item] answers the call at position [i]: the transport said so for that
    call, alone or as its place in a batch that covers it. *)
Inductive answers (options : CallOptions) (up : Upstream) (i : nat) : Item -> Prop :=
  | answers_one k v : execute_single options up i k = Ok v -> answers options up i (Ok v)
  | answers_gave_up k e :
      execute_single options up i k = Err e -> answers options up i (Err (final_error k e))
  | answers_batch off n k items item :
      off <= i < off + n -> execute_batch options up off n k = Ok items ->
      items !! (i - off) = Some item -> answers options up i item.

(** [items] are the answers of the [n] calls from [off] on, in order. *)
Definition answers_all (options : CallOptions) (up : Upstream) (off n : nat) (items : list Item)
    : Prop :=
  length items = n /\
  forall j item, items !! j = Some item -> answers options up (off + j) item.

(** The transport's contract: a batch that succeeds answers every request. *)
Definition answers_everything (up : Upstream) : Prop :=
  forall off n k responses, send_batch up off n k = Ok responses -> length responses = n.

Lemma answers_all_app options up off n1 n2 l1 l2 :
  answers_all options up off n1 l1 -> answers_all options up (off + n1) n2 l2 ->
  answers_all options up off (n1 + n2) (l1 ++ l2).
Proof.
  intros [Hl1 H1] [Hl2 H2]. split; [rewrite length_app; lia|].
  intros j item. destruct (decide (j < n1)).
  - rewrite lookup_app_l by lia. apply H1.
  - rewrite lookup_app_r by lia. intros Hj. apply H2 in Hj.
    by replace (off + n1 + (j - length l1)) with (off + j) in Hj by lia.
Qed.

Lemma execute_batch_answers options up off n k items :
  answers_everything up -> execute_batch options up off n k = Ok items ->
  answers_all options up off n items.
Proof.
  intros Hup E. assert (length items = n) as Hl.
  { unfold execute_batch in E. destruct (send_batch up off n k) as [rs|] eqn:Es; [|done].
    apply Hup in Es. simplify_eq. by rewrite length_fmap. }
  split; [done|]. intros j item Hj. apply lookup_lt_Some in Hj as Hlt.
  eapply answers_batch; [|exact E|]; [lia|]. by replace (off + j - off) with j by lia.
Qed.

Lemma batch_chunk_spec cfg options up off n :
  answers_everything up ->
  exists r events, batch_chunk cfg options up off n = Some (r, events) /\
    match r with Ok items => answers_all options up off n items | Err _ => 1 < n end.
Proof.
  intros Hup. destruct n as [|[|n]]; simpl.
  - do 2 eexists. split; [done|]. split; [done|]. by intros [|].
  - unfold call_with_options, retry_ladder.
    destruct (retry_loop_spec cfg (OnRequest Single 1) (fun _ => []) (execute_single options up off)
      (S (retry_attempts cfg)) 0) as (es & r & lr & E & _ & _ & Hm); [lia..|].
    rewrite E. do 2 eexists. split; [done|]. split; [done|].
    intros [|j] item Hj; [|done]. simplify_eq/=. rewrite Nat.add_0_r.
    destruct (execute_single options up off (length es)) eqn:Ek.
    + destruct Hm as [-> _]. by eapply answers_one.
    + destruct Hm as [-> _]. by eapply answers_gave_up.
  - unfold retry_ladder.
    destruct (retry_loop_spec cfg (OnRequest Batch (S (S n))) report_items (execute_batch options up off (S (S n)))
      (S (retry_attempts cfg)) 0) as (es & r & lr & E & _ & _ & Hm); [lia..|].
    rewrite E. do 2 eexists. split; [done|]. simpl in Hm.
    destruct (execute_batch options up off (S (S n)) (length es)) eqn:Ek; destruct Hm as [-> _];
      [by eapply execute_batch_answers|lia].
Qed.

Lemma reduce_loop_spec cfg asked execute fuel attempt :
  retry_attempts cfg - attempt < fuel ->
  exists step events, reduce_loop cfg asked execute fuel attempt = Some (step, events) /\
    match step with ReduceDone items => exists k, execute k = Ok items | _ => True end.
Proof.
  revert attempt. induction fuel as [|fuel IH]; intros attempt Hf; [lia|]. cbn [reduce_loop].
  destruct (execute attempt) as [v|e] eqn:E.
  { do 2 eexists. split; [done|]. by exists attempt. }
  destruct (is_batch_shape e); [by do 2 eexists|].
  destruct ((attempt <? retry_attempts cfg) && _) eqn:Er.
  - apply andb_true_iff in Er as [Hlt%Nat.ltb_lt _].
    destruct (IH (attempt + 1)) as (st & ev & -> & Hs); [lia|]. by do 2 eexists.
  - case_match; by do 2 eexists.
Qed.

Lemma reduce_batch_spec fuel cfg options up off n :
  answers_everything up -> n <= S fuel ->
  exists r events, reduce_batch fuel cfg options up off n = Some (r, events) /\
    match r with Ok items => answers_all options up off n items | Err _ => True end.
Proof.
  intros Hup. revert off n. induction fuel as [|fuel IH]; intros off n Hn; cbn [reduce_batch];
    destruct (Nat.leb_spec n 1); try lia.
  1,2: destruct (batch_chunk_spec cfg options up off n Hup) as (r & ev & -> & Hr);
    do 2 eexists; (split; [done|]); by destruct r.
  destruct (reduce_loop_spec cfg (OnRequest Batch n) (execute_batch options up off n) (S (retry_attempts cfg)) 0)
    as (st & ev & -> & Hs); [lia|].
  destruct st as [v| |e].
  - destruct Hs as [k Hk]. do 2 eexists. split; [done|]. by eapply execute_batch_answers.
  - assert (1 <= (n + 1) / 2 < n) as Hmid.
    { split; [apply Nat.div_le_lower_bound; lia|apply Nat.Div0.div_lt_upper_bound; lia]. }
    destruct (IH off ((n + 1) / 2)) as (rl & le & -> & Hrl); [lia|].
    destruct (IH (off + (n + 1) / 2) (n - (n + 1) / 2)) as (rr & re & -> & Hrr); [lia|].
    do 2 eexists. split; [done|]. destruct rl as [l|]; [|done]. destruct rr as [r|]; [|done].
    pose proof (answers_all_app options up off ((n + 1) / 2) (n - (n + 1) / 2) l r Hrl Hrr) as Ha.
    by replace ((n + 1) / 2 + (n - (n + 1) / 2)) with n in Ha by lia.
  - do 2 eexists. by split.
Qed.

(** ** Splitting and gathering *)

Lemma split_loop_spec fuel calls n :
  0 < n \/ calls = [] -> length calls <= fuel ->
  exists chunks, split_loop fuel calls n = Some chunks /\ concat chunks = calls /\
    Forall (fun c => c <> [] /\ length c <= n) chunks.
Proof.
  intros Hn. revert calls Hn. induction fuel as [|fuel IH]; intros calls Hn Hf; cbn [split_loop].
  - destruct calls; [|simpl in Hf; lia]. rewrite take_nil. exists []. by repeat split.
  - destruct (take n calls) as [|c cs] eqn:E.
    + assert (calls = []) as -> by (destruct Hn, calls, n; by try lia).
      exists []. by repeat split.
    + destruct Hn as [Hn| ->]; [|by rewrite take_nil in E].
      destruct (IH (drop n calls)) as (chunks & -> & Hc & Hf'); [by left|rewrite length_drop|].
      { assert (length calls <> 0) by (destruct calls; [by rewrite take_nil in E|done]). lia. }
      eexists. split; [done|]. rewrite <- E. split; [simpl; by rewrite Hc, take_drop|].
      constructor; [|done]. split; [by rewrite E|rewrite length_take; lia].
Qed.

Lemma split_calls_spec calls n :
  (0 < n)%N -> exists chunks, split_calls calls n = Some chunks /\ concat chunks = calls /\
    Forall (fun c => c <> [] /\ (N.of_nat (length c) <= n)%N) chunks.
Proof.
  intros Hn. unfold split_calls.
  destruct (split_loop_spec (length calls) calls (N.to_nat (N.min n (N.of_nat (length calls)))))
    as (chunks & -> & Hc & Hf); [|done|].
  { destruct calls; [by right|left; simpl; lia]. }
  exists chunks. split_and!; [done..|]. eapply Forall_impl; [done|].
  intros c [? ?]. split; [done|lia].
Qed.

Lemma gather_spec options up run off chunks :
  (forall o n, exists r ev, run o n = Some (r, ev) /\
     match r with Ok items => answers_all options up o n items | Err _ => True end) ->
  exists r, gather run off chunks = Some r /\
    match r with
    | Ok items => answers_all options up off (length (concat chunks)) items
    | Err _ => True
    end.
Proof.
  intros Hrun. revert off. induction chunks as [|c cs IH]; intros off; simpl.
  { eexists. split; [done|]. split; [done|]. by intros [|]. }
  destruct (Hrun off (length c)) as (r & ev & -> & Hr).
  destruct (IH (off + length c)) as (rest & -> & Hrest).
  eexists. split; [done|]. destruct r as [items|]; [|done]. destruct rest as [more|]; [|done].
  rewrite length_app. by apply answers_all_app.
Qed.

(** ** Correlation by id *)

Lemma response_map_lookup responses (m : gmap N RpcResponse) id r :
  foldl (fun m r => <[resp_id r := r]> m) m responses !! id = Some r ->
  m !! id = Some r \/ (r ∈ responses /\ resp_id r = id).
Proof.
  revert m. induction responses as [|x rs IH]; intros m; simpl; [auto|]. intros H.
  apply IH in H as [H|[H1 H2]]; [|right; split; [by right|done]].
  destruct (decide (resp_id x = id)) as [<-|Hne].
  - rewrite lookup_insert_eq in H. simplify_eq. right. split; [by left|done].
  - rewrite lookup_insert_ne in H by done. by left.
Qed.

Lemma take_ordered_ok ids m rs :
  take_ordered ids m = Ok rs -> Forall2 (fun id r => m !! id = Some r) ids rs.
Proof.
  revert m rs. induction ids as [|id ids IH]; intros m rs; simpl; [intros [= <-]; constructor|].
  destruct (m !! id) as [r|] eqn:E; [|done].
  destruct (take_ordered ids (delete id m)) as [rest|] eqn:Et; [|done]. intros [= <-].
  constructor; [done|]. eapply Forall2_impl; [by apply IH|].
  intros i x Hx. by apply lookup_delete_Some in Hx as [_ ?].
Qed.

Lemma take_ordered_complete ids m :
  NoDup ids -> (forall id, id ∈ ids -> is_Some (m !! id)) -> exists rs, take_ordered ids m = Ok rs.
Proof.
  revert m. induction ids as [|id ids IH]; intros m Hnd Hm; simpl; [eauto|].
  apply NoDup_cons in Hnd as [Hid Hnd]. destruct (Hm id) as [r ->]; [by left|].
  destruct (IH (delete id m) Hnd) as [rs ->]; [|eauto].
  intros i Hi. rewrite lookup_delete_ne by (intros ->; done). apply Hm. by right.
Qed.

(** ** The theorems *)

(** The retry ladder makes at most [retry_attempts + 1] attempts, in order
    and without skipping one: it returns the first success, gives up at the
    first failure that is not retryable or at the last attempt, wraps the last
    error exactly when something was retried, and slept between consecutive
    attempts the pauses of the schedule. *)
Theorem retry_ladder_correct {A} cfg asked (report : A -> list ClientEvent) execute :
  (forall p, asked <> Sleep p) ->
  exists k r events, retry_ladder cfg asked report execute = Some (r, events) /\
    k <= retry_attempts cfg /\
    (forall j, j < k -> exists e, execute j = Err e /\
       is_retryable (retry_internal cfg) e = true) /\
    match execute k with
    | Ok v => r = Ok v
    | Err e => r = Err (if 0 <? k then RetryExhausted e else e) /\
        (is_retryable (retry_internal cfg) e = true -> k = retry_attempts cfg) /\
        last events = Some (OnError e) /\
        slept events = (retry_pause (retry_schedule cfg)) <$> seq 0 k
    end.
Proof.
  intros Ha. destruct (retry_loop_spec cfg asked report execute (S (retry_attempts cfg)) 0)
    as (es & r & lr & E & Hk & Hj & Hm); [lia..|]. simpl in *.
  do 3 eexists. split; [exact E|]. split; [exact Hk|]. split.
  { intros j [e He]%lookup_lt_is_Some_2. exists e. by apply Hj. }
  destruct (execute (length es)) as [v|e]; [by destruct Hm|].
  destruct Hm as (-> & -> & Hx). split_and!; [done..|by rewrite last_app|].
  unfold slept. rewrite omap_app. fold (slept (rounds cfg asked 0 es)).
  rewrite slept_rounds by done. simpl. destruct asked; try by destruct (Ha pause).
  all: by rewrite app_nil_r.
Qed.

(** A batched call answers in the order it was asked: with any cap above
    zero and any sequence of failures, splits and retries, the call returns,
    and when it succeeds it holds one answer per call, the [i]-th of which the
    transport gave for the [i]-th call, alone or at its place in a batch. *)
Theorem batch_answers_in_order cfg options up max_batch calls :
  answers_everything up -> (0 < max_batch)%N ->
  exists r, batch_call_reduce_on_retry cfg options up max_batch calls = Some r /\
    match r with
    | Ok items => length items = length calls /\
        forall i item, items !! i = Some item -> answers options up i item
    | Err _ => True
    end.
Proof.
  intros Hup Hm. unfold batch_call_reduce_on_retry.
  destruct (split_calls_spec calls max_batch Hm) as (chunks & -> & Hc & _).
  destruct (gather_spec options up (fun off n => reduce_batch n cfg options up off n) 0 chunks)
    as (r & -> & Hr); [intros; apply reduce_batch_spec; [done|lia]|].
  exists r. split; [done|]. destruct r as [items|]; [|done]. by rewrite <- Hc.
Qed.

(** An HTTP batch is matched by id: a reply is accepted only when it has as
    many responses as requests, each request then gets a response of the reply
    carrying its own id, in request order; and whatever order the server
    answered in, a reply with distinct ids that covers the requests is
    accepted. *)
Theorem correlate_by_id ids responses :
  match correlate ids responses with
  | Ok ordered => length ordered = length ids /\
      Forall2 (fun id r => resp_id r = id /\ r ∈ responses) ids ordered
  | Err _ => ~ (NoDup ids /\ length responses = length ids /\
                forall id, id ∈ ids -> exists r, r ∈ responses /\ resp_id r = id)
  end.
Proof.
  unfold correlate. destruct (Nat.eqb_spec (length responses) (length ids)) as [Hl|Hl]; simpl;
    [|tauto].
  destruct (take_ordered ids (response_map responses)) as [rs|e] eqn:E.
  - apply take_ordered_ok in E. split; [by symmetry; eapply Forall2_length|].
    eapply Forall2_impl; [exact E|]. intros id r Hr. unfold response_map in Hr.
    apply response_map_lookup in Hr as [Hr|[? ?]]; [by rewrite lookup_empty in Hr|done].
  - intros (Hnd & _ & Hall). destruct (take_ordered_complete ids (response_map responses) Hnd)
      as [rs Hrs]; [|congruence].
    intros id Hid. destruct (Hall id Hid) as (r & Hr & <-).
    assert (forall m : gmap N RpcResponse, is_Some (m !! resp_id r) \/ r ∈ responses ->
      is_Some (foldl (fun m r => <[resp_id r := r]> m) m responses !! resp_id r)) as H.
    { clear. induction responses as [|x rs IH]; intros m H; simpl.
      - destruct H as [H|H]; [done|by apply elem_of_nil in H].
      - apply IH. destruct (decide (resp_id x = resp_id r)) as [->|Hne].
        + left. rewrite lookup_insert_eq. eauto.
        + rewrite lookup_insert_ne by done. destruct H as [H|[->|H]%elem_of_cons]; auto. done. }
    apply H. by right.
Qed.

Lemma try_new_max_batch config max_batch gate :
  try_new config = Ok (max_batch, gate) -> (0 < max_batch)%N.
Proof.
  unfold try_new. destruct (_ =? _)%N; [done|].
  destruct (match cfg_rate_limit config with Some l => Qle_bool l 0 | None => false end); [done|].
  destruct (match _ <$> cfg_rate_limit config with Some _ => _ | None => _ end); [done|].
  set (mb := match cfg_max_batch_call_size config with Some _ => _ | None => _ end).
  destruct (N.eqb_spec mb 0); [done|]. intros E. repeat case_match; simplify_eq; lia.
Qed.

(** A client that starts has bounded, satisfiable requests: a positive
    capacity and batch cap, and under a rate limit every chunk it cuts fits one
    rate window, so the meter's gate admits it once the window is empty. *)
Theorem config_admissible config max_batch gate calls :
  try_new config = Ok (max_batch, gate) ->
  (0 < cfg_capacity config)%N /\
  exists chunks, split_calls calls max_batch = Some chunks /\ concat chunks = calls /\
    forall chunk, chunk ∈ chunks -> chunk <> [] /\ (N.of_nat (length chunk) <= max_batch)%N /\
      match gate with
      | Some (m, limit) => (length chunk <= calls_per_window m limit)%nat /\ (0 < limit)%Q
      | None => True
      end.
Proof.
  unfold try_new. destruct (N.eqb_spec (cfg_capacity config) 0); [done|].
  destruct (match cfg_rate_limit config with Some l => Qle_bool l 0 | None => false end) eqn:El;
    [done|].
  destruct (match _ <$> cfg_rate_limit config with Some _ => _ | None => _ end); [done|].
  set (mb := match cfg_max_batch_call_size config with Some _ => _ | None => _ end).
  destruct (N.eqb_spec mb 0); [done|]. intros E. split; [lia|].
  assert (max_batch = mb /\ match gate with
    | Some (m, limit) => (mb <= N.of_nat (calls_per_window m limit))%N /\ (0 < limit)%Q
    | None => True end) as [-> Hg].
  { destruct (cfg_rate_limit config) as [l|]; simpl in E; [|by simplify_eq].
    destruct (N.ltb_spec (N.of_nat (calls_per_window (for_rate_limit rate_window_size l) l)) mb);
      [done|]. simplify_eq. split; [done|]. split; [lia|].
    apply Qnot_le_lt. intros Hle. apply Qle_bool_iff in Hle. congruence. }
  destruct (split_calls_spec calls mb) as (chunks & Es & Hc & Hf); [lia|].
  exists chunks. split_and!; [done..|]. rewrite Forall_forall in Hf. intros c Hin.
  destruct (Hf c Hin) as [? ?]. split_and!; [done..|].
  destruct gate as [[m l]|]; [|done]. destruct Hg. split; [lia|done].
Qed.
End rpc.

(** ** Concrete clients *)

Definition demo_options : CallOptions (Value := nat) := mkCallOptions None None None.

Definition demo_answer (i : nat) : RpcResponse (Value := nat) :=
  mkRpcResponse (N.of_nat i) (Some (100 + i)) None.

(** A provider that finds batches of more than two calls too large. *)
Definition demo_upstream : Upstream (Value := nat) :=
  mkUpstream (fun off _ => Ok (demo_answer off))
    (fun off n _ => if 2 <? n then Err (RpcFailure (-32000) "response too large" None)
                    else Ok (demo_answer <$> seq off n)).

Definition demo_ladder : LadderConfig := mkLadderConfig 2 [10; 100]%N false.

Lemma batch_answers_in_order_witness :
  exists items, batch_call_reduce_on_retry 0 demo_ladder demo_options demo_upstream 5
      (replicate 7 ("eth_getBlockByNumber"%string, None)) = Some (Ok items) /\
    items = (fun i => Ok (100 + i)) <$> seq 0 7 /\ length items = 7.
Proof.
  destruct (batch_answers_in_order 0 demo_ladder demo_options demo_upstream 5
    (replicate 7 ("eth_getBlockByNumber"%string, None))) as (r & E & Hr).
  - intros off n k rs. unfold demo_upstream; simpl. destruct n as [|[|[|n]]]; simpl; try done;
      intros [= <-]; done.
  - done.
  - vm_compute in E. injection E as <-. eexists. split; [vm_compute; reflexivity|].
    split; [reflexivity|]. exact (proj1 Hr).
Defined.

Lemma config_admissible_witness :
  exists gate chunks,
    try_new (Value := nat) (mkClientConfig None 10 (Some 50%Q)) = Ok (10%N, gate) /\
    split_calls (Value := nat) (replicate 23 ("m"%string, None)) 10 = Some chunks /\
    length <$> chunks = [10; 10; 3] /\ concat chunks = replicate 23 ("m"%string, None).
Proof.
  eexists. destruct (config_admissible (Value := nat) (mkClientConfig None 10 (Some 50%Q)) 10
    _ (replicate 23 ("m"%string, None)) eq_refl) as (_ & chunks & E & Hc & _).
  exists chunks. split; [reflexivity|]. split; [exact E|]. split; [|exact Hc].
  vm_compute in E. injection E as <-. reflexivity.
Defined.
