(* ===== verification/Flight.v ===== *)
(** * Flight: the requests of one client in flight (rpc-client/src/client.rs)

    Every activity of the adapter shares one [RpcClient]: its id counter, its
    rate meter and its semaphore. [execute_single] and [execute_batch] touch
    them at separate points, between which any other task can run or be
    dropped, so the client is a machine of these points: [step] is what one
    task does at one of them, at a clock reading, and [interleave] an interleaving.

    The theorems: permits, ids and reservations are accounted for in every
    interleaving, cancellations included; no task is ever stuck; and what the
    meter bounds is the reservations, not the requests that reach the wire. *)
From stdpp Require Import gmap fin_maps.
From S2P Require Import Prelude Rate RpcClient.
From Stdlib Require Import QArith.
Local Open Scope nat_scope.
Local Open Scope rust_scope.

Definition wrap_u64 (n : N) : N := (n mod 2 ^ 64)%N.

(** ** State *)

(** What a task asks for: a single call has drawn its id, a batch has not. *)
Inductive Ask : Type :=
  | AskSingle (id : N)
  | AskBatch (count : nat).

Definition ask_count (a : Ask) : nat := match a with AskSingle _ => 1 | AskBatch n => n end.

(** In [wait_for_rate], in [semaphore.acquire()], in the transport. *)
Inductive Phase : Type :=
  | Reserving (a : Ask)
  | Queued (a : Ask)
  | Sending (ids : list N).

Record ClientState := mkClientState {
  counter : N;
  permits : nat;
  gate : option (RateMeter * Q);
  tasks : gmap nat Phase
}.

Inductive Effect : Type :=
  | Drew (count : nat)
  | Granted (count : nat) (now_ms : N)
  | Wire (ids : list N) (now_ms : N).

Inductive TaskPoint : Type :=
  | BeginSingle (t : nat)
  | BeginBatch (t : nat) (count : nat)
  | Reserve (t : nat)
  | Acquire (t : nat)
  | Land (t : nat)
  | Cancel (t : nat).

(** ** The points of a task *)

(** [counter.fetch_add(n, Relaxed)]. *)
Definition fetch_add (n : nat) (c : ClientState) : N * ClientState :=
  (counter c, mkClientState (wrap_u64 (counter c + N.of_nat n)) (permits c) (gate c) (tasks c)).

Definition set_task (t : nat) (p : option Phase) (c : ClientState) : ClientState :=
  mkClientState (counter c) (permits c) (gate c) (partial_alter (fun _ => p) t (tasks c)).

Definition with_permits (n : nat) (c : ClientState) : ClientState := mkClientState (counter c) n (gate c) (tasks c).

Definition with_gate (g : option (RateMeter * Q)) (c : ClientState) : ClientState :=
  mkClientState (counter c) (permits c) g (tasks c).

(** One turn of [wait_for_rate]: [true] when it returns. *)
Definition reserve (count : nat) (now_ms : N) (c : ClientState) : option (bool * ClientState) :=
  match gate c with
  | None => Some (true, c)
  | Some (m, limit) =>
      match try_reserve m limit (N.of_nat count) now_ms with
      | None => None
      | Some (inl m') => Some (true, with_gate (Some (m', limit)) c)
      | Some (inr _) => Some (false, c)
      end
  end.

(** The ids of a request, once it holds a permit. *)
Definition batch_ids (base : N) (count : nat) : list N :=
  (fun i => wrap_u64 (base + N.of_nat i)) <$> seq 0 count.

Definition request_ids (a : Ask) (c : ClientState) : list N * list Effect * ClientState :=
  match a with
  | AskSingle id => ([id], [], c)
  | AskBatch count =>
      let (old, c) := fetch_add count c in
      (batch_ids (wrap_u64 (old + 1)) count, [Drew count], c)
  end.

(** One task at one point; [None]: it is not at that point, or cannot go on.
    A permit goes back when the request ends, however it ends. *)
Definition step (now_ms : N) (e : TaskPoint) (c : ClientState) : option (ClientState * list Effect) :=
  match e with
  | BeginSingle t =>
      match tasks c !! t with
      | Some _ => None
      | None =>
          let (old, c) := fetch_add 1 c in
          Some (set_task t (Some (Reserving (AskSingle (wrap_u64 (old + 1))))) c, [Drew 1])
      end
  | BeginBatch t count =>
      match tasks c !! t with
      | Some _ => None
      | None => Some (set_task t (Some (Reserving (AskBatch count))) c, [])
      end
  | Reserve t =>
      match tasks c !! t with
      | Some (Reserving a) =>
          let! (ok, c) := reserve (ask_count a) now_ms c in
          if ok then Some (set_task t (Some (Queued a)) c, [Granted (ask_count a) now_ms]) else Some (c, [])
      | _ => None
      end
  | Acquire t =>
      match tasks c !! t, permits c with
      | Some (Queued a), S n =>
          let '(ids, drew, c) := request_ids a c in
          Some (set_task t (Some (Sending ids)) (with_permits n c), drew ++ [Wire ids now_ms])
      | _, _ => None
      end
  | Land t =>
      match tasks c !! t with
      | Some (Sending _) => Some (set_task t None (with_permits (S (permits c)) c), [])
      | _ => None
      end
  | Cancel t =>
      match tasks c !! t with
      | Some (Sending _) => Some (set_task t None (with_permits (S (permits c)) c), [])
      | Some _ => Some (set_task t None c, [])
      | None => None
      end
  end.

Fixpoint interleave (es : list (N * TaskPoint)) (c : ClientState) : option (ClientState * list Effect) :=
  match es with
  | [] => Some (c, [])
  | (now_ms, e) :: es =>
      let! (c, l1) := step now_ms e c in
      let! (c, l2) := interleave es c in
      Some (c, l1 ++ l2)
  end.

(** The client [try_new] builds. *)
Definition client_start (capacity : nat) (g : option (RateMeter * Q)) : ClientState := mkClientState 0 capacity g ∅.

(** ** What a history did *)

Definition wire_ids (l : list Effect) : list N :=
  concat (omap (fun e => match e with Wire ids _ => Some ids | _ => None end) l).

Definition drawn (l : list Effect) : nat :=
  sum_list_with (fun e => match e with Drew n => n | _ => 0 end) l.

Definition granted (l : list Effect) : list (N * N) :=
  omap (fun e => match e with Granted n now_ms => Some (N.of_nat n, now_ms) | _ => None end) l.

Definition granted_total (l : list Effect) : nat :=
  sum_list_with (fun e => match e with Granted n _ => n | _ => 0 end) l.

(** The calls put on the wire at or before a time and after another. *)
Definition sent_in (t0 span : N) (l : list Effect) : N :=
  granted_in t0 span (omap (fun e => match e with Wire ids now_ms => Some (N.of_nat (length ids), now_ms)
                                     | _ => None end) l).

(** ** Sums over the tasks *)

Definition weight (f : Phase -> nat) (m : gmap nat Phase) : nat := map_fold (fun _ p acc => f p + acc) 0 m.

Lemma weight_insert f m t p : weight f (<[t := p]> m) = f p + weight f (delete t m).
Proof.
  unfold weight. rewrite <- insert_delete_eq. rewrite (map_fold_insert_L (fun _ p acc => f p + acc)); [done|intros; lia|apply lookup_delete_eq].
Qed.

Lemma weight_lookup f m t : weight f m = from_option f 0 (m !! t) + weight f (delete t m).
Proof.
  destruct (m !! t) as [p|] eqn:Hp; simpl.
  - rewrite <- weight_insert. by rewrite insert_id.
  - by rewrite delete_id.
Qed.

Lemma weight_alter f m t p :
  weight f (partial_alter (fun _ => p) t m) = from_option f 0 p + weight f (delete t m).
Proof. destruct p as [p|]; [apply weight_insert|done]. Qed.

Definition sending (p : Phase) : nat := match p with Sending _ => 1 | _ => 0 end.
Definition queued (p : Phase) : nat := match p with Queued a => ask_count a | _ => 0 end.

(** Requests in the transport. *)
Definition in_flight (c : ClientState) : nat := weight sending (tasks c).

(** Calls that have a reservation and no permit yet. *)
Definition waiting (c : ClientState) : nat := weight queued (tasks c).

(** ** Interleavings *)

(** What every step keeps holds at the end of every interleaving. *)
Lemma run_keeps (I : ClientState -> list Effect -> Prop) es : forall c l c' l',
  (forall now e c l c1 l1, I c l -> step now e c = Some (c1, l1) -> I c1 (l ++ l1)) ->
  I c l -> interleave es c = Some (c', l') -> I c' (l ++ l').
Proof.
  induction es as [|[now e] es IH]; intros c l c' l' Hstep HI Hr; cbn [interleave] in Hr.
  - injection Hr as <- <-. by rewrite app_nil_r.
  - destruct (step now e c) as [[c1 l1]|] eqn:Hs; [|done].
    destruct (interleave es c1) as [[c2 l2]|] eqn:Hr2; [|done]. injection Hr as <- <-.
    rewrite app_assoc. eapply IH; [done| |exact Hr2]. by eapply Hstep.
Qed.

Lemma reserve_tasks count now c ok c' :
  reserve count now c = Some (ok, c') -> tasks c' = tasks c /\ permits c' = permits c /\ counter c' = counter c.
Proof. unfold reserve. intros H. by repeat case_match; simplify_eq/=. Qed.

(** The permits and the reservations are accounted for. *)
Definition books (capacity : nat) (c : ClientState) (l : list Effect) : Prop :=
  in_flight c + permits c = capacity /\ length (wire_ids l) + waiting c <= granted_total l.

Lemma wire_ids_app l1 l2 : wire_ids (l1 ++ l2) = wire_ids l1 ++ wire_ids l2.
Proof. unfold wire_ids. by rewrite omap_app, concat_app. Qed.

Lemma granted_total_app l1 l2 : granted_total (l1 ++ l2) = granted_total l1 + granted_total l2.
Proof. apply sum_list_with_app. Qed.

Lemma drawn_app l1 l2 : drawn (l1 ++ l2) = drawn l1 + drawn l2.
Proof. apply sum_list_with_app. Qed.

Lemma books_set capacity c l l1 t p q c1 :
  tasks c1 = tasks c -> tasks c !! t = q ->
  books capacity c l ->
  from_option sending 0 p + permits c1 = from_option sending 0 q + permits c ->
  length (wire_ids l1) + from_option queued 0 p <= from_option queued 0 q + granted_total l1 ->
  books capacity (set_task t p c1) (l ++ l1).
Proof.
  intros Ht Hq [Hp Hw] H1 H2. unfold books, in_flight, waiting in *. cbn [set_task tasks permits].
  rewrite wire_ids_app, length_app, granted_total_app, !weight_alter, Ht.
  rewrite (weight_lookup sending _ t), Hq in Hp. rewrite (weight_lookup queued _ t), Hq in Hw. lia.
Qed.

Lemma length_request_ids a c ids drew c1 :
  request_ids a c = (ids, drew, c1) ->
  length ids = ask_count a /\ tasks c1 = tasks c /\ permits c1 = permits c
  /\ wire_ids drew = [] /\ granted_total drew = 0.
Proof.
  destruct a as [id|n]; cbn; intros [= <- <- <-]; [done|].
  unfold batch_ids. by rewrite length_fmap, length_seq.
Qed.

Lemma books_step capacity now e c l c1 l1 :
  books capacity c l -> step now e c = Some (c1, l1) -> books capacity c1 (l ++ l1).
Proof.
  intros Hb Hs. destruct e as [t|t n|t|t|t|t]; cbn [step] in Hs;
    destruct (tasks c !! t) as [[a|a|ids]|] eqn:Ht; try done.
  - injection Hs as <- <-. by apply (books_set _ c _ _ _ _ None).
  - injection Hs as <- <-. by apply (books_set _ c _ _ _ _ None).
  - destruct (reserve (ask_count a) now c) as [[ok c']|] eqn:Hr; [|done].
    apply reserve_tasks in Hr as (H1 & H2 & _). destruct ok; injection Hs as <- <-.
    + apply (books_set _ c _ _ _ _ (Some (Reserving a))); [done..|by rewrite H2|simpl; lia].
    + rewrite app_nil_r. unfold books, in_flight, waiting. by rewrite H1, H2.
  - destruct (permits c) as [|n] eqn:Hp; [done|]. destruct (request_ids a c) as [[ids drew] c'] eqn:Hi.
    apply length_request_ids in Hi as (Hl & H1 & H2 & H3 & H4). injection Hs as <- <-.
    apply (books_set _ c _ _ _ _ (Some (Queued a))); [done..|simpl; lia|].
    rewrite wire_ids_app, H3, granted_total_app, H4. change (wire_ids [Wire ids now]) with (ids ++ []).
    rewrite app_nil_r. cbn. lia.
  - injection Hs as <- <-. apply (books_set _ c _ _ _ _ (Some (Sending ids))); [done..|simpl; lia|simpl; lia].
  - injection Hs as <- <-. apply (books_set _ c _ _ _ _ (Some (Reserving a))); [done..|simpl; lia].
  - injection Hs as <- <-. apply (books_set _ c _ _ _ _ (Some (Queued a))); [done..|simpl; lia].
  - injection Hs as <- <-. apply (books_set _ c _ _ _ _ (Some (Sending ids))); [done..|simpl; lia|simpl; lia].
Qed.

(** ** Ids *)

(** The id a task has drawn and not sent. *)
Definition held_id (p : option Phase) : option N :=
  match p with
  | Some (Reserving (AskSingle id)) | Some (Queued (AskSingle id)) => Some id
  | _ => None
  end.

Definition held (c : ClientState) (t : nat) : option N := held_id (tasks c !! t).

(** No id is met twice, on the wire or waiting for it. *)
Definition ids_fresh (c : ClientState) (l : list Effect) : Prop :=
  (N.of_nat (drawn l) < 2 ^ 64)%N ->
  counter c = N.of_nat (drawn l)
  /\ Forall (fun x => 1 <= x <= N.of_nat (drawn l))%N (wire_ids l)
  /\ NoDup (wire_ids l)
  /\ forall t x, held c t = Some x ->
       (1 <= x <= N.of_nat (drawn l))%N /\ x ∉ wire_ids l /\ forall t', held c t' = Some x -> t' = t.

Lemma held_set t p c t' : held (set_task t p c) t' = if decide (t' = t) then held_id p else held c t'.
Proof.
  unfold held, set_task. cbn [tasks]. destruct (decide (t' = t)) as [->|Hne].
  - by rewrite lookup_partial_alter_eq.
  - by rewrite lookup_partial_alter_ne.
Qed.

(** A step that draws nothing, sends nothing, and leaves a task with the id it
    had, or with none. *)
Lemma fresh_quiet c c1 l l1 t p :
  ids_fresh c l -> wire_ids l1 = [] -> drawn l1 = 0 -> counter c1 = counter c -> tasks c1 = tasks c ->
  held_id p = None \/ held_id p = held c t ->
  ids_fresh (set_task t p c1) (l ++ l1).
Proof.
  intros Hf Hw Hd Hc Ht Hp Hlt. rewrite drawn_app, Hd, Nat.add_0_r in *. rewrite wire_ids_app, Hw, app_nil_r.
  destruct (Hf Hlt) as (Hcount & Hall & Hnd & Hheld). split_and!; [by rewrite <- Hcount|done|done|].
  assert (forall t' x, held (set_task t p c1) t' = Some x -> held c t' = Some x) as Hback.
  { intros t' x. rewrite held_set. unfold held at 1. rewrite Ht. destruct (decide (t' = t)) as [->|]; [|done].
    destruct Hp as [-> | ->]; done. }
  intros t' x Hx%Hback. destruct (Hheld t' x Hx) as (? & ? & Hu). split_and!; [lia..|done|].
  intros t2 H2%Hback. by apply Hu.
Qed.

Lemma batch_ids_fresh D n :
  (N.of_nat (D + n) < 2 ^ 64)%N ->
  NoDup (batch_ids (wrap_u64 (N.of_nat D + 1)) n)
  /\ Forall (fun x => N.of_nat D < x <= N.of_nat (D + n))%N (batch_ids (wrap_u64 (N.of_nat D + 1)) n).
Proof.
  intros Hlt. unfold batch_ids, wrap_u64.
  assert (forall i, i < n -> (((N.of_nat D + 1) mod 2 ^ 64 + N.of_nat i) mod 2 ^ 64 = N.of_nat (D + i) + 1)%N) as Hi.
  { intros i Hi. rewrite (N.mod_small (N.of_nat D + 1)) by lia. rewrite N.mod_small by lia. lia. }
  split.
  - apply NoDup_fmap_2_strong; [|apply NoDup_seq].
    intros i j H1%elem_of_seq H2%elem_of_seq E. rewrite !Hi in E by lia. lia.
  - apply Forall_fmap, Forall_forall. intros i H%elem_of_seq. cbn. rewrite Hi by lia. lia.
Qed.

Lemma fresh_begin c l t :
  ids_fresh c l -> tasks c !! t = None ->
  ids_fresh (set_task t (Some (Reserving (AskSingle (wrap_u64 (counter c + 1))))) (fetch_add 1 c).2) (l ++ [Drew 1]).
Proof.
  intros Hf Ht Hlt. rewrite drawn_app, wire_ids_app, app_nil_r in *. cbn [drawn sum_list_with] in Hlt |- *.
  change (drawn [Drew 1]) with 1 in *. destruct Hf as (Hc & Hall & Hnd & Hheld); [lia|].
  assert (wrap_u64 (counter c + 1) = N.of_nat (drawn l + 1)) as Hid by (unfold wrap_u64; rewrite N.mod_small; lia).
  rewrite Hid. split_and!; [cbn; unfold wrap_u64; rewrite N.mod_small; lia| |done|].
  - eapply Forall_impl; [exact Hall|]. cbn. lia.
  - assert (forall t' x, held c t' = Some x -> (x <= N.of_nat (drawn l))%N) as Hold by (intros t' x Hx; by apply Hheld in Hx as [? _]; lia).
    intros t' x. rewrite held_set. change (held (fetch_add 1 c).2) with (held c).
    destruct (decide (t' = t)) as [->|Hne].
    + intros [= <-]. split_and!; [lia..| |].
      * intros Hin. eapply Forall_forall in Hall; [|exact Hin]. cbn in Hall. lia.
      * intros t2. rewrite held_set. change (held (fetch_add 1 c).2) with (held c).
        destruct (decide (t2 = t)); [done|]. intros Hx%Hold. lia.
    + intros Hx. destruct (Hheld _ _ Hx) as (? & ? & Hu). split_and!; [lia..|done|].
      intros t2. rewrite held_set. change (held (fetch_add 1 c).2) with (held c).
      destruct (decide (t2 = t)) as [->|]; [|apply Hu]. intros [= <-]. lia.
Qed.

(** A task sends [ids]: the one it held, or some just drawn. *)
Lemma fresh_send c c1 l l1 t ids :
  ids_fresh c l -> wire_ids l1 = ids -> tasks c1 = tasks c ->
  ((N.of_nat (drawn l + drawn l1) < 2 ^ 64)%N -> counter c = N.of_nat (drawn l) ->
   counter c1 = N.of_nat (drawn l + drawn l1)) ->
  (drawn l1 = 0 /\ (exists x, ids = [x] /\ held c t = Some x)
   \/ ((N.of_nat (drawn l + drawn l1) < 2 ^ 64)%N -> counter c = N.of_nat (drawn l) -> NoDup ids
        /\ Forall (fun x => N.of_nat (drawn l) < x <= N.of_nat (drawn l + drawn l1))%N ids)) ->
  ids_fresh (set_task t (Some (Sending ids)) c1) (l ++ l1).
Proof.
  intros Hf Hw Ht Hcount Hids Hlt. rewrite drawn_app in *. rewrite wire_ids_app, Hw.
  destruct Hf as (Hc & Hall & Hnd & Hheld); [lia|].
  assert (forall t' x, held (set_task t (Some (Sending ids)) c1) t' = Some x -> t' <> t /\ held c t' = Some x) as Hback.
  { intros t' x. rewrite held_set. unfold held. rewrite Ht. by destruct (decide (t' = t)). }
  assert (NoDup ids /\ Forall (fun x => 1 <= x <= N.of_nat (drawn l + drawn l1))%N ids
          /\ (forall x, x ∈ ids -> x ∉ wire_ids l)
          /\ forall t' x, t' <> t -> held c t' = Some x -> x ∉ ids) as (H1 & H2 & H3 & H4).
  { destruct Hids as [[Hd (x & -> & Hx)]|Hnew].
    - destruct (Hheld t x Hx) as (Hb & Hn & Hu). split_and!.
      + apply NoDup_singleton.
      + constructor; [lia|constructor].
      + by intros y ->%list_elem_of_singleton.
      + intros t' y Hne Hy ->%list_elem_of_singleton. by apply Hne, Hu.
    - destruct (Hnew Hlt Hc) as [Hn Hb]. split_and!; [done| | |].
      + eapply Forall_impl; [exact Hb|]. cbn. lia.
      + intros x Hx Hin. eapply Forall_forall in Hb; [|exact Hx]. eapply Forall_forall in Hall; [|exact Hin].
        cbn in *. lia.
      + intros t' x _ Hx Hin. eapply Forall_forall in Hb; [|exact Hin]. apply Hheld in Hx as [? _]. cbn in *. lia. }
  split_and!.
  - by apply Hcount.
  - apply Forall_app. split; [|exact H2]. eapply Forall_impl; [exact Hall|]. cbn. lia.
  - apply NoDup_app. split_and!; [done| |done]. intros x Hx Hin. by apply (H3 x).
  - intros t' x Hx. destruct (Hback _ _ Hx) as [Hne Hx']. destruct (Hheld _ _ Hx') as (? & Hn & Hu).
    split_and!; [lia..| |].
    + intros [?|?]%elem_of_app; [done|by apply (H4 t' x)].
    + intros t2 [_ Hx2]%Hback. by apply Hu.
Qed.

Lemma ids_fresh_step now e c l c1 l1 :
  ids_fresh c l -> step now e c = Some (c1, l1) -> ids_fresh c1 (l ++ l1).
Proof.
  intros Hb Hs. destruct e as [t|t n|t|t|t|t]; cbn [step] in Hs;
    destruct (tasks c !! t) as [[a|a|ids]|] eqn:Ht; try done.
  - injection Hs as <- <-. by apply fresh_begin.
  - injection Hs as <- <-. apply fresh_quiet with (c := c); try done. by left.
  - destruct (reserve (ask_count a) now c) as [[ok c']|] eqn:Hr; [|done].
    apply reserve_tasks in Hr as (H1 & H2 & H3). destruct ok; injection Hs as <- <-.
    + apply fresh_quiet with (c := c); try done. right. unfold held. by rewrite Ht.
    + rewrite app_nil_r. intros Hlt. destruct (Hb Hlt) as (Hc & Hrest). split; [by rewrite H3|].
      unfold held in *. by rewrite H1.
  - destruct (permits c) as [|n] eqn:Hp; [done|]. destruct (request_ids a c) as [[ids drew] c'] eqn:Hi.
    injection Hs as <- <-. destruct a as [id|count]; cbn in Hi; injection Hi as <- <- <-.
    + apply fresh_send with (c := c); [done|done|done| |].
      * intros _ E. cbn. by rewrite E, Nat.add_0_r.
      * left. split; [done|]. exists id. unfold held. by rewrite Ht.
    + assert (drawn ([Drew count] ++ [Wire (batch_ids (wrap_u64 (counter c + 1)) count) now]) = count) as Hd
        by (cbn; lia).
      apply fresh_send with (c := c); [done|by cbn; rewrite app_nil_r|done| |]; rewrite Hd.
      * intros Hlt E. cbn. rewrite E. unfold wrap_u64. rewrite N.mod_small; lia.
      * right. intros Hlt ->. by apply batch_ids_fresh.
  - injection Hs as <- <-. apply fresh_quiet with (c := c); try done. by left.
  - injection Hs as <- <-. apply fresh_quiet with (c := c); try done. by left.
  - injection Hs as <- <-. apply fresh_quiet with (c := c); try done. by left.
  - injection Hs as <- <-. apply fresh_quiet with (c := c); try done. by left.
Qed.

(** ** Reservations *)

(** A clock that does not run backwards, within an [i64] of milliseconds. *)
Fixpoint in_order (t : N) (es : list (N * TaskPoint)) : Prop :=
  match es with
  | [] => True
  | (now_ms, _) :: es => (t <= now_ms < 9223372036854775808)%N /\ in_order now_ms es
  end.

Lemma in_order_bound t es : in_order t es -> Forall (fun e => e.1 <= 9223372036854775808)%N es.
Proof.
  revert t. induction es as [|[now e] es IH]; intros t; [constructor|]. intros [? Ho].
  constructor; [cbn; lia|by eapply IH].
Qed.

Section metered.
Context (m0 : RateMeter) (limit : Q).

Definition as_slots (g : list (N * N)) : list (Z * N) := (fun '(n, now_ms) => (slot_of m0 now_ms, n)) <$> g.

(** The meter holds exactly what was granted, and no window of it is over. *)
Definition metered (t : N) (c : ClientState) (l : list Effect) : Prop :=
  exists m, gate c = Some (m, limit) /\ same_shape m0 m /\ meter_inv m (as_slots (granted l))
    /\ windows_within m limit (as_slots (granted l)) /\ (time m <= slot_of m0 t)%Z.

Lemma metered_quiet t now c l c1 l1 :
  (0 < slot_time m0)%N -> (t <= now)%N -> gate c1 = gate c -> granted l1 = [] ->
  metered t c l -> metered now c1 (l ++ l1).
Proof.
  intros Hs Ht Hg Hl (m & H1 & H2 & H3 & H4 & H5). exists m. rewrite Hg.
  assert (granted (l ++ l1) = granted l) as -> by (unfold granted in *; by rewrite omap_app, Hl, app_nil_r).
  pose proof (slot_of_mono m0 t now Hs Ht). split_and!; [done..|lia].
Qed.

Lemma same_shape_trans m m' m'' : same_shape m m' -> same_shape m' m'' -> same_shape m m''.
Proof. intros (? & ? & ?) (? & ? & ?). split_and!; congruence. Qed.

Lemma metered_reserve t now c l count ok c' :
  (t <= now < 9223372036854775808)%N -> metered t c l -> reserve count now c = Some (ok, c') ->
  metered now c' (l ++ (if ok then [Granted count now] else [])).
Proof.
  intros Hn (m & H1 & Hsh & Hinv & Hw & Ht) Hr. unfold reserve in Hr. rewrite H1 in Hr.
  pose proof (inv_slot _ _ Hinv) as Hs. assert (0 < slot_time m0)%N as Hs0 by (destruct Hsh as (_ & <- & _); done).
  rewrite <- (slot_of_same m0 m) in Ht by done.
  destruct (try_reserve_spec m _ limit (N.of_nat count) now t Hinv Hw Ht Hn) as (r & Er & Hres).
  rewrite Er in Hr. destruct r as [m'|u]; injection Hr as <- <-.
  - destruct Hres as (Hinv' & Hsh' & Hw' & Htm). exists m'. cbn [gate with_gate].
    assert (as_slots (granted (l ++ [Granted count now]))
            = as_slots (granted l) ++ [(slot_of m now, N.of_nat count)]) as ->.
    { unfold as_slots, granted. rewrite omap_app, fmap_app. cbn. by rewrite (slot_of_same m0 m). }
    split_and!; [done|by eapply same_shape_trans|done|done|]. rewrite Htm, (slot_of_same m0 m) by done. lia.
  - apply (metered_quiet t _ c); [done|lia|done|done|]. exists m. split_and!; [done..|].
    by rewrite <- (slot_of_same m0 m).
Qed.

Lemma metered_step t now e c l c1 l1 :
  (0 < slot_time m0)%N -> (t <= now < 9223372036854775808)%N ->
  metered t c l -> step now e c = Some (c1, l1) -> metered now c1 (l ++ l1).
Proof.
  intros Hst Hn Hm Hs.
  assert ((gate c1 = gate c /\ granted l1 = [])
          \/ exists a ok c', reserve (ask_count a) now c = Some (ok, c') /\ gate c1 = gate c'
               /\ l1 = if ok then [Granted (ask_count a) now] else []) as [[? ?]|(a & ok & c' & Hr & Hg & ->)].
  { destruct e as [u|u n|u|u|u|u]; cbn [step] in Hs;
      destruct (tasks c !! u) as [[a|a|ids]|]; try done; try (left; by injection Hs as <- <-).
    - right. destruct (reserve (ask_count a) now c) as [[ok c']|] eqn:Er; [|done].
      exists a, ok, c'. destruct ok; by injection Hs as <- <-.
    - left. destruct (permits c); [done|]. destruct a; cbn in Hs; by injection Hs as <- <-. }
  - apply (metered_quiet t _ c); [done|lia|done..].
  - pose proof (metered_reserve _ _ _ _ _ _ _ Hn Hm Hr) as (m & H1 & H2). exists m. by rewrite Hg.
Qed.

Lemma metered_later t now c l :
  (0 < slot_time m0)%N -> (t <= now)%N -> metered t c l -> metered now c l.
Proof. intros Hs Ht H. rewrite <- (app_nil_r l). by apply (metered_quiet t _ c). Qed.

Lemma metered_run es T : forall t c l c' l',
  (0 < slot_time m0)%N -> in_order t es -> (t <= T)%N -> Forall (fun e => e.1 <= T)%N es ->
  metered t c l -> interleave es c = Some (c', l') -> metered T c' (l ++ l').
Proof.
  induction es as [|[now e] es IH]; intros t c l c' l' Hst Ho Ht HT Hm Hr; cbn [interleave] in Hr.
  - injection Hr as <- <-. rewrite app_nil_r. by eapply metered_later.
  - destruct Ho as [Hn Ho]. destruct (step now e c) as [[c1 l1]|] eqn:Hs; [|done].
    destruct (interleave es c1) as [[c2 l2]|] eqn:Hr2; [|done]. injection Hr as <- <-.
    apply Forall_cons in HT as [? HT]. rewrite app_assoc.
    eapply IH; [done|exact Ho|done|done| |exact Hr2]. by eapply metered_step.
Qed.
End metered.

Lemma metered_start ws st limit t capacity :
  (0 < st)%N -> (0 <= limit)%Q ->
  metered (rate_meter_new ws st) limit t (client_start capacity (Some (rate_meter_new ws st, limit))) [].
Proof.
  intros Hs Hl. exists (rate_meter_new ws st). split_and!; [done|done|by apply rate_meter_new_inv| |].
  - intros hi. cbn. unfold contribution, Q_of_N, Qdiv. cbn. by rewrite Qmult_0_r, Qmult_0_l.
  - cbn. unfold slot_of. cbn. apply Z.div_pos; lia.
Qed.

(** ** The theorems *)

(** C17: One client, any interleaving: at every moment the requests in the
    transport and the free permits are the configured capacity, whatever was
    cancelled; no call reaches the wire without a reservation of its own; no
    id is sent twice before 2^64 are drawn; and the reservations granted in
    any window of the meter respect the limit. *)
Theorem flight_accounted capacity g es c l :
  interleave es (client_start capacity g) = Some (c, l) ->
  in_flight c + permits c = capacity
  /\ length (wire_ids l) + waiting c <= granted_total l
  /\ ((N.of_nat (drawn l) < 2 ^ 64)%N -> NoDup (wire_ids l))
  /\ forall ws st limit, g = Some (rate_meter_new ws st, limit) -> (0 < st)%N -> (0 <= limit)%Q ->
       in_order 0 es ->
       forall t0, (contribution (rate_meter_new ws st) (granted_in t0 (N.of_nat ws * st) (granted l)) <= limit)%Q.
Proof.
  intros Hr.
  assert (books capacity c ([] ++ l)) as [Hp Hw].
  { eapply run_keeps; [|split|exact Hr]; [intros; by eapply books_step|done|exact (Nat.le_refl 0)]. }
  split; [exact Hp|]. split; [exact Hw|]. split.
  - assert (ids_fresh c ([] ++ l)) as Hf.
    { eapply (run_keeps ids_fresh); [intros; by eapply ids_fresh_step| |exact Hr].
      intros _. split_and!; [done|constructor|constructor|]. intros t x Hx. discriminate Hx. }
    intros Hlt. by apply Hf.
  - intros ws st limit -> Hs Hl Ho t0.
    destruct (metered_run (rate_meter_new ws st) limit es 9223372036854775808 0
                (client_start capacity (Some (rate_meter_new ws st, limit))) [] c l Hs Ho)
      as (m & _ & Hsh & Hinv & Hww & _); [done|by apply (in_order_bound 0)|by apply metered_start|exact Hr|].
    eapply Qle_trans; [apply contribution_le, (granted_in_slots (rate_meter_new ws st)); [done|apply length_replicate]|].
    rewrite <- (contribution_same _ m) by done. replace (length (window (rate_meter_new ws st))) with (length (window m))
      by (by destruct Hsh as (_ & _ & ->)).
    eapply Qle_trans; [|apply (Hww (slot_of (rate_meter_new ws st) t0 - 1 + Z.of_nat (length (window m)))%Z)].
    rewrite Z.add_simpl_r. apply Qle_refl.
Qed.

(** ** No task is stuck *)

Lemma run_app es1 es2 c c1 l1 :
  interleave es1 c = Some (c1, l1) -> interleave (es1 ++ es2) c = (let! (c2, l2) := interleave es2 c1 in Some (c2, l1 ++ l2)).
Proof.
  revert c l1. induction es1 as [|[now e] es1 IH]; intros c l1 Hr; cbn [interleave app] in *.
  - injection Hr as <- <-. by destruct (interleave es2 c) as [[c2 l2]|].
  - destruct (step now e c) as [[c' l]|]; [|done]. destruct (interleave es1 c') as [[c'' l']|] eqn:Hr1; [|done].
    injection Hr as <- <-. rewrite (IH c' l' Hr1). destruct (interleave es2 c'') as [[c2 l2]|]; [|done].
    by rewrite app_assoc.
Qed.

(** A step the code takes for a call in progress, without giving it up. *)
Definition goes_on (e : N * TaskPoint) : Prop :=
  match e.2 with Reserve _ | Acquire _ | Land _ => True | _ => False end.

(** From [c] the call of task [t] can be brought to its end at [now]. *)
Definition can_finish (now : N) (c : ClientState) (t : nat) : Prop :=
  exists es c' l', interleave es c = Some (c', l') /\ Forall goes_on es /\ Forall (fun e => e.1 = now) es
    /\ tasks c' !! t = None.

Lemma can_finish_step now c t e c1 l1 :
  step now e c = Some (c1, l1) -> goes_on (now, e) -> can_finish now c1 t -> can_finish now c t.
Proof.
  intros Hs He (es & c' & l' & Hr & H1 & H2 & H3). exists ((now, e) :: es), c', (l1 ++ l').
  split_and!; [cbn [interleave]; by rewrite Hs, Hr|by constructor|by constructor|done].
Qed.

Lemma sending_finishes now c t ids : tasks c !! t = Some (Sending ids) -> can_finish now c t.
Proof.
  intros Ht. exists [(now, Land t)]. eexists _, _. split_and!; [cbn; by rewrite Ht|by repeat constructor|by repeat constructor|].
  cbn. apply lookup_partial_alter_eq.
Qed.

Lemma weight_pos f m : 0 < weight f m -> exists t p, m !! t = Some p /\ 0 < f p.
Proof.
  induction m as [|t p m Hm IH] using map_ind; [intros H; by apply Nat.nlt_0_r in H|].
  rewrite weight_insert, delete_id by done. intros H. destruct (decide (0 < f p)) as [Hp|Hp].
  - exists t, p. by rewrite lookup_insert_eq.
  - destruct IH as (u & q & Hu & Hq); [lia|]. exists u, q. split; [|done].
    rewrite lookup_insert_ne; [done|]. intros ->. congruence.
Qed.

Lemma queued_acquires now c t a n :
  tasks c !! t = Some (Queued a) -> permits c = S n -> can_finish now c t.
Proof.
  intros Ht Hp. destruct (request_ids a c) as [[ids drew] c1] eqn:Hi.
  eapply (can_finish_step _ _ _ (Acquire t)); [cbn [step]; rewrite Ht, Hp, Hi; done|done|].
  eapply (sending_finishes _ _ _ ids). cbn. apply lookup_partial_alter_eq.
Qed.

Lemma queued_finishes capacity now c t a :
  0 < capacity -> in_flight c + permits c = capacity -> tasks c !! t = Some (Queued a) -> can_finish now c t.
Proof.
  intros Hcap Hbooks Ht. destruct (permits c) as [|n] eqn:Hp; [|by eapply queued_acquires].
  destruct (weight_pos sending (tasks c)) as (u & p & Hu & Hs); [unfold in_flight in Hbooks; lia|].
  destruct p as [a'|a'|ids]; cbn in Hs; try lia.
  eapply (can_finish_step _ _ _ (Land u)); [cbn [step]; by rewrite Hu|done|].
  eapply (queued_acquires _ _ _ a 0); [|cbn; by rewrite Hp].
  cbn. rewrite lookup_partial_alter_ne; [done|]. intros ->. congruence.
Qed.

(** The time a full window takes to empty. *)
Definition window_ms (g : option (RateMeter * Q)) : N :=
  match g with None => 0 | Some (m, _) => N.of_nat (window_size m + 1) * slot_time m end.

(** A gate like those [try_new] builds, and a request its chunks can be. *)
Definition fits (g : option (RateMeter * Q)) (count : nat) : Prop :=
  match g with
  | None => True
  | Some (m, limit) =>
      (exists ws st, m = rate_meter_new ws st /\ 0 < ws /\ (0 < st)%N) /\ (0 < limit)%Q
      /\ count <= calls_per_window m limit
  end.

Lemma reserves_later capacity g es c l T count :
  interleave es (client_start capacity g) = Some (c, l) -> fits g count ->
  in_order 0 es -> Forall (fun e => e.1 <= T)%N es -> (T + window_ms g < 9223372036854775808)%N ->
  exists c', reserve count (T + window_ms g) c = Some (true, c').
Proof.
  intros Hr Hfit Ho HT Hclock. destruct g as [[m0 limit]|].
  - destruct Hfit as ((ws & st & -> & Hws & Hst) & Hl & Hcount).
    destruct (metered_run (rate_meter_new ws st) limit es T 0
                (client_start capacity (Some (rate_meter_new ws st, limit))) [] c l Hst Ho)
      as (m & Hg & Hsh & Hinv & _ & Ht); [lia|done|by apply metered_start; [|apply Qlt_le_weak]|exact Hr|].
    pose proof (capped_batch_admitted m _ limit (N.of_nat count) (T + window_ms (Some (rate_meter_new ws st, limit))) Hinv) as Hadm.
    pose proof (slot_of_same (rate_meter_new ws st) m) as Hslot. destruct Hsh as (H1 & H2 & H3).
    destruct Hadm as [_ Hadm]; [by rewrite H1|done| |done|].
    + rewrite Hslot, H1 by done. cbn [window_ms window_size slot_time rate_meter_new] in *.
      assert (slot_of (rate_meter_new ws st) (T + N.of_nat (ws + 1) * st)
              = slot_of (rate_meter_new ws st) T + Z.of_nat (ws + 1))%Z as ->; [|lia].
      unfold slot_of. cbn [slot_time rate_meter_new]. rewrite <- Z.div_add by lia. f_equal. lia.
    + destruct Hadm as [m' Hm'].
      { rewrite Nat2N.id. unfold calls_per_window in *. rewrite (contribution_same (rate_meter_new ws st) m) by done. done. }
      unfold reserve. rewrite Hg, Hm'. by eexists.
  - assert (gate c = None) as Hg; [|unfold reserve; rewrite Hg; by eexists].
    apply (run_keeps (fun c _ => gate c = None) es (client_start capacity None) [] c l); [|done|done].
    intros now e c0 l0 c1 l1 Hg Hs. destruct e as [u|u n|u|u|u|u]; cbn [step] in Hs;
      destruct (tasks c0 !! u) as [[a|a|ids]|]; try done; try (by injection Hs as <- _).
    + unfold reserve in Hs. rewrite Hg in Hs. by injection Hs as <- _.
    + destruct (permits c0); [done|]. destruct a; cbn in Hs; by injection Hs as <- _.
Qed.

(** C18: No call is ever stuck. In every state any interleaving leads to,
    whatever was cancelled before, each call in progress can be brought to its
    end by the code's own steps, no later than one window of the meter after
    the last clock reading, and without giving up any call. *)
Theorem flight_progress capacity g es c l T t p :
  0 < capacity -> interleave es (client_start capacity g) = Some (c, l) -> tasks c !! t = Some p ->
  in_order 0 es -> Forall (fun e => e.1 <= T)%N es -> (T + window_ms g < 9223372036854775808)%N ->
  (forall a, p = Reserving a -> fits g (ask_count a)) ->
  can_finish (T + window_ms g) c t.
Proof.
  intros Hcap Hr Ht Ho HT Hclock Hfit.
  assert (books capacity c ([] ++ l)) as [Hb _].
  { eapply run_keeps; [|split|exact Hr]; [intros; by eapply books_step|done|exact (Nat.le_refl 0)]. }
  destruct p as [a|a|ids]; [|by eapply queued_finishes|by eapply sending_finishes].
  destruct (reserves_later capacity g es c l T (ask_count a)) as [c' Hc']; [done|by apply Hfit|done..|].
  pose proof (reserve_tasks _ _ _ _ _ Hc') as (H1 & H2 & _).
  eapply (can_finish_step _ _ _ (Reserve t)); [cbn [step]; by rewrite Ht, Hc'|done|].
  eapply (queued_finishes capacity _ _ _ a Hcap); [|apply lookup_partial_alter_eq].
  unfold in_flight in *. cbn [set_task tasks permits]. rewrite weight_alter, H1, H2. cbn [from_option sending].
  rewrite (weight_lookup sending (tasks c) t), Ht in Hb. cbn [from_option sending] in Hb. lia.
Qed.

(** ** Instances *)

(** Two calls a second, one connection: a call hangs for ten seconds while
    others get their reservations, two a second, and queue behind it; when it
    ends, they all go out at once. *)
Definition two_a_second : RateMeter * Q := (rate_meter_new 10 100, 2%Q).

Definition burst : list (N * TaskPoint) :=
  [(0, BeginSingle 0); (0, Reserve 0); (0, Acquire 0)]%N
  ++ concat ((fun i => [(N.of_nat i * 1100, BeginSingle i); (N.of_nat i * 1100, Reserve i)])%N <$> seq 1 9)
  ++ [(9900, Land 0)]%N
  ++ concat ((fun i => [(9900, Acquire i); (9900, Land i)])%N <$> seq 1 9).

(** What the meter bounds is the reservations: the requests the node sees can
    exceed the limit by as many calls as were waiting. *)
Example wire_exceeds_the_limit :
  (fun '(c, l) => (in_flight c, granted_in 8899 1000 (granted l), sent_in 8899 1001 l))
    <$> interleave burst (client_start 1 (Some two_a_second))
  = Some (0, 0%N, 9%N).
Proof. vm_compute. reflexivity. Qed.

Lemma flight_accounted_witness :
  exists c l, interleave burst (client_start 1 (Some two_a_second)) = Some (c, l) /\ NoDup (wire_ids l)
    /\ (contribution (rate_meter_new 10 100) (granted_in 8899 1000 (granted l)) <= 2)%Q.
Proof.
  destruct (interleave burst (client_start 1 (Some two_a_second))) as [[c l]|] eqn:E; [|by vm_compute in E].
  exists c, l. destruct (flight_accounted 1 (Some two_a_second) burst c l E) as (_ & _ & H1 & H2).
  split; [done|]. split.
  - apply H1. vm_compute in E. injection E as <- <-. vm_compute. reflexivity.
  - apply (H2 10 100%N 2%Q eq_refl); [done|done|]. vm_compute. repeat split; discriminate.
Defined.

Lemma flight_progress_witness :
  exists c l, interleave [(0, BeginBatch 0 2); (0, Reserve 0); (0, Acquire 0); (5, BeginBatch 1 2); (5, Reserve 1)]%N
                (client_start 1 (Some two_a_second)) = Some (c, l)
    /\ can_finish 1105 c 1.
Proof.
  destruct (interleave _ (client_start 1 (Some two_a_second))) as [[c l]|] eqn:E; [|by vm_compute in E].
  exists c, l. split; [done|].
  apply (flight_progress 1 (Some two_a_second) _ c l 5 1 (Reserving (AskBatch 2)) ltac:(lia) E).
  - vm_compute in E. injection E as <- <-. reflexivity.
  - vm_compute. repeat split; discriminate.
  - repeat constructor; vm_compute; discriminate.
  - reflexivity.
  - intros a Ha. injection Ha as <-. split; [exists 10, 100%N; repeat split; vm_compute; lia|].
    split; [reflexivity|]. vm_compute. lia.
Defined.
