(* ===== verification/Transport.v ===== *)
(** * Transport: JSON-RPC over HTTP (rpc-client/src/transport.rs)

    One POST per request: the frame [as_wire] gives, its body, the reading of
    the status, and the pairing of the reply with the request by id. The HTTP
    library and [serde_json] are parameters: what a POST comes back with, the
    text of a frame and the parse of a body. [http_upstream] puts the transport
    under the client of RpcClient.v, with the requests its [execute_single] and
    [execute_batch] build. The theorems: whatever the network and the node do,
    an answer is handed to the call that asked for it; and a node that answers
    what it is asked, in any order, is understood. *)
From S2P Require Import Prelude Rate RpcClient Flight.
From Stdlib Require Import Strings.Ascii.
Local Open Scope rust_scope.
Local Open Scope nat_scope.

(** ** Frames *)

Section frames.
Context {Value : Type}.

(** A field of a frame, before it is a text. *)
Inductive Field : Type :=
  | FText (s : string)
  | FNumber (n : N)
  | FValue (v : Value).

Record RpcRequest := mkRpcRequest {
  jsonrpc : string;
  frame_id : N;
  frame_method : string;
  frame_params : option Value
}.

(** The derived [Serialize]: the fields in order, [params] only when present. *)
Definition serialize_request (r : RpcRequest) : list (string * Field) :=
  [("jsonrpc"%string, FText (jsonrpc r)); ("id"%string, FNumber (frame_id r));
   ("method"%string, FText (frame_method r))]
  ++ match frame_params r with Some v => [("params"%string, FValue v)] | None => [] end.

Record OwnedRpcRequest := mkOwnedRpcRequest {
  req_id : N;
  req_method : string;
  req_params : option Value
}.

Definition as_wire (r : OwnedRpcRequest) : RpcRequest :=
  mkRpcRequest "2.0" (req_id r) (req_method r) (req_params r).

(** The request [execute_single] builds, and those of [execute_batch]. *)
Definition single_request (id : N) (call : Call) : OwnedRpcRequest :=
  mkOwnedRpcRequest id (fst call) (snd call).

Definition batch_requests (base_id : N) (calls : list (Call (Value := Value))) : list OwnedRpcRequest :=
  zip_with single_request (batch_ids base_id (length calls)) calls.
End frames.

(** ** The HTTP library *)

(** [reqwest::Error]. *)
Record HttpError := mkHttpError { is_timeout : bool; error_text : string }.

Record HttpRequest := mkHttpRequest {
  post_url : string;
  post_headers : list (string * string);
  post_body : string;
  post_timeout : option N
}.

(** A response whose body is still to be read. *)
Record HttpResponse := mkHttpResponse {
  http_status : N;
  http_text : Result string HttpError;
  http_bytes : Result string HttpError
}.

(** [StatusCode::is_success]. *)
Definition is_success (status : N) : bool := ((200 <=? status) && (status <? 300))%N.

(** Text of a frame, of an array of them; parse of a body as one response, as an
    array of them. *)
Class SerdeJson (Value : Type) := {
  to_vec : list (string * Field (Value := Value)) -> string;
  to_vec_array : list (list (string * Field (Value := Value))) -> string;
  from_slice : string -> option (RpcResponse (Value := Value));
  from_slice_array : string -> option (list (RpcResponse (Value := Value)))
}.

(** ** The transport *)

(** The pool is configured in connections and seconds. *)
Record HttpTransport := mkHttpTransport {
  http_url : string;
  pool_max_idle_per_host : nat;
  pool_idle_timeout_s : N;
  tcp_keepalive_s : N
}.

Definition HttpTransport_new (url : string) (capacity : nat) : HttpTransport :=
  mkHttpTransport url (Nat.min capacity 64) 120 30.

Section http.
Context {Value : Type} `{SerdeJson Value}.
Abbreviation RpcError := (RpcClient.RpcError (Value := Value)).
Abbreviation RpcResponse := (RpcClient.RpcResponse (Value := Value)).
Abbreviation Request := (OwnedRpcRequest (Value := Value)).

(** What comes back from a POST. *)
Definition HttpNetwork : Type := HttpRequest -> Result HttpResponse HttpError.

Definition reqwest_error (e : HttpError) : RpcError :=
  if is_timeout e then Timeout else Connection (error_text e).

(** The POST of a body; a zero timeout is none. *)
Definition post_of (t : HttpTransport) (body : string) (timeout : N) : HttpRequest :=
  mkHttpRequest (http_url t) [("content-type"%string, "application/json"%string)] body
    (if (timeout =? 0)%N then None else Some timeout).

Definition post_raw (t : HttpTransport) (net : HttpNetwork) (body : string) (timeout : N)
    : Result string RpcError :=
  let? response := map_err reqwest_error (net (post_of t body timeout)) in
  if negb (is_success (http_status response)) then
    Err (HttpFailure (http_status response)
           (match http_text response with Ok body_text => body_text | Err _ => EmptyString end))
  else map_err reqwest_error (http_bytes response).

Definition http_send_single (t : HttpTransport) (net : HttpNetwork) (req : Request) (timeout : N)
    : Result RpcResponse RpcError :=
  let body := to_vec (serialize_request (as_wire req)) in
  let? raw := post_raw t net body timeout in
  match from_slice raw with
  | None => Err (Protocol InvalidJson)
  | Some resp => check_single (req_id req) resp
  end.

(** What a batch body parses as: an array, else a lone envelope with an error. *)
Definition batch_body (raw : string) : BatchBody (Value := Value) :=
  match from_slice_array raw with
  | Some responses => ParsedArray responses
  | None =>
      match from_slice raw with
      | Some resp => match resp_error resp with Some info => ParsedEnvelope info | None => Unparsed end
      | None => Unparsed
      end
  end.

Definition HttpTransport_send_batch (t : HttpTransport) (net : HttpNetwork) (reqs : list Request) (timeout : N)
    : Result (list RpcResponse) RpcError :=
  let body := to_vec_array (serialize_request ∘ as_wire <$> reqs) in
  let? raw := post_raw t net body timeout in
  http_send_batch (req_id <$> reqs) (batch_body raw).

(** ** Under the client *)

(** Which attempt a request is of: the [k]-th at the call at [off], or at the
    [n] calls from [off] on. *)
Inductive Attempt : Type :=
  | AtSingle (off k : nat)
  | AtBatch (off n k : nat).

(** The [n] calls from [off] on. *)
Definition calls_from (off n : nat) (calls : list (Call (Value := Value))) : list Call :=
  (fun j => nth (off + j) calls (EmptyString, None)) <$> seq 0 n.

(** At each attempt the client draws ids, [ids], and meets a network, [net]. *)
Definition http_upstream (t : HttpTransport) (timeout : N) (ids : Attempt -> N) (net : Attempt -> HttpNetwork)
    (calls : list (Call (Value := Value))) : Upstream (Value := Value) :=
  mkUpstream
    (fun off k =>
       http_send_single t (net (AtSingle off k))
         (single_request (ids (AtSingle off k)) (nth off calls (EmptyString, None))) timeout)
    (fun off n k =>
       HttpTransport_send_batch t (net (AtBatch off n k))
         (batch_requests (ids (AtBatch off n k)) (calls_from off n calls)) timeout).

(** ** Requests *)

Lemma batch_requests_lookup base (calls : list (Call (Value := Value))) i call :
  calls !! i = Some call -> batch_requests base calls !! i = Some (single_request (wrap_u64 (base + N.of_nat i)) call).
Proof.
  intros Hi. pose proof (lookup_lt_Some _ _ _ Hi). unfold batch_requests, batch_ids.
  rewrite lookup_zip_with, list_lookup_fmap, lookup_seq_lt by done. simpl. by rewrite Hi.
Qed.

Lemma batch_requests_ids base (calls : list (Call (Value := Value))) :
  req_id <$> batch_requests base calls = batch_ids base (length calls).
Proof.
  unfold batch_requests. apply list_eq. intros i. rewrite list_lookup_fmap, lookup_zip_with.
  destruct (batch_ids base (length calls) !! i) as [id|] eqn:Hi; [|done]. simpl.
  destruct (calls !! i) as [call|] eqn:Hc; [done|].
  apply lookup_ge_None in Hc. apply lookup_lt_Some in Hi. unfold batch_ids in Hi.
  rewrite length_fmap, length_seq in Hi. lia.
Qed.

(** Ids drawn together differ, even across the wrap of the counter. *)
Lemma batch_ids_NoDup base n : (N.of_nat n <= 2 ^ 64)%N -> NoDup (batch_ids base n).
Proof.
  intros Hn. apply NoDup_fmap_2_strong; [|apply NoDup_seq].
  intros i j Hi%elem_of_seq Hj%elem_of_seq E. unfold wrap_u64 in E.
  set (m := (2 ^ 64)%N) in *. assert (m <> 0)%N as Hm by done.
  pose proof (N.div_mod (base + N.of_nat i) m Hm) as Di. pose proof (N.div_mod (base + N.of_nat j) m Hm) as Dj.
  rewrite E in Di. revert Di Dj. generalize ((base + N.of_nat i) / m)%N, ((base + N.of_nat j) / m)%N, ((base + N.of_nat j) mod m)%N.
  intros q1 q2 r Di Dj. destruct (N.lt_trichotomy q1 q2) as [H1|[->|H1]]; nia.
Qed.

Lemma length_batch_requests base (calls : list (Call (Value := Value))) :
  length (batch_requests base calls) = length calls.
Proof. rewrite <- (length_fmap req_id), batch_requests_ids. unfold batch_ids. by rewrite length_fmap, length_seq. Qed.

Lemma length_calls_from off n calls : length (calls_from off n calls) = n.
Proof. unfold calls_from. by rewrite length_fmap, length_seq. Qed.

Lemma calls_from_lookup off n calls i call :
  off <= i < off + n -> calls !! i = Some call -> calls_from off n calls !! (i - off) = Some call.
Proof.
  intros Hi Hc. unfold calls_from. rewrite list_lookup_fmap, lookup_seq_lt by lia. simpl.
  f_equal. replace (off + (i - off)) with i by lia. by apply nth_lookup_Some.
Qed.

(** ** Whose answer it is *)

(** The node's reply [raw] to the POST of [body] was read in full. *)
Definition replied (t : HttpTransport) (net : HttpNetwork) (body : string) (timeout : N) (raw : string) : Prop :=
  exists response, net (post_of t body timeout) = Ok response /\ is_success (http_status response) = true
    /\ http_bytes response = Ok raw.

Lemma post_raw_replied t net body timeout raw :
  post_raw t net body timeout = Ok raw <-> replied t net body timeout raw.
Proof.
  unfold post_raw, replied, map_err. split.
  - destruct (net (post_of t body timeout)) as [response|e]; [|done].
    destruct (is_success (http_status response)) eqn:Hs; simpl; [|done].
    destruct (http_bytes response) as [b|] eqn:Hb; [|done]. intros [= <-]. by exists response.
  - by intros (response & -> & -> & ->).
Qed.

(** [resp] is a response for [call], the one at position [i]: it came back for
    a POST that held the request of that call, under the id of that request, or
    as the error envelope of a request sent alone. *)
Inductive response_for (t : HttpTransport) (timeout : N) (ids : Attempt -> N) (net : Attempt -> HttpNetwork)
    (calls : list (Call (Value := Value))) (i : nat) (call : Call (Value := Value)) (resp : RpcResponse) : Prop :=
  | for_single k req raw :
      req = single_request (ids (AtSingle i k)) call ->
      replied t (net (AtSingle i k)) (to_vec (serialize_request (as_wire req))) timeout raw ->
      from_slice raw = Some resp ->
      resp_id resp = req_id req \/ resp_error resp <> None ->
      response_for t timeout ids net calls i call resp
  | for_batch off n k reqs req raw responses :
      reqs = batch_requests (ids (AtBatch off n k)) (calls_from off n calls) ->
      off <= i < off + n -> reqs !! (i - off) = Some req -> fst call = req_method req -> snd call = req_params req ->
      replied t (net (AtBatch off n k)) (to_vec_array (serialize_request ∘ as_wire <$> reqs)) timeout raw ->
      from_slice_array raw = Some responses -> length responses = n ->
      resp ∈ responses -> resp_id resp = req_id req ->
      response_for t timeout ids net calls i call resp.

Lemma check_single_ok id (resp r : RpcResponse) :
  check_single id resp = Ok r -> r = resp /\ (resp_id r = id \/ resp_error r <> None).
Proof.
  unfold check_single. destruct (N.eqb_spec (resp_id resp) id) as [He|]; simpl; [intros [= <-]; by auto|].
  destruct (resp_error resp) eqn:E; [|done]. intros [= <-]. split; [done|right; congruence].
Qed.

Lemma http_single_own t timeout ids net calls i k call resp :
  calls !! i = Some call ->
  send_single (http_upstream t timeout ids net calls) i k = Ok resp ->
  response_for t timeout ids net calls i call resp.
Proof.
  intros Hc. cbn [http_upstream send_single]. rewrite (nth_lookup_Some _ _ _ _ Hc). unfold http_send_single.
  destruct (post_raw _ _ _ _) as [raw|] eqn:Hr; [|done]. apply post_raw_replied in Hr.
  destruct (from_slice raw) as [r|] eqn:Hf; [|done].
  intros [-> Hid]%check_single_ok. eapply for_single; [reflexivity|done..].
Qed.

(** What a batch that succeeded went through. *)
Lemma send_batch_ok t net reqs timeout responses :
  HttpTransport_send_batch t net reqs timeout = Ok responses ->
  exists raw rs, replied t net (to_vec_array (serialize_request ∘ as_wire <$> reqs)) timeout raw
    /\ from_slice_array raw = Some rs /\ length rs = length reqs
    /\ Forall2 (fun req resp => resp_id resp = req_id req /\ resp ∈ rs) reqs responses.
Proof.
  unfold HttpTransport_send_batch. destruct (post_raw _ _ _ _) as [raw|] eqn:Hr; [|done].
  apply post_raw_replied in Hr. unfold batch_body.
  destruct (from_slice_array raw) as [rs|] eqn:Hf; [|by repeat case_match].
  cbn [http_send_batch]. unfold correlate. rewrite length_fmap.
  destruct (Nat.eqb_spec (length rs) (length reqs)) as [Hl|]; [|done]. cbn [negb].
  intros Ho%take_ordered_ok. exists raw, rs. split_and!; [done..|].
  apply Forall2_fmap_l in Ho. eapply Forall2_impl; [exact Ho|]. intros req resp Hx. cbn in Hx.
  apply response_map_lookup in Hx as [Hx|[? ?]]; [by rewrite lookup_empty in Hx|done].
Qed.

Lemma http_answers_everything t timeout ids net calls :
  answers_everything (http_upstream t timeout ids net calls).
Proof.
  intros off n k responses Hs. apply send_batch_ok in Hs as (raw & rs & _ & _ & _ & Hf).
  apply Forall2_length in Hf. rewrite length_batch_requests, length_calls_from in Hf. done.
Qed.

Lemma http_batch_own t timeout ids net calls off n k i call responses resp :
  calls !! i = Some call -> off <= i < off + n ->
  send_batch (http_upstream t timeout ids net calls) off n k = Ok responses ->
  responses !! (i - off) = Some resp ->
  response_for t timeout ids net calls i call resp.
Proof.
  intros Hc Hi Hs Hr. apply send_batch_ok in Hs as (raw & rs & Hraw & Hp & Hl & Hf).
  destruct (Forall2_lookup_r _ _ _ _ _ Hf Hr) as (req & Hreq & Hid & Hin).
  pose proof (batch_requests_lookup (ids (AtBatch off n k)) _ _ _ (calls_from_lookup off n calls i call Hi Hc)) as Hb.
  rewrite Hreq in Hb. injection Hb as ->.
  rewrite length_batch_requests, length_calls_from in Hl.
  eapply for_batch; [reflexivity|exact Hi|exact Hreq|done|done|exact Hraw|exact Hp|done..].
Qed.

(** ** A node that answers *)

Section honest.
Variable answer : Call (Value := Value) -> option Value * option (RpcErrorInfo (Value := Value)).

Definition response_to (req : Request) : RpcResponse :=
  let (result, error) := answer (req_method req, req_params req) in mkRpcResponse (req_id req) result error.

(** It answers every request, and every request of a batch, in any order. *)
Definition node_serves (t : HttpTransport) (timeout : N) (net : HttpNetwork) : Prop :=
  (forall req, exists raw, replied t net (to_vec (serialize_request (as_wire req))) timeout raw
     /\ from_slice raw = Some (response_to req)) /\
  (forall reqs, exists raw rs, replied t net (to_vec_array (serialize_request ∘ as_wire <$> reqs)) timeout raw
     /\ from_slice_array raw = Some rs /\ rs ≡ₚ response_to <$> reqs).

Lemma response_to_id req : resp_id (response_to req) = req_id req.
Proof. unfold response_to. by destruct (answer _). Qed.

Lemma http_send_single_served t net req timeout :
  node_serves t timeout net -> http_send_single t net req timeout = Ok (response_to req).
Proof.
  intros [Hs _]. destruct (Hs req) as (raw & Hr & Hf). unfold http_send_single.
  apply post_raw_replied in Hr as ->. rewrite Hf. unfold check_single.
  by rewrite response_to_id, N.eqb_refl.
Qed.

Lemma same_id_same_request (reqs : list Request) r1 r2 :
  NoDup (req_id <$> reqs) -> r1 ∈ reqs -> r2 ∈ reqs -> req_id r1 = req_id r2 -> r1 = r2.
Proof.
  intros Hnd [i Hi]%list_elem_of_lookup [j Hj]%list_elem_of_lookup Heq.
  assert (i = j) as ->; [|congruence].
  eapply (NoDup_lookup _ i j (req_id r1)); [exact Hnd|..]; rewrite list_lookup_fmap; [by rewrite Hi|by rewrite Hj, Heq].
Qed.

Lemma http_send_batch_served t net reqs timeout :
  node_serves t timeout net -> NoDup (req_id <$> reqs) ->
  HttpTransport_send_batch t net reqs timeout = Ok (response_to <$> reqs).
Proof.
  intros [_ Hs] Hnd. destruct (Hs reqs) as (raw & rs & Hr & Hf & Hp). unfold HttpTransport_send_batch.
  apply post_raw_replied in Hr as ->. unfold batch_body. rewrite Hf. cbn [http_send_batch].
  assert (length rs = length (req_id <$> reqs)) as Hl by (rewrite Hp; by rewrite !length_fmap).
  pose proof (correlate_by_id (req_id <$> reqs) rs) as Hc.
  destruct (correlate (req_id <$> reqs) rs) as [out|e].
  - destruct Hc as [_ Hc%Forall2_fmap_l]. f_equal. apply list_eq_Forall2, Forall2_fmap_r, Forall2_flip.
    apply Forall2_same_length_lookup. split; [by eapply Forall2_length|]. intros i req resp Hi Ho.
    destruct (Forall2_lookup_lr _ _ _ _ _ _ Hc Hi Ho) as [Hid Hin]. rewrite Hp in Hin.
    apply list_elem_of_fmap in Hin as (req' & -> & Hin). rewrite response_to_id in Hid. cbn.
    f_equal. apply (same_id_same_request reqs); [done..|by eapply list_elem_of_lookup_2|done].
  - destruct Hc. split_and!; [done..|]. intros id (req & -> & Hin)%list_elem_of_fmap. exists (response_to req).
    split; [|apply response_to_id]. rewrite Hp. by apply list_elem_of_fmap_2.
Qed.

(** *** Through the client *)

Context (Null : Value) (options : CallOptions (Value := Value)) (value : Call (Value := Value) -> Value).

(** What the caller's hooks make of the node's answers. *)
Definition accepted : Prop :=
  forall req, process_response Null options (response_to req) = Ok (value (req_method req, req_params req)).

Lemma reduce_batch_served t timeout ids net calls cfg off n :
  accepted -> (forall a, node_serves t timeout (net a)) ->
  (forall a, NoDup (batch_ids (ids a) n)) ->
  exists events, reduce_batch Null n cfg options (http_upstream t timeout ids net calls) off n
                 = Some (Ok (Ok ∘ value <$> calls_from off n calls), events).
Proof.
  intros Hv Hs Hnd. set (up := http_upstream t timeout ids net calls).
  assert (forall k, execute_single Null options up off k = Ok (value (nth off calls (EmptyString, None)))) as H1.
  { intros k. unfold execute_single, up. cbn [http_upstream send_single]. rewrite http_send_single_served by done.
    rewrite Hv. cbn. by destruct (nth off calls _). }
  assert (forall k, execute_batch Null options up off n k = Ok (Ok ∘ value <$> calls_from off n calls)) as H2.
  { intros k. unfold execute_batch, up. cbn [http_upstream send_batch].
    rewrite http_send_batch_served; [|done|by rewrite batch_requests_ids, length_calls_from].
    f_equal. rewrite <- list_fmap_compose. apply list_eq. intros i. rewrite !list_lookup_fmap.
    destruct (calls_from off n calls !! i) as [call|] eqn:Hc.
    - rewrite (batch_requests_lookup _ _ _ _ Hc). cbn. rewrite Hv. cbn. by destruct call.
    - apply lookup_ge_None in Hc. by rewrite (proj2 (lookup_ge_None _ _)) by (rewrite length_batch_requests; lia). }
  destruct n as [|[|n]]; cbn [reduce_batch Nat.leb].
  - by eexists.
  - cbn [batch_chunk]. unfold call_with_options, retry_ladder. cbn [retry_loop]. rewrite H1. eexists. cbn.
    by rewrite Nat.add_0_r.
  - cbn [reduce_loop]. rewrite H2. by eexists.
Qed.

Lemma calls_from_take off n calls :
  off + n <= length calls -> calls_from off n calls = take n (drop off calls).
Proof.
  intros Hl. apply list_eq. intros i. destruct (decide (i < n)) as [Hi|Hi].
  - rewrite lookup_take_lt, lookup_drop by done. destruct (lookup_lt_is_Some_2 calls (off + i)) as [c Hc]; [lia|].
    rewrite Hc. replace i with (off + i - off) by lia. apply calls_from_lookup; [lia|done].
  - rewrite !(proj2 (lookup_ge_None _ _)); [done|rewrite length_take; lia|rewrite length_calls_from; lia].
Qed.

Lemma gather_served run calls chunks : forall off,
  (forall o n, o + n <= length calls ->
     exists ev, run o n = Some (Ok (Ok ∘ value <$> calls_from o n calls) : Result (list Item) RpcError, ev)) ->
  off + length (concat chunks) = length calls ->
  gather run off chunks = Some (Ok (Ok ∘ value <$> drop off calls)).
Proof.
  induction chunks as [|chunk chunks IH]; intros off Hrun Hl; cbn [gather].
  { cbn in Hl. by rewrite drop_ge by lia. }
  cbn [concat] in Hl. rewrite length_app in Hl.
  destruct (Hrun off (length chunk)) as [ev ->]; [lia|]. rewrite (IH (off + length chunk)) by (done || lia).
  do 2 f_equal. rewrite calls_from_take by lia. rewrite <- fmap_app. f_equal.
  rewrite <- drop_drop. by rewrite take_drop.
Qed.
End honest.

(** ** The theorems *)

(** C16: Whatever the network and the node do over HTTP - no reply, a bad
    status, a body that is not JSON, answers out of order, missing, repeated or
    under foreign ids - a batched call returns, and a value it hands out for a
    call is what the caller's hooks make of a response for that very call: one
    that came back for a POST that held its request, under that request's id or
    as the error of a request sent alone. *)
Theorem http_answers_are_own Null cfg options t timeout ids net calls max_batch :
  (0 < max_batch)%N ->
  exists r, batch_call_reduce_on_retry Null cfg options (http_upstream t timeout ids net calls) max_batch calls = Some r
    /\ match r with
       | Ok items => length items = length calls /\
           forall i call v, calls !! i = Some call -> items !! i = Some (Ok v) ->
             exists resp, response_for t timeout ids net calls i call resp /\ process_response Null options resp = Ok v
       | Err _ => True
       end.
Proof.
  intros Hm. unfold batch_call_reduce_on_retry. destruct (split_calls_spec calls max_batch Hm) as (chunks & -> & Hc & _).
  set (up := http_upstream t timeout ids net calls).
  destruct (gather_spec Null options up (fun off n => reduce_batch Null n cfg options up off n) 0 chunks)
    as (r & -> & Hr); [intros; apply reduce_batch_spec; [apply http_answers_everything|lia]|].
  exists r. split; [done|]. destruct r as [items|]; [|done]. rewrite Hc in Hr. destruct Hr as [Hl Ha].
  split; [done|]. intros i call v Hcall Hi. apply Ha in Hi. cbn in Hi.
  remember (Ok v) as item eqn:Hv. destruct Hi as [k v' He|k e He|off n k its item Hin He Hits]; simplify_eq.
  - unfold execute_single in He. destruct (send_single up i k) as [resp|] eqn:Hs; [|done].
    exists resp. split; [by eapply http_single_own|done].
  - unfold execute_batch in He. destruct (send_batch up off n k) as [resps|] eqn:Hs; [|done]. injection He as <-.
    rewrite list_lookup_fmap in Hits. destruct (resps !! (i - off)) as [resp|] eqn:Hresp; [|done].
    exists resp. split; [by eapply http_batch_own|]. by injection Hits.
Qed.

(** A node that answers what it is asked is understood. When every POST of
    a request or of an array of them is answered, the responses in any order,
    and the caller's hooks accept the answers, a batched call of any length
    returns the value of each call, in order, whatever the cap and whatever ids
    the client draws. *)
Theorem http_node_served Null cfg options value answer t timeout ids net calls max_batch :
  (0 < max_batch)%N -> (N.of_nat (length calls) <= 2 ^ 64)%N ->
  (forall a, node_serves answer t timeout (net a)) -> accepted answer Null options value ->
  batch_call_reduce_on_retry Null cfg options (http_upstream t timeout ids net calls) max_batch calls
  = Some (Ok (Ok ∘ value <$> calls)).
Proof.
  intros Hm Hlen Hs Hv. unfold batch_call_reduce_on_retry.
  destruct (split_calls_spec calls max_batch Hm) as (chunks & -> & Hc & _). cbn.
  apply (gather_served value _ calls chunks 0); [|by rewrite Hc].
  intros o n Ho. apply (reduce_batch_served answer); [done..|]. intros a. apply batch_ids_NoDup. lia.
Qed.
End http.

(** ** A concrete codec and node *)

(** A frame as its id and the length of its method, in unary; a node that sends
    the body back, and a body read as the responses, last first, each holding
    the length of the method. *)
Fixpoint unary (n : nat) (rest : string) : string :=
  match n with 0 => rest | S n => String "x"%char (unary n rest) end.

Definition demo_frame (fields : list (string * Field (Value := nat))) (rest : string) : string :=
  match fields with
  | _ :: (_, FNumber id) :: (_, FText m) :: _ =>
      unary (N.to_nat id) (String ","%char (unary (String.length m) (String "."%char rest)))
  | _ => rest
  end.

Fixpoint demo_read (s : string) (n : nat) (id : N) : list (RpcResponse (Value := nat)) :=
  match s with
  | EmptyString => []
  | String ","%char s => demo_read s 0 (N.of_nat n)
  | String "."%char s => mkRpcResponse id (Some n) None :: demo_read s 0 0
  | String _ s => demo_read s (S n) id
  end.

#[export] Instance demo_serde : SerdeJson nat := {
  to_vec fields := demo_frame fields EmptyString;
  to_vec_array l := foldr demo_frame EmptyString l;
  from_slice s := head (demo_read s 0 0);
  from_slice_array s := Some (reverse (demo_read s 0 0))
}.

Definition demo_net : HttpNetwork :=
  fun req => Ok (mkHttpResponse 200 (Ok (post_body req)) (Ok (post_body req))).

Definition demo_value (call : Call (Value := nat)) : nat := String.length (fst call).

Lemma demo_read_unary k rest n id : demo_read (unary k rest) n id = demo_read rest (n + k) id.
Proof. revert n. induction k as [|k IH]; intros n; cbn; [by rewrite Nat.add_0_r|]. rewrite IH. f_equal. lia. Qed.

Lemma demo_read_frame req rest :
  demo_read (demo_frame (serialize_request (as_wire req)) rest) 0 0
  = response_to (fun call => (Some (demo_value call), None)) req :: demo_read rest 0 0.
Proof.
  destruct req as [id m p]. cbn [as_wire serialize_request demo_frame app jsonrpc frame_id frame_method req_id req_method].
  rewrite demo_read_unary. cbn [demo_read]. rewrite demo_read_unary. cbn. by rewrite N2Nat.id.
Qed.

Lemma demo_serves t timeout : node_serves (fun call => (Some (demo_value call), None)) t timeout demo_net.
Proof.
  split.
  - intros req. eexists. split; [eexists; by repeat split|]. cbn [from_slice to_vec demo_serde post_of post_body].
    by rewrite demo_read_frame.
  - intros reqs. do 2 eexists. split; [eexists; by repeat split|]. split; [reflexivity|].
    rewrite reverse_Permutation. cbn [to_vec_array demo_serde post_of post_body].
    induction reqs as [|req reqs IH]; [done|]. cbn [fmap list_fmap foldr]. unfold compose at 1.
    by rewrite demo_read_frame, IH.
Qed.

Definition demo_calls : list (Call (Value := nat)) :=
  [("eth_blockNumber", None); ("eth_chainId", None); ("eth_getLogs", Some 5)]%string.

Definition demo_http : HttpTransport := HttpTransport_new "http://node" 5.

Lemma http_node_served_witness :
  batch_call_reduce_on_retry 0 demo_ladder demo_options
    (http_upstream demo_http 0 (fun _ => 41%N) (fun _ => demo_net) demo_calls) 2 demo_calls
  = Some (Ok [Ok 15; Ok 11; Ok 11]).
Proof.
  apply (http_node_served 0 demo_ladder demo_options demo_value (fun call => (Some (demo_value call), None))
           demo_http 0 (fun _ => 41%N) (fun _ => demo_net) demo_calls 2); [done|done| |done].
  intros a. apply demo_serves.
Defined.

Lemma http_answers_are_own_witness :
  exists resp,
    response_for demo_http 0 (fun _ => 41%N) (fun _ => demo_net) demo_calls 2 ("eth_getLogs"%string, Some 5) resp
    /\ process_response 0 demo_options resp = Ok 11.
Proof.
  destruct (http_answers_are_own 0 demo_ladder demo_options demo_http 0 (fun _ => 41%N) (fun _ => demo_net)
              demo_calls 2 eq_refl) as (r & E & Hr).
  vm_compute in E. injection E as <-. destruct Hr as [_ Hr].
  apply (Hr 2 ("eth_getLogs"%string, Some 5) 11); reflexivity.
Defined.
