(* ===== verification/Observability.v ===== *)
(** * Observability: the client's round trips on the scrape (evm-source/src/observability.rs)

    The bridge from the RPC client's reporting hook to the registry: the class
    of an error, and what each report records. The theorem follows one chunk of
    a batched call, its retries included, to the counters it leaves. *)
From S2P Require Import Prelude Types Chain Service Metrics RpcClient.

#[export] Instance UpstreamErrorClass_eq_dec : EqDecision UpstreamErrorClass.
Proof. solve_decision. Defined.

Section observer.
Context {Value : Type} (Null : Value) (display_error : AnyError -> string).
Implicit Types (e : RpcError (Value := Value)) (ev : ClientEvent (Value := Value)).

(** The client's errors onto OB-8's closed class set. *)
Fixpoint classify e : UpstreamErrorClass :=
  match e with
  | InvalidConfig _ => ErrProtocol
  | RpcFailure _ _ _ => ErrRpc
  | HttpFailure _ _ => ErrHttp
  | Connection _ => ErrConnection
  | Disconnected _ => ErrDisconnected
  | Timeout => ErrTimeout
  | Protocol _ => ErrProtocol
  | RetryRequested _ => ErrRetryRequested
  | RetryExhausted inner => classify inner
  end.

Definition on_request (kind : RequestKind) (calls : nat) : Recording :=
  RecRequest (match kind with Single => KindSingle | Batch => KindBatch end) calls.
Definition on_error e : Recording := RecError (classify e).
Definition on_retry e : Recording := RecRetry (classify e).

(** A client built [with_observer] reports everything but its sleeps. *)
Definition observed ev : option Recording :=
  match ev with
  | OnRequest kind calls => Some (on_request kind calls)
  | OnRetry e => Some (on_retry e)
  | OnError e => Some (on_error e)
  | Sleep _ => None
  end.

(** ** Counting *)

Definition of_class (c : UpstreamErrorClass) (es : list (RpcError (Value := Value))) : N :=
  N.of_nat (length (filter (fun e => classify e = c) es)).

Lemma of_class_cons c e es :
  of_class c (e :: es) = ((if decide (classify e = c) then 1 else 0) + of_class c es)%N.
Proof. unfold of_class. rewrite filter_cons. case_decide; simpl; lia. Qed.

Definition weights (key : string * string) (rs : list Recording) : N :=
  fold_right (fun r acc => added key (increments r) + acc)%N 0%N rs.

Lemma total_weights key h : total key h = weights key (snd <$> h).
Proof. induction h as [|[[now ms] r] h IH]; [done|]. simpl in *. by rewrite IH. Qed.

Lemma weights_cons key r rs : weights key (r :: rs) = (added key (increments r) + weights key rs)%N.
Proof. done. Qed.

Lemma weights_app key l1 l2 : weights key (l1 ++ l2) = (weights key l1 + weights key l2)%N.
Proof. induction l1 as [|r l IH]; simpl; [done|]. rewrite IH. lia. Qed.

Lemma error_weight c e :
  added (UPSTREAM_ERRORS, as_label c) (increments (on_error e))
  = if decide (classify e = c) then 1%N else 0%N.
Proof. unfold on_error. by destruct (classify e), c. Qed.

Lemma retry_weight c e :
  added (UPSTREAM_RETRIES, as_label c) (increments (on_retry e))
  = if decide (classify e = c) then 1%N else 0%N.
Proof. unfold on_retry. by destruct (classify e), c. Qed.

Lemma request_weight name label kind n :
  name <> UPSTREAM_REQUESTS -> name <> UPSTREAM_CALLS ->
  added (name, label) (increments (on_request kind n)) = 0%N.
Proof. intros H1 H2. unfold added. simpl. rewrite !bool_decide_eq_false_2; congruence. Qed.

(** A series other than [name]'s is not touched by an error or a retry. *)
Lemma failure_weight name label e :
  (name <> UPSTREAM_ERRORS -> added (name, label) (increments (on_error e)) = 0%N) /\
  (name <> UPSTREAM_RETRIES -> added (name, label) (increments (on_retry e)) = 0%N).
Proof. split; intros H; unfold added; simpl; rewrite bool_decide_eq_false_2; congruence. Qed.

Lemma requests_weight kind n :
  added (UPSTREAM_REQUESTS, as_label (match kind with Single => KindSingle | Batch => KindBatch end))
    (increments (on_request kind n)) = 1%N.
Proof. by destruct kind. Qed.

Lemma calls_weight kind n : added (UPSTREAM_CALLS, ""%string) (increments (on_request kind n)) = N.of_nat n.
Proof. destruct kind; unfold added; simpl; lia. Qed.

(** What the rounds that were tried again add to a series. *)
Lemma rounds_weights key cfg kind n from es :
  weights key (omap observed (rounds cfg (OnRequest kind n) from es)) =
  (N.of_nat (length es) * added key (increments (on_request kind n))
   + fold_right (fun e acc => added key (increments (on_retry e)) + acc) 0 es)%N.
Proof.
  revert from. induction es as [|e es IH]; intros from; [simpl; lia|].
  change (omap observed (rounds cfg (OnRequest kind n) from (e :: es)))
    with (on_request kind n :: on_retry e
            :: omap observed (rounds cfg (OnRequest kind n) (from + 1) es)).
  rewrite !weights_cons, IH. cbn [length fold_right]. lia.
Qed.

Lemma retries_sum c es :
  fold_right (fun e acc => added (UPSTREAM_RETRIES, as_label c) (increments (on_retry e)) + acc)%N 0%N es
  = of_class c es.
Proof.
  induction es as [|e es IH]; [done|]. cbn [fold_right]. by rewrite IH, retry_weight, of_class_cons.
Qed.

Lemma no_retries_sum name label (es : list (RpcError (Value := Value))) :
  name <> UPSTREAM_RETRIES ->
  fold_right (fun e acc => added (name, label) (increments (on_retry e)) + acc)%N 0%N es = 0%N.
Proof.
  intros Hn. induction es as [|e es IH]; [done|]. cbn [fold_right].
  by rewrite IH, (proj2 (failure_weight name label e) Hn).
Qed.

Lemma errors_weights c es :
  weights (UPSTREAM_ERRORS, as_label c) (omap observed (OnError <$> es)) = of_class c es.
Proof.
  induction es as [|e es IH]; [done|].
  change (omap observed (OnError <$> e :: es)) with (on_error e :: omap observed (OnError <$> es)).
  by rewrite weights_cons, IH, error_weight, of_class_cons.
Qed.

Lemma no_errors_weights name label (es : list (RpcError (Value := Value))) :
  name <> UPSTREAM_ERRORS -> weights (name, label) (omap observed (OnError <$> es)) = 0%N.
Proof.
  intros Hn. induction es as [|e es IH]; [done|].
  change (omap observed (OnError <$> e :: es)) with (on_error e :: omap observed (OnError <$> es)).
  by rewrite weights_cons, IH, (proj1 (failure_weight name label e) Hn).
Qed.

(** ** One chunk of calls *)

Definition failed_items (items : list (Item (Value := Value))) : list (RpcError (Value := Value)) :=
  omap (fun r => match r with Err e => Some e | Ok _ => None end) items.

(** The failures a chunk's result carries: its own, or those of its items. *)
Definition failures (r : Result (list (Item (Value := Value))) (RpcError (Value := Value)))
    : list (RpcError (Value := Value)) :=
  match r with Err e => [e] | Ok items => failed_items items end.

(** What the [k]-th round trip for the [n] calls from [off] on gives. *)
Definition round_trip (options : CallOptions) (up : Upstream) (off n k : nat)
    : Result unit (RpcError (Value := Value)) :=
  if n =? 1 then match execute_single Null options up off k with Ok _ => Ok tt | Err e => Err e end
  else match execute_batch Null options up off n k with Ok _ => Ok tt | Err e => Err e end.

Definition kind_of (n : nat) : RequestKind := if n =? 1 then Single else Batch.

Lemma report_items_errors (items : list (Item (Value := Value))) :
  report_items items = OnError <$> failed_items items.
Proof.
  induction items as [|[v|e] items IH]; [done|exact IH|].
  change (OnError e :: report_items items = OnError e :: (OnError <$> failed_items items)). by rewrite IH.
Qed.

Lemma classify_final k e : classify (final_error k e) = classify e.
Proof. unfold final_error. by case_match. Qed.

Lemma of_class_final c k e : of_class c [final_error k e] = of_class c [e].
Proof. by rewrite !of_class_cons, classify_final. Qed.

(** A chunk's events are its failed rounds and a last one that reports the
    failures of the result, up to the wrapping of an exhausted ladder. *)
Lemma chunk_events cfg options up off n r events :
  0 < n -> batch_chunk Null cfg options up off n = Some (r, events) ->
  exists errors last_errors,
    events = rounds cfg (OnRequest (kind_of n) n) 0 errors
             ++ OnRequest (kind_of n) n :: (OnError <$> last_errors) /\
    length errors <= retry_attempts cfg /\
    (forall j e, errors !! j = Some e -> round_trip options up off n j = Err e) /\
    forall c, of_class c last_errors = of_class c (failures r).
Proof.
  intros Hn. unfold round_trip, kind_of. destruct n as [|[|n]]; [lia|..]; cbn [batch_chunk Nat.eqb].
  - unfold call_with_options, retry_ladder.
    destruct (retry_loop_spec cfg (OnRequest Single 1) (fun _ => []) (execute_single Null options up off)
      (S (retry_attempts cfg)) 0) as (es & r' & lr & -> & Hk & Hj & Hm); [lia..|].
    intros [= <- <-]. exists es. simpl in *.
    destruct (execute_single Null options up off (length es)) as [v|e].
    + destruct Hm as [-> ->]. exists []. split_and!; [done|done| |done].
      intros j e He. by destruct (Hj j e He) as [-> _].
    + destruct Hm as (-> & -> & _). exists [e]. split_and!; [done|done| |].
      * intros j e' He. by destruct (Hj j e' He) as [-> _].
      * intros c. simpl. by rewrite of_class_final.
  - unfold retry_ladder.
    destruct (retry_loop_spec cfg (OnRequest Batch (S (S n))) report_items
      (execute_batch Null options up off (S (S n))) (S (retry_attempts cfg)) 0)
      as (es & r' & lr & -> & Hk & Hj & Hm); [lia..|].
    intros [= <- <-]. exists es. simpl in *.
    destruct (execute_batch Null options up off (S (S n)) (length es)) as [items|e].
    + destruct Hm as [-> ->]. exists (failed_items items). rewrite report_items_errors.
      split_and!; [done|done| |done]. intros j e He. by destruct (Hj j e He) as [-> _].
    + destruct Hm as (-> & -> & _). exists [e]. split_and!; [done|done| |].
      * intros j e' He. by destruct (Hj j e' He) as [-> _].
      * intros c. simpl. by rewrite of_class_final.
Qed.

Lemma chunk_weights key kind n cfg errors last_errors :
  weights key (omap observed (rounds cfg (OnRequest kind n) 0 errors
                              ++ OnRequest kind n :: (OnError <$> last_errors))) =
  (N.of_nat (S (length errors)) * added key (increments (on_request kind n))
   + fold_right (fun e acc => added key (increments (on_retry e)) + acc) 0 errors
   + weights key (omap observed (OnError <$> last_errors)))%N.
Proof.
  rewrite omap_app, weights_app, rounds_weights.
  change (omap observed (OnRequest kind n :: (OnError <$> last_errors)))
    with (on_request kind n :: omap observed (OnError <$> last_errors)).
  rewrite weights_cons. lia.
Qed.

(** C19: A chunk of calls, retries and all, is on the scrape exactly once: on a
    registry that heard one chunk's reports, in any times, the requests counted
    under the chunk's shape are its round trips, at most one more than the
    configured retries; the calls are the round trips times the chunk's size;
    the retries of each class are the failed round trips of that class that
    were tried again; and the errors of each class are the failures of that
    class the caller was handed, its own or its items', whatever the wrapping
    of an exhausted ladder. *)
Theorem round_trips_accounted cfg options up off n r events
    (h : list (N * N * Recording)) (start start_ms bound : N)
    (Hn : 0 < n) (Hrun : batch_chunk Null cfg options up off n = Some (r, events))
    (Hheard : snd <$> h = omap observed events)
    (Hbound : (N.of_nat (S (retry_attempts cfg) * n + length (failures r)) <= 2 ^ 53)%N) :
  let m := record_all display_error h (with_stall_alarm start start_ms bound) in
  exists retried,
    length retried <= retry_attempts cfg /\
    (forall j e, retried !! j = Some e -> round_trip options up off n j = Err e) /\
    count m UPSTREAM_REQUESTS
      (as_label (match kind_of n with Single => KindSingle | Batch => KindBatch end))
      = N.of_nat (S (length retried)) /\
    count m UPSTREAM_CALLS "" = N.of_nat (S (length retried) * n) /\
    forall c, count m UPSTREAM_RETRIES (as_label c) = of_class c retried /\
              count m UPSTREAM_ERRORS (as_label c) = of_class c (failures r).
Proof.
  intros m. destruct (chunk_events _ _ _ _ _ _ _ Hn Hrun) as (es & les & -> & Hk & Hj & Hc).
  exists es. split; [done|]. split; [done|].
  pose proof (counters_exact display_error h start start_ms bound) as [_ Hcount].
  assert (forall key, total key h = weights key (omap observed
    (rounds cfg (OnRequest (kind_of n) n) 0 es ++ OnRequest (kind_of n) n :: (OnError <$> les)))) as Ht.
  { intros key. by rewrite total_weights, Hheard. }
  assert (forall c l, (of_class c l <= N.of_nat (length l))%N) as Hle.
  { intros c l. unfold of_class. pose proof (length_filter (fun e => classify e = c) l). lia. }
  assert (length es < S (retry_attempts cfg) * n /\ S (length es) * n <= S (retry_attempts cfg) * n)
    as [Hb1 Hb2] by nia.
  split_and!.
  - unfold m. rewrite Hcount; rewrite Ht, chunk_weights, requests_weight, no_retries_sum,
      no_errors_weights by done; lia.
  - unfold m. rewrite Hcount; rewrite Ht, chunk_weights, calls_weight, no_retries_sum,
      no_errors_weights by done; lia.
  - intros c. specialize (Hle c). split; unfold m.
    + pose proof (Hle es). rewrite Hcount; rewrite Ht, chunk_weights, request_weight, retries_sum,
        no_errors_weights by done; lia.
    + pose proof (Hle (failures r)). rewrite Hcount; rewrite Ht, chunk_weights, request_weight,
        errors_weights, no_retries_sum, Hc by done; lia.
Qed.
End observer.

(** ** A concrete chunk *)

(** A provider that times out once, then answers the second of two calls with
    an error. *)
Definition slow_upstream : Upstream (Value := nat) :=
  mkUpstream (fun _ _ => Err Timeout)
    (fun off n k => match k with
                    | 0 => Err Timeout
                    | _ => Ok [mkRpcResponse 1 (Some 100) None;
                               mkRpcResponse 2 None (Some (mkRpcErrorInfo (-32000) "boom" None))]
                    end).

Definition slow_events : list (ClientEvent (Value := nat)) :=
  match batch_chunk 0 demo_ladder demo_options slow_upstream 0 2 with
  | Some (_, events) => events
  | None => []
  end.

Definition slow_history : list (N * N * Recording) := (pair (5, 7)%N) <$> omap observed slow_events.

Lemma round_trips_accounted_witness :
  let m := record_all (fun _ => ""%string) slow_history (with_stall_alarm 0 0 1) in
  count m UPSTREAM_RETRIES "timeout" = 1%N /\ count m UPSTREAM_ERRORS "rpc" = 1%N.
Proof.
  intros m. destruct (round_trips_accounted 0 (fun _ => ""%string) demo_ladder demo_options slow_upstream 0 2
    (Ok [Ok 100; Err (RpcFailure (-32000) "boom" None)]) slow_events slow_history 0 0 1)
    as (retried & Hl & Hr & _ & Hcalls & Hc).
  - lia.
  - vm_compute. reflexivity.
  - vm_compute. reflexivity.
  - by vm_compute.
  - fold m in Hcalls, Hc. destruct (Hc ErrTimeout) as [H1 _], (Hc ErrRpc) as [_ H2].
    split; [vm_compute; reflexivity|]. exact H2.
Defined.
