(* ===== verification/WsRouting.v ===== *)
(** * WsRouting: the pending table of a WebSocket connection (transport/ws.rs)

    Each connection keeps the senders of its unanswered requests in one table,
    with an index from ids to the batches they belong to. The operations here
    are the ones that take the table's lock, each a function of the table:
    registration, the routing of one response, the reading of the batches an
    array answers, the failing of what it omitted, the drain of a reset. A
    sender is named by its channel; what happens to it is a [Notice]. [Ws] runs
    them one by one between the steps of other tasks; the theorem here says
    what an array frame does to each waiter when nothing comes in between. *)
From stdpp Require Import pretty.
From S2P Require Import Prelude RpcClient.

Local Open Scope rust_scope.

(** ** JSON values, as the router looks at them *)

(** [serde_json]: parsing a text, the shape of a value, a field of an object
    ([None] on anything else), and the parser of an error object. *)
Class JsonFrame (Value : Type) := {
  from_str : string -> option Value;
  as_array : Value -> option (list Value);
  is_object : Value -> bool;
  field : string -> Value -> option Value;
  is_null : Value -> bool;
  as_u64 : Value -> option N;
  info_from_value : Value -> option (RpcErrorInfo (Value := Value))
}.

(** An [Option] field of a derived [Deserialize]: absent or null is [None]. *)
Definition opt_field {Value} `{JsonFrame Value} (k : string) (v : Value) : option Value :=
  match field k v with
  | Some x => if is_null x then None else Some x
  | None => None
  end.

(** [serde_json::from_value::<RpcResponse>] of an object; [None] is its error. *)
Definition response_from_value {Value} `{JsonFrame Value} (v : Value)
    : option (RpcResponse (Value := Value)) :=
  let id := default 0%N (opt_field "id" v ≫= as_u64) in
  match opt_field "error" v with
  | None => Some (mkRpcResponse id (opt_field "result" v) None)
  | Some e =>
      let! info := info_from_value e in
      Some (mkRpcResponse id (opt_field "result" v) (Some info))
  end.

(** ** The pending table *)

(** A sender of [responders] is the name of its channel. *)
Record PendingState := mkPendingState {
  responders : gmap N nat;
  batches : gmap N (gset N);
  id_to_batch : gmap N N
}.

Definition PendingState_default : PendingState := mkPendingState ∅ ∅ ∅.

(** Why a sender was dropped. The code does not record it: the receiver sees a
    closed channel and nothing else. *)
Inductive DropReason : Type := ByReset | ByShortArray | ByCaller.

#[export] Instance DropReason_eq_dec : EqDecision DropReason.
Proof. solve_decision. Defined.

Section routing.
Context {Value : Type} `{JsonFrame Value}.
Abbreviation Response := (RpcResponse (Value := Value)).

(** What happens to a sender that leaves the table: it is used or dropped at
    once, or carried out of the lock by the task that took it. *)
Inductive Notice : Type :=
  | Sent (c : nat) (r : Response)
  | Dropped (c : nat) (why : DropReason)
  | Taken (c : nat).

Definition notice_channel (n : Notice) : nat :=
  match n with Sent c _ => c | Dropped c _ => c | Taken c => c end.

Definition drop_sender (why : DropReason) (o : option nat) : list Notice :=
  match o with Some c => [Dropped c why] | None => [] end.

(** [HashMap::insert] drops the sender it replaces. *)
Definition insert_responder (id : N) (c : nat) (st : PendingState)
    : PendingState * list Notice :=
  (mkPendingState (<[id := c]> (responders st)) (batches st) (id_to_batch st),
   drop_sender ByCaller (responders st !! id)).

Definition register (id : N) (c : nat) (st : PendingState) : PendingState * list Notice :=
  insert_responder id c st.

(** [c] is the channel of the first id, the others follow. *)
Fixpoint insert_responders (ids : list N) (c : nat) (st : PendingState)
    : PendingState * list Notice :=
  match ids with
  | [] => (st, [])
  | id :: ids =>
      let '(st, ns) := insert_responder id c st in
      let '(st, more) := insert_responders ids (S c) st in
      (st, ns ++ more)
  end.

(** [None]: the panic of [ids[0]]. *)
Definition register_batch (ids : list N) (c : nat) (st : PendingState)
    : option (PendingState * list Notice) :=
  let! key := head ids in
  Some (insert_responders ids c
    (mkPendingState (responders st) (<[key := list_to_set ids]> (batches st))
       (foldl (fun m id => <[id := key]> m) (id_to_batch st) ids))).

(** Take an id out of the batch index. *)
Definition clear_index (id : N) (st : PendingState) : PendingState :=
  match id_to_batch st !! id with
  | None => st
  | Some key =>
      let batches' :=
        match batches st !! key with
        | None => batches st
        | Some set =>
            let set' := set ∖ {[id]} in
            if decide (set' = ∅) then delete key (batches st)
            else <[key := set']> (batches st)
        end in
      mkPendingState (responders st) batches' (delete id (id_to_batch st))
  end.

(** [responders.remove(&id)], whatever becomes of the sender. *)
Definition take_responder (id : N) (st : PendingState) : PendingState :=
  mkPendingState (delete id (responders st)) (batches st) (id_to_batch st).

Definition drop_responder (why : DropReason) (id : N) (st : PendingState)
    : PendingState * list Notice :=
  (take_responder id st, drop_sender why (responders st !! id)).

Definition unregister_one (id : N) (st : PendingState) : PendingState * list Notice :=
  let '(st, ns) := drop_responder ByCaller id st in
  (clear_index id st, ns).

(** A loop that threads the table and collects the notices. *)
Fixpoint for_each {A} (f : A -> PendingState -> PendingState * list Notice) (l : list A)
    (st : PendingState) : PendingState * list Notice :=
  match l with
  | [] => (st, [])
  | x :: l =>
      let '(st, ns) := f x st in
      let '(st, more) := for_each f l st in
      (st, ns ++ more)
  end.

Definition unregister (ids : list N) (st : PendingState) : PendingState * list Notice :=
  for_each unregister_one ids st.

(** The body of a reset, under the lock: the index is cleared and every sender
    collected; they are dropped once the lock is released. *)
Definition drain (st : PendingState) : PendingState * list Notice :=
  (PendingState_default, (fun '(_, c) => Taken c) <$> map_to_list (responders st)).

(** ** Routing a frame *)

(** A frame's effect on the table, and why the connection must be reset. *)
Definition Routed : Type := PendingState * list Notice * option string.

(** [route_one] up to the release of the lock: the sender it carries out, with
    the response to send. *)
Definition route_take (value : Value) (st : PendingState)
    : PendingState * option (nat * Response) * option string :=
  if negb (is_object value) then (st, None, Some "response frame is not an object"%string)
  else if bool_decide (is_Some (field "method" value)) then (st, None, None)
  else
    let idless :=
      (st, None, if bool_decide (is_Some (field "error" value))
                 then Some "received whole-batch error frame (id:null)"%string else None) in
    match field "id" value with
    | None => idless
    | Some v =>
        if is_null v then idless
        else
        match as_u64 v with
        | None => (st, None, None)
        | Some numeric_id =>
            match response_from_value value with
            | None =>
                (st, None, Some ("malformed response for id " +:+ pretty numeric_id)%string)
            | Some resp =>
                let tx := responders st !! numeric_id in
                let st := take_responder numeric_id (clear_index numeric_id st) in
                match tx with
                | Some c => (st, Some (c, resp), None)
                | None =>
                    (st, None, Some ("got response for unknown request " +:+ pretty numeric_id)%string)
                end
            end
        end
    end.

(** The whole of it: what was taken is sent. *)
Definition route_one (value : Value) (st : PendingState) : Routed :=
  let '(st, tx, reason) := route_take value st in
  (st, match tx with Some (c, r) => [Sent c r] | None => [] end, reason).

Definition present_ids (items : list Value) : gset N :=
  list_to_set (omap (fun item => field "id" item ≫= as_u64) items).

Definition owning_batches (present : gset N) (st : PendingState) : gset N :=
  list_to_set (omap (fun id => id_to_batch st !! id) (elements present)).

Definition fail_short_batch (present : gset N) (key : N) (st : PendingState)
    : PendingState * list Notice :=
  match batches st !! key with
  | None => (st, [])
  | Some expected =>
      let st := mkPendingState (responders st) (delete key (batches st))
                  (foldl (fun m id => delete id m) (id_to_batch st) (elements expected)) in
      for_each (drop_responder ByShortArray) (elements (expected ∖ present)) st
  end.

Definition fail_short_batches (batch_keys present : gset N) (st : PendingState)
    : PendingState * list Notice :=
  for_each (fail_short_batch present) (elements batch_keys) st.

(** The items in order, up to the first that is corrupt, when no other task
    takes the lock in between. *)
Fixpoint route_items (items : list Value) (st : PendingState) : Routed :=
  match items with
  | [] => (st, [], None)
  | item :: items =>
      let '(st, ns, reason) := route_one item st in
      match reason with
      | Some _ => (st, ns, reason)
      | None => let '(st, more, reason) := route_items items st in (st, ns ++ more, reason)
      end
  end.

(** A whole array on the same terms. The machine of [Ws] takes it apart;
    [Ws.array_uninterrupted] is what connects the two. *)
Definition route_array (items : list Value) (st : PendingState) : Routed :=
  let present := present_ids items in
  let batch_keys := owning_batches present st in
  let '(st, ns, reason) := route_items items st in
  match reason with
  | Some _ => (st, ns, reason)
  | None =>
      let '(st, more) := fail_short_batches batch_keys present st in
      (st, ns ++ more, None)
  end.

(** What the socket's stream yields; a payload is its bytes. *)
Inductive Message : Type :=
  | Text (text : string)
  | Binary (payload : list N)
  | Ping (payload : list N)
  | Pong (payload : list N)
  | Close
  | Frame.

(** What the reader does with it: end with a reason, send a pong, route a
    response or an array of them, nothing. *)
Inductive ReaderTurn : Type :=
  | Stop (reason : string)
  | SendPong (payload : list N)
  | RouteOne (value : Value)
  | RouteArray (items : list Value)
  | Skip.

Definition route_text (text : string) : ReaderTurn :=
  match from_str text with
  | None => Stop "received invalid JSON message"
  | Some v =>
      match as_array v with
      | Some items => RouteArray items
      | None => if is_object v then RouteOne v else Stop "received non-object JSON frame"
      end
  end.

(** One turn of [reader_task]. *)
Definition reader_turn (next : option (Result Message string)) : ReaderTurn :=
  match next with
  | None => Stop "socket stream ended"
  | Some (Err e) => Stop ("socket error: " +:+ e)
  | Some (Ok msg) =>
      match msg with
      | Text text => route_text text
      | Binary _ => Stop "received non-text (binary) frame"
      | Ping payload => SendPong payload
      | Pong _ => Skip
      | Close => Stop "socket closed by peer"
      | Frame => Skip
      end
  end%string.

(** ** Consistency of the table *)

(** The index and the groups are inverse to each other, and what is indexed is
    waiting. *)
Record index_ok (st : PendingState) : Prop := mkIndexOk {
  indexed_grouped : forall id k, id_to_batch st !! id = Some k ->
    exists s, batches st !! k = Some s /\ id ∈ s;
  grouped_indexed : forall k s, batches st !! k = Some s ->
    s <> ∅ /\ forall id, id ∈ s -> id_to_batch st !! id = Some k;
  indexed_waiting : forall id, is_Some (id_to_batch st !! id) -> is_Some (responders st !! id)
}.

(** An operation that only takes senders out: each one taken out is sent the
    response of its own id or dropped, and nothing else is touched. *)
Record settles (st st' : PendingState) (ns : list Notice) : Prop := mkSettles {
  settles_index : index_ok st -> index_ok st';
  settles_shrinks : responders st' ⊆ responders st;
  settles_groups : dom (batches st') ⊆ dom (batches st);
  settles_taken : forall id c, responders st !! id = Some c -> responders st' !! id = None ->
    exists n, n ∈ ns /\ notice_channel n = c;
  settles_noticed : forall n, n ∈ ns -> exists id,
    responders st !! id = Some (notice_channel n) /\ responders st' !! id = None /\
    forall c r, n = Sent c r -> resp_id r = id
}.

Lemma settles_refl st : settles st st [].
Proof.
  split; [done|done|done|congruence|]. intros n Hn. by apply not_elem_of_nil in Hn.
Qed.

Lemma settles_trans st st1 st2 ns ms :
  settles st st1 ns -> settles st1 st2 ms -> settles st st2 (ns ++ ms).
Proof.
  intros A B. split.
  - intros Hi. by apply B, A.
  - etrans; [apply B|apply A].
  - etrans; [apply B|apply A].
  - intros id c Hc Hn. destruct (responders st1 !! id) as [c'|] eqn:Hm.
    + pose proof (lookup_weaken _ _ _ _ Hm (settles_shrinks _ _ _ A)). simplify_eq.
      destruct (settles_taken _ _ _ B id c Hm Hn) as (n & ? & ?).
      exists n. split; [apply elem_of_app; by right|done].
    + destruct (settles_taken _ _ _ A id c Hc Hm) as (n & ? & ?).
      exists n. split; [apply elem_of_app; by left|done].
  - intros n [Hn|Hn]%elem_of_app.
    + destruct (settles_noticed _ _ _ A n Hn) as (id & Hl & Hm & Hr). exists id.
      split; [done|]. split; [|done]. destruct (responders st2 !! id) eqn:E; [|done].
      pose proof (lookup_weaken _ _ _ _ E (settles_shrinks _ _ _ B)). congruence.
    + destruct (settles_noticed _ _ _ B n Hn) as (id & Hl & Hm & Hr). exists id.
      split; [|done]. by eapply lookup_weaken, A.
Qed.

Lemma settles_for_each {A} (f : A -> PendingState -> PendingState * list Notice) l st :
  (forall x st, settles st (f x st).1 (f x st).2) ->
  settles st (for_each f l st).1 (for_each f l st).2.
Proof.
  intros Hf. revert st. induction l as [|x l IH]; intros st; simpl; [apply settles_refl|].
  specialize (Hf x st). destruct (f x st) as [st1 ns]. specialize (IH st1).
  destruct (for_each f l st1) as [st2 ms]. by eapply settles_trans.
Qed.

(** *** Forgetting one id *)

Definition forget (id : N) (st : PendingState) : PendingState :=
  take_responder id (clear_index id st).

Lemma clear_take id st : clear_index id (take_responder id st) = forget id st.
Proof. unfold forget, clear_index, take_responder. simpl. by case_match. Qed.

Lemma responders_forget id st : responders (forget id st) = delete id (responders st).
Proof. unfold forget, clear_index, take_responder. by case_match. Qed.

Lemma index_forget id st : id_to_batch (forget id st) = delete id (id_to_batch st).
Proof.
  unfold forget, clear_index, take_responder. case_match; simpl; [done|].
  by rewrite delete_id.
Qed.

Lemma groups_forget id st : dom (batches (forget id st)) ⊆ dom (batches st).
Proof.
  unfold forget, clear_index, take_responder.
  destruct (id_to_batch st !! id) as [key|]; simpl; [|done].
  destruct (batches st !! key) as [set|] eqn:E; [|done].
  destruct (decide _); rewrite ?dom_delete, ?dom_insert; [set_solver|].
  apply elem_of_dom_2 in E. set_solver.
Qed.

Lemma forget_index_ok id st : index_ok st -> index_ok (forget id st).
Proof.
  intros [Ha Hb Hc]. split; rewrite ?index_forget, ?responders_forget.
  - intros i k [Hne Hi]%lookup_delete_Some. destruct (Ha i k Hi) as (s & Hs & His).
    unfold forget, clear_index, take_responder; simpl.
    destruct (id_to_batch st !! id) as [key|] eqn:E; simpl; [|eauto].
    destruct (batches st !! key) as [set|] eqn:Ek; [|eauto].
    destruct (decide (key = k)) as [->|Hkk].
    + simplify_eq. rewrite decide_False by set_solver. exists (s ∖ {[id]}).
      rewrite lookup_insert_eq. set_solver.
    + exists s. split; [|done]. simpl. destruct (decide _); [by rewrite lookup_delete_ne|by rewrite lookup_insert_ne].
  - intros k s Hs. unfold forget, clear_index, take_responder in Hs; simpl in Hs.
    destruct (id_to_batch st !! id) as [key|] eqn:E; simpl in Hs.
    + destruct (Ha id key E) as (set & Hset & Hin). rewrite Hset in Hs.
      assert (k = key /\ s = set ∖ {[id]} /\ s <> ∅ \/ k <> key /\ batches st !! k = Some s) as Hk.
      { case_decide as D; [apply lookup_delete_Some in Hs|apply lookup_insert_Some in Hs];
          naive_solver. }
      destruct Hk as [(-> & -> & Hne)|(Hne & Hs')].
      * split; [done|]. intros i [Hi Hi']%elem_of_difference.
        rewrite lookup_delete_ne by set_solver. by eapply Hb.
      * destruct (Hb k s Hs') as [He Hall]. split; [done|]. intros i Hi.
        rewrite lookup_delete_ne; [by apply Hall|]. intros ->. rewrite (Hall i Hi) in E. congruence.
    + destruct (Hb k s Hs) as [He Hall]. split; [done|]. intros i Hi.
      rewrite lookup_delete_ne; [by apply Hall|]. intros ->. rewrite (Hall i Hi) in E. congruence.
  - intros i [k [Hne Hi]%lookup_delete_Some]. rewrite lookup_delete_ne by done. eauto.
Qed.

Lemma delete_shrinks {V} (i : N) (m : gmap N V) : delete i m ⊆ m.
Proof. apply delete_subseteq. Qed.

(** Forgetting an id with one notice for its sender, if it had one. *)
Lemma settles_forget id st ns :
  (forall c, responders st !! id = Some c ->
     exists n, ns = [n] /\ notice_channel n = c /\ forall c' r, n = Sent c' r -> resp_id r = id) ->
  (responders st !! id = None -> ns = []) ->
  settles st (forget id st) ns.
Proof.
  intros Hsome Hnone. split.
  - apply forget_index_ok.
  - rewrite responders_forget. apply delete_subseteq.
  - apply groups_forget.
  - intros i c Hi. rewrite responders_forget. intros [<-|Hd]%lookup_delete_None; [|congruence].
    destruct (Hsome c Hi) as (n & -> & Hn & _). exists n. split; [|done].
    by apply list_elem_of_singleton.
  - intros n Hn. destruct (responders st !! id) as [c|] eqn:E.
    + destruct (Hsome c eq_refl) as (n' & -> & Hc & Hr).
      apply list_elem_of_singleton in Hn as ->. exists id. rewrite responders_forget, Hc.
      split; [done|]. split; [apply lookup_delete_eq|done].
    + rewrite (Hnone eq_refl) in Hn. by apply not_elem_of_nil in Hn.
Qed.

Lemma settles_unregister_one id st :
  settles st (unregister_one id st).1 (unregister_one id st).2.
Proof.
  unfold unregister_one, drop_responder. simpl. rewrite clear_take. apply settles_forget.
  - intros c ->. eexists. simpl. split; [done|]. by split.
  - by intros ->.
Qed.

Lemma settles_unregister ids st : settles st (unregister ids st).1 (unregister ids st).2.
Proof. apply settles_for_each. apply settles_unregister_one. Qed.

Lemma settles_drain st : settles st (drain st).1 (drain st).2.
Proof.
  split; simpl.
  - intros _. split; simpl; intros *; rewrite ?lookup_empty; try done.
  - apply map_empty_subseteq.
  - set_solver.
  - intros id c Hc _. exists (Taken c). split; [|done].
    apply list_elem_of_fmap. exists (id, c). split; [done|]. by apply elem_of_map_to_list.
  - intros n ([id c] & -> & Hin)%list_elem_of_fmap. apply elem_of_map_to_list in Hin.
    exists id. simpl. rewrite lookup_empty. done.
Qed.

(** *** Routing settles *)

(** The response the router makes of an object with a numeric id. *)
Definition answer (value : Value) : option Response :=
  if is_object value && negb (bool_decide (is_Some (field "method" value))) then
    let! v := field "id" value in
    if is_null v then None
    else
      let! _ := as_u64 v in
      response_from_value value
  else None.

Lemma response_own_id value v id r :
  field "id" value = Some v -> is_null v = false -> as_u64 v = Some id ->
  response_from_value value = Some r -> resp_id r = id.
Proof.
  unfold response_from_value, opt_field. intros -> -> Hv. simpl. rewrite Hv. simpl.
  repeat case_match; by intros [= <-].
Qed.

(** What the router does with a value it does not recognise as a response to
    somebody: nothing but to take the id out of the index. *)
Lemma route_take_cases value st :
  (exists reason, route_take value st = (st, None, reason)) \/
  (exists r, answer value = Some r /\
     route_take value st =
       (forget (resp_id r) st,
        (fun c => (c, r)) <$> responders st !! resp_id r,
        match responders st !! resp_id r with
        | Some _ => None
        | None => Some ("got response for unknown request " +:+ pretty (resp_id r))%string
        end)).
Proof.
  unfold route_take, answer.
  destruct (is_object value); simpl; [|by left; eexists].
  destruct (bool_decide (is_Some (field "method" value))) eqn:Hm; simpl; [by left; eexists|].
  destruct (field "id" value) as [v|] eqn:Hid; [|by left; eexists].
  destruct (is_null v) eqn:Hn; [by left; eexists|].
  destruct (as_u64 v) as [id|] eqn:Hu; [|by left; eexists].
  destruct (response_from_value value) as [r|] eqn:Hr; [|by left; eexists].
  right. exists r. rewrite (response_own_id value v id r Hid Hn Hu Hr).
  split; [done|]. unfold forget. by case_match.
Qed.

(** The notice of a sender that is carried out. *)
Definition carried (tx : option (nat * Response)) : list Notice :=
  match tx with Some (c, _) => [Taken c] | None => [] end.

Lemma settles_route_take value st :
  settles st (route_take value st).1.1 (carried (route_take value st).1.2).
Proof.
  destruct (route_take_cases value st) as [[reason ->]|(r & _ & ->)]; simpl; [apply settles_refl|].
  apply settles_forget.
  - intros c ->. exists (Taken c). by split_and!.
  - by intros ->.
Qed.

(** The sender it carries out was waiting for the response it goes with. *)
Lemma route_take_own value st c r :
  (route_take value st).1.2 = Some (c, r) -> responders st !! resp_id r = Some c.
Proof.
  destruct (route_take_cases value st) as [[reason ->]|(r' & _ & ->)]; simpl; [done|].
  destruct (responders st !! resp_id r') eqn:E; [|done]. by intros [= -> ->].
Qed.

(** A value that ends the connection carries no sender out. *)
Lemma route_take_reason value st reason :
  (route_take value st).2 = Some reason -> (route_take value st).1.2 = None.
Proof.
  destruct (route_take_cases value st) as [[why ->]|(r & _ & ->)]; simpl; [done|].
  by destruct (responders st !! resp_id r).
Qed.

Lemma settles_route_one value st :
  settles st (route_one value st).1.1 (route_one value st).1.2.
Proof.
  unfold route_one. destruct (route_take_cases value st) as [[reason ->]|(r & _ & ->)]; simpl; [apply settles_refl|].
  apply settles_forget.
  - intros c ->. exists (Sent c r). split; [done|]. split; [done|]. by intros ?? [= _ <-].
  - by intros ->.
Qed.

Lemma settles_route_items items st :
  settles st (route_items items st).1.1 (route_items items st).1.2.
Proof.
  revert st. induction items as [|item items IH]; intros st; simpl; [apply settles_refl|].
  pose proof (settles_route_one item st) as Hone.
  destruct (route_one item st) as [[st1 ns] [reason|]]; [done|].
  specialize (IH st1). destruct (route_items items st1) as [[st2 ms] reason].
  by eapply settles_trans.
Qed.

(** *** Failing a short batch *)

Lemma lookup_foldl_delete {V} (l : list N) (m : gmap N V) i v :
  foldl (fun m id => delete id m) m l !! i = Some v <-> m !! i = Some v /\ i ∉ l.
Proof.
  revert m. induction l as [|x l IH]; intros m; simpl.
  - split; [intros ?; split; [done|apply not_elem_of_nil]|by intros []].
  - rewrite IH, lookup_delete_Some, not_elem_of_cons. naive_solver.
Qed.

Lemma drop_all_spec why l st :
  let st' := (for_each (drop_responder why) l st).1 in
  let ns := (for_each (drop_responder why) l st).2 in
  batches st' = batches st /\ id_to_batch st' = id_to_batch st /\
  (forall i c, responders st' !! i = Some c <-> responders st !! i = Some c /\ i ∉ l) /\
  (forall n, n ∈ ns <->
     exists i c, i ∈ l /\ responders st !! i = Some c /\ n = Dropped c why).
Proof.
  revert st. induction l as [|x l IH]; intros st; simpl.
  - split_and!; [done|done| |].
    + intros i c. split; [intros ?; split; [done|apply not_elem_of_nil]|by intros []].
    + intros n. split; [intros []%not_elem_of_nil|].
      intros (? & ? & []%not_elem_of_nil & _).
  - specialize (IH (take_responder x st)).
    destruct (for_each (drop_responder why) l (take_responder x st)) as [st' ns].
    simpl in *. destruct IH as (Hb & Hi & Hr & Hn). split_and!; [done|done| |].
    + intros i c. rewrite Hr, lookup_delete_Some, not_elem_of_cons. naive_solver.
    + intros n. rewrite elem_of_app, Hn. setoid_rewrite elem_of_cons.
      setoid_rewrite lookup_delete_Some. split.
      * intros [Hd|(i & c & ? & [? ?] & ?)]; [|eauto 10].
        destruct (responders st !! x) as [c|] eqn:E; simpl in Hd.
        -- apply list_elem_of_singleton in Hd. eauto 10.
        -- by apply not_elem_of_nil in Hd.
      * intros (i & c & Hx & Hc & ->). destruct (decide (x = i)) as [->|Hne].
        -- left. rewrite Hc. simpl. by apply list_elem_of_singleton.
        -- right. destruct Hx; [congruence|]. eauto 10.
Qed.

(** [i] waits in the batch of [key] and was not in the array. *)
Definition omitted (present : gset N) (key : N) (st : PendingState) (i : N) : Prop :=
  id_to_batch st !! i = Some key /\ i ∉ present.

Lemma fail_short_batch_spec present key st :
  index_ok st ->
  let st' := (fail_short_batch present key st).1 in
  let ns := (fail_short_batch present key st).2 in
  index_ok st' /\
  (forall i c, responders st' !! i = Some c <->
     responders st !! i = Some c /\ ~ omitted present key st i) /\
  (forall i k, id_to_batch st' !! i = Some k <-> id_to_batch st !! i = Some k /\ k <> key) /\
  (forall n, n ∈ ns <-> exists i c, omitted present key st i /\
     responders st !! i = Some c /\ n = Dropped c ByShortArray).
Proof.
  intros Hok. destruct Hok as [Ha Hb Hc]. unfold fail_short_batch, omitted.
  destruct (batches st !! key) as [expected|] eqn:E; simpl.
  - pose proof (Hb _ _ E) as [_ Hexp].
    assert (forall i, i ∈ expected <-> id_to_batch st !! i = Some key) as Hiff.
    { intros i. split; [apply Hexp|]. intros Hi. destruct (Ha i key Hi) as (? & ? & ?). congruence. }
    destruct (drop_all_spec ByShortArray (elements (expected ∖ present))
      (mkPendingState (responders st) (delete key (batches st))
         (foldl (fun m id => delete id m) (id_to_batch st) (elements expected))))
      as (Hbs & His & Hrs & Hns).
    destruct (for_each _ _ _) as [st' ns]. simpl in *.
    assert (forall i, i ∈ elements (expected ∖ present) <->
              id_to_batch st !! i = Some key /\ i ∉ present) as Hel.
    { intros i. by rewrite elem_of_elements, elem_of_difference, Hiff. }
    assert (forall i k, id_to_batch st' !! i = Some k <-> id_to_batch st !! i = Some k /\ k <> key)
      as Hidx.
    { intros i k. rewrite His, lookup_foldl_delete, elem_of_elements, Hiff. naive_solver. }
    split_and!; [|intros; by rewrite Hrs, Hel|done|intros; rewrite Hns; by setoid_rewrite Hel].
    split.
    + intros i k [Hi Hk]%Hidx. destruct (Ha i k Hi) as (s & ? & ?). exists s.
      by rewrite Hbs, lookup_delete_ne.
    + intros k s. rewrite Hbs. intros [Hk Hs]%lookup_delete_Some.
      destruct (Hb k s Hs) as [? Hall]. split; [done|]. intros i Hi. apply Hidx. eauto.
    + intros i [k [Hi Hk]%Hidx]. destruct (Hc i) as [c ?]; [eauto|]. exists c. apply Hrs.
      rewrite Hel. naive_solver.
  - assert (forall i k, id_to_batch st !! i = Some k -> k <> key) as Hne.
    { intros i k Hi ->. destruct (Ha i key Hi) as (? & ? & ?). congruence. }
    split_and!; [by split| | |].
    + intros i c. naive_solver.
    + naive_solver.
    + intros n. split; [intros []%not_elem_of_nil|]. naive_solver.
Qed.

(** A loop only takes groups out. *)
Lemma groups_for_each {A} (f : A -> PendingState -> PendingState * list Notice) l st :
  (forall x st, dom (batches (f x st).1) ⊆ dom (batches st)) ->
  dom (batches (for_each f l st).1) ⊆ dom (batches st).
Proof.
  intros Hf. revert st. induction l as [|x l IH]; intros st; simpl; [done|].
  specialize (Hf x st). destruct (f x st) as [st1 ns]. specialize (IH st1).
  destruct (for_each f l st1) as [st2 ms]. simpl in *. by etrans.
Qed.

Lemma groups_fail_short_batch present key st :
  dom (batches (fail_short_batch present key st).1) ⊆ dom (batches st).
Proof.
  unfold fail_short_batch. destruct (batches st !! key); [|done].
  etrans; [apply groups_for_each; intros; simpl; done|]. simpl. rewrite dom_delete. set_solver.
Qed.

(** The batches of [keys], one after the other. *)
Lemma fail_short_batches_spec present keys st :
  index_ok st ->
  let st' := (for_each (fail_short_batch present) keys st).1 in
  let ns := (for_each (fail_short_batch present) keys st).2 in
  let lost i := exists key, key ∈ keys /\ omitted present key st i in
  index_ok st' /\
  (forall i c, responders st' !! i = Some c <-> responders st !! i = Some c /\ ~ lost i) /\
  (forall n, n ∈ ns <-> exists i c, lost i /\
     responders st !! i = Some c /\ n = Dropped c ByShortArray).
Proof.
  revert st. induction keys as [|key keys IH]; intros st Hok; simpl.
  - split; [done|]. setoid_rewrite elem_of_nil. naive_solver.
  - destruct (fail_short_batch_spec present key st Hok) as (Hok1 & Hr1 & Hi1 & Hn1).
    destruct (fail_short_batch present key st) as [st1 ns1]. simpl in *.
    destruct (IH st1 Hok1) as (Hok2 & Hr2 & Hn2).
    destruct (for_each (fail_short_batch present) keys st1) as [st2 ns2]. simpl in *.
    assert (forall i, (exists k, k ∈ key :: keys /\ omitted present k st i) <->
              omitted present key st i \/ exists k, k ∈ keys /\ omitted present k st1 i) as Hlost.
    { intros i. unfold omitted. setoid_rewrite elem_of_cons. setoid_rewrite Hi1.
      split; [|naive_solver]. intros (k & Hk & Hi & Hp).
      destruct (decide (k = key)) as [->|Hne]; [by left|]. right. exists k. naive_solver. }
    split; [done|]. split.
    + intros i c. rewrite Hr2, Hr1, Hlost. tauto.
    + intros n. rewrite elem_of_app, Hn1, Hn2. setoid_rewrite Hlost. setoid_rewrite Hr1. split.
      * naive_solver.
      * intros (i & c & [Hi|Hi] & Hc & ->); [left; eauto|].
        destruct Hi as (k & Hk & Hi). right. exists i, c. split; [eauto|]. split; [|done].
        split; [done|]. intros [Hi' _]. destruct Hi as [Hi _]. apply Hi1 in Hi. naive_solver.
Qed.

Lemma lost_or_not present (keys : list N) st i :
  (exists key, key ∈ keys /\ omitted present key st i) \/
  ~ (exists key, key ∈ keys /\ omitted present key st i).
Proof.
  unfold omitted. destruct (id_to_batch st !! i) as [k|]; [|right; naive_solver].
  destruct (decide (k ∈ keys)); [|right; naive_solver].
  destruct (decide (i ∈ present)); [right; naive_solver|left; eauto].
Qed.

Lemma settles_fail_short_batches keys present st :
  index_ok st ->
  settles st (fail_short_batches keys present st).1 (fail_short_batches keys present st).2.
Proof.
  intros Hok. unfold fail_short_batches.
  destruct (fail_short_batches_spec present (elements keys) st Hok) as (Hok' & Hr & Hn).
  split; [done| | | |].
  - apply map_subseteq_spec. intros i c Hi. by apply Hr in Hi as [? _].
  - apply groups_for_each. apply groups_fail_short_batch.
  - intros id c Hc Hnone. exists (Dropped c ByShortArray). split; [|done]. apply Hn.
    destruct (lost_or_not present (elements keys) st id) as [Hlost|Hlost]; [by exists id, c|].
    assert (responders (for_each (fail_short_batch present) (elements keys) st).1 !! id = Some c)
      by (by apply Hr). congruence.
  - intros n (i & c & Hl & Hc & ->)%Hn. exists i. split; [done|]. split; [|done].
    apply eq_None_not_Some. intros [c' Hi]. apply Hr in Hi. naive_solver.
Qed.

Lemma settles_route_array items st :
  index_ok st -> settles st (route_array items st).1.1 (route_array items st).1.2.
Proof.
  intros Hok. unfold route_array. pose proof (settles_route_items items st) as Hi.
  destruct (route_items items st) as [[st1 ns] [reason|]]; [done|]. simpl in Hi.
  pose proof (settles_fail_short_batches (owning_batches (present_ids items) st)
    (present_ids items) st1 (settles_index _ _ _ Hi Hok)) as Hf.
  destruct (fail_short_batches _ _ st1) as [st2 ms]. by eapply settles_trans.
Qed.

(** *** Registration *)

Lemma insert_responders_spec ids c st :
  NoDup ids -> (forall id, id ∈ ids -> responders st !! id = None) ->
  exists st', insert_responders ids c st = (st', []) /\
    batches st' = batches st /\ id_to_batch st' = id_to_batch st /\
    (forall id k, responders st' !! id = Some k <->
       responders st !! id = Some k \/ exists i, ids !! i = Some id /\ k = c + i).
Proof.
  revert c st. induction ids as [|x ids IH]; intros c st Hnd Hfresh; simpl.
  - exists st. split_and!; [done..|]. intros id k. split; [by left|]. by intros [?|(i & ? & _)].
  - apply NoDup_cons in Hnd as [Hx Hnd].
    rewrite (Hfresh x) by (apply elem_of_cons; by left). simpl.
    destruct (IH (S c) (mkPendingState (<[x := c]> (responders st)) (batches st) (id_to_batch st)))
      as (st' & E & Hb & Hi & Hr); [done| |].
    { intros id Hid. simpl. rewrite lookup_insert_ne by (by intros ->).
      apply Hfresh. apply elem_of_cons. by right. }
    rewrite E. exists st'. split_and!; [done..|]. intros id k. rewrite Hr. simpl. split.
    + intros [[[<- <-]|[Hne Hk]]%lookup_insert_Some|(i & Hi' & ->)].
      * right. exists 0. split; [done|lia].
      * by left.
      * right. exists (S i). split; [done|lia].
    + intros [Hk|([|i] & Hi' & ->)].
      * left. rewrite lookup_insert_ne; [done|]. intros ->.
        rewrite Hfresh in Hk by (apply elem_of_cons; by left). done.
      * injection Hi' as ->. left. rewrite lookup_insert_eq. f_equal. lia.
      * right. exists i. split; [done|lia].
Qed.

Lemma lookup_foldl_insert {V} (l : list N) (v : V) (m : gmap N V) i k :
  foldl (fun m id => <[id := v]> m) m l !! i = Some k <->
  (i ∈ l /\ k = v) \/ ((i ∉ l) /\ m !! i = Some k).
Proof.
  revert m. induction l as [|x l IH]; intros m; simpl.
  - rewrite elem_of_nil. naive_solver.
  - rewrite IH, elem_of_cons, lookup_insert_Some. destruct (decide (i ∈ l)); naive_solver.
Qed.

(** Registering a batch of new ids: no sender is replaced, each id has its
    channel, and the batch is indexed. *)
Lemma register_batch_spec ids key c st :
  head ids = Some key -> NoDup ids -> (forall id, id ∈ ids -> responders st !! id = None) ->
  key ∉ dom (batches st) -> index_ok st ->
  exists st', register_batch ids c st = Some (st', []) /\ index_ok st' /\
    dom (batches st') ⊆ {[key]} ∪ dom (batches st) /\
    (forall id k, responders st' !! id = Some k <->
       responders st !! id = Some k \/ exists i, ids !! i = Some id /\ k = c + i).
Proof.
  intros Hkey Hnd Hfresh Hnew [Ha Hb Hc]. unfold register_batch. rewrite Hkey.
  assert (key ∈ ids) as Hin by (destruct ids; simplify_eq/=; apply elem_of_cons; by left).
  destruct (insert_responders_spec ids c
    (mkPendingState (responders st) (<[key := list_to_set ids]> (batches st))
       (foldl (fun m id => <[id := key]> m) (id_to_batch st) ids)) Hnd Hfresh)
    as (st' & -> & Hbs & His & Hrs).
  exists st'. split; [done|]. split; [|split; [rewrite Hbs; simpl; rewrite dom_insert; done|done]].
  simpl in *. split.
  - intros id k. rewrite His, Hbs, lookup_foldl_insert. intros [[Hid ->]|[Hid Hk]].
    + exists (list_to_set ids). rewrite lookup_insert_eq. split; [done|]. by apply elem_of_list_to_set.
    + destruct (Ha id k Hk) as (s & Hs & Hins). exists s. split; [|done].
      rewrite lookup_insert_ne; [done|]. intros <-. apply Hnew. by eapply elem_of_dom_2.
  - intros k s. rewrite Hbs. intros [[<- <-]|[Hne Hs]]%lookup_insert_Some.
    + split; [intros E; apply (not_elem_of_empty (C := gset N) key); rewrite <- E;
        by apply elem_of_list_to_set|].
      intros id Hid%elem_of_list_to_set. rewrite His. apply lookup_foldl_insert. by left.
    + destruct (Hb k s Hs) as [? Hall]. split; [done|]. intros id Hid. rewrite His.
      apply lookup_foldl_insert. right. split; [|eauto]. intros Hi.
      destruct (Hc id) as [c' Hc']; [eauto|]. rewrite Hfresh in Hc' by done. done.
  - intros id [k Hk]. rewrite His in Hk. apply lookup_foldl_insert in Hk as [[Hid ->]|[Hid Hk]].
    + apply list_elem_of_lookup in Hid as [i Hi]. exists (c + i). apply Hrs. eauto.
    + destruct (Hc id) as [c' Hc']; [eauto|]. exists c'. apply Hrs. by left.
Qed.

Lemma register_spec id c st :
  responders st !! id = None -> index_ok st ->
  exists st', register id c st = (st', []) /\ index_ok st' /\ batches st' = batches st /\
    (forall i k, responders st' !! i = Some k <->
       responders st !! i = Some k \/ (i = id /\ k = c)).
Proof.
  intros Hfresh [Ha Hb Hc]. unfold register, insert_responder. rewrite Hfresh. simpl.
  eexists. split; [done|]. split; [|split; [done|]].
  - split; simpl; [done|done|]. intros i Hi. destruct (decide (id = i)) as [->|Hne].
    + rewrite lookup_insert_eq. by eexists.
    + rewrite lookup_insert_ne; eauto.
  - simpl. intros i k. rewrite lookup_insert_Some. split; [naive_solver|].
    intros [Hk|[-> ->]]; [|by left]. right. split; [|done]. intros ->. congruence.
Qed.

(** ** What an array frame does *)

Lemma route_one_answer value st r c :
  answer value = Some r -> responders st !! resp_id r = Some c ->
  route_one value st = (forget (resp_id r) st, [Sent c r], None).
Proof.
  intros Hr Hc. unfold answer in Hr. unfold route_one, route_take.
  destruct (is_object value); simpl in *; [|done].
  destruct (bool_decide (is_Some (field "method" value))); simpl in *; [done|].
  destruct (field "id" value) as [v|] eqn:Hid; [|done].
  destruct (is_null v) eqn:Hn; [done|].
  destruct (as_u64 v) as [id|] eqn:Hu; [|done].
  pose proof (response_own_id value v id r Hid Hn Hu Hr) as <-.
  by rewrite Hr, Hc.
Qed.

Lemma answer_present value r :
  answer value = Some r -> field "id" value ≫= as_u64 = Some (resp_id r).
Proof.
  unfold answer. intros Hr.
  destruct (is_object value && _); [|done].
  destruct (field "id" value) as [v|] eqn:Hid; [|done].
  destruct (is_null v) eqn:Hn; [done|].
  destruct (as_u64 v) as [id|] eqn:Hu; [|done].
  by rewrite (response_own_id value v id r Hid Hn Hu Hr).
Qed.

Lemma answers_present items resps :
  Forall2 (fun item r => answer item = Some r) items resps ->
  present_ids items = list_to_set (resp_id <$> resps).
Proof.
  intros Hi. unfold present_ids. f_equal.
  induction Hi as [|item r items resps Hr _ IH]; [done|].
  csimpl. by rewrite (answer_present _ _ Hr), IH.
Qed.

Definition forget_all (ids : list N) (st : PendingState) : PendingState :=
  foldl (fun st id => forget id st) st ids.

Lemma forget_all_ok ids st : index_ok st -> index_ok (forget_all ids st).
Proof.
  revert st. induction ids as [|id ids IH]; intros st Hok; simpl; [done|].
  apply IH. by apply forget_index_ok.
Qed.

Lemma forget_all_lookup ids st :
  (forall i c, responders (forget_all ids st) !! i = Some c <-> responders st !! i = Some c /\ i ∉ ids) /\
  (forall i k, id_to_batch (forget_all ids st) !! i = Some k <-> id_to_batch st !! i = Some k /\ i ∉ ids).
Proof.
  revert st. induction ids as [|id ids IH]; intros st; simpl.
  - split; intros; split; [by intros; split; [|apply not_elem_of_nil]|by intros []
      |by intros; split; [|apply not_elem_of_nil]|by intros []].
  - destruct (IH (forget id st)) as [Hr Hi].
    split; intros i x; [rewrite Hr, responders_forget|rewrite Hi, index_forget];
      rewrite lookup_delete_Some, not_elem_of_cons; naive_solver.
Qed.

(** An array of responses to distinct waiters is routed item by item. *)
Lemma route_items_answers items resps cs st :
  Forall2 (fun item r => answer item = Some r) items resps ->
  NoDup (resp_id <$> resps) ->
  Forall2 (fun r c => responders st !! resp_id r = Some c) resps cs ->
  route_items items st = (forget_all (resp_id <$> resps) st, zip_with Sent cs resps, None).
Proof.
  intros Hi. revert st cs. induction Hi as [|item r items resps Hr _ IH]; intros st cs Hnd Hc;
    apply Forall2_cons_inv_l in Hc || apply Forall2_nil_inv_l in Hc.
  - by subst.
  - destruct Hc as (c & cs' & Hc & Hcs & ->). simpl in *. apply NoDup_cons in Hnd as [Hnot Hnd].
    rewrite (route_one_answer _ _ _ _ Hr Hc). rewrite (IH _ cs'); [done|done|].
    apply Forall2_same_length_lookup_2; [by eapply Forall2_length|].
    intros i r' c' Hr' Hc'. rewrite responders_forget, lookup_delete_ne.
    + by eapply (Forall2_lookup_lr _ _ _ _ _ _ Hcs).
    + intros Heq. apply Hnot. rewrite Heq. apply list_elem_of_fmap. exists r'. split; [done|].
      by eapply list_elem_of_lookup_2.
Qed.

(** [i] is in the same batch as one of [ids], and is not one of them. *)
Definition sibling_of (ids : list N) (st : PendingState) (i : N) : Prop :=
  (i ∉ ids) /\ exists j k, j ∈ ids /\ id_to_batch st !! j = Some k /\ id_to_batch st !! i = Some k.

Lemma sibling_lost ids st i :
  (exists key, key ∈ elements (owning_batches (list_to_set ids) st) /\
     omitted (list_to_set ids) key (forget_all ids st) i) <-> sibling_of ids st i.
Proof.
  unfold omitted, sibling_of, owning_batches.
  setoid_rewrite elem_of_elements. setoid_rewrite elem_of_list_to_set.
  setoid_rewrite list_elem_of_omap. setoid_rewrite elem_of_elements.
  setoid_rewrite elem_of_list_to_set. setoid_rewrite (proj2 (forget_all_lookup ids st)).
  naive_solver.
Qed.

(** An array of well-formed responses to distinct waiting requests hands
    each response to the waiter of its id, fails at once exactly the waiters of
    the same batches that the array omits, and leaves every other waiter and
    the consistency of the table alone. *)
Theorem route_array_exact items resps cs st :
  index_ok st ->
  Forall2 (fun item r => answer item = Some r) items resps ->
  NoDup (resp_id <$> resps) ->
  Forall2 (fun r c => responders st !! resp_id r = Some c) resps cs ->
  exists st' lost,
    route_array items st = (st', zip_with Sent cs resps ++ lost, None) /\
    index_ok st' /\
    (forall i c, responders st' !! i = Some c <->
       responders st !! i = Some c /\ (i ∉ (resp_id <$> resps)) /\
       ~ sibling_of (resp_id <$> resps) st i) /\
    (forall n, n ∈ lost <-> exists i c, sibling_of (resp_id <$> resps) st i /\
       responders st !! i = Some c /\ n = Dropped c ByShortArray).
Proof.
  intros Hok Hi Hnd Hc. unfold route_array.
  rewrite (route_items_answers _ _ _ _ Hi Hnd Hc), (answers_present _ _ Hi).
  unfold fail_short_batches. set (ids := resp_id <$> resps).
  destruct (forget_all_lookup ids st) as [Hr _].
  destruct (fail_short_batches_spec (list_to_set ids)
    (elements (owning_batches (list_to_set ids) st)) (forget_all ids st)
    (forget_all_ok ids st Hok)) as (Hok' & Hr' & Hn').
  destruct (for_each _ _ _) as [st' lost]. simpl in *. exists st', lost.
  split; [done|]. split; [done|]. split.
  - intros i c. rewrite Hr', Hr, sibling_lost. tauto.
  - intros n. rewrite Hn'. setoid_rewrite sibling_lost. setoid_rewrite Hr.
    unfold sibling_of. naive_solver.
Qed.
End routing.

(** ** An instance *)

(** A few shapes of JSON, and a parser that knows a few texts. *)
Inductive DemoJson : Type :=
  | DNull
  | DNumber (n : N)
  | DArray (items : list DemoJson)
  | DObject (fields : list (string * DemoJson)).

Fixpoint demo_field (k : string) (fields : list (string * DemoJson)) : option DemoJson :=
  match fields with
  | [] => None
  | (k', v) :: fields => if bool_decide (k = k') then Some v else demo_field k fields
  end.

Definition demo_response (id result : N) : DemoJson :=
  DObject [("id"%string, DNumber id); ("result"%string, DNumber result)].

#[export] Instance DemoFrame : JsonFrame DemoJson := {
  from_str text :=
    if bool_decide (text = "r1"%string) then Some (demo_response 1 10)
    else if bool_decide (text = "r2"%string) then Some (demo_response 2 20)
    else if bool_decide (text = "r3r1"%string) then Some (DArray [demo_response 3 30; demo_response 1 10])
    else if bool_decide (text = "r3r2r1"%string) then
      Some (DArray [demo_response 3 30; demo_response 2 20; demo_response 1 10])
    else None;
  as_array v := match v with DArray items => Some items | _ => None end;
  is_object v := match v with DObject _ => true | _ => false end;
  field k v := match v with DObject fields => demo_field k fields | _ => None end;
  is_null v := match v with DNull => true | _ => false end;
  as_u64 v := match v with DNumber n => Some n | _ => None end;
  info_from_value _ := None
}.

(** A batch of three and a single request: the array answers two of the batch. *)
Definition demo_pending : PendingState :=
  mkPendingState (list_to_map [(1, 0%nat); (2, 1%nat); (3, 2%nat); (7, 3%nat)]%N)
    {[ 1%N := {[1; 2; 3]}%N ]} (list_to_map [(1, 1); (2, 1); (3, 1)]%N).

Lemma demo_pending_ok : index_ok demo_pending.
Proof.
  split; simpl.
  - intros id k Hi. exists {[1; 2; 3]}%N.
    assert (k = 1%N /\ (id = 1 \/ id = 2 \/ id = 3)%N) as [-> ?]; [|split; [done|set_solver]].
    revert Hi. rewrite !lookup_insert_Some, lookup_empty. naive_solver.
  - intros k s [<- <-]%lookup_singleton_Some. split; [set_solver|]. intros id Hid.
    assert (id = 1 \/ id = 2 \/ id = 3)%N as [->|[->| ->]] by set_solver; reflexivity.
  - intros id [k Hi]. revert Hi. rewrite !lookup_insert_Some, lookup_empty.
    intros [[<- _]|[_ [[<- _]|[_ [[<- _]|[_ ?]]]]]]; try (eexists; reflexivity). done.
Qed.

Lemma route_array_exact_witness :
  exists st' lost,
    route_array [demo_response 3 30; demo_response 1 10] demo_pending =
      (st', [Sent 2 (mkRpcResponse 3%N (Some (DNumber 30)) None);
             Sent 0 (mkRpcResponse 1%N (Some (DNumber 10)) None)] ++ lost, None) /\
    lost = [Dropped 1 ByShortArray] /\ index_ok st' /\ responders st' !! 7%N = Some 3%nat.
Proof.
  destruct (route_array_exact [demo_response 3 30; demo_response 1 10]
    [mkRpcResponse 3%N (Some (DNumber 30)) None; mkRpcResponse 1%N (Some (DNumber 10)) None]
    [2%nat; 0%nat] demo_pending demo_pending_ok) as (st' & lost & E & Hok & Hr & _).
  - repeat constructor.
  - apply (bool_decide_unpack _). vm_compute. exact I.
  - repeat constructor.
  - exists st', lost. split; [exact E|]. split; [|split; [exact Hok|]].
    + vm_compute in E. injection E as _ <-. reflexivity.
    + vm_compute in E. injection E as <- _. reflexivity.
Defined.
