(* ===== verification/Ws.v ===== *)
(** * Ws: the WebSocket transport (transport/ws.rs)

    A connection is a machine. Its tasks are the calls of [send_single] and
    [send_batch] and the readers of its sockets, each cut at the points where
    other tasks can run: at every await, and at every taking of the pending
    table's lock, since the tasks run on several threads. So an array frame is
    routed item by item, with other tasks in between, and a sender taken out of
    a table is in its taker's hands until it is used. [advance] is the next step
    of one task, and the rest of [ws_step] is what the environment decides:
    calls, dials, frames, deadlines, cancellation, and the order in which a
    reset drops what it drained. Connections, dials and channels are shared, so
    they live in stores and tasks hold their names. The theorems: no waiter is
    lost; an answer has the ids of its request, in order; a reset leaves no
    waiter of its connection in the table; and an array that is not interrupted
    does what [WsRouting.route_array] says. *)
From S2P Require Import Prelude RpcClient WsRouting.

Local Open Scope rust_scope.

(** ** Constants and small functions *)

Definition RECONNECT_BACKOFF : list N := [0; 100; 500; 2000; 5000]%N.

(** Milliseconds. *)
Definition backoff_for (failures : N) : N :=
  let idx := N.min failures (N.of_nat (length RECONNECT_BACKOFF) - 1) in
  default 0%N (RECONNECT_BACKOFF !! N.to_nat idx).

Definition effective_timeout (timeout : N) : option N :=
  if (timeout =? 0)%N then None else Some timeout.

Definition DEFAULT_POOL_SIZE : nat := 4.

Record WsTransport := mkWsTransport { pool_len : nat; next : N }.

Definition WsTransport_new (pool_size : nat) : WsTransport :=
  mkWsTransport (Nat.max pool_size 1) 0.

(** [None]: the panic of a division by zero. *)
Definition pick (ws : WsTransport) : option (nat * WsTransport) :=
  match pool_len ws with
  | 0 => None
  | _ => Some (N.to_nat (next ws mod N.of_nat (pool_len ws)),
               mkWsTransport (pool_len ws) ((next ws + 1) mod 2 ^ 64))
  end.

Section ws.
Context {Value : Type} `{JsonFrame Value}.
Abbreviation Response := (RpcResponse (Value := Value)).
Abbreviation Error := (RpcError (Value := Value)).
Abbreviation Note := (Notice (Value := Value)).

(** ** Shared objects *)

(** A oneshot channel. The connection and the id it was registered for and the
    reason of its closing are the model's, not the code's. *)
Inductive ChanValue : Type :=
  | Open
  | InHand   (* open still, its sender out of the table *)
  | Filled (r : Response)
  | Closed (why : DropReason).

Record Chan := mkChan { ch_active : nat; ch_id : N; ch_value : ChanValue }.

(** [Active]: the table, and whether the writer still takes frames. *)
Record Active := mkActive { pending : PendingState; writer_alive : bool }.

(** A shared dial: its pause in milliseconds, and its result once it has one. *)
Record Dial := mkDial { dial_backoff : N; dial_result : option (Result nat string) }.

Record ConnState := mkConnState {
  active : option nat;
  dialing : option nat;
  failures : N
}.

(** A call: its ids, the form it takes, and its deadline. *)
Record Request := mkRequest { req_ids : list N; req_batch : bool; req_timeout : N }.

Definition Outcome : Type := Result (list Response) Error.

(** What a task resumes with once a reset is over: a call returns, a reader
    ends. A reader that routes keeps the items to come and, for an array, the
    batches it answers with the ids it has. *)
Definition After : Type := option (Request * Outcome).

Inductive Task : Type :=
  | Starting (r : Request)
  | Joining (r : Request) (d : nat)
  | Ready (r : Request) (a : nat)
  | Sampled (r : Request) (a : nat) (gen_before : N)
  | Registered (r : Request) (a : nat) (gen_before : option N) (cs : list nat)
  | Waiting (r : Request) (a : nat) (gen_before : option N) (cs : list nat)
  | Failing (r : Request) (a : nat) (gen_before : N) (cs : list nat)
  | Comparing (r : Request) (gen_before : N) (cs : list nat)
  | Resetting (after : After)
  | Swapping (generation : N) (after : After)
  | Taking (after : After)
  | Draining (a : nat) (after : After)
  | Dropping (cs : gset nat) (after : After)
  | Reading (a : nat) (generation : N)
  | Grouping (a : nat) (generation : N) (items : list Value)
  | Routing (a : nat) (generation : N) (items : list Value) (array : option (gset N * gset N))
  | Sending (a : nat) (generation : N) (c : nat) (r : Response)
      (items : list Value) (array : option (gset N * gset N))
  | Finished (after : After).

Record Net := mkNet {
  state : ConnState;
  generation : N;
  dials : list Dial;
  actives : list Active;
  chans : list Chan;
  tasks : gmap nat Task;
  used : gset N                 (* every id ever called with *)
}.

Definition Net_new : Net := mkNet (mkConnState None None 0) 0 [] [] [] ∅ ∅.

(** ** Steps of the program *)

Definition with_state (f : ConnState -> ConnState) (n : Net) : Net :=
  mkNet (f (state n)) (generation n) (dials n) (actives n) (chans n) (tasks n) (used n).

Definition goto (t : nat) (task : Task) (n : Net) : Net :=
  mkNet (state n) (generation n) (dials n) (actives n) (chans n) (<[t := task]> (tasks n)) (used n).

(** A [send] fills the channel; a dropped sender closes it. *)
Definition apply_notice (chs : list Chan) (x : Note) : list Chan :=
  alter (fun ch => mkChan (ch_active ch) (ch_id ch)
           match x with Sent _ r => Filled r | Dropped _ why => Closed why | Taken _ => InHand end)
    (notice_channel x) chs.

(** A task uses a sender it has in its hands. *)
Definition use_sender (x : Note) (n : Net) : Net :=
  mkNet (state n) (generation n) (dials n) (actives n) (apply_notice (chans n) x) (tasks n) (used n).

(** An operation on the table of [a], with what it does to the senders. *)
Definition set_pending (a : nat) (op : PendingState * list Note) (n : Net) : Net :=
  mkNet (state n) (generation n) (dials n)
    (alter (fun x => mkActive op.1 (writer_alive x)) a (actives n))
    (foldl apply_notice (chans n) op.2) (tasks n) (used n).

(** The channels of a registration exist before their senders are stored. *)
Definition open_chans (a : nat) (ids : list N) (n : Net) : Net :=
  mkNet (state n) (generation n) (dials n) (actives n)
    (chans n ++ ((fun id => mkChan a id Open) <$> ids)) (tasks n) (used n).

(** [register] or [register_batch]. *)
Definition register_request (r : Request) (c : nat) (st : PendingState)
    : option (PendingState * list Note) :=
  if req_batch r then register_batch (req_ids r) c st
  else let! id := head (req_ids r) in Some (register id c st).

Definition register_task (t : nat) (r : Request) (a : nat) (g : option N) (n : Net) : option Net :=
  let! x := actives n !! a in
  let c := length (chans n) in
  let! op := register_request r c (pending x) in
  Some (goto t (Registered r a g (seq c (length (req_ids r))))
          (set_pending a op (open_chans a (req_ids r) n))).

Definition unregister_task (r : Request) (a : nat) (n : Net) : option Net :=
  let! x := actives n !! a in
  Some (set_pending a (unregister (req_ids r) (pending x)) n).

(** [try_join_all] over the receivers: everything, or one failure. *)
Definition receive (chs : list Chan) (c : nat) : option (Result Response unit) :=
  let! ch := chs !! c in
  match ch_value ch with
  | Open | InHand => None
  | Filled r => Some (Ok r)
  | Closed _ => Some (Err tt)
  end.

Fixpoint join_all (chs : list Chan) (cs : list nat) : option (Result (list Response) unit) :=
  match cs with
  | [] => Some (Ok [])
  | c :: cs =>
      match receive chs c, join_all chs cs with
      | Some (Err e), _ => Some (Err e)
      | _, Some (Err e) => Some (Err e)
      | Some (Ok r), Some (Ok rs) => Some (Ok (r :: rs))
      | _, _ => None
      end
  end.

(** [get_active] up to its await: the live connection, the dial under way, or
    a dial of its own. *)
Definition get_active (t : nat) (r : Request) (n : Net) : Net :=
  match active (state n) with
  | Some a => goto t (Ready r a) n
  | None =>
      match dialing (state n) with
      | Some d => goto t (Joining r d) n
      | None =>
          let d := length (dials n) in
          goto t (Joining r d)
            (mkNet (mkConnState None (Some d) (failures (state n))) (generation n)
               (dials n ++ [mkDial (backoff_for (failures (state n))) None])
               (actives n) (chans n) (tasks n) (used n))
      end
  end.

(** [get_active] from its await on. *)
Definition settle_dial (result : Result nat string) (st : ConnState) : ConnState :=
  match result with
  | Ok a => mkConnState (Some a) None 0
  | Err _ => mkConnState (active st) None (N.min usize_max (failures st + 1))
  end.

Definition finish (t : nat) (r : Request) (out : Outcome) (n : Net) : Net :=
  goto t (Finished (Some (r, out))) n.

(** The channels of the senders a drain collects. *)
Definition drained (st : PendingState) : gset nat := list_to_set (map_to_list (responders st)).*2.

(** The reader takes the lock once more: for the next item, or, when an array
    has none left, to fail what it omitted. *)
Definition route_next (t a : nat) (g : N) (items : list Value) (array : option (gset N * gset N))
    (n : Net) : option Net :=
  let! x := actives n !! a in
  match items, array with
  | item :: items, _ =>
      let '(st, tx, reason) := route_take item (pending x) in
      Some (goto t (match reason, tx with
                    | Some _, _ => Swapping g None
                    | None, Some (c, r) => Sending a g c r items array
                    | None, None => Routing a g items array
                    end) (set_pending a (st, carried tx) n))
  | [], None => Some (goto t (Reading a g) n)
  | [], Some (batch_keys, present) =>
      Some (goto t (Reading a g) (set_pending a (fail_short_batches batch_keys present (pending x)) n))
  end.

(** The next step of one task; [None] while it waits. *)
Definition advance (t : nat) (n : Net) : option Net :=
  let! task := tasks n !! t in
  match task with
  | Starting r =>
      if req_batch r && bool_decide (req_ids r = []) then Some (finish t r (Ok []) n)
      else Some (get_active t r n)
  | Joining r d =>
      let! dial := dials n !! d in
      let! result := dial_result dial in
      let n := with_state (settle_dial result) n in
      match result with
      | Ok a => Some (goto t (Ready r a) n)
      | Err e => Some (finish t r (Err (Disconnected e)) n)
      end
  | Ready r a =>
      if req_batch r then Some (goto t (Sampled r a (generation n)) n)
      else register_task t r a None n
  | Sampled r a g => register_task t r a (Some g) n
  | Registered r a g cs =>
      let! x := actives n !! a in
      if writer_alive x then Some (goto t (Waiting r a g cs) n)
      else
        let! n := unregister_task r a n in
        Some (goto t (Resetting (Some (r, Err (Disconnected "writer task gone")))) n)
  | Waiting r a g cs =>
      let! joined := join_all (chans n) cs in
      match joined, g with
      | Ok out, _ => Some (finish t r (Ok out) n)
      | Err _, None => Some (finish t r (Err (Disconnected "connection reset")) n)
      | Err _, Some g => Some (goto t (Failing r a g cs) n)
      end
  | Failing r a g cs =>
      let! n := unregister_task r a n in
      Some (goto t (Comparing r g cs) n)
  | Comparing r g cs =>
      Some (finish t r (Err (if negb (generation n =? g)%N
                             then Disconnected "connection reset" else Protocol ShortBatch)) n)
  | Resetting after => Some (goto t (Swapping (generation n) after) n)
  | Swapping g after =>
      if (generation n =? g)%N then
        Some (goto t (Taking after)
          (mkNet (state n) ((g + 1) mod 2 ^ 64) (dials n) (actives n) (chans n) (tasks n) (used n)))
      else Some (goto t (Finished after) n)
  | Taking after =>
      match active (state n) with
      | None => Some (goto t (Finished after) n)
      | Some a =>
          Some (goto t (Draining a after)
            (with_state (fun st => mkConnState None (dialing st) (failures st)) n))
      end
  | Draining a after =>
      let! x := actives n !! a in
      Some (goto t (Dropping (drained (pending x)) after) (set_pending a (drain (pending x)) n))
  | Dropping cs after => if decide (cs = ∅) then Some (goto t (Finished after) n) else None
  | Reading _ _ => None
  | Grouping a g items =>
      let! x := actives n !! a in
      let present := present_ids items in
      Some (goto t (Routing a g items (Some (owning_batches present (pending x), present))) n)
  | Routing a g items array => route_next t a g items array n
  | Sending a g c r items array => Some (goto t (Routing a g items array) (use_sender (Sent c r) n))
  | Finished _ => None
  end.

(** ** The machine *)

Inductive WsEvent : Type :=
  | EvCall (t : nat) (r : Request)
  | EvAdvance (t : nat)
  | EvDialed (d t : nat) (connected : Result unit string)
  | EvFrame (t : nat) (next : option (Result Message string))
  | EvDrop (t c : nat)
  | EvDeadline (t : nat)
  | EvWriterGone (a : nat)
  | EvCancel (t : nat).

(** The ids of a call come from the client's counter: they are distinct and
    were never used. *)
Definition fresh_request (n : Net) (r : Request) : bool :=
  bool_decide (NoDup (req_ids r)) && forallb (fun id => bool_decide (id ∉ used n)) (req_ids r) &&
  (req_batch r || bool_decide (length (req_ids r) = 1)).

Definition dial_error (e : string) : string := ("disconnected: WS connect failed: " +:+ e)%string.

(** A dial ends: a connection gets its table, its writer and its reader [t],
    which captures the generation. *)
Definition dialed (d t : nat) (connected : Result unit string) (n : Net) : option Net :=
  let! dial := dials n !! d in
  match dial_result dial, tasks n !! t with
  | None, None =>
      let set result acts ts :=
        mkNet (state n) (generation n)
          (<[d := mkDial (dial_backoff dial) (Some result)]> (dials n)) acts (chans n) ts (used n) in
      match connected with
      | Err e => Some (set (Err (dial_error e)) (actives n) (tasks n))
      | Ok _ =>
          let a := length (actives n) in
          Some (set (Ok a) (actives n ++ [mkActive PendingState_default true])
                  (<[t := Reading a (generation n)]> (tasks n)))
      end
  | _, _ => None
  end.

(** The reader gets the next frame; what it does to the table comes after, lock
    by lock. The pong goes to the writer, whose queue is not kept. *)
Definition read_frame (t : nat) (next : option (Result Message string)) (n : Net) : option Net :=
  let! task := tasks n !! t in
  match task with
  | Reading a g =>
      Some (match reader_turn next with
            | Stop _ => goto t (Swapping g None) n
            | SendPong _ | Skip => n
            | RouteOne v => goto t (Routing a g [v] None) n
            | RouteArray items => goto t (Grouping a g items) n
            end)
  | _ => None
  end.

(** A reset drops one of the senders it drained: a map yields them in any
    order. *)
Definition drop_drained (t c : nat) (n : Net) : option Net :=
  let! task := tasks n !! t in
  match task with
  | Dropping cs after =>
      if decide (c ∈ cs) then
        Some (goto t (Dropping (cs ∖ {[c]}) after) (use_sender (Dropped c ByReset) n))
      else None
  | _ => None
  end.

(** The request timeout, while the receivers have not all answered. *)
Definition deadline (t : nat) (n : Net) : option Net :=
  let! task := tasks n !! t in
  match task with
  | Waiting r a g cs =>
      let! _ := effective_timeout (req_timeout r) in
      match join_all (chans n) cs with
      | Some (Ok _) => None
      | _ => Some (goto t (Resetting (Some (r, Err Timeout))) n)
      end
  | _ => None
  end.

(** A caller can be dropped where it awaits, and leaves its ids registered. *)
Definition cancel (t : nat) (n : Net) : option Net :=
  let! task := tasks n !! t in
  let cancelled := Some (mkNet (state n) (generation n) (dials n) (actives n) (chans n)
                           (delete t (tasks n)) (used n)) in
  match task with
  | Starting _ | Joining _ _ | Waiting _ _ _ _ | Taking (Some _) => cancelled
  | _ => None
  end.

Definition ws_step (n : Net) (e : WsEvent) : option Net :=
  match e with
  | EvCall t r =>
      match tasks n !! t with
      | Some _ => None
      | None =>
          if fresh_request n r then
            Some (mkNet (state n) (generation n) (dials n) (actives n) (chans n)
                    (<[t := Starting r]> (tasks n)) (list_to_set (req_ids r) ∪ used n))
          else None
      end
  | EvAdvance t => advance t n
  | EvDialed d t connected => dialed d t connected n
  | EvFrame t next => read_frame t next n
  | EvDrop t c => drop_drained t c n
  | EvDeadline t => deadline t n
  | EvWriterGone a =>
      let! x := actives n !! a in
      Some (mkNet (state n) (generation n) (dials n)
              (<[a := mkActive (pending x) false]> (actives n)) (chans n) (tasks n) (used n))
  | EvCancel t => cancel t n
  end.

Fixpoint ws_run (n : Net) (es : list WsEvent) : option Net :=
  match es with
  | [] => Some n
  | e :: es => let! n := ws_step n e in ws_run n es
  end.

(** ** The stores stay consistent *)

(** Every table is consistent; a sender in a table is the open channel of its
    id; an open channel has its sender in its table; what was received is the
    response of the channel's id. *)
Record heap_ok (acts : list Active) (chs : list Chan) (us : gset N) : Prop := mkHeapOk {
  heap_tables : forall a x, acts !! a = Some x -> index_ok (pending x);
  heap_groups : forall a x k, acts !! a = Some x -> k ∈ dom (batches (pending x)) ->
    exists c ch, chs !! c = Some ch /\ ch_id ch = k;
  heap_senders : forall a x id c, acts !! a = Some x -> responders (pending x) !! id = Some c ->
    chs !! c = Some (mkChan a id Open);
  heap_used : forall c ch, chs !! c = Some ch -> ch_id ch ∈ us;
  heap_open : forall c ch, chs !! c = Some ch -> exists x, acts !! ch_active ch = Some x /\
    (ch_value ch = Open -> responders (pending x) !! ch_id ch = Some c);
  heap_filled : forall c ch r, chs !! c = Some ch -> ch_value ch = Filled r -> resp_id r = ch_id ch
}.

Definition net_heap_ok (n : Net) : Prop := heap_ok (actives n) (chans n) (used n).

(** *** What notices do to channels *)

Definition noticed (x : Note) (ch : Chan) : Chan :=
  mkChan (ch_active ch) (ch_id ch)
    match x with Sent _ r => Filled r | Dropped _ why => Closed why | Taken _ => InHand end.

Lemma notices_lookup ns chs c ch :
  chs !! c = Some ch ->
  ((forall x, x ∈ ns -> notice_channel x <> c) /\ foldl apply_notice chs ns !! c = Some ch) \/
  (exists x, x ∈ ns /\ notice_channel x = c /\ foldl apply_notice chs ns !! c = Some (noticed x ch)).
Proof.
  revert chs ch. induction ns as [|x ns IH]; intros chs ch Hc; simpl.
  - left. split; [|done]. intros x Hx. by apply not_elem_of_nil in Hx.
  - assert (apply_notice chs x !! c =
      Some (if decide (notice_channel x = c) then noticed x ch else ch)) as Hc1.
    { unfold apply_notice. case_decide as E.
      - rewrite E, list_lookup_alter_eq, Hc. done.
      - by rewrite list_lookup_alter_ne. }
    destruct (IH _ _ Hc1) as [[Hno Hl]|(y & Hy & Hyc & Hl)].
    + case_decide as E.
      * right. exists x. split; [apply elem_of_cons; by left|done].
      * left. split; [|done]. intros y [->|Hy]%elem_of_cons; [done|by apply Hno].
    + right. exists y. split; [apply elem_of_cons; by right|]. split; [done|].
      rewrite Hl. by case_decide.
Qed.

Lemma length_notices ns chs : length (foldl apply_notice chs ns) = length chs.
Proof.
  revert chs. induction ns as [|x ns IH]; intros chs; simpl; [done|].
  rewrite IH. apply length_alter.
Qed.

(** The other way round: a channel after the notices was one before. *)
Lemma notices_lookup_inv ns chs c ch' :
  foldl apply_notice chs ns !! c = Some ch' ->
  exists ch, chs !! c = Some ch /\ ch_active ch' = ch_active ch /\ ch_id ch' = ch_id ch /\
    (ch' = ch /\ (forall x, x ∈ ns -> notice_channel x <> c) \/
     exists x, x ∈ ns /\ notice_channel x = c /\ ch' = noticed x ch).
Proof.
  intros Hc'. pose proof (lookup_lt_Some _ _ _ Hc') as Hlt. rewrite length_notices in Hlt.
  destruct (lookup_lt_is_Some_2 _ _ Hlt) as [ch Hch]. exists ch. split; [done|].
  destruct (notices_lookup ns chs c ch Hch) as [[Hno Hl]|(x & Hx & Hxc & Hl)];
    rewrite Hl in Hc'; injection Hc' as <-; naive_solver.
Qed.

(** *** An operation that settles *)

Lemma set_pending_heap a x op n :
  actives n !! a = Some x -> settles (pending x) op.1 op.2 ->
  net_heap_ok n -> net_heap_ok (set_pending a op n).
Proof.
  intros Hx Hs [Ht Hg Hse Hu Ho Hf]. unfold net_heap_ok. simpl.
  assert (forall b y, alter (fun x => mkActive op.1 (writer_alive x)) a (actives n) !! b = Some y ->
    (b = a /\ y = mkActive op.1 (writer_alive x)) \/ (b <> a /\ actives n !! b = Some y)) as Hact.
  { intros b y. destruct (decide (a = b)) as [<-|Hne].
    - rewrite list_lookup_alter_eq, Hx. intros [= <-]. by left.
    - rewrite list_lookup_alter_ne by done. right. done. }
  split.
  - intros b y [[-> ->]|[_ Hy]]%Hact; simpl; [|eauto]. eapply settles_index; eauto.
  - intros b y k Hy Hk.
    assert (exists c ch, chans n !! c = Some ch /\ ch_id ch = k) as (c & ch & Hch & Hid).
    { apply Hact in Hy as [[-> ->]|[_ Hy]]; [|eauto]. simpl in Hk.
      eapply Hg; [done|]. by eapply settles_groups. }
    exists c. destruct (notices_lookup op.2 (chans n) c ch Hch) as [[_ ?]|(z & _ & _ & ?)]; eauto.
  - intros b y id c Hy Hc.
    assert (chans n !! c = Some (mkChan b id Open)) as Hch.
    { apply Hact in Hy as [[-> ->]|[_ Hy]]; [|eauto]. simpl in Hc.
      eapply Hse; [done|]. by eapply lookup_weaken, settles_shrinks. }
    destruct (notices_lookup op.2 (chans n) c _ Hch) as [[_ Hl]|(z & Hz & Hzc & _)]; [done|].
    exfalso. destruct (settles_noticed _ _ _ Hs z Hz) as (id' & Hid' & Hnone & _).
    rewrite Hzc in Hid'. pose proof (Hse a x id' c Hx Hid') as Hch'.
    rewrite Hch in Hch'. injection Hch' as -> ->.
    apply Hact in Hy as [[_ ->]|[? _]]; [|done]. simpl in Hc. congruence.
  - intros c ch' (ch & Hch & _ & -> & _)%notices_lookup_inv. eauto.
  - intros c ch' (ch & Hch & Ha & Hid & Hcase)%notices_lookup_inv.
    destruct (Ho c ch Hch) as (y & Hy & Hop). rewrite Ha, Hid.
    destruct (decide (ch_active ch = a)) as [Hca|Hne].
    + rewrite Hca in *. simplify_eq. exists (mkActive op.1 (writer_alive x)).
      rewrite list_lookup_alter_eq, Hx. split; [done|]. simpl. intros Hopen.
      destruct Hcase as [[-> Hno]|(z & _ & _ & ->)]; [|by destruct z].
      specialize (Hop Hopen). destruct (responders op.1 !! ch_id ch) as [c'|] eqn:E.
      * pose proof (lookup_weaken _ _ _ _ E (settles_shrinks _ _ _ Hs)). congruence.
      * destruct (settles_taken _ _ _ Hs _ _ Hop E) as (z & Hz & Hzc). by apply Hno in Hz.
    + exists y. rewrite list_lookup_alter_ne by done. split; [done|]. intros Hopen. apply Hop.
      destruct Hcase as [[-> _]|(z & _ & _ & ->)]; [done|]. by destruct z.
  - intros c ch' r (ch & Hch & Ha & Hid & Hcase)%notices_lookup_inv Hr. rewrite Hid.
    destruct Hcase as [[-> _]|(z & Hz & Hzc & ->)]; [eauto|]. destruct z as [c' r'| |]; [|done|done].
    simpl in Hr. injection Hr as ->. simpl in Hzc. subst c'.
    destruct (settles_noticed _ _ _ Hs _ Hz) as (id & Hl & _ & Heq).
    rewrite (Heq _ _ eq_refl). pose proof (Hse a x id c Hx Hl) as Hch'.
    rewrite Hch in Hch'. by injection Hch' as ->.
Qed.

(** The channel [c] is open and its sender in somebody's hands. *)
Definition held (n : Net) (c : nat) : Prop := exists ch, chans n !! c = Some ch /\ ch_value ch = InHand.

(** A sender in hand is used: for a response, the one of its id. *)
Lemma use_sender_heap x n :
  net_heap_ok n -> held n (notice_channel x) ->
  (forall c r, x = Sent c r -> exists a v, chans n !! c = Some (mkChan a (resp_id r) v)) ->
  net_heap_ok (use_sender x n).
Proof.
  intros [Ht Hg Hse Hu Ho Hf] (h & Hh & Hv) Hsent. unfold net_heap_ok, use_sender. simpl.
  assert (forall c ch, chans n !! c = Some ch ->
    apply_notice (chans n) x !! c = Some (if decide (notice_channel x = c) then noticed x ch else ch)) as Hfwd.
  { intros c ch Hc. unfold apply_notice. case_decide as E.
    - by rewrite E, list_lookup_alter_eq, Hc.
    - by rewrite list_lookup_alter_ne. }
  assert (forall c ch', apply_notice (chans n) x !! c = Some ch' -> exists ch, chans n !! c = Some ch /\
    ch_active ch' = ch_active ch /\ ch_id ch' = ch_id ch /\
    (ch' = ch \/ c = notice_channel x /\ ch' = noticed x ch)) as Hbwd.
  { intros c ch' Hc'. pose proof (lookup_lt_Some _ _ _ Hc') as Hlt. unfold apply_notice in Hlt.
    rewrite length_alter in Hlt. destruct (lookup_lt_is_Some_2 _ _ Hlt) as [ch Hch]. exists ch.
    rewrite (Hfwd _ _ Hch) in Hc'. injection Hc' as <-. case_decide; naive_solver. }
  split; [done| | | | |].
  - intros a y k Hy Hk. destruct (Hg a y k Hy Hk) as (c & ch & Hch & Hid). exists c.
    rewrite (Hfwd _ _ Hch). eexists. split; [done|]. by case_decide.
  - intros a y id c Hy Hc. pose proof (Hse a y id c Hy Hc) as Hch. rewrite (Hfwd _ _ Hch).
    case_decide as E; [|done]. subst. rewrite Hch in Hh. injection Hh as <-. done.
  - intros c ch' (ch & Hch & _ & -> & _)%Hbwd. eauto.
  - intros c ch' (ch & Hch & -> & -> & Hcase)%Hbwd. destruct (Ho c ch Hch) as (y & Hy & Hop).
    exists y. split; [done|]. intros Hopen. apply Hop.
    destruct Hcase as [->|[_ ->]]; [done|]. by destruct x.
  - intros c ch' r (ch & Hch & _ & -> & Hcase)%Hbwd Hr. destruct Hcase as [->|[-> ->]]; [eauto|].
    destruct x as [c' r'| |]; simpl in Hr; try done. injection Hr as ->. simpl in *.
    destruct (Hsent _ _ eq_refl) as (a & v & E). rewrite E in Hch. by injection Hch as <-.
Qed.

(** Only the tables matter. *)
Lemma heap_ok_ext acts acts' chs us :
  (pending <$> acts') = (pending <$> acts) -> heap_ok acts chs us -> heap_ok acts' chs us.
Proof.
  intros Heq. assert (forall a, pending <$> (acts' !! a) = pending <$> (acts !! a)) as Hl.
  { intros a. by rewrite <- !list_lookup_fmap, Heq. }
  assert (forall a x, acts' !! a = Some x -> exists y, acts !! a = Some y /\ pending x = pending y) as Hx.
  { intros a x Ha. specialize (Hl a). rewrite Ha in Hl. destruct (acts !! a) as [y|]; [|done].
    injection Hl as Hl. by exists y. }
  intros [Ht Hg Hse Hu Ho Hf]. split; try done.
  - intros a x (y & Hy & ->)%Hx. eauto.
  - intros a x k (y & Hy & ->)%Hx. eauto.
  - intros a x id c (y & Hy & ->)%Hx. eauto.
  - intros c ch Hc. destruct (Ho c ch Hc) as (y & Hy & Hop). specialize (Hl (ch_active ch)).
    rewrite Hy in Hl. destruct (acts' !! ch_active ch) as [x|]; [|done]. injection Hl as Hl.
    exists x. by rewrite Hl.
Qed.

(** *** A registration *)

Definition registered (chs : list Chan) (id : N) : Prop :=
  exists c ch, chs !! c = Some ch /\ ch_id ch = id.

(** The ids a call registers: distinct, and one for a single request. *)
Definition request_ok (r : Request) : Prop :=
  NoDup (req_ids r) /\ (req_batch r = false -> length (req_ids r) = 1) /\ req_ids r <> [].

Lemma unregistered_free acts chs us a x id :
  heap_ok acts chs us -> acts !! a = Some x -> ~ registered chs id ->
  responders (pending x) !! id = None /\ id ∉ dom (batches (pending x)).
Proof.
  intros Hh Hx Hid. split.
  - apply eq_None_not_Some. intros [c Hc]. apply Hid. exists c. eexists.
    split; [by eapply heap_senders|done].
  - intros Hk. apply Hid. by eapply heap_groups.
Qed.

(** Both ways of registering put the channels in the table, and no sender out
    of it. *)
Lemma register_request_spec r c st :
  request_ok r -> index_ok st ->
  (forall id, id ∈ req_ids r -> responders st !! id = None /\ id ∉ dom (batches st)) ->
  exists st', register_request r c st = Some (st', []) /\ index_ok st' /\
    (forall k, k ∈ dom (batches st') -> k ∈ req_ids r \/ k ∈ dom (batches st)) /\
    (forall id k, responders st' !! id = Some k <->
       responders st !! id = Some k \/ exists i, req_ids r !! i = Some id /\ k = c + i).
Proof.
  intros (Hnd & Hone & Hne) Hok Hfree. unfold register_request.
  destruct (req_ids r) as [|key ids] eqn:Hids; [done|].
  assert (key ∈ key :: ids) as Hkey by (apply elem_of_cons; by left).
  destruct (req_batch r).
  - destruct (register_batch_spec (Value := Value) (key :: ids) key c st eq_refl Hnd) as (st' & E & ? & Hdom & Hr);
      [intros; by apply Hfree|by apply Hfree|done|].
    exists st'. split_and!; [done|done| |done]. set_solver.
  - destruct ids as [|]; [|by specialize (Hone eq_refl)]. simpl.
    destruct (register_spec (Value := Value) key c st) as (st' & E & ? & Hb & Hr); [by apply Hfree|done|].
    rewrite E. exists st'. split_and!; [done|done|rewrite Hb; by right|].
    intros id k. rewrite Hr. split; [intros [?|[-> ->]]; [by left|right; exists 0; split; [done|lia]]|].
    intros [?|([|i] & Hi & ->)]; [by left| |done]. right. injection Hi as ->. split; [done|lia].
Qed.

Lemma lookup_open_chans a ids n c ch :
  chans (open_chans a ids n) !! c = Some ch ->
  chans n !! c = Some ch \/
  exists i id, c = length (chans n) + i /\ ids !! i = Some id /\ ch = mkChan a id Open.
Proof.
  simpl. intros [?|[Hge Hc]]%lookup_app_Some; [by left|]. right.
  rewrite list_lookup_fmap in Hc. destruct (ids !! (c - length (chans n))) as [id|] eqn:E; [|done].
  injection Hc as <-. exists (c - length (chans n)), id. split; [lia|done].
Qed.

Lemma register_heap r a x n :
  actives n !! a = Some x -> request_ok r -> list_to_set (req_ids r) ⊆ used n ->
  (forall id, id ∈ req_ids r -> ~ registered (chans n) id) -> net_heap_ok n ->
  exists st', register_request r (length (chans n)) (pending x) = Some (st', []) /\
    net_heap_ok (set_pending a (st', []) (open_chans a (req_ids r) n)).
Proof.
  intros Hx Hr Hused Hfree Hok.
  destruct (register_request_spec r (length (chans n)) (pending x) Hr) as (st' & E & Hidx & Hdom & Hresp).
  { by eapply heap_tables. }
  { intros id Hid. eapply unregistered_free; [done|done|by apply Hfree]. }
  exists st'. split; [done|]. destruct Hok as [Ht Hg Hse Hu Ho Hf].
  assert (forall b y, actives (set_pending a (st', []) (open_chans a (req_ids r) n)) !! b = Some y ->
    (b = a /\ y = mkActive st' (writer_alive x)) \/ (b <> a /\ actives n !! b = Some y)) as Hact.
  { simpl. intros b y. destruct (decide (a = b)) as [<-|Hne].
    - rewrite list_lookup_alter_eq, Hx. intros [= <-]. by left.
    - rewrite list_lookup_alter_ne by done. by right. }
  assert (forall i id, req_ids r !! i = Some id ->
    chans (open_chans a (req_ids r) n) !! (length (chans n) + i) = Some (mkChan a id Open)) as Hnew.
  { intros i id Hi. simpl. rewrite lookup_app_r by lia. rewrite list_lookup_fmap.
    replace (length (chans n) + i - length (chans n)) with i by lia. by rewrite Hi. }
  assert (forall c ch, chans n !! c = Some ch ->
    chans (open_chans a (req_ids r) n) !! c = Some ch) as Hold.
  { intros c ch Hc. simpl. by apply lookup_app_l_Some. }
  split.
  - intros b y [[-> ->]|[_ Hy]]%Hact; simpl; eauto.
  - intros b y k [[-> ->]|[_ Hy]]%Hact Hk; simpl in Hk.
    + apply Hdom in Hk as [Hk|Hk].
      * apply list_elem_of_lookup in Hk as [i Hi]. exists (length (chans n) + i). eauto.
      * destruct (Hg a x k Hx Hk) as (c & ch & ? & ?). eauto 10.
    + destruct (Hg b y k Hy Hk) as (c & ch & ? & ?). eauto 10.
  - intros b y id c [[-> ->]|[Hb Hy]]%Hact Hc; simpl in Hc; [|apply Hold; eauto].
    apply Hresp in Hc as [Hc|(i & Hi & ->)]; [apply Hold; eauto|by apply Hnew].
  - intros c ch [Hc|(i & id & -> & Hi & ->)]%lookup_open_chans; [eauto|]. simpl.
    apply Hused. apply elem_of_list_to_set. by eapply list_elem_of_lookup_2.
  - intros c ch Hc. apply lookup_open_chans in Hc as [Hc|(i & id & -> & Hi & ->)].
    + destruct (Ho c ch Hc) as (y & Hy & Hop). destruct (decide (ch_active ch = a)) as [Hca|Hne].
      * rewrite Hca in *. simplify_eq. exists (mkActive st' (writer_alive x)). simpl.
        rewrite list_lookup_alter_eq, Hx. split; [done|]. simpl. intros. apply Hresp. left. auto.
      * exists y. simpl. rewrite list_lookup_alter_ne by done. done.
    + exists (mkActive st' (writer_alive x)). simpl. rewrite list_lookup_alter_eq, Hx.
      split; [done|]. simpl. intros _. apply Hresp. right. eauto.
  - intros c ch q Hc. apply lookup_open_chans in Hc as [Hc|(i & id & -> & Hi & ->)]; [eauto|done].
Qed.

(** ** The tasks stay consistent *)

Definition task_ids (task : Task) : list N :=
  match task with
  | Starting r | Joining r _ | Ready r _ | Sampled r _ _ | Registered r _ _ _
  | Waiting r _ _ _ | Failing r _ _ _ | Comparing r _ _ => req_ids r
  | _ => []
  end.

Definition ids_of (t : nat) (n : Net) : list N :=
  match tasks n !! t with Some task => task_ids task | None => [] end.

(** A success has the ids of the request, in its order. *)
Definition after_ok (after : After) : Prop :=
  match after with
  | Some (r, Ok out) => (resp_id <$> out) = req_ids r
  | _ => True
  end.

Definition receivers (n : Net) (r : Request) (a : nat) (cs : list nat) : Prop :=
  Forall2 (fun c id => exists v, chans n !! c = Some (mkChan a id v)) cs (req_ids r).

Definition unregistered (n : Net) (r : Request) : Prop :=
  list_to_set (req_ids r) ⊆ used n /\ forall id, id ∈ req_ids r -> ~ registered (chans n) id.

Definition task_ok (n : Net) (task : Task) : Prop :=
  match task with
  | Starting r => (req_batch r = false -> length (req_ids r) = 1) /\ NoDup (req_ids r) /\ unregistered n r
  | Joining r _ => request_ok r /\ unregistered n r
  | Ready r a | Sampled r a _ => a < length (actives n) /\ request_ok r /\ unregistered n r
  | Registered r a _ cs | Waiting r a _ cs | Failing r a _ cs =>
      a < length (actives n) /\ receivers n r a cs
  | Comparing r _ cs => forall c, c ∈ cs -> exists ch, chans n !! c = Some ch /\ ch_id ch ∈ req_ids r
  | Resetting after | Swapping _ after | Taking after | Finished after => after_ok after
  | Draining a after => a < length (actives n) /\ after_ok after
  | Dropping _ after => after_ok after
  | Reading a _ | Grouping a _ _ | Routing a _ _ _ => a < length (actives n)
  | Sending a _ c r _ _ =>
      a < length (actives n) /\ exists v, chans n !! c = Some (mkChan a (resp_id r) v)
  end.

(** The senders a task holds. *)
Definition in_hand (task : Task) : gset nat :=
  match task with
  | Dropping cs _ => cs
  | Sending _ _ c _ _ _ => {[c]}
  | _ => ∅
  end.

Definition hand_of (t : nat) (n : Net) : gset nat :=
  match tasks n !! t with Some task => in_hand task | None => ∅ end.

(** What is in hand is in one task's hands. *)
Record hands_ok (n : Net) : Prop := mkHandsOk {
  hands_held : forall t c, c ∈ hand_of t n -> held n c;
  hands_all : forall c, held n c -> exists t, c ∈ hand_of t n;
  hands_apart : forall t u c, c ∈ hand_of t n -> c ∈ hand_of u n -> t = u
}.

Record net_ok (n : Net) : Prop := mkNetOk {
  net_heap : net_heap_ok n;
  net_hands : hands_ok n;
  net_tasks : forall t task, tasks n !! t = Some task -> task_ok n task;
  net_disjoint : forall t u id, t <> u -> id ∈ ids_of t n -> id ∈ ids_of u n -> False;
  net_used : forall t id, id ∈ ids_of t n -> id ∈ used n;
  net_active : forall a, active (state n) = Some a -> a < length (actives n);
  net_dials : forall d dial a, dials n !! d = Some dial -> dial_result dial = Some (Ok a) ->
    a < length (actives n)
}.

(** [n'] comes after [n]: stores only grow, channels keep what they are for,
    and the ids newly registered are among [new]. *)
Record extends (n n' : Net) (new : list N) : Prop := mkExtends {
  ext_used : used n ⊆ used n';
  ext_actives : length (actives n) <= length (actives n');
  ext_chans : forall c ch, chans n !! c = Some ch ->
    exists v, chans n' !! c = Some (mkChan (ch_active ch) (ch_id ch) v);
  ext_registered : forall id, registered (chans n') id -> registered (chans n) id \/ id ∈ new
}.

Lemma extends_same n n' :
  used n' = used n -> actives n' = actives n -> chans n' = chans n -> extends n n' [].
Proof.
  intros Hu Ha Hc. split; rewrite ?Hu, ?Ha, ?Hc; [done|done| |by left].
  intros c [a i v] Hl. by exists v.
Qed.

Lemma extends_pending n a op : extends n (set_pending a op n) [].
Proof.
  split; simpl; [done|by rewrite length_alter| |].
  - intros c ch Hc. destruct (notices_lookup op.2 _ c ch Hc) as [[_ ->]|(x & _ & _ & ->)].
    + destruct ch as [b i v]. by exists v.
    + by eexists.
  - intros id (c & ch & Hc & <-). left.
    apply notices_lookup_inv in Hc as (ch0 & Hc & _ & Hid & _). exists c, ch0. done.
Qed.

Lemma extends_register n a st' ids : extends n (set_pending a (st', []) (open_chans a ids n)) ids.
Proof.
  split; [done|simpl; by rewrite length_alter| |].
  - intros c [b i v] Hc. exists v. simpl. by apply lookup_app_l_Some.
  - intros id (c & ch & Hc & <-). apply lookup_open_chans in Hc as [Hc|(i & id & _ & Hi & ->)].
    + left. by exists c, ch.
    + right. by eapply list_elem_of_lookup_2.
Qed.

Lemma task_ok_mono n n' new task :
  extends n n' new -> (forall id, id ∈ task_ids task -> id ∉ new) -> task_ok n task -> task_ok n' task.
Proof.
  intros [Hu Ha Hc Hr] Hnew Hok.
  assert (forall r, (forall id, id ∈ req_ids r -> id ∉ new) -> unregistered n r -> unregistered n' r)
    as Hun.
  { intros r Hd [Hus Hreg]. split; [set_solver|]. intros id Hid Hreg'.
    apply Hr in Hreg' as [?|?]; [by eapply Hreg|by eapply Hd]. }
  assert (forall r a cs, receivers n r a cs -> receivers n' r a cs) as Hrec.
  { intros r a cs Hf. eapply Forall2_impl; [exact Hf|]. simpl. intros c id [v Hv].
    by apply Hc in Hv. }
  destruct task; simpl in *; try solve [intuition eauto with lia].
  - intros c Hin. destruct (Hok c Hin) as (ch & Hch & Hid). destruct (Hc c ch Hch) as [v Hv]. eauto.
  - destruct Hok as [? [v Hv]]. split; [lia|]. by apply Hc in Hv.
Qed.

(** What one task's step does to the senders in hand: from [own] to [new]. *)
Record hands_move (n n' : Net) (own new : gset nat) : Prop := mkHandsMove {
  move_kept : forall c, held n c -> c ∉ own -> held n' c;
  move_new : forall c, c ∈ new -> held n' c /\ (c ∈ own \/ ~ held n c);
  move_all : forall c, held n' c -> c ∈ new \/ (held n c /\ c ∉ own)
}.

Lemma hands_ok_step t n n' :
  hands_ok n -> (forall u, u <> t -> hand_of u n' = hand_of u n) ->
  hands_move n n' (hand_of t n) (hand_of t n') -> hands_ok n'.
Proof.
  intros [Hh Ha Hd] Ho [Hk Hn Hall]. split.
  - intros u c Hc. destruct (decide (u = t)) as [->|Hne]; [by apply Hn|].
    rewrite Ho in Hc by done. apply Hk; [by eapply Hh|]. intros Ht. apply Hne. by eapply Hd.
  - intros c [Hc|[Hc Hno]]%Hall; [by exists t|]. destruct (Ha c Hc) as [u Hu]. exists u.
    rewrite Ho; [done|]. by intros ->.
  - assert (forall u c, u <> t -> c ∈ hand_of t n' -> c ∈ hand_of u n -> False) as Hex.
    { intros u c Hne Hc Hu. destruct (Hn c Hc) as [_ [Hc'|Hno]]; [by apply Hne; eapply Hd|].
      apply Hno. by eapply Hh. }
    intros u v c Hu Hv. destruct (decide (u = t)) as [->|], (decide (v = t)) as [->|]; [done| | |];
      rewrite ?Ho in * by done; [by destruct (Hex v c)|by destruct (Hex u c)|by eapply Hd].
Qed.

(** No sender changes hands. *)
Lemma hands_stay n n' own : (forall c, held n' c <-> held n c) -> (forall c, c ∈ own -> held n c) ->
  hands_move n n' own own.
Proof.
  intros Hs Ho. split.
  - intros c Hc _. by apply Hs.
  - intros c Hc. split; [by apply Hs, Ho|by left].
  - intros c Hc%Hs. destruct (decide (c ∈ own)); [by left|by right].
Qed.

Definition is_taken (x : Note) : bool := match x with Taken _ => true | _ => false end.

Definition taken_of (ns : list Note) : gset nat :=
  list_to_set (omap (fun x => match x with Taken c => Some c | _ => None end) ns).

Lemma elem_of_taken c ns : c ∈ taken_of ns <-> Taken c ∈ ns.
Proof.
  unfold taken_of. rewrite elem_of_list_to_set, list_elem_of_omap. split.
  - intros (z & Hz & Hc). destruct z; simplify_eq; done.
  - intros Hc. by exists (Taken c).
Qed.

(** An operation on a table carries out its senders, or none. *)
Definition all_or_none (ns : list Note) : Prop :=
  (forall z, z ∈ ns -> is_taken z = true) \/ (forall z, z ∈ ns -> is_taken z = false).

Lemma hands_pending a x op n :
  net_heap_ok n -> actives n !! a = Some x -> settles (pending x) op.1 op.2 -> all_or_none op.2 ->
  hands_move n (set_pending a op n) ∅ (taken_of op.2).
Proof.
  intros Hh Hx Hs Hu.
  assert (forall z, z ∈ op.2 -> exists id, chans n !! notice_channel z = Some (mkChan a id Open)) as Hopen.
  { intros z Hz. destruct (settles_noticed _ _ _ Hs z Hz) as (id & Hid & _). exists id.
    by eapply heap_senders. }
  assert (forall c, Taken c ∈ op.2 -> ~ held n c) as Hfree.
  { intros c Hc (ch & Hch & Hv). destruct (Hopen _ Hc) as [id E]. simpl in E.
    rewrite E in Hch. by injection Hch as <-. }
  split.
  - intros c (ch & Hch & Hv) _. exists ch. split; [|done]. simpl.
    destruct (notices_lookup op.2 _ c ch Hch) as [[_ ?]|(z & Hz & Hzc & _)]; [done|].
    destruct (Hopen z Hz) as [id E]. rewrite Hzc, Hch in E. by injection E as ->.
  - intros c Hc%elem_of_taken. split; [|right; by apply Hfree].
    destruct (Hopen _ Hc) as [id Hch]. simpl in Hch.
    destruct (notices_lookup op.2 _ c _ Hch) as [[Hno _]|(z & Hz & Hzc & Hl)].
    + by destruct (Hno _ Hc).
    + destruct Hu as [Hu|Hu]; [|by specialize (Hu _ Hc)]. specialize (Hu z Hz). exists (noticed z (mkChan a id Open)).
      split; [exact Hl|]. by destruct z.
  - intros c (ch' & Hch' & Hv). simpl in Hch'. apply notices_lookup_inv in Hch' as (ch & Hch & _ & _ & Hcase).
    destruct Hcase as [[-> _]|(z & Hz & Hzc & ->)].
    + right. split; [by exists ch|set_solver].
    + left. apply elem_of_taken. destruct z as [| |c']; try done. simpl in Hzc. by subst.
Qed.

(** One task moves, in a net that comes after. *)
Lemma net_ok_step t n n' :
  net_ok n -> net_heap_ok n' -> extends n n' (ids_of t n) ->
  (forall u, u <> t -> hand_of u n' = hand_of u n) -> hands_move n n' (hand_of t n) (hand_of t n') ->
  (forall u task, tasks n' !! u = Some task ->
     tasks n !! u = Some task /\ u <> t \/
     u = t /\ task_ok n' task /\ forall id, id ∈ task_ids task -> id ∈ ids_of t n) ->
  (forall a, active (state n') = Some a -> a < length (actives n')) ->
  (forall d dial a, dials n' !! d = Some dial -> dial_result dial = Some (Ok a) ->
     a < length (actives n')) ->
  net_ok n'.
Proof.
  intros [Hh Hhs Ht Hd Hus _ _] Hh' He Hho Hhm Hts Ha' Hd'.
  assert (forall u id, id ∈ ids_of u n' -> id ∈ ids_of u n) as Hids.
  { intros u id. unfold ids_of at 1. destruct (tasks n' !! u) as [task|] eqn:E.
    - apply Hts in E as [[E _]|(-> & _ & E)]; [|apply E]. unfold ids_of. by rewrite E.
    - intros []%not_elem_of_nil. }
  split; [done|by eapply hands_ok_step| | | |done|done].
  - intros u task Hu. destruct (Hts u task Hu) as [[Hold Hne]|(-> & Hok & _)]; [|done].
    eapply task_ok_mono; [exact He| |by eapply Ht].
    intros id Hid Hin. apply (Hd u t id Hne); [|done]. unfold ids_of. by rewrite Hold.
  - intros u v id Huv Hu Hv. eapply Hd; eauto.
  - intros u id Hu. eapply ext_used; [done|]. eauto.
Qed.

(** The common case: the task at [t] is replaced. *)
Lemma hand_of_goto t task n u : hand_of u (goto t task n) = if decide (u = t) then in_hand task else hand_of u n.
Proof.
  unfold hand_of. simpl. case_decide as E; [subst; by rewrite lookup_insert_eq|by rewrite lookup_insert_ne].
Qed.

Lemma net_ok_goto t task n n' :
  net_ok n -> net_heap_ok n' -> extends n n' (ids_of t n) -> tasks n' = tasks n ->
  (forall a, active (state n') = Some a -> a < length (actives n')) ->
  (forall d dial a, dials n' !! d = Some dial -> dial_result dial = Some (Ok a) ->
     a < length (actives n')) ->
  hands_move n n' (hand_of t n) (in_hand task) ->
  task_ok n' task -> (forall id, id ∈ task_ids task -> id ∈ ids_of t n) ->
  net_ok (goto t task n').
Proof.
  intros Hok Hh [He1 He2 He3 He4] Hts Ha Hd [Hm1 Hm2 Hm3] Htask Hids.
  eapply (net_ok_step t n); [done|done|by split| | | |done|done].
  - intros u Hu. rewrite hand_of_goto, decide_False by done. unfold hand_of. by rewrite Hts.
  - rewrite hand_of_goto, decide_True by done. by split.
  - simpl. rewrite Hts. intros u task' [[<- <-]|[? ?]]%lookup_insert_Some; [right|left]; done.
Qed.

Lemma Net_new_ok : net_ok Net_new.
Proof.
  assert (forall t, hand_of t Net_new = ∅) as Hnone by (intros t; unfold hand_of; simpl; by rewrite lookup_empty).
  split; simpl.
  - split; simpl; intros *; rewrite ?lookup_nil; done.
  - split; intros *; rewrite ?Hnone; [set_solver| |set_solver]. by intros (ch & Hch & _).
  - intros t task. by rewrite lookup_empty.
  - intros t u id _. unfold ids_of. simpl. rewrite lookup_empty. intros []%not_elem_of_nil.
  - intros t id. unfold ids_of. simpl. rewrite lookup_empty. intros []%not_elem_of_nil.
  - done.
  - done.
Qed.

(** The channels are as they were. *)
Lemma hands_same t n n' : net_ok n -> chans n' = chans n -> hands_move n n' (hand_of t n) (hand_of t n).
Proof. intros Hok Hc. apply hands_stay; [intros c; unfold held; by rewrite Hc|apply Hok]. Qed.

(** A move that touches no store. *)
Lemma net_ok_move t task n :
  net_ok n -> hand_of t n = in_hand task -> task_ok n task ->
  (forall id, id ∈ task_ids task -> id ∈ ids_of t n) -> net_ok (goto t task n).
Proof.
  intros Hok Hhand Ht Hids. eapply net_ok_goto; try done; try apply Hok.
  - by split; eauto using extends_same; apply extends_same.
  - rewrite <- Hhand. by apply hands_same.
Qed.

Lemma ids_of_task t n task : tasks n !! t = Some task -> ids_of t n = task_ids task.
Proof. unfold ids_of. by intros ->. Qed.

Lemma net_ok_register t r a g n n' :
  net_ok n -> ids_of t n = req_ids r -> hand_of t n = ∅ -> a < length (actives n) -> request_ok r ->
  unregistered n r -> register_task t r a g n = Some n' -> net_ok n'.
Proof.
  intros Hok Hids Hhand Ha Hr [Hus Hreg]. unfold register_task.
  destruct (lookup_lt_is_Some_2 _ _ Ha) as [x Hx]. rewrite Hx.
  destruct (register_heap r a x n Hx Hr Hus Hreg (net_heap n Hok)) as (st' & -> & Hh).
  intros [= <-]. eapply net_ok_goto; [done|done|rewrite Hids; apply extends_register|done| | | | |].
  - simpl. rewrite length_alter. apply Hok.
  - simpl. rewrite length_alter. apply Hok.
  - rewrite Hhand. apply hands_stay; [|set_solver]. intros c. split.
    + intros (ch & Hc & Hv). apply lookup_open_chans in Hc as [Hc|(i & id & _ & _ & ->)]; [by exists ch|done].
    + intros (ch & Hc & Hv). exists ch. split; [|done]. simpl. by apply lookup_app_l_Some.
  - split; [simpl; by rewrite length_alter|]. apply Forall2_same_length_lookup_2.
    { by rewrite length_seq. }
    intros i c id Hc Hid. apply lookup_seq in Hc as [-> _]. exists Open. simpl.
    rewrite lookup_app_r by lia. rewrite list_lookup_fmap.
    replace (length (chans n) + i - length (chans n)) with i by lia. by rewrite Hid.
  - simpl. by rewrite Hids.
Qed.

Lemma net_ok_pending t task a x op n :
  net_ok n -> actives n !! a = Some x -> settles (pending x) op.1 op.2 -> all_or_none op.2 ->
  hand_of t n = ∅ -> in_hand task = taken_of op.2 ->
  task_ok (set_pending a op n) task -> (forall id, id ∈ task_ids task -> id ∈ ids_of t n) ->
  net_ok (goto t task (set_pending a op n)).
Proof.
  intros Hok Hx Hs Hall Hown Hnew Ht Hids. pose proof (extends_pending n a op) as He.
  eapply net_ok_goto; [done|by eapply set_pending_heap; [..|apply Hok]| |done| | | |done|done].
  - destruct He as [? ? ? Hr]. split; [done|done|done|].
    intros id [?|[]%not_elem_of_nil]%Hr. by left.
  - simpl. rewrite length_alter. apply Hok.
  - simpl. rewrite length_alter. apply Hok.
  - rewrite Hown, Hnew. by eapply hands_pending; [apply Hok|..].
Qed.

(** A task uses one of its senders. *)
Lemma net_ok_use t task x n :
  net_ok n -> notice_channel x ∈ hand_of t n -> is_taken x = false ->
  in_hand task = hand_of t n ∖ {[notice_channel x]} ->
  (forall c r, x = Sent c r -> exists a v, chans n !! c = Some (mkChan a (resp_id r) v)) ->
  task_ok (use_sender x n) task -> (forall id, id ∈ task_ids task -> id ∈ ids_of t n) ->
  net_ok (goto t task (use_sender x n)).
Proof.
  intros Hok Hin Hx Hhand Hsent Ht Hids. pose proof (hands_held _ (net_hands n Hok) _ _ Hin) as Hheld.
  assert (forall c, held (use_sender x n) c <-> held n c /\ c <> notice_channel x) as Hiff.
  { intros c. unfold held, use_sender, apply_notice. simpl. destruct (decide (notice_channel x = c)) as [<-|Hne].
    - rewrite list_lookup_alter_eq. split; [|by intros []]. intros (ch & Hc & Hv).
      destruct (chans n !! _); [|done]. injection Hc as <-. by destruct x.
    - rewrite list_lookup_alter_ne by done. naive_solver. }
  eapply net_ok_goto; [done|by apply use_sender_heap; [apply Hok|..]| |done|apply Hok|apply Hok| |done|done].
  - split; simpl; [done|done| |].
    + intros c [b i v] Hc. unfold apply_notice. destruct (decide (notice_channel x = c)) as [<-|Hne].
      * rewrite list_lookup_alter_eq, Hc. by eexists.
      * rewrite list_lookup_alter_ne by done. by exists v.
    + intros id (c & ch & Hc & <-). left. simpl in Hc. unfold apply_notice in Hc.
      destruct (decide (notice_channel x = c)) as [<-|Hne].
      * rewrite list_lookup_alter_eq in Hc. destruct (chans n !! _) as [ch0|] eqn:E; [|done].
        injection Hc as <-. by exists (notice_channel x), ch0.
      * rewrite list_lookup_alter_ne in Hc by done. by exists c, ch.
  - rewrite Hhand. split.
    + intros c Hc Hno. apply Hiff. split; [done|]. by intros ->.
    + intros c [Hc Hne]%elem_of_difference. split; [|by left]. apply Hiff.
      split; [by eapply (hands_held _ (net_hands n Hok))|set_solver].
    + intros c [Hc Hne]%Hiff. destruct (decide (c ∈ hand_of t n)); [left; set_solver|by right].
Qed.

Lemma net_ok_get_active t r n :
  net_ok n -> ids_of t n = req_ids r -> hand_of t n = ∅ -> request_ok r -> unregistered n r ->
  net_ok (get_active t r n).
Proof.
  intros Hok Hids Hhand Hr Hu. unfold get_active.
  destruct (active (state n)) as [a|] eqn:Ea; [|destruct (dialing (state n)) as [d|]].
  - apply net_ok_move; [done|done| |by rewrite Hids]. split; [by apply Hok|done].
  - apply net_ok_move; [done|done| |by rewrite Hids]. done.
  - eapply net_ok_goto; [done|apply Hok| |done|done| | |done|by rewrite Hids].
    + by split; simpl; eauto; apply (extends_same n n).
    + simpl. intros d dial a [Hl|[_ Hl]]%lookup_app_Some; [by eapply Hok|].
      destruct (d - length (dials n)); simplify_eq/=; done.
    + simpl. rewrite <- Hhand. by apply hands_same.
Qed.

Lemma receivers_ids n r a cs c :
  receivers n r a cs -> c ∈ cs -> exists ch, chans n !! c = Some ch /\ ch_id ch ∈ req_ids r.
Proof.
  intros Hf [i Hi]%list_elem_of_lookup. destruct (Forall2_lookup_l _ _ _ _ _ Hf Hi) as (id & Hid & v & Hv).
  exists (mkChan a id v). split; [done|]. by eapply list_elem_of_lookup_2.
Qed.

Lemma receivers_own n r a cs out :
  net_heap_ok n -> receivers n r a cs -> join_all (chans n) cs = Some (Ok out) ->
  (resp_id <$> out) = req_ids r.
Proof.
  unfold receivers. intros Hh Hf. revert out.
  induction Hf as [|c id cs ids [v Hv] _ IH]; intros out; simpl; [by intros [= <-]|].
  unfold receive. rewrite Hv. simpl.
  destruct v as [| |q|]; try by destruct (join_all _ _) as [[]|].
  destruct (join_all (chans n) cs) as [[rs|]|]; try done. intros [= <-]. csimpl.
  f_equal; [|by apply IH]. by eapply (heap_filled _ _ _ Hh c _ q Hv).
Qed.

Lemma for_each_notices {A} (f : A -> PendingState -> PendingState * list Note) l st x (P : Note -> Prop) :
  (forall y st x, x ∈ (f y st).2 -> P x) -> x ∈ (for_each f l st).2 -> P x.
Proof.
  intros Hf. revert st. induction l as [|y l IH]; intros st; simpl; [intros []%not_elem_of_nil|].
  pose proof (Hf y st x) as Hone. destruct (f y st) as [st1 ns]. specialize (IH st1).
  destruct (for_each f l st1) as [st2 ms]. simpl in *. intros [?|?]%elem_of_app; auto.
Qed.

Lemma drop_sender_reason why o (x : Note) : x ∈ drop_sender why o -> exists c, x = Dropped c why.
Proof. destruct o as [c|]; simpl; [intros ->%list_elem_of_singleton; eauto|intros []%not_elem_of_nil]. Qed.

Lemma unregister_reason ids st (x : Note) :
  x ∈ (unregister ids st).2 -> exists c, x = Dropped c ByCaller.
Proof.
  apply (for_each_notices unregister_one ids st x (fun x => exists c, x = Dropped c ByCaller)).
  intros id st' y. apply drop_sender_reason.
Qed.

Lemma fail_short_reason keys present st (x : Note) :
  x ∈ (fail_short_batches keys present st).2 -> exists c, x = Dropped c ByShortArray.
Proof.
  apply (for_each_notices _ _ st x (fun x => exists c, x = Dropped c ByShortArray)).
  intros key st' y. unfold fail_short_batch. destruct (batches st' !! key); [|intros []%not_elem_of_nil].
  apply (for_each_notices _ _ _ y (fun x => exists c, x = Dropped c ByShortArray)).
  intros id st'' z. apply drop_sender_reason.
Qed.

Lemma drain_reason st (x : Note) : x ∈ (drain st).2 -> exists c, x = Taken c.
Proof. simpl. intros ([id c] & -> & _)%list_elem_of_fmap. eauto. Qed.

Lemma carried_reason (tx : option (nat * Response)) (x : Note) : x ∈ carried tx -> exists c, x = Taken c.
Proof. destruct tx as [[c r]|]; simpl; [intros ->%list_elem_of_singleton; eauto|intros []%not_elem_of_nil]. Qed.

(** Operations that carry nothing out. *)
Lemma dropped_none ns : (forall x : Note, x ∈ ns -> exists c why, x = Dropped c why) ->
  all_or_none ns /\ taken_of ns = ∅.
Proof.
  intros Hd. split.
  - right. intros z Hz. by destruct (Hd z Hz) as (c & why & ->).
  - apply set_eq. intros c. rewrite elem_of_taken. split; [|set_solver].
    intros Hc. by destruct (Hd _ Hc) as (? & ? & ?).
Qed.

Lemma drain_taken st : all_or_none (drain st).2 /\ taken_of (drain st).2 = drained st.
Proof.
  split; [left; intros z Hz; by destruct (drain_reason _ _ Hz) as [c ->]|].
  apply set_eq. intros c. rewrite elem_of_taken. unfold drained. rewrite elem_of_list_to_set. simpl.
  rewrite !list_elem_of_fmap. split; intros ([id c'] & E & Hin); simplify_eq/=; by exists (id, c').
Qed.

Lemma carried_taken (tx : option (nat * Response)) :
  all_or_none (carried tx) /\
  taken_of (carried tx) = match tx with Some (c, _) => {[c]} | None => ∅ end.
Proof.
  split; [left; intros z Hz; by destruct (carried_reason _ _ Hz) as [c ->]|].
  apply set_eq. intros c. rewrite elem_of_taken. destruct tx as [[d r]|]; simpl; [|set_solver].
  rewrite list_elem_of_singleton, elem_of_singleton. split; [by intros [= ->]|by intros ->].
Qed.

Lemma unregister_task_ok t task r a n n' :
  net_ok n -> unregister_task r a n = Some n' -> hand_of t n = ∅ -> in_hand task = ∅ ->
  (extends n n' [] -> task_ok n' task) -> (forall id, id ∈ task_ids task -> id ∈ ids_of t n) ->
  net_ok (goto t task n').
Proof.
  unfold unregister_task. intros Hok Hn Hown Hnew Ht Hids.
  destruct (actives n !! a) as [x|] eqn:Hx; [|done]. injection Hn as <-.
  destruct (dropped_none (unregister (req_ids r) (pending x)).2) as [Hall Hno].
  { intros z Hz. destruct (unregister_reason _ _ _ Hz) as [c ->]. eauto. }
  eapply net_ok_pending; [done|done|apply settles_unregister|done|done|by rewrite Hno
    |apply Ht, extends_pending|done].
Qed.

Lemma net_ok_swap t g after n :
  net_ok n -> hand_of t n = ∅ -> after_ok after ->
  net_ok (goto t (Taking after)
    (mkNet (state n) g (dials n) (actives n) (chans n) (tasks n) (used n))).
Proof.
  intros Hok Hhand Ha. eapply net_ok_goto; [done|apply Hok| |done|apply Hok|apply Hok| |done|].
  - by split; simpl; eauto; apply (extends_same n n).
  - simpl. rewrite <- Hhand. by apply hands_same.
  - intros id []%not_elem_of_nil.
Qed.

Lemma net_ok_state t task f n :
  net_ok n -> hand_of t n = in_hand task -> (forall a, active (f (state n)) = Some a -> a < length (actives n)) ->
  task_ok n task -> (forall id, id ∈ task_ids task -> id ∈ ids_of t n) ->
  net_ok (goto t task (with_state f n)).
Proof.
  intros Hok Hhand Hf Ht Hids. eapply net_ok_goto; [done|apply Hok| |done|done|apply Hok| | |done].
  - by split; simpl; eauto; apply (extends_same n n).
  - rewrite <- Hhand. by apply hands_same.
  - by destruct task.
Qed.

(** The reader's next taking of the lock. *)
Lemma net_ok_route t a g items array n n' :
  net_ok n -> hand_of t n = ∅ -> a < length (actives n) ->
  route_next t a g items array n = Some n' -> net_ok n'.
Proof.
  intros Hok Hhand Ha. unfold route_next. destruct (actives n !! a) as [x|] eqn:Hx; [|done].
  destruct items as [|item items].
  - destruct array as [[keys present]|]; intros [= <-].
    + destruct (dropped_none (fail_short_batches keys present (pending x)).2) as [Hall Hno].
      { intros z Hz. destruct (fail_short_reason _ _ _ _ Hz) as [c ->]. eauto. }
      eapply net_ok_pending; [done|done| |done|done|by rewrite Hno| |intros ? []%not_elem_of_nil].
      * apply settles_fail_short_batches. by eapply heap_tables; [apply Hok|].
      * simpl. by rewrite length_alter.
    + apply net_ok_move; [done|done|done|intros ? []%not_elem_of_nil].
  - pose proof (settles_route_take item (pending x)) as Hs.
    pose proof (route_take_own item (pending x)) as Hown.
    pose proof (route_take_reason item (pending x)) as Hreason.
    destruct (route_take item (pending x)) as [[st tx] reason]. cbn [fst snd] in Hs, Hown, Hreason.
    intros [= <-]. destruct (carried_taken tx) as [Hall Htk].
    eapply net_ok_pending; [done|done|exact Hs|exact Hall|done| | |].
    + simpl. rewrite Htk. destruct reason; [by rewrite (Hreason _ eq_refl)|by destruct tx as [[c r]|]].
    + destruct reason as [reason|]; [done|]. destruct tx as [[c r]|]; simpl; rewrite length_alter; [|done].
      split; [done|]. specialize (Hown c r eq_refl).
      pose proof (heap_senders _ _ _ (net_heap n Hok) a x _ c Hx Hown) as Hch.
      destruct (notices_lookup [Taken c] (chans n) c _ Hch) as [[_ E]|(z & _ & _ & E)]; by eexists.
    + destruct reason; [|destruct tx as [[c r]|]]; intros ? []%not_elem_of_nil.
Qed.

Lemma net_ok_advance t n n' : net_ok n -> advance t n = Some n' -> net_ok n'.
Proof.
  intros Hok. unfold advance. destruct (tasks n !! t) as [task|] eqn:Ht; [|done].
  pose proof (net_tasks n Hok t task Ht) as Htask. pose proof (ids_of_task t n task Ht) as Hids.
  assert (hand_of t n = in_hand task) as Hhand by (unfold hand_of; by rewrite Ht).
  assert (forall after, after_ok after -> task_ok n (Finished after)) as Hfin by done.
  destruct task as [r|r d|r a|r a g|r a g cs|r a g cs|r a g cs|r g cs|after|g after|after|a after
    |cs after|a g|a g its|a g its arr|a g c q its arr|after]; simpl in Htask, Hids, Hhand.
  - destruct Htask as (Hone & Hnd & Hu). destruct (req_batch r && _) eqn:E.
    + intros [= <-]. apply andb_true_iff in E as [_ E%bool_decide_eq_true].
      apply net_ok_move; [done|done|by simpl; rewrite E|intros ? []%not_elem_of_nil].
    + intros [= <-]. apply net_ok_get_active; [done|done|done| |done]. split; [done|]. split; [done|].
      intros Hnil. rewrite Hnil in *. destruct (req_batch r); [done|by specialize (Hone eq_refl)].
  - destruct Htask as [Hr Hu]. destruct (dials n !! d) as [dial|] eqn:Hd; [|done].
    destruct (dial_result dial) as [[a|e]|] eqn:Hres; [| |done]; intros [= <-].
    + assert (a < length (actives n)) by by eapply net_dials.
      apply net_ok_state; [done|done|by simpl; intros ? [= <-]|done|by rewrite Hids].
    + apply net_ok_state; [done|done|apply Hok|done|intros ? []%not_elem_of_nil].
  - destruct Htask as (Ha & Hr & Hu). destruct (req_batch r).
    + intros [= <-]. apply net_ok_move; [done|done|done|by rewrite Hids].
    + by eapply net_ok_register.
  - destruct Htask as (Ha & Hr & Hu). by eapply net_ok_register.
  - destruct (actives n !! a) as [x|]; [|done]. destruct (writer_alive x).
    + intros [= <-]. apply net_ok_move; [done|done|done|by rewrite Hids].
    + destruct (unregister_task r a n) as [m|] eqn:Hm; [|done]. intros [= <-].
      eapply unregister_task_ok; [done|done|done|done|done|intros ? []%not_elem_of_nil].
  - destruct (join_all (chans n) cs) as [[out|[]]|] eqn:Hj; [| |done].
    + intros [= <-]. apply net_ok_move; [done|done| |intros ? []%not_elem_of_nil].
      eapply receivers_own; [apply Hok|apply Htask|done].
    + destruct g; intros [= <-]; apply net_ok_move; try done; simpl.
      * by rewrite Hids.
      * intros ? []%not_elem_of_nil.
  - destruct (unregister_task r a n) as [m|] eqn:Hm; [|done]. intros [= <-].
    eapply unregister_task_ok; [done|done|done|done| |by rewrite Hids]. intros He.
    intros c Hin. eapply receivers_ids; [|done].
    eapply (task_ok_mono n m [] (Failing r a g cs)); [done|intros; apply not_elem_of_nil|done].
  - intros [= <-]. apply net_ok_move; [done|done|done|intros ? []%not_elem_of_nil].
  - intros [= <-]. apply net_ok_move; [done|done|done|intros ? []%not_elem_of_nil].
  - destruct (generation n =? g)%N; intros [= <-].
    + by apply net_ok_swap.
    + apply net_ok_move; [done|done|done|intros ? []%not_elem_of_nil].
  - destruct (active (state n)) as [a|] eqn:Ea; intros [= <-].
    + apply net_ok_state; [done|done|done| |intros ? []%not_elem_of_nil].
      split; [by apply (net_active n Hok)|done].
    + apply net_ok_move; [done|done|done|intros ? []%not_elem_of_nil].
  - destruct (actives n !! a) as [x|] eqn:Hx; [|done]. intros [= <-].
    destruct (drain_taken (pending x)) as [Hall Htk].
    eapply net_ok_pending; [done|done|apply settles_drain|done|done|by rewrite Htk
      |apply Htask|intros ? []%not_elem_of_nil].
  - destruct (decide (cs = ∅)) as [->|]; [|done]. intros [= <-].
    apply net_ok_move; [done|done|done|intros ? []%not_elem_of_nil].
  - done.
  - destruct (actives n !! a) as [x|]; [|done]. intros [= <-].
    apply net_ok_move; [done|done|done|intros ? []%not_elem_of_nil].
  - by apply net_ok_route.
  - intros [= <-]. destruct Htask as (Ha & v & Hv). apply net_ok_use; [done|rewrite Hhand; set_solver|done| | | |].
    + rewrite Hhand. simpl. set_solver.
    + intros c' r' [= <- <-]. by exists a, v.
    + done.
    + intros ? []%not_elem_of_nil.
  - done.
Qed.

Lemma fresh_request_spec n r :
  fresh_request n r = true ->
  NoDup (req_ids r) /\ (forall id, id ∈ req_ids r -> id ∉ used n) /\
  (req_batch r = false -> length (req_ids r) = 1).
Proof.
  unfold fresh_request. intros [[Hnd Hf]%andb_true_iff Hb]%andb_true_iff.
  apply bool_decide_eq_true in Hnd. split; [done|]. split.
  - rewrite forallb_forall in Hf. intros id Hid. apply list_elem_of_In in Hid.
    by apply Hf, bool_decide_eq_true in Hid.
  - intros Hne. rewrite Hne in Hb. by apply bool_decide_eq_true in Hb.
Qed.

Lemma net_ok_call t r n n' : net_ok n -> ws_step n (EvCall t r) = Some n' -> net_ok n'.
Proof.
  intros Hok. simpl. destruct (tasks n !! t) as [|] eqn:Ht; [done|].
  destruct (fresh_request n r) eqn:Hf; [|done]. intros [= <-].
  apply fresh_request_spec in Hf as (Hnd & Hnew & Hone).
  set (n' := mkNet (state n) _ _ _ _ _ _).
  assert (ids_of t n = []) as Hnone by (unfold ids_of; by rewrite Ht).
  assert (forall u id, id ∈ ids_of u n' -> id ∈ ids_of u n \/ u = t /\ id ∈ req_ids r) as Hids.
  { intros u id. unfold ids_of, n'. simpl. destruct (decide (u = t)) as [->|Hne].
    - rewrite lookup_insert_eq. by right.
    - rewrite lookup_insert_ne by done. by left. }
  assert (hands_ok n') as Hhands.
  { apply (hands_ok_step t n); [apply Hok| |].
    - intros u Hu. unfold hand_of, n'. simpl. by rewrite lookup_insert_ne.
    - assert (hand_of t n' = ∅) as -> by (unfold hand_of, n'; simpl; by rewrite lookup_insert_eq).
      assert (hand_of t n = ∅) as -> by (unfold hand_of; by rewrite Ht).
      apply hands_stay; [done|set_solver]. }
  destruct Hok as [Hh _ Hts Hdis Hus Ha Hd]. split; [|done|..].
  - destruct Hh. split; simpl; [done|done|done| |done|done]. intros c ch Hc.
    apply elem_of_union. right. eauto.
  - simpl. intros u task [[<- <-]|[Hne Hu]]%lookup_insert_Some.
    + split; [done|]. split; [done|]. split; [simpl; set_solver|]. simpl.
      intros id Hid (c & ch & Hc & <-). eapply Hnew; [done|]. by eapply heap_used.
    + eapply (task_ok_mono n n' []); [|intros; apply not_elem_of_nil|by eapply Hts].
      destruct (extends_same n n) as [? ? ? Hr]; [done..|]. split; [simpl; set_solver|done|done|done].
  - intros u v id Huv [Hu|[-> Hu]]%Hids [Hv|[-> Hv]]%Hids; [by eapply Hdis| | |done].
    + apply Hus in Hu. by apply (Hnew id) in Hv.
    + apply Hus in Hv. by apply (Hnew id) in Hu.
  - intros u id [Hu|[-> Hu]]%Hids; simpl; apply elem_of_union; [right; eauto|left].
    by apply elem_of_list_to_set.
  - done.
  - done.
Qed.

Lemma net_ok_dialed d t connected n n' :
  net_ok n -> dialed d t connected n = Some n' -> net_ok n'.
Proof.
  intros Hok. unfold dialed. destruct (dials n !! d) as [dial|] eqn:Hdl; [|done].
  destruct (dial_result dial) eqn:Hres; [done|]. destruct (tasks n !! t) eqn:Ht; [done|].
  assert (hand_of t n = ∅) as Hhand by (unfold hand_of; by rewrite Ht).
  assert (forall r d' dial' a, <[d := mkDial (dial_backoff dial) (Some r)]> (dials n) !! d' = Some dial' ->
    dial_result dial' = Some (Ok a) -> r = Ok a \/ a < length (actives n)) as Hdls.
  { intros r d' dial' a Hd' Ha. apply list_lookup_insert_Some in Hd' as [(<- & <- & _)|[_ Hd']].
    - left. simpl in Ha. congruence.
    - right. by eapply net_dials. }
  destruct connected as [[]|e]; intros [= <-].
  - set (n' := mkNet _ _ _ (actives n ++ _) _ _ _).
    assert (forall b y, actives n' !! b = Some y -> actives n !! b = Some y \/
      y = mkActive PendingState_default true) as Hact.
    { simpl. intros b y [Hb|[_ Hb]]%lookup_app_Some; [by left|].
      destruct (b - length (actives n)); simplify_eq/=. by right. }
    assert (forall b y, actives n !! b = Some y -> actives n' !! b = Some y) as Hold.
    { intros b y Hb. simpl. by apply lookup_app_l_Some. }
    eapply (net_ok_step t n); [done| | | | | | |].
    + destruct (net_heap n Hok) as [H1' H2' H3' H4' H5' H6']. split; simpl.
      * intros b y [Hb| ->]%Hact; [eauto|]. split; simpl; intros *; rewrite ?lookup_empty; try done.
      * intros b y k [Hb| ->]%Hact; [eauto|]. simpl. set_solver.
      * intros b y id c [Hb| ->]%Hact; [eauto|]. by simpl; rewrite lookup_empty.
      * done.
      * intros c ch Hc. destruct (H5' c ch Hc) as (x & Hx & ?). exists x. split; [|done]. by apply Hold.
      * done.
    + destruct (extends_same n n) as [? ? ? Hr]; [done..|]. split; simpl; [done|rewrite length_app; lia|done|].
      intros id Hid. by left.
    + intros u Hu. unfold hand_of, n'. simpl. by rewrite lookup_insert_ne.
    + assert (hand_of t n' = ∅) as -> by (unfold hand_of, n'; simpl; by rewrite lookup_insert_eq).
      rewrite Hhand. apply hands_stay; [done|set_solver].
    + simpl. intros u task [[<- <-]|[? ?]]%lookup_insert_Some; [right|by left].
      split; [done|]. split; [simpl; rewrite length_app; simpl; lia|]. intros id []%not_elem_of_nil.
    + simpl. intros a Ha. rewrite length_app. apply (net_active n Hok) in Ha. lia.
    + simpl. intros d' dial' a Hd' Ha. rewrite length_app. simpl.
      destruct (Hdls _ _ _ _ Hd' Ha) as [[= <-]|?]; lia.
  - eapply (net_ok_step t n); [done|apply Hok| |done| | |apply Hok|].
    + destruct (extends_same n n) as [? ? ? Hr]; [done..|]. split; simpl; [done|done|done|].
      intros id Hid. by left.
    + apply hands_stay; [done|apply Hok].
    + simpl. intros u task Hu. left. split; [done|]. intros ->. congruence.
    + simpl. intros d' dial' a Hd' Ha. by destruct (Hdls _ _ _ _ Hd' Ha).
Qed.

Lemma net_ok_frame t next n n' : net_ok n -> read_frame t next n = Some n' -> net_ok n'.
Proof.
  intros Hok. unfold read_frame. destruct (tasks n !! t) as [task|] eqn:Ht; [|done].
  destruct task as [| | | | | | | | | | | | |a g| | | |]; try done.
  pose proof (net_tasks n Hok t _ Ht) as Ha. simpl in Ha.
  assert (hand_of t n = ∅) as Hhand by (unfold hand_of; by rewrite Ht).
  intros [= <-]. destruct (reader_turn next); try done;
    (apply net_ok_move; [done|done|done|intros ? []%not_elem_of_nil]).
Qed.

Lemma net_ok_drop t c n n' : net_ok n -> drop_drained t c n = Some n' -> net_ok n'.
Proof.
  intros Hok. unfold drop_drained. destruct (tasks n !! t) as [task|] eqn:Ht; [|done].
  destruct task as [| | | | | | | | | | | |cs after| | | | |]; try done.
  pose proof (net_tasks n Hok t _ Ht) as Ha. simpl in Ha.
  assert (hand_of t n = cs) as Hhand by (unfold hand_of; by rewrite Ht).
  destruct (decide (c ∈ cs)); [|done]. intros [= <-].
  apply net_ok_use; [done|by rewrite Hhand|done|by rewrite Hhand|done|done|intros ? []%not_elem_of_nil].
Qed.

Lemma net_ok_other n e n' :
  net_ok n -> ws_step n e = Some n' ->
  match e with EvDeadline _ | EvWriterGone _ | EvCancel _ => True | _ => False end -> net_ok n'.
Proof.
  intros Hok He Hk. destruct e as [| | | | |t|a|t]; try done; simpl in He.
  - unfold deadline in He. destruct (tasks n !! t) as [[]|] eqn:Ht; try done.
    destruct (effective_timeout _); [|done]. destruct (join_all _ _) as [[|]|]; [done| |];
      injection He as <-; (apply net_ok_move; [done|unfold hand_of; by rewrite Ht|done|intros ? []%not_elem_of_nil]).
  - destruct (actives n !! a) as [x|] eqn:Hx; [|done]. injection He as <-.
    assert (pending <$> <[a := mkActive (pending x) false]> (actives n) = pending <$> actives n)
      as Hp by (rewrite list_fmap_insert; apply list_insert_id; by rewrite list_lookup_fmap, Hx).
    eapply (net_ok_step 0 n); [done|by eapply heap_ok_ext, Hok| |done|apply hands_stay; [done|apply Hok]| | |].
    + destruct (extends_same n n) as [? ? ? Hr]; [done..|]. split; simpl; [done| |done|].
      * by rewrite length_insert.
      * intros id Hid. by left.
    + simpl. intros u task Hu. destruct (decide (u = 0)) as [->|]; [right|by left].
      split; [done|]. split; [|unfold ids_of; by rewrite Hu].
      eapply (task_ok_mono n _ []); [|intros; apply not_elem_of_nil|by eapply net_tasks].
      destruct (extends_same n n) as [? ? ? Hr]; [done..|]. split; simpl; [done| |done|done].
      by rewrite length_insert.
    + simpl. rewrite length_insert. apply Hok.
    + simpl. rewrite length_insert. apply Hok.
  - unfold cancel in He. destruct (tasks n !! t) as [task|] eqn:Ht; [|done].
    assert (n' = mkNet (state n) (generation n) (dials n) (actives n) (chans n)
                   (delete t (tasks n)) (used n) /\ in_hand task = ∅) as [-> Hhand].
    { destruct task as [| | | | | | | | | |[|]| | | | | | |]; by simplify_eq. }
    eapply (net_ok_step t n); [done|apply Hok| | | | |apply Hok|apply Hok];
      [|intros u Hu; unfold hand_of; simpl; by rewrite lookup_delete_ne| |].
    2:{ assert (hand_of t n = ∅) as -> by (unfold hand_of; by rewrite Ht).
        unfold hand_of at 1. simpl. rewrite lookup_delete_eq. apply hands_stay; [done|set_solver]. }
    + destruct (extends_same n n) as [? ? ? Hr]; [done..|]. split; simpl; [done|done|done|].
      intros id Hid. by left.
    + simpl. intros u task' [? ?]%lookup_delete_Some. by left.
Qed.

(** The machine keeps it all. *)
Lemma net_ok_ws_step n e n' : net_ok n -> ws_step n e = Some n' -> net_ok n'.
Proof.
  intros Hok He. destruct e.
  - by eapply net_ok_call.
  - by eapply net_ok_advance.
  - by eapply net_ok_dialed.
  - by eapply net_ok_frame.
  - by eapply net_ok_drop.
  - by eapply net_ok_other.
  - by eapply net_ok_other.
  - by eapply net_ok_other.
Qed.

Lemma net_ok_run n es n' : net_ok n -> ws_run n es = Some n' -> net_ok n'.
Proof.
  revert n. induction es as [|e es IH]; intros n Hok; simpl; [by intros [= <-]|].
  destruct (ws_step n e) as [m|] eqn:He; [|done]. apply IH. by eapply net_ok_ws_step.
Qed.

(** ** A settled channel stays as it is *)

Definition settled (v : ChanValue) : Prop :=
  match v with Filled _ | Closed _ => True | Open | InHand => False end.

Lemma set_pending_settled a x op n c ch :
  net_heap_ok n -> actives n !! a = Some x -> settles (pending x) op.1 op.2 ->
  chans n !! c = Some ch -> settled (ch_value ch) -> chans (set_pending a op n) !! c = Some ch.
Proof.
  intros Hh Hx Hs Hc Hv. simpl. destruct (notices_lookup op.2 _ c ch Hc) as [[_ ?]|(z & Hz & Hzc & _)]; [done|].
  destruct (settles_noticed _ _ _ Hs z Hz) as (id & Hid & _). rewrite Hzc in Hid.
  pose proof (heap_senders _ _ _ Hh a x id c Hx Hid) as E. rewrite Hc in E. injection E as ->. destruct Hv.
Qed.

Lemma use_sender_settled x n c ch :
  held n (notice_channel x) -> chans n !! c = Some ch -> settled (ch_value ch) ->
  chans (use_sender x n) !! c = Some ch.
Proof.
  intros (h & Hh & Hhv) Hc Hv. simpl. unfold apply_notice.
  rewrite list_lookup_alter_ne; [done|]. intros E. rewrite E, Hc in Hh. injection Hh as ->. by rewrite Hhv in Hv.
Qed.

Lemma unregister_task_settled r a n m c ch :
  net_ok n -> unregister_task r a n = Some m -> chans n !! c = Some ch -> settled (ch_value ch) ->
  chans m !! c = Some ch.
Proof.
  intros Hok. unfold unregister_task. destruct (actives n !! a) as [x|] eqn:Hx; [|done]. intros [= <-].
  apply (set_pending_settled a x); [apply Hok|done|apply settles_unregister].
Qed.

Lemma register_task_settled t r a g n n' c ch :
  net_ok n -> request_ok r -> unregistered n r -> register_task t r a g n = Some n' ->
  chans n !! c = Some ch -> chans n' !! c = Some ch.
Proof.
  intros Hok Hr [Hus Hreg]. unfold register_task. destruct (actives n !! a) as [x|] eqn:Hx; [|done].
  destruct (register_heap r a x n Hx Hr Hus Hreg (net_heap n Hok)) as (st' & -> & _).
  intros [= <-] Hc. simpl. by apply lookup_app_l_Some.
Qed.

Lemma advance_settled t n n' c ch :
  net_ok n -> advance t n = Some n' -> chans n !! c = Some ch -> settled (ch_value ch) ->
  chans n' !! c = Some ch.
Proof.
  intros Hok Ha Hc Hv. unfold advance in Ha. destruct (tasks n !! t) as [task|] eqn:Ht; [|done].
  pose proof (net_tasks n Hok t task Ht) as Htask. pose proof (net_heap n Hok) as Hh.
  destruct task as [r|r d|r a|r a g|r a g cs|r a g cs|r a g cs|r g cs|after|g after|after|a after
    |cs after|a g|a g its|a g its arr|a g d q its arr|after]; simpl in Htask.
  - unfold get_active in Ha. repeat case_match; by simplify_eq.
  - repeat case_match; by simplify_eq.
  - destruct (req_batch r); [by simplify_eq|]. destruct Htask as (_ & ? & ?). by eapply register_task_settled.
  - destruct Htask as (_ & ? & ?). by eapply register_task_settled.
  - destruct (actives n !! a); [|done]. destruct (writer_alive _); [by simplify_eq|].
    destruct (unregister_task r a n) as [m|] eqn:Hm; [|done]. injection Ha as <-. simpl. by eapply unregister_task_settled.
  - repeat case_match; by simplify_eq.
  - destruct (unregister_task r a n) as [m|] eqn:Hm; [|done]. injection Ha as <-. simpl. by eapply unregister_task_settled.
  - by simplify_eq.
  - by simplify_eq.
  - case_match; by simplify_eq.
  - case_match; by simplify_eq.
  - destruct (actives n !! a) as [x|] eqn:Hx; [|done]. injection Ha as <-.
    by apply (set_pending_settled a x); [..|apply settles_drain| |].
  - case_match; by simplify_eq.
  - done.
  - destruct (actives n !! a); [|done]. by simplify_eq.
  - unfold route_next in Ha. destruct (actives n !! a) as [x|] eqn:Hx; [|done].
    destruct its as [|item its]; [destruct arr as [[keys present]|]|].
    + injection Ha as <-. apply (set_pending_settled a x); [done|done| |done|done].
      apply settles_fail_short_batches. by eapply heap_tables.
    + by simplify_eq.
    + pose proof (settles_route_take item (pending x)) as Hs.
      destruct (route_take item (pending x)) as [[st tx] reason]. injection Ha as <-.
      by apply (set_pending_settled a x).
  - injection Ha as <-. apply use_sender_settled; [|done|done].
    apply (hands_held _ (net_hands n Hok) t). unfold hand_of. rewrite Ht. simpl. set_solver.
  - done.
Qed.

Lemma ws_step_settled n e n' c ch :
  net_ok n -> ws_step n e = Some n' -> chans n !! c = Some ch -> settled (ch_value ch) ->
  chans n' !! c = Some ch.
Proof.
  intros Hok He Hc Hv. destruct e as [t r|t|d t connected|t next|t d|t|a|t]; simpl in He.
  - by repeat case_match; simplify_eq.
  - by eapply advance_settled.
  - unfold dialed in He. by repeat case_match; simplify_eq.
  - unfold read_frame in He. by repeat case_match; simplify_eq.
  - unfold drop_drained in He. destruct (tasks n !! t) as [task|] eqn:Ht; [|done].
    destruct task as [| | | | | | | | | | | |cs after| | | | |]; try done.
    destruct (decide (d ∈ cs)); [|done]. injection He as <-. apply use_sender_settled; [|done|done].
    apply (hands_held _ (net_hands n Hok) t). unfold hand_of. by rewrite Ht.
  - unfold deadline in He. by repeat case_match; simplify_eq.
  - by repeat case_match; simplify_eq.
  - unfold cancel in He. by repeat case_match; simplify_eq.
Qed.

(** Who holds a sender can use it. *)
Lemma hand_can_use n t c :
  net_ok n -> c ∈ hand_of t n ->
  exists e n' ch, ws_step n e = Some n' /\ chans n' !! c = Some ch /\ settled (ch_value ch).
Proof.
  intros Hok Hc. destruct (hands_held _ (net_hands n Hok) t c Hc) as (ch & Hch & _).
  unfold hand_of in Hc. destruct (tasks n !! t) as [task|] eqn:Ht; [|set_solver].
  destruct task as [| | | | | | | | | | | |cs after| | | |a g d q its arr|]; simpl in Hc; try set_solver.
  - exists (EvDrop t c). simpl. unfold drop_drained. rewrite Ht, decide_True by done.
    eexists _, (noticed (Dropped c ByReset) ch). split; [done|]. split; [|done]. simpl. unfold apply_notice.
    rewrite list_lookup_alter_eq. simpl. by rewrite Hch.
  - apply elem_of_singleton in Hc as ->. exists (EvAdvance t). simpl. unfold advance. rewrite Ht.
    eexists _, (noticed (Sent d q) ch). split; [done|]. split; [|done]. simpl. unfold apply_notice.
    rewrite list_lookup_alter_eq. simpl. by rewrite Hch.
Qed.

(** ** What the transport promises *)

(** C22: in every reachable state of a connection, whatever the interleaving of
    calls, dials, resets, deadlines and cancellations with the readers, whose
    array frames take the table's lock item by item: the tables are
    consistent; a channel is open exactly while its sender sits in the table
    of its connection under its id or is in the hands of one task that took it
    out, which can use it at once; and what is settled stays so. So no sender is
    lost, taken out with nobody to use it, and no waiter is settled twice. *)
Theorem waiters_accounted es n :
  ws_run Net_new es = Some n ->
  (forall a x, actives n !! a = Some x -> index_ok (pending x)) /\
  (forall c a id v, chans n !! c = Some (mkChan a id v) ->
     (v = Open <-> exists x, actives n !! a = Some x /\ responders (pending x) !! id = Some c) /\
     (v = InHand <-> exists t, c ∈ hand_of t n)) /\
  (forall a x id c, actives n !! a = Some x -> responders (pending x) !! id = Some c ->
     chans n !! c = Some (mkChan a id Open)) /\
  (forall t c, c ∈ hand_of t n ->
     (forall u, c ∈ hand_of u n -> u = t) /\
     exists e n' ch, ws_step n e = Some n' /\ chans n' !! c = Some ch /\ settled (ch_value ch)) /\
  (forall e n' c ch, ws_step n e = Some n' -> chans n !! c = Some ch -> settled (ch_value ch) ->
     chans n' !! c = Some ch).
Proof.
  intros Hr. pose proof (net_ok_run _ _ _ Net_new_ok Hr) as Hok.
  pose proof (net_heap n Hok) as Hh. pose proof (net_hands n Hok) as Hhs.
  split_and!; [by eapply heap_tables| |by eapply heap_senders| |].
  - intros c a id v Hc. split; split.
    + intros ->. destruct (heap_open _ _ _ Hh c _ Hc) as (x & Hx & Hop). exists x.
      split; [done|]. by apply Hop.
    + intros (x & Hx & Hid). pose proof (heap_senders _ _ _ Hh a x id c Hx Hid). congruence.
    + intros ->. apply (hands_all n Hhs). by eexists.
    + intros (t & Ht). destruct (hands_held n Hhs t c Ht) as (ch & Hch & Hv). rewrite Hc in Hch.
      by injection Hch as <-.
  - intros t c Hc. split; [|by eapply hand_can_use]. intros u Hu. by eapply (hands_apart n Hhs).
  - intros e n' c ch He. by eapply ws_step_settled.
Qed.

(** C28: a call that succeeds returns one response per request, each with the
    id of its request, in the order of the requests. *)
Theorem answers_are_own es n t r out :
  ws_run Net_new es = Some n -> tasks n !! t = Some (Finished (Some (r, Ok out))) ->
  (resp_id <$> out) = req_ids r.
Proof. intros Hr Ht. exact (net_tasks n (net_ok_run _ _ _ Net_new_ok Hr) t _ Ht). Qed.

Lemma join_settled chs cs :
  Forall (fun c => is_Some (receive chs c)) cs -> is_Some (join_all chs cs).
Proof.
  induction 1 as [|c cs [r Hr] _ [rs IH]]; simpl; [by eexists|].
  rewrite Hr, IH. destruct r, rs; by eexists.
Qed.

Lemma drain_empties n a x c ch :
  net_heap_ok n -> actives n !! a = Some x ->
  chans (set_pending a (drain (pending x)) n) !! c = Some ch -> ch_active ch = a ->
  ch_value ch <> Open.
Proof.
  intros Hh Hx Hc Ha Hopen.
  pose proof (set_pending_heap a x (drain (pending x)) n Hx (settles_drain (pending x)) Hh) as Hh'.
  destruct (heap_open _ _ _ Hh' c ch Hc) as (y & Hy & Hop). specialize (Hop Hopen).
  rewrite Ha in Hy. simpl in Hy. rewrite list_lookup_alter_eq, Hx in Hy. injection Hy as <-.
  simpl in Hop. by rewrite lookup_empty in Hop.
Qed.

(** Once a reset has drained a connection, no sender is left in its table, and
    what is still open is in the hands of a task that can settle it; a call
    whose channels are settled can go on. *)
Theorem reset_releases es n t a after n' :
  ws_run Net_new es = Some n -> tasks n !! t = Some (Draining a after) -> advance t n = Some n' ->
  (forall c ch, chans n' !! c = Some ch -> ch_active ch = a -> ch_value ch <> Open) /\
  (forall c ch, chans n' !! c = Some ch -> ch_active ch = a -> ~ settled (ch_value ch) ->
     exists e n'' ch', ws_step n' e = Some n'' /\ chans n'' !! c = Some ch' /\ settled (ch_value ch')) /\
  (forall u r g cs, tasks n' !! u = Some (Waiting r a g cs) ->
     (forall c ch, c ∈ cs -> chans n' !! c = Some ch -> settled (ch_value ch)) -> is_Some (advance u n')).
Proof.
  intros Hr Ht Ha. pose proof (net_ok_run _ _ _ Net_new_ok Hr) as Hok.
  pose proof (net_ok_advance _ _ _ Hok Ha) as Hok'.
  assert (forall c ch, chans n' !! c = Some ch -> ch_active ch = a -> ch_value ch <> Open) as Hset.
  { unfold advance in Ha. rewrite Ht in Ha. destruct (actives n !! a) as [x|] eqn:Hx; [|done].
    injection Ha as <-. intros c ch Hc Hch. eapply drain_empties; [apply Hok|exact Hx|exact Hc|exact Hch]. }
  split; [exact Hset|]. split.
  - intros c ch Hc Hch Hns. assert (held n' c) as [u Hu]%(hands_all _ (net_hands n' Hok')).
    { exists ch. split; [done|]. specialize (Hset c ch Hc Hch). by destruct (ch_value ch); simpl in *. }
    by eapply hand_can_use.
  - intros u r g cs Hu Hall. destruct (net_tasks _ Hok' u _ Hu) as [_ Hrec]. unfold advance. rewrite Hu.
    destruct (join_settled (chans n') cs) as [joined Hj].
    { apply Forall_lookup_2. intros i c Hi. destruct (Forall2_lookup_l _ _ _ _ _ Hrec Hi) as (id & _ & v & Hv).
      pose proof (Hall c _ (list_elem_of_lookup_2 _ _ _ Hi) Hv) as Hst.
      unfold receive. rewrite Hv. simpl. destruct v; [done|done|by eexists|by eexists]. }
    rewrite Hj. destruct joined, g; by eexists.
Qed.

(** ** An array that is not interrupted *)

Lemma alter_twice {A} (f g h : A -> A) i (l : list A) :
  (forall x, f (g x) = h x) -> alter f i (alter g i l) = alter h i l.
Proof.
  intros Hf. apply list_eq. intros j. destruct (decide (i = j)) as [->|Hne].
  - rewrite !list_lookup_alter_eq. destruct (l !! j); simpl; [by rewrite Hf|done].
  - by rewrite !list_lookup_alter_ne.
Qed.

Lemma set_pending_twice a op1 op2 n :
  set_pending a op2 (set_pending a op1 n) = set_pending a (op2.1, op1.2 ++ op2.2) n.
Proof. unfold set_pending. simpl. f_equal; [by apply alter_twice|by rewrite foldl_app]. Qed.

Lemma use_carried a st c r n :
  use_sender (Sent c r) (set_pending a (st, [Taken c]) n) = set_pending a (st, [Sent c r]) n.
Proof. unfold use_sender, set_pending, apply_notice. simpl. f_equal. by apply alter_twice. Qed.

Lemma goto_twice t task1 task2 n : goto t task2 (goto t task1 n) = goto t task2 n.
Proof. unfold goto. simpl. f_equal. apply insert_insert_eq. Qed.

Lemma set_pending_none a x n : actives n !! a = Some x -> set_pending a (pending x, []) n = n.
Proof.
  intros Hx. unfold set_pending. destruct n as [st g ds acts chs ts us]. simpl in *. f_equal.
  apply list_eq. intros j. destruct (decide (a = j)) as [<-|Hne].
  - rewrite list_lookup_alter_eq, Hx. by destruct x.
  - by rewrite list_lookup_alter_ne.
Qed.

Definition keep_going (t k : nat) : list WsEvent := replicate k (EvAdvance t).

Lemma ws_run_app n es es' : ws_run n (es ++ es') = let! m := ws_run n es in ws_run m es'.
Proof. revert n. induction es as [|e es IH]; intros n; simpl; [done|]. by destruct (ws_step n e). Qed.

Lemma keep_going_on t n m n' k k' :
  ws_run n (keep_going t k) = Some m -> ws_run m (keep_going t k') = Some n' ->
  ws_run n (keep_going t (k + k')) = Some n'.
Proof. intros Hk Hk'. unfold keep_going in *. by rewrite replicate_add, ws_run_app, Hk. Qed.

(** One item: its lock and, if somebody waits for it, its send. *)
Lemma item_uninterrupted t a g item items array x n :
  actives n !! a = Some x -> tasks n !! t = Some (Routing a g (item :: items) array) ->
  let r := route_one item (pending x) in
  exists k, ws_run n (keep_going t k) =
    Some (goto t (match r.2 with Some _ => Swapping g None | None => Routing a g items array end)
            (set_pending a r.1 n)).
Proof.
  intros Hx Ht. cbv zeta. unfold route_one.
  assert (ws_step n (EvAdvance t) = route_next t a g (item :: items) array n) as Hs
    by (simpl; unfold advance; by rewrite Ht).
  unfold route_next in Hs. rewrite Hx in Hs. pose proof (route_take_reason item (pending x)) as Hreason.
  destruct (route_take item (pending x)) as [[st tx] reason]. cbn [fst snd] in *.
  destruct reason as [reason|]; [|destruct tx as [[c r]|]].
  - specialize (Hreason _ eq_refl). subst tx. exists 1. cbn [keep_going replicate ws_run]. by rewrite Hs.
  - exists 2. cbn [keep_going replicate ws_run]. rewrite Hs. cbn [ws_step]. unfold advance at 1.
    cbn [tasks goto]. rewrite lookup_insert_eq. f_equal.
    rewrite <- (use_carried a st c r n).
    exact (goto_twice t (Sending a g c r items array) (Routing a g items array) (use_sender (Sent c r) (set_pending a (st, [Taken c]) n))).
  - exists 1. cbn [keep_going replicate ws_run]. by rewrite Hs.
Qed.

Lemma items_uninterrupted t a g items array : forall x n,
  actives n !! a = Some x -> tasks n !! t = Some (Routing a g items array) ->
  let r := route_items items (pending x) in
  exists k, ws_run n (keep_going t k) =
    Some (goto t (match r.2 with Some _ => Swapping g None | None => Routing a g [] array end)
            (set_pending a r.1 n)).
Proof.
  induction items as [|item items IH]; intros x n Hx Ht; cbv zeta.
  - exists 0. simpl. rewrite (set_pending_none a x n Hx). unfold goto. rewrite insert_id by done. by destruct n.
  - cbn [route_items]. destruct (item_uninterrupted t a g item items array x n Hx Ht) as [k Hk].
    destruct (route_one item (pending x)) as [[st ns] reason]. cbn [fst snd] in Hk.
    destruct reason as [reason|]; [by exists k|].
    set (m := goto t (Routing a g items array) (set_pending a (st, ns) n)) in *.
    destruct (IH (mkActive st (writer_alive x)) m) as [k' Hk'].
    { simpl. by rewrite list_lookup_alter_eq, Hx. }
    { simpl. apply lookup_insert_eq. }
    cbn [pending] in Hk'. destruct (route_items items st) as [[st2 ms] reason]. cbn [fst snd] in *.
    exists (k + k'). rewrite (keep_going_on _ _ _ _ _ _ Hk Hk'). f_equal. unfold m.
    pose proof (set_pending_twice a (st, ns) (st2, ms) n) as E. cbn [fst snd] in E. rewrite <- E.
    set (n2 := set_pending a (st, ns) n). clearbody n2.
    destruct reason; exact (goto_twice t (Routing a g items array) _ (set_pending a (st2, ms) n2)).
Qed.

(** Without another task in between, the reader does to the table and to the
    waiters what [route_array] says. *)
Theorem array_uninterrupted t a g items x n :
  actives n !! a = Some x -> tasks n !! t = Some (Grouping a g items) ->
  let r := route_array items (pending x) in
  exists k, ws_run n (keep_going t k) =
    Some (goto t (match r.2 with Some _ => Swapping g None | None => Reading a g end) (set_pending a r.1 n)).
Proof.
  intros Hx Ht. cbv zeta. unfold route_array.
  set (present := present_ids items). set (keys := owning_batches present (pending x)).
  set (m := goto t (Routing a g items (Some (keys, present))) n).
  assert (ws_run n (keep_going t 1) = Some m) as H1.
  { simpl. unfold advance. by rewrite Ht, Hx. }
  destruct (items_uninterrupted t a g items (Some (keys, present)) x m Hx (lookup_insert_eq _ _ _)) as [k Hk].
  destruct (route_items items (pending x)) as [[st ns] reason]. cbn [fst snd] in Hk.
  destruct reason as [reason|]; cbn [fst snd].
  - exists (1 + k). rewrite (keep_going_on _ _ _ _ _ _ H1 Hk). f_equal.
    exact (goto_twice t (Routing a g items (Some (keys, present))) (Swapping g None) (set_pending a (st, ns) n)).
  - set (m2 := goto t _ (set_pending a (st, ns) m)) in Hk.
    destruct (fail_short_batches keys present st) as [st2 ms] eqn:Ef. cbn [fst snd].
    exists (1 + (k + 1)). eapply keep_going_on; [exact H1|]. eapply keep_going_on; [exact Hk|].
    cbn [keep_going replicate ws_run ws_step]. unfold advance. unfold m2 at 1. cbn [tasks goto].
    rewrite lookup_insert_eq. unfold route_next.
    replace (actives m2 !! a) with (Some (mkActive st (writer_alive x)))
      by (unfold m2, m; simpl; by rewrite list_lookup_alter_eq, Hx).
    cbn [pending]. rewrite Ef. f_equal. pose proof (set_pending_twice a (st, ns) (st2, ms) n) as E. cbn [fst snd] in E. rewrite <- E.
    unfold m2, m. clear. set (n2 := set_pending a (st, ns) n).
    transitivity (goto t (Reading a g) (goto t (Routing a g items (Some (keys, present))) (set_pending a (st2, ms) n2))).
    + exact (goto_twice t (Routing a g [] (Some (keys, present))) (Reading a g)
        (goto t (Routing a g items (Some (keys, present))) (set_pending a (st2, ms) n2))).
    + exact (goto_twice t (Routing a g items (Some (keys, present))) (Reading a g) (set_pending a (st2, ms) n2)).
Qed.
End ws.

(** The pool: a transport is never empty, and the calls go round it. *)
Lemma pick_round_robin pool_size i :
  (N.of_nat i < 2 ^ 64)%N ->
  let len := Nat.max pool_size 1 in
  exists ws, Nat.iter i (fun o => o ≫= fun ws => snd <$> pick ws) (Some (WsTransport_new pool_size)) = Some ws /\
    fst <$> pick ws = Some (i mod len).
Proof.
  intros Hi len.
  assert (exists ws, Nat.iter i (fun o => o ≫= fun ws => snd <$> pick ws) (Some (WsTransport_new pool_size)) =
    Some ws /\ ws = mkWsTransport len (N.of_nat i)) as (ws & -> & ->).
  { induction i as [|i IH]; [by eexists|]. destruct IH as (ws & E & ->); [lia|].
    simpl. rewrite E. simpl. unfold pick. cbn [pool_len next]. destruct len eqn:Hl; [lia|].
    eexists. split; [done|]. simpl. rewrite N.mod_small by lia. f_equal. lia. }
  eexists. split; [done|]. unfold pick. cbn [pool_len next]. destruct len eqn:Hl; [lia|].
  simpl. f_equal. rewrite <- Nat2N.inj_mod. apply Nat2N.id.
Qed.

(** ** Runs *)

Definition demo_run : list WsEvent :=
  [EvCall 0 (mkRequest [1; 2; 3]%N true 0); EvAdvance 0; EvDialed 0 9 (Ok tt); EvAdvance 0;
   EvAdvance 0; EvAdvance 0; EvAdvance 0].

Definition demo_net_after (es : list WsEvent) : Net (Value := DemoJson) :=
  default Net_new (ws_run Net_new (demo_run ++ es)).

(** An array of [k] items, routed without interruption: the batches it answers,
    then each item taken and sent, then what it omits. *)
Definition array_run (text : string) (k : nat) : list WsEvent :=
  EvFrame 9 (Some (Ok (Text text))) :: replicate (2 * k + 2) (EvAdvance 9).

Definition demo_answered : Net := demo_net_after (array_run "r3r2r1" 3 ++ [EvAdvance 0]).

Lemma waiters_accounted_witness :
  (exists x, actives (demo_net_after []) !! 0 = Some x /\ index_ok (pending x) /\
     responders (pending x) !! 2%N = Some 1) /\
  (let n := demo_net_after (take 3 (array_run "r3r2r1" 3)) in
   exists e n' ch, ws_step n e = Some n' /\ chans n' !! 2 = Some ch /\ settled (ch_value ch)).
Proof.
  split.
  - destruct (waiters_accounted demo_run (demo_net_after [])) as (Ht & Hc & _);
      [vm_compute; reflexivity|].
    destruct (Hc 1 0 2%N Open ltac:(vm_compute; reflexivity)) as [[Hopen _] _].
    destruct (Hopen eq_refl) as (x & Hx & Hr).
    exists x. split; [exact Hx|]. split; [exact (Ht 0 x Hx)|exact Hr].
  - destruct (waiters_accounted (demo_run ++ take 3 (array_run "r3r2r1" 3))
      (demo_net_after (take 3 (array_run "r3r2r1" 3)))) as (_ & _ & _ & Hhand & _);
      [vm_compute; reflexivity|].
    apply (Hhand 9 2). apply (bool_decide_unpack _). vm_compute. exact I.
Defined.

Lemma answers_are_own_witness :
  exists out, tasks demo_answered !! 0 = Some (Finished (Some (mkRequest [1; 2; 3]%N true 0, Ok out))) /\
    (resp_result <$> out) = [Some (DNumber 10); Some (DNumber 20); Some (DNumber 30)] /\
    (resp_id <$> out) = [1; 2; 3]%N.
Proof.
  exists [mkRpcResponse 1%N (Some (DNumber 10)) None; mkRpcResponse 2%N (Some (DNumber 20)) None;
          mkRpcResponse 3%N (Some (DNumber 30)) None].
  split; [vm_compute; reflexivity|]. split; [reflexivity|].
  apply (answers_are_own (demo_run ++ array_run "r3r2r1" 3 ++ [EvAdvance 0])
    demo_answered 0 (mkRequest [1; 2; 3]%N true 0)); vm_compute; reflexivity.
Defined.

Definition demo_lost : list WsEvent := [EvFrame 9 (Some (Err "reset by peer"%string)); EvAdvance 9; EvAdvance 9].

Lemma reset_releases_witness :
  (exists ch, chans (demo_net_after demo_lost) !! 1 = Some ch /\ ch_value ch = Open) /\
  exists e n' ch, ws_step (demo_net_after (demo_lost ++ [EvAdvance 9])) e = Some n' /\
    chans n' !! 1 = Some ch /\ settled (ch_value ch).
Proof.
  split; [eexists; split; vm_compute; reflexivity|].
  destruct (reset_releases (demo_run ++ demo_lost) (demo_net_after demo_lost) 9 0 None
    (demo_net_after (demo_lost ++ [EvAdvance 9]))) as (_ & Hgo & _); [vm_compute; reflexivity..|].
  apply (Hgo 1 (mkChan 0 2 InHand)); [vm_compute; reflexivity|reflexivity|exact id].
Defined.

(** Between two items of an array the connection is reset under the reader: the
    item that comes next finds no waiter, and the frame ends in a reset that
    comes too late; the caller goes on with the failure of the first. *)
Example reset_between_items :
  let es := take 4 (array_run "r3r2r1" 3)
            ++ [EvCall 1 (mkRequest [7]%N false 1); EvAdvance 1; EvAdvance 1; EvAdvance 1; EvDeadline 1]
            ++ replicate 4 (EvAdvance 1) ++ [EvDrop 1 0; EvDrop 1 3; EvDrop 1 1; EvAdvance 1]
            ++ [EvAdvance 9; EvAdvance 0] in
  exists n, ws_run Net_new (demo_run ++ es) = Some n /\
    (ch_value <$> chans n) =
      [Closed ByReset; Closed ByReset; Filled (mkRpcResponse 3%N (Some (DNumber 30)) None); Closed ByReset] /\
    tasks n !! 9 = Some (Swapping 0 None) /\
    tasks n !! 0 = Some (Failing (mkRequest [1; 2; 3]%N true 0) 0 0 [0; 1; 2]).
Proof. eexists. split; [vm_compute; reflexivity|]. split_and!; vm_compute; reflexivity. Qed.
