(* ===== verification/WsReset.v ===== *)
(** * WsReset: telling a short batch from a lost connection (transport/ws.rs)

    A batch whose receiver fails compares the connection's generation with the
    one it sampled before it registered, and reports a protocol error when they
    are equal. Here: when that inference is right — no reset was between its
    exchange of the generation and its last drop at the sampling — and what the
    machine can do otherwise: the race that makes a lost connection look like a
    short batch, the registration that no reset releases, the dead connection a
    late joiner brings back, and the failures counted once per joiner. *)
From S2P Require Import Prelude RpcClient WsRouting Ws.

Local Open Scope rust_scope.

Section reset.
Context {Value : Type} `{JsonFrame Value}.
Abbreviation Response := (RpcResponse (Value := Value)).
Abbreviation Note := (Notice (Value := Value)).
Abbreviation Net := (Net (Value := Value)).
Abbreviation Task := (Task (Value := Value)).
Abbreviation Chan := (Chan (Value := Value)).

(** ** What each step does to the waiters *)

Definition closed (n : Net) (c : nat) (why : DropReason) : Prop :=
  exists ch, chans n !! c = Some ch /\ ch_value ch = Closed why.

(** A reset after its exchange of the generation, until it has dropped every
    sender it drained. *)
Definition in_flight (task : Task) : bool :=
  match task with Taking _ | Draining _ _ | Dropping _ _ => true | _ => false end.

Definition quiet (n : Net) : Prop := map_Forall (fun _ task => in_flight task = false) (tasks n).

Definition ev_task (e : WsEvent) : option nat :=
  match e with
  | EvCall t _ | EvAdvance t | EvDialed _ t _ | EvFrame t _ | EvDrop t _ | EvDeadline t
  | EvCancel t => Some t
  | EvWriterGone _ => None
  end.

(** What becomes of a channel: it stays as it is, or it was not settled and its
    sender moves or is used, by a reset only when one is in flight, by a caller
    only when it is the task that moves. *)
Inductive chan_moves (n : Net) (t : option nat) (ch ch' : Chan) : Prop :=
  | ChanStays : ch' = ch -> chan_moves n t ch ch'
  | ChanMoves : ~ settled (ch_value ch) ->
      (ch_value ch' = Closed ByReset -> ~ quiet n) ->
      (ch_value ch' = Closed ByCaller -> exists u, t = Some u /\ ch_id ch ∈ ids_of u n) ->
      chan_moves n t ch ch'.

(** The frame of a step: one task moves, the generation grows, and a reset
    gets in flight only by making it grow. *)
Record step_frame (n n' : Net) (t : option nat) : Prop := mkStepFrame {
  frame_tasks : forall u, Some u <> t -> tasks n' !! u = tasks n !! u;
  frame_generation : (generation n <= generation n')%N;
  frame_quiet : generation n' = generation n -> quiet n -> quiet n';
  frame_chans : forall c ch, chans n !! c = Some ch ->
    exists ch', chans n' !! c = Some ch' /\ ch_id ch' = ch_id ch /\ chan_moves n t ch ch'
}.

Lemma quiet_goto t task n : in_flight task = false -> quiet n -> quiet (goto t task n).
Proof. intros Ht Hq. unfold quiet. simpl. by apply map_Forall_insert_2. Qed.

Lemma frame_same n n' t :
  (forall u, Some u <> t -> tasks n' !! u = tasks n !! u) -> chans n' = chans n ->
  (generation n <= generation n')%N -> (generation n' = generation n -> quiet n -> quiet n') ->
  step_frame n n' t.
Proof.
  intros Ht Hc Hg Hq. split; [done|done|done|]. rewrite Hc. intros c ch Hl. exists ch.
  split; [done|]. split; [done|by left].
Qed.

Lemma frame_goto t task n n' :
  step_frame n n' (Some t) -> (in_flight task = false \/ ~ quiet n) ->
  step_frame n (goto t task n') (Some t).
Proof.
  intros [Ht Hg Hq Hc] Hf. split; [|done| |done].
  - intros u Hu. simpl. rewrite lookup_insert_ne by (intros ->; done). by apply Ht.
  - simpl. intros Heq Hqn. destruct Hf as [Hf|Hf]; [|done]. apply quiet_goto; [done|]. by apply Hq.
Qed.

Lemma frame_refl n t : step_frame n n t.
Proof. by apply frame_same. Qed.

(** An operation on a table, by the reasons it gives. *)
Lemma frame_pending a x op n t :
  net_heap_ok n -> actives n !! a = Some x -> settles (pending x) op.1 op.2 ->
  (forall c, Dropped c ByReset ∈ op.2 -> ~ quiet n) ->
  (forall c id, Dropped c ByCaller ∈ op.2 -> responders (pending x) !! id = Some c ->
     exists u, t = Some u /\ id ∈ ids_of u n) ->
  step_frame n (set_pending a op n) t.
Proof.
  intros Hh Hx Hs Hreset Hcaller. split; [done|done|done|]. intros c ch Hc. simpl.
  destruct (notices_lookup op.2 _ c ch Hc) as [[_ Hl]|(z & Hz & Hzc & Hl)].
  - exists ch. split; [done|]. split; [done|by left].
  - exists (noticed z ch). split; [done|]. split; [done|].
    destruct (settles_noticed _ _ _ Hs z Hz) as (id & Hid & _ & _). rewrite Hzc in Hid.
    pose proof (heap_senders _ _ _ Hh a x id c Hx Hid) as Hch. rewrite Hc in Hch.
    injection Hch as ->. apply ChanMoves; [by intros []| |]; destruct z as [c' q|c' why|c']; simpl; try done;
      intros [= ->]; simpl in Hzc; subst c'; [by eapply Hreset|]. by eapply Hcaller.
Qed.

(** A sender in hand is used. *)
Lemma frame_use x n t :
  held n (notice_channel x) -> (forall c, x = Dropped c ByReset -> ~ quiet n) ->
  (forall c, x <> Dropped c ByCaller) -> step_frame n (use_sender x n) t.
Proof.
  intros (h & Hh & Hv) Hreset Hcaller. split; [done|done|done|]. intros c ch Hc. simpl. unfold apply_notice.
  destruct (decide (notice_channel x = c)) as [<-|Hne].
  - rewrite list_lookup_alter_eq, Hc. exists (noticed x ch). split; [done|]. split; [done|].
    rewrite Hh in Hc. injection Hc as <-. apply ChanMoves; [by rewrite Hv; intros []| |];
      destruct x as [c q|c why|c]; simpl; try done; intros [= ->]; [by eapply Hreset|by destruct (Hcaller c)].
  - rewrite list_lookup_alter_ne by done. exists ch. split; [done|]. split; [done|by left].
Qed.

Lemma frame_register r a st' n t :
  step_frame n (set_pending a (st', []) (open_chans a (req_ids r) n)) t.
Proof.
  split; [done|done|done|]. intros c ch Hc. exists ch. simpl.
  split; [by apply lookup_app_l_Some|]. split; [done|by left].
Qed.

(** *** The frame of every step *)

Lemma unregister_noticed ids st (x : Note) :
  x ∈ (unregister ids st).2 -> exists id, id ∈ ids /\ responders st !! id = Some (notice_channel x).
Proof.
  unfold unregister. revert st. induction ids as [|id ids IH]; intros st; simpl;
    [intros []%not_elem_of_nil|].
  specialize (IH (clear_index id (take_responder id st))).
  destruct (for_each unregister_one ids _) as [st2 ms]. simpl in *. intros [Hx|Hx]%elem_of_app.
  - destruct (responders st !! id) as [c|] eqn:E; simpl in Hx; [|by apply not_elem_of_nil in Hx].
    apply list_elem_of_singleton in Hx as ->. exists id. split; [apply elem_of_cons; by left|done].
  - destruct (IH Hx) as (i & Hi & Hc). rewrite clear_take, responders_forget in Hc.
    apply lookup_delete_Some in Hc as [_ Hc]. exists i. split; [apply elem_of_cons; by right|done].
Qed.

Lemma frame_unregister t r a n n' task :
  net_ok n -> ids_of t n = req_ids r -> unregister_task r a n = Some n' -> in_flight task = false ->
  step_frame n (goto t task n') (Some t).
Proof.
  intros Hok Hids. unfold unregister_task. destruct (actives n !! a) as [x|] eqn:Hx; [|done].
  intros [= <-] Ht. apply frame_goto; [|by left].
  apply (frame_pending a x); [apply Hok|done|apply settles_unregister| |].
  - intros c Hc. by apply unregister_reason in Hc as [? ?].
  - intros c id Hc Hid. exists t. split; [done|]. rewrite Hids.
    apply unregister_noticed in Hc as (i & Hi & Hc). simpl in Hc.
    pose proof (heap_senders _ _ _ (net_heap n Hok) a x i c Hx Hc).
    pose proof (heap_senders _ _ _ (net_heap n Hok) a x id c Hx Hid). by simplify_eq.
Qed.

Lemma in_flight_not_quiet n t task : tasks n !! t = Some task -> in_flight task = true -> ~ quiet n.
Proof. intros Ht Hf Hq. specialize (Hq t task Ht). simpl in Hq. congruence. Qed.

Lemma frame_register_task t r a g n n' :
  net_ok n -> request_ok r -> unregistered n r -> register_task t r a g n = Some n' ->
  step_frame n n' (Some t).
Proof.
  intros Hok Hr [Hus Hreg]. unfold register_task.
  destruct (actives n !! a) as [x|] eqn:Hx; [|done].
  destruct (register_heap r a x n Hx Hr Hus Hreg (net_heap n Hok)) as (st' & -> & _).
  intros [= <-]. apply frame_goto; [apply frame_register|by left].
Qed.

(** What the reader does to the table is none of a reset's or a caller's. *)
Lemma frame_route t a g items array n n' :
  net_ok n -> route_next t a g items array n = Some n' -> step_frame n n' (Some t).
Proof.
  intros Hok. unfold route_next. destruct (actives n !! a) as [x|] eqn:Hx; [|done].
  destruct items as [|item items]; [destruct array as [[keys present]|]|].
  - intros [= <-]. apply frame_goto; [|by left].
    apply (frame_pending a x); [apply Hok|done| | |].
    + apply settles_fail_short_batches. by eapply heap_tables; [apply Hok|].
    + intros c Hc. by apply fail_short_reason in Hc as [? ?].
    + intros c id Hc. by apply fail_short_reason in Hc as [? ?].
  - intros [= <-]. apply frame_goto; [apply frame_refl|by left].
  - pose proof (settles_route_take item (pending x)) as Hs.
    destruct (route_take item (pending x)) as [[st tx] reason]. intros [= <-].
    apply frame_goto; [|left; destruct reason; [done|by destruct tx as [[c r]|]]].
    apply (frame_pending a x); [apply Hok|done|exact Hs| |].
    + intros c Hc. by apply carried_reason in Hc as [? ?].
    + intros c id Hc. by apply carried_reason in Hc as [? ?].
Qed.

Lemma frame_advance t n n' :
  net_ok n -> (generation n + 1 < 2 ^ 64)%N -> advance t n = Some n' -> step_frame n n' (Some t).
Proof.
  intros Hok Hgen. unfold advance. destruct (tasks n !! t) as [task|] eqn:Ht; [|done].
  pose proof (net_tasks n Hok t task Ht) as Htask. pose proof (ids_of_task t n task Ht) as Hids.
  assert (forall task, in_flight task = false -> step_frame n (goto t task n) (Some t)) as Hmove.
  { intros. apply frame_goto; [apply frame_refl|by left]. }
  destruct task as [r|r d|r a|r a g|r a g cs|r a g cs|r a g cs|r g cs|after|g after|after|a after
    |hs after|a g|a g its|a g its arr|a g c q its arr|after];
    simpl in Htask, Hids.
  - destruct (req_batch r && _); intros [= <-]; [by apply Hmove|].
    unfold get_active. destruct (active (state n)); [by apply Hmove|].
    destruct (dialing (state n)); [by apply Hmove|]. apply frame_goto; [|by left]. by apply frame_same.
  - destruct (dials n !! d) as [dial|]; [|done]. destruct (dial_result dial) as [[a|e]|]; [| |done];
      intros [= <-]; (apply frame_goto; [by apply frame_same|by left]).
  - destruct Htask as (_ & Hr & Hu). destruct (req_batch r); [intros [= <-]; by apply Hmove|].
    by eapply frame_register_task.
  - destruct Htask as (_ & Hr & Hu). by eapply frame_register_task.
  - destruct (actives n !! a) as [x|]; [|done]. destruct (writer_alive x); [intros [= <-]; by apply Hmove|].
    destruct (unregister_task r a n) as [m|] eqn:Hm; [|done]. intros [= <-]. by eapply frame_unregister.
  - destruct (join_all (chans n) cs) as [[out|[]]|]; [| |done]; [intros [= <-]; by apply Hmove|].
    destruct g; intros [= <-]; by apply Hmove.
  - destruct (unregister_task r a n) as [m|] eqn:Hm; [|done]. intros [= <-]. by eapply frame_unregister.
  - intros [= <-]. by apply Hmove.
  - intros [= <-]. by apply Hmove.
  - destruct (N.eqb_spec (generation n) g) as [<-|]; intros [= <-]; [|by apply Hmove].
    apply frame_same; simpl; [|done| |].
    + intros u Hu. by rewrite lookup_insert_ne by (intros ->; done).
    + rewrite N.mod_small by done. lia.
    + rewrite N.mod_small by done. lia.
  - destruct (active (state n)) as [a|]; intros [= <-]; [|by apply Hmove].
    apply frame_goto; [by apply frame_same|]. right. by eapply in_flight_not_quiet.
  - destruct (actives n !! a) as [x|] eqn:Hx; [|done]. intros [= <-].
    apply frame_goto; [|right; by eapply in_flight_not_quiet].
    apply (frame_pending a x); [apply Hok|done|apply settles_drain| |].
    + intros c Hc. by apply drain_reason in Hc as [? ?].
    + intros c id Hc. by apply drain_reason in Hc as [? ?].
  - destruct (decide (hs = ∅)); [|done]. intros [= <-]. by apply Hmove.
  - done.
  - destruct (actives n !! a); [|done]. intros [= <-]. by apply Hmove.
  - by apply frame_route.
  - intros [= <-]. apply frame_goto; [|by left]. apply frame_use; [|done|done].
    apply (hands_held _ (net_hands n Hok) t). unfold hand_of. rewrite Ht. simpl. set_solver.
  - done.
Qed.

Lemma frame_step n e n' :
  net_ok n -> (generation n + 1 < 2 ^ 64)%N -> ws_step n e = Some n' -> step_frame n n' (ev_task e).
Proof.
  intros Hok Hgen He. destruct e as [t r|t|d t connected|t next|t c|t|a|t]; simpl in *.
  - destruct (tasks n !! t) eqn:Ht; [done|]. destruct (fresh_request n r); [|done].
    injection He as <-. apply frame_same; simpl; [|done|done|].
    + intros u Hu. by rewrite lookup_insert_ne by (intros ->; done).
    + intros _ Hq. unfold quiet. simpl. by apply map_Forall_insert_2.
  - by apply frame_advance.
  - unfold dialed in He. destruct (dials n !! d) as [dial|]; [|done].
    destruct (dial_result dial); [done|]. destruct (tasks n !! t) eqn:Ht; [done|].
    destruct connected; injection He as <-; apply frame_same; simpl; try done.
    + intros u Hu. by rewrite lookup_insert_ne by (intros ->; done).
    + intros _ Hq. unfold quiet. simpl. by apply map_Forall_insert_2.
  - unfold read_frame in He. destruct (tasks n !! t) as [task|] eqn:Ht; [|done].
    destruct task as [| | | | | | | | | | | | |a g| | | |]; try done. injection He as <-.
    destruct (reader_turn next); try apply frame_refl; apply frame_goto; try apply frame_refl; by left.
  - unfold drop_drained in He. destruct (tasks n !! t) as [task|] eqn:Ht; [|done].
    destruct task as [| | | | | | | | | | | |hs after| | | | |]; try done.
    destruct (decide (c ∈ hs)); [|done]. injection He as <-.
    apply frame_goto; [|right; by eapply in_flight_not_quiet]. apply frame_use; [| |done].
    + apply (hands_held _ (net_hands n Hok) t). unfold hand_of. by rewrite Ht.
    + intros _ _. by eapply in_flight_not_quiet.
  - unfold deadline in He. destruct (tasks n !! t) as [[]|] eqn:Ht; try done.
    destruct (effective_timeout _); [|done]. destruct (join_all _ _) as [[|]|]; [done| |];
      injection He as <-; (apply frame_goto; [apply frame_refl|by left]).
  - destruct (actives n !! a); [|done]. injection He as <-. by apply frame_same.
  - unfold cancel in He. destruct (tasks n !! t) as [task|] eqn:Ht; [|done].
    assert (n' = mkNet (state n) (generation n) (dials n) (actives n) (chans n)
                   (delete t (tasks n)) (used n)) as ->.
    { destruct task as [| | | | | | | | | |[|]| | | | | | |]; congruence. }
    apply frame_same; simpl; [|done|done|].
    + intros u Hu. by rewrite lookup_delete_ne by (intros ->; done).
    + intros _ Hq. unfold quiet. simpl. by apply map_Forall_delete.
Qed.

(** ** Sampling the generation *)

(** The generation sampled as [g] is not ahead, and if it is current then no
    reset has been in flight since. *)
Definition sample_ok (n : Net) (g : N) : Prop :=
  (g <= generation n)%N /\ (g = generation n -> quiet n).

(** No receiver of a waiting batch was closed by a reset of the sampled
    generation, or by a caller. *)
Definition spared (n : Net) (g : N) (cs : list nat) : Prop :=
  forall c, c ∈ cs -> (closed n c ByReset -> (g < generation n)%N) /\ ~ closed n c ByCaller.

(** A failing batch lost a receiver, to a short array or to a later reset. *)
Definition lost (n : Net) (g : N) (cs : list nat) : Prop :=
  exists c why, c ∈ cs /\ closed n c why /\ why <> ByCaller /\
    (why = ByReset -> (g < generation n)%N).

Definition time_ok (n : Net) (task : Task) : Prop :=
  match task with
  | Sampled _ _ g => sample_ok n g
  | Registered _ _ (Some g) cs | Waiting _ _ (Some g) cs => sample_ok n g /\ spared n g cs
  | Failing _ _ g cs | Comparing _ g cs => (g <= generation n)%N /\ lost n g cs
  | _ => True
  end.

Definition times_ok (n : Net) : Prop :=
  forall t task, tasks n !! t = Some task -> time_ok n task.

Lemma sample_ok_mono n n' t g : step_frame n n' t -> sample_ok n g -> sample_ok n' g.
Proof.
  intros Hf [Hle Hq]. pose proof (frame_generation _ _ _ Hf). split; [lia|]. intros ->.
  apply (frame_quiet _ _ _ Hf); [lia|]. apply Hq. lia.
Qed.

(** A closed channel stays as it is. *)
Lemma closed_stays n n' t c why : step_frame n n' t -> closed n c why -> closed n' c why.
Proof.
  intros Hf (ch & Hc & Hv). destruct (frame_chans _ _ _ Hf c ch Hc) as (ch' & Hc' & _ & Hm).
  exists ch'. split; [done|]. destruct Hm as [->|Ho]; [done|]. by rewrite Hv in Ho.
Qed.

Lemma lost_mono n n' t g cs : step_frame n n' t -> lost n g cs -> lost n' g cs.
Proof.
  intros Hf (c & why & Hc & Hcl & Hw & Hg). exists c, why. split; [done|].
  split; [by eapply closed_stays|]. split; [done|]. intros E. pose proof (frame_generation _ _ _ Hf).
  specialize (Hg E). lia.
Qed.

(** Receivers stay spared through the steps of others. *)
Lemma spared_mono n n' t g cs :
  step_frame n n' t -> sample_ok n g -> spared n g cs ->
  (forall c, c ∈ cs -> exists ch, chans n !! c = Some ch /\
     forall u, t = Some u -> ch_id ch ∉ ids_of u n) ->
  spared n' g cs.
Proof.
  intros Hf [Hle Hq] Hs Hown c Hc. destruct (Hown c Hc) as (ch & Hch & Hid).
  destruct (Hs c Hc) as [Hr Hca]. destruct (frame_chans _ _ _ Hf c ch Hch) as (ch' & Hch' & _ & Hm).
  pose proof (frame_generation _ _ _ Hf) as Hgen.
  destruct Hm as [->|Ho Hreset Hcaller].
  - split; [intros (x & Hx & Hv)|intros (x & Hx & Hv)]; rewrite Hch' in Hx; injection Hx as <-.
    + apply N.lt_le_trans with (generation n); [|done]. apply Hr. by exists ch.
    + apply Hca. by exists ch.
  - split; [intros (x & Hx & Hv)|intros (x & Hx & Hv)]; rewrite Hch' in Hx; injection Hx as <-.
    + specialize (Hreset Hv). destruct (decide (g = generation n)) as [E|]; [|lia].
      destruct (Hreset (Hq E)).
    + destruct (Hcaller Hv) as (u & Hu & Hin). by apply (Hid u).
Qed.

Lemma time_ok_mono n n' t task :
  step_frame n n' t ->
  (forall c r a g cs, task = Registered r a g cs \/ task = Waiting r a g cs -> c ∈ cs ->
     exists ch, chans n !! c = Some ch /\ forall u, t = Some u -> ch_id ch ∉ ids_of u n) ->
  time_ok n task -> time_ok n' task.
Proof.
  intros Hf Hown Hok. pose proof (frame_generation _ _ _ Hf) as Hgen.
  destruct task as [|r d|r a|r a g|r a g cs|r a g cs|r a g cs|r g cs|after|g after|after|a after
    |hs after|a g|a g its|a g its arr|a g c q its arr|after]; simpl in *; try done.
  - by eapply sample_ok_mono.
  - destruct g as [g|]; [|done]. destruct Hok as [Hs Hsp]. split; [by eapply sample_ok_mono|].
    eapply spared_mono; [done..|]. intros c Hc. eapply Hown; [by left|done].
  - destruct g as [g|]; [|done]. destruct Hok as [Hs Hsp]. split; [by eapply sample_ok_mono|].
    eapply spared_mono; [done..|]. intros c Hc. eapply Hown; [by right|done].
  - destruct Hok as [Hle Hl]. split; [lia|]. by eapply lost_mono.
  - destruct Hok as [Hle Hl]. split; [lia|]. by eapply lost_mono.
Qed.

(** A task other than the one that moves. *)
Lemma time_ok_other n n' e u task :
  net_ok n -> step_frame n n' (ev_task e) -> Some u <> ev_task e -> tasks n !! u = Some task ->
  time_ok n task -> time_ok n' task.
Proof.
  intros Hok Hf Hne Hu. apply (time_ok_mono n n' (ev_task e)); [done|].
  intros c r a g cs Htask Hc. pose proof (net_tasks n Hok u task Hu) as Ht.
  assert (exists a, receivers n r a cs) as [b Hrec].
  { destruct Htask as [-> | ->]; exists a; apply Ht. }
  destruct (receivers_ids n r b cs c Hrec Hc) as (ch & Hch & Hid). exists ch. split; [done|].
  intros v Hv Hin. rewrite Hv in Hne. apply (net_disjoint n Hok u v (ch_id ch)); [congruence| |done].
  unfold ids_of. rewrite Hu. by destruct Htask as [-> | ->].
Qed.

(** ** The move of the task itself *)

Lemma seq_not_closed n a x r g t n' c why :
  net_ok n -> actives n !! a = Some x -> request_ok r -> unregistered n r ->
  register_task t r a g n = Some n' -> c ∈ seq (length (chans n)) (length (req_ids r)) ->
  ~ closed n' c why.
Proof.
  intros Hok Hx Hr [Hus Hreg]. unfold register_task. rewrite Hx.
  destruct (register_heap r a x n Hx Hr Hus Hreg (net_heap n Hok)) as (st' & -> & _).
  intros [= <-] Hc (ch & Hch & Hv). apply elem_of_seq in Hc as [Hge _]. simpl in Hch.
  apply lookup_app_Some in Hch as [Hch|[_ Hch]]; [apply lookup_lt_Some in Hch; lia|].
  rewrite list_lookup_fmap in Hch. destruct (req_ids r !! _); [|done]. injection Hch as <-. done.
Qed.

Lemma join_failed n cs :
  join_all (chans n) cs = Some (Err tt) -> exists c why, c ∈ cs /\ closed n c why.
Proof.
  induction cs as [|c cs IH]; simpl; [done|]. setoid_rewrite elem_of_cons.
  destruct (receive (chans n) c) as [[q|[]]|] eqn:Hr.
  - destruct (join_all (chans n) cs) as [[|[]]|]; [done| |done]. intros _.
    destruct (IH eq_refl) as (d & why & Hd & Hcl). eauto.
  - intros _. unfold receive in Hr. destruct (chans n !! c) as [ch|] eqn:Hc; [|done].
    destruct (ch_value ch) as [| | |why] eqn:Hv; [done|done|done|]. exists c, why. split; [by left|].
    by exists ch.
  - destruct (join_all (chans n) cs) as [[|[]]|]; [done| |done]. intros _.
    destruct (IH eq_refl) as (d & why & Hd & Hcl). eauto.
Qed.

Lemma time_ok_route t a g items array n n' task :
  route_next t a g items array n = Some n' -> tasks n' !! t = Some task -> time_ok n' task.
Proof.
  unfold route_next. destruct (actives n !! a) as [x|]; [|done]. intros Ha Ht.
  destruct items as [|item items]; [destruct array as [[keys present]|]|
    destruct (route_take item (pending x)) as [[st tx] reason]];
    injection Ha as <-; simpl in Ht; rewrite lookup_insert_eq in Ht; injection Ht as <-; [done..|].
  destruct reason; [done|]. by destruct tx as [[c r]|].
Qed.

(** The moves that keep a sample: sampling itself must be quiet. *)
Lemma time_ok_moved t n n' task :
  net_ok n -> times_ok n -> step_frame n n' (Some t) -> advance t n = Some n' ->
  (forall r a, tasks n !! t = Some (Ready r a) -> quiet n) ->
  tasks n' !! t = Some task -> time_ok n' task.
Proof.
  intros Hok Hts Hf Ha Hquiet Ht'. unfold advance, finish in Ha.
  destruct (tasks n !! t) as [old|] eqn:Ht; [|done].
  pose proof (Hts t old Ht) as Htime. pose proof (net_tasks n Hok t old Ht) as Htask.
  assert (forall task (m : Net), tasks (goto t task m) !! t = Some task) as Hgoto
    by (intros; simpl; apply lookup_insert_eq).
  destruct old as [r|r d|r a|r a g|r a g cs|r a g cs|r a g cs|r g cs|after|g after|after|a after
    |hs after|a g|a g its|a g its arr|a g c q its arr|after];
    simpl in Htime, Htask.
  - destruct (req_batch r && _); [|unfold get_active in Ha; destruct (active (state n));
      [|destruct (dialing (state n))]]; injection Ha as <-; rewrite Hgoto in Ht'; by injection Ht' as <-.
  - destruct (dials n !! d) as [dial|]; [|done]. destruct (dial_result dial) as [[a|e]|]; [| |done];
      injection Ha as <-; rewrite Hgoto in Ht'; by injection Ht' as <-.
  - destruct (req_batch r).
    + injection Ha as <-. rewrite Hgoto in Ht'. injection Ht' as <-. split; [done|].
      intros _. apply quiet_goto; [done|]. by eapply Hquiet.
    + unfold register_task in Ha. destruct (actives n !! a); [|done].
      destruct (register_request r _ _); [|done]. injection Ha as <-.
      rewrite Hgoto in Ht'. by injection Ht' as <-.
  - destruct Htask as (Hlt & Hr & Hu). destruct (lookup_lt_is_Some_2 _ _ Hlt) as [x Hx].
    pose proof Ha as Hreg. unfold register_task in Ha. rewrite Hx in Ha.
    destruct (register_request r _ _); [|done]. injection Ha as <-. rewrite Hgoto in Ht'.
    injection Ht' as <-. split; [by eapply sample_ok_mono|]. intros c Hc.
    split; [intros Hcl; exfalso; revert Hcl|]; by eapply (seq_not_closed n a x r (Some g) t).
  - destruct (actives n !! a) as [x|]; [|done]. destruct (writer_alive x).
    + injection Ha as <-. rewrite Hgoto in Ht'. injection Ht' as <-. destruct g as [g|]; [|done].
      destruct Htime as [Hs Hsp]. split; [by eapply sample_ok_mono|exact Hsp].
    + destruct (unregister_task r a n) as [m|]; [|done]. injection Ha as <-.
      rewrite Hgoto in Ht'. by injection Ht' as <-.
  - destruct (join_all (chans n) cs) as [[out|[]]|] eqn:Hj; [| |done].
    + injection Ha as <-. rewrite Hgoto in Ht'. by injection Ht' as <-.
    + destruct g as [g|]; injection Ha as <-; rewrite Hgoto in Ht'; injection Ht' as <-; [|done].
      destruct Htime as [[Hle _] Hsp]. split; [done|].
      destruct (join_failed n cs Hj) as (c & why & Hc & Hcl). destruct (Hsp c Hc) as [Hr Hca].
      exists c, why. split; [done|]. split; [done|]. split; [by intros ->|]. intros ->. by apply Hr.
  - destruct (unregister_task r a n) as [m|] eqn:Hm; [|done]. injection Ha as <-. rewrite Hgoto in Ht'.
    injection Ht' as <-. destruct Htime as [Hle Hl].
    pose proof (frame_generation _ _ _ Hf). split; [lia|]. by eapply lost_mono.
  - injection Ha as <-. rewrite Hgoto in Ht'. by injection Ht' as <-.
  - injection Ha as <-. rewrite Hgoto in Ht'. by injection Ht' as <-.
  - destruct (generation n =? g)%N; injection Ha as <-; rewrite Hgoto in Ht'; by injection Ht' as <-.
  - destruct (active (state n)); injection Ha as <-; rewrite Hgoto in Ht'; by injection Ht' as <-.
  - destruct (actives n !! a); [|done]. injection Ha as <-. rewrite Hgoto in Ht'. by injection Ht' as <-.
  - destruct (decide (hs = ∅)); [|done]. injection Ha as <-. rewrite Hgoto in Ht'. by injection Ht' as <-.
  - done.
  - destruct (actives n !! a); [|done]. injection Ha as <-. rewrite Hgoto in Ht'. by injection Ht' as <-.
  - by eapply time_ok_route.
  - injection Ha as <-. rewrite Hgoto in Ht'. by injection Ht' as <-.
  - done.
Qed.

(** ** When a short batch is one *)

#[global] Instance quiet_dec (n : Net) : Decision (quiet n).
Proof. unfold quiet. apply _. Defined.

(** No batch samples the generation while a reset is in flight. *)
Definition samples_quietly (n : Net) (e : WsEvent) : bool :=
  match e with
  | EvAdvance t =>
      match tasks n !! t with
      | Some (Ready _ _) => bool_decide (quiet n)
      | _ => true
      end
  | _ => true
  end.

Fixpoint quiet_sampling (n : Net) (es : list WsEvent) : bool :=
  match es with
  | [] => true
  | e :: es =>
      samples_quietly n e &&
      match ws_step n e with Some n' => quiet_sampling n' es | None => true end
  end.

Lemma samples_quietly_spec n e t r a :
  samples_quietly n e = true -> e = EvAdvance t -> tasks n !! t = Some (Ready r a) -> quiet n.
Proof. intros Hq -> Ht. simpl in Hq. rewrite Ht in Hq. by apply bool_decide_eq_true in Hq. Qed.

Lemma times_ok_step n e n' :
  net_ok n -> times_ok n -> (generation n + 1 < 2 ^ 64)%N ->
  (forall t r a, e = EvAdvance t -> tasks n !! t = Some (Ready r a) -> quiet n) ->
  ws_step n e = Some n' -> times_ok n'.
Proof.
  intros Hok Hts Hgen Hquiet He. pose proof (frame_step n e n' Hok Hgen He) as Hf.
  intros u task Hu. destruct (decide (Some u = ev_task e)) as [Heq|Hne].
  - destruct e as [t r|t|d t connected|t next|t c|t|a|t]; simpl in Heq; simplify_eq; simpl in He.
    + destruct (tasks n !! t); [done|]. destruct (fresh_request n r); [|done]. injection He as <-.
      simpl in Hu. rewrite lookup_insert_eq in Hu. by injection Hu as <-.
    + eapply time_ok_moved; eauto.
    + unfold dialed in He. destruct (dials n !! d) as [dial|]; [|done].
      destruct (dial_result dial); [done|]. destruct (tasks n !! t) eqn:Ht; [done|].
      destruct connected; injection He as <-; simpl in Hu;
        [rewrite lookup_insert_eq in Hu; by injection Hu as <-|congruence].
    + unfold read_frame in He. destruct (tasks n !! t) as [old|] eqn:Ht; [|done].
      destruct old as [| | | | | | | | | | | | |a g| | | |]; try done. injection He as <-.
      destruct (reader_turn next); simpl in Hu; rewrite ?lookup_insert_eq, ?Ht in Hu; by injection Hu as <-.
    + unfold drop_drained in He. destruct (tasks n !! t) as [old|] eqn:Ht; [|done].
      destruct old as [| | | | | | | | | | | |hs after| | | | |]; try done.
      destruct (decide (c ∈ hs)); [|done]. injection He as <-. simpl in Hu.
      rewrite lookup_insert_eq in Hu. by injection Hu as <-.
    + unfold deadline in He. destruct (tasks n !! t) as [[]|]; try done.
      destruct (effective_timeout _); [|done]. destruct (join_all _ _) as [[|]|]; [done| |];
        injection He as <-; simpl in Hu; rewrite lookup_insert_eq in Hu; by injection Hu as <-.
    + unfold cancel in He. destruct (tasks n !! t) as [old|]; [|done].
      assert (tasks n' = delete t (tasks n)) as Hdel.
      { destruct old as [| | | | | | | | | |[|]| | | | | | |]; simplify_eq/=; done. }
      by rewrite Hdel, lookup_delete_eq in Hu.
  - assert (tasks n !! u = Some task) as Hold by (by rewrite <- (frame_tasks _ _ _ Hf u Hne)).
    eapply time_ok_other; eauto.
Qed.

Lemma generation_step n e n' :
  ws_step n e = Some n' -> (generation n' <= generation n + 1)%N.
Proof.
  intros He.
  assert (generation n' = generation n \/ generation n' = ((generation n + 1) mod 2 ^ 64)%N) as [->| ->].
  { destruct e as [t r|t|d t connected|t next|t c|t|a|t]; simpl in He.
    - by case_goal; left.
    - unfold advance, register_task, unregister_task, get_active, route_next in He.
      destruct (tasks n !! t) as [task|]; [|done].
      destruct task as [| | | | | | | | |g after| | | | | | | |]; try (by injection He as <-; left);
        try (repeat case_match; simplify_eq; by left).
      destruct (N.eqb_spec (generation n) g) as [<-|]; injection He as <-; [by right|by left].
    - unfold dialed in He. by case_goal; left.
    - unfold read_frame in He. by repeat case_match; simplify_eq; left.
    - unfold drop_drained in He. by repeat case_match; simplify_eq; left.
    - unfold deadline in He. by case_goal; left.
    - by case_goal; left.
    - unfold cancel in He. by case_goal; left. }
  - lia.
  - apply N.Div0.mod_le.
Qed.

Lemma times_ok_run es n n' :
  net_ok n -> times_ok n -> (generation n + N.of_nat (length es) < 2 ^ 64)%N ->
  quiet_sampling n es = true -> ws_run n es = Some n' -> times_ok n'.
Proof.
  revert n. induction es as [|e es IH]; intros n Hok Hts Hlen Hq; [by intros [= <-]|].
  cbn [ws_run quiet_sampling length] in *. apply andb_true_iff in Hq as [Hquiet Hq].
  destruct (ws_step n e) as [m|] eqn:He; [|done]. apply IH.
  - by eapply net_ok_ws_step.
  - eapply times_ok_step; [done|done|lia| |done]. intros t r a. by apply samples_quietly_spec.
  - pose proof (generation_step n e m He). lia.
  - done.
Qed.

(** If no batch samples the generation while a reset is between its exchange
    and its last drop, a batch is reported short only if an array really
    omitted one of its ids; and a batch that failed because of a reset is
    reported as a lost connection. *)
Theorem short_batch_justified es n t r g cs n' :
  ws_run Net_new es = Some n -> (N.of_nat (length es) < 2 ^ 64)%N -> quiet_sampling Net_new es = true ->
  tasks n !! t = Some (Comparing r g cs) -> advance t n = Some n' ->
  (tasks n' !! t = Some (Finished (Some (r, Err (Protocol ShortBatch)))) /\
   exists c ch, c ∈ cs /\ chans n !! c = Some ch /\ ch_id ch ∈ req_ids r /\
     ch_value ch = Closed ByShortArray) \/
  tasks n' !! t = Some (Finished (Some (r, Err (Disconnected "connection reset")))).
Proof.
  intros Hr Hlen Hq Ht Ha. pose proof (net_ok_run _ _ _ Net_new_ok Hr) as Hok.
  assert (times_ok n) as Hts.
  { eapply times_ok_run; [apply Net_new_ok| | |done|done]; [|simpl; lia].
    intros u task. simpl. by rewrite lookup_empty. }
  destruct (Hts t _ Ht) as [_ (c & why & Hc & (ch & Hch & Hv) & Hw & Hreset)].
  unfold advance in Ha. rewrite Ht in Ha. injection Ha as <-. simpl. rewrite lookup_insert_eq.
  destruct (N.eqb_spec (generation n) g) as [<-|Hne]; simpl; [left|by right].
  split; [done|]. exists c, ch. split; [done|]. split; [done|].
  destruct (net_tasks n Hok t _ Ht c Hc) as (ch' & Hch' & Hid). rewrite Hch in Hch'.
  injection Hch' as <-. split; [done|]. rewrite Hv. destruct why; [|done|done].
  specialize (Hreset eq_refl). lia.
Qed.
End reset.

(** ** Runs *)

Definition batch_of (ids : list N) : Request := mkRequest ids true 0.
Definition single_of (id : N) : Request := mkRequest [id] false 0.

(** One call, connected by a dial of its own, whose reader is task 9. *)
Definition connect (r : Request) : list (WsEvent) :=
  [EvCall 0 r; EvAdvance 0; EvDialed 0 9 (Ok tt); EvAdvance 0].

(** ... which goes on to sample, register, send and wait. *)
Definition submit : list WsEvent := replicate 3 (EvAdvance 0).

(** The peer closes the socket; the reader's reset exchanges the generation,
    then takes the connection, drains it and drops the senders of [cs]. *)
Definition close_socket : list WsEvent := [EvFrame 9 (Some (Ok Close)); EvAdvance 9].
Definition drain_socket (cs : list nat) : list WsEvent :=
  [EvAdvance 9; EvAdvance 9] ++ (EvDrop 9 <$> cs) ++ [EvAdvance 9].

Definition demo_net (es : list WsEvent) : Net (Value := DemoJson) := default Net_new (ws_run Net_new es).

Definition short_run : list WsEvent :=
  connect (batch_of [1; 2; 3]%N) ++ submit ++ array_run "r3r1" 2 ++ [EvAdvance 0; EvAdvance 0].

Lemma short_batch_justified_witness :
  exists c ch, ws_run Net_new short_run = Some (demo_net short_run) /\
    c ∈ [0; 1; 2] /\ chans (demo_net short_run) !! c = Some ch /\ ch_id ch ∈ [1; 2; 3]%N /\
    ch_value ch = Closed ByShortArray.
Proof.
  destruct (short_batch_justified short_run (demo_net short_run) 0 (batch_of [1; 2; 3]%N) 0%N [0; 1; 2]
    (demo_net (short_run ++ [EvAdvance 0]))) as [(_ & c & ch & Hc & Hch & Hid & Hv)|Hf];
    try (vm_compute; reflexivity).
  - exists c, ch. split; [vm_compute; reflexivity|]. split; [exact Hc|]. split; [exact Hch|].
    split; [exact Hid|exact Hv].
  - exfalso. vm_compute in Hf. discriminate Hf.
Defined.

(** What the comments in the code rule out: a reset exchanges the generation,
    a batch samples the new one and registers on the connection it already
    holds, and the reset drains it. The batch reports a protocol error although
    nothing but the connection failed it. *)
Lemma lost_connection_reads_as_short :
  let es := connect (batch_of [1; 2]%N) ++ close_socket ++ submit ++ drain_socket [1; 0] ++
            replicate 3 (EvAdvance 0) in
  exists n, ws_run (Value := DemoJson) Net_new es = Some n /\
    tasks n !! 0 = Some (Finished (Some (batch_of [1; 2]%N, Err (Protocol ShortBatch)))) /\
    chans n = [mkChan 0 1 (Closed ByReset); mkChan 0 2 (Closed ByReset)].
Proof. eexists. split; [vm_compute; reflexivity|]. split; vm_compute; reflexivity. Qed.

(** A call that got its connection before a reset and registers after the
    drain: its sender is in a table no reader serves and no reset will drain
    (the connection is no longer the current one, and its reader has ended).
    Without a deadline it waits for ever. *)
Lemma late_registration_waits :
  let es := connect (single_of 1) ++ close_socket ++ drain_socket [] ++ replicate 2 (EvAdvance 0) in
  exists n, ws_run (Value := DemoJson) Net_new es = Some n /\
    tasks n !! 0 = Some (Waiting (single_of 1) 0 None [0]) /\
    chans n = [mkChan 0 1 Open] /\ active (state n) = None /\ dialing (state n) = None /\
    tasks n !! 9 = Some (Finished None) /\ advance 0 n = None /\ deadline 0 n = None.
Proof. eexists. split; [vm_compute; reflexivity|]. split_and!; vm_compute; reflexivity. Qed.

(** Two calls join one dial; the connection is reset between their wake-ups,
    and the second brings it back: the current connection has no reader. *)
Lemma late_joiner_revives :
  let es := [EvCall 0 (single_of 1); EvCall 1 (single_of 2); EvAdvance 0; EvAdvance 1;
             EvDialed 0 9 (Ok tt); EvAdvance 0] ++ close_socket ++ drain_socket [] in
  exists n n', ws_run (Value := DemoJson) Net_new es = Some n /\ active (state n) = None /\
    tasks n !! 9 = Some (Finished None) /\
    advance 1 n = Some n' /\ active (state n') = Some 0 /\ length (actives n') = 1.
Proof. eexists _, _. split; [vm_compute; reflexivity|]. split_and!; vm_compute; reflexivity. Qed.

(** One failed dial with four joiners counts as four consecutive failures, and
    the next dial waits the longest pause. *)
Lemma failures_count_joiners :
  let calls := (fun t => EvCall t (single_of (N.of_nat t + 1))) <$> seq 0 4 in
  let es := calls ++ (EvAdvance <$> seq 0 4) ++ [EvDialed 0 9 (Err "refused"%string)] ++
            (EvAdvance <$> seq 0 4) in
  exists n, ws_run (Value := DemoJson) Net_new es = Some n /\ length (dials n) = 1 /\
    failures (state n) = 4%N /\ backoff_for (failures (state n)) = 5000%N.
Proof. eexists. split; [vm_compute; reflexivity|]. split_and!; vm_compute; reflexivity. Qed.
