(* ===== verification/RpcData.v ===== *)
(** * RpcData: the node's answers as the service reads them

    The structs of [rpc_data.rs] that the verification code consumes, field
    by field and in the source's order, each field prefixed with its struct's
    initials. Quantities and byte strings stay the hex strings the node sent.
    The flattened [extra] maps (JSON keys the schema does not name, which no
    modelled function reads) and the serde attributes are left out. *)
From S2P Require Import Prelude.

(** ** Access lists *)
Record FrontierAccessItem := mkFrontierAccessItem {
  fai_address : string;
  fai_storage_keys : list string
}.

Record AccessItemBoth := mkAccessItemBoth {
  aib_address : string;
  aib_storage_keys : list string
}.

Inductive AccessListItem : Type :=
  | Standard (a : AccessItemBoth)
  | Frontier (a : FrontierAccessItem).

Definition address (i : AccessListItem) : string :=
  match i with Standard a => aib_address a | Frontier a => fai_address a end.

Definition storage_keys (i : AccessListItem) : list string :=
  match i with Standard a => aib_storage_keys a | Frontier a => fai_storage_keys a end.

(** ** EIP-7702 authorizations *)
Record EIP7702Authorization := mkEIP7702Authorization {
  ea_chain_id : string;
  ea_address : string;
  ea_nonce : string;
  ea_y_parity : string;
  ea_r : string;
  ea_s : string
}.

Record FrontierSignature := mkFrontierSignature {
  fs_odd_y_parity : bool;
  fs_r : string;
  fs_s : string
}.

Record FrontierEIP7702Authorization := mkFrontierEIP7702Authorization {
  fe_chain_id : N;
  fe_address : string;
  fe_nonce : string;
  fe_signature : FrontierSignature
}.

Inductive EIP7702AuthorizationItem : Type :=
  | AuthStandard (a : EIP7702Authorization)
  | AuthFrontier (a : FrontierEIP7702Authorization).

(** ** Tempo transaction parts *)
Record TempoCall := mkTempoCall {
  tc_to : option string;
  tc_value : string;
  tc_input : string
}.

Inductive TempoPrimitiveSignature : Type :=
  | Secp256k1 (r s : string) (y_parity v : option string)
  | P256 (r s pub_key_x pub_key_y : string) (pre_hash : bool)
  | WebAuthn (r s pub_key_x pub_key_y webauthn_data : string).

Record TempoKeychainSignature := mkTempoKeychainSignature {
  tk_user_address : string;
  tk_signature : TempoPrimitiveSignature;
  tk_version : option string
}.

Inductive TempoSignatureObject : Type :=
  | Keychain (s : TempoKeychainSignature)
  | Primitive (s : TempoPrimitiveSignature).

Record TempoSignedAuthorization := mkTempoSignedAuthorization {
  tsa_chain_id : string;
  tsa_address : string;
  tsa_nonce : string;
  tsa_signature : TempoSignatureObject
}.

Record TempoTokenLimit := mkTempoTokenLimit {
  ttl_token : string;
  ttl_limit : string;
  ttl_period : option string
}.

Record TempoSelectorRule := mkTempoSelectorRule {
  tsr_selector : string;
  tsr_recipients : list string
}.

Record TempoCallScope := mkTempoCallScope {
  tcs_target : string;
  tcs_selector_rules : list TempoSelectorRule
}.

Record TempoSignedKeyAuthorization := mkTempoSignedKeyAuthorization {
  tka_chain_id : string;
  tka_key_type : string;
  tka_key_id : string;
  tka_expiry : option string;
  tka_limits : option (list TempoTokenLimit);
  tka_allowed_calls : option (list TempoCallScope);
  tka_witness : option string;
  tka_is_admin : option bool;
  tka_account : option string;
  tka_signature : TempoPrimitiveSignature
}.

Record FeePayerSignature := mkFeePayerSignature {
  fp_v : string;
  fp_r : string;
  fp_s : string
}.

(** ** Transactions, withdrawals, logs, receipts, blocks *)
Record RpcTransaction := mkRpcTransaction {
  tx_block_number : string;
  tx_block_hash : string;
  tx_hash : string;
  tx_transaction_index : string;
  tx_chain_id : option string;
  tx_from : string;
  tx_to : option string;
  tx_gas : string;
  tx_gas_price : option string;
  tx_input : option string;
  tx_max_fee_per_gas : option string;
  tx_max_priority_fee_per_gas : option string;
  tx_nonce : string;
  tx_v : option string;
  tx_r : option string;
  tx_s : option string;
  tx_tx_type : option string;
  tx_value : option string;
  tx_y_parity : option string;
  tx_access_list : option (list AccessListItem);
  tx_max_fee_per_blob_gas : option string;
  tx_blob_versioned_hashes : option (list string);
  tx_authorization_list : option (list EIP7702AuthorizationItem);
  tx_request_id : option string;
  tx_ticket_id : option string;
  tx_refund_to : option string;
  tx_max_refund : option string;
  tx_submission_fee_refund : option string;
  tx_l1_base_fee : option string;
  tx_deposit_value : option string;
  tx_retry_to : option string;
  tx_retry_value : option string;
  tx_beneficiary : option string;
  tx_max_submission_fee : option string;
  tx_retry_data : option string;
  tx_source_hash : option string;
  tx_mint : option string;
  tx_calls : option (list TempoCall);
  tx_nonce_key : option string;
  tx_timeout_timestamp : option string;
  tx_signature : option TempoSignatureObject;
  tx_fee_token : option string;
  tx_fee_payer_signature : option FeePayerSignature;
  tx_valid_before : option string;
  tx_valid_after : option string;
  tx_aa_authorization_list : option (list TempoSignedAuthorization);
  tx_key_authorization : option TempoSignedKeyAuthorization
}.

Record RpcWithdrawal := mkRpcWithdrawal {
  w_address : string;
  w_amount : string;
  w_index : string;
  w_validator_index : string
}.

Record RpcLog := mkRpcLog {
  log_block_hash : string;
  log_block_number : string;
  log_transaction_hash : string;
  log_transaction_index : string;
  log_log_index : string;
  log_address : string;
  log_topics : list string;
  log_data : string;
  log_removed : option bool
}.

Record RpcReceipt := mkRpcReceipt {
  rcpt_block_hash : string;
  rcpt_block_number : string;
  rcpt_transaction_hash : string;
  rcpt_transaction_index : string;
  rcpt_contract_address : option string;
  rcpt_cumulative_gas_used : string;
  rcpt_from : string;
  rcpt_gas_used : string;
  rcpt_effective_gas_price : option string;
  rcpt_logs : list RpcLog;
  rcpt_logs_bloom : string;
  rcpt_status : option string;
  rcpt_root : option string;
  rcpt_to : option string;
  rcpt_receipt_type : string;
  rcpt_blob_gas_used : option string;
  rcpt_blob_gas_price : option string;
  rcpt_l1_fee : option string;
  rcpt_l1_fee_scalar : option string;
  rcpt_l1_base_fee_scalar : option string;
  rcpt_l1_blob_base_fee : option string;
  rcpt_l1_blob_base_fee_scalar : option string;
  rcpt_l1_gas_price : option string;
  rcpt_l1_gas_used : option string;
  rcpt_deposit_nonce : option string;
  rcpt_deposit_receipt_version : option string
}.

Record RpcBlock := mkRpcBlock {
  blk_number : string;
  blk_hash : string;
  blk_parent_hash : string;
  blk_difficulty : option string;
  blk_total_difficulty : option string;
  blk_excess_blob_gas : option string;
  blk_extra_data : string;
  blk_gas_limit : string;
  blk_gas_used : string;
  blk_sha3_uncles : string;
  blk_logs_bloom : string;
  blk_transactions_root : string;
  blk_receipts_root : string;
  blk_state_root : string;
  blk_miner : string;
  blk_mix_hash : option string;
  blk_nonce : option string;
  blk_base_fee_per_gas : option string;
  blk_blob_gas_used : option string;
  blk_parent_beacon_block_root : option string;
  blk_size : string;
  blk_timestamp : string;
  blk_transactions : list RpcTransaction;
  blk_uncles : list string;
  blk_withdrawals : option (list RpcWithdrawal);
  blk_withdrawals_root : option string;
  blk_requests_hash : option string;
  blk_l1_block_number : option string;
  blk_main_block_general_gas_limit : option string;
  blk_shared_gas_limit : option string;
  blk_timestamp_millis_part : option string
}.

