(* ===== verification/Rlp.v ===== *)
(** * Rlp: the hex and RLP codec of the verification code

    The encoding helpers of [crates/evm-source/src/verification.rs]
    ([decode_hex] ... [parse_qty_u128_checked], [RlpField], [rlp_encode_list],
    [encode_rlp_*], [decode_hex_big_int]) over bytes kept as [N], and an RLP
    reader, the specification the encoders are proved against: whatever an
    encoder writes, the reader takes back, item by item, with nothing left
    over. The [hex] crate is an interface ([Hex], [HexLaws]). *)
From stdpp Require Import pretty.
From Stdlib Require Import Ascii.
From S2P Require Import Prelude RpcData.

Local Open Scope N_scope.
Local Open Scope rust_scope.

(** ** Bytes *)

(** A byte, [0 <= b < 256]; the arithmetic on it wraps. *)
Notation u8 := N (only parsing).
Notation bytes := (list N) (only parsing).
Definition usize_max : N := 18446744073709551615.

Definition as_u8 (n : N) : u8 := n mod 256.
Definition u8_add (a b : u8) : u8 := (a + b) mod 256.

Definition is_byte (b : u8) : Prop := b < 256.

(** [n.to_be_bytes()] of a [w]-byte unsigned integer. *)
Fixpoint to_be_bytes (w : nat) (n : N) : bytes :=
  match w with
  | O => []
  | S w' => n / 256 ^ N.of_nat w' mod 256 :: to_be_bytes w' n
  end.

(** Its inverse, the reader's side. *)
Definition be_value (bs : bytes) : N := foldl (fun acc b => acc * 256 + b) 0 bs.

(** [bytes.iter().position(|&b| b != 0)]. *)
Definition first_nonzero (bs : bytes) : option nat :=
  fst <$> list_find (fun b => b <> 0) bs.

(** ** Hex *)

(** The [hex] crate: an error is its displayed message. *)
Class Hex := {
  hex_decode : string -> Result bytes string;
  hex_encode : bytes -> string
}.

(** What the crate documents: decoding inverts encoding, and decoding
    yields bytes. *)
Class HexLaws (H : Hex) : Prop := {
  hex_roundtrip bs : Forall is_byte bs -> hex_decode (hex_encode bs) = Ok bs;
  hex_decode_bytes s bs : hex_decode s = Ok bs -> Forall is_byte bs
}.

Fixpoint strip_prefix (p s : string) : option string :=
  match p, s with
  | EmptyString, _ => Some s
  | String a p', String b s' => if Ascii.eqb a b then strip_prefix p' s' else None
  | String _ _, EmptyString => None
  end.

(** [s.strip_prefix("0x").unwrap_or(s)]. *)
Definition strip_0x (s : string) : string :=
  match strip_prefix "0x" s with Some t => t | None => s end.

Section hex_functions.
Context `{Hex}.

Definition decode_hex (s : string) : Result bytes string := hex_decode (strip_0x s).

Definition decode_hex_or_empty (s : string) : bytes :=
  match hex_decode (strip_0x s) with Ok b => b | Err _ => [] end.

Definition to_hex (b : bytes) : string := String.append "0x" (hex_encode b).

Definition decode_hex_with_len (s : string) (expected : nat) (field : string)
    : Result bytes string :=
  let? bs := map_err (fun e => field +:+ ": " +:+ e)%string (decode_hex s) in
  if negb (bool_decide (length bs = expected)) then
    Err (field +:+ " must be " +:+ pretty expected +:+ " bytes, got "
           +:+ pretty (length bs))%string
  else Ok bs.

(** Quantities come minimal-length, so an odd digit count is padded. *)
Definition decode_hex_big_int (s : string) : Result bytes string :=
  let s := strip_0x s in
  if bool_decide (s = ""%string) || bool_decide (s = "0"%string) then Ok []
  else
    let? bs := map_err (fun e => "invalid hexadecimal integer: " +:+ e)%string
                 (if Nat.odd (String.length s) then hex_decode (String.append "0" s)
                  else hex_decode s) in
    let start := default (length bs) (first_nonzero bs) in
    let bs := drop start bs in
    if bool_decide (32 < length bs)%nat then Err "integer exceeds 256 bits"%string
    else Ok bs.

Definition decode_signature_scalar (s field : string) : Result bytes string :=
  let? bs := map_err (fun e => field +:+ ": " +:+ e)%string (decode_hex_big_int s) in
  if bool_decide (length bs <= 32)%nat
  then Ok (replicate (32 - length bs) 0 ++ bs)
  else Err (field +:+ " exceeds 256 bits")%string.
End hex_functions.

(** ** [u128::from_str_radix(s, 16)] *)

Inductive IntErrorKind : Type := EmptyInt | InvalidDigit | PosOverflow.

Definition int_error_message (k : IntErrorKind) : string :=
  match k with
  | EmptyInt => "cannot parse integer from empty string"
  | InvalidDigit => "invalid digit found in string"
  | PosOverflow => "number too large to fit in target type"
  end.

(** [char::to_digit(16)]. *)
Definition hex_digit (c : ascii) : option N :=
  let n := N_of_ascii c in
  if (48 <=? n) && (n <=? 57) then Some (n - 48)
  else if (97 <=? n) && (n <=? 102) then Some (n - 87)
  else if (65 <=? n) && (n <=? 70) then Some (n - 55)
  else None.

Fixpoint parse_digits (max acc : N) (s : string) : Result N IntErrorKind :=
  match s with
  | EmptyString => Ok acc
  | String c rest =>
      match hex_digit c with
      | None => Err InvalidDigit
      | Some d => if acc * 16 + d <=? max then parse_digits max (acc * 16 + d) rest
                  else Err PosOverflow
      end
  end.

(** An unsigned parse: one leading plus sign is skipped, a lone sign is not
    a number. *)
Definition from_str_radix_16 (max : N) (s : string) : Result N IntErrorKind :=
  match s with
  | EmptyString => Err EmptyInt
  | String "+" EmptyString => Err InvalidDigit
  | String "+" rest => parse_digits max 0 rest
  | _ => parse_digits max 0 s
  end.

Definition parse_qty_u128 (s : string) : N :=
  match from_str_radix_16 u128_max (strip_0x s) with Ok n => n | Err _ => 0 end.

Definition parse_qty_u128_checked (s field : string) : Result N string :=
  let digits := strip_0x s in
  if bool_decide (digits = ""%string)
  then Err (field +:+ " is an empty hexadecimal quantity")%string
  else map_err (fun k => field +:+ " is not a valid u128 hexadecimal quantity: "
                           +:+ int_error_message k)%string
         (from_str_radix_16 u128_max digits).

(** ** RLP *)

Definition encode_uint_bytes (n : N) : bytes :=
  let bs := to_be_bytes 8 n in
  drop (default 7%nat (first_nonzero bs)) bs.

(** Appends the length prefix to [out]. *)
Definition encode_rlp_length (len : nat) (offset : u8) (out : bytes) : bytes :=
  if (len <? 56)%nat then out ++ [u8_add offset (as_u8 (N.of_nat len))]
  else
    let len_bytes := encode_uint_bytes (N.of_nat len) in
    out ++ [u8_add (u8_add offset 55) (as_u8 (N.of_nat (length len_bytes)))] ++ len_bytes.

Definition encode_rlp_bytes (b : bytes) : bytes :=
  match b with
  | [x] => if x <? 128 then [x] else encode_rlp_length 1 128 [] ++ b
  | _ => encode_rlp_length (length b) 128 [] ++ b
  end.

Definition encode_rlp_uint (n : N) : bytes :=
  if n =? 0 then [128]
  else
    let bs := to_be_bytes 16 n in
    encode_rlp_bytes (drop (default 15%nat (first_nonzero bs)) bs).

(** The list wrapper every encoder ends with. *)
Definition encode_rlp_items (items : list bytes) : bytes :=
  let payload := concat items in
  encode_rlp_length (length payload) 192 [] ++ payload.

Inductive RlpField : Type :=
  | FBytes (b : bytes)
  | FUint (n : N)
  | FRawList (raw : bytes).

Definition encode_rlp_field (f : RlpField) : bytes :=
  match f with
  | FBytes b => encode_rlp_bytes b
  | FUint n => encode_rlp_uint n
  | FRawList raw => raw
  end.

Definition rlp_encode_list (fields : list RlpField) : bytes :=
  encode_rlp_items (encode_rlp_field <$> fields).

Definition encode_rlp_big_uint `{Hex} (s : string) : Result bytes string :=
  let? bs := decode_hex_big_int s in
  Ok (encode_rlp_bytes bs).

(** ** The reader: RLP as the Ethereum yellow paper defines it *)

Inductive RlpItem : Type :=
  | RStr (b : bytes)
  | RList (payload : bytes).

Definition split_payload (n : N) (K : bytes -> RlpItem) (r : bytes) : option (RlpItem * bytes) :=
  if n <=? N.of_nat (length r)
  then Some (K (take (N.to_nat n) r), drop (N.to_nat n) r) else None.

Definition split_long (k : N) (K : bytes -> RlpItem) (r : bytes) : option (RlpItem * bytes) :=
  if k <=? N.of_nat (length r)
  then split_payload (be_value (take (N.to_nat k) r)) K (drop (N.to_nat k) r) else None.

Definition decode_head (bs : bytes) : option (RlpItem * bytes) :=
  match bs with
  | [] => None
  | b :: r =>
      if b <? 128 then Some (RStr [b], r)
      else if b <? 184 then split_payload (b - 128) RStr r
      else if b <? 192 then split_long (b - 183) RStr r
      else if b <? 248 then split_payload (b - 192) RList r
      else split_long (b - 247) RList r
  end.

(** Every item takes at least a byte, so the input's length is fuel enough
    (see [decode_items_concat]). *)
Fixpoint decode_items (fuel : nat) (bs : bytes) : option (list RlpItem) :=
  match bs, fuel with
  | [], _ => Some []
  | _, O => None
  | _, S fuel' =>
      match decode_head bs with
      | None => None
      | Some (i, r) => cons i <$> decode_items fuel' r
      end
  end.

Definition read_items (bs : bytes) : option (list RlpItem) := decode_items (length bs) bs.

(** ** Big-endian numbers *)

Lemma length_to_be_bytes w n : length (to_be_bytes w n) = w.
Proof. induction w as [|w IH]; [done|]. cbn. by rewrite IH. Qed.

Lemma to_be_bytes_is_byte w n : Forall is_byte (to_be_bytes w n).
Proof.
  induction w as [|w IH]; constructor; [|done].
  by apply N.mod_lt.
Qed.

Lemma be_value_cons_acc acc b bs :
  foldl (fun acc b => acc * 256 + b) acc (b :: bs)
  = foldl (fun acc b => acc * 256 + b) (acc * 256 + b) bs.
Proof. done. Qed.

Lemma be_value_acc acc bs :
  foldl (fun acc b => acc * 256 + b) acc bs
  = acc * 256 ^ N.of_nat (length bs) + be_value bs.
Proof.
  unfold be_value. revert acc. induction bs as [|b bs IH]; intros acc; cbn [length].
  - cbn. rewrite N.pow_0_r. lia.
  - cbn [foldl]. rewrite (IH (acc * 256 + b)), (IH (0 * 256 + b)).
    rewrite Nat2N.inj_succ, N.pow_succ_r'.
    generalize (256 ^ N.of_nat (length bs)). intros k. nia.
Qed.

Lemma be_value_cons b bs :
  be_value (b :: bs) = b * 256 ^ N.of_nat (length bs) + be_value bs.
Proof. unfold be_value at 1. cbn [foldl]. by rewrite be_value_acc, N.mul_0_l, N.add_0_l. Qed.

Lemma be_value_to_be_bytes_mod w n :
  be_value (to_be_bytes w n) = n mod 256 ^ N.of_nat w.
Proof.
  induction w as [|w IH]; [by rewrite N.pow_0_r, N.mod_1_r|].
  cbn [to_be_bytes]. rewrite be_value_cons, length_to_be_bytes, IH.
  rewrite Nat2N.inj_succ, N.pow_succ_r', (N.mul_comm 256).
  rewrite N.Div0.mod_mul_r, N.add_comm, (N.mul_comm _ (256 ^ _)). done.
Qed.

Lemma be_value_to_be_bytes w n :
  n < 256 ^ N.of_nat w -> be_value (to_be_bytes w n) = n.
Proof. intros. rewrite be_value_to_be_bytes_mod. by apply N.mod_small. Qed.

(** Dropping the leading zeros keeps the value. *)
Lemma be_value_drop_zeros bs i :
  (forall j b, (j < i)%nat -> bs !! j = Some b -> b = 0) ->
  be_value (drop i bs) = be_value bs.
Proof.
  revert i. induction bs as [|b bs IH]; intros [|i] Hz; [done..|].
  cbn [drop]. rewrite be_value_cons, (Hz 0%nat b) by (done || lia).
  rewrite IH; [lia|]. intros j c Hj Hc. apply (Hz (S j)); [lia|done].
Qed.

Lemma first_nonzero_Some bs i :
  first_nonzero bs = Some i ->
  (exists b, bs !! i = Some b /\ b <> 0) /\
  (forall j b, (j < i)%nat -> bs !! j = Some b -> b = 0).
Proof.
  unfold first_nonzero. intros ([i' b] & H & Heq)%fmap_Some. cbn in Heq. subst i'.
  apply list_find_Some in H as (Hi & Hb & Hmin). split; [eauto|].
  intros j c Hj Hc. specialize (Hmin j c Hc Hj). destruct (decide (c = 0)); tauto.
Qed.

Lemma first_nonzero_None bs :
  first_nonzero bs = None -> be_value bs = 0.
Proof.
  unfold first_nonzero. intros H%fmap_None. apply list_find_None in H.
  induction H as [|b bs Hb _ IH]; [done|].
  rewrite be_value_cons, IH. destruct (decide (b = 0)); [subst; lia|tauto].
Qed.

(** The minimal big-endian bytes the encoders keep. *)
Lemma be_value_trim d bs :
  be_value bs <> 0 ->
  be_value (drop (default d (first_nonzero bs)) bs) = be_value bs
  /\ drop (default d (first_nonzero bs)) bs <> []
  /\ head (drop (default d (first_nonzero bs)) bs) <> Some 0.
Proof.
  intros Hv. destruct (first_nonzero bs) as [i|] eqn:Hf; cbn.
  - apply first_nonzero_Some in Hf as ((b & Hb & Hnz) & Hz).
    assert (drop i bs = b :: drop (S i) bs) as Hd by by apply drop_S.
    split_and!; [by apply be_value_drop_zeros|by rewrite Hd|].
    rewrite Hd. cbn. congruence.
  - by rewrite (first_nonzero_None _ Hf) in Hv.
Qed.

(** ** Every encoder writes one item *)

(** [e] is read back as [i], whatever follows it. *)
Definition is_item (e : bytes) (i : RlpItem) : Prop :=
  e <> [] /\ forall rest, decode_head (e ++ rest) = Some (i, rest).

(** A [Vec]'s length is a [usize]. *)
Definition fits (bs : bytes) : Prop := N.of_nat (length bs) <= usize_max.

Lemma fits_app bs cs : fits (bs ++ cs) -> fits bs /\ fits cs.
Proof. unfold fits. rewrite length_app. lia. Qed.

Lemma split_payload_app n K p rest :
  n = N.of_nat (length p) -> split_payload n K (p ++ rest) = Some (K p, rest).
Proof.
  intros ->. unfold split_payload. rewrite length_app.
  replace (_ <=? _) with true by (symmetry; apply N.leb_le; lia).
  by rewrite Nat2N.id, take_app_length, drop_app_length.
Qed.

Lemma encode_uint_bytes_spec n :
  0 < n -> n <= usize_max ->
  be_value (encode_uint_bytes n) = n
  /\ (0 < length (encode_uint_bytes n) <= 8)%nat.
Proof.
  intros Hpos Hmax. unfold encode_uint_bytes.
  assert (be_value (to_be_bytes 8 n) = n) as Hv.
  { apply be_value_to_be_bytes. cbn. unfold usize_max in Hmax. lia. }
  destruct (be_value_trim 7 (to_be_bytes 8 n)) as (H1 & H2 & _); [lia|].
  rewrite H1, Hv. split; [done|]. split.
  - destruct (drop _ _); [done|]. cbn. lia.
  - rewrite length_drop, length_to_be_bytes. lia.
Qed.

Lemma split_long_app K p rest :
  fits p -> (0 < length p)%nat ->
  split_long (N.of_nat (length (encode_uint_bytes (N.of_nat (length p))))) K
    (encode_uint_bytes (N.of_nat (length p)) ++ p ++ rest) = Some (K p, rest).
Proof.
  intros Hfit Hpos. unfold split_long.
  destruct (encode_uint_bytes_spec (N.of_nat (length p))) as [Hv _]; [lia|done|].
  rewrite length_app.
  replace (_ <=? _) with true by (symmetry; apply N.leb_le; lia).
  rewrite Nat2N.id, take_app_length, drop_app_length, Hv. by apply split_payload_app.
Qed.

(** The two long-form prefixes, [0xb7 + k] and [0xf7 + k], read as long. *)
Lemma decode_head_length off K p rest :
  (off = 128 /\ K = RStr) \/ (off = 192 /\ K = RList) ->
  fits p ->
  decode_head (encode_rlp_length (length p) off [] ++ p ++ rest) = Some (K p, rest).
Proof.
  intros Hoff Hfit. unfold encode_rlp_length, u8_add, as_u8.
  destruct (Nat.ltb_spec (length p) 56) as [Hs|Hl]; cbn [app decode_head].
  - rewrite (N.mod_small (N.of_nat _)) by lia.
    destruct Hoff as [[-> ->]|[-> ->]]; rewrite N.mod_small by lia;
      repeat (case_match; rewrite ?N.ltb_lt, ?N.ltb_ge in *; try lia);
      apply split_payload_app; lia.
  - destruct (encode_uint_bytes_spec (N.of_nat (length p))) as [_ Hk]; [lia|done|].
    rewrite (N.mod_small (N.of_nat _)) by lia.
    pose proof (split_long_app K p rest Hfit ltac:(lia)) as Hread.
    remember (N.of_nat (length (encode_uint_bytes (N.of_nat (length p))))) as k eqn:Heq.
    assert (0 < k /\ k <= 8) as [? ?] by lia. clear Heq.
    destruct Hoff as [[-> ->]|[-> ->]];
      [change ((128 + 55) mod 256) with 183|change ((192 + 55) mod 256) with 247];
      rewrite N.mod_small by lia;
      repeat (case_match; rewrite ?N.ltb_lt, ?N.ltb_ge in *; try lia);
      match goal with |- split_long ?n _ _ = _ => replace n with k by lia end; done.
Qed.

Lemma encode_rlp_length_nonempty n off l : encode_rlp_length n off [] ++ l <> [].
Proof. unfold encode_rlp_length. by destruct (_ <? _)%nat. Qed.

Lemma item_bytes b : fits b -> is_item (encode_rlp_bytes b) (RStr b).
Proof.
  intros Hfit.
  assert (is_item (encode_rlp_length (length b) 128 [] ++ b) (RStr b)) as Hgen.
  { split; [apply encode_rlp_length_nonempty|]. intros rest. rewrite <-app_assoc.
    apply decode_head_length; eauto. }
  destruct b as [|x [|y b]]; [done| |done]. cbn [encode_rlp_bytes].
  destruct (x <? 128) eqn:Hx; [|done]. split; [done|]. intros rest. cbn.
  by rewrite Hx.
Qed.

Lemma item_list items :
  fits (concat items) -> is_item (encode_rlp_items items) (RList (concat items)).
Proof.
  intros Hfit. split; [apply encode_rlp_length_nonempty|]. intros rest.
  unfold encode_rlp_items. rewrite <-app_assoc. apply decode_head_length; eauto.
Qed.

(** The minimal bytes of a quantity: the content an RLP integer carries. *)
Definition min_bytes (n : N) : bytes :=
  if n =? 0 then [] else
    let bs := to_be_bytes 16 n in drop (default 15%nat (first_nonzero bs)) bs.

Lemma be_value_min_bytes n : n <= u128_max -> be_value (min_bytes n) = n.
Proof.
  intros Hn. unfold min_bytes. destruct (N.eqb_spec n 0) as [->|Hnz]; [done|].
  assert (be_value (to_be_bytes 16 n) = n) as Hv.
  { apply be_value_to_be_bytes. cbn. unfold u128_max in Hn. lia. }
  destruct (be_value_trim 15 (to_be_bytes 16 n)) as (H1 & _); [lia|]. by rewrite H1.
Qed.

Lemma length_min_bytes n : (length (min_bytes n) <= 16)%nat.
Proof.
  unfold min_bytes. destruct (n =? 0); [cbn; lia|].
  rewrite length_drop, length_to_be_bytes. lia.
Qed.

Lemma item_uint n : is_item (encode_rlp_uint n) (RStr (min_bytes n)).
Proof.
  pose proof (length_min_bytes n) as Hl. revert Hl.
  unfold encode_rlp_uint, min_bytes. destruct (n =? 0).
  - intros _. split; [done|]. intros rest. unfold decode_head. cbn [app].
    change (128 <? 128) with false. change (128 <? 184) with true. cbn iota.
    change (128 - 128) with 0. by apply (split_payload_app 0 RStr []).
  - intros Hl. apply item_bytes. unfold fits, usize_max. lia.
Qed.

Lemma length_encode_uint n : (length (encode_rlp_uint n) <= 17)%nat.
Proof.
  pose proof (length_min_bytes n) as Hl. revert Hl. unfold encode_rlp_uint, min_bytes.
  destruct (n =? 0); [cbn; lia|]. set (b := drop _ _). clearbody b. intros Hl.
  assert (length (encode_rlp_length (length b) 128 [] ++ b) <= 17)%nat as Hgen.
  { unfold encode_rlp_length. rewrite (proj2 (Nat.ltb_lt _ _)) by lia.
    rewrite length_app. cbn. lia. }
  destruct b as [|x [|y b]]; cbn [encode_rlp_bytes]; [done| |done].
  destruct (x <? 128); [cbn; lia|done].
Qed.

(** ** Reading a payload back *)

Lemma decode_items_concat es its rest_fuel :
  Forall2 is_item es its -> (length (concat es) <= rest_fuel)%nat ->
  decode_items rest_fuel (concat es) = Some its.
Proof.
  intros H. revert rest_fuel. induction H as [|e i es its [Hne Hread] _ IH];
    intros fuel Hfuel; cbn [concat]; [by destruct fuel|].
  cbn [concat] in Hfuel. rewrite length_app in Hfuel.
  specialize (Hread (concat es)).
  destruct e as [|b e]; [done|]. cbn [length] in Hfuel.
  destruct fuel as [|fuel]; [lia|]. cbn [app] in Hread |- *. cbn [decode_items].
  rewrite Hread, IH by lia. done.
Qed.

Lemma read_items_concat es its :
  Forall2 is_item es its -> read_items (concat es) = Some its.
Proof. intros H. by apply decode_items_concat. Qed.

(** An encoded list is read back as a list whose payload reads item by item. *)
Lemma read_list es its :
  Forall2 is_item es its -> fits (encode_rlp_items es) ->
  decode_head (encode_rlp_items es) = Some (RList (concat es), [])
  /\ read_items (concat es) = Some its.
Proof.
  intros H Hfit. split; [|by apply read_items_concat].
  destruct (item_list es) as [_ Hr]; [by apply fits_app in Hfit as []|].
  specialize (Hr []). by rewrite app_nil_r in Hr.
Qed.

(** Reading is a function, so an encoding determines its items. *)
Lemma encoded_items_inj es1 es2 its1 its2 :
  Forall2 is_item es1 its1 -> Forall2 is_item es2 its2 ->
  fits (encode_rlp_items es1) -> encode_rlp_items es1 = encode_rlp_items es2 -> its1 = its2.
Proof.
  intros H1 H2 Hfit Heq.
  destruct (read_list _ _ H1) as [Ha Hb]; [done|].
  destruct (read_list _ _ H2) as [Hc Hd]; [by rewrite <-Heq|]. congruence.
Qed.

(** What a header field holds once written. A raw field is one the caller
    encoded as a list already. *)
Definition field_item (f : RlpField) : RlpItem :=
  match f with
  | FBytes b => RStr b
  | FUint n => RStr (min_bytes n)
  | FRawList raw => default (RStr []) (fst <$> decode_head raw)
  end.

Definition field_wf (f : RlpField) : Prop :=
  match f with
  | FRawList raw => exists inner : list RlpField, raw = rlp_encode_list inner
  | _ => True
  end.

Lemma fits_concat es : fits (concat es) -> Forall fits es.
Proof.
  induction es as [|e es IH]; cbn [concat]; [constructor|].
  intros [? ?]%fits_app. constructor; [done|]. by apply IH.
Qed.

Lemma fits_encode_bytes b : fits (encode_rlp_bytes b) -> fits b.
Proof.
  destruct b as [|x [|y b]]; try (intros [_ H]%fits_app; exact H).
  intros _. by vm_compute.
Qed.

Lemma item_field f :
  field_wf f -> fits (encode_rlp_field f) -> is_item (encode_rlp_field f) (field_item f).
Proof.
  destruct f as [b|n|raw]; intros Hwf Hfit.
  - by apply item_bytes, fits_encode_bytes.
  - apply item_uint.
  - destruct Hwf as [inner ->]. cbn in *. unfold rlp_encode_list in *.
    destruct (item_list (encode_rlp_field <$> inner)) as [Hne Hr];
      [by apply fits_app in Hfit as []|].
    split; [done|]. intros rest. specialize (Hr []) as Hr0.
    rewrite app_nil_r in Hr0. rewrite Hr0. apply Hr.
Qed.

Lemma items_fields fields :
  Forall field_wf fields -> fits (rlp_encode_list fields) ->
  Forall2 is_item (encode_rlp_field <$> fields) (field_item <$> fields).
Proof.
  intros Hwf [_ Hfit]%fits_app. apply fits_concat in Hfit.
  rewrite Forall_fmap in Hfit. apply Forall2_fmap_l, Forall2_fmap_r.
  induction fields as [|f fields IH]; [constructor|].
  apply Forall_cons in Hwf as [? ?]. apply Forall_cons in Hfit as [? ?].
  constructor; [by apply item_field|by apply IH].
Qed.

(** RLP round trip: the list [rlp_encode_list] writes is one RLP list, with
    nothing after it, and its payload reads back as exactly the fields, in
    order: byte strings as they are, quantities as their minimal bytes (which
    denote the quantity), nested lists as lists. *)
Theorem rlp_list_roundtrip (fields : list RlpField)
    (Hwf : Forall field_wf fields) (Hfit : fits (rlp_encode_list fields)) :
  exists payload,
    decode_head (rlp_encode_list fields) = Some (RList payload, [])
    /\ read_items payload = Some (field_item <$> fields)
    /\ (forall n, n <= u128_max -> be_value (min_bytes n) = n).
Proof.
  exists (concat (encode_rlp_field <$> fields)).
  destruct (read_list _ _ (items_fields _ Hwf Hfit)) as [H1 H2]; [done|].
  split_and!; [done|done|]. apply be_value_min_bytes.
Qed.

(** A list with a one-byte string, a 60-byte string (long form), zero, a
    quantity and a nested list. *)
Definition sample_fields : list RlpField :=
  [FBytes [5]; FBytes (replicate 60 200); FUint 0; FUint 1024;
   FRawList (rlp_encode_list [FBytes [1; 2]; FUint 300])].

Lemma rlp_list_roundtrip_witness :
  exists payload,
    decode_head (rlp_encode_list sample_fields) = Some (RList payload, [])
    /\ read_items payload = Some (field_item <$> sample_fields)
    /\ (forall n, n <= u128_max -> be_value (min_bytes n) = n).
Proof.
  apply (rlp_list_roundtrip sample_fields).
  - repeat constructor. by exists [FBytes [1; 2]; FUint 300].
  - by vm_compute.
Defined.

(** ** Quantities *)

(** The value of a string of hex digits. *)
Fixpoint digits_value (acc : N) (s : string) : N :=
  match s with
  | EmptyString => acc
  | String c rest => digits_value (acc * 16 + default 0 (hex_digit c)) rest
  end.

Fixpoint all_digits (s : string) : bool :=
  match s with
  | EmptyString => true
  | String c rest => bool_decide (is_Some (hex_digit c)) && all_digits rest
  end.

Lemma digits_value_ge acc s : acc <= digits_value acc s.
Proof.
  revert acc. induction s as [|c s IH]; intros acc; cbn [digits_value]; [lia|].
  specialize (IH (acc * 16 + default 0 (hex_digit c))). lia.
Qed.

Lemma parse_digits_value max acc s :
  all_digits s = true -> acc <= max ->
  parse_digits max acc s =
    if digits_value acc s <=? max then Ok (digits_value acc s) else Err PosOverflow.
Proof.
  revert acc. induction s as [|c s IH]; intros acc Hs Hacc; cbn [parse_digits digits_value].
  - by rewrite (proj2 (N.leb_le _ _) Hacc).
  - cbn [all_digits] in Hs. apply andb_true_iff in Hs as [[d Hd]%bool_decide_eq_true Hs].
    rewrite Hd. change (default 0 (Some d)) with d. destruct (N.leb_spec (acc * 16 + d) max) as [Hle|Hgt].
    + by apply IH.
    + pose proof (digits_value_ge (acc * 16 + d) s).
      replace (_ <=? max) with false; [done|]. symmetry. apply N.leb_gt. lia.
Qed.

Lemma from_str_radix_plain max c s :
  c <> "+"%char -> from_str_radix_16 max (String c s) = parse_digits max 0 (String c s).
Proof. intros Hc. destruct c as [[] [] [] [] [] [] [] []]; try done; congruence. Qed.

Lemma from_str_radix_value max s :
  all_digits s = true -> s <> ""%string ->
  from_str_radix_16 max s =
    if digits_value 0 s <=? max then Ok (digits_value 0 s) else Err PosOverflow.
Proof.
  intros Hs Hne. destruct s as [|c s]; [done|].
  destruct (decide (c = "+"%char)) as [->|Hc]; [by vm_compute in Hs|].
  rewrite from_str_radix_plain by done. apply parse_digits_value; [done|lia].
Qed.

Lemma strip_0x_prefixed s : strip_0x (String.append "0x" s) = s.
Proof. done. Qed.

(** A quantity of hex digits denotes its positional value when it fits 128
    bits. Above that the checked parser reports the overflow, while the
    unchecked one, which every header and transaction encoder uses, yields
    zero: such a quantity is encoded, and hashed, as if it were 0. *)
Theorem quantity_value (s field : string)
    (Hdigits : all_digits s = true) (Hne : s <> ""%string) :
  parse_qty_u128 (String.append "0x" s)
    = (if digits_value 0 s <=? u128_max then digits_value 0 s else 0)
  /\ parse_qty_u128_checked (String.append "0x" s) field
    = (if digits_value 0 s <=? u128_max then Ok (digits_value 0 s)
       else Err (field +:+ " is not a valid u128 hexadecimal quantity: "
                   +:+ int_error_message PosOverflow)%string)
  /\ (u128_max < digits_value 0 s ->
      encode_rlp_uint (parse_qty_u128 (String.append "0x" s)) = encode_rlp_uint 0).
Proof.
  assert (parse_qty_u128 (String.append "0x" s)
          = if digits_value 0 s <=? u128_max then digits_value 0 s else 0) as Hq.
  { unfold parse_qty_u128. rewrite strip_0x_prefixed, from_str_radix_value by done.
    by destruct (_ <=? u128_max). }
  split_and!; [done| |].
  - unfold parse_qty_u128_checked. rewrite strip_0x_prefixed.
    rewrite (bool_decide_eq_false_2 (s = EmptyString)) by done.
    rewrite from_str_radix_value by done. by destruct (_ <=? u128_max).
  - intros Hbig. rewrite Hq.
    replace (_ <=? u128_max) with false; [done|]. symmetry. by apply N.leb_gt.
Qed.

Definition two_to_128 : string := "100000000000000000000000000000000".

Lemma quantity_value_witness :
  parse_qty_u128 (String.append "0x" "3e8") = 1000
  /\ parse_qty_u128 (String.append "0x" two_to_128) = 0.
Proof.
  split.
  - destruct (quantity_value "3e8" "f") as [H _]; [done|done|]. rewrite H. by vm_compute.
  - destruct (quantity_value two_to_128 "f") as [H _]; [done|done|]. rewrite H. by vm_compute.
Defined.

(** ** RLP trees: the structure every encoder's output denotes *)

Inductive RlpTree : Type :=
  | Leaf (b : bytes)
  | Node (ts : list RlpTree).

Fixpoint encode_tree (t : RlpTree) : bytes :=
  match t with
  | Leaf b => encode_rlp_bytes b
  | Node ts => encode_rlp_items (map encode_tree ts)
  end.

(** A quantity as a leaf. *)
Definition qty_leaf (n : N) : RlpTree := Leaf (min_bytes n).

Section tree_induction.
Context (P : RlpTree -> Prop) (Hleaf : forall b, P (Leaf b))
  (Hnode : forall ts, Forall P ts -> P (Node ts)).

Fixpoint tree_ind' (t : RlpTree) : P t :=
  match t with
  | Leaf b => Hleaf b
  | Node ts => Hnode ts ((fix go ts := match ts return Forall P ts with
                                       | [] => Forall_nil_2 P
                                       | t :: ts' => Forall_cons_2 P t ts' (tree_ind' t) (go ts')
                                       end) ts)
  end.
End tree_induction.

Definition tree_item (t : RlpTree) : RlpItem :=
  match t with Leaf b => RStr b | Node ts => RList (concat (map encode_tree ts)) end.

Lemma item_tree t : fits (encode_tree t) -> is_item (encode_tree t) (tree_item t).
Proof.
  destruct t as [b|ts]; cbn [encode_tree tree_item]; intros Hfit.
  - by apply item_bytes, fits_encode_bytes.
  - by apply item_list, (fits_app _ _ Hfit).
Qed.

Lemma encode_qty n : encode_tree (qty_leaf n) = encode_rlp_uint n.
Proof. unfold qty_leaf, encode_rlp_uint, min_bytes. cbn. by destruct (n =? 0). Qed.

Lemma node_inj ts1 ts2 : Node ts1 = Node ts2 -> ts1 = ts2.
Proof. by intros [= ->]. Qed.

Lemma qty_leaf_inj n m : n <= u128_max -> m <= u128_max -> qty_leaf n = qty_leaf m -> n = m.
Proof.
  intros Hn Hm [= H]. rewrite <-(be_value_min_bytes n), <-(be_value_min_bytes m) by done.
  by rewrite H.
Qed.

(** Two items read from the same bytes are the same item, of the same extent. *)
Lemma item_prefix e1 i1 e2 i2 r1 r2 :
  is_item e1 i1 -> is_item e2 i2 -> e1 ++ r1 = e2 ++ r2 -> e1 = e2 /\ i1 = i2 /\ r1 = r2.
Proof.
  intros [_ H1] [_ H2] Heq. specialize (H1 r1). specialize (H2 r2).
  rewrite Heq, H2 in H1. simplify_eq. by apply app_inv_tail in Heq as ->.
Qed.

Lemma trees_inj ts1 :
  Forall (fun t => forall t', fits (encode_tree t) -> encode_tree t = encode_tree t' -> t = t') ts1 ->
  forall ts2, fits (concat (map encode_tree ts1)) ->
    concat (map encode_tree ts1) = concat (map encode_tree ts2) -> ts1 = ts2.
Proof.
  induction 1 as [|t1 ts1 Ht _ IH]; intros [|t2 ts2]; cbn [map concat]; intros Hfit Heq.
  - done.
  - rewrite Heq in Hfit. apply fits_app in Hfit as [Hfit _].
    destruct (item_tree t2 Hfit) as [Hne _]. by destruct (encode_tree t2).
  - apply fits_app in Hfit as [Hfit _].
    destruct (item_tree t1 Hfit) as [Hne _]. by destruct (encode_tree t1).
  - pose proof Hfit as Hfit2. rewrite Heq in Hfit2.
    apply fits_app in Hfit as [Hf1 Hr1]. apply fits_app in Hfit2 as [Hf2 _].
    destruct (item_prefix _ _ _ _ _ _ (item_tree t1 Hf1) (item_tree t2 Hf2) Heq)
      as (He & _ & Hrest).
    f_equal; [by apply Ht|by apply IH].
Qed.

(** RLP is injective: distinct trees have distinct encodings. *)
Lemma encode_tree_inj t1 t2 :
  fits (encode_tree t1) -> encode_tree t1 = encode_tree t2 -> t1 = t2.
Proof.
  revert t2. induction t1 as [b|ts IH] using tree_ind'; intros t2 Hfit Heq;
    pose proof (item_tree _ Hfit) as H1; pose proof Hfit as Hfit2; rewrite Heq in Hfit2;
    pose proof (item_tree _ Hfit2) as H2;
    destruct (item_prefix _ _ _ _ [] [] H1 H2) as (_ & Hitem & _); [by rewrite Heq| |by rewrite Heq|];
    destruct t2 as [b2|ts2]; cbn [tree_item] in Hitem; simplify_eq; [done|].
  f_equal. apply trees_inj; [done| |done]. by apply fits_app in Hfit as [].
Qed.

Lemma parse_digits_max max acc s n : acc <= max -> parse_digits max acc s = Ok n -> n <= max.
Proof.
  revert acc. induction s as [|c s IH]; intros acc Hacc; cbn [parse_digits].
  - intros [= <-]. done.
  - destruct (hex_digit c) as [d|]; [|done].
    destruct (N.leb_spec (acc * 16 + d) max); [|done]. by apply IH.
Qed.

Lemma parse_qty_max s : parse_qty_u128 s <= u128_max.
Proof.
  unfold parse_qty_u128. destruct (from_str_radix_16 _ _) as [n|] eqn:Hp; [|apply N.le_0_l].
  assert (exists s', parse_digits u128_max 0 s' = Ok n) as [s' Hs'].
  { destruct (strip_0x s) as [|c t]; [done|].
    destruct (decide (c = "+"%char)) as [->|Hc].
    - destruct t; [done|]. by eexists.
    - rewrite from_str_radix_plain in Hp by done. by eexists. }
  apply parse_digits_max in Hs'; [done|apply N.le_0_l].
Qed.

(** ** A concrete hex codec

    Shows the interface can be met; the concrete instances of the theorems
    run on it. *)
Section hex_ref.
Fixpoint hex_pairs (s : string) : Result bytes string :=
  match s with
  | EmptyString => Ok []
  | String _ EmptyString => Err "Odd number of digits"%string
  | String a (String b rest) =>
      match hex_digit a, hex_digit b with
      | Some h, Some l => let? t := hex_pairs rest in Ok (h * 16 + l :: t)
      | _, _ => Err "Invalid character"%string
      end
  end.

Definition hex_char (n : N) : ascii := ascii_of_N (if n <? 10 then 48 + n else 87 + n).

Fixpoint hex_text (bs : bytes) : string :=
  match bs with
  | [] => EmptyString
  | b :: rest => String (hex_char (b / 16)) (String (hex_char (b mod 16)) (hex_text rest))
  end.

Definition hex_ref : Hex := {| hex_decode := hex_pairs; hex_encode := hex_text |}.

Lemma hex_char_digit n : n < 16 -> hex_digit (hex_char n) = Some n.
Proof.
  intros Hn. assert (Forall (fun k => hex_digit (hex_char k) = Some k)
    [0;1;2;3;4;5;6;7;8;9;10;11;12;13;14;15]) as Hall by (repeat constructor).
  rewrite Forall_forall in Hall. apply Hall. rewrite !elem_of_cons. lia.
Qed.

Lemma hex_digit_bound c d : hex_digit c = Some d -> d < 16.
Proof.
  unfold hex_digit. intros. repeat case_match; simplify_eq;
    repeat match goal with H : _ && _ = true |- _ => apply andb_true_iff in H as [??] end;
    rewrite ?N.leb_le in *; lia.
Qed.

Lemma hex_pairs_bytes n : forall s bs,
  (String.length s <= n)%nat -> hex_pairs s = Ok bs -> Forall is_byte bs.
Proof.
  induction n as [|n IH]; intros [|a [|b s]] bs Hn; cbn; try (intros [= <-]; constructor); cbn in Hn;
    try (done || lia).
  destruct (hex_digit a) as [h|] eqn:Ha; [|done]. destruct (hex_digit b) as [l|] eqn:Hb; [|done].
  destruct (hex_pairs s) as [t|] eqn:Ht; [|done]. intros [= <-].
  apply hex_digit_bound in Ha, Hb. constructor; [unfold is_byte; lia|].
  apply (IH s); [lia|done].
Qed.

#[export] Instance hex_ref_laws : HexLaws hex_ref.
Proof.
  split.
  - intros bs. cbn. induction 1 as [|b bs Hb _ IH]; [done|]. cbn. unfold is_byte in Hb.
    rewrite !hex_char_digit, IH by (apply N.mod_lt; done) || (apply N.Div0.div_lt_upper_bound; lia).
    do 2 f_equal. pose proof (N.div_mod' b 16). lia.
  - intros s bs. by apply (hex_pairs_bytes (String.length s)).
Qed.
End hex_ref.
