(* ===== verification/TxEncode.v ===== *)
(** * TxEncode: the transaction, receipt and withdrawal encoders

    [crates/evm-source/src/verification.rs]: one [encode_*_tx] per transaction
    type with the dispatch of [encode_transaction], the receipt and log
    encoders, withdrawals. An [anyhow!] error is its message. Each encoder is
    proved to write an RLP tree that is spelled out here ([tx_tree]), so that
    two transactions with the same encoding have the same wire fields, as the
    encoder reads them. *)
From stdpp Require Import pretty.
From S2P Require Import Prelude RpcData Rlp.

Local Open Scope N_scope.
Local Open Scope rust_scope.

Section encoders.
Context `{Hex}.

(** [.as_deref().ok_or_else(|| anyhow!(msg))?]. *)
Definition ok_or {A} (o : option A) (msg : string) : Result A string :=
  match o with Some a => Ok a | None => Err msg end.

(** [o.map(f).transpose()?]. *)
Definition transpose {A B} (f : A -> Result B string) (o : option A)
    : Result (option B) string :=
  match o with
  | None => Ok None
  | Some a => let? b := f a in Ok (Some b)
  end.

Definition qty (s : string) : bytes := encode_rlp_uint (parse_qty_u128 s).

(** [if let Some(to) = &tx.to { decode_hex(to)? } else { vec![] }]. *)
Definition to_bytes (tx : RpcTransaction) : Result bytes string :=
  match tx_to tx with Some to => decode_hex to | None => Ok [] end.

(** ** Withdrawals, access lists, authorizations *)

Definition encode_withdrawal (w : RpcWithdrawal) : bytes :=
  encode_rlp_items
    [qty (w_index w); qty (w_validator_index w);
     encode_rlp_bytes (decode_hex_or_empty (w_address w)); qty (w_amount w)].

Definition encode_access_item (item : AccessListItem) : bytes :=
  let addr := decode_hex_or_empty (address item) in
  let keys := map decode_hex_or_empty (storage_keys item) in
  encode_rlp_items [encode_rlp_bytes addr; encode_rlp_items (map encode_rlp_bytes keys)].

Definition decode_access_list (access_list : list AccessListItem) : bytes :=
  encode_rlp_items (map encode_access_item access_list).

Definition encode_authorization (item : EIP7702AuthorizationItem) : Result bytes string :=
  let? (chain_id, address, nonce, y_parity, r, s) :=
    match item with
    | AuthStandard a =>
        let? addr := decode_hex (ea_address a) in
        Ok (parse_qty_u128 (ea_chain_id a), addr, parse_qty_u128 (ea_nonce a),
            parse_qty_u128 (ea_y_parity a), ea_r a, ea_s a)
    | AuthFrontier a =>
        let? addr := decode_hex (fe_address a) in
        Ok (fe_chain_id a, addr, parse_qty_u128 (fe_nonce a),
            (if fs_odd_y_parity (fe_signature a) then 1 else 0),
            fs_r (fe_signature a), fs_s (fe_signature a))
    end in
  let? r := encode_rlp_big_uint r in
  let? s := encode_rlp_big_uint s in
  Ok (encode_rlp_items
        [encode_rlp_uint chain_id; encode_rlp_bytes address; encode_rlp_uint nonce;
         encode_rlp_uint y_parity; r; s]).

(** The first item that fails decides. *)
Definition decode_authorization_list (auth_list : list EIP7702AuthorizationItem)
    : Result bytes string :=
  let? items := collect_results (map encode_authorization auth_list) in
  Ok (encode_rlp_items items).

(** ** The Ethereum transaction types *)

Definition access_list_of (tx : RpcTransaction) : list AccessListItem :=
  default [] (tx_access_list tx).

Definition encode_legacy_tx (tx : RpcTransaction) : Result bytes string :=
  let? gas_price := ok_or (tx_gas_price tx) "tx.gasPrice is missing" in
  let? value := ok_or (tx_value tx) "tx.value is missing" in
  let input := default "0x"%string (tx_input tx) in
  let? v := ok_or (tx_v tx) "tx.v is missing" in
  let? r := ok_or (tx_r tx) "tx.r is missing" in
  let? s := ok_or (tx_s tx) "tx.s is missing" in
  let? to := to_bytes tx in
  let? data := decode_hex input in
  let? r := encode_rlp_big_uint r in
  let? s := encode_rlp_big_uint s in
  Ok (encode_rlp_items
        [qty (tx_nonce tx); qty gas_price; qty (tx_gas tx); encode_rlp_bytes to;
         qty value; encode_rlp_bytes data; qty v; r; s]).

Definition encode_eip2930_tx (tx : RpcTransaction) : Result bytes string :=
  let? chain_id := ok_or (tx_chain_id tx) "tx.chainId is missing" in
  let? gas_price := ok_or (tx_gas_price tx) "tx.gasPrice is missing" in
  let? value := ok_or (tx_value tx) "tx.value is missing" in
  let input := default "0x"%string (tx_input tx) in
  let? v := ok_or (tx_v tx) "tx.v is missing" in
  let? r := ok_or (tx_r tx) "tx.r is missing" in
  let? s := ok_or (tx_s tx) "tx.s is missing" in
  let? to := to_bytes tx in
  let? data := decode_hex input in
  let? r := encode_rlp_big_uint r in
  let? s := encode_rlp_big_uint s in
  Ok (1 :: encode_rlp_items
        [qty chain_id; qty (tx_nonce tx); qty gas_price; qty (tx_gas tx);
         encode_rlp_bytes to; qty value; encode_rlp_bytes data;
         decode_access_list (access_list_of tx); qty v; r; s]).

Definition encode_eip1559_tx (tx : RpcTransaction) : Result bytes string :=
  let? chain_id := ok_or (tx_chain_id tx) "tx.chainId is missing" in
  let? max_prio := ok_or (tx_max_priority_fee_per_gas tx) "tx.maxPriorityFeePerGas is missing" in
  let? max_fee := ok_or (tx_max_fee_per_gas tx) "tx.maxFeePerGas is missing" in
  let? value := ok_or (tx_value tx) "tx.value is missing" in
  let input := default "0x"%string (tx_input tx) in
  let? v := ok_or (tx_v tx) "tx.v is missing" in
  let? r := ok_or (tx_r tx) "tx.r is missing" in
  let? s := ok_or (tx_s tx) "tx.s is missing" in
  let? to := to_bytes tx in
  let? data := decode_hex input in
  let? r := encode_rlp_big_uint r in
  let? s := encode_rlp_big_uint s in
  Ok (2 :: encode_rlp_items
        [qty chain_id; qty (tx_nonce tx); qty max_prio; qty max_fee; qty (tx_gas tx);
         encode_rlp_bytes to; qty value; encode_rlp_bytes data;
         decode_access_list (access_list_of tx); qty v; r; s]).

(** [y_parity], or [v] when the node omits it. *)
Definition y_parity_or_v (tx : RpcTransaction) : Result string string :=
  match tx_y_parity tx with
  | Some yp => Ok yp
  | None => ok_or (tx_v tx) "tx.v is missing"
  end.

Definition encode_eip4844_tx (tx : RpcTransaction) : Result bytes string :=
  let? chain_id := ok_or (tx_chain_id tx) "tx.chainId is missing" in
  let? max_prio := ok_or (tx_max_priority_fee_per_gas tx) "tx.maxPriorityFeePerGas is missing" in
  let? max_fee := ok_or (tx_max_fee_per_gas tx) "tx.maxFeePerGas is missing" in
  let? value := ok_or (tx_value tx) "tx.value is missing" in
  let input := default "0x"%string (tx_input tx) in
  let? max_fee_blob := ok_or (tx_max_fee_per_blob_gas tx) "tx.maxFeePerBlobGas is missing" in
  let? blob_hashes := ok_or (tx_blob_versioned_hashes tx) "tx.blobVersionedHashes is missing" in
  let? y_parity := y_parity_or_v tx in
  let? r := ok_or (tx_r tx) "tx.r is missing" in
  let? s := ok_or (tx_s tx) "tx.s is missing" in
  let? to := to_bytes tx in
  let? data := decode_hex input in
  let? r := encode_rlp_big_uint r in
  let? s := encode_rlp_big_uint s in
  Ok (3 :: encode_rlp_items
        [qty chain_id; qty (tx_nonce tx); qty max_prio; qty max_fee; qty (tx_gas tx);
         encode_rlp_bytes to; qty value; encode_rlp_bytes data;
         decode_access_list (access_list_of tx); qty max_fee_blob;
         encode_rlp_items (map (fun h => encode_rlp_bytes (decode_hex_or_empty h)) blob_hashes);
         qty y_parity; r; s]).

Definition encode_eip7702_tx (tx : RpcTransaction) : Result bytes string :=
  let? chain_id := ok_or (tx_chain_id tx) "tx.chainId is missing" in
  let? max_prio := ok_or (tx_max_priority_fee_per_gas tx) "tx.maxPriorityFeePerGas is missing" in
  let? max_fee := ok_or (tx_max_fee_per_gas tx) "tx.maxFeePerGas is missing" in
  let? value := ok_or (tx_value tx) "tx.value is missing" in
  let input := default "0x"%string (tx_input tx) in
  let? y_parity := y_parity_or_v tx in
  let? r := ok_or (tx_r tx) "tx.r is missing" in
  let? s := ok_or (tx_s tx) "tx.s is missing" in
  let? to := to_bytes tx in
  let? data := decode_hex input in
  let? auths := decode_authorization_list (default [] (tx_authorization_list tx)) in
  let? r := encode_rlp_big_uint r in
  let? s := encode_rlp_big_uint s in
  Ok (4 :: encode_rlp_items
        [qty chain_id; qty (tx_nonce tx); qty max_prio; qty max_fee; qty (tx_gas tx);
         encode_rlp_bytes to; qty value; encode_rlp_bytes data;
         decode_access_list (access_list_of tx); auths; qty y_parity; r; s]).

(** ** Network-specific types *)

Definition stable_tx_base_payload (tx : RpcTransaction) (chain_id max_prio max_fee value : string)
    (to : bytes) : Result (list bytes) string :=
  let? data := decode_hex (default "0x"%string (tx_input tx)) in
  Ok [qty chain_id; qty (tx_nonce tx); qty max_prio; qty max_fee; qty (tx_gas tx);
      encode_rlp_bytes to; qty value; encode_rlp_bytes data;
      decode_access_list (access_list_of tx)].

Definition encode_stable_tx (tx : RpcTransaction) : Result bytes string :=
  let? chain_id := ok_or (tx_chain_id tx) "tx.chainId is missing" in
  let? max_prio := ok_or (tx_max_priority_fee_per_gas tx) "tx.maxPriorityFeePerGas is missing" in
  let? max_fee := ok_or (tx_max_fee_per_gas tx) "tx.maxFeePerGas is missing" in
  let? value := ok_or (tx_value tx) "tx.value is missing" in
  let? nonce_key := ok_or (tx_nonce_key tx) "tx.nonceKey is missing" in
  let? y_parity := ok_or (match tx_y_parity tx with Some yp => Some yp | None => tx_v tx end)
                     "tx.yParity and tx.v are missing" in
  let? r := ok_or (tx_r tx) "tx.r is missing" in
  let? s := ok_or (tx_s tx) "tx.s is missing" in
  let? to := to_bytes tx in
  let? base := stable_tx_base_payload tx chain_id max_prio max_fee value to in
  let? r := encode_rlp_big_uint r in
  let? s := encode_rlp_big_uint s in
  Ok (63 :: encode_rlp_items
        (base ++ [qty y_parity; r; s; qty nonce_key;
                  qty (default "0x0"%string (tx_timeout_timestamp tx))])).

(** [u8::from_str_radix(tx_type.strip_prefix("0x").unwrap_or(tx_type), 16)]. *)
Definition type_byte_of (tx_type : string) : Result u8 string :=
  map_err (fun _ => "invalid tx type: " +:+ tx_type)%string
    (from_str_radix_16 255 (strip_0x tx_type)).

Definition encode_arbitrum_tx (tx : RpcTransaction) (tx_type : string) : Result bytes string :=
  let? type_byte := type_byte_of tx_type in
  let? payload :=
    (if bool_decide (tx_type = "0x64"%string) then
       let? chain_id := ok_or (tx_chain_id tx) "chainId missing" in
       let? request_id := ok_or (tx_request_id tx) "requestId missing" in
       let? to := ok_or (tx_to tx) "to missing" in
       let? value := ok_or (tx_value tx) "value missing" in
       let? request := decode_hex request_id in
       let? to := decode_hex to in
       Ok [qty chain_id; encode_rlp_bytes request;
           encode_rlp_bytes (decode_hex_or_empty (tx_from tx)); encode_rlp_bytes to; qty value]
     else if bool_decide (tx_type = "0x65"%string) then
       let? chain_id := ok_or (tx_chain_id tx) "chainId missing" in
       let? value := ok_or (tx_value tx) "value missing" in
       let? input := ok_or (tx_input tx) "input missing" in
       let? to := to_bytes tx in
       let gas_price := default "0x0"%string (tx_gas_price tx) in
       let? data := decode_hex input in
       Ok [qty chain_id; encode_rlp_bytes (decode_hex_or_empty (tx_from tx));
           qty (tx_nonce tx); qty gas_price; qty (tx_gas tx); encode_rlp_bytes to;
           qty value; encode_rlp_bytes data]
     else if bool_decide (tx_type = "0x6a"%string) then
       let? chain_id := ok_or (tx_chain_id tx) "chainId missing" in
       let? input := ok_or (tx_input tx) "input missing" in
       let? data := decode_hex input in
       Ok [qty chain_id; encode_rlp_bytes data]
     else Err ("unsupported Arbitrum tx type: " +:+ tx_type)%string) in
  Ok (type_byte :: encode_rlp_items payload).

Definition encode_optimism_deposit_tx (tx : RpcTransaction) : Result bytes string :=
  let? source_hash := ok_or (tx_source_hash tx) "sourceHash missing" in
  let? value := ok_or (tx_value tx) "value missing" in
  let? input := ok_or (tx_input tx) "input missing" in
  let? to := to_bytes tx in
  let? source := decode_hex source_hash in
  let? data := decode_hex input in
  Ok (126 :: encode_rlp_items
        [encode_rlp_bytes source; encode_rlp_bytes (decode_hex_or_empty (tx_from tx));
         encode_rlp_bytes to; qty (default "0x0"%string (tx_mint tx)); qty value;
         qty (tx_gas tx); encode_rlp_uint 0; encode_rlp_bytes data]).

(** ** Tempo account-abstraction transactions *)

Definition encode_tempo_call (call : TempoCall) : Result bytes string :=
  let? to := transpose decode_hex (tc_to call) in
  let? value := encode_rlp_big_uint (tc_value call) in
  let? input := decode_hex (tc_input call) in
  Ok (encode_rlp_items [encode_rlp_bytes (default [] to); value; encode_rlp_bytes input]).

Definition encode_tempo_calls (calls : list TempoCall) : Result bytes string :=
  let? items := collect_results (map encode_tempo_call calls) in
  Ok (encode_rlp_items items).

Definition encode_tempo_primitive_signature_bytes (signature : TempoPrimitiveSignature)
    : Result bytes string :=
  match signature with
  | Secp256k1 r s y_parity v =>
      let? parity := ok_or (match y_parity with Some yp => Some yp | None => v end)
                       "Tempo secp256k1 signature is missing yParity/v" in
      let? parity := parse_qty_u128_checked parity "Tempo signature yParity/v" in
      if 1 <? parity then Err "Tempo signature yParity/v must be 0 or 1"%string
      else
        let? r := decode_signature_scalar r "Tempo signature r" in
        let? s := decode_signature_scalar s "Tempo signature s" in
        Ok (r ++ s ++ [u8_add parity 27])
  | P256 r s pub_key_x pub_key_y pre_hash =>
      let? r := decode_signature_scalar r "Tempo P256 signature r" in
      let? s := decode_signature_scalar s "Tempo P256 signature s" in
      let? x := decode_hex_with_len pub_key_x 32 "Tempo P256 pubKeyX" in
      let? y := decode_hex_with_len pub_key_y 32 "Tempo P256 pubKeyY" in
      Ok ([1] ++ r ++ s ++ x ++ y ++ [if pre_hash then 1 else 0])
  | WebAuthn r s pub_key_x pub_key_y webauthn_data =>
      let? data := decode_hex webauthn_data in
      let? r := decode_signature_scalar r "Tempo WebAuthn signature r" in
      let? s := decode_signature_scalar s "Tempo WebAuthn signature s" in
      let? x := decode_hex_with_len pub_key_x 32 "Tempo WebAuthn pubKeyX" in
      let? y := decode_hex_with_len pub_key_y 32 "Tempo WebAuthn pubKeyY" in
      Ok ([2] ++ data ++ r ++ s ++ x ++ y)
  end.

Definition encode_tempo_signature_bytes (signature : TempoSignatureObject)
    : Result bytes string :=
  match signature with
  | Primitive signature => encode_tempo_primitive_signature_bytes signature
  | Keychain signature =>
      let tag := if bool_decide (tk_version signature = Some "v2"%string) then 4 else 3 in
      let? user := decode_hex_with_len (tk_user_address signature) 20
                     "Tempo keychain userAddress" in
      let? inner := encode_tempo_primitive_signature_bytes (tk_signature signature) in
      Ok ([tag] ++ user ++ inner)
  end.

Definition encode_tempo_authorization (a : TempoSignedAuthorization) : Result bytes string :=
  let? chain_id := encode_rlp_big_uint (tsa_chain_id a) in
  let? addr := decode_hex (tsa_address a) in
  let? nonce := encode_rlp_big_uint (tsa_nonce a) in
  let? signature := encode_tempo_signature_bytes (tsa_signature a) in
  Ok (encode_rlp_items [chain_id; encode_rlp_bytes addr; nonce; encode_rlp_bytes signature]).

Definition encode_tempo_authorizations (l : list TempoSignedAuthorization)
    : Result bytes string :=
  let? items := collect_results (map encode_tempo_authorization l) in
  Ok (encode_rlp_items items).

Definition tempo_signature_type (key_type : string) : Result N string :=
  if bool_decide (key_type = "secp256k1"%string) then Ok 0
  else if bool_decide (key_type = "p256"%string) then Ok 1
  else if bool_decide (key_type = "webAuthn"%string) then Ok 2
  else Err ("unsupported Tempo key type: " +:+ key_type)%string.

Definition encode_tempo_selector_rule (rule : TempoSelectorRule) : Result bytes string :=
  let? recipients :=
    collect_results (map (fun r => map_ok encode_rlp_bytes (decode_hex r)) (tsr_recipients rule)) in
  let? selector := decode_hex (tsr_selector rule) in
  Ok (encode_rlp_items [encode_rlp_bytes selector; encode_rlp_items recipients]).

Definition encode_tempo_call_scope (scope : TempoCallScope) : Result bytes string :=
  let? rules := collect_results (map encode_tempo_selector_rule (tcs_selector_rules scope)) in
  let? target := decode_hex (tcs_target scope) in
  Ok (encode_rlp_items [encode_rlp_bytes target; encode_rlp_items rules]).

(** A zero period is left out. *)
Definition encode_tempo_token_limit (limit : TempoTokenLimit) : Result bytes string :=
  let? token := decode_hex (ttl_token limit) in
  let? amount := encode_rlp_big_uint (ttl_limit limit) in
  let? period :=
    match ttl_period limit with
    | None => Ok []
    | Some p =>
        let? n := parse_qty_u128_checked p "Tempo token-limit period" in
        if n =? 0 then Ok [] else let? e := encode_rlp_big_uint p in Ok [e]
    end in
  Ok (encode_rlp_items ([encode_rlp_bytes token; amount] ++ period)).

(** [fields.iter().rposition(Option::is_some).map_or(0, |index| index + 1)]. *)
Fixpoint trailing_len (fields : list (option bytes)) : nat :=
  match fields with
  | [] => 0
  | f :: rest =>
      match trailing_len rest with
      | O => match f with Some _ => 1 | None => 0 end
      | n => S n
      end
  end.

(** Absent fields before the last present one become empty strings. *)
Definition encode_trailing_optional (fields : list (option bytes)) : list bytes :=
  map (default (encode_rlp_bytes [])) (take (trailing_len fields) fields).

Definition encode_list_of {A} (f : A -> Result bytes string) (l : list A) : Result bytes string :=
  map_ok encode_rlp_items (collect_results (map f l)).

Definition hex_field (s : string) : Result bytes string := map_ok encode_rlp_bytes (decode_hex s).

Definition encode_tempo_key_authorization (a : TempoSignedKeyAuthorization)
    : Result bytes string :=
  let? limits := transpose (encode_list_of encode_tempo_token_limit) (tka_limits a) in
  let? allowed_calls := transpose (encode_list_of encode_tempo_call_scope) (tka_allowed_calls a) in
  let? chain_id := encode_rlp_big_uint (tka_chain_id a) in
  let? key_type := tempo_signature_type (tka_key_type a) in
  let? key_id := decode_hex (tka_key_id a) in
  let? expiry := transpose encode_rlp_big_uint (tka_expiry a) in
  let? witness := transpose hex_field (tka_witness a) in
  let is_admin := if default false (tka_is_admin a) then Some (encode_rlp_uint 1) else None in
  let? account := transpose hex_field (tka_account a) in
  let fields :=
    [chain_id; encode_rlp_uint key_type; encode_rlp_bytes key_id]
      ++ encode_trailing_optional [expiry; limits; allowed_calls; witness; is_admin; account] in
  let? signature := encode_tempo_primitive_signature_bytes (tka_signature a) in
  Ok (encode_rlp_items [encode_rlp_items fields; encode_rlp_bytes signature]).

Definition optional_uint (o : option string) : Result bytes string :=
  map_ok (default (encode_rlp_bytes [])) (transpose encode_rlp_big_uint o).

Definition encode_tempo_transaction_fields (tx : RpcTransaction) (for_signing : bool)
    : Result (list bytes) string :=
  let? chain_id := ok_or (tx_chain_id tx) "tx.chainId is missing" in
  let? max_prio := ok_or (tx_max_priority_fee_per_gas tx) "tx.maxPriorityFeePerGas is missing" in
  let? max_fee := ok_or (tx_max_fee_per_gas tx) "tx.maxFeePerGas is missing" in
  let? calls := ok_or (tx_calls tx) "tx.calls is missing for 0x76 tx" in
  let? nonce_key := ok_or (tx_nonce_key tx) "tx.nonceKey is missing for 0x76 tx" in
  let has_fee_payer := bool_decide (is_Some (tx_fee_payer_signature tx)) in
  let? fee_token :=
    (if for_signing && has_fee_payer then Ok (encode_rlp_bytes [])
     else map_ok (default (encode_rlp_bytes [])) (transpose hex_field (tx_fee_token tx))) in
  let? fee_payer :=
    (if for_signing then Ok (encode_rlp_bytes (if has_fee_payer then [0] else []))
     else match tx_fee_payer_signature tx with
          | Some sg =>
              let? v := encode_rlp_big_uint (fp_v sg) in
              let? r := encode_rlp_big_uint (fp_r sg) in
              let? s := encode_rlp_big_uint (fp_s sg) in
              Ok (encode_rlp_items [v; r; s])
          | None => Ok (encode_rlp_bytes [])
          end) in
  let? chain_id := encode_rlp_big_uint chain_id in
  let? max_prio := encode_rlp_big_uint max_prio in
  let? max_fee := encode_rlp_big_uint max_fee in
  let? gas := encode_rlp_big_uint (tx_gas tx) in
  let? calls := encode_tempo_calls calls in
  let access := decode_access_list (access_list_of tx) in
  let? nonce_key := encode_rlp_big_uint nonce_key in
  let? nonce := encode_rlp_big_uint (tx_nonce tx) in
  let? valid_before := optional_uint (tx_valid_before tx) in
  let? valid_after := optional_uint (tx_valid_after tx) in
  let? auths := encode_tempo_authorizations (default [] (tx_aa_authorization_list tx)) in
  let? key_auth := transpose encode_tempo_key_authorization (tx_key_authorization tx) in
  Ok ([chain_id; max_prio; max_fee; gas; calls; access; nonce_key; nonce; valid_before;
       valid_after; fee_token; fee_payer; auths]
        ++ match key_auth with Some k => [k] | None => [] end).

Definition encode_tempo_tx (tx : RpcTransaction) : Result bytes string :=
  let? signature := ok_or (tx_signature tx) "tx.signature is missing for 0x76 tx" in
  let? fields := encode_tempo_transaction_fields tx false in
  let? signature := encode_tempo_signature_bytes signature in
  Ok (118 :: encode_rlp_items (fields ++ [encode_rlp_bytes signature])).

Definition encode_tempo_tx_for_signing (tx : RpcTransaction) : Result bytes string :=
  let? fields := encode_tempo_transaction_fields tx true in
  Ok (118 :: encode_rlp_items fields).

(** ** The dispatch *)

Definition arbitrum_types : list string := ["0x64"; "0x65"; "0x66"; "0x68"; "0x69"; "0x6a"].

Definition encode_transaction (tx : RpcTransaction) : Result bytes string :=
  let tx_type := default "0x0"%string (tx_tx_type tx) in
  if bool_decide (tx_type = "0x0"%string) then encode_legacy_tx tx
  else if bool_decide (tx_type = "0x1"%string) then encode_eip2930_tx tx
  else if bool_decide (tx_type = "0x2"%string) then encode_eip1559_tx tx
  else if bool_decide (tx_type = "0x3"%string) then encode_eip4844_tx tx
  else if bool_decide (tx_type = "0x4"%string) then encode_eip7702_tx tx
  else if bool_decide (tx_type = "0x3f"%string) then encode_stable_tx tx
  else if bool_decide (tx_type ∈ arbitrum_types) then encode_arbitrum_tx tx tx_type
  else if bool_decide (tx_type = "0x7e"%string) then encode_optimism_deposit_tx tx
  else if bool_decide (tx_type = "0x76"%string) then encode_tempo_tx tx
  else if bool_decide (tx_type = "0x7f"%string)
  then Err "Polygon 0x7f state-sync tx should be excluded from tx root"%string
  else Err ("unsupported tx type: " +:+ tx_type)%string.

(** ** Receipts *)

Definition encode_log (log : RpcLog) : bytes :=
  let addr := decode_hex_or_empty (log_address log) in
  let topics := map decode_hex_or_empty (log_topics log) in
  let data := decode_hex_or_empty (log_data log) in
  encode_rlp_items
    [encode_rlp_bytes addr; encode_rlp_items (map encode_rlp_bytes topics); encode_rlp_bytes data].

Definition encode_logs (logs : list RpcLog) : bytes := encode_rlp_items (map encode_log logs).

Definition parse_receipt_type (receipt : RpcReceipt) : Result u8 string :=
  let? value := parse_qty_u128_checked (rcpt_receipt_type receipt) "receipt.type" in
  if value <=? 255 then Ok value
  else Err ("receipt.type exceeds one byte: " +:+ rcpt_receipt_type receipt)%string.

Definition encode_receipt_status_or_root (receipt : RpcReceipt) (receipt_type : u8)
    : Result bytes string :=
  match rcpt_status receipt with
  | Some status => map_ok encode_rlp_uint (parse_qty_u128_checked status "receipt.status")
  | None =>
      if negb (receipt_type =? 0) then
        Err ("receipt.status is missing for typed receipt " +:+ rcpt_receipt_type receipt)%string
      else
        let? root := ok_or (rcpt_root receipt)
                       "receipt.status is missing and legacy receipt.root is absent" in
        map_ok encode_rlp_bytes
          (map_err (fun e => "receipt.root: " +:+ e)%string (decode_hex root))
  end.

Definition encode_receipt (receipt : RpcReceipt) (use_gas_used : bool) : Result bytes string :=
  let gas_field := if use_gas_used then rcpt_gas_used receipt else rcpt_cumulative_gas_used receipt in
  let logs_encoded := encode_logs (rcpt_logs receipt) in
  let? receipt_type := parse_receipt_type receipt in
  if receipt_type =? 126 then
    let? status := ok_or (rcpt_status receipt) "receipt.status is missing for 0x7e receipt" in
    let? deposit_nonce := ok_or (rcpt_deposit_nonce receipt)
                            "receipt.depositNonce is missing for 0x7e receipt" in
    let has_receipt_version := bool_decide (is_Some (rcpt_deposit_receipt_version receipt)) in
    let? status := parse_qty_u128_checked status "receipt.status" in
    Ok (126 :: encode_rlp_items
          [encode_rlp_uint status; qty gas_field;
           encode_rlp_bytes (decode_hex_or_empty (rcpt_logs_bloom receipt)); logs_encoded;
           qty deposit_nonce; encode_rlp_uint (if has_receipt_version then 1 else 0)])
  else
    let? status := encode_receipt_status_or_root receipt receipt_type in
    let list := encode_rlp_items
      [status; qty gas_field; encode_rlp_bytes (decode_hex_or_empty (rcpt_logs_bloom receipt));
       logs_encoded] in
    if receipt_type =? 0 then Ok list else Ok (receipt_type :: list).
End encoders.

(** ** The wire format the encoders promise

    The trees an encoding denotes, per transaction type, with an absent
    optional field read as its default. *)

Section wire.
Context `{Hex}.

Definition qty_tree (o : option string) : RlpTree :=
  qty_leaf (parse_qty_u128 (default "0x0"%string o)).

Definition hex_tree (o : option string) : RlpTree :=
  Leaf (decode_hex_or_empty (default ""%string o)).

Definition big_tree (o : option string) : RlpTree :=
  Leaf (match decode_hex_big_int (default ""%string o) with Ok b => b | Err _ => [] end).

Definition to_tree (tx : RpcTransaction) : RlpTree :=
  Leaf (match tx_to tx with Some to => decode_hex_or_empty to | None => [] end).

Definition input_tree (tx : RpcTransaction) : RlpTree :=
  Leaf (decode_hex_or_empty (default "0x"%string (tx_input tx))).

Definition access_tree (l : list AccessListItem) : RlpTree :=
  Node (map (fun i =>
    Node [Leaf (decode_hex_or_empty (address i));
          Node (map (fun k => Leaf (decode_hex_or_empty k)) (storage_keys i))]) l).

Definition authorization_tree (a : EIP7702AuthorizationItem) : RlpTree :=
  match a with
  | AuthStandard a =>
      Node [qty_tree (Some (ea_chain_id a)); hex_tree (Some (ea_address a));
            qty_tree (Some (ea_nonce a)); qty_tree (Some (ea_y_parity a));
            big_tree (Some (ea_r a)); big_tree (Some (ea_s a))]
  | AuthFrontier a =>
      Node [qty_leaf (fe_chain_id a); hex_tree (Some (fe_address a));
            qty_tree (Some (fe_nonce a));
            qty_leaf (if fs_odd_y_parity (fe_signature a) then 1 else 0);
            big_tree (Some (fs_r (fe_signature a))); big_tree (Some (fs_s (fe_signature a)))]
  end.

(** What every type after the legacy one shares: chain id to access list. *)
Definition fee_fields (tx : RpcTransaction) : list RlpTree :=
  [qty_tree (tx_chain_id tx); qty_tree (Some (tx_nonce tx));
   qty_tree (tx_max_priority_fee_per_gas tx); qty_tree (tx_max_fee_per_gas tx);
   qty_tree (Some (tx_gas tx)); to_tree tx; qty_tree (tx_value tx); input_tree tx;
   access_tree (access_list_of tx)].

Definition parity_tree (tx : RpcTransaction) : RlpTree :=
  qty_tree (match tx_y_parity tx with Some yp => Some yp | None => tx_v tx end).

Definition rs_trees (tx : RpcTransaction) : list RlpTree := [big_tree (tx_r tx); big_tree (tx_s tx)].

Definition legacy_fields (tx : RpcTransaction) : list RlpTree :=
  [qty_tree (Some (tx_nonce tx)); qty_tree (tx_gas_price tx); qty_tree (Some (tx_gas tx));
   to_tree tx; qty_tree (tx_value tx); input_tree tx; qty_tree (tx_v tx)] ++ rs_trees tx.

Definition eip2930_fields (tx : RpcTransaction) : list RlpTree :=
  [qty_tree (tx_chain_id tx); qty_tree (Some (tx_nonce tx)); qty_tree (tx_gas_price tx);
   qty_tree (Some (tx_gas tx)); to_tree tx; qty_tree (tx_value tx); input_tree tx;
   access_tree (access_list_of tx); qty_tree (tx_v tx)] ++ rs_trees tx.

Definition eip1559_fields (tx : RpcTransaction) : list RlpTree :=
  fee_fields tx ++ [qty_tree (tx_v tx)] ++ rs_trees tx.

Definition eip4844_fields (tx : RpcTransaction) : list RlpTree :=
  fee_fields tx
    ++ [qty_tree (tx_max_fee_per_blob_gas tx);
        Node (map (fun h => Leaf (decode_hex_or_empty h))
                  (default [] (tx_blob_versioned_hashes tx)));
        parity_tree tx] ++ rs_trees tx.

Definition eip7702_fields (tx : RpcTransaction) : list RlpTree :=
  fee_fields tx
    ++ [Node (map authorization_tree (default [] (tx_authorization_list tx)));
        parity_tree tx] ++ rs_trees tx.

Definition stable_fields (tx : RpcTransaction) : list RlpTree :=
  fee_fields tx ++ [parity_tree tx] ++ rs_trees tx
    ++ [qty_tree (tx_nonce_key tx); qty_tree (tx_timeout_timestamp tx)].

Definition arbitrum_deposit_fields (tx : RpcTransaction) : list RlpTree :=
  [qty_tree (tx_chain_id tx); hex_tree (tx_request_id tx); hex_tree (Some (tx_from tx));
   to_tree tx; qty_tree (tx_value tx)].

Definition arbitrum_unsigned_fields (tx : RpcTransaction) : list RlpTree :=
  [qty_tree (tx_chain_id tx); hex_tree (Some (tx_from tx)); qty_tree (Some (tx_nonce tx));
   qty_tree (tx_gas_price tx); qty_tree (Some (tx_gas tx)); to_tree tx;
   qty_tree (tx_value tx); input_tree tx].

Definition arbitrum_internal_fields (tx : RpcTransaction) : list RlpTree :=
  [qty_tree (tx_chain_id tx); input_tree tx].

Definition optimism_fields (tx : RpcTransaction) : list RlpTree :=
  [hex_tree (tx_source_hash tx); hex_tree (Some (tx_from tx)); to_tree tx;
   qty_tree (tx_mint tx); qty_tree (tx_value tx); qty_tree (Some (tx_gas tx));
   qty_leaf 0; input_tree tx].

(** The type byte, if any, and the fields. [None]: a type this specification
    does not cover (Tempo) or that has no encoding. *)
Definition tx_tree (tx : RpcTransaction) : option (option u8 * list RlpTree) :=
  let ty := default "0x0"%string (tx_tx_type tx) in
  if bool_decide (ty = "0x0"%string) then Some (None, legacy_fields tx)
  else if bool_decide (ty = "0x1"%string) then Some (Some 1, eip2930_fields tx)
  else if bool_decide (ty = "0x2"%string) then Some (Some 2, eip1559_fields tx)
  else if bool_decide (ty = "0x3"%string) then Some (Some 3, eip4844_fields tx)
  else if bool_decide (ty = "0x4"%string) then Some (Some 4, eip7702_fields tx)
  else if bool_decide (ty = "0x3f"%string) then Some (Some 63, stable_fields tx)
  else if bool_decide (ty = "0x64"%string) then Some (Some 100, arbitrum_deposit_fields tx)
  else if bool_decide (ty = "0x65"%string) then Some (Some 101, arbitrum_unsigned_fields tx)
  else if bool_decide (ty = "0x6a"%string) then Some (Some 106, arbitrum_internal_fields tx)
  else if bool_decide (ty = "0x7e"%string) then Some (Some 126, optimism_fields tx)
  else None.

Definition wire_bytes (p : option u8 * list RlpTree) : bytes :=
  match p with
  | (Some ty, ts) => ty :: encode_tree (Node ts)
  | (None, ts) => encode_tree (Node ts)
  end.

(** ** The encoders write it *)

Lemma encode_items_map ts : encode_rlp_items (map encode_tree ts) = encode_tree (Node ts).
Proof. done. Qed.

Lemma access_list_tree l : decode_access_list l = encode_tree (access_tree l).
Proof.
  unfold decode_access_list, access_tree. cbn [encode_tree]. rewrite map_map. f_equal.
  apply map_ext. intros i. unfold encode_access_item. cbn [encode_tree map].
  by rewrite !map_map.
Qed.

Lemma blob_list_tree hs :
  encode_rlp_items (map (fun h => encode_rlp_bytes (decode_hex_or_empty h)) hs)
  = encode_tree (Node (map (fun h => Leaf (decode_hex_or_empty h)) hs)).
Proof. cbn [encode_tree]. by rewrite map_map. Qed.

Lemma qty_writes s : qty s = encode_tree (qty_leaf (parse_qty_u128 s)).
Proof. by rewrite encode_qty. Qed.

Lemma decode_hex_ok s b : decode_hex s = Ok b -> decode_hex_or_empty s = b.
Proof. unfold decode_hex, decode_hex_or_empty. by intros ->. Qed.

Lemma to_bytes_ok tx b :
  to_bytes tx = Ok b -> b = match tx_to tx with Some to => decode_hex_or_empty to | None => [] end.
Proof.
  unfold to_bytes. destruct (tx_to tx); [|congruence]. intros Hd. by rewrite (decode_hex_ok _ _ Hd).
Qed.

Lemma big_uint_ok s e :
  encode_rlp_big_uint s = Ok e -> e = encode_tree (big_tree (Some s)).
Proof.
  unfold encode_rlp_big_uint, big_tree. cbn. destruct (decode_hex_big_int s); congruence.
Qed.

Lemma authorization_ok a e :
  encode_authorization a = Ok e -> e = encode_tree (authorization_tree a).
Proof.
  unfold encode_authorization. intros He.
  destruct a as [a|a]; cbn in He;
    (destruct (decode_hex _) as [addr|] eqn:Ha; [|done]);
    (destruct (encode_rlp_big_uint _) as [r|] eqn:Hr in He; [|done]);
    (destruct (encode_rlp_big_uint _) as [s|] eqn:Hs in He; [|done]);
    injection He as <-; cbn [authorization_tree]; rewrite <-encode_items_map; f_equal;
    cbn [map]; rewrite (big_uint_ok _ _ Hr), (big_uint_ok _ _ Hs);
    unfold qty_tree, hex_tree; rewrite !encode_qty; cbn [from_option id encode_tree];
    by rewrite (decode_hex_ok _ _ Ha).
Qed.

Lemma collect_writes {A} (f : A -> Result bytes string) (g : A -> RlpTree) l es :
  (forall a e, f a = Ok e -> e = encode_tree (g a)) ->
  collect_results (map f l) = Ok es -> es = map encode_tree (map g l).
Proof.
  intros Hf. revert es. induction l as [|a l IH]; intros es; cbn; [congruence|].
  destruct (f a) as [e|] eqn:He; [|done].
  destruct (collect_results _) as [t|]; [|done].
  intros [= <-]. by rewrite (Hf _ _ He), (IH t).
Qed.

Lemma authorization_list_ok l e :
  decode_authorization_list l = Ok e -> e = encode_tree (Node (map authorization_tree l)).
Proof.
  unfold decode_authorization_list. destruct (collect_results _) as [es|] eqn:Hc; [|done].
  intros [= <-]. by rewrite (collect_writes _ authorization_tree _ _ authorization_ok Hc).
Qed.
End wire.

(** Steps through an encoder's [let?] chain, one success at a time. *)
Ltac step_ok :=
  match goal with
  | H : match ?r with Ok _ => _ | Err _ => _ end = Ok _ |- _ =>
      let E := fresh "E" in destruct r eqn:E; [|discriminate H]
  end.

(** Replaces what each step produced by the tree it denotes. *)
Ltac to_trees :=
  repeat match goal with
  | E : ok_or ?o _ = Ok _ |- _ => destruct o eqn:?; [injection E as <-|discriminate E]
  | E : to_bytes _ = Ok _ |- _ => apply to_bytes_ok in E; subst
  | E : decode_hex _ = Ok _ |- _ => apply decode_hex_ok in E; subst
  | E : encode_rlp_big_uint _ = Ok _ |- _ => apply big_uint_ok in E; subst
  | E : decode_authorization_list _ = Ok _ |- _ => apply authorization_list_ok in E; subst
  | E : Ok _ = Ok _ |- _ => injection E as <-
  end.

Section wire_theorems.
Context `{Hex}.

Ltac encoder_writes :=
  let Henc := fresh in
  intros Henc; repeat step_ok; to_trees;
  unfold wire_bytes; unfold qty;
  rewrite ?blob_list_tree, ?access_list_tree;
  repeat match goal with E : _ = Some _ |- _ => rewrite !E; clear E end;
  cbn [encode_tree map app]; rewrite ?encode_qty.

Lemma legacy_writes tx out :
  encode_legacy_tx tx = Ok out -> out = wire_bytes (None, legacy_fields tx).
Proof.
  unfold encode_legacy_tx, legacy_fields, rs_trees, qty_tree. encoder_writes. done.
Qed.

Lemma eip2930_writes tx out :
  encode_eip2930_tx tx = Ok out -> out = wire_bytes (Some 1, eip2930_fields tx).
Proof.
  unfold encode_eip2930_tx, eip2930_fields, rs_trees, qty_tree. encoder_writes. done.
Qed.

Lemma eip1559_writes tx out :
  encode_eip1559_tx tx = Ok out -> out = wire_bytes (Some 2, eip1559_fields tx).
Proof.
  unfold encode_eip1559_tx, eip1559_fields, fee_fields, rs_trees, qty_tree. encoder_writes. done.
Qed.

Lemma parity_ok tx p :
  y_parity_or_v tx = Ok p ->
  match tx_y_parity tx with Some yp => Some yp | None => tx_v tx end = Some p.
Proof.
  unfold y_parity_or_v. destruct (tx_y_parity tx); [congruence|].
  destruct (tx_v tx); cbn; congruence.
Qed.

Lemma eip4844_writes tx out :
  encode_eip4844_tx tx = Ok out -> out = wire_bytes (Some 3, eip4844_fields tx).
Proof.
  unfold encode_eip4844_tx, eip4844_fields, fee_fields, rs_trees, parity_tree, qty_tree.
  intros Henc. repeat step_ok.
  match goal with E : y_parity_or_v _ = Ok _ |- _ => apply parity_ok in E end.
  revert Henc. encoder_writes. done.
Qed.

Lemma eip7702_writes tx out :
  encode_eip7702_tx tx = Ok out -> out = wire_bytes (Some 4, eip7702_fields tx).
Proof.
  unfold encode_eip7702_tx, eip7702_fields, fee_fields, rs_trees, parity_tree, qty_tree.
  intros Henc. repeat step_ok.
  match goal with E : y_parity_or_v _ = Ok _ |- _ => apply parity_ok in E end.
  revert Henc. encoder_writes. done.
Qed.

Lemma stable_writes tx out :
  encode_stable_tx tx = Ok out -> out = wire_bytes (Some 63, stable_fields tx).
Proof.
  unfold encode_stable_tx, stable_tx_base_payload, stable_fields, fee_fields, rs_trees,
    parity_tree, qty_tree.
  encoder_writes. done.
Qed.

Lemma optimism_writes tx out :
  encode_optimism_deposit_tx tx = Ok out -> out = wire_bytes (Some 126, optimism_fields tx).
Proof.
  unfold encode_optimism_deposit_tx, optimism_fields, input_tree, hex_tree, qty_tree.
  encoder_writes. done.
Qed.

Lemma arbitrum_deposit_writes tx out :
  encode_arbitrum_tx tx "0x64" = Ok out ->
  out = wire_bytes (Some 100, arbitrum_deposit_fields tx).
Proof.
  unfold encode_arbitrum_tx, arbitrum_deposit_fields, to_tree, hex_tree, qty_tree.
  replace (type_byte_of "0x64") with (@Ok u8 string 100) by by vm_compute.
  rewrite bool_decide_eq_true_2 by done. cbn iota.
  encoder_writes. done.
Qed.

Lemma arbitrum_unsigned_writes tx out :
  encode_arbitrum_tx tx "0x65" = Ok out ->
  out = wire_bytes (Some 101, arbitrum_unsigned_fields tx).
Proof.
  unfold encode_arbitrum_tx, arbitrum_unsigned_fields, input_tree, hex_tree, qty_tree.
  replace (type_byte_of "0x65") with (@Ok u8 string 101) by by vm_compute.
  rewrite bool_decide_eq_false_2, bool_decide_eq_true_2 by done. cbn iota.
  destruct (tx_gas_price tx) eqn:Hgas; encoder_writes; done.
Qed.

Lemma arbitrum_internal_writes tx out :
  encode_arbitrum_tx tx "0x6a" = Ok out ->
  out = wire_bytes (Some 106, arbitrum_internal_fields tx).
Proof.
  unfold encode_arbitrum_tx, arbitrum_internal_fields, input_tree, qty_tree.
  replace (type_byte_of "0x6a") with (@Ok u8 string 106) by by vm_compute.
  rewrite !bool_decide_eq_false_2, bool_decide_eq_true_2 by done. cbn iota.
  encoder_writes. done.
Qed.

(** The other Arbitrum types have no encoder. *)
Lemma arbitrum_unsupported tx ty out :
  ty <> "0x64"%string -> ty <> "0x65"%string -> ty <> "0x6a"%string ->
  encode_arbitrum_tx tx ty <> Ok out.
Proof.
  intros H1 H2 H3. unfold encode_arbitrum_tx. rewrite !bool_decide_eq_false_2 by done.
  cbn iota. by destruct (type_byte_of ty).
Qed.

(** Every transaction the encoders accept, Tempo's aside, is written as the
    specification says. *)
Lemma transaction_writes tx out :
  tx_tx_type tx <> Some "0x76"%string -> encode_transaction tx = Ok out ->
  exists w, tx_tree tx = Some w /\ out = wire_bytes w.
Proof.
  intros Htempo. unfold encode_transaction, tx_tree.
  assert (default "0x0"%string (tx_tx_type tx) <> "0x76"%string) as Hty.
  { destruct (tx_tx_type tx); cbn; [congruence|done]. }
  generalize dependent (default "0x0"%string (tx_tx_type tx)). intros ty Hty.
  do 6 (case_bool_decide; [subst; intros; eexists; split; [reflexivity|];
    auto using legacy_writes, eip2930_writes, eip1559_writes, eip4844_writes, eip7702_writes,
      stable_writes|]).
  case_bool_decide as Harb.
  - do 3 (case_bool_decide; [subst; intros Henc; eexists; split; [reflexivity|];
      first [by apply arbitrum_deposit_writes|by apply arbitrum_unsigned_writes
            |by apply arbitrum_internal_writes]|]).
    intros Henc. by apply arbitrum_unsupported in Henc.
  - rewrite (bool_decide_eq_false_2 (ty = "0x64"%string)),
      (bool_decide_eq_false_2 (ty = "0x65"%string)),
      (bool_decide_eq_false_2 (ty = "0x6a"%string)) by (intros ->; apply Harb; set_solver).
    case_bool_decide as H7e; [subst; eauto using optimism_writes|].
    rewrite (bool_decide_eq_false_2 (ty = "0x76"%string)) by done.
    by case_bool_decide.
Qed.

Lemma list_head_byte len rest :
  exists b l, encode_rlp_length len 192 [] ++ rest = b :: l /\ 128 <= b \/ usize_max < N.of_nat len.
Proof.
  unfold encode_rlp_length, u8_add, as_u8.
  destruct (Nat.ltb_spec len 56).
  - eexists _, _. left. split; [reflexivity|].
    rewrite (N.mod_small (N.of_nat len)), N.mod_small by lia. lia.
  - destruct (decide (N.of_nat len <= usize_max)) as [Hle|]; [|exists 0, []; right; lia].
    destruct (encode_uint_bytes_spec (N.of_nat len)) as [_ ?]; [lia|done|].
    eexists _, _. left. split; [reflexivity|].
    change ((192 + 55) mod 256) with 247.
    rewrite (N.mod_small (N.of_nat _)), N.mod_small by lia. lia.
Qed.

Lemma tx_tree_type tx ty ts : tx_tree tx = Some (Some ty, ts) -> ty < 128.
Proof. unfold tx_tree. intros Ht. repeat case_bool_decide; simplify_eq; lia. Qed.

(** A type byte is never the head of a list. *)
Definition type_byte_ok (w : option u8 * list RlpTree) : Prop :=
  forall ty, fst w = Some ty -> ty < 128.

Lemma typed_not_list ty out ts :
  ty < 128 -> fits (encode_tree (Node ts)) -> ty :: out <> encode_tree (Node ts).
Proof.
  intros Hty Hfit Heq. cbn [encode_tree] in Heq, Hfit. unfold encode_rlp_items in Heq, Hfit.
  apply fits_app in Hfit as [_ Hl]. unfold fits in Hl.
  destruct (list_head_byte (length (concat (map encode_tree ts)))
              (concat (map encode_tree ts))) as (b & l & [[Hb Hge]|]); [|lia].
  rewrite Hb in Heq. injection Heq as -> _. lia.
Qed.

(** Reading a wire form back: the type byte and the tree are determined. *)
Lemma typed_wire_inj w1 w2 :
  type_byte_ok w1 -> type_byte_ok w2 ->
  fits (wire_bytes w1) -> wire_bytes w1 = wire_bytes w2 -> w1 = w2.
Proof.
  intros H1 H2 Hfit Heq. destruct w1 as [[ty1|] ts1], w2 as [[ty2|] ts2];
    cbn [wire_bytes] in Heq, Hfit.
  - injection Heq as -> Heq. apply (encode_tree_inj (Node _) (Node _)) in Heq as [= ->]; [done|].
    unfold fits in *. cbn [length] in Hfit. lia.
  - exfalso. rewrite Heq in Hfit. by apply (typed_not_list _ _ _ (H1 _ eq_refl) Hfit) in Heq.
  - exfalso. by apply eq_sym, (typed_not_list _ _ _ (H2 _ eq_refl) Hfit) in Heq.
  - by apply (encode_tree_inj (Node _) (Node _)) in Heq as [= ->].
Qed.

Lemma wire_bytes_inj tx1 tx2 w1 w2 :
  tx_tree tx1 = Some w1 -> tx_tree tx2 = Some w2 ->
  fits (wire_bytes w1) -> wire_bytes w1 = wire_bytes w2 -> w1 = w2.
Proof.
  intros H1 H2. apply typed_wire_inj; intros ty Hty; [destruct w1|destruct w2];
    simpl in Hty; subst; by eapply tx_tree_type.
Qed.

(** C31: The encoding of a transaction of any type but Tempo's (0x76) follows
    the wire format of its type: the type byte (none for a legacy transaction)
    and one RLP list of exactly the wire fields [tx_tree] lists, in that order,
    as the encoder reads them: hex as bytes, a quantity as its number, which is
    zero for one above 128 bits that is read through [u128]. Two such
    transactions with the same encoding have the same type byte and the same
    wire fields, down to every access-list entry, authorization and blob hash.
    What the encoder does not read, or reads alike (a spelling, a quantity that
    overflows: [gas_overflow_reads_zero]), is not bound. *)
Theorem transaction_encoding_binds (tx1 tx2 : RpcTransaction) (out : bytes)
    (Htempo1 : tx_tx_type tx1 <> Some "0x76"%string)
    (Htempo2 : tx_tx_type tx2 <> Some "0x76"%string)
    (Hfit : fits out)
    (Henc1 : encode_transaction tx1 = Ok out) (Henc2 : encode_transaction tx2 = Ok out) :
  exists ty fields,
    tx_tree tx1 = Some (ty, fields) /\ tx_tree tx2 = Some (ty, fields)
    /\ out = wire_bytes (ty, fields).
Proof.
  apply transaction_writes in Henc1 as (w1 & H1 & ->); [|done].
  apply transaction_writes in Henc2 as (w2 & H2 & Heq); [|done].
  pose proof (wire_bytes_inj _ _ _ _ H1 H2 Hfit Heq) as <-.
  destruct w1 as [ty fields]. by exists ty, fields.
Qed.
End wire_theorems.

(** An EIP-1559 transaction whose gas the node spelled [gas] and whose input
    [input]. *)
Definition sample_tx_with (gas input : string) : RpcTransaction :=
  ({| tx_block_number := "0x1"; tx_block_hash := "0xb"; tx_hash := "0xa";
     tx_transaction_index := "0x0"; tx_chain_id := Some "0x1"; tx_from := "0x01";
     tx_to := Some "0x22"; tx_gas := gas; tx_gas_price := None; tx_input := Some input;
     tx_max_fee_per_gas := Some "0x64"; tx_max_priority_fee_per_gas := Some "0x2";
     tx_nonce := "0x7"; tx_v := Some "0x1"; tx_r := Some "0x123"; tx_s := Some "0x9";
     tx_tx_type := Some "0x2"; tx_value := Some "0x3e8"; tx_y_parity := None;
     tx_access_list := Some [Standard (mkAccessItemBoth "0x33" ["0x44"; "0x55"])];
     tx_max_fee_per_blob_gas := None; tx_blob_versioned_hashes := None;
     tx_authorization_list := None; tx_request_id := None; tx_ticket_id := None;
     tx_refund_to := None; tx_max_refund := None; tx_submission_fee_refund := None;
     tx_l1_base_fee := None; tx_deposit_value := None; tx_retry_to := None;
     tx_retry_value := None; tx_beneficiary := None; tx_max_submission_fee := None;
     tx_retry_data := None; tx_source_hash := None; tx_mint := None; tx_calls := None;
     tx_nonce_key := None; tx_timeout_timestamp := None; tx_signature := None;
     tx_fee_token := None; tx_fee_payer_signature := None; tx_valid_before := None;
     tx_valid_after := None; tx_aa_authorization_list := None; tx_key_authorization := None |})%string.

Definition sample_tx : string -> RpcTransaction := sample_tx_with "0x5208".

(** 2^128 does not fit a [u128], and reads as 0. *)
Example gas_overflow_reads_zero :
  encode_transaction (H := hex_ref) (sample_tx_with "0x100000000000000000000000000000000" "0x") =
  encode_transaction (H := hex_ref) (sample_tx_with "0x0" "0x").
Proof. vm_compute. reflexivity. Qed.

Definition sample_wire : bytes :=
  match encode_transaction (H := hex_ref) (sample_tx "0xAB") with Ok out => out | Err _ => [] end.

Lemma transaction_encoding_binds_witness :
  exists ty fields,
    tx_tree (H := hex_ref) (sample_tx "0xAB") = Some (ty, fields)
    /\ tx_tree (H := hex_ref) (sample_tx "0xab") = Some (ty, fields)
    /\ sample_wire = wire_bytes (ty, fields).
Proof.
  apply (@transaction_encoding_binds hex_ref (sample_tx "0xAB") (sample_tx "0xab") sample_wire).
  - done.
  - done.
  - by vm_compute.
  - by vm_compute.
  - by vm_compute.
Defined.
