(* ===== verification/Commitments.v ===== *)
(** * Commitments: block hash, logs bloom and trie roots

    [crates/evm-source/src/verification.rs]: the header fields and the two
    block hashes, the logs bloom with its parallel fold, the transactions,
    receipts and withdrawals roots, and the Polygon state-sync hash. Keccak
    and the trie builder are interfaces ([Keccak], [Trie]). *)
From stdpp Require Import pretty sorting.
From Stdlib Require Import Ascii.
From Stdlib Require Strings.String.
From S2P Require Import Prelude RpcData Rlp TxEncode.

Local Open Scope N_scope.
Local Open Scope rust_scope.

(** ** The third-party interfaces *)

(** [alloy_primitives::keccak256] and [sha3::Keccak256]: the same function. *)
Class Keccak := keccak256 : bytes -> bytes.

Class KeccakLaws (K : Keccak) : Prop := {
  keccak_length b : length (keccak256 b) = 32%nat;
  keccak_bytes b : Forall is_byte (keccak256 b)
}.

(** [alloy_rlp::encode] of a [U64], and [alloy_trie::HashBuilder] fed one
    leaf at a time: [None] is its panic. *)
Class Trie := {
  alloy_rlp_u64 : N -> bytes;
  trie_root : list (bytes * bytes) -> option bytes
}.

(** ** Byte order *)

(** [Vec<u8>]'s [cmp]: lexicographic. *)
Fixpoint bytes_leb (a b : bytes) : bool :=
  match a, b with
  | [], _ => true
  | _ :: _, [] => false
  | x :: a', y :: b' => (x <? y) || ((x =? y) && bytes_leb a' b')
  end.

Definition bytes_lt (a b : bytes) : Prop := bytes_leb a b = true /\ a <> b.

Definition leaf_le (p q : bytes * bytes) : Prop := bytes_leb (fst p) (fst q) = true.

#[export] Instance leaf_le_dec : RelDecision leaf_le.
Proof. intros p q. unfold leaf_le. apply _. Defined.

Class TrieLaws (T : Trie) : Prop := {
  (** RLP is injective on 64-bit integers. *)
  alloy_rlp_u64_inj i j :
    i <= usize_max -> j <= usize_max -> alloy_rlp_u64 i = alloy_rlp_u64 j -> i = j;
  (** [add_leaf] accepts strictly ascending keys. *)
  trie_root_ascending ls :
    StronglySorted (fun p q => bytes_lt (fst p) (fst q)) ls -> is_Some (trie_root ls)
}.

(** How rayon split the slice and merges the parts: any tree of contiguous
    pieces, an empty piece being the reduction's identity. *)
Inductive Split : Type :=
  | Piece (logs : list RpcLog)
  | Merge (l r : Split).

Fixpoint split_logs (t : Split) : list RpcLog :=
  match t with Piece logs => logs | Merge l r => split_logs l ++ split_logs r end.

Class Rayon := rayon_split : list RpcLog -> Split.

Class RayonLaws (R : Rayon) : Prop := {
  rayon_split_logs logs : split_logs (rayon_split logs) = logs
}.

Section commitments.
Context `{Hex} `{Keccak}.

(** ** Block hash *)

Definition hex_field_of (s : string) : Result RlpField string := map_ok FBytes (decode_hex s).
Definition qty_field (s : string) : RlpField := FUint (parse_qty_u128 s).

Definition optional_hex (o : option string) : Result (list RlpField) string :=
  match o with
  | None => Ok []
  | Some s => let? f := hex_field_of s in Ok [f]
  end.

Definition blob_fields (block : RpcBlock) : list RlpField :=
  match blk_blob_gas_used block, blk_excess_blob_gas block with
  | Some used, Some excess => [qty_field used; qty_field excess]
  | _, _ => []
  end.

Definition ethereum_header_fields (block : RpcBlock) : Result (list RlpField) string :=
  let? parent := hex_field_of (blk_parent_hash block) in
  let? uncles := hex_field_of (blk_sha3_uncles block) in
  let? miner := hex_field_of (blk_miner block) in
  let? state := hex_field_of (blk_state_root block) in
  let? txs := hex_field_of (blk_transactions_root block) in
  let? receipts := hex_field_of (blk_receipts_root block) in
  let? bloom := hex_field_of (blk_logs_bloom block) in
  let? difficulty := ok_or (blk_difficulty block) "block.difficulty is missing" in
  let? extra := hex_field_of (blk_extra_data block) in
  let? mix := ok_or (blk_mix_hash block) "block.mixHash is missing" in
  let? mix := hex_field_of mix in
  let? nonce := ok_or (blk_nonce block) "block.nonce is missing" in
  let? nonce := hex_field_of nonce in
  let base_fee := match blk_base_fee_per_gas block with Some f => [qty_field f] | None => [] end in
  let? withdrawals := optional_hex (blk_withdrawals_root block) in
  let? beacon := optional_hex (blk_parent_beacon_block_root block) in
  let? requests := optional_hex (blk_requests_hash block) in
  Ok ([parent; uncles; miner; state; txs; receipts; bloom; qty_field difficulty;
       qty_field (blk_number block); qty_field (blk_gas_limit block);
       qty_field (blk_gas_used block); qty_field (blk_timestamp block); extra; mix; nonce]
        ++ base_fee ++ withdrawals ++ blob_fields block ++ beacon ++ requests).

Definition hash_block_header_fields (fields : list RlpField) : string :=
  String.append "0x" (hex_encode (keccak256 (rlp_encode_list fields))).

Definition block_hash (block : RpcBlock) : Result string string :=
  let? fields := ethereum_header_fields block in
  Ok (hash_block_header_fields fields).

(** Tempo wraps the Ethereum header, itself a list, after three limits. *)
Definition tempo_header_fields (block : RpcBlock) : Result (list RlpField) string :=
  let? main_gas_limit := ok_or (blk_main_block_general_gas_limit block)
                           "block.mainBlockGeneralGasLimit is missing" in
  let? shared_gas_limit := ok_or (blk_shared_gas_limit block) "block.sharedGasLimit is missing" in
  let? ts_millis_part := ok_or (blk_timestamp_millis_part block)
                           "block.timestampMillisPart is missing" in
  let? inner := ethereum_header_fields block in
  Ok [qty_field main_gas_limit; qty_field shared_gas_limit; qty_field ts_millis_part;
      FRawList (rlp_encode_list inner)].

Definition tempo_block_hash (block : RpcBlock) : Result string string :=
  let? outer := tempo_header_fields block in
  Ok (hash_block_header_fields outer).

(** ** Logs bloom *)

Definition zero_bloom : bytes := replicate 256 0.

(** Sets one of the 2048 bits; [None] is an index out of bounds. *)
Definition set_bloom_bit (bloom : bytes) (bit_to_set : N) : option bytes :=
  let bit_index := 2047 - bit_to_set in
  let byte_index := N.to_nat (bit_index / 8) in
  let bit_value := N.shiftl 1 (7 - bit_index mod 8) in
  match bloom !! byte_index with
  | Some b => Some (<[byte_index := N.lor b bit_value]> bloom)
  | None => None
  end.

Definition bloom_bit (hash : bytes) (idx : nat) : option N :=
  match hash !! idx, hash !! S idx with
  | Some hi, Some lo => Some (N.land (N.lor (N.shiftl hi 8) lo) 2047)
  | _, _ => None
  end.

Definition add_to_bloom (bloom : bytes) (entry : bytes) : option bytes :=
  let hash := keccak256 entry in
  foldl (fun acc idx =>
    let! bloom := acc in
    let! bit := bloom_bit hash idx in
    set_bloom_bit bloom bit) (Some bloom) [0; 2; 4]%nat.

Definition bloom_entries (log : RpcLog) : list bytes :=
  decode_hex_or_empty (log_address log) :: map decode_hex_or_empty (log_topics log).

(** One worker's fold over its logs. *)
Definition bloom_fold (logs : list RpcLog) : option bytes :=
  foldl (fun acc log =>
    foldl (fun acc entry => let! bloom := acc in add_to_bloom bloom entry)
      acc (bloom_entries log)) (Some zero_bloom) logs.

Fixpoint bloom_reduce (t : Split) : option bytes :=
  match t with
  | Piece logs => bloom_fold logs
  | Merge l r =>
      let! a := bloom_reduce l in
      let! b := bloom_reduce r in
      Some (zip_with N.lor a b)
  end.

Definition logs_bloom `{Rayon} (logs : list RpcLog) : option string :=
  to_hex <$> bloom_reduce (rayon_split logs).

Definition is_bloom_superset (superset subset : string) : bool :=
  let sup := decode_hex_or_empty superset in
  let sub := decode_hex_or_empty subset in
  bool_decide (length sup = 256%nat) && bool_decide (length sub = 256%nat)
  && forallb (fun p => N.land (fst p) (snd p) =? snd p) (zip sup sub).

Definition verify_logs_bloom `{Rayon} (block : RpcBlock) (logs : list RpcLog)
    : option (Result () string) :=
  let! computed := logs_bloom logs in
  Some (if bool_decide (blk_logs_bloom block = computed) then Ok ()
        else Err ("failed to verify logs bloom: expected " +:+ blk_logs_bloom block
                    +:+ " got " +:+ computed)%string).

(** ** Trie roots *)

Context `{Trie}.

Definition rlp_index (idx : nat) : bytes := alloy_rlp_u64 (N.of_nat idx).

(** [sort_by(|a, b| a.0.cmp(&b.0))] and one [add_leaf] per leaf. *)
Definition root_of_leaves (keys_values : list (bytes * bytes)) : option string :=
  let! root := trie_root (merge_sort leaf_le keys_values) in
  Some (String.append "0x" (hex_encode root)).

(** Encodes the items in parallel; the earliest failure decides. *)
Definition indexed_leaves {A} (kind : string) (name : A -> string)
    (encode : A -> Result bytes string) (items : list A) : Result (list (bytes * bytes)) string :=
  collect_results (imap (fun idx a =>
    let? value := map_err (fun e => kind +:+ " " +:+ name a +:+ " (" +:+ pretty idx
                                      +:+ "): " +:+ e)%string (encode a) in
    Ok (rlp_index idx, value)) items).

Definition root_of (leaves : Result (list (bytes * bytes)) string)
    : option (Result string string) :=
  match leaves with
  | Err e => Some (Err e)
  | Ok keys_values => Ok <$> root_of_leaves keys_values
  end.

Definition transactions_root (txs : list RpcTransaction) : option (Result string string) :=
  root_of (indexed_leaves "transaction" tx_hash encode_transaction txs).

Definition receipts_root (receipts : list RpcReceipt) (use_gas_used : bool)
    : option (Result string string) :=
  root_of (indexed_leaves "receipt" rcpt_transaction_hash
             (fun r => encode_receipt r use_gas_used) receipts).

Definition withdrawals_root (withdrawals : list RpcWithdrawal) : option (Result string string) :=
  Ok <$> root_of_leaves (imap (fun idx w => (rlp_index idx, encode_withdrawal w)) withdrawals).

(** ** Polygon state-sync transactions *)

Definition string_bytes (s : string) : bytes := map N_of_ascii (Stdlib.Strings.String.list_ascii_of_string s).

Definition calculate_state_sync_tx_hash (block_num block_hash : string) : string :=
  let num := parse_qty_u128 block_num mod 2 ^ 64 in
  let input := string_bytes "matic-bor-receipt-" ++ to_be_bytes 8 num
                 ++ decode_hex_or_empty block_hash in
  String.append "0x" (hex_encode (keccak256 input)).
End commitments.

(** ** The bloom as a set of bits *)

(** Bit [k] of the 2048, counted as the header does: from the last byte's
    lowest bit up. *)
Definition has_bit (bloom : bytes) (k : N) : bool :=
  match bloom !! N.to_nat ((2047 - k) / 8) with
  | Some b => N.testbit b (7 - (2047 - k) mod 8)
  | None => false
  end.

Section bloom.
Context `{Hex} `{!HexLaws H} `{Keccak} `{!KeccakLaws H0}.

(** The three bits an entry stands for: the low 11 bits of the first three
    16-bit words of its hash. *)
Definition entry_bits (entry : bytes) : list N :=
  omap (bloom_bit (keccak256 entry)) [0; 2; 4]%nat.

Definition in_bloom (entries : list bytes) (k : N) : Prop :=
  exists e, e ∈ entries /\ k ∈ entry_bits e.

Definition is_bloom (bl : bytes) : Prop := length bl = 256%nat /\ Forall is_byte bl.

(** [bl] holds exactly the bits of [entries]. *)
Definition blooms (entries : list bytes) (bl : bytes) : Prop :=
  is_bloom bl /\ forall k, k <= 2047 -> has_bit bl k = true <-> in_bloom entries k.

Lemma byte_index_bound k : (N.to_nat ((2047 - k) / 8) < 256)%nat.
Proof.
  enough ((2047 - k) / 8 < 256) by lia. apply N.Div0.div_lt_upper_bound. lia.
Qed.

Lemma lor_byte a b : is_byte a -> is_byte b -> is_byte (N.lor a b).
Proof.
  unfold is_byte. intros Ha Hb. change 256 with (2 ^ 8) in *.
  destruct (decide (N.lor a b = 0)) as [->|Hnz]; [lia|].
  apply N.log2_lt_pow2; [lia|]. rewrite N.log2_lor.
  destruct (decide (a = 0)) as [->|], (decide (b = 0)) as [->|]; cbn;
    repeat match goal with H : ?x < 2 ^ 8, H' : ?x <> 0 |- _ =>
      apply N.log2_lt_pow2 in H; [|lia] end; lia.
Qed.

Lemma pow2_byte p : p <= 7 -> is_byte (N.shiftl 1 p).
Proof.
  intros Hp. rewrite N.shiftl_1_l. unfold is_byte. change 256 with (2 ^ 8).
  apply N.pow_lt_mono_r; lia.
Qed.

(** The position of a bit determines it. *)
Lemma bit_position_inj j k :
  j <= 2047 -> k <= 2047 ->
  (2047 - j) / 8 = (2047 - k) / 8 -> 7 - (2047 - j) mod 8 = 7 - (2047 - k) mod 8 -> j = k.
Proof.
  intros Hj Hk Hd Hm.
  pose proof (N.div_mod' (2047 - j) 8). pose proof (N.div_mod' (2047 - k) 8).
  pose proof (N.mod_lt (2047 - j) 8 ltac:(lia)). pose proof (N.mod_lt (2047 - k) 8 ltac:(lia)).
  lia.
Qed.

Lemma set_bloom_bit_spec bl k :
  is_bloom bl -> k <= 2047 ->
  exists bl', set_bloom_bit bl k = Some bl' /\ is_bloom bl'
    /\ forall j, j <= 2047 -> has_bit bl' j = has_bit bl j || (j =? k).
Proof.
  intros [Hlen Hb] Hk. unfold set_bloom_bit.
  case_match eqn:Hlk.
  2: { apply lookup_ge_None in Hlk. pose proof (byte_index_bound k). lia. }
  eexists. split; [done|]. split.
  { split; [by rewrite length_insert|]. apply Forall_insert; [done|].
    apply lor_byte; [by eapply (Forall_lookup_1 _ _ _ _ Hb)|].
    apply pow2_byte. apply N.le_sub_l. }
  intros j Hj. unfold has_bit.
  destruct (decide (N.to_nat ((2047 - j) / 8) = N.to_nat ((2047 - k) / 8))) as [He|Hne].
  - rewrite He, list_lookup_insert_eq, Hlk by (rewrite Hlen; apply byte_index_bound).
    rewrite N.lor_spec, N.shiftl_1_l, N.pow2_bits_eqb. f_equal.
    destruct (N.eqb_spec j k) as [->|Hjk]; [apply N.eqb_refl|].
    apply N.eqb_neq. intros Hbit. apply Hjk, bit_position_inj; lia.
  - rewrite list_lookup_insert_ne by done.
    destruct (N.eqb_spec j k) as [->|]; [done|]. by rewrite orb_false_r.
Qed.

Lemma bloom_bit_bound hash idx k : bloom_bit hash idx = Some k -> k <= 2047.
Proof.
  unfold bloom_bit. destruct (hash !! idx) as [hi|], (hash !! S idx) as [lo|]; intros; simplify_eq.
  generalize (N.lor (N.shiftl hi 8) lo). intros n.
  assert (N.land n 2047 = n mod 2048) as -> by apply (N.land_ones n 11).
  pose proof (N.mod_lt n 2048 ltac:(done)). lia.
Qed.

Lemma bloom_bit_in_range e idx :
  (S idx < 32)%nat -> exists k, bloom_bit (keccak256 e) idx = Some k /\ k <= 2047.
Proof.
  intros Hi. pose proof (keccak_length e) as Hlen.
  destruct (bloom_bit (keccak256 e) idx) as [k|] eqn:Hk;
    [eauto using bloom_bit_bound|]. exfalso. unfold bloom_bit in Hk.
  destruct (keccak256 e !! idx) eqn:H1; [|apply lookup_ge_None in H1; lia].
  destruct (keccak256 e !! S idx) eqn:H2; [done|apply lookup_ge_None in H2; lia].
Qed.

Lemma set_bits_spec e idxs bl :
  Forall (fun i => (S i < 32)%nat) idxs -> is_bloom bl ->
  exists bl',
    foldl (fun acc idx =>
      let! bloom := acc in
      let! bit := bloom_bit (keccak256 e) idx in
      set_bloom_bit bloom bit) (Some bl) idxs = Some bl' /\ is_bloom bl'
    /\ forall k, k <= 2047 ->
         has_bit bl' k = true <->
         has_bit bl k = true \/ k ∈ omap (bloom_bit (keccak256 e)) idxs.
Proof.
  intros Hidx. revert bl. induction Hidx as [|i idxs Hi _ IH]; intros bl Hbl; cbn [foldl].
  - exists bl. split_and!; [done|done|]. intros k _. cbn. rewrite elem_of_nil. tauto.
  - destruct (bloom_bit_in_range e i Hi) as (b & Hb & Hle). rewrite Hb.
    destruct (set_bloom_bit_spec bl b Hbl Hle) as (bl1 & -> & Hbl1 & Hbits).
    destruct (IH bl1 Hbl1) as (bl2 & -> & Hbl2 & Hbits2). exists bl2.
    split_and!; [done|done|]. intros k Hk. rewrite Hbits2, Hbits by done.
    cbn [omap list_omap]. rewrite Hb, elem_of_cons, orb_true_iff, N.eqb_eq. tauto.
Qed.

Lemma add_to_bloom_spec bl e entries :
  blooms entries bl ->
  exists bl', add_to_bloom bl e = Some bl' /\ blooms (entries ++ [e]) bl'.
Proof.
  intros [Hbl Hbits]. unfold add_to_bloom.
  destruct (set_bits_spec e [0; 2; 4]%nat bl) as (bl' & -> & Hbl' & Hb);
    [repeat constructor; lia|done|].
  exists bl'. split; [done|]. split; [done|]. intros k Hk. rewrite Hb, Hbits by done.
  unfold in_bloom, entry_bits. setoid_rewrite elem_of_app. setoid_rewrite list_elem_of_singleton.
  naive_solver.
Qed.

Lemma add_entries_spec es : forall bl entries,
  blooms entries bl ->
  exists bl', foldl (fun acc entry => let! bloom := acc in add_to_bloom bloom entry)
                (Some bl) es = Some bl' /\ blooms (entries ++ es) bl'.
Proof.
  induction es as [|e es IH]; intros bl entries Hb; cbn [foldl].
  - exists bl. by rewrite app_nil_r.
  - destruct (add_to_bloom_spec bl e entries Hb) as (bl1 & -> & Hb1).
    destruct (IH bl1 _ Hb1) as (bl2 & -> & Hb2). exists bl2.
    by rewrite <-app_assoc in Hb2.
Qed.

Lemma zero_bloom_spec : blooms [] zero_bloom.
Proof.
  split; [split; [done|by apply Forall_replicate]|]. intros k Hk. split.
  - unfold has_bit, zero_bloom. rewrite lookup_replicate_2 by apply byte_index_bound.
    by rewrite N.bits_0.
  - intros (e & He & _). by apply elem_of_nil in He.
Qed.

Definition log_entries (logs : list RpcLog) : list bytes := concat (map bloom_entries logs).

Lemma bloom_fold_spec logs :
  exists bl, bloom_fold logs = Some bl /\ blooms (log_entries logs) bl.
Proof.
  unfold bloom_fold.
  enough (forall bl entries, blooms entries bl -> exists bl',
    foldl (fun acc log =>
      foldl (fun acc entry => let! bloom := acc in add_to_bloom bloom entry)
        acc (bloom_entries log)) (Some bl) logs = Some bl'
    /\ blooms (entries ++ log_entries logs) bl') as Hgen
    by (apply (Hgen zero_bloom []), zero_bloom_spec).
  unfold log_entries. induction logs as [|log logs IH]; intros bl entries Hb; cbn [foldl map concat].
  - exists bl. by rewrite app_nil_r.
  - destruct (add_entries_spec (bloom_entries log) bl entries Hb) as (bl1 & -> & Hb1).
    destruct (IH bl1 _ Hb1) as (bl2 & -> & Hb2). exists bl2. by rewrite <-app_assoc in Hb2.
Qed.

Lemma merge_blooms es1 es2 a b :
  blooms es1 a -> blooms es2 b -> blooms (es1 ++ es2) (zip_with N.lor a b).
Proof.
  intros [[Hla Hba] Ha] [[Hlb Hbb] Hb]. split.
  - split; [rewrite length_zip_with; lia|]. apply Forall_lookup. intros i x Hx.
    apply lookup_zip_with_Some in Hx as (y & z & -> & Hy & Hz).
    apply lor_byte; [by eapply (Forall_lookup_1 _ _ _ _ Hba)|by eapply (Forall_lookup_1 _ _ _ _ Hbb)].
  - intros k Hk. transitivity (has_bit a k = true \/ has_bit b k = true).
    + unfold has_bit. rewrite lookup_zip_with. pose proof (byte_index_bound k) as Hidx.
      destruct (a !! _) as [x|] eqn:Hx; [|apply lookup_ge_None in Hx; lia].
      destruct (b !! _) as [y|] eqn:Hy; [|apply lookup_ge_None in Hy; lia].
      cbn. by rewrite N.lor_spec, orb_true_iff.
    + rewrite Ha, Hb by done. unfold in_bloom. setoid_rewrite elem_of_app. naive_solver.
Qed.

Lemma split_entries l r :
  log_entries (split_logs l ++ split_logs r) = log_entries (split_logs l) ++ log_entries (split_logs r).
Proof. unfold log_entries. by rewrite map_app, concat_app. Qed.

Lemma bloom_reduce_spec t :
  exists bl, bloom_reduce t = Some bl /\ blooms (log_entries (split_logs t)) bl.
Proof.
  induction t as [logs|l (a & Ha & Hba) r (b & Hb & Hbb)]; cbn [bloom_reduce split_logs].
  - apply bloom_fold_spec.
  - rewrite Ha, Hb. eexists. split; [done|]. rewrite split_entries. by apply merge_blooms.
Qed.

(** Blooms with the same bits are the same bytes. *)
Lemma bit_of_position i p :
  (i < 256)%nat -> p <= 7 ->
  exists k, k <= 2047 /\ N.to_nat ((2047 - k) / 8) = i /\ 7 - (2047 - k) mod 8 = p.
Proof.
  intros Hi Hp. exists (2047 - (8 * N.of_nat i + (7 - p))). split; [lia|].
  replace (2047 - _) with (N.of_nat i * 8 + (7 - p)) by lia.
  rewrite N.div_add_l, N.div_small by lia. rewrite (N.add_comm (_ * 8)), N.Div0.mod_add, N.mod_small by lia.
  lia.
Qed.

Lemma bloom_ext a b :
  is_bloom a -> is_bloom b ->
  (forall k, k <= 2047 -> has_bit a k = true <-> has_bit b k = true) -> a = b.
Proof.
  intros [Hla Hba] [Hlb Hbb] Hbits. apply list_eq. intros i.
  destruct (decide (i < 256)%nat) as [Hi|];
    [|rewrite !lookup_ge_None_2 by lia; done].
  destruct (lookup_lt_is_Some_2 a i) as [x Hx]; [lia|].
  destruct (lookup_lt_is_Some_2 b i) as [y Hy]; [lia|].
  rewrite Hx, Hy. f_equal. apply N.bits_inj. intros p.
  destruct (decide (p <= 7)) as [Hp|Hp].
  - destruct (bit_of_position i p Hi Hp) as (k & Hk & Hki & Hkp).
    specialize (Hbits k Hk). unfold has_bit in Hbits.
    rewrite Hki, Hkp, Hx, Hy in Hbits. apply eq_true_iff_eq, Hbits.
  - pose proof (Forall_lookup_1 _ _ _ _ Hba Hx) as Hxb.
    pose proof (Forall_lookup_1 _ _ _ _ Hbb Hy) as Hyb. unfold is_byte in *.
    rewrite <-(N.mod_small x (2 ^ 8)), <-(N.mod_small y (2 ^ 8)) by done.
    rewrite !N.mod_pow2_bits_high by lia. done.
Qed.

Context `{Rayon} `{!RayonLaws H1}.

(** C34: The logs bloom is a function of the set of addresses and topics: it is
    computed without an index out of bounds, is 256 bytes, and its bit [k] is
    set exactly when [k] is one of the three bits of some log's address or
    topic. How rayon splits the logs and in which order it merges the parts
    cannot be seen: any list of logs with the same entries gives the same
    string. *)
Theorem logs_bloom_correct (logs : list RpcLog) :
  (exists bl, logs_bloom logs = Some (to_hex bl) /\ is_bloom bl
     /\ forall k, k <= 2047 -> has_bit bl k = true <-> in_bloom (log_entries logs) k)
  /\ (forall logs', (forall e, e ∈ log_entries logs' <-> e ∈ log_entries logs) ->
        logs_bloom logs' = logs_bloom logs).
Proof.
  assert (forall l, exists bl, logs_bloom l = Some (to_hex bl) /\ blooms (log_entries l) bl) as Hall.
  { intros l. unfold logs_bloom. destruct (bloom_reduce_spec (rayon_split l)) as (bl & -> & Hb).
    exists bl. by rewrite rayon_split_logs in Hb. }
  split.
  - destruct (Hall logs) as (bl & Hbl & [? ?]). eauto.
  - intros logs' Hsame. destruct (Hall logs) as (a & -> & [Ha Hka]).
    destruct (Hall logs') as (b & -> & [Hb Hkb]). do 2 f_equal. apply bloom_ext; [done..|].
    intros k Hk. rewrite Hka, Hkb by done. unfold in_bloom. by setoid_rewrite Hsame.
Qed.
End bloom.

(** ** Leaf order *)

Lemma bytes_leb_total a b : bytes_leb a b = true \/ bytes_leb b a = true.
Proof.
  revert b. induction a as [|x a IH]; intros [|y b]; cbn; [tauto..|].
  destruct (N.ltb_spec x y), (N.ltb_spec y x), (N.eqb_spec x y), (N.eqb_spec y x);
    cbn; try lia; try tauto. apply IH.
Qed.

Lemma bytes_leb_trans a b c :
  bytes_leb a b = true -> bytes_leb b c = true -> bytes_leb a c = true.
Proof.
  revert b c. induction a as [|x a IH]; intros [|y b] [|z c]; cbn; try done.
  rewrite !orb_true_iff, !andb_true_iff, !N.ltb_lt, !N.eqb_eq.
  intros [?|[-> ?]] [?|[-> ?]]; [left; lia|tauto|tauto|]. right. split; [done|by eapply IH].
Qed.

#[export] Instance leaf_le_total : Total leaf_le.
Proof. intros p q. apply bytes_leb_total. Qed.
#[export] Instance leaf_le_trans : Transitive leaf_le.
Proof. intros p q r. apply bytes_leb_trans. Qed.

Lemma sorted_strict ls :
  StronglySorted leaf_le ls -> NoDup (map fst ls) ->
  StronglySorted (fun p q => bytes_lt (fst p) (fst q)) ls.
Proof.
  induction 1 as [|p ls _ IH Hall]; cbn [map]; intros Hnd; [constructor|].
  apply NoDup_cons in Hnd as [Hni Hnd]. constructor; [by apply IH|].
  rewrite Forall_forall in *. intros q Hq. split; [by apply Hall|].
  intros Heq. apply Hni. rewrite Heq. apply list_elem_of_fmap. by exists q.
Qed.

Lemma collect_results_cases {A E} (l : list (Result A E)) :
  (exists i e, l !! i = Some (Err e) /\ (forall j r, (j < i)%nat -> l !! j = Some r -> is_ok r = true)
     /\ collect_results l = Err e)
  \/ (exists vs, collect_results l = Ok vs /\ Forall2 (fun r v => r = Ok v) l vs).
Proof.
  induction l as [|[a|e] l [(i & e' & Hi & Hmin & Hc)|(vs & Hc & Hall)]]; cbn; rewrite ?Hc.
  - right. by exists [].
  - left. exists (S i), e'. split_and!; [done| |done].
    intros [|j] r Hj Hr; [by simplify_eq/=|]. apply (Hmin j); [lia|done].
  - right. exists (a :: vs). by repeat constructor.
  - left. exists 0%nat, e. split_and!; [done|lia|done].
  - left. exists 0%nat, e. split_and!; [done|lia|done].
Qed.

Section roots.
Context `{Hex} `{Trie} `{!TrieLaws H0}.

Lemma leaves_ascending (values : list bytes) :
  N.of_nat (length values) <= usize_max ->
  let ls := imap (fun i v => (rlp_index i, v)) values in
  merge_sort leaf_le ls ≡ₚ ls
  /\ StronglySorted (fun p q => bytes_lt (fst p) (fst q)) (merge_sort leaf_le ls).
Proof.
  intros Hlen ls. assert (merge_sort leaf_le ls ≡ₚ ls) as Hperm by apply merge_sort_Permutation.
  split; [done|]. apply sorted_strict; [apply (StronglySorted_merge_sort _)|].
  assert (map fst (merge_sort leaf_le ls) ≡ₚ map fst ls) as -> by by apply Permutation_map.
  apply NoDup_alt. intros i j k Hi Hj.
  rewrite list_lookup_fmap in Hi, Hj. unfold ls in Hi, Hj. rewrite list_lookup_imap in Hi, Hj.
  destruct (values !! i) eqn:Hvi; [|done]. destruct (values !! j) eqn:Hvj; [|done].
  cbn in Hi, Hj. apply lookup_lt_Some in Hvi, Hvj. simplify_eq.
  apply Nat2N.inj. eapply alloy_rlp_u64_inj; [..|done]; lia.
Qed.

Lemma root_of_leaves_ok values :
  N.of_nat (length values) <= usize_max ->
  exists ls root,
    ls ≡ₚ imap (fun i v => (rlp_index i, v)) values
    /\ StronglySorted (fun p q => bytes_lt (fst p) (fst q)) ls
    /\ trie_root ls = Some root
    /\ root_of_leaves (imap (fun i v => (rlp_index i, v)) values)
       = Some (String.append "0x" (hex_encode root)).
Proof.
  intros Hlen. destruct (leaves_ascending values Hlen) as [Hperm Hsorted].
  destruct (trie_root_ascending _ Hsorted) as [root Hroot].
  exists (merge_sort leaf_le (imap (fun i v => (rlp_index i, v)) values)), root.
  split_and!; [done..|]. unfold root_of_leaves. by rewrite Hroot.
Qed.

(** What a root computation over [items] may yield. *)
Definition root_spec {A} (kind : string) (name : A -> string) (encode : A -> Result bytes string)
    (items : list A) (res : option (Result string string)) : Prop :=
  (exists i a e,
     items !! i = Some a /\ encode a = Err e
     /\ (forall j b, (j < i)%nat -> items !! j = Some b -> is_ok (encode b) = true)
     /\ res = Some (Err (kind +:+ " " +:+ name a +:+ " (" +:+ pretty i +:+ "): " +:+ e)%string))
  \/ (exists values ls root,
     Forall2 (fun a v => encode a = Ok v) items values
     /\ ls ≡ₚ imap (fun i v => (rlp_index i, v)) values
     /\ StronglySorted (fun p q => bytes_lt (fst p) (fst q)) ls
     /\ trie_root ls = Some root
     /\ res = Some (Ok (String.append "0x" (hex_encode root)))).

Lemma leaves_of_values {A} (encode : A -> Result bytes string) (f : nat -> A -> Result (bytes * bytes) string)
    items leaves :
  (forall i a p, f i a = Ok p -> fst p = rlp_index i /\ encode a = Ok (snd p)) ->
  Forall2 (fun r v => r = Ok v) (imap f items) leaves ->
  exists values, Forall2 (fun a v => encode a = Ok v) items values
    /\ leaves = imap (fun i v => (rlp_index i, v)) values.
Proof.
  intros Hf Hall.
  assert (forall i p, leaves !! i = Some p ->
    exists a, items !! i = Some a /\ fst p = rlp_index i /\ encode a = Ok (snd p)) as Hlk.
  { intros i p Hp. destruct (Forall2_lookup_r _ _ _ _ _ Hall Hp) as (r & Hr & ->).
    rewrite list_lookup_imap in Hr. destruct (items !! i) as [a|]; [|done]. cbn in Hr.
    injection Hr as Hr. exists a. split; [done|]. apply Hf in Hr. done. }
  apply Forall2_length in Hall. rewrite length_imap in Hall.
  exists (map snd leaves). split.
  - apply Forall2_same_length_lookup_2; [by rewrite length_map|].
    intros i a v Ha Hv. apply list_lookup_fmap_Some in Hv as (p & -> & Hp).
    destruct (Hlk i p Hp) as (a' & Ha' & _ & He). congruence.
  - apply list_eq. intros i. rewrite list_lookup_imap, list_lookup_fmap.
    destruct (leaves !! i) as [p|] eqn:Hp; cbn; [|done].
    destruct (Hlk i p Hp) as (a & _ & <- & _). by destruct p.
Qed.

Lemma root_of_spec {A} kind (name : A -> string) encode items :
  N.of_nat (length items) <= usize_max ->
  root_spec kind name encode items (root_of (indexed_leaves kind name encode items)).
Proof.
  intros Hlen. unfold indexed_leaves.
  match goal with |- context [imap ?g items] => set (f := g) end.
  destruct (collect_results_cases (imap f items)) as [(i & e & Hi & Hmin & ->)|(leaves & -> & Hall)].
  - left. rewrite list_lookup_imap in Hi. destruct (items !! i) as [a|] eqn:Ha; [|done].
    cbn in Hi. injection Hi as Hi. unfold f in Hi. cbn beta in Hi. destruct (encode a) as [v|e0] eqn:He; [done|].
    cbn in Hi. injection Hi as <-. exists i, a, e0. split_and!; [done..| |done].
    intros j b Hj Hb. specialize (Hmin j (f j b) Hj). rewrite list_lookup_imap, Hb in Hmin.
    specialize (Hmin eq_refl). unfold f in Hmin. cbn beta in Hmin. by destruct (encode b).
  - right. destruct (leaves_of_values encode f items leaves) as (values & Hvals & ->);
      [..|done|].
    + intros i a p. unfold f. cbn beta. destruct (encode a); [|done]. by intros [= <-].
    + destruct (root_of_leaves_ok values) as (ls & root & H1' & H2 & H3 & H4);
        [by rewrite <-(Forall2_length _ _ _ Hvals)|].
      exists values, ls, root. split_and!; [done..|]. cbn. by rewrite H4.
Qed.

(** A transactions or receipts root never trips the trie builder: the leaves
    reach it in strictly ascending key order, and they are exactly the
    encodings keyed by their index in the block. If an item will not encode,
    the result is the error of the earliest such item, which names it. *)
Theorem roots_well_fed (txs : list RpcTransaction) (receipts : list RpcReceipt) (use_gas_used : bool)
    (Htxs : N.of_nat (length txs) <= usize_max)
    (Hreceipts : N.of_nat (length receipts) <= usize_max) :
  root_spec "transaction" tx_hash encode_transaction txs (transactions_root txs)
  /\ root_spec "receipt" rcpt_transaction_hash (fun r => encode_receipt r use_gas_used) receipts
       (receipts_root receipts use_gas_used).
Proof. split; by apply root_of_spec. Qed.
End roots.

(** ** What a block hash commits to *)

Section header.
Context `{Hex} `{Keccak}.

Definition field_tree (f : RlpField) : RlpTree :=
  match f with
  | FBytes b => Leaf b
  | FUint n => qty_leaf n
  | FRawList _ => Leaf []
  end.

Definition is_plain (f : RlpField) : Prop :=
  match f with FRawList _ => False | _ => True end.

Definition hex_leaf (s : string) : RlpTree := Leaf (decode_hex_or_empty s).
Definition num_leaf (s : string) : RlpTree := qty_leaf (parse_qty_u128 s).

Definition opt_leaf (leaf : string -> RlpTree) (o : option string) : list RlpTree :=
  match o with Some s => [leaf s] | None => [] end.

(** The Ethereum header: fifteen fields, then those the forks added. *)
Definition header_content (b : RpcBlock) : list RlpTree :=
  [hex_leaf (blk_parent_hash b); hex_leaf (blk_sha3_uncles b); hex_leaf (blk_miner b);
   hex_leaf (blk_state_root b); hex_leaf (blk_transactions_root b);
   hex_leaf (blk_receipts_root b); hex_leaf (blk_logs_bloom b);
   num_leaf (default ""%string (blk_difficulty b)); num_leaf (blk_number b);
   num_leaf (blk_gas_limit b); num_leaf (blk_gas_used b); num_leaf (blk_timestamp b);
   hex_leaf (blk_extra_data b); hex_leaf (default ""%string (blk_mix_hash b));
   hex_leaf (default ""%string (blk_nonce b))]
    ++ opt_leaf num_leaf (blk_base_fee_per_gas b) ++ opt_leaf hex_leaf (blk_withdrawals_root b)
    ++ match blk_blob_gas_used b, blk_excess_blob_gas b with
       | Some used, Some excess => [num_leaf used; num_leaf excess]
       | _, _ => []
       end
    ++ opt_leaf hex_leaf (blk_parent_beacon_block_root b) ++ opt_leaf hex_leaf (blk_requests_hash b).

Lemma hex_field_ok s f :
  hex_field_of s = Ok f -> f = FBytes (decode_hex_or_empty s).
Proof.
  unfold hex_field_of. destruct (decode_hex s) as [b|] eqn:Hd; [|done].
  intros [= <-]. by rewrite (decode_hex_ok _ _ Hd).
Qed.

Lemma optional_hex_ok o fs :
  optional_hex o = Ok fs -> map field_tree fs = opt_leaf hex_leaf o /\ Forall is_plain fs.
Proof.
  unfold optional_hex. destruct o as [s|]; [|by intros [= <-]].
  destruct (hex_field_of s) as [f|] eqn:Hf; [|done]. intros [= <-].
  rewrite (hex_field_ok _ _ Hf). by repeat constructor.
Qed.

Lemma header_fields_content b fields :
  ethereum_header_fields b = Ok fields ->
  map field_tree fields = header_content b /\ Forall is_plain fields.
Proof.
  unfold ethereum_header_fields. intros Hf. repeat step_ok.
  repeat match goal with
  | E : ok_or ?o _ = Ok _ |- _ => destruct o eqn:?; [injection E as <-|discriminate E]
  | E : hex_field_of _ = Ok _ |- _ => apply hex_field_ok in E; subst
  | E : optional_hex _ = Ok _ |- _ => apply optional_hex_ok in E as [? ?]
  end.
  injection Hf as <-. unfold header_content. cbn [map app]. rewrite !map_app.
  repeat match goal with E : map field_tree _ = _ |- _ => rewrite E; clear E end.
  repeat match goal with E : _ = Some _ |- _ => rewrite E; clear E end.
  unfold blob_fields.
  destruct (blk_base_fee_per_gas b), (blk_blob_gas_used b), (blk_excess_blob_gas b);
    (split; [done|]);
    repeat first [assumption|apply Forall_nil_2|apply Forall_cons_2; [exact I|]|apply Forall_app_2].
Qed.

Lemma plain_list_tree fields :
  Forall is_plain fields -> rlp_encode_list fields = encode_tree (Node (map field_tree fields)).
Proof.
  intros Hp. unfold rlp_encode_list. cbn [encode_tree]. f_equal. rewrite map_map.
  induction Hp as [|f fs Hf _ IH]; [done|]. rewrite fmap_cons. cbn [map]. f_equal; [|done].
  destruct f; cbn [encode_rlp_field field_tree]; [done|by rewrite encode_qty|done].
Qed.

Definition tempo_content (b : RpcBlock) : list RlpTree :=
  [num_leaf (default ""%string (blk_main_block_general_gas_limit b));
   num_leaf (default ""%string (blk_shared_gas_limit b));
   num_leaf (default ""%string (blk_timestamp_millis_part b)); Node (header_content b)].

Lemma tempo_fields_content b fields :
  tempo_header_fields b = Ok fields ->
  rlp_encode_list fields = encode_tree (Node (tempo_content b)).
Proof.
  unfold tempo_header_fields, tempo_content. intros Hf. repeat step_ok.
  repeat match goal with
  | E : ok_or ?o _ = Ok _ |- _ => destruct o eqn:?; [injection E as <-|discriminate E]
  | E : ethereum_header_fields _ = Ok _ |- _ => apply header_fields_content in E as [<- ?]
  end.
  injection Hf as <-. unfold rlp_encode_list at 1. cbn [encode_tree]. f_equal.
  rewrite !fmap_cons. cbn [map encode_rlp_field fmap list_fmap from_option id].
  rewrite plain_list_tree by done. unfold num_leaf, qty_field. cbn [encode_rlp_field].
  by rewrite !encode_qty.
Qed.

(** What a header says, as the code reads it: bytes for hex data, numbers for
    quantities (one above 128 bits reads as 0), and which fork fields are there. *)
Record HeaderValues := mkHeaderValues {
  hv_bytes : list bytes;
  hv_numbers : list N;
  hv_base_fee : option N;
  hv_withdrawals : option bytes;
  hv_blob : option (N * N);
  hv_beacon : option bytes;
  hv_requests : option bytes
}.

Definition blob_pair (b : RpcBlock) : option (string * string) :=
  match blk_blob_gas_used b, blk_excess_blob_gas b with
  | Some used, Some excess => Some (used, excess)
  | _, _ => None
  end.

Definition header_values (b : RpcBlock) : HeaderValues := {|
  hv_bytes := decode_hex_or_empty <$>
    [blk_parent_hash b; blk_sha3_uncles b; blk_miner b; blk_state_root b; blk_transactions_root b;
     blk_receipts_root b; blk_logs_bloom b; blk_extra_data b; default ""%string (blk_mix_hash b);
     default ""%string (blk_nonce b)];
  hv_numbers := parse_qty_u128 <$>
    [default ""%string (blk_difficulty b); blk_number b; blk_gas_limit b; blk_gas_used b; blk_timestamp b];
  hv_base_fee := parse_qty_u128 <$> blk_base_fee_per_gas b;
  hv_withdrawals := decode_hex_or_empty <$> blk_withdrawals_root b;
  hv_blob := prod_map parse_qty_u128 parse_qty_u128 <$> blob_pair b;
  hv_beacon := decode_hex_or_empty <$> blk_parent_beacon_block_root b;
  hv_requests := decode_hex_or_empty <$> blk_requests_hash b
|}.

Definition present {A} (o : option A) : bool := match o with Some _ => true | None => false end.

(** Which of the fork fields a header has. *)
Definition fork_fields (b : RpcBlock) : list bool :=
  [present (blk_base_fee_per_gas b); present (blk_withdrawals_root b); present (blob_pair b);
   present (blk_parent_beacon_block_root b); present (blk_requests_hash b)].

(** Each fork keeps the fields of the forks before it. *)
Fixpoint nested (l : list bool) : bool :=
  match l with
  | [] => true
  | true :: l => nested l
  | false :: l => forallb negb l
  end.

Definition optional_content (b : RpcBlock) : list RlpTree :=
  opt_leaf num_leaf (blk_base_fee_per_gas b) ++ opt_leaf hex_leaf (blk_withdrawals_root b)
    ++ match blob_pair b with Some (used, excess) => [num_leaf used; num_leaf excess] | None => [] end
    ++ opt_leaf hex_leaf (blk_parent_beacon_block_root b) ++ opt_leaf hex_leaf (blk_requests_hash b).

Lemma hex_leaf_inj s t : hex_leaf s = hex_leaf t -> decode_hex_or_empty s = decode_hex_or_empty t.
Proof. by intros [= ->]. Qed.

Lemma num_leaf_inj s t : num_leaf s = num_leaf t -> parse_qty_u128 s = parse_qty_u128 t.
Proof. apply qty_leaf_inj; apply parse_qty_max. Qed.

Lemma opt_leaf_inj {V} (leaf : string -> RlpTree) (value : string -> V) o1 o2 r1 r2 :
  (forall s t, leaf s = leaf t -> value s = value t) -> present o1 = present o2 ->
  opt_leaf leaf o1 ++ r1 = opt_leaf leaf o2 ++ r2 -> value <$> o1 = value <$> o2 /\ r1 = r2.
Proof.
  intros Hinj Hp Heq. destruct o1 as [s|], o2 as [t|]; try done. cbn in Heq. injection Heq as Hl Hr.
  cbn. split; [f_equal; by apply Hinj|done].
Qed.

(** Nested fork fields are told by their number. *)
Lemma nested_fields b1 b2 :
  nested (fork_fields b1) = true -> nested (fork_fields b2) = true ->
  optional_content b1 = optional_content b2 -> fork_fields b1 = fork_fields b2.
Proof.
  intros H1 H2 Heq. apply (f_equal length) in Heq. revert H1 H2 Heq.
  unfold optional_content, fork_fields. rewrite !length_app.
  destruct (blk_base_fee_per_gas b1), (blk_withdrawals_root b1), (blob_pair b1) as [[]|],
    (blk_parent_beacon_block_root b1), (blk_requests_hash b1); cbn; try done; intros _;
  destruct (blk_base_fee_per_gas b2), (blk_withdrawals_root b2), (blob_pair b2) as [[]|],
    (blk_parent_beacon_block_root b2), (blk_requests_hash b2); cbn; done.
Qed.

Lemma header_content_split b :
  header_content b =
    (hex_leaf <$> [blk_parent_hash b; blk_sha3_uncles b; blk_miner b; blk_state_root b;
                   blk_transactions_root b; blk_receipts_root b; blk_logs_bloom b])
    ++ (num_leaf <$> [default ""%string (blk_difficulty b); blk_number b; blk_gas_limit b;
                      blk_gas_used b; blk_timestamp b])
    ++ (hex_leaf <$> [blk_extra_data b; default ""%string (blk_mix_hash b); default ""%string (blk_nonce b)])
    ++ optional_content b.
Proof. unfold header_content, optional_content, blob_pair. by destruct (blk_blob_gas_used b), (blk_excess_blob_gas b). Qed.

Lemma fmap_leaf_inj {V} (leaf : string -> RlpTree) (value : string -> V) (l1 l2 : list string) :
  (forall s t, leaf s = leaf t -> value s = value t) ->
  leaf <$> l1 = leaf <$> l2 -> value <$> l1 = value <$> l2.
Proof.
  intros Hinj. revert l2. induction l1 as [|s l1 IH]; intros [|t l2] Heq; try done.
  injection Heq as Hl Hr. cbn. f_equal; [by apply Hinj|by apply IH].
Qed.

Lemma header_content_values b1 b2 :
  header_content b1 = header_content b2 ->
  hv_bytes (header_values b1) = hv_bytes (header_values b2)
  /\ hv_numbers (header_values b1) = hv_numbers (header_values b2)
  /\ optional_content b1 = optional_content b2.
Proof.
  rewrite !header_content_split. intros Heq.
  apply app_inj_1 in Heq as [Ha Heq]; [|done]. apply app_inj_1 in Heq as [Hb Heq]; [|done].
  apply app_inj_1 in Heq as [Hc Ho]; [|done]. split_and!; [|by eapply fmap_leaf_inj, Hb; apply num_leaf_inj|done].
  apply (fmap_leaf_inj hex_leaf decode_hex_or_empty) in Ha, Hc; [|apply hex_leaf_inj..].
  pose proof (f_equal2 app Ha Hc) as Hac. rewrite <-!fmap_app in Hac. exact Hac.
Qed.

Lemma optional_content_values b1 b2 :
  fork_fields b1 = fork_fields b2 -> optional_content b1 = optional_content b2 ->
  hv_base_fee (header_values b1) = hv_base_fee (header_values b2)
  /\ hv_withdrawals (header_values b1) = hv_withdrawals (header_values b2)
  /\ hv_blob (header_values b1) = hv_blob (header_values b2)
  /\ hv_beacon (header_values b1) = hv_beacon (header_values b2)
  /\ hv_requests (header_values b1) = hv_requests (header_values b2).
Proof.
  unfold optional_content, fork_fields. intros [= H1 H2 H3 H4 H5] Heq. cbn.
  apply (opt_leaf_inj num_leaf parse_qty_u128) in Heq as [Hfee Heq]; [|apply num_leaf_inj|done].
  apply (opt_leaf_inj hex_leaf decode_hex_or_empty) in Heq as [Hwd Heq]; [|apply hex_leaf_inj|done].
  assert (hv_blob (header_values b1) = hv_blob (header_values b2)
    /\ opt_leaf hex_leaf (blk_parent_beacon_block_root b1) ++ opt_leaf hex_leaf (blk_requests_hash b1)
       = opt_leaf hex_leaf (blk_parent_beacon_block_root b2) ++ opt_leaf hex_leaf (blk_requests_hash b2))
    as [Hblob Heq'].
  { cbn. destruct (blob_pair b1) as [[u1 e1]|], (blob_pair b2) as [[u2 e2]|]; try done.
    apply app_inj_1 in Heq as [Hl Heq]; [|done]. split; [|done].
    apply (fmap_leaf_inj num_leaf parse_qty_u128 [u1; e1] [u2; e2] num_leaf_inj) in Hl.
    unfold prod_map. cbn in Hl |- *. congruence. }
  apply (opt_leaf_inj hex_leaf decode_hex_or_empty) in Heq' as [Hbc Heq']; [|apply hex_leaf_inj|done].
  rewrite <-(app_nil_r (opt_leaf hex_leaf (blk_requests_hash b1))),
    <-(app_nil_r (opt_leaf hex_leaf (blk_requests_hash b2))) in Heq'.
  apply (opt_leaf_inj hex_leaf decode_hex_or_empty) in Heq' as [Hrq _]; [|apply hex_leaf_inj|done].
  by split_and!.
Qed.

Definition tempo_limits (b : RpcBlock) : list string :=
  [default ""%string (blk_main_block_general_gas_limit b); default ""%string (blk_shared_gas_limit b);
   default ""%string (blk_timestamp_millis_part b)].

(** Equal preimages are equal content, on Ethereum and on Tempo. *)
Lemma preimage_content b1 b2 f1 f2 (tempo : bool) :
  (if tempo then tempo_header_fields b1 else ethereum_header_fields b1) = Ok f1 ->
  (if tempo then tempo_header_fields b2 else ethereum_header_fields b2) = Ok f2 ->
  fits (rlp_encode_list f1) -> rlp_encode_list f1 = rlp_encode_list f2 ->
  header_content b1 = header_content b2 /\ (tempo = true -> tempo_content b1 = tempo_content b2).
Proof.
  intros H1 H2 Hfit Heq. destruct tempo.
  - rewrite (tempo_fields_content _ _ H1), (tempo_fields_content _ _ H2) in Heq.
    rewrite (tempo_fields_content _ _ H1) in Hfit.
    apply encode_tree_inj, node_inj in Heq; [|done]. split; [|done].
    apply (f_equal (fun l => l !! 3%nat)) in Heq. cbn [lookup list_lookup tempo_content] in Heq.
    apply node_inj. congruence.
  - destruct (header_fields_content _ _ H1) as [<- Hp1].
    destruct (header_fields_content _ _ H2) as [<- Hp2].
    rewrite !plain_list_tree in Heq by done. rewrite plain_list_tree in Hfit by done.
    apply encode_tree_inj in Heq as [= Hall]; [|done]. by split.
Qed.

(** C33: A block hash is the Keccak of an RLP list of the header's fields, and
    it binds their values as the code reads them: bytes for hex data, numbers
    for quantities, where one above 128 bits reads as 0. Two blocks with the
    same hash preimage agree on the fifteen fields every header has, and on
    Tempo on its three limits. The fork fields carry no tags, so they are bound
    up to which of them are there: they agree, presence included, between
    headers with the same ones, or when each header's nest as the forks added
    them (a fork's fields only with those of the forks before). *)
Theorem block_hash_binds (b1 b2 : RpcBlock) (f1 f2 : list RlpField)
    (tempo : bool)
    (H1 : (if tempo then tempo_header_fields b1 else ethereum_header_fields b1) = Ok f1)
    (H2 : (if tempo then tempo_header_fields b2 else ethereum_header_fields b2) = Ok f2)
    (Hfit : fits (rlp_encode_list f1))
    (Hpreimage : rlp_encode_list f1 = rlp_encode_list f2) :
  (if tempo then tempo_block_hash b1 else block_hash b1)
    = Ok (String.append "0x" (hex_encode (keccak256 (rlp_encode_list f1))))
  /\ hv_bytes (header_values b1) = hv_bytes (header_values b2)
  /\ hv_numbers (header_values b1) = hv_numbers (header_values b2)
  /\ (tempo = true -> parse_qty_u128 <$> tempo_limits b1 = parse_qty_u128 <$> tempo_limits b2)
  /\ (fork_fields b1 = fork_fields b2
      \/ (nested (fork_fields b1) = true /\ nested (fork_fields b2) = true) ->
      header_values b1 = header_values b2).
Proof.
  destruct (preimage_content b1 b2 f1 f2 tempo H1 H2 Hfit Hpreimage) as [Hc Ht].
  destruct (header_content_values b1 b2 Hc) as (Hb & Hn & Ho).
  split_and!; [|done|done| |].
  - destruct tempo; [unfold tempo_block_hash|unfold block_hash]; by rewrite H1.
  - intros E. specialize (Ht E). apply (fmap_leaf_inj num_leaf); [apply num_leaf_inj|].
    unfold tempo_content in Ht. unfold tempo_limits. cbn. congruence.
  - intros Hf. assert (fork_fields b1 = fork_fields b2) as Hfork
      by (destruct Hf as [?|[? ?]]; [done|by apply nested_fields]).
    destruct (optional_content_values b1 b2 Hfork Ho) as (? & ? & ? & ? & ?).
    destruct (header_values b1), (header_values b2); cbn in *. by f_equal.
Qed.
End header.

(** ** Concrete instances

    Stand-ins for the third-party functions, used only to run the theorems
    on inputs; the theorems hold for any that meet the laws. *)

Definition toy_keccak : Keccak :=
  fun b => map (fun x => x mod 256) (take 32 (b ++ replicate 32 7)).

#[export] Instance toy_keccak_laws : KeccakLaws toy_keccak.
Proof.
  split; intros b; unfold keccak256, toy_keccak.
  - rewrite length_map, length_take, length_app, length_replicate. lia.
  - apply Forall_fmap, Forall_true. intros x. by apply N.mod_lt.
Qed.

Definition halves : Rayon :=
  fun logs => Merge (Piece (take (length logs / 2) logs)) (Piece (drop (length logs / 2) logs)).

#[export] Instance halves_laws : RayonLaws halves.
Proof. split. intros logs. cbn. apply take_drop. Qed.

Definition toy_trie : Trie := {|
  alloy_rlp_u64 := encode_rlp_uint;
  trie_root ls := Some (concat (map snd ls))
|}.

#[export] Instance toy_trie_laws : TrieLaws toy_trie.
Proof.
  split; [|by eexists]. intros i j Hi Hj Heq. cbn in Heq.
  apply qty_leaf_inj; [unfold usize_max, u128_max in *; lia..|].
  apply encode_tree_inj; [|by rewrite !encode_qty].
  rewrite encode_qty. unfold fits.
  pose proof (length_encode_uint i). unfold usize_max. lia.
Qed.

Definition sample_log (addr topic : string) : RpcLog :=
  ({| log_block_hash := "0x"; log_block_number := "0x"; log_transaction_hash := "0x";
      log_transaction_index := "0x"; log_log_index := "0x"; log_address := addr;
      log_topics := [topic]; log_data := "0x"; log_removed := None |})%string.

Definition sample_logs : list RpcLog :=
  [sample_log "0x0a0b0c0d0e0f" "0x10"; sample_log "0x11" "0x12"; sample_log "0x0a" "0x10"].

Lemma logs_bloom_correct_witness :
  @logs_bloom hex_ref toy_keccak halves (rev sample_logs)
  = @logs_bloom hex_ref toy_keccak halves sample_logs.
Proof.
  destruct (@logs_bloom_correct hex_ref toy_keccak toy_keccak_laws halves halves_laws sample_logs)
    as [_ Hsame].
  apply Hsame. intros e.
  assert (@log_entries hex_ref (rev sample_logs) ≡ₚ @log_entries hex_ref sample_logs) as ->; [|done].
  apply (bool_decide_unpack _). by vm_compute.
Defined.

Definition sample_receipt (status : option string) : RpcReceipt :=
  ({| rcpt_block_hash := "0x"; rcpt_block_number := "0x"; rcpt_transaction_hash := "0xa";
      rcpt_transaction_index := "0x"; rcpt_contract_address := None;
      rcpt_cumulative_gas_used := "0x5208"; rcpt_from := "0x"; rcpt_gas_used := "0x";
      rcpt_effective_gas_price := None; rcpt_logs := []; rcpt_logs_bloom := "0x";
      rcpt_status := status; rcpt_root := None; rcpt_to := None; rcpt_receipt_type := "0x2";
      rcpt_blob_gas_used := None; rcpt_blob_gas_price := None; rcpt_l1_fee := None;
      rcpt_l1_fee_scalar := None; rcpt_l1_base_fee_scalar := None;
      rcpt_l1_blob_base_fee := None; rcpt_l1_blob_base_fee_scalar := None;
      rcpt_l1_gas_price := None; rcpt_l1_gas_used := None; rcpt_deposit_nonce := None;
      rcpt_deposit_receipt_version := None |})%string.

Definition sample_txs : list RpcTransaction := [sample_tx "0x"; sample_tx "0xab"].
Definition sample_receipts : list RpcReceipt := [sample_receipt (Some "0x1"%string); sample_receipt None].

Lemma roots_well_fed_witness :
  @root_spec hex_ref toy_trie _ "transaction" tx_hash (@encode_transaction hex_ref) sample_txs
    (@transactions_root hex_ref toy_trie sample_txs)
  /\ @root_spec hex_ref toy_trie _ "receipt" rcpt_transaction_hash
       (fun r => @encode_receipt hex_ref r false) sample_receipts
       (@receipts_root hex_ref toy_trie sample_receipts false).
Proof. apply (@roots_well_fed hex_ref toy_trie toy_trie_laws); by vm_compute. Defined.

Definition sample_block (parent number : string) : RpcBlock :=
  ({| blk_number := number; blk_hash := "0x"; blk_parent_hash := parent;
      blk_difficulty := Some "0x0"; blk_total_difficulty := None;
      blk_excess_blob_gas := Some "0x2"; blk_extra_data := "0x"; blk_gas_limit := "0x64";
      blk_gas_used := "0x"; blk_sha3_uncles := "0x"; blk_logs_bloom := "0x";
      blk_transactions_root := "0x"; blk_receipts_root := "0x"; blk_state_root := "0x";
      blk_miner := "0x"; blk_mix_hash := Some "0x01"; blk_nonce := Some "0x02";
      blk_base_fee_per_gas := Some "0x7"; blk_blob_gas_used := Some "0x1";
      blk_parent_beacon_block_root := None; blk_size := "0x"; blk_timestamp := "0x65";
      blk_transactions := []; blk_uncles := []; blk_withdrawals := None;
      blk_withdrawals_root := None; blk_requests_hash := None; blk_l1_block_number := None;
      blk_main_block_general_gas_limit := None; blk_shared_gas_limit := None;
      blk_timestamp_millis_part := None |})%string.

Definition sample_header (parent number : string) : list RlpField :=
  match ethereum_header_fields (H := hex_ref) (sample_block parent number) with
  | Ok f => f
  | Err _ => []
  end.

Lemma block_hash_binds_witness :
  header_values (H := hex_ref) (sample_block "0xAB" "0x1e")
  = header_values (H := hex_ref) (sample_block "0xab" "0x1E").
Proof.
  destruct (@block_hash_binds hex_ref toy_keccak
              (sample_block "0xAB" "0x1e") (sample_block "0xab" "0x1E")
              (sample_header "0xAB" "0x1e") (sample_header "0xab" "0x1E") false)
    as (_ & _ & _ & _ & Hv); [by vm_compute..|]. apply Hv. left. reflexivity.
Defined.

(** What the preimage does not tell: a base fee of 7 on a header without a
    withdrawals root reads as a withdrawals root of one byte on a header
    without a base fee; and a gas limit above 128 bits reads as 0. *)
Definition with_fork_fields (gas_limit : string) (fee root : option string) : RpcBlock :=
  ({| blk_number := "0x1"; blk_hash := "0x"; blk_parent_hash := "0xab";
      blk_difficulty := Some "0x0"; blk_total_difficulty := None;
      blk_excess_blob_gas := None; blk_extra_data := "0x"; blk_gas_limit := gas_limit;
      blk_gas_used := "0x"; blk_sha3_uncles := "0x"; blk_logs_bloom := "0x";
      blk_transactions_root := "0x"; blk_receipts_root := "0x"; blk_state_root := "0x";
      blk_miner := "0x"; blk_mix_hash := Some "0x01"; blk_nonce := Some "0x02";
      blk_base_fee_per_gas := fee; blk_blob_gas_used := None;
      blk_parent_beacon_block_root := None; blk_size := "0x"; blk_timestamp := "0x65";
      blk_transactions := []; blk_uncles := []; blk_withdrawals := None;
      blk_withdrawals_root := root; blk_requests_hash := None; blk_l1_block_number := None;
      blk_main_block_general_gas_limit := None; blk_shared_gas_limit := None;
      blk_timestamp_millis_part := None |})%string.

Example fork_fields_untagged :
  let fee := with_fork_fields "0x64" (Some "0x7"%string) None in
  let root := with_fork_fields "0x64" None (Some "0x07"%string) in
  let fields b := match ethereum_header_fields (H := hex_ref) b with Ok f => f | Err _ => [] end in
  rlp_encode_list (fields fee) = rlp_encode_list (fields root)
  /\ nested (fork_fields fee) = true /\ nested (fork_fields root) = false.
Proof. by vm_compute. Qed.

Example gas_limit_overflow_reads_zero :
  let fields gas := ethereum_header_fields (H := hex_ref) (with_fork_fields gas None None) in
  fields "0x100000000000000000000000000000000"%string = fields "0x0"%string.
Proof. by vm_compute. Qed.
