(* ===== verification/ChainUtils.v ===== *)
(** * ChainUtils: per-network deviations

    [crates/evm-source/src/chain_utils.rs]: the registry of networks that
    depart from the Ethereum baseline, and the checks that ask a network for
    the deviation they care about: which header encoding hashes a block, which
    transactions, receipts and logs the header's commitments cover, which
    senders cannot be recovered. *)
From S2P Require Import Prelude RpcData Rlp TxEncode Commitments.

Local Open Scope rust_scope.

(** ** The registry *)

Inductive Quirk : Type :=
  | StateSyncTx
  | ZeroGasSystemTx
  | FakeSignatureSystemTx
  | LegacyFakeSignatureSystemTx
  | TempoHeader
  | NonSequentialLogIndexes
  | PartialTraceCoverage.

#[export] Instance Quirk_eq_dec : EqDecision Quirk.
Proof. solve_decision. Defined.

Record Network := net {
  n_chain_id : N;
  n_quirks : list Quirk;
  n_unencodable_txs : list string
}.

Definition BOR : list Quirk := [StateSyncTx; PartialTraceCoverage].
Definition HYPERLIQUID : list Quirk := [ZeroGasSystemTx].
Definition STABLE : list Quirk := [FakeSignatureSystemTx; NonSequentialLogIndexes].
Definition TEMPO : list Quirk := [TempoHeader; LegacyFakeSignatureSystemTx].
Definition PIP74 : list string := ["0x7f"%string].
Definition ARBITRUM_RETRYABLES : list string := ["0x66"; "0x68"; "0x69"]%string.

Definition NETWORKS : list Network :=
  [net 137 BOR PIP74; net 80002 BOR PIP74; net 109 BOR PIP74;
   net 999 HYPERLIQUID []; net 998 HYPERLIQUID [];
   net 988 STABLE []; net 2201 STABLE [];
   net 4217 TEMPO []; net 42431 TEMPO []; net 42429 TEMPO [];
   net 42161 [] ARBITRUM_RETRYABLES].

Definition ZERO : string := "0x0".
Definition LEGACY_TX_TYPE : string := "0x0".

Record ChainUtils := mkChainUtils {
  cu_chain_id : N;
  cu_quirks : list Quirk;
  cu_unencodable_txs : list string;
  cu_use_gas_used_for_receipts_root : bool
}.

(** [NETWORKS.iter().find(|n| n.chain_id == chain_id)]. *)
Definition find_network (chain_id : N) : option Network :=
  snd <$> list_find (fun n => n_chain_id n = chain_id) NETWORKS.

Definition chain_utils_new (chain_id : N) (use_gas_used : bool) : ChainUtils :=
  let network := find_network chain_id in
  {| cu_chain_id := chain_id;
     cu_quirks := match network with Some n => n_quirks n | None => [] end;
     cu_unencodable_txs := match network with Some n => n_unencodable_txs n | None => [] end;
     cu_use_gas_used_for_receipts_root := use_gas_used |}.

Definition has (cu : ChainUtils) (quirk : Quirk) : bool := bool_decide (quirk ∈ cu_quirks cu).

(** ** What the commitments cover *)

Definition is_unencodable (cu : ChainUtils) (tx : RpcTransaction) : bool :=
  match tx_tx_type tx with
  | Some ty => bool_decide (ty ∈ cu_unencodable_txs cu)
  | None => false
  end.

Definition is_uncommitted_tx (cu : ChainUtils) (tx : RpcTransaction) (phantom : option string)
    : bool :=
  bool_decide (phantom = Some (tx_hash tx))
  || (has cu ZeroGasSystemTx && bool_decide (tx_gas_price tx = Some ZERO)).

Definition is_uncommitted_receipt (cu : ChainUtils) (receipt : RpcReceipt)
    (phantom : option string) : bool :=
  bool_decide (phantom = Some (rcpt_transaction_hash receipt))
  || (has cu ZeroGasSystemTx && bool_decide (rcpt_cumulative_gas_used receipt = ZERO)).

Definition is_unsigned (cu : ChainUtils) (tx : RpcTransaction) : bool :=
  let fake_signature := bool_decide (tx_r tx = Some ZERO) && bool_decide (tx_s tx = Some ZERO) in
  (has cu ZeroGasSystemTx && bool_decide (tx_gas_price tx = Some ZERO))
  || (has cu FakeSignatureSystemTx && fake_signature)
  || (has cu LegacyFakeSignatureSystemTx && fake_signature
      && bool_decide (tx_tx_type tx = Some LEGACY_TX_TYPE)).

Section checks.
Context `{Hex} `{Keccak} `{Rayon} `{Trie}.

Definition phantom_tx_hash (cu : ChainUtils) (block : RpcBlock) : option string :=
  if has cu StateSyncTx
  then Some (calculate_state_sync_tx_hash (blk_number block) (blk_hash block)) else None.

Definition uncommitted_tx_hashes (cu : ChainUtils) (block : RpcBlock) : gset string :=
  let phantom := phantom_tx_hash cu block in
  if bool_decide (phantom = None) && negb (has cu ZeroGasSystemTx) then ∅
  else list_to_set (map tx_hash
         (filter (fun tx => is_uncommitted_tx cu tx phantom = true) (blk_transactions block))).

Definition calculate_block_hash (cu : ChainUtils) (block : RpcBlock) : Result string string :=
  if has cu TempoHeader then tempo_block_hash block else block_hash block.

(** [Ok None]: the block carries a transaction no encoder expresses. *)
Definition calculate_transactions_root (cu : ChainUtils) (block : RpcBlock)
    : option (Result (option string) string) :=
  if existsb (is_unencodable cu) (blk_transactions block) then Some (Ok None)
  else
    let phantom := phantom_tx_hash cu block in
    let txs := filter (fun tx => is_uncommitted_tx cu tx phantom = false) (blk_transactions block) in
    let! r := transactions_root txs in
    Some (map_ok Some r).

Definition calculate_logs_bloom (cu : ChainUtils) (block : RpcBlock) (logs : list RpcLog)
    : option string :=
  let excluded := uncommitted_tx_hashes cu block in
  if bool_decide (excluded = ∅) then logs_bloom logs
  else logs_bloom (filter (fun log => log_transaction_hash log ∉ excluded) logs).

Definition committed_receipts (cu : ChainUtils) (block : RpcBlock) (receipts : list RpcReceipt)
    : list RpcReceipt :=
  let phantom := phantom_tx_hash cu block in
  filter (fun r => is_uncommitted_receipt cu r phantom = false) receipts.

Definition calculate_receipts_root (cu : ChainUtils) (block : RpcBlock)
    (receipts : list RpcReceipt) : option (Result string string) :=
  receipts_root (committed_receipts cu block receipts) (cu_use_gas_used_for_receipts_root cu).

Definition calculate_withdrawals_root (withdrawals : list RpcWithdrawal)
    : option (Result string string) := withdrawals_root withdrawals.

(** ** Theorems *)

Lemma not_phantom_uncommitted cu tx phantom :
  phantom = None -> has cu ZeroGasSystemTx = false -> is_uncommitted_tx cu tx phantom = false.
Proof. intros -> Hz. unfold is_uncommitted_tx. by rewrite Hz. Qed.

Lemma uncommitted_tx_iff cu tx phantom :
  is_uncommitted_tx cu tx phantom = true <->
  phantom = Some (tx_hash tx) \/ (has cu ZeroGasSystemTx = true /\ tx_gas_price tx = Some ZERO).
Proof.
  unfold is_uncommitted_tx. generalize (has cu ZeroGasSystemTx). intros b.
  by rewrite orb_true_iff, andb_true_iff, !bool_decide_eq_true.
Qed.

Lemma elem_of_uncommitted cu block h :
  h ∈ uncommitted_tx_hashes cu block <->
  exists tx, tx ∈ blk_transactions block /\ tx_hash tx = h
    /\ is_uncommitted_tx cu tx (phantom_tx_hash cu block) = true.
Proof.
  unfold uncommitted_tx_hashes. destruct (_ && _) eqn:Hfast.
  - apply andb_true_iff in Hfast as [Hp%bool_decide_eq_true Hz%negb_true_iff].
    split; [by intros ?%elem_of_empty|]. intros (tx & _ & _ & Hu).
    by rewrite not_phantom_uncommitted in Hu.
  - rewrite elem_of_list_to_set, list_elem_of_fmap. setoid_rewrite list_elem_of_filter.
    naive_solver.
Qed.

Lemma filter_all {A} (P : A -> Prop) `{!forall x, Decision (P x)} (l : list A) :
  (forall x, P x) -> filter P l = l.
Proof.
  intros HP. induction l as [|x l IH]; [done|]. rewrite filter_cons_True by done. by rewrite IH.
Qed.

(** The bloom of a block covers exactly the logs of its committed
    transactions: on every network, with or without deviations, it is the
    bloom of the logs whose transaction is not one the header leaves out, and
    the shortcuts for blocks that leave nothing out change nothing. A
    transaction is left out exactly when it is the synthesised state-sync one
    or, on a network with them, a zero-gas system transaction. *)
Theorem bloom_covers_committed (cu : ChainUtils) (block : RpcBlock) (logs : list RpcLog) :
  calculate_logs_bloom cu block logs
    = logs_bloom (filter (fun log => log_transaction_hash log ∉ uncommitted_tx_hashes cu block) logs)
  /\ forall h, h ∈ uncommitted_tx_hashes cu block <->
       exists tx, tx ∈ blk_transactions block /\ tx_hash tx = h
         /\ ((has cu StateSyncTx = true
              /\ h = calculate_state_sync_tx_hash (blk_number block) (blk_hash block))
             \/ (has cu ZeroGasSystemTx = true /\ tx_gas_price tx = Some "0x0"%string)).
Proof.
  split.
  - unfold calculate_logs_bloom. case_bool_decide as He; [|done].
    by rewrite He, filter_all by (intros; apply not_elem_of_empty).
  - intros h. rewrite elem_of_uncommitted.
    setoid_rewrite uncommitted_tx_iff. unfold phantom_tx_hash, ZERO.
    split; intros (tx & Htx & <- & Hu); exists tx; (split_and!; [done..|]);
      (destruct Hu as [Hu|Hu]; [left|by right]); destruct (has cu StateSyncTx);
      intuition congruence.
Qed.

(** A network the registry does not list is treated as the baseline: its
    blocks hash as Ethereum headers, every transaction, receipt and log is
    covered by the commitments, none is beyond the encoders by its type alone,
    and no sender is taken for a system account. *)
Theorem unlisted_is_baseline (chain_id : N) (use_gas_used : bool)
    (Hunlisted : chain_id ∉ map n_chain_id NETWORKS) :
  let cu := chain_utils_new chain_id use_gas_used in
  forall block logs receipts tx,
    calculate_block_hash cu block = block_hash block
    /\ calculate_transactions_root cu block
       = (let! r := transactions_root (blk_transactions block) in Some (map_ok Some r))
    /\ calculate_logs_bloom cu block logs = logs_bloom logs
    /\ calculate_receipts_root cu block receipts = receipts_root receipts use_gas_used
    /\ is_unsigned cu tx = false.
Proof.
  intros cu block logs receipts tx.
  assert (find_network chain_id = None) as Hfind.
  { unfold find_network. apply fmap_None, list_find_None, Forall_forall. intros n Hn Heq.
    apply Hunlisted, list_elem_of_fmap. by exists n. }
  assert (forall q, has cu q = false) as Hq.
  { intros q. unfold has, cu, chain_utils_new. rewrite Hfind. by apply bool_decide_eq_false_2, not_elem_of_nil. }
  assert (phantom_tx_hash cu block = None) as Hphantom by (unfold phantom_tx_hash; by rewrite Hq).
  split_and!.
  - unfold calculate_block_hash. by rewrite Hq.
  - unfold calculate_transactions_root.
    replace (existsb _ _) with false.
    + rewrite Hphantom, filter_all; [done|]. intros. by apply not_phantom_uncommitted.
    + symmetry. apply not_true_iff_false. intros (t & _ & Ht)%existsb_exists.
      unfold is_unencodable, cu, chain_utils_new in Ht. rewrite Hfind in Ht. cbn in Ht.
      by destruct (tx_tx_type t).
  - unfold calculate_logs_bloom, uncommitted_tx_hashes. rewrite Hphantom, Hq. cbn.
    by rewrite bool_decide_eq_true_2.
  - unfold calculate_receipts_root, committed_receipts. rewrite Hphantom, filter_all; [done|].
    intros r. unfold is_uncommitted_receipt. by rewrite Hq.
  - unfold is_unsigned. by rewrite !Hq.
Qed.
End checks.

Lemma unlisted_is_baseline_witness :
  @calculate_logs_bloom hex_ref toy_keccak halves (chain_utils_new 1 false)
    (sample_block "0x01" "0x1") sample_logs
  = @logs_bloom hex_ref toy_keccak halves sample_logs.
Proof.
  destruct (@unlisted_is_baseline hex_ref toy_keccak halves toy_trie 1 false
              ltac:(by apply (bool_decide_unpack _); vm_compute)
              (sample_block "0x01" "0x1") sample_logs sample_receipts (sample_tx "0x"))
    as (_ & _ & H & _). exact H.
Defined.
