(* ===== verification/Frames.v ===== *)
(** * Frames: checking and mapping debug traces

    The call frames a node reports for a transaction: their kinds
    ([rpc_data.rs], [DebugFrameKind]), the structural and the semantic check
    ([verification.rs], [check_debug_frame_structure] and
    [check_call_frame_tree]), and the traversal that turns them into
    normalized traces ([normalization.rs], [map_debug_frame]). Text is ASCII:
    [to_lowercase] is modelled on ASCII letters, which is all a frame the
    structural check accepts can hold where it is applied. *)
From stdpp Require Import pretty.
From Stdlib Require Import Ascii.
From S2P Require Import Prelude RpcData Rlp.

Local Open Scope rust_scope.

(** ** Text *)

Definition ascii_lower (c : ascii) : ascii :=
  let n := N_of_ascii c in
  if (65 <=? n)%N && (n <=? 90)%N then ascii_of_N (n + 32) else c.

Fixpoint to_lowercase (s : string) : string :=
  match s with
  | EmptyString => EmptyString
  | String c rest => String (ascii_lower c) (to_lowercase rest)
  end.

Definition eq_ignore_ascii_case (a b : string) : bool :=
  bool_decide (to_lowercase a = to_lowercase b).

(** ** Kinds *)

Inductive DebugFrameKind : Type :=
  | Call | CallCode | DelegateCall | StaticCall | Invalid | Create | Create2
  | Selfdestruct | Stop | Unknown.

#[export] Instance DebugFrameKind_eq_dec : EqDecision DebugFrameKind.
Proof. solve_decision. Defined.

Definition classify (value : string) : DebugFrameKind :=
  if eq_ignore_ascii_case value "CALL" then Call
  else if eq_ignore_ascii_case value "CALLCODE" then CallCode
  else if eq_ignore_ascii_case value "DELEGATECALL" then DelegateCall
  else if eq_ignore_ascii_case value "STATICCALL" then StaticCall
  else if eq_ignore_ascii_case value "INVALID" then Invalid
  else if eq_ignore_ascii_case value "CREATE" then Create
  else if eq_ignore_ascii_case value "CREATE2" then Create2
  else if eq_ignore_ascii_case value "SELFDESTRUCT" then Selfdestruct
  else if eq_ignore_ascii_case value "STOP" then Stop
  else Unknown.

Definition normalized (k : DebugFrameKind) : option string :=
  match k with
  | Call | CallCode | DelegateCall | StaticCall | Invalid => Some "call"%string
  | Create | Create2 => Some "create"%string
  | Selfdestruct => Some "selfdestruct"%string
  | Stop | Unknown => None
  end.

Definition is_call (k : DebugFrameKind) : bool :=
  match k with Call | CallCode | DelegateCall | StaticCall | Invalid => true | _ => false end.

Definition is_root_call (k : DebugFrameKind) : bool :=
  match k with Call | Invalid => true | _ => false end.

Definition is_create (k : DebugFrameKind) : bool :=
  match k with Create | Create2 => true | _ => false end.

Definition is_selfdestruct (k : DebugFrameKind) : bool :=
  match k with Selfdestruct => true | _ => false end.

Definition is_mappable (k : DebugFrameKind) : bool := bool_decide (is_Some (normalized k)).

Definition preserves_context (k : DebugFrameKind) : bool :=
  match k with CallCode | DelegateCall => true | _ => false end.

(** ** Frames *)

Inductive DebugFrame : Type := mkDebugFrame {
  df_frame_type : string;
  df_from : string;
  df_to : option string;
  df_input : option string;
  df_output : option string;
  df_error : option string;
  df_revert_reason : option string;
  df_value : option string;
  df_gas : string;
  df_gas_used : option string;
  df_calls : option (list DebugFrame)
}.

Definition kind_of (frame : DebugFrame) : DebugFrameKind := classify (df_frame_type frame).

(** [frame.calls.as_deref().unwrap_or_default()]. *)
Definition subcalls (frame : DebugFrame) : list DebugFrame :=
  match df_calls frame with Some cs => cs | None => [] end.

(** ** The structural check *)

Definition is_address (value : string) : bool :=
  match strip_prefix "0x" value with
  | Some digits => bool_decide (String.length digits = 40) && all_digits digits
  | None => false
  end.

Fixpoint trace_address_text (path : list nat) : string :=
  match path with
  | [] => ""
  | [i] => pretty i
  | i :: rest => pretty i +:+ "/" +:+ trace_address_text rest
  end%string.

Definition frame_label (path : list nat) : string :=
  match path with
  | [] => "root frame"
  | _ => "frame " +:+ trace_address_text path
  end%string.

Definition typed_frame_label (path : list nat) (kind : string) : string :=
  match path with
  | [] => "root " +:+ kind +:+ " frame"
  | _ => kind +:+ " frame " +:+ trace_address_text path
  end%string.

(** [o.as_deref().is_some_and(|value| !value.is_empty())]. *)
Definition non_empty (o : option string) : bool :=
  match o with Some s => negb (bool_decide (s = EmptyString)) | None => false end.

(** What is wrong with the frame itself, its subcalls aside. *)
Definition frame_violation (frame : DebugFrame) (path : list nat) : option string :=
  let kind := kind_of frame in
  if negb (is_mappable kind) then
    Some (frame_label path +:+ " has unsupported type " +:+ df_frame_type frame)%string
  else if negb (is_address (df_from frame)) then
    Some (frame_label path +:+ " has invalid from address " +:+ df_from frame)%string
  else if match df_to frame with
          | Some to => negb (is_create kind && bool_decide (to = EmptyString)) && negb (is_address to)
          | None => false
          end then
    Some (frame_label path +:+ " has invalid to address "
            +:+ default EmptyString (df_to frame))%string
  else if is_call kind then
    if bool_decide (df_to frame = None) then
      Some (typed_frame_label path "call" +:+ " has no target")%string
    else if bool_decide (df_input frame = None) then
      Some (typed_frame_label path "call" +:+ " has no input")%string
    else None
  else if is_create kind then
    if bool_decide (df_input frame = None) then
      Some (typed_frame_label path "create" +:+ " has no init code")%string
    else if (non_empty (df_to frame) || non_empty (df_output frame))
            && negb (non_empty (df_gas_used frame)) then
      Some (typed_frame_label path "create" +:+ " has a result but no gas used")%string
    else None
  else if is_selfdestruct kind && bool_decide (df_to frame = None) then
    Some (typed_frame_label path "selfdestruct" +:+ " has no beneficiary")%string
  else None.

Fixpoint check_frame_structure (frame : DebugFrame) (path : list nat) {struct frame}
    : option string :=
  if bool_decide (classify (df_frame_type frame) = Stop) then
    match path with
    | [] =>
        match df_calls frame with
        | Some (_ :: _) => Some "root STOP frame has subcalls"%string
        | _ => None
        end
    | _ => Some (frame_label path +:+ " has unsupported type " +:+ df_frame_type frame)%string
    end
  else
    match frame_violation frame path with
    | Some v => Some v
    | None =>
        let check_calls :=
          fix check_calls (index : nat) (cs : list DebugFrame) : option string :=
            match cs with
            | [] => None
            | child :: cs =>
                match check_frame_structure child (path ++ [index]) with
                | Some v => Some v
                | None => check_calls (S index) cs
                end
            end in
        match df_calls frame with Some cs => check_calls 0 cs | None => None end
    end.

Definition check_debug_frame_structure (root : DebugFrame) : option string :=
  check_frame_structure root [].

(** ** The semantic check *)

(** Who executes a frame's subcalls. *)
Definition executor (frame : DebugFrame) : option string :=
  if preserves_context (kind_of frame) then Some (df_from frame) else df_to frame.

Definition child_violation (exec : option string) (child : DebugFrame) (path : list nat)
    : option string :=
  match exec with
  | Some e =>
      if negb (eq_ignore_ascii_case (df_from child) e) then
        Some ("frame " +:+ trace_address_text path +:+ " is executed by " +:+ df_from child
                +:+ ", but " +:+ e +:+ " is on top of the call stack")%string
      else if is_selfdestruct (kind_of child) && bool_decide (df_to child = None) then
        Some (typed_frame_label path "selfdestruct" +:+ " has no beneficiary")%string
      else None
  | None =>
      if is_selfdestruct (kind_of child) && bool_decide (df_to child = None) then
        Some (typed_frame_label path "selfdestruct" +:+ " has no beneficiary")%string
      else None
  end.

Fixpoint check_subcalls (parent : DebugFrame) (path : list nat) {struct parent} : option string :=
  let check_children :=
    fix check_children (index : nat) (cs : list DebugFrame) : option string :=
      match cs with
      | [] => None
      | child :: cs =>
          match child_violation (executor parent) child (path ++ [index]) with
          | Some v => Some v
          | None =>
              match (if is_mappable (kind_of child)
                     then check_subcalls child (path ++ [index]) else None) with
              | Some v => Some v
              | None => check_children (S index) cs
              end
          end
      end in
  match df_calls parent with Some cs => check_children 0 cs | None => None end.

Definition root_violation (tx : RpcTransaction) (root : DebugFrame) : option string :=
  let root_kind := kind_of root in
  if negb (eq_ignore_ascii_case (df_from root) (tx_from tx)) then
    Some ("root frame is executed by " +:+ df_from root
            +:+ ", but the transaction is sent by " +:+ tx_from tx)%string
  else
    match tx_to tx with
    | None =>
        if negb (is_create root_kind) then
          Some ("root frame has type " +:+ df_frame_type root
                  +:+ ", but the transaction creates a contract")%string
        else None
    | Some target =>
        if negb (is_root_call root_kind) then
          Some ("root frame has type " +:+ df_frame_type root
                  +:+ ", but the transaction calls " +:+ target)%string
        else if match df_to root with
                | Some actual => negb (eq_ignore_ascii_case actual target)
                | None => true
                end then
          Some ("root frame calls " +:+ default "nothing" (df_to root)
                  +:+ ", but the transaction calls " +:+ target)%string
        else None
    end.

Definition check_call_frame_tree (tx : RpcTransaction) (root : DebugFrame) : option string :=
  if bool_decide (kind_of root = Stop) then None
  else
    match root_violation tx root with
    | Some v => Some v
    | None => check_subcalls root []
    end.

(** ** Normalized traces *)

Record NormalizedTraceCreateAction := mkCreateAction {
  ca_from : string; ca_value : option string; ca_gas : string; ca_init : string;
  ca_creation_method : option string
}.

Record NormalizedDebugTraceCallAction := mkCallAction {
  cl_call_type : string; cl_from : string; cl_to : string; cl_value : option string;
  cl_gas : string; cl_input : string
}.

Record NormalizedTraceRewardAction := mkRewardAction {
  ra_author : string; ra_value : string; ra_reward_type : string
}.

Record NormalizedTraceSelfdestructAction := mkSelfdestructAction {
  sd_address : string; sd_refund_address : string; sd_balance : option string
}.

Inductive NormalizedDebugTraceAction : Type :=
  | ActionCreate (a : NormalizedTraceCreateAction)
  | ActionCall (a : NormalizedDebugTraceCallAction)
  | ActionReward (a : NormalizedTraceRewardAction)
  | ActionSelfdestruct (a : NormalizedTraceSelfdestructAction).

Record NormalizedTraceCreateResult := mkCreateResult {
  cr_gas_used : string; cr_code : option string; cr_address : option string
}.

Record NormalizedTraceCallResult := mkCallResult {
  lr_gas_used : option string; lr_output : option string
}.

Inductive NormalizedTraceResult : Type :=
  | ResultCreate (r : NormalizedTraceCreateResult)
  | ResultCall (r : NormalizedTraceCallResult).

Record NormalizedDebugTrace := mkDebugTrace {
  dt_transaction_index : N;
  dt_trace_address : list nat;
  dt_subtraces : nat;
  dt_error : option string;
  dt_revert_reason : option string;
  dt_trace_type : string;
  dt_action : NormalizedDebugTraceAction;
  dt_result : option NormalizedTraceResult
}.

Record DebugFrameItem := mkItem {
  it_trace_address : list nat;
  it_subtraces : nat;
  it_frame : DebugFrame
}.

Fixpoint traverse_debug_frame (frame : DebugFrame) (trace_address : list nat)
    {struct frame} : list DebugFrameItem :=
  let go :=
    fix go (i : nat) (cs : list DebugFrame) : list DebugFrameItem :=
      match cs with
      | [] => []
      | sub :: cs => traverse_debug_frame sub (trace_address ++ [i]) ++ go (S i) cs
      end in
  mkItem trace_address (length (subcalls frame)) frame
    :: match df_calls frame with Some cs => go 0 cs | None => [] end.

Definition frame_type_to_normalized (t : string) : string :=
  default "unknown"%string (normalized (classify t)).

(** [o.as_ref().filter(|value| !value.is_empty())]. *)
Definition filter_non_empty (o : option string) : option string :=
  if non_empty o then o else None.

Definition create_result (frame : DebugFrame) : option NormalizedTraceResult :=
  let gas_used := filter_non_empty (df_gas_used frame) in
  let output := filter_non_empty (df_output frame) in
  let address := filter_non_empty (df_to frame) in
  match gas_used, output, address with
  | None, None, None => None
  | _, _, _ => Some (ResultCreate (mkCreateResult (default EmptyString gas_used) output
                                     (to_lowercase <$> address)))
  end.

Definition call_result (frame : DebugFrame) : option NormalizedTraceResult :=
  match df_gas_used frame, df_output frame with
  | None, None => None
  | g, o => Some (ResultCall (mkCallResult g o))
  end.

(** One iteration of [map_debug_frame]'s loop; [None] is its [continue]. *)
Definition map_item (transaction_index : N) (item : DebugFrameItem)
    : option NormalizedDebugTrace :=
  let frame := it_frame item in
  let trace := mkDebugTrace transaction_index (it_trace_address item) (it_subtraces item)
                 (df_error frame) (df_revert_reason frame) in
  let ty := frame_type_to_normalized (df_frame_type frame) in
  let input := default "0x"%string (df_input frame) in
  if bool_decide (ty = "create"%string) then
    Some (trace "create"%string
            (ActionCreate (mkCreateAction (to_lowercase (df_from frame)) (df_value frame)
                             (df_gas frame) input None))
            (create_result frame))
  else if bool_decide (ty = "call"%string) then
    match df_to frame with
    | None => None
    | Some to =>
        Some (trace "call"%string
                (ActionCall (mkCallAction (to_lowercase (df_frame_type frame))
                               (to_lowercase (df_from frame)) (to_lowercase to)
                               (df_value frame) (df_gas frame) input))
                (call_result frame))
    end
  else if bool_decide (ty = "selfdestruct"%string) then
    match df_to frame with
    | None => None
    | Some to =>
        Some (trace "selfdestruct"%string
                (ActionSelfdestruct (mkSelfdestructAction (to_lowercase (df_from frame))
                                       (to_lowercase to) (df_value frame))) None)
    end
  else None.

Definition map_debug_frame (transaction_index : N) (root : DebugFrame)
    : list NormalizedDebugTrace :=
  if bool_decide (kind_of root = Stop) && bool_decide (subcalls root = []) then []
  else omap (map_item transaction_index) (traverse_debug_frame root []).

(** ** Trees of frames *)

Section frame_induction.
Context (P : DebugFrame -> Prop) (Hframe : forall f, Forall P (subcalls f) -> P f).

Fixpoint frame_ind' (f : DebugFrame) : P f :=
  Hframe f
    (match f return Forall P (subcalls f) with
     | mkDebugFrame _ _ _ _ _ _ _ _ _ _ calls =>
         match calls as o return Forall P (match o with Some cs => cs | None => [] end) with
         | None => Forall_nil_2 P
         | Some cs =>
             (fix go (cs : list DebugFrame) : Forall P cs :=
                match cs with
                | [] => Forall_nil_2 P
                | c :: cs => Forall_cons_2 P c cs (frame_ind' c) (go cs)
                end) cs
         end
     end).
End frame_induction.

(** The frame at a trace address. *)
Fixpoint frame_at (f : DebugFrame) (a : list nat) : option DebugFrame :=
  match a with
  | [] => Some f
  | i :: a => match subcalls f !! i with Some c => frame_at c a | None => None end
  end.

(** The loops of the checks and of the traversal, from index [i] on. *)
Section first_some.
Context {A B : Type} (g : nat -> A -> option B).

Fixpoint first_some (i : nat) (cs : list A) : option B :=
  match cs with
  | [] => None
  | c :: cs => match g i c with Some v => Some v | None => first_some (S i) cs end
  end.

Lemma first_some_None i cs :
  first_some i cs = None <-> forall j c, cs !! j = Some c -> g (i + j) c = None.
Proof.
  revert i. induction cs as [|c cs IH]; intros i; cbn [first_some]; [done|].
  destruct (g i c) as [v|] eqn:Hg.
  - split; [done|]. intros Hall. specialize (Hall 0 c eq_refl).
    rewrite Nat.add_0_r in Hall. congruence.
  - rewrite IH. split; intros Hall.
    + intros [|j] c' Hc; cbn in Hc; [simplify_eq; by rewrite Nat.add_0_r|].
      rewrite Nat.add_succ_r. by apply (Hall j).
    + intros j c' Hc. specialize (Hall (S j) c' Hc). by rewrite Nat.add_succ_r in Hall.
Qed.

End first_some.

Section flat_from.
Context {A B : Type} (h : nat -> A -> list B).

Fixpoint flat_from (i : nat) (cs : list A) : list B :=
  match cs with [] => [] | c :: cs => h i c ++ flat_from (S i) cs end.

Lemma elem_of_flat_from i cs x :
  x ∈ flat_from i cs <-> exists j c, cs !! j = Some c /\ x ∈ h (i + j) c.
Proof.
  revert i. induction cs as [|c cs IH]; intros i; cbn [flat_from].
  - rewrite elem_of_nil. naive_solver.
  - rewrite elem_of_app, IH. split.
    + intros [Hx|(j & c' & Hc & Hx)]; [exists 0, c; by rewrite Nat.add_0_r|].
      exists (S j), c'. by rewrite Nat.add_succ_r.
    + intros ([|j] & c' & Hc & Hx); cbn in Hc.
      * simplify_eq. rewrite Nat.add_0_r in Hx. by left.
      * right. exists j, c'. by rewrite Nat.add_succ_r in Hx.
Qed.

Lemma NoDup_flat_from {C} (key : B -> C) i cs :
  (forall j c, cs !! j = Some c -> NoDup (map key (h (i + j) c))) ->
  (forall j k c d x y, j <> k -> cs !! j = Some c -> cs !! k = Some d ->
     x ∈ h (i + j) c -> y ∈ h (i + k) d -> key x <> key y) ->
  NoDup (map key (flat_from i cs)).
Proof.
  revert i. induction cs as [|c cs IH]; intros i Hnd Hdisj; cbn [flat_from map]; [constructor|].
  rewrite map_app, NoDup_app. split_and!.
  - specialize (Hnd 0 c eq_refl). by rewrite Nat.add_0_r in Hnd.
  - intros k (x & -> & Hx)%list_elem_of_fmap (y & Heq & Hy)%list_elem_of_fmap.
    apply elem_of_flat_from in Hy as (j & d & Hd & Hy).
    apply (Hdisj 0 (S j) c d x y); [done|done|done|by rewrite Nat.add_0_r| |done].
    by rewrite Nat.add_succ_r.
  - apply IH.
    + intros j d Hd. specialize (Hnd (S j) d Hd). by rewrite Nat.add_succ_r in Hnd.
    + intros j k d e x y Hjk Hd He Hx Hy.
      apply (Hdisj (S j) (S k) d e); [lia|done|done|by rewrite Nat.add_succ_r..].
Qed.
End flat_from.

Lemma check_frame_eq f path :
  check_frame_structure f path =
    if bool_decide (kind_of f = Stop) then
      match path with
      | [] => match subcalls f with
              | _ :: _ => Some "root STOP frame has subcalls"%string
              | [] => None
              end
      | _ => Some (frame_label path +:+ " has unsupported type " +:+ df_frame_type f)%string
      end
    else
      match frame_violation f path with
      | Some v => Some v
      | None => first_some (fun i c => check_frame_structure c (path ++ [i])) 0 (subcalls f)
      end.
Proof. destruct f as [? ? ? ? ? ? ? ? ? ? [[|]|]]; done. Qed.

Lemma traverse_eq f addr :
  traverse_debug_frame f addr =
    mkItem addr (length (subcalls f)) f
      :: flat_from (fun i c => traverse_debug_frame c (addr ++ [i])) 0 (subcalls f).
Proof. destruct f as [? ? ? ? ? ? ? ? ? ? [|]]; done. Qed.

Lemma check_subcalls_eq p path :
  check_subcalls p path =
    first_some (fun i c =>
      match child_violation (executor p) c (path ++ [i]) with
      | Some v => Some v
      | None => if is_mappable (kind_of c) then check_subcalls c (path ++ [i]) else None
      end) 0 (subcalls p).
Proof.
  destruct p as [ty from to input output err rev val gas gu [cs|]]; [|done].
  cbn [check_subcalls subcalls df_calls]. generalize 0.
  induction cs as [|c cs IH]; intros i; [done|]. cbn [first_some]. rewrite <-IH.
  by destruct (child_violation _ _ _).
Qed.

(** ** What the structural check accepts *)

(** A frame that can be mapped as it stands. *)
Definition frame_ok (f : DebugFrame) : Prop :=
  is_mappable (kind_of f) = true
  /\ is_address (df_from f) = true
  /\ (forall to, df_to f = Some to ->
        is_address to = true \/ (is_create (kind_of f) = true /\ to = EmptyString))
  /\ (is_call (kind_of f) = true -> is_Some (df_to f) /\ is_Some (df_input f))
  /\ (is_create (kind_of f) = true ->
        is_Some (df_input f)
        /\ (non_empty (df_to f) || non_empty (df_output f) = true ->
            non_empty (df_gas_used f) = true))
  /\ (is_selfdestruct (kind_of f) = true -> is_Some (df_to f)).

Lemma negb_false_true b : negb b = false <-> b = true.
Proof. by destruct b. Qed.

Lemma frame_violation_None f path : frame_violation f path = None <-> frame_ok f.
Proof.
  unfold frame_violation, frame_ok.
  destruct (is_mappable (kind_of f)) eqn:Hm; cbn [negb]; [|split; [done|intros [? _]; done]].
  destruct (is_address (df_from f)) eqn:Hf; cbn [negb]; [|split; [done|intros (_ & ? & _); done]].
  match goal with |- context [if ?b then Some (frame_label path +:+ " has invalid to address " +:+ _)%string else _] =>
    destruct b eqn:Hto end.
  { split; [done|]. intros (_ & _ & Hall & _). destruct (df_to f) as [to|]; [|done].
    apply andb_true_iff in Hto as [H1 H2%negb_true_iff].
    destruct (Hall to eq_refl) as [?|[Hc ->]]; [congruence|]. by rewrite Hc in H1. }
  assert (forall to, df_to f = Some to ->
    is_address to = true \/ (is_create (kind_of f) = true /\ to = EmptyString)) as Haddr.
  { intros to Ht. rewrite Ht in Hto. destruct (is_address to); [by left|]. right.
    rewrite andb_true_r in Hto. apply negb_false_true, andb_true_iff in Hto as [? ?%bool_decide_eq_true].
    done. }
  clear Hto Hf. destruct (kind_of f); cbn in Hm |- *; try done; clear Hm;
    generalize (non_empty (df_to f)), (non_empty (df_output f)), (non_empty (df_gas_used f));
    intros [] [] [];
    destruct (df_to f) as [to|], (df_input f) as [input|]; repeat case_bool_decide; simplify_eq;
    cbn; (split; [intros Hv; simplify_eq; split_and!; eauto; try done
            |intros (_ & _ & _ & Hcall & Hcreate & Hsd); try done;
             repeat match goal with
             | H : true = true -> _ |- _ => specialize (H eq_refl); destruct_ands
             | H : is_Some None |- _ => by destruct H
             end; try done]).
  all: intuition congruence.
Qed.

(** Every frame of a tree. *)
Definition all_frames (P : DebugFrame -> Prop) (f : DebugFrame) : Prop :=
  forall a g, frame_at f a = Some g -> P g.

Lemma all_frames_eq P f :
  all_frames P f <-> P f /\ (forall i c, subcalls f !! i = Some c -> all_frames P c).
Proof.
  split.
  - intros Hall. split; [by apply (Hall [])|]. intros i c Hc a g Hg. apply (Hall (i :: a)).
    cbn. by rewrite Hc.
  - intros [Hf Hcs] [|i a] g; cbn; [by intros [= <-]|].
    destruct (subcalls f !! i) as [c|] eqn:Hc; [|done]. by apply (Hcs i c).
Qed.

Lemma Forall_lookup_child P f i c :
  Forall P (subcalls f) -> subcalls f !! i = Some c -> P c.
Proof. intros Hall Hc. by eapply (Forall_lookup_1 _ _ _ _ Hall). Qed.

Lemma stop_not_ok f : kind_of f = Stop -> ~ frame_ok f.
Proof. intros Hk [Hm _]. by rewrite Hk in Hm. Qed.

(** Below the root, or at a root that is no STOP, the check accepts exactly
    the trees whose frames can all be mapped. *)
Lemma check_frame_iff f : forall path,
  path <> [] \/ kind_of f <> Stop ->
  check_frame_structure f path = None <-> all_frames frame_ok f.
Proof.
  induction f as [f IH] using frame_ind'. intros path Hpath.
  rewrite check_frame_eq, all_frames_eq. case_bool_decide as Hk.
  - destruct path as [|i path]; [by destruct Hpath|]. split; [done|].
    intros [Hok _]. by apply stop_not_ok in Hk.
  - rewrite <-(frame_violation_None f path).
    destruct (frame_violation f path); [split; [done|by intros [? _]]|].
    rewrite first_some_None. split.
    + intros Hall. split; [done|]. intros i c Hc.
      apply (Forall_lookup_child _ _ _ _ IH Hc) with (path ++ [i]); [left; by destruct path|].
      by apply (Hall i c).
    + intros [_ Hall] i c Hc.
      apply (Forall_lookup_child _ _ _ _ IH Hc); [left; by destruct path|]. by eapply Hall.
Qed.

Lemma check_root_iff root :
  check_debug_frame_structure root = None <->
  (kind_of root = Stop /\ subcalls root = []) \/ all_frames frame_ok root.
Proof.
  unfold check_debug_frame_structure. destruct (decide (kind_of root = Stop)) as [Hk|Hk].
  - rewrite check_frame_eq, bool_decide_eq_true_2 by done.
    destruct (subcalls root) as [|c cs] eqn:Hs; [by split; [left|]|]. split; [done|].
    intros [[_ ?]|[Hok _]%all_frames_eq]; [done|by apply stop_not_ok in Hk].
  - rewrite check_frame_iff by (by right). tauto.
Qed.

(** ** The traversal visits every frame once *)

Lemma elem_of_traverse f : forall addr item,
  item ∈ traverse_debug_frame f addr <->
  exists a, it_trace_address item = addr ++ a /\ frame_at f a = Some (it_frame item)
    /\ it_subtraces item = length (subcalls (it_frame item)).
Proof.
  induction f as [f IH] using frame_ind'. intros addr item.
  rewrite traverse_eq, elem_of_cons, elem_of_flat_from. split.
  - intros [->|(i & c & Hc & Hin)]; [exists []; by rewrite app_nil_r|].
    apply (Forall_lookup_child _ _ _ _ IH Hc) in Hin as (a & Ha & Hf & Hs). cbn [Nat.add] in Ha.
    exists (i :: a). rewrite Ha, <-app_assoc. cbn [frame_at app]. by rewrite Hc.
  - intros ([|i a] & Ha & Hf & Hs); cbn [frame_at] in Hf.
    + left. destruct item as [ad n g]; cbn in *. rewrite app_nil_r in Ha. by simplify_eq.
    + right. destruct (subcalls f !! i) as [c|] eqn:Hc; [|done]. exists i, c. split; [done|].
      apply (Forall_lookup_child _ _ _ _ IH Hc). exists a. by rewrite Ha, <-app_assoc.
Qed.

Lemma NoDup_traverse f : forall addr, NoDup (map it_trace_address (traverse_debug_frame f addr)).
Proof.
  induction f as [f IH] using frame_ind'. intros addr. rewrite traverse_eq. cbn [map].
  constructor.
  - intros (x & Heq & Hin)%list_elem_of_fmap. cbn in Heq.
    apply elem_of_flat_from in Hin as (i & c & _ & Hx).
    apply elem_of_traverse in Hx as (a & Ha & _). rewrite <-Heq, <-app_assoc in Ha.
    rewrite <-(app_nil_r addr) in Ha at 1. by apply app_inv_head in Ha.
  - apply NoDup_flat_from.
    + intros i c Hc. by apply (Forall_lookup_child _ _ _ _ IH Hc).
    + intros i j c d x y Hij Hc Hd Hx Hy Heq.
      apply elem_of_traverse in Hx as (a & Ha & _), Hy as (b & Hb & _).
      rewrite Ha, Hb, <-!app_assoc in Heq. apply app_inv_head in Heq. cbn in Heq. congruence.
Qed.

(** ** Mapping without loss *)

(** [t] is the frame's own record: nothing dropped, no default put in. *)
Definition faithful (transaction_index : N) (item : DebugFrameItem) (t : NormalizedDebugTrace)
    : Prop :=
  let f := it_frame item in
  dt_transaction_index t = transaction_index
  /\ dt_trace_address t = it_trace_address item
  /\ dt_subtraces t = it_subtraces item
  /\ dt_error t = df_error f /\ dt_revert_reason t = df_revert_reason f
  /\ normalized (kind_of f) = Some (dt_trace_type t)
  /\ match dt_action t with
     | ActionCreate a =>
         ca_from a = to_lowercase (df_from f) /\ ca_value a = df_value f /\ ca_gas a = df_gas f
         /\ Some (ca_init a) = df_input f
         /\ match dt_result t with
            | Some (ResultCreate r) =>
                Some (cr_gas_used r) = df_gas_used f /\ cr_gas_used r <> EmptyString
                /\ cr_code r = filter_non_empty (df_output f)
                /\ cr_address r = to_lowercase <$> filter_non_empty (df_to f)
            | Some _ => False
            | None => non_empty (df_gas_used f) = false /\ non_empty (df_output f) = false
                      /\ non_empty (df_to f) = false
            end
     | ActionCall a =>
         cl_call_type a = to_lowercase (df_frame_type f)
         /\ cl_from a = to_lowercase (df_from f) /\ cl_value a = df_value f
         /\ cl_gas a = df_gas f /\ Some (cl_input a) = df_input f
         /\ Some (cl_to a) = to_lowercase <$> df_to f
         /\ match dt_result t with
            | Some (ResultCall r) => lr_gas_used r = df_gas_used f /\ lr_output r = df_output f
            | Some _ => False
            | None => df_gas_used f = None /\ df_output f = None
            end
     | ActionSelfdestruct a =>
         sd_address a = to_lowercase (df_from f) /\ sd_balance a = df_value f
         /\ Some (sd_refund_address a) = to_lowercase <$> df_to f /\ dt_result t = None
     | ActionReward _ => False
     end.

Lemma create_result_faithful f :
  (non_empty (df_to f) || non_empty (df_output f) = true -> non_empty (df_gas_used f) = true) ->
  match create_result f with
  | Some (ResultCreate r) =>
      Some (cr_gas_used r) = df_gas_used f /\ cr_gas_used r <> EmptyString
      /\ cr_code r = filter_non_empty (df_output f)
      /\ cr_address r = to_lowercase <$> filter_non_empty (df_to f)
  | Some _ => False
  | None => non_empty (df_gas_used f) = false /\ non_empty (df_output f) = false
            /\ non_empty (df_to f) = false
  end.
Proof.
  intros Hgas. unfold create_result.
  assert (forall o, match filter_non_empty o with
                    | Some s => o = Some s /\ non_empty o = true /\ s <> EmptyString
                    | None => non_empty o = false
                    end) as Hfilter.
  { intros [s|]; unfold filter_non_empty; [|done]. destruct (non_empty (Some s)) eqn:He; [|done].
    split_and!; [done|done|]. cbn in He. by apply negb_true_iff, bool_decide_eq_false in He. }
  pose proof (Hfilter (df_gas_used f)). pose proof (Hfilter (df_output f)).
  pose proof (Hfilter (df_to f)).
  destruct (filter_non_empty (df_gas_used f)) as [g|]; destruct_ands.
  - cbn. by split_and!.
  - destruct (filter_non_empty (df_output f)), (filter_non_empty (df_to f)); destruct_ands;
      try done; exfalso; rewrite orb_true_iff in Hgas; intuition congruence.
Qed.

Lemma map_item_faithful transaction_index item :
  frame_ok (it_frame item) ->
  exists t, map_item transaction_index item = Some t /\ faithful transaction_index item t.
Proof.
  destruct item as [addr n f]. cbn. intros (Hm & _ & _ & Hcall & Hcreate & Hsd).
  unfold map_item, frame_type_to_normalized, faithful. cbn [it_frame it_trace_address it_subtraces].
  fold (kind_of f). destruct (kind_of f) eqn:Hk; cbn in Hm; try done; cbn [normalized default];
    repeat (rewrite bool_decide_eq_false_2 by done); rewrite ?bool_decide_eq_true_2 by done;
    try (destruct (Hcall eq_refl) as [[to Hto] [input Hinput]]; rewrite Hto, Hinput);
    try (destruct (Hcreate eq_refl) as [[input Hinput] Hgas]; rewrite Hinput);
    try (destruct (Hsd eq_refl) as [to Hto]; rewrite Hto);
    eexists; (split; [reflexivity|]); cbn; split_and!; try done.
  1-5: unfold call_result; by destruct (df_gas_used f), (df_output f).
  all: by apply create_result_faithful.
Qed.

Lemma omap_faithful transaction_index items :
  Forall (fun item => frame_ok (it_frame item)) items ->
  Forall2 (faithful transaction_index) items (omap (map_item transaction_index) items).
Proof.
  induction 1 as [|item items Hok _ IH]; [constructor|].
  destruct (map_item_faithful transaction_index item Hok) as (t & Ht & Hf).
  cbn [omap list_omap]. rewrite Ht. by constructor.
Qed.

(** ** What the semantic check accepts *)

(** Every subcall is executed by the account on top of the call stack. *)
Definition stack_coherent (f : DebugFrame) : Prop :=
  forall i c e, subcalls f !! i = Some c -> executor f = Some e ->
    eq_ignore_ascii_case (df_from c) e = true.

Lemma child_violation_None exec c path :
  (is_selfdestruct (kind_of c) = true -> is_Some (df_to c)) ->
  child_violation exec c path = None <->
  forall e, exec = Some e -> eq_ignore_ascii_case (df_from c) e = true.
Proof.
  intros Hsd. assert (is_selfdestruct (kind_of c) && bool_decide (df_to c = None) = false) as Hno.
  { destruct (is_selfdestruct _); [|done]. destruct (Hsd eq_refl) as [to ->]. done. }
  unfold child_violation. rewrite Hno. destruct exec as [e|]; [|by split].
  destruct (eq_ignore_ascii_case _ _) eqn:He; cbn [negb].
  - split; [|done]. by intros _ ? [= <-].
  - split; [done|]. intros Hall. specialize (Hall e eq_refl). congruence.
Qed.

Lemma check_subcalls_iff f : forall path,
  all_frames frame_ok f -> check_subcalls f path = None <-> all_frames stack_coherent f.
Proof.
  induction f as [f IH] using frame_ind'. intros path [Hok Hcs]%all_frames_eq.
  rewrite check_subcalls_eq, first_some_None, all_frames_eq.
  assert (forall i c, subcalls f !! i = Some c ->
    is_mappable (kind_of c) = true /\ (is_selfdestruct (kind_of c) = true -> is_Some (df_to c))) as Hchild.
  { intros i c Hc. pose proof (Hcs i c Hc [] c eq_refl) as Hc'. unfold frame_ok in Hc'. by destruct_ands. }
  split.
  - intros Hall. split.
    + intros i c e Hc He. specialize (Hall i c Hc).
      destruct (child_violation _ _ _) eqn:Hv; [done|]. destruct (Hchild i c Hc) as [_ Hsd].
      by eapply (child_violation_None _ _ _ Hsd).
    + intros i c Hc. specialize (Hall i c Hc). destruct (child_violation _ _ _); [done|].
      destruct (Hchild i c Hc) as [Hm _]. rewrite Hm in Hall.
      eapply (Forall_lookup_child _ _ _ _ IH Hc); [by apply (Hcs i)|exact Hall].
  - intros [Hf Hall] i c Hc. destruct (Hchild i c Hc) as [Hm Hsd]. rewrite Hm. cbn [Nat.add].
    rewrite (proj2 (child_violation_None (executor f) c (path ++ [i]) Hsd)) by (intros e; by apply Hf with i).
    apply (Forall_lookup_child _ _ _ _ IH Hc); [by apply (Hcs i)|by apply (Hall i)].
Qed.

Definition root_coherent (tx : RpcTransaction) (root : DebugFrame) : Prop :=
  eq_ignore_ascii_case (df_from root) (tx_from tx) = true
  /\ match tx_to tx with
     | None => is_create (kind_of root) = true
     | Some target => is_root_call (kind_of root) = true
         /\ exists to, df_to root = Some to /\ eq_ignore_ascii_case to target = true
     end.

Lemma root_violation_None tx root : root_violation tx root = None <-> root_coherent tx root.
Proof.
  unfold root_violation, root_coherent.
  destruct (eq_ignore_ascii_case (df_from root) (tx_from tx)); cbn [negb]; [|naive_solver].
  destruct (tx_to tx) as [target|]; [|destruct (is_create _); cbn [negb]; naive_solver].
  destruct (is_root_call _); cbn [negb]; [|naive_solver].
  destruct (df_to root) as [to|]; [|naive_solver].
  destruct (eq_ignore_ascii_case to target) eqn:He; cbn [negb]; [naive_solver|].
  split; [done|]. intros (_ & _ & to' & [= <-] & ?). congruence.
Qed.

(** C35: The structural check accepts exactly the traces the mapping can take
    as they are: a root STOP without subcalls, or a tree whose every frame is
    of a mappable type with a valid sender and, if it has one, a valid target
    (a created contract's may be empty), a call with target and input, a
    creation with init code and, if it has a result, its gas, a selfdestruct
    with its beneficiary. An accepted trace is mapped without loss or
    invention: the root STOP has no trace; otherwise there is exactly one trace
    per frame of the tree, in the traversal's order, at the frame's own address
    and with its number of subcalls, and each carries its frame's fields (no
    default stands in for a missing one, no empty gas is reported for a created
    contract). On an accepted trace other than a STOP the semantic check is
    exact too: it passes if and only if the root is the transaction's own call
    and every subcall is executed by the account on top of the call stack. *)
Theorem checked_frames_map_losslessly (transaction_index : N) (root : DebugFrame) :
  (check_debug_frame_structure root = None <->
     (kind_of root = Stop /\ subcalls root = []) \/ all_frames frame_ok root)
  /\ (check_debug_frame_structure root = None ->
        (kind_of root = Stop /\ subcalls root = [] /\ map_debug_frame transaction_index root = [])
        \/ (all_frames frame_ok root
            /\ Forall2 (faithful transaction_index) (traverse_debug_frame root [])
                 (map_debug_frame transaction_index root)))
  /\ NoDup (map it_trace_address (traverse_debug_frame root []))
  /\ (forall a f, frame_at root a = Some f <->
        mkItem a (length (subcalls f)) f ∈ traverse_debug_frame root [])
  /\ (forall tx, check_debug_frame_structure root = None -> kind_of root <> Stop ->
        check_call_frame_tree tx root = None <->
        root_coherent tx root /\ all_frames stack_coherent root).
Proof.
  rewrite check_root_iff. split_and!.
  - done.
  - intros [[Hk Hs]|Hall].
    + left. split_and!; [done|done|]. unfold map_debug_frame. by rewrite !bool_decide_eq_true_2 by done.
    + right. split; [done|]. unfold map_debug_frame.
      rewrite bool_decide_eq_false_2 by (intros Hk; by apply stop_not_ok in Hk; destruct Hk; apply (Hall [])).
      apply omap_faithful, Forall_forall. intros item (a & _ & Hf & _)%elem_of_traverse. by eapply Hall.
  - apply NoDup_traverse.
  - intros a f. rewrite elem_of_traverse. cbn. naive_solver.
  - intros tx [[? _]|Hall]%check_root_iff Hk; [done|]. unfold check_call_frame_tree.
    rewrite bool_decide_eq_false_2 by done.
    rewrite <-root_violation_None, <-(check_subcalls_iff root [] Hall).
    destruct (root_violation tx root); naive_solver.
Qed.

Definition sample_address (c : ascii) : string :=
  String "0" (String "x" (Nat.iter 40 (String c) EmptyString)).

Definition sample_frame (ty : string) (from : ascii) (to : option string)
    (calls : option (list DebugFrame)) : DebugFrame :=
  mkDebugFrame ty (sample_address from) to (Some "0x"%string) None None None None "0x0"
    (Some "0x5"%string) calls.

(** A call that creates a contract and makes a delegate call. *)
Definition sample_root : DebugFrame :=
  sample_frame "CALL" "1" (Some (sample_address "a"))
    (Some [sample_frame "create2" "A" (Some (sample_address "c")) None;
           sample_frame "DELEGATECALL" "a" (Some (sample_address "d"))
             (Some [sample_frame "STATICCALL" "a" (Some (sample_address "e")) None])]).

Lemma checked_frames_map_losslessly_witness :
  check_debug_frame_structure sample_root = None
  /\ NoDup (map it_trace_address (traverse_debug_frame sample_root []))
  /\ length (map_debug_frame 0 sample_root) = 4.
Proof.
  destruct (checked_frames_map_losslessly 0 sample_root) as (_ & Hmap & Hnd & _).
  destruct Hmap as [[Hk _]|[_ Hmap]].
  - by vm_compute.
  - by vm_compute in Hk.
  - split_and!; [by vm_compute|exact Hnd|]. rewrite <-(Forall2_length _ _ _ Hmap). by vm_compute.
Defined.
