(* ===== verification/EvmTypes.v ===== *)
(** * EvmTypes: what the adapter's files share (evm-source/src/types.rs)

    The data request that says which records to fetch, and the conversions
    between [u64] and the hexadecimal quantities of JSON-RPC: the parsers,
    which turn what they cannot read into zero, and the printer, whose output
    the parsers read back. *)
From Stdlib Require Import Ascii.
From S2P Require Import Prelude Rlp.

Local Open Scope N_scope.

(** Data request flags controlling what gets fetched from RPC. *)
Record DataRequest := mkDataRequest {
  rq_logs : bool;
  rq_receipts : bool;
  rq_traces : bool;
  rq_state_diffs : bool;
  use_trace_api : bool;
  use_debug_api_for_state_diffs : bool;
  use_debug_trace_block_by_number : bool;
  debug_trace_timeout : option string
}.

(** Convert a hex quantity to [u64]; a malformed or too large one is zero. *)
Definition qty2_u64 (qty : string) : N :=
  match from_str_radix_16 u64_max (strip_0x qty) with Ok n => n | Err _ => 0 end.

(** The largest integer a JavaScript number represents exactly. *)
Definition max_safe_integer : N := 9007199254740991.

Definition safe_qty2_u64 (qty : string) : option N :=
  match from_str_radix_16 u64_max (strip_0x qty) with
  | Ok v => if v <=? max_safe_integer then Some v else None
  | Err _ => None
  end.

Definition qty2_u128 (qty : string) : N :=
  match from_str_radix_16 u128_max (strip_0x qty) with Ok n => n | Err _ => 0 end.

(** [format!("{n:x}")]: lower-case digits, most significant first, none
    superfluous. *)
Definition hex_char (d : N) : ascii :=
  ascii_of_N (if d <? 10 then 48 + d else 87 + d).

Fixpoint hex_digits (fuel : nat) (n : N) (acc : string) : string :=
  match fuel with
  | O => acc
  | S fuel =>
      let acc := String (hex_char (n mod 16)) acc in
      if n / 16 =? 0 then acc else hex_digits fuel (n / 16) acc
  end.

Definition lower_hex (n : N) : string := hex_digits (S (N.to_nat (N.size n))) n "".

Definition to_qty (n : N) : string := String.append "0x" (lower_hex n).

(** ** Printing and parsing *)

Lemma hex_digit_char d : d < 16 -> hex_digit (hex_char d) = Some d.
Proof.
  intros Hd. assert (d ∈ [0;1;2;3;4;5;6;7;8;9;10;11;12;13;14;15]) as H.
  { assert (exists k : nat, (k < 16)%nat /\ d = N.of_nat k) as (k & Hk & ->)
      by (exists (N.to_nat d); lia).
    do 16 (destruct k as [|k]; [set_solver|]). lia. }
  repeat (apply list_elem_of_cons in H as [->|H]; [done|]). set_solver.
Qed.

Lemma parse_hex_digits max fuel n acc :
  n <= max -> n < 16 ^ N.of_nat fuel -> (0 < fuel)%nat ->
  parse_digits max 0 (hex_digits fuel n acc) = parse_digits max n acc.
Proof.
  intros Hmax. revert n Hmax acc. induction fuel as [|fuel IH]; intros n Hmax acc Hn Hf; [lia|].
  pose proof (N.div_mod n 16 ltac:(lia)) as Hdm.
  pose proof (N.mod_lt n 16 ltac:(lia)) as Hlt.
  rewrite Nat2N.inj_succ, N.pow_succ_r' in Hn.
  cbn [hex_digits]. destruct (N.eqb_spec (n / 16) 0) as [Hz|Hz].
  - cbn [parse_digits]. rewrite hex_digit_char by done.
    replace (0 * 16 + n mod 16) with n by lia.
    by rewrite (proj2 (N.leb_le _ _) Hmax).
  - rewrite IH.
    + cbn [parse_digits]. rewrite hex_digit_char by done.
      replace (n / 16 * 16 + n mod 16) with n by lia.
      by rewrite (proj2 (N.leb_le _ _) Hmax).
    + etransitivity; [|exact Hmax]. apply N.Div0.div_le_upper_bound. lia.
    + apply N.Div0.div_lt_upper_bound. lia.
    + destruct fuel; [|lia]. simpl in Hn. exfalso. apply Hz. apply N.div_small. lia.
Qed.

Lemma hex_fuel_enough n : n < 16 ^ N.of_nat (S (N.to_nat (N.size n))).
Proof.
  eapply N.lt_le_trans; [apply (N.size_gt n)|].
  change 16 with (2 ^ 4). rewrite <- N.pow_mul_r. apply N.pow_le_mono_r; lia.
Qed.

Lemma hex_digits_cons fuel n acc :
  (0 < fuel)%nat -> exists c s, hex_digits fuel n acc = String c s /\ c <> "+"%char.
Proof.
  revert n acc. induction fuel as [|fuel IH]; intros n acc Hf; [lia|].
  assert (hex_char (n mod 16) <> "+"%char) as Hc.
  { pose proof (hex_digit_char (n mod 16) (N.mod_lt n 16 ltac:(lia))) as Hd.
    intros E. rewrite E in Hd. done. }
  cbn [hex_digits]. destruct (n / 16 =? 0) eqn:E; [by eauto|].
  destruct fuel as [|fuel]; [by eauto|]. apply IH. lia.
Qed.

Lemma parse_lower_hex max n : n <= max -> from_str_radix_16 max (lower_hex n) = Ok n.
Proof.
  intros Hn. unfold lower_hex.
  pose proof (parse_hex_digits max _ n ""%string Hn (hex_fuel_enough n) ltac:(lia)) as Hp.
  destruct (hex_digits_cons (S (N.to_nat (N.size n))) n ""%string ltac:(lia)) as (c & s & E & Hc).
  rewrite E in *. by rewrite from_str_radix_plain, Hp.
Qed.

Lemma qty2_u64_to_qty n : n <= u64_max -> qty2_u64 (to_qty n) = n.
Proof. intros Hn. unfold qty2_u64, to_qty. by rewrite strip_0x_prefixed, parse_lower_hex. Qed.

(** What the adapter prints as a quantity reads back as the same number on
    every path: as a [u64], as a [u128], and as a safe integer exactly up to
    [2^53 - 1]; so two heights never share a printed form. *)
Theorem qty_roundtrip (n : N) (Hn : n <= u64_max) :
  qty2_u64 (to_qty n) = n /\ qty2_u128 (to_qty n) = n
  /\ safe_qty2_u64 (to_qty n) = (if n <=? max_safe_integer then Some n else None)
  /\ forall m, m <= u64_max -> to_qty m = to_qty n -> m = n.
Proof.
  split_and!; [by apply qty2_u64_to_qty| | |].
  - unfold qty2_u128, to_qty. rewrite strip_0x_prefixed, parse_lower_hex; [done|].
    etransitivity; [exact Hn|]. by vm_compute.
  - unfold safe_qty2_u64, to_qty. by rewrite strip_0x_prefixed, parse_lower_hex.
  - intros m Hm E. by rewrite <- (qty2_u64_to_qty m Hm), E, qty2_u64_to_qty.
Qed.

Lemma qty_roundtrip_witness :
  to_qty 19 = "0x13"%string /\ qty2_u64 (to_qty 19) = 19
  /\ safe_qty2_u64 (to_qty u64_max) = None.
Proof.
  destruct (qty_roundtrip 19) as (H & _); [by vm_compute|].
  destruct (qty_roundtrip u64_max) as (_ & _ & H2 & _); [by vm_compute|].
  split; [reflexivity|]. split; [exact H|]. rewrite H2. reflexivity.
Defined.
