(* ===== verification/Finality.v ===== *)
(** * Finality: the cached view of the upstream's finalized head (fetch.rs)

    [FinalizedHeadCache] is shared by the acquisition loop and the prober and
    replaced at each new epoch. Its fetches run concurrently with its readers,
    so the cache is a machine whose events are the points at which the code
    takes its lock: [view_step] is built from the methods, each cut at its
    await. Its specification [epoch_view] knows neither clocks nor epoch
    numbers: it collects what the fetches started since the last re-sync
    answered, and the theorem is that the view is always the highest of
    these. *)
From stdpp Require Import gmap.
From S2P Require Import Prelude Types EvmTypes.

Local Open Scope rust_scope.

(** ** The finalized-head cache *)

Record FinalizedHeadCache := mkFinalizedHeadCache {
  observed : option (N * N * string);   (* when, number, hash *)
  refreshing : bool;
  epoch : N
}.

Definition FinalizedHeadCache_default : FinalizedHeadCache :=
  mkFinalizedHeadCache None false 0.

(** [Instant::elapsed], which saturates at zero. *)
Definition elapsed (now at_ : N) : N := (now - at_)%N.

(** What [get_latest_blockhash("finalized")] returned. *)
Definition Fetched : Type := Result (N * string) string.

Definition resync_finalized_head (now : N) (fetched : Fetched) (c : FinalizedHeadCache)
    : FinalizedHeadCache * Fetched :=
  match fetched with
  | Err e => (c, Err e)
  | Ok (number, hash) =>
      (mkFinalizedHeadCache (Some (now, number, hash)) (refreshing c)
         ((epoch c + 1) mod 2 ^ 64)%N, Ok (number, hash))
  end.

Definition is_fresh (ttl now : N) (c : FinalizedHeadCache) : bool :=
  match observed c with
  | Some (at_, _, _) => (elapsed now at_ <? ttl)%N
  | None => false
  end.

Definition finalized_head_if_fresh (ttl now : N) (c : FinalizedHeadCache)
    : option (N * string) :=
  match observed c with
  | Some (at_, number, hash) =>
      if (elapsed now at_ <? ttl)%N then Some (number, hash) else None
  | None => None
  end.

Definition finalized_head_epoch (c : FinalizedHeadCache) : N := epoch c.

Definition finalized_head_hint (c : FinalizedHeadCache) : option (N * string) :=
  match observed c with Some (_, number, hash) => Some (number, hash) | None => None end.

(** Store a fetch issued under [ep], keeping the epoch's maximum. *)
Definition store_finalized_head (now ep number : N) (hash : string)
    (c : FinalizedHeadCache) : FinalizedHeadCache :=
  if negb (epoch c =? ep)%N then c
  else
    let observed' := match observed c with
                     | Some (at_, n, h) =>
                         if (number <=? n)%N then Some (now, n, h) else Some (now, number, hash)
                     | None => Some (now, number, hash)
                     end in
    mkFinalizedHeadCache observed' (refreshing c) (epoch c).

(** [get_finalized_head_cached] up to its await: a fresh view is the answer;
    otherwise a fetch starts under the epoch read after the miss. *)
Definition cached_lookup (ttl now : N) (c : FinalizedHeadCache) : N * string + N :=
  match finalized_head_if_fresh ttl now c with
  | Some hit => inl hit
  | None => inr (finalized_head_epoch c)
  end.

(** ... and from its await on. *)
Definition cached_store (now ep : N) (fetched : Fetched) (c : FinalizedHeadCache)
    : FinalizedHeadCache * Fetched :=
  match fetched with
  | Err e => (c, Err e)
  | Ok (number, hash) => (store_finalized_head now ep number hash c, Ok (number, hash))
  end.

(** [refresh_finalized_head]: the epoch of the fetch it spawns, if it does. *)
Definition refresh_finalized_head (ttl now : N) (c : FinalizedHeadCache)
    : FinalizedHeadCache * option N :=
  if refreshing c then (c, None)
  else if is_fresh ttl now c then (c, None)
  else (mkFinalizedHeadCache (observed c) true (epoch c), Some (epoch c)).

(** The spawned task clears the flag under one lock and stores under another. *)
Definition refresh_landed (c : FinalizedHeadCache) : FinalizedHeadCache :=
  mkFinalizedHeadCache (observed c) false (epoch c).

Definition refresh_store (now ep : N) (fetched : Fetched) (c : FinalizedHeadCache)
    : FinalizedHeadCache :=
  match fetched with
  | Ok (number, hash) => store_finalized_head now ep number hash c
  | Err _ => c
  end.

(** ** The cache as a machine *)

(** A fetch in flight: on a miss, or in the background before and after the
    flag is cleared. *)
Inductive FlightKind : Type := OnMiss | Fetching | Landed.

#[export] Instance FlightKind_eq_dec : EqDecision FlightKind.
Proof. solve_decision. Defined.

Record View := mkView { cache : FinalizedHeadCache; flights : gmap nat (N * FlightKind) }.

Definition View_default : View := mkView FinalizedHeadCache_default ∅.

(** The points where the code takes the lock; [id] names a fetch. *)
Inductive ViewEvent : Type :=
  | VResync (now : N) (fetched : Fetched)
  | VLookup (id : nat) (now : N)
  | VLookupDone (id : nat) (now : N) (fetched : Fetched)
  | VRefresh (id : nat) (now : N)
  | VRefreshLanded (id : nat)
  | VRefreshDone (id : nat) (now : N) (fetched : Fetched).

(** [None] is an event that cannot occur: a reused name, or the end of a fetch
    that is not at that point. *)
Definition view_step (ttl : N) (v : View) (e : ViewEvent) : option View :=
  let c := cache v in
  match e with
  | VResync now fetched => Some (mkView (resync_finalized_head now fetched c).1 (flights v))
  | VLookup id now =>
      match flights v !! id with
      | Some _ => None
      | None =>
          match cached_lookup ttl now c with
          | inl _ => Some v
          | inr ep => Some (mkView c (<[id := (ep, OnMiss)]> (flights v)))
          end
      end
  | VLookupDone id now fetched =>
      match flights v !! id with
      | Some (ep, OnMiss) =>
          Some (mkView (cached_store now ep fetched c).1 (delete id (flights v)))
      | _ => None
      end
  | VRefresh id now =>
      match flights v !! id with
      | Some _ => None
      | None =>
          let (c', spawned) := refresh_finalized_head ttl now c in
          Some (mkView c' match spawned with
                          | Some ep => <[id := (ep, Fetching)]> (flights v)
                          | None => flights v
                          end)
      end
  | VRefreshLanded id =>
      match flights v !! id with
      | Some (ep, Fetching) => Some (mkView (refresh_landed c) (<[id := (ep, Landed)]> (flights v)))
      | _ => None
      end
  | VRefreshDone id now fetched =>
      match flights v !! id with
      | Some (ep, Landed) => Some (mkView (refresh_store now ep fetched c) (delete id (flights v)))
      | _ => None
      end
  end.

Fixpoint view_run (ttl : N) (v : View) (tr : list ViewEvent) : option View :=
  match tr with
  | [] => Some v
  | e :: tr => let! v := view_step ttl v e in view_run ttl v tr
  end.

(** ** Its specification: the answers of the current epoch *)

(** Which fetches were started since the last re-sync, and what the epoch's
    own fetches answered, the re-sync's answer included. *)
Record EpochView := mkEpochView { live : gset nat; answers : list (N * string) }.

Definition EpochView_default : EpochView := mkEpochView ∅ [].

Definition epoch_answer (s : EpochView) (id : nat) (fetched : Fetched) : EpochView :=
  match fetched with
  | Ok a => if decide (id ∈ live s) then mkEpochView (live s ∖ {[id]}) (answers s ++ [a]) else s
  | Err _ => mkEpochView (live s ∖ {[id]}) (answers s)
  end.

Definition epoch_step (s : EpochView) (e : ViewEvent) : EpochView :=
  match e with
  | VResync _ (Ok a) => mkEpochView ∅ [a]
  | VResync _ (Err _) => s
  | VLookup id _ | VRefresh id _ => mkEpochView ({[id]} ∪ live s) (answers s)
  | VLookupDone id _ fetched | VRefreshDone id _ fetched => epoch_answer s id fetched
  | VRefreshLanded _ => s
  end.

Definition epoch_view (tr : list ViewEvent) : EpochView :=
  foldl epoch_step EpochView_default tr.

(** The highest of a list of answers, the earliest one of equals. *)
Definition highest (l : list (N * string)) (r : option (N * string)) : Prop :=
  match r with
  | None => l = []
  | Some (n, h) =>
      exists i, l !! i = Some (n, h)
        /\ (forall b, b ∈ l -> (b.1 <= n)%N)
        /\ (forall j b, j < i -> l !! j = Some b -> (b.1 < n)%N)
  end.

Definition is_resync (e : ViewEvent) : bool :=
  match e with VResync _ (Ok _) => true | _ => false end.

Definition resyncs (tr : list ViewEvent) : nat := length (List.filter is_resync tr).

(** ** The view is the maximum of the epoch's answers *)

Lemma highest_snoc l r n h :
  highest l r ->
  highest (l ++ [(n, h)])
    match r with
    | Some (m, g) => if (n <=? m)%N then Some (m, g) else Some (n, h)
    | None => Some (n, h)
    end.
Proof.
  destruct r as [[m g]|]; simpl.
  - intros (i & Hi & Hmax & Hfirst). destruct (N.leb_spec n m) as [Hle|Hgt].
    + exists i. pose proof (lookup_lt_Some _ _ _ Hi). split_and!.
      * by rewrite lookup_app_l.
      * intros b [Hb| ->%list_elem_of_singleton]%elem_of_app; [by apply Hmax|done].
      * intros j b Hj. rewrite lookup_app_l by lia. by apply Hfirst.
    + exists (length l). split_and!.
      * by rewrite lookup_app_r, Nat.sub_diag.
      * intros b [Hb| ->%list_elem_of_singleton]%elem_of_app; [|done].
        specialize (Hmax b Hb). simpl. lia.
      * intros j b Hj. rewrite lookup_app_l by done. intros Hb%list_elem_of_lookup_2.
        specialize (Hmax b Hb). lia.
  - intros ->. exists 0. split_and!; [done| |intros; lia].
    intros b ->%list_elem_of_singleton. done.
Qed.

Lemma store_hint now ep n h c :
  finalized_head_hint (store_finalized_head now ep n h c) =
    if (epoch c =? ep)%N then
      match finalized_head_hint c with
      | Some (m, g) => if (n <=? m)%N then Some (m, g) else Some (n, h)
      | None => Some (n, h)
      end
    else finalized_head_hint c.
Proof.
  unfold store_finalized_head, finalized_head_hint.
  destruct (epoch c =? ep)%N; simpl; [|done].
  destruct (observed c) as [[[? ?] ?]|]; [|done]. by destruct (n <=? _)%N.
Qed.

Lemma store_epoch now ep n h c :
  epoch (store_finalized_head now ep n h c) = epoch c
  /\ refreshing (store_finalized_head now ep n h c) = refreshing c.
Proof. unfold store_finalized_head. by destruct (negb _). Qed.

(** The simulation relation: the view is the highest answer of the epoch, and
    the fetches of the epoch are those whose answer will be taken. *)
Record view_rel (tr : list ViewEvent) (v : View) : Prop := {
  vr_epoch : epoch (cache v) = N.of_nat (resyncs tr);
  vr_hint : highest (answers (epoch_view tr)) (finalized_head_hint (cache v));
  vr_old id ep k : flights v !! id = Some (ep, k) -> (ep <= epoch (cache v))%N;
  vr_live id ep k : flights v !! id = Some (ep, k) ->
    id ∈ live (epoch_view tr) <-> ep = epoch (cache v);
  vr_single : refreshing (cache v) = true <-> exists id ep, flights v !! id = Some (ep, Fetching);
  vr_unique id id' ep ep' : flights v !! id = Some (ep, Fetching) ->
    flights v !! id' = Some (ep', Fetching) -> id = id'
}.

Lemma resyncs_snoc tr e : resyncs (tr ++ [e]) = resyncs tr + if is_resync e then 1 else 0.
Proof. unfold resyncs. rewrite List.filter_app, length_app. simpl. by destruct (is_resync e). Qed.

Lemma epoch_view_snoc tr e : epoch_view (tr ++ [e]) = epoch_step (epoch_view tr) e.
Proof. unfold epoch_view. by rewrite foldl_app. Qed.

Lemma view_rel_init : view_rel [] View_default.
Proof.
  split; simpl; try done.
  split; [done|]. intros (? & ? & ?). simplify_map_eq.
Qed.

Lemma cached_store_refresh now ep fetched c :
  (cached_store now ep fetched c).1 = refresh_store now ep fetched c.
Proof. by destruct fetched as [[? ?]|]. Qed.

Lemma refresh_store_epoch now ep fetched c :
  epoch (refresh_store now ep fetched c) = epoch c
  /\ refreshing (refresh_store now ep fetched c) = refreshing c.
Proof. destruct fetched as [[? ?]|]; [apply store_epoch|done]. Qed.

(** A fetch that ends: its answer is taken exactly when it is of the epoch. *)
Lemma view_rel_done tr e now fetched v id ep k :
  view_rel tr v -> flights v !! id = Some (ep, k) -> k <> Fetching ->
  is_resync e = false ->
  epoch_step (epoch_view tr) e = epoch_answer (epoch_view tr) id fetched ->
  view_rel (tr ++ [e])
    (mkView (refresh_store now ep fetched (cache v)) (delete id (flights v))).
Proof.
  intros [He Hh Ho Hl Hs Hu] Hid Hk Hr Hstep.
  destruct (refresh_store_epoch now ep fetched (cache v)) as [Ee Er].
  split; rewrite ?epoch_view_snoc, ?Hstep; cbn [cache flights]; rewrite ?Ee, ?Er.
  - by rewrite resyncs_snoc, Hr, Nat.add_0_r.
  - destruct fetched as [[n h]|er]; simpl; [|done]. rewrite store_hint.
    specialize (Hl _ _ _ Hid). case_decide as Hin.
    + rewrite (proj1 Hl Hin), N.eqb_refl. by apply highest_snoc.
    + replace (epoch (cache v) =? ep)%N with false; [done|].
      symmetry. apply N.eqb_neq. intros E. by apply Hin, Hl.
  - intros id' ep' k' [_ H]%lookup_delete_Some. by eapply Ho.
  - intros id' ep' k' [Hne H]%lookup_delete_Some. rewrite <- (Hl _ _ _ H).
    destruct fetched as [[n h]|er]; simpl; [case_decide|]; simpl; set_solver.
  - rewrite Hs. split; intros (id' & ep' & H'); exists id', ep'.
    + apply lookup_delete_Some. split; [|done]. intros <-. congruence.
    + by apply lookup_delete_Some in H' as [_ H'].
  - intros id1 id2 e1 e2 [_ H1]%lookup_delete_Some [_ H2]%lookup_delete_Some. by eapply Hu.
Qed.

(** A fetch that starts, under the current epoch. *)
Lemma view_rel_start tr e v id k c' :
  view_rel tr v -> flights v !! id = None -> is_resync e = false ->
  epoch_step (epoch_view tr) e
    = mkEpochView ({[id]} ∪ live (epoch_view tr)) (answers (epoch_view tr)) ->
  observed c' = observed (cache v) -> epoch c' = epoch (cache v) ->
  (k = OnMiss /\ refreshing c' = refreshing (cache v)
   \/ k = Fetching /\ refreshing (cache v) = false /\ refreshing c' = true) ->
  view_rel (tr ++ [e]) (mkView c' (<[id := (epoch (cache v), k)]> (flights v))).
Proof.
  intros [He Hh Ho Hl Hs Hu] Hid Hr Hstep Eo Ee Hk.
  split; rewrite ?epoch_view_snoc, ?Hstep; cbn [cache flights live answers]; rewrite ?Ee.
  - by rewrite resyncs_snoc, Hr, Nat.add_0_r.
  - unfold finalized_head_hint in *. by rewrite Eo.
  - intros id' ep' k' [[-> [= <- <-]]|[_ H]]%lookup_insert_Some; [done|by eapply Ho].
  - intros id' ep' k' [[-> [= <- <-]]|[Hne H]]%lookup_insert_Some; [set_solver|].
    rewrite <- (Hl _ _ _ H). set_solver.
  - destruct Hk as [[-> ->]|(-> & Hf & ->)].
    + rewrite Hs. split; intros (id' & ep' & H'); exists id', ep'.
      * rewrite lookup_insert_ne; [done|]. intros ->. congruence.
      * apply lookup_insert_Some in H' as [[_ [=]]|[_ H']]. done.
    + split; [|done]. intros _. exists id, (epoch (cache v)). by rewrite lookup_insert_eq.
  - intros id1 id2 e1 e2 [[<- [= <- Hk1]]|[_ H1]]%lookup_insert_Some
      [[<- [= <- Hk2]]|[_ H2]]%lookup_insert_Some; [done| | |by eapply Hu];
      destruct Hk as [[? ?]|(? & Hf & ?)]; try congruence;
      exfalso; apply not_true_iff_false in Hf; apply Hf, Hs; eauto.
Qed.

Lemma view_rel_step ttl tr e v v' :
  view_rel tr v -> (N.of_nat (resyncs (tr ++ [e])) < 2 ^ 64)%N ->
  view_step ttl v e = Some v' -> view_rel (tr ++ [e]) v'.
Proof.
  intros Hv Hb Hstep. rewrite resyncs_snoc in Hb.
  destruct e as [now fetched|id now|id now fetched|id now|id|id now fetched]; cbn [view_step] in Hstep.
  - destruct Hv as [He Hh Ho Hl Hs Hu]. simplify_eq. destruct fetched as [[n h]|er]; simpl in *.
    + rewrite N.mod_small by lia.
      split; rewrite ?epoch_view_snoc; cbn [cache flights]; simpl; try done.
      * rewrite resyncs_snoc, He. simpl. lia.
      * apply (highest_snoc [] None). done.
      * intros id ep k H%Ho. lia.
      * intros id ep k H%Ho. split; [set_solver|lia].
    + split; rewrite ?epoch_view_snoc; simpl; try done.
      by rewrite resyncs_snoc, Nat.add_0_r.
  - destruct (flights v !! id) eqn:Hid; [done|].
    unfold cached_lookup in Hstep. destruct (finalized_head_if_fresh _ _ _); simplify_eq.
    + destruct Hv as [He Hh Ho Hl Hs Hu].
      split; rewrite ?epoch_view_snoc; simpl; try done.
      * by rewrite resyncs_snoc, Nat.add_0_r.
      * intros id' ep k H. rewrite <- (Hl _ _ _ H). set_solver.
    + eapply view_rel_start; eauto.
  - destruct (flights v !! id) as [[ep []]|] eqn:Hid; simplify_eq.
    rewrite cached_store_refresh. by eapply view_rel_done.
  - destruct (flights v !! id) eqn:Hid; [done|].
    unfold refresh_finalized_head in Hstep.
    destruct (refreshing (cache v)) eqn:Hr; [|destruct (is_fresh _ _ _)]; simplify_eq.
    3:{ eapply view_rel_start; eauto. }
    all: destruct Hv as [He Hh Ho Hl Hs Hu]; split; rewrite ?epoch_view_snoc; simpl; try done;
      [by rewrite resyncs_snoc, Nat.add_0_r
      |intros id' ep k H; rewrite <- (Hl _ _ _ H); set_solver].
  - destruct (flights v !! id) as [[ep []]|] eqn:Hid; simplify_eq.
    destruct Hv as [He Hh Ho Hl Hs Hu].
    split; rewrite ?epoch_view_snoc; cbn [cache flights epoch refreshing]; try done.
    + by rewrite resyncs_snoc, Nat.add_0_r.
    + intros id' ep' k' [[<- [= <- <-]]|[_ H]]%lookup_insert_Some; by eapply Ho.
    + intros id' ep' k' [[<- [= <- <-]]|[_ H]]%lookup_insert_Some; by eapply Hl.
    + split; [done|]. intros (id' & ep' & [[_ [=]]|[Hne H]]%lookup_insert_Some).
      by destruct Hne; eapply Hu.
    + intros id1 id2 e1 e2 [[_ [=]]|[_ H1]]%lookup_insert_Some [[_ [=]]|[_ H2]]%lookup_insert_Some.
      by eapply Hu.
  - destruct (flights v !! id) as [[ep []]|] eqn:Hid; simplify_eq. by eapply view_rel_done.
Qed.

Lemma view_run_snoc ttl v tr e :
  view_run ttl v (tr ++ [e]) = let! v1 := view_run ttl v tr in view_step ttl v1 e.
Proof.
  revert v. induction tr as [|a tr IH]; intros v; simpl; [by destruct (view_step _ _ _)|].
  by destruct (view_step _ _ _).
Qed.

Lemma view_rel_run ttl tr v :
  view_run ttl View_default tr = Some v -> (N.of_nat (resyncs tr) < 2 ^ 64)%N ->
  view_rel tr v.
Proof.
  revert v. induction tr as [|e tr IH] using rev_ind; intros v Hrun Hb.
  - simpl in Hrun. simplify_eq. apply view_rel_init.
  - rewrite view_run_snoc in Hrun. destruct (view_run _ _ tr) as [v1|]; [|done].
    eapply view_rel_step; [|done..]. apply IH; [done|].
    rewrite resyncs_snoc in Hb. lia.
Qed.

(** The view rises between re-syncs. *)
Definition hint_le (a b : option (N * string)) : Prop :=
  match a, b with
  | Some (n, _), Some (m, _) => (n <= m)%N
  | Some _, None => False
  | None, _ => True
  end.

#[export] Instance hint_le_preorder : PreOrder hint_le.
Proof.
  split; [by intros [[? ?]|]; simpl|].
  intros [[? ?]|] [[? ?]|] [[? ?]|]; simpl; intros; try done; lia.
Qed.

Lemma refresh_store_rises now ep fetched c :
  hint_le (finalized_head_hint c) (finalized_head_hint (refresh_store now ep fetched c)).
Proof.
  destruct fetched as [[n h]|]; simpl; [|done]. rewrite store_hint.
  destruct (_ =? _)%N; [|done].
  destruct (finalized_head_hint c) as [[m g]|]; simpl; [|done].
  destruct (N.leb_spec n m); lia.
Qed.

Lemma view_step_rises ttl v e v' :
  view_step ttl v e = Some v' -> is_resync e = false ->
  hint_le (finalized_head_hint (cache v)) (finalized_head_hint (cache v')).
Proof.
  intros Hs Hr.
  destruct e as [now [[n h]|er]|id now|id now fetched|id now|id|id now fetched];
    cbn [view_step] in Hs; unfold cached_lookup, refresh_finalized_head in Hs; try done;
    repeat case_match; simplify_eq/=; rewrite ?cached_store_refresh; try reflexivity;
    apply refresh_store_rises.
Qed.

Lemma view_run_rises ttl tr v v' :
  view_run ttl v tr = Some v' -> resyncs tr = 0 ->
  hint_le (finalized_head_hint (cache v)) (finalized_head_hint (cache v')).
Proof.
  revert v. induction tr as [|e tr IH]; intros v Hrun Hr; simpl in Hrun; [by simplify_eq|].
  destruct (view_step _ _ _) as [v1|] eqn:Hs; [|done].
  unfold resyncs in *. simpl in Hr. destruct (is_resync e) eqn:He; [done|].
  etransitivity; [by eapply view_step_rises|by apply IH].
Qed.

(** C29: Whatever the order in which fetches start, land and store, the cached
    finalized head is the highest answer of the current epoch, the earliest of
    equals: an answer asked for before the last re-sync is discarded whatever
    it says, so a re-seed may lower the view, and only a re-sync may; and at
    most one background refresh fetches at a time, the flag saying so. *)
Theorem view_is_epoch_maximum ttl tr v
    (Hrun : view_run ttl View_default tr = Some v)
    (Hepochs : (N.of_nat (resyncs tr) < 2 ^ 64)%N) :
  highest (answers (epoch_view tr)) (finalized_head_hint (cache v))
  /\ (refreshing (cache v) = true <-> exists id ep, flights v !! id = Some (ep, Fetching))
  /\ (forall id id' ep ep', flights v !! id = Some (ep, Fetching) ->
       flights v !! id' = Some (ep', Fetching) -> id = id')
  /\ (forall tr' v', view_run ttl v tr' = Some v' -> resyncs tr' = 0 ->
       hint_le (finalized_head_hint (cache v)) (finalized_head_hint (cache v'))).
Proof.
  destruct (view_rel_run _ _ _ Hrun Hepochs) as [_ Hh _ _ Hs Hu].
  split_and!; [done..|]. intros tr' v' Hr H0. by eapply view_run_rises.
Qed.

(** A refresh is in flight when the run is re-seeded lower: its answer, higher
    than the new seed, is not taken, and a lagging answer of the new epoch
    does not pull the view back. *)
Definition demo_view_trace : list ViewEvent :=
  [VResync 0 (Ok (100%N, "a"%string)); VRefresh 1 7; VResync 8 (Ok (90%N, "b"%string));
   VLookup 2 20; VRefreshLanded 1; VRefreshDone 1 21 (Ok (105%N, "c"%string));
   VLookupDone 2 22 (Ok (95%N, "d"%string)); VRefresh 3 40; VRefreshLanded 3;
   VRefreshDone 3 41 (Ok (93%N, "e"%string))].

Lemma view_is_epoch_maximum_witness :
  exists v, view_run 5 View_default demo_view_trace = Some v
    /\ answers (epoch_view demo_view_trace)
       = [(90%N, "b"%string); (95%N, "d"%string); (93%N, "e"%string)]
    /\ finalized_head_hint (cache v) = Some (95%N, "d"%string)
    /\ highest (answers (epoch_view demo_view_trace)) (finalized_head_hint (cache v)).
Proof.
  eexists. split; [vm_compute; reflexivity|]. split; [vm_compute; reflexivity|].
  split; [vm_compute; reflexivity|].
  refine (proj1 (view_is_epoch_maximum 5 demo_view_trace _ _ _)); vm_compute; reflexivity.
Defined.
