(* ===== verification/Prober.v ===== *)
(** * Prober: confirming that delivered blocks are final (source.rs)

    [finalize_stream] runs two tasks. The stream loop passes batches through,
    offers the references they deliver to the prober over a bounded channel,
    and attaches the last confirmed one to batches that carry no report. The
    prober keeps a bounded queue of unconfirmed references and asks the
    upstream about the five oldest per round. [finalize_step] interleaves them
    at their channel operations; a round is one step, the queue being the
    prober's own and the loop's channels untouched while it waits. *)
From Stdlib Require Import Sorting.Sorted.
From S2P Require Import Prelude Types EvmTypes.

Local Open Scope rust_scope.

Definition PROBE_INTERVAL : N := 500000000.   (* 500 ms, in nanoseconds *)
Definition PROBE_BATCH : nat := 5.
Definition PROBE_QUEUE_CAP : nat := 50.

(** What a delivered batch tells the prober. *)
Inductive ProbeMsg : Type :=
  | Candidate (r : BlockRef)
  | Settled (r : BlockRef).

(** [offer]: [try_send] on the bounded channel, dropping on a full one. *)
Definition offer (chan : list ProbeMsg) (msg : ProbeMsg) : list ProbeMsg :=
  if length chan <? PROBE_QUEUE_CAP then chan ++ [msg] else chan.

(** [confirmed.as_ref().is_some_and(|c| c.number >= n)]. *)
Definition covered (confirmed : option BlockRef) (n : N) : bool :=
  match confirmed with Some c => (n <=? br_number c)%N | None => false end.

(** [current.as_ref().is_none_or(|c| r.number > c.number)], and the update. *)
Definition raise_to (current : option BlockRef) (r : BlockRef) : option BlockRef :=
  if covered current (br_number r) then current else Some r.

Fixpoint pop_settled (n : N) (queue : list BlockRef) : list BlockRef :=
  match queue with
  | front :: rest => if (br_number front <=? n)%N then pop_settled n rest else queue
  | [] => []
  end.

(** Fold one message into the queue and the watermark; the [expect] on a full
    queue's back is the panic. *)
Definition absorb (queue : list BlockRef) (confirmed : option BlockRef) (msg : ProbeMsg)
    : option (list BlockRef * option BlockRef) :=
  match msg with
  | Candidate c =>
      if covered confirmed (br_number c) then Some (queue, confirmed)
      else if PROBE_QUEUE_CAP <=? length queue then
        match last queue with
        | Some _ => Some (removelast queue ++ [c], confirmed)
        | None => None
        end
      else Some (queue ++ [c], confirmed)
  | Settled s => Some (pop_settled (br_number s) queue, raise_to confirmed s)
  end.

(** ** One round *)

(** An [eth_getBlockByNumber] call without transactions. *)
Record HeaderCall := mkHeaderCall { hc_tag : string; hc_full : bool }.

(** The part of its answer the code reads: [null], or the two fields as
    strings where they are strings. *)
Inductive HeaderAnswer : Type :=
  | NullHeader
  | HeaderFields (number hash : option string).

Definition probe_call (n : N) : HeaderCall := mkHeaderCall (to_qty n) false.

Definition probe_info (r : Result HeaderAnswer string) : option (N * string) :=
  match r with
  | Ok (HeaderFields (Some n) (Some h)) => Some (qty2_u64 n, h)
  | _ => None
  end.

(** The client's batch call. *)
Definition BatchCall : Type :=
  list HeaderCall -> Result (list (Result HeaderAnswer string)) string.

(** [fin] is what [get_finalized_head_cached] returned. *)
Definition get_finalized_block_batch (fin : Result (N * string) string) (client : BatchCall)
    (numbers : list N) : Result (list (option (N * string))) string :=
  let? (finalized_num, _) := fin in
  let numbers := List.filter (fun n => n <=? finalized_num)%N numbers in
  match numbers with
  | [] => Ok []
  | _ => let? results := client (probe_call <$> numbers) in Ok (probe_info <$> results)
  end.

(** The walk from the newest answered probe down. [k] is the code's [idx + 1];
    the probes, shortened by the refs the upstream contradicts, the index
    after the stop and the ref settled are returned. *)
Fixpoint walk (k : nat) (confirmed : option BlockRef) (probes : list BlockRef)
    (infos : list (option (N * string))) : option (nat * list BlockRef * option BlockRef) :=
  match k with
  | O => Some (0, probes, None)
  | S i =>
      let! settled := match confirmed with
                      | Some c => let! p := probes !! i in
                                  Some (br_number p <=? br_number c)%N
                      | None => Some false
                      end in
      if settled then Some (S i, probes, None)
      else
        let! info := infos !! i in
        match info with
        | None => walk i confirmed probes infos
        | Some (_, hash) =>
            let! p := probes !! i in
            if bool_decide (hash = br_hash p) then Some (S i, probes, Some p)
            else walk i confirmed (delete i probes) infos
        end
  end.

Record ProberState := mkProberState {
  p_queue : list BlockRef;
  p_confirmed : option BlockRef;
  p_last_round : N
}.

(** [PROBE_INTERVAL.saturating_sub(last_round.elapsed())]. *)
Definition probe_wait (now : N) (p : ProberState) : N :=
  (PROBE_INTERVAL - (now - p_last_round p))%N.

(** A round: [woken] and [settled_at] are the clock after the pause and at the
    reset of [last_round]. *)
Definition probe_round (woken settled_at : N) (fin : Result (N * string) string)
    (client : BatchCall) (p : ProberState) : option (ProberState * option BlockRef) :=
  let probes := take PROBE_BATCH (p_queue p) in
  let queue := drop PROBE_BATCH (p_queue p) in
  match get_finalized_block_batch fin client (br_number <$> probes) with
  | Err _ => Some (mkProberState (probes ++ queue) (p_confirmed p) woken, None)
  | Ok infos =>
      let! (k, probes, hit) := walk (length infos) (p_confirmed p) probes infos in
      if length probes <? k then None
      else
        let open := drop k probes in
        let confirmed := match hit with Some r => Some r | None => p_confirmed p end in
        let last_round := match open with
                          | [] => (settled_at - PROBE_INTERVAL)%N
                          | _ => woken
                          end in
        Some (mkProberState (open ++ queue) confirmed last_round, hit)
  end.

(** ** The two tasks *)

(** The loop's share of a delivered batch: the new watermark, the messages
    offered, and the batch passed on. *)
Definition pass_batch (batch : BlockBatch) (current : option BlockRef)
    (ingress : list ProbeMsg) : option BlockRef * list ProbeMsg * BlockBatch :=
  let carried := batch_finalized_head batch in
  let '(current, ingress) :=
    match carried, last (batch_blocks batch) with
    | Some _, Some b =>
        let settled := block_ref b in
        (raise_to current settled, offer ingress (Settled settled))
    | _, _ =>
        (current, foldl offer ingress ((fun b => Candidate (block_ref b)) <$> batch_blocks batch))
    end in
  let finalized_head := match carried with Some r => Some r | None => current end in
  (current, ingress, mkBlockBatch (batch_blocks batch) finalized_head).

(** The prober gathers messages until the channel is empty, then probes. *)
Inductive ProberPhase : Type := Gathering | Probing | Exited.

Record FinalizeState := mkFinalizeState {
  fs_current : option BlockRef;
  prober_alive : bool;
  fs_open : bool;                       (* the stream has not ended *)
  fs_ingress : list ProbeMsg;
  fs_prober : ProberState;
  fs_phase : ProberPhase;
  fs_results : list BlockRef;
  fs_out : list (Result BlockBatch StreamError)
}.

(** [start] is [Instant::now() - PROBE_INTERVAL]. *)
Definition finalize_init (start : N) : FinalizeState :=
  mkFinalizeState None true true [] (mkProberState [] None start) Gathering [] [].

Definition PROBE_RESULTS_CAP : nat := 8.

Inductive FinalizeEvent : Type :=
  | FItem (item : option (Result BlockBatch StreamError))
  | FDeliver
  | FAbsorb
  | FDrained
  | FRound (woken settled_at : N) (fin : Result (N * string) string) (client : BatchCall)
  | FExit.

(** [None] is an event that cannot occur, or a panic of the prober. *)
Definition finalize_step (s : FinalizeState) (e : FinalizeEvent) : option FinalizeState :=
  let '(mkFinalizeState current alive opened ingress prober phase results out) := s in
  match e with
  | FItem item =>
      if negb opened then None
      else match item with
           | None => Some (mkFinalizeState current alive false ingress prober phase results out)
           | Some (Err err) =>
               Some (mkFinalizeState current alive false ingress prober phase results
                       (out ++ [Err err]))
           | Some (Ok batch) =>
               let '(current, ingress, emitted) := pass_batch batch current ingress in
               Some (mkFinalizeState current alive true ingress prober phase results
                       (out ++ [Ok emitted]))
           end
  | FDeliver =>
      if negb (opened && alive) then None
      else match results, phase with
           | r :: results, _ =>
               Some (mkFinalizeState (raise_to current r) alive true ingress prober phase results out)
           | [], Exited => Some (mkFinalizeState current false true ingress prober phase [] out)
           | [], _ => None
           end
  | FAbsorb =>
      match phase, ingress with
      | Gathering, msg :: ingress =>
          let! (queue, confirmed) := absorb (p_queue prober) (p_confirmed prober) msg in
          Some (mkFinalizeState current alive opened ingress
                  (mkProberState queue confirmed (p_last_round prober)) Gathering results out)
      | _, _ => None
      end
  | FDrained =>
      match phase, ingress, opened, p_queue prober with
      | Gathering, [], true, _ :: _ =>
          Some (mkFinalizeState current alive opened [] prober Probing results out)
      | _, _, _, _ => None
      end
  | FRound woken settled_at fin client =>
      match phase with
      | Probing =>
          let! (prober, hit) := probe_round woken settled_at fin client prober in
          match hit with
          | None =>
              Some (mkFinalizeState current alive opened ingress prober Gathering results out)
          | Some r =>
              if negb opened then
                Some (mkFinalizeState current alive opened ingress prober Exited results out)
              else if length results <? PROBE_RESULTS_CAP then
                Some (mkFinalizeState current alive opened ingress prober Gathering
                        (results ++ [r]) out)
              else None
          end
      | _ => None
      end
  | FExit =>
      match phase, ingress, opened with
      | Exited, _, _ => None
      | Gathering, [], false =>
          Some (mkFinalizeState current alive opened [] prober Exited results out)
      | _, _, _ => None
      end
  end.

Fixpoint finalize_run (s : FinalizeState) (tr : list FinalizeEvent) : option FinalizeState :=
  match tr with
  | [] => Some s
  | e :: tr => let! s := finalize_step s e in finalize_run s tr
  end.

(** ** A round settles the highest answered reference *)

(** What one probe's answer says of it. *)
Inductive Verdict : Type := AlreadySettled | Confirmed | Contradicted | Unknown.

Definition verdict (confirmed : option BlockRef) (p : BlockRef)
    (info : option (N * string)) : Verdict :=
  if covered confirmed (br_number p) then AlreadySettled
  else match info with
       | None => Unknown
       | Some (_, h) => if bool_decide (h = br_hash p) then Confirmed else Contradicted
       end.

(** The reference of the walk, a fold over the probes with their answers from
    the newest: whether it has stopped, the ref settled, the refs kept. *)
Definition settle_one (confirmed : option BlockRef) (x : BlockRef * option (N * string))
    (acc : bool * option BlockRef * list BlockRef) : bool * option BlockRef * list BlockRef :=
  let '(stopped, hit, open) := acc in
  if stopped then acc
  else match verdict confirmed x.1 x.2 with
       | AlreadySettled => (true, None, open)
       | Confirmed => (true, Some x.1, open)
       | Contradicted => (false, None, open)
       | Unknown => (false, None, x.1 :: open)
       end.

Definition settle (confirmed : option BlockRef) (probes : list BlockRef)
    (infos : list (option (N * string))) (above : list BlockRef)
    : bool * option BlockRef * list BlockRef :=
  foldr (settle_one confirmed) (false, None, above) (zip probes infos).

Lemma settle_stopped confirmed l hit open :
  foldr (settle_one confirmed) (true, hit, open) l = (true, hit, open).
Proof. induction l as [|x l IH]; simpl; [done|]. by rewrite IH. Qed.

Lemma covered_get (confirmed : option BlockRef) (p : BlockRef) (probes : list BlockRef) i :
  probes !! i = Some p ->
  match confirmed with
  | Some c => match probes !! i with Some p => Some (br_number p <=? br_number c)%N | None => None end
  | None => Some false
  end = Some (covered confirmed (br_number p)).
Proof. intros ->. by destruct confirmed. Qed.

Lemma walk_settle confirmed front infos :
  forall back rest, length front = length infos ->
  exists k probes, walk (length front) confirmed (front ++ back) (infos ++ rest)
      = Some (k, probes, (settle confirmed front infos back).1.2)
    /\ k <= length probes /\ drop k probes = (settle confirmed front infos back).2.
Proof.
  revert infos. induction front as [|p front IH] using rev_ind; intros infos back rest Hlen.
  - destruct infos; [|done]. exists 0, back. split_and!; [done|lia|done].
  - destruct infos as [|info infos _] using rev_ind; rewrite ?length_app in Hlen; simpl in Hlen; [lia|].
    assert (length front = length infos) as Hl by lia.
    rewrite <- !app_assoc. rewrite length_app, Nat.add_comm. cbn [length Nat.add walk app].
    rewrite (covered_get confirmed p) by (by rewrite lookup_app_r, Nat.sub_diag).
    unfold settle. rewrite zip_with_app, foldr_app by done. cbn [zip_with foldr settle_one fst snd].
    rewrite (lookup_app_r infos), Hl, Nat.sub_diag by lia. cbn [lookup list_lookup].
    unfold verdict. destruct (covered confirmed (br_number p)) eqn:Hc.
    { rewrite settle_stopped. exists (S (length infos)), (front ++ p :: back).
      split_and!; [done|rewrite length_app; simpl; lia|].
      rewrite <- Hl, drop_app_ge by lia. by replace (S _ - _) with 1 by lia. }
    destruct info as [[n h]|].
    + rewrite lookup_app_r, Hl, Nat.sub_diag by lia. cbn [lookup list_lookup].
      destruct (bool_decide (h = br_hash p)).
      * rewrite settle_stopped. exists (S (length infos)), (front ++ p :: back).
        split_and!; [done|rewrite length_app; simpl; lia|].
        rewrite <- Hl, drop_app_ge by lia. by replace (S _ - _) with 1 by lia.
      * rewrite <- Hl, delete_middle. by apply IH.
    + rewrite <- Hl. by apply (IH infos (p :: back)).
Qed.

(** The infos answer the first probes: a round over [n] answers. *)
Lemma walk_round confirmed probes infos :
  length infos <= length probes ->
  let s := settle confirmed probes infos (drop (length infos) probes) in
  exists k probes', walk (length infos) confirmed probes infos = Some (k, probes', s.1.2)
    /\ k <= length probes' /\ drop k probes' = s.2.
Proof.
  intros Hlen.
  destruct (walk_settle confirmed (take (length infos) probes) infos (drop (length infos) probes) [])
    as (k & probes' & E & Hk & Hd); [rewrite length_take; lia|].
  rewrite take_drop, app_nil_r, length_take, Nat.min_l in E by done.
  assert (settle confirmed (take (length infos) probes) infos (drop (length infos) probes)
          = settle confirmed probes infos (drop (length infos) probes)) as Hs.
  { unfold settle. f_equal.
    rewrite <- (take_drop (length infos) probes) at 2. rewrite zip_with_app_l.
    rewrite length_take, Nat.min_l, drop_all by done. rewrite zip_with_nil_r, app_nil_r.
    by rewrite firstn_all. }
  rewrite Hs in *. eauto.
Qed.

(** ** What a round's answers mean *)

Definition ref_lt (a b : BlockRef) : Prop := (br_number a < br_number b)%N.

Lemma StronglySorted_sublist {A} (R : A -> A -> Prop) l l' :
  sublist l l' -> StronglySorted R l' -> StronglySorted R l.
Proof.
  induction 1 as [|x l l' Hsub IH|x l l' Hsub IH]; intros Hs; inversion_clear Hs;
    [constructor|constructor; [by apply IH|]|by apply IH].
  apply Forall_forall. intros y Hy. eapply Forall_forall; [done|]. by eapply elem_of_sublist.
Qed.

Lemma filter_le_prefix n l :
  StronglySorted N.lt l ->
  List.filter (fun x => x <=? n)%N l = take (length (List.filter (fun x => x <=? n)%N l)) l.
Proof.
  induction 1 as [|x l _ IH Hx]; simpl; [done|].
  destruct (N.leb_spec x n) as [Hle|Hgt]; simpl; [by f_equal|].
  replace (List.filter _ l) with (@nil N); [done|]. symmetry.
  rewrite List.Forall_forall in Hx. clear IH.
  induction l as [|y l IHl]; simpl; [done|]. pose proof (Hx y ltac:(left; done)).
  destruct (N.leb_spec y n); [lia|]. apply IHl. intros z Hz. apply Hx. by right.
Qed.

(** The client answers every call of a batch
    ([RpcClient.batch_answers_in_order]). *)
Definition answers_each (client : BatchCall) : Prop :=
  forall calls results, client calls = Ok results -> length results = length calls.

(** The upstream's finalized head is at or above the reference, and its block
    at that height has the reference's hash. *)
Definition upstream_confirms (fin : Result (N * string) string) (client : BatchCall)
    (r : BlockRef) : Prop :=
  exists fn fh calls results i n,
    fin = Ok (fn, fh) /\ (br_number r <= fn)%N /\ client calls = Ok results
    /\ calls !! i = Some (probe_call (br_number r))
    /\ results !! i = Some (Ok (HeaderFields (Some n) (Some (br_hash r)))).

Lemma sorted_numbers probes :
  StronglySorted ref_lt probes -> StronglySorted N.lt (br_number <$> probes).
Proof. induction 1 as [|x l _ IH Hx]; simpl; constructor; [done|]. by apply Forall_fmap. Qed.

Lemma get_finalized_block_batch_spec fin client probes infos :
  StronglySorted ref_lt probes -> answers_each client ->
  get_finalized_block_batch fin client (br_number <$> probes) = Ok infos ->
  length infos <= length probes
  /\ forall i p n, probes !! i = Some p -> infos !! i = Some (Some (n, br_hash p)) ->
       upstream_confirms fin client p.
Proof.
  intros Hs Hc. unfold get_finalized_block_batch. destruct fin as [[fn fh]|]; [|done].
  pose proof (filter_le_prefix fn _ (sorted_numbers _ Hs)) as Hpre.
  set (numbers := List.filter _ _) in *.
  assert (length numbers <= length probes) as Hlen.
  { rewrite Hpre, length_take, length_fmap. lia. }
  assert (forall results, client (probe_call <$> numbers) = Ok results ->
    length (probe_info <$> results) <= length probes
    /\ forall i p n, probes !! i = Some p ->
         (probe_info <$> results) !! i = Some (Some (n, br_hash p)) ->
         upstream_confirms (Ok (fn, fh)) client p) as Hmain.
  { intros results Hr. pose proof (Hc _ _ Hr) as Hl. rewrite length_fmap in Hl.
    split; [by rewrite length_fmap, Hl|]. intros i p n Hp Hi.
    rewrite list_lookup_fmap in Hi. destruct (results !! i) as [res|] eqn:Hres; [|done].
    simpl in Hi. injection Hi as Hi.
    destruct (numbers !! i) as [m|] eqn:Hm;
      [|apply lookup_ge_None in Hm; apply lookup_lt_Some in Hres; lia].
    assert (m = br_number p) as ->.
    { rewrite Hpre in Hm. apply lookup_take_Some in Hm as [Hm _].
      rewrite list_lookup_fmap, Hp in Hm. by simplify_eq/=. }
    assert (br_number p <= fn)%N as Hle.
    { apply list_elem_of_lookup_2 in Hm. apply list_elem_of_In, List.filter_In in Hm as [_ Hm].
      by apply N.leb_le. }
    destruct res as [[|[num|] [h|]]|]; simpl in Hi; try done. injection Hi as <- ->.
    exists fn, fh, (probe_call <$> numbers), results, i, num. split_and!; try done.
    by rewrite list_lookup_fmap, Hm. }
  destruct numbers as [|n0 numbers]; [intros [= <-]; split; [simpl; lia|done]|].
  destruct (client _) as [results|] eqn:Hr; [|done]. intros [= <-]. by apply Hmain.
Qed.

(** What the fold keeps: a subsequence of the probes, headed by the ref it
    settled, which the answers agree on and the watermark did not cover. *)
Lemma settle_spec confirmed probes infos above :
  let s := settle confirmed probes infos above in
  sublist (option_list s.1.2 ++ s.2) (take (length infos) probes ++ above)
  /\ (s.1.1 = false -> s.1.2 = None)
  /\ forall r, s.1.2 = Some r -> covered confirmed (br_number r) = false
       /\ exists i n, probes !! i = Some r /\ infos !! i = Some (Some (n, br_hash r)).
Proof.
  simpl. unfold settle. revert infos. induction probes as [|p probes IH]; intros infos.
  - rewrite take_nil. simpl. done.
  - destruct infos as [|info infos]; simpl.
    { split_and!; [apply sublist_nil_l || done|done..]. }
    specialize (IH infos) as (Hsub & Hn & Hr).
    destruct (foldr _ _ _) as [[stopped hit] open]. simpl in *.
    destruct stopped; simpl.
    { split_and!; [by apply sublist_cons|done|]. intros r E. destruct (Hr r E) as (Hc & i & n & ? & ?).
      split; [done|]. by exists (S i), n. }
    rewrite (Hn eq_refl) in *. unfold verdict.
    destruct (covered confirmed (br_number p)) eqn:Hcov; simpl.
    { split_and!; [by apply sublist_cons|done..]. }
    destruct info as [[n h]|]; simpl.
    + case_bool_decide as Hh; simpl.
      * split_and!; [by apply sublist_skip|done|]. intros r [= <-]. split; [done|].
        exists 0, n. by subst h.
      * split_and!; [by apply sublist_cons|done..].
    + split_and!; [by apply sublist_skip|done..].
Qed.

(** Everything about one round. *)
Lemma probe_round_spec woken settled_at fin client p :
  StronglySorted ref_lt (p_queue p) -> answers_each client ->
  exists p' hit, probe_round woken settled_at fin client p = Some (p', hit)
    /\ sublist (option_list hit ++ p_queue p') (p_queue p)
    /\ p_confirmed p' = match hit with Some r => Some r | None => p_confirmed p end
    /\ (forall r, hit = Some r -> r ∈ p_queue p /\ covered (p_confirmed p) (br_number r) = false
          /\ upstream_confirms fin client r).
Proof.
  intros Hs Hc. unfold probe_round.
  destruct (get_finalized_block_batch _ _ _) as [infos|] eqn:Hb.
  2:{ eexists _, None. split; [done|]. rewrite take_drop. done. }
  assert (StronglySorted ref_lt (take PROBE_BATCH (p_queue p))) as Hsp.
  { eapply StronglySorted_sublist; [|exact Hs]. apply sublist_take. }
  destruct (get_finalized_block_batch_spec _ _ _ _ Hsp Hc Hb) as [Hlen Hconf].
  set (probes := take PROBE_BATCH (p_queue p)) in *.
  destruct (walk_round (p_confirmed p) probes infos Hlen) as (k & probes' & -> & Hk & Hd).
  destruct (settle_spec (p_confirmed p) probes infos (drop (length infos) probes)) as (Hsub & _ & Hhit).
  rewrite take_drop in Hsub.
  replace (length probes' <? k) with false by (symmetry; apply Nat.ltb_ge; lia).
  rewrite Hd. destruct (settle _ _ _ _) as [[stopped hit] open]. simpl in *.
  eexists _, hit. split; [done|]. split; [|split; [done|]].
  - change (sublist (option_list hit ++ (open ++ drop PROBE_BATCH (p_queue p))) (p_queue p)).
    rewrite app_assoc. refine (eq_rect _ (sublist _) _ _ (take_drop PROBE_BATCH (p_queue p))).
    by apply sublist_app.
  - intros r Hr. destruct (Hhit r Hr) as (Hcov & i & n & Hi & Hinfo).
    split; [|split; [done|by eapply Hconf]].
    apply list_elem_of_lookup_2 in Hi. eapply elem_of_sublist; [exact Hi|].
    apply sublist_take.
Qed.

(** ** The stream's watermark *)

Definition items (tr : list FinalizeEvent) : list (Result BlockBatch StreamError) :=
  omap (fun e => match e with FItem item => item | _ => None end) tr.

(** The references delivered so far. *)
Definition delivered (tr : list FinalizeEvent) : list BlockRef :=
  mjoin ((fun item => match item with
                      | Ok batch => block_ref <$> batch_blocks batch
                      | Err _ => []
                      end) <$> items tr).

(** The head of a batch the adapter reported as finalized as a whole. *)
Definition settled_by (tr : list FinalizeEvent) (r : BlockRef) : Prop :=
  exists batch b, Ok batch ∈ items tr /\ batch_finalized_head batch <> None
    /\ last (batch_blocks batch) = Some b /\ block_ref b = r.

(** A delivered block that a round confirmed with the upstream. *)
Definition confirmed_by (tr : list FinalizeEvent) (r : BlockRef) : Prop :=
  r ∈ delivered tr /\ exists woken settled_at fin client,
    FRound woken settled_at fin client ∈ tr /\ upstream_confirms fin client r.

Definition justified (tr : list FinalizeEvent) (r : BlockRef) : Prop :=
  settled_by tr r \/ confirmed_by tr r.

Definition candidates (chan : list ProbeMsg) : list BlockRef :=
  omap (fun m => match m with Candidate r => Some r | Settled _ => None end) chan.

(** What the loop emits for an item: the same blocks; the batch's own report
    if it has one, otherwise nothing or a justified reference. *)
Definition passed_on (tr : list FinalizeEvent) (item out : Result BlockBatch StreamError) : Prop :=
  match item, out with
  | Ok b, Ok b' =>
      batch_blocks b' = batch_blocks b
      /\ match batch_finalized_head b with
         | Some r => batch_finalized_head b' = Some r
         | None => forall r, batch_finalized_head b' = Some r -> justified tr r
         end
  | Err e, Err e' => e = e'
  | _, _ => False
  end.

Record finalize_inv (tr : list FinalizeEvent) (s : FinalizeState) : Prop := {
  fi_queue : length (p_queue (fs_prober s)) <= PROBE_QUEUE_CAP;
  fi_ingress : length (fs_ingress s) <= PROBE_QUEUE_CAP;
  fi_results : length (fs_results s) <= PROBE_RESULTS_CAP;
  fi_pending : sublist (p_queue (fs_prober s) ++ candidates (fs_ingress s)) (delivered tr);
  fi_watermarks r : fs_current s = Some r \/ p_confirmed (fs_prober s) = Some r
    \/ r ∈ fs_results s \/ Settled r ∈ fs_ingress s -> justified tr r;
  fi_alive : fs_open s = true -> prober_alive s = true /\ fs_phase s <> Exited;
  fi_out : Forall2 (passed_on tr) (items tr) (fs_out s)
}.

Lemma items_snoc tr e :
  items (tr ++ [e]) = items tr ++ match e with FItem (Some item) => [item] | _ => [] end.
Proof. unfold items. rewrite omap_app. destruct e as [[?|]| | | | |]; done. Qed.

Lemma delivered_snoc tr e :
  delivered (tr ++ [e]) =
    delivered tr ++ match e with
                    | FItem (Some (Ok batch)) => block_ref <$> batch_blocks batch
                    | _ => []
                    end.
Proof.
  unfold delivered. rewrite items_snoc, fmap_app, join_app. f_equal.
  destruct e as [[[?|]|]| | | | |]; simpl; by rewrite ?app_nil_r.
Qed.

Lemma justified_mono tr e r : justified tr r -> justified (tr ++ [e]) r.
Proof.
  intros [(b & x & Hb & Hrest)|[Hd (w & t & f & c & Hin & Hu)]]; [left|right].
  - exists b, x. rewrite items_snoc. split; [set_solver|done].
  - split; [rewrite delivered_snoc; set_solver|]. exists w, t, f, c. split; [set_solver|done].
Qed.

Lemma passed_on_mono tr e item out : passed_on tr item out -> passed_on (tr ++ [e]) item out.
Proof.
  destruct item as [b|], out as [b'|]; simpl; try done. intros [? H]. split; [done|].
  destruct (batch_finalized_head b); [done|]. intros r Hr. by apply justified_mono, H.
Qed.

Lemma offer_one chan m :
  length chan <= PROBE_QUEUE_CAP ->
  length (offer chan m) <= PROBE_QUEUE_CAP
  /\ (offer chan m = chan ++ [m] \/ offer chan m = chan /\ length chan = PROBE_QUEUE_CAP).
Proof.
  intros Hc. unfold offer. destruct (Nat.ltb_spec (length chan) PROBE_QUEUE_CAP).
  - rewrite length_app. simpl. split; [lia|by left].
  - split; [done|right; split; [done|lia]].
Qed.

Lemma offer_all chan msgs :
  length chan <= PROBE_QUEUE_CAP ->
  exists k, foldl offer chan msgs = chan ++ take k msgs
    /\ length (foldl offer chan msgs) <= PROBE_QUEUE_CAP.
Proof.
  revert chan. induction msgs as [|m msgs IH]; intros chan Hc; cbn [foldl].
  { exists 0. by rewrite take_nil, app_nil_r. }
  destruct (offer_one chan m Hc) as [Hc' Ho].
  destruct (IH _ Hc') as (k & E & Hk). rewrite E in Hk |- *.
  destruct Ho as [Ho|[Ho Hfull]]; rewrite Ho in *.
  - exists (S k). by rewrite <- app_assoc in *.
  - exists 0. split; [|done]. rewrite length_app in Hk. f_equal. apply nil_length_inv. simpl. lia.
Qed.

Lemma candidates_map l : candidates (Candidate <$> l) = l.
Proof. induction l; simpl; [done|]. by f_equal. Qed.

Lemma candidates_app a b : candidates (a ++ b) = candidates a ++ candidates b.
Proof. apply omap_app. Qed.

Lemma raise_to_cases current r x : raise_to current r = Some x -> current = Some x \/ x = r.
Proof. unfold raise_to. destruct (covered _ _); [by left|]. intros [= <-]. by right. Qed.

Lemma pop_settled_sublist n queue : sublist (pop_settled n queue) queue.
Proof.
  induction queue as [|r queue IH]; simpl; [done|].
  destruct (_ <=? _)%N; [by apply sublist_cons|done].
Qed.

(** Absorbing never panics; it adds at most the candidate. *)
Lemma absorb_spec queue confirmed msg :
  length queue <= PROBE_QUEUE_CAP ->
  exists queue' confirmed', absorb queue confirmed msg = Some (queue', confirmed')
    /\ length queue' <= PROBE_QUEUE_CAP
    /\ sublist queue' (queue ++ candidates [msg])
    /\ forall r, confirmed' = Some r -> confirmed = Some r \/ msg = Settled r.
Proof.
  intros Hq. destruct msg as [c|r]; cbn [absorb candidates omap list_omap].
  - destruct (covered confirmed (br_number c)).
    { exists queue, confirmed. split_and!; [done|done|by apply sublist_inserts_r|by left]. }
    destruct (PROBE_QUEUE_CAP <=? length queue) eqn:Hfull.
    + destruct (last queue) as [x|] eqn:Hl.
      2:{ apply last_None in Hl. by subst queue. }
      apply last_Some in Hl as [l ->]. rewrite removelast_last.
      rewrite length_app in Hq. simpl in Hq.
      eexists _, _. split_and!; [done|rewrite length_app; simpl; lia| |by left].
      rewrite <- app_assoc. apply sublist_app; [done|]. by apply sublist_cons.
    + apply Nat.leb_gt in Hfull.
      eexists _, _. split_and!; [done|rewrite length_app; simpl; lia|done|by left].
  - eexists _, _. split_and!; [done| | |].
    + etransitivity; [|exact Hq]. apply sublist_length, pop_settled_sublist.
    + rewrite app_nil_r. apply pop_settled_sublist.
    + intros x [H| ->]%raise_to_cases; [by left|by right].
Qed.

Lemma finalize_inv_init start : finalize_inv [] (finalize_init start).
Proof.
  split; simpl; try (unfold PROBE_QUEUE_CAP, PROBE_RESULTS_CAP; lia); try done.
  intros r [?|[?|[?|?]]]; set_solver.
Qed.

Lemma passed_on_all_mono tr e its outs :
  Forall2 (passed_on tr) its outs -> Forall2 (passed_on (tr ++ [e])) its outs.
Proof. intros H. eapply Forall2_impl; [exact H|]. intros. by apply passed_on_mono. Qed.

(** An event that is not an item delivers nothing. *)
Lemma finalize_inv_quiet tr e s s' :
  finalize_inv tr s -> (forall item, e = FItem item -> item = None) ->
  length (p_queue (fs_prober s')) <= PROBE_QUEUE_CAP ->
  length (fs_ingress s') <= PROBE_QUEUE_CAP ->
  length (fs_results s') <= PROBE_RESULTS_CAP ->
  sublist (p_queue (fs_prober s') ++ candidates (fs_ingress s'))
          (p_queue (fs_prober s) ++ candidates (fs_ingress s)) ->
  (forall r, fs_current s' = Some r \/ p_confirmed (fs_prober s') = Some r
     \/ r ∈ fs_results s' \/ Settled r ∈ fs_ingress s' ->
     justified (tr ++ [e]) r \/
     (fs_current s = Some r \/ p_confirmed (fs_prober s) = Some r
      \/ r ∈ fs_results s \/ Settled r ∈ fs_ingress s)) ->
  (fs_open s' = true -> prober_alive s' = true /\ fs_phase s' <> Exited) ->
  fs_out s' = fs_out s -> finalize_inv (tr ++ [e]) s'.
Proof.
  intros [Hq Hi Hr Hp Hw Ha Ho] Hitem Hq' Hi' Hr' Hp' Hw' Ha' Eo.
  assert (delivered (tr ++ [e]) = delivered tr /\ items (tr ++ [e]) = items tr) as [Ed Ei].
  { rewrite delivered_snoc, items_snoc. destruct e as [item| | | | |]; rewrite ?app_nil_r; try done.
    by rewrite (Hitem _ eq_refl), !app_nil_r. }
  split; rewrite ?Ed, ?Ei, ?Eo; try done.
  - by etransitivity.
  - intros r H. destruct (Hw' r H) as [H1|H1]; [done|]. by apply justified_mono, Hw.
  - by apply passed_on_all_mono.
Qed.

Lemma last_block_settled tr batch b r :
  batch_finalized_head batch = Some r -> last (batch_blocks batch) = Some b ->
  settled_by (tr ++ [FItem (Some (Ok batch))]) (block_ref b).
Proof.
  intros Hr Hb. exists batch, b. rewrite items_snoc. split_and!; [set_solver|congruence|done..].
Qed.

Lemma offer_candidates ingress refs :
  length ingress <= PROBE_QUEUE_CAP ->
  exists k, let chan := foldl offer ingress (Candidate <$> refs) in
    length chan <= PROBE_QUEUE_CAP
    /\ candidates chan = candidates ingress ++ take k refs
    /\ forall r, Settled r ∈ chan -> Settled r ∈ ingress.
Proof.
  intros Hi. destruct (offer_all ingress (Candidate <$> refs) Hi) as (k & E & Hl).
  exists k. simpl. split; [done|]. rewrite E, <- fmap_take. split.
  - by rewrite candidates_app, candidates_map.
  - intros r [H|H]%elem_of_app; [done|]. by apply list_elem_of_fmap in H as (? & ? & _).
Qed.

(** What the loop does with a batch. *)
Lemma pass_batch_spec tr batch current ingress :
  length ingress <= PROBE_QUEUE_CAP ->
  let '(current', ingress', emitted) := pass_batch batch current ingress in
  length ingress' <= PROBE_QUEUE_CAP
  /\ (exists k, candidates ingress' = candidates ingress ++ take k (block_ref <$> batch_blocks batch))
  /\ (forall r, current' = Some r \/ Settled r ∈ ingress' ->
        justified (tr ++ [FItem (Some (Ok batch))]) r \/ current = Some r \/ Settled r ∈ ingress)
  /\ emitted = mkBlockBatch (batch_blocks batch)
       match batch_finalized_head batch with Some r => Some r | None => current' end.
Proof.
  intros Hi. unfold pass_batch.
  assert (forall refs, refs = (fun b => Candidate (block_ref b)) <$> batch_blocks batch ->
    length (foldl offer ingress refs) <= PROBE_QUEUE_CAP
    /\ (exists k, candidates (foldl offer ingress refs)
          = candidates ingress ++ take k (block_ref <$> batch_blocks batch))
    /\ (forall r, current = Some r \/ Settled r ∈ foldl offer ingress refs ->
          justified (tr ++ [FItem (Some (Ok batch))]) r
          \/ current = Some r \/ Settled r ∈ ingress)) as Hcand.
  { intros refs ->.
    replace ((fun b => Candidate (block_ref b)) <$> batch_blocks batch)
      with (Candidate <$> (block_ref <$> batch_blocks batch)) by (by rewrite <- list_fmap_compose).
    destruct (offer_candidates ingress (block_ref <$> batch_blocks batch) Hi) as (k & Hl & Hc & Hs).
    split_and!; [done|by exists k|]. intros r [H|H]; [by right; left|right; right; by apply Hs]. }
  specialize (Hcand _ eq_refl) as (Hc1 & Hc2 & Hc3).
  destruct (batch_finalized_head batch) as [rep|] eqn:Hrep;
    [destruct (last (batch_blocks batch)) as [b|] eqn:Hlast|]; [|by split_and!..].
  destruct (offer_one ingress (Settled (block_ref b)) Hi) as [Hl Hof].
  pose proof (last_block_settled tr _ _ _ Hrep Hlast) as Hset.
  split_and!; [done| | |done].
  - exists 0. rewrite take_0, app_nil_r.
    destruct Hof as [->|[-> _]]; [|done]. by rewrite candidates_app, app_nil_r.
  - intros r [[H| ->]%raise_to_cases|H]; [by right; left|by left; left|].
    destruct Hof as [Hof|[Hof _]]; rewrite Hof in H; [|by right; right].
    apply elem_of_app in H as [H|[= ->]%list_elem_of_singleton]; [by right; right|by left; left].
Qed.

(** The invariant over a delivered batch. *)
Lemma finalize_inv_batch tr batch current ingress alive prober phase results out :
  finalize_inv tr (mkFinalizeState current alive true ingress prober phase results out) ->
  let '(current', ingress', emitted) := pass_batch batch current ingress in
  finalize_inv (tr ++ [FItem (Some (Ok batch))])
    (mkFinalizeState current' alive true ingress' prober phase results (out ++ [Ok emitted])).
Proof.
  intros [Hq Hi Hr Hp Hw Ha Ho]; cbn [fs_current prober_alive fs_open fs_ingress fs_prober
    fs_phase fs_results fs_out] in *.
  pose proof (pass_batch_spec tr batch current ingress Hi) as Hspec.
  destruct (pass_batch batch current ingress) as [[current' ingress'] emitted].
  destruct Hspec as (Hi' & (k & Hc) & Hj & ->).
  assert (forall r, current' = Some r \/ p_confirmed prober = Some r \/ r ∈ results
            \/ Settled r ∈ ingress' -> justified (tr ++ [FItem (Some (Ok batch))]) r) as Hjust.
  { intros r H.
    assert (justified (tr ++ [FItem (Some (Ok batch))]) r \/ (current = Some r
      \/ p_confirmed prober = Some r \/ r ∈ results \/ Settled r ∈ ingress)) as [?|H'];
      [|done|by apply justified_mono, Hw].
    destruct H as [H|[H|[H|H]]]; [destruct (Hj r (or_introl H))|..|destruct (Hj r (or_intror H))];
      tauto. }
  split; cbn [fs_current prober_alive fs_open fs_ingress fs_prober fs_phase fs_results fs_out];
    try done.
  - rewrite delivered_snoc, Hc, app_assoc. apply sublist_app; [done|apply sublist_take].
  - rewrite items_snoc. apply Forall2_app; [by apply passed_on_all_mono|].
    constructor; [|constructor]. split; [done|]. simpl.
    destruct (batch_finalized_head batch); [done|]. intros r Hr'. apply Hjust. by left.
Qed.

Lemma finalize_inv_closed tr e s out' :
  finalize_inv tr s ->
  (e = FItem None /\ out' = fs_out s
   \/ exists err, e = FItem (Some (Err err)) /\ out' = fs_out s ++ [Err err]) ->
  finalize_inv (tr ++ [e])
    (mkFinalizeState (fs_current s) (prober_alive s) false (fs_ingress s) (fs_prober s)
       (fs_phase s) (fs_results s) out').
Proof.
  intros [Hq Hi Hr Hp Hw Ha Ho] He.
  assert (delivered (tr ++ [e]) = delivered tr) as Ed.
  { rewrite delivered_snoc. destruct He as [[-> _]|(err & -> & _)]; by rewrite app_nil_r. }
  split; cbn [fs_current prober_alive fs_open fs_ingress fs_prober fs_phase fs_results fs_out];
    rewrite ?Ed; try done.
  - intros r H. by apply justified_mono, Hw.
  - rewrite items_snoc. destruct He as [[-> ->]|(err & -> & ->)].
    + rewrite app_nil_r. by apply passed_on_all_mono.
    + apply Forall2_app; [by apply passed_on_all_mono|]. by constructor.
Qed.

(** The deliveries ascend, and the client answers every call. *)
Definition honest_trace (tr : list FinalizeEvent) : Prop :=
  StronglySorted ref_lt (delivered tr)
  /\ forall woken settled_at fin client,
       FRound woken settled_at fin client ∈ tr -> answers_each client.

Lemma pending_sorted tr s :
  StronglySorted ref_lt (delivered tr) -> finalize_inv tr s ->
  StronglySorted ref_lt (p_queue (fs_prober s)).
Proof.
  intros Hs Hv. eapply StronglySorted_sublist; [|exact Hs].
  etransitivity; [|by apply fi_pending]. by apply sublist_inserts_r.
Qed.

Lemma finalize_inv_round tr s s' woken settled_at fin client :
  let e := FRound woken settled_at fin client in
  finalize_inv tr s -> StronglySorted ref_lt (delivered tr) -> answers_each client ->
  finalize_step s e = Some s' -> finalize_inv (tr ++ [e]) s'.
Proof.
  intros e Hv Hs Hc Hstep.
  pose proof (pending_sorted _ _ Hs Hv) as Hsort.
  pose proof (fi_pending _ _ Hv) as Hp.
  destruct s as [current alive opened ingress prober phase results out].
  cbn [fs_prober fs_ingress fs_results finalize_step e] in *.
  destruct phase; try done.
  destruct (probe_round_spec woken settled_at fin client prober Hsort Hc)
    as (p' & hit & E & Hsub & Hconf & Hhit). rewrite E in Hstep.
  assert (forall r, hit = Some r -> justified (tr ++ [e]) r) as Hj.
  { intros r Hr. destruct (Hhit r Hr) as (Hin & _ & Hu). right. split.
    - rewrite delivered_snoc, app_nil_r. eapply elem_of_sublist; [|exact Hp]. set_solver.
    - exists woken, settled_at, fin, client. split; [set_solver|done]. }
  assert (sublist (p_queue p') (p_queue prober)) as Hq
    by (etransitivity; [|exact Hsub]; by apply sublist_inserts_l).
  pose proof Hv as [Hlq Hli Hlr _ Hw Ha Ho].
  assert (forall res, length res <= PROBE_RESULTS_CAP ->
    (forall r, r ∈ res -> r ∈ results \/ hit = Some r) -> forall ph,
    (opened = true -> ph <> Exited) ->
    finalize_inv (tr ++ [e]) (mkFinalizeState current alive opened ingress p' ph res out)) as Hk.
  { intros res Hlres Hres ph Hph.
    apply (finalize_inv_quiet tr e (mkFinalizeState current alive opened ingress prober Probing
             results out)); try done; cbn [fs_prober fs_ingress fs_results fs_current fs_phase
             fs_open prober_alive] in *.
    - etransitivity; [by apply sublist_length|done].
    - by apply sublist_app.
    - intros r [H|[H|[H|H]]]; [tauto| |destruct (Hres r H); [tauto|left; by apply Hj]|tauto].
      rewrite Hconf in H. destruct hit as [r'|]; [|tauto]. left. apply Hj. by simplify_eq.
    - intros Ho'. split; [by apply Ha|by apply Hph]. }
  destruct hit as [r|]; [destruct opened; simpl in Hstep|]; simplify_eq.
  - destruct (Nat.ltb_spec (length results) PROBE_RESULTS_CAP); simplify_eq.
    apply Hk; [rewrite length_app; simpl; lia| |done].
    intros r' [?| ->%list_elem_of_singleton]%elem_of_app; [by left|by right].
  - apply Hk; [done| |done]. intros; by left.
  - apply Hk; [done| |done]. intros; by left.
Qed.

Lemma finalize_inv_step tr s e s' :
  finalize_inv tr s -> honest_trace (tr ++ [e]) ->
  finalize_step s e = Some s' -> finalize_inv (tr ++ [e]) s'.
Proof.
  intros Hv [Hs Hc] Hstep.
  rewrite delivered_snoc in Hs. apply StronglySorted_sublist with (l := delivered tr) in Hs;
    [|by apply sublist_inserts_r].
  destruct e as [[[batch|err]|]| | | |woken settled_at fin client|];
    [..|eapply finalize_inv_round; [done..|apply (Hc woken settled_at fin client); set_solver|done]|];
    destruct s as [current alive opened ingress prober phase results out];
    pose proof Hv as [Hq Hi Hr Hp Hw Ha Ho]; cbn [finalize_step] in Hstep;
    cbn [fs_current prober_alive fs_open fs_ingress fs_prober fs_phase fs_results fs_out] in *.
  - destruct opened; [|done]. simpl in Hstep.
    pose proof (finalize_inv_batch _ batch _ _ _ _ _ _ _ Hv) as H.
    destruct (pass_batch _ _ _) as [[? ?] ?]. by simplify_eq.
  - destruct opened; [|done]. simplify_eq/=.
    apply (finalize_inv_closed _ _ _ (out ++ [Err err]) Hv). right. eauto.
  - destruct opened; [|done]. simplify_eq/=.
    apply (finalize_inv_closed _ _ _ out Hv). by left.
  - destruct opened; [|done]. destruct alive; [|done]. simpl in Hstep.
    destruct (Ha eq_refl) as [_ Hne].
    destruct results as [|r results]; [by destruct phase|]. simplify_eq.
    eapply finalize_inv_quiet; [exact Hv|done|done|done| |done| |done|done]; simpl in *; [lia|].
    intros x [[H| ->]%raise_to_cases|[H|[H|H]]]; right; [tauto|right; right; left; left|tauto| |tauto].
    right; right; left; by right.
  - destruct phase, ingress as [|msg ingress]; try done.
    destruct (absorb_spec (p_queue prober) (p_confirmed prober) msg Hq)
      as (q' & c' & Ea & Hlq & Hsub & Hc'). rewrite Ea in Hstep. simplify_eq.
    eapply finalize_inv_quiet; [exact Hv|done|done| |done| | |done|done];
      cbn [fs_current prober_alive fs_open fs_ingress fs_prober fs_phase fs_results fs_out
           p_queue p_confirmed length] in *; [lia| |].
    + change (msg :: ingress) with ([msg] ++ ingress).
      rewrite candidates_app, app_assoc. by apply sublist_app.
    + intros r [H|[H|[H|H]]]; right; [tauto| |tauto|].
      * destruct (Hc' r H) as [?|Em]; [tauto|]. right; right; right. rewrite <- Em. left.
      * right; right; right. by right.
  - destruct phase, ingress, opened, (p_queue prober) eqn:Eq; try done. simplify_eq.
    eapply finalize_inv_quiet; [exact Hv|done|exact (fi_queue _ _ Hv)|exact (fi_ingress _ _ Hv)
      |done|done| | |done].
    + intros r H. by right.
    + intros _. split; [by apply Ha|done].
  - destruct phase, ingress, opened; try done. simplify_eq.
    eapply finalize_inv_quiet; [exact Hv|done|done|done|done|done| |done|done]; simpl in *.
    intros r H. by right.
Qed.

Lemma finalize_run_snoc s tr e :
  finalize_run s (tr ++ [e]) = let! s1 := finalize_run s tr in finalize_step s1 e.
Proof.
  revert s. induction tr as [|a tr IH]; intros s; simpl; [by destruct (finalize_step _ _)|].
  by destruct (finalize_step _ _).
Qed.

Lemma honest_prefix tr e : honest_trace (tr ++ [e]) -> honest_trace tr.
Proof.
  intros [Hs Hc]. split.
  - rewrite delivered_snoc in Hs. eapply StronglySorted_sublist; [|exact Hs].
    by apply sublist_inserts_r.
  - intros w t f c Hin. apply (Hc w t f c). set_solver.
Qed.

Lemma finalize_inv_run start tr s :
  honest_trace tr -> finalize_run (finalize_init start) tr = Some s -> finalize_inv tr s.
Proof.
  revert s. induction tr as [|e tr IH] using rev_ind; intros s Hh Hrun.
  - simpl in Hrun. simplify_eq. apply finalize_inv_init.
  - rewrite finalize_run_snoc in Hrun. destruct (finalize_run _ tr) as [s1|] eqn:E; [|done].
    eapply finalize_inv_step; [|done..]. apply IH; [by eapply honest_prefix|done].
Qed.

(** The watermark only rises. *)
Definition ref_le (a b : option BlockRef) : Prop :=
  match a, b with
  | Some a, Some b => (br_number a <= br_number b)%N
  | Some _, None => False
  | None, _ => True
  end.

Lemma raise_to_rises current r : ref_le current (raise_to current r).
Proof.
  unfold raise_to. destruct current as [c|]; simpl; [|done].
  destruct (N.leb_spec (br_number r) (br_number c)); simpl; lia.
Qed.

Lemma ref_le_refl a : ref_le a a.
Proof. by destruct a; simpl. Qed.

Lemma watermark_rises s e s' : finalize_step s e = Some s' -> ref_le (fs_current s) (fs_current s').
Proof.
  intros H. destruct s as [current alive opened ingress prober phase results out].
  destruct e as [item| | | |w t f c|]; cbn [finalize_step] in H; unfold pass_batch in H;
    repeat case_match; simplify_eq/=; auto using ref_le_refl, raise_to_rises.
Qed.

(** Every item is passed on, as [passed_on] says. *)
Lemma finality_passes start tr s :
  honest_trace tr -> finalize_run (finalize_init start) tr = Some s ->
  Forall2 (passed_on tr) (items tr) (fs_out s).
Proof. intros Hh Hr. by eapply fi_out, finalize_inv_run. Qed.

(** C27: Whatever the interleaving of the stream loop and the prober, on a stream
    whose heights ascend: nothing panics, the queue and both channels keep
    their bounds, and the prober outlives the open stream. Every batch is
    passed on once, in order, with its blocks; a finality report it carries is
    passed on unchanged, and one attached to it names either the head of a
    batch the adapter reported final as a whole, or a delivered block that the
    upstream confirmed at or below its finalized head; and the attached
    watermark never falls. *)
Theorem finality_attached_is_justified start tr s
    (Hhonest : honest_trace tr)
    (Hrun : finalize_run (finalize_init start) tr = Some s) :
  Forall2 (passed_on tr) (items tr) (fs_out s)
  /\ length (p_queue (fs_prober s)) <= PROBE_QUEUE_CAP
  /\ length (fs_ingress s) <= PROBE_QUEUE_CAP /\ length (fs_results s) <= PROBE_RESULTS_CAP
  /\ (fs_open s = true -> prober_alive s = true /\ fs_phase s <> Exited)
  /\ (forall r, fs_current s = Some r -> justified tr r)
  /\ (forall msg ingress, fs_ingress s = msg :: ingress -> fs_phase s = Gathering ->
        is_Some (finalize_step s FAbsorb))
  /\ (forall woken settled_at fin client, answers_each client ->
        is_Some (probe_round woken settled_at fin client (fs_prober s)))
  /\ (forall e s', finalize_step s e = Some s' -> ref_le (fs_current s) (fs_current s')).
Proof.
  pose proof (finalize_inv_run _ _ _ Hhonest Hrun) as Hv.
  pose proof Hv as [Hq Hi Hr Hp Hw Ha Ho].
  split_and!; try done.
  - intros r H. apply Hw. by left.
  - intros msg ingress Hing Hph.
    destruct (absorb_spec (p_queue (fs_prober s)) (p_confirmed (fs_prober s)) msg Hq)
      as (q' & c' & E & _).
    destruct s as [current alive opened ing prober phase results out]. simpl in *. subst.
    rewrite E. done.
  - intros woken settled_at fin client Hc.
    destruct (probe_round_spec woken settled_at fin client (fs_prober s)
      (pending_sorted _ _ (proj1 Hhonest) Hv) Hc) as (? & ? & -> & _). done.
  - intros e s' H. by eapply watermark_rises.
Qed.

(** ** What remains queued after a round *)

Definition uncovered (p : ProberState) : Prop :=
  forall r, r ∈ p_queue p -> covered (p_confirmed p) (br_number r) = false.

(** The fold by index, when the watermark covers no probe: [k] is one past the
    highest probe the answers confirm, zero if none. *)
Lemma settle_index confirmed probes infos above :
  (forall r, r ∈ probes -> covered confirmed (br_number r) = false) ->
  length infos <= length probes ->
  let s := settle confirmed probes infos above in
  exists k,
    (s.1.1 = false <-> k = 0)
    /\ match s.1.2 with
       | None => k = 0
       | Some r => exists i n, k = S i /\ probes !! i = Some r
                     /\ infos !! i = Some (Some (n, br_hash r))
       end
    /\ (forall j q n, k <= j -> probes !! j = Some q ->
          infos !! j <> Some (Some (n, br_hash q)))
    /\ (forall x, x ∈ s.2 <-> x ∈ above
          \/ exists j, k <= j /\ probes !! j = Some x /\ infos !! j = Some None).
Proof.
  simpl. unfold settle. revert infos. induction probes as [|p probes IH]; intros infos Hun Hlen.
  { destruct infos; [|simpl in Hlen; lia]. exists 0. simpl. split_and!; [done|done|done|].
    intros x. split; [by left|]. intros [H|(j & _ & Hj & _)]; [done|]. by rewrite lookup_nil in Hj. }
  destruct infos as [|info infos].
  { exists 0. simpl. split_and!; [done|done| |].
    - intros j q n _ _. by rewrite lookup_nil.
    - intros x. split; [by left|]. intros [H|(j & _ & _ & Hj)]; [done|]. by rewrite lookup_nil in Hj. }
  simpl in Hlen. destruct (IH infos) as (k & Hstop & Hhit & Hnone & Hopen);
    [intros r Hr; apply Hun; by right|lia|]. clear IH. cbn [zip_with foldr].
  destruct (foldr _ _ _) as [[stopped hit] open]. simpl in Hstop, Hhit, Hopen.
  cbn [settle_one]. destruct stopped; cbn [fst snd].
  { assert (0 < k) as Hk by (destruct k; [by pose proof (proj2 Hstop eq_refl)|lia]).
    exists (S k). split; [by split|]. split; [destruct hit as [r|]; [|lia]|split].
    - destruct Hhit as (i & n & -> & ? & ?). by exists (S i), n.
    - intros [|j] q n Hj; [lia|]. apply Hnone. lia.
    - intros x. rewrite Hopen. split; (intros [H|(j & Hj & Hp & Hi)]; [by left|right]).
      + exists (S j). split_and!; [lia|done..].
      + destruct j as [|j]; [lia|]. exists j. split_and!; [lia|done..]. }
  assert (k = 0) as -> by (by apply Hstop). destruct hit as [r|]; [by destruct Hhit as (? & ? & ? & _)|].
  unfold verdict. rewrite (Hun p) by left.
  assert (forall b, info = Some b -> forall open', open' = open -> forall x, x ∈ open' <-> x ∈ above
    \/ exists j, 0 <= j /\ (p :: probes) !! j = Some x /\ (info :: infos) !! j = Some None) as Hsame.
  { intros b -> open' -> x. rewrite Hopen. split; (intros [H|(j & _ & Hp & Hi)]; [by left|right]).
    - exists (S j). split_and!; [lia|done..].
    - destruct j as [|j]; [done|]. exists j. split_and!; [lia|done..]. }
  destruct info as [[n h]|]; [case_bool_decide as Hh|]; cbn [fst snd].
  - exists 1. split; [done|]. split; [exists 0, n; by subst h|]. split.
    + intros [|j] q m Hj; [lia|]. apply Hnone. lia.
    + intros x. rewrite (Hsame (n, h) eq_refl open eq_refl).
      split; (intros [H|(j & Hj & Hp & Hi)]; [by left|right]); [|by exists j; split_and!; [lia|..]].
      destruct j as [|j]; [done|]. exists (S j). split_and!; [lia|done..].
  - exists 0. split; [done|]. split; [done|]. split.
    + intros [|j] q m _; simpl; [|by apply Hnone; lia]. intros [= <-] [= _ E]. done.
    + by apply (Hsame (n, h)).
  - exists 0. split; [done|]. split; [done|]. split.
    + intros [|j] q m _; simpl; [done|]. apply Hnone. lia.
    + intros x. rewrite elem_of_cons, Hopen. split.
      * intros [->|[H|(j & _ & Hp & Hi)]]; [right; by exists 0|by left|right].
        exists (S j). split_and!; [lia|done..].
      * intros [H|(j & _ & Hp & Hi)]; [by right; left|].
        destruct j as [|j]; simplify_eq/=; [by left|]. right; right. exists j. split_and!; [lia|done..].
Qed.

(** The queue's order and its watermark hold across a round and an absorb. *)
Definition queue_ok (p : ProberState) : Prop :=
  StronglySorted ref_lt (p_queue p) /\ uncovered p.

Lemma sorted_index_lt l i j a b :
  StronglySorted ref_lt l -> i < j -> l !! i = Some a -> l !! j = Some b -> ref_lt a b.
Proof.
  intros Hs. revert i j. induction Hs as [|x l _ IH Hx]; intros i j Hij Ha Hb; [done|].
  destruct j as [|j]; [lia|]. destruct i as [|i]; simplify_eq/=.
  - eapply Forall_lookup_1; [exact Hx|exact Hb].
  - eapply (IH i j); [lia|done..].
Qed.

Lemma covered_le c n m : covered c n = true -> (m <= n)%N -> covered c m = true.
Proof. destruct c as [c|]; simpl; [|done]. rewrite !N.leb_le. lia. Qed.

(** The infos of a round, and the probes they answer. *)
Definition round_infos (fin : Result (N * string) string) (client : BatchCall) (p : ProberState) :=
  get_finalized_block_batch fin client (br_number <$> take PROBE_BATCH (p_queue p)).

Definition answered (infos : list (option (N * string))) (p : ProberState)
    (r : BlockRef) (info : option (N * string)) : Prop :=
  exists i, take PROBE_BATCH (p_queue p) !! i = Some r /\ infos !! i = Some info.

Lemma sorted_index_inj l i j a :
  StronglySorted ref_lt l -> l !! i = Some a -> l !! j = Some a -> i = j.
Proof.
  intros Hs Hi Hj. destruct (Nat.lt_trichotomy i j) as [H|[H|H]]; [exfalso|done|exfalso].
  - pose proof (sorted_index_lt l i j a a Hs H Hi Hj). unfold ref_lt in *. lia.
  - pose proof (sorted_index_lt l j i a a Hs H Hj Hi). unfold ref_lt in *. lia.
Qed.

Lemma round_infos_length fin client p infos :
  StronglySorted ref_lt (p_queue p) -> answers_each client ->
  round_infos fin client p = Ok infos -> length infos <= length (take PROBE_BATCH (p_queue p)).
Proof.
  intros Hs Hc Hi. eapply get_finalized_block_batch_spec; [|exact Hc|exact Hi].
  eapply StronglySorted_sublist; [apply sublist_take|done].
Qed.

Definition default_to (hit confirmed : option BlockRef) : option BlockRef :=
  match hit with Some r => Some r | None => confirmed end.

(** A round by index into the queue: below [k] everything is gone, from [k] on
    exactly what the upstream has not answered is kept. *)
Lemma round_by_index woken settled_at fin client p infos :
  queue_ok p -> answers_each client -> round_infos fin client p = Ok infos ->
  exists p' hit k, probe_round woken settled_at fin client p = Some (p', hit)
    /\ p_confirmed p' = default_to hit (p_confirmed p)
    /\ match hit with
       | None => k = 0
       | Some r => exists i n, k = S i /\ p_queue p !! i = Some r
                     /\ infos !! i = Some (Some (n, br_hash r))
       end
    /\ (forall j q n, k <= j -> p_queue p !! j = Some q ->
          infos !! j <> Some (Some (n, br_hash q)))
    /\ (exists open, p_queue p' = open ++ drop PROBE_BATCH (p_queue p)
         /\ p_last_round p' = match open with [] => (settled_at - PROBE_INTERVAL)%N | _ => woken end
         /\ forall r, r ∈ open <-> exists j, j < PROBE_BATCH /\ k <= j /\ p_queue p !! j = Some r
              /\ (j < length infos -> infos !! j = Some None)).
Proof.
  intros [Hs Hun] Hc Hi. pose proof (round_infos_length _ _ _ _ Hs Hc Hi) as Hlen.
  unfold round_infos in Hi. unfold probe_round. rewrite Hi.
  destruct (walk_round (p_confirmed p) _ infos Hlen) as (k' & probes' & -> & Hk' & Hd).
  destruct (settle_index (p_confirmed p) (take PROBE_BATCH (p_queue p)) infos
    (drop (length infos) (take PROBE_BATCH (p_queue p)))) as (k & _ & Hhit & Hnone & Hopen);
    [|done|].
  { intros r Hr. apply Hun. eapply elem_of_sublist; [exact Hr|apply sublist_take]. }
  replace (length probes' <? k') with false by (symmetry; apply Nat.ltb_ge; lia).
  rewrite Hd. destruct (settle _ _ _ _) as [[stopped hit] open]. cbn [fst snd] in *.
  assert (length infos <= PROBE_BATCH) as Hl5 by (rewrite length_take in Hlen; lia).
  eexists _, hit, k. split; [done|]. cbn [p_confirmed p_queue p_last_round].
  split; [done|]. split; [|split].
  - destruct hit as [r|]; [|done]. destruct Hhit as (i & n & -> & Hp & Hin).
    apply lookup_take_Some in Hp as [Hp _]. by exists i, n.
  - intros j q n Hj Hq Hin. eapply (Hnone j q n); [done| |done].
    apply lookup_take_Some. split; [done|]. apply lookup_lt_Some in Hin. lia.
  - exists open. split; [done|]. split; [done|]. intros r. rewrite Hopen. split.
    + intros [H|(j & Hj & Hp & Hin)].
      * apply list_elem_of_lookup in H as [j H]. rewrite lookup_drop in H.
        apply lookup_take_Some in H as [H Hlt]. exists (length infos + j).
        split_and!; [done| |done|lia].
        destruct hit as [h|]; [|lia]. destruct Hhit as (i & n & -> & _ & Hin).
        apply lookup_lt_Some in Hin. lia.
      * apply lookup_take_Some in Hp as [Hp Hlt]. by exists j.
    + intros (j & Hj5 & Hj & Hp & Hin).
      assert (take PROBE_BATCH (p_queue p) !! j = Some r) as Hp' by (by apply lookup_take_Some).
      destruct (decide (j < length infos)) as [Hlt|Hge]; [right; by exists j; auto|left].
      apply list_elem_of_lookup. exists (j - length infos). rewrite lookup_drop.
      by replace (length infos + (j - length infos)) with j by lia.
Qed.

Lemma answered_index fin client infos p r info :
  StronglySorted ref_lt (p_queue p) -> answers_each client ->
  round_infos fin client p = Ok infos ->
  answered infos p r info <-> exists i, p_queue p !! i = Some r /\ infos !! i = Some info.
Proof.
  intros Hs Hc Hi. pose proof (round_infos_length _ _ _ _ Hs Hc Hi) as Hlen.
  split; intros (i & Hr & Hin); exists i; (split; [|done]).
  - by apply lookup_take_Some in Hr as [Hr _].
  - apply lookup_take_Some. split; [done|]. rewrite length_take in Hlen.
    apply lookup_lt_Some in Hin. lia.
Qed.

(** The queue a round leaves, given where it stopped. *)
Lemma kept_by_index (p p' : ProberState) (hit : option BlockRef) (k : nat)
    (infos : list (option (N * string))) (open : list BlockRef) :
  StronglySorted ref_lt (p_queue p) -> length infos <= PROBE_BATCH ->
  p_queue p' = open ++ drop PROBE_BATCH (p_queue p) ->
  match hit with
  | None => k = 0
  | Some r => exists i n, k = S i /\ p_queue p !! i = Some r
                /\ infos !! i = Some (Some (n, br_hash r))
  end ->
  (forall r, r ∈ open <-> exists j, j < PROBE_BATCH /\ k <= j /\ p_queue p !! j = Some r
     /\ (j < length infos -> infos !! j = Some None)) ->
  forall r, r ∈ p_queue p' <-> exists j, k <= j /\ p_queue p !! j = Some r
    /\ (j < length infos -> infos !! j = Some None).
Proof.
  intros Hs Hlen Hq Hhit Hopen r.
  assert (k <= length infos) as Hk.
  { destruct hit as [h|]; [|lia]. destruct Hhit as (i & n & -> & _ & Hi).
    apply lookup_lt_Some in Hi. lia. }
  rewrite Hq, elem_of_app, Hopen. split.
  - intros [(j & ? & ? & ? & ?)|H]; [by exists j|].
    apply list_elem_of_lookup in H as [j H]. rewrite lookup_drop in H.
    exists (PROBE_BATCH + j). split_and!; [lia|done|lia].
  - intros (j & Hj & Hp & Hi). destruct (decide (j < PROBE_BATCH)); [left; by exists j|right].
    apply list_elem_of_lookup. exists (j - PROBE_BATCH). rewrite lookup_drop.
    by replace (PROBE_BATCH + (j - PROBE_BATCH)) with j by lia.
Qed.

Lemma covered_by_hit (p : ProberState) (hit : option BlockRef) (k : nat)
    (infos : list (option (N * string))) (j : nat) (r : BlockRef) :
  queue_ok p ->
  match hit with
  | None => k = 0
  | Some r => exists i n, k = S i /\ p_queue p !! i = Some r
                /\ infos !! i = Some (Some (n, br_hash r))
  end ->
  p_queue p !! j = Some r ->
  covered (default_to hit (p_confirmed p)) (br_number r) = true <-> j < k.
Proof.
  intros [Hs Hun] Hhit Hj. destruct hit as [h|]; simpl.
  - destruct Hhit as (i & n & -> & Hi & _). rewrite N.leb_le. split.
    + intros Hle. destruct (decide (j < S i)) as [|Hge]; [done|].
      pose proof (sorted_index_lt _ i j h r Hs ltac:(lia) Hi Hj). unfold ref_lt in *. lia.
    + intros Hlt. destruct (decide (j = i)) as [->|]; [by simplify_eq|].
      pose proof (sorted_index_lt _ j i r h Hs ltac:(lia) Hj Hi). unfold ref_lt in *. lia.
  - subst k. split; [|lia]. intros Hc. apply list_elem_of_lookup_2, Hun in Hj. congruence.
Qed.

(** A round settles the highest reference the upstream confirms and loses
    nothing else that could still be confirmed: its hit is a probe whose
    answer carries its hash, no probe above it is one, and afterwards a
    reference is still queued exactly when the new watermark does not cover it
    and the upstream did not answer with another block at its height. The
    queue stays ordered and above the watermark, so a round that settles
    every probe is followed by the next without a pause, and any other round
    by a pause that completes the interval. *)
Theorem round_settles_highest woken settled_at fin client p infos
    (Hok : queue_ok p) (Hclient : answers_each client)
    (Hinfos : round_infos fin client p = Ok infos) :
  exists p' hit, probe_round woken settled_at fin client p = Some (p', hit)
    /\ p_confirmed p' = default_to hit (p_confirmed p)
    /\ match hit with
       | Some r => (exists n, answered infos p r (Some (n, br_hash r)))
            /\ forall q n, answered infos p q (Some (n, br_hash q)) -> (br_number q <= br_number r)%N
       | None => forall q n, ~ answered infos p q (Some (n, br_hash q))
       end
    /\ (forall r, r ∈ p_queue p' <-> r ∈ p_queue p
          /\ covered (p_confirmed p') (br_number r) = false
          /\ forall n h, answered infos p r (Some (n, h)) -> h = br_hash r)
    /\ queue_ok p'
    /\ ((forall r, r ∈ take PROBE_BATCH (p_queue p) -> r ∉ p_queue p') ->
        (PROBE_INTERVAL <= settled_at)%N ->
        forall now, (settled_at <= now)%N -> probe_wait now p' = 0%N)
    /\ ((exists r, r ∈ take PROBE_BATCH (p_queue p) /\ r ∈ p_queue p') ->
        forall now, (woken <= now)%N -> (woken + PROBE_INTERVAL <= now + probe_wait now p')%N).
Proof.
  pose proof Hok as [Hs Hun].
  destruct (round_by_index woken settled_at fin client p infos Hok Hclient Hinfos)
    as (p' & hit & k & E & Hconf & Hhit & Hnone & open & Hq & Hlast & Hopen).
  pose proof (fun r info => answered_index fin client infos p r info Hs Hclient Hinfos) as Ha.
  pose proof (round_infos_length _ _ _ _ Hs Hclient Hinfos) as Hlen. rewrite length_take in Hlen.
  pose proof (kept_by_index p p' hit k infos open Hs ltac:(lia) Hq Hhit Hopen) as Hkept.
  pose proof (fun j r => covered_by_hit p hit k infos j r Hok Hhit) as Hcov.
  assert (forall r, r ∈ p_queue p' <-> r ∈ p_queue p
    /\ covered (p_confirmed p') (br_number r) = false
    /\ forall n h, answered infos p r (Some (n, h)) -> h = br_hash r) as Hiff.
  { intros r. rewrite Hkept, Hconf. split.
    - intros (j & Hj & Hr & Hi). split_and!; [by eapply list_elem_of_lookup_2| |].
      + apply not_true_iff_false. rewrite (Hcov j r Hr). lia.
      + intros n h (i & Hri & Hin)%Ha. rewrite (sorted_index_inj _ i j r Hs Hri Hr) in Hin.
        rewrite Hi in Hin by (by eapply lookup_lt_Some). done.
    - intros ([j Hr]%list_elem_of_lookup & Hc & Hh). exists j.
      apply not_true_iff_false in Hc. rewrite (Hcov j r Hr) in Hc.
      split_and!; [lia|done|]. intros Hlt. destruct (infos !! j) as [[[n h]|]|] eqn:Hi; [|done|].
      + exfalso. apply (Hnone j r n); [lia|done|]. rewrite Hi.
        by rewrite (Hh n h) by (apply Ha; by exists j).
      + apply lookup_ge_None in Hi. lia. }
  exists p', hit. split; [done|]. split; [done|]. split; [|split; [done|split; [|split]]].
  - destruct hit as [h|]; [destruct Hhit as (i & n & -> & Hi & Hin); split|].
    + exists n. apply Ha. by exists i.
    + intros q m (j & Hj & Hjn)%Ha. apply N.leb_le.
      change (covered (Some h) (br_number q) = true). apply (Hcov j q Hj).
      destruct (decide (j < S i)); [done|]. exfalso. eapply (Hnone j q m); [lia|done..].
    + intros q m (j & Hj & Hjn)%Ha. eapply (Hnone j q m); [lia|done..].
  - split; [|by intros r (_ & Hr & _)%Hiff].
    eapply StronglySorted_sublist; [|exact Hs].
    destruct (probe_round_spec woken settled_at fin client p Hs Hclient) as (? & ? & E' & Hsub & _).
    rewrite E in E'. simplify_eq. etransitivity; [|exact Hsub]. by apply sublist_inserts_l.
  - intros Hgone Ht now Hnow. unfold probe_wait. rewrite Hlast.
    destruct open as [|r open]; [lia|]. exfalso. apply (Hgone r).
    + apply list_elem_of_lookup. destruct (proj1 (Hopen r) ltac:(left)) as (j & ? & ? & ? & ?).
      exists j. by apply lookup_take_Some.
    + rewrite Hq. by left.
  - intros (r & Hr & Hr') now Hnow. unfold probe_wait. rewrite Hlast.
    destruct open as [|x open]; [|lia]. exfalso.
    apply list_elem_of_lookup in Hr as [i Hi]. apply lookup_take_Some in Hi as [Hi Hlt].
    rewrite Hq in Hr'. apply list_elem_of_lookup in Hr' as [j Hj]. simpl in Hj.
    rewrite lookup_drop in Hj. pose proof (sorted_index_inj _ _ _ _ Hs Hi Hj). lia.
Qed.

Lemma pop_settled_above n queue r :
  StronglySorted ref_lt queue -> r ∈ pop_settled n queue -> (n < br_number r)%N.
Proof.
  induction 1 as [|x l Hl IH Hx]; simpl; [set_solver|].
  destruct (N.leb_spec (br_number x) n) as [|Hgt]; [done|].
  intros [->|Hr]%elem_of_cons; [done|]. rewrite Forall_forall in Hx.
  specialize (Hx r Hr). unfold ref_lt in Hx. lia.
Qed.

Lemma absorb_uncovered p msg queue' confirmed' :
  queue_ok p -> absorb (p_queue p) (p_confirmed p) msg = Some (queue', confirmed') ->
  uncovered (mkProberState queue' confirmed' (p_last_round p)).
Proof.
  intros [Hs Hun] H r Hr. cbn [p_queue p_confirmed] in *.
  destruct msg as [c|s]; cbn [absorb] in H.
  - destruct (covered _ (br_number c)) eqn:Hc; [simplify_eq; by apply Hun|].
    destruct (PROBE_QUEUE_CAP <=? length (p_queue p)).
    + destruct (last (p_queue p)) as [x|] eqn:Hl; [|done]. simplify_eq.
      apply elem_of_app in Hr as [Hr| ->%list_elem_of_singleton]; [|done].
      apply Hun. apply last_Some in Hl as [l Hl]. rewrite Hl in Hr |- *.
      rewrite removelast_last in Hr. set_solver.
    + simplify_eq. apply elem_of_app in Hr as [Hr| ->%list_elem_of_singleton]; [by apply Hun|done].
  - simplify_eq. pose proof (pop_settled_above _ _ _ Hs Hr) as Hgt.
    pose proof (Hun r (elem_of_sublist _ _ _ Hr (pop_settled_sublist _ _))) as Hc.
    unfold raise_to. destruct (covered _ (br_number s)); [done|]. simpl. apply N.leb_gt. lia.
Qed.

(** The two hypotheses of a round hold whenever the prober can be. *)
Lemma queue_ok_run start tr s :
  honest_trace tr -> finalize_run (finalize_init start) tr = Some s -> queue_ok (fs_prober s).
Proof.
  revert s. induction tr as [|e tr IH] using rev_ind; intros s Hh Hrun.
  { simpl in Hrun. simplify_eq. split; [constructor|]. intros r Hr. set_solver. }
  split; [eapply pending_sorted; [apply Hh|by eapply finalize_inv_run]|].
  rewrite finalize_run_snoc in Hrun. destruct (finalize_run _ tr) as [s1|] eqn:E; [|done].
  specialize (IH s1 (honest_prefix _ _ Hh) eq_refl). pose proof IH as [Hs Hun].
  destruct s1 as [current alive opened ingress prober phase results out].
  destruct e as [item| | | |woken settled_at fin client|]; cbn [finalize_step] in Hrun;
    cbn [fs_prober] in *.
  - unfold pass_batch in Hrun. repeat case_match; simplify_eq/=; done.
  - repeat case_match; simplify_eq/=; done.
  - destruct phase, ingress as [|msg ingress]; try done.
    destruct (absorb _ _ msg) as [[q c]|] eqn:Ea; [|done]. simplify_eq/=.
    by eapply absorb_uncovered.
  - repeat case_match; simplify_eq/=; done.
  - destruct phase; try done.
    destruct (probe_round _ _ _ _ _) as [[p' hit]|] eqn:Er; [|done].
    assert (uncovered p') as Hp; [|repeat case_match; by simplify_eq/=].
    destruct (round_infos fin client prober) as [infos|] eqn:Hi.
    + assert (answers_each client) as Hc.
      { destruct Hh as [_ Hc]. apply (Hc woken settled_at fin client). set_solver. }
      destruct (round_settles_highest woken settled_at fin client prober infos IH Hc Hi)
        as (p1 & h1 & E1 & _ & _ & _ & [_ Hp] & _). rewrite Er in E1. by simplify_eq.
    + unfold probe_round in Er. unfold round_infos in Hi. rewrite Hi in Er. simplify_eq.
      intros r Hr. simpl in Hr. rewrite take_drop in Hr. by apply Hun.
  - repeat case_match; simplify_eq/=; done.
Qed.

(** ** The backlog drains *)

(** An upstream whose chain is [canon] and whose answers arrive. *)
Definition canonical_client (canon : string -> string) : BatchCall :=
  fun calls => Ok ((fun c => Ok (HeaderFields (Some (hc_tag c)) (Some (canon (hc_tag c)))))
                     <$> calls).

Fixpoint probe_rounds (fin : Result (N * string) string) (client : BatchCall)
    (clocks : list (N * N)) (p : ProberState) : option ProberState :=
  match clocks with
  | [] => Some p
  | (woken, settled_at) :: clocks =>
      let! (p, _) := probe_round woken settled_at fin client p in
      probe_rounds fin client clocks p
  end.

Lemma canonical_answers canon : answers_each (canonical_client canon).
Proof. intros calls results [= <-]. by rewrite length_fmap. Qed.

Lemma filter_all_le n l :
  (forall x, x ∈ l -> (x <= n)%N) -> List.filter (fun x => x <=? n)%N l = l.
Proof.
  induction l as [|x l IH]; intros H; simpl; [done|].
  rewrite (proj2 (N.leb_le x n)) by (apply H; left). f_equal. apply IH. intros; apply H. by right.
Qed.

Lemma canonical_infos canon fn fh p :
  (forall r, r ∈ p_queue p -> (br_number r <= fn)%N /\ canon (to_qty (br_number r)) = br_hash r) ->
  round_infos (Ok (fn, fh)) (canonical_client canon) p
  = Ok ((fun r => Some (qty2_u64 (to_qty (br_number r)), br_hash r)) <$> take PROBE_BATCH (p_queue p)).
Proof.
  intros H. unfold round_infos, get_finalized_block_batch.
  rewrite filter_all_le.
  2:{ intros x (r & -> & Hr)%list_elem_of_fmap. apply H. eapply elem_of_sublist; [exact Hr|].
      apply sublist_take. }
  assert (forall l, l ⊆ p_queue p -> probe_info <$> ((fun c => Ok (HeaderFields (Some (hc_tag c))
    (Some (canon (hc_tag c))))) <$> (probe_call <$> (br_number <$> l)))
    = (fun r => Some (qty2_u64 (to_qty (br_number r)), br_hash r)) <$> l) as Hl.
  { intros l Hsub. rewrite <- !list_fmap_compose. apply list_fmap_ext. intros i r Hi. simpl.
    by rewrite (proj2 (H r (Hsub _ (list_elem_of_lookup_2 _ _ _ Hi)))). }
  rewrite <- Hl by (apply sublist_subseteq, sublist_take).
  by destruct (br_number <$> take PROBE_BATCH (p_queue p)).
Qed.

Definition canonical_queue (canon : string -> string) (fn : N) (p : ProberState) : Prop :=
  forall r, r ∈ p_queue p -> (br_number r <= fn)%N /\ canon (to_qty (br_number r)) = br_hash r.

(** One round settles the five oldest. *)
Lemma canonical_round canon fn fh woken settled_at p :
  queue_ok p -> canonical_queue canon fn p ->
  exists p' hit, probe_round woken settled_at (Ok (fn, fh)) (canonical_client canon) p = Some (p', hit)
    /\ queue_ok p' /\ p_queue p' = drop PROBE_BATCH (p_queue p)
    /\ p_last_round p' = (settled_at - PROBE_INTERVAL)%N
    /\ p_confirmed p' = default_to hit (p_confirmed p)
    /\ (forall r, hit = Some r -> r ∈ p_queue p)
    /\ (forall r, r ∈ take PROBE_BATCH (p_queue p) -> covered (p_confirmed p') (br_number r) = true).
Proof.
  intros Hok Hcanon. pose proof (canonical_infos canon fn fh p Hcanon) as Hi.
  destruct (round_by_index woken settled_at _ _ p _ Hok (canonical_answers canon) Hi)
    as (p' & hit & k & E & Hconf & Hhit & Hnone & open & Hq & Hlast & Hopen).
  destruct (round_settles_highest woken settled_at _ _ p _ Hok (canonical_answers canon) Hi)
    as (p1 & h1 & E1 & _ & _ & _ & Hok' & _). rewrite E in E1. simplify_eq.
  assert (open = []) as ->.
  { destruct open as [|x open]; [done|]. exfalso.
    destruct (proj1 (Hopen x) ltac:(left)) as (j & Hj & _ & Hx & Hin).
    assert (take PROBE_BATCH (p_queue p) !! j = Some x) as Ht by (by apply lookup_take_Some).
    rewrite length_fmap, list_lookup_fmap, Ht in Hin.
    specialize (Hin (lookup_lt_Some _ _ _ Ht)). done. }
  eexists p1, h1. split_and!; [done..| |].
  - intros r ->. destruct Hhit as (i & n & _ & Hi' & _). by eapply list_elem_of_lookup_2.
  - intros r [j Hr]%list_elem_of_lookup. rewrite Hconf.
    pose proof Hr as [Hr' _]%lookup_take_Some.
    apply (covered_by_hit p h1 k _ j r Hok Hhit Hr').
    destruct (decide (j < k)); [done|]. exfalso. eapply (Hnone j r); [lia|done|].
    rewrite list_lookup_fmap, Hr. done.
Qed.

Lemma default_to_covers hit confirmed n :
  (forall h, hit = Some h -> covered confirmed (br_number h) = false) ->
  covered confirmed n = true -> covered (default_to hit confirmed) n = true.
Proof.
  destruct hit as [h|]; simpl; [|done]. intros Hh Hn. specialize (Hh h eq_refl).
  destruct confirmed as [c|]; simpl in *; [|done].
  apply N.leb_gt in Hh. apply N.leb_le in Hn. apply N.leb_le. lia.
Qed.

(** The backlog drains at the upstream's pace: when every queued block is
    canonical and at or below the upstream's finalized head, one round per five
    references empties the queue, leaves a watermark that is one of them and
    covers them all, and no round is followed by a pause. *)
Theorem prober_drains canon fn fh clocks p
    (Hok : queue_ok p) (Hcanon : canonical_queue canon fn p)
    (Hrounds : length (p_queue p) <= PROBE_BATCH * length clocks)
    (Hclocks : Forall (fun c => PROBE_INTERVAL <= c.2)%N clocks) :
  exists p', probe_rounds (Ok (fn, fh)) (canonical_client canon) clocks p = Some p'
    /\ p_queue p' = []
    /\ (forall r, r ∈ p_queue p -> covered (p_confirmed p') (br_number r) = true)
    /\ (forall r, p_confirmed p' = Some r -> p_confirmed p = Some r \/ r ∈ p_queue p)
    /\ (forall n, covered (p_confirmed p) n = true -> covered (p_confirmed p') n = true)
    /\ forall c now, last clocks = Some c -> (c.2 <= now)%N -> probe_wait now p' = 0%N.
Proof.
  revert p Hok Hcanon Hrounds. induction clocks as [|[w t] clocks IH]; intros p Hok Hcanon Hlen.
  { assert (p_queue p = []) as E by (apply nil_length_inv; simpl in Hlen; lia).
    exists p. rewrite E. split_and!; try done; [intros r Hr; by apply elem_of_nil in Hr|by left]. }
  apply Forall_cons in Hclocks as [Ht Hclocks]. specialize (IH Hclocks).
  destruct (canonical_round canon fn fh w t p Hok Hcanon)
    as (p1 & hit & E & Hok1 & Hq1 & Hl1 & Hc1 & Hhit & Hcov1).
  destruct (IH p1) as (p' & E' & Hq & Hcov & Hsrc & Hmono & Hwait); [done| | |].
  { intros r Hr. apply Hcanon. rewrite Hq1 in Hr. eapply elem_of_sublist; [exact Hr|].
    apply sublist_drop. }
  { rewrite Hq1, length_drop. simpl in Hlen. unfold PROBE_BATCH in *. lia. }
  exists p'. simpl. rewrite E. split_and!; [done|done| | | |].
  - intros r Hr. rewrite <- (take_drop PROBE_BATCH (p_queue p)) in Hr.
    apply elem_of_app in Hr as [Hr|Hr]; [by apply Hmono, Hcov1|]. apply Hcov. by rewrite Hq1.
  - intros r [H|H]%Hsrc.
    + rewrite Hc1 in H. destruct hit as [h|]; [|by left]. simplify_eq/=. right. by apply Hhit.
    + right. rewrite Hq1 in H. eapply elem_of_sublist; [exact H|apply sublist_drop].
  - intros n Hn. apply Hmono. rewrite Hc1. apply default_to_covers; [|done].
    intros h Hh. by apply Hok, Hhit.
  - intros c now Hc Hnow. destruct clocks as [|c1 clocks].
    + simplify_eq/=. unfold probe_wait. rewrite Hl1. simpl in Ht. lia.
    + by apply (Hwait c now).
Qed.

(** ** Witnesses *)

Definition demo_block (n : N) : Block :=
  mkBlock n (to_qty n) (n - 1) (to_qty (n - 1)) None [] None.

(** The upstream holds another block at height 8. *)
Definition demo_canon (tag : string) : string :=
  if bool_decide (tag = to_qty 8) then "0xother" else tag.

Definition demo_finalize : list FinalizeEvent :=
  [FItem (Some (Ok (mkBlockBatch [demo_block 6; demo_block 7; demo_block 8] None)));
   FAbsorb; FAbsorb; FItem (Some (Ok (mkBlockBatch [demo_block 9; demo_block 10] None)));
   FAbsorb; FAbsorb; FAbsorb; FDrained;
   FRound 1000000000 1000000100 (Ok (9%N, "f"%string)) (canonical_client demo_canon);
   FDeliver; FItem (Some (Ok (mkBlockBatch [demo_block 11] None)))].

Lemma demo_honest : honest_trace demo_finalize.
Proof.
  split.
  - repeat (constructor; [|try (repeat constructor; reflexivity)]). constructor.
  - intros w t f c Hin. assert (c = canonical_client demo_canon) as ->; [|apply canonical_answers].
    unfold demo_finalize in Hin. set_solver.
Qed.

Lemma finality_attached_is_justified_witness :
  exists s, finalize_run (finalize_init 0) demo_finalize = Some s
    /\ batch_finalized_head <$> (omap (fun o => match o with Ok b => Some b | Err _ => None end)
         (fs_out s)) = [None; None; Some (block_ref (demo_block 9))]
    /\ p_queue (fs_prober s) = [block_ref (demo_block 10)]
    /\ Forall2 (passed_on demo_finalize) (items demo_finalize) (fs_out s).
Proof.
  eexists. split; [vm_compute; reflexivity|]. split; [vm_compute; reflexivity|].
  split; [vm_compute; reflexivity|].
  exact (proj1 (finality_attached_is_justified 0 demo_finalize _ demo_honest
    ltac:(vm_compute; reflexivity))).
Defined.

Definition demo_prober : ProberState :=
  mkProberState (block_ref <$> [demo_block 6; demo_block 7; demo_block 8; demo_block 9;
    demo_block 10; demo_block 11]) None 0.

Lemma demo_prober_ok : queue_ok demo_prober.
Proof. split; [repeat constructor; reflexivity|by intros r _]. Qed.

(** The round confirms 9, drops 8, which the upstream contradicts, and keeps 10,
    which it has not finalized. *)
Lemma round_settles_highest_witness :
  exists p' hit, probe_round 1000000000 1000000100 (Ok (9%N, "f"%string))
      (canonical_client demo_canon) demo_prober = Some (p', hit)
    /\ hit = Some (block_ref (demo_block 9))
    /\ p_queue p' = block_ref <$> [demo_block 10; demo_block 11] /\ queue_ok p'.
Proof.
  destruct (round_settles_highest 1000000000 1000000100 (Ok (9%N, "f"%string))
    (canonical_client demo_canon) demo_prober _ demo_prober_ok (canonical_answers _)
    ltac:(vm_compute; reflexivity)) as (p' & hit & E & _ & _ & _ & Hok & _).
  vm_compute in E. injection E as <- <-.
  eexists _, _. split; [vm_compute; reflexivity|].
  split; [vm_compute; reflexivity|]. split; [vm_compute; reflexivity|exact Hok].
Defined.

Lemma prober_drains_witness :
  exists p', probe_rounds (Ok (20%N, "f"%string)) (canonical_client id)
      [(1000000000, 1000000100); (1000000200, 1000000300)]%N demo_prober = Some p'
    /\ p_queue p' = [] /\ p_confirmed p' = Some (block_ref (demo_block 11))
    /\ probe_wait 1000000300 p' = 0%N.
Proof.
  destruct (prober_drains id 20 "f" [(1000000000, 1000000100); (1000000200, 1000000300)]%N
    demo_prober demo_prober_ok) as (p' & E & Hq & _ & _ & _ & Hw).
  - intros r Hr. unfold demo_prober in Hr. simpl in Hr.
    repeat (apply elem_of_cons in Hr as [->|Hr]; [split; [by vm_compute|by vm_compute]|]).
    by apply elem_of_nil in Hr.
  - vm_compute. lia.
  - repeat constructor; by vm_compute.
  - exists p'. split; [exact E|]. split; [exact Hq|]. split; [|by apply (Hw _ _ eq_refl)].
    vm_compute in E. injection E as <-. vm_compute. reflexivity.
Defined.

(** The spacing applies to a round that settles some of its probes too. *)
Lemma settling_round_spaced :
  exists p', probe_round 1000000000 1000000100 (Ok (9%N, "f"%string))
      (canonical_client demo_canon) demo_prober = Some (p', Some (block_ref (demo_block 9)))
    /\ probe_wait 1000000100 p' = 499999900%N.
Proof. eexists. split; vm_compute; reflexivity. Qed.
