(* ===== verification/RawBlock.v ===== *)
(** * RawBlock: the fetch layer's block and its verdict (rpc_data.rs, mapping.rs)

    The rest of [rpc_data.rs]: the trace-API records, the state diffs and
    [RawRpcBlock], the block with the components attached to it and the mark
    the acquisition leaves on it; and [map_raw_block] (mapping.rs), which
    makes the service's block of it. JSON values the code passes through are
    of a parameter type [Value]; a JSON map is an association list, the crate
    being built to preserve the order of keys. *)
From Stdlib Require Import Strings.Byte.
From S2P Require Import Prelude Types RpcData Frames EvmTypes.

Local Open Scope rust_scope.

(** ** Trace API *)

Record TraceActionCreate := mkTraceActionCreate {
  tac_from : string;
  tac_value : string;
  tac_gas : string;
  tac_init : string;
  tac_creation_method : option string
}.

Record TraceActionCall := mkTraceActionCall {
  ta_call_type : string;
  ta_from : string;
  ta_gas : string;
  ta_input : string;
  ta_to : string;
  ta_value : string
}.

Record TraceActionReward := mkTraceActionReward {
  tar_author : string;
  tar_reward_type : string;
  tar_value : string
}.

Record TraceActionSelfdestruct := mkTraceActionSelfdestruct {
  tas_address : string;
  tas_balance : string;
  tas_refund_address : string
}.

Inductive TraceAction : Type :=
  | ActionCreate (a : TraceActionCreate)
  | ActionCall (a : TraceActionCall)
  | ActionReward (a : TraceActionReward)
  | ActionSelfdestruct (a : TraceActionSelfdestruct).

Record TraceResultCreate := mkTraceResultCreate {
  trc_gas_used : string;
  trc_code : string;
  trc_address : string
}.

Record TraceResultCall := mkTraceResultCall {
  tr_gas_used : string;
  tr_output : string
}.

Inductive TraceResult : Type :=
  | ResultCreate (r : TraceResultCreate)
  | ResultCall (r : TraceResultCall).

Record TraceFrame := mkTraceFrame {
  tf_action : TraceAction;
  tf_block_hash : option string;
  tf_block_number : option N;
  tf_result : option TraceResult;
  tf_subtraces : N;
  tf_trace_address : list N;
  tf_transaction_hash : option string;
  tf_transaction_position : option N;
  tf_frame_type : string;
  tf_error : option string
}.

Record TraceTransactionReplay {Value : Type} := mkTraceTransactionReplay {
  ttr_output : option string;
  ttr_state_diff : option (list (string * Value));
  ttr_trace : option (list TraceFrame);
  ttr_transaction_hash : option string
}.
Arguments TraceTransactionReplay : clear implicits.
Arguments mkTraceTransactionReplay {Value}.

(** ** Debug results *)

Record DebugFrameResult := mkDebugFrameResult {
  dfr_result : DebugFrame;
  dfr_tx_hash : option string
}.

Record DebugStateDiff {Value : Type} := mkDebugStateDiff {
  dsd_pre : list (string * Value);
  dsd_post : list (string * Value)
}.
Arguments DebugStateDiff : clear implicits.
Arguments mkDebugStateDiff {Value}.

Record DebugStateDiffResult {Value : Type} := mkDebugStateDiffResult {
  dsr_result : DebugStateDiff Value;
  dsr_tx_hash : option string
}.
Arguments DebugStateDiffResult : clear implicits.
Arguments mkDebugStateDiffResult {Value}.

(** ** The block with attached data *)

Record RawRpcBlock {Value : Type} := mkRawRpcBlock {
  raw_number : N;
  raw_hash : string;
  raw_block : RpcBlock;
  raw_logs : option (list RpcLog);
  raw_receipts : option (list RpcReceipt);
  raw_debug_frames : option (list (option DebugFrameResult));
  raw_trace_replays : option (list (TraceTransactionReplay Value));
  raw_debug_state_diffs : option (list (option (DebugStateDiffResult Value)));
  is_invalid : bool;
  is_not_ready : bool;
  header_contested : bool;
  error_message : option string
}.
Arguments RawRpcBlock : clear implicits.
Arguments mkRawRpcBlock {Value}.

Section raw_block.
Context {Value : Type}.
Implicit Types b : RawRpcBlock Value.

Definition RawRpcBlock_new (number : N) (hash : string) (block : RpcBlock) : RawRpcBlock Value :=
  mkRawRpcBlock number hash block None None None None None false false false None.

(** The four fields of the mark, set at once. *)
Definition set_mark b (invalid not_ready contested : bool) (msg : option string) : RawRpcBlock Value :=
  mkRawRpcBlock (raw_number b) (raw_hash b) (raw_block b) (raw_logs b) (raw_receipts b)
    (raw_debug_frames b) (raw_trace_replays b) (raw_debug_state_diffs b)
    invalid not_ready contested msg.

Definition mark_invalid b (msg : string) : RawRpcBlock Value :=
  set_mark b true false false (Some msg).

Definition mark_not_ready b (msg : string) : RawRpcBlock Value :=
  if is_invalid b && negb (is_not_ready b) then b
  else set_mark b true true (header_contested b) (Some msg).

Definition mark_header_contested b (msg : string) : RawRpcBlock Value :=
  if is_invalid b && negb (is_not_ready b) then b
  else let b := mark_not_ready b msg in
       set_mark b (is_invalid b) (is_not_ready b) true (error_message b).

Definition clear_invalid b : RawRpcBlock Value := set_mark b false false false None.

(** ** Field updates *)

Definition set_logs b (l : option (list RpcLog)) : RawRpcBlock Value :=
  mkRawRpcBlock (raw_number b) (raw_hash b) (raw_block b) l (raw_receipts b)
    (raw_debug_frames b) (raw_trace_replays b) (raw_debug_state_diffs b)
    (is_invalid b) (is_not_ready b) (header_contested b) (error_message b).

Definition set_receipts b (l : option (list RpcReceipt)) : RawRpcBlock Value :=
  mkRawRpcBlock (raw_number b) (raw_hash b) (raw_block b) (raw_logs b) l
    (raw_debug_frames b) (raw_trace_replays b) (raw_debug_state_diffs b)
    (is_invalid b) (is_not_ready b) (header_contested b) (error_message b).

Definition set_debug_frames b (l : option (list (option DebugFrameResult))) : RawRpcBlock Value :=
  mkRawRpcBlock (raw_number b) (raw_hash b) (raw_block b) (raw_logs b) (raw_receipts b)
    l (raw_trace_replays b) (raw_debug_state_diffs b)
    (is_invalid b) (is_not_ready b) (header_contested b) (error_message b).

Definition set_trace_replays b (l : option (list (TraceTransactionReplay Value))) : RawRpcBlock Value :=
  mkRawRpcBlock (raw_number b) (raw_hash b) (raw_block b) (raw_logs b) (raw_receipts b)
    (raw_debug_frames b) l (raw_debug_state_diffs b)
    (is_invalid b) (is_not_ready b) (header_contested b) (error_message b).

Definition set_debug_state_diffs b (l : option (list (option (DebugStateDiffResult Value))))
    : RawRpcBlock Value :=
  mkRawRpcBlock (raw_number b) (raw_hash b) (raw_block b) (raw_logs b) (raw_receipts b)
    (raw_debug_frames b) (raw_trace_replays b) l
    (is_invalid b) (is_not_ready b) (header_contested b) (error_message b).

(** ** Mapping to the service's block *)

(** What acquisition measured before the CPU stages take over. *)
Record AcquisitionTimings := mkAcquisitionTimings {
  at_poll_issued : N;
  at_null_polls : N;
  at_body_received : N;
  at_enrich_done : N;
  at_enrich_profile : EnrichProfile
}.

(** [map_raw_block]: [encode] is the normalization, serialization and
    compression of the block; [clock] is when the normalization was done and
    how long the compression took. The product wraps, the release profile
    having no overflow checks. *)
Definition map_raw_block (encode : RawRpcBlock Value -> Result (list byte) string)
    (clock : N * N) b (timings_in : option AcquisitionTimings) : Result Block string :=
  let? json_line_zstd := encode b in
  let number := qty2_u64 (blk_number (raw_block b)) in
  let timestamp := ((qty2_u64 (blk_timestamp (raw_block b)) * 1000) mod 2 ^ 64)%N in
  let timings := match timings_in with
                 | Some t => Some (mkBlockTimings (at_poll_issued t) (at_null_polls t)
                                     (at_body_received t) (at_enrich_done t)
                                     (at_enrich_profile t) clock.1 clock.2)
                 | None => None
                 end in
  Ok (mkBlock number (blk_hash (raw_block b)) (saturating_sub number 1)
        (blk_parent_hash (raw_block b)) (Some timestamp) json_line_zstd timings).
End raw_block.

(** ** The marks *)

(** The verdict a block carries: none, not ready (with or without a contested
    header), or incoherent. Waiting heals only the middle two. *)
Inductive Mark : Type := Clean | NotReady (contested : bool) | Incoherent.

Definition mark_of {Value} (b : RawRpcBlock Value) : Mark :=
  if is_invalid b then
    if is_not_ready b then NotReady (header_contested b) else Incoherent
  else Clean.

(** The flags only ever hold one of the four verdicts, and a marked block has
    a reason. *)
Definition mark_wf {Value} (b : RawRpcBlock Value) : Prop :=
  match is_invalid b, is_not_ready b, header_contested b, error_message b with
  | false, false, false, None | true, true, _, Some _ | true, false, false, Some _ => True
  | _, _, _, _ => False
  end.

Definition mark_rank (m : Mark) : nat :=
  match m with Clean => 0 | NotReady false => 1 | NotReady true => 2 | Incoherent => 3 end.

(** The operations of the fetch layer on the mark. *)
Inductive MarkOp : Type :=
  | OpInvalid (msg : string)
  | OpNotReady (msg : string)
  | OpContested (msg : string).

Definition run_mark_op {Value} (b : RawRpcBlock Value) (op : MarkOp) : RawRpcBlock Value :=
  match op with
  | OpInvalid msg => mark_invalid b msg
  | OpNotReady msg => mark_not_ready b msg
  | OpContested msg => mark_header_contested b msg
  end.

Definition op_mark (op : MarkOp) : Mark :=
  match op with
  | OpInvalid _ => Incoherent
  | OpNotReady _ => NotReady false
  | OpContested _ => NotReady true
  end.

Lemma run_mark_op_spec {Value} (b : RawRpcBlock Value) op :
  mark_wf b ->
  mark_wf (run_mark_op b op)
  /\ mark_rank (mark_of (run_mark_op b op)) = Nat.max (mark_rank (mark_of b)) (mark_rank (op_mark op)).
Proof.
  destruct b as [? ? ? ? ? ? ? ? inv nr hc msg]. unfold mark_wf, mark_of.
  destruct op, inv, nr, hc, msg; simpl; done.
Qed.

(** C40: Whatever marks an acquisition makes, in whatever order, a block's flags
    encode exactly one verdict, the most severe of the marks made since it was
    cleared, and an invalid block names a reason: not-ready never hides an
    incoherence, and a contested header is never forgotten while waiting. *)
Theorem marks_accumulate {Value} (b : RawRpcBlock Value) (ops : list MarkOp)
    (Hwf : mark_wf b) :
  let b' := foldl run_mark_op b ops in
  mark_wf b'
  /\ mark_rank (mark_of b')
     = foldl Nat.max (mark_rank (mark_of b)) ((fun op => mark_rank (op_mark op)) <$> ops)
  /\ (is_invalid b' = true -> is_Some (error_message b'))
  /\ mark_of (clear_invalid b') = Clean /\ mark_wf (clear_invalid b')
  /\ (raw_number b', raw_hash b', raw_block b') = (raw_number b, raw_hash b, raw_block b).
Proof.
  revert b Hwf. induction ops as [|op ops IH]; intros b Hwf; simpl.
  - split_and!; try done. intros Hi.
    destruct b as [? ? ? ? ? ? ? ? inv nr hc [msg|]]; simpl in *; [done|].
    unfold mark_wf in Hwf. simpl in Hwf. subst inv. by destruct nr, hc.
  - destruct (run_mark_op_spec b op Hwf) as [Hwf' Hrank].
    destruct (IH _ Hwf') as (? & Hr & ? & ? & ? & Hid). rewrite Hrank in Hr.
    split_and!; try done. rewrite Hid.
    destruct op; simpl; unfold mark_header_contested, mark_not_ready; by repeat case_match.
Qed.

Definition demo_rpc_block (n hash parent : string) : RpcBlock :=
  mkRpcBlock n hash parent None None None "0x" "0x0" "0x0" "" "" "" "" "" "" None None None None
    None "0x0" "0x10" [] [] None None None None None None None.

Definition demo_raw (n : N) (hash parent : string) : RawRpcBlock nat :=
  RawRpcBlock_new n hash (demo_rpc_block (to_qty n) hash parent).

Lemma marks_accumulate_witness :
  mark_of (foldl run_mark_op (demo_raw 5 "0xb" "0xa")
    [OpContested "logs name 0xc"; OpNotReady "receipts missing"]) = NotReady true
  /\ mark_wf (foldl run_mark_op (demo_raw 5 "0xb" "0xa")
    [OpContested "logs name 0xc"; OpNotReady "receipts missing"]).
Proof.
  destruct (marks_accumulate (demo_raw 5 "0xb" "0xa")
    [OpContested "logs name 0xc"; OpNotReady "receipts missing"]) as (Hwf & _); [by vm_compute|].
  split; [reflexivity|exact Hwf].
Defined.
