(* ===== verification/Continuity.v ===== *)
(** * Continuity: what the adapter hands to the service (source.rs, mapping.rs)

    [ensure_continuity] cuts the acquisition's batches at the first block whose
    parent is not the block delivered before it, and turns that point into the
    fork signal the service rebases on. [map_raw_block] makes the buffered
    block of a node's block. Together they give the service's write side what
    it checks again: linked batches in ascending order. *)
From Stdlib Require Import Strings.Byte.
From S2P Require Import Prelude Types EvmTypes RpcData RawBlock Chain Service ChainRefines.

Local Open Scope rust_scope.

(** A batch of mapped blocks, with the report true of all of them (ingest.rs). *)
Record IngestBatch := mkIngestBatch {
  ig_blocks : list Block;
  ig_finalized : option BlockRef
}.

(** The scan of one batch: where it stops being linked, and the parent the
    next block must name. *)
Fixpoint fork_position (expected : option string) (i : nat) (blocks : list Block)
    : option nat * option string :=
  match blocks with
  | [] => (None, expected)
  | b :: blocks =>
      match expected with
      | Some ep =>
          if negb (bool_decide (ep = parent_hash b)) then (Some i, expected)
          else fork_position (Some (hash b)) (S i) blocks
      | None => fork_position (Some (hash b)) (S i) blocks
      end
  end.

(** The stream adaptor, on the whole list of items the source yields; an error
    ends the stream, as [?] does in it. *)
Fixpoint ensure_continuity (expected_parent : option string)
    (stream : list (Result IngestBatch AnyError)) : option (list (Result BlockBatch StreamError)) :=
  match stream with
  | [] => Some []
  | Err e :: _ => Some [Err (Other e)]
  | Ok batch :: stream =>
      let (fork_at, expected_parent) := fork_position expected_parent 0 (ig_blocks batch) in
      match fork_at with
      | Some fork_pos =>
          let! fork_block := ig_blocks batch !! fork_pos in
          let pre_fork := if 0 <? fork_pos
                          then [Ok (mkBlockBatch (take fork_pos (ig_blocks batch)) (ig_finalized batch))]
                          else [] in
          let previous_blocks :=
            [mkBlockRef (saturating_sub (number fork_block) 1) (parent_hash fork_block)] in
          Some (pre_fork ++ [Err (Fork previous_blocks)])
      | None =>
          let! rest := ensure_continuity expected_parent stream in
          match ig_blocks batch with
          | [] => Some rest
          | _ => Some (Ok (mkBlockBatch (ig_blocks batch) (ig_finalized batch)) :: rest)
          end
      end
  end.

(** ** Linked to the parent asked for *)

Definition emitted (out : list (Result BlockBatch StreamError)) : list Block :=
  mjoin ((fun o => match o with Ok b => batch_blocks b | Err _ => [] end) <$> out).

Definition source_blocks (stream : list (Result IngestBatch AnyError)) : list Block :=
  mjoin ((fun o => match o with Ok b => ig_blocks b | Err _ => [] end) <$> stream).

(** The blocks the source yields before its first error. *)
Fixpoint before_error (stream : list (Result IngestBatch AnyError))
    : list Block * option AnyError :=
  match stream with
  | [] => ([], None)
  | Err e :: _ => ([], Some e)
  | Ok b :: stream => let (bs, e) := before_error stream in (ig_blocks b ++ bs, e)
  end.

Definition names_parent (expected : option string) (b : Block) : Prop :=
  match expected with Some h => parent_hash b = h | None => True end.

(** Each block names the one before it, the first the parent asked for. *)
Fixpoint linked_from (expected : option string) (bs : list Block) : Prop :=
  match bs with
  | [] => True
  | b :: bs => names_parent expected b /\ linked_from (Some (hash b)) bs
  end.

Definition tip (expected : option string) (bs : list Block) : option string :=
  match last bs with Some b => Some (hash b) | None => expected end.

Lemma tip_cons expected x a : tip expected (x :: a) = tip (Some (hash x)) a.
Proof. unfold tip. rewrite last_cons. by destruct (last a). Qed.

Lemma linked_from_app expected a b :
  linked_from expected (a ++ b) <-> linked_from expected a /\ linked_from (tip expected a) b.
Proof.
  revert expected. induction a as [|x a IH]; intros expected; simpl; [tauto|].
  rewrite IH, tip_cons. tauto.
Qed.

Lemma tip_app expected a b : tip expected (a ++ b) = tip (tip expected a) b.
Proof. unfold tip. rewrite last_app. by destruct (last b). Qed.

Lemma linked_adjacent expected bs :
  linked_from expected bs -> adjacent (fun a b => parent_hash b = hash a) bs.
Proof.
  revert expected. induction bs as [|b bs IH]; intros expected Hl; [apply adjacent_nil|].
  destruct bs as [|c bs]; [apply adjacent_singleton|].
  destruct Hl as [_ Hl]. apply adjacent_cons. split; [apply Hl|by eapply IH].
Qed.

Lemma fork_position_spec expected i bs :
  match fork_position expected i bs with
  | (None, expected') => linked_from expected bs /\ expected' = tip expected bs
  | (Some j, _) => exists k b, j = i + k /\ bs !! k = Some b
      /\ linked_from expected (take k bs) /\ ~ names_parent (tip expected (take k bs)) b
  end.
Proof.
  revert expected i. induction bs as [|b bs IH]; intros expected i; simpl; [done|].
  assert (names_parent expected b ->
    match fork_position (Some (hash b)) (S i) bs with
    | (None, expected') =>
        (names_parent expected b /\ linked_from (Some (hash b)) bs) /\ expected' = tip expected (b :: bs)
    | (Some j, _) => exists k c, j = i + k /\ (b :: bs) !! k = Some c
        /\ linked_from expected (take k (b :: bs)) /\ ~ names_parent (tip expected (take k (b :: bs))) c
    end) as Hnext.
  { intros Hb. specialize (IH (Some (hash b)) (S i)).
    destruct (fork_position _ _ bs) as [[j|] e].
    - destruct IH as (k & c & -> & Hk & Hl & Hn). exists (S k), c. cbn [take].
      rewrite tip_cons. split_and!; [lia|done|done|done].
    - rewrite tip_cons. by destruct IH. }
  destruct expected as [ep|]; [|by apply Hnext].
  case_bool_decide as Heq; simpl; [by apply Hnext|].
  exists 0, b. split_and!; [lia|done|done|]. simpl. congruence.
Qed.

Lemma emitted_cons o out :
  emitted (o :: out) = match o with Ok b => batch_blocks b | Err _ => [] end ++ emitted out.
Proof. done. Qed.

Lemma emitted_app a b : emitted (a ++ b) = emitted a ++ emitted b.
Proof. unfold emitted. by rewrite fmap_app, join_app. Qed.

(** How a stream may end: in order of the source's blocks, at the first one
    that does not link, with the source's error, or with the source. *)
Definition ends_properly (expected : option string) (bs : list Block) (e : option AnyError)
    (out : list (Result BlockBatch StreamError)) : Prop :=
  match last out with
  | Some (Err (Fork previous)) => exists b rest, bs = emitted out ++ b :: rest
      /\ ~ names_parent (tip expected (emitted out)) b
      /\ previous = [mkBlockRef (saturating_sub (number b) 1) (parent_hash b)]
  | Some (Err (Other err)) => e = Some err /\ emitted out = bs
  | _ => e = None /\ emitted out = bs
  end.

Lemma ensure_continuity_spec expected stream :
  let (bs, e) := before_error stream in
  exists out, ensure_continuity expected stream = Some out
    /\ linked_from expected (emitted out)
    /\ ends_properly expected bs e out
    /\ Forall (fun o => match o with Ok b => batch_blocks b <> [] | Err _ => True end) out.
Proof.
  revert expected. induction stream as [|[batch|err] stream IH]; intros expected; simpl.
  - exists []. split_and!; try done; by constructor.
  - destruct (before_error stream) as [bs e].
    pose proof (fork_position_spec expected 0 (ig_blocks batch)) as Hf.
    destruct (fork_position expected 0 (ig_blocks batch)) as [[k|] expected'].
    + destruct Hf as (k' & b & Hk' & Hb & Hl & Hn). simpl in Hk'. subst k'. rewrite Hb.
      eexists. split; [done|].
      assert (emitted ((if 0 <? k then [Ok (mkBlockBatch (take k (ig_blocks batch)) (ig_finalized batch))]
                        else []) ++ [Err (Fork [mkBlockRef (saturating_sub (number b) 1) (parent_hash b)])])
              = take k (ig_blocks batch)) as Hem.
      { rewrite emitted_app. change (emitted [Err _]) with (@nil Block). rewrite app_nil_r.
        destruct k as [|k]; [done|]. cbn [Nat.ltb Nat.leb]. rewrite emitted_cons. apply app_nil_r. }
      unfold ends_properly. rewrite Hem, last_snoc. split_and!; [done| |].
      * exists b, (drop (S k) (ig_blocks batch) ++ bs). split_and!; [|done|done].
        rewrite <- (take_drop_middle _ _ _ Hb) at 1. by rewrite <- app_assoc.
      * apply Forall_app. split; [|by constructor]. destruct k as [|k]; simpl; [by constructor|].
        constructor; [|by constructor]. simpl. intros E. by destruct (ig_blocks batch).
    + destruct Hf as [Hl ->]. destruct (IH (tip expected (ig_blocks batch))) as (out & -> & Hlo & He & Hne).
      assert (forall out', emitted out' = ig_blocks batch ++ emitted out ->
        last out' = last out \/ (out = [] /\ exists b, last out' = Some (Ok b)) ->
        linked_from expected (emitted out') /\ ends_properly expected (ig_blocks batch ++ bs) e out') as Hmk.
      { intros out' Hem Hlast. rewrite Hem. split; [by apply linked_from_app|].
        unfold ends_properly in *. rewrite Hem, tip_app. destruct Hlast as [->|(-> & b & ->)].
        - destruct (last out) as [[?|[previous|?]]|].
          + destruct He as [? <-]. done.
          + destruct He as (b & rest & -> & ? & ?). exists b, rest. by rewrite <- app_assoc.
          + destruct He as [? <-]. done.
          + destruct He as [? <-]. done.
        - destruct He as [? <-]. done. }
      destruct (ig_blocks batch) as [|b0 bl] eqn:Hbl.
      * exists out. destruct (Hmk out eq_refl) as [? ?]; [by left|]. done.
      * eexists. split; [done|]. destruct (Hmk (Ok (mkBlockBatch (b0 :: bl) (ig_finalized batch)) :: out))
          as [? ?]; [done| |split_and!; [done..|by constructor]].
        destruct out as [|o out]; [right; split; [done|by eexists]|left; by rewrite last_cons_cons].
  - eexists. split; [done|]. split_and!; [done|done|by constructor].
Qed.

(** What the adapter hands over is one chain from the requested parent:
    for any source, the batches passed on are not empty and their blocks, in
    the source's order, each name the one before them. The stream goes on to
    the source's end or its error, unless a block does not name its
    predecessor: then everything before it has been delivered and the stream
    ends in a fork signal naming that block's own parent. *)
Theorem continuity_correct expected stream :
  exists out, ensure_continuity expected stream = Some out
    /\ linked_from expected (emitted out)
    /\ ends_properly expected (before_error stream).1 (before_error stream).2 out
    /\ Forall (fun o => match o with Ok b => batch_blocks b <> [] | Err _ => True end) out.
Proof.
  pose proof (ensure_continuity_spec expected stream) as H.
  by destruct (before_error stream) as [bs e].
Qed.

(** ** The service accepts what it is handed *)

Section handed_over.
Context {Value : Type}.

(** A block [map_raw_block] made, with hashes the service can put in a header. *)
Definition mapped_block (b : Block) : Prop :=
  exists encode clock (raw : RawRpcBlock Value) timings,
    map_raw_block encode clock raw timings = Ok b
    /\ is_empty (hash b) = false /\ is_empty (parent_hash b) = false
    /\ is_header_safe_hash (hash b) = true /\ is_header_safe_hash (parent_hash b) = true.

Definition succeeds (a b : Block) : Prop := number b = (number a + 1)%N.

Definition safe_report (r : option BlockRef) : Prop :=
  forall x, r = Some x -> is_empty (br_hash x) = false /\ is_header_safe_hash (br_hash x) = true.

Lemma mapped_follows a b :
  mapped_block b -> succeeds a b -> parent_hash b = hash a -> follows a b.
Proof.
  intros (encode & clock & raw & t & Hm & _) Hs Hp. unfold map_raw_block in Hm.
  destruct (encode raw) as [line|]; [|done]. injection Hm as <-.
  unfold succeeds in Hs. cbn [number parent_hash] in *.
  split; cbn [number]; [|lia]. unfold is_chain, saturating_sub. cbn [parent_number parent_hash].
  rewrite Hs, Hp. apply andb_true_iff. split; [apply N.eqb_eq; lia|by apply bool_decide_eq_true].
Qed.

Lemma adjacent_and {A} (R S : A -> A -> Prop) l :
  adjacent R l -> adjacent S l -> adjacent (fun a b => R a b /\ S a b) l.
Proof. intros HR HS i x y Hx Hy. split; eauto. Qed.

Lemma batch_in_emitted out batch :
  Ok batch ∈ out -> exists a b, emitted out = a ++ batch_blocks batch ++ b.
Proof.
  induction out as [|o out IH]; [by intros ?%elem_of_nil|].
  rewrite emitted_cons. intros [<-|Hin]%elem_of_cons; [by exists [], (emitted out)|].
  destruct (IH Hin) as (a & b & ->). eexists (_ ++ a), b. by rewrite <- app_assoc.
Qed.

Lemma ends_properly_prefix expected bs e out :
  ends_properly expected bs e out -> exists rest, bs = emitted out ++ rest.
Proof.
  unfold ends_properly. destruct (last out) as [[?|[?|?]]|].
  - intros [_ <-]. exists []. by rewrite app_nil_r.
  - intros (b & rest & -> & _). by eexists.
  - intros [_ <-]. exists []. by rewrite app_nil_r.
  - intros [_ <-]. exists []. by rewrite app_nil_r.
Qed.

(** Every batch passed on is a prefix of one of the source's, report included. *)
Lemma reports_kept expected stream out batch :
  ensure_continuity expected stream = Some out -> Ok batch ∈ out ->
  exists b k, Ok b ∈ stream /\ batch_finalized_head batch = ig_finalized b
    /\ batch_blocks batch = take k (ig_blocks b).
Proof.
  revert expected out. induction stream as [|[b|err] stream IH]; intros expected out; simpl.
  - intros [= <-] H. by apply elem_of_nil in H.
  - destruct (fork_position _ _ _) as [[k|] expected'].
    + destruct (ig_blocks b !! k); [|done]. intros [= <-].
      destruct k as [|k]; simpl; intros H; [apply list_elem_of_singleton in H; done|].
      apply elem_of_cons in H as [[= ->]|H]; [|apply list_elem_of_singleton in H; done].
      exists b, (S k). split; [left|done].
    + destruct (ensure_continuity expected' stream) as [rest|] eqn:E; [|done]. intros Ho Hin.
      assert (Ok batch ∈ rest \/ batch = mkBlockBatch (ig_blocks b) (ig_finalized b)) as [H| ->].
      { destruct (ig_blocks b); simplify_eq; [by left|].
        apply elem_of_cons in Hin as [[= ->]|]; [by right|by left]. }
      * destruct (IH _ _ E H) as (b' & k & ? & ? & ?). exists b', k. split; [by right|done].
      * exists b, (length (ig_blocks b)). split; [left|]. split; [done|]. by rewrite firstn_all.
  - intros [= <-] H. by apply list_elem_of_singleton in H.
Qed.

Lemma continuity_holds expected stream :
  exists out, ensure_continuity expected stream = Some out
    /\ linked_from expected (emitted out)
    /\ ends_properly expected (before_error stream).1 (before_error stream).2 out
    /\ Forall (fun o => match o with Ok b => batch_blocks b <> [] | Err _ => True end) out.
Proof.
  pose proof (ensure_continuity_spec expected stream) as H.
  by destruct (before_error stream) as [bs e].
Qed.

Lemma handed_over_valid expected stream out batch :
  (forall b, b ∈ emitted out -> mapped_block b) -> adjacent succeeds (emitted out) ->
  (forall b, Ok b ∈ stream -> safe_report (ig_finalized b)) ->
  ensure_continuity expected stream = Some out -> Ok batch ∈ out ->
  validate_ingest_batch batch = Ok tt.
Proof.
  intros Hmapped Hheights Hreports Hout Hin.
  destruct (continuity_holds expected stream) as (out' & E & Hl & _ & Hne).
  rewrite Hout in E. simplify_eq.
  destruct (batch_in_emitted _ _ Hin) as (a & b & Hab). rewrite Hab in *.
  assert (forall x, x ∈ batch_blocks batch -> mapped_block x) as Hm by (intros x Hx; apply Hmapped; set_solver).
  apply validate_ok. split; [|split; [|split]].
  - eapply Forall_forall in Hne; [|exact Hin]. done.
  - apply Forall_forall. intros x Hx. destruct (Hm x Hx) as (? & ? & ? & ? & _ & ?). done.
  - destruct (reports_kept _ _ _ _ Hout Hin) as (src & _ & Hsrc & -> & _). by apply Hreports.
  - apply adjacent_app in Hheights as (_ & Hh & _). apply adjacent_app in Hh as (Hh & _ & _).
    apply linked_adjacent, adjacent_app in Hl as (_ & Hl & _). apply adjacent_app in Hl as (Hl & _ & _).
    intros i x y Hx Hy. apply mapped_follows; [|by eapply Hh|by eapply Hl].
    apply Hm. by eapply list_elem_of_lookup_2.
Qed.

(** The adapter and the service agree on what a batch is: when the source
    yields mapped blocks at consecutive heights, with hashes and reports the
    service can serve, then whatever forks the source goes through, every
    batch the adapter passes on is one the service's checks accept. *)
Theorem handed_over_batches_validate expected stream out batch
    (Hmapped : forall b, b ∈ (before_error stream).1 -> mapped_block b)
    (Hheights : adjacent succeeds (before_error stream).1)
    (Hreports : forall b, Ok b ∈ stream -> safe_report (ig_finalized b))
    (Hout : ensure_continuity expected stream = Some out)
    (Hin : Ok batch ∈ out) :
  validate_ingest_batch batch = Ok tt.
Proof.
  destruct (continuity_holds expected stream) as (out' & E & _ & Hends & _).
  rewrite Hout in E. simplify_eq.
  destruct (ends_properly_prefix _ _ _ _ Hends) as [rest Hpre]. rewrite Hpre in *.
  apply adjacent_app in Hheights as (Hheights & _).
  eapply handed_over_valid; [|exact Hheights|done..]. intros x Hx. apply Hmapped. set_solver.
Qed.
End handed_over.

(** ** Witness *)

Definition demo_encode (r : RawRpcBlock nat) : Result (list byte) string := Ok [x28].

Definition demo_mapped (n : N) (hash parent : string) : Block :=
  match map_raw_block demo_encode (0, 0)%N (demo_raw n hash parent) None with
  | Ok b => b
  | Err _ => mkBlock 0 "" 0 "" None [] None
  end.

Definition demo_stream : list (Result IngestBatch AnyError) :=
  [Ok (mkIngestBatch [demo_mapped 5 "0x5" "0x4"; demo_mapped 6 "0x6" "0x5"] (Some (mkBlockRef 6 "0x6")));
   Ok (mkIngestBatch [demo_mapped 7 "0x7" "0x6"; demo_mapped 8 "0x8b" "0x7b"] None)].

Lemma demo_mapped_ok b :
  b ∈ (before_error demo_stream).1 -> mapped_block (Value := nat) b.
Proof.
  intros Hb. vm_compute in Hb.
  repeat (apply elem_of_cons in Hb as [->|Hb];
    [match goal with |- mapped_block (mkBlock ?n ?h _ ?p _ _ _) =>
       exists demo_encode, (0, 0)%N, (demo_raw n h p), None; by vm_compute end|]).
  by apply elem_of_nil in Hb.
Qed.

(** The second batch is cut at the block that names another parent. *)
Lemma handed_over_batches_validate_witness :
  exists pre, ensure_continuity (Some "0x4"%string) demo_stream
      = Some [Ok (mkBlockBatch [demo_mapped 5 "0x5" "0x4"; demo_mapped 6 "0x6" "0x5"]
                    (Some (mkBlockRef 6 "0x6")));
              Ok pre; Err (Fork [mkBlockRef 7 "0x7b"])]
    /\ pre = mkBlockBatch [demo_mapped 7 "0x7" "0x6"] None
    /\ validate_ingest_batch pre = Ok tt.
Proof.
  eexists. split; [vm_compute; reflexivity|]. split; [vm_compute; reflexivity|].
  eapply (handed_over_batches_validate (Value := nat) (Some "0x4"%string) demo_stream);
    [exact demo_mapped_ok| | |vm_compute; reflexivity|by right; left].
  - intros i x y Hx Hy. do 3 (destruct i as [|i]; [vm_compute in Hx, Hy; by simplify_eq|]).
    vm_compute in Hy. by destruct i.
  - intros b Hb r Hr. unfold demo_stream in Hb.
    repeat (apply elem_of_cons in Hb as [[= ->]|Hb]; [by simplify_eq/=; vm_compute|]).
    by apply elem_of_nil in Hb.
Defined.
