(* ===== verification/FetchChecks.v ===== *)
(** * FetchChecks: what the fetch layer makes of an answer (fetch.rs)

    The parts of [fetch.rs] that judge one answer: the option checks, the
    error hooks handed to the client, the classification of a header
    ([get_blocks]), the enabled commitment checks, and the helpers that turn a
    trace answer into a component or into the reason the block is incoherent.
    JSON is an interface ([Json]): the shape of a value and the crate's typed
    parsers; the texts of the client's errors and the recovery of a sender are
    section variables. *)
From stdpp Require Import pretty.
From Stdlib Require Import Strings.Ascii.
From S2P Require Import Prelude RpcClient RpcData Rlp Commitments ChainUtils Frames EvmTypes RawBlock.

Local Open Scope rust_scope.

(** ** JSON *)

(** [serde_json::Value] as the code inspects it. *)
Inductive JsonView (Value : Type) : Type :=
  | ViewNull
  | ViewArray (items : list Value)
  | ViewObject
  | ViewOther.
Arguments ViewNull {Value}.
Arguments ViewArray {Value} items.
Arguments ViewObject {Value}.
Arguments ViewOther {Value}.

(** The operations used: [get] and [as_str], the literals the hooks answer
    with, and [from_value] at each type, whose error is its message. *)
Class Json (Value : Type) := {
  json_view : Value -> JsonView Value;
  json_get : string -> Value -> option Value;
  json_as_str : Value -> option string;
  json_null : Value;
  json_array : list Value -> Value;
  json_object : list (string * Value) -> Value;
  from_value_block : Value -> Result RpcBlock string;
  from_value_logs : Value -> Result (list RpcLog) string;
  from_value_receipts : Value -> Result (list (option RpcReceipt)) string;
  from_value_receipt : Value -> Result RpcReceipt string;
  from_value_frame : Value -> Result DebugFrameResult string;
  from_value_diff : Value -> Result (DebugStateDiffResult Value) string;
  from_value_replay : Value -> Result (TraceTransactionReplay Value) string;
  from_value_trace_frame : Value -> Result TraceFrame string
}.

Definition json_is_null {Value} `{Json Value} (v : Value) : bool :=
  match json_view v with ViewNull => true | _ => false end.

(** ** Options *)

Inductive CallFrameValidationMode : Type := Off | Observe | Reject.

#[export] Instance CallFrameValidationMode_eq_dec : EqDecision CallFrameValidationMode.
Proof. solve_decision. Defined.

Definition mode_as_str (m : CallFrameValidationMode) : string :=
  match m with Off => "off" | Observe => "observe" | Reject => "reject" end.

Definition mode_from_str (value : string) : Result CallFrameValidationMode string :=
  if bool_decide (value = "off"%string) then Ok Off
  else if bool_decide (value = "observe"%string) then Ok Observe
  else if bool_decide (value = "reject"%string) then Ok Reject
  else Err ("unsupported call-frame validation mode: " +:+ value)%string.

Record RpcOptions := mkRpcOptions {
  finality_confirmation : option N;
  opt_finalized_head_ttl : option N;
  opt_not_ready_budget : option N;
  verify_block_hash : bool;
  verify_tx_sender : bool;
  verify_tx_root : bool;
  verify_receipts_root : bool;
  verify_withdrawals_root : bool;
  opt_verify_logs_bloom : bool;
  call_frame_validation : CallFrameValidationMode;
  check_log_index : bool;
  check_cumulative_gas_used : bool;
  use_gas_used_for_receipts_root : bool
}.

Definition validate_options (o : RpcOptions) : Result unit string :=
  if bool_decide (call_frame_validation o = Reject)
     && (negb (verify_tx_root o) || negb (verify_tx_sender o)) then
    Err "call-frame validation reject requires verify_tx_root and verify_tx_sender"%string
  else if use_gas_used_for_receipts_root o && negb (verify_receipts_root o) then
    Err "use_gas_used_for_receipts_root requires verify_receipts_root"%string
  else Ok tt.

Definition validate_request (o : RpcOptions) (req : DataRequest) : Result unit string :=
  let? _ := validate_options o in
  if verify_receipts_root o && negb (rq_receipts req) then
    Err "verify_receipts_root requires receipt acquisition"%string
  else Ok tt.

(** Durations in milliseconds. *)
Definition FINALIZED_HEAD_TTL : N := 5000.
Definition P_ENRICH_RETRIES : nat := 10.
Definition P_ENRICH_DELAY : N := 50.
Definition NOT_READY_BUDGET : N := 30000.
Definition NOT_READY_DELAY : N := 100.
Definition LEGS_ONLY_RETRIES : nat := 3.

Definition finalized_head_ttl (o : RpcOptions) : N :=
  default FINALIZED_HEAD_TTL (opt_finalized_head_ttl o).
Definition not_ready_budget (o : RpcOptions) : N :=
  default NOT_READY_BUDGET (opt_not_ready_budget o).

(** ** Legs *)

Section legs.
Context {Value : Type}.
Implicit Types block : RawRpcBlock Value.

Definition is_some {A} (o : option A) : bool := match o with Some _ => true | None => false end.

Definition traces_leg_in_hand block (req : DataRequest) : bool :=
  if (raw_number block =? 0)%N then true
  else
    let replay_statediff := rq_state_diffs req && negb (use_debug_api_for_state_diffs req) in
    let wants_debug_frames := rq_traces req && negb (use_trace_api req) in
    let wants_debug_diffs := rq_state_diffs req && use_debug_api_for_state_diffs req in
    let wants_replays := replay_statediff || (rq_traces req && use_trace_api req) in
    (negb wants_debug_frames || is_some (raw_debug_frames block))
    && (negb wants_debug_diffs || is_some (raw_debug_state_diffs block))
    && (negb wants_replays || is_some (raw_trace_replays block)).

Definition missing_legs block (req : DataRequest) : DataRequest :=
  let traces_in_hand := traces_leg_in_hand block req in
  mkDataRequest
    (rq_logs req && negb (is_some (raw_logs block)))
    (rq_receipts req && negb (is_some (raw_receipts block)))
    (rq_traces req && negb traces_in_hand)
    (rq_state_diffs req && negb traces_in_hand)
    (use_trace_api req) (use_debug_api_for_state_diffs req)
    (use_debug_trace_block_by_number req) (debug_trace_timeout req).

Definition wants_anything (req : DataRequest) : bool :=
  rq_logs req || rq_receipts req || rq_traces req || rq_state_diffs req.
End legs.

(** ** Error hooks *)

Section hooks.
Context {Value : Type} `{Json Value}.

Definition pass_through (info : RpcErrorInfo (Value := Value)) : RpcError (Value := Value) :=
  RpcFailure (info_code info) (info_message info) (info_data info).

Definition blocks_validate_error (info : RpcErrorInfo (Value := Value)) : Result Value RpcError :=
  if str_contains "cannot query unfinalized data" (info_message info) then Ok json_null
  else if str_contains "invalid block height" (info_message info)
  then Err (RetryRequested "invalid block height")
  else if (info_code info =? -32000)%Z then Err (RetryRequested "internal error -32000")
  else Err (pass_through info).

Definition logs_validate_error (info : RpcErrorInfo (Value := Value)) : Result Value RpcError :=
  if str_contains "after last accepted block" (info_message info) then Ok (json_array [])
  else Err (pass_through info).

Definition receipts_validate_error (info : RpcErrorInfo (Value := Value)) : Result Value RpcError :=
  if str_contains "invalid block height" (info_message info)
  then Err (RetryRequested "invalid block height")
  else if str_contains "unknown block" (info_message info)
          || str_contains "not found" (info_message info)
          || str_contains "header not found" (info_message info)
  then Ok json_null
  else Err (pass_through info).

Definition traces_validate_error (info : RpcErrorInfo (Value := Value)) : Result Value RpcError :=
  if str_contains "not found" (info_message info) then Ok json_null
  else if str_contains "cannot query unfinalized data" (info_message info) then Ok json_null
  else Err (pass_through info).
End hooks.

(** ** Logs and receipts *)

Definition is_zero_bloom (bloom : string) : bool :=
  forallb (fun c => Ascii.eqb c "0"%char) (String.list_ascii_of_string (strip_0x bloom)).

Definition set_log_index (log : RpcLog) (i : N) : RpcLog :=
  mkRpcLog (log_block_hash log) (log_block_number log) (log_transaction_hash log)
    (log_transaction_index log) (to_qty i) (log_address log) (log_topics log) (log_data log)
    (log_removed log).

(** Renumber from [index]; the index after the last log is returned too. *)
Fixpoint number_logs (index : N) (logs : list RpcLog) : list RpcLog * N :=
  match logs with
  | [] => ([], index)
  | log :: logs =>
      let (rest, next) := number_logs (index + 1) logs in
      (set_log_index log index :: rest, next)
  end.

Definition fix_log_indexes (logs : list RpcLog) : list RpcLog := (number_logs 0 logs).1.

Definition set_receipt_logs (r : RpcReceipt) (logs : list RpcLog) : RpcReceipt :=
  mkRpcReceipt (rcpt_block_hash r) (rcpt_block_number r) (rcpt_transaction_hash r)
    (rcpt_transaction_index r) (rcpt_contract_address r) (rcpt_cumulative_gas_used r)
    (rcpt_from r) (rcpt_gas_used r) (rcpt_effective_gas_price r) logs (rcpt_logs_bloom r)
    (rcpt_status r) (rcpt_root r) (rcpt_to r) (rcpt_receipt_type r) (rcpt_blob_gas_used r)
    (rcpt_blob_gas_price r) (rcpt_l1_fee r) (rcpt_l1_fee_scalar r) (rcpt_l1_base_fee_scalar r)
    (rcpt_l1_blob_base_fee r) (rcpt_l1_blob_base_fee_scalar r) (rcpt_l1_gas_price r)
    (rcpt_l1_gas_used r) (rcpt_deposit_nonce r) (rcpt_deposit_receipt_version r).

Fixpoint renumber_from (index : N) (receipts : list RpcReceipt) : list RpcReceipt :=
  match receipts with
  | [] => []
  | r :: receipts =>
      let (logs, next) := number_logs index (rcpt_logs r) in
      set_receipt_logs r logs :: renumber_from next receipts
  end.

Definition renumber_logs (receipts : list RpcReceipt) : list RpcReceipt := renumber_from 0 receipts.

(** [parse_qty_u128] of fetch.rs. *)
Definition fetch_parse_qty_u128 (s field : string) : Result N string :=
  let digits := strip_0x s in
  if bool_decide (digits = ""%string)
  then Err (field +:+ " is an empty hexadecimal quantity")%string
  else map_err (fun k => field +:+ " is not a valid u128 hexadecimal quantity: "
                           +:+ int_error_message k)%string
         (from_str_radix_16 u128_max digits).

(** The cumulative-gas walk over the committed receipts. *)
Fixpoint check_gas (prev : N) (receipts : list RpcReceipt) : Result unit string :=
  match receipts with
  | [] => Ok tt
  | receipt :: receipts =>
      let at_tx e := (e +:+ " at tx " +:+ rcpt_transaction_hash receipt)%string in
      let? cumulative := map_err at_tx (fetch_parse_qty_u128 (rcpt_cumulative_gas_used receipt)
                                          "receipt.cumulativeGasUsed") in
      let? used := map_err at_tx (fetch_parse_qty_u128 (rcpt_gas_used receipt)
                                    "receipt.gasUsed") in
      match checked_add_u128 prev used with
      | None => Err (at_tx "cumulative gas used overflow"%string)
      | Some expected =>
          if negb (cumulative =? expected)%N
          then Err (at_tx "cumulative gas used check failed"%string)
          else check_gas cumulative receipts
      end
  end.

Fixpoint check_log_indexes (i : N) (logs : list RpcLog) : Result unit string :=
  match logs with
  | [] => Ok tt
  | log :: logs =>
      let actual := qty2_u64 (log_log_index log) in
      if negb (actual =? i)%N
      then Err ("log index check failed: expected " +:+ pretty i +:+ " got " +:+ pretty actual)%string
      else check_log_indexes (i + 1) logs
  end.

Section verify.
Context {Value : Type} `{Hex} `{Keccak} `{Rayon} `{Trie}.
Context (recover : RpcTransaction -> Result (option string) string).
Implicit Types block : RawRpcBlock Value.

Definition mismatch (what expected computed : string) : string :=
  (what +:+ " mismatch: expected " +:+ expected +:+ " got " +:+ computed)%string.

(** [ChainUtils::recover_tx_sender]; [recover] is the signature recovery. *)
Definition recover_tx_sender (cu : ChainUtils) (tx : RpcTransaction) : Result (option string) string :=
  if is_unsigned cu tx then Ok None else recover tx.

Definition check_sender (cu : ChainUtils) (tx : RpcTransaction) : Result unit string :=
  let? recovered := map_err (fun e => "sender recovery failed for tx " +:+ tx_hash tx +:+ ": " +:+ e)%string
                      (recover_tx_sender cu tx) in
  match recovered with
  | None => Ok tt
  | Some sender =>
      if negb (eq_ignore_ascii_case sender (tx_from tx))
      then Err ("sender mismatch for tx " +:+ tx_hash tx +:+ ": claimed " +:+ tx_from tx
                  +:+ " recovered " +:+ sender)%string
      else Ok tt
  end.

(** [for verdict in verdicts { verdict?; }]. *)
Fixpoint all_ok (verdicts : list (Result unit string)) : Result unit string :=
  match verdicts with
  | [] => Ok tt
  | v :: verdicts => let? _ := v in all_ok verdicts
  end.

Definition check_withdrawals (block : RpcBlock) : option (Result unit string) :=
  match blk_withdrawals_root block, blk_withdrawals block with
  | Some claimed, Some withdrawals =>
      let! r := calculate_withdrawals_root withdrawals in
      Some (let? computed := map_err (String.append "withdrawals root verification failed: ") r in
            if negb (eq_ignore_ascii_case computed claimed)
            then Err (mismatch "withdrawals root" claimed computed) else Ok tt)
  | None, None => Some (Ok tt)
  | Some _, None => Some (Err "withdrawals are missing while withdrawalsRoot is present"%string)
  | None, Some _ => Some (Err "withdrawalsRoot is missing while withdrawals are present"%string)
  end.

(** One enabled check after another: the first that fails decides. *)
Definition and_then (a b : option (Result unit string)) : option (Result unit string) :=
  let! r := a in match r with Ok _ => b | Err e => Some (Err e) end.

Definition when (enabled : bool) (check : option (Result unit string)) : option (Result unit string) :=
  if enabled then check else Some (Ok tt).

Definition check_block_hash (cu : ChainUtils) block : Result unit string :=
  let? computed := map_err (String.append "block hash verification failed: ")
                     (calculate_block_hash cu (raw_block block)) in
  if negb (eq_ignore_ascii_case computed (raw_hash block))
  then Err (mismatch "block hash" (raw_hash block) computed) else Ok tt.

Definition check_transactions_root (cu : ChainUtils) (block : RpcBlock) : option (Result unit string) :=
  let! r := calculate_transactions_root cu block in
  Some (let? computed := map_err (String.append "transactions root verification failed: ") r in
        match computed with
        | Some computed =>
            if negb (eq_ignore_ascii_case computed (blk_transactions_root block))
            then Err (mismatch "transactions root" (blk_transactions_root block) computed) else Ok tt
        | None => Ok tt
        end).

Definition verify_header (o : RpcOptions) (cu : ChainUtils) block : option (Result unit string) :=
  let b := raw_block block in
  and_then (when (verify_block_hash o) (Some (check_block_hash cu block)))
  (and_then (when (verify_tx_root o) (check_transactions_root cu b))
  (and_then (when (verify_tx_sender o) (Some (all_ok (check_sender cu <$> blk_transactions b))))
  (when (verify_withdrawals_root o) (check_withdrawals b)))).

Definition check_logs_bloom (cu : ChainUtils) (block : RpcBlock) (logs : list RpcLog)
    : option (Result unit string) :=
  let! computed := calculate_logs_bloom cu block logs in
  Some (if negb (eq_ignore_ascii_case computed (blk_logs_bloom block))
        then Err (mismatch "logs bloom" (blk_logs_bloom block) computed) else Ok tt).

Definition verify_logs (o : RpcOptions) (cu : ChainUtils) block (logs : list RpcLog)
    : option (Result unit string) :=
  and_then (when (check_log_index o) (Some (check_log_indexes 0 logs)))
    (when (opt_verify_logs_bloom o) (check_logs_bloom cu (raw_block block) logs)).

Definition check_receipts_root (cu : ChainUtils) (block : RpcBlock) (receipts : list RpcReceipt)
    : option (Result unit string) :=
  let! r := calculate_receipts_root cu block receipts in
  Some (let? computed := map_err (String.append "receipts root verification failed: ") r in
        if negb (eq_ignore_ascii_case computed (blk_receipts_root block))
        then Err (mismatch "receipts root" (blk_receipts_root block) computed) else Ok tt).

Definition verify_receipts (o : RpcOptions) (cu : ChainUtils) block (receipts : list RpcReceipt)
    : option (Result unit string) :=
  and_then (when (check_cumulative_gas_used o)
              (Some (check_gas 0 (committed_receipts cu (raw_block block) receipts))))
    (when (verify_receipts_root o) (check_receipts_root cu (raw_block block) receipts)).
End verify.

(** ** Calls and answers *)

(** The parameters of a call, as the [json!] literals build them. *)
Inductive Arg : Type :=
  | ArgStr (s : string)
  | ArgBool (b : bool)
  | ArgStrs (l : list string)
  | ArgRange (from to : string)
  | ArgTracer (tracer : string) (flags : list (string * bool)) (timeout : string).

Definition FetchCall : Type := string * list Arg.

Definition Hook (Value : Type) : Type :=
  RpcErrorInfo (Value := Value) -> Result Value (RpcError (Value := Value)).

(** The client at one moment: what a batch and a single call return, given
    the error hook of their options. *)
Record FetchClient (Value : Type) := mkFetchClient {
  fc_batch : list FetchCall -> option (Hook Value) ->
             Result (list (Result Value (RpcError (Value := Value)))) (RpcError (Value := Value));
  fc_call : FetchCall -> option (Hook Value) -> Result Value (RpcError (Value := Value))
}.
Arguments fc_batch {Value}.
Arguments fc_call {Value}.
Arguments mkFetchClient {Value}.

(** A batched call that succeeds answers every call
    ([RpcClient.batch_answers_in_order]). *)
Definition client_answers_each {Value} (c : FetchClient Value) : Prop :=
  forall calls hook results, fc_batch c calls hook = Ok results -> length results = length calls.

Section texts.
Context {Value : Type}.
Context (protocol_text : ProtocolViolation -> string) (config_text : ConfigViolation -> string).

(** [Display] of the client's errors (error.rs). *)
Fixpoint rpc_error_text (e : RpcError (Value := Value)) : string :=
  match e with
  | InvalidConfig what => "invalid RPC client configuration: " +:+ config_text what
  | RpcFailure code message _ => "RPC error " +:+ pretty code +:+ ": " +:+ message
  | HttpFailure status _ => "HTTP error " +:+ pretty status
  | Connection what => "connection error: " +:+ what
  | Disconnected what => "disconnected: " +:+ what
  | Timeout => "request timed out"
  | Protocol what => "protocol error: " +:+ protocol_text what
  | RetryExhausted last => "retry exhausted: " +:+ rpc_error_text last
  | RetryRequested what => "retry requested: " +:+ what
  end%string.
End texts.

(** ** Headers *)

Section headers.
Context {Value : Type} `{Json Value} `{Hex} `{Keccak} `{Rayon} `{Trie}.
Context (recover : RpcTransaction -> Result (option string) string).
Context (error_text : RpcError (Value := Value) -> string).

Definition placeholder_block (number : N) : RpcBlock :=
  mkRpcBlock (to_qty number) "" "" None None None "" "" "" "" "" "" "" "" "" None None None None
    None "" "" [] [] None None None None None None None.

(** An errored or unparsable answer: never served, the mark being set and the
    empty hash unchainable. *)
Definition incoherent_placeholder (number : N) (reason : string) : RawRpcBlock Value :=
  mark_invalid (RawRpcBlock_new number "" (placeholder_block number)) reason.

(** One answer of [get_blocks]. *)
Definition classify_block (o : RpcOptions) (cu : ChainUtils) (requested : N)
    (result : Result Value (RpcError (Value := Value))) : option (option (RawRpcBlock Value)) :=
  match result with
  | Err e =>
      Some (Some (incoherent_placeholder requested
        ("eth_getBlockByNumber failed for block " +:+ pretty requested +:+ ": " +:+ error_text e)%string))
  | Ok v =>
      if json_is_null v then Some None
      else match from_value_block v with
      | Err e =>
          Some (Some (incoherent_placeholder requested
            ("unparsable eth_getBlockByNumber result for block " +:+ pretty requested +:+ ": " +:+ e)%string))
      | Ok rpc_block =>
          let number := qty2_u64 (blk_number rpc_block) in
          let raw := RawRpcBlock_new number (blk_hash rpc_block) rpc_block in
          if negb (number =? requested)%N then Some (Some (mark_invalid raw "block number mismatch"))
          else
            let! verdict := verify_header recover o cu raw in
            Some (Some (match verdict with Err reason => mark_invalid raw reason | Ok _ => raw end))
      end
  end.

Fixpoint classify_blocks (o : RpcOptions) (cu : ChainUtils) (numbers : list N)
    (results : list (Result Value (RpcError (Value := Value))))
    : option (list (option (RawRpcBlock Value))) :=
  match results with
  | [] => Some []
  | r :: results =>
      match numbers with
      | [] => None                           (* [numbers[i]] out of range *)
      | n :: numbers =>
          let! b := classify_block o cu n r in
          let! rest := classify_blocks o cu numbers results in
          Some (b :: rest)
      end
  end.

Definition block_call (with_transactions : bool) (n : N) : FetchCall :=
  ("eth_getBlockByNumber"%string, [ArgStr (to_qty n); ArgBool with_transactions]).

(** [cu] is what [get_chain_utils] returned. *)
Definition get_blocks (o : RpcOptions) (cu : Result ChainUtils string) (client : FetchClient Value)
    (numbers : list N) (with_transactions : bool)
    : option (Result (list (option (RawRpcBlock Value))) string) :=
  match numbers with
  | [] => Some (Ok [])
  | _ =>
      match fc_batch client (block_call with_transactions <$> numbers) (Some blocks_validate_error) with
      | Err e => Some (Err (error_text e))
      | Ok results =>
          match cu with
          | Err e => Some (Err e)
          | Ok cu => let! blocks := classify_blocks o cu numbers results in Some (Ok blocks)
          end
      end
  end.

(** The filter to a contiguous chain; [chain] is in order, and [chain[i - 1]]
    is its last element. *)
Fixpoint contiguous (i : nat) (chain : list (RawRpcBlock Value))
    (blocks : list (option (RawRpcBlock Value))) : option (list (RawRpcBlock Value)) :=
  match blocks with
  | [] => Some chain
  | None :: _ => Some chain
  | Some b :: blocks =>
      if bool_decide (raw_hash b = ""%string) then Some (chain ++ [b])
      else
        match i with
        | O => contiguous 1 (chain ++ [b]) blocks
        | S i' =>
            let! prev := chain !! i' in
            if negb (eq_ignore_ascii_case (raw_hash prev) (blk_parent_hash (raw_block b)))
            then Some chain
            else contiguous (S i) (chain ++ [b]) blocks
        end
  end.

Definition get_single_block (o : RpcOptions) (cu : Result ChainUtils string) (client : FetchClient Value)
    (number : N) : option (Result (option (RawRpcBlock Value)) string) :=
  let! r := get_blocks o cu client [number] true in
  Some (map_ok (fun results => match results with b :: _ => b | [] => None end) r).
End headers.

(** ** Renumbering *)

Lemma number_logs_spec index logs :
  (number_logs index logs).1
    = imap (fun i log => set_log_index log (index + N.of_nat i)) logs
  /\ (number_logs index logs).2 = (index + N.of_nat (length logs))%N.
Proof.
  revert index. induction logs as [|log logs IH]; intros index; simpl; [split; [done|lia]|].
  destruct (IH (index + 1)%N) as [H1 H2]. destruct (number_logs _ logs) as [rest next]. simpl in *.
  subst. split; [|lia]. rewrite N.add_0_r. f_equal. apply imap_ext. intros i x _. simpl. f_equal. lia.
Qed.

Definition all_logs (receipts : list RpcReceipt) : list RpcLog := receipts ≫= rcpt_logs.

Lemma renumber_from_logs index receipts :
  all_logs (renumber_from index receipts)
  = imap (fun i log => set_log_index log (index + N.of_nat i)) (all_logs receipts).
Proof.
  unfold all_logs. revert index. induction receipts as [|r receipts IH]; intros index; [done|].
  cbn [renumber_from]. destruct (number_logs_spec index (rcpt_logs r)) as [H1 H2].
  destruct (number_logs index (rcpt_logs r)) as [logs next]. simpl in *. subst.
  rewrite IH, imap_app. f_equal. apply imap_ext. intros i x _. simpl. f_equal. lia.
Qed.

Lemma check_log_indexes_ok i logs :
  check_log_indexes i logs = Ok tt <->
  forall k log, logs !! k = Some log -> qty2_u64 (log_log_index log) = (i + N.of_nat k)%N.
Proof.
  revert i. induction logs as [|log logs IH]; intros i; simpl.
  { split; [|done]. intros _ k log. by rewrite lookup_nil. }
  destruct (N.eqb_spec (qty2_u64 (log_log_index log)) i) as [He|Hne]; simpl.
  - rewrite IH. split.
    + intros Hl [|k] x Hx; simplify_eq/=; [lia|]. rewrite (Hl k x Hx). lia.
    + intros Hl k x Hx. rewrite (Hl (S k) x Hx). lia.
  - split; [done|]. intros Hl. specialize (Hl 0 log eq_refl). lia.
Qed.

(** ** The gas walk is a prefix sum *)

Definition parsed_gas (field : string) (get : RpcReceipt -> string) (r : RpcReceipt) (n : N) : Prop :=
  fetch_parse_qty_u128 (get r) field = Ok n.

Definition gas_sum (us : list N) : N := foldr N.add 0%N us.

(** Each receipt's cumulative figure is what the receipts up to it used. *)
Definition gas_adds_up (prev : N) (receipts : list RpcReceipt) : Prop :=
  exists us, Forall2 (parsed_gas "receipt.gasUsed" rcpt_gas_used) receipts us
    /\ forall k r, receipts !! k = Some r ->
         parsed_gas "receipt.cumulativeGasUsed" rcpt_cumulative_gas_used r (prev + gas_sum (take (S k) us))
         /\ (prev + gas_sum (take (S k) us) <= u128_max)%N.

Lemma check_gas_spec prev receipts :
  check_gas prev receipts = Ok tt <-> gas_adds_up prev receipts.
Proof.
  revert prev. induction receipts as [|r receipts IH]; intros prev.
  { split; [|done]. intros _. exists []. split; [constructor|]. intros k r. by rewrite lookup_nil. }
  cbn [check_gas]. unfold gas_adds_up, parsed_gas.
  destruct (fetch_parse_qty_u128 (rcpt_cumulative_gas_used r) _) as [c|e] eqn:Ec; simpl.
  2:{ split; [done|]. intros (us & _ & Hk). destruct (Hk 0 r eq_refl) as [Hc _]. congruence. }
  destruct (fetch_parse_qty_u128 (rcpt_gas_used r) _) as [u|e] eqn:Eu; simpl.
  2:{ split; [done|]. intros (us & Hf & _). inversion Hf; subst. congruence. }
  assert (forall us, (prev + gas_sum (take 1 (u :: us)) = prev + u)%N) as Hfirst
    by (intros us; simpl; lia).
  assert ((prev + u <= u128_max)%N -> c = (prev + u)%N ->
    (check_gas c receipts = Ok tt <-> exists us,
      Forall2 (fun r n => fetch_parse_qty_u128 (rcpt_gas_used r) "receipt.gasUsed" = Ok n) (r :: receipts) us
      /\ forall k x, (r :: receipts) !! k = Some x ->
        fetch_parse_qty_u128 (rcpt_cumulative_gas_used x) "receipt.cumulativeGasUsed"
          = Ok (prev + gas_sum (take (S k) us))%N
        /\ (prev + gas_sum (take (S k) us) <= u128_max)%N)) as Hstep.
  { intros Hle ->. rewrite IH. unfold gas_adds_up, parsed_gas. split.
    - intros (us & Hf & Hk). exists (u :: us). split; [by constructor|].
      intros [|k] x Hx; simplify_eq/=; [rewrite N.add_0_r; done|].
      rewrite N.add_assoc. by apply Hk.
    - intros (us & Hf & Hk). inversion Hf as [|? u' ? us' Hu' Hf']; subst.
      assert (u' = u) as -> by congruence. exists us'. split; [done|].
      intros k x Hx. specialize (Hk (S k) x Hx). simpl in Hk. rewrite N.add_assoc in Hk. exact Hk. }
  unfold checked_add_u128. destruct (N.leb_spec (prev + u) u128_max) as [Hle|Hgt].
  - destruct (N.eqb_spec c (prev + u)%N) as [Heq|Hne]; simpl; [by apply Hstep|].
    split; [done|]. intros (us & Hf & Hk). inversion Hf as [|? u' ? us' Hu' Hf']; subst.
    assert (u' = u) as -> by congruence. destruct (Hk 0 r eq_refl) as [Hc _].
    rewrite Hfirst in Hc. congruence.
  - split; [done|]. intros (us & Hf & Hk). inversion Hf as [|? u' ? us' Hu' Hf']; subst.
    assert (u' = u) as -> by congruence. destruct (Hk 0 r eq_refl) as [_ Hm].
    rewrite Hfirst in Hm. lia.
Qed.

(** The coherence checks over a block's receipts are exact: the gas walk
    accepts precisely the receipts whose cumulative figures are the running
    128-bit sums of what each used, with no overflow on the way; and after the
    renumbering of a network with its own log indexes, the logs to be served
    carry 0, 1, 2, ... across the receipts, which the index check accepts, and
    differ in nothing else. *)
Theorem receipt_checks_exact (receipts : list RpcReceipt) :
  (check_gas 0 receipts = Ok tt <-> gas_adds_up 0 receipts)
  /\ all_logs (renumber_logs receipts)
     = imap (fun i log => set_log_index log (N.of_nat i)) (all_logs receipts)
  /\ ((N.of_nat (length (all_logs receipts)) <= u64_max)%N ->
      check_log_indexes 0 (all_logs (renumber_logs receipts)) = Ok tt
      /\ check_log_indexes 0 (fix_log_indexes (all_logs receipts)) = Ok tt).
Proof.
  split; [apply check_gas_spec|].
  assert (all_logs (renumber_logs receipts)
     = imap (fun i log => set_log_index log (N.of_nat i)) (all_logs receipts)) as Hl.
  { unfold renumber_logs. rewrite renumber_from_logs. apply imap_ext. done. }
  split; [done|]. intros Hlen.
  assert (check_log_indexes 0 (imap (fun i log => set_log_index log (N.of_nat i)) (all_logs receipts))
          = Ok tt) as Hc.
  { apply check_log_indexes_ok. intros k log Hk. rewrite list_lookup_imap in Hk.
    destruct (all_logs receipts !! k) as [x|] eqn:Hx; [|done]. simplify_eq/=.
    apply lookup_lt_Some in Hx. apply qty2_u64_to_qty. lia. }
  split; [by rewrite Hl|]. unfold fix_log_indexes.
  destruct (number_logs_spec 0 (all_logs receipts)) as [-> _]. exact Hc.
Qed.
