(* ===== verification/Sender.v ===== *)
(** * Sender: who signed a transaction (evm-source/src/verification.rs)

    The payload a transaction's signature covers, type by type; the recovery id
    read from [v]; and the recovery of the sender's address, Ethereum's and
    Tempo's. ECDSA recovery itself is the [k256] crate's: an interface with the
    law that recovery inverts signing.

    The theorems: the payload signed is the transaction's own fields without
    the signature and binds them; the recovery id is exactly what EIP-155 says;
    and a transaction signed by a key is recovered to that key's address. *)
From S2P Require Import Prelude RpcData Rlp TxEncode Commitments ChainUtils Frames FetchChecks.
From stdpp Require Import pretty.
Local Open Scope N_scope.
Local Open Scope rust_scope.

(** ** The k256 crate *)

(** [Signature::from_bytes], [RecoveryId::try_from], and
    [VerifyingKey::recover_from_prehash] followed by [to_encoded_point(false)]:
    the 65 bytes of an uncompressed point. *)
Class Ecdsa := {
  Signature : Type;
  RecoveryId : Type;
  signature_from_bytes : bytes -> Result Signature string;
  recovery_id_try_from : N -> Result RecoveryId string;
  recover_from_prehash : bytes -> Signature -> RecoveryId -> Result bytes string
}.

Section sender.
Context `{Hex} `{Keccak} `{Ecdsa}.

Definition recover_secp256k1_sender (msg_hash r s : bytes) (recovery_id : N) : Result string string :=
  let? sig_obj := map_err (String.append "sig parse: ") (signature_from_bytes (r ++ s)) in
  let? rec_id := map_err (String.append "recovery_id: ") (recovery_id_try_from recovery_id) in
  let? uncompressed := map_err (String.append "recovery failed: ")
                         (recover_from_prehash msg_hash sig_obj rec_id) in
  Ok ("0x" +:+ hex_encode (drop 12 (keccak256 (drop 1 uncompressed))))%string.

(** ** What was signed *)

Definition sign_legacy (tx : RpcTransaction) : Result bytes string :=
  let gas_price := default "0x0"%string (tx_gas_price tx) in
  let? value := ok_or (tx_value tx) "tx.value missing" in
  let input := default "0x"%string (tx_input tx) in
  let v_int := parse_qty_u128 (default "0x0"%string (tx_v tx)) in
  let? to := to_bytes tx in
  let? data := decode_hex input in
  let fields := [qty (tx_nonce tx); qty gas_price; qty (tx_gas tx); encode_rlp_bytes to;
                 qty value; encode_rlp_bytes data] in
  if negb (v_int =? 27) && negb (v_int =? 28) && negb (v_int =? 0) && negb (v_int =? 1) then
    let? chain_id := ok_or (tx_chain_id tx) "chainId missing" in
    Ok (encode_rlp_items (fields ++ [qty chain_id; encode_rlp_uint 0; encode_rlp_uint 0]))
  else Ok (encode_rlp_items fields).

Definition sign_eip2930 (tx : RpcTransaction) : Result bytes string :=
  let? chain_id := ok_or (tx_chain_id tx) "chainId missing" in
  let gas_price := default "0x0"%string (tx_gas_price tx) in
  let? value := ok_or (tx_value tx) "value missing" in
  let? to := to_bytes tx in
  let? data := decode_hex (default "0x"%string (tx_input tx)) in
  Ok (1 :: encode_rlp_items
        [qty chain_id; qty (tx_nonce tx); qty gas_price; qty (tx_gas tx);
         encode_rlp_bytes to; qty value; encode_rlp_bytes data;
         decode_access_list (access_list_of tx)]).

(** The fields the fee-market types share, up to the access list. *)
Definition sign_fees (tx : RpcTransaction) : Result (string * string * string * string) string :=
  let? chain_id := ok_or (tx_chain_id tx) "chainId missing" in
  let? max_prio := ok_or (tx_max_priority_fee_per_gas tx) "maxPriorityFeePerGas missing" in
  let? max_fee := ok_or (tx_max_fee_per_gas tx) "maxFeePerGas missing" in
  let? value := ok_or (tx_value tx) "value missing" in
  Ok (chain_id, max_prio, max_fee, value).

Definition sign_eip1559 (tx : RpcTransaction) : Result bytes string :=
  let? (chain_id, max_prio, max_fee, value) := sign_fees tx in
  let? to := to_bytes tx in
  let? data := decode_hex (default "0x"%string (tx_input tx)) in
  Ok (2 :: encode_rlp_items
        [qty chain_id; qty (tx_nonce tx); qty max_prio; qty max_fee; qty (tx_gas tx);
         encode_rlp_bytes to; qty value; encode_rlp_bytes data;
         decode_access_list (access_list_of tx)]).

Definition sign_eip4844 (tx : RpcTransaction) : Result bytes string :=
  let? (chain_id, max_prio, max_fee, value) := sign_fees tx in
  let? max_fee_blob := ok_or (tx_max_fee_per_blob_gas tx) "maxFeePerBlobGas missing" in
  let? blob_hashes := ok_or (tx_blob_versioned_hashes tx) "blobVersionedHashes missing" in
  let? to := to_bytes tx in
  let? data := decode_hex (default "0x"%string (tx_input tx)) in
  Ok (3 :: encode_rlp_items
        [qty chain_id; qty (tx_nonce tx); qty max_prio; qty max_fee; qty (tx_gas tx);
         encode_rlp_bytes to; qty value; encode_rlp_bytes data;
         decode_access_list (access_list_of tx); qty max_fee_blob;
         encode_rlp_items (map (fun h => encode_rlp_bytes (decode_hex_or_empty h)) blob_hashes)]).

Definition sign_eip7702 (tx : RpcTransaction) : Result bytes string :=
  let? (chain_id, max_prio, max_fee, value) := sign_fees tx in
  let? to := to_bytes tx in
  let? data := decode_hex (default "0x"%string (tx_input tx)) in
  let? auths := decode_authorization_list (default [] (tx_authorization_list tx)) in
  Ok (4 :: encode_rlp_items
        [qty chain_id; qty (tx_nonce tx); qty max_prio; qty max_fee; qty (tx_gas tx);
         encode_rlp_bytes to; qty value; encode_rlp_bytes data;
         decode_access_list (access_list_of tx); auths]).

Definition sign_stable (tx : RpcTransaction) : Result bytes string :=
  let? (chain_id, max_prio, max_fee, value) := sign_fees tx in
  let? nonce_key := ok_or (tx_nonce_key tx) "nonceKey missing" in
  let? to := to_bytes tx in
  let? base := stable_tx_base_payload tx chain_id max_prio max_fee value to in
  Ok (63 :: encode_rlp_items
        (base ++ [qty nonce_key; qty (default "0x0"%string (tx_timeout_timestamp tx))])).

Definition unsigned_types : list string :=
  ["0x64"; "0x65"; "0x66"; "0x68"; "0x69"; "0x6a"; "0x7e"; "0x7f"].

Definition serialize_transaction_for_signing (tx : RpcTransaction) : Result (option bytes) string :=
  let tx_type := default "0x0"%string (tx_tx_type tx) in
  if bool_decide (tx_type = "0x0"%string) then map_ok Some (sign_legacy tx)
  else if bool_decide (tx_type = "0x1"%string) then map_ok Some (sign_eip2930 tx)
  else if bool_decide (tx_type = "0x2"%string) then map_ok Some (sign_eip1559 tx)
  else if bool_decide (tx_type = "0x3"%string) then map_ok Some (sign_eip4844 tx)
  else if bool_decide (tx_type = "0x4"%string) then map_ok Some (sign_eip7702 tx)
  else if bool_decide (tx_type = "0x3f"%string) then map_ok Some (sign_stable tx)
  else if bool_decide (tx_type ∈ unsigned_types) then Ok None
  else if bool_decide (tx_type = "0x76"%string) then map_ok Some (encode_tempo_tx_for_signing tx)
  else Err ("unsupported tx type for sender recovery: " +:+ tx_type)%string.

(** ** The recovery id *)

(** [u64::try_from] on a u128. *)
Definition u64_try_from (n : N) (msg : string) : Result N string :=
  if n <=? u64_max then Ok n else Err msg.

(** [chain_id.checked_mul(2).and_then(|value| value.checked_add(35))] *)
Definition eip155_base (chain_id : N) : option N :=
  if chain_id * 2 <=? u64_max then
    if chain_id * 2 + 35 <=? u64_max then Some (chain_id * 2 + 35) else None
  else None.

Definition calculate_sig_recovery (tx : RpcTransaction) : Result N string :=
  let v := default "0x0"%string (tx_v tx) in
  let? v_int := parse_qty_u128_checked v "tx.v" in
  if (v_int =? 0) || (v_int =? 1) then u64_try_from v_int "tx.v exceeds u64"
  else if (v_int =? 27) || (v_int =? 28) then map_ok (fun n => n - 27) (u64_try_from v_int "tx.v exceeds u64")
  else
    let? chain_id := ok_or (tx_chain_id tx) "tx.chainId is missing for EIP-155 recovery" in
    let? chain_id_int := parse_qty_u128_checked chain_id "tx.chainId" in
    let? chain_id := u64_try_from chain_id_int "tx.chainId exceeds u64" in
    let? v := u64_try_from v_int "tx.v exceeds u64" in
    let? base := ok_or (eip155_base chain_id) "EIP-155 recovery value overflows u64" in
    let? recovery := ok_or (if base <=? v then Some (v - base) else None) "tx.v is invalid for chainId" in
    if 1 <? recovery then Err ("tx.v yields invalid recovery id " +:+ pretty recovery)%string
    else Ok recovery.

(** ** Tempo *)

(** [u8::try_from] *)
Definition u8_try_from (n : N) : Result N string :=
  if n <=? 255 then Ok n else Err "out of range integral type conversion attempted"%string.

Definition recover_tempo_primitive_sender (signature : TempoPrimitiveSignature) (msg_hash : bytes)
    : Result string string :=
  match signature with
  | Secp256k1 r s y_parity v =>
      let? parity := ok_or (match y_parity with Some p => Some p | None => v end)
                       "Tempo secp256k1 signature is missing yParity/v" in
      let? parity := parse_qty_u128_checked parity "Tempo signature yParity/v" in
      if 1 <? parity then Err "Tempo signature yParity/v must be 0 or 1"%string
      else
        let? r := decode_signature_scalar r "Tempo signature r" in
        let? s := decode_signature_scalar s "Tempo signature s" in
        let? parity := u8_try_from parity in
        recover_secp256k1_sender msg_hash r s parity
  | P256 _ _ pub_key_x pub_key_y _ | WebAuthn _ _ pub_key_x pub_key_y _ =>
      let? x := decode_hex_with_len pub_key_x 32 "Tempo pubKeyX" in
      let? y := decode_hex_with_len pub_key_y 32 "Tempo pubKeyY" in
      Ok (to_hex (drop 12 (keccak256 (x ++ y))))
  end.

Definition recover_tempo_sender (signature : TempoSignatureObject) (msg_hash : bytes)
    : Result string string :=
  match signature with
  | Keychain k => map_ok to_hex (decode_hex_with_len (tk_user_address k) 20 "Tempo keychain userAddress")
  | Primitive p => recover_tempo_primitive_sender p msg_hash
  end.

(** ** The sender *)

Definition recover_tx_sender (tx : RpcTransaction) : Result (option string) string :=
  let? msg := serialize_transaction_for_signing tx in
  match msg with
  | None => Ok None
  | Some msg =>
      let msg_hash := keccak256 msg in
      if bool_decide (default "0x0"%string (tx_tx_type tx) = "0x76"%string) then
        let? signature := ok_or (tx_signature tx) "tx.signature is missing for 0x76 tx" in
        map_ok Some (recover_tempo_sender signature msg_hash)
      else
        let? r := ok_or (tx_r tx) "tx.r is missing" in
        let? s := ok_or (tx_s tx) "tx.s is missing" in
        let? r := decode_signature_scalar r "tx.r" in
        let? s := decode_signature_scalar s "tx.s" in
        let? recovery_id := calculate_sig_recovery tx in
        let? recovery_id := u8_try_from recovery_id in
        map_ok Some (recover_secp256k1_sender msg_hash r s recovery_id)
  end.
End sender.

(** ** The payload as a tree *)

Section payload.
Context `{Hex}.

Definition has_chain_id (tx : RpcTransaction) : bool :=
  let v := parse_qty_u128 (default "0x0"%string (tx_v tx)) in
  negb (v =? 27) && negb (v =? 28) && negb (v =? 0) && negb (v =? 1).

(** The type byte and the fields the signature of [tx] covers; [None] for
    Tempo and for a type that is not signed. *)
Definition signing_tree (tx : RpcTransaction) : option (option u8 * list RlpTree) :=
  let ty := default "0x0"%string (tx_tx_type tx) in
  if bool_decide (ty = "0x0"%string) then
    Some (None, [qty_tree (Some (tx_nonce tx)); qty_tree (tx_gas_price tx); qty_tree (Some (tx_gas tx));
                 to_tree tx; qty_tree (tx_value tx); input_tree tx]
                ++ if has_chain_id tx then [qty_tree (tx_chain_id tx); qty_leaf 0; qty_leaf 0] else [])
  else if bool_decide (ty = "0x1"%string) then
    Some (Some 1, [qty_tree (tx_chain_id tx); qty_tree (Some (tx_nonce tx)); qty_tree (tx_gas_price tx);
                   qty_tree (Some (tx_gas tx)); to_tree tx; qty_tree (tx_value tx); input_tree tx;
                   access_tree (access_list_of tx)])
  else if bool_decide (ty = "0x2"%string) then Some (Some 2, fee_fields tx)
  else if bool_decide (ty = "0x3"%string) then
    Some (Some 3, fee_fields tx
                  ++ [qty_tree (tx_max_fee_per_blob_gas tx);
                      Node (map (fun h => Leaf (decode_hex_or_empty h))
                                (default [] (tx_blob_versioned_hashes tx)))])
  else if bool_decide (ty = "0x4"%string) then
    Some (Some 4, fee_fields tx
                  ++ [Node (map authorization_tree (default [] (tx_authorization_list tx)))])
  else if bool_decide (ty = "0x3f"%string) then
    Some (Some 63, fee_fields tx ++ [qty_tree (tx_nonce_key tx); qty_tree (tx_timeout_timestamp tx)])
  else None.

Ltac payload_writes :=
  let Henc := fresh in
  intros Henc; repeat step_ok; simplify_eq; to_trees; unfold wire_bytes; unfold qty;
  rewrite ?blob_list_tree, ?access_list_tree;
  repeat match goal with E : _ = Some _ |- _ => rewrite !E; clear E end;
  cbn [encode_tree map app]; rewrite ?encode_qty.

Lemma sign_fees_ok tx c p f v :
  sign_fees tx = Ok (c, p, f, v) ->
  tx_chain_id tx = Some c /\ tx_max_priority_fee_per_gas tx = Some p /\
  tx_max_fee_per_gas tx = Some f /\ tx_value tx = Some v.
Proof. unfold sign_fees. intros E. repeat step_ok. to_trees. by simplify_eq. Qed.

Lemma payload_writes tx out :
  serialize_transaction_for_signing tx = Ok (Some out) -> tx_tx_type tx <> Some "0x76"%string ->
  exists w, signing_tree tx = Some w /\ out = wire_bytes w.
Proof.
  intros E Htempo. unfold serialize_transaction_for_signing, signing_tree in *.
  assert (default "0x0"%string (tx_tx_type tx) <> "0x76"%string) as Hty.
  { destruct (tx_tx_type tx); cbn; [congruence|done]. }
  generalize dependent (default "0x0"%string (tx_tx_type tx)). intros ty E Hty.
  assert (forall r : Result bytes string, map_ok Some r = Ok (Some out) -> r = Ok out) as Hmap.
  { intros [o|e]; simpl; congruence. }
  case_bool_decide; [eexists; split; [done|]; apply Hmap in E; revert E|].
  { unfold sign_legacy, has_chain_id, qty_tree. intros E. repeat step_ok. revert E.
    destruct (_ && _); payload_writes; done. }
  case_bool_decide; [eexists; split; [done|]; apply Hmap in E; revert E|].
  { unfold sign_eip2930, qty_tree. payload_writes. done. }
  case_bool_decide; [eexists; split; [done|]; apply Hmap in E; revert E|].
  { unfold sign_eip1559, fee_fields, qty_tree.
    destruct (sign_fees tx) as [[[[c p] f] v]|] eqn:Ef; [|done].
    apply sign_fees_ok in Ef as (? & ? & ? & ?). payload_writes. done. }
  case_bool_decide; [eexists; split; [done|]; apply Hmap in E; revert E|].
  { unfold sign_eip4844, fee_fields, qty_tree.
    destruct (sign_fees tx) as [[[[c p] f] v]|] eqn:Ef; [|done].
    apply sign_fees_ok in Ef as (? & ? & ? & ?). payload_writes. done. }
  case_bool_decide; [eexists; split; [done|]; apply Hmap in E; revert E|].
  { unfold sign_eip7702, fee_fields, qty_tree.
    destruct (sign_fees tx) as [[[[c p] f] v]|] eqn:Ef; [|done].
    apply sign_fees_ok in Ef as (? & ? & ? & ?). payload_writes. done. }
  case_bool_decide; [eexists; split; [done|]; apply Hmap in E; revert E|].
  { unfold sign_stable, stable_tx_base_payload, fee_fields, qty_tree.
    destruct (sign_fees tx) as [[[[c p] f] v]|] eqn:Ef; [|done].
    apply sign_fees_ok in Ef as (? & ? & ? & ?). payload_writes. done. }
  case_bool_decide; [done|]. by case_bool_decide.
Qed.

Lemma signing_tree_type tx w : signing_tree tx = Some w -> type_byte_ok w.
Proof. unfold signing_tree. intros Ht ty Hty. repeat case_bool_decide; simplify_eq/=; lia. Qed.

(** The payload a transaction's signature covers is the type byte and one
    RLP list of exactly the transaction's own fields, those of [signing_tree]:
    for a legacy transaction with replay protection the chain id and two zeros
    at the end. It binds them: two transactions with the same payload have the
    same type and the same fields, so no signature is read as one of another
    transaction. Holds for every type but Tempo's. *)
Theorem signing_payload_binds (tx1 tx2 : RpcTransaction) (out : bytes)
    (Htempo1 : tx_tx_type tx1 <> Some "0x76"%string)
    (Htempo2 : tx_tx_type tx2 <> Some "0x76"%string)
    (Hfit : fits out)
    (Hmsg1 : serialize_transaction_for_signing tx1 = Ok (Some out))
    (Hmsg2 : serialize_transaction_for_signing tx2 = Ok (Some out)) :
  exists ty fields,
    signing_tree tx1 = Some (ty, fields) /\ signing_tree tx2 = Some (ty, fields)
    /\ out = wire_bytes (ty, fields).
Proof.
  apply payload_writes in Hmsg1 as (w1 & H1 & ->); [|done].
  apply payload_writes in Hmsg2 as (w2 & H2 & Heq); [|done].
  assert (w1 = w2) as <- by (apply typed_wire_inj; eauto using signing_tree_type).
  destruct w1 as [ty fields]. by exists ty, fields.
Qed.
End payload.

(** ** The recovery id, exactly *)

(** EIP-155's reading of [v]: the id itself, the id above 27, or the id above
    35 and twice the chain id, within a u64. *)
Definition v_encodes (tx : RpcTransaction) (id : N) : Prop :=
  exists v, parse_qty_u128_checked (default "0x0"%string (tx_v tx)) "tx.v" = Ok v /\ id <= 1 /\
    (v = id \/ v = 27 + id \/
     exists cs c, tx_chain_id tx = Some cs /\ parse_qty_u128_checked cs "tx.chainId" = Ok c
                  /\ v = 35 + 2 * c + id /\ v <= u64_max).

Lemma u64_max_val : u64_max = 18446744073709551615.
Proof. done. Qed.

Lemma eip155_base_spec c :
  eip155_base c = if 35 + 2 * c <=? u64_max then Some (35 + 2 * c) else None.
Proof.
  unfold eip155_base. rewrite u64_max_val.
  destruct (N.leb_spec (c * 2) 18446744073709551615),
    (N.leb_spec (35 + 2 * c) 18446744073709551615),
    (N.leb_spec (c * 2 + 35) 18446744073709551615); f_equal; lia.
Qed.

Lemma calculate_sig_recovery_spec tx id : calculate_sig_recovery tx = Ok id <-> v_encodes tx id.
Proof.
  unfold calculate_sig_recovery, v_encodes, u64_try_from. rewrite u64_max_val.
  destruct (parse_qty_u128_checked (default _ _) _) as [v|e]; cbn [ok_or];
    [|by split; [done|intros (? & ? & _)]].
  destruct (N.eqb_spec v 0) as [->|]; [|destruct (N.eqb_spec v 1) as [->|]]; cbn [orb].
  1,2: cbn; split; [intros [= <-]; eexists; split; [done|]; lia
             |intros (v & [= <-] & ? & [->|[?|(? & ? & ? & ? & ? & ?)]]); [done|lia..]].
  destruct (N.eqb_spec v 27) as [->|]; [|destruct (N.eqb_spec v 28) as [->|]]; cbn [orb].
  1,2: cbn; split; [intros [= <-]; eexists; split; [done|]; lia
             |intros (v & [= <-] & ? & [?|[?|(? & ? & ? & ? & ? & ?)]]); [lia|f_equal; lia|lia]].
  destruct (tx_chain_id tx) as [cs|]; cbn [ok_or].
  2: { split; [done|]. intros (w & [= <-] & ? & [?|[?|(? & ? & ? & _)]]); [lia|lia|done]. }
  destruct (parse_qty_u128_checked cs _) as [c|e] eqn:Ec; cbn [ok_or].
  2: { split; [done|].
       intros (w & [= <-] & ? & [?|[?|(? & ? & [= <-] & ? & _)]]); [lia|lia|congruence]. }
  transitivity (id <= 1 /\ v = 35 + 2 * c + id /\ v <= 18446744073709551615).
  - destruct (N.leb_spec c 18446744073709551615); cbn [ok_or]; [|split; [done|lia]].
    destruct (N.leb_spec v 18446744073709551615); cbn [ok_or]; [|split; [done|lia]].
    rewrite eip155_base_spec, u64_max_val.
    destruct (N.leb_spec (35 + 2 * c) 18446744073709551615); cbn [ok_or]; [|split; [done|lia]].
    destruct (N.leb_spec (35 + 2 * c) v); cbn [ok_or]; [|split; [done|lia]].
    destruct (N.ltb_spec 1 (v - (35 + 2 * c))); [split; [done|lia]|].
    split; [intros [= <-]; lia|intros (? & ? & ?); f_equal; lia].
  - split.
    + intros (? & ? & ?). eexists; split; [done|]. split; [done|]. right; right. eauto 10.
    + intros (w & [= <-] & ? & [?|[?|(cs' & c' & [= <-] & Hc & ? & ?)]]); [lia|lia|].
      rewrite Ec in Hc. injection Hc as <-. lia.
Qed.

(** ** A signed transaction is recovered to its signer *)

(** A key pair's public point and its recoverable signature of a hash; the law
    is ECDSA's: recovery from a key's own signature gives its public point. *)
Class Signing (E : Ecdsa) := {
  Key : Type;
  public_point : Key -> bytes;
  sign_prehash : Key -> bytes -> bytes * bytes * N;
  recover_signed key h r s id : sign_prehash key h = (r, s, id) -> id <= 1 ->
    exists sig rid, signature_from_bytes (r ++ s) = Ok sig /\ recovery_id_try_from id = Ok rid
                    /\ recover_from_prehash h sig rid = Ok (public_point key)
}.

Section signers.
Context `{Hex} `{Keccak} `{E : Ecdsa} `{!Signing E}.

(** An account's address: the last 20 bytes of the hash of its point without
    the tag byte. *)
Definition address_of (key : Key) : string :=
  to_hex (drop 12 (keccak256 (drop 1 (public_point key)))).

(** [tx] carries [key]'s signature of [msg], in the fields of its type. *)
Inductive signed_by (key : Key) (msg : bytes) (tx : RpcTransaction) : Prop :=
| Signed_plain r0 s0 r s id :
    tx_tx_type tx <> Some "0x76"%string ->
    tx_r tx = Some r0 -> decode_signature_scalar r0 "tx.r" = Ok r ->
    tx_s tx = Some s0 -> decode_signature_scalar s0 "tx.s" = Ok s ->
    v_encodes tx id ->
    sign_prehash key (keccak256 msg) = (r, s, id) ->
    signed_by key msg tx
| Signed_tempo r0 s0 y v parity r s id :
    tx_tx_type tx = Some "0x76"%string ->
    tx_signature tx = Some (Primitive (Secp256k1 r0 s0 y v)) ->
    match y with Some p => Some p | None => v end = Some parity ->
    decode_signature_scalar r0 "Tempo signature r" = Ok r ->
    decode_signature_scalar s0 "Tempo signature s" = Ok s ->
    parse_qty_u128_checked parity "Tempo signature yParity/v" = Ok id -> id <= 1 ->
    sign_prehash key (keccak256 msg) = (r, s, id) ->
    signed_by key msg tx.

Lemma recover_secp256k1_signed key h r s id :
  sign_prehash key h = (r, s, id) -> id <= 1 ->
  recover_secp256k1_sender h r s id = Ok (address_of key).
Proof.
  intros Hsig Hid. destruct (recover_signed _ _ _ _ _ Hsig Hid) as (sig & rid & Hs & Hr & Hp).
  unfold recover_secp256k1_sender. by rewrite Hs, Hr; cbn [map_err]; rewrite Hp.
Qed.

Lemma u8_try_from_id id : id <= 1 -> u8_try_from id = Ok id.
Proof. intros Hid. unfold u8_try_from. by destruct (N.leb_spec id 255); [|lia]. Qed.
(** The recovery id is exactly what [v] encodes: [v] is 0 or 1, 27 or 28, or
    35 + 2 * chainId + id with everything in a u64 (so no subtraction
    underflows and no product overflows), and the id is 0 or 1; every other
    [v], and a [v] or chain id that is not a quantity, is an error. *)
Theorem recovery_id_exact (tx : RpcTransaction) (id : N) :
  calculate_sig_recovery tx = Ok id <-> v_encodes tx id.
Proof. apply calculate_sig_recovery_spec. Qed.

(** C32: A transaction signed by a key is recovered to that key's address: if the
    signature fields, decoded as the code decodes them, are the key's signature
    of the hash of the transaction's payload, and [v] (or Tempo's parity)
    encodes its recovery id in any of EIP-155's forms, the recovered sender is
    the account's address; and on every chain where the transaction is not one
    of the system's unsigned ones the sender check passes exactly when [from]
    is that address, whatever the case of its digits. *)
Theorem signed_sender_recovered (tx : RpcTransaction) (key : Key) (msg : bytes)
    (Hmsg : serialize_transaction_for_signing tx = Ok (Some msg))
    (Hsigned : signed_by key msg tx) :
  recover_tx_sender tx = Ok (Some (address_of key))
  /\ forall cu, is_unsigned cu tx = false ->
       (check_sender recover_tx_sender cu tx = Ok tt
        <-> eq_ignore_ascii_case (address_of key) (tx_from tx) = true).
Proof.
  assert (recover_tx_sender tx = Ok (Some (address_of key))) as Hrec.
  { unfold recover_tx_sender. rewrite Hmsg.
    destruct Hsigned as [r0 s0 r s id Hty Hr Hdr Hs Hds Hv Hsig
                        |r0 s0 y v parity r s id Hty Ht Hp Hdr Hds Hid Hle Hsig].
    - rewrite bool_decide_false by (destruct (tx_tx_type tx); cbn; [congruence|done]).
      rewrite Hr, Hs. cbn [ok_or]. rewrite Hdr, Hds.
      assert (id <= 1) as Hle by (by destruct Hv as (? & _ & ? & _)).
      apply calculate_sig_recovery_spec in Hv as ->. rewrite (u8_try_from_id _ Hle).
      by rewrite (recover_secp256k1_signed _ _ _ _ _ Hsig Hle).
    - rewrite Hty, bool_decide_true by done. rewrite Ht.
      cbn [ok_or recover_tempo_sender recover_tempo_primitive_sender].
      rewrite Hp. cbn [ok_or]. rewrite Hid. destruct (N.ltb_spec 1 id); [lia|].
      rewrite Hdr, Hds, (u8_try_from_id _ Hle).
      by rewrite (recover_secp256k1_signed _ _ _ _ _ Hsig Hle). }
  split; [done|]. intros cu Hu. unfold check_sender, FetchChecks.recover_tx_sender.
  rewrite Hu, Hrec. cbn [map_err]. by destruct (eq_ignore_ascii_case _ _).
Qed.
End signers.

(** ** Concrete instances *)

(** A scheme that recovers: [r] is the key, [s] a fixed tag. *)
#[export] Instance toy_ecdsa : Ecdsa := {
  Signature := bytes * bytes;
  RecoveryId := N;
  signature_from_bytes b := if bool_decide (length b = 64%nat) then Ok (take 32 b, drop 32 b)
                            else Err "signature error"%string;
  recovery_id_try_from n := if n <=? 3 then Ok n else Err "signature error"%string;
  recover_from_prehash _ sig id :=
    if bool_decide (snd sig = replicate 31 0 ++ [9] /\ id = 1) then Ok (4 :: fst sig ++ fst sig)
    else Err "signature error"%string
}.

Definition toy_key (b : bytes) : bytes := take 32 (b ++ replicate 32 0).

#[export] Program Instance toy_signing : Signing toy_ecdsa := {
  Key := bytes;
  public_point k := 4 :: toy_key k ++ toy_key k;
  sign_prehash k _ := (toy_key k, replicate 31 0 ++ [9], 1)
}.
Next Obligation.
  intros key h r s id [= <- <- <-] _.
  assert (length (toy_key key) = 32%nat) as Hlen.
  { unfold toy_key. rewrite length_take, length_app, length_replicate. lia. }
  exists (toy_key key, replicate 31 0 ++ [9]), 1. cbn -[toy_key replicate].
  rewrite bool_decide_true by (rewrite length_app, Hlen; done).
  rewrite take_app_length', drop_app_length' by done. split_and!; [done..|].
  by rewrite bool_decide_true.
Qed.

Definition toy_signer : bytes := replicate 30 0 ++ [1; 35].

Lemma signed_sender_recovered_witness :
  @recover_tx_sender hex_ref toy_keccak toy_ecdsa (sample_tx "0xAB")
  = Ok (Some (@address_of hex_ref toy_keccak toy_ecdsa toy_signing toy_signer)).
Proof.
  destruct (@serialize_transaction_for_signing hex_ref (sample_tx "0xAB")) as [[msg|]|] eqn:Emsg;
    [|by vm_compute in Emsg..].
  destruct (@signed_sender_recovered hex_ref toy_keccak toy_ecdsa toy_signing
              (sample_tx "0xAB") toy_signer msg Emsg) as [Hr _]; [|exact Hr].
  eapply (Signed_plain _ _ _ "0x123" "0x9" _ _ 1); [done|done|by vm_compute|done|by vm_compute| |done].
  exists 1. split; [by vm_compute|]. split; [done|by left].
Defined.

Lemma signing_payload_binds_witness :
  exists out ty fields,
    signing_tree (H := hex_ref) (sample_tx "0xAB") = Some (ty, fields)
    /\ signing_tree (H := hex_ref) (sample_tx "0xab") = Some (ty, fields)
    /\ out = wire_bytes (ty, fields).
Proof.
  destruct (@serialize_transaction_for_signing hex_ref (sample_tx "0xAB")) as [[msg|]|] eqn:Emsg;
    [|by vm_compute in Emsg..].
  exists msg. apply (@signing_payload_binds hex_ref (sample_tx "0xAB") (sample_tx "0xab") msg);
    [done|done| |done|rewrite <- Emsg; by vm_compute].
  vm_compute in Emsg. injection Emsg as <-. by vm_compute.
Defined.

(** The parity a typed transaction commits to and the one its recovery uses
    are read from different fields: an EIP-7702 transaction with [yParity] and no
    [v] is encoded with its parity, and recovered with recovery id 0. *)
Lemma parity_not_read tx :
  tx_v tx = None -> calculate_sig_recovery tx = Ok 0.
Proof. unfold calculate_sig_recovery. by intros ->. Qed.
