(* ===== verification/Components.v ===== *)
(** * Components: traces and state diffs of a block (fetch.rs)

    How the fetch layer turns a trace answer into a component of the block, or
    into the reason the block is incoherent: entries matched by position or by
    label, replays counted against the block's transactions, flat traces
    grouped by transaction. The theorems say exactly which answers are
    accepted and what is then served. *)
From stdpp Require Import pretty gmap.
From Stdlib Require Import Strings.Ascii.
From S2P Require Import Prelude RpcClient RpcData Rlp TxEncode ChainUtils Frames EvmTypes RawBlock FetchChecks.

Local Open Scope rust_scope.

(** ** Components: an answer, or why the block is incoherent *)

Section components.
Context {Value : Type} `{Json Value}.
Context (error_text : RpcError (Value := Value) -> string).
Implicit Types block : RawRpcBlock Value.

Definition blk block (msg : string) : string :=
  ("block " +:+ pretty (raw_number block) +:+ ": " +:+ msg)%string.

Definition quote (s : string) : string :=
  String (Ascii.ascii_of_nat 34) (s +:+ String (Ascii.ascii_of_nat 34) "")%string.

Definition transactions block : list RpcTransaction := blk_transactions (raw_block block).

Definition unwrap_component (result : Result Value (RpcError (Value := Value))) (what : string) block
    : Result (list Value) string :=
  match result with
  | Err e => Err (blk block (what +:+ " unavailable: " +:+ error_text e)%string)
  | Ok v =>
      match json_view v with
      | ViewNull => Err (blk block (what +:+ " not available yet")%string)
      | ViewArray arr => Ok arr
      | _ => Err (blk block (what +:+ " payload is not an array")%string)
      end
  end.

Definition parse_entry {A} (from_value : Value -> Result A string) (item : Value) (what : string)
    block : Result A string :=
  map_err (fun e => blk block ("unparsable " +:+ what +:+ ": " +:+ e)%string) (from_value item).

Definition check_frame_label (tx_hash_label : option string) (position : nat) block
    : Result unit string :=
  match tx_hash_label with
  | None => Ok tt
  | Some labelled =>
      let expected := match transactions block !! position with
                      | Some tx => tx_hash tx | None => ""%string end in
      if eq_ignore_ascii_case labelled expected then Ok tt
      else Err (blk block ("trace result at position " +:+ pretty position
                  +:+ " is labelled with transaction " +:+ labelled +:+ ", expected " +:+ expected)%string)
  end.

Definition invalid_frames block (tx : RpcTransaction) (violation : string) : string :=
  blk block ("invalid debug call frames for transaction " +:+ tx_hash tx +:+ ": " +:+ violation)%string.

(** The walk over the frames; what is only logged is left out. *)
Fixpoint validate_frames_from (position : nat) (frames : list (option DebugFrameResult)) block
    (mode : CallFrameValidationMode) : Result unit string :=
  match frames with
  | [] => Ok tt
  | None :: frames => validate_frames_from (S position) frames block mode
  | Some frame :: frames =>
      match transactions block !! position with
      | None => Err (blk block ("debug call frame at position " +:+ pretty position
                       +:+ " has no transaction")%string)
      | Some transaction =>
          let? _ := check_frame_label (dfr_tx_hash frame) position block in
          match check_debug_frame_structure (dfr_result frame) with
          | Some violation => Err (invalid_frames block transaction violation)
          | None =>
              if bool_decide (mode = Off) then validate_frames_from (S position) frames block mode
              else match check_call_frame_tree transaction (dfr_result frame) with
              | None => validate_frames_from (S position) frames block mode
              | Some violation =>
                  if bool_decide (mode = Reject)
                  then Err (invalid_frames block transaction violation)
                  else validate_frames_from (S position) frames block mode
              end
          end
      end
  end.

Definition validate_debug_frames (frames : list (option DebugFrameResult)) block
    (mode : CallFrameValidationMode) : Result (list (option DebugFrameResult)) string :=
  let? _ := validate_frames_from 0 frames block mode in Ok frames.

(** The index of each transaction by its hash; of equal hashes the last. *)
Definition tx_index (txs : list RpcTransaction) : gmap string nat :=
  foldl (fun m p => <[tx_hash p.2 := p.1]> m) ∅ (imap pair txs).

Fixpoint match_items {A} (from_value : Value -> Result A string) (index : gmap string nat)
    (what : string) block (arr : list Value) (mapped : list (option A)) : Result (list (option A)) string :=
  match arr with
  | [] => Ok mapped
  | item :: arr =>
      let position := match json_get "txHash" item with
                      | Some v => match json_as_str v with
                                  | Some h => index !! h
                                  | None => None
                                  end
                      | None => None
                      end in
      match position with
      | Some position =>
          let? entry := parse_entry from_value item what block in
          match_items from_value index what block arr (<[position := Some entry]> mapped)
      | None => match_items from_value index what block arr mapped
      end
  end.

Definition match_by_tx_hash {A} (from_value : Value -> Result A string) (arr : list Value) block
    (what : string) (tolerate_gaps : bool) : Result (list (option A)) string :=
  let txs := transactions block in
  let? mapped := match_items from_value (tx_index txs) what block arr (replicate (length txs) None) in
  if tolerate_gaps then Ok mapped
  else match list_find (fun e => e = None) mapped with
       | Some (missing, _) =>
           Err (blk block ("no " +:+ what +:+ " for transaction " +:+ pretty missing +:+ " of "
                             +:+ pretty (length mapped))%string)
       | None => Ok mapped
       end.

(** Moonbeam may return frames without the [result] wrapper. *)
Definition wrap_item (item : Value) : Value :=
  match json_view item with
  | ViewObject => match json_get "result" item with
                  | None => json_object [("result"%string, item)]
                  | Some _ => item
                  end
  | _ => item
  end.

Definition debug_frames_of (mode : CallFrameValidationMode) (tolerate_gaps : bool)
    (result : Result Value (RpcError (Value := Value))) block
    : Result (list (option DebugFrameResult)) string :=
  let? arr := unwrap_component result "execution traces" block in
  let arr := wrap_item <$> arr in
  let? frames :=
    if (length (transactions block) =? length arr)%nat
    then collect_results ((fun item => map_ok Some (parse_entry from_value_frame item "trace frame" block)) <$> arr)
    else match_by_tx_hash from_value_frame arr block "execution traces" tolerate_gaps in
  validate_debug_frames frames block mode.

Definition labelled_diff block (j : nat) (item : Value)
    : Result (option (DebugStateDiffResult Value)) string :=
  let? diff := parse_entry from_value_diff item "state diff" block in
  let? _ := check_frame_label (dsr_tx_hash diff) j block in
  Ok (Some diff).

Definition debug_diffs_of (tolerate_gaps : bool) (result : Result Value (RpcError (Value := Value))) block
    : Result (list (option (DebugStateDiffResult Value))) string :=
  let? arr := unwrap_component result "state diffs" block in
  if (length (transactions block) =? length arr)%nat
  then collect_results (imap (labelled_diff block) arr)
  else match_by_tx_hash from_value_diff arr block "state diffs" tolerate_gaps.

(** ** Trace replays *)

Definition frames_of (rep : TraceTransactionReplay Value) : list TraceFrame :=
  match ttr_trace rep with Some l => l | None => [] end.

(** [find_map]. *)
Fixpoint find_map {A B} (f : A -> option B) (l : list A) : option B :=
  match l with
  | [] => None
  | x :: l => match f x with Some y => Some y | None => find_map f l end
  end.

(** An entry that names no transaction takes the name of its first labelled frame. *)
Definition attribute_replay (rep : TraceTransactionReplay Value) : TraceTransactionReplay Value :=
  match ttr_transaction_hash rep with
  | Some _ => rep
  | None => mkTraceTransactionReplay (ttr_output rep) (ttr_state_diff rep) (ttr_trace rep)
              (find_map tf_transaction_hash (frames_of rep))
  end.

Definition foreign_frame (hash : string) (frame : TraceFrame) : option string :=
  match tf_transaction_hash frame with
  | Some h => if negb (eq_ignore_ascii_case h hash) then Some h else None
  | None => None
  end.

Definition check_replay (tracers : list string) (what : string) block
    (rep : TraceTransactionReplay Value) : Result string string :=
  match ttr_transaction_hash rep with
  | None => Err (blk block ("a " +:+ what +:+ " entry names no transaction")%string)
  | Some hash =>
      match find_map (foreign_frame hash) (frames_of rep) with
      | Some foreign =>
          Err (blk block ("the " +:+ what +:+ " of transaction " +:+ hash
                 +:+ " carries a frame of transaction " +:+ foreign)%string)
      | None =>
          if bool_decide ("trace"%string ∈ tracers) && bool_decide (frames_of rep = []) then
            Err (blk block ("the " +:+ what +:+ " of transaction " +:+ hash +:+ " carries no trace")%string)
          else if bool_decide ("stateDiff"%string ∈ tracers) && negb (is_some (ttr_state_diff rep)) then
            Err (blk block ("the " +:+ what +:+ " of transaction " +:+ hash +:+ " carries no state diff")%string)
          else Ok hash
      end
  end.

(** The check of each entry in turn, counting the hashes named. *)
Fixpoint count_replays (tracers : list string) (what : string) block
    (reps : list (TraceTransactionReplay Value)) (counts : gmap string nat)
    : Result (gmap string nat) string :=
  match reps with
  | [] => Ok counts
  | rep :: reps =>
      let? hash := check_replay tracers what block rep in
      count_replays tracers what block reps (<[hash := S (default 0 (counts !! hash))]> counts)
  end.

Fixpoint take_counts (what : string) block (txs : list RpcTransaction) (counts : gmap string nat)
    : Result (gmap string nat) string :=
  match txs with
  | [] => Ok counts
  | tx :: txs =>
      match counts !! tx_hash tx with
      | None => Err (blk block ("no " +:+ what +:+ " for transaction " +:+ tx_hash tx)%string)
      | Some 1 => take_counts what block txs (delete (tx_hash tx) counts)
      | Some n => Err (blk block (pretty n +:+ " " +:+ what +:+ " for transaction " +:+ tx_hash tx)%string)
      end
  end.

(** The key a [HashMap] yields first is arbitrary; it only shows in the text. *)
Definition replays_of (result : Result Value (RpcError (Value := Value))) block (tracers : list string)
    (what : string) : Result (list (TraceTransactionReplay Value)) string :=
  let? arr := unwrap_component result what block in
  let? replays := collect_results
    ((fun item => parse_entry from_value_replay item "trace replay" block) <$> arr) in
  let replays := attribute_replay <$> replays in
  let? counts := count_replays tracers what block replays ∅ in
  let? counts := take_counts what block (transactions block) counts in
  match map_to_list counts with
  | (foreign, _) :: _ =>
      Err (blk block (what +:+ " name transaction " +:+ foreign +:+ ", which is not in this block")%string)
  | [] => Ok replays
  end.

(** Group the frames by transaction, in the order first seen. *)
Fixpoint group_frames (frames : list TraceFrame) (position_by_tx : gmap string nat)
    (groups : list (string * list TraceFrame)) : gmap string nat * list (string * list TraceFrame) :=
  match frames with
  | [] => (position_by_tx, groups)
  | frame :: frames =>
      match tf_transaction_hash frame with
      | None => group_frames frames position_by_tx groups
      | Some tx =>
          match position_by_tx !! tx with
          | Some position =>
              group_frames frames position_by_tx
                (alter (fun g => (g.1, g.2 ++ [frame])) position groups)
          | None =>
              group_frames frames (<[tx := length groups]> position_by_tx)
                (groups ++ [(tx, [frame])])
          end
      end
  end.

(** [{:?}] of an optional hash: no character of it needs an escape. *)
Definition debug_option (o : option string) : string :=
  match o with
  | Some h => "Some(" +:+ quote h +:+ ")"
  | None => "None"
  end%string.

Definition foreign_block block (frame : TraceFrame) : bool :=
  match tf_block_hash frame with
  | None => true
  | Some h => negb (eq_ignore_ascii_case h (raw_hash block))
  end.

Definition trace_block_replays (result : Result Value (RpcError (Value := Value))) block
    : Result (list (TraceTransactionReplay Value)) string :=
  let? arr := unwrap_component result "block traces" block in
  let? frames := collect_results
    ((fun item => parse_entry from_value_trace_frame item "trace frame" block) <$> arr) in
  match List.find (foreign_block block) frames with
  | Some foreign =>
      Err (blk block ("trace_block answered with a frame of block "
             +:+ debug_option (tf_block_hash foreign))%string)
  | None =>
      let (position_by_tx, groups) := group_frames frames ∅ [] in
      match List.find (fun tx => negb (is_some (position_by_tx !! tx_hash tx))) (transactions block) with
      | Some tx => Err (blk block ("trace_block returned no traces for transaction " +:+ tx_hash tx)%string)
      | None => Ok ((fun g => mkTraceTransactionReplay None None (Some g.2) (Some g.1)) <$> groups)
      end
  end.
End components.

(** ** Replays: exactly one per transaction *)

Definition occurrences (h : string) (hashes : list string) : nat :=
  length (filter (fun x => x = h) hashes).

Definition count_hash (counts : gmap string nat) (h : string) : gmap string nat :=
  <[h := S (default 0 (counts !! h))]> counts.

Lemma count_hash_occurrences hashes counts h :
  default 0 (foldl count_hash counts hashes !! h) = default 0 (counts !! h) + occurrences h hashes.
Proof.
  revert counts. unfold occurrences. induction hashes as [|x hashes IH]; intros counts; simpl; [lia|].
  rewrite IH, filter_cons. unfold count_hash. destruct (decide (x = h)) as [->|Hne].
  - rewrite lookup_insert_eq. simpl. lia.
  - by rewrite lookup_insert_ne.
Qed.

Lemma count_hash_some hashes counts h :
  is_Some (foldl count_hash counts hashes !! h) <-> is_Some (counts !! h) \/ h ∈ hashes.
Proof.
  revert counts. induction hashes as [|x hashes IH]; intros counts; simpl; [set_solver|].
  rewrite IH, elem_of_cons. unfold count_hash. destruct (decide (x = h)) as [->|Hne].
  - rewrite lookup_insert_eq. split; [by auto|]. intros _. left. by eexists.
  - rewrite lookup_insert_ne by done. naive_solver.
Qed.

(** Taking one of each from the counts leaves nothing exactly when every hash
    occurs once in both lists. *)
Fixpoint take_each (txs : list string) (counts : gmap string nat) : option (gmap string nat) :=
  match txs with
  | [] => Some counts
  | h :: txs => match counts !! h with
                | Some 1 => take_each txs (delete h counts)
                | _ => None
                end
  end.

Lemma take_each_spec txs counts rest :
  take_each txs counts = Some rest <->
  NoDup txs /\ (forall h, h ∈ txs -> counts !! h = Some 1)
  /\ rest = foldl (fun m h => delete h m) counts txs.
Proof.
  revert counts. induction txs as [|x txs IH]; intros counts; simpl.
  { split; [intros [= <-]|by intros (_ & _ & ->)]. split; [constructor|set_solver]. }
  rewrite NoDup_cons. destruct (decide (counts !! x = Some 1)) as [Hx|Hx].
  - rewrite Hx, IH. split.
    + intros (Hnd & Hc & ->). assert (x ∉ txs) as Hnx.
      { intros Hin. specialize (Hc x Hin). by rewrite lookup_delete_eq in Hc. }
      split_and!; [done|done| |done]. intros h [->|Hin]%elem_of_cons; [done|].
      specialize (Hc h Hin). apply lookup_delete_Some in Hc. naive_solver.
    + intros ([Hnx Hnd] & Hc & ->). split_and!; [done| |done]. intros h Hin.
      rewrite lookup_delete_ne by (intros ->; done). apply Hc. by right.
  - destruct (counts !! x) as [[|[|n]]|] eqn:E; try done.
    all: split; [done|]; intros (_ & Hc & _); specialize (Hc x ltac:(left)); congruence.
Qed.

Lemma foldl_delete_lookup (txs : list string) (counts : gmap string nat) h :
  foldl (fun m h => delete h m) counts txs !! h = if decide (h ∈ txs) then None else counts !! h.
Proof.
  revert counts. induction txs as [|x txs IH]; intros counts; cbn [foldl].
  { by rewrite decide_False by set_solver. }
  rewrite IH. destruct (decide (h ∈ txs)) as [Hin|Hnin].
  - by rewrite decide_True by set_solver.
  - destruct (decide (h = x)) as [->|Hne].
    + rewrite lookup_delete_eq, decide_True by set_solver. done.
    + by rewrite lookup_delete_ne, decide_False by set_solver.
Qed.

Lemma occurrences_NoDup hashes :
  NoDup hashes <-> forall h, h ∈ hashes -> occurrences h hashes = 1.
Proof.
  unfold occurrences. induction hashes as [|x l IH].
  { split; [set_solver|constructor]. }
  rewrite NoDup_cons, IH. split.
  - intros [Hx Hl] h. rewrite filter_cons. intros [->|Hin]%elem_of_cons.
    + rewrite decide_True by done. simpl. f_equal.
      destruct (filter _ l) as [|y k] eqn:E; [done|].
      assert (y ∈ filter (fun z => z = x) l) as [-> ?]%list_elem_of_filter by (rewrite E; left). done.
    + rewrite decide_False by (intros ->; done). by apply Hl.
  - intros H. assert (x ∉ l) as Hx.
    { intros Hin. specialize (H x ltac:(left)). rewrite filter_cons, decide_True in H by done.
      simpl in H. injection H as H. apply length_zero_iff_nil in H.
      assert (x ∈ filter (fun z => z = x) l) as Hf by (by apply list_elem_of_filter).
      rewrite H in Hf. by apply elem_of_nil in Hf. }
    split; [done|]. intros h Hin. specialize (H h ltac:(by right)).
    rewrite filter_cons, decide_False in H by (intros ->; done). done.
Qed.

Lemma counts_taken hashes txs :
  (exists rest, take_each txs (foldl count_hash ∅ hashes) = Some rest /\ rest = ∅)
  <-> hashes ≡ₚ txs /\ NoDup txs.
Proof.
  assert (forall h, foldl count_hash ∅ hashes !! h = Some 1 -> occurrences h hashes = 1) as Hocc.
  { intros h Hh. pose proof (count_hash_occurrences hashes ∅ h) as E. rewrite Hh in E.
    rewrite lookup_empty in E. simpl in E. lia. }
  split.
  - intros (rest & (Hnd & Hone & ->)%take_each_spec & Hempty). split; [|done].
    assert (forall h, h ∈ hashes <-> h ∈ txs) as Hmem.
    { intros h. assert (is_Some (foldl count_hash ∅ hashes !! h) <-> h ∈ hashes) as <-.
      { rewrite count_hash_some, lookup_empty. split; [|by right].
        intros [[? [=]]|]; done. }
      split; [|intros Hin; rewrite Hone by done; by eexists].
      intros Hs. pose proof (foldl_delete_lookup txs (foldl count_hash ∅ hashes) h) as E.
      rewrite Hempty, lookup_empty in E. destruct (decide (h ∈ txs)); [done|].
      destruct Hs as [? Hs]. congruence. }
    apply NoDup_Permutation; [|done|done]. apply occurrences_NoDup.
    intros h Hin. apply Hocc, Hone. by apply Hmem.
  - intros [Hp Hnd]. eexists. split; [apply take_each_spec; split_and!; [done| |done]|].
    + intros h Hin. assert (h ∈ hashes) as Hh by (by rewrite Hp).
      destruct (proj2 (count_hash_some hashes ∅ h) (or_intror Hh)) as [n Hn]. rewrite Hn. f_equal.
      pose proof (count_hash_occurrences hashes ∅ h) as E. rewrite Hn, lookup_empty in E.
      simpl in E. rewrite E. apply occurrences_NoDup; [by rewrite Hp|done].
    + apply map_eq. intros h. rewrite foldl_delete_lookup, lookup_empty.
      destruct (decide (h ∈ txs)) as [|Hn]; [done|]. apply eq_None_not_Some.
      intros [[? Hs]|Hin]%count_hash_some; [by rewrite lookup_empty in Hs|].
      apply Hn. by rewrite <- Hp.
Qed.

Section replay_theorems.
Context {Value : Type} `{Json Value}.
Context (error_text : RpcError (Value := Value) -> string).
Implicit Types block : RawRpcBlock Value.

Lemma take_counts_spec what block txs counts rest :
  take_counts what block txs counts = Ok rest <-> take_each (tx_hash <$> txs) counts = Some rest.
Proof.
  revert counts. induction txs as [|tx txs IH]; intros counts; simpl.
  { split; congruence. }
  destruct (counts !! tx_hash tx) as [[|[|n]]|]; done || apply IH.
Qed.

Lemma count_replays_spec tracers what block reps counts counts' :
  count_replays tracers what block reps counts = Ok counts' <->
  exists hashes, Forall2 (fun rep h => check_replay tracers what block rep = Ok h) reps hashes
    /\ counts' = foldl count_hash counts hashes.
Proof.
  revert counts. induction reps as [|rep reps IH]; intros counts; cbn [count_replays].
  { split; [intros [= <-]; exists []; by split|]. intros (hashes & Hf & ->).
    by inversion Hf. }
  destruct (check_replay tracers what block rep) as [h|e] eqn:E.
  - rewrite IH. split.
    + intros (hashes & Hf & ->). exists (h :: hashes). split; [by constructor|done].
    + intros (hashes & Hf & ->). inversion Hf as [|? h' ? hs Hh Hf']; subst.
      assert (h' = h) as -> by congruence. by exists hs.
  - split; [done|]. intros (hashes & Hf & _). inversion Hf; subst. congruence.
Qed.

(** What a replay has to be for the transaction it names. *)
Definition replay_complete (tracers : list string) (h : string)
    (rep : TraceTransactionReplay Value) : Prop :=
  ttr_transaction_hash rep = Some h
  /\ (forall f g, f ∈ frames_of rep -> tf_transaction_hash f = Some g -> eq_ignore_ascii_case g h = true)
  /\ ("trace"%string ∈ tracers -> frames_of rep <> [])
  /\ ("stateDiff"%string ∈ tracers -> is_Some (ttr_state_diff rep)).

Lemma parse_entries {A} (from_value : Value -> Result A string) what block arr (parsed : list A) :
  collect_results ((fun item => parse_entry from_value item what block) <$> arr) = Ok parsed
  <-> Forall2 (fun item x => from_value item = Ok x) arr parsed.
Proof.
  revert parsed. induction arr as [|item arr IH]; intros parsed; simpl.
  { split; [intros [= <-]; constructor|by inversion 1]. }
  unfold parse_entry at 1. destruct (from_value item) as [x|e] eqn:E; simpl.
  - destruct (collect_results _) as [t|e] eqn:Et.
    + split; [intros [= <-]; constructor; [done|by apply IH]|].
      inversion 1 as [|? x' ? t' Hr Ht]; subst. apply IH in Ht. congruence.
    + split; [done|]. inversion 1 as [|? x' ? t' Hr Ht]; subst. apply IH in Ht. congruence.
  - split; [done|]. inversion 1; subst. congruence.
Qed.

Lemma Forall2_same_hashes tracers hs hs' reps :
  Forall2 (replay_complete tracers) hs reps -> Forall2 (replay_complete tracers) hs' reps -> hs = hs'.
Proof.
  intros Hf. revert hs'. induction Hf as [|h rep hs reps Hh _ IH]; intros hs' Hf'.
  - by inversion Hf'.
  - inversion Hf' as [|h' ? hs1 ? Hh' Hf1]; subst. f_equal; [|by apply IH].
    destruct Hh as [E _], Hh' as [E' _]. congruence.
Qed.

Lemma find_map_none {A B} (f : A -> option B) l :
  find_map f l = None <-> forall x, x ∈ l -> f x = None.
Proof.
  induction l as [|x l IH]; simpl; [split; [by intros _ x ?%elem_of_nil|done]|].
  destruct (f x) eqn:E.
  - split; [done|]. intros Hl. rewrite (Hl x ltac:(left)) in E. done.
  - rewrite IH. split.
    + intros Hl y [->|Hy]%elem_of_cons; [done|by apply Hl].
    + intros Hl y Hy. apply Hl. by right.
Qed.

Lemma foreign_frames_none h frames :
  find_map (foreign_frame h) frames = None <->
  forall f g, f ∈ frames -> tf_transaction_hash f = Some g -> eq_ignore_ascii_case g h = true.
Proof.
  rewrite find_map_none. unfold foreign_frame. split.
  - intros Hn f g Hf Hg. specialize (Hn f Hf). rewrite Hg in Hn.
    by destruct (eq_ignore_ascii_case g h).
  - intros Hn f Hf. destruct (tf_transaction_hash f) as [g|] eqn:Hg; [|done].
    by rewrite (Hn f g Hf Hg).
Qed.

Lemma check_replay_spec tracers what block rep h :
  check_replay tracers what block rep = Ok h <-> replay_complete tracers h rep.
Proof.
  unfold check_replay, replay_complete. destruct (ttr_transaction_hash rep) as [h'|]; [|naive_solver].
  destruct (find_map (foreign_frame h') (frames_of rep)) as [g|] eqn:Ef.
  { split; [done|]. intros ([= ->] & Hn & _). apply foreign_frames_none in Hn. congruence. }
  rewrite foreign_frames_none in Ef.
  destruct (bool_decide ("trace"%string ∈ tracers) && bool_decide (frames_of rep = [])) eqn:Et.
  { apply andb_true_iff in Et as [Et1%bool_decide_eq_true Et2%bool_decide_eq_true].
    split; [done|]. intros (_ & _ & Hn & _). by destruct (Hn Et1). }
  destruct (bool_decide ("stateDiff"%string ∈ tracers) && negb (is_some (ttr_state_diff rep))) eqn:Es.
  { apply andb_true_iff in Es as [Es1%bool_decide_eq_true Es2].
    split; [done|]. intros (_ & _ & _ & Hn). destruct (Hn Es1) as [? E]. by rewrite E in Es2. }
  apply andb_false_iff in Et. apply andb_false_iff in Es.
  split; [intros [= <-]|intros ([= ->] & _); done]. split_and!; [done|done| |].
  - intros Hin. destruct Et as [Et|Et]; [by apply bool_decide_eq_false in Et|].
    by apply bool_decide_eq_false in Et.
  - intros Hin. destruct Es as [Es|Es]; [by apply bool_decide_eq_false in Es|].
    destruct (ttr_state_diff rep); [by eexists|done].
Qed.

Lemma replays_of_spec result block tracers what reps :
  replays_of error_text result block tracers what = Ok reps <->
  exists arr parsed hashes,
    unwrap_component error_text result what block = Ok arr
    /\ Forall2 (fun item rep => from_value_replay item = Ok rep) arr parsed
    /\ reps = attribute_replay <$> parsed
    /\ Forall2 (replay_complete tracers) hashes reps
    /\ hashes ≡ₚ tx_hash <$> transactions block /\ NoDup (tx_hash <$> transactions block).
Proof.
  pose proof (fun arr parsed => parse_entries from_value_replay "trace replay" block arr parsed) as Hparse.
  assert (forall reps hashes, Forall2 (fun rep h => check_replay tracers what block rep = Ok h) reps hashes
    <-> Forall2 (replay_complete tracers) hashes reps) as Hcheck.
  { intros rs hs. split; induction 1; constructor; try done; by apply (check_replay_spec _ what block). }
  unfold replays_of. destruct (unwrap_component error_text result what block) as [arr|e].
  2:{ split; [done|]. by intros (? & ? & ? & ? & _). }
  destruct (collect_results _) as [parsed|e] eqn:Ep.
  2:{ split; [done|]. intros (arr' & parsed & _ & [= <-] & Hf & _). apply Hparse in Hf. congruence. }
  assert (forall arr' parsed', Ok arr = Ok (E := string) arr' ->
    Forall2 (fun item rep => from_value_replay item = Ok rep) arr' parsed' -> parsed' = parsed) as Huniq.
  { intros arr' parsed' [= <-] Hf%Hparse. congruence. }
  apply Hparse in Ep.
  assert (forall counts, count_replays tracers what block (attribute_replay <$> parsed) ∅ = Ok counts <->
    exists hashes, Forall2 (replay_complete tracers) hashes (attribute_replay <$> parsed)
      /\ counts = foldl count_hash ∅ hashes) as Hcount.
  { intros counts. rewrite count_replays_spec. split; intros (hs & Hf & ->); exists hs;
      (split; [by apply Hcheck|done]). }
  destruct (count_replays _ _ _ _ _) as [counts|e] eqn:Ec.
  2:{ split; [done|]. intros (arr' & parsed' & hashes & Ea & Hf & -> & Hc & _).
      rewrite (Huniq _ _ Ea Hf) in Hc. assert (Err e = Ok (foldl count_hash ∅ hashes)) as E'; [|done].
      apply Hcount. by exists hashes. }
  destruct (proj1 (Hcount counts) eq_refl) as (hashes & Hc & ->).
  destruct (take_counts _ _ _ _) as [rest|e] eqn:Et.
  - apply take_counts_spec in Et. destruct (map_to_list rest) as [|[foreign n] l] eqn:Em.
    + apply map_to_list_empty_iff in Em. split.
      * intros [= <-]. exists arr, parsed, hashes. split_and!; try done.
        all: eapply (proj1 (counts_taken hashes (tx_hash <$> transactions block))); by exists rest.
      * intros (arr' & parsed' & hs & Ea & Hf & -> & _). by rewrite (Huniq _ _ Ea Hf).
    + split; [done|]. intros (arr' & parsed' & hs & Ea & Hf & -> & Hc' & Hp).
      rewrite (Huniq _ _ Ea Hf) in Hc'. apply counts_taken in Hp as (rest' & Ht' & ->).
      pose proof (Forall2_same_hashes _ _ _ _ Hc' Hc) as ->.
      rewrite Et in Ht'. by simplify_eq.
  - split; [done|]. intros (arr' & parsed' & hs & Ea & Hf & -> & Hc' & Hp).
    rewrite (Huniq _ _ Ea Hf) in Hc'. apply counts_taken in Hp as (rest' & Ht' & ->).
    pose proof (Forall2_same_hashes _ _ _ _ Hc' Hc) as ->.
    apply take_counts_spec with (what := what) (block := block) in Ht'. congruence.
Qed.

(** The replays of a block are accepted exactly when they are the block's:
    the payload is an array of well-formed entries that name, or whose frames
    name, a transaction each, the hashes named are the block's transactions,
    each once and no other, and every entry carries the tracers asked for and
    only frames of its own transaction. *)
Theorem replays_of_exact result block tracers what reps :
  replays_of error_text result block tracers what = Ok reps <->
  exists arr parsed hashes,
    unwrap_component error_text result what block = Ok arr
    /\ Forall2 (fun item rep => from_value_replay item = Ok rep) arr parsed
    /\ reps = attribute_replay <$> parsed
    /\ Forall2 (replay_complete tracers) hashes reps
    /\ hashes ≡ₚ tx_hash <$> transactions block /\ NoDup (tx_hash <$> transactions block).
Proof. apply replays_of_spec. Qed.
End replay_theorems.

(** ** Block traces: the frames grouped by transaction *)

(** The reference grouping: the transactions in the order first seen, each
    with its frames in the order reported. *)
Fixpoint first_seen (seen : list string) (l : list string) : list string :=
  match l with
  | [] => []
  | x :: l => if bool_decide (x ∈ seen) then first_seen seen l
              else x :: first_seen (seen ++ [x]) l
  end.

Definition frames_for (tx : string) (frames : list TraceFrame) : list TraceFrame :=
  filter (fun f => tf_transaction_hash f = Some tx) frames.

Definition named (frames : list TraceFrame) : list string := omap tf_transaction_hash frames.

Definition reference_groups (frames : list TraceFrame) : list (string * list TraceFrame) :=
  (fun tx => (tx, frames_for tx frames)) <$> first_seen [] (named frames).

Definition positions_of (pos : gmap string nat) (groups : list (string * list TraceFrame)) : Prop :=
  NoDup groups.*1 /\ forall tx i, pos !! tx = Some i <-> groups.*1 !! i = Some tx.

Lemma positions_of_mem pos groups tx :
  positions_of pos groups -> (pos !! tx = None <-> tx ∉ groups.*1).
Proof.
  intros [_ Hp]. split.
  - intros Hn [i Hi]%list_elem_of_lookup. apply Hp in Hi. congruence.
  - intros Hn. apply eq_None_not_Some. intros [i Hi]. apply Hn. apply Hp in Hi.
    by eapply list_elem_of_lookup_2.
Qed.

Definition extend_groups (frames : list TraceFrame) (groups : list (string * list TraceFrame)) :=
  ((fun g => (g.1, g.2 ++ frames_for g.1 frames)) <$> groups)
  ++ ((fun tx => (tx, frames_for tx frames)) <$> first_seen groups.*1 (named frames)).

Lemma frames_for_cons tx f frames :
  frames_for tx (f :: frames)
  = if decide (tf_transaction_hash f = Some tx) then f :: frames_for tx frames else frames_for tx frames.
Proof. unfold frames_for. by rewrite filter_cons. Qed.

Lemma alter_keys i g (groups : list (string * list TraceFrame)) (f : TraceFrame) :
  groups !! i = Some g -> (alter (fun g => (g.1, g.2 ++ [f])) i groups).*1 = groups.*1.
Proof.
  intros Hi. apply list_eq. intros j. rewrite !list_lookup_fmap.
  destruct (decide (i = j)) as [->|Hne].
  - by rewrite list_lookup_alter_eq, Hi.
  - by rewrite list_lookup_alter_ne.
Qed.

Lemma first_seen_ext seen seen' l :
  (forall x, x ∈ seen <-> x ∈ seen') -> first_seen seen l = first_seen seen' l.
Proof.
  revert seen seen'. induction l as [|x l IH]; intros seen seen' Hs; simpl; [done|].
  rewrite (bool_decide_ext _ _ (Hs x)). destruct (bool_decide _); [by apply IH|].
  f_equal. apply IH. set_solver.
Qed.

Lemma first_seen_new seen l x : x ∈ first_seen seen l -> x ∉ seen.
Proof.
  revert seen. induction l as [|y l IH]; intros seen; simpl; [by intros ?%elem_of_nil|].
  case_bool_decide; [by apply IH|]. intros [->|Hx]%elem_of_cons; [done|].
  apply IH in Hx. set_solver.
Qed.

Lemma extend_groups_known frame frames tx i groups fs :
  NoDup groups.*1 -> groups !! i = Some (tx, fs) -> tf_transaction_hash frame = Some tx ->
  extend_groups frames (alter (fun g => (g.1, g.2 ++ [frame])) i groups)
  = extend_groups (frame :: frames) groups.
Proof.
  intros Hnd Hi Htx. unfold extend_groups. rewrite (alter_keys _ _ _ _ Hi). f_equal.
  - apply list_eq. intros j. rewrite !list_lookup_fmap.
    destruct (decide (i = j)) as [->|Hne].
    + rewrite list_lookup_alter_eq, Hi. simpl. rewrite frames_for_cons, decide_True by done.
      by rewrite <- app_assoc.
    + rewrite list_lookup_alter_ne by done. destruct (groups !! j) as [[tx' fs']|] eqn:Hj; [|done].
      simpl. rewrite frames_for_cons, decide_False; [done|]. rewrite Htx. intros [= ->].
      apply Hne. eapply NoDup_lookup; [exact Hnd|rewrite list_lookup_fmap, Hi|rewrite list_lookup_fmap, Hj]; done.
  - assert (tx ∈ groups.*1) as Hin.
    { apply list_elem_of_lookup. exists i. by rewrite list_lookup_fmap, Hi. }
    unfold named. simpl. rewrite Htx. simpl. rewrite bool_decide_true by done.
    apply list_fmap_ext. intros j x Hx. f_equal. rewrite frames_for_cons, decide_False; [done|].
    rewrite Htx. intros [= ->]. by apply list_elem_of_lookup_2, first_seen_new in Hx.
Qed.

Lemma extend_groups_new frame frames tx groups :
  tx ∉ groups.*1 -> tf_transaction_hash frame = Some tx ->
  extend_groups frames (groups ++ [(tx, [frame])]) = extend_groups (frame :: frames) groups.
Proof.
  intros Hn Htx. unfold extend_groups, named. cbn [omap list_omap]. rewrite Htx. cbn [first_seen].
  rewrite bool_decide_false by done. rewrite !fmap_app. cbn [fmap list_fmap].
  rewrite <- app_assoc. f_equal.
  - apply list_fmap_ext. intros j [g fs] Hg. cbn [fst snd]. rewrite frames_for_cons, decide_False; [done|].
    rewrite Htx. intros [= ->]. apply Hn. apply list_elem_of_lookup. exists j.
    by rewrite list_lookup_fmap, Hg.
  - cbn [app fst snd]. rewrite frames_for_cons, decide_True by done. f_equal.
    apply list_fmap_ext. intros j x Hx. f_equal. rewrite frames_for_cons, decide_False; [done|].
    rewrite Htx. intros [= ->]. apply list_elem_of_lookup_2, first_seen_new in Hx. set_solver.
Qed.

Lemma extend_groups_unnamed frame frames groups :
  tf_transaction_hash frame = None -> extend_groups frames groups = extend_groups (frame :: frames) groups.
Proof.
  intros Hn. unfold extend_groups, named. cbn [omap list_omap]. rewrite Hn. f_equal.
  - apply list_fmap_ext. intros j g _. by rewrite frames_for_cons, decide_False by (by rewrite Hn).
  - apply list_fmap_ext. intros j x _. by rewrite frames_for_cons, decide_False by (by rewrite Hn).
Qed.

Lemma group_frames_spec frames pos groups :
  positions_of pos groups ->
  (group_frames frames pos groups).2 = extend_groups frames groups
  /\ forall tx, is_Some ((group_frames frames pos groups).1 !! tx) <->
       tx ∈ groups.*1 \/ tx ∈ named frames.
Proof.
  revert pos groups. induction frames as [|frame frames IH]; intros pos groups Hp; cbn [group_frames].
  { split.
    - unfold extend_groups, frames_for, named. simpl. rewrite app_nil_r.
      symmetry. rewrite <- (list_fmap_id groups) at 2. apply list_fmap_ext.
      intros i [g fs] _. simpl. by rewrite app_nil_r.
    - intros tx. pose proof (positions_of_mem _ _ tx Hp) as Hm. cbn [fst]. unfold named. simpl.
      rewrite elem_of_nil, <- not_eq_None_Some, Hm. split; [intros ?|intros [?|[]]];
        [left; by apply dec_stable|tauto]. }
  destruct (tf_transaction_hash frame) as [tx|] eqn:Htx.
  2:{ destruct (IH pos groups Hp) as [H1 H2]. rewrite H1. split; [by apply extend_groups_unnamed|].
      intros tx. rewrite H2. unfold named. cbn [omap list_omap]. by rewrite Htx. }
  destruct (pos !! tx) as [i|] eqn:Hi.
  - apply Hp in Hi as Hk. rewrite list_lookup_fmap in Hk.
    destruct (groups !! i) as [[tx' fs]|] eqn:Hg; [|done]. simplify_eq/=.
    destruct (IH pos (alter (fun g => (g.1, g.2 ++ [frame])) i groups)) as [H1 H2].
    { unfold positions_of. by rewrite (alter_keys _ _ _ _ Hg). }
    rewrite H1. split; [by eapply extend_groups_known; [apply Hp|..]|].
    intros x. rewrite H2, (alter_keys _ _ _ _ Hg). unfold named. cbn [omap list_omap]. rewrite Htx.
    assert (tx ∈ groups.*1) by (apply list_elem_of_lookup; exists i; by rewrite list_lookup_fmap, Hg).
    set_solver.
  - pose proof (proj1 (positions_of_mem _ _ tx Hp) Hi) as Hn.
    destruct (IH (<[tx := length groups]> pos) (groups ++ [(tx, [frame])])) as [H1 H2].
    { destruct Hp as [Hnd Hp]. rewrite <- (length_fmap fst groups). unfold positions_of.
      rewrite fmap_app. cbn [fmap list_fmap fst]. split.
      - apply NoDup_app. split_and!; [done| |apply NoDup_singleton].
        intros x Hx ->%list_elem_of_singleton. done.
      - intros x j. destruct (decide (x = tx)) as [->|Hne].
        + rewrite lookup_insert_eq. split.
          * intros [= <-]. by rewrite lookup_app_r, Nat.sub_diag.
          * intros Hj. f_equal. destruct (decide (j < length groups.*1)) as [Hlt|Hge].
            -- rewrite lookup_app_l in Hj by done. exfalso. apply Hn. by eapply list_elem_of_lookup_2.
            -- apply lookup_lt_Some in Hj. rewrite length_app in Hj. simpl in Hj. lia.
        + rewrite lookup_insert_ne by done. rewrite Hp. split.
          * intros Hj. rewrite lookup_app_l; [done|by eapply lookup_lt_Some].
          * intros Hj. apply lookup_app_Some in Hj as [Hj|[Hge Hj]]; [done|].
            destruct (j - length groups.*1); simplify_eq/=. }
    rewrite H1. split; [by apply extend_groups_new|].
    intros x. rewrite H2. unfold named. cbn [omap list_omap]. rewrite Htx, fmap_app. set_solver.
Qed.

Section trace_block_theorem.
Context {Value : Type} `{Json Value}.
Context (error_text : RpcError (Value := Value) -> string).
Implicit Types block : RawRpcBlock Value.

Lemma find_none {A} (p : A -> bool) l : List.find p l = None <-> forall x, x ∈ l -> p x = false.
Proof.
  split.
  - intros Hn x Hx. by apply (List.find_none _ _ Hn), list_elem_of_In.
  - intros Hn. destruct (List.find p l) as [x|] eqn:E; [|done].
    apply List.find_some in E as [Hx Hp]. rewrite (Hn x) in Hp; [done|by apply list_elem_of_In].
Qed.

(** A block's trace answer is accepted exactly when every frame names the
    block fetched and every transaction of the block is named by a frame; what
    is served is then the reference grouping: each transaction named, once, in
    the order first seen, with all its frames in the order reported and no
    frame of another. *)
Theorem trace_block_groups result block reps :
  trace_block_replays error_text result block = Ok reps <->
  exists arr frames,
    unwrap_component error_text result "block traces" block = Ok arr
    /\ Forall2 (fun item f => from_value_trace_frame item = Ok f) arr frames
    /\ (forall f, f ∈ frames -> exists h, tf_block_hash f = Some h
          /\ eq_ignore_ascii_case h (raw_hash block) = true)
    /\ (forall tx, tx ∈ transactions block -> tx_hash tx ∈ named frames)
    /\ reps = (fun g => mkTraceTransactionReplay None None (Some g.2) (Some g.1))
                <$> reference_groups frames.
Proof.
  pose proof (fun arr frames => parse_entries from_value_trace_frame "trace frame" block arr frames) as Hparse.
  unfold trace_block_replays.
  destruct (unwrap_component error_text result "block traces" block) as [arr|e].
  2:{ split; [done|]. by intros (? & ? & ? & _). }
  destruct (collect_results _) as [frames|e] eqn:Ep.
  2:{ split; [done|]. intros (arr' & frames & [= <-] & Hf & _). apply Hparse in Hf.
      rewrite Hf in Ep. done. }
  apply Hparse in Ep.
  assert (forall arr' frames', Ok (E := string) arr = Ok arr' ->
    Forall2 (fun item f => from_value_trace_frame item = Ok f) arr' frames' -> frames' = frames) as Huniq.
  { intros arr' frames' [= <-] Hf%Hparse. apply Hparse in Ep. congruence. }
  assert (List.find (foreign_block block) frames = None <->
    forall f, f ∈ frames -> exists h, tf_block_hash f = Some h
      /\ eq_ignore_ascii_case h (raw_hash block) = true) as Hforeign.
  { rewrite find_none. unfold foreign_block. split; intros Hn f Hf; specialize (Hn f Hf).
    - destruct (tf_block_hash f) as [h|]; [|done]. exists h. by apply negb_false_iff in Hn.
    - destruct Hn as (h & -> & ->). done. }
  destruct (List.find (foreign_block block) frames) as [f|].
  { split; [done|]. intros (arr' & frames' & Ea & Hf & Hn & _).
    rewrite (Huniq _ _ Ea Hf) in Hn. apply Hforeign in Hn. done. }
  destruct (group_frames_spec frames ∅ []) as [Hg Hm].
  { split; [constructor|]. intros tx i. rewrite lookup_empty. by split. }
  destruct (group_frames frames ∅ []) as [pos groups]. cbn [fst snd] in *.
  assert (List.find (fun tx => negb (is_some (pos !! tx_hash tx))) (transactions block) = None <->
    forall tx, tx ∈ transactions block -> tx_hash tx ∈ named frames) as Hmiss.
  { rewrite find_none. split; intros Hn tx Htx; specialize (Hn tx Htx).
    - destruct (pos !! tx_hash tx) eqn:E; [|done].
      destruct (proj1 (Hm (tx_hash tx))) as [?%elem_of_nil|?]; [by rewrite E|done..].
    - destruct (proj2 (Hm (tx_hash tx)) (or_intror Hn)) as [i ->]. done. }
  destruct (List.find _ (transactions block)) as [tx|].
  { split; [done|]. intros (arr' & frames' & Ea & Hf & _ & Hn & _).
    rewrite (Huniq _ _ Ea Hf) in Hn. apply Hmiss in Hn. done. }
  assert (groups = reference_groups frames) as -> by (by rewrite Hg).
  split.
  - intros [= <-]. exists arr, frames. split_and!; [done|done|by apply Hforeign|by apply Hmiss|done].
  - intros (arr' & frames' & Ea & Hf & _ & _ & ->). by rewrite (Huniq _ _ Ea Hf).
Qed.
End trace_block_theorem.

(** ** Debug traces: one entry per transaction, in its place *)

Section debug_theorem.
Context {Value : Type} `{Json Value}.
Context (error_text : RpcError (Value := Value) -> string).
Implicit Types block : RawRpcBlock Value.

(** A frame in the place of a transaction: the label agrees, the structure can
    be mapped and, when the mode rejects, the call tree is coherent. *)
Definition frame_fits (mode : CallFrameValidationMode) (tx : RpcTransaction)
    (frame : DebugFrameResult) : Prop :=
  (forall l, dfr_tx_hash frame = Some l -> eq_ignore_ascii_case l (tx_hash tx) = true)
  /\ check_debug_frame_structure (dfr_result frame) = None
  /\ (mode = Reject -> check_call_frame_tree tx (dfr_result frame) = None).

Lemma check_frame_label_ok label position block tx :
  transactions block !! position = Some tx ->
  (check_frame_label label position block = Ok tt <->
   forall l, label = Some l -> eq_ignore_ascii_case l (tx_hash tx) = true).
Proof.
  intros Htx. unfold check_frame_label. destruct label as [l|]; [|by split].
  rewrite Htx. destruct (eq_ignore_ascii_case l (tx_hash tx)) eqn:E.
  - split; [|done]. by intros _ l' [= <-].
  - split; [done|]. intros Hl. specialize (Hl l eq_refl). congruence.
Qed.

Lemma validate_frames_from_ok position frames block mode :
  validate_frames_from position frames block mode = Ok tt <->
  forall i frame, frames !! i = Some (Some frame) ->
    exists tx, transactions block !! (position + i) = Some tx /\ frame_fits mode tx frame.
Proof.
  revert position. induction frames as [|[frame|] frames IH]; intros position; cbn [validate_frames_from].
  { split; [|done]. intros _ i frame. by rewrite lookup_nil. }
  2:{ rewrite IH. split.
      - intros Hf [|i] frame Hi; [done|]. destruct (Hf i frame Hi) as (tx & Htx & Hfit).
        exists tx. by rewrite Nat.add_succ_r.
      - intros Hf i frame Hi. destruct (Hf (S i) frame Hi) as (tx & Htx & Hfit).
        exists tx. by rewrite Nat.add_succ_r in Htx. }
  destruct (transactions block !! position) as [tx|] eqn:Htx.
  2:{ split; [done|]. intros Hf. destruct (Hf 0 frame eq_refl) as (tx & Htx' & _).
      rewrite Nat.add_0_r in Htx'. congruence. }
  assert (frame_fits mode tx frame -> (validate_frames_from (S position) frames block mode = Ok tt <->
    forall i f, (Some frame :: frames) !! i = Some (Some f) ->
      exists tx, transactions block !! (position + i) = Some tx /\ frame_fits mode tx f)) as Hnext.
  { intros Hfit. rewrite IH. split.
    - intros Hf [|i] f Hi; simplify_eq/=.
      + exists tx. by rewrite Nat.add_0_r.
      + destruct (Hf i f Hi) as (x & Hx & ?). exists x. by rewrite Nat.add_succ_r.
    - intros Hf i f Hi. destruct (Hf (S i) f Hi) as (x & Hx & ?). exists x.
      by rewrite Nat.add_succ_r in Hx. }
  assert (~ frame_fits mode tx frame -> ~ (forall i f, (Some frame :: frames) !! i = Some (Some f) ->
      exists tx, transactions block !! (position + i) = Some tx /\ frame_fits mode tx f)) as Hbad.
  { intros Hn Hf. destruct (Hf 0 frame eq_refl) as (x & Hx & ?). rewrite Nat.add_0_r in Hx.
    apply Hn. by simplify_eq. }
  pose proof (check_frame_label_ok (dfr_tx_hash frame) position block tx Htx) as Hlab.
  destruct (check_frame_label _ _ _) as [[]|e].
  2:{ split; [done|]. intros Hf. exfalso. apply Hbad; [|done]. intros (Hl & _). apply Hlab in Hl. done. }
  destruct (check_debug_frame_structure (dfr_result frame)) as [v|] eqn:Es.
  { split; [done|]. intros Hf. exfalso. apply Hbad; [|done]. intros (_ & E & _). congruence. }
  case_bool_decide as Hoff.
  { apply Hnext. split_and!; [by apply Hlab|done|congruence]. }
  destruct (check_call_frame_tree tx (dfr_result frame)) as [v|] eqn:Et.
  - case_bool_decide as Hrej.
    + split; [done|]. intros Hf. exfalso. apply Hbad; [|done]. intros (_ & _ & Hr).
      rewrite Hr in Et by done. done.
    + apply Hnext. split_and!; [by apply Hlab|done|done].
  - apply Hnext. split_and!; [by apply Hlab|done|done].
Qed.

Lemma tx_index_spec txs h i :
  tx_index txs !! h = Some i -> exists tx, txs !! i = Some tx /\ tx_hash tx = h.
Proof.
  unfold tx_index.
  assert (forall l (m : gmap string nat),
    (forall h i, m !! h = Some i -> exists tx, txs !! i = Some tx /\ tx_hash tx = h) ->
    (forall p, p ∈ l -> txs !! p.1 = Some p.2) ->
    foldl (fun m p => <[tx_hash p.2 := p.1]> m) m l !! h = Some i ->
    exists tx, txs !! i = Some tx /\ tx_hash tx = h) as Hgen.
  { induction l as [|[j tx] l IH]; intros m Hm Hl; cbn [foldl]; [apply Hm|].
    apply IH; [|intros p Hp; apply Hl; by right].
    intros h' i' [[<- <-]|[_ Hi]]%lookup_insert_Some; [|by apply Hm].
    exists tx. split; [|done]. by apply (Hl (j, tx)); left. }
  apply Hgen; [intros ? ? Hl; by rewrite lookup_empty in Hl|].
  intros [j tx] [k Hk]%list_elem_of_lookup. rewrite list_lookup_imap in Hk.
  destruct (txs !! k) as [tx'|] eqn:E; [|done]. by simplify_eq/=.
Qed.

Definition label_of (item : Value) : option string :=
  match json_get "txHash" item with Some v => json_as_str v | None => None end.

Lemma match_items_spec {A} (from_value : Value -> Result A string) what block arr mapped mapped' :
  length mapped = length (transactions block) ->
  match_items from_value (tx_index (transactions block)) what block arr mapped = Ok mapped' ->
  length mapped' = length (transactions block)
  /\ forall i e, mapped' !! i = Some (Some e) ->
       mapped !! i = Some (Some e)
       \/ exists item tx, item ∈ arr /\ transactions block !! i = Some tx
            /\ label_of item = Some (tx_hash tx) /\ from_value item = Ok e.
Proof.
  revert mapped. induction arr as [|item arr IH]; intros mapped Hlen Hm; cbn [match_items] in Hm.
  { simplify_eq. split; [done|]. by left. }
  assert (match json_get "txHash" item with
          | Some v => match json_as_str v with
                      | Some h => tx_index (transactions block) !! h | None => None end
          | None => None end
          = match label_of item with
            | Some h => tx_index (transactions block) !! h | None => None end) as E.
  { unfold label_of. by destruct (json_get _ _). }
  rewrite E in Hm. clear E.
  destruct (label_of item) as [h|] eqn:Hlab; [|destruct (IH _ Hlen Hm) as [? Hi]; split; [done|];
    intros i e He; destruct (Hi i e He) as [?|(it & tx & ? & ?)]; [by left|right; exists it, tx; set_solver]].
  destruct (tx_index (transactions block) !! h) as [p|] eqn:Hp; [|destruct (IH _ Hlen Hm) as [? Hi];
    split; [done|]; intros i e He; destruct (Hi i e He) as [?|(it & tx & ? & ?)];
      [by left|right; exists it, tx; set_solver]].
  apply tx_index_spec in Hp as (tx & Htx & Hh).
  unfold parse_entry in Hm. destruct (from_value item) as [x|er] eqn:Ex; [|done]. simpl in Hm.
  destruct (IH (<[p:=Some x]> mapped)) as [? Hi]; [by rewrite length_insert|done|].
  split; [done|]. intros i e He. destruct (Hi i e He) as [Hins|(it & tx' & ? & ?)].
  - apply list_lookup_insert_Some in Hins as [(-> & [= ->] & _)|[_ ?]]; [|by left].
    right. exists item, tx. rewrite Hlab, Hh. split; [left|done].
  - right. exists it, tx'. set_solver.
Qed.

Lemma match_by_tx_hash_spec {A} (from_value : Value -> Result A string) arr block what gaps mapped :
  match_by_tx_hash from_value arr block what gaps = Ok mapped ->
  length mapped = length (transactions block)
  /\ (gaps = false -> forall i, i < length mapped -> exists e, mapped !! i = Some (Some e))
  /\ forall i e, mapped !! i = Some (Some e) ->
       exists item tx, item ∈ arr /\ transactions block !! i = Some tx
         /\ label_of item = Some (tx_hash tx) /\ from_value item = Ok e.
Proof.
  unfold match_by_tx_hash.
  destruct (match_items _ _ _ _ _ _) as [m|] eqn:Em; [|done].
  destruct (match_items_spec _ _ _ _ _ _ (length_replicate _ _) Em) as [Hlen Hin].
  assert (forall i e, m !! i = Some (Some e) ->
    exists item tx, item ∈ arr /\ transactions block !! i = Some tx
      /\ label_of item = Some (tx_hash tx) /\ from_value item = Ok e) as Hall.
  { intros i e He. destruct (Hin i e He) as [Hr|]; [|done].
    by apply lookup_replicate in Hr as [? _]. }
  destruct gaps; [intros [= <-]; by split_and!|].
  destruct (list_find _ m) as [[i x]|] eqn:Ef; [done|]. intros [= <-]. split_and!; [done| |done].
  intros _ i Hi. apply list_find_None in Ef. rewrite Forall_lookup in Ef.
  destruct (m !! i) as [[e|]|] eqn:E; [by exists e|exfalso; by eapply Ef|].
  apply lookup_ge_None in E. lia.
Qed.

Lemma collect_some {A} (from_value : Value -> Result A string) what block arr l :
  collect_results ((fun item => map_ok Some (parse_entry from_value item what block)) <$> arr) = Ok l ->
  exists parsed, l = Some <$> parsed /\ Forall2 (fun item x => from_value item = Ok x) arr parsed.
Proof.
  revert l. induction arr as [|item arr IH]; intros l; simpl.
  { intros [= <-]. exists []. by split; [|constructor]. }
  unfold parse_entry at 1. destruct (from_value item) as [x|e] eqn:E; simpl; [|done].
  destruct (collect_results _) as [t|e] eqn:Et; [|done]. intros [= <-].
  destruct (IH t eq_refl) as (parsed & -> & Hf). exists (x :: parsed). split; [done|by constructor].
Qed.

(** A debug-trace answer that is accepted covers the block: it has one
    entry per transaction, in the transactions' order, an empty one only on a
    network known to trace fewer than it lists and only where the answer is
    matched by label; every entry was parsed from an item of the answer, its
    label, where it has one, is its transaction's, it passes the structural
    check and, when violations are rejected, the semantic one. *)
Theorem debug_frames_cover mode gaps result block frames
    (Hok : debug_frames_of error_text mode gaps result block = Ok frames) :
  length frames = length (transactions block)
  /\ (forall i f, frames !! i = Some (Some f) -> exists tx,
        transactions block !! i = Some tx /\ frame_fits mode tx f)
  /\ exists arr, unwrap_component error_text result "execution traces" block = Ok arr
       /\ (gaps = false \/ length arr = length frames ->
           forall i, i < length frames -> exists f, frames !! i = Some (Some f))
       /\ forall i f, frames !! i = Some (Some f) ->
            exists item, item ∈ arr /\ from_value_frame (wrap_item item) = Ok f.
Proof.
  unfold debug_frames_of in Hok.
  destruct (unwrap_component error_text result "execution traces" block) as [arr|]; [|done].
  set (n := length (transactions block)) in *.
  assert (exists fs, validate_debug_frames fs block mode = Ok frames /\ length fs = n
    /\ (gaps = false \/ length arr = length fs -> forall i, i < length fs ->
         exists f, fs !! i = Some (Some f))
    /\ forall i f, fs !! i = Some (Some f) ->
         exists item, item ∈ arr /\ from_value_frame (wrap_item item) = Ok f) as (fs & Hv & Hlen & Hall & Hsrc).
  { destruct (Nat.eqb_spec n (length (wrap_item <$> arr))) as [Heq|Hne].
    - destruct (collect_results _) as [fs|] eqn:Ec; [|done]. exists fs. split; [done|].
      apply collect_some in Ec as (parsed & -> & Hf).
      pose proof (Forall2_length _ _ _ Hf) as Hl. rewrite length_fmap.
      split; [by rewrite <- Hl|]. split.
      + intros _ i Hi. rewrite list_lookup_fmap.
        destruct (parsed !! i) as [f|] eqn:E; [by exists f|]. apply lookup_ge_None in E. lia.
      + intros i f Hi. rewrite list_lookup_fmap in Hi. destruct (parsed !! i) as [f'|] eqn:E; [|done].
        simplify_eq/=. destruct (Forall2_lookup_r _ _ _ _ _ Hf E) as (x & Hx & Hp).
        rewrite list_lookup_fmap in Hx. destruct (arr !! i) as [item|] eqn:Ei; [|done]. simplify_eq/=.
        exists item. split; [by eapply list_elem_of_lookup_2|done].
    - destruct (match_by_tx_hash _ _ _ _ _) as [fs|] eqn:Em; [|done]. exists fs. split; [done|].
      apply match_by_tx_hash_spec in Em as (Hl & Hall & Hin). rewrite length_fmap in Hne.
      split_and!; [done|intros [?|?]; [by apply Hall|lia]|].
      intros i f Hi. destruct (Hin i f Hi) as (x & tx & Hx & _ & _ & Hp).
      apply list_elem_of_fmap in Hx as (item & -> & Hit). by exists item. }
  unfold validate_debug_frames in Hv.
  destruct (validate_frames_from 0 fs block mode) as [[]|] eqn:Ev; [|done]. simplify_eq.
  split_and!; [done| |by exists arr].
  intros i f Hi. by apply (proj1 (validate_frames_from_ok 0 frames block mode) Ev i f Hi).
Qed.
End debug_theorem.

(** ** A JSON to run on *)

Inductive ToyJson : Type :=
  | ToyNull
  | ToyArray (l : list ToyJson)
  | ToyStr (s : string)
  | ToyBlock (b : RpcBlock)
  | ToyLogs (l : list RpcLog)
  | ToyReceipts (l : list (option RpcReceipt))
  | ToyReceipt (r : RpcReceipt)
  | ToyFrame (f : DebugFrameResult)
  | ToyReplay (hash : option string) (frames : option (list TraceFrame))
  | ToyTrace (f : TraceFrame).

#[export] Instance toy_json : Json ToyJson := {|
  json_view v := match v with
                 | ToyNull => ViewNull
                 | ToyArray l => ViewArray l
                 | ToyStr _ => ViewOther
                 | ToyReceipts l => ViewArray ((fun r => match r with Some r => ToyReceipt r | None => ToyNull end) <$> l)
                 | _ => ViewObject
                 end;
  json_get key v := match v with
                    | ToyFrame f =>
                        if bool_decide (key = "result"%string) then Some v
                        else if bool_decide (key = "txHash"%string) then ToyStr <$> dfr_tx_hash f
                        else None
                    | _ => None
                    end;
  json_as_str v := match v with ToyStr s => Some s | _ => None end;
  json_null := ToyNull;
  json_array l := ToyArray l;
  json_object l := match l with (_, v) :: _ => v | [] => ToyNull end;
  from_value_block v := match v with ToyBlock b => Ok b | _ => Err "not a block"%string end;
  from_value_logs v := match v with ToyLogs l => Ok l | ToyArray [] => Ok [] | _ => Err "not logs"%string end;
  from_value_receipts v := match v with ToyReceipts l => Ok l | _ => Err "not receipts"%string end;
  from_value_receipt v := match v with ToyReceipt r => Ok r | _ => Err "not a receipt"%string end;
  from_value_frame v := match v with ToyFrame f => Ok f | _ => Err "not a frame"%string end;
  from_value_diff v := Err "not a state diff"%string;
  from_value_replay v := match v with
                         | ToyReplay h fs => Ok (mkTraceTransactionReplay None None fs h)
                         | _ => Err "not a replay"%string
                         end;
  from_value_trace_frame v := match v with ToyTrace f => Ok f | _ => Err "not a trace"%string end
|}.

Definition toy_block (n hash parent : string) (txs : list RpcTransaction) : RpcBlock :=
  mkRpcBlock n hash parent None None None "0x" "0x0" "0x0" "" "0x0" "" "" "" "" None None None None
    None "0x0" "0x10" txs [] None None None None None None None.

Definition toy_raw (n : N) (hash parent : string) (txs : list RpcTransaction) : RawRpcBlock ToyJson :=
  RawRpcBlock_new n hash (toy_block (to_qty n) hash parent txs).

(** Two entries for one transaction: matched by label, the foreign one ignored. *)
Lemma debug_frames_cover_witness :
  debug_frames_of (fun _ => ""%string) Off false
    (Ok (ToyArray [ToyFrame (mkDebugFrameResult sample_root (Some "0xff"%string));
                   ToyFrame (mkDebugFrameResult sample_root (Some "0xa"%string))]))
    (toy_raw 7 "0x7" "0x6" [sample_tx "0x"])
  = Ok [Some (mkDebugFrameResult sample_root (Some "0xa"%string))]
  /\ length [Some (mkDebugFrameResult sample_root (Some "0xa"%string))]
     = length (transactions (toy_raw 7 "0x7" "0x6" [sample_tx "0x"])).
Proof.
  assert (debug_frames_of (fun _ => ""%string) Off false
    (Ok (ToyArray [ToyFrame (mkDebugFrameResult sample_root (Some "0xff"%string));
                   ToyFrame (mkDebugFrameResult sample_root (Some "0xa"%string))]))
    (toy_raw 7 "0x7" "0x6" [sample_tx "0x"])
    = Ok [Some (mkDebugFrameResult sample_root (Some "0xa"%string))]) as E by (vm_compute; reflexivity).
  split; [exact E|]. exact (proj1 (debug_frames_cover _ _ _ _ _ _ E)).
Defined.
