(* ===== verification/Fetch.v ===== *)
(** * Fetch: acquiring complete blocks (fetch.rs)

    The round trips of [fetch.rs]: the legs of an acquisition and how their
    answers are applied to the blocks, a batch of contiguous blocks, and the
    retry of a head block until it is complete. The client is an argument of
    each round ([FetchClient]); clocks and expired deadlines are the
    environment's. Legs run concurrently in the code, on fields of their own;
    what the join returns does not depend on which ends first
    ([join_or_err]), so the model evaluates them in order. *)
From stdpp Require Import pretty gmap.
From S2P Require Import Prelude Types RpcClient RpcData Rlp Commitments ChainUtils Frames EvmTypes.
From S2P Require Import RawBlock FetchChecks Components.

Local Open Scope rust_scope.

(** The value of the join, whichever side ends first: [lo] is read only when
    [hi] succeeded. *)
Definition join_or_err {T U E} (hi : Result T E) (lo : U) : Result (T * U) E :=
  let? t := hi in Ok (t, lo).

Inductive ReceiptsMethod : Type := ByBlock | ByTx.

(** How a run ends; a panic only where a component's own definition has one. *)
Inductive Run (A : Type) : Type :=
  | Returned (r : Result A string)
  | Panicked
  | OutOfFuel.
Arguments Returned {A} r.
Arguments Panicked {A}.
Arguments OutOfFuel {A}.

Section fetch.
Context {Value : Type} `{Json Value} `{Hex} `{Keccak} `{Rayon} `{Trie}.
Context (recover : RpcTransaction -> Result (option string) string).
Context (error_text : RpcError (Value := Value) -> string).
Context (o : RpcOptions).

#[local] Abbreviation RpcResult := (Result Value (RpcError (Value := Value))).
#[local] Abbreviation Raw := (RawRpcBlock Value).

(** The chain's quirks, asked once: [cell] is what the cell holds. *)
Definition get_chain_utils (cell : option ChainUtils) (client : FetchClient Value)
    : Result ChainUtils string :=
  match cell with
  | Some utils => Ok utils
  | None =>
      let? chain_id := map_err (fun e => "eth_chainId: " +:+ error_text e)%string
                         (fc_call client ("eth_chainId"%string, []) None) in
      let chain_id_str := default "0x1"%string (json_as_str chain_id) in
      Ok (chain_utils_new (qty2_u64 chain_id_str) (use_gas_used_for_receipts_root o))
  end.

Definition get_height (client : FetchClient Value) : Result N string :=
  let? height := map_err (fun e => "eth_blockNumber: " +:+ error_text e)%string
                   (fc_call client ("eth_blockNumber"%string, []) None) in
  Ok (qty2_u64 (default "0x0"%string (json_as_str height))).

Definition commitment_tag (client : FetchClient Value) (commitment : string) : Result string string :=
  if bool_decide (commitment = "finalized"%string) then
    match finality_confirmation o with
    | Some conf => let? height := get_height client in Ok (to_qty (height - conf)%N)
    | None => Ok "finalized"%string
    end
  else Ok "latest"%string.

Definition get_latest_blockhash (client : FetchClient Value) (commitment : string)
    : Result (N * string) string :=
  let? tag := commitment_tag client commitment in
  let? block := map_err (fun e => "eth_getBlockByNumber(latest): " +:+ error_text e)%string
                  (fc_call client ("eth_getBlockByNumber"%string, [ArgStr tag; ArgBool false]) None) in
  match json_get "number" block ≫= json_as_str with
  | None => Err "missing block.number"%string
  | Some number_str =>
      match json_get "hash" block ≫= json_as_str with
      | None => Err "missing block.hash"%string
      | Some hash => Ok (qty2_u64 number_str, hash)
      end
  end.

(** ** Logs *)

Definition fetch_logs (client : FetchClient Value) (blocks : list Raw) : Result (list RpcLog) string :=
  match blocks, last blocks with
  | first :: _, Some lst =>
      let? v := map_err error_text
        (fc_call client ("eth_getLogs"%string,
           [ArgRange (blk_number (raw_block first)) (blk_number (raw_block lst))])
           (Some logs_validate_error)) in
      from_value_logs v
  | _, _ => Ok []
  end.

Definition group_logs (logs : list RpcLog) : gmap string (list RpcLog) :=
  foldl (fun m log => <[log_block_hash log := default [] (m !! log_block_hash log) ++ [log]]> m) ∅ logs.

Definition apply_block_logs (cu : ChainUtils) (block : Raw) (block_logs : list RpcLog) : option Raw :=
  if bool_decide (block_logs = []) && negb (is_zero_bloom (blk_logs_bloom (raw_block block))) then
    Some (mark_not_ready block
            "eth_getLogs returned empty result but logsBloom is non-zero (not ready)")
  else
    let block_logs := if has cu NonSequentialLogIndexes then fix_log_indexes block_logs else block_logs in
    let! verdict := verify_logs o cu block block_logs in
    Some match verdict with
         | Err reason => mark_invalid block reason
         | Ok _ => set_logs block (Some block_logs)
         end.

Fixpoint apply_logs (cu : ChainUtils) (logs_by_block : gmap string (list RpcLog)) (blocks : list Raw)
    : option (list Raw) :=
  match blocks with
  | [] => Some []
  | block :: blocks =>
      let! block' := apply_block_logs cu block (default [] (logs_by_block !! raw_hash block)) in
      let! rest := apply_logs cu (delete (raw_hash block) logs_by_block) blocks in
      Some (block' :: rest)
  end.

(** ** Receipts *)

Inductive ReceiptsFetch : Type :=
  | FetchedByBlock (results : list RpcResult)
  | FetchedByTx (results : list RpcResult).

(** The method to use, and what the cell holds after asking. *)
Definition get_receipts_method (cell : option ReceiptsMethod) (client : FetchClient Value) : ReceiptsMethod :=
  match cell with
  | Some m => m
  | None =>
      match fc_call client ("eth_getBlockReceipts"%string, [ArgStr "latest"]) None with
      | Ok v => match json_view v with ViewArray _ => ByBlock | _ => ByTx end
      | Err _ => ByTx
      end
  end.

Definition fetch_receipts_by_block (client : FetchClient Value) (blocks : list Raw)
    : Result (list RpcResult) string :=
  map_err error_text
    (fc_batch client
       ((fun b => ("eth_getBlockReceipts"%string, [ArgStr (blk_number (raw_block b))])) <$> blocks)
       (Some receipts_validate_error)).

Definition fetch_receipts_by_tx (client : FetchClient Value) (blocks : list Raw)
    : Result (list RpcResult) string :=
  map_err error_text
    (fc_batch client
       (blocks ≫= fun b => (fun tx => ("eth_getTransactionReceipt"%string, [ArgStr (tx_hash tx)]))
                             <$> blk_transactions (raw_block b))
       None).

Definition fetch_receipts (cell : option ReceiptsMethod) (client : FetchClient Value) (blocks : list Raw)
    : Result ReceiptsFetch string :=
  match get_receipts_method cell client with
  | ByBlock => map_ok FetchedByBlock (fetch_receipts_by_block client blocks)
  | ByTx => map_ok FetchedByTx (fetch_receipts_by_tx client blocks)
  end.

Definition foreign_receipt (block : Raw) (receipts : list RpcReceipt) : option RpcReceipt :=
  List.find (fun r => negb (eq_ignore_ascii_case (rcpt_block_hash r) (raw_hash block))) receipts.

Definition foreign_receipt_message (method : string) (block : Raw) (bad : RpcReceipt) : string :=
  (method +:+ " returned receipts for a different block (header " +:+ raw_hash block
     +:+ ", receipt block_hash " +:+ rcpt_block_hash bad
     +:+ ") — reorg / load-balanced inconsistency, will retry")%string.

Definition renumbered (cu : ChainUtils) (receipts : list RpcReceipt) : list RpcReceipt :=
  if has cu NonSequentialLogIndexes then renumber_logs receipts else receipts.

(** The checks over a complete set, then the receipts themselves. *)
Definition accept_receipts (cu : ChainUtils) (block : Raw) (receipts : list RpcReceipt) : option Raw :=
  let! verdict := and_then (verify_logs o cu block (receipts ≫= rcpt_logs))
                           (verify_receipts o cu block receipts) in
  Some match verdict with
       | Err reason => mark_invalid block reason
       | Ok _ => set_receipts block (Some receipts)
       end.

Definition apply_block_receipts (cu : ChainUtils) (block : Raw) (result : RpcResult) : option Raw :=
  match result with
  | Err e => Some (mark_invalid block ("eth_getBlockReceipts error: " +:+ error_text e)%string)
  | Ok v =>
      if json_is_null v then
        Some (mark_not_ready block "eth_getBlockReceipts returned null (block not ready)")
      else
        let raw_receipts := match from_value_receipts v with Ok l => l | Err _ => [] end in
        let receipts := omap id raw_receipts in
        match foreign_receipt block receipts with
        | Some bad => Some (mark_header_contested block
                              (foreign_receipt_message "eth_getBlockReceipts" block bad))
        | None =>
            let receipts := renumbered cu receipts in
            if negb (length (blk_transactions (raw_block block)) =? length receipts) then
              Some (mark_not_ready block "got invalid number of receipts from eth_getBlockReceipts")
            else accept_receipts cu block receipts
        end
  end.

(** [blocks[i]] for each result: more results than blocks panics. *)
Fixpoint apply_receipts_by_block (cu : ChainUtils) (blocks : list Raw) (results : list RpcResult)
    : option (list Raw) :=
  match results with
  | [] => Some blocks
  | result :: results =>
      match blocks with
      | [] => None
      | block :: blocks =>
          let! block' := apply_block_receipts cu block result in
          let! rest := apply_receipts_by_block cu blocks results in
          Some (block' :: rest)
      end
  end.

Definition receipt_of (result : RpcResult) : option RpcReceipt :=
  match result with
  | Ok v => if json_is_null v then None
            else match from_value_receipt v with Ok r => Some r | Err _ => None end
  | Err _ => None
  end.

Definition apply_tx_receipts (cu : ChainUtils) (block : Raw) (results : list RpcResult) : option Raw :=
  let tx_count := length (blk_transactions (raw_block block)) in
  let receipts := omap receipt_of results in
  if negb (length receipts =? tx_count) then
    Some (mark_not_ready block "failed to get receipts for all transactions")
  else
    match foreign_receipt block receipts with
    | Some bad => Some (mark_header_contested block
                          (foreign_receipt_message "eth_getTransactionReceipt" block bad))
    | None => accept_receipts cu block (renumbered cu receipts)
    end.

Fixpoint apply_receipts_by_tx (cu : ChainUtils) (blocks : list Raw) (results : list RpcResult)
    : option (list Raw) :=
  match blocks with
  | [] => Some []
  | block :: blocks =>
      let tx_count := length (blk_transactions (raw_block block)) in
      let! block' := apply_tx_receipts cu block (take tx_count results) in
      let! rest := apply_receipts_by_tx cu blocks (drop tx_count results) in
      Some (block' :: rest)
  end.

Definition apply_receipts (cu : ChainUtils) (blocks : list Raw) (fetched : ReceiptsFetch)
    : option (list Raw) :=
  match fetched with
  | FetchedByBlock results => apply_receipts_by_block cu blocks results
  | FetchedByTx results => apply_receipts_by_tx cu blocks results
  end.

(** ** Traces *)

(** The answers awaiting application; [traceable] are the block indices the
    component lists are aligned with. *)
Record TracesFetch := mkTracesFetch {
  traceable : list nat;
  tfetch_debug_frames : option (list (Result (list (option DebugFrameResult)) string));
  tfetch_debug_diffs : option (list (Result (list (option (DebugStateDiffResult Value))) string));
  tfetch_trace_replays : option (list (Result (list (TraceTransactionReplay Value)) string));
  tfetch_trace_block : option (list (Result (list (TraceTransactionReplay Value)) string))
}.

(** [debug_traceBlockByNumber] or [..ByHash] with a tracer's configuration. *)
Definition debug_trace_call (req : DataRequest) (tracer : string) (flags : list (string * bool))
    (block : Raw) : FetchCall :=
  let timeout := default "60s"%string (debug_trace_timeout req) in
  if use_debug_trace_block_by_number req
  then ("debug_traceBlockByNumber"%string,
        [ArgStr (blk_number (raw_block block)); ArgTracer tracer flags timeout])
  else ("debug_traceBlockByHash"%string, [ArgStr (raw_hash block); ArgTracer tracer flags timeout]).

(** One component per block, from the answer at its position. *)
Fixpoint per_block {A} (f : RpcResult -> Raw -> A) (results : list RpcResult) (blocks : list Raw)
    : option (list A) :=
  match results with
  | [] => Some []
  | r :: results =>
      match blocks with
      | [] => None
      | b :: blocks => let! rest := per_block f results blocks in Some (f r b :: rest)
      end
  end.

Definition fetch_debug_frames (cu : Result ChainUtils string) (client : FetchClient Value)
    (blocks : list Raw) (req : DataRequest)
    : option (Result (list (Result (list (option DebugFrameResult)) string)) string) :=
  match fc_batch client
          (debug_trace_call req "callTracer" [("onlyTopCall", false); ("withLog", true)]%string <$> blocks)
          (Some traces_validate_error) with
  | Err e => Some (Err (error_text e))
  | Ok results =>
      match cu with
      | Err e => Some (Err e)
      | Ok cu =>
          let! out := per_block (debug_frames_of error_text (call_frame_validation o)
                                   (has cu PartialTraceCoverage)) results blocks in
          Some (Ok out)
      end
  end.

Definition fetch_debug_state_diffs (cu : Result ChainUtils string) (client : FetchClient Value)
    (blocks : list Raw) (req : DataRequest)
    : option (Result (list (Result (list (option (DebugStateDiffResult Value))) string)) string) :=
  match fc_batch client
          (debug_trace_call req "prestateTracer" [("onlyTopCall", false); ("diffMode", true)]%string <$> blocks)
          (Some traces_validate_error) with
  | Err e => Some (Err (error_text e))
  | Ok results =>
      match cu with
      | Err e => Some (Err e)
      | Ok cu =>
          let! out := per_block (debug_diffs_of error_text (has cu PartialTraceCoverage)) results blocks in
          Some (Ok out)
      end
  end.

Definition fetch_trace_replays (client : FetchClient Value) (blocks : list Raw) (tracers : list string)
    : option (Result (list (Result (list (TraceTransactionReplay Value)) string)) string) :=
  match fc_batch client
          ((fun b => ("trace_replayBlockTransactions"%string, [ArgStr (raw_hash b); ArgStrs tracers]))
             <$> blocks) None with
  | Err e => Some (Err (error_text e))
  | Ok results =>
      let! out := per_block (fun r b => replays_of error_text r b tracers "trace replays") results blocks in
      Some (Ok out)
  end.

Definition fetch_trace_block (client : FetchClient Value) (blocks : list Raw)
    : option (Result (list (Result (list (TraceTransactionReplay Value)) string)) string) :=
  match fc_batch client
          ((fun b => ("trace_block"%string, [ArgStr (to_qty (raw_number b))])) <$> blocks) None with
  | Err e => Some (Err (error_text e))
  | Ok results =>
      let! out := per_block (trace_block_replays error_text) results blocks in
      Some (Ok out)
  end.

(** A sub-leg that is not selected yields [None]. *)
Definition sub_leg {A} (selected : bool) (run : option (Result A string))
    : option (Result (option A) string) :=
  if selected then let! r := run in Some (map_ok Some r) else Some (Ok None).

Definition traceable_of (blocks : list Raw) : list nat :=
  fst <$> filter (fun p => raw_number p.2 <> 0%N) (imap pair blocks).

Definition fetch_traces (cu : Result ChainUtils string) (client : FetchClient Value)
    (blocks : list Raw) (req : DataRequest) : option (Result TracesFetch string) :=
  let traceable := traceable_of blocks in
  match traceable with
  | [] => Some (Ok (mkTracesFetch traceable None None None None))
  | _ =>
      let need_replay_statediff := rq_state_diffs req && negb (use_debug_api_for_state_diffs req) in
      let need_replay_trace := rq_traces req && use_trace_api req && need_replay_statediff in
      let need_replay := need_replay_trace || need_replay_statediff in
      let trace_blocks := omap (fun i => blocks !! i) traceable in
      let tracers := (if need_replay_trace then ["trace"%string] else [])
                       ++ (if need_replay_statediff then ["stateDiff"%string] else []) in
      let! debug_frames := sub_leg (rq_traces req && negb (use_trace_api req))
                             (fetch_debug_frames cu client trace_blocks req) in
      let! debug_diffs := sub_leg (rq_state_diffs req && use_debug_api_for_state_diffs req)
                            (fetch_debug_state_diffs cu client trace_blocks req) in
      let! trace_replays := sub_leg need_replay (fetch_trace_replays client trace_blocks tracers) in
      let! trace_block := sub_leg (rq_traces req && use_trace_api req && negb need_replay_statediff)
                            (fetch_trace_block client trace_blocks) in
      Some (let? (debug_frames, rest) :=
              join_or_err debug_frames (join_or_err debug_diffs (join_or_err trace_replays trace_block)) in
            let? (debug_diffs, rest) := rest in
            let? (trace_replays, trace_block) := rest in
            let? trace_block := trace_block in
            Ok (mkTracesFetch traceable debug_frames debug_diffs trace_replays trace_block))
  end.

(** One component onto its blocks; [None] is an index out of range. *)
Fixpoint apply_component {A} (set : Raw -> A -> Raw) (blocks : list Raw)
    (l : list (nat * Result A string)) : option (list Raw) :=
  match l with
  | [] => Some blocks
  | (i, component) :: l =>
      let! b := blocks !! i in
      let b' := match component with Ok x => set b x | Err reason => mark_invalid b reason end in
      apply_component set (<[i := b']> blocks) l
  end.

Definition apply_opt {A} (set : Raw -> A -> Raw) (traceable : list nat)
    (components : option (list (Result A string))) (blocks : list Raw) : option (list Raw) :=
  match components with
  | None => Some blocks
  | Some l => apply_component set blocks (zip traceable l)
  end.

Definition apply_traces (blocks : list Raw) (fetched : TracesFetch) : option (list Raw) :=
  let t := traceable fetched in
  let! blocks := apply_opt (fun b f => set_debug_frames b (Some f)) t (tfetch_debug_frames fetched) blocks in
  let! blocks := apply_opt (fun b d => set_debug_state_diffs b (Some d)) t (tfetch_debug_diffs fetched) blocks in
  let! blocks := apply_opt (fun b r => set_trace_replays b (Some r)) t (tfetch_trace_replays fetched) blocks in
  apply_opt (fun b r => set_trace_replays b (Some r)) t (tfetch_trace_block fetched) blocks.

(** ** The legs together *)

(** A moment of the upstream: the client, and what the cells hold. *)
Record Moment := mkMoment {
  mo_client : FetchClient Value;
  mo_chain : option ChainUtils;
  mo_method : option ReceiptsMethod
}.

Definition apply_leg {A} (cu : Result ChainUtils string) (fetched : option A)
    (apply : ChainUtils -> A -> option (list Raw)) (blocks : list Raw) : option (Result (list Raw) string) :=
  match fetched with
  | None => Some (Ok blocks)
  | Some x => match cu with
              | Err e => Some (Err e)
              | Ok cu => let! blocks := apply cu x in Some (Ok blocks)
              end
  end.

Definition fetch_and_apply (m : Moment) (blocks : list Raw) (req : DataRequest)
    : option (Result (list Raw) string) :=
  let client := mo_client m in
  let cu := get_chain_utils (mo_chain m) client in
  let! logs := sub_leg (rq_logs req) (Some (fetch_logs client blocks)) in
  let! receipts := sub_leg (rq_receipts req) (Some (fetch_receipts (mo_method m) client blocks)) in
  let! traces := sub_leg (rq_traces req || rq_state_diffs req) (fetch_traces cu client blocks req) in
  match join_or_err logs (join_or_err receipts traces) with
  | Err e => Some (Err e)
  | Ok (logs, rest) =>
      let! r := apply_leg cu logs (fun cu l => apply_logs cu (group_logs l) blocks) blocks in
      match r with
      | Err e => Some (Err e)
      | Ok blocks =>
          match rest with
          | Err e => Some (Err e)
          | Ok (receipts, traces) =>
              let! r := apply_leg cu receipts (fun cu f => apply_receipts cu blocks f) blocks in
              match r with
              | Err e => Some (Err e)
              | Ok blocks =>
                  match traces with
                  | Err e => Some (Err e)
                  | Ok None => Some (Ok blocks)
                  | Ok (Some t) => let! blocks := apply_traces blocks t in Some (Ok blocks)
                  end
              end
          end
      end
  end.

Definition add_requested_data (m : Moment) (blocks : list Raw) (req : DataRequest)
    : option (Result (list Raw) string) :=
  match validate_request o req with
  | Err e => Some (Err e)
  | Ok _ => fetch_and_apply m blocks req
  end.

Definition enrich_blocks (m : Moment) (blocks : list Raw) (req : DataRequest)
    : option (Result (list Raw) string) := add_requested_data m blocks req.

Definition get_block_batch (m : Moment) (numbers : list N) (req : DataRequest)
    : option (Result (list Raw) string) :=
  let! r := get_blocks recover error_text o (get_chain_utils (mo_chain m) (mo_client m))
              (mo_client m) numbers true in
  match r with
  | Err e => Some (Err e)
  | Ok blocks =>
      let! chain := contiguous 0 [] blocks in
      add_requested_data m chain req
  end.

(** ** The retry of a head block *)

(** What the environment contributes to one turn of the loop: the moment of
    the upstream after the pause, the two clock readings of the deadline, the
    expiry of the deadline over this turn's acquisition, and the legs' times. *)
Record Turn := mkTurn {
  tn_moment : Moment;
  tn_anchor : N;
  tn_now : N;
  tn_elapsed : bool;
  tn_legs : N * N * N
}.

Record EnrichState := mkEnrichState {
  es_blocks : list Raw;
  es_incoherent_retries : nat;
  es_deadline : option N;
  es_legs_only_streak : nat;
  es_attempts : N;
  es_waited : N;
  es_legs : N * N * N
}.

Definition enrich_failure (number : N) (why err_msg : string) : string :=
  ("failed to enrich block " +:+ pretty number +:+ why +:+ ": " +:+ err_msg)%string.

(** [{:?}] of a [Duration] of whole milliseconds. *)
Definition fraction_digits (f : N) : string :=
  (if (f =? 0)%N then ""
   else if (f mod 100 =? 0)%N then "." +:+ pretty (f / 100)
   else if (f mod 10 =? 0)%N then "." +:+ pretty (f / 100) +:+ pretty (f / 10 mod 10)
   else "." +:+ pretty (f / 100) +:+ pretty (f / 10 mod 10) +:+ pretty (f mod 10))%string%N.

Definition debug_millis (ms : N) : string :=
  (if (ms <? 1000)%N then pretty ms +:+ "ms"
   else pretty (ms / 1000)%N +:+ fraction_digits (ms mod 1000) +:+ "s")%string.

Definition not_ready_exhausted (number : N) (err_msg : string) : string :=
  enrich_failure number (": still not ready after " +:+ debug_millis (not_ready_budget o))%string err_msg.

Definition profile_of (s : EnrichState) : EnrichProfile :=
  let '(logs, receipts, traces) := es_legs s in
  mkEnrichProfile (es_attempts s) (es_waited s) logs receipts traces.

(** The budgets of a turn: the pause, the deadline it runs under and the new
    counters, or the failure. *)
Definition charge (number : N) (turn : Turn) (not_ready : bool) (err_msg : string) (s : EnrichState)
    : Result (N * option N * nat * option N) string :=
  if not_ready then
    let deadline := default (tn_anchor turn + not_ready_budget o)%N (es_deadline s) in
    if (deadline <=? tn_now turn)%N then Err (not_ready_exhausted number err_msg)
    else Ok (NOT_READY_DELAY, Some deadline, es_incoherent_retries s, Some deadline)
  else
    if P_ENRICH_RETRIES <=? es_incoherent_retries s then
      Err (enrich_failure number (" after " +:+ pretty P_ENRICH_RETRIES +:+ " retries")%string err_msg)
    else Ok (P_ENRICH_DELAY, None, S (es_incoherent_retries s), es_deadline s).

(** The legs to re-run alone, when the header is not in doubt. *)
Definition residual_request (req : DataRequest) (not_ready : bool) (s : EnrichState) : option DataRequest :=
  let contested := match es_blocks s with b :: _ => header_contested b | [] => false end in
  if not_ready && negb contested && (es_legs_only_streak s <? LEGS_ONLY_RETRIES) then
    match es_blocks s with
    | b :: _ => let r := missing_legs b req in if wants_anything r then Some r else None
    | [] => None
    end
  else None.

Definition clear_head (blocks : list Raw) : list Raw :=
  match blocks with b :: blocks => clear_invalid b :: blocks | [] => [] end.

(** The acquisition after the pause. *)
Definition reacquire (number : N) (req : DataRequest) (residual : option DataRequest) (turn : Turn)
    (blocks : list Raw) : option (Result (list Raw * (N * N * N)) string) :=
  match residual with
  | Some residual =>
      let! r := fetch_and_apply (tn_moment turn) (clear_head blocks) residual in
      Some (map_ok (fun bs => (bs, tn_legs turn)) r)
  | None =>
      let! r := get_block_batch (tn_moment turn) [number] req in
      Some (map_ok (fun bs => (bs, (0, 0, 0)%N)) r)
  end.

Definition saturating_u32 (n : N) : N := N.min 4294967295 n.

(** The block a turn finds ready. *)
Definition ready_block (s : EnrichState) : option Raw :=
  match es_blocks s with b :: _ => if is_invalid b then None else Some b | [] => None end.

(** One turn on a block that is not ready. *)
Definition enrich_turn (number : N) (req : DataRequest) (turn : Turn) (s : EnrichState)
    : option (Result EnrichState string) :=
  let not_ready := match es_blocks s with b :: _ => is_not_ready b | [] => true end in
  let err_msg := default "block not available"%string
                   (match es_blocks s with b :: _ => error_message b | [] => None end) in
  match charge number turn not_ready err_msg s with
  | Err e => Some (Err e)
  | Ok (delay, under, incoherent_retries, deadline) =>
      let residual := residual_request req not_ready s in
      let streak := match residual with Some _ => S (es_legs_only_streak s) | None => 0 end in
      if is_some under && tn_elapsed turn then Some (Err (not_ready_exhausted number err_msg))
      else
        let! r := reacquire number req residual turn (es_blocks s) in
        Some (map_ok (fun '(blocks, legs) =>
                mkEnrichState blocks incoherent_retries deadline streak
                  (saturating_u32 (es_attempts s + 1)) (es_waited s + delay)%N legs) r)
  end.

Fixpoint enrich_loop (fuel : nat) (number : N) (req : DataRequest) (turns : nat -> Turn) (k : nat)
    (s : EnrichState) : Run (Raw * EnrichProfile) :=
  match fuel with
  | O => OutOfFuel
  | S fuel =>
      match ready_block s with
      | Some b => Returned (Ok (b, profile_of s))
      | None =>
          match enrich_turn number req (turns k) s with
          | None => Panicked
          | Some (Err e) => Returned (Err e)
          | Some (Ok s) => enrich_loop fuel number req turns (S k) s
          end
      end
  end.

(** [start] is the first attempt's moment and its legs' times. *)
Definition enrich_block_with_retry (fuel : nat) (body : Raw) (req : DataRequest)
    (start : Moment * (N * N * N)) (turns : nat -> Turn) : Run (Raw * EnrichProfile) :=
  if negb (wants_anything req) then Returned (Ok (body, EnrichProfile_default))
  else
    match add_requested_data start.1 [body] req with
    | None => Panicked
    | Some (Err e) => Returned (Err e)
    | Some (Ok blocks) =>
        enrich_loop fuel (raw_number body) req turns 0
          (mkEnrichState blocks 0 None 0 1 0 start.2)
    end.
End fetch.

(** ** Growth: an acquisition only adds, and a mark only worsens *)

Section growth.
Context {Value : Type}.
Implicit Types b : RawRpcBlock Value.

Definition kept {A} (a b : option A) : Prop := is_Some a -> is_Some b.

(** Not marked incoherent: the header in hand is not contradicted. *)
Definition coherent b : Prop := is_invalid b = true -> is_not_ready b = true.

(** Same block, no component lost, no mark forgotten. *)
Record grows (b b' : RawRpcBlock Value) : Prop := {
  gr_id : (raw_number b', raw_hash b', raw_block b') = (raw_number b, raw_hash b, raw_block b);
  gr_logs : kept (raw_logs b) (raw_logs b');
  gr_receipts : kept (raw_receipts b) (raw_receipts b');
  gr_frames : kept (raw_debug_frames b) (raw_debug_frames b');
  gr_replays : kept (raw_trace_replays b) (raw_trace_replays b');
  gr_diffs : kept (raw_debug_state_diffs b) (raw_debug_state_diffs b');
  gr_valid : is_invalid b' = false -> is_invalid b = false;
  gr_coherent : coherent b' -> coherent b
}.

Ltac grow := split; unfold kept, coherent; simpl; try done; auto; try (by intros _; eexists).

#[export] Instance grows_preorder : PreOrder grows.
Proof.
  split; [intros b; grow|]. intros a b c [] []. split; unfold kept in *; auto. congruence.
Qed.

Ltac grow_mark b :=
  unfold mark_invalid, mark_header_contested, mark_not_ready;
  destruct (is_invalid b) eqn:?, (is_not_ready b) eqn:?; grow; naive_solver congruence.

Lemma grows_invalid b msg : grows b (mark_invalid b msg).
Proof. grow_mark b. Qed.
Lemma grows_not_ready b msg : grows b (mark_not_ready b msg).
Proof. grow_mark b. Qed.
Lemma grows_contested b msg : grows b (mark_header_contested b msg).
Proof. grow_mark b. Qed.
Lemma grows_logs b l : grows b (set_logs b (Some l)).
Proof. grow. Qed.
Lemma grows_receipts b l : grows b (set_receipts b (Some l)).
Proof. grow. Qed.
Lemma grows_frames b l : grows b (set_debug_frames b (Some l)).
Proof. grow. Qed.
Lemma grows_replays b l : grows b (set_trace_replays b (Some l)).
Proof. grow. Qed.
Lemma grows_diffs b l : grows b (set_debug_state_diffs b (Some l)).
Proof. grow. Qed.

Lemma not_ready_invalid b msg : is_invalid (mark_not_ready b msg) = true.
Proof. unfold mark_not_ready. destruct (is_invalid b) eqn:E; simpl; [|done]. by destruct (is_not_ready b). Qed.
Lemma contested_invalid b msg : is_invalid (mark_header_contested b msg) = true.
Proof.
  unfold mark_header_contested. destruct (is_invalid b && negb (is_not_ready b)) eqn:E.
  - by apply andb_true_iff in E as [? _].
  - apply not_ready_invalid.
Qed.

(** [P] holds of a block unless it is marked. *)
Definition unless_marked (P : RawRpcBlock Value -> Prop) (b : RawRpcBlock Value) : Prop :=
  is_invalid b = false -> P b.

(** A leg's outcome: every block grows, and the unmarked ones have [P]. *)
Definition leg_done (P : RawRpcBlock Value -> Prop) (bs bs' : list (RawRpcBlock Value)) : Prop :=
  Forall2 (fun b b' => grows b b' /\ unless_marked P b') bs bs'.

Lemma leg_done_refl bs : leg_done (fun _ => True) bs bs.
Proof. induction bs; constructor; [|done]. split; [reflexivity|done]. Qed.

Lemma leg_done_trans P Q bs bs1 bs2 :
  (forall b b', grows b b' -> P b -> P b') ->
  leg_done P bs bs1 -> leg_done Q bs1 bs2 -> leg_done (fun b => P b /\ Q b) bs bs2.
Proof.
  intros HP H1. revert bs2. induction H1 as [|b b1 bs bs1 [Hg HPb] _ IH]; intros bs2 H2.
  - inversion H2. constructor.
  - inversion H2 as [|? b2 ? bs2' [Hg2 HQb] H2']; subst. constructor; [|by apply IH].
    split; [by etransitivity|]. intros Hv. split; [|by apply HQb].
    eapply HP; [exact Hg2|]. apply HPb. by apply (gr_valid _ _ Hg2).
Qed.

Lemma leg_done_weaken (P Q : RawRpcBlock Value -> Prop) bs bs' :
  (forall b, P b -> Q b) -> leg_done P bs bs' -> leg_done Q bs bs'.
Proof.
  intros HPQ Hl. eapply Forall2_impl; [exact Hl|]. intros b b' [Hg HP]. split; [done|].
  intros Hv. by apply HPQ, HP.
Qed.
End growth.

(** ** Each leg delivers its component or leaves a mark *)

Section legs_done.
Context {Value : Type} `{Json Value} `{Hex} `{Keccak} `{Rayon} `{Trie}.
Context (recover : RpcTransaction -> Result (option string) string).
Context (error_text : RpcError (Value := Value) -> string).
Context (o : RpcOptions).
#[local] Abbreviation Raw := (RawRpcBlock Value).

Definition has_logs (b : Raw) : Prop := is_Some (raw_logs b).
Definition has_receipts (b : Raw) : Prop := is_Some (raw_receipts b).
Definition has_traces (req : DataRequest) (b : Raw) : Prop := traces_leg_in_hand b req = true.

Lemma apply_logs_done cu m blocks blocks' :
  apply_logs o cu m blocks = Some blocks' -> leg_done has_logs blocks blocks'.
Proof.
  revert m blocks'. induction blocks as [|b blocks IH]; intros m blocks'; simpl.
  { intros [= <-]. constructor. }
  destruct (apply_block_logs o cu b _) as [b'|] eqn:E; [|done].
  destruct (apply_logs o cu _ blocks) as [rest|] eqn:Er; [|done]. intros [= <-].
  constructor; [|by eapply IH]. unfold apply_block_logs in E.
  destruct (bool_decide _ && _).
  { simplify_eq. split; [apply grows_not_ready|]. intros Hv. by rewrite not_ready_invalid in Hv. }
  destruct (verify_logs _ _ _ _) as [[[]|e]|]; simplify_eq/=.
  - split; [apply grows_logs|]. intros _. by eexists.
  - split; [apply grows_invalid|]. done.
Qed.

Lemma accept_receipts_done cu b receipts b' :
  accept_receipts o cu b receipts = Some b' -> grows b b' /\ unless_marked has_receipts b'.
Proof.
  unfold accept_receipts. destruct (and_then _ _) as [[[]|e]|]; intros; simplify_eq/=.
  - split; [apply grows_receipts|]. intros _. by eexists.
  - split; [apply grows_invalid|]. done.
Qed.

Lemma contested_done b msg : grows b (mark_header_contested b msg) /\
  unless_marked has_receipts (mark_header_contested b msg).
Proof. split; [apply grows_contested|]. intros Hv. by rewrite contested_invalid in Hv. Qed.

Lemma not_ready_done (P : Raw -> Prop) b msg :
  grows b (mark_not_ready b msg) /\ unless_marked P (mark_not_ready b msg).
Proof. split; [apply grows_not_ready|]. intros Hv. by rewrite not_ready_invalid in Hv. Qed.

Lemma apply_block_receipts_done cu b result b' :
  apply_block_receipts error_text o cu b result = Some b' -> grows b b' /\ unless_marked has_receipts b'.
Proof.
  unfold apply_block_receipts. destruct result as [v|e].
  2:{ intros [= <-]. split; [apply grows_invalid|done]. }
  destruct (json_is_null v); [intros [= <-]; apply not_ready_done|].
  destruct (foreign_receipt _ _); [intros [= <-]; apply contested_done|].
  destruct (negb _); [intros [= <-]; apply not_ready_done|]. apply accept_receipts_done.
Qed.

(** An unparsable answer of [eth_getBlockReceipts] reads as no receipts: lag for
    a block with transactions, a complete empty set for one without. *)
Lemma unparsable_receipts_judged cu b v e :
  from_value_receipts v = Err e -> json_is_null v = false ->
  apply_block_receipts error_text o cu b (Ok v)
  = if (length (blk_transactions (raw_block b)) =? 0) then accept_receipts o cu b []
    else Some (mark_not_ready b "got invalid number of receipts from eth_getBlockReceipts").
Proof.
  intros Hv Hn. unfold apply_block_receipts, renumbered. rewrite Hn, Hv. simpl.
  replace (if has cu NonSequentialLogIndexes then renumber_logs [] else []) with (@nil RpcReceipt)
    by by destruct (has _ _).
  simpl. by destruct (length _ =? 0).
Qed.

Lemma apply_tx_receipts_done cu b results b' :
  apply_tx_receipts o cu b results = Some b' -> grows b b' /\ unless_marked has_receipts b'.
Proof.
  unfold apply_tx_receipts.
  destruct (negb _); [intros [= <-]; apply not_ready_done|].
  destruct (foreign_receipt _ _); [intros [= <-]; apply contested_done|]. apply accept_receipts_done.
Qed.

Lemma apply_receipts_by_block_done cu blocks results blocks' :
  length results = length blocks ->
  apply_receipts_by_block error_text o cu blocks results = Some blocks' ->
  leg_done has_receipts blocks blocks'.
Proof.
  revert blocks blocks'. induction results as [|r results IH]; intros [|b blocks] blocks' Hlen; simpl;
    try done.
  { intros [= <-]. constructor. }
  destruct (apply_block_receipts error_text o cu b r) as [b'|] eqn:E; [|done].
  destruct (apply_receipts_by_block _ _ cu blocks results) as [rest|] eqn:Er; [|done]. intros [= <-].
  constructor; [by eapply apply_block_receipts_done|]. apply IH; [by injection Hlen|done].
Qed.

Lemma apply_receipts_by_tx_done cu blocks results blocks' :
  apply_receipts_by_tx o cu blocks results = Some blocks' -> leg_done has_receipts blocks blocks'.
Proof.
  revert results blocks'. induction blocks as [|b blocks IH]; intros results blocks'; simpl.
  { intros [= <-]. constructor. }
  destruct (apply_tx_receipts o cu b _) as [b'|] eqn:E; [|done].
  destruct (apply_receipts_by_tx _ cu blocks _) as [rest|] eqn:Er; [|done]. intros [= <-].
  constructor; [by eapply apply_tx_receipts_done|by eapply IH].
Qed.

(** ** The traces leg *)

Definition has_frames (b : Raw) : Prop := is_Some (raw_debug_frames b).
Definition has_diffs (b : Raw) : Prop := is_Some (raw_debug_state_diffs b).
Definition has_replays (b : Raw) : Prop := is_Some (raw_trace_replays b).

Definition all_grow : list Raw -> list Raw -> Prop := Forall2 grows.

#[export] Instance all_grow_preorder : PreOrder all_grow.
Proof. unfold all_grow. split; apply _. Qed.

(** The blocks at [t] have [P] unless marked. *)
Definition done_at (P : Raw -> Prop) (t : list nat) (bs : list Raw) : Prop :=
  forall i b, i ∈ t -> bs !! i = Some b -> unless_marked P b.

Definition grow_stable (P : Raw -> Prop) : Prop := forall b b', grows b b' -> P b -> P b'.

Lemma unless_marked_grows P b b' :
  grow_stable P -> grows b b' -> unless_marked P b -> unless_marked P b'.
Proof. intros HP Hg Hb Hv. eapply HP; [exact Hg|]. apply Hb. by apply (gr_valid _ _ Hg). Qed.

Lemma done_at_grows P t bs bs' :
  grow_stable P -> all_grow bs bs' -> done_at P t bs -> done_at P t bs'.
Proof.
  intros HP Hg Hd i b Hi Hb. destruct (Forall2_lookup_r _ _ _ _ _ Hg Hb) as (b0 & Hb0 & Hgb).
  eapply unless_marked_grows; [done|done|]. by eapply Hd.
Qed.

Lemma apply_component_spec {A} (set : Raw -> A -> Raw) P l bs bs' :
  (forall b x, grows b (set b x) /\ P (set b x)) -> grow_stable P ->
  apply_component set bs l = Some bs' -> all_grow bs bs' /\ done_at P l.*1 bs'.
Proof.
  intros Hset HP. revert bs. induction l as [|[i c] l IH]; intros bs; cbn [apply_component].
  { intros [= <-]. split; [done|]. by intros i b ?%elem_of_nil. }
  destruct (bs !! i) as [b|] eqn:Hb; [|done].
  set (b1 := match c with Ok x => set b x | Err reason => mark_invalid b reason end).
  assert (grows b b1 /\ unless_marked P b1) as [Hg1 HP1].
  { destruct c as [x|e]; subst b1; simpl; [split; [apply Hset|]; intros _; apply Hset|].
    split; [apply grows_invalid|done]. }
  intros Happ. destruct (IH _ Happ) as [Hg Hd].
  assert (all_grow bs (<[i:=b1]> bs)) as Hins.
  { rewrite <- (list_insert_id bs i b Hb) at 1. apply Forall2_insert; [done|]. done. }
  split; [by etransitivity|]. intros j b' [->|Hj]%elem_of_cons Hb'; [|by eapply Hd].
  simpl in Hb'. destruct (Forall2_lookup_r _ _ _ _ _ Hg Hb') as (b2 & Hb2 & Hg2).
  rewrite list_lookup_insert_eq in Hb2 by (by eapply lookup_lt_Some). simplify_eq.
  by eapply unless_marked_grows.
Qed.

(** A selected component has an entry for every traceable block. *)
Definition aligned {A} (t : list nat) (l : option (list A)) : Prop :=
  match l with Some l => length l = length t | None => True end.

Lemma apply_opt_spec {A} (set : Raw -> A -> Raw) P t l bs bs' :
  (forall b x, grows b (set b x) /\ P (set b x)) -> grow_stable P -> aligned t l ->
  apply_opt set t l bs = Some bs' ->
  all_grow bs bs' /\ (is_Some l -> done_at P t bs').
Proof.
  intros Hset HP Hal. destruct l as [l|]; simpl.
  - intros Happ. destruct (apply_component_spec set P _ _ _ Hset HP Happ) as [Hg Hd].
    split; [done|]. intros _. by rewrite fst_zip in Hd by (simpl in Hal; lia).
  - intros [= <-]. split; [done|]. by intros [? ?].
Qed.

Lemma has_stable :
  grow_stable has_logs /\ grow_stable has_receipts /\ grow_stable has_frames
  /\ grow_stable has_diffs /\ grow_stable has_replays.
Proof. split_and!; intros b b' []; unfold kept in *; auto. Qed.

Lemma is_some_true {A} (x : option A) : is_some x = true <-> is_Some x.
Proof. by destruct x. Qed.

Lemma has_traces_spec req b :
  has_traces req b <-> raw_number b = 0%N \/
    ((rq_traces req && negb (use_trace_api req) = true -> has_frames b)
     /\ (rq_state_diffs req && use_debug_api_for_state_diffs req = true -> has_diffs b)
     /\ ((rq_state_diffs req && negb (use_debug_api_for_state_diffs req))
          || (rq_traces req && use_trace_api req) = true -> has_replays b)).
Proof.
  unfold has_traces, traces_leg_in_hand. destruct (N.eqb_spec (raw_number b) 0) as [|Hne]; [by split; [left|]|].
  assert (forall (c : bool) {A} (x : option A), negb c || is_some x = true <-> (c = true -> is_Some x)) as Hc.
  { intros [] A x; simpl; [rewrite is_some_true|]; naive_solver. }
  unfold has_frames, has_diffs, has_replays. simpl.
  rewrite <- (Hc (rq_traces req && negb (use_trace_api req))),
    <- (Hc (rq_state_diffs req && use_debug_api_for_state_diffs req)),
    <- (Hc (rq_state_diffs req && negb (use_debug_api_for_state_diffs req) || rq_traces req && use_trace_api req)).
  rewrite andb_true_iff, andb_true_iff. tauto.
Qed.

Lemma has_traces_stable req : grow_stable (has_traces req).
Proof.
  intros b b' Hg. rewrite !has_traces_spec. destruct has_stable as (_ & _ & Hf & Hd & Hr).
  pose proof (gr_id _ _ Hg) as E. injection E as -> _ _.
  intros [?|(E1 & E2 & E3)]; [by left|right]. split_and!; eauto.
Qed.

(** What [fetch_traces] answers for a request. *)
Definition traces_for (req : DataRequest) (bs : list Raw) (f : TracesFetch (Value := Value)) : Prop :=
  traceable f = traceable_of bs
  /\ aligned (traceable f) (tfetch_debug_frames f) /\ aligned (traceable f) (tfetch_debug_diffs f)
  /\ aligned (traceable f) (tfetch_trace_replays f) /\ aligned (traceable f) (tfetch_trace_block f)
  /\ (traceable f <> [] ->
      (rq_traces req && negb (use_trace_api req) = true -> is_Some (tfetch_debug_frames f))
      /\ (rq_state_diffs req && use_debug_api_for_state_diffs req = true -> is_Some (tfetch_debug_diffs f))
      /\ ((rq_state_diffs req && negb (use_debug_api_for_state_diffs req))
          || (rq_traces req && use_trace_api req) = true ->
          is_Some (tfetch_trace_replays f) \/ is_Some (tfetch_trace_block f))).

Lemma traceable_of_spec (bs : list Raw) i b :
  bs !! i = Some b -> raw_number b <> 0%N -> i ∈ traceable_of bs.
Proof.
  intros Hb Hn. unfold traceable_of. apply list_elem_of_fmap. exists (i, b). split; [done|].
  apply list_elem_of_filter. split; [done|]. apply list_elem_of_lookup. exists i.
  by rewrite list_lookup_imap, Hb.
Qed.

Lemma apply_traces_done req bs f bs' :
  traces_for req bs f -> apply_traces bs f = Some bs' -> leg_done (has_traces req) bs bs'.
Proof.
  intros (Ht & Haf & Had & Har & Hab & Hsel). unfold apply_traces.
  destruct has_stable as (_ & _ & Hsf & Hsd & Hsr).
  destruct (apply_opt _ _ (tfetch_debug_frames f) bs) as [bs1|] eqn:E1; [|done].
  destruct (apply_opt _ _ (tfetch_debug_diffs f) bs1) as [bs2|] eqn:E2; [|done].
  destruct (apply_opt _ _ (tfetch_trace_replays f) bs2) as [bs3|] eqn:E3; [|done]. intros E4.
  apply (apply_opt_spec _ has_frames) in E1 as [G1 D1];
    [|intros; split; [apply grows_frames|by eexists]|done..].
  apply (apply_opt_spec _ has_diffs) in E2 as [G2 D2];
    [|intros; split; [apply grows_diffs|by eexists]|done..].
  apply (apply_opt_spec _ has_replays) in E3 as [G3 D3];
    [|intros; split; [apply grows_replays|by eexists]|done..].
  apply (apply_opt_spec _ has_replays) in E4 as [G4 D4];
    [|intros; split; [apply grows_replays|by eexists]|done..].
  assert (all_grow bs bs') as G by (by do 3 (etransitivity; [eassumption|])).
  apply Forall2_same_length_lookup. split; [by eapply Forall2_length|].
  intros i b b' Hb Hb'. pose proof (Forall2_lookup_lr _ _ _ _ _ _ G Hb Hb') as Hg.
  split; [done|]. intros Hv. apply has_traces_spec.
  destruct (decide (raw_number b' = 0%N)) as [|Hn]; [by left|right].
  assert (i ∈ traceable f) as Hi.
  { rewrite Ht. eapply traceable_of_spec; [done|]. pose proof (gr_id _ _ Hg) as E. congruence. }
  destruct Hsel as (S1 & S2 & S3); [intros E; rewrite E in Hi; by apply elem_of_nil in Hi|].
  split_and!; intros Hs.
  - assert (done_at has_frames (traceable f) bs') as Hd; [|by eapply Hd].
    eapply done_at_grows; [done| |by apply D1, S1].
    by do 2 (etransitivity; [eassumption|]).
  - assert (done_at has_diffs (traceable f) bs') as Hd; [|by eapply Hd].
    eapply done_at_grows; [done| |by apply D2, S2]. by etransitivity; [eassumption|].
  - assert (done_at has_replays (traceable f) bs') as Hd; [|by eapply Hd].
    destruct (S3 Hs) as [Hx|Hx]; [|by apply D4]. by eapply (done_at_grows _ _ bs3), D3.
Qed.

(** ** What the client's answers give *)

Lemma per_block_length {A} (f : Result Value (RpcError (Value := Value)) -> Raw -> A) results blocks l :
  per_block f results blocks = Some l -> length l = length results.
Proof.
  revert blocks l. induction results as [|r results IH]; intros blocks l; simpl; [by intros [= <-]|].
  destruct blocks as [|b blocks]; [done|]. destruct (per_block f results blocks) as [rest|] eqn:E; [|done].
  intros [= <-]. simpl. f_equal. by eapply IH.
Qed.

Lemma traceable_blocks_length (bs : list Raw) :
  length (omap (fun i => bs !! i) (traceable_of bs)) = length (traceable_of bs).
Proof.
  assert (forall i, i ∈ traceable_of bs -> is_Some (bs !! i)) as Hin.
  { intros i Hi. unfold traceable_of in Hi. apply list_elem_of_fmap in Hi as ([j b] & -> & Hj).
    apply list_elem_of_filter in Hj as [_ Hj]. apply list_elem_of_lookup in Hj as [k Hk].
    rewrite list_lookup_imap in Hk. destruct (bs !! k) as [b'|] eqn:E; [|done]. simplify_eq/=. by eexists. }
  induction (traceable_of bs) as [|i t IH]; simpl; [done|].
  destruct (Hin i) as [b ->]; [by left|]. simpl. f_equal. apply IH. intros j Hj. apply Hin. by right.
Qed.

(** A selected leg is there, and lines up with what [P] says of it. *)
Lemma sub_leg_spec {A} (P : A -> Prop) selected run (r : option A) :
  (forall a, run = Some (Ok a) -> P a) ->
  sub_leg selected run = Some (Ok r) ->
  match r with Some a => P a | None => True end /\ (selected = true -> is_Some r).
Proof.
  intros HP. unfold sub_leg. destruct selected; [|by intros [= <-]].
  destruct run as [[a|e]|]; simpl; try done. intros [= <-]. split; [by apply HP|]. by eexists.
Qed.

Ltac leg_length :=
  repeat match goal with
  | |- context [fc_batch ?c ?calls ?h] => destruct (fc_batch c calls h) as [results|] eqn:Hbatch; [|done]
  | |- context [match ?cu with Ok _ => _ | Err _ => _ end] => destruct cu; [|done]
  | |- context [per_block ?f ?r ?b] => destruct (per_block f r b) as [?|] eqn:?; [|done]
  end;
  intros [= <-]; erewrite per_block_length by eassumption;
  match goal with Hc : client_answers_each _, Hb : fc_batch _ _ _ = _ |- _ =>
    rewrite (Hc _ _ _ Hb); apply length_fmap end.

Lemma fetch_debug_frames_length cu client blocks req l :
  client_answers_each client ->
  fetch_debug_frames error_text o cu client blocks req = Some (Ok l) -> length l = length blocks.
Proof. intros Hc. unfold fetch_debug_frames. leg_length. Qed.

Lemma fetch_debug_state_diffs_length cu client blocks req l :
  client_answers_each client ->
  fetch_debug_state_diffs error_text cu client blocks req = Some (Ok l) -> length l = length blocks.
Proof. intros Hc. unfold fetch_debug_state_diffs. leg_length. Qed.

Lemma fetch_trace_replays_length client blocks tracers l :
  client_answers_each client ->
  fetch_trace_replays error_text client blocks tracers = Some (Ok l) -> length l = length blocks.
Proof. intros Hc. unfold fetch_trace_replays. leg_length. Qed.

Lemma fetch_trace_block_length client blocks l :
  client_answers_each client ->
  fetch_trace_block error_text client blocks = Some (Ok l) -> length l = length blocks.
Proof. intros Hc. unfold fetch_trace_block. leg_length. Qed.

Lemma fetch_traces_spec cu client bs req f :
  client_answers_each client ->
  fetch_traces error_text o cu client bs req = Some (Ok f) -> traces_for req bs f.
Proof.
  intros Hc. unfold fetch_traces. pose proof (traceable_blocks_length bs) as Hlen.
  unfold traces_for, aligned. destruct (traceable_of bs) as [|i t] eqn:Et.
  { intros [= <-]. by split_and!. }
  rewrite <- Et in *. clear Et i t. set (t := traceable_of bs) in *.
  set (tb := omap (fun i => bs !! i) t) in *.
  destruct (sub_leg _ (fetch_debug_frames _ _ _ _ _ _)) as [a|] eqn:Ea; [|done].
  destruct (sub_leg _ (fetch_debug_state_diffs _ _ _ _ _)) as [b|] eqn:Eb; [|done].
  destruct (sub_leg _ (fetch_trace_replays _ _ _ _)) as [c|] eqn:Ec; [|done].
  destruct (sub_leg _ (fetch_trace_block _ _ _)) as [d|] eqn:Ed; [|done].
  destruct a as [a|], b as [b|], c as [c|], d as [d|]; simpl; intros E; simplify_eq/=.
  apply (sub_leg_spec (fun l => length l = length t)) in Ea as [La Sa];
    [|intros l E; rewrite <- Hlen; by eapply fetch_debug_frames_length].
  apply (sub_leg_spec (fun l => length l = length t)) in Eb as [Lb Sb];
    [|intros l E; rewrite <- Hlen; by eapply fetch_debug_state_diffs_length].
  apply (sub_leg_spec (fun l => length l = length t)) in Ec as [Lc Sc];
    [|intros l E; rewrite <- Hlen; by eapply fetch_trace_replays_length].
  apply (sub_leg_spec (fun l => length l = length t)) in Ed as [Ld Sd];
    [|intros l E; rewrite <- Hlen; by eapply fetch_trace_block_length].
  split_and!; try done.
  intros _. split_and!; try done. intros Hw.
  destruct (rq_state_diffs req), (use_debug_api_for_state_diffs req), (rq_traces req),
    (use_trace_api req); simpl in *; try done; auto.
Qed.

Lemma traceable_grows (bs bs' : list Raw) : all_grow bs bs' -> traceable_of bs' = traceable_of bs.
Proof.
  intros Hg. unfold traceable_of. change (@pair nat Raw) with (fun i => @pair nat Raw (id i)).
  generalize (@id nat) as g. induction Hg as [|b b' bs bs' Hb _ IH]; intros g; [done|].
  cbn [imap]. rewrite !filter_cons. cbn [snd].
  assert (raw_number b' = raw_number b) as -> by (pose proof (gr_id _ _ Hb); congruence).
  specialize (IH (fun i => g (S i))). case_decide; cbn [fmap list_fmap fst]; [f_equal|]; exact IH.
Qed.

Lemma traces_for_grows req bs bs' f : all_grow bs bs' -> traces_for req bs f -> traces_for req bs' f.
Proof. intros Hg. unfold traces_for. by rewrite (traceable_grows _ _ Hg). Qed.

Lemma leg_done_grow P bs bs' : leg_done P bs bs' -> all_grow bs bs'.
Proof. intros Hl. eapply Forall2_impl; [exact Hl|]. by intros b b' []. Qed.

(** Every component a request selects is in hand. *)
Definition complete (req : DataRequest) (b : Raw) : Prop :=
  (rq_logs req = true -> has_logs b) /\ (rq_receipts req = true -> has_receipts b) /\ has_traces req b.

Lemma complete_stable req : grow_stable (complete req).
Proof.
  destruct has_stable as (Hl & Hr & _). intros b b' Hg (? & ? & ?).
  split_and!; eauto. by eapply has_traces_stable.
Qed.

Lemma has_traces_unselected req b : rq_traces req || rq_state_diffs req = false -> has_traces req b.
Proof. intros [E1 E2]%orb_false_iff. apply has_traces_spec. right. by rewrite E1, E2. Qed.

Lemma fetch_receipts_done method client cu bs0 bs f bs' :
  client_answers_each client -> length bs0 = length bs ->
  fetch_receipts error_text method client bs0 = Ok f ->
  apply_receipts error_text o cu bs f = Some bs' -> leg_done has_receipts bs bs'.
Proof.
  intros Hc Hlen. unfold fetch_receipts, fetch_receipts_by_block, fetch_receipts_by_tx.
  destruct (get_receipts_method method client).
  - destruct (fc_batch _ _ _) as [results|] eqn:E; intros; simplify_eq/=.
    eapply apply_receipts_by_block_done; [|done]. rewrite (Hc _ _ _ E), length_fmap. lia.
  - destruct (fc_batch _ _ _) as [results|] eqn:E; intros; simplify_eq/=.
    by eapply apply_receipts_by_tx_done.
Qed.

Lemma apply_leg_spec {A} (P : A -> Raw -> Prop) cu (x : option A) apply bs r :
  (forall cu a bs', x = Some a -> apply cu a = Some bs' -> leg_done (P a) bs bs') ->
  apply_leg cu x apply bs = Some (Ok r) ->
  leg_done (fun b => match x with Some a => P a b | None => True end) bs r.
Proof.
  intros HP. unfold apply_leg. destruct x as [a|]; [|intros [= <-]; apply leg_done_refl].
  destruct cu as [cu|e]; [|done]. destruct (apply cu a) as [bs'|] eqn:E; [|done]. intros [= <-].
  by eapply HP.
Qed.

Lemma fetch_and_apply_done m bs req bs' :
  client_answers_each (mo_client m) ->
  fetch_and_apply error_text o m bs req = Some (Ok bs') -> leg_done (complete req) bs bs'.
Proof.
  intros Hc. unfold fetch_and_apply. set (cu := get_chain_utils _ _ _ _).
  destruct (sub_leg (rq_logs req) _) as [logs|] eqn:El; [|done].
  destruct (sub_leg (rq_receipts req) _) as [receipts|] eqn:Er; [|done].
  destruct (sub_leg (rq_traces req || _) _) as [traces|] eqn:Et; [|done].
  destruct logs as [logs|]; [|done]. cbn [join_or_err map_ok].
  apply (sub_leg_spec (fun _ => True)) in El as [_ Sl]; [|done].
  destruct (apply_leg _ logs _ bs) as [[bs1|]|] eqn:E1; [|done|done].
  apply (apply_leg_spec (fun _ => has_logs)) in E1; [|intros; by eapply apply_logs_done].
  destruct receipts as [receipts|]; [|done]. cbn [join_or_err map_ok].
  apply (sub_leg_spec (fun f => fetch_receipts error_text (mo_method m) (mo_client m) bs = Ok f)) in Er
    as [Lr Sr]; [|by intros f [= ->]].
  destruct (apply_leg _ receipts _ bs1) as [[bs2|]|] eqn:E2; [|done|done].
  apply (apply_leg_spec (fun _ => has_receipts)) in E2;
    [|intros c f b' -> Ha; eapply fetch_receipts_done; [done| |done|done]; by eapply Forall2_length].
  destruct traces as [traces|]; [|done].
  apply (sub_leg_spec (traces_for req bs)) in Et as [Lt St]; [|intros; by eapply fetch_traces_spec].
  assert (leg_done (fun b => (rq_logs req = true -> has_logs b)
            /\ (rq_receipts req = true -> has_receipts b)) bs bs2) as H12.
  { eapply leg_done_weaken; [|eapply leg_done_trans; [|exact E1|exact E2]]; simpl.
    - intros b [Hl Hr]. split; intros Hs; [destruct (Sl Hs)|destruct (Sr Hs)]; by simplify_eq.
    - destruct has_stable as (Hst & _). intros b b' Hg. destruct logs; [|done]. by apply Hst. }
  destruct has_stable as (Hst1 & Hst2 & _).
  assert (grow_stable (fun b => (rq_logs req = true -> has_logs b)
            /\ (rq_receipts req = true -> has_receipts b))) as Hst.
  { intros b b' Hg [? ?]. split; eauto. }
  destruct traces as [t|].
  - destruct (apply_traces bs2 t) as [bs3|] eqn:E3; [|done]. intros [= <-].
    eapply (traces_for_grows _ _ bs2) in Lt; [|by eapply leg_done_grow].
    eapply leg_done_weaken; [|eapply leg_done_trans; [exact Hst|exact H12|by eapply apply_traces_done]].
    by intros b [[? ?] ?].
  - intros [= <-]. eapply leg_done_weaken; [|exact H12]. intros b [? ?]. split_and!; [done..|].
    apply has_traces_unselected. destruct (rq_traces req || rq_state_diffs req); [|done].
    by destruct (St eq_refl).
Qed.
End legs_done.

(** ** A block the retry returns is complete *)

Section enrichment.
Context {Value : Type} `{Json Value} `{Hex} `{Keccak} `{Rayon} `{Trie}.
Context (recover : RpcTransaction -> Result (option string) string).
Context (error_text : RpcError (Value := Value) -> string).
Context (o : RpcOptions).
#[local] Abbreviation Raw := (RawRpcBlock Value).

(** The header [b] carries is of its number and passed [verify_header] when it
    was fetched. *)
Definition verified (b : Raw) : Prop :=
  raw_number b = qty2_u64 (blk_number (raw_block b))
  /\ exists cu, verify_header recover o cu (RawRpcBlock_new (raw_number b) (raw_hash b) (raw_block b) : Raw)
             = Some (Ok tt).

(** The header is the speculative one, or one of its height that passed the
    checks. *)
Definition header_of (body b : Raw) : Prop :=
  raw_number b = raw_number body
  /\ ((raw_hash b, raw_block b) = (raw_hash body, raw_block body) \/ verified b).

Definition acquired (req : DataRequest) (body b : Raw) : Prop :=
  unless_marked (complete req) b /\ (coherent b -> header_of body b).

Lemma header_of_id body b b' :
  (raw_number b', raw_hash b', raw_block b') = (raw_number b, raw_hash b, raw_block b) ->
  header_of body b -> header_of body b'.
Proof. intros [= E1 E2 E3]. unfold header_of, verified. by rewrite E1, E2, E3. Qed.

Lemma classify_block_header cu n r b :
  classify_block recover error_text o cu n r = Some (Some b) ->
  coherent b -> raw_number b = n /\ verified b.
Proof.
  unfold classify_block, coherent. destruct r as [v|e].
  2:{ intros [= <-] Hb. by specialize (Hb eq_refl). }
  destruct (json_is_null v); [done|]. destruct (from_value_block v) as [rb|e].
  2:{ intros [= <-] Hb. by specialize (Hb eq_refl). }
  cbn zeta. destruct (N.eqb_spec (qty2_u64 (blk_number rb)) n) as [En|En]; cbn [negb].
  2:{ intros [= <-] Hb. by specialize (Hb eq_refl). }
  destruct (verify_header _ _ _ _) as [[[]|e]|] eqn:Ev; [|intros [= <-] Hb; by specialize (Hb eq_refl)|done].
  intros [= <-] _. split; [done|]. split; [done|by exists cu].
Qed.

(** Each block names the one before it, case aside; only the last may have no
    hash to chain from. *)
Definition linked (l : list Raw) : Prop :=
  (forall i a b, l !! i = Some a -> l !! S i = Some b ->
     raw_hash b = ""%string \/ eq_ignore_ascii_case (raw_hash a) (blk_parent_hash (raw_block b)) = true)
  /\ (forall i a, l !! i = Some a -> raw_hash a = ""%string -> S i = length l).

Lemma linked_snoc l b :
  linked l -> (forall a, a ∈ l -> raw_hash a <> ""%string) ->
  (raw_hash b = ""%string
   \/ forall a, last l = Some a -> eq_ignore_ascii_case (raw_hash a) (blk_parent_hash (raw_block b)) = true) ->
  linked (l ++ [b]).
Proof.
  intros [Hl _] Hne Hb. split.
  - intros i x y Hx Hy. apply lookup_app_Some in Hy as [Hy|[Hle Hy]].
    + eapply Hl; [|exact Hy]. rewrite lookup_app_l in Hx; [done|]. apply lookup_lt_Some in Hy. lia.
    + apply list_lookup_singleton_Some in Hy as [Hi <-]. destruct Hb as [Hb|Hb]; [by left|right].
      apply Hb. rewrite last_lookup, <- Hx, lookup_app_l by lia. f_equal. lia.
  - intros i x Hx Hemp. apply lookup_app_Some in Hx as [Hx|[Hle Hx]].
    + exfalso. eapply Hne; [|exact Hemp]. by eapply list_elem_of_lookup_2.
    + apply list_lookup_singleton_Some in Hx as [Hi _]. rewrite length_app. simpl. lia.
Qed.

(** From a chain of [i] chainable blocks, the filter ends without panic with
    the longest prefix it admits. *)
Lemma contiguous_spec blocks (chain : list Raw) :
  linked chain -> (forall a, a ∈ chain -> raw_hash a <> ""%string) ->
  exists l, contiguous (length chain) chain blocks = Some (chain ++ l) /\ linked (chain ++ l)
    /\ (Some <$> l) `prefix_of` blocks.
Proof.
  revert chain. induction blocks as [|[b|] blocks IH]; intros chain Hl Hne.
  1,3: exists []; rewrite app_nil_r; split_and!; [done..|apply prefix_nil].
  cbn [contiguous]. case_bool_decide as Hemp.
  { exists [b]. split_and!; [done|apply linked_snoc; auto|]. by apply prefix_cons, prefix_nil. }
  assert (forall a, a ∈ chain ++ [b] -> raw_hash a <> ""%string) as Hne'.
  { intros a [?| ->%list_elem_of_singleton]%elem_of_app; auto. }
  assert (forall i, i = length (chain ++ [b]) -> linked (chain ++ [b]) ->
    exists l, contiguous i (chain ++ [b]) blocks = Some (chain ++ l)
      /\ linked (chain ++ l) /\ (Some <$> l) `prefix_of` Some b :: blocks) as Hgo.
  { intros i -> Hlb. destruct (IH _ Hlb Hne') as (l & -> & Hll & Hp). exists (b :: l).
    rewrite <- app_assoc in *. split_and!; [done..|]. by apply prefix_cons. }
  destruct (length chain) as [|i'] eqn:Elen.
  { apply nil_length_inv in Elen as ->. apply Hgo; [done|]. apply linked_snoc; [done..|]. by right. }
  destruct (lookup_lt_is_Some_2 chain i') as [prev Hprev]; [lia|]. rewrite Hprev. cbn [mbind option_bind].
  destruct (eq_ignore_ascii_case _ _) eqn:Eq; cbn [negb].
  - apply Hgo; [rewrite length_app; simpl; lia|]. apply linked_snoc; [done..|]. right.
    rewrite last_lookup, Elen. intros a. simpl. by intros E; simplify_eq.
  - exists []. rewrite app_nil_r. split_and!; [done..|apply prefix_nil].
Qed.

Lemma linked_grows l l' : all_grow l l' -> linked l -> linked l'.
Proof.
  intros Hg [Hlk Hemp].
  assert (forall i b', l' !! i = Some b' -> exists b, l !! i = Some b /\ raw_hash b' = raw_hash b
            /\ raw_block b' = raw_block b) as Hback.
  { intros i b' Hb'. destruct (Forall2_lookup_r _ _ _ _ _ Hg Hb') as (b & Hb & Hgb).
    exists b. pose proof (gr_id _ _ Hgb) as [= ? ? ?]. done. }
  split.
  - intros i a' b' Ha Hb. destruct (Hback _ _ Ha) as (a & Hla & -> & _).
    destruct (Hback _ _ Hb) as (b & Hlb & -> & ->). by eapply Hlk.
  - intros i a' Ha. destruct (Hback _ _ Ha) as (a & Hla & -> & _). rewrite <- (Forall2_length _ _ _ Hg).
    by eapply Hemp.
Qed.

Lemma classify_blocks_header cu ns rs bs :
  classify_blocks recover error_text o cu ns rs = Some bs ->
  length bs = length rs
  /\ forall i b, bs !! i = Some (Some b) -> coherent b ->
       exists n, ns !! i = Some n /\ raw_number b = n /\ verified b.
Proof.
  revert ns bs. induction rs as [|r rs IH]; intros [|n ns] bs; simpl;
    [by intros [= <-]..|done|].
  destruct (classify_block _ _ _ _ _ _) as [x|] eqn:Ex; [|done].
  destruct (classify_blocks _ _ _ _ ns rs) as [rest|] eqn:Er; [|done]. intros [= <-].
  destruct (IH _ _ Er) as [Hlen Hrest]. split; [by simpl; f_equal|].
  intros [|i] b Hb Hco; simpl in *; [|by eapply Hrest]. injection Hb as ->.
  destruct (classify_block_header _ _ _ _ Ex Hco) as [-> ?]. by eexists.
Qed.

(** A block of a batch, against the number it was asked for. *)
Definition batch_block (req : DataRequest) (n : N) (b : Raw) : Prop :=
  unless_marked (complete req) b /\ (coherent b -> raw_number b = n /\ verified b).

Lemma get_block_batch_spec m numbers req bs :
  client_answers_each (mo_client m) ->
  get_block_batch recover error_text o m numbers req = Some (Ok bs) ->
  linked bs /\ length bs <= length numbers
  /\ forall i b, bs !! i = Some b -> exists n, numbers !! i = Some n /\ batch_block req n b.
Proof.
  intros Hc. unfold get_block_batch.
  destruct (get_blocks _ _ _ _ _ _ _) as [[blocks|e]|] eqn:Eg; [|done|done]. cbn [mbind option_bind].
  destruct (contiguous_spec blocks []) as (l & El & Hl & Hp);
    [by split; intros ? ? ?|by intros ? ?%elem_of_nil|].
  cbn [length] in El. rewrite El. cbn [app mbind option_bind] in *.
  unfold add_requested_data. destruct (validate_request o req); [|done]. intros Hf.
  apply fetch_and_apply_done in Hf; [|done]. pose proof (leg_done_grow _ _ _ Hf) as Hg.
  assert (length blocks = length numbers /\ forall i b, blocks !! i = Some (Some b) -> coherent b ->
       exists n, numbers !! i = Some n /\ raw_number b = n /\ verified b) as [Hlen Hblocks].
  { unfold get_blocks in Eg. destruct numbers as [|n ns]; [by injection Eg as <-|].
    destruct (fc_batch _ _ _) as [results|e] eqn:Eb; [|done].
    destruct (get_chain_utils _ _ _ _) as [cu|e]; [|done].
    destruct (classify_blocks _ _ _ _ _ _) as [x|] eqn:Ec; [|done]. injection Eg as ->.
    destruct (classify_blocks_header _ _ _ _ Ec) as [-> Hx]. split; [|done].
    rewrite (Hc _ _ _ Eb). apply length_fmap. }
  pose proof (prefix_length _ _ Hp) as Hple. rewrite length_fmap in Hple.
  pose proof (Forall2_length _ _ _ Hg) as Hgl.
  split_and!; [by eapply linked_grows|lia|]. intros i b' Hb'.
  destruct (Forall2_lookup_r _ _ _ _ _ Hf Hb') as (b & Hb & Hgb & Hd).
  assert (blocks !! i = Some (Some b)) as Hbi.
  { eapply prefix_lookup_Some; [|exact Hp]. by rewrite list_lookup_fmap, Hb. }
  destruct (lookup_lt_is_Some_2 numbers i) as [n Hn].
  { rewrite <- Hlen. by eapply lookup_lt_Some. }
  exists n. split; [done|]. split; [done|]. intros Hco.
  destruct (Hblocks i b Hbi) as (n' & Hn' & Hnum & Hv); [by eapply gr_coherent|]. simplify_eq.
  pose proof (gr_id _ _ Hgb) as [= E1 E2 E3]. unfold verified. by rewrite E1, E2, E3.
Qed.

(** A batch the fetch layer returns is a chain: as long as the numbers
    asked for at most, in their order, each block naming the hash of the one
    before it and only the last possibly without a hash; a block not marked
    incoherent has exactly the number it was asked for and a header that
    passed the checks, and one not marked at all carries every component the
    request selects. *)
Theorem block_batch_is_chain m numbers req bs
    (Hclient : client_answers_each (mo_client m))
    (Hret : get_block_batch recover error_text o m numbers req = Some (Ok bs)) :
  linked bs /\ length bs <= length numbers
  /\ forall i b, bs !! i = Some b ->
       exists n, numbers !! i = Some n
         /\ (coherent b -> raw_number b = n /\ verified b)
         /\ (is_invalid b = false -> complete req b).
Proof.
  destruct (get_block_batch_spec _ _ _ _ Hclient Hret) as (Hl & Hlen & Hall). split_and!; [done..|].
  intros i b Hb. destruct (Hall i b Hb) as (n & ? & ? & ?). eauto.
Qed.

(** The residual legs complete what the marked block kept. *)
Lemma complete_residual req (b b' : Raw) :
  grows (clear_invalid b) b' -> complete (missing_legs b req) b' -> complete req b'.
Proof.
  intros Hg (Hl & Hr & Ht). destruct (has_stable (Value := Value)) as (S1 & S2 & _).
  split_and!.
  - intros E. destruct (raw_logs b) as [l|] eqn:El.
    + apply (S1 _ _ Hg). unfold has_logs. simpl. rewrite El. by eexists.
    + apply Hl. simpl. by rewrite E, El.
  - intros E. destruct (raw_receipts b) as [l|] eqn:El.
    + apply (S2 _ _ Hg). unfold has_receipts. simpl. rewrite El. by eexists.
    + apply Hr. simpl. by rewrite E, El.
  - destruct (traces_leg_in_hand b req) eqn:Et.
    + apply (has_traces_stable req _ _ Hg). exact Et.
    + rewrite has_traces_spec in Ht |- *. unfold missing_legs in Ht. rewrite Et in Ht.
      simpl in Ht. by rewrite !andb_true_r in Ht.
Qed.

Lemma residual_request_spec req not_ready (s : EnrichState (Value := Value)) r :
  residual_request req not_ready s = Some r ->
  exists b rest, es_blocks s = b :: rest /\ r = missing_legs b req /\ not_ready = true.
Proof.
  unfold residual_request. destruct (es_blocks s) as [|b rest]; [by destruct (_ && _)|].
  destruct not_ready; [|done]. destruct (_ && _); [|done].
  destruct (wants_anything _); [|done]. intros [= <-]. eauto.
Qed.

Definition head_acquired (req : DataRequest) (body : Raw) (bs : list Raw) : Prop :=
  match bs with b :: _ => acquired req body b | [] => True end.

Lemma reacquire_acquired req body not_ready (s : EnrichState (Value := Value)) turn bs legs :
  client_answers_each (mo_client (tn_moment turn)) ->
  head_acquired req body (es_blocks s) ->
  match es_blocks s with b :: _ => not_ready = is_not_ready b | [] => not_ready = true end ->
  reacquire recover error_text o (raw_number body) req (residual_request req not_ready s) turn
    (es_blocks s) = Some (Ok (bs, legs)) ->
  head_acquired req body bs.
Proof.
  intros Hc Hs Hnr. unfold reacquire. destruct (residual_request req not_ready s) as [r|] eqn:Er.
  - destruct (residual_request_spec _ _ _ _ Er) as (b & rest & Eb & -> & ->).
    rewrite Eb in *. cbn [clear_head].
    destruct (fetch_and_apply _ _ _ _ _) as [[bs'|]|] eqn:Ef; [|done|done]. simpl. intros [= <- _].
    apply fetch_and_apply_done in Ef; [|done]. inversion Ef as [|? b' ? ? [Hg Hd] _]; subst.
    split.
    + intros Hv. eapply complete_residual; [exact Hg|by apply Hd].
    + intros _. eapply header_of_id; [exact (gr_id _ _ Hg)|].
      eapply (header_of_id _ b); [done|]. destruct Hs as [_ Hh]. apply Hh. by intros _.
  - destruct (get_block_batch _ _ _ _ _ _) as [[bs'|]|] eqn:Ef; [|done|done]. simpl. intros [= <- _].
    apply get_block_batch_spec in Ef as (_ & _ & Hall); [|done]. destruct bs' as [|b bs']; [done|].
    destruct (Hall 0 b eq_refl) as (n & [= <-] & Hd & Hh). split; [done|]. intros Hco.
    destruct (Hh Hco). split; [done|]. by right.
Qed.

Lemma enrich_turn_acquired req body turn (s s' : EnrichState (Value := Value)) :
  client_answers_each (mo_client (tn_moment turn)) ->
  head_acquired req body (es_blocks s) ->
  enrich_turn recover error_text o (raw_number body) req turn s = Some (Ok s') ->
  head_acquired req body (es_blocks s').
Proof.
  intros Hc Hs. unfold enrich_turn. cbn zeta.
  destruct (charge _ _ _ _ _ _) as [[[[delay under] retries] deadline]|e]; [|done].
  destruct (is_some under && tn_elapsed turn); [done|].
  destruct (reacquire _ _ _ _ _ _ _ _) as [[[bs legs]|e]|] eqn:Er; [|done|done].
  intros [= <-]. cbn [es_blocks]. eapply reacquire_acquired; [done..| |exact Er].
  by destruct (es_blocks s).
Qed.

(** What the loop may return, from a head acquired for the request. *)
Lemma enrich_loop_acquired fuel req body turns k (s : EnrichState (Value := Value)) b p :
  (forall k, client_answers_each (mo_client (tn_moment (turns k)))) ->
  head_acquired req body (es_blocks s) ->
  enrich_loop recover error_text o fuel (raw_number body) req turns k s = Returned (Ok (b, p)) ->
  is_invalid b = false /\ complete req b /\ header_of body b.
Proof.
  intros Hc. revert k s. induction fuel as [|fuel IH]; intros k s Hs; [done|]. cbn [enrich_loop].
  destruct (ready_block s) as [b0|] eqn:Er.
  - unfold ready_block in Er. unfold head_acquired in Hs. destruct (es_blocks s) as [|b1 rest]; [done|].
    destruct (is_invalid b1) eqn:Ei; [done|]. intros [= <- _]. injection Er as ->.
    destruct Hs as [Hcomp Hh]. split_and!; [done|by apply Hcomp|].
    apply Hh. unfold coherent. by rewrite Ei.
  - destruct (enrich_turn _ _ _ _ _ _ _) as [[s'|e]|] eqn:Et; [|done|done].
    apply IH. by eapply enrich_turn_acquired.
Qed.

Lemma enrich_complete fuel body req start turns b p :
  wants_anything req = true -> client_answers_each (mo_client start.1) ->
  (forall k, client_answers_each (mo_client (tn_moment (turns k)))) ->
  enrich_block_with_retry recover error_text o fuel body req start turns = Returned (Ok (b, p)) ->
  is_invalid b = false /\ complete req b /\ header_of body b.
Proof.
  intros Hwants Hstart Hturns. unfold enrich_block_with_retry. rewrite Hwants. cbn [negb].
  unfold add_requested_data. destruct (validate_request o req); [|done].
  destruct (fetch_and_apply _ _ _ _ _) as [[bs|]|] eqn:Ef; [|done|done].
  apply fetch_and_apply_done in Ef; [|done]. inversion Ef as [|? b0 ? ? [Hg Hd] Hn]; subst.
  apply enrich_loop_acquired; [done|].
  split; [done|]. intros _. eapply header_of_id; [exact (gr_id _ _ Hg)|]. split; [done|]. by left.
Qed.

(** C26: a block the head enrichment returns is never a marked one: it carries
    every component the request selects — the legs already in hand that a
    legs-only retry kept and the re-fetched ones alike — and its header is
    the speculative one or one of the same height that passed the header
    checks, whatever the upstream answered in between. *)
Theorem enriched_block_complete fuel body req start turns b p
    (Hwants : wants_anything req = true)
    (Hstart : client_answers_each (mo_client start.1))
    (Hturns : forall k, client_answers_each (mo_client (tn_moment (turns k))))
    (Hret : enrich_block_with_retry recover error_text o fuel body req start turns
              = Returned (Ok (b, p))) :
  is_invalid b = false /\ header_of body b
  /\ (rq_logs req = true -> is_Some (raw_logs b))
  /\ (rq_receipts req = true -> is_Some (raw_receipts b))
  /\ traces_leg_in_hand b req = true.
Proof.
  destruct (enrich_complete _ _ _ _ _ _ _ Hwants Hstart Hturns Hret) as (Hv & (Hl & Hr & Ht) & Hh).
  by split_and!.
Qed.

(** ** The retry ends *)

Definition turns_in (ms : N) : nat := N.to_nat ((ms + 49) / 50).

Lemma turns_in_mono a b : (a <= b)%N -> turns_in a <= turns_in b.
Proof. intros Hab. unfold turns_in. pose proof (N.Div0.div_le_mono (a + 49) (b + 49) 50). lia. Qed.

Lemma turns_in_step a b : (0 < b)%N -> (a + 50 <= b \/ a = 0)%N -> S (turns_in a) <= turns_in b.
Proof.
  intros Hb Ha. unfold turns_in. destruct Ha as [Ha| ->].
  - pose proof (N.Div0.div_le_mono (a + 50 + 49) (b + 49) 50 ltac:(lia)).
    replace (a + 50 + 49)%N with (a + 49 + 1 * 50)%N in * by lia. rewrite N.div_add in * by lia. lia.
  - change ((0 + 49) / 50)%N with 0%N. pose proof (N.Div0.div_le_mono 50 (b + 49) 50 ltac:(lia)).
    change (50 / 50)%N with 1%N in *. lia.
Qed.

(** The incoherent retries left, and the turns until the not-ready wall. *)
Definition turns_left (turns : nat -> Turn (Value := Value)) (k : nat)
    (s : EnrichState (Value := Value)) : nat :=
  P_ENRICH_RETRIES - es_incoherent_retries s
  + match es_deadline s with
    | None => turns_in (not_ready_budget o)
    | Some d => turns_in (d - tn_now (turns k))
    end.

(** The pauses are observed: the clock advances by at least one pause from a
    turn to the next, and a turn's first reading is not after its second. *)
Definition clock_advances (turns : nat -> Turn (Value := Value)) : Prop :=
  forall k, (tn_anchor (turns k) <= tn_now (turns k))%N
            /\ (tn_now (turns k) + 50 <= tn_now (turns (S k)))%N.

Lemma enrich_turn_decreases number req turns k (s s' : EnrichState (Value := Value)) :
  clock_advances turns ->
  enrich_turn recover error_text o number req (turns k) s = Some (Ok s') ->
  turns_left turns (S k) s' < turns_left turns k s.
Proof.
  intros Hclk. destruct (Hclk k) as [Ha Hn]. unfold enrich_turn, charge. cbn zeta.
  set (nr := match es_blocks s with [] => _ | _ :: _ => _ end). clearbody nr.
  destruct nr.
  - set (d := default _ (es_deadline s)).
    destruct (N.leb_spec d (tn_now (turns k))) as [|Hd]; [done|].
    destruct (is_some (Some d) && _); [done|].
    destruct (reacquire _ _ _ _ _ _ _ _) as [[[bs legs]|e]|]; [|done|done].
    intros [= <-]. unfold turns_left. cbn [es_deadline es_incoherent_retries].
    assert (S (turns_in (d - tn_now (turns (S k)))) <=
            match es_deadline s with None => turns_in (not_ready_budget o)
                                   | Some d => turns_in (d - tn_now (turns k)) end) as Hstep; [|lia].
    subst d. destruct (es_deadline s) as [d|]; cbn [default from_option id] in *; apply turns_in_step; lia.
  - destruct (Nat.leb_spec P_ENRICH_RETRIES (es_incoherent_retries s)) as [|Hlt]; [done|].
    cbn [is_some andb].
    destruct (reacquire _ _ _ _ _ _ _ _) as [[[bs legs]|e]|]; [|done|done].
    intros [= <-]. unfold turns_left. cbn [es_deadline es_incoherent_retries].
    assert (match es_deadline s with None => turns_in (not_ready_budget o)
                                   | Some d => turns_in (d - tn_now (turns (S k))) end
            <= match es_deadline s with None => turns_in (not_ready_budget o)
                                   | Some d => turns_in (d - tn_now (turns k)) end) as Hstep; [|lia].
    destruct (es_deadline s); [|done]. apply turns_in_mono. lia.
Qed.

Lemma enrich_loop_ends fuel number req turns k (s : EnrichState (Value := Value)) :
  clock_advances turns -> turns_left turns k s < fuel ->
  enrich_loop recover error_text o fuel number req turns k s <> OutOfFuel.
Proof.
  intros Hclk. revert k s. induction fuel as [|fuel IH]; intros k s Hf; [lia|]. cbn [enrich_loop].
  destruct (ready_block s); [done|].
  destruct (enrich_turn _ _ _ _ _ _ _) as [[s'|e]|] eqn:Et; [|done|done].
  apply IH. pose proof (enrich_turn_decreases _ _ _ _ _ _ Hclk Et). lia.
Qed.

(** C30: the retry of a head block ends: ten incoherent retries and one turn
    per 50 ms of the not-ready budget (610 turns at the default 30 s)
    are all the loop can take, whatever the upstream answers and however the
    two kinds of failure alternate. *)
Theorem enrichment_terminates fuel body req start turns
    (Hclock : clock_advances turns)
    (Hfuel : P_ENRICH_RETRIES + turns_in (not_ready_budget o) < fuel) :
  enrich_block_with_retry recover error_text o fuel body req start turns <> OutOfFuel.
Proof.
  unfold enrich_block_with_retry. destruct (negb (wants_anything req)); [done|].
  destruct (add_requested_data _ _ _ _ _) as [[bs|]|]; [|done|done].
  apply enrich_loop_ends; [done|]. unfold turns_left. cbn [es_deadline es_incoherent_retries]. lia.
Qed.
End enrichment.

(** ** A concrete acquisition *)

(** An upstream whose receipts answer is [receipts]; everything else is there. *)
Definition toy_client (receipts : ToyJson) : FetchClient ToyJson :=
  let answer (call : FetchCall) : ToyJson :=
    if bool_decide (call.1 = "eth_chainId"%string) then ToyStr "0x1"
    else if bool_decide (call.1 = "eth_getLogs"%string) then ToyLogs []
    else if bool_decide (call.1 = "eth_getBlockReceipts"%string) then receipts
    else ToyBlock (toy_block "0x7" "0x7" "0x6" []) in
  mkFetchClient (fun calls _ => Ok (Ok ∘ answer <$> calls)) (fun call _ => Ok (answer call)).

Lemma toy_client_answers receipts : client_answers_each (toy_client receipts).
Proof. intros calls hook results [= <-]. by rewrite length_fmap. Qed.

Definition toy_options : RpcOptions :=
  mkRpcOptions None None None false false false false false false Off false false false.

Definition toy_request : DataRequest := mkDataRequest true true false false false false false None.

Definition toy_moment (receipts : ToyJson) : Moment := mkMoment (toy_client receipts) None (Some ByBlock).

(** The receipts lag for two turns, then arrive. *)
Definition toy_turns (k : nat) : Turn :=
  mkTurn (toy_moment (if k <? 1 then ToyNull else ToyReceipts [])) (100 * N.of_nat k)%N
    (100 * N.of_nat k)%N false (1, 2, 3)%N.

Definition toy_enrich (fuel : nat) : Run (RawRpcBlock ToyJson * EnrichProfile) :=
  @enrich_block_with_retry ToyJson toy_json hex_ref toy_keccak halves toy_trie
    (fun _ => Ok None) (fun _ => ""%string) toy_options fuel (toy_raw 7 "0x7" "0x6" []) toy_request
    (toy_moment ToyNull, (4, 5, 6)%N) toy_turns.

Lemma enriched_block_complete_witness :
  let b := set_receipts (set_logs (toy_raw 7 "0x7" "0x6" []) (Some [])) (Some []) in
  toy_enrich 5 = Returned (Ok (b, mkEnrichProfile 3 200 1 2 3))
  /\ is_invalid b = false /\ is_Some (raw_receipts b).
Proof.
  set (b := set_receipts _ _). cbv zeta.
  assert (toy_enrich 5 = Returned (Ok (b, mkEnrichProfile 3 200 1 2 3))) as E by (vm_compute; reflexivity).
  split; [exact E|].
  destruct (@enriched_block_complete ToyJson toy_json hex_ref toy_keccak halves toy_trie _ _ _ _ _ toy_request
    (toy_moment ToyNull, (4, 5, 6)%N) toy_turns _ _ eq_refl (toy_client_answers _)
    (fun k => toy_client_answers _) E) as (Hv & _ & _ & Hr & _).
  split; [exact Hv|exact (Hr eq_refl)].
Defined.

Lemma enrichment_terminates_witness : clock_advances toy_turns /\ toy_enrich 611 <> OutOfFuel.
Proof.
  assert (clock_advances toy_turns) as Hclk.
  { intros k. cbn [toy_turns tn_anchor tn_now]. lia. }
  split; [exact Hclk|].
  apply (@enrichment_terminates ToyJson toy_json hex_ref toy_keccak halves toy_trie); [exact Hclk|].
  by apply Nat.ltb_lt.
Defined.

(** Two numbers asked for; the second answer does not chain onto the first. *)
Lemma block_batch_is_chain_witness :
  let b := set_receipts (set_logs (toy_raw 7 "0x7" "0x6" []) (Some [])) (Some []) in
  @get_block_batch ToyJson toy_json hex_ref toy_keccak halves toy_trie
    (fun _ => Ok None) (fun _ => ""%string) toy_options (toy_moment (ToyReceipts [])) [7; 8]%N toy_request
  = Some (Ok [b])
  /\ raw_number b = 7%N.
Proof.
  set (b := set_receipts _ _). cbv zeta.
  assert (@get_block_batch ToyJson toy_json hex_ref toy_keccak halves toy_trie
    (fun _ => Ok None) (fun _ => ""%string) toy_options (toy_moment (ToyReceipts [])) [7; 8]%N toy_request
    = Some (Ok [b])) as E by (vm_compute; reflexivity).
  split; [exact E|].
  destruct (@block_batch_is_chain ToyJson toy_json hex_ref toy_keccak halves toy_trie _ _ _
    (toy_moment (ToyReceipts [])) _ _ _ (toy_client_answers _) E) as (_ & _ & Hall).
  destruct (Hall 0 b eq_refl) as (n & Hn & Hh & _). injection Hn as <-.
  apply Hh. intros Hi. discriminate Hi.
Defined.
