(* ===== verification/Acquire.v ===== *)
(** * Acquire: head cadence and finalized ranges (ingest.rs)

    The parts of [ingest.rs] its stream is built from: the cadence predictor,
    the mapping helpers, and the acquisition of one range of finalized blocks,
    which ends with a complete prefix of the range whatever the upstream
    answers. Instants are nanoseconds, delays milliseconds; an [anyhow::Error]
    is the list of its messages, outermost first. *)
From stdpp Require Import pretty gmap.
From Stdlib Require Import Strings.Byte.
From S2P Require Import Prelude Types RpcClient RpcData Rlp Commitments ChainUtils Frames EvmTypes.
From S2P Require Import RawBlock FetchChecks Components Fetch.

Local Open Scope rust_scope.

(** ** The cadence predictor *)

Definition INTERVAL_WINDOW : nat := 8.
Definition HOT_WINDOW_MS : N := 600.
Definition HOT_POLL_MS : N := 25.
Definition QUIET_SLEEP_CAP_MS : N := 1000.
Definition NO_DATA_POLL_MS : N := 100.

Record CadencePredictor := mkCadencePredictor {
  intervals : list N;
  last_arrival : option N
}.

Definition CadencePredictor_new : CadencePredictor := mkCadencePredictor [] None.

Definition millis_since (now earlier : N) : N := N.min u64_max ((now - earlier) / 1000000).

Definition record_block (now : N) (c : CadencePredictor) : CadencePredictor :=
  let intervals' := match last_arrival c with
                    | Some lst =>
                        (if length (intervals c) =? INTERVAL_WINDOW then tail (intervals c)
                         else intervals c) ++ [millis_since now lst]
                    | None => intervals c
                    end in
  mkCadencePredictor intervals' (Some now).

Definition record_polled_block (now : N) (followed_empty_poll : bool) (c : CadencePredictor)
    : CadencePredictor :=
  if followed_empty_poll then record_block now c else c.

(** [.iter().min()]. *)
Definition min_of (l : list N) : option N :=
  match l with [] => None | x :: l => Some (foldl N.min x l) end.

Definition next_poll_delay (now : N) (c : CadencePredictor) : N :=
  match last_arrival c, min_of (intervals c) with
  | Some lst, Some floor_ms =>
      let remaining := saturating_sub floor_ms (millis_since now lst) in
      let sleep_ms := if (HOT_WINDOW_MS <? remaining)%N
                      then N.min (remaining - HOT_WINDOW_MS) QUIET_SLEEP_CAP_MS
                      else HOT_POLL_MS in
      N.max sleep_ms HOT_POLL_MS
  | _, _ => NO_DATA_POLL_MS
  end.

(** ** Ranges *)

(** [{:#}] of an error. *)
Definition alternate_text (e : list string) : string := String.concat ": " e.

Section range.
Context {Value : Type} `{Json Value} `{Hex} `{Keccak} `{Rayon} `{Trie}.
Context (recover : RpcTransaction -> Result (option string) string).
Context (error_text : RpcError (Value := Value) -> string).
Context (o : RpcOptions).
Context (encode : RawRpcBlock Value -> Result (list byte) string).
#[local] Abbreviation Raw := (RawRpcBlock Value).

Record RangeAcquisition := mkRangeAcquisition {
  ra_blocks : list Raw;
  ra_failure : option (list string)
}.

Definition range_candidate_issue (candidate : option Raw) (number : N) (parent_hash : option string)
    : option string :=
  match candidate with
  | None => Some "block not available"%string
  | Some candidate =>
      if negb (raw_number candidate =? number)%N then
        Some ("requested block " +:+ pretty number +:+ ", upstream returned "
                +:+ pretty (raw_number candidate))%string
      else if is_invalid candidate then
        Some (default "incoherent block"%string (error_message candidate))
      else match parent_hash with
           | Some parent_hash =>
               if negb (eq_ignore_ascii_case parent_hash (blk_parent_hash (raw_block candidate))) then
                 Some ("parent hash mismatch: expected " +:+ parent_hash +:+ ", got "
                         +:+ blk_parent_hash (raw_block candidate))%string
               else None
           | None => None
           end
  end.

(** The upstream over one range: at its batch, and at each retry of a block. *)
Record RangeEnv := mkRangeEnv {
  re_initial : Moment (Value := Value);
  re_retry : N -> nat -> Moment (Value := Value)
}.

Definition acquire_exhausted (number : N) (reason : string) : list string :=
  [("failed to acquire block " +:+ pretty number +:+ " after " +:+ pretty P_ENRICH_RETRIES
      +:+ " retries: " +:+ reason)%string].

(** One block until it fits; [budget] is [P_ENRICH_RETRIES - retries]. *)
Fixpoint acquire_number (budget : nat) (env : RangeEnv) (req : DataRequest) (number : N)
    (parent_hash : option string) (candidate : option Raw) : option (Result Raw (list string)) :=
  match range_candidate_issue candidate number parent_hash with
  | None => let! candidate := candidate in Some (Ok candidate)
  | Some reason =>
      match budget with
      | O => Some (Err (acquire_exhausted number reason))
      | S budget =>
          let! r := get_block_batch recover error_text o (re_retry env number (P_ENRICH_RETRIES - budget))
                      [number] req in
          match r with
          | Ok blocks => acquire_number budget env req number parent_hash (head blocks)
          | Err e => Some (Err [("failed to re-acquire block " +:+ pretty number
                                   +:+ " in range acquisition")%string; e])
          end
      end
  end.

(** The blocks in turn; [complete] is in order. *)
Fixpoint acquire_numbers (env : RangeEnv) (req : DataRequest) (numbers : list N) (initial : list Raw)
    (complete : list Raw) : option RangeAcquisition :=
  match numbers with
  | [] => Some (mkRangeAcquisition complete None)
  | number :: numbers =>
      let! r := acquire_number P_ENRICH_RETRIES env req number (raw_hash <$> last complete) (head initial) in
      match r with
      | Ok b => acquire_numbers env req numbers (tail initial) (complete ++ [b])
      | Err e => Some (mkRangeAcquisition complete (Some e))
      end
  end.

(** [None]: the range is empty, or a check panics. *)
Definition acquire_range_stride (env : RangeEnv) (req : DataRequest) (numbers : list N)
    : option RangeAcquisition :=
  match numbers with
  | [] => None
  | _ =>
      let! r := get_block_batch recover error_text o (re_initial env) numbers req in
      match r with
      | Err e => Some (mkRangeAcquisition [] (Some ["failed to acquire range stride"%string; e]))
      | Ok blocks => acquire_numbers env req numbers blocks []
      end
  end.

(** ** Mapping *)

(** [clock i] is what the mapping of the block at [i] measures. *)
Definition map_blocks_cpu (clock : nat -> N * N) (raw_blocks : list Raw)
    (timings : option (list AcquisitionTimings)) : Result (list Block) string :=
  collect_results
    (imap (fun i raw => map_raw_block encode (clock i) raw
                          (match timings with Some v => v !! i | None => None end)) raw_blocks).

Definition map_range_prefix (clock : nat -> N * N) (raw_blocks : list Raw)
    (acquisition_failure : option (list string)) : Result (list Block) (list string) :=
  match map_blocks_cpu clock raw_blocks None with
  | Ok blocks => Ok blocks
  | Err mapping_error =>
      match acquisition_failure with
      | Some acquisition_error =>
          Err [(alternate_text acquisition_error +:+ "; failed to map the complete prefix below that fault: "
                  +:+ mapping_error)%string]
      | None => Err [mapping_error]
      end
  end.
End range.

(** ** The predictor's window *)

(** The predictor after a sequence of arrivals, oldest first. *)
Definition after_arrivals (arrivals : list N) : CadencePredictor :=
  foldl (fun c now => record_block now c) CadencePredictor_new arrivals.

Definition gaps (arrivals : list N) : list N :=
  (fun '(a, b) => millis_since b a) <$> windows2 arrivals.

Definition last_n (n : nat) (l : list N) : list N := drop (length l - n) l.

Lemma windows2_snoc {A} (l : list A) x y : windows2 (l ++ [x; y]) = windows2 (l ++ [x]) ++ [(x, y)].
Proof.
  induction l as [|a l IH]; [done|]. destruct l as [|b l]; [done|].
  change ((a :: b :: l) ++ [x; y]) with (a :: (b :: l) ++ [x; y]).
  change ((a :: b :: l) ++ [x]) with (a :: (b :: l) ++ [x]).
  simpl in *. by rewrite IH.
Qed.

Lemma drop_S_tail {A} k (l : list A) : drop (S k) l = tail (drop k l).
Proof. revert k. induction l as [|a l IH]; intros [|k]; [done..|]. exact (IH k). Qed.

Lemma last_n_snoc n l x :
  0 < n -> last_n n (l ++ [x]) = (if length (last_n n l) =? n then tail (last_n n l) else last_n n l) ++ [x].
Proof.
  intros Hn. unfold last_n. rewrite length_app, length_drop. simpl.
  destruct (Nat.eqb_spec (length l - (length l - n)) n) as [E|E].
  - replace (length l + 1 - n) with (S (length l - n)) by lia.
    rewrite drop_app_le by lia. f_equal. apply drop_S_tail.
  - replace (length l + 1 - n) with 0 by lia. replace (length l - n) with 0 by lia. done.
Qed.

Lemma after_arrivals_spec arrivals :
  intervals (after_arrivals arrivals) = last_n INTERVAL_WINDOW (gaps arrivals)
  /\ last_arrival (after_arrivals arrivals) = last arrivals.
Proof.
  induction arrivals as [|now arrivals IH] using rev_ind; [done|].
  unfold after_arrivals in *. rewrite foldl_snoc. set (c := foldl _ _ arrivals) in *.
  destruct IH as [Hi Hl]. split; [|by rewrite last_snoc].
  unfold record_block. rewrite Hl. cbn [intervals].
  destruct arrivals as [|prev arrivals] using rev_ind; [by rewrite Hi|]. clear IHarrivals.
  rewrite last_snoc, Hi, <- app_assoc. unfold gaps. cbn [app].
  rewrite windows2_snoc, fmap_app. symmetry. apply last_n_snoc. unfold INTERVAL_WINDOW. lia.
Qed.

Lemma foldl_min_spec l x :
  (foldl N.min x l <= x)%N /\ Forall (N.le (foldl N.min x l)) l /\ foldl N.min x l ∈ x :: l.
Proof.
  revert x. induction l as [|y l IH]; intros x; simpl; [split_and!; [lia|done|by left]|].
  destruct (IH (N.min x y)) as (Hx & Hl & Hin). split_and!; [lia|constructor; [lia|done]|].
  apply elem_of_cons in Hin as [->|Hin]; [|by do 2 right].
  destruct (N.min_dec x y) as [->| ->]; [by left|right; by left].
Qed.

(** The cadence predictor keeps the last eight intervals between the
    arrivals it was told, and its delay is bounded by the hot grain and the
    quiet cap; once an interval is known, either the poll is at the hot grain,
    or it wakes at least the hot window before the shortest kept interval has
    passed since the last arrival: it never sleeps through an arrival as early
    as the earliest it remembers. *)
Theorem cadence_window arrivals now :
  let c := after_arrivals arrivals in
  intervals c = last_n INTERVAL_WINDOW (gaps arrivals)
  /\ (HOT_POLL_MS <= next_poll_delay now c <= QUIET_SLEEP_CAP_MS)%N
  /\ forall lst floor, last arrivals = Some lst -> floor ∈ intervals c ->
       next_poll_delay now c = HOT_POLL_MS
       \/ (millis_since now lst + next_poll_delay now c + HOT_WINDOW_MS <= floor)%N.
Proof.
  intros c. destruct (after_arrivals_spec arrivals) as [Hi Hl]. fold c in Hi, Hl.
  split; [done|]. unfold next_poll_delay, saturating_sub, HOT_WINDOW_MS, HOT_POLL_MS, QUIET_SLEEP_CAP_MS, NO_DATA_POLL_MS.
  rewrite Hl. destruct (last arrivals) as [lst|]; [|split; [lia|done]].
  destruct (intervals c) as [|x l]; cbn [min_of]; [split; [lia|by intros ? ? ? ?%elem_of_nil]|].
  destruct (foldl_min_spec l x) as (Hx & Hmin & _). set (m := foldl N.min x l) in *.
  split; [destruct (600 <? _)%N; lia|].
  intros lst' floor [= <-] Hf.
  assert (m <= floor)%N as Hle.
  { apply elem_of_cons in Hf as [->|Hf]; [done|]. by eapply Forall_forall in Hmin. }
  generalize dependent (millis_since now lst). intros since.
  destruct (N.ltb_spec 600 (m - since)) as [Hlt|]; [|left; lia].
  destruct (N.le_gt_cases (m - since - 600) 25); [left; lia|right; lia].
Qed.

(** ** What a range acquisition returns *)

Section acquisition.
Context {Value : Type} `{Json Value} `{Hex} `{Keccak} `{Rayon} `{Trie}.
Context (recover : RpcTransaction -> Result (option string) string).
Context (error_text : RpcError (Value := Value) -> string).
Context (o : RpcOptions).
#[local] Abbreviation Raw := (RawRpcBlock Value).

(** A block fit to be served at [n]. *)
Definition servable (req : DataRequest) (n : N) (b : Raw) : Prop :=
  raw_number b = n /\ is_invalid b = false /\ complete req b /\ verified recover o b.

Definition follows_raw (a b : Raw) : Prop :=
  eq_ignore_ascii_case (raw_hash a) (blk_parent_hash (raw_block b)) = true.

Definition env_answers (env : RangeEnv (Value := Value)) : Prop :=
  client_answers_each (mo_client (re_initial env))
  /\ forall n k, client_answers_each (mo_client (re_retry env n k)).

Lemma range_candidate_fits n parent (b : Raw) :
  range_candidate_issue (Some b) n parent = None ->
  raw_number b = n /\ is_invalid b = false
  /\ forall p, parent = Some p -> eq_ignore_ascii_case p (blk_parent_hash (raw_block b)) = true.
Proof.
  unfold range_candidate_issue. destruct (N.eqb_spec (raw_number b) n) as [->|]; [|done]. cbn [negb].
  destruct (is_invalid b); [done|]. destruct parent as [p|]; [|done].
  destruct (eq_ignore_ascii_case _ _) eqn:E; [|done]. intros _. split_and!; [done..|]. by intros ? [= <-].
Qed.

(** The candidate, if any, is a block of a batch. *)
Definition candidate_ok (req : DataRequest) (candidate : option Raw) : Prop :=
  forall b, candidate = Some b -> exists n, batch_block recover o req n b.

Lemma acquire_number_spec budget env req n parent candidate r :
  env_answers env -> candidate_ok req candidate ->
  acquire_number recover error_text o budget env req n parent candidate = Some (Ok r) ->
  servable req n r
  /\ forall p, parent = Some p -> eq_ignore_ascii_case p (blk_parent_hash (raw_block r)) = true.
Proof.
  intros [_ Henv]. revert candidate. induction budget as [|budget IH]; intros candidate Hc; cbn [acquire_number].
  all: destruct (range_candidate_issue candidate n parent) as [reason|] eqn:Ei.
  1: done.
  2: destruct (get_block_batch _ _ _ _ _ _) as [[bs|e]|] eqn:Eb; [|done|done].
  2: { apply IH. apply get_block_batch_spec in Eb as (_ & _ & Hall); [|apply Henv].
       intros b Hb. destruct bs as [|b' bs]; [done|]. injection Hb as ->.
       destruct (Hall 0 b eq_refl) as (m & _ & Hm). by exists m. }
  all: destruct candidate as [b|]; [|done].
  all: intros [= <-]; destruct (range_candidate_fits _ _ _ Ei) as (Hn & Hv & Hp).
  all: split; [|done]; destruct (Hc b eq_refl) as (m & Hcomp & Hh).
  all: split_and!; [done..|by apply Hcomp|].
  all: destruct Hh as [_ Hver]; [|done]; unfold coherent; by rewrite Hv.
Qed.

(** What is complete so far, against the numbers done. *)
Definition prefix_ok (req : DataRequest) (done : list N) (bs : list Raw) : Prop :=
  Forall2 (servable req) done bs /\ adjacent follows_raw bs.

Lemma acquire_numbers_spec env req numbers initial done bs acq :
  env_answers env -> prefix_ok req done bs ->
  (forall b, b ∈ initial -> exists n, batch_block recover o req n b) ->
  acquire_numbers recover error_text o env req numbers initial bs = Some acq ->
  exists k, k <= length numbers
    /\ prefix_ok req (done ++ take k numbers) (ra_blocks acq)
    /\ (ra_failure acq = None <-> k = length numbers).
Proof.
  intros Henv. revert initial done bs. induction numbers as [|n numbers IH]; intros initial done bs Hbs Hini;
    cbn [acquire_numbers].
  { intros [= <-]. exists 0. rewrite app_nil_r. by split_and!. }
  destruct (acquire_number _ _ _ _ _ _ _ _ _) as [[b|e]|] eqn:En; [| |done].
  - apply acquire_number_spec in En as [Hb Hp]; [|done|].
    2:{ intros x Hx. apply Hini. destruct initial; [done|]. injection Hx as ->. by left. }
    intros Hrest. destruct (IH (tail initial) (done ++ [n]) (bs ++ [b])) as (k & Hk & Hpre & Hf).
    + destruct Hbs as [Hsv Hadj]. split; [by apply Forall2_app; [|constructor]|].
      destruct (last bs) as [p|] eqn:El.
      * eapply adjacent_snoc; [done..|]. unfold follows_raw. by apply Hp.
      * apply last_None in El as ->. apply adjacent_singleton.
    + intros x Hx. apply Hini. destruct initial; [done|]. by right.
    + done.
    + exists (S k). split_and!; [simpl; lia| |simpl; rewrite Hf; lia]. simpl. by rewrite <- app_assoc in Hpre.
  - intros [= <-]. exists 0. split_and!; [lia|by rewrite app_nil_r|done].
Qed.

Lemma acquire_range_spec env req numbers acq :
  env_answers env ->
  acquire_range_stride recover error_text o env req numbers = Some acq ->
  exists k, k <= length numbers /\ prefix_ok req (take k numbers) (ra_blocks acq)
    /\ (ra_failure acq = None <-> k = length numbers).
Proof.
  intros Henv. unfold acquire_range_stride. destruct numbers as [|n ns]; [done|].
  destruct (get_block_batch _ _ _ _ _ _) as [[bs|e]|] eqn:Eb; [| |done].
  - apply get_block_batch_spec in Eb as (_ & _ & Hall); [|apply Henv].
    intros Ha. apply acquire_numbers_spec with (done := []) in Ha; [done..| |].
    + split; [constructor|apply adjacent_nil].
    + intros b [i Hi]%list_elem_of_lookup. destruct (Hall i b Hi) as (m & _ & Hm). by exists m.
  - intros [= <-]. exists 0. split_and!; [lia| |done]. split; [constructor|apply adjacent_nil].
Qed.

(** A range acquisition ends with a complete prefix of the range: its
    blocks are exactly the first numbers asked for, each unmarked, with every
    component requested and a header that passed the checks, each naming the
    hash of the one before; it reports a failure exactly when the prefix is
    not the whole range. *)
Theorem range_prefix_complete env req numbers acq
    (Henv : env_answers env)
    (Hacq : acquire_range_stride recover error_text o env req numbers = Some acq) :
  Forall2 (servable req) (take (length (ra_blocks acq)) numbers) (ra_blocks acq)
  /\ adjacent follows_raw (ra_blocks acq)
  /\ (ra_failure acq = None <-> length (ra_blocks acq) = length numbers).
Proof.
  destruct (acquire_range_spec _ _ _ _ Henv Hacq) as (k & Hk & [Hsv Hadj] & Hf).
  assert (length (ra_blocks acq) = k) as ->; [|by split_and!].
  rewrite <- (Forall2_length _ _ _ Hsv), length_take. lia.
Qed.
End acquisition.

(** ** A concrete chain *)

Definition chain_hash (n : N) : string := ("0xh" +:+ to_qty n)%string.

Definition chain_block (n : N) : RpcBlock :=
  toy_block (to_qty n) (chain_hash n) (chain_hash (n - 1)) [].

(** An upstream that has the blocks up to [top]. *)
Definition chain_client (top : N) : FetchClient ToyJson :=
  let answer (call : FetchCall) : ToyJson :=
    match call.2 with
    | ArgStr q :: ArgBool _ :: _ =>
        if (qty2_u64 q <=? top)%N then ToyBlock (chain_block (qty2_u64 q)) else ToyNull
    | _ => if bool_decide (call.1 = "eth_chainId"%string) then ToyStr "0x1"
           else if bool_decide (call.1 = "eth_getLogs"%string) then ToyLogs [] else ToyReceipts []
    end in
  mkFetchClient (fun calls _ => Ok (Ok ∘ answer <$> calls)) (fun call _ => Ok (answer call)).

Lemma chain_client_answers top : client_answers_each (chain_client top).
Proof. intros calls hook results [= <-]. by rewrite length_fmap. Qed.

Definition chain_moment (top : N) : Moment := mkMoment (chain_client top) None (Some ByBlock).

Definition chain_range_env (top : N) : RangeEnv := mkRangeEnv (chain_moment top) (fun _ _ => chain_moment top).

Lemma chain_env_answers top : env_answers (chain_range_env top).
Proof. split; [apply chain_client_answers|intros n k; apply chain_client_answers]. Qed.

Definition demo_acquire (top : N) (numbers : list N) : option (RangeAcquisition (Value := ToyJson)) :=
  @acquire_range_stride ToyJson toy_json hex_ref toy_keccak halves toy_trie
    (fun _ => Ok None) (fun _ => ""%string) toy_options (chain_range_env top) toy_request numbers.

(** The chain ends within the range: the prefix, and the failure at its end. *)
Lemma range_prefix_complete_witness :
  (fun acq => (raw_number <$> ra_blocks acq, ra_failure acq)) <$> demo_acquire 8 [7; 8; 9]%N
    = Some ([7; 8]%N, Some ["failed to acquire block 9 after 10 retries: block not available"%string])
  /\ forall acq, demo_acquire 8 [7; 8; 9]%N = Some acq -> length (ra_blocks acq) <> 3.
Proof.
  assert ((fun acq => (raw_number <$> ra_blocks acq, ra_failure acq)) <$> demo_acquire 8 [7; 8; 9]%N
    = Some ([7; 8]%N, Some ["failed to acquire block 9 after 10 retries: block not available"%string])) as E
    by (vm_compute; reflexivity).
  split; [exact E|]. intros acq Ha. rewrite Ha in E. simpl in E.
  destruct (@range_prefix_complete ToyJson toy_json hex_ref toy_keccak halves toy_trie _ _ _ _ _ _ _
    (chain_env_answers 8) Ha) as (_ & _ & Hf).
  intros Hlen. apply Hf in Hlen. destruct acq as [bs f]. simpl in *. subst f. discriminate E.
Defined.
