(* ===== verification/Cadence.v ===== *)
(** * Cadence: the replay of an arrival trace (latency-bench/bin/cadence.rs)

    The benchmark that asks whether a skipped slot costs detection latency: a
    trace of block arrivals is read or synthesised, replayed through a poller
    (the service's own [CadencePredictor] of [Acquire], or one of the rejected
    estimators), and the delays summarised. An [f64] is an exact rational, an
    [Instant] a number of nanoseconds, every other time milliseconds.

    The theorems: every replay ends, with a bound on delays and polls; the
    shipped predictor answers the benchmark's question (a skipped slot costs
    nothing, while the averaging predictor it replaced pays for it); the trace
    parser accepts exactly the two formats; the synthetic trace is finished
    for exactly the miss rates the program admits. *)
From stdpp Require Import pretty sorting.
From S2P Require Import Prelude Rate Acquire.
From Stdlib Require Import QArith Qround Lqa.
Local Open Scope N_scope.
Local Open Scope rust_scope.

(** ** Floating point *)

(** What [parse::<f64>] and [Value::as_f64] give. *)
Inductive F64 : Type :=
  | Finite (q : Q)
  | NonFinite.

(** [f as u64]. *)
Definition f64_as_u64 (q : Q) : N := N.min u64_max (Z.to_N (Qfloor q)).

Definition f64_max (a b : Q) : Q := if Qle_bool a b then b else a.
Definition f64_min (a b : Q) : Q := if Qle_bool a b then a else b.
Definition f64_lt (a b : Q) : bool := negb (Qle_bool b a).

(** [u64] arithmetic of the release build. *)
Definition wrap64 (n : N) : N := n mod 2 ^ 64.

(** ** The random source *)

Definition lcg_step (s : N) : N := wrap64 (s * 6364136223846793005 + 1442695040888963407).

(** The new state, and the number it gives. *)
Definition next_f64 (s : N) : N * Q :=
  let s := lcg_step s in (s, (Q_of_N (N.shiftr s 11) / inject_Z (2 ^ 53))%Q).

(** ** The estimators *)

Definition elapsed_ms (now earlier : N) : Q := Q_of_N ((now - earlier) / 1000000).

(** The sleep for what is left of the predicted interval: coarse outside the
    hot window, the grain inside it. *)
Definition sleep_for (hot_window_ms hot_poll_ms remaining : Q) : N :=
  let sleep_ms := if f64_lt hot_window_ms remaining
                  then f64_min (remaining - hot_window_ms) 1000
                  else hot_poll_ms in
  f64_as_u64 (f64_max sleep_ms hot_poll_ms).

Record Ema := mkEma { ema_ms : option Q; ema_last_arrival : option N; alpha : Q }.

Definition Ema_new : Ema := mkEma None None (3 # 10).

Definition Ema_record_block (now : N) (p : Ema) : Ema :=
  let ema :=
    match ema_last_arrival p with
    | Some lst =>
        let interval_ms := elapsed_ms now lst in
        Some match ema_ms p with
             | None => interval_ms
             | Some prev => (alpha p * interval_ms + (1 - alpha p) * prev)%Q
             end
    | None => ema_ms p
    end in
  mkEma ema (Some now) (alpha p).

Definition Ema_next_poll_delay (now : N) (p : Ema) : N :=
  match ema_ms p, ema_last_arrival p with
  | Some ema, Some lst => sleep_for 600 25 (ema - elapsed_ms now lst)
  | _, _ => 100
  end.

Record Clamped := mkClamped {
  cl_ema_ms : option Q;
  cl_last_arrival : option N;
  cl_alpha : Q;
  max_rise_ms : Q
}.

Definition Clamped_new (max_rise_ms : Q) : Clamped := mkClamped None None (3 # 10) max_rise_ms.

Definition Clamped_record_block (now : N) (p : Clamped) : Clamped :=
  let ema :=
    match cl_last_arrival p with
    | Some lst =>
        let interval_ms := elapsed_ms now lst in
        Some match cl_ema_ms p with
             | None => interval_ms
             | Some prev => f64_min (cl_alpha p * interval_ms + (1 - cl_alpha p) * prev)
                              (prev + max_rise_ms p)
             end
    | None => cl_ema_ms p
    end in
  mkClamped ema (Some now) (cl_alpha p) (max_rise_ms p).

Definition Clamped_next_poll_delay (now : N) (p : Clamped) : N :=
  match cl_ema_ms p, cl_last_arrival p with
  | Some ema, Some lst => sleep_for 600 25 (ema - elapsed_ms now lst)
  | _, _ => 100
  end.

Record MinOfN := mkMinOfN {
  mn_intervals : list Q;
  mn_last_arrival : option N;
  mn_n : nat;
  hot_window_ms : Q;
  hot_poll_ms : Q
}.

Definition MinOfN_new (n : nat) (hot_window_ms hot_poll_ms : Q) : MinOfN :=
  mkMinOfN [] None n hot_window_ms hot_poll_ms.

Definition MinOfN_record_block (now : N) (p : MinOfN) : MinOfN :=
  let intervals :=
    match mn_last_arrival p with
    | Some lst =>
        let pushed := mn_intervals p ++ [elapsed_ms now lst] in
        if (mn_n p <? length pushed)%nat then tail pushed else pushed
    | None => mn_intervals p
    end in
  mkMinOfN intervals (Some now) (mn_n p) (hot_window_ms p) (hot_poll_ms p).

(** [.reduce(f64::min)]. *)
Definition reduce_min (l : list Q) : option Q :=
  match l with [] => None | x :: l => Some (foldl f64_min x l) end.

Definition MinOfN_next_poll_delay (now : N) (p : MinOfN) : N :=
  match mn_last_arrival p, reduce_min (mn_intervals p) with
  | Some lst, Some floor =>
      sleep_for (hot_window_ms p) (hot_poll_ms p) (floor - elapsed_ms now lst)
  | _, _ => 100
  end.

(** ** A poller *)

Inductive Poller : Type :=
  | PReal (p : CadencePredictor)
  | PEma (p : Ema)
  | PClamped (p : Clamped)
  | PMinOfN (p : MinOfN)
  | PFixed (ms : N).

Definition next_delay_ms (now : N) (p : Poller) : N :=
  match p with
  | PReal p => next_poll_delay now p
  | PEma p => Ema_next_poll_delay now p
  | PClamped p => Clamped_next_poll_delay now p
  | PMinOfN p => MinOfN_next_poll_delay now p
  | PFixed ms => ms
  end.

Definition record (now : N) (followed_empty_poll : bool) (p : Poller) : Poller :=
  match p with
  | PReal p => PReal (record_polled_block now followed_empty_poll p)
  | PEma p => PEma (Ema_record_block now p)
  | PClamped p => PClamped (Clamped_record_block now p)
  | PMinOfN p => if followed_empty_poll then PMinOfN (MinOfN_record_block now p) else PMinOfN p
  | PFixed ms => PFixed ms
  end.

(** ** Traces *)

Record Trace := mkTrace { arrivals : list N; since_gap : list nat; gap_count : nat }.

(** The slots of a synthetic trace. [pos] is [None] for [usize::MAX], the mark
    of a gap; [None] of the whole is no fuel. *)
Fixpoint synthetic_slots (fuel : nat) (blocks : nat) (slot_ms : N) (miss_rate : Q) (prop_ms jitter_ms : N)
    (rng slot : N) (pos : option nat) (t : Trace) : option Trace :=
  if (blocks <=? length (arrivals t))%nat then Some t
  else match fuel with
  | O => None
  | S fuel =>
      let slot := wrap64 (slot + 1) in
      let (rng, u) := next_f64 rng in
      if f64_lt u miss_rate then
        synthetic_slots fuel blocks slot_ms miss_rate prop_ms jitter_ms rng slot None t
      else
        let (rng, u) := next_f64 rng in
        let jitter := f64_as_u64 (u * Q_of_N jitter_ms) in
        let arrivals' := arrivals t ++ [wrap64 (slot * slot_ms + prop_ms + jitter)] in
        let gaps' := match pos with
                     | None => if (1 <? length arrivals')%nat then S (gap_count t) else gap_count t
                     | Some _ => gap_count t
                     end in
        let pos := match pos with None => O | Some p => S p end in
        synthetic_slots fuel blocks slot_ms miss_rate prop_ms jitter_ms rng slot (Some pos)
          (mkTrace arrivals' (since_gap t ++ [pos]) gaps')
  end.

Definition synthetic (fuel : nat) (blocks : nat) (slot_ms : N) (miss_rate : Q) (prop_ms jitter_ms seed : N)
    : option Trace :=
  synthetic_slots fuel blocks slot_ms miss_rate prop_ms jitter_ms seed 0 None (mkTrace [] [] 0).

(** The positions after the first timestamp, [prev]. *)
Fixpoint gap_positions_after (prev : Q) (ts : list Q) (slot_ms : N) (pos gaps : nat) : list nat * nat :=
  match ts with
  | [] => ([], gaps)
  | t :: ts =>
      let delta_ms := f64_as_u64 ((t - prev) * 1000) in
      let '(pos, gaps) := if wrap64 (slot_ms + slot_ms / 2) <? delta_ms
                          then (O, S gaps) else (S pos, gaps) in
      let '(rest, gaps) := gap_positions_after t ts slot_ms pos gaps in
      (pos :: rest, gaps)
  end.

Definition gap_positions (ts : list Q) (slot_ms : N) : list nat * nat :=
  match ts with
  | [] => ([], O)
  | t :: ts => let '(rest, gaps) := gap_positions_after t ts slot_ms 0 0 in (O :: rest, gaps)
  end.

Fixpoint jittered (t0 : Q) (ts : list Q) (prop_ms jitter_ms rng : N) : list N :=
  match ts with
  | [] => []
  | t :: ts =>
      let (rng, u) := next_f64 rng in
      let jitter := f64_as_u64 (u * Q_of_N jitter_ms) in
      wrap64 (f64_as_u64 ((t - t0) * 1000) + prop_ms + jitter) :: jittered t0 ts prop_ms jitter_ms rng
  end.

Definition from_timestamps (ts : list Q) (slot_ms prop_ms jitter_ms seed : N) : Trace :=
  let t0 := default 0%Q (head ts) in
  let '(since_gap, gaps) := gap_positions ts slot_ms in
  mkTrace (jittered t0 ts prop_ms jitter_ms seed) since_gap gaps.

Definition from_measured (samples : list (Q * Q)) (slot_ms : N) : Trace :=
  let ts := fst <$> samples in
  let t0 := default 0%Q (head ts) in
  let '(since_gap, gaps) := gap_positions ts slot_ms in
  mkTrace ((fun '(t, lag_ms) => f64_as_u64 (f64_max ((t - t0) * 1000 + lag_ms) 0)) <$> samples)
    since_gap gaps.

(** ** Parsing *)

(** What the program reads of a [serde_json::Value]. *)
Class JsonNumber (Value : Type) := {
  as_array : Value -> option (list Value);
  as_u64 : Value -> option N;
  as_f64 : Value -> option F64
}.

Section parse.
Context {Value : Type} `{JsonNumber Value}.

(** [as_f64().filter(|v| v.is_finite())]. *)
Definition as_finite (v : Value) : option Q :=
  match as_f64 v with Some (Finite q) => Some q | _ => None end.

Definition row_text (row : nat) : string := ("measured trace row " +:+ pretty row)%string.

Definition trace_number (v : Value) (row : nat) : Result N string :=
  match as_u64 v with
  | Some n => Ok n
  | None => Err (row_text row +:+ " has an invalid block number")%string
  end.

Definition trace_float (v : Value) (row : nat) (field : string) : Result Q string :=
  match as_finite v with
  | Some q => Ok q
  | None => Err (row_text row +:+ " has an invalid " +:+ field)%string
  end.

(** The fields of one row. *)
Definition row_fields (v : Value) (row : nat) : Result (option N * Value * Value) string :=
  match as_array v with
  | None => Err (row_text row +:+ " is not an array")%string
  | Some [timestamp; lag] => Ok (None, timestamp, lag)
  | Some [number; timestamp; lag] =>
      let? n := trace_number number row in Ok (Some n, timestamp, lag)
  | Some fields =>
      Err (row_text row +:+ " has " +:+ pretty (length fields) +:+ " fields; expected 2 or 3")%string
  end.

Definition check_number (previous_number : option N) (number : N) (row : nat) : Result () string :=
  match previous_number with
  | None => Ok ()
  | Some previous =>
      if previous =? u64_max then
        Err ("measured trace block number overflows at row " +:+ pretty row)%string
      else if negb (number =? previous + 1) then
        Err ("measured trace jumps from block " +:+ pretty previous +:+ " to " +:+ pretty number
               +:+ " at row " +:+ pretty row)%string
      else Ok ()
  end.

(** The loop of [parse_measured_trace] from [index], with its two registers. *)
Fixpoint parse_rows (raw : list Value) (index : nat) (numbered_format : option bool)
    (previous_number : option N) : Result (list (Q * Q)) string :=
  match raw with
  | [] => Ok []
  | value :: raw =>
      let row := S index in
      let? (number, timestamp, lag) := row_fields value row in
      let is_numbered := match number with Some _ => true | None => false end in
      let mixed := match numbered_format with
                   | Some expected_format => negb (Bool.eqb expected_format is_numbered)
                   | None => false
                   end in
      if mixed then
        Err ("measured trace mixes numbered and legacy rows at row " +:+ pretty row)%string
      else
        let numbered_format := Some (default is_numbered numbered_format) in
        let? _ := match number with
                  | Some number => check_number previous_number number row
                  | None => Ok ()
                  end in
        let previous_number := match number with Some _ => number | None => previous_number end in
        let? t := trace_float timestamp row "block timestamp" in
        let? l := trace_float lag row "arrival lag" in
        let? rest := parse_rows raw row numbered_format previous_number in
        Ok ((t, l) :: rest)
  end.

Definition parse_measured_trace (raw : list Value) : Result (list (Q * Q)) string :=
  parse_rows raw 0 None None.

Definition parse_timestamp_trace (raw : list Value) : Result (list Q) string :=
  collect_results
    (imap (fun index v =>
       match as_finite v with
       | Some q => Ok q
       | None => Err ("timestamp trace row " +:+ pretty (S index) +:+ " is not a number")%string
       end) raw).
End parse.

(** ** The replay *)

Record CadenceSim := mkCadenceSim { delays : list N; polls_of : N }.

(** [base + Duration::from_millis(clock)]. *)
Definition instant (base clock : N) : N := base + clock * 1000000.

(** The polls for one height: the clock when the answer is in hand, the polls
    so far, and whether an empty poll came first. [None] is no fuel. *)
Fixpoint poll_until (fuel : nat) (base rtt_ms arrival : N) (poller : Poller) (clock polls : N)
    (followed_empty_poll : bool) : option (N * N * bool) :=
  match fuel with
  | O => None
  | S fuel =>
      let issued := clock in
      let clock := saturating_add issued rtt_ms in
      let polls := saturating_add polls 1 in
      if arrival <=? issued then Some (clock, polls, followed_empty_poll)
      else poll_until fuel base rtt_ms arrival poller
             (saturating_add clock (next_delay_ms (instant base clock) poller)) polls true
  end.

(** Enough when every empty poll takes a millisecond or more. *)
Definition poll_fuel (clock arrival : N) : nat := N.to_nat (arrival - clock + 1).

Fixpoint simulate_from (base rtt_ms : N) (poller : Poller) (trace : list N) (clock polls : N)
    : option CadenceSim :=
  match trace with
  | [] => Some (mkCadenceSim [] polls)
  | arrival :: trace =>
      let! (clock, polls, followed_empty_poll) :=
        poll_until (poll_fuel clock arrival) base rtt_ms arrival poller clock polls false in
      let! sim := simulate_from base rtt_ms (record (instant base clock) followed_empty_poll poller)
                    trace clock polls in
      Some (mkCadenceSim ((clock - arrival) :: delays sim) (polls_of sim))
  end.

Definition simulate (base : N) (poller : Poller) (trace : Trace) (rtt_ms : N) : option CadenceSim :=
  simulate_from base rtt_ms poller (arrivals trace) 0 0.

(** ** The report *)

(** [sorted[((len - 1) as f64 * q).round()]]; an index out of range panics. *)
Definition pct (sorted : list N) (q : Q) : option Q :=
  match sorted with
  | [] => Some 0%Q
  | _ => Q_of_N <$> sorted !! Z.to_nat (Qfloor (Q_of_nat (length sorted - 1) * q + (1 # 2)))
  end.

Definition mean (v : list N) : Q :=
  match v with
  | [] => 0
  | _ => (foldl (fun s d => s + Q_of_N d) 0 v / Q_of_nat (length v))%Q
  end.

Record Report := mkReport {
  variant : string;
  rp_blocks : nat;
  rp_gaps : nat;
  mean_ms : Q;
  p50_ms : Q;
  p90_ms : Q;
  p95_ms : Q;
  p99_ms : Q;
  max_ms : Q;
  over_100ms_share : Q;
  polls_per_block : Q
}.

Definition report (name : string) (sim : CadenceSim) (trace : Trace) : option Report :=
  let sorted := merge_sort N.le (delays sim) in
  let n := Q_of_nat (length (delays sim)) in
  let over_100 := (Q_of_nat (length (List.filter (fun d => 100 <? d) (delays sim))) / n)%Q in
  let! p50 := pct sorted (1 # 2) in
  let! p90 := pct sorted (9 # 10) in
  let! p95 := pct sorted (19 # 20) in
  let! p99 := pct sorted (99 # 100) in
  Some (mkReport name (length (delays sim)) (gap_count trace) (mean (delays sim)) p50 p90 p95 p99
          (default 0%Q (Q_of_N <$> last sorted)) over_100 (Q_of_N (polls_of sim) / n)%Q).

(** One row of [by_position]; [None] is the position of the steady state. *)
Record PositionRow := mkPositionRow { position : option nat; row_n : nat; row_mean_ms : Q }.

Definition delays_at (p : nat -> bool) (sim : CadenceSim) (trace : Trace) : list N :=
  (List.filter (fun '(pos, _) => p pos) (zip (since_gap trace) (delays sim))).*2.

Definition by_position (sim : CadenceSim) (trace : Trace) : list PositionRow :=
  omap (fun pos =>
          match delays_at (Nat.eqb pos) sim trace with
          | [] => None
          | sel => Some (mkPositionRow (Some pos) (length sel) (mean sel))
          end) (seq 0 9)
  ++ [let steady := delays_at (Nat.ltb 8) sim trace in mkPositionRow None (length steady) (mean steady)].

(** ** The program *)

Record Knobs := mkKnobs {
  k_blocks : nat;
  k_miss_rate : F64;
  k_slot_ms : N;
  k_prop_ms : N;
  k_jitter_ms : N;
  k_rtt_ms : N;
  k_seed : N
}.

(** [env(key, default)] of every knob, given what the environment parses to. *)
Definition knobs (blocks : option nat) (miss_rate : option F64)
    (slot_ms prop_ms jitter_ms rtt_ms seed : option N) : Knobs :=
  mkKnobs (default 5000%nat blocks) (default (Finite (1 # 100)) miss_rate) (default 12000 slot_ms)
    (default 500 prop_ms) (default 300 jitter_ms) (default 50 rtt_ms) (default 42 seed).

Record Output := mkOutput {
  out_blocks : nat;
  out_gaps : nat;
  out_knobs : Knobs;
  variants : list Report;
  positions_real : list PositionRow;
  positions_ema : list PositionRow
}.

(** The pollers compared, in order. *)
Definition contenders : list (string * Poller) :=
  [("real", PReal CadencePredictor_new);
   ("ema (pre-fix)", PEma Ema_new);
   ("clamped", PClamped (Clamped_new 300));
   ("real/1.5s window", PMinOfN (MinOfN_new 8 1500 25));
   ("real/50ms grain", PMinOfN (MinOfN_new 8 600 50));
   ("real/100ms grain", PMinOfN (MinOfN_new 8 600 100));
   ("fixed-100ms (TS)", PFixed 100);
   ("fixed-25ms", PFixed 25)]%string.

Section bench.
Context {Value : Type} `{JsonNumber Value} (show_f64 : F64 -> string).

(** [0.0 <= r < 1.0]; NaN is not. *)
Definition admitted_rate (miss_rate : F64) : option Q :=
  match miss_rate with
  | Finite q => if Qle_bool 0 q && f64_lt q 1 then Some q else None
  | NonFinite => None
  end.

(** The trace to replay; [raw] is the parsed [TRACE_JSON], if it is set. *)
Definition load_trace (fuel : nat) (k : Knobs) (raw : option (list Value)) : option (Result Trace string) :=
  match raw with
  | Some raw =>
      match head raw ≫= as_array with
      | Some _ =>
          Some (let? samples := parse_measured_trace raw in Ok (from_measured samples (k_slot_ms k)))
      | None =>
          Some (let? ts := parse_timestamp_trace raw in
                Ok (from_timestamps ts (k_slot_ms k) (k_prop_ms k) (k_jitter_ms k) (k_seed k)))
      end
  | None =>
      match admitted_rate (k_miss_rate k) with
      | None => Some (Err ("MISS_RATE must be within [0, 1), got " +:+ show_f64 (k_miss_rate k))%string)
      | Some rate =>
          let! t := synthetic fuel (k_blocks k) (k_slot_ms k) rate (k_prop_ms k) (k_jitter_ms k) (k_seed k) in
          Some (Ok t)
      end
  end.

Definition run_contender (base : N) (k : Knobs) (t : Trace) (c : string * Poller)
    : option (CadenceSim * Report) :=
  let! sim := simulate base c.2 t (k_rtt_ms k) in
  let! r := report c.1 sim t in
  Some (sim, r).

Definition bench (fuel : nat) (base : N) (k : Knobs) (raw : option (list Value))
    : option (Result Output string) :=
  let! loaded := load_trace fuel k raw in
  match loaded with
  | Err e => Some (Err e)
  | Ok t =>
      let n := length (arrivals t) in
      if (n <? 2)%nat then
        Some (Err ("a trace of " +:+ pretty n +:+ " block(s) has no interval to replay")%string)
      else
        let! runs := mapM (run_contender base k t) contenders in
        let! real := fst <$> runs !! 0%nat in
        let! ema := fst <$> runs !! 1%nat in
        Some (Ok (mkOutput n (gap_count t) k (snd <$> runs) (by_position real t) (by_position ema t)))
  end.
End bench.

(** ** The delays of a poller *)

(** The least and the greatest delay it ever asks for. *)
Definition grain (p : Poller) : N :=
  match p with
  | PReal _ | PEma _ | PClamped _ => 25
  | PMinOfN p => N.min 100 (f64_as_u64 (hot_poll_ms p))
  | PFixed ms => ms
  end.

Definition longest (p : Poller) : N :=
  match p with
  | PReal _ | PEma _ | PClamped _ => 1000
  | PMinOfN p => N.max 1000 (f64_as_u64 (hot_poll_ms p))
  | PFixed ms => ms
  end.

Lemma f64_as_u64_le a b : (a <= b)%Q -> f64_as_u64 a <= f64_as_u64 b.
Proof. intros H. unfold f64_as_u64. pose proof (Qfloor_resp_le _ _ H). lia. Qed.

Lemma f64_max_spec a b : f64_max a b = b \/ (f64_max a b = a /\ b <= a)%Q.
Proof.
  unfold f64_max. destruct (Qle_bool a b) eqn:E; [by left|right]. split; [done|].
  apply Qlt_le_weak, Qnot_le_lt. intros H%Qle_bool_iff. by rewrite H in E.
Qed.

Lemma f64_min_le_r a b : (f64_min a b <= b)%Q.
Proof. unfold f64_min. destruct (Qle_bool a b) eqn:E; [by apply Qle_bool_iff in E|apply Qle_refl]. Qed.

Lemma sleep_for_bounds w hp r :
  f64_as_u64 hp <= sleep_for w hp r <= N.max 1000 (f64_as_u64 hp).
Proof.
  unfold sleep_for. set (s := if f64_lt w r then _ else _).
  destruct (f64_max_spec s hp) as [-> | [-> H]]; [lia|]. split; [by apply f64_as_u64_le|].
  subst s. destruct (f64_lt w r); [|lia].
  etransitivity; [apply f64_as_u64_le, f64_min_le_r|]. change (f64_as_u64 1000) with 1000. lia.
Qed.

Lemma next_delay_bounds now p : grain p <= next_delay_ms now p <= N.max 100 (longest p).
Proof.
  destruct p as [p|p|p|p|ms]; cbn [grain longest next_delay_ms].
  - unfold next_poll_delay, HOT_WINDOW_MS, HOT_POLL_MS, QUIET_SLEEP_CAP_MS, NO_DATA_POLL_MS.
    repeat case_match; lia.
  - unfold Ema_next_poll_delay. destruct (ema_ms p), (ema_last_arrival p) as [lst|]; [|lia..].
    pose proof (sleep_for_bounds 600 25 (q - elapsed_ms now lst)) as Hs.
    change (f64_as_u64 25) with 25 in Hs. lia.
  - unfold Clamped_next_poll_delay. destruct (cl_ema_ms p), (cl_last_arrival p) as [lst|]; [|lia..].
    pose proof (sleep_for_bounds 600 25 (q - elapsed_ms now lst)) as Hs.
    change (f64_as_u64 25) with 25 in Hs. lia.
  - unfold MinOfN_next_poll_delay.
    destruct (mn_last_arrival p) as [lst|], (reduce_min (mn_intervals p)) as [f|]; [|lia..].
    pose proof (sleep_for_bounds (hot_window_ms p) (hot_poll_ms p) (f - elapsed_ms now lst)). lia.
  - lia.
Qed.

Lemma grain_record now f p : grain (record now f p) = grain p.
Proof. destruct p, f; done. Qed.

Lemma longest_record now f p : longest (record now f p) = longest p.
Proof. destruct p, f; done. Qed.
#[export] Hint Rewrite grain_record longest_record : hotblocks.

(** ** One height *)

(** From the issue of an empty poll to the issue of the next. *)
Definition next_issue (base rtt_ms : N) (p : Poller) (issued : N) : N :=
  let landed := saturating_add issued rtt_ms in
  saturating_add landed (next_delay_ms (instant base landed) p).

(** [k] empty polls from [clock], then the one that finds the block. *)
Record Found (base rtt_ms arrival : N) (p : Poller) (clock : N) (k : nat) : Prop := {
  found_empty : forall i, (i < k)%nat -> Nat.iter i (next_issue base rtt_ms p) clock < arrival;
  found_hit : arrival <= Nat.iter k (next_issue base rtt_ms p) clock
}.

Lemma poll_until_found fuel base rtt arrival p clock polls f :
  0 < grain p -> arrival <= u64_max -> clock <= u64_max -> arrival - clock < N.of_nat fuel ->
  exists k, Found base rtt arrival p clock k
    /\ exists polls', polls' <= polls + N.of_nat k + 1
    /\ poll_until fuel base rtt arrival p clock polls f
       = Some (saturating_add (Nat.iter k (next_issue base rtt p) clock) rtt, polls',
               f || (0 <? k)%nat).
Proof.
  intros Hg Ha. revert clock polls f. induction fuel as [|fuel IH]; intros clock polls f Hc Hfuel; [lia|].
  cbn [poll_until]. destruct (N.leb_spec arrival clock) as [Hle|Hlt].
  - exists O. split; [split; [lia|done]|]. eexists. rewrite orb_false_r.
    split; [|done]. unfold saturating_add. lia.
  - fold (next_issue base rtt p clock).
    assert (clock < next_issue base rtt p clock <= u64_max) as Hnext.
    { pose proof (next_delay_bounds (instant base (saturating_add clock rtt)) p).
      unfold next_issue, saturating_add in *. lia. }
    destruct (IH (next_issue base rtt p clock) (saturating_add polls 1) true)
      as (k & [He Hh] & polls' & Hp & Heq); [lia..|].
    exists (S k). split; [split|].
    + intros [|i] Hi; [done|]. rewrite Nat.iter_succ_r. apply He. lia.
    + by rewrite Nat.iter_succ_r.
    + exists polls'. split; [unfold saturating_add in Hp; lia|].
      rewrite Nat.iter_succ_r. rewrite Heq. by rewrite orb_true_r.
Qed.

Section found.
Context (base rtt_ms : N) (p : Poller).
#[local] Abbreviation issue k clock := (Nat.iter k (next_issue base rtt_ms p) clock).

Lemma issue_spaced k clock :
  N.min u64_max (clock + N.of_nat k * (rtt_ms + grain p)) <= issue k clock.
Proof.
  induction k as [|k IH]; [simpl; lia|]. rewrite Nat.iter_succ. unfold next_issue at 1.
  pose proof (next_delay_bounds (instant base (saturating_add (issue k clock) rtt_ms)) p).
  unfold saturating_add in *. nia.
Qed.

Lemma found_last arrival clock k :
  Found base rtt_ms arrival p clock (S k) ->
  issue k clock < arrival <= issue (S k) clock
  /\ issue (S k) clock = next_issue base rtt_ms p (issue k clock).
Proof. intros [He Hh]. split; [split; [apply He; lia|done]|by rewrite Nat.iter_succ]. Qed.

(** What was found is in hand this soon after it arrived. *)
Lemma found_delay arrival clock k :
  Found base rtt_ms arrival p clock k ->
  saturating_add (issue k clock) rtt_ms
  <= N.max clock (arrival + N.max 100 (longest p) + rtt_ms) + rtt_ms.
Proof.
  destruct k as [|k]; intros HF; [simpl; unfold saturating_add; lia|].
  destruct (found_last _ _ _ HF) as [Hlast ->]. clear HF. revert Hlast. generalize (issue k clock) as x.
  intros x [Hx _]. unfold next_issue.
  pose proof (next_delay_bounds (instant base (saturating_add x rtt_ms)) p).
  unfold saturating_add in *. lia.
Qed.

(** The empty polls fit in the time there was to wait. *)
Lemma found_polls arrival clock k :
  Found base rtt_ms arrival p clock (S k) -> arrival <= u64_max ->
  clock + N.of_nat k * (rtt_ms + grain p) < arrival.
Proof. intros HF Ha. destruct (found_last _ _ _ HF) as [? _]. pose proof (issue_spaced k clock). lia. Qed.

Lemma found_catches_up arrival clock k :
  Found base rtt_ms arrival p clock k -> arrival <= clock -> k = O.
Proof.
  intros HF H. destruct k as [|k]; [done|]. pose proof (found_empty _ _ _ _ _ _ HF 0%nat ltac:(lia)).
  simpl in *. lia.
Qed.
End found.

(** ** Every replay ends *)

Lemma spaced_last rtt a l : adjacent (fun a b => a + rtt <= b) (a :: l) -> a <= default 0 (last (a :: l)).
Proof.
  revert a. induction l as [|b l IH]; intros a H; [done|].
  apply adjacent_cons in H as [? H]. apply IH in H.
  change (last (a :: b :: l)) with (last (b :: l)). lia.
Qed.

Lemma simulate_from_bounded g w base rtt trace : forall p clock polls,
  0 < g -> grain p = g -> N.max 100 (longest p) = w -> clock <= u64_max ->
  Forall (fun a => a <= u64_max) trace ->
  adjacent (fun a b => a + rtt <= b) trace ->
  (forall a, head trace = Some a -> clock <= a + w + rtt) ->
  exists sim e, simulate_from base rtt p trace clock polls = Some sim
    /\ length (delays sim) = length trace
    /\ Forall (fun d => d <= w + 2 * rtt) (delays sim)
    /\ polls_of sim <= polls + N.of_nat (length trace) + e
    /\ (e = 0 \/ clock + (e - 1) * (rtt + g) < default 0 (last trace)).
Proof.
  induction trace as [|a trace IH]; intros p clock polls Hg0 Hg Hw Hc Ha Hadj Hhead.
  - exists (mkCadenceSim [] polls), 0. simpl. split_and!; [done|done|constructor|lia|by left].
  - apply Forall_cons in Ha as [Ha Hrest]. specialize (Hhead a eq_refl). cbn [simulate_from].
    destruct (poll_until_found (poll_fuel clock a) base rtt a p clock polls false)
      as (k & HF & polls' & Hp & ->); [unfold poll_fuel; lia..|].
    set (x := Nat.iter k _ clock) in *.
    pose proof (found_delay _ _ _ _ _ _ HF) as Hd. pose proof (found_hit _ _ _ _ _ _ HF) as Hh.
    fold x in Hd, Hh. set (c := saturating_add x rtt) in *.
    assert (c <= u64_max /\ a <= c) as [Hcm Hac] by (subst c; unfold saturating_add; lia).
    destruct (IH (record (instant base c) (false || (0 <? k)%nat) p) c polls')
      as (sim & e & -> & Hlen & Hds & Hpolls & He); rewrite ?grain_record, ?longest_record; [done..| | |].
    + by eapply adjacent_tail.
    + intros b Hb. destruct trace as [|b' trace]; [done|]. injection Hb as ->.
      apply adjacent_cons in Hadj as [? _]. lia.
    + eexists _, (N.of_nat k + e). split; [done|]. cbn [delays polls_of length]. split; [by rewrite Hlen|].
      split; [constructor; [lia|done]|]. split; [lia|].
      assert (grain p = g) as <- by done. clear IH Hds Hlen Hhead Hd.
      pose proof (issue_spaced base rtt p k clock) as Hsp. fold x in Hsp.
      destruct He as [-> | He].
      * destruct k as [|k]; [left; lia|right]. pose proof (found_polls _ _ _ _ _ _ HF Ha).
        pose proof (spaced_last _ _ _ Hadj). nia.
      * right. destruct (last trace) as [z|] eqn:Hz; [|by apply N.nlt_0_r in He]. cbn [from_option] in He.
        rewrite last_cons, Hz. cbn [from_option]. unfold id in *.
        assert (z <= u64_max) by (by eapply Forall_forall in Hrest; [|by eapply last_Some_elem_of]).
        assert (c < z) by (eapply N.le_lt_trans; [apply N.le_add_r|exact He]).
        assert (clock + N.of_nat k * (rtt + grain p) <= c) by (subst c; unfold saturating_add in *; lia).
        nia.
Qed.

(** A replay of a trace whose blocks are a round trip or more apart, through
    any poller that sleeps: it ends with one delay per block, none longer than
    the longest sleep and two round trips, and the polls are one per block and
    those that fit in the trace. *)
Theorem replay_bounded base p trace rtt :
  0 < grain p -> Forall (fun a => a <= u64_max) (arrivals trace) ->
  adjacent (fun a b => a + rtt <= b) (arrivals trace) ->
  exists sim, simulate base p trace rtt = Some sim
    /\ length (delays sim) = length (arrivals trace)
    /\ Forall (fun d => d <= N.max 100 (longest p) + 2 * rtt) (delays sim)
    /\ polls_of sim <= N.of_nat (length (arrivals trace)) + 1
                       + default 0 (last (arrivals trace)) / (rtt + grain p).
Proof.
  intros Hg Ha Hadj. unfold simulate.
  destruct (simulate_from_bounded (grain p) (N.max 100 (longest p)) base rtt (arrivals trace) p 0 0)
    as (sim & e & -> & Hlen & Hds & Hp & He); [done..|lia|done|done|lia|].
  exists sim. split_and!; [done..|].
  assert (e - 1 <= default 0 (last (arrivals trace)) / (rtt + grain p)) as Hq.
  { apply N.div_le_lower_bound; [lia|]. destruct He as [-> | He]; [by rewrite N.mul_0_r; apply N.le_0_l|].
    rewrite N.mul_comm. lia. }
  revert Hq Hp. generalize (default 0 (last (arrivals trace)) / (rtt + grain p)). lia.
Qed.

(** ** What the shipped predictor costs *)

Lemma millis_instant base a b : b <= u64_max -> millis_since (instant base b) (instant base a) = b - a.
Proof.
  intros Hb. unfold millis_since, instant.
  replace (base + b * 1000000 - (base + a * 1000000)) with ((b - a) * 1000000) by lia.
  rewrite N.div_mul by done. lia.
Qed.

Lemma windows2_lookup {A} (l : list A) j a b :
  l !! j = Some a -> l !! S j = Some b -> windows2 l !! j = Some (a, b).
Proof.
  revert l. induction j as [|j IH]; intros [|x [|y l]] Ha Hb; simplify_eq/=; [done|]. by apply (IH (y :: l)).
Qed.

Lemma elem_of_last_n n (l : list N) j x :
  l !! j = Some x -> (length l <= j + n)%nat -> x ∈ last_n n l.
Proof.
  intros Hx Hj. unfold last_n. apply list_elem_of_lookup. exists (j - (length l - n))%nat.
  rewrite lookup_drop. pose proof (lookup_lt_Some _ _ _ Hx). by replace (_ + _)%nat with j by lia.
Qed.

Lemma length_windows2 {A} (l : list A) : length (windows2 l) = (length l - 1)%nat.
Proof. induction l as [|x [|y l] IH]; [done..|]. simpl in *. lia. Qed.

Section cadence.
Context (base rtt_ms : N).

(** The predictor after blocks detected at [cs]. *)
Definition seen (cs : list N) : CadencePredictor := after_arrivals (instant base <$> cs).

Lemma seen_snoc cs c : record_block (instant base c) (seen cs) = seen (cs ++ [c]).
Proof.
  unfold seen, after_arrivals. rewrite fmap_app. change (instant base <$> [c]) with [instant base c].
  by rewrite foldl_snoc.
Qed.

Lemma seen_interval cs j a b :
  cs !! j = Some a -> cs !! S j = Some b -> b <= u64_max ->
  (length cs <= j + 1 + INTERVAL_WINDOW)%nat -> b - a ∈ intervals (seen cs).
Proof.
  intros Ha Hb Hm Hj. unfold seen. rewrite (proj1 (after_arrivals_spec _)).
  apply (elem_of_last_n _ _ j).
  - unfold gaps. rewrite list_lookup_fmap, (windows2_lookup _ j (instant base a) (instant base b)).
    + simpl. by rewrite millis_instant.
    + by rewrite list_lookup_fmap, Ha.
    + by rewrite list_lookup_fmap, Hb.
  - unfold gaps. rewrite length_fmap, length_windows2, length_fmap. lia.
Qed.

Lemma seen_few now cs : (length cs < 2)%nat -> next_poll_delay now (seen cs) = 100.
Proof. destruct cs as [|a [|b cs]]; intros H; [done..|simpl in H; lia]. Qed.

(** Found within a hot poll, when a kept interval is no longer than the wait
    and the hot window. *)
Lemma found_hot cs clock arrival k f :
  Found base rtt_ms arrival (PReal (seen cs)) clock (S k) ->
  last cs = Some clock -> clock <= u64_max -> f ∈ intervals (seen cs) ->
  clock + f <= arrival + HOT_WINDOW_MS ->
  saturating_add (Nat.iter (S k) (next_issue base rtt_ms (PReal (seen cs))) clock) rtt_ms
  <= arrival + 25 + 2 * rtt_ms.
Proof.
  intros HF Hl Hc Hf Hw. pose proof (issue_spaced base rtt_ms (PReal (seen cs)) k clock) as Hx.
  destruct (found_last _ _ _ _ _ _ HF) as [[Hlt Hhit] Heq]. rewrite Heq in Hhit |- *.
  assert (clock <= Nat.iter k (next_issue base rtt_ms (PReal (seen cs))) clock) as Hge by lia.
  clear Hx HF Heq. revert Hlt Hhit Hge. generalize (Nat.iter k (next_issue base rtt_ms (PReal (seen cs))) clock).
  intros x Hlt Hhit Hge. unfold next_issue in *. set (y := saturating_add x rtt_ms) in *.
  assert (clock <= y <= x + rtt_ms /\ y <= u64_max) as [Hy Hym] by (subst y; unfold saturating_add; lia).
  destruct (cadence_window (instant base <$> cs) (instant base y)) as (_ & _ & H).
  fold (seen cs) in H. specialize (H (instant base clock) f).
  rewrite fmap_last, Hl, millis_instant in H by done. destruct (H eq_refl Hf) as [Hd|Hd];
    cbn [next_delay_ms] in *; unfold HOT_POLL_MS, HOT_WINDOW_MS, saturating_add in *; lia.
Qed.

(** Found within a slow poll, before there is an interval. *)
Lemma found_cold cs clock arrival k :
  Found base rtt_ms arrival (PReal (seen cs)) clock (S k) -> (length cs < 2)%nat ->
  saturating_add (Nat.iter (S k) (next_issue base rtt_ms (PReal (seen cs))) clock) rtt_ms
  <= arrival + 100 + 2 * rtt_ms.
Proof.
  intros HF Hn. destruct (found_last _ _ _ _ _ _ HF) as [[Hlt _] ->]. unfold next_issue at 1.
  cbn [next_delay_ms]. rewrite seen_few by done. unfold saturating_add in *. lia.
Qed.

(** Blocks [lo] or more apart, any of them much later; but among the last
    eight gaps before a block there is one no longer than [hi]. *)
Definition steady_enough (lo hi : N) (l : list N) : Prop :=
  adjacent (fun a b => a + lo <= b) l
  /\ forall m a, (2 <= m)%nat -> l !! m = Some a ->
       exists j x y, l !! j = Some x /\ l !! S j = Some y /\ y <= x + hi
         /\ (j + 2 <= m <= j + 1 + INTERVAL_WINDOW)%nat.

(** Each block of [l] detected at [cs], within [w]. *)
Definition detected (w : N) (l cs : list N) : Prop :=
  Forall2 (fun a c => a <= c <= a + w /\ c <= u64_max) l cs.

Lemma detected_interval w lo hi l rest cs a :
  steady_enough lo hi (l ++ a :: rest) -> detected w l cs -> (2 <= length cs)%nat ->
  exists f, f ∈ intervals (seen cs) /\ f <= hi + w.
Proof.
  intros [_ Hs] Hd Hn. pose proof (Forall2_length _ _ _ Hd) as Hlen.
  destruct (Hs (length l) a) as (j & x & y & Hx & Hy & Hle & Hj); [lia|by apply list_lookup_middle|].
  rewrite lookup_app_l in Hx, Hy by lia.
  destruct (Forall2_lookup_l _ _ _ _ _ Hd Hx) as (cx & Hcx & Hbx & _).
  destruct (Forall2_lookup_l _ _ _ _ _ Hd Hy) as (cy & Hcy & Hby & Hmax).
  exists (cy - cx). split; [|lia]. apply (seen_interval _ j); [done..|lia].
Qed.

(** One block found in time keeps the books. *)
Lemma detect_one lo hi l a rest cs clock k :
  100 + 2 * rtt_ms < lo -> hi + 2 * (100 + 2 * rtt_ms) <= lo + HOT_WINDOW_MS ->
  steady_enough lo hi (l ++ a :: rest) -> detected (100 + 2 * rtt_ms) l cs ->
  (cs = [] \/ last cs = Some clock) -> clock <= u64_max ->
  Found base rtt_ms a (PReal (seen cs)) clock (S k) ->
  saturating_add (Nat.iter (S k) (next_issue base rtt_ms (PReal (seen cs))) clock) rtt_ms
  <= a + (if (length cs <? 2)%nat then 100 else 25) + 2 * rtt_ms.
Proof.
  intros Hlo Hhi Hs Hd Hlast Hc HF. destruct (Nat.ltb_spec (length cs) 2) as [Hn|Hn].
  - by apply found_cold.
  - destruct Hlast as [-> | Hlast]; [simpl in Hn; lia|].
    destruct (detected_interval _ _ _ _ _ _ _ Hs Hd Hn) as (f & Hf & Hle).
    apply (found_hot _ _ _ _ f); [done..|].
    assert (exists p, last l = Some p /\ clock <= p + (100 + 2 * rtt_ms)) as (p & Hp & Hcp).
    { rewrite last_lookup in Hlast. destruct (Forall2_lookup_r _ _ _ _ _ Hd Hlast) as (p & Hp & H & _).
      exists p. rewrite last_lookup, (Forall2_length _ _ _ Hd). split; [done|lia]. }
    destruct Hs as [Hadj _]. apply adjacent_app in Hadj as (_ & _ & Hadj).
    specialize (Hadj p a Hp eq_refl). simpl in Hadj. lia.
Qed.
End cadence.

Lemma simulate_steady base rtt lo hi trace : forall l cs clock polls,
  100 + 2 * rtt < lo -> hi + 2 * (100 + 2 * rtt) <= lo + HOT_WINDOW_MS ->
  steady_enough lo hi (l ++ trace) -> Forall (fun a => a <= u64_max) trace ->
  detected (100 + 2 * rtt) l cs -> (cs = [] \/ last cs = Some clock) -> clock <= u64_max ->
  (forall a, head trace = Some a -> clock < a) ->
  exists sim, simulate_from base rtt (PReal (seen base cs)) trace clock polls = Some sim
    /\ length (delays sim) = length trace
    /\ forall i d, delays sim !! i = Some d ->
         d <= (if (length cs + i <? 2)%nat then 100 else 25) + 2 * rtt.
Proof.
  induction trace as [|a trace IH]; intros l cs clock polls Hlo Hhi Hs Ha Hd Hlast Hc Hhead.
  - by exists (mkCadenceSim [] polls).
  - apply Forall_cons in Ha as [Ha Hrest]. specialize (Hhead a eq_refl). cbn [simulate_from].
    destruct (poll_until_found (poll_fuel clock a) base rtt a (PReal (seen base cs)) clock polls false)
      as (k & HF & polls' & Hp & ->); [done|unfold poll_fuel; lia..|].
    destruct k as [|k]; [exfalso; by apply (N.lt_nge _ _) in Hhead; apply Hhead, HF|].
    pose proof (detect_one _ _ _ _ _ _ _ _ _ _ Hlo Hhi Hs Hd Hlast Hc HF) as Hle.
    pose proof (found_hit _ _ _ _ _ _ HF) as Hh.
    set (c := saturating_add _ rtt) in *.
    assert (a <= c <= u64_max) as [Hac Hcm] by (subst c; unfold saturating_add; lia).
    clearbody c. clear HF Hh Hp. cbn [record orb Nat.ltb Nat.leb record_polled_block]. rewrite seen_snoc.
    assert (c <= a + (100 + 2 * rtt)) as Hw by (destruct (length cs <? 2)%nat; lia).
    destruct (IH (l ++ [a]) (cs ++ [c]) c polls') as (sim & -> & Hlen & Hds); [done..| | | | | | |].
    + by rewrite <- app_assoc.
    + done.
    + apply Forall2_app; [done|]. by repeat constructor.
    + right. apply last_snoc.
    + done.
    + intros b Hb. destruct trace as [|b' trace]; [done|]. injection Hb as ->. destruct Hs as [Hadj _].
      apply adjacent_app in Hadj as (_ & Hadj & _). apply adjacent_cons in Hadj as [? _]. lia.
    + eexists. split; [done|]. cbn [delays length]. split; [by rewrite Hlen|].
      intros [|i] d Hi.
      * injection Hi as <-. rewrite Nat.add_0_r. apply N.le_sub_le_add_l. by rewrite N.add_assoc.
      * apply Hds in Hi. rewrite length_app in Hi.
        by replace (length cs + S i)%nat with (length cs + length [c] + i)%nat by (simpl; lia).
Qed.

(** C24: A skipped slot costs the service's predictor nothing. In a replay of
    blocks [lo] milliseconds or more apart, however late any of them is, as
    long as one of the last eight gaps is near the shortest, the first two
    blocks are in hand within a cold poll (100 ms) and two round trips, and
    every other, the late ones and those after them included, within a hot
    poll (25 ms) and two round trips. *)
Theorem skipped_slot_costs_nothing base trace rtt lo hi :
  100 + 2 * rtt < lo -> hi + 2 * (100 + 2 * rtt) <= lo + HOT_WINDOW_MS ->
  steady_enough lo hi (arrivals trace) -> Forall (fun a => 0 < a <= u64_max) (arrivals trace) ->
  exists sim, simulate base (PReal CadencePredictor_new) trace rtt = Some sim
    /\ length (delays sim) = length (arrivals trace)
    /\ forall i d, delays sim !! i = Some d -> d <= (if (i <? 2)%nat then 100 else 25) + 2 * rtt.
Proof.
  intros Hlo Hhi Hs Ha.
  destruct (simulate_steady base rtt lo hi (arrivals trace) [] [] 0 0) as (sim & H); [done..| | |by left|done| |].
  - eapply Forall_impl; [done|]. by intros ? [].
  - constructor.
  - intros a Hh. destruct (arrivals trace) as [|b t]; [done|]. injection Hh as ->. by apply Forall_cons in Ha as [[] _].
  - by exists sim.
Qed.

(** Eight steady slots, one skipped, three more. *)
Definition skipping_trace : Trace :=
  mkTrace [500; 2500; 4600; 6500; 8500; 10500; 12700; 14500; 20500; 22500; 24500; 26500]
    [0; 1; 2; 3; 4; 5; 6; 7; 0; 1; 2; 3]%nat 1.

(** The averaging predictor it replaced sleeps through the block after the
    skipped slot: the worst delay after the first two blocks, of each. *)
Example averaging_pays :
  (fun p => (fun sim => foldl N.max 0 (drop 2 (delays sim))) <$> simulate 0 p skipping_trace 50)
    <$> [PReal CadencePredictor_new; PEma Ema_new]
  = [Some 100; Some 504].
Proof. vm_compute. reflexivity. Qed.

Lemma skipping_trace_steady : steady_enough 1800 2000 (arrivals skipping_trace).
Proof.
  split.
  - apply adjacent_windows2. by repeat constructor; vm_compute.
  - intros m a Hm Ha. apply lookup_lt_Some in Ha. simpl in Ha. unfold INTERVAL_WINDOW.
    destruct (decide (m <= 9)%nat); [exists 0%nat|exists 4%nat];
      (eexists _, _; split_and!; [reflexivity|reflexivity|by vm_compute|lia|lia]).
Qed.

Lemma skipped_slot_costs_nothing_witness :
  exists sim, simulate 0 (PReal CadencePredictor_new) skipping_trace 50 = Some sim
    /\ length (delays sim) = 12%nat
    /\ forall i d, delays sim !! i = Some d -> d <= (if (i <? 2)%nat then 100 else 25) + 100.
Proof.
  apply (skipped_slot_costs_nothing 0 skipping_trace 50 1800 2000).
  - reflexivity.
  - by vm_compute.
  - apply skipping_trace_steady.
  - by repeat constructor; vm_compute.
Defined.

Lemma replay_bounded_witness :
  exists sim, simulate 0 (PEma Ema_new) skipping_trace 50 = Some sim
    /\ length (delays sim) = 12%nat
    /\ Forall (fun d => d <= 1100) (delays sim) /\ polls_of sim <= 12 + 1 + 26500 / 75.
Proof.
  apply (replay_bounded 0 (PEma Ema_new) skipping_trace 50).
  - reflexivity.
  - by repeat constructor; vm_compute.
  - apply adjacent_windows2. by repeat constructor; vm_compute.
Defined.

(** ** What the parser accepts *)

Section accepts.
Context {Value : Type} `{JsonNumber Value}.

Definition reads_legacy (v : Value) (s : Q * Q) : Prop :=
  exists t l, as_array v = Some [t; l] /\ as_finite t = Some s.1 /\ as_finite l = Some s.2.

Definition reads_numbered (v : Value) (n : N) (s : Q * Q) : Prop :=
  exists vn t l, as_array v = Some [vn; t; l] /\ as_u64 vn = Some n
    /\ as_finite t = Some s.1 /\ as_finite l = Some s.2.

(** The rest of a row once its fields are known. *)
Lemma row_rest_ok (t l : Value) row (rest : Result (list (Q * Q)) string) samples (f1 f2 : string) :
  (let? x := trace_float t row f1 in let? y := trace_float l row f2 in
   let? r := rest in Ok ((x, y) :: r)) = Ok samples
  <-> exists s tl, samples = s :: tl /\ as_finite t = Some s.1 /\ as_finite l = Some s.2 /\ rest = Ok tl.
Proof.
  unfold trace_float. destruct (as_finite t) as [x|], (as_finite l) as [y|], rest as [r|];
    (split; [|intros ([x' y'] & tl & ?); destruct_ands; by simplify_eq/=]); intros Hx; simplify_eq/=.
  by exists (x, y), r.
Qed.

Lemma row_fields_ok v row n t l :
  row_fields v row = Ok (n, t, l) <->
  (n = None /\ as_array v = Some [t; l])
  \/ (exists vn k, n = Some k /\ as_array v = Some [vn; t; l] /\ as_u64 vn = Some k).
Proof.
  unfold row_fields, trace_number.
  destruct (as_array v) as [[|a [|b [|c [|d r]]]]|]; [naive_solver..| |naive_solver|naive_solver].
  destruct (as_u64 a) eqn:Ea; naive_solver.
Qed.

(** Inside a legacy trace. *)
Lemma parse_rows_legacy raw : forall index samples,
  parse_rows raw index (Some false) None = Ok samples <-> Forall2 reads_legacy raw samples.
Proof.
  induction raw as [|v raw IH]; intros index samples; cbn [parse_rows].
  { split; [intros [= <-]; constructor|by intros ->%Forall2_nil_inv_l]. }
  destruct (row_fields v (S index)) as [[[n t] l]|e] eqn:E.
  - apply row_fields_ok in E. destruct n as [n|]; cbn.
    + split; [done|]. intros H1. apply Forall2_cons_inv_l in H1 as (? & ? & (? & ? & ? & _) & _).
      destruct E as [[? ?]|(? & ? & ? & ? & ?)]; simplify_eq/=.
    + destruct E as [[_ E]|(? & ? & ? & ?)]; [|done]. rewrite row_rest_ok. setoid_rewrite IH. split.
      * intros (s & tl & -> & ? & ? & ?). constructor; [by exists t, l|done].
      * intros (s & tl & (t' & l' & Ha & ? & ?) & ? & ->)%Forall2_cons_inv_l.
        rewrite E in Ha. simplify_eq. by exists s, tl.
  - split; [done|]. intros H1. apply Forall2_cons_inv_l in H1 as (? & ? & (t & l & Ha & _) & _).
    unfold row_fields in E. by rewrite Ha in E.
Qed.

Lemma check_number_next p n row :
  n <= u64_max ->
  check_number (Some p) n row = Ok () /\ n = p + 1 \/ (exists e, check_number (Some p) n row = Err e) /\ n <> p + 1.
Proof.
  intros Hn. cbn. destruct (N.eqb_spec p u64_max) as [->|]; [right; split; [by eexists|lia]|].
  destruct (N.eqb_spec n (p + 1)); [by left|right; split; [by eexists|done]].
Qed.

Lemma forall3_cons_inv {A B C} (P : A -> B -> C -> Prop) x l k m :
  Forall3 P (x :: l) k m ->
  exists y z k' m', k = y :: k' /\ m = z :: m' /\ P x y z /\ Forall3 P l k' m'.
Proof. intros HF. inversion HF; subst. eauto 10. Qed.

(** Inside a numbered trace, after block [p]. *)
Lemma parse_rows_numbered (Hu64 : forall v n, as_u64 v = Some n -> n <= u64_max) raw :
  forall p index samples,
  parse_rows raw index (Some true) (Some p) = Ok samples
  <-> exists ns, adjacent (fun a b => b = a + 1) (p :: ns) /\ Forall3 reads_numbered raw ns samples.
Proof.
  induction raw as [|v raw IH]; intros p index samples; cbn [parse_rows].
  { split; [intros [= <-]; exists []; split; [apply adjacent_singleton|constructor]|].
    intros (ns & _ & H1). by inversion H1. }
  destruct (row_fields v (S index)) as [[[n t] l]|e] eqn:E.
  - apply row_fields_ok in E. destruct n as [n|]; cbn -[check_number].
    + destruct E as [[? ?]|(vn & ? & [= <-] & Ha & Hn)]; [done|].
      destruct (check_number_next p n (S index) (Hu64 _ _ Hn)) as [[-> Hp]|[[e ->] Hp]].
      * rewrite row_rest_ok. setoid_rewrite IH. split.
        -- intros (s & tl & -> & ? & ? & ns & Hadj & HF). exists (n :: ns).
           split; [by apply adjacent_cons|]. constructor; [by exists vn, t, l|done].
        -- intros (ns & Hadj & (n' & s & ns' & tl & -> & -> & Hr & HF)%forall3_cons_inv).
           destruct Hr as (? & ? & ? & Ha' & Hn' & ? & ?). rewrite Ha in Ha'. simplify_eq.
           apply adjacent_cons in Hadj as [_ Hadj]. exists s, tl. eauto 10.
      * split; [done|]. intros (ns & Hadj & (n' & s & ns' & tl & -> & -> & Hr & HF)%forall3_cons_inv).
        destruct Hr as (? & ? & ? & Ha' & Hn' & _). rewrite Ha in Ha'. simplify_eq.
        by apply adjacent_cons in Hadj as [? _].
    + split; [done|]. destruct E as [[_ E]|(? & ? & ? & ?)]; [|done].
      intros (ns & _ & (n' & s & ns' & tl & -> & -> & (? & ? & ? & Ha & _) & _)%forall3_cons_inv).
      by rewrite E in Ha.
  - split; [done|].
    intros (ns & _ & (n' & s & ns' & tl & -> & -> & (? & ? & ? & Ha & Hn & _) & _)%forall3_cons_inv).
    unfold row_fields, trace_number in E. by rewrite Ha, Hn in E.
Qed.

(** A measured trace is read when, and only when, it is all legacy rows or
    all numbered rows whose numbers are consecutive, every timestamp and lag
    a finite number; and what is read is those, row for row. *)
Theorem measured_trace_exact (Hu64 : forall v n, as_u64 v = Some n -> n <= u64_max) raw samples :
  parse_measured_trace raw = Ok samples
  <-> Forall2 reads_legacy raw samples
      \/ exists ns, adjacent (fun a b => b = a + 1) ns /\ Forall3 reads_numbered raw ns samples.
Proof.
  destruct raw as [|v raw].
  { split; [intros [= <-]; left; constructor|].
    intros [->%Forall2_nil_inv_l|(ns & _ & HF)]; [done|]. by inversion HF. }
  unfold parse_measured_trace. cbn [parse_rows].
  destruct (row_fields v 1) as [[[n t] l]|e] eqn:E.
  - apply row_fields_ok in E. destruct E as [[-> Ha]|(vn & n' & -> & Ha & Hn)]; cbn; rewrite row_rest_ok.
    + setoid_rewrite parse_rows_legacy. split.
      * intros (s & tl & -> & ? & ? & ?). left. constructor; [by exists t, l|done].
      * intros [(s & tl & (t' & l' & Ha' & ? & ?) & ? & ->)%Forall2_cons_inv_l|(ns & _ & HF)].
        -- rewrite Ha in Ha'. simplify_eq. by exists s, tl.
        -- apply forall3_cons_inv in HF as (? & ? & ? & ? & _ & _ & (? & ? & ? & Ha' & _) & _).
           by rewrite Ha in Ha'.
    + setoid_rewrite (parse_rows_numbered Hu64). split.
      * intros (s & tl & -> & ? & ? & ns & Hadj & HF). right. exists (n' :: ns).
        split; [done|]. constructor; [by exists vn, t, l|done].
      * intros [(s & tl & (t' & l' & Ha' & _) & _)%Forall2_cons_inv_l|(ns & Hadj & HF)].
        -- by rewrite Ha in Ha'.
        -- apply forall3_cons_inv in HF as (k & s & ns' & tl & -> & -> & Hr & HF).
           destruct Hr as (? & ? & ? & Ha' & Hn' & ? & ?). rewrite Ha in Ha'. simplify_eq.
           exists s, tl. eauto 10.
  - split; [done|]. unfold row_fields, trace_number in E.
    intros [(s & tl & (t' & l' & Ha' & _) & _)%Forall2_cons_inv_l|(ns & _ & HF)].
    + by rewrite Ha' in E.
    + apply forall3_cons_inv in HF as (k & s & ns' & tl & _ & _ & (? & ? & ? & Ha' & Hn' & _) & _).
      by rewrite Ha', Hn' in E.
Qed.
End accepts.

(** ** The random source reaches every state *)

Section lcg.
Local Open Scope Z_scope.

#[local] Abbreviation A := 6364136223846793005.
#[local] Abbreviation C := 1442695040888963407.

(** [2^k] steps at once: [s * jump_a k + jump_c k]. *)
Fixpoint jump_a (k : nat) : Z :=
  match k with O => A | S k => jump_a k * jump_a k end.
Fixpoint jump_c (k : nat) : Z :=
  match k with O => C | S k => (jump_a k + 1) * jump_c k end.

Lemma pow2_1 k : 2 ^ Z.of_nat (S k) = 2 * 2 ^ Z.of_nat k.
Proof. rewrite <- (Z.pow_add_r 2 1) by lia. f_equal. lia. Qed.

Lemma pow2_2 k : 2 ^ Z.of_nat (k + 2) = 4 * 2 ^ Z.of_nat k.
Proof. rewrite <- (Z.pow_add_r 2 2) by lia. f_equal. lia. Qed.

Lemma jump_a_form k : exists u, jump_a k = 1 + 2 ^ Z.of_nat (k + 2) * u.
Proof.
  induction k as [|k [u IH]]; [by exists (Z.div A 4)|]. cbn [jump_a]. rewrite IH.
  exists (u + 2 * 2 ^ Z.of_nat k * u * u). rewrite !pow2_2, pow2_1. ring.
Qed.

Lemma jump_c_form k : exists v, jump_c k = 2 ^ Z.of_nat k * (2 * v + 1).
Proof.
  induction k as [|k [v IH]]; [by exists (Z.div C 2)|]. cbn [jump_c]. rewrite IH.
  destruct (jump_a_form k) as [u ->]. exists (2 ^ Z.of_nat k * u * (2 * v + 1) + v).
  rewrite pow2_2, pow2_1. ring.
Qed.

Definition modulus : Z := 2 ^ 64.

Lemma lcg_step_mod s : (modulus | Z.of_N (lcg_step s) - (Z.of_N s * A + C)).
Proof.
  unfold lcg_step, wrap64. rewrite N2Z.inj_mod, N2Z.inj_add, N2Z.inj_mul.
  change (Z.of_N (2 ^ 64)) with modulus.
  change (Z.of_N 6364136223846793005) with A. change (Z.of_N 1442695040888963407) with C.
  set (x := Z.of_N s * A + C). exists (- (x / modulus)). pose proof (Z.div_mod x modulus ltac:(done)). lia.
Qed.

Lemma lcg_jump k s : (modulus | Z.of_N (Nat.iter (2 ^ k) lcg_step s) - (Z.of_N s * jump_a k + jump_c k)).
Proof.
  revert s. induction k as [|k IH]; intros s; [apply lcg_step_mod|].
  replace (2 ^ S k)%nat with (2 ^ k + 2 ^ k)%nat by (simpl; lia). rewrite Nat.iter_add.
  destruct (IH s) as [q Hq]. destruct (IH (Nat.iter (2 ^ k) lcg_step s)) as [r Hr].
  revert Hr. generalize (Nat.iter (2 ^ k) lcg_step (Nat.iter (2 ^ k) lcg_step s)). intros y Hr.
  revert Hq Hr. generalize (Nat.iter (2 ^ k) lcg_step s). intros x Hx Hy. cbn [jump_a jump_c].
  exists (r + q * jump_a k). 
  replace (Z.of_N y) with (r * modulus + (Z.of_N x * jump_a k + jump_c k)) by lia.
  replace (Z.of_N x) with (q * modulus + (Z.of_N s * jump_a k + jump_c k)) by lia. ring.
Qed.

(** The period is full: every residue is met. *)
Lemma lcg_meets k s y : (k <= 64)%nat -> exists n, (2 ^ Z.of_nat k | Z.of_N (Nat.iter n lcg_step s) - y).
Proof.
  induction k as [|k IH]; intros Hk; [exists O; apply Z.divide_1_l|].
  destruct IH as [n [q Hq]]; [lia|]. set (x := Nat.iter n lcg_step s) in *.
  destruct (Z.Even_or_Odd q) as [[r Hr]|[r Hr]].
  - exists n. exists r. rewrite pow2_1. fold x. rewrite Hq, Hr. ring.
  - exists (2 ^ k + n)%nat. rewrite Nat.iter_add. fold x.
    destruct (lcg_jump k x) as [m Hm]. destruct (jump_a_form k) as [u Hu]. destruct (jump_c_form k) as [v Hv].
    assert (modulus = 2 ^ Z.of_nat (63 - k) * 2 ^ Z.of_nat (S k)) as Hmod
      by (rewrite <- Z.pow_add_r by lia; unfold modulus; f_equal; lia).
    exists (m * 2 ^ Z.of_nat (63 - k) + Z.of_N x * 2 * u + r + v + 1).
    replace (Z.of_N (Nat.iter (2 ^ k) lcg_step x) - y)
      with (m * modulus + (Z.of_N x * jump_a k + jump_c k) - y) by lia.
    rewrite Hmod, Hu, Hv, pow2_2, pow2_1.
    replace y with (Z.of_N x - q * 2 ^ Z.of_nat k) by lia. rewrite Hr. ring.
Qed.
End lcg.

Lemma lcg_step_lt s : lcg_step s < 2 ^ 64.
Proof. apply N.mod_lt. done. Qed.

(** The largest number drawn is met from every state. *)
Lemma lcg_meets_top s : exists n, Nat.iter n lcg_step (lcg_step s) = u64_max.
Proof.
  destruct (lcg_meets 64 (lcg_step s) (Z.of_N u64_max)) as [n [q Hq]]; [lia|]. exists n.
  assert (Nat.iter n lcg_step (lcg_step s) < 2 ^ 64) as Hlt.
  { destruct n as [|n]; [apply lcg_step_lt|]. rewrite Nat.iter_succ. apply lcg_step_lt. }
  revert Hlt Hq. generalize (Nat.iter n lcg_step (lcg_step s)). intros x Hlt Hq.
  change (2 ^ Z.of_nat 64)%Z with 18446744073709551616%Z in Hq. unfold u64_max in *.
  change (2 ^ 64) with 18446744073709551616 in Hlt. lia.
Qed.

(** ** The synthetic trace is finished *)

Lemma shiftr_div s : (Q_of_N (N.shiftr s 11) == inject_Z (Z.of_N (s / 2 ^ 11)))%Q.
Proof. by rewrite N.shiftr_div_pow2. Qed.

(** A number drawn is below one. *)
Lemma next_f64_lt_1 s : (0 <= (next_f64 s).2 < 1)%Q.
Proof.
  cbn [next_f64 snd]. rewrite shiftr_div.
  assert (lcg_step s / 2 ^ 11 < 2 ^ 53) as H.
  { apply N.Div0.div_lt_upper_bound. exact (lcg_step_lt s). }
  set (x := lcg_step s / 2 ^ 11) in *. clearbody x.
  split; [apply Qle_shift_div_l|apply Qlt_shift_div_r]; [done| |done|].
  - unfold Qle. simpl. lia.
  - rewrite Qmult_1_l. unfold Qlt. simpl. change (2 ^ 53) with 9007199254740992 in H. lia.
Qed.

Lemma next_f64_top s : lcg_step s = u64_max -> ((next_f64 s).2 == 9007199254740991 # 9007199254740992)%Q.
Proof. intros H. cbn [next_f64 snd]. rewrite H. by vm_compute. Qed.

(** A position for each arrival, and every arrival a [u64]. *)
Definition trace_ok (t : Trace) : Prop :=
  length (since_gap t) = length (arrivals t) /\ Forall (fun a => a <= u64_max) (arrivals t).

Lemma wrap64_max n : wrap64 n <= u64_max.
Proof. unfold wrap64. pose proof (N.mod_lt n (2 ^ 64) ltac:(done)). unfold u64_max. lia. Qed.

Section slots.
Context (blocks : nat) (slot_ms : N) (miss_rate : Q) (prop_ms jitter_ms : N).
#[local] Abbreviation slots fuel := (synthetic_slots fuel blocks slot_ms miss_rate prop_ms jitter_ms).
#[local] Abbreviation finishes rng slot pos t :=
  (exists fuel t', slots fuel rng slot pos t = Some t' /\ trace_ok t' /\ length (arrivals t') = blocks).

(** The number drawn from [rng] makes a block, and the rest is finished. *)
Lemma slot_produced rng slot pos t :
  trace_ok t -> (length (arrivals t) < blocks)%nat -> f64_lt (next_f64 rng).2 miss_rate = false ->
  (forall rng slot pos t', trace_ok t' -> length (arrivals t') = S (length (arrivals t)) ->
     finishes rng slot pos t') ->
  finishes rng slot pos t.
Proof.
  intros [Hok Ha] Hlt Hu Hnext.
  set (slot' := wrap64 (slot + 1)). set (r2 := next_f64 (next_f64 rng).1).
  set (a := wrap64 (slot' * slot_ms + prop_ms + f64_as_u64 (r2.2 * Q_of_N jitter_ms))).
  set (arr := arrivals t ++ [a]). set (pos' := match pos with None => O | Some p => S p end).
  destruct (Hnext r2.1 slot' (Some pos')
              (mkTrace arr (since_gap t ++ [pos'])
                 (match pos with
                  | None => if (1 <? length arr)%nat then S (gap_count t) else gap_count t
                  | Some _ => gap_count t end))) as (fuel & t' & Heq & H).
  - subst arr. split; cbn [arrivals since_gap]; [rewrite !length_app; simpl; lia|].
    apply Forall_app. split; [done|]. by repeat constructor; apply wrap64_max.
  - subst arr. cbn [arrivals]. rewrite length_app. simpl. lia.
  - exists (S fuel), t'. split; [|done]. cbn [synthetic_slots].
    rewrite (proj2 (Nat.leb_gt _ _) Hlt). unfold next_f64 in Hu |- *. cbn [snd] in Hu. rewrite Hu. exact Heq.
Qed.

Lemma slots_finish (Hmiss : (miss_rate <= 9007199254740991 # 9007199254740992)%Q) m :
  forall rng slot pos t, trace_ok t -> (length (arrivals t) + m = blocks)%nat -> finishes rng slot pos t.
Proof.
  induction m as [|m IH]; intros rng slot pos t Hok Hm.
  - exists O, t. cbn [synthetic_slots]. rewrite (proj2 (Nat.leb_le _ _)) by lia. split_and!; [done..|lia].
  - destruct (lcg_meets_top rng) as [n Hn]. revert rng slot pos Hn.
    induction n as [|n IHn]; intros rng slot pos Hn.
    + apply slot_produced; [done|lia| |intros; apply IH; [done|lia]].
      unfold f64_lt. apply negb_false_iff, Qle_bool_iff. by rewrite next_f64_top.
    + destruct (f64_lt (next_f64 rng).2 miss_rate) eqn:Hu.
      * rewrite Nat.iter_succ_r in Hn. destruct (IHn (lcg_step rng) (wrap64 (slot + 1)) None Hn) as (fuel & t' & Heq & H).
        exists (S fuel), t'. split; [|done]. cbn [synthetic_slots].
        rewrite (proj2 (Nat.leb_gt _ _)) by lia. unfold next_f64 in Hu |- *. cbn [snd] in Hu. by rewrite Hu.
      * apply slot_produced; [done|lia|done|intros; apply IH; [done|lia]].
Qed.

Lemma slots_starve (Hmiss : (1 <= miss_rate)%Q) fuel : forall rng slot pos t,
  (length (arrivals t) < blocks)%nat -> slots fuel rng slot pos t = None.
Proof.
  induction fuel as [|fuel IH]; intros rng slot pos t Hlt; cbn [synthetic_slots];
    rewrite (proj2 (Nat.leb_gt _ _) Hlt); [done|].
  assert (f64_lt (next_f64 rng).2 miss_rate = true) as Hu.
  { apply negb_true_iff. destruct (Qle_bool miss_rate _) eqn:E; [|done]. apply Qle_bool_iff in E.
    pose proof (next_f64_lt_1 rng) as [_ H]. exfalso. eapply Qlt_not_le; [exact H|]. by eapply Qle_trans. }
  unfold next_f64 in Hu |- *. cbn [snd] in Hu. rewrite Hu. by apply IH.
Qed.
End slots.

(** The synthetic trace is finished for exactly the miss rates the program
    admits: for every seed, a rate an [f64] can hold below one gives as many
    blocks as asked for; a rate of one or more drops every slot for ever. *)
Theorem synthetic_finishes blocks slot_ms miss_rate prop_ms jitter_ms seed :
  ((miss_rate <= 9007199254740991 # 9007199254740992)%Q ->
   exists fuel t, synthetic fuel blocks slot_ms miss_rate prop_ms jitter_ms seed = Some t
     /\ length (arrivals t) = blocks /\ length (since_gap t) = blocks)
  /\ ((1 <= miss_rate)%Q -> (0 < blocks)%nat ->
      forall fuel, synthetic fuel blocks slot_ms miss_rate prop_ms jitter_ms seed = None).
Proof.
  split.
  - intros H. destruct (slots_finish blocks slot_ms miss_rate prop_ms jitter_ms H blocks seed 0 None
                          (mkTrace [] [] 0)) as (fuel & t & Heq & [Hg _] & Hlen); [by split|done|].
    exists fuel, t. split_and!; [done..|by rewrite Hg].
  - intros H Hb fuel. by apply slots_starve.
Qed.

(** ** The report of a replay *)

Lemma sorted_lookup l i j x y :
  StronglySorted N.le l -> (i <= j)%nat -> l !! i = Some x -> l !! j = Some y -> x <= y.
Proof.
  intros Hs. revert i j. induction Hs as [|a l Hs IH Ha]; intros [|i] [|j] Hij Hx Hy; simplify_eq/=; [lia| |lia|].
  - eapply Forall_lookup_1 in Ha; done.
  - apply (IH i j); [lia|done..].
Qed.

#[local] Instance N_le_total : Total N.le.
Proof. intros x y. lia. Qed.

(** The index [pct] reads. *)
Definition rank (n : nat) (q : Q) : nat := Z.to_nat (Qfloor (Q_of_nat (n - 1) * q + (1 # 2))).

Lemma Q_of_nat_nonneg n : (0 <= Q_of_nat n)%Q.
Proof. unfold Q_of_nat, Qle. simpl. lia. Qed.

Lemma rank_mono n p q : (p <= q)%Q -> (rank n p <= rank n q)%nat.
Proof.
  intros H. assert (Qfloor (Q_of_nat (n - 1) * p + (1 # 2)) <= Qfloor (Q_of_nat (n - 1) * q + (1 # 2)))%Z; [|unfold rank; lia].
  apply Qfloor_resp_le, Qplus_le_l. rewrite !(Qmult_comm (Q_of_nat _)).
  apply Qmult_le_compat_r; [done|apply Q_of_nat_nonneg].
Qed.

Lemma rank_top n : rank n 1 = (n - 1)%nat.
Proof.
  unfold rank, Q_of_nat, Qfloor, Qmult, Qplus, inject_Z. cbn [Qnum Qden]. rewrite !Z.mul_1_r.
  replace (Z.of_nat (n - 1) * 2 + 1)%Z with (1 + Z.of_nat (n - 1) * 2)%Z by lia.
  change (Z.pos (1 * 1 * 2)) with 2%Z. rewrite Z.div_add by done. change (1 / 2)%Z with 0%Z. lia.
Qed.

Lemma pct_rank l q : l <> [] -> (q <= 1)%Q ->
  exists x, l !! rank (length l) q = Some x /\ pct l q = Some (Q_of_N x).
Proof.
  intros Hne Hq. pose proof (rank_mono (length l) q 1 Hq) as Hr. rewrite rank_top in Hr.
  destruct (lookup_lt_is_Some_2 l (rank (length l) q)) as [x Hx]; [destruct l; [done|simpl in *; lia]|].
  exists x. split; [done|]. unfold pct. destruct l; [done|]. fold (rank (length (n :: l)) q). by rewrite Hx.
Qed.

Lemma Q_of_N_le a b : a <= b -> (Q_of_N a <= Q_of_N b)%Q.
Proof. intros H. unfold Q_of_N, Qle. simpl. lia. Qed.

Lemma pct_le l p q x y : StronglySorted N.le l -> (p <= q)%Q -> (q <= 1)%Q -> l <> [] ->
  pct l p = Some x -> pct l q = Some y -> (x <= y)%Q.
Proof.
  intros Hs Hpq Hq Hne Hx Hy.
  destruct (pct_rank l p Hne) as (x' & Hx' & Ex); [by eapply Qle_trans|].
  destruct (pct_rank l q Hne Hq) as (y' & Hy' & Ey). simplify_eq.
  apply Q_of_N_le. eapply sorted_lookup; [done| |done|done]. by apply rank_mono.
Qed.

(** What a report of [n] blocks says of a replay. *)
Record report_ok (name : string) (n : nat) (r : Report) : Prop := {
  ro_variant : variant r = name;
  ro_blocks : rp_blocks r = n;
  ro_50_90 : (p50_ms r <= p90_ms r)%Q;
  ro_90_95 : (p90_ms r <= p95_ms r)%Q;
  ro_95_99 : (p95_ms r <= p99_ms r)%Q;
  ro_99_max : (p99_ms r <= max_ms r)%Q
}.

Lemma report_total name sim t :
  delays sim <> [] -> exists r, report name sim t = Some r /\ report_ok name (length (delays sim)) r.
Proof.
  intros Hne. unfold report. set (l := merge_sort N.le (delays sim)).
  assert (StronglySorted N.le l) as Hs by apply (StronglySorted_merge_sort _).
  assert (l <> []) as Hl.
  { intros E. apply Hne, Permutation_nil. rewrite <- E. apply merge_sort_Permutation. }
  destruct (pct_rank l (1 # 2) Hl ltac:(done)) as (x1 & _ & E1), (pct_rank l (9 # 10) Hl ltac:(done)) as (x2 & _ & E2),
    (pct_rank l (19 # 20) Hl ltac:(done)) as (x3 & _ & E3), (pct_rank l (99 # 100) Hl ltac:(done)) as (x4 & _ & E4),
    (pct_rank l 1 Hl ltac:(done)) as (x5 & Hx5 & E5).
  rewrite E1, E2, E3, E4. rewrite rank_top in Hx5.
  assert (last l = Some x5) as -> by (rewrite last_lookup; by replace (pred (length l)) with (length l - 1)%nat by lia).
  eexists. split; [done|]. split; cbn; [done|done|..].
  all: eapply pct_le; [exact Hs| | |exact Hl|eassumption|eassumption]; done.
Qed.

Lemma simulate_total base rtt trace : forall p clock polls,
  0 < grain p -> clock <= u64_max -> Forall (fun a => a <= u64_max) trace ->
  exists sim, simulate_from base rtt p trace clock polls = Some sim /\ length (delays sim) = length trace.
Proof.
  induction trace as [|a trace IH]; intros p clock polls Hg Hc Ha; [by eexists|].
  apply Forall_cons in Ha as [Ha Hrest]. cbn [simulate_from].
  destruct (poll_until_found (poll_fuel clock a) base rtt a p clock polls false)
    as (k & _ & polls' & _ & ->); [done|done|done|unfold poll_fuel; lia|].
  set (c := saturating_add _ rtt). assert (c <= u64_max) by (subst c; unfold saturating_add; lia).
  destruct (IH (record (instant base c) (false || (0 <? k)%nat) p) c polls') as (sim & -> & Hlen);
    [by rewrite grain_record|done|done|].
  eexists. split; [done|]. cbn. by rewrite Hlen.
Qed.

(** ** The program *)

Lemma contenders_poll : Forall (fun c : string * Poller => 0 < grain c.2) contenders.
Proof. by repeat constructor; vm_compute. Qed.

Lemma jittered_ok t0 ts prop_ms jitter_ms : forall rng,
  Forall (fun a => a <= u64_max) (jittered t0 ts prop_ms jitter_ms rng).
Proof.
  induction ts as [|t ts IH]; intros rng; [constructor|]. cbn [jittered].
  destruct (next_f64 rng) as [rng' u]. constructor; [apply wrap64_max|apply IH].
Qed.

Section program.
Context {Value : Type} `{JsonNumber Value} (show_f64 : F64 -> string) (base : N) (k : Knobs).

Lemma run_contender_total t c :
  0 < grain c.2 -> Forall (fun a => a <= u64_max) (arrivals t) -> arrivals t <> [] ->
  exists sim r, run_contender base k t c = Some (sim, r) /\ report_ok c.1 (length (arrivals t)) r.
Proof.
  intros Hg Ha Hne. destruct (simulate_total base (k_rtt_ms k) (arrivals t) c.2 0 0) as (sim & Hsim & Hlen); [done..|].
  destruct (report_total c.1 sim t) as (r & Hr & Hok).
  { intros E. rewrite E in Hlen. by destruct (arrivals t). }
  exists sim, r. rewrite <- Hlen. split; [|done]. unfold run_contender, simulate. by rewrite Hsim, Hr.
Qed.

Lemma run_all t cs :
  Forall (fun c : string * Poller => 0 < grain c.2) cs ->
  Forall (fun a => a <= u64_max) (arrivals t) -> arrivals t <> [] ->
  exists runs, mapM (run_contender base k t) cs = Some runs
    /\ Forall2 (fun c r => report_ok c.1 (length (arrivals t)) r) cs (snd <$> runs).
Proof.
  intros Hcs Ha Hne. induction Hcs as [|c cs Hc Hcs (runs & Hr & HF)]; [by exists []|].
  destruct (run_contender_total t c Hc Ha Hne) as (sim & r & Hs & Hok).
  exists ((sim, r) :: runs). split; [|by constructor]. cbn. rewrite Hs. cbn. by rewrite Hr.
Qed.

(** Whatever the settings and the trace, something is loaded: a trace of
    [u64]s, or the reason there is none. *)
Lemma load_total raw :
  (forall q, k_miss_rate k = Finite q -> (q < 1)%Q -> (q <= 9007199254740991 # 9007199254740992)%Q) ->
  exists fuel loaded, load_trace show_f64 fuel k raw = Some loaded
    /\ forall t, loaded = Ok t -> Forall (fun a => a <= u64_max) (arrivals t).
Proof.
  intros Hrate. unfold load_trace. destruct raw as [raw|].
  - exists O. destruct (head raw ≫= as_array).
    + eexists. split; [done|]. destruct (parse_measured_trace raw) as [samples|]; [|done].
      intros t [= <-]. unfold from_measured. destruct (gap_positions _ _). cbn [arrivals].
      apply Forall_fmap, Forall_forall. intros [x y] _. apply N.le_min_l.
    + eexists. split; [done|]. destruct (parse_timestamp_trace raw) as [ts|]; [|done].
      intros t [= <-]. unfold from_timestamps. destruct (gap_positions _ _). apply jittered_ok.
  - destruct (k_miss_rate k) as [q|] eqn:Hq; [|by exists O; eexists].
    unfold admitted_rate. destruct (Qle_bool 0 q && f64_lt q 1) eqn:E; [|by exists O; eexists].
    apply andb_true_iff in E as [_ E]. assert (q < 1)%Q as Hlt.
    { apply Qnot_le_lt. intros H1%Qle_bool_iff. unfold f64_lt in E. by rewrite H1 in E. }
    destruct (slots_finish (k_blocks k) (k_slot_ms k) q (k_prop_ms k) (k_jitter_ms k) (Hrate q eq_refl Hlt)
                (k_blocks k) (k_seed k) 0 None (mkTrace [] [] 0)) as (fuel & t & Heq & [_ Ha] & _); [by split|done|].
    exists fuel. unfold synthetic. rewrite Heq. eexists. split; [done|]. by intros ? [= <-].
Qed.

(** The benchmark always ends, and never panics: with an error, when there
    is no trace or a trace of fewer than two blocks; otherwise with one report
    per contender, in order, each over every block of the trace and with its
    percentiles in order. *)
Theorem bench_total raw :
  (forall q, k_miss_rate k = Finite q -> (q < 1)%Q -> (q <= 9007199254740991 # 9007199254740992)%Q) ->
  exists fuel out, bench show_f64 fuel base k raw = Some out
    /\ match out with
       | Err e => load_trace show_f64 fuel k raw = Some (Err e)
                  \/ exists t, load_trace show_f64 fuel k raw = Some (Ok t) /\ (length (arrivals t) < 2)%nat
       | Ok o => (2 <= out_blocks o)%nat
                 /\ Forall2 (fun c r => report_ok c.1 (out_blocks o) r) contenders (variants o)
       end.
Proof.
  intros Hrate. destruct (load_total raw Hrate) as (fuel & loaded & Hl & Ha). exists fuel.
  unfold bench. rewrite Hl. destruct loaded as [t|e]; [|by eexists; split; [done|left]].
  destruct (Nat.ltb_spec (length (arrivals t)) 2) as [Hlt|Hge].
  { eexists. split; [done|]. right. by exists t. }
  destruct (run_all t contenders contenders_poll (Ha t eq_refl)) as (runs & -> & HF);
    [by destruct (arrivals t); [simpl in Hge; lia|]|].
  pose proof (Forall2_length _ _ _ HF) as Hlen. rewrite length_fmap in Hlen.
  destruct runs as [|r1 [|r2 runs]]; [done..|]. eexists. split; [done|]. by split.
Qed.
End program.

(** ** Instances *)

(** Enough of JSON for a trace: integers, half-integers, strings, arrays. *)
Inductive Toy : Type :=
  | ToyInt (n : N)
  | ToyHalf (n : N)
  | ToyText
  | ToyArray (l : list Toy).

#[local] Instance toy_json : JsonNumber Toy := {
  as_array v := match v with ToyArray l => Some l | _ => None end;
  as_u64 v := match v with ToyInt n => if n <=? u64_max then Some n else None | _ => None end;
  as_f64 v := match v with
              | ToyInt n => Some (Finite (Q_of_N n))
              | ToyHalf n => Some (Finite (Z.of_N n # 2))
              | _ => None
              end
}.

(** The cases of the source's tests. *)
Definition toy_row (number timestamp lag : N) : Toy :=
  ToyArray [ToyInt number; ToyInt timestamp; ToyHalf lag].

Example rejects_a_collector_gap :
  parse_measured_trace [toy_row 40 1700000000 850; toy_row 42 1700000010 1020]
  = Err "measured trace jumps from block 40 to 42 at row 2"%string.
Proof. vm_compute. reflexivity. Qed.

Example rejects_mixed_row_formats :
  parse_measured_trace [toy_row 40 1700000000 850; ToyArray [ToyInt 1700000005; ToyInt 510]]
  = Err "measured trace mixes numbered and legacy rows at row 2"%string.
Proof. vm_compute. reflexivity. Qed.

Example rejects_non_numeric_values :
  parse_measured_trace [ToyArray [ToyInt 40; ToyText; ToyInt 425]]
  = Err "measured trace row 1 has an invalid block timestamp"%string.
Proof. vm_compute. reflexivity. Qed.

Example rejects_non_numeric_rows :
  parse_timestamp_trace [ToyInt 1700000000; ToyText] = Err "timestamp trace row 2 is not a number"%string.
Proof. vm_compute. reflexivity. Qed.

Lemma toy_u64 v n : as_u64 v = Some n -> n <= u64_max.
Proof.
  destruct v as [k| | |]; [|done..]. cbn. destruct (N.leb_spec k u64_max) as [Hk|]; [|done].
  intros E. injection E as <-. exact Hk.
Qed.

Lemma measured_trace_exact_witness :
  exists ns, adjacent (fun a b => b = a + 1) ns
    /\ Forall3 reads_numbered [toy_row 40 1700000000 850; toy_row 41 1700000005 1020] ns
         [(1700000000 # 1, 850 # 2); (1700000005 # 1, 1020 # 2)]%Q.
Proof.
  destruct (proj1 (measured_trace_exact toy_u64 [toy_row 40 1700000000 850; toy_row 41 1700000005 1020]
                     [(1700000000 # 1, 850 # 2); (1700000005 # 1, 1020 # 2)]%Q)) as [H|H].
  - vm_compute. reflexivity.
  - apply Forall2_cons in H as [(t & l & E & _) _]. discriminate E.
  - exact H.
Defined.

Lemma synthetic_finishes_witness :
  (exists fuel t, synthetic fuel 5 12000 (1 # 100) 500 300 42 = Some t
     /\ length (arrivals t) = 5%nat /\ length (since_gap t) = 5%nat)
  /\ synthetic 1000 5 12000 1 500 300 42 = None.
Proof.
  split.
  - apply (proj1 (synthetic_finishes 5 12000 (1 # 100) 500 300 42)). done.
  - apply (proj2 (synthetic_finishes 5 12000 1 500 300 42)); [done|lia].
Defined.

Lemma bench_total_witness :
  exists fuel out, bench (Value := Toy) (fun _ => "1"%string) fuel 0
    (knobs None None None None None None None) None = Some out
    /\ match out with
       | Err e => load_trace (Value := Toy) (fun _ => "1"%string) fuel
                    (knobs None None None None None None None) None = Some (Err e)
                  \/ exists t, load_trace (Value := Toy) (fun _ => "1"%string) fuel
                                 (knobs None None None None None None None) None = Some (Ok t)
                               /\ (length (arrivals t) < 2)%nat
       | Ok o => (2 <= out_blocks o)%nat
                 /\ Forall2 (fun c r => report_ok c.1 (out_blocks o) r) contenders (variants o)
       end.
Proof.
  apply (bench_total (fun _ => "1"%string) 0 (knobs None None None None None None None) None).
  intros q Hq _. injection Hq as <-. done.
Defined.
