(* ===== verification/Ingest.v ===== *)
(** * Ingest: the block stream of the adapter (ingest.rs)

    [ingest_range] as a machine: the outer loop with its three modes — strided
    backfill below the finalized head, the speculative poll of the next height,
    the poll of the finalized head — and everything it waits for as events:
    the hint, a finished stride, a poll's answer, a finished enrichment. What it
    yields, its pauses and its failure are its emissions. Metrics and what only
    feeds them are left out. *)
From stdpp Require Import pretty gmap.
From Stdlib Require Import Strings.Byte.
From S2P Require Import Prelude Types RpcClient RpcData Rlp Commitments ChainUtils Frames EvmTypes.
From S2P Require Import RawBlock Continuity FetchChecks Components Fetch Acquire.

Local Open Scope rust_scope.

Definition u64_add (a b : N) : N := ((a + b) mod 2 ^ 64)%N.
Definition u64_sub (a b : N) : N := ((a + 2 ^ 64 - b) mod 2 ^ 64)%N.

(** The strides of [start..=top]; [fuel] bounds their number. *)
Fixpoint stride_ranges (fuel : nat) (start top : N) (stride_size : nat) : list (N * N) :=
  match fuel with
  | O => []
  | S fuel =>
      if (start <=? top)%N then
        let end_stride := N.min (u64_sub (u64_add start (N.of_nat stride_size)) 1) top in
        (start, end_stride) :: stride_ranges fuel (u64_add end_stride 1) top stride_size
      else []
  end.

(** [(s..=e).collect()]. *)
Definition range_numbers (s e : N) : list N :=
  (fun i => (s + N.of_nat i)%N) <$> seq 0 (N.to_nat (e + 1 - s)).

Definition PIPELINE_DEPTH : nat := 3.
Definition POLL_PAUSE_MS : N := 100.

(** A step is not enabled, panics, or yields its result. *)
Inductive Step (A : Type) : Type :=
  | Disabled
  | Panics
  | Goes (a : A).
Arguments Disabled {A}.
Arguments Panics {A}.
Arguments Goes {A} a.

Record IngestConfig := mkIngestConfig {
  ic_req : DataRequest;
  ic_from : N;
  ic_to : option N;
  ic_stride_size : nat;
  ic_stride_concurrency : nat;
  ic_commitment : string;
  ic_profile_block_timings : bool
}.

(** What the stream does for its reader to see, the refresh it starts, its
    pauses in milliseconds. *)
Inductive Emission : Type :=
  | Yielded (batch : IngestBatch)
  | Refreshed
  | Slept (ms : N)
  | Failed (e : list string).

Section ingest.
Context {Value : Type} `{Json Value} `{Hex} `{Keccak} `{Rayon} `{Trie}.
Context (recover : RpcTransaction -> Result (option string) string).
Context (error_text : RpcError (Value := Value) -> string).
Context (o : RpcOptions).
Context (encode : RawRpcBlock Value -> Result (list byte) string).
Context (cfg : IngestConfig).
#[local] Abbreviation Raw := (RawRpcBlock Value).

(** ** State *)

(** A body whose enrichment is in flight, with the stamps of its poll. *)
Definition EnrichTask : Type := N * (Raw * option (N * N * N)).

(** Where the speculative loop waits: for an answer, for the front task because
    the pipeline is full or the range is read, for it or the delay after a
    null answer, for every task before backfill takes over, or for every task
    before the failure. *)
Inductive SpecMode : Type :=
  | Polling
  | Draining
  | Waiting
  | Leaving
  | Failing (reason : string).

Record Speculation := mkSpeculation {
  sp_next : N;
  sp_pending : list EnrichTask;
  sp_hot_streak : N;
  sp_incoherent_attempts : nat;
  sp_null_polls : N;
  sp_mode : SpecMode
}.

Inductive IngestPhase : Type :=
  | Outer
  | Backfill (ranges : list (N * N)) (pending : list (N * N)) (finalized : option BlockRef)
  | Speculative (sp : Speculation)
  | PollHead
  | PollStride (stride_end : N)
  | Finished.

Record IngestState := mkIngestState {
  is_beg : N;
  is_poll_head : option N;
  is_poll_last_read : option N;
  is_cadence : CadencePredictor;
  is_last_empty_poll : option N;
  is_speculative_next : option N;
  is_phase : IngestPhase
}.

Definition ic_end : N := default u64_max (ic_to cfg).

Definition with_phase (s : IngestState) (p : IngestPhase) : IngestState :=
  mkIngestState (is_beg s) (is_poll_head s) (is_poll_last_read s) (is_cadence s)
    (is_last_empty_poll s) (is_speculative_next s) p.

(** The head of the outer loop. *)
Definition outer (s : IngestState) : IngestState :=
  with_phase s (if (is_beg s <=? ic_end)%N then Outer else Finished).

Definition ingest_init : IngestState :=
  outer (mkIngestState (ic_from cfg) None None CadencePredictor_new None None Outer).

Definition fail (s : IngestState) (e : list string) : IngestState * list Emission :=
  (with_phase s Finished, [Failed e]).

(** ** Events *)

(** An enrichment task's life: its turns, when it ended, what the mapping
    measured, and the text of a panic. *)
Record TaskEnv := mkTaskEnv {
  te_fuel : nat;
  te_start : Moment (Value := Value) * (N * N * N);
  te_turns : nat -> Turn (Value := Value);
  te_done : N;
  te_clock : nat -> N * N;
  te_panic : string
}.

Inductive IngestEvent : Type :=
  | Hinted (hint : option (N * string))
  | HeadRead (client : FetchClient Value)
  | StrideDone (env : RangeEnv (Value := Value)) (clock : nat -> N * N) (panic : string)
  | Polled (m : Moment (Value := Value)) (poll_at now : N)
  | Enriched (te : TaskEnv)
  | Elapsed.

(** ** Ranges *)

Definition set_beg (s : IngestState) (beg : N) : IngestState :=
  mkIngestState beg (is_poll_head s) (is_poll_last_read s) (is_cadence s)
    (is_last_empty_poll s) (is_speculative_next s) (is_phase s).

(** What both range modes do with an acquisition: emit its blocks, then fail
    if it fell short; [next] is the state when it did not. *)
Definition emit_range (s : IngestState) (acq : RangeAcquisition (Value := Value)) (clock : nat -> N * N)
    (neither : string) (finalized : Raw -> option BlockRef) (next : Raw -> IngestState -> IngestState)
    : IngestState * list Emission :=
  match last (ra_blocks acq) with
  | None => fail s (default [neither] (ra_failure acq))
  | Some lst =>
      let s := set_beg s (u64_add (raw_number lst) 1) in
      match map_range_prefix encode clock (ra_blocks acq) (ra_failure acq) with
      | Err e => fail s e
      | Ok mapped =>
          let out := Yielded (mkIngestBatch mapped (finalized lst)) in
          match ra_failure acq with
          | Some e => let (s, outs) := fail s e in (s, out :: outs)
          | None => (next lst s, [out])
          end
      end
  end.

Definition backfill_top (hint : option (N * string)) (s : IngestState) : N :=
  match hint with Some (num, _) => N.min num ic_end | None => is_beg s end.

Definition enter_backfill (s : IngestState) (top : N) (hint : option (N * string)) : IngestState :=
  let ranges := stride_ranges (N.to_nat (top + 1 - is_beg s)) (is_beg s) top (ic_stride_size cfg) in
  let width := Nat.max (ic_stride_concurrency cfg) 1 in
  mkIngestState (is_beg s) None None (is_cadence s) (is_last_empty_poll s) None
    (Backfill (drop width ranges) (take width ranges)
       ((fun '(number, hash) => mkBlockRef number hash) <$> hint)).

(** The front stride has ended; its place goes to the next range. *)
Definition backfill_step (s : IngestState) (ranges pending : list (N * N)) (finalized : option BlockRef)
    (env : RangeEnv) (clock : nat -> N * N) (panic : string) : Step (IngestState * list Emission) :=
  match pending with
  | [] => Disabled
  | (a, b) :: pending =>
      match acquire_range_stride recover error_text o env (ic_req cfg) (range_numbers a b) with
      | None => Goes (fail s [panic])
      | Some acq =>
          let (ranges, pending) := match ranges with
                                   | [] => ([], pending)
                                   | r :: ranges => (ranges, pending ++ [r])
                                   end in
          Goes (emit_range s acq clock
                  ("range acquisition at block " +:+ pretty a +:+ " returned neither blocks nor failure")%string
                  (fun _ => finalized)
                  (fun _ s => match pending with
                              | [] => outer s
                              | _ => with_phase s (Backfill ranges pending finalized)
                              end))
      end
  end.

(** ** The poll of the finalized head *)

Definition set_poll (s : IngestState) (head last_read : option N) : IngestState :=
  mkIngestState (is_beg s) head last_read (is_cadence s) (is_last_empty_poll s)
    (is_speculative_next s) (is_phase s).

Definition poll_range (s : IngestState) : IngestState * list Emission :=
  let head := default (is_beg s) (is_poll_head s) in
  if (head <? is_beg s)%N then (outer s, [Slept POLL_PAUSE_MS])
  else (with_phase s (PollStride
          (N.min (N.min (saturating_add (is_beg s) (N.of_nat (ic_stride_size cfg))) head) ic_end)), []).

Definition poll_turn (s : IngestState) : IngestState * list Emission :=
  let poll_start := match is_poll_last_read s with Some l => u64_add l 1 | None => is_beg s end in
  let s := if negb (poll_start =? is_beg s)%N then set_poll s None None else s in
  let need_head := match is_poll_last_read s, is_poll_head s with
                   | Some l, Some h => (h <=? l)%N
                   | _, _ => true
                   end in
  if need_head then (with_phase s PollHead, []) else poll_range s.

Definition head_step (s : IngestState) (client : FetchClient Value) : IngestState * list Emission :=
  match get_latest_blockhash error_text o client (ic_commitment cfg) with
  | Err e => fail s [e]
  | Ok (h, _) =>
      match is_poll_last_read s with
      | Some l => if (h <=? l)%N then (outer s, [Slept POLL_PAUSE_MS])
                  else poll_range (set_poll s (Some h) (is_poll_last_read s))
      | None => poll_range (set_poll s (Some h) (is_poll_last_read s))
      end
  end.

Definition poll_stride_step (s : IngestState) (stride_end : N) (env : RangeEnv) (clock : nat -> N * N)
    : Step (IngestState * list Emission) :=
  match acquire_range_stride recover error_text o env (ic_req cfg) (range_numbers (is_beg s) stride_end) with
  | None => Panics
  | Some acq =>
      Goes (emit_range s acq clock
              ("finalized poll acquisition at block " +:+ pretty (is_beg s)
                 +:+ " returned neither blocks nor failure")%string
              (fun lst => Some (mkBlockRef (raw_number lst) (raw_hash lst)))
              (fun lst s => outer (set_poll s (is_poll_head s) (Some (raw_number lst)))))
  end.

(** ** The speculative poll *)

Definition with_spec (s : IngestState) (sp : Speculation) : IngestState := with_phase s (Speculative sp).

Definition spec_mode (sp : Speculation) (m : SpecMode) : Speculation :=
  mkSpeculation (sp_next sp) (sp_pending sp) (sp_hot_streak sp) (sp_incoherent_attempts sp)
    (sp_null_polls sp) m.

Definition leave (s : IngestState) (sp : Speculation) : IngestState :=
  outer (mkIngestState (sp_next sp) (is_poll_head s) (is_poll_last_read s) (is_cadence s)
           (is_last_empty_poll s) (Some (sp_next sp)) (is_phase s)).

(** The head of the speculative loop. *)
Definition loop_top (s : IngestState) (sp : Speculation) : IngestState :=
  match sp_pending sp with
  | [] =>
      if (ic_end <? sp_next sp)%N then leave s sp
      else if (2 * N.of_nat (ic_stride_size cfg) mod 2 ^ 64 <? sp_hot_streak sp)%N then leave s sp
      else with_spec s (spec_mode sp Polling)
  | pending =>
      if (PIPELINE_DEPTH <=? length pending) || (ic_end <? sp_next sp)%N then with_spec s (spec_mode sp Draining)
      else if (2 * N.of_nat (ic_stride_size cfg) mod 2 ^ 64 <? sp_hot_streak sp)%N
           then with_spec s (spec_mode sp Leaving)
      else with_spec s (spec_mode sp Polling)
  end.

Definition enter_speculation (s : IngestState) : IngestState :=
  loop_top s (mkSpeculation (default (is_beg s) (is_speculative_next s)) [] 0 0 0 Polling).

(** The spawned enrichment of one body, mapped; an error of the task itself is
    its panic. *)
Definition enrich_task (task : Raw * option (N * N * N)) (te : TaskEnv)
    : Step (Result (list Block) string * bool) :=
  let (body, acquired) := task in
  match enrich_block_with_retry recover error_text o (te_fuel te) body (ic_req cfg) (te_start te)
          (te_turns te) with
  | OutOfFuel => Disabled
  | Panicked => Goes (Err (te_panic te), true)
  | Returned (Err e) => Goes (Err e, false)
  | Returned (Ok (enriched, profile)) =>
      let timings := (fun '(poll_issued, nulls, body_received) =>
                        [mkAcquisitionTimings poll_issued nulls body_received (te_done te) profile])
                       <$> acquired in
      Goes (map_blocks_cpu encode (te_clock te) [enriched] timings, false)
  end.

Definition spec_failure (sp : Speculation) (reason drain_context : string) : list string :=
  [("failed to acquire block " +:+ pretty (sp_next sp) +:+ " after " +:+ pretty P_ENRICH_RETRIES
      +:+ " retries: " +:+ reason +:+ drain_context)%string].

Definition drain_context (number : N) (panicked : bool) (e : string) : string :=
  ("; while draining earlier blocks: block " +:+ pretty number +:+ " enrichment "
     +:+ (if panicked then "task failed: " else "failed: ") +:+ e)%string.

(** The front task has ended. *)
Definition enriched_step (s : IngestState) (sp : Speculation) (te : TaskEnv)
    : Step (IngestState * list Emission) :=
  match sp_pending sp with
  | [] => Disabled
  | (number, task) :: pending =>
      match sp_mode sp with
      | Polling => Disabled
      | m =>
          match enrich_task task te with
          | Disabled => Disabled
          | Panics => Panics
          | Goes (Err e, panicked) =>
              Goes (fail s match m with
                           | Failing reason => spec_failure sp reason (drain_context number panicked e)
                           | _ => [e]
                           end)
          | Goes (Ok mapped, _) =>
              let out := Yielded (mkIngestBatch mapped None) in
              let sp' := mkSpeculation (sp_next sp) pending (sp_hot_streak sp) (sp_incoherent_attempts sp)
                           (sp_null_polls sp) m in
              match m with
              | Failing reason =>
                  match pending with
                  | [] => let (s, outs) := fail s (spec_failure sp reason "") in Goes (s, out :: outs)
                  | _ => Goes (with_spec s sp', [out])
                  end
              | Leaving => match pending with
                           | [] => Goes (leave s sp', [out])
                           | _ => Goes (with_spec s sp', [out])
                           end
              | _ => Goes (loop_top s sp', [out])
              end
          end
      end
  end.

Definition set_spec_clock (s : IngestState) (c : CadencePredictor) (last_empty_poll : option N) : IngestState :=
  mkIngestState (is_beg s) (is_poll_head s) (is_poll_last_read s) c last_empty_poll
    (is_speculative_next s) (is_phase s).

(** The answer of a poll. *)
Definition polled_step (s : IngestState) (sp : Speculation) (m : Moment) (poll_at now : N)
    : Step (IngestState * list Emission) :=
  let next_num := sp_next sp in
  match get_single_block recover error_text o
          (get_chain_utils error_text o (mo_chain m) (mo_client m)) (mo_client m) next_num with
  | None => Panics
  | Some (Err e) => Goes (fail s [e])
  | Some (Ok (Some body)) =>
      if negb (is_invalid body) then
        let followed_empty_poll := is_some (is_last_empty_poll s) in
        let s := set_spec_clock s (record_polled_block now followed_empty_poll (is_cadence s)) None in
        let acquired := if ic_profile_block_timings cfg
                        then Some (poll_at, sp_null_polls sp, now) else None in
        Goes (loop_top s
                (mkSpeculation (u64_add next_num 1) (sp_pending sp ++ [(next_num, (body, acquired))])
                   (u64_add (sp_hot_streak sp) 1) 0 0 Polling), [])
      else
        let s := set_spec_clock s (is_cadence s) None in
        let reason := default "incoherent block"%string (error_message body) in
        if P_ENRICH_RETRIES <=? sp_incoherent_attempts sp then
          match sp_pending sp with
          | [] => Goes (fail s (spec_failure sp reason ""))
          | _ => Goes (with_spec s (mkSpeculation next_num (sp_pending sp) 0 (sp_incoherent_attempts sp)
                                      (sp_null_polls sp) (Failing reason)), [])
          end
        else Goes (loop_top s (mkSpeculation next_num (sp_pending sp) 0 (S (sp_incoherent_attempts sp))
                                 (sp_null_polls sp) Polling), [Slept P_ENRICH_DELAY])
  | Some (Ok None) =>
      let s := set_spec_clock s (is_cadence s) (Some poll_at) in
      let sp := mkSpeculation next_num (sp_pending sp) 0 (sp_incoherent_attempts sp)
                  (saturating_u32 (sp_null_polls sp + 1)) Waiting in
      match sp_pending sp with
      | [] => Goes (loop_top s sp, [Slept (next_poll_delay now (is_cadence s))])
      | _ => Goes (with_spec s sp, [])
      end
  end.

(** ** The machine *)

Definition ingest_step (s : IngestState) (ev : IngestEvent) : Step (IngestState * list Emission) :=
  match is_phase s, ev with
  | Outer, Hinted hint =>
      let refresh := if (ic_from cfg <? is_beg s)%N then [Refreshed] else [] in
      let top := backfill_top hint s in
      if (is_beg s <? top)%N && (N.of_nat (ic_stride_size cfg) <? top - is_beg s)%N
      then Goes (enter_backfill s top hint, refresh)
      else if bool_decide (ic_commitment cfg = "latest"%string)
      then Goes (enter_speculation s, refresh)
      else let (s, outs) := poll_turn s in Goes (s, refresh ++ outs)
  | Backfill ranges pending finalized, StrideDone env clock panic =>
      backfill_step s ranges pending finalized env clock panic
  | PollHead, HeadRead client => Goes (head_step s client)
  | PollStride stride_end, StrideDone env clock _ => poll_stride_step s stride_end env clock
  | Speculative sp, Polled m poll_at now =>
      match sp_mode sp with Polling => polled_step s sp m poll_at now | _ => Disabled end
  | Speculative sp, Enriched te => enriched_step s sp te
  | Speculative sp, Elapsed =>
      match sp_mode sp with Waiting => Goes (loop_top s sp, []) | _ => Disabled end
  | _, _ => Disabled
  end.

Fixpoint ingest_run (s : IngestState) (evs : list IngestEvent) : Step (IngestState * list Emission) :=
  match evs with
  | [] => Goes (s, [])
  | ev :: evs =>
      match ingest_step s ev with
      | Goes (s, outs) =>
          match ingest_run s evs with
          | Goes (s, rest) => Goes (s, outs ++ rest)
          | Disabled => Disabled
          | Panics => Panics
          end
      | Disabled => Disabled
      | Panics => Panics
      end
  end.
End ingest.

(** ** The strides of a backfill *)

(** Consecutive non-empty ranges from [a] to [top]. *)
Fixpoint covers (a top : N) (rs : list (N * N)) : Prop :=
  match rs with
  | [] => a = (top + 1)%N
  | (s, e) :: rs => s = a /\ (a <= e)%N /\ (e <= top)%N /\ covers (e + 1) top rs
  end.

Lemma u64_add_small a b : (a + b < 2 ^ 64)%N -> u64_add a b = (a + b)%N.
Proof. intros Hs. unfold u64_add. by apply N.mod_small. Qed.

Lemma stride_ranges_cover fuel start top stride_size :
  0 < stride_size -> (start <= top + 1)%N -> (top + N.of_nat stride_size < 2 ^ 64)%N ->
  N.to_nat (top + 1 - start) <= fuel ->
  covers start top (stride_ranges fuel start top stride_size)
  /\ Forall (fun r => r.2 + 1 - r.1 <= N.of_nat stride_size)%N (stride_ranges fuel start top stride_size).
Proof.
  intros Hss. revert start. induction fuel as [|fuel IH]; intros start Hst Htop Hf; cbn [stride_ranges].
  { split; [simpl; lia|done]. }
  destruct (N.leb_spec start top) as [Hle|]; [|split; [simpl; lia|done]].
  assert (u64_sub (u64_add start (N.of_nat stride_size)) 1 = start + N.of_nat stride_size - 1)%N as ->.
  { rewrite u64_add_small by lia. unfold u64_sub.
    replace (start + N.of_nat stride_size + 2 ^ 64 - 1)%N
      with (start + N.of_nat stride_size - 1 + 1 * 2 ^ 64)%N by lia.
    rewrite N.Div0.mod_add. apply N.mod_small. lia. }
  cbn zeta. set (e := N.min _ top). rewrite u64_add_small by lia.
  destruct (IH (e + 1)%N) as [Hc Hl]; [lia..|]. split; [simpl; split_and!; [done|lia|lia|done]|].
  constructor; [simpl; lia|done].
Qed.

Lemma range_numbers_length s e : length (range_numbers s e) = N.to_nat (e + 1 - s).
Proof. unfold range_numbers. by rewrite length_fmap, length_seq. Qed.

(** Consecutive numbers from [s]. *)
Definition count_from (s : N) (n : nat) : list N := (fun i => (s + N.of_nat i)%N) <$> seq 0 n.

Lemma range_numbers_count s e : range_numbers s e = count_from s (N.to_nat (e + 1 - s)).
Proof. done. Qed.

Lemma count_from_length s n : length (count_from s n) = n.
Proof. unfold count_from. by rewrite length_fmap, length_seq. Qed.

Lemma count_from_S s n : count_from s (S n) = s :: count_from (s + 1) n.
Proof.
  unfold count_from. cbn [seq fmap list_fmap]. f_equal; [lia|].
  rewrite <- (fmap_S_seq 0 n), <- list_fmap_compose. apply list_fmap_ext. intros i x _. simpl. lia.
Qed.

Lemma count_from_add s n m : count_from s (n + m) = count_from s n ++ count_from (s + N.of_nat n) m.
Proof.
  revert s. induction n as [|n IH]; intros s; [simpl; by rewrite N.add_0_r|].
  cbn [Nat.add]. rewrite !count_from_S, IH. cbn [app]. do 2 f_equal. f_equal. lia.
Qed.

Lemma take_count_from s n k : k <= n -> take k (count_from s n) = count_from s k.
Proof.
  intros Hk. replace n with (k + (n - k)) by lia. rewrite count_from_add.
  by rewrite take_app_length' by by rewrite count_from_length.
Qed.

Lemma covers_numbers a top rs :
  (a <= top + 1)%N -> covers a top rs -> concat ((fun r => range_numbers r.1 r.2) <$> rs) = range_numbers a top.
Proof.
  revert a. induction rs as [|[s e] rs IH]; intros a Ha; cbn [covers].
  - intros ->. unfold range_numbers. by replace (top + 1 - (top + 1))%N with 0%N by lia.
  - intros (-> & Hae & Het & Hc). cbn [fmap list_fmap concat fst snd]. rewrite (IH (e + 1)%N) by (done || lia).
    rewrite !range_numbers_count.
    replace (N.to_nat (top + 1 - a)) with (N.to_nat (e + 1 - a) + N.to_nat (top + 1 - (e + 1))) by lia.
    rewrite count_from_add. do 2 f_equal. lia.
Qed.

Lemma covers_ordered a top rs : covers a top rs -> Forall (fun r => r.1 <= r.2)%N rs.
Proof.
  revert a. induction rs as [|[s e] rs IH]; intros a; cbn [covers]; [done|].
  intros (-> & ? & _ & Hc). constructor; [done|]. by eapply IH.
Qed.

(** The strides of a backfill partition its range: read one after the
    other they are exactly the heights from its start to its top, each of at
    least one block and at most the stride size; the loop that computes them
    ends, within as many rounds as there are heights. *)
Theorem strides_partition start top stride_size
    (Hsize : 0 < stride_size) (Hrange : (start <= top)%N) (Hwidth : (top + N.of_nat stride_size < 2 ^ 64)%N) :
  let ranges := stride_ranges (N.to_nat (top + 1 - start)) start top stride_size in
  concat ((fun r => range_numbers r.1 r.2) <$> ranges) = range_numbers start top
  /\ Forall (fun r => 1 <= length (range_numbers r.1 r.2) <= stride_size) ranges.
Proof.
  intros ranges. destruct (stride_ranges_cover (N.to_nat (top + 1 - start)) start top stride_size) as [Hc Hl];
    [done|lia|done|done|]. fold ranges in Hc, Hl. split; [apply covers_numbers; [lia|done]|].
  assert (Forall (fun r => r.1 <= r.2)%N ranges) as Hne.
  { by eapply covers_ordered. }
  apply Forall_forall. intros r Hr. rewrite range_numbers_length.
  pose proof (proj1 (Forall_forall _ _) Hl r Hr). pose proof (proj1 (Forall_forall _ _) Hne r Hr). simpl in *. lia.
Qed.

Lemma strides_partition_witness :
  stride_ranges 7 10 16 3 = [(10, 12); (13, 15); (16, 16)]%N
  /\ concat ((fun r => range_numbers r.1 r.2) <$> stride_ranges 7 10 16 3) = [10; 11; 12; 13; 14; 15; 16]%N.
Proof.
  split; [reflexivity|].
  exact (proj1 (strides_partition 10 16 3 ltac:(lia) ltac:(by apply N.leb_le) ltac:(by apply N.ltb_lt))).
Defined.

(** ** What the machine keeps *)

Section emission.
Context {Value : Type} `{Json Value} `{Hex} `{Keccak} `{Rayon} `{Trie}.
Context (recover : RpcTransaction -> Result (option string) string).
Context (error_text : RpcError (Value := Value) -> string).
Context (o : RpcOptions).
Context (encode : RawRpcBlock Value -> Result (list byte) string).
Context (cfg : IngestConfig).
#[local] Abbreviation Raw := (RawRpcBlock Value).
#[local] Abbreviation State := (IngestState (Value := Value)).

(** A block of the stream: the mapping of one fit to be served at its height. *)
Definition mapped_from (raw : Raw) (b : Block) : Prop :=
  exists clock timings, map_raw_block encode clock raw timings = Ok b.

Definition served (b : Block) : Prop :=
  exists raw, mapped_from raw b /\ servable recover o (ic_req cfg) (number b) raw.

Definition emitted_of (out : Emission) : list Block :=
  match out with Yielded batch => ig_blocks batch | _ => [] end.

Definition emitted (outs : list Emission) : list Block := outs ≫= emitted_of.

Lemma mapped_number raw b :
  mapped_from raw b -> verified recover o raw -> number b = raw_number raw.
Proof.
  intros (clock & t & Hm) [Hn _]. unfold map_raw_block in Hm.
  destruct (encode raw) as [line|]; [|done]. injection Hm as <-. simpl. by rewrite Hn.
Qed.

Lemma collect_imap {A B E} (f : nat -> A -> Result B E) l out :
  collect_results (imap f l) = Ok out -> Forall2 (fun x y => exists i, f i x = Ok y) l out.
Proof.
  revert f out. induction l as [|x l IH]; intros f out; simpl.
  { intros E'. injection E' as <-. constructor. }
  destruct (f 0 x) as [y|e] eqn:E0; [|done].
  destruct (collect_results (imap (f ∘ S) l)) as [t|e] eqn:Et; [|done]. intros E'. injection E' as <-.
  constructor; [by exists 0|]. eapply Forall2_impl; [by apply IH|].
  intros a b [i Hi]. by exists (S i).
Qed.

Lemma map_blocks_mapped clock raws timings out :
  map_blocks_cpu encode clock raws timings = Ok out -> Forall2 mapped_from raws out.
Proof.
  intros E. apply collect_imap in E. eapply Forall2_impl; [exact E|].
  intros raw b [i Hi]. eexists _, _. exact Hi.
Qed.

Lemma map_range_mapped clock raws failure out :
  map_range_prefix encode clock raws failure = Ok out -> Forall2 mapped_from raws out.
Proof.
  unfold map_range_prefix. destruct (map_blocks_cpu _ _ _ _) as [bs|e] eqn:E.
  - intros E'. injection E' as <-. by eapply map_blocks_mapped.
  - by destruct failure.
Qed.

(** Mapped blocks of heights [ns], in order. *)
Definition served_at (ns : list N) (bs : list Block) : Prop :=
  number <$> bs = ns /\ Forall served bs.

Lemma served_at_mapped ns raws bs :
  Forall2 (servable recover o (ic_req cfg)) ns raws -> Forall2 mapped_from raws bs -> served_at ns bs.
Proof.
  intros Hs. revert bs. induction Hs as [|n raw ns raws Hr _ IH]; intros bs Hm.
  { inversion Hm. by split. }
  inversion Hm as [|? b ? bs' Hb Hrest]; subst. destruct (IH _ Hrest) as [Hn Hf].
  destruct Hr as (Hrn & Hv & Hcomp & Hver). pose proof (mapped_number _ _ Hb Hver) as Hnum.
  split; [by rewrite fmap_cons, Hn, Hnum, Hrn|]. constructor; [|done].
  exists raw. split; [done|]. by rewrite Hnum.
Qed.

Lemma served_at_app ns1 ns2 bs1 bs2 :
  served_at ns1 bs1 -> served_at ns2 bs2 -> served_at (ns1 ++ ns2) (bs1 ++ bs2).
Proof. intros [<- ?] [<- ?]. split; [by rewrite fmap_app|by apply Forall_app]. Qed.

Lemma served_at_length ns bs : served_at ns bs -> length bs = length ns.
Proof. intros [<- _]. by rewrite length_fmap. Qed.

(** A task of the pipeline waiting for height [n]. *)
Definition task_ok (n : N) (t : EnrichTask (Value := Value)) : Prop :=
  t.1 = n /\ raw_number t.2.1 = n /\ is_invalid t.2.1 = false /\ verified recover o t.2.1
  /\ (n <= ic_end cfg)%N.

Definition report_covers (finalized : option BlockRef) (top : N) : Prop :=
  exists r, finalized = Some r /\ (top <= br_number r)%N.

(** The state against the next height to emit. *)
Definition phase_ok (pos : N) (s : State) : Prop :=
  match is_phase s with
  | Finished => True
  | Outer =>
      is_beg s = pos /\ (pos <= ic_end cfg)%N
      /\ (forall n, is_speculative_next s = Some n -> n = pos /\ ic_commitment cfg = "latest"%string)
  | PollHead => is_beg s = pos /\ (pos <= ic_end cfg)%N /\ is_speculative_next s = None
  | PollStride e =>
      is_beg s = pos /\ (pos <= e)%N /\ (e <= ic_end cfg)%N /\ is_speculative_next s = None
  | Backfill ranges pending finalized =>
      is_beg s = pos /\ is_speculative_next s = None /\ pending <> []
      /\ length pending <= Nat.max (ic_stride_concurrency cfg) 1
      /\ exists top, covers pos top (pending ++ ranges) /\ (top <= ic_end cfg)%N /\ report_covers finalized top
  | Speculative sp =>
      ic_commitment cfg = "latest"%string
      /\ sp_next sp = (pos + N.of_nat (length (sp_pending sp)))%N
      /\ Forall2 task_ok (count_from pos (length (sp_pending sp))) (sp_pending sp)
      /\ match sp_mode sp with
         | Polling => length (sp_pending sp) < PIPELINE_DEPTH /\ (sp_next sp <= ic_end cfg)%N
         | _ => sp_pending sp <> [] /\ length (sp_pending sp) <= PIPELINE_DEPTH
         end
  end.

(** What the environment does: clients answer every call of a batch, and a
    hinted height leaves room for the stride arithmetic. *)
Definition event_ok (ev : IngestEvent (Value := Value)) : Prop :=
  match ev with
  | Hinted (Some (n, _)) => (n + N.of_nat (ic_stride_size cfg) < 2 ^ 64)%N
  | Hinted None | HeadRead _ | Elapsed => True
  | StrideDone env _ _ => env_answers env
  | Polled m _ _ => client_answers_each (mo_client m)
  | Enriched te =>
      client_answers_each (mo_client (te_start te).1)
      /\ forall k, client_answers_each (mo_client (tn_moment (te_turns te k)))
  end.

(** A report, if any, covers the whole batch. *)
Definition emission_ok (out : Emission) : Prop :=
  match out with
  | Yielded batch =>
      forall r, ig_finalized batch = Some r -> Forall (fun b => number b <= br_number r)%N (ig_blocks batch)
  | _ => True
  end.

(** One step's result: the blocks emitted continue from [pos], reports cover,
    and a failure comes last, into the end. *)
Definition step_ok (pos : N) (r : State * list Emission) : Prop :=
  let bs := emitted r.2 in
  ((pos + N.of_nat (length bs) + 4 < 2 ^ 64)%N ->
   phase_ok (pos + N.of_nat (length bs)) r.1)
  /\ served_at (count_from pos (length bs)) bs
  /\ Forall (fun b => number b <= ic_end cfg)%N bs
  /\ Forall emission_ok r.2
  /\ (forall i e, r.2 !! i = Some (Failed e) -> S i = length r.2 /\ is_phase r.1 = Finished).

Lemma step_ok_quiet pos s outs :
  emitted outs = [] -> (forall e, Failed e ∉ outs) -> Forall emission_ok outs ->
  ((pos + 4 < 2 ^ 64)%N -> phase_ok pos s) -> step_ok pos (s, outs).
Proof.
  intros He Hf Hok Hs. unfold step_ok. cbn [fst snd]. rewrite He. cbn [length].
  rewrite N.add_0_r. split_and!; [done|by split|done|done|].
  intros i e Hi. destruct (Hf e). by eapply list_elem_of_lookup_2.
Qed.

Lemma step_ok_fail pos s e : step_ok pos (fail s e).
Proof.
  unfold step_ok, fail. cbn. split_and!; [done|by split|done|by constructor|].
  intros [|i] e' [= <-]. done.
Qed.

Lemma outer_ok pos (s : State) :
  is_beg s = pos ->
  (forall n, is_speculative_next s = Some n -> n = pos /\ ic_commitment cfg = "latest"%string) ->
  phase_ok pos (outer cfg s).
Proof.
  intros Hb Hsn. unfold outer, phase_ok. simpl.
  destruct (N.leb_spec (is_beg s) (ic_end cfg)); [|done]. split_and!; [done|by rewrite <- Hb|done].
Qed.

(** ** Range modes *)

Lemma count_from_lookup pos n i : i < n -> count_from pos n !! i = Some (pos + N.of_nat i)%N.
Proof. intros Hi. unfold count_from. by rewrite list_lookup_fmap, lookup_seq_lt. Qed.

Lemma last_servable pos k (raws : list Raw) lst :
  Forall2 (servable recover o (ic_req cfg)) (count_from pos k) raws -> last raws = Some lst ->
  0 < k /\ (raw_number lst + 1 = pos + N.of_nat k)%N.
Proof.
  intros Hs Hl. rewrite last_lookup in Hl. pose proof (Forall2_length _ _ _ Hs) as Hlen.
  rewrite count_from_length in Hlen. pose proof (lookup_lt_Some _ _ _ Hl) as Hlt.
  destruct (Forall2_lookup_r _ _ _ _ _ Hs Hl) as (n & Hn & Hnum & _).
  rewrite count_from_lookup in Hn by lia. injection Hn as <-. lia.
Qed.

Lemma count_from_bounds pos k n : n ∈ count_from pos k -> (pos <= n < pos + N.of_nat k)%N.
Proof. unfold count_from. intros (i & -> & Hi)%list_elem_of_fmap. apply elem_of_seq in Hi. lia. Qed.

Lemma served_at_bound pos k bs top :
  served_at (count_from pos k) bs -> (pos + N.of_nat k <= top + 1)%N -> Forall (fun b => number b <= top)%N bs.
Proof.
  intros [Hn _] Hk. apply Forall_forall. intros b Hb.
  assert (number b ∈ count_from pos k) as Hin by (rewrite <- Hn; by apply list_elem_of_fmap_2).
  apply count_from_bounds in Hin. lia.
Qed.

(** What [acquire_range_spec] says of a range from [pos]. *)
Definition acquired_from (pos e : N) (acq : RangeAcquisition (Value := Value)) : Prop :=
  exists k, k <= N.to_nat (e + 1 - pos)
    /\ Forall2 (servable recover o (ic_req cfg)) (count_from pos k) (ra_blocks acq)
    /\ (ra_failure acq = None <-> k = N.to_nat (e + 1 - pos)).

Lemma acquire_acquired env pos e acq :
  env_answers env ->
  acquire_range_stride recover error_text o env (ic_req cfg) (range_numbers pos e) = Some acq ->
  acquired_from pos e acq.
Proof.
  intros Henv Ha. destruct (acquire_range_spec _ _ _ _ _ _ _ Henv Ha) as (k & Hk & [Hs _] & Hf).
  rewrite range_numbers_length in Hk, Hf. rewrite range_numbers_count, take_count_from in Hs by done.
  by exists k.
Qed.

Lemma emit_range_ok pos e (s : State) acq clock neither finalized next :
  (pos <= e)%N -> (e <= ic_end cfg)%N -> acquired_from pos e acq ->
  (forall lst r, finalized lst = Some r -> (raw_number lst <= e)%N -> (raw_number lst <= br_number r)%N) ->
  (forall lst, raw_number lst = e -> (e + 5 < 2 ^ 64)%N -> phase_ok (e + 1) (next lst (set_beg s (e + 1)))) ->
  step_ok pos (emit_range encode s acq clock neither finalized next).
Proof.
  intros Hpe Hee (k & Hk & Hs & Hf) Hrep Hnext. unfold emit_range.
  destruct (last (ra_blocks acq)) as [lst|] eqn:El; [|apply step_ok_fail].
  destruct (last_servable _ _ _ _ Hs El) as [Hk0 Hlst].
  destruct (map_range_prefix _ _ _ _) as [mapped|err] eqn:Em; [|apply step_ok_fail].
  pose proof (served_at_mapped _ _ _ Hs (map_range_mapped _ _ _ _ Em)) as Hsv.
  pose proof (served_at_length _ _ Hsv) as Hlen. rewrite count_from_length in Hlen.
  assert (Forall (fun b => number b <= ic_end cfg)%N mapped) as Hend
    by (eapply served_at_bound; [exact Hsv|lia]).
  assert (emission_ok (Yielded (mkIngestBatch mapped (finalized lst)))) as Hem.
  { intros r Hr. simpl in Hr. assert (raw_number lst <= br_number r)%N as Hle by (apply (Hrep lst r Hr); lia).
    eapply served_at_bound; [exact Hsv|lia]. }
  destruct (ra_failure acq) as [err|] eqn:Ef; unfold step_ok, emitted; cbn [fail fst snd mbind list_bind emitted_of ig_blocks];
    rewrite app_nil_r, Hlen; split_and!; try done.
  - by repeat constructor.
  - intros [|[|i]] e' Hi; simplify_eq/=. done.
  - intros Hroom. assert (k = N.to_nat (e + 1 - pos)) as Hke by by apply Hf.
    rewrite u64_add_small by lia. replace (raw_number lst + 1)%N with (e + 1)%N by lia.
    replace (pos + N.of_nat k)%N with (e + 1)%N by lia. apply Hnext; lia.
  - by constructor.
  - intros [|[|i]] e' Hi; simplify_eq/=.
Qed.

(** ** Speculation *)

Lemma loop_top_ok pos (s : State) sp :
  ic_commitment cfg = "latest"%string ->
  sp_next sp = (pos + N.of_nat (length (sp_pending sp)))%N ->
  Forall2 task_ok (count_from pos (length (sp_pending sp))) (sp_pending sp) ->
  length (sp_pending sp) <= PIPELINE_DEPTH ->
  phase_ok pos (loop_top cfg s sp).
Proof.
  intros Hc Hn Ht Hl. unfold loop_top. destruct (sp_pending sp) as [|t pending] eqn:Ep.
  - assert (phase_ok pos (leave cfg s sp)) as Hleave.
    { unfold leave. cbn [length] in Hn. apply outer_ok; cbn [is_beg is_speculative_next]; [lia|].
      intros n [= <-]. split; [lia|done]. }
    destruct (N.ltb_spec (ic_end cfg) (sp_next sp)); [done|]. destruct (_ <? sp_hot_streak sp)%N; [done|].
    unfold phase_ok. cbn. rewrite Ep. cbn. split_and!; [done..|unfold PIPELINE_DEPTH; lia|lia].
  - set (l := t :: pending) in *.
    assert (forall m, m <> Polling -> phase_ok pos (with_spec s (spec_mode sp m))) as Hm.
    { intros m Hm. unfold phase_ok. cbn. rewrite Ep. split_and!; [done..|]. by destruct m. }
    destruct (Nat.leb_spec PIPELINE_DEPTH (length l)); cbn [orb]; [by apply Hm|].
    destruct (N.ltb_spec (ic_end cfg) (sp_next sp)); [by apply Hm|].
    destruct (_ <? sp_hot_streak sp)%N; [by apply Hm|].
    unfold phase_ok. cbn. rewrite Ep. split_and!; done.
Qed.

Lemma get_single_block_spec cu client n b :
  client_answers_each client ->
  get_single_block recover error_text o cu client n = Some (Ok (Some b)) -> is_invalid b = false ->
  raw_number b = n /\ verified recover o b.
Proof.
  intros Hc. unfold get_single_block, get_blocks.
  destruct (fc_batch _ _ _) as [results|e] eqn:Eb; [|done]. destruct cu as [cu|e]; [|done].
  destruct (classify_blocks _ _ _ _ _ _) as [bs|] eqn:Ec; [|done]. cbn [map_ok].
  destruct (classify_blocks_header _ _ _ _ _ _ _ Ec) as [Hlen Hall].
  destruct bs as [|x bs]; [done|]. intros [= ->] Hv.
  destruct (Hall 0 b eq_refl) as (m & Hm & Hnum & Hver); [unfold coherent; by rewrite Hv|].
  injection Hm as <-. done.
Qed.

Lemma complete_unselected req (b : Raw) : wants_anything req = false -> complete req b.
Proof.
  unfold wants_anything. intros Hw. apply orb_false_iff in Hw as [[[El Er]%orb_false_iff Et]%orb_false_iff Es].
  split_and!; [by rewrite El|by rewrite Er|]. apply has_traces_unselected. by rewrite Et, Es.
Qed.

Lemma verified_header body (b : Raw) :
  verified recover o body -> header_of recover o body b -> verified recover o b.
Proof. intros Hb [Hn [[= Eh Ebl]|Hv]]; [|done]. unfold verified in *. by rewrite Hn, Eh, Ebl. Qed.

Lemma enrich_task_ok n t te bs p :
  task_ok n t -> event_ok (Enriched te) ->
  enrich_task recover error_text o encode cfg t.2 te = Goes (Ok bs, p) ->
  served_at [n] bs.
Proof.
  intros (_ & Hn & Hv & Hver & _) [Hst Htu]. unfold enrich_task. destruct t as [m [body acquired]]. cbn [fst snd] in *.
  destruct (enrich_block_with_retry _ _ _ _ _ _ _ _) as [[[b prof]|e]| |] eqn:Ee; [|done..].
  assert (servable recover o (ic_req cfg) n b) as Hserv.
  { destruct (wants_anything (ic_req cfg)) eqn:Ew.
    - destruct (enrich_complete _ _ _ _ _ _ _ _ _ _ Ew Hst Htu Ee) as (Hbv & Hcomp & Hh).
      split_and!; [by destruct Hh as [-> _]|done|done|by eapply verified_header].
    - unfold enrich_block_with_retry in Ee. rewrite Ew in Ee. injection Ee as <- _.
      split_and!; [done..|by apply complete_unselected|done]. }
  destruct (map_blocks_cpu _ _ _ _) as [bs'|e] eqn:Em; [|done]. intros [= <- _].
  eapply served_at_mapped; [|by eapply map_blocks_mapped]. by constructor.
Qed.

(** ** One step *)

Lemma step_ok_refresh pos (r : State * list Emission) refresh :
  step_ok pos r -> Forall (fun out => out = Refreshed) refresh -> step_ok pos (r.1, refresh ++ r.2).
Proof.
  intros Hr Href. induction Href as [|out refresh -> _ IH]; [by destruct r|].
  destruct IH as (I1 & I2 & I3 & I4 & I5). unfold step_ok, emitted in *. cbn in *.
  split_and!; [done..|by constructor|]. intros [|i] e Hi; [done|]. destruct (I5 i e Hi). split; [lia|done].
Qed.

Lemma step_ok_still pos (s : State) outs :
  Forall (fun out => match out with Slept _ | Refreshed => True | _ => False end) outs ->
  ((pos + 4 < 2 ^ 64)%N -> phase_ok pos s) -> step_ok pos (s, outs).
Proof.
  intros Ho Hs. apply step_ok_quiet; [| | |done].
  - induction Ho as [|out outs Ho _ IH]; [done|]. unfold emitted in *. cbn. rewrite IH. by destruct out.
  - intros e Hin. by eapply Forall_forall in Ho; [|exact Hin].
  - eapply Forall_impl; [exact Ho|]. by intros [].
Qed.

Lemma poll_range_ok pos (s : State) :
  is_beg s = pos -> (pos <= ic_end cfg)%N -> is_speculative_next s = None -> step_ok pos (poll_range cfg s).
Proof.
  intros Hb He Hn. unfold poll_range. rewrite Hb.
  destruct (N.ltb_spec (default pos (is_poll_head s)) pos) as [|Hh].
  - apply step_ok_still; [by constructor|]. intros _. apply outer_ok; [done|]. by rewrite Hn.
  - apply step_ok_still; [by constructor|]. intros Hroom. unfold phase_ok. cbn.
    unfold saturating_add, u64_max. split_and!; [done|lia|lia|done].
Qed.

Lemma poll_turn_ok pos (s : State) :
  is_beg s = pos -> (pos <= ic_end cfg)%N -> is_speculative_next s = None -> step_ok pos (poll_turn cfg s).
Proof.
  intros Hb He Hn. unfold poll_turn. cbn zeta.
  set (s' := if negb _ then _ else _).
  assert (is_beg s' = pos /\ is_speculative_next s' = None) as [Hb' Hn'] by (by subst s'; destruct (negb _)).
  destruct (match is_poll_last_read s' with None => _ | Some _ => _ end); [|by apply poll_range_ok].
  apply step_ok_still; [by constructor|]. intros _. unfold phase_ok. cbn. done.
Qed.

Lemma head_step_ok pos (s : State) client :
  is_beg s = pos -> (pos <= ic_end cfg)%N -> is_speculative_next s = None ->
  step_ok pos (head_step error_text o cfg s client).
Proof.
  intros Hb He Hn. unfold head_step. destruct (get_latest_blockhash _ _ _ _) as [[h hash]|e]; [|apply step_ok_fail].
  destruct (is_poll_last_read s) as [l|]; [destruct (h <=? l)%N|]; try by apply poll_range_ok.
  apply step_ok_still; [by constructor|]. intros _. apply outer_ok; [done|]. by rewrite Hn.
Qed.

Lemma enter_backfill_ok pos (s : State) hint top :
  0 < ic_stride_size cfg -> is_beg s = pos -> (pos < top)%N -> top = backfill_top cfg hint s ->
  event_ok (Hinted hint) -> phase_ok pos (enter_backfill cfg s top hint).
Proof.
  intros Hss Hb Hlt Htop Hev. unfold backfill_top in Htop.
  destruct hint as [[num hash]|]; [|lia]. simpl in Hev.
  destruct (stride_ranges_cover (N.to_nat (top + 1 - pos)) pos top (ic_stride_size cfg)) as [Hc _];
    [done|lia|lia|done|].
  unfold enter_backfill, phase_ok. cbn. rewrite Hb. set (ranges := stride_ranges _ _ _ _) in *.
  set (w := Nat.max _ _). split_and!; [done|done| | |].
  - intros Hnil. destruct ranges as [|r ranges]; [simpl in Hc; lia|].
    assert (w = S (pred w)) as E by lia. rewrite E in Hnil. done.
  - rewrite length_take. lia.
  - exists top. rewrite take_drop. split_and!; [done|lia|]. eexists. split; [done|]. simpl. lia.
Qed.

Lemma backfill_step_ok pos (s : State) ranges pending finalized env clock panic r :
  is_phase s = Backfill ranges pending finalized -> phase_ok pos s -> env_answers env ->
  backfill_step recover error_text o encode cfg s ranges pending finalized env clock panic = Goes r ->
  step_ok pos r.
Proof.
  intros Hph Hs Henv. unfold phase_ok in Hs. rewrite Hph in Hs.
  destruct Hs as (Hb & Hn & Hne & Hlen & top & Hc & Htop & report & Hrep & Hcov).
  unfold backfill_step. destruct pending as [|[a b] pending]; [done|].
  destruct Hc as (-> & Hab & Hbt & Hc).
  destruct (acquire_range_stride _ _ _ _ _ _) as [acq|] eqn:Ea; [|intros [= <-]; apply step_ok_fail].
  apply acquire_acquired in Ea; [|done].
  destruct (match ranges with [] => ([], pending) | r :: ranges => (ranges, pending ++ [r]) end)
    as [ranges' pending'] eqn:Er.
  assert (covers (b + 1) top (pending' ++ ranges') /\ length pending' <= Nat.max (ic_stride_concurrency cfg) 1
          /\ (pending' = [] -> ranges' = [])) as (Hc' & Hlen' & Hempty).
  { simpl in Hlen. destruct ranges as [|x ranges]; injection Er as <- <-.
    - split; [exact Hc|]. split; [lia|done].
    - rewrite <- app_assoc. split; [exact Hc|]. split; [rewrite length_app; simpl; lia|].
      by destruct pending. }
  intros [= <-]. apply emit_range_ok with (e := b); [done|lia|done| |].
  - rewrite Hrep. intros lst r' [= <-] ?. lia.
  - intros lst _ Hroom. destruct pending' as [|x pending'].
    + rewrite (Hempty eq_refl) in Hc'. simpl in Hc'. apply outer_ok; [done|]. simpl. by rewrite Hn.
    + unfold phase_ok. cbn. split_and!; [done|done|done|done|]. exists top. split_and!; [done|done|]. by exists report.
Qed.

Lemma step_ok_yield pos (s : State) bs outs :
  served_at [pos] bs -> (pos <= ic_end cfg)%N ->
  (outs = [] /\ ((pos + 5 < 2 ^ 64)%N -> phase_ok (pos + 1) s)
   \/ exists e, outs = [Failed e] /\ is_phase s = Finished) ->
  step_ok pos (s, Yielded (mkIngestBatch bs None) :: outs).
Proof.
  intros Hsv He Houts. pose proof (served_at_length _ _ Hsv) as Hlen. simpl in Hlen.
  assert (emitted (Yielded (mkIngestBatch bs None) :: outs) = bs) as Hem.
  { unfold emitted. cbn. destruct Houts as [[-> _]|(e & -> & _)]; cbn; by rewrite app_nil_r. }
  unfold step_ok. cbn [fst snd]. rewrite Hem, Hlen. split_and!.
  - intros Hroom. destruct Houts as [[_ Hs]|(e & _ & Hs)]; [apply Hs; lia|]. unfold phase_ok. by rewrite Hs.
  - unfold count_from. simpl. by rewrite N.add_0_r.
  - destruct Hsv as [Hn _]. destruct bs as [|b [|]]; [done| |done]. simpl in Hn. injection Hn as Hb. constructor; [by rewrite Hb|done].
  - constructor; [done|]. destruct Houts as [[-> _]|(e & -> & _)]; by repeat constructor.
  - intros [|i] e Hi; [done|]. destruct Houts as [[-> _]|(e' & -> & Hs)]; [done|]. by destruct i.
Qed.

Lemma enriched_step_ok pos (s : State) sp te r :
  is_phase s = Speculative sp -> phase_ok pos s -> event_ok (Enriched te) ->
  enriched_step recover error_text o encode cfg s sp te = Goes r -> step_ok pos r.
Proof.
  intros Hph Hs Hev. unfold phase_ok in Hs. rewrite Hph in Hs. destruct Hs as (Hc & Hn & Ht & Hm).
  unfold enriched_step. destruct (sp_pending sp) as [|[n task] pending] eqn:Ep; [done|].
  cbn [length] in Hn, Ht. rewrite count_from_S in Ht.
  inversion Ht as [|? ? ? ? Htask Hrest]; subst. pose proof Htask as (E & _ & _ & _ & He). simpl in E. subst n.
  assert (length pending < PIPELINE_DEPTH) as Hl by (destruct (sp_mode sp); simpl in Hm; lia).
  destruct (enrich_task _ _ _ _ _ task te) as [| |[[mapped|e] panicked]] eqn:Ee.
  1,2: by destruct (sp_mode sp).
  2: { destruct (sp_mode sp); [done|..]; intros [= <-]; apply step_ok_fail. }
  apply (enrich_task_ok pos (pos, task)) in Ee; [|done|done].
  assert (forall m, phase_ok (pos + 1) (loop_top cfg s
            (mkSpeculation (sp_next sp) pending (sp_hot_streak sp) (sp_incoherent_attempts sp) (sp_null_polls sp) m)))
    as Htop.
  { intros m. apply loop_top_ok; cbn [sp_next sp_pending]; [done|lia|done|lia]. }
  assert (forall m, pending <> [] -> m <> Polling -> phase_ok (pos + 1) (with_spec s
            (mkSpeculation (sp_next sp) pending (sp_hot_streak sp) (sp_incoherent_attempts sp) (sp_null_polls sp) m)))
    as Hkeep.
  { intros m Hp Hmode. unfold phase_ok. cbn. split_and!; [done|lia|done|]. destruct m; [done|split; [done|lia]..]. }
  destruct (sp_mode sp) as [| | | |reason]; [done|..]; intros E.
  - injection E as <-. apply step_ok_yield; [done|done|]. left. split; [done|]. intros _. apply Htop.
  - injection E as <-. apply step_ok_yield; [done|done|]. left. split; [done|]. intros _. apply Htop.
  - destruct pending as [|t pending]; injection E as <-; (apply step_ok_yield; [done|done|]); left; (split; [done|]); intros Hroom.
    + unfold leave. apply outer_ok; cbn; [simpl in Hn; lia|]. intros n [= <-]. split; [simpl in Hn; lia|done].
    + by apply Hkeep.
  - destruct pending as [|t pending]; injection E as <-; (apply step_ok_yield; [done|done|]).
    + right. by eexists.
    + left. split; [done|]. intros _. by apply Hkeep.
Qed.

Lemma polled_step_ok pos (s : State) sp m poll_at now r :
  is_phase s = Speculative sp -> sp_mode sp = Polling -> phase_ok pos s -> client_answers_each (mo_client m) ->
  polled_step recover error_text o cfg s sp m poll_at now = Goes r -> step_ok pos r.
Proof.
  intros Hph Hmode Hs Hcl. unfold phase_ok in Hs. rewrite Hph, Hmode in Hs. destruct Hs as (Hc & Hn & Ht & Hl & He).
  unfold polled_step. cbn zeta.
  destruct (get_single_block _ _ _ _ _ _) as [[[body|]|e]|] eqn:Eg; [| |intros [= <-]; apply step_ok_fail|done].
  - destruct (is_invalid body) eqn:Ei; cbn [negb].
    + destruct (_ <=? sp_incoherent_attempts sp).
      * destruct (sp_pending sp) as [|t pending] eqn:Ep; intros [= <-]; [apply step_ok_fail|].
        apply step_ok_still; [by constructor|]. intros _. unfold phase_ok. cbn. simpl in Hl. split_and!; [done..|lia].
      * intros [= <-]. apply step_ok_still; [by repeat constructor|]. intros _.
        apply loop_top_ok; cbn [sp_next sp_pending]; [done..|unfold PIPELINE_DEPTH in *; lia].
    + destruct (get_single_block_spec _ _ _ _ Hcl Eg Ei) as [Hnum Hver].
      intros [= <-]. apply step_ok_still; [by constructor|]. intros Hroom. unfold PIPELINE_DEPTH in Hl.
      apply loop_top_ok; cbn [sp_next sp_pending]; [done| | |rewrite length_app; simpl; unfold PIPELINE_DEPTH; lia].
      * rewrite u64_add_small by lia. rewrite length_app. simpl. lia.
      * rewrite length_app. simpl. rewrite count_from_add. apply Forall2_app; [done|].
        unfold count_from. simpl. constructor; [|constructor]. unfold task_ok. cbn [fst snd]. split_and!; [lia|lia|done|done|lia].
  - destruct (sp_pending sp) as [|t pending] eqn:Ep; intros [= <-]; (apply step_ok_still; [by repeat constructor|]); intros _.
    + apply loop_top_ok; cbn [sp_next sp_pending]; [done|done|constructor|unfold PIPELINE_DEPTH; simpl; lia].
    + unfold phase_ok. cbn. simpl in Hl. split_and!; [done..|lia].
Qed.

Lemma ingest_step_ok pos (s : State) ev r :
  0 < ic_stride_size cfg -> phase_ok pos s -> event_ok ev ->
  ingest_step recover error_text o encode cfg s ev = Goes r -> step_ok pos r.
Proof.
  intros Hss Hs Hev. unfold ingest_step. pose proof Hs as Hs'. unfold phase_ok in Hs'.
  destruct (is_phase s) as [|ranges pending finalized|sp| |e|] eqn:Hph; destruct ev as [hint|client|env clock panic|m at_ now|te|];
    try done.
  - destruct Hs' as (Hb & He & Hn). cbn zeta. set (refresh := if (ic_from cfg <? is_beg s)%N then [Refreshed] else []).
    assert (Forall (fun out => out = Refreshed) refresh) as Href by (subst refresh; case_match; by repeat constructor).
    destruct (_ && _)%N eqn:Eb; [|case_bool_decide as Hlat].
    + apply andb_true_iff in Eb as [Hlt _]. apply N.ltb_lt in Hlt. rewrite Hb in Hlt.
      intros [= <-]. apply step_ok_still; [eapply Forall_impl; [exact Href|]; by intros ? ->|].
      intros _. by apply enter_backfill_ok.
    + intros [= <-]. apply step_ok_still; [eapply Forall_impl; [exact Href|]; by intros ? ->|].
      intros _. unfold enter_speculation. apply loop_top_ok; cbn [sp_next sp_pending length]; [done| |constructor|unfold PIPELINE_DEPTH; lia].
      destruct (is_speculative_next s) as [n|]; simpl; [destruct (Hn n eq_refl); lia|lia].
    + destruct (poll_turn cfg s) as [s' outs] eqn:Ept. intros [= <-].
      apply (step_ok_refresh pos (s', outs)); [|done]. rewrite <- Ept. apply poll_turn_ok; [done..|].
      destruct (is_speculative_next s) as [n|]; [by destruct (Hn n eq_refl)|done].
  - intros E. by eapply backfill_step_ok.
  - destruct (sp_mode sp) eqn:Em; [|done..]. intros E. by eapply polled_step_ok.
  - intros E. by eapply enriched_step_ok.
  - destruct (sp_mode sp) eqn:Em; [done..| |done|done]. destruct Hs' as (Hc & Hn & Ht & _ & Hl).
    intros [= <-]. apply step_ok_still; [by constructor|]. intros _. by apply loop_top_ok.
  - intros [= <-]. destruct Hs' as (Hb & He & Hn). by apply head_step_ok.
  - destruct Hs' as (Hb & Hpe & He & Hn). unfold poll_stride_step.
    destruct (acquire_range_stride _ _ _ _ _ _) as [acq|] eqn:Ea; [|done]. intros [= <-].
    rewrite Hb in Ea. apply acquire_acquired in Ea; [|done].
    apply emit_range_ok with (e := e); [done..| |].
    + intros lst r' [= <-] _. simpl. lia.
    + intros lst _ _. apply outer_ok; [done|]. simpl. by rewrite Hn.
Qed.

Lemma ingest_run_ok pos (s : State) evs r :
  0 < ic_stride_size cfg -> phase_ok pos s -> Forall event_ok evs ->
  ingest_run recover error_text o encode cfg s evs = Goes r ->
  (pos + N.of_nat (length (emitted r.2)) + 4 < 2 ^ 64)%N -> step_ok pos r.
Proof.
  intros Hss. revert pos s r. induction evs as [|ev evs IH]; intros pos s r Hs Hev; cbn [ingest_run].
  { intros [= <-] _. by apply step_ok_still. }
  inversion Hev as [|? ? Hev1 Hevs]; subst.
  destruct (ingest_step _ _ _ _ _ s ev) as [| |[s1 outs]] eqn:E1; [done..|].
  destruct (ingest_run _ _ _ _ _ s1 evs) as [| |[s2 rest]] eqn:E2; [done..|].
  intros [= <-]. cbn [snd]. unfold emitted. rewrite bind_app, length_app. intros Hroom.
  fold (emitted outs) in *. fold (emitted rest) in *.
  destruct (ingest_step_ok _ _ _ _ Hss Hs Hev1 E1) as (P1 & S1 & B1 & O1 & F1). cbn [fst snd] in *.
  assert (step_ok (pos + N.of_nat (length (emitted outs))) (s2, rest)) as (P2 & S2 & B2 & O2 & F2).
  { eapply IH; [apply P1; lia|done|done|]. cbn [snd]. lia. }
  cbn [fst snd] in *. unfold step_ok. cbn [fst snd]. unfold emitted. rewrite bind_app, length_app.
  fold (emitted outs). fold (emitted rest). split_and!.
  - intros _. rewrite Nat2N.inj_add, N.add_assoc. apply P2. lia.
  - rewrite count_from_add. by apply served_at_app.
  - by apply Forall_app.
  - by apply Forall_app.
  - intros i e [Hi|[Hle Hi]]%lookup_app_Some.
    + destruct (F1 i e Hi) as [Hlast Hfin]. destruct evs as [|ev' evs]; cbn [ingest_run] in E2.
      * injection E2 as <- <-. rewrite app_nil_r. done.
      * unfold ingest_step in E2. rewrite Hfin in E2. done.
    + destruct (F2 _ e Hi) as [Hlast Hfin]. rewrite length_app. split; [lia|done].
Qed.

Lemma ingest_init_ok : phase_ok (ic_from cfg) (ingest_init (Value := Value) cfg).
Proof. unfold ingest_init. by apply outer_ok. Qed.

Lemma enriched_progress (s : State) sp te task :
  head (sp_pending sp) = Some task -> sp_mode sp <> Polling ->
  enrich_task recover error_text o encode cfg task.2 te <> Disabled ->
  exists r, enriched_step recover error_text o encode cfg s sp te = Goes r.
Proof.
  intros Hh Hm Hte. unfold enriched_step. destruct (sp_pending sp) as [|[n t] pending]; [done|].
  injection Hh as <-. cbn [snd] in Hte.
  assert (exists x, enrich_task recover error_text o encode cfg t te = Goes x) as [[[bs|e] p] ->].
  { unfold enrich_task in *. destruct t as [body acquired]. destruct (enrich_block_with_retry _ _ _ _ _ _ _ _) as [[[]|]| |];
      [by eexists..|done]. }
  - destruct (sp_mode sp); [done|..]; try by eexists.
    all: destruct pending; by eexists.
  - destruct (sp_mode sp); [done|..]; by eexists.
Qed.

(** C25: The stream has no gap, no repetition and no disorder: whatever the mode
    the loop is in, however it changes between backfill, speculation and
    finalized polling, and in whatever order strides, polls and enrichments
    are answered, the blocks it yields are exactly the heights from the one
    asked for upwards, none above the end; each is the mapping of a block of
    its height that is unmarked, carries every component requested and has a
    checked header; a finality report is only attached to a batch that lies
    wholly at or below it; and a failure is the last thing the stream does. *)
Theorem emission_consecutive evs s outs
    (Hsize : 0 < ic_stride_size cfg)
    (Hevents : Forall event_ok evs)
    (Hrun : ingest_run recover error_text o encode cfg (ingest_init cfg) evs = Goes (s, outs))
    (Hwidth : (ic_from cfg + N.of_nat (length (emitted outs)) + 4 < 2 ^ 64)%N) :
  number <$> emitted outs = count_from (ic_from cfg) (length (emitted outs))
  /\ Forall (fun b => served b /\ (number b <= ic_end cfg)%N) (emitted outs)
  /\ Forall emission_ok outs
  /\ (forall i e, outs !! i = Some (Failed e) -> S i = length outs).
Proof.
  destruct (ingest_run_ok _ _ _ _ Hsize ingest_init_ok Hevents Hrun Hwidth) as (_ & [Hn Hs] & Hb & Ho & Hf).
  cbn [fst snd] in *. split_and!; [done| |done|intros i e Hi; by destruct (Hf i e Hi)].
  apply Forall_and. by split.
Qed.

(** The pipelines are bounded: at most three head blocks wait for their
    enrichment, and at most the configured number of strides (one, if zero is
    configured) are in flight, at every moment of a run. *)
Theorem pipelines_bounded evs s outs
    (Hsize : 0 < ic_stride_size cfg)
    (Hevents : Forall event_ok evs)
    (Hrun : ingest_run recover error_text o encode cfg (ingest_init cfg) evs = Goes (s, outs))
    (Hwidth : (ic_from cfg + N.of_nat (length (emitted outs)) + 4 < 2 ^ 64)%N) :
  match is_phase s with
  | Speculative sp => length (sp_pending sp) <= PIPELINE_DEPTH
  | Backfill _ pending _ => 0 < length pending <= Nat.max (ic_stride_concurrency cfg) 1
  | _ => True
  end.
Proof.
  destruct (ingest_run_ok _ _ _ _ Hsize ingest_init_ok Hevents Hrun Hwidth) as (Hp & _).
  specialize (Hp Hwidth). cbn [fst] in Hp. unfold phase_ok in Hp.
  destruct (is_phase s) as [|ranges pending f|sp| | |]; try done.
  - destruct Hp as (_ & _ & Hne & Hl & _). split; [|done]. destruct pending; [done|]. simpl. lia.
  - destruct Hp as (_ & _ & _ & Hm). destruct (sp_mode sp); lia.
Qed.

(** C38: The machine never waits for nothing: in every state of a run but the
    last, the event it waits for can be taken — any hint, any head read, any
    finished stride, any finished enrichment, any poll — and is not refused;
    only a check that panics can end the task without an emission. *)
Theorem ingest_progress evs s outs
    (Hsize : 0 < ic_stride_size cfg)
    (Hevents : Forall event_ok evs)
    (Hrun : ingest_run recover error_text o encode cfg (ingest_init cfg) evs = Goes (s, outs))
    (Hwidth : (ic_from cfg + N.of_nat (length (emitted outs)) + 4 < 2 ^ 64)%N) :
  let step := ingest_step recover error_text o encode cfg s in
  match is_phase s with
  | Finished => True
  | Outer => forall hint, exists r, step (Hinted hint) = Goes r
  | PollHead => forall client, exists r, step (HeadRead client) = Goes r
  | PollStride _ => forall env clock panic, step (StrideDone env clock panic) <> Disabled
  | Backfill _ _ _ => forall env clock panic, exists r, step (StrideDone env clock panic) = Goes r
  | Speculative sp =>
      match sp_mode sp with
      | Polling => forall m poll_at now, step (Polled m poll_at now) <> Disabled
      | _ => forall te task, head (sp_pending sp) = Some task ->
               enrich_task recover error_text o encode cfg task.2 te <> Disabled ->
               exists r, step (Enriched te) = Goes r
      end /\ (sp_mode sp <> Polling -> is_Some (head (sp_pending sp)))
  end.
Proof.
  destruct (ingest_run_ok _ _ _ _ Hsize ingest_init_ok Hevents Hrun Hwidth) as (Hp & _).
  specialize (Hp Hwidth). cbn [fst] in Hp. unfold phase_ok in Hp. cbn zeta. unfold ingest_step.
  destruct (is_phase s) as [|ranges pending f|sp| |e|]; [| | | | |done].
  - intros hint. destruct (_ && _)%N; [by eexists|]. case_bool_decide; [by eexists|].
    destruct (poll_turn cfg s). by eexists.
  - intros env clock panic. destruct Hp as (_ & _ & Hne & _). unfold backfill_step.
    destruct pending as [|[a b] pending]; [done|]. destruct (acquire_range_stride _ _ _ _ _ _); [|by eexists].
    destruct ranges; by eexists.
  - destruct Hp as (_ & _ & _ & Hm). split.
    2:{ intros Hne. destruct (sp_mode sp); [done|..]; destruct Hm as [Hpend _]; by destruct (sp_pending sp). }
    destruct (sp_mode sp) as [| | | |reason] eqn:Em.
    + intros m at_ now. unfold polled_step. cbn zeta.
      clear Hm. destruct (get_single_block _ _ _ _ _ _) as [[[body|]|e]|]; [| | |done].
      all: intros E; repeat case_match; discriminate E.
    + intros te task Hh Hte. eapply enriched_progress; [exact Hh|by rewrite Em|exact Hte].
    + intros te task Hh Hte. eapply enriched_progress; [exact Hh|by rewrite Em|exact Hte].
    + intros te task Hh Hte. eapply enriched_progress; [exact Hh|by rewrite Em|exact Hte].
    + intros te task Hh Hte. eapply enriched_progress; [exact Hh|by rewrite Em|exact Hte].
  - intros client. by eexists.
  - intros env clock panic. unfold poll_stride_step. by destruct (acquire_range_stride _ _ _ _ _ _).
Qed.
End emission.

(** The finalized poll acquires one height more than the stride size. *)
Lemma poll_stride_one_more {Value} cfg (s : IngestState (Value := Value)) head :
  is_poll_head s = Some head -> (is_beg s + N.of_nat (ic_stride_size cfg) <= head)%N ->
  (head <= ic_end cfg)%N -> (head <= u64_max)%N ->
  let stride_end := (is_beg s + N.of_nat (ic_stride_size cfg))%N in
  poll_range cfg s = (with_phase s (PollStride stride_end), [])
  /\ length (range_numbers (is_beg s) stride_end) = S (ic_stride_size cfg).
Proof.
  intros Hh Hs He Hu stride_end. rewrite range_numbers_length. split; [|lia].
  unfold poll_range. rewrite Hh. cbn [default from_option id].
  destruct (N.ltb_spec head (is_beg s)); [lia|]. do 3 f_equal. unfold saturating_add. lia.
Qed.

(** ** A concrete stream *)

Definition demo_config : IngestConfig := mkIngestConfig toy_request 5 (Some 10%N) 2 2 "latest" false.

Definition demo_encode_raw (raw : RawRpcBlock ToyJson) : Result (list byte) string := Ok [].

Definition demo_task : TaskEnv :=
  mkTaskEnv 1 (chain_moment 10, (0, 0, 0)%N) (fun _ => mkTurn (chain_moment 10) 0 0 false (0, 0, 0)%N) 0
    (fun _ => (0, 0)%N) "".

Definition demo_stride : IngestEvent := StrideDone (chain_range_env 10) (fun _ => (0, 0)%N) "".

(** Three strides below the finalized head, then two heights polled, the first
    of them not there at once. *)
Definition demo_events : list IngestEvent :=
  [Hinted (Some (9%N, chain_hash 9)); demo_stride; demo_stride; demo_stride;
   Hinted (Some (9%N, chain_hash 9)); Polled (chain_moment 9) 1 2; Polled (chain_moment 10) 3 4; Enriched demo_task].

Definition demo_run (evs : list IngestEvent) : Step (IngestState (Value := ToyJson) * list Emission) :=
  @ingest_run ToyJson toy_json hex_ref toy_keccak halves toy_trie (fun _ => Ok None) (fun _ => ""%string)
    toy_options demo_encode_raw demo_config (ingest_init demo_config) evs.

Definition step_out {A B} (r : Step (A * B)) : option B :=
  match r with Goes (_, outs) => Some outs | _ => None end.

Lemma demo_events_ok : Forall (event_ok demo_config) demo_events.
Proof.
  assert (event_ok demo_config demo_stride) as Hs by apply chain_env_answers.
  assert (event_ok (Value := ToyJson) demo_config (Hinted (Some (9%N, chain_hash 9)))) as Hh by by apply N.ltb_lt.
  repeat first [apply Forall_nil; exact I|apply Forall_cons; split]; try exact Hs; try exact Hh;
    try apply chain_client_answers.
  split; [apply chain_client_answers|intros k; apply chain_client_answers].
Qed.

Lemma demo_prefix_ok k : Forall (event_ok demo_config) (take k demo_events).
Proof. apply Forall_take, demo_events_ok. Qed.

(** The stream of a run, as the reader sees it. *)
Definition demo_seen (evs : list IngestEvent) : option (list N * IngestPhase (Value := ToyJson)) :=
  match demo_run evs with Goes (s, outs) => Some (number <$> emitted outs, is_phase s) | _ => None end.

Lemma emission_consecutive_witness :
  demo_seen demo_events = Some ([5; 6; 7; 8; 9; 10]%N, Finished)
  /\ forall s outs, demo_run demo_events = Goes (s, outs) ->
       number <$> emitted outs = count_from 5 (length (emitted outs)).
Proof.
  split; [vm_compute; reflexivity|]. intros s outs Hrun.
  assert (length (emitted outs) = 6) as Hlen.
  { assert (demo_seen demo_events = Some ([5; 6; 7; 8; 9; 10]%N, Finished)) as E by (vm_compute; reflexivity).
    unfold demo_seen in E. rewrite Hrun in E. injection E as E _. by rewrite <- (length_fmap number), E. }
  apply (@emission_consecutive ToyJson toy_json hex_ref toy_keccak halves toy_trie (fun _ => Ok None)
    (fun _ => ""%string) toy_options demo_encode_raw demo_config demo_events s outs);
    [by apply Nat.ltb_lt|apply demo_events_ok|exact Hrun|].
  rewrite Hlen. by apply N.ltb_lt.
Defined.

(** A stride has ended: its place in the pipeline went to the last one. *)
Lemma pipelines_bounded_witness :
  demo_seen (take 2 demo_events) = Some ([5; 6]%N, Backfill [] [(7, 8); (9, 9)]%N (Some (mkBlockRef 9 (chain_hash 9))))
  /\ forall s outs, demo_run (take 2 demo_events) = Goes (s, outs) -> length (emitted outs) = 2 ->
       match is_phase s with Backfill _ pending _ => 0 < length pending <= 2 | _ => True end.
Proof.
  split; [vm_compute; reflexivity|]. intros s outs Hrun Hlen.
  assert (5 + N.of_nat (length (emitted outs)) + 4 < 2 ^ 64)%N as Hw by (rewrite Hlen; by apply N.ltb_lt).
  pose proof (@pipelines_bounded ToyJson toy_json hex_ref toy_keccak halves toy_trie (fun _ => Ok None)
    (fun _ => ""%string) toy_options demo_encode_raw demo_config (take 2 demo_events) s outs
    ltac:(by apply Nat.ltb_lt) (demo_prefix_ok 2) Hrun Hw) as Hp.
  destruct (is_phase s); [exact I|exact Hp|exact I..].
Defined.

Lemma ingest_progress_witness :
  demo_seen (take 4 demo_events) = Some ([5; 6; 7; 8; 9]%N, Outer)
  /\ forall s outs, demo_run (take 4 demo_events) = Goes (s, outs) -> length (emitted outs) = 5 ->
       is_phase s = Outer ->
       exists r, @ingest_step ToyJson toy_json hex_ref toy_keccak halves toy_trie (fun _ => Ok None)
         (fun _ => ""%string) toy_options demo_encode_raw demo_config s (Hinted None) = Goes r.
Proof.
  split; [vm_compute; reflexivity|]. intros s outs Hrun Hlen Hph.
  assert (5 + N.of_nat (length (emitted outs)) + 4 < 2 ^ 64)%N as Hw by (rewrite Hlen; by apply N.ltb_lt).
  pose proof (@ingest_progress ToyJson toy_json hex_ref toy_keccak halves toy_trie (fun _ => Ok None)
    (fun _ => ""%string) toy_options demo_encode_raw demo_config (take 4 demo_events) s outs
    ltac:(by apply Nat.ltb_lt) (demo_prefix_ok 4) Hrun Hw) as Hp.
  cbn zeta in Hp. rewrite Hph in Hp. exact (Hp None).
Defined.
