(* ===== verification/Adapter.v ===== *)
(** * Adapter: the data source of the service (source.rs)

    [EvmRpcDataSource] puts the parts together: its options, the heads it
    reads, and its streams, which are the ingestion machine's emissions under
    the continuity check and, at the head, the finality prober. The theorem
    states what the service may rely on, from the machine's events to the
    batches it is handed. *)
From stdpp Require Import pretty gmap.
From Stdlib Require Import Strings.Byte Sorting.Sorted.
From S2P Require Import Prelude Types RpcClient RpcData Rlp Commitments ChainUtils Frames EvmTypes.
From S2P Require Import Chain Service Finality Prober RawBlock Continuity FetchChecks Components Fetch Acquire Ingest.

Local Open Scope rust_scope.

(** ** Options *)

Record EvmRpcDataSourceOptions := mkEvmRpcDataSourceOptions {
  eo_rpc_options : RpcOptions;
  eo_data_request : DataRequest;
  eo_stride_size : nat;
  eo_stride_concurrency : nat;
  eo_profile_block_timings : bool
}.

Definition RpcOptions_default : RpcOptions :=
  mkRpcOptions None None None false false false false false false Off false false false.

Definition DataRequest_default : DataRequest :=
  mkDataRequest false false false false false false false None.

Definition EvmRpcDataSourceOptions_default : EvmRpcDataSourceOptions :=
  mkEvmRpcDataSourceOptions RpcOptions_default DataRequest_default 5 5 false.

(** What the source keeps of its options, and hands to [ingest_range]. *)
Record EvmRpcDataSource := mkEvmRpcDataSource {
  ds_rpc_options : RpcOptions;
  ds_data_request : DataRequest;
  ds_with_traces : bool;
  ds_with_state_diffs : bool;
  ds_stride_size : nat;
  ds_stride_concurrency : nat;
  ds_profile_block_timings : bool
}.

Definition build (options : EvmRpcDataSourceOptions) : EvmRpcDataSource :=
  mkEvmRpcDataSource (eo_rpc_options options) (eo_data_request options)
    (rq_traces (eo_data_request options)) (rq_state_diffs (eo_data_request options))
    (Nat.max (eo_stride_size options) 1) (Nat.max (eo_stride_concurrency options) 1)
    (eo_profile_block_timings options).

Definition stream_config (ds : EvmRpcDataSource) (req : StreamRequest) (commitment : string) : IngestConfig :=
  mkIngestConfig (ds_data_request ds) (req_from req) (req_to req) (ds_stride_size ds)
    (ds_stride_concurrency ds) commitment (ds_profile_block_timings ds).

(** ** Streams *)

(** The items of a stream are what the machine yields and its failure. *)
Definition make_stream (outs : list Emission) : list (Result IngestBatch AnyError) :=
  omap (fun out => match out with
                   | Yielded batch => Some (Ok batch)
                   | Failed e => Some (Err (SourceError (alternate_text e)))
                   | Refreshed | Slept _ => None
                   end) outs.

(** What both streams share: the ingestion under the continuity check. *)
Definition get_finalized_stream (req : StreamRequest) (outs : list Emission)
    : option (list (Result BlockBatch StreamError)) :=
  ensure_continuity (req_parent_hash req) (make_stream outs).

(** [get_stream] passes them on through the finality prober, whose loop and
    task interleave as in [tr], started at [start]: [out] is what it has yielded
    of the items it took. *)
Definition get_stream (req : StreamRequest) (outs : list Emission) (start : N) (tr : list FinalizeEvent)
    (out : list (Result BlockBatch StreamError)) : Prop :=
  exists continuity s,
    get_finalized_stream req outs = Some continuity
    /\ items tr `prefix_of` continuity
    /\ finalize_run (finalize_init start) tr = Some s
    /\ out = fs_out s.

Section heads.
Context {Value : Type} `{Json Value}.
Context (error_text : RpcError (Value := Value) -> string).
Context (o : RpcOptions).

Definition get_head (client : FetchClient Value) : Result BlockRef string :=
  let? (number, hash) := get_latest_blockhash error_text o client "latest" in
  Ok (mkBlockRef number hash).

(** The read that opens a new epoch of the finality view. *)
Definition get_finalized_head (now : N) (client : FetchClient Value) (cache : FinalizedHeadCache)
    : FinalizedHeadCache * Result BlockRef string :=
  let (cache, r) := resync_finalized_head now (get_latest_blockhash error_text o client "finalized") cache in
  (cache, map_ok (fun '(number, hash) => mkBlockRef number hash) r).
End heads.

(** ** The contract *)

Lemma before_error_emitted outs :
  exists rest, Ingest.emitted outs = (before_error (make_stream outs)).1 ++ rest.
Proof.
  induction outs as [|out outs [rest IH]]; [by exists []|]. destruct out as [batch| |ms|e]; cbn.
  - unfold Ingest.emitted in IH |- *. cbn. rewrite IH. destruct (before_error _) as [bs e].
    exists rest. cbn. by rewrite app_assoc.
  - exact (ex_intro _ rest IH).
  - exact (ex_intro _ rest IH).
  - by eexists.
Qed.

Lemma stream_item outs b : Ok b ∈ make_stream outs -> Yielded b ∈ outs.
Proof.
  unfold make_stream. intros (out & Hin & Hout)%list_elem_of_omap. by destruct out; simplify_eq.
Qed.

Lemma count_from_adjacent a bs n : number <$> bs = count_from a n -> adjacent succeeds bs.
Proof.
  intros Hn i x y Hx Hy. unfold succeeds.
  assert (forall j z, bs !! j = Some z -> number z = a + N.of_nat j)%N as Hj.
  { intros j z Hz. assert ((number <$> bs) !! j = Some (number z)) as E by by rewrite list_lookup_fmap, Hz.
    rewrite Hn in E. pose proof (lookup_lt_Some _ _ _ E) as Hlt. rewrite count_from_length in Hlt.
    rewrite count_from_lookup in E by done. by injection E. }
  rewrite (Hj _ _ Hx), (Hj _ _ Hy). lia.
Qed.

Lemma count_from_prefix a n (bs rest : list Block) :
  number <$> (bs ++ rest) = count_from a n -> number <$> bs = count_from a (length bs).
Proof.
  intros E. rewrite fmap_app in E. pose proof (f_equal length E) as El.
  rewrite length_app, !length_fmap, count_from_length in El.
  apply (f_equal (take (length bs))) in E. rewrite take_count_from in E by lia.
  rewrite take_app_length' in E by by rewrite length_fmap. done.
Qed.

Lemma emitted_delivered tr :
  delivered tr = block_ref <$> Continuity.emitted (items tr).
Proof.
  unfold delivered. induction (items tr) as [|item l IH]; [done|].
  rewrite emitted_cons, fmap_app, <- IH. by destruct item.
Qed.

Lemma count_from_ascending a n (bs : list Block) :
  number <$> bs = count_from a n -> StronglySorted ref_lt (block_ref <$> bs).
Proof.
  revert a n. induction bs as [|b bs IH]; intros a n; [constructor|].
  destruct n as [|n]; [done|]. rewrite count_from_S. cbn [fmap list_fmap]. intros [= Hb Hbs].
  constructor; [by eapply IH|]. apply Forall_forall. intros r (x & -> & Hx)%list_elem_of_fmap.
  assert (number x ∈ count_from (a + 1) n) as Hin by (rewrite <- Hbs; by apply list_elem_of_fmap_2).
  apply count_from_bounds in Hin. unfold ref_lt. simpl. lia.
Qed.

Section contract.
Context {Value : Type} `{Json Value} `{Hex} `{Keccak} `{Rayon} `{Trie}.
Context (recover : RpcTransaction -> Result (option string) string).
Context (error_text : RpcError (Value := Value) -> string).
Context (encode : RawRpcBlock Value -> Result (list byte) string).

Definition legal_hash (h : string) : Prop := is_empty h = false /\ is_header_safe_hash h = true.

(** The hashes the service can serve: of blocks, and of reports. *)
Definition legal_blocks (handed : list (Result BlockBatch StreamError)) : Prop :=
  forall b, b ∈ Continuity.emitted handed -> legal_hash (hash b) /\ legal_hash (parent_hash b).

Definition legal_reports (outs : list Emission) : Prop :=
  forall batch r, Yielded batch ∈ outs -> ig_finalized batch = Some r -> legal_hash (br_hash r).

(** Every request of a probing round got as many answers as it has calls. *)
Definition rounds_answered (tr : list FinalizeEvent) : Prop :=
  forall woken settled_at fin client, FRound woken settled_at fin client ∈ tr -> answers_each client.

Lemma justified_delivered tr r : justified tr r -> r ∈ delivered tr.
Proof.
  intros [(batch & b & Hb & _ & Hl & <-)|[Hd _]]; [|done].
  rewrite emitted_delivered. apply list_elem_of_fmap_2. destruct (batch_in_emitted _ _ Hb) as (x & y & ->).
  apply last_Some in Hl as [l ->]. set_solver.
Qed.

Lemma validate_reported batch r :
  validate_ingest_batch batch = Ok tt -> (forall x, r = Some x -> legal_hash (br_hash x)) ->
  validate_ingest_batch (mkBlockBatch (batch_blocks batch) r) = Ok tt.
Proof.
  intros Hv Hr. unfold validate_ingest_batch in *. cbn [batch_blocks batch_finalized_head].
  assert (validate_report r = Ok tt) as ->.
  { unfold validate_report. destruct r as [x|]; [|done]. by destruct (Hr x eq_refl) as [-> ->]. }
  destruct (batch_blocks batch); [done|]. destruct (validate_hashes _); [|done].
  by destruct (validate_report _).
Qed.

(** What the prober passes on of items that were handed to it. *)
Lemma prober_passes handed start tr s :
  items tr `prefix_of` handed -> StronglySorted ref_lt (delivered tr) -> rounds_answered tr ->
  finalize_run (finalize_init start) tr = Some s ->
  Continuity.emitted (fs_out s) `prefix_of` Continuity.emitted handed
  /\ (forall batch, Ok batch ∈ fs_out s -> exists item, Ok item ∈ handed
        /\ batch_blocks batch = batch_blocks item
        /\ match batch_finalized_head item with
           | Some r => batch_finalized_head batch = Some r
           | None => forall r, batch_finalized_head batch = Some r ->
               justified tr r /\ r ∈ block_ref <$> Continuity.emitted handed
           end).
Proof.
  intros Hpre Hs Hc Hrun.
  pose proof (finality_passes start tr s (conj Hs Hc) Hrun) as Hpass. split.
  - assert (Continuity.emitted (fs_out s) = Continuity.emitted (items tr)) as ->.
    { clear -Hpass. induction Hpass as [|item out its outs Hio _ IH]; [done|].
      rewrite !emitted_cons, IH. f_equal. destruct item, out; try done. by destruct Hio as [-> _]. }
    destruct Hpre as [rest ->]. rewrite emitted_app. by eexists.
  - intros batch [i Hi]%list_elem_of_lookup. destruct (Forall2_lookup_r _ _ _ _ _ Hpass Hi) as (item & Hit & Hio).
    destruct item as [item|]; [|done]. destruct Hio as [Hb Hr]. exists item.
    assert (Ok item ∈ handed) as Hin.
    { destruct Hpre as [rest ->]. apply elem_of_app. left. by eapply list_elem_of_lookup_2. }
    split_and!; [done|done|]. destruct (batch_finalized_head item); [done|]. intros r Hbr.
    specialize (Hr r Hbr). split; [done|]. apply justified_delivered in Hr. rewrite emitted_delivered in Hr.
    destruct Hpre as [rest ->]. rewrite emitted_app, fmap_app. apply elem_of_app. by left.
Qed.

(** C23: What the adapter hands to the service, end to end: for every request,
    every course of the ingestion machine and every answer of the upstream.
    Under the continuity check the batches are, read in order, the heights
    from the one requested upwards without gap, repetition or disorder,
    chained from the requested parent, and a batch with a finality report lies
    wholly at or below it; as long as the upstream's hashes are legal, the
    service's validation accepts every batch. The head stream passes them
    through the finality prober: in every interleaving of its loop and its
    task it yields the same blocks in the same order, each batch with its own
    report, or with none, or with one attached that names a block this stream
    delivered and the prober justified; and the service's validation accepts
    these batches too. *)
Theorem adapter_stream_contract options req commitment evs s outs handed
    (Hevents : Forall (event_ok (stream_config (build options) req commitment)) evs)
    (Hrun : ingest_run recover error_text (ds_rpc_options (build options)) encode
              (stream_config (build options) req commitment)
              (ingest_init (stream_config (build options) req commitment)) evs = Goes (s, outs))
    (Hwidth : (req_from req + N.of_nat (length (Ingest.emitted outs)) + 4 < 2 ^ 64)%N)
    (Hhanded : get_finalized_stream req outs = Some handed) :
  number <$> Continuity.emitted handed = count_from (req_from req) (length (Continuity.emitted handed))
  /\ linked_from (req_parent_hash req) (Continuity.emitted handed)
  /\ (forall batch r, Ok batch ∈ handed -> batch_finalized_head batch = Some r ->
        Forall (fun b => number b <= br_number r)%N (batch_blocks batch))
  /\ (legal_blocks handed -> legal_reports outs ->
      forall batch, Ok batch ∈ handed -> validate_ingest_batch batch = Ok tt)
  /\ (forall tr, items tr `prefix_of` handed -> StronglySorted ref_lt (delivered tr))
  /\ (forall start tr out, get_stream req outs start tr out -> rounds_answered tr ->
        Continuity.emitted out `prefix_of` Continuity.emitted handed
        /\ (forall batch r, Ok batch ∈ out -> batch_finalized_head batch = Some r ->
              Forall (fun b => number b <= br_number r)%N (batch_blocks batch)
              \/ (r ∈ block_ref <$> Continuity.emitted handed /\ justified tr r))
        /\ (legal_blocks handed -> legal_reports outs ->
              forall batch, Ok batch ∈ out -> validate_ingest_batch batch = Ok tt)).
Proof.
  set (cfg := stream_config (build options) req commitment) in *.
  assert (0 < ic_stride_size cfg) as Hsize by (simpl; lia).
  destruct (ingest_run_ok _ _ _ _ _ _ _ _ _ Hsize (ingest_init_ok _ _ _) Hevents Hrun Hwidth)
    as (_ & [Hn Hserved] & _ & Hok & _). cbn [fst snd] in *.
  destruct (continuity_holds (req_parent_hash req) (make_stream outs)) as (out & Eo & Hl & Hends & Hne).
  unfold get_finalized_stream in Hhanded. rewrite Eo in Hhanded. injection Hhanded as ->.
  destruct (before_error_emitted outs) as [rest1 E1].
  destruct (ends_properly_prefix _ _ _ _ Hends) as [rest2 E2].
  assert (Ingest.emitted outs = Continuity.emitted handed ++ (rest2 ++ rest1)) as Eall
    by by rewrite E1, E2, <- app_assoc.
  rewrite Eall in Hn. pose proof (count_from_prefix _ _ _ _ Hn) as Hnum.
  assert (forall batch r, Ok batch ∈ handed -> batch_finalized_head batch = Some r ->
    Forall (fun b => number b <= br_number r)%N (batch_blocks batch)) as Hcover.
  { intros batch r Hb Hr. destruct (reports_kept _ _ _ _ Eo Hb) as (src & k & Hsrc & Hrep & ->).
    apply stream_item in Hsrc. apply Forall_take. eapply Forall_forall in Hok; [|exact Hsrc].
    apply Hok. congruence. }
  assert (legal_blocks handed -> legal_reports outs ->
    forall batch, Ok batch ∈ handed -> validate_ingest_batch batch = Ok tt) as Hvalid.
  { intros Hlegal Hreports batch Hb. eapply (handed_over_valid (Value := Value)); [| | |exact Eo|exact Hb].
    + intros b Hin. destruct (Hlegal b Hin) as [[? ?] [? ?]].
      assert (served recover (ds_rpc_options (build options)) encode cfg b) as (raw & (clock & t & Hm) & _).
      { eapply Forall_forall in Hserved; [exact Hserved|]. rewrite Eall. set_solver. }
      by exists encode, clock, raw, t.
    + by eapply count_from_adjacent.
    + intros b Hin. apply stream_item in Hin. intros x Hx. by apply (Hreports b x). }
  assert (forall tr, items tr `prefix_of` handed -> StronglySorted ref_lt (delivered tr)) as Hsorted.
  { intros tr [rest Htr]. rewrite emitted_delivered. rewrite Htr, emitted_app in Hnum.
    eapply count_from_ascending, count_from_prefix, Hnum. }
  split_and!; [done..|]. intros start tr out (handed' & st & Eh & Hpre & Hfin & ->) Hrounds.
  unfold get_finalized_stream in Eh. rewrite Eo in Eh. injection Eh as <-.
  destruct (prober_passes handed start tr st Hpre (Hsorted tr Hpre) Hrounds Hfin) as [Hem Hpass].
  split_and!; [done| |].
  - intros batch r Hb Hr. destruct (Hpass batch Hb) as (item & Hitem & Hbl & Hrep). rewrite Hbl.
    destruct (batch_finalized_head item) as [r'|] eqn:Er.
    + left. apply (Hcover item r Hitem). congruence.
    + right. by destruct (Hrep r Hr).
  - intros Hlegal Hreports batch Hb. destruct (Hpass batch Hb) as (item & Hitem & Hbl & Hrep).
    pose proof (Hvalid Hlegal Hreports item Hitem) as Hv. destruct item as [blocks rep]. cbn in Hbl, Hrep.
    destruct rep as [r|].
    + destruct batch as [bs f]. cbn in Hbl, Hrep. by subst.
    + replace batch with (mkBlockBatch (batch_blocks (mkBlockBatch blocks None)) (batch_finalized_head batch))
        by (destruct batch; cbn in *; by subst).
      apply validate_reported; [done|]. intros x Hx.
      destruct (Hrep x Hx) as [_ (b & -> & Hin)%list_elem_of_fmap]. by destruct (Hlegal b Hin).
Qed.
End contract.

(** ** A stream, end to end *)

Definition demo_options : EvmRpcDataSourceOptions :=
  mkEvmRpcDataSourceOptions toy_options toy_request 2 2 false.

Definition demo_request : StreamRequest := mkStreamRequest 5 (Some 10%N) (Some (chain_hash 4)).

Definition demo_handed : option (list (Result BlockBatch StreamError)) :=
  match demo_run demo_events with Goes (_, outs) => get_finalized_stream demo_request outs | _ => None end.

Lemma adapter_stream_contract_witness :
  (fun handed => number <$> Continuity.emitted handed) <$> demo_handed = Some [5; 6; 7; 8; 9; 10]%N
  /\ forall s outs handed, demo_run demo_events = Goes (s, outs) ->
       get_finalized_stream demo_request outs = Some handed ->
       linked_from (Some (chain_hash 4)) (Continuity.emitted handed).
Proof.
  split; [vm_compute; reflexivity|]. intros s outs handed Hrun Hhanded.
  assert (length (Ingest.emitted outs) = 6) as Hlen.
  { assert (demo_seen demo_events = Some ([5; 6; 7; 8; 9; 10]%N, Finished)) as E by (vm_compute; reflexivity).
    unfold demo_seen in E. rewrite Hrun in E. injection E as E _. by rewrite <- (length_fmap number), E. }
  destruct (@adapter_stream_contract ToyJson toy_json hex_ref toy_keccak halves toy_trie (fun _ => Ok None)
    (fun _ => ""%string) demo_encode_raw demo_options demo_request "latest"%string demo_events s outs handed)
    as (_ & Hl & _); [exact demo_events_ok|exact Hrun|rewrite Hlen; by apply N.ltb_lt|exact Hhanded|exact Hl].
Defined.

(** The head stream over the same machine, its items taken one by one: the
    prober's guarantees apply, and it yields them all. *)
Definition demo_course (handed : list (Result BlockBatch StreamError)) : list FinalizeEvent :=
  (fun item => FItem (Some item)) <$> handed.

Example demo_head_stream :
  match demo_run demo_events with
  | Goes (_, outs) =>
      match get_finalized_stream demo_request outs with
      | Some handed =>
          items (demo_course handed) = handed
          /\ (fun s => number <$> Continuity.emitted (fs_out s)) <$> finalize_run (finalize_init 0) (demo_course handed)
             = Some [5; 6; 7; 8; 9; 10]%N
      | None => False
      end
  | _ => False
  end.
Proof. vm_compute. by split. Qed.
