(* ===== verification/Process.v ===== *)
(** * Process: the binary and the life of the service (evm-data-service/src/main.rs)

    The command line and what it configures; the transport an endpoint names;
    and how the process ends: what the ingestion run announces, the loop that
    waits for a signal or an announcement, and the exit code after the drain.

    The theorems: options that pass the startup check never fail a session;
    and, in whatever order announcements and signals arrive, the process leaves
    cleanly only for a signal that came first or for a run that was stopped. *)
From Stdlib Require Import QArith.
From S2P Require Import Prelude Ws Types RpcClient EvmTypes.
From S2P Require Import Chain Service ChainRefines Run FetchChecks Adapter.
Local Open Scope rust_scope.

(** ** The command line *)

Inductive CallFrameValidationArg : Type := ArgOff | ArgObserve | ArgReject.

#[export] Instance CallFrameValidationArg_eq_dec : EqDecision CallFrameValidationArg.
Proof. solve_decision. Defined.

(** [Args]: what clap leaves of the command line. A rate is a rational; clap
    parses it. *)
Record Args := mkArgs {
  arg_http_rpc : string;
  arg_http_rpc_max_batch_call_size : option N;
  arg_http_rpc_stride_size : nat;
  arg_http_rpc_stride_concurrency : nat;
  arg_http_rpc_rate_limit : option Q;
  arg_http_rpc_capacity : N;
  arg_http_rpc_timeout : N;
  arg_http_retry_internal_server_errors : bool;
  arg_block_cache_size : nat;
  arg_port : N;
  arg_finality_confirmation : option N;
  arg_with_receipts : bool;
  arg_with_traces : bool;
  arg_with_statediffs : bool;
  arg_use_trace_api : bool;
  arg_use_debug_api_for_statediffs : bool;
  arg_use_debug_trace_block_by_number : bool;
  arg_verify_block_hash : bool;
  arg_verify_tx_sender : bool;
  arg_verify_tx_root : bool;
  arg_verify_receipts_root : bool;
  arg_verify_withdrawals_root : bool;
  arg_verify_logs_bloom : bool;
  arg_call_frame_validation : CallFrameValidationArg;
  arg_skip_log_index_check : bool;
  arg_skip_cumulative_gas_used_check : bool;
  arg_use_gas_used_for_receipts_root : bool;
  arg_auto_adjust_finalized_head : bool;
  arg_profile_block_timings : bool
}.

(** What the attributes make clap refuse: a zero where the type is non-zero,
    and a flag without the ones it [requires]. *)
Definition args_accepted (a : Args) : bool :=
  negb (arg_http_rpc_capacity a =? 0)%N
  && negb (arg_block_cache_size a =? 0)
  && implb (arg_verify_receipts_root a) (arg_with_receipts a)
  && implb (arg_skip_cumulative_gas_used_check a) (arg_with_receipts a)
  && implb (arg_use_gas_used_for_receipts_root a)
       (arg_with_receipts a && arg_verify_receipts_root a).

Definition call_frame_mode (value : CallFrameValidationArg) : CallFrameValidationMode :=
  match value with ArgOff => Off | ArgObserve => Observe | ArgReject => Reject end.

Definition DEFAULT_REQUEST_CAPACITY : N := 10.
Definition default_rpc_capacity : N := DEFAULT_REQUEST_CAPACITY.

(** ** What it configures *)

(** Durations in nanoseconds. *)
Record RpcClientConfig := mkRpcClientConfig {
  cc_url : string;
  cc_max_batch_call_size : option N;
  cc_capacity : N;
  cc_rate_limit : option Q;
  cc_request_timeout : N;
  cc_retry_attempts : nat;
  cc_retry_schedule : list N;
  cc_retry_internal_server_errors : bool;
  cc_ws_pool_size : option nat
}.

Definition millis (n : N) : N := (n * 1000000)%N.

Definition RpcClientConfig_default : RpcClientConfig :=
  mkRpcClientConfig "http://localhost" None DEFAULT_REQUEST_CAPACITY None 0 0
    (millis <$> [10; 100; 500; 2000; 10000; 20000]%N) false None.

Definition rpc_client_config (a : Args) : RpcClientConfig :=
  mkRpcClientConfig (arg_http_rpc a) (arg_http_rpc_max_batch_call_size a) (arg_http_rpc_capacity a)
    (arg_http_rpc_rate_limit a) (millis (arg_http_rpc_timeout a)) 5
    (millis <$> [10; 100; 500; 2000; 10000; 20000]%N)
    (arg_http_retry_internal_server_errors a) None.

(** The parts of it the client's gate and its ladder read. *)
Definition gate_config (c : RpcClientConfig) : ClientConfig :=
  mkClientConfig (cc_max_batch_call_size c) (cc_capacity c) (cc_rate_limit c).
Definition ladder_config (c : RpcClientConfig) : LadderConfig :=
  mkLadderConfig (cc_retry_attempts c) (cc_retry_schedule c) (cc_retry_internal_server_errors c).

Definition rpc_options (a : Args) : RpcOptions :=
  mkRpcOptions (arg_finality_confirmation a) None None
    (arg_verify_block_hash a) (arg_verify_tx_sender a) (arg_verify_tx_root a)
    (arg_verify_receipts_root a) (arg_verify_withdrawals_root a) (arg_verify_logs_bloom a)
    (call_frame_mode (arg_call_frame_validation a))
    (negb (arg_skip_log_index_check a)) (negb (arg_skip_cumulative_gas_used_check a))
    (arg_use_gas_used_for_receipts_root a).

Definition data_request (a : Args) : DataRequest :=
  mkDataRequest (negb (arg_with_receipts a)) (arg_with_receipts a) (arg_with_traces a)
    (arg_with_statediffs a) (arg_use_trace_api a) (arg_use_debug_api_for_statediffs a)
    (arg_use_debug_trace_block_by_number a) (Some "60s"%string).

Definition source_options (a : Args) : EvmRpcDataSourceOptions :=
  mkEvmRpcDataSourceOptions (rpc_options a) (data_request a) (arg_http_rpc_stride_size a)
    (arg_http_rpc_stride_concurrency a) (arg_profile_block_timings a).

(** ** The transport an endpoint names *)

Inductive TransportKind : Type :=
  | HttpTransport (url : string) (capacity : N)
  | WsTransport (url : string) (pool_size : nat).

(** [url::Url::parse] and [scheme]: the url crate's. *)
Class Url := url_scheme : string -> option string.

(** [Semaphore::MAX_PERMITS]: tokio's. *)
Class Tokio := max_permits : N.

Section transport.
Context {Value : Type} `{Url} `{Tokio}.

Definition build_transport (url : string) (capacity : N) (ws_pool_size : nat)
    : Result TransportKind (RpcError (Value := Value)) :=
  match url_scheme url with
  | None => Err (Protocol (InvalidUrl url))
  | Some scheme =>
      if bool_decide (scheme ∈ ["http"; "https"]%string) then Ok (HttpTransport url capacity)
      else if bool_decide (scheme ∈ ["ws"; "wss"]%string) then Ok (WsTransport url ws_pool_size)
      else Err (Protocol (UnsupportedScheme scheme))
  end.

(** A client: its transport, its batch cap, its rate gate and its ladder. *)
Record Client := mkClient {
  cl_transport : TransportKind;
  cl_max_batch_call_size : N;
  cl_rate : option (Rate.RateMeter * Q);
  cl_ladder : LadderConfig
}.

Definition client_new (c : RpcClientConfig) : Result Client (RpcError (Value := Value)) :=
  let? (max_batch, rate) := try_new (gate_config c) in
  let? transport := build_transport (cc_url c) (N.min (cc_capacity c) max_permits)
                      (default Ws.DEFAULT_POOL_SIZE (cc_ws_pool_size c)) in
  Ok (mkClient transport max_batch rate (ladder_config c)).

(** Why [main] stops before the service runs. *)
Inductive ConfigError : Type :=
  | BadOptions (message : string)
  | BadClient (e : RpcError (Value := Value)).

(** [main] up to [run_data_service]: the checked options, the client and the
    source built over it. *)
Definition configure (a : Args) : Result (Client * EvmRpcDataSource) ConfigError :=
  let? _ := map_err BadOptions (validate_options (rpc_options a)) in
  let? client := map_err BadClient (client_new (rpc_client_config a)) in
  Ok (client, build (source_options a)).
End transport.

(** ** How a run is announced *)

(** The [started] watch: the values sent, oldest first; a watch keeps the
    last. *)
Definition announced (effects : list Effect) : list bool :=
  omap (fun e => match e with EStarted ok => Some ok | _ => None end) effects.

(** What [main] may wait for besides signals. *)
Inductive ExitError : Type :=
  | ECause (e : AnyError)
  | EFailedBeforeFirstBlock
  | EVanished
  | EDrain
  | EContext (context : string) (e : ExitError).

Inductive MainEvent : Type :=
  | Signal
  | StartedResolved (r : Result (Result unit ExitError) unit)
  | EndedResolved (r : Result RunEnd unit).

(** The task that forwards the watch to the handle. *)
Definition forward_started (effects : list Effect) : list MainEvent :=
  match last (announced effects) with
  | Some true => [StartedResolved (Ok (Ok tt))]
  | Some false => [StartedResolved (Ok (Err EFailedBeforeFirstBlock))]
  | None => []
  end.

(** The ingestion task's announcements after a run; a run that panicked drops
    its sender. *)
Definition announcements (r : option (RunState * option RunEnd)) : list MainEvent :=
  match r with
  | None => [EndedResolved (Err tt)]
  | Some (st, e) =>
      forward_started (sv_published (rs_service st))
      ++ match e with Some e => [EndedResolved (Ok e)] | None => [] end
  end.

(** ** How the process ends *)

Inductive ShutdownReason : Type :=
  | Clean
  | Failure (e : ExitError).

Definition STARTUP_FAILURE : string := "startup failure (FM-31)".
Definition TERMINAL_DIVERGENCE : string := "terminal divergence (FM-30)".
Definition INGESTION_VANISHED : string :=
  "ingestion task vanished before reporting how it ended (FM-32)".
Definition SUPERVISOR_VANISHED : string := "startup supervisor vanished (FM-32)".
Definition DRAIN_EXCEEDED : string := "service drain also exceeded the shutdown grace".

Definition classify_run_end (e : Result RunEnd unit) : ShutdownReason :=
  match e with
  | Ok Stopped => Clean
  | Ok (StartupFailure error) => Failure (EContext STARTUP_FAILURE (ECause error))
  | Ok (Terminal error) => Failure (EContext TERMINAL_DIVERGENCE (ECause error))
  | Err _ => Failure (EContext INGESTION_VANISHED EVanished)
  end.

(** [drained]: the drain ended within the grace. *)
Definition finish_shutdown (drained : bool) (reason : ShutdownReason) : Result unit ExitError :=
  match drained, reason with
  | true, Clean => Ok tt
  | true, Failure error => Err error
  | false, Clean => Err EDrain
  | false, Failure error => Err (EContext DRAIN_EXCEEDED error)
  end.

(** The loop of [main]: the [started] branch is disabled once it has resolved.
    [None]: still serving. *)
Fixpoint main_loop (started_done : bool) (events : list MainEvent) : option ShutdownReason :=
  match events with
  | [] => None
  | Signal :: _ => Some Clean
  | StartedResolved r :: events =>
      if started_done then main_loop started_done events
      else
        match r with
        | Ok (Ok _) => main_loop true events
        | Ok (Err error) => Some (Failure (EContext STARTUP_FAILURE error))
        | Err _ => Some (Failure (EContext SUPERVISOR_VANISHED EVanished))
        end
  | EndedResolved r :: _ => Some (classify_run_end r)
  end.

(** The process's exit code: 130 when a second signal arrives during the
    drain, Rust's 1 for an error of [main]. *)
Definition exit_code (second_signal drained : bool) (reason : ShutdownReason) : N :=
  if second_signal then 130
  else match finish_shutdown drained reason with Ok _ => 0 | Err _ => 1 end.

(** ** Configurations that start *)

Section configured.
Context {Value : Type} `{Url} `{Tokio}.

(** C20: What the startup check accepts never fails later: for a command line
    clap accepts, the option check refuses exactly the reject mode without its
    two verification switches; and when the configuration is built, the check
    every session makes of its options passes (receipt roots are verified only
    with receipts acquired), strides and their concurrency are positive, the
    buffer can be seeded, the client's capacity and batch cap are positive, and
    its five retries sleep 10, 100, 500, 2000 and 10000 ms. *)
Theorem startup_check_suffices (a : Args) (Hacc : args_accepted a = true) :
  ((exists m, configure (Value := Value) a = Err (BadOptions m)) <->
   arg_call_frame_validation a = ArgReject /\
   (arg_verify_tx_root a = false \/ arg_verify_tx_sender a = false)) /\
  (forall client ds, configure (Value := Value) a = Ok (client, ds) ->
     validate_request (ds_rpc_options ds) (ds_data_request ds) = Ok tt /\
     0 < ds_stride_size ds /\ 0 < ds_stride_concurrency ds /\
     0 < arg_block_cache_size a /\
     (0 < arg_http_rpc_capacity a)%N /\ (0 < cl_max_batch_call_size client)%N /\
     pauses (cl_ladder client) 0 (retry_attempts (cl_ladder client))
       = millis <$> [10; 100; 500; 2000; 10000]%N).
Proof.
  unfold args_accepted in Hacc. rewrite !andb_true_iff in Hacc.
  destruct Hacc as [[[[Hcap Hcache] Hroot] _] Hgas].
  apply negb_true_iff in Hcap, Hcache. apply N.eqb_neq in Hcap. apply Nat.eqb_neq in Hcache.
  assert (validate_options (rpc_options a) =
    if bool_decide (arg_call_frame_validation a = ArgReject)
       && (negb (arg_verify_tx_root a) || negb (arg_verify_tx_sender a))
    then Err "call-frame validation reject requires verify_tx_root and verify_tx_sender"%string
    else Ok tt) as Hopt.
  { unfold validate_options. cbn [rpc_options call_frame_validation verify_tx_root verify_tx_sender
      use_gas_used_for_receipts_root verify_receipts_root].
    replace (bool_decide (call_frame_mode (arg_call_frame_validation a) = Reject))
      with (bool_decide (arg_call_frame_validation a = ArgReject))
      by (by destruct (arg_call_frame_validation a)).
    case_match; [done|]. destruct (arg_use_gas_used_for_receipts_root a), (arg_verify_receipts_root a);
      try done. by destruct (arg_with_receipts a). }
  unfold configure. rewrite Hopt. split.
  - destruct (bool_decide (arg_call_frame_validation a = ArgReject)) eqn:Er; cbn [andb].
    + apply bool_decide_eq_true in Er. destruct (arg_verify_tx_root a), (arg_verify_tx_sender a);
        cbn [negb orb map_err]; (split; [intros [m Hm]; try by auto|intros [_ [|]]; try done; eauto]).
      revert Hm. by destruct (client_new _) as [c|e].
    + apply bool_decide_eq_false in Er. split; [|by intros [? _]]. cbn [map_err].
      intros [m Hm]. revert Hm. by destruct (client_new _) as [c|e].
  - intros client ds.
    destruct (bool_decide (arg_call_frame_validation a = ArgReject)
              && (negb (arg_verify_tx_root a) || negb (arg_verify_tx_sender a))); [done|]. cbn [map_err].
    destruct (client_new _) as [c|e] eqn:Ec; [|done]. cbn [map_err]. intros [= <- <-].
    unfold client_new in Ec.
    destruct (try_new (gate_config (rpc_client_config a))) as [[mb rate]|] eqn:Et; [|done].
    destruct (build_transport _ _ _); [|done]. injection Ec as <-.
    split_and!; [|cbn; lia..| |done].
    + unfold validate_request. cbn [build ds_rpc_options ds_data_request source_options
        eo_rpc_options eo_data_request].
      rewrite Hopt. cbn [rpc_options verify_receipts_root data_request rq_receipts].
      by destruct (arg_verify_receipts_root a), (arg_with_receipts a).
    + by apply try_new_max_batch in Et.
Qed.
End configured.

(** ** What a run announces *)

Lemma announced_app l1 l2 : announced (l1 ++ l2) = announced l1 ++ announced l2.
Proof. apply omap_app. Qed.

Lemma announced_effects bs inserted effects :
  ingested_effects bs inserted = Some effects -> announced effects = [].
Proof.
  revert effects. induction inserted as [|i inserted IH]; intros effects; cbn [ingested_effects];
    [by intros [= <-]|].
  destruct (bs !! index i) as [b|]; [|done].
  destruct (ingested_effects bs inserted) as [es|]; [|done]. intros [= <-].
  destruct (timestamp b) as [ts|].
  - exact (IH es eq_refl).
  - exact (IH es eq_refl).
Qed.

Lemma announced_update c updated : trigger_update_locked c = Some updated -> announced updated = [].
Proof. unfold trigger_update_locked. repeat (case_match; try done). by intros [= <-]. Qed.

(** A service tells the truth: it has announced its first block once, when it
    ingested it, and nothing before. *)
Definition truthful (s : Service) : Prop :=
  announced (sv_published s) = if sv_first_block_ingested s then [true] else [].

Lemma truthful_quiet s s' e :
  truthful s -> sv_first_block_ingested s' = sv_first_block_ingested s ->
  sv_published s' = sv_published s ++ e -> announced e = [] -> truthful s'.
Proof. unfold truthful. intros Hs -> -> He. by rewrite announced_app, He, app_nil_r. Qed.

Ltac quiet s := eapply (truthful_quiet s); [done|reflexivity|reflexivity|reflexivity].

Lemma ingest_batch_truthful now s batch s' r :
  truthful s -> ingest_batch now s batch = Some (s', r) -> truthful s'.
Proof.
  unfold ingest_batch. intros Hs. destruct (validate_ingest_batch batch); [|by intros [= <- _]].
  destruct (sv_chain s) as [c0|]; [|done].
  destruct (apply_batch_locked _ _ _ _) as [[[c1 fm] [ins|e]]|]; [| |done].
  2: { intros [= <- _]. by eapply truthful_quiet. }
  destruct (ingested_effects _ _) as [observed|] eqn:Eo; [|done].
  destruct (compact _) as [[c3 comp]|]; [|done].
  destruct (trigger_update_locked c3) as [updated|] eqn:Eu; [|done]. intros [= <- _].
  unfold truthful in *. cbn [sv_published sv_first_block_ingested].
  rewrite !announced_app. change (ECommit :: ?l) with ([ECommit] ++ l).
  rewrite !announced_app, Hs, (announced_effects _ _ _ Eo), (announced_update _ _ Eu).
  by destruct (last (batch_blocks batch)), (force_advanced_past comp), (sv_first_block_ingested s),
    (bool_decide (length ins = 0)).
Qed.

Lemma ingest_session_truthful s items s' r :
  truthful s -> ingest_session s items = Some (s', r) -> truthful s'.
Proof.
  revert s. induction items as [|i items IH]; intros s Hs; cbn [ingest_session]; [by intros [= <- _]|].
  destruct i as [| |[[|]|]|[] now b]; try by intros [= <- _].
  destruct (ingest_batch now s b) as [[s1 r1]|] eqn:E; [|done].
  pose proof (ingest_batch_truthful _ _ _ _ _ Hs E). destruct r1; [by apply IH|by intros [= <- _]].
Qed.

Lemma init_truthful n auto s a s' r : truthful s -> init n auto s a = Some (s', r) -> truthful s'.
Proof.
  unfold init. intros Hs. destruct (accept_seed n a) as [[seed|e]|]; [|by intros [= <- _]|done].
  destruct (prev ← sv_chain s; _); [by intros [= <- _]|].
  destruct (match sv_chain s with None => _ | Some _ => _ end) as [regression|] eqn:Er; [|done].
  destruct (chain_new seed n auto) as [c|]; [|done].
  destruct (trigger_update_locked c) as [updated|] eqn:Eu; [|done]. intros [= <- _].
  apply (truthful_quiet s _ (regression ++ updated)); [done|done|done|].
  rewrite announced_app, (announced_update _ _ Eu), app_nil_r.
  destruct (sv_chain s); [|by simplify_eq]. destruct (Chain.get_finalized_head _); [|done].
  simplify_eq/=. by case_match.
Qed.

(** What the run has announced when it stands where it stands. *)
Definition run_announces (s : Service) (e : option RunEnd) : Prop :=
  match e with
  | None | Some Stopped => truthful s
  | Some (StartupFailure _) =>
      sv_first_block_ingested s = false /\ announced (sv_published s) = [false]
  | Some (Terminal _) =>
      truthful s \/ sv_first_block_ingested s = false /\ announced (sv_published s) = [false]
  end.

Definition turn_announces (o : TurnOutcome) : Prop :=
  match o with
  | TurnNext st _ | TurnOpen st => truthful (rs_service st)
  | TurnEnded st e => run_announces (rs_service st) (Some e)
  end.

Lemma session_over_announces s base stacked stop r o :
  truthful s -> session_over s base stacked stop r = Some o -> turn_announces o.
Proof.
  assert (forall e1 e2 o, truthful s -> session_died s base stacked e1 e2 = Some o -> turn_announces o)
    as Hdied.
  { intros e1 e2 o' Ht. unfold session_died. cbn [reset_finalized_max sv_first_block_ingested].
    destruct (sv_first_block_ingested s) eqn:Ef; cbn [negb].
    - destruct (head_ref _); [|done]. intros [= <-]. quiet s.
    - intros [= <-]. unfold truthful in Ht. rewrite Ef in Ht. split; [exact Ef|].
      change (announced (sv_published s ++ [EStarted false]) = [false]). by rewrite announced_app, Ht. }
  intros Hs. unfold session_over. destruct stop; [by intros [= <-]|].
  destruct r as [|[refs|e]]; [by apply Hdied| |by apply Hdied].
  unfold session_forked. destruct (sv_chain s) as [c|]; [|done].
  destruct (get_fork_base c refs) as [[fb|]|]; [| |done].
  - intros [= <-]. quiet s.
  - destruct (Chain.get_finalized_head c); [|done]. intros [= <-].
    destruct (sv_first_block_ingested s) eqn:Ef; [left|right].
    + quiet s.
    + unfold truthful in Hs. rewrite Ef in Hs. split; [exact Ef|].
      change (announced (sv_published s ++ [ETerminalState; EStarted false]) = [false]).
      by rewrite announced_app, Hs.
Qed.

Lemma session_turn_announces s base stacked i o :
  truthful s -> session_turn s base stacked i = Some o -> turn_announces o.
Proof.
  intros Hs. unfold session_turn.
  destruct (ingest_session s (ti_items i)) as [[s' [r|]]|] eqn:E; [| |done];
    pose proof (ingest_session_truthful _ _ _ _ Hs E).
  - by apply session_over_announces.
  - by intros [= <-].
Qed.

Lemma run_turn_announces n auto st i o :
  truthful (rs_service st) -> run_turn n auto st i = Some o -> turn_announces o.
Proof.
  intros Hs. unfold run_turn. destruct (ti_stop_before i); [by intros [= <-]|].
  destruct (5 <? rs_stacked st)%N; [|by apply session_turn_announces].
  destruct (init n auto _ _) as [[s' [[]|e]]|] eqn:E; [| |done];
    pose proof (init_truthful _ _ (reset_finalized_max (rs_service st)) _ _ _ Hs E) as Hs'.
  - destruct (head_ref _); [|done]. apply session_turn_announces. quiet s'.
  - destruct (is_divergent_reseed e).
    + intros [= <-]. left. quiet s'.
    + by apply session_over_announces.
Qed.

Lemma run_announces_ok n auto st turns st' e :
  truthful (rs_service st) -> run n auto st turns = Some (st', e) -> run_announces (rs_service st') e.
Proof.
  revert st. induction turns as [|i turns IH]; intros st Hs; cbn [run]; [by intros [= <- <-]|].
  destruct (run_turn n auto st i) as [o|] eqn:E; [|done].
  pose proof (run_turn_announces _ _ _ _ _ Hs E). destruct o; [by apply IH|by intros [= <- <-]..].
Qed.

Lemma run_total n auto st turns :
  service_ok (rs_service st) -> exists st' e, run n auto st turns = Some (st', e).
Proof.
  revert st. induction turns as [|i turns IH]; intros st Hs; cbn [run]; [by do 2 eexists|].
  destruct (run_turn_ok n auto st i Hs) as (o & -> & Hs' & _).
  destruct o as [st' p|st' e|st']; [by apply IH|by do 2 eexists..].
Qed.

(** ** The loop *)

Lemma main_loop_decided started events reason :
  main_loop started events = Some reason ->
  (Signal ∈ events /\ reason = Clean) \/
  (exists r, EndedResolved r ∈ events /\ reason = classify_run_end r) \/
  (exists error, StartedResolved (Ok (Err error)) ∈ events /\
     reason = Failure (EContext STARTUP_FAILURE error)) \/
  (StartedResolved (Err tt) ∈ events /\ reason = Failure (EContext SUPERVISOR_VANISHED EVanished)).
Proof.
  revert started. induction events as [|ev events IH]; intros started; cbn [main_loop]; [done|].
  assert (forall b, main_loop b events = Some reason ->
    (Signal ∈ ev :: events /\ reason = Clean) \/
    (exists r, EndedResolved r ∈ ev :: events /\ reason = classify_run_end r) \/
    (exists error, StartedResolved (Ok (Err error)) ∈ ev :: events /\
       reason = Failure (EContext STARTUP_FAILURE error)) \/
    (StartedResolved (Err tt) ∈ ev :: events /\
       reason = Failure (EContext SUPERVISOR_VANISHED EVanished))) as Hrest.
  { intros b Hb. destruct (IH b Hb) as [[? ?]|[(r & ? & ?)|[(er & ? & ?)|[? ?]]]].
    - left. split; [by right|done].
    - right; left. exists r. split; [by right|done].
    - right; right; left. exists er. split; [by right|done].
    - right; right; right. split; [by right|done]. }
  destruct ev as [|r|r].
  - intros [= <-]. left. split; [by left|done].
  - destruct started; [by apply Hrest|]. destruct r as [[[]|er]|[]]; [by apply Hrest|..].
    + intros [= <-]. right; right; left. exists er. split; [by left|done].
    + intros [= <-]. right; right; right. split; [by left|done].
  - intros [= <-]. right; left. exists r. split; [by left|done].
Qed.

Lemma main_loop_open started events :
  main_loop started events = None ->
  Signal ∉ events /\ (forall r, EndedResolved r ∉ events) /\
  (started = false -> StartedResolved (Ok (Ok tt)) ∉ events ->
   forall r, StartedResolved r ∉ events).
Proof.
  revert started. induction events as [|ev events IH]; intros started; cbn [main_loop].
  { intros _. split_and!; intros; apply not_elem_of_nil. }
  destruct ev as [|r|r]; [done| |done]. intros Hl.
  assert (exists b, main_loop b events = None) as [b Hb].
  { destruct started; [by eexists|]. by destruct r as [[[]|]|]; [eexists|..]. }
  destruct (IH b Hb) as (Hsig & Hend & _). split_and!.
  - by rewrite not_elem_of_cons.
  - intros r'. by rewrite not_elem_of_cons.
  - intros -> Hno. destruct r as [[[]|]|]; [|done..]. destruct Hno. by left.
Qed.

(** Of two elements, one comes first. *)
Lemma first_of_two {A} (pre pre' post post' : list A) x y :
  pre ++ x :: post = pre' ++ y :: post' -> x <> y -> y ∉ pre -> x ∉ pre' -> False.
Proof.
  revert pre'. induction pre as [|z pre IH]; intros [|z' pre'] Heq Hne Hy Hx;
    cbn in Heq; injection Heq as Hz Heq; rewrite ?not_elem_of_cons in *; naive_solver.
Qed.

(** A clean exit is decided by the first of the signals and the announced end. *)
Lemma main_loop_clean started events :
  main_loop started events = Some Clean ->
  (exists pre post, events = pre ++ Signal :: post /\ forall r, EndedResolved r ∉ pre) \/
  EndedResolved (Ok Stopped) ∈ events.
Proof.
  revert started. induction events as [|ev events IH]; intros started; cbn [main_loop]; [done|].
  destruct ev as [|r|r].
  - left. exists [], events. split; [done|]. intros r. apply not_elem_of_nil.
  - intros Hl. assert (exists b, main_loop b events = Some Clean) as [b Hb].
    { destruct started; [by eexists|]. by destruct r as [[[]|]|]; [eexists|..]. }
    destruct (IH b Hb) as [(pre & post & -> & Hpre)|Hin]; [left|right; by right].
    exists (StartedResolved r :: pre), post. split; [done|]. intros r'. by rewrite not_elem_of_cons.
  - intros [= Hr]. right. destruct r as [[]|]; try done. by left.
Qed.

(** A failure [main] reports for a run that ended so: the end's own error
    under its context, or, before the first block, the startup failure the
    supervisor announced. *)
Definition failure_of (s : Service) (e : option RunEnd) (err : ExitError) : Prop :=
  match e with
  | Some (StartupFailure a) =>
      err = EContext STARTUP_FAILURE (ECause a) \/ err = EContext STARTUP_FAILURE EFailedBeforeFirstBlock
  | Some (Terminal a) =>
      err = EContext TERMINAL_DIVERGENCE (ECause a) \/
      sv_first_block_ingested s = false /\ err = EContext STARTUP_FAILURE EFailedBeforeFirstBlock
  | _ => False
  end.

Lemma announcements_run st e ev :
  run_announces (rs_service st) e -> ev ∈ announcements (Some (st, e)) ->
  match ev with
  | Signal => False
  | StartedResolved r =>
      r = Ok (Ok tt) \/ r = Ok (Err EFailedBeforeFirstBlock) /\
        failure_of (rs_service st) e (EContext STARTUP_FAILURE EFailedBeforeFirstBlock)
  | EndedResolved r => exists e', e = Some e' /\ r = Ok e'
  end.
Proof.
  intros Hr. cbn [announcements]. rewrite elem_of_app. intros [Hin|Hin].
  - unfold forward_started in Hin. unfold run_announces, truthful, failure_of in *.
    destruct e as [[|a|a]|].
    all: repeat match goal with
      | H : _ \/ _ |- _ => destruct H
      | H : _ /\ _ |- _ => destruct H
      | H : announced _ = _ |- _ => rewrite H in Hin; clear H
      end; try destruct (sv_first_block_ingested _); cbn in Hin;
      first [apply list_elem_of_singleton in Hin as ->|by apply elem_of_nil in Hin]; auto.
  - destruct e as [e|]; [|by apply elem_of_nil in Hin].
    apply list_elem_of_singleton in Hin as ->. by exists e.
Qed.

(** C12: The process exits as its ingestion deserves. Whatever turns the run
    takes from a seeded buffer, and in whatever order signals and the run's
    announcements arrive: the run does not panic, so an ingestion task that
    vanishes is never seen; [main] keeps serving only while no signal and no end
    has arrived; it leaves cleanly only for a signal that came before the run's
    announced end, or for a run that was stopped, and with a failure only for a
    run that ended in one, reported under the context of its class. A run that
    died, its end announced before any signal, always takes the process down
    with its failure, and so does one whose announcements are all heard without
    a signal; the exit code is 0 exactly for a clean reason whose drain ended
    within the grace with no second signal. *)
Theorem exit_justified (n : nat) (auto : bool) (st : RunState) (turns : list TurnInput)
    (events : list MainEvent) (drained second_signal : bool)
    (Hok : service_ok (rs_service st)) (Hfresh : truthful (rs_service st))
    (Hheard : forall ev, ev ∈ events -> ev = Signal \/ ev ∈ announcements (run n auto st turns)) :
  exists st' e,
    run n auto st turns = Some (st', e) /\
    (main_loop false events = None -> Signal ∉ events /\ forall r, EndedResolved r ∉ events) /\
    (forall reason, main_loop false events = Some reason ->
       (exit_code second_signal drained reason = 0%N <->
        second_signal = false /\ drained = true /\ reason = Clean) /\
       match reason with
       | Clean =>
           (exists pre post, events = pre ++ Signal :: post /\ forall r, EndedResolved r ∉ pre) \/
           e = Some Stopped
       | Failure err => failure_of (rs_service st') e err
       end) /\
    (forall pre r post, events = pre ++ EndedResolved r :: post -> Signal ∉ pre ->
       match e with
       | Some Stopped => main_loop false events = Some Clean
       | _ => exists err, main_loop false events = Some (Failure err) /\
                exit_code second_signal drained (Failure err) <> 0%N
       end) /\
    (Signal ∉ events -> announcements (run n auto st turns) ⊆ events ->
       match e with
       | None => main_loop false events = None
       | Some Stopped => main_loop false events = Some Clean
       | Some _ => exists err, main_loop false events = Some (Failure err)
       end).
Proof.
  destruct (run_total n auto st turns Hok) as (st' & e & E). rewrite E in *.
  exists st', e. split; [done|]. pose proof (run_announces_ok _ _ _ _ _ _ Hfresh E) as Ha.
  assert (forall ev, ev ∈ events -> ev <> Signal -> ev ∈ announcements (Some (st', e))) as Hh.
  { intros ev Hin Hne. by destruct (Hheard ev Hin). }
  assert (forall reason, main_loop false events = Some reason ->
    match reason with
    | Clean =>
        (exists pre post, events = pre ++ Signal :: post /\ forall r, EndedResolved r ∉ pre) \/
        e = Some Stopped
    | Failure err => failure_of (rs_service st') e err
    end) as Hreason.
  { intros [|err] Hl.
    - destruct (main_loop_clean _ _ Hl) as [?|Hin]; [by left|right].
      apply Hh in Hin; [|done]. apply (announcements_run _ _ _ Ha) in Hin as (e' & -> & Hin). congruence.
    - destruct (main_loop_decided _ _ _ Hl) as [[_ ?]|[(r & Hin & Hr)|[(er & Hin & Hr)|[Hin Hr]]]]; [done|..];
        apply Hh in Hin; try done; apply (announcements_run _ _ _ Ha) in Hin.
      + destruct Hin as (e' & -> & ->). destruct e'; simpl in Hr; simplify_eq; by left.
      + destruct Hin as [?|[? ?]]; by simplify_eq.
      + destruct Hin as [?|[? _]]; by simplify_eq. }
  split_and!.
  - intros Hl. by apply main_loop_open in Hl as (? & ? & _).
  - intros reason Hl. split; [|by apply Hreason].
    unfold exit_code, finish_shutdown. destruct second_signal, drained, reason; naive_solver.
  - intros pre r post Hev Hpre. destruct (main_loop false events) as [reason|] eqn:El.
    2:{ apply main_loop_open in El as (_ & Hend & _). destruct (Hend r). rewrite Hev.
        apply elem_of_app. right. by left. }
    specialize (Hreason reason eq_refl). destruct reason as [|err].
    + destruct Hreason as [(pre' & post' & Hev' & Hno)| ->]; [exfalso|done].
      rewrite Hev in Hev'. by eapply (first_of_two pre).
    + destruct e as [[]|]; [done|by eexists; split; [|destruct second_signal, drained]..|done].
  - intros Hs Hall. destruct (main_loop false events) as [reason|] eqn:El.
    + specialize (Hreason reason eq_refl). destruct reason as [|err].
      * destruct Hreason as [(pre & post & -> & _)| ->]; [|done].
        destruct Hs. apply elem_of_app. right. by left.
      * destruct e as [[]|]; [done|by eexists..|done].
    + apply main_loop_open in El as (_ & Hend & _). destruct e as [e|]; [|done].
      destruct (Hend (Ok e)). apply Hall. cbn [announcements]. apply elem_of_app. right. by left.
Qed.

(** ** Concrete processes *)

Definition toy_url : Url := fun url =>
  if String.prefix "http:" url then Some "http"%string
  else if String.prefix "ws:" url then Some "ws"%string else None.
Definition toy_tokio : Tokio := 1000%N.

Definition demo_args : Args :=
  mkArgs "http://localhost:8545" None 0 5 None 10 10000 false 1000 3000 None
    true false false false false false true true true true false false ArgReject false false false
    false false.

Definition demo_configured : Result (Client * EvmRpcDataSource) (ConfigError (Value := nat)) :=
  @configure nat toy_url toy_tokio demo_args.

Lemma startup_check_suffices_witness :
  exists client ds, demo_configured = Ok (client, ds) /\
    validate_request (ds_rpc_options ds) (ds_data_request ds) = Ok tt /\ 0 < ds_stride_size ds.
Proof.
  destruct (@startup_check_suffices nat toy_url toy_tokio demo_args eq_refl) as [_ Hok].
  destruct demo_configured as [[client ds]|] eqn:E; [|by vm_compute in E].
  exists client, ds. destruct (Hok client ds E) as (H1 & H2 & _). by split_and!.
Defined.

(** The demonstration run ends in terminal divergence; [main] sees it and the
    process exits 1 even though the drain succeeds. *)
Lemma exit_justified_witness :
  exists err, main_loop false (announcements (run 4 false demo_state demo_turns)) = Some (Failure err) /\
    exit_code false true (Failure err) = 1%N.
Proof.
  assert (service_ok demo_service) as Hr by (exists demo_chain; exact demo_ready).
  destruct (exit_justified 4 false demo_state demo_turns
    (announcements (run 4 false demo_state demo_turns)) true false Hr) as (st' & e & E & _ & _ & _ & Hall).
  - vm_compute. reflexivity.
  - intros ev Hin. by right.
  - vm_compute in E. injection E as <- <-. destruct Hall as [err Herr]; [|done|by exists err].
    intros Hin. vm_compute in Hin.
    repeat (apply elem_of_cons in Hin as [Hin|Hin]; [discriminate Hin|]). by apply elem_of_nil in Hin.
Defined.
