(* ===== verification/Normalize.v ===== *)
(** * Normalize: from the node's records to the service's (normalization.rs)

    The rest of [normalization.rs]: transactions with their receipts, logs,
    trace-API frames, state diffs, headers, and [map_rpc_block], which puts a
    block together. JSON maps are association lists in the node's order; the
    text of an address is ASCII where it is lower-cased (see [Frames]); the
    parser of a floating-point number is a parameter. The theorems: every
    record is attributed to its transaction and none is lost or invented; the
    state diffs list each changed slot once, with the right kind; and a revert
    reason is read back as the contract encoded it. *)
From stdpp Require Import pretty.
From Stdlib Require Import Strings.Ascii.
From S2P Require Import Prelude RpcClient RpcData Rlp Frames EvmTypes RawBlock TxEncode FetchChecks Components.

Local Open Scope rust_scope.

(** ** Output records *)

Record NormalizedWithdrawal := mkNormalizedWithdrawal {
  nw_index : string; nw_validator_index : string; nw_address : string; nw_amount : string
}.

Record NormalizedHeader := mkNormalizedHeader {
  nh_number : N; nh_hash : string; nh_parent_hash : string; nh_timestamp : N;
  nh_transactions_root : string; nh_receipts_root : string; nh_state_root : string;
  nh_logs_bloom : string; nh_sha3_uncles : string; nh_extra_data : string; nh_miner : string;
  nh_nonce : option string; nh_mix_hash : option string; nh_size : N;
  nh_gas_limit : string; nh_gas_used : string; nh_difficulty : option string;
  nh_total_difficulty : option string; nh_base_fee_per_gas : option string;
  nh_uncles : option (list string); nh_withdrawals : option (list NormalizedWithdrawal);
  nh_withdrawals_root : option string; nh_blob_gas_used : option string;
  nh_excess_blob_gas : option string; nh_parent_beacon_block_root : option string;
  nh_requests_hash : option string; nh_l1_block_number : option N;
  nh_main_block_general_gas_limit : option string; nh_shared_gas_limit : option string;
  nh_timestamp_millis_part : option string
}.

Record NormalizedAccessListItem := mkNormalizedAccessListItem {
  na_address : string; na_storage_keys : list string
}.

Record NormalizedEIP7702Authorization := mkNormalizedEIP7702Authorization {
  ne_chain_id : string; ne_address : string; ne_nonce : string; ne_y_parity : N;
  ne_r : string; ne_s : string
}.

Record NormalizedTempoCall := mkNormalizedTempoCall {
  ntc_to : option string; ntc_value : string; ntc_input : string
}.

Inductive NormalizedTempoPrimitiveSig : Type :=
  | NSecp256k1 (r s : string) (y_parity v : option N)
  | NP256 (r s pub_key_x pub_key_y : string) (pre_hash : bool)
  | NWebAuthn (r s pub_key_x pub_key_y webauthn_data : string).

Record NormalizedTempoKeychainSig := mkNormalizedTempoKeychainSig {
  ntk_user_address : string; ntk_signature : NormalizedTempoPrimitiveSig; ntk_version : option string
}.

Inductive NormalizedTempoSig : Type :=
  | NKeychain (s : NormalizedTempoKeychainSig)
  | NPrimitive (s : NormalizedTempoPrimitiveSig).

Record NormalizedTempoSignedAuth := mkNormalizedTempoSignedAuth {
  nsa_chain_id : string; nsa_address : string; nsa_nonce : N; nsa_signature : NormalizedTempoSig
}.

Record NormalizedTempoTokenLimit := mkNormalizedTempoTokenLimit {
  ntl_token : string; ntl_limit : string
}.

Record NormalizedTempoKeyAuth := mkNormalizedTempoKeyAuth {
  nka_chain_id : string; nka_key_type : string; nka_key_id : string; nka_expiry : option string;
  nka_limits : option (list NormalizedTempoTokenLimit); nka_signature : NormalizedTempoPrimitiveSig
}.

Record NormalizedFeePayerSig := mkNormalizedFeePayerSig { nfp_v : N; nfp_r : string; nfp_s : string }.

(** [F64]: the type of a parsed [f64]. *)
Record NormalizedTransaction {F64 : Type} := mkNormalizedTransaction {
  nt_transaction_index : N; nt_hash : string; nt_nonce : N; nt_from : string;
  nt_to : option string; nt_input : option string; nt_value : option string; nt_tx_type : option N;
  nt_gas : string; nt_gas_price : option string; nt_max_fee_per_gas : option string;
  nt_max_priority_fee_per_gas : option string; nt_v : option string; nt_r : option string;
  nt_s : option string; nt_y_parity : option N;
  nt_access_list : option (list NormalizedAccessListItem); nt_chain_id : option N;
  nt_max_fee_per_blob_gas : option string; nt_blob_versioned_hashes : option (list string);
  nt_authorization_list : option (list NormalizedEIP7702Authorization);
  nt_calls : option (list NormalizedTempoCall); nt_nonce_key : option string;
  nt_signature : option NormalizedTempoSig; nt_fee_token : option string;
  nt_fee_payer_signature : option NormalizedFeePayerSig; nt_valid_before : option string;
  nt_valid_after : option string; nt_aa_authorization_list : option (list NormalizedTempoSignedAuth);
  nt_key_authorization : option NormalizedTempoKeyAuth;
  nt_contract_address : option string; nt_cumulative_gas_used : option string;
  nt_effective_gas_price : option string; nt_gas_used : option string; nt_logs_bloom : option string;
  nt_status : option N; nt_blob_gas_used : option string; nt_blob_gas_price : option string;
  nt_l1_base_fee_scalar : option N; nt_l1_blob_base_fee : option string;
  nt_l1_blob_base_fee_scalar : option N; nt_l1_fee : option string; nt_l1_fee_scalar : option F64;
  nt_l1_gas_price : option string; nt_l1_gas_used : option string
}.
Arguments NormalizedTransaction : clear implicits.
Arguments mkNormalizedTransaction {F64}.

Record NormalizedLog := mkNormalizedLog {
  nl_log_index : N; nl_transaction_index : N; nl_transaction_hash : string; nl_address : string;
  nl_data : string; nl_topics : list string
}.

Record NormalizedTraceCallAction := mkNormalizedTraceCallAction {
  nca_from : string; nca_to : string; nca_value : option string; nca_gas : string;
  nca_input : string; nca_call_type : string
}.

Inductive NormalizedTraceAction : Type :=
  | NActionCreate (a : NormalizedTraceCreateAction)
  | NActionCall (a : NormalizedTraceCallAction)
  | NActionReward (a : NormalizedTraceRewardAction)
  | NActionSelfdestruct (a : NormalizedTraceSelfdestructAction).

Record NormalizedTraceApi := mkNormalizedTraceApi {
  ta_transaction_index : N; ta_trace_address : list N; ta_trace_type : string; ta_subtraces : N;
  ta_error : option string; ta_revert_reason : option string; ta_action : NormalizedTraceAction;
  ta_result : option NormalizedTraceResult
}.

Inductive NormalizedTrace : Type :=
  | TraceApi (t : NormalizedTraceApi)
  | Debug (t : NormalizedDebugTrace).

Record NormalizedStateDiff := mkNormalizedStateDiff {
  sd_transaction_index : N; sd_diff_address : string; sd_key : string; sd_kind : string;
  sd_prev : option string; sd_next : option string
}.

Record NormalizedBlock {F64 : Type} := mkNormalizedBlock {
  nb_header : NormalizedHeader;
  nb_transactions : list (NormalizedTransaction F64);
  nb_logs : list NormalizedLog;
  nb_traces : option (list NormalizedTrace);
  nb_state_diffs : option (list NormalizedStateDiff)
}.
Arguments NormalizedBlock : clear implicits.
Arguments mkNormalizedBlock {F64}.

(** ** Transactions *)

Definition parse_qty_u128_str (s : string) : N :=
  match from_str_radix_16 u128_max (strip_0x s) with Ok n => n | Err _ => 0 end.

Definition map_access_list_item (src : AccessListItem) : NormalizedAccessListItem :=
  mkNormalizedAccessListItem (address src) (storage_keys src).

Definition map_eip7702_auth (src : EIP7702AuthorizationItem) : NormalizedEIP7702Authorization :=
  match src with
  | AuthFrontier a =>
      mkNormalizedEIP7702Authorization (to_qty (fe_chain_id a)) (fe_address a)
        (pretty (parse_qty_u128_str (fe_nonce a)))
        (if fs_odd_y_parity (fe_signature a) then 1 else 0)
        (fs_r (fe_signature a)) (fs_s (fe_signature a))
  | AuthStandard a =>
      mkNormalizedEIP7702Authorization (ea_chain_id a) (ea_address a)
        (pretty (parse_qty_u128_str (ea_nonce a))) (qty2_u64 (ea_y_parity a)) (ea_r a) (ea_s a)
  end.

Definition map_tempo_primitive_sig (src : TempoPrimitiveSignature) : NormalizedTempoPrimitiveSig :=
  match src with
  | Secp256k1 r s y_parity v => NSecp256k1 r s (qty2_u64 <$> y_parity) (qty2_u64 <$> v)
  | P256 r s pub_key_x pub_key_y pre_hash => NP256 r s pub_key_x pub_key_y pre_hash
  | WebAuthn r s pub_key_x pub_key_y webauthn_data =>
      NWebAuthn r s pub_key_x pub_key_y webauthn_data
  end.

Definition map_tempo_sig (src : TempoSignatureObject) : NormalizedTempoSig :=
  match src with
  | Keychain k =>
      NKeychain (mkNormalizedTempoKeychainSig (to_lowercase (tk_user_address k))
                   (map_tempo_primitive_sig (tk_signature k)) (tk_version k))
  | Primitive p => NPrimitive (map_tempo_primitive_sig p)
  end.

Definition map_tempo_call (c : TempoCall) : NormalizedTempoCall :=
  mkNormalizedTempoCall (to_lowercase <$> tc_to c) (tc_value c) (tc_input c).

Definition map_tempo_auth (a : TempoSignedAuthorization) : NormalizedTempoSignedAuth :=
  mkNormalizedTempoSignedAuth (tsa_chain_id a) (to_lowercase (tsa_address a))
    (qty2_u64 (tsa_nonce a)) (map_tempo_sig (tsa_signature a)).

Definition map_tempo_limit (l : TempoTokenLimit) : NormalizedTempoTokenLimit :=
  mkNormalizedTempoTokenLimit (to_lowercase (ttl_token l)) (ttl_limit l).

Definition map_key_auth (ka : TempoSignedKeyAuthorization) : NormalizedTempoKeyAuth :=
  mkNormalizedTempoKeyAuth (tka_chain_id ka) (tka_key_type ka) (to_lowercase (tka_key_id ka))
    (tka_expiry ka) (map map_tempo_limit <$> tka_limits ka)
    (map_tempo_primitive_sig (tka_signature ka)).

Definition map_fee_payer (fp : FeePayerSignature) : NormalizedFeePayerSig :=
  mkNormalizedFeePayerSig (qty2_u64 (fp_v fp)) (fp_r fp) (fp_s fp).

Section transaction.
Context {F64 : Type} (parse_f64 : string -> option F64).

Definition map_transaction (src : RpcTransaction) (receipt : option RpcReceipt)
    : NormalizedTransaction F64 :=
  mkNormalizedTransaction
    (qty2_u64 (tx_transaction_index src)) (tx_hash src) (qty2_u64 (tx_nonce src))
    (to_lowercase (tx_from src)) (to_lowercase <$> tx_to src) (tx_input src) (tx_value src)
    (qty2_u64 <$> tx_tx_type src) (tx_gas src) (tx_gas_price src) (tx_max_fee_per_gas src)
    (tx_max_priority_fee_per_gas src) (tx_v src) (tx_r src) (tx_s src)
    (qty2_u64 <$> tx_y_parity src)
    (map map_access_list_item <$> tx_access_list src)
    (tx_chain_id src ≫= safe_qty2_u64) (tx_max_fee_per_blob_gas src) (tx_blob_versioned_hashes src)
    (map map_eip7702_auth <$> tx_authorization_list src)
    (map map_tempo_call <$> tx_calls src) (tx_nonce_key src)
    (map_tempo_sig <$> tx_signature src) (to_lowercase <$> tx_fee_token src)
    (map_fee_payer <$> tx_fee_payer_signature src) (tx_valid_before src) (tx_valid_after src)
    (map map_tempo_auth <$> tx_aa_authorization_list src)
    (map_key_auth <$> tx_key_authorization src)
    (to_lowercase <$> (receipt ≫= rcpt_contract_address))
    (rcpt_cumulative_gas_used <$> receipt) (receipt ≫= rcpt_effective_gas_price)
    (rcpt_gas_used <$> receipt) (rcpt_logs_bloom <$> receipt)
    (qty2_u64 <$> (receipt ≫= rcpt_status)) (receipt ≫= rcpt_blob_gas_used)
    (receipt ≫= rcpt_blob_gas_price) (qty2_u64 <$> (receipt ≫= rcpt_l1_base_fee_scalar))
    (receipt ≫= rcpt_l1_blob_base_fee) (qty2_u64 <$> (receipt ≫= rcpt_l1_blob_base_fee_scalar))
    (receipt ≫= rcpt_l1_fee) ((receipt ≫= rcpt_l1_fee_scalar) ≫= parse_f64)
    (receipt ≫= rcpt_l1_gas_price) (receipt ≫= rcpt_l1_gas_used).
End transaction.

Definition map_log (src : RpcLog) : NormalizedLog :=
  mkNormalizedLog (qty2_u64 (log_log_index src)) (qty2_u64 (log_transaction_index src))
    (log_transaction_hash src) (to_lowercase (log_address src)) (log_data src) (log_topics src).

(** ** The header *)

Definition map_withdrawal (w : RpcWithdrawal) : NormalizedWithdrawal :=
  mkNormalizedWithdrawal (w_index w) (w_validator_index w) (w_address w) (w_amount w).

Definition map_block_header (src : RpcBlock) : NormalizedHeader :=
  mkNormalizedHeader (qty2_u64 (blk_number src)) (blk_hash src) (blk_parent_hash src)
    (qty2_u64 (blk_timestamp src)) (blk_transactions_root src) (blk_receipts_root src)
    (blk_state_root src) (blk_logs_bloom src) (blk_sha3_uncles src) (blk_extra_data src)
    (blk_miner src) (blk_nonce src) (blk_mix_hash src) (qty2_u64 (blk_size src))
    (blk_gas_limit src) (blk_gas_used src) (blk_difficulty src) (blk_total_difficulty src)
    (blk_base_fee_per_gas src) (Some (blk_uncles src))
    (map map_withdrawal <$> blk_withdrawals src) (blk_withdrawals_root src)
    (blk_blob_gas_used src) (blk_excess_blob_gas src) (blk_parent_beacon_block_root src)
    (blk_requests_hash src) (qty2_u64 <$> blk_l1_block_number src)
    (blk_main_block_general_gas_limit src) (blk_shared_gas_limit src)
    (blk_timestamp_millis_part src).

(** ** Trace-API frames *)

Definition map_trace_action (src : TraceAction) : NormalizedTraceAction :=
  match src with
  | RawBlock.ActionCreate c =>
      NActionCreate (mkCreateAction (to_lowercase (tac_from c)) (Some (tac_value c)) (tac_gas c)
                       (tac_init c) (tac_creation_method c))
  | RawBlock.ActionCall c =>
      NActionCall (mkNormalizedTraceCallAction (to_lowercase (ta_from c)) (to_lowercase (ta_to c))
                     (Some (ta_value c)) (ta_gas c) (ta_input c) (ta_call_type c))
  | RawBlock.ActionReward r =>
      NActionReward (mkRewardAction (to_lowercase (tar_author r)) (tar_value r) (tar_reward_type r))
  | RawBlock.ActionSelfdestruct s =>
      NActionSelfdestruct (mkSelfdestructAction (to_lowercase (tas_address s))
                             (to_lowercase (tas_refund_address s)) (Some (tas_balance s)))
  end.

Definition map_trace_result (src : option TraceResult) : option NormalizedTraceResult :=
  let! src := src in
  match src with
  | RawBlock.ResultCall c =>
      Some (Frames.ResultCall (mkCallResult (Some (tr_gas_used c)) (Some (tr_output c))))
  | RawBlock.ResultCreate c =>
      Some (Frames.ResultCreate (mkCreateResult (trc_gas_used c) (Some (trc_code c))
                                   (Some (to_lowercase (trc_address c)))))
  end.

(** Pairs of hex digits, up to the first that is not one. *)
Fixpoint decode_hex_node_style (s : string) : list N :=
  match s with
  | String hi (String lo s) =>
      match hex_digit hi, hex_digit lo with
      | Some h, Some l => (h * 16 + l)%N :: decode_hex_node_style s
      | _, _ => []
      end
  | _ => []
  end.

(** [s.get(n..)]: [None] past the end and inside a character. *)
Fixpoint str_get_from (n : nat) (s : string) : option string :=
  match n with
  | 0 => match s with
         | String c _ =>
             let b := N_of_ascii c in
             if (128 <=? b)%N && (b <? 192)%N then None else Some s
         | EmptyString => Some s
         end
  | S n => match s with EmptyString => None | String _ s => str_get_from n s end
  end.

(** One character of UTF-8 at the head of the bytes: whether it is well formed,
    and how many bytes it takes — of an ill-formed one, the longest prefix of a
    character. *)
Definition continuation (b : N) : bool := (128 <=? b)%N && (b <=? 191)%N.

Fixpoint continuations (n : nat) (bs : list N) : nat :=
  match n, bs with
  | S n, b :: bs => if continuation b then S (continuations n bs) else 0
  | _, _ => 0
  end.

Definition utf8_tail (n : nat) (lo hi : N) (rest : list N) : bool * nat :=
  match rest with
  | c :: rest =>
      if (lo <=? c)%N && (c <=? hi)%N then
        let k := continuations (n - 1) rest in
        (Nat.eqb k (n - 1), 2 + k)
      else (false, 1)
  | [] => (false, 1)
  end.

Definition utf8_next (b : N) (rest : list N) : bool * nat :=
  if (b <? 128)%N then (true, 1)
  else if (194 <=? b)%N && (b <=? 223)%N then utf8_tail 1 128 191 rest
  else if (224 <=? b)%N && (b <=? 239)%N then
    utf8_tail 2 (if b =? 224 then 160 else 128)%N (if b =? 237 then 159 else 191)%N rest
  else if (240 <=? b)%N && (b <=? 244)%N then
    utf8_tail 3 (if b =? 240 then 144 else 128)%N (if b =? 244 then 143 else 191)%N rest
  else (false, 1).

(** [String::from_utf8_lossy]: each ill-formed sequence becomes U+FFFD. *)
Fixpoint utf8_lossy (fuel : nat) (bs : list N) : list N :=
  match fuel, bs with
  | S fuel, b :: rest =>
      let '(valid, n) := utf8_next b rest in
      (if valid then take n bs else [239; 191; 189]%N) ++ utf8_lossy fuel (drop n bs)
  | _, _ => []
  end.

Fixpoint string_of_bytes (bs : list N) : string :=
  match bs with
  | [] => EmptyString
  | b :: bs => String (ascii_of_N b) (string_of_bytes bs)
  end.

Definition from_utf8_lossy (bs : list N) : string := string_of_bytes (utf8_lossy (length bs) bs).

Definition extract_revert_reason (result : option TraceResult) : option string :=
  let! result := result in
  match result with
  | RawBlock.ResultCreate _ => None
  | RawBlock.ResultCall c =>
      let tail := strip_0x (tr_output c) in
      let tail := default ""%string (str_get_from 134 tail) in
      let buff := decode_hex_node_style tail in
      let len := N.to_nat (default 0%N (head buff)) in
      let end_ := Nat.min (1 + len) (length buff) in
      (* [buff.get(1..end)] is [None], hence empty, when [buff] is. *)
      let reason := drop 1 (take end_ buff) in
      Some (from_utf8_lossy reason)
  end.

Definition map_trace_frame (src : TraceFrame) (transaction_index : N) : NormalizedTrace :=
  let revert_reason := if non_empty (tf_error src) then extract_revert_reason (tf_result src) else None in
  TraceApi (mkNormalizedTraceApi transaction_index (tf_trace_address src)
    (if bool_decide (tf_frame_type src = "suicide"%string) then "selfdestruct"%string
     else tf_frame_type src)
    (tf_subtraces src) (tf_error src) revert_reason (map_trace_action (tf_action src))
    (map_trace_result (tf_result src))).

(** ** State diffs *)

(** [serde_json::Value] as this file inspects it; a number is its [as_u64]. *)
Inductive DiffView (Value : Type) : Type :=
  | ViewMap (fields : list (string * Value))
  | ViewString (s : string)
  | ViewNumber (n : option N)
  | ViewNone.
Arguments ViewMap {Value} fields.
Arguments ViewString {Value} s.
Arguments ViewNumber {Value} n.
Arguments ViewNone {Value}.

Class DiffJson (Value : Type) := diff_view : Value -> DiffView Value.

Section diffs.
Context {Value : Type} `{DiffJson Value}.
Abbreviation Map := (list (string * Value)).

Definition as_object (v : Value) : option Map :=
  match diff_view v with ViewMap fields => Some fields | _ => None end.

Definition as_str (v : Value) : option string :=
  match diff_view v with ViewString s => Some s | _ => None end.

(** [Map::get]; the keys of a [Map] are distinct. *)
Fixpoint map_get (k : string) (m : Map) : option Value :=
  match m with
  | [] => None
  | (k', v) :: m => if bool_decide (k = k') then Some v else map_get k m
  end.

Definition make_debug_state_diff_record (transaction_index : N) (address key : string)
    (prev next : option string) : NormalizedStateDiff :=
  mkNormalizedStateDiff transaction_index (to_lowercase address) key
    match prev, next with
    | None, Some _ => "+"
    | Some _, None => "-"
    | Some _, Some _ => "*"
    | None, None => "="
    end%string prev next.

Definition nonce_text (v : option Value) : string :=
  match diff_view <$> v with
  | Some (ViewNumber n) => to_qty (default 0%N n)
  | Some (ViewString s) => s
  | _ => "0x0"%string
  end.

Definition storage_of (m : Map) : option Map := map_get "storage" m ≫= as_object.

(** The storage part of [map_debug_state_map]: the slots of [prev], then those
    only [next] has. *)
Definition map_debug_storage (transaction_index : N) (address : string) (prev next : Map)
    : list NormalizedStateDiff :=
  match storage_of prev with
  | None => []
  | Some prev_storage =>
      (fun '(key, val) =>
         make_debug_state_diff_record transaction_index address key (as_str val)
           ((storage_of next ≫= map_get key) ≫= as_str)) <$> prev_storage
  end ++
  match storage_of next with
  | None => []
  | Some next_storage =>
      omap (fun '(key, val) =>
        if bool_decide (is_Some (storage_of prev ≫= map_get key)) then None
        else Some (make_debug_state_diff_record transaction_index address key None (as_str val)))
        next_storage
  end.

(** The rest of it: the account's code, balance and nonce. *)
Definition map_debug_account (transaction_index : N) (address : string) (prev next : Map)
    : list NormalizedStateDiff :=
  let text key := match map_get key next ≫= as_str with
                  | None => []
                  | Some v => [make_debug_state_diff_record transaction_index address key
                                 (map_get key prev ≫= as_str) (Some v)]
                  end in
  text "code"%string ++ text "balance"%string ++
  match map_get "nonce" next with
  | None => []
  | Some v => [make_debug_state_diff_record transaction_index address "nonce"
                 (Some (nonce_text (map_get "nonce" prev))) (Some (nonce_text (Some v)))]
  end.

Definition map_debug_state_map (transaction_index : N) (address : string) (prev next : Map)
    : list NormalizedStateDiff :=
  map_debug_account transaction_index address prev next ++
  map_debug_storage transaction_index address prev next.

Definition map_debug_state_diff (transaction_index : N) (diff_result : DebugStateDiffResult Value)
    : list NormalizedStateDiff :=
  let pre := dsd_pre (dsr_result diff_result) in
  let post := dsd_post (dsr_result diff_result) in
  concat ((fun '(address, pre_val) =>
    map_debug_state_map transaction_index address (default [] (as_object pre_val))
      (default [] (map_get address post ≫= as_object))) <$> pre) ++
  concat (omap (fun '(address, post_val) =>
    if bool_decide (is_Some (map_get address pre)) then None
    else Some (map_debug_state_map transaction_index address [] (default [] (as_object post_val))))
    post).

Definition make_state_diff_from_replay (transaction_index : N) (address key : string) (diff : Value)
    : option NormalizedStateDiff :=
  let record kind prev next :=
    Some (mkNormalizedStateDiff transaction_index (to_lowercase address) key kind prev next) in
  if bool_decide (as_str diff = Some "="%string) then record "="%string None None
  else
  match as_object diff with
  | None => None
  | Some obj =>
      match map_get "+" obj with
      | Some plus => let! next := as_str plus in record "+"%string None (Some next)
      | None =>
      match map_get "*" obj with
      | Some change =>
          let! from := as_object change ≫= map_get "from" in
          let! from := as_str from in
          let! to := as_object change ≫= map_get "to" in
          let! to := as_str to in
          record "*"%string (Some from) (Some to)
      | None =>
      match map_get "-" obj with
      | Some minus => let! prev := as_str minus in record "-"%string (Some prev) None
      | None => None
      end
      end
      end
  end.

Definition changed (o : option NormalizedStateDiff) : option NormalizedStateDiff :=
  match o with
  | Some d => if bool_decide (sd_kind d = "="%string) then None else Some d
  | None => None
  end.

Definition map_replay_state_diff (src : Map) (transaction_index : N) : list NormalizedStateDiff :=
  concat ((fun '(address, diffs_val) =>
    match as_object diffs_val with
    | None => []
    | Some diffs_obj =>
        omap (fun key => map_get key diffs_obj ≫= fun diff =>
                changed (make_state_diff_from_replay transaction_index address key diff))
          ["code"; "balance"; "nonce"]%string ++
        match storage_of diffs_obj with
        | None => []
        | Some storage =>
            omap (fun '(slot_key, diff) =>
              changed (make_state_diff_from_replay transaction_index address slot_key diff)) storage
        end
    end) <$> src).

End diffs.

(** ** The block *)

Record MappingOptions := mkMappingOptions { with_traces : bool; with_state_diffs : bool }.

Section block.
Context {Value : Type} `{DiffJson Value}.
Context {F64 : Type} (parse_f64 : string -> option F64).

(** [tx_index]: a hash to its last position. *)
Definition tx_positions (hashes : list string) : gmap string nat :=
  foldl (fun m '(i, h) => <[h := i]> m) ∅ (imap pair hashes).

Definition map_transactions (block : RpcBlock) (receipts : option (list RpcReceipt))
    : list (NormalizedTransaction F64) :=
  imap (fun i tx => map_transaction parse_f64 tx (receipts ≫= (.!! i))) (blk_transactions block).

Definition map_logs (raw : RawRpcBlock Value) : list NormalizedLog :=
  match raw_logs raw with
  | Some logs => map_log <$> logs
  | None =>
      match raw_receipts raw with
      | Some receipts => map_log <$> concat (rcpt_logs <$> receipts)
      | None => []
      end
  end.

(** The replays whose transaction is in the block, with its position. *)
Definition replay_records {A} (positions : gmap string nat)
    (f : N -> TraceTransactionReplay Value -> list A) (replays : list (TraceTransactionReplay Value))
    : list A :=
  concat ((fun replay =>
    match ttr_transaction_hash replay ≫= (positions !!.) with
    | Some tx_idx => f (N.of_nat tx_idx) replay
    | None => []
    end) <$> replays).

Definition map_traces (raw : RawRpcBlock Value) (positions : gmap string nat) : list NormalizedTrace :=
  match raw_debug_frames raw with
  | Some debug_frames =>
      concat (imap (fun i frame_opt =>
        match frame_opt with
        | Some frame => Debug <$> map_debug_frame (N.of_nat i) (dfr_result frame)
        | None => []
        end) debug_frames)
  | None =>
      match raw_trace_replays raw with
      | Some replays =>
          replay_records positions (fun tx_idx replay =>
            (fun frame => map_trace_frame frame tx_idx) <$> default [] (ttr_trace replay)) replays
      | None => []
      end
  end.

Definition map_state_diffs (raw : RawRpcBlock Value) (positions : gmap string nat)
    : list NormalizedStateDiff :=
  match raw_debug_state_diffs raw with
  | Some debug_diffs =>
      concat (imap (fun i diff_opt =>
        match diff_opt with
        | Some diff => map_debug_state_diff (N.of_nat i) diff
        | None => []
        end) debug_diffs)
  | None =>
      match raw_trace_replays raw with
      | Some replays =>
          replay_records positions (fun tx_idx replay =>
            match ttr_state_diff replay with
            | Some state_diff => map_replay_state_diff state_diff tx_idx
            | None => []
            end) replays
      | None => []
      end
  end.

Definition map_rpc_block (raw : RawRpcBlock Value) (options : MappingOptions) : NormalizedBlock F64 :=
  let block := raw_block raw in
  let positions := tx_positions (tx_hash <$> blk_transactions block) in
  mkNormalizedBlock (map_block_header block) (map_transactions block (raw_receipts raw)) (map_logs raw)
    (if with_traces options then Some (map_traces raw positions) else None)
    (if with_state_diffs options then Some (map_state_diffs raw positions) else None).
End block.

(** ** State diffs: every slot once *)

Section diff_theorems.
Context {Value : Type} `{DiffJson Value}.
Abbreviation Map := (list (string * Value)).

Lemma map_get_in k (m : Map) v : map_get k m = Some v -> (k, v) ∈ m.
Proof.
  induction m as [|[k' v'] m IH]; simpl; [done|]. case_bool_decide as E.
  - intros [= ->]. subst. by left.
  - intros Hm. right. by apply IH.
Qed.

Lemma map_get_some k (m : Map) : is_Some (map_get k m) <-> k ∈ m.*1.
Proof.
  split.
  - intros [v Hv]. apply map_get_in in Hv. apply list_elem_of_fmap. by exists (k, v).
  - induction m as [|[k' v'] m IH]; simpl; [intros []%not_elem_of_nil|].
    case_bool_decide as E; [by eexists|]. intros [->|Hk]%elem_of_cons; [done|]. by apply IH.
Qed.

Lemma map_get_nodup k v (m : Map) : NoDup m.*1 -> (k, v) ∈ m -> map_get k m = Some v.
Proof.
  induction m as [|[k' v'] m IH]; simpl; [intros _ []%not_elem_of_nil|].
  intros [Hk Hnd]%NoDup_cons [[= <- <-]|Hin]%elem_of_cons; [by rewrite bool_decide_true|].
  rewrite bool_decide_false; [by apply IH|]. intros ->. apply Hk.
  apply list_elem_of_fmap. by exists (k', v).
Qed.

Definition object_at (m : Map) (a : string) : Map := default [] (map_get a m ≫= as_object).

Definition slot_at (m : Map) (k : string) : option Value := storage_of m ≫= map_get k.

(** The distinct keys of both sides, those of the first before those only the
    second has. *)
Definition union_keys (m1 m2 : Map) : list string :=
  m1.*1 ++ filter (fun k => map_get k m1 = None) m2.*1.

Lemma union_keys_spec (m1 m2 : Map) k : k ∈ union_keys m1 m2 <-> k ∈ m1.*1 \/ k ∈ m2.*1.
Proof.
  unfold union_keys. rewrite elem_of_app, list_elem_of_filter.
  split; [naive_solver|]. intros [Hk|Hk]; [by left|].
  destruct (map_get k m1) as [v|] eqn:E; [left; apply map_get_some; by eexists|by right].
Qed.

Lemma union_keys_nodup (m1 m2 : Map) : NoDup m1.*1 -> NoDup m2.*1 -> NoDup (union_keys m1 m2).
Proof.
  intros H1 H2. apply NoDup_app. split; [done|]. split; [|by apply NoDup_filter].
  intros k Hk [Hn _]%list_elem_of_filter. apply map_get_some in Hk as [v Hv]. congruence.
Qed.

Definition storage_map (m : Map) : Map := default [] (storage_of m).

Lemma omap_as_filter {A} (m : Map) (P : string -> Prop) `{!forall k, Decision (P k)}
    (f : string -> Value -> A) (g : string -> A) :
  (forall k v, (k, v) ∈ m -> f k v = g k) ->
  omap (fun '(k, v) => if bool_decide (P k) then None else Some (f k v)) m =
  g <$> filter (fun k => ~ P k) m.*1.
Proof.
  induction m as [|[k v] m IH]; intros Hf; [done|]. csimpl.
  rewrite IH by (intros; apply Hf; by right). case_bool_decide as E.
  - by rewrite filter_cons_False by tauto.
  - rewrite filter_cons_True by done. csimpl. f_equal. apply Hf. by left.
Qed.

Lemma fmap_as_keys {A} (m : Map) (f : string -> Value -> A) (g : string -> A) :
  (forall k v, (k, v) ∈ m -> f k v = g k) -> ((fun '(k, v) => f k v) <$> m) = g <$> m.*1.
Proof.
  intros Hf. rewrite <- list_fmap_compose. apply list_fmap_ext. intros i [k v] Hi. simpl.
  apply Hf. by eapply list_elem_of_lookup_2.
Qed.

Lemma storage_records i a (prev next : Map) :
  NoDup (storage_map prev).*1 -> NoDup (storage_map next).*1 ->
  map_debug_storage i a prev next =
    (fun k => make_debug_state_diff_record i a k (slot_at prev k ≫= as_str) (slot_at next k ≫= as_str))
      <$> union_keys (storage_map prev) (storage_map next).
Proof.
  unfold map_debug_storage, union_keys, storage_map, slot_at. intros Hp Hn. rewrite fmap_app.
  f_equal.
  - destruct (storage_of prev) as [m|]; [|done]. simpl in *. apply fmap_as_keys.
    intros k v Hkv. by rewrite (map_get_nodup k v m).
  - destruct (storage_of next) as [m|]; [|done]. simpl in *.
    rewrite (omap_as_filter m (fun k => is_Some (storage_of prev ≫= map_get k))
      (fun k v => make_debug_state_diff_record i a k None (as_str v))
      (fun k => make_debug_state_diff_record i a k None (map_get k m ≫= as_str))).
    + assert (filter (fun k => ~ is_Some (storage_of prev ≫= map_get k)) m.*1 =
              filter (fun k => map_get k (default [] (storage_of prev)) = None) m.*1) as ->.
      { apply list_filter_iff. intros k. destruct (storage_of prev) as [q|]; simpl;
          [by rewrite <- eq_None_not_Some|]. split; [done|]. intros _ [? ?]. done. }
      apply list_fmap_ext. intros j k Hj. apply list_elem_of_lookup_2 in Hj.
      apply list_elem_of_filter in Hj as [Hk _].
      destruct (storage_of prev) as [q|]; simpl in *; [by rewrite Hk|done].
    + intros k v Hkv. by rewrite (map_get_nodup k v m).
Qed.

Lemma slot_at_some (m : Map) k : is_Some (slot_at m k) <-> k ∈ (storage_map m).*1.
Proof.
  unfold slot_at, storage_map. destruct (storage_of m) as [q|]; simpl; [apply map_get_some|].
  split; [by intros [? ?]|intros []%not_elem_of_nil].
Qed.

(** The keys of a [Map] are distinct, at every level. *)
Definition keys_distinct (d : DebugStateDiff Value) : Prop :=
  NoDup (dsd_pre d).*1 /\ NoDup (dsd_post d).*1 /\
  (forall a, NoDup (storage_map (object_at (dsd_pre d) a)).*1) /\
  (forall a, NoDup (storage_map (object_at (dsd_post d) a)).*1).

Lemma concat_accounts i (pre post : Map) :
  NoDup pre.*1 -> NoDup post.*1 ->
  concat ((fun '(a, v) => map_debug_state_map i a (default [] (as_object v)) (object_at post a)) <$> pre) ++
  concat (omap (fun '(a, v) => if bool_decide (is_Some (map_get a pre)) then None
                 else Some (map_debug_state_map i a [] (default [] (as_object v)))) post) =
  concat ((fun a => map_debug_state_map i a (object_at pre a) (object_at post a)) <$> union_keys pre post).
Proof.
  intros Hpre Hpost. unfold union_keys. rewrite fmap_app, concat_app. f_equal; f_equal.
  - apply fmap_as_keys. intros a v Hav. unfold object_at. by rewrite (map_get_nodup a v pre).
  - rewrite (omap_as_filter post (fun a => is_Some (map_get a pre))
      (fun a v => map_debug_state_map i a [] (default [] (as_object v)))
      (fun a => map_debug_state_map i a [] (object_at post a))).
    + assert (filter (fun a => ~ is_Some (map_get a pre)) post.*1 =
              filter (fun a => map_get a pre = None) post.*1) as ->
        by (apply list_filter_iff; intros a; by rewrite <- eq_None_not_Some).
      apply list_fmap_ext. intros j a Hj. apply list_elem_of_lookup_2 in Hj.
      apply list_elem_of_filter in Hj as [Hn _]. unfold object_at. by rewrite Hn.
    + intros a v Hav. unfold object_at. by rewrite (map_get_nodup a v post).
Qed.

(** The diff of a transaction lists every account that either side
    mentions, once; and for each account every storage slot that either side
    mentions, once, with its value before and after: added when only the state
    after has it, removed when only the state before has it, changed when both
    do. *)
Theorem state_diff_exact i (d : DebugStateDiffResult Value) :
  keys_distinct (dsr_result d) ->
  let pre := dsd_pre (dsr_result d) in
  let post := dsd_post (dsr_result d) in
  exists accounts slots,
    NoDup accounts /\ (forall a, a ∈ accounts <-> a ∈ pre.*1 \/ a ∈ post.*1) /\
    (forall a, NoDup (slots a) /\ forall k, k ∈ slots a <->
       is_Some (slot_at (object_at pre a) k) \/ is_Some (slot_at (object_at post a) k)) /\
    map_debug_state_diff i d =
      concat ((fun a => map_debug_account i a (object_at pre a) (object_at post a) ++
        ((fun k => make_debug_state_diff_record i a k (slot_at (object_at pre a) k ≫= as_str)
                     (slot_at (object_at post a) k ≫= as_str)) <$> slots a)) <$> accounts).
Proof.
  intros (Hpre & Hpost & Hspre & Hspost) pre post.
  exists (union_keys pre post),
    (fun a => union_keys (storage_map (object_at pre a)) (storage_map (object_at post a))).
  split; [by apply union_keys_nodup|]. split; [apply union_keys_spec|]. split.
  - intros a. split; [by apply union_keys_nodup|]. intros k.
    by rewrite union_keys_spec, !slot_at_some.
  - unfold map_debug_state_diff. fold pre post.
    transitivity (concat ((fun a => map_debug_state_map i a (object_at pre a) (object_at post a))
      <$> union_keys pre post)); [by apply concat_accounts|].
    f_equal. apply list_fmap_ext. intros j a _. unfold map_debug_state_map. f_equal.
    by apply storage_records.
Qed.

(** ** Well-formed records *)

(** The kind says which sides the record has. *)
Definition diff_ok (r : NormalizedStateDiff) : Prop :=
  sd_kind r = match sd_prev r, sd_next r with
              | None, Some _ => "+"
              | Some _, None => "-"
              | Some _, Some _ => "*"
              | None, None => "="
              end%string.

Lemma ascii_lower_idem c : ascii_lower (ascii_lower c) = ascii_lower c.
Proof. by destruct c as [[] [] [] [] [] [] [] []]. Qed.

Lemma to_lowercase_idem s : to_lowercase (to_lowercase s) = to_lowercase s.
Proof. induction s as [|c s IH]; simpl; [done|]. by rewrite ascii_lower_idem, IH. Qed.

(** Of transaction [i], with a lower-case address, well formed. *)
Definition record_ok (i : N) (r : NormalizedStateDiff) : Prop :=
  sd_transaction_index r = i /\ to_lowercase (sd_diff_address r) = sd_diff_address r /\ diff_ok r.

Lemma debug_record_ok i a k prev next : record_ok i (make_debug_state_diff_record i a k prev next).
Proof. split; [done|]. split; [apply to_lowercase_idem|]. by destruct prev, next. Qed.

Lemma Forall_omap {A B} (P : B -> Prop) (f : A -> option B) l :
  (forall x y, x ∈ l -> f x = Some y -> P y) -> Forall P (omap f l).
Proof.
  intros Hf. induction l as [|x l IH]; csimpl; [constructor|].
  assert (Forall P (omap f l)) by (apply IH; intros; eapply Hf; [by right|done]).
  destruct (f x) eqn:E; [|done]. constructor; [|done]. eapply Hf; [by left|done].
Qed.

Lemma Forall_concat_fmap {A B} (P : B -> Prop) (f : A -> list B) l :
  (forall x, x ∈ l -> Forall P (f x)) -> Forall P (concat (f <$> l)).
Proof.
  intros Hf. induction l as [|x l IH]; csimpl; [constructor|]. apply Forall_app. split.
  - apply Hf. by left.
  - apply IH. intros y Hy. apply Hf. by right.
Qed.

Lemma debug_map_ok i a (prev next : Map) : Forall (record_ok i) (map_debug_state_map i a prev next).
Proof.
  assert (forall k p n, Forall (record_ok i) [make_debug_state_diff_record i a k p n]) as Hone
    by (intros; constructor; [apply debug_record_ok|constructor]).
  unfold map_debug_state_map, map_debug_account, map_debug_storage.
  repeat (apply Forall_app; split); repeat case_match; try constructor; try apply debug_record_ok;
    try constructor.
  - apply Forall_fmap. apply Forall_true. intros [k v]. apply debug_record_ok.
  - apply Forall_omap. intros [k v] y _ Hy. case_bool_decide; simplify_eq. apply debug_record_ok.
Qed.

Lemma debug_diff_ok i (d : DebugStateDiffResult Value) : Forall (record_ok i) (map_debug_state_diff i d).
Proof.
  unfold map_debug_state_diff. apply Forall_app. split.
  - apply Forall_concat_fmap. intros [a v] _. apply debug_map_ok.
  - apply Forall_concat. apply Forall_omap. intros [a v] y _ Hy. case_bool_decide; simplify_eq.
    apply debug_map_ok.
Qed.

Lemma replay_record_ok i a k (v : Value) r :
  changed (make_state_diff_from_replay i a k v) = Some r -> record_ok i r /\ sd_kind r <> "="%string.
Proof.
  unfold changed. destruct (make_state_diff_from_replay i a k v) as [q|] eqn:E; [|done].
  case_bool_decide as Hk; [done|]. intros [= <-]. split; [|done].
  unfold make_state_diff_from_replay in E.
  repeat (case_match; simplify_eq/=); (split; [done|]; split; [apply to_lowercase_idem|done]).
Qed.

Lemma replay_diff_ok (src : Map) i :
  Forall (fun r => record_ok i r /\ sd_kind r <> "="%string) (map_replay_state_diff src i).
Proof.
  apply Forall_concat_fmap. intros [a v] _. destruct (as_object v) as [fields|]; [|constructor].
  apply Forall_app. split.
  - apply Forall_omap. intros k r _ Hr. apply bind_Some in Hr as (w & _ & Hr).
    by eapply replay_record_ok.
  - destruct (storage_of fields); [|constructor]. apply Forall_omap. intros [k w] r _ Hr.
    by eapply replay_record_ok.
Qed.

(** ** Attribution *)

Lemma tx_positions_gen hashes o (m : gmap string nat) h i :
  NoDup hashes -> (forall h, h ∈ hashes -> m !! h = None) ->
  foldl (fun m '(i, h) => <[h := i]> m) m (imap (fun i h => (o + i, h)) hashes) !! h = Some i <->
  m !! h = Some i \/ exists j, hashes !! j = Some h /\ i = o + j.
Proof.
  revert o m. induction hashes as [|x hashes IH]; intros o m Hnd Hm.
  - simpl. split; [by left|]. by intros [?|(j & ? & _)].
  - apply NoDup_cons in Hnd as [Hx Hnd]. cbn [imap foldl].
    rewrite (imap_ext _ (fun i h => (S o + i, h))) by (intros; simpl; f_equal; lia).
    rewrite IH; [|done|].
    + rewrite lookup_insert_Some. split.
      * intros [[[<- <-]|[_ ?]]|(j & Hj & ->)]; [right|by left|right].
        -- exists 0. split; [done|lia].
        -- exists (S j). split; [done|lia].
      * intros [Hi|([|j] & Hj & ->)].
        -- left. right. split; [|done]. intros ->. rewrite Hm in Hi; [done|by left].
        -- injection Hj as ->. left. left. split; [done|lia].
        -- right. exists j. split; [done|lia].
    + intros y Hy. rewrite lookup_insert_ne by (by intros ->). apply Hm. by right.
Qed.

(** With distinct hashes the position of a hash is its place in the block. *)
Lemma tx_positions_spec hashes h i :
  NoDup hashes -> tx_positions hashes !! h = Some i <-> hashes !! i = Some h.
Proof.
  intros Hnd. unfold tx_positions.
  rewrite (imap_ext pair (fun i h => (0 + i, h))) by done.
  rewrite (tx_positions_gen hashes 0 ∅) by (done || intros; apply lookup_empty).
  rewrite lookup_empty. split; [intros [?|(j & ? & ->)]; done|]. intros Hi. right. by exists i.
Qed.

(** Replays that name the transactions of the block, each once, yield the
    records of each, under its position. *)
Lemma replay_records_attributed {A} (f : N -> TraceTransactionReplay Value -> list A)
    (hashes named_hashes : list string) (reps : list (TraceTransactionReplay Value)) :
  NoDup hashes -> named_hashes ≡ₚ hashes ->
  Forall2 (fun h rep => ttr_transaction_hash rep = Some h) named_hashes reps ->
  exists idxs : list nat,
    idxs ≡ₚ seq 0 (length hashes) /\
    Forall2 (fun i h => hashes !! i = Some h) idxs named_hashes /\
    replay_records (tx_positions hashes) f reps = concat (zip_with (fun i rep => f (N.of_nat i) rep) idxs reps).
Proof.
  intros Hnd Hperm Hf.
  assert (exists idxs, Forall2 (fun i h => hashes !! i = Some h) idxs named_hashes) as [idxs Hidx].
  { assert (forall h, h ∈ named_hashes -> h ∈ hashes) as Hin by (intros h; by rewrite Hperm).
    clear Hf Hperm. induction named_hashes as [|h l IH]; [by exists []|].
    destruct IH as [idxs Hl]; [intros; apply Hin; by right|].
    destruct (proj1 (list_elem_of_lookup hashes h)) as [i Hi]; [apply Hin; by left|].
    exists (i :: idxs). by constructor. }
  exists idxs. split; [|split; [done|]].
  - assert (NoDup named_hashes) as Hnn by by rewrite Hperm.
    assert (NoDup idxs) as Hni.
    { apply NoDup_alt. intros i j x Hi Hj.
      destruct (Forall2_lookup_l _ _ _ _ _ Hidx Hi) as (h1 & Hh1 & E1).
      destruct (Forall2_lookup_l _ _ _ _ _ Hidx Hj) as (h2 & Hh2 & E2).
      eapply (proj1 (NoDup_alt _) Hnn); [exact Hh1|]. congruence. }
    apply NoDup_Permutation; [done|apply NoDup_seq|]. intros x. rewrite elem_of_seq. split.
    + intros [i Hi]%list_elem_of_lookup. destruct (Forall2_lookup_l _ _ _ _ _ Hidx Hi) as (h & _ & E).
      apply lookup_lt_Some in E. lia.
    + intros [_ Hlt]. destruct (lookup_lt_is_Some_2 hashes x) as [h Hh]; [lia|].
      assert (h ∈ named_hashes) as [i Hi]%list_elem_of_lookup
        by (rewrite Hperm; by eapply list_elem_of_lookup_2).
      destruct (Forall2_lookup_r _ _ _ _ _ Hidx Hi) as (y & Hy & E).
      assert (y = x) as -> by exact (NoDup_lookup _ _ _ _ Hnd E Hh).
      by eapply list_elem_of_lookup_2.
  - unfold replay_records. f_equal. revert idxs Hidx.
    clear Hperm. induction Hf as [|h rep l reps Hrep _ IH]; intros idxs Hidx.
    + by inversion Hidx.
    + inversion Hidx as [|i ? idxs' ? Hi Hl]; subst. csimpl. rewrite Hrep. simpl.
      rewrite (proj2 (tx_positions_spec hashes h i Hnd) Hi). by rewrite (IH _ Hl).
Qed.

(** The index of a transaction's records, and the frames they are made of. *)
Definition traces_at (i : nat) (rep : TraceTransactionReplay Value) : list NormalizedTrace :=
  (fun frame => map_trace_frame frame (N.of_nat i)) <$> frames_of rep.

Definition diffs_at (i : nat) (rep : TraceTransactionReplay Value) : list NormalizedStateDiff :=
  match ttr_state_diff rep with Some d => map_replay_state_diff d (N.of_nat i) | None => [] end.
End diff_theorems.

Section attribution.
Context {Value : Type} `{Json Value} `{DiffJson Value}.
Context {F64 : Type} (parse_f64 : string -> option F64).
Context (error_text : RpcError (Value := Value) -> string).

(** C36: a block whose replays the fetch layer accepted is normalized without
    loss: there is an assignment of the replays to the positions of the
    transactions they name, a permutation of all positions, under which the
    block's traces and state diffs are exactly those of each replay under its
    transaction's position; every transaction appears, with the receipt of its
    own position. *)
Theorem accepted_replays_attributed result raw tracers what reps options :
  replays_of error_text result raw tracers what = Ok reps ->
  raw_trace_replays raw = Some reps -> raw_debug_frames raw = None -> raw_debug_state_diffs raw = None ->
  let n := map_rpc_block parse_f64 raw options in
  let txs := blk_transactions (raw_block raw) in
  (exists idxs, idxs ≡ₚ seq 0 (length txs) /\
     Forall2 (fun i rep => ttr_transaction_hash rep = tx_hash <$> (txs !! i)) idxs reps /\
     (with_traces options = true -> nb_traces n = Some (concat (zip_with traces_at idxs reps))) /\
     (with_state_diffs options = true -> nb_state_diffs n = Some (concat (zip_with diffs_at idxs reps)))) /\
  (forall i, nb_transactions n !! i =
     (fun tx => map_transaction parse_f64 tx (raw_receipts raw ≫= (.!! i))) <$> (txs !! i)).
Proof.
  intros Hreps Hraw Hdf Hds n txs.
  split; [|intros i; apply list_lookup_imap].
  apply replays_of_spec in Hreps as (arr & parsed & hashes & _ & _ & -> & Hcomplete & Hperm & Hnd).
  fold txs in Hperm, Hnd.
  assert (Forall2 (fun h rep => ttr_transaction_hash rep = Some h) hashes (attribute_replay <$> parsed))
    as Hnames by (eapply Forall2_impl; [exact Hcomplete|]; by intros h rep [? _]).
  pose proof (fun A f => replay_records_attributed (A := A) f (tx_hash <$> txs) hashes _ Hnd Hperm Hnames)
    as Hrec.
  destruct (Hrec _ (fun tx_idx replay => (fun frame => map_trace_frame frame tx_idx) <$>
    default [] (ttr_trace replay))) as (idxs & Hp & Hidx & Ht).
  destruct (Hrec _ (fun tx_idx replay => match ttr_state_diff replay with
    | Some state_diff => map_replay_state_diff state_diff tx_idx | None => [] end)) as (idxs' & _ & Hidx' & Hd).
  assert (idxs' = idxs) as ->.
  { apply list_eq_same_length with (length hashes);
      [by eapply Forall2_length|by eapply Forall2_length|].
    intros i x y Hi Hx Hy. destruct (Forall2_lookup_l _ _ _ _ _ Hidx' Hx) as (h & Hh & E).
    destruct (Forall2_lookup_l _ _ _ _ _ Hidx Hy) as (h' & Hh' & E').
    assert (h = h') as <- by congruence. by eapply NoDup_lookup. }
  exists idxs. split; [by rewrite length_fmap in Hp|]. split.
  - apply Forall2_same_length_lookup_2.
    { transitivity (length hashes); by eapply Forall2_length. }
    intros i j rep Hj Hr. destruct (Forall2_lookup_l _ _ _ _ _ Hidx Hj) as (h & Hh & E).
    rewrite (Forall2_lookup_lr _ _ _ _ _ _ Hnames Hh Hr), <- E. by rewrite list_lookup_fmap.
  - unfold n, map_rpc_block, map_traces, map_state_diffs. rewrite Hraw, Hdf, Hds. simpl.
    split; intros ->; f_equal; [exact Ht|exact Hd].
Qed.
End attribution.

(** ** Revert reasons *)

Definition byte_values (bs : list N) : Prop := Forall (fun b => (b < 256)%N) bs.

(** The hex text of bytes. *)
Fixpoint abi_hex (bs : list N) : string :=
  match bs with
  | [] => EmptyString
  | b :: bs => String (hex_char (b / 16)) (String (hex_char (b mod 16)) (abi_hex bs))
  end.

(** The same without the fuel running out: every character is well formed. *)
Fixpoint utf8_ok (fuel : nat) (bs : list N) : bool :=
  match fuel, bs with
  | _, [] => true
  | S fuel, b :: rest => let '(valid, n) := utf8_next b rest in valid && utf8_ok fuel (drop n bs)
  | 0, _ :: _ => false
  end.

Lemma utf8_lossy_ok fuel bs : utf8_ok fuel bs = true -> utf8_lossy fuel bs = bs.
Proof.
  revert bs. induction fuel as [|fuel IH]; intros [|b rest]; simpl; try done.
  destruct (utf8_next b rest) as [[] n]; [|done]. intros Hok. rewrite (IH _ Hok).
  apply (take_drop n (b :: rest)).
Qed.

Lemma utf8_ok_ascii bs : Forall (fun b => (b < 128)%N) bs -> utf8_ok (length bs) bs = true.
Proof.
  induction 1 as [|b bs Hb _ IH]; [done|]. simpl. unfold utf8_next.
  by rewrite (proj2 (N.ltb_lt b 128) Hb).
Qed.

Lemma append_cons c (a b : string) : String c a +:+ b = String c (a +:+ b).
Proof. done. Qed.

Lemma decode_abi_hex bs pad :
  byte_values bs -> decode_hex_node_style (abi_hex bs +:+ pad) = bs ++ decode_hex_node_style pad.
Proof.
  induction 1 as [|b bs Hb _ IH]; [done|]. simpl.
    rewrite !hex_digit_char, IH by (apply N.mod_lt || apply N.Div0.div_lt_upper_bound; lia).
  f_equal. pose proof (N.div_mod b 16). lia.
Qed.

Lemma hex_char_ascii d : (d < 16)%N -> (N_of_ascii (hex_char d) < 128)%N.
Proof.
  intros Hd. pose proof (hex_digit_char d Hd) as Hx.
  destruct (N.lt_ge_cases (N_of_ascii (hex_char d)) 128) as [|Hge]; [done|exfalso].
  revert Hx Hge. generalize (hex_char d). intros [[] [] [] [] [] [] [] []]; vm_compute; intros; done.
Qed.

Lemma get_from_abi_hex bs s :
  byte_values bs -> str_get_from (2 * length bs) (abi_hex bs +:+ s) = str_get_from 0 s.
Proof.
  induction 1 as [|b bs Hb _ IH]; [done|]. cbn [length abi_hex]. rewrite !append_cons.
  replace (2 * S (length bs)) with (S (S (2 * length bs))) by lia. exact IH.
Qed.

Lemma get_from_head b s :
  (b < 256)%N -> str_get_from 0 (abi_hex [b] +:+ s) = Some (abi_hex [b] +:+ s).
Proof.
  intros Hb. cbn [abi_hex]. rewrite !append_cons. cbn [str_get_from].
  pose proof (hex_char_ascii (b / 16) ltac:(apply N.Div0.div_lt_upper_bound; lia)) as Hc.
  by rewrite (proj2 (N.leb_gt _ _) Hc).
Qed.

Lemma abi_hex_app a b : abi_hex (a ++ b) = abi_hex a +:+ abi_hex b.
Proof. induction a as [|x a IH]; [done|]. cbn [abi_hex app]. by rewrite !append_cons, IH. Qed.

Lemma append_assoc (a b c : string) : (a +:+ b) +:+ c = a +:+ (b +:+ c).
Proof. induction a as [|x a IH]; [done|]. by rewrite !append_cons, IH. Qed.

(** The reason of a reverted call is read back from the output of
    [Error(string)]: selector, offset and length word (67 bytes and the low
    byte of the length), the text, any padding. The text is cut at its length
    modulo 256, which is all of it below 256 bytes, and returned unchanged when
    it is well-formed UTF-8, as all ASCII is. *)
Theorem revert_reason_read_back gas head_bytes text pad :
  length head_bytes = 67 -> byte_values head_bytes -> byte_values text ->
  let len := (N.of_nat (length text) mod 256)%N in
  let output := ("0x" +:+ abi_hex (head_bytes ++ len :: text) +:+ pad)%string in
  let reason := extract_revert_reason (Some (RawBlock.ResultCall (mkTraceResultCall gas output))) in
  reason = Some (from_utf8_lossy (take (N.to_nat len) text)) /\
  (length text < 256 -> utf8_ok (length text) text = true -> reason = Some (string_of_bytes text)) /\
  (length text < 256 -> Forall (fun b => (b < 128)%N) text -> reason = Some (string_of_bytes text)).
Proof.
  intros Hhead Hhb Htb len output reason.
  assert (len < 256)%N as Hlen by (apply N.mod_lt; lia).
  assert (N.to_nat len <= length text) as Hle.
  { unfold len. pose proof (N.Div0.mod_le (N.of_nat (length text)) 256). lia. }
  assert (reason = Some (from_utf8_lossy (take (N.to_nat len) text))) as Hr.
  { unfold reason, extract_revert_reason. cbn [tr_output]. unfold output. rewrite strip_0x_prefixed.
    rewrite abi_hex_app, append_assoc. change 134 with (2 * 67). rewrite <- Hhead.
    rewrite get_from_abi_hex by done.
    change (len :: text) with ([len] ++ text). rewrite abi_hex_app, append_assoc.
    rewrite get_from_head by done. cbn [from_option id]. rewrite <- append_assoc, <- abi_hex_app.
    rewrite decode_abi_hex by by constructor. cbn [app head from_option id].
    f_equal. f_equal. cbn [Nat.add length]. rewrite length_app.
    rewrite Nat.min_l by lia. cbn [take drop]. rewrite take_app_le by lia. done. }
  assert (length text < 256 -> N.to_nat len = length text) as Hall.
  { intros Hlt. unfold len. rewrite N.mod_small by lia. lia. }
  split; [done|]. split; intros Hlt Hok; rewrite Hr, (Hall Hlt), take_ge by lia;
    unfold from_utf8_lossy; rewrite utf8_lossy_ok; try done. by apply utf8_ok_ascii.
Qed.

(** ** The records of a block *)

Section records.
Context {Value : Type} `{DiffJson Value}.
Context {F64 : Type} (parse_f64 : string -> option F64).

Lemma tx_positions_bound hashes h i : tx_positions hashes !! h = Some i -> i < length hashes.
Proof.
  unfold tx_positions.
  assert (forall o (m : gmap string nat), foldl (fun m '(i, h) => <[h := i]> m) m
      (imap (fun i h => (o + i, h)) hashes) !! h = Some i -> m !! h = Some i \/ i < o + length hashes) as Hgen.
  { induction hashes as [|x hashes IH]; intros o m; [by left|]. cbn [imap foldl length].
    rewrite (imap_ext _ (fun i h => (S o + i, h))) by (intros; simpl; f_equal; lia).
    intros [Hi|Hi]%IH; [|right; lia]. apply lookup_insert_Some in Hi as [[_ <-]|[_ Hi]]; [right; lia|by left]. }
  intros Hi. destruct (Hgen 0 ∅) as [E|?]; [|by rewrite lookup_empty in E|lia].
  by rewrite (imap_ext _ pair) by done.
Qed.

Lemma Forall_concat_imap {A B} (P : B -> Prop) (f : nat -> A -> list B) l :
  (forall i x, l !! i = Some x -> Forall P (f i x)) -> Forall P (concat (imap f l)).
Proof.
  revert f. induction l as [|x l IH]; intros f Hf; [constructor|]. cbn [imap concat]. apply Forall_app.
  split; [by apply (Hf 0)|]. apply IH. intros i y Hy. by apply (Hf (S i)).
Qed.

(** Every state diff of a normalized block is of one of the block's
    transactions, at a lower-case address, and of the kind its two sides say;
    those taken from replays are all changes. *)
Theorem state_diffs_well_formed (raw : RawRpcBlock Value) options diffs :
  nb_state_diffs (map_rpc_block parse_f64 raw options) = Some diffs ->
  (forall ds, raw_debug_state_diffs raw = Some ds ->
     length ds = length (blk_transactions (raw_block raw))) ->
  Forall (fun r => diff_ok r /\ to_lowercase (sd_diff_address r) = sd_diff_address r /\
    (sd_transaction_index r < N.of_nat (length (blk_transactions (raw_block raw))))%N /\
    (raw_debug_state_diffs raw = None -> sd_kind r <> "="%string)) diffs.
Proof.
  unfold map_rpc_block. simpl. destruct (with_state_diffs options); [|done]. intros [= <-] Hlen.
  unfold map_state_diffs. destruct (raw_debug_state_diffs raw) as [ds|].
  - apply Forall_concat_imap. intros i [d|] Hi; [|constructor].
    apply lookup_lt_Some in Hi. rewrite (Hlen ds eq_refl) in Hi.
    eapply Forall_impl; [apply debug_diff_ok|]. intros r (-> & Ha & Hd).
    split_and!; [done|done|lia|done].
  - destruct (raw_trace_replays raw) as [reps|]; [|constructor].
    apply Forall_concat_fmap. intros rep _.
    destruct (ttr_transaction_hash rep ≫= _) as [i|] eqn:Hi; [|constructor].
    destruct (ttr_state_diff rep) as [d|]; [|constructor].
    apply bind_Some in Hi as (h & _ & Hi). apply tx_positions_bound in Hi. rewrite length_fmap in Hi.
    eapply Forall_impl; [apply replay_diff_ok|]. intros r [(-> & Ha & Hd) Hk].
    split_and!; [done|done|lia|done].
Qed.
End records.

(** ** Runs *)

(** Maps as arrays of pairs. *)
#[export] Instance toy_diff : DiffJson ToyJson := fun v =>
  match v with
  | ToyArray l =>
      ViewMap (omap (fun x => match x with ToyArray [ToyStr k; w] => Some (k, w) | _ => None end) l)
  | ToyStr s => ViewString s
  | _ => ViewNone
  end.

Definition toy_map (l : list (string * ToyJson)) : ToyJson :=
  ToyArray ((fun '(k, v) => ToyArray [ToyStr k; v]) <$> l).

Definition demo_diff : DebugStateDiffResult ToyJson :=
  mkDebugStateDiffResult
    (mkDebugStateDiff
       [("0xAA", toy_map [("storage", toy_map [("0x1", ToyStr "0x5"); ("0x2", ToyStr "0x6")])])]
       [("0xAA", toy_map [("balance", ToyStr "0x9");
                          ("storage", toy_map [("0x2", ToyStr "0x7"); ("0x3", ToyStr "0x8")])])])%string
    None.

Lemma state_diff_exact_witness :
  (forall r, r ∈ map_debug_state_diff 4 demo_diff -> sd_transaction_index r = 4%N) /\
  (fun r => (sd_key r, sd_kind r)) <$> map_debug_state_diff 4 demo_diff =
    [("balance", "+"); ("0x1", "-"); ("0x2", "*"); ("0x3", "+")]%string /\
  exists accounts, NoDup accounts /\ ("0xAA"%string ∈ accounts).
Proof.
  destruct (state_diff_exact 4 demo_diff) as (accounts & slots & Hnd & Hin & _).
  - split; [|split; [|split]]; try (vm_compute; repeat constructor; set_solver).
    all: intros a; unfold object_at, map_get; simpl; case_bool_decide; vm_compute;
      repeat constructor; set_solver.
  - split; [|split; [reflexivity|]].
    + intros r Hr. vm_compute in Hr. set_solver.
    + exists accounts. split; [exact Hnd|]. apply Hin. left. vm_compute. left.
Defined.

Definition demo_trace : TraceFrame :=
  mkTraceFrame (RawBlock.ActionCall (mkTraceActionCall "call" "0xAB" "0x1" "0x" "0xCD" "0x0")) None None
    (Some (RawBlock.ResultCall (mkTraceResultCall "0x1" "0x"))) 0 [] None None "call" None.

Definition demo_replays : list (TraceTransactionReplay ToyJson) :=
  [mkTraceTransactionReplay None None (Some [demo_trace]) (Some "0xa"%string)].

Definition demo_raw_block : RawRpcBlock ToyJson :=
  set_trace_replays (toy_raw 7 "0x7" "0x6" [sample_tx "0x"]) (Some demo_replays).

Lemma accepted_replays_attributed_witness :
  exists idxs, idxs ≡ₚ [0] /\
    nb_traces (map_rpc_block (fun _ => None (A := nat)) demo_raw_block (mkMappingOptions true true)) =
      Some (concat (zip_with traces_at idxs demo_replays)).
Proof.
  destruct (accepted_replays_attributed (fun _ => None (A := nat)) (fun _ => ""%string)
    (Ok (ToyArray [ToyReplay (Some "0xa"%string) (Some [demo_trace])])) demo_raw_block ["trace"%string]
    "replays" demo_replays (mkMappingOptions true true)) as [(idxs & Hp & _ & Ht & _) _];
    [vm_compute; reflexivity|reflexivity|reflexivity|reflexivity|].
  exists idxs. split; [exact Hp|]. apply Ht. reflexivity.
Defined.

Definition demo_diff_block : RawRpcBlock ToyJson :=
  set_debug_state_diffs (toy_raw 7 "0x7" "0x6" [sample_tx "0x"]) (Some [Some demo_diff]).

Lemma state_diffs_well_formed_witness :
  exists r rest, nb_state_diffs (map_rpc_block (fun _ => None (A := nat)) demo_diff_block (mkMappingOptions true true))
    = Some (r :: rest) /\ diff_ok r /\ sd_kind r = "+"%string.
Proof.
  eexists _, _. split; [vm_compute; reflexivity|]. split; [|reflexivity].
  refine (proj1 (Forall_inv (state_diffs_well_formed (fun _ => None (A := nat)) demo_diff_block
    (mkMappingOptions true true) _ eq_refl _))).
  intros ds [= <-]. reflexivity.
Defined.

Lemma revert_reason_read_back_witness :
  extract_revert_reason (Some (RawBlock.ResultCall (mkTraceResultCall "0x0"
    ("0x" +:+ abi_hex (replicate 67 0%N ++ 2%N :: [104; 105]%N) +:+ "0000"))))
    = Some "hi"%string.
Proof.
  destruct (revert_reason_read_back "0x0" (replicate 67 0%N) [104; 105]%N "0000") as (_ & _ & Hr).
  - reflexivity.
  - apply Forall_replicate. lia.
  - repeat constructor; lia.
  - refine (Hr _ _); [simpl; lia|repeat constructor; lia].
Defined.
