(* ===== verification/Sim.v ===== *)
(** * Sim: the simulator and the scripted source (harness/sim.rs, script.rs)

    The deterministic chain a seed stands for, the source that serves it, the
    ledger of what was delivered, and its replay into the reference model;
    then the scripted source of the differential tests. The compressor is an
    interface. The theorems: a chain's heights have distinct hashes; what the
    simulator delivers keeps the contract of a source; a service driven by it
    is never made to reject anything, and the replayed ledger is its buffer. *)
From stdpp Require Import pretty.
From S2P Require Import Prelude Types Chain RefModel Service ChainRefines Run Rlp EvmTypes.
From Stdlib Require Import Strings.Byte Strings.Ascii.
Local Open Scope rust_scope.

(** ** Deterministic hashes *)

Definition wrap64 (n : N) : N := (n mod 2 ^ 64)%N.

Definition splitmix64 (x : N) : N :=
  let x := wrap64 (x + 0x9E3779B97F4A7C15) in
  let x := wrap64 (N.lxor x (N.shiftr x 30) * 0xBF58476D1CE4E5B9) in
  let x := wrap64 (N.lxor x (N.shiftr x 27) * 0x94D049BB133111EB) in
  N.lxor x (N.shiftr x 31).

Definition rotate_left64 (x k : N) : N :=
  N.lor (wrap64 (N.shiftl x k)) (N.shiftr x (64 - k)).

(** [{:016x}]: at least sixteen digits, zeros in front. *)
Fixpoint zeros (n : nat) : string :=
  match n with 0 => ""%string | S n => String "0"%char (zeros n) end.

Definition hex16 (n : N) : string :=
  zeros (16 - String.length (lower_hex n)) +:+ lower_hex n.

Definition hash_at (seed number branch : N) : string :=
  "0x" +:+ hex16 (splitmix64
    (N.lxor (N.lxor seed (wrap64 (number * 0x100000001B3))) (rotate_left64 branch 17))).

(** ** The compressor *)

Class Zstd := {
  zstd_encode : string -> list byte;
  zstd_decode : list byte -> option string
}.

Class ZstdLaws `{!Zstd} := {
  zstd_roundtrip : forall s, zstd_decode (zstd_encode s) = Some s
}.

(** ** The ledger *)

Record BatchEvent := mkBatchEvent {
  ev_blocks : list ModelBlock;
  ev_finalized : option BlockRef;
  ev_finalized_stream : bool
}.

Record LedgerEntry := mkLedgerEntry {
  le_header : ModelBlock;
  le_json_line : string
}.

#[export] Instance ModelBlock_countable : Countable ModelBlock.
Proof.
  refine (inj_countable'
    (fun b => (mb_number b, mb_hash b, mb_parent_number b, mb_parent_hash b))
    (fun '(n, h, pn, ph) => mkModelBlock n h pn ph) _).
  by intros [].
Defined.

Record Ledger := mkLedger {
  lg_entries : gmap ModelBlock LedgerEntry;
  lg_events : list BatchEvent
}.

Definition ledger_default : Ledger := mkLedger ∅ [].

Definition line_of (lg : Ledger) (header : ModelBlock) : option string :=
  le_json_line <$> lg_entries lg !! header.

(** The rest of [replay]: each head-stream delivery must apply. *)
Fixpoint replay_events (m : RefModel) (events : list BatchEvent) : option RefModel :=
  match events with
  | [] => Some m
  | ev :: events =>
      if ev_finalized_stream ev then replay_events m events
      else
      let! (m', o) := apply_batch m (ev_blocks ev) (ev_finalized ev) in
      match o with
      | Applied => replay_events m' events
      | _ => None
      end
  end.

Definition replay (lg : Ledger) (cache_size : nat) (auto_adjust : bool) : option RefModel :=
  match lg_events lg with
  | [] => None
  | seed :: events =>
      if negb (ev_finalized_stream seed && (length (ev_blocks seed) =? 1)) then None
      else
      let! b := ev_blocks seed !! 0 in
      let! r := model_init b cache_size auto_adjust in
      match r with
      | Err _ => None
      | Ok m => replay_events m events
      end
  end.

(** ** The simulated chain *)

Definition dquote (s : string) : string :=
  String (Ascii.ascii_of_nat 34) (s +:+ String (Ascii.ascii_of_nat 34) "")%string.

Definition newline : string := String (Ascii.ascii_of_nat 10) "".

Section simulator.
Context `{!Zstd}.

Definition sim_line (seed n pn : N) (hash parent_hash : string) : string :=
  ("{" +:+ dquote "number" +:+ ":" +:+ pretty n
   +:+ "," +:+ dquote "parentNumber" +:+ ":" +:+ pretty pn
   +:+ "," +:+ dquote "hash" +:+ ":" +:+ dquote hash
   +:+ "," +:+ dquote "parentHash" +:+ ":" +:+ dquote parent_hash
   +:+ "," +:+ dquote "seed" +:+ ":" +:+ pretty seed +:+ "}" +:+ newline)%string.

(** One turn of [generate]'s loop; block 0 is its own parent. *)
Definition sim_block (seed n : N) : Block :=
  let hash := hash_at seed n 0 in
  let parent_hash := if (n =? 0)%N then "0x0"%string else hash_at seed (n - 1) 0 in
  let pn := if (n =? 0)%N then 0%N else (n - 1)%N in
  mkBlock n hash pn parent_hash (Some (wrap64 (n * 1000)))
    (zstd_encode (sim_line seed n pn hash parent_hash)) None.

Record SimChain := mkSimChain { sc_seed : N; sc_blocks : list Block }.

Definition generate (seed len : N) : SimChain :=
  mkSimChain seed (sim_block seed <$> (N.of_nat <$> seq 0 (N.to_nat len))).

Definition header_of (b : Block) : ModelBlock :=
  mkModelBlock (number b) (hash b) (parent_number b) (parent_hash b).

Definition sim_header (sim : SimChain) (n : N) : option ModelBlock :=
  header_of <$> sc_blocks sim !! N.to_nat n.

Definition sim_block_ref (sim : SimChain) (n : N) : option BlockRef :=
  block_ref <$> sc_blocks sim !! N.to_nat n.

(** ** The source *)

Record SimSource := mkSimSource {
  ss_chain : list Block;
  ss_batch_size : nat;
  ss_fin_lag : N;
  ss_init_finalized : N
}.

Definition sim_source (sim : SimChain) (batch_size : nat) (fin_lag init_finalized : N) : SimSource :=
  mkSimSource (sc_blocks sim) batch_size fin_lag init_finalized.

(** One block of a delivery entered into the ledger; the payload must decode,
    and a tuple seen before must carry the same bytes. *)
Definition record_block (entries : gmap ModelBlock LedgerEntry) (b : Block)
    : option (gmap ModelBlock LedgerEntry) :=
  let header := header_of b in
  let! json_line := zstd_decode (json_line_zstd b) in
  match entries !! header with
  | None => Some (<[header := mkLedgerEntry header json_line]> entries)
  | Some e => if bool_decide (le_json_line e = json_line) then Some entries else None
  end.

Fixpoint record_blocks (entries : gmap ModelBlock LedgerEntry) (bs : list Block)
    : option (gmap ModelBlock LedgerEntry) :=
  match bs with
  | [] => Some entries
  | b :: bs => let! entries := record_block entries b in record_blocks entries bs
  end.

Definition record (lg : Ledger) (batch : BlockBatch) (finalized_stream : bool) : option Ledger :=
  let! entries := record_blocks (lg_entries lg) (batch_blocks batch) in
  Some (mkLedger entries
    (lg_events lg ++ [mkBatchEvent (header_of <$> batch_blocks batch)
                        (batch_finalized_head batch) finalized_stream])).

Definition sim_get_head (s : SimSource) : option BlockRef := block_ref <$> last (ss_chain s).

Definition sim_get_finalized_head (s : SimSource) : option BlockRef :=
  block_ref <$> ss_chain s !! N.to_nat (ss_init_finalized s).

(** [req.to] is passed. *)
Definition past_end (req : StreamRequest) (b : Block) : bool :=
  match req_to req with Some t => (t <? number b)%N | None => false end.

(** The base the request names is not this block's parent. *)
Definition base_mismatch (req : StreamRequest) (b : Block) : bool :=
  match req_parent_hash req with
  | Some ph => negb (bool_decide (ph = parent_hash b))
  | None => false
  end.

(** [get_finalized_stream]: what the stream yields, in order. *)
Fixpoint finalized_items (req : StreamRequest) (positioned : bool) (chain : list Block)
    : list (Result BlockBatch StreamError) :=
  match chain with
  | [] => []
  | b :: chain =>
      if (number b <? req_from req)%N then finalized_items req positioned chain
      else if past_end req b then []
      else if negb positioned && base_mismatch req b then [Err (Fork [parent_ref b])]
      else Ok (mkBlockBatch [b] (Some (block_ref b))) :: finalized_items req true chain
  end.

Definition sim_get_finalized_stream (s : SimSource) (req : StreamRequest)
    : list (Result BlockBatch StreamError) :=
  finalized_items req false (ss_chain s).

(** A batch with its finality report, [fin_lag] below its last block. *)
Definition head_batch (s : SimSource) (batch : list Block) : option BlockBatch :=
  let! l := last batch in
  if (number l <? ss_fin_lag s)%N then Some (mkBlockBatch batch None)
  else
  let! f := ss_chain s !! N.to_nat (number l - ss_fin_lag s) in
  Some (mkBlockBatch batch (Some (block_ref f))).

Definition flush (s : SimSource) (batch : list Block) : option (list BlockBatch) :=
  match batch with
  | [] => Some []
  | _ => let! out := head_batch s batch in Some [out]
  end.

(** [get_stream]: the batches it yields before it idles or ends. *)
Fixpoint head_batches (s : SimSource) (req : StreamRequest) (positioned : bool)
    (batch chain : list Block) : option (list BlockBatch) :=
  match chain with
  | [] => flush s batch
  | b :: chain =>
      if (number b <? req_from req)%N then head_batches s req positioned batch chain
      else if past_end req b then flush s batch
      else if negb positioned && base_mismatch req b then None
      else
      let batch := batch ++ [b] in
      if length batch =? Nat.max (ss_batch_size s) 1 then
        let! out := head_batch s batch in
        let! rest := head_batches s req true [] chain in
        Some (out :: rest)
      else head_batches s req true batch chain
  end.

Definition sim_get_stream (s : SimSource) (req : StreamRequest) : option (list BlockBatch) :=
  head_batches s req false [] (ss_chain s).

(** The ledger after these deliveries were pulled. *)
Fixpoint record_all (lg : Ledger) (finalized_stream : bool) (batches : list BlockBatch)
    : option Ledger :=
  match batches with
  | [] => Some lg
  | b :: batches =>
      let! lg := record lg b finalized_stream in record_all lg finalized_stream batches
  end.

(** ** The scripted source *)

Record Event := mkEvent {
  event_blocks : list ModelBlock;
  event_finalized_head : option BlockRef
}.

Definition block_of (b : ModelBlock) : Block :=
  mkBlock (mb_number b) (mb_hash b) (mb_parent_number b) (mb_parent_hash b)
    (Some (wrap64 (mb_number b * 1000)))
    (zstd_encode ("{" +:+ dquote "number" +:+ ":" +:+ pretty (mb_number b) +:+ "}" +:+ newline)) None.

Definition event_batch (ev : Event) : BlockBatch :=
  mkBlockBatch (block_of <$> event_blocks ev) (event_finalized_head ev).

(** The [call]-th head stream: the script on the first, nothing afterwards. *)
Definition scripted_get_stream (events : list Event) (call : nat) : list BlockBatch :=
  if call =? 0 then event_batch <$> events else [].

Definition scripted_get_head (seed : ModelBlock) : BlockRef := block_ref (block_of seed).
Definition scripted_get_finalized_stream (seed : ModelBlock) : list BlockBatch :=
  [mkBlockBatch [block_of seed] (Some (block_ref (block_of seed)))].

(** The loop of [replay]: up to the first event the model does not apply. *)
Fixpoint script_events (m : RefModel) (events : list Event) : option (RefModel * ApplyOutcome) :=
  match events with
  | [] => Some (m, Applied)
  | ev :: events =>
      let! (m', o) := apply_batch m (event_blocks ev) (event_finalized_head ev) in
      match o with
      | Applied => script_events m' events
      | stopped => Some (m', stopped)
      end
  end.

Definition script_replay (seed : ModelBlock) (events : list Event) (cache_size : nat)
    (auto_adjust : bool) : option (RefModel * ApplyOutcome) :=
  let! r := model_init seed cache_size auto_adjust in
  match r with Err _ => None | Ok m => script_events m events end.
End simulator.

(** ** The hash function separates heights *)

Lemma wrap64_small n : (n < 2 ^ 64)%N -> wrap64 n = n.
Proof. intros. unfold wrap64. by apply N.mod_small. Qed.

Lemma wrap64_bound n : (wrap64 n < 2 ^ 64)%N.
Proof. apply N.mod_lt. lia. Qed.

Lemma wrap64_add_inj c x y :
  (x < 2 ^ 64)%N -> (y < 2 ^ 64)%N -> wrap64 (x + c) = wrap64 (y + c) -> x = y.
Proof.
  unfold wrap64. intros Hx Hy E.
  pose proof (N.div_mod (x + c) (2 ^ 64) ltac:(lia)).
  pose proof (N.div_mod (y + c) (2 ^ 64) ltac:(lia)). rewrite E in *.
  pose proof (N.mod_lt (y + c) (2 ^ 64) ltac:(lia)).
  set (q := ((x + c) / 2 ^ 64)%N) in *. set (q' := ((y + c) / 2 ^ 64)%N) in *.
  clearbody q q'. destruct (N.lt_trichotomy q q') as [|[->|]]; nia.
Qed.

(** Multiplication by a unit of the ring of 64-bit words is injective. *)
Lemma wrap64_mul_inj c d x y :
  ((c * d) mod 2 ^ 64 = 1)%N -> (x < 2 ^ 64)%N -> (y < 2 ^ 64)%N ->
  wrap64 (x * c) = wrap64 (y * c) -> x = y.
Proof.
  intros Hd Hx Hy E.
  assert (forall z, (z < 2 ^ 64)%N -> wrap64 (wrap64 (z * c) * d) = z) as Hinv.
  { intros z Hz. unfold wrap64. rewrite N.Div0.mul_mod_idemp_l, <- N.mul_assoc.
    rewrite <- N.Div0.mul_mod_idemp_r, Hd, N.mul_1_r. by apply N.mod_small. }
  rewrite <- (Hinv x Hx), <- (Hinv y Hy). by rewrite E.
Qed.

Lemma shiftr_fixed s z : (0 < s)%N -> N.shiftr z s = z -> z = 0%N.
Proof.
  intros Hs E. rewrite N.shiftr_div_pow2 in E. destruct (N.eq_0_gt_0_cases z) as [|Hz]; [done|].
  assert (1 < 2 ^ s)%N by (apply N.pow_gt_1; lia).
  pose proof (N.div_lt z (2 ^ s) Hz ltac:(done)). lia.
Qed.

Lemma xorshift_inj s x y :
  (0 < s)%N -> N.lxor x (N.shiftr x s) = N.lxor y (N.shiftr y s) -> x = y.
Proof.
  intros Hs E. apply N.lxor_eq, (shiftr_fixed s); [done|].
  rewrite N.shiftr_lxor. apply N.lxor_eq.
  rewrite N.lxor_assoc, (N.lxor_comm (N.shiftr y s)), <- N.lxor_assoc.
  rewrite (N.lxor_comm (N.shiftr x s)), N.lxor_assoc.
  rewrite <- N.lxor_assoc, (N.lxor_comm (N.lxor _ _)).
  apply (f_equal (N.lxor (N.lxor y (N.shiftr y s)))) in E. rewrite N.lxor_nilpotent in E.
  rewrite <- E. apply N.bits_inj. intros i. rewrite !N.lxor_spec. by do 4 destruct (N.testbit _ i).
Qed.

Lemma xorshift_bound s x : (x < 2 ^ 64)%N -> (N.lxor x (N.shiftr x s) < 2 ^ 64)%N.
Proof.
  intros Hx. destruct (N.eq_dec (N.lxor x (N.shiftr x s)) 0%N) as [->|Hn]; [lia|].
  apply N.log2_lt_pow2; [lia|].
  assert (N.shiftr x s <= x)%N.
  { rewrite N.shiftr_div_pow2. apply N.Div0.div_le_upper_bound.
    pose proof (N.pow_nonzero 2 s). nia. }
  eapply N.le_lt_trans; [apply N.log2_lxor|]. rewrite N.max_l by (by apply N.log2_le_mono).
  destruct (N.eq_dec x 0%N) as [->|]; [done|]. apply N.log2_lt_pow2; [lia|done].
Qed.

Lemma splitmix64_inj x y :
  (x < 2 ^ 64)%N -> (y < 2 ^ 64)%N -> splitmix64 x = splitmix64 y -> x = y.
Proof.
  unfold splitmix64. intros Hx Hy E.
  apply xorshift_inj in E; [|done].
  apply (wrap64_mul_inj _ 0x319642B2D24D8EC3) in E; [|reflexivity|by apply xorshift_bound, wrap64_bound..].
  apply xorshift_inj in E; [|done].
  apply (wrap64_mul_inj _ 0x96DE1B173F119089) in E; [|reflexivity|by apply xorshift_bound, wrap64_bound..].
  apply xorshift_inj in E; [|done]. by apply wrap64_add_inj in E.
Qed.

Lemma splitmix64_bound x : (splitmix64 x < 2 ^ 64)%N.
Proof. apply xorshift_bound, wrap64_bound. Qed.

Lemma parse_zeros max k s : parse_digits max 0 (zeros k +:+ s) = parse_digits max 0 s.
Proof. induction k as [|k IH]; [done|]. simpl. by destruct max. Qed.

Lemma hex16_parse n : (n < 2 ^ 64)%N -> from_str_radix_16 u64_max (hex16 n) = Ok n.
Proof.
  intros Hn. unfold hex16.
  assert (n <= u64_max)%N as Hm by (unfold u64_max; lia).
  destruct (16 - String.length (lower_hex n)) as [|k]; [by apply parse_lower_hex|].
  change (zeros (S k) +:+ lower_hex n) with (String "0"%char (zeros k +:+ lower_hex n)).
  rewrite from_str_radix_plain by done.
  change (String "0"%char (zeros k +:+ lower_hex n)) with (zeros (S k) +:+ lower_hex n).
  rewrite parse_zeros. pose proof (parse_lower_hex _ _ Hm) as Hp. unfold lower_hex in *.
  destruct (hex_digits_cons (S (N.to_nat (N.size n))) n ""%string ltac:(lia)) as (c & s & E & Hc).
  rewrite E in *. by rewrite from_str_radix_plain in Hp.
Qed.

Lemma lxor_bound x y : (x < 2 ^ 64)%N -> (y < 2 ^ 64)%N -> (N.lxor x y < 2 ^ 64)%N.
Proof.
  intros Hx Hy. destruct (N.eq_dec (N.lxor x y) 0%N) as [->|Hn]; [lia|].
  apply N.log2_lt_pow2; [lia|]. eapply N.le_lt_trans; [apply N.log2_lxor|].
  apply N.max_lub_lt.
  all: match goal with |- (N.log2 ?z < _)%N => destruct (N.eq_dec z 0%N) as [->|]; [done|] end.
  all: apply N.log2_lt_pow2; [lia|done].
Qed.

Lemma rotate_bound x k : (x < 2 ^ 64)%N -> (rotate_left64 x k < 2 ^ 64)%N.
Proof.
  intros Hx. unfold rotate_left64.
  destruct (N.eq_dec (N.lor (wrap64 (N.shiftl x k)) (N.shiftr x (64 - k))) 0%N) as [->|Hn]; [lia|].
  apply N.log2_lt_pow2; [lia|]. rewrite N.log2_lor.
  assert (N.shiftr x (64 - k) < 2 ^ 64)%N.
  { rewrite N.shiftr_div_pow2. eapply N.le_lt_trans; [|exact Hx].
    apply N.Div0.div_le_upper_bound. pose proof (N.pow_nonzero 2 (64 - k)). nia. }
  pose proof (wrap64_bound (N.shiftl x k)).
  apply N.max_lub_lt.
  all: match goal with |- (N.log2 ?z < _)%N => destruct (N.eq_dec z 0%N) as [->|]; [done|] end.
  all: apply N.log2_lt_pow2; [lia|done].
Qed.

Lemma rotate_bit x k i :
  (x < 2 ^ 64)%N -> (0 < k < 64)%N -> (i < 64)%N ->
  N.testbit (rotate_left64 x k) ((i + k) mod 64) = N.testbit x i.
Proof.
  intros Hx Hk Hi. unfold rotate_left64, wrap64. rewrite N.lor_spec, N.shiftr_spec by apply N.le_0_l.
  assert (forall j, (64 <= j)%N -> N.testbit x j = false) as Hhigh.
  { intros j Hj. destruct (N.eq_dec x 0%N) as [->|]; [apply N.bits_0|].
    apply N.bits_above_log2.
    assert (N.log2 x < 64)%N by (apply N.log2_lt_pow2; [lia|exact Hx]). lia. }
  destruct (N.lt_ge_cases (i + k) 64) as [Hlt|Hge].
  - rewrite (N.mod_small (i + k)) by done. rewrite N.mod_pow2_bits_low by done.
    rewrite N.shiftl_spec_high by lia. replace (i + k - k)%N with i by lia.
    by rewrite (Hhigh (i + k + (64 - k))%N), orb_false_r by lia.
  - assert ((i + k) mod 64 = i + k - 64)%N as ->.
    { symmetry. apply (N.mod_unique _ _ 1); lia. }
    rewrite N.mod_pow2_bits_low by lia. rewrite N.shiftl_spec_low by lia.
    by replace (i + k - 64 + (64 - k))%N with i by lia.
Qed.

Lemma rotate_inj x y k :
  (x < 2 ^ 64)%N -> (y < 2 ^ 64)%N -> (0 < k < 64)%N ->
  rotate_left64 x k = rotate_left64 y k -> x = y.
Proof.
  intros Hx Hy Hk E.
  rewrite <- (wrap64_small x), <- (wrap64_small y) by done. unfold wrap64.
  apply N.bits_inj. intros i. destruct (N.lt_ge_cases i 64) as [Hi|Hi].
  - rewrite !N.mod_pow2_bits_low by done. by rewrite <- (rotate_bit x k), <- (rotate_bit y k), E.
  - by rewrite !N.mod_pow2_bits_high.
Qed.

(** The simulator's hashes separate heights and branches: for every seed,
    two 64-bit heights of a branch, or two branches at a height, have the same
    hash only if they are the same. *)
Theorem heights_have_distinct_hashes (seed branch n m : N)
    (Hseed : (seed < 2 ^ 64)%N) (Hbranch : (branch < 2 ^ 64)%N)
    (Hn : (n < 2 ^ 64)%N) (Hm : (m < 2 ^ 64)%N) :
  (hash_at seed n branch = hash_at seed m branch <-> n = m) /\
  (forall branch', (branch' < 2 ^ 64)%N -> hash_at seed n branch = hash_at seed n branch' ->
     branch = branch').
Proof.
  assert (forall a b, (a < 2 ^ 64)%N -> (b < 2 ^ 64)%N ->
    ("0x" +:+ hex16 (splitmix64 a))%string = ("0x" +:+ hex16 (splitmix64 b))%string -> a = b) as Hinj.
  { intros a b Ha Hb E. injection E as E. change (hex16 (splitmix64 a) = hex16 (splitmix64 b)) in E.
    apply splitmix64_inj; [done..|].
    pose proof (hex16_parse (splitmix64 a) (splitmix64_bound a)) as Pa.
    pose proof (hex16_parse (splitmix64 b) (splitmix64_bound b)) as Pb.
    rewrite E in Pa. congruence. }
  assert (forall k br, (br < 2 ^ 64)%N ->
    (N.lxor (N.lxor seed (wrap64 (k * 0x100000001B3))) (rotate_left64 br 17) < 2 ^ 64)%N) as Hb.
  { intros k br Hbr. apply lxor_bound; [apply lxor_bound; [done|apply wrap64_bound]|by apply rotate_bound]. }
  unfold hash_at. split.
  - split; [|by intros ->]. intros E. apply Hinj in E; [|by apply Hb..].
    apply (f_equal (fun z => N.lxor z (rotate_left64 branch 17))) in E.
    rewrite !N.lxor_assoc, N.lxor_nilpotent, !N.lxor_0_r in E.
    apply (f_equal (N.lxor seed)) in E.
    rewrite <- !N.lxor_assoc, N.lxor_nilpotent, !N.lxor_0_l in E.
    by apply (wrap64_mul_inj _ 0xCE965057AFF6957B) in E.
  - intros branch' Hbr' E. apply Hinj in E; [|by apply Hb..].
    set (z := N.lxor seed _) in E. apply (f_equal (N.lxor z)) in E.
    rewrite <- !N.lxor_assoc, N.lxor_nilpotent, !N.lxor_0_l in E. by apply rotate_inj in E.
Qed.

(** ** What the source delivers *)

(** Every element a list is cut into keeps an adjacency of the whole. *)
Lemma adjacent_concat {A} (R : A -> A -> Prop) (ls : list (list A)) :
  adjacent R (concat ls) -> Forall (adjacent R) ls.
Proof.
  induction ls as [|l ls IH]; [constructor|]. simpl. intros (Hl & Hls & _)%adjacent_app.
  constructor; auto.
Qed.

Lemma hex_digits_safe fuel n acc :
  is_header_safe_hash acc = true -> is_header_safe_hash (hex_digits fuel n acc) = true.
Proof.
  revert n acc. induction fuel as [|fuel IH]; intros n acc Hacc; [done|]. cbn [hex_digits].
  assert (is_header_safe_hash (String (hex_char (n mod 16)) acc) = true) as Hc.
  { unfold is_header_safe_hash in *. cbn [String.list_ascii_of_string forallb]. rewrite Hacc, andb_true_r.
    pose proof (N.mod_lt n 16 ltac:(lia)) as Hlt. revert Hlt. generalize (n mod 16)%N as d. intros d Hd.
    assert (exists k, (k < 16)%nat /\ d = N.of_nat k) as (k & Hk & ->) by (exists (N.to_nat d); lia).
    do 16 (destruct k as [|k]; [reflexivity|]). lia. }
  destruct (_ =? 0)%N; [done|]. by apply IH.
Qed.

Lemma hash_at_legal seed n branch : hash_legal (hash_at seed n branch).
Proof.
  unfold hash_at, hash_legal. split; [done|].
  set (w := splitmix64 _). clearbody w. unfold hex16.
  assert (is_header_safe_hash (lower_hex w) = true) as Hw by by apply hex_digits_safe.
  change ("0x" +:+ ?s)%string with (String "0"%char (String "x"%char s)).
  induction (16 - String.length (lower_hex w)) as [|k IH]; [exact Hw|exact IH].
Qed.

Section deliveries.
Context `{!Zstd}.

(** What a report names: the block [fin_lag] below the batch's last. *)
Definition report_of (s : SimSource) (o : BlockBatch) : Prop :=
  exists l, last (batch_blocks o) = Some l /\
    batch_finalized_head o =
      if (number l <? ss_fin_lag s)%N then None
      else block_ref <$> ss_chain s !! N.to_nat (number l - ss_fin_lag s).

(** The chain is indexed by height. *)
Definition indexed (chain : list Block) : Prop :=
  forall i b, chain !! i = Some b -> number b = N.of_nat i.

Lemma indexed_lookup chain b :
  indexed chain -> b ∈ chain -> chain !! N.to_nat (number b) = Some b.
Proof. intros Hi [i Hb]%list_elem_of_lookup_1. by rewrite (Hi i b Hb), Nat2N.id. Qed.

Lemma head_batch_total s batch l :
  indexed (ss_chain s) -> last batch = Some l -> l ∈ ss_chain s ->
  exists o, head_batch s batch = Some o /\ batch_blocks o = batch /\ report_of s o.
Proof.
  intros Hi El Hl. unfold head_batch, report_of. rewrite El.
  destruct (N.ltb_spec (number l) (ss_fin_lag s)) as [Hlt|Hge].
  - eexists. split; [done|]. split; [done|]. exists l. by rewrite (proj2 (N.ltb_lt _ _)).
  - apply list_elem_of_lookup_1 in Hl as [i Hb]. pose proof (Hi i l Hb) as Hn.
    apply lookup_lt_Some in Hb.
    destruct (lookup_lt_is_Some_2 (ss_chain s) (N.to_nat (number l - ss_fin_lag s))) as [f Hf]; [lia|].
    rewrite Hf. eexists. split; [done|]. split; [done|]. exists l.
    split; [done|]. rewrite (proj2 (N.ltb_ge _ _)) by done. by rewrite Hf.
Qed.

Definition batch_ok (s : SimSource) (o : BlockBatch) : Prop :=
  batch_blocks o <> [] /\ length (batch_blocks o) <= Nat.max (ss_batch_size s) 1 /\ report_of s o.

Lemma flush_total s batch :
  indexed (ss_chain s) -> length batch < Nat.max (ss_batch_size s) 1 ->
  (forall b, b ∈ batch -> b ∈ ss_chain s) ->
  exists out, flush s batch = Some out /\ concat (batch_blocks <$> out) = batch /\
    Forall (batch_ok s) out.
Proof.
  intros Hi Hlen Hin. destruct batch as [|b batch]; [by exists []|].
  destruct (last (b :: batch)) as [l|] eqn:El; [|by apply last_None in El].
  destruct (head_batch_total s (b :: batch) l Hi El) as (o & Eo & Hb & Hr).
  { apply Hin. by apply last_Some_elem_of. }
  unfold flush. rewrite Eo. exists [o]. split; [done|]. simpl. rewrite Hb, app_nil_r. split; [done|].
  repeat constructor; rewrite ?Hb; [done|lia|done].
Qed.

Lemma head_batches_positioned s req batch chain :
  indexed (ss_chain s) -> req_to req = None ->
  Forall (fun b => req_from req <= number b)%N chain ->
  length batch < Nat.max (ss_batch_size s) 1 ->
  (forall b, b ∈ batch ++ chain -> b ∈ ss_chain s) ->
  exists out, head_batches s req true batch chain = Some out /\
    concat (batch_blocks <$> out) = batch ++ chain /\ Forall (batch_ok s) out.
Proof.
  intros Hi Hto Hfrom. revert batch. induction Hfrom as [|b chain Hb _ IH]; intros batch Hlen Hin.
  { rewrite app_nil_r in *. by apply flush_total. }
  cbn [head_batches negb andb]. unfold past_end. rewrite Hto, (proj2 (N.ltb_ge _ _)) by done.
  rewrite length_app. simpl. destruct (Nat.eqb_spec (length batch + 1) (Nat.max (ss_batch_size s) 1)) as [He|He].
  - destruct (head_batch_total s (batch ++ [b]) b Hi) as (o & -> & Ho & Hr).
    { by rewrite last_snoc. } { apply Hin. set_solver. }
    destruct (IH []) as (out & -> & Hc & Hall); [simpl; lia|set_solver|].
    eexists. split; [done|]. rewrite fmap_cons. simpl. rewrite Ho, Hc, <- app_assoc. split; [done|].
    constructor; [|done]. split_and!; [|rewrite Ho, length_app; simpl; lia|done].
    rewrite Ho. by destruct batch.
  - destruct (IH (batch ++ [b])) as (out & E & Hc & Hall).
    + rewrite length_app; simpl; lia.
    + intros x. rewrite <- app_assoc. apply Hin.
    + exists out. split; [done|]. by rewrite Hc, <- app_assoc.
Qed.

Lemma head_batches_skip s req p batch before chain :
  Forall (fun b => number b < req_from req)%N before ->
  head_batches s req p batch (before ++ chain) = head_batches s req p batch chain.
Proof.
  induction 1 as [|b before Hb _ IH]; [done|]. simpl. by rewrite (proj2 (N.ltb_lt _ _)).
Qed.

(** The whole head stream, opened on a base that is the parent of the first
    block at or above the height asked for. *)
Lemma sim_stream_total s req from :
  indexed (ss_chain s) -> req_to req = None -> req_from req = N.of_nat from ->
  (forall b ph, ss_chain s !! from = Some b -> req_parent_hash req = Some ph -> ph = parent_hash b) ->
  exists out, sim_get_stream s req = Some out /\
    concat (batch_blocks <$> out) = drop from (ss_chain s) /\ Forall (batch_ok s) out.
Proof.
  intros Hi Hto Hfrom Hbase. unfold sim_get_stream.
  assert (Forall (fun b => number b < req_from req)%N (take from (ss_chain s))) as Hbefore.
  { apply Forall_lookup_2. intros i b [Hb Hlt]%lookup_take_Some. rewrite (Hi i b Hb). lia. }
  assert (head_batches s req false [] (ss_chain s) = head_batches s req false [] (drop from (ss_chain s)))
    as -> by (rewrite <- (take_drop from (ss_chain s)) at 1; by rewrite head_batches_skip).
  assert (Forall (fun b => req_from req <= number b)%N (drop from (ss_chain s))) as Hafter.
  { apply Forall_lookup_2. intros i b. rewrite lookup_drop. intros Hb. rewrite (Hi _ b Hb). lia. }
  destruct (drop from (ss_chain s)) as [|b rest] eqn:Ed; [by exists []|].
  assert (head_batches s req false [] (b :: rest) = head_batches s req true [] (b :: rest)) as ->.
  { cbn [head_batches]. rewrite (proj2 (N.ltb_ge _ _)) by by eapply Forall_inv in Hafter.
    assert (base_mismatch req b = false) as ->; [|by rewrite andb_false_r].
    unfold base_mismatch. destruct (req_parent_hash req) as [ph|] eqn:Eph; [|done].
    assert (ss_chain s !! from = Some b) as Hb
      by (rewrite <- (Nat.add_0_r from), <- lookup_drop; by rewrite Ed).
    by rewrite (Hbase b ph Hb eq_refl), bool_decide_eq_true_2. }
  apply head_batches_positioned; [done..|simpl; lia|].
  intros x Hx. simpl in Hx. rewrite <- Ed in Hx. apply list_elem_of_lookup_1 in Hx as [i Hx].
  rewrite lookup_drop in Hx. by eapply list_elem_of_lookup_2.
Qed.
End deliveries.

(** ** The reference model on a canonical chain

    [canon] is any chain indexed by height whose blocks are linked and legal;
    the model is kept holding a run of it. *)
Section canonical.
Variable canon : nat -> ModelBlock.
Hypothesis canon_number : forall i, mb_number (canon i) = N.of_nat i.
Hypothesis canon_linked : forall i, linked (canon i) (canon (S i)) = true.
Hypothesis canon_parent : forall i, mb_parent_number (canon (S i)) = N.of_nat i.

(** The model holds heights [a] to [a + k - 1]; its session maximum is a block
    of the chain, not above its head and not above what it finalized. *)
Record holds (m : RefModel) (a k : nat) : Prop := {
  holds_blocks : m_blocks m = canon <$> seq a k;
  holds_f : m_f m < k;
  holds_max : forall r, m_fin_max m = Some r ->
    exists n, r = mb_ref (canon n) /\ n <= a + m_f m
}.

Lemma canon_lookup a k i : i < k -> (canon <$> seq a k) !! i = Some (canon (a + i)).
Proof. intros Hi. by rewrite list_lookup_fmap, lookup_seq_lt. Qed.

Lemma canon_last a k : 0 < k -> last (canon <$> seq a k) = Some (canon (a + k - 1)).
Proof.
  intros Hk. rewrite last_lookup, length_fmap, length_seq, canon_lookup by lia. do 2 f_equal. lia.
Qed.

Lemma canon_absent (p : ModelBlock -> bool) a k n :
  (forall b, p b = true -> mb_number b = N.of_nat n) -> a + k <= n ->
  existsb p (canon <$> seq a k) = false.
Proof.
  intros Hp Hn. apply existsb_false_Forall, Forall_fmap, Forall_lookup_2. intros i x Hx.
  apply lookup_seq in Hx as [-> Hi]. cbn. destruct (p (canon (a + i))) eqn:E; [|done].
  apply Hp in E. rewrite canon_number in E. lia.
Qed.

Lemma canon_position a k n :
  a <= n < a + k ->
  position (fun b => (mb_number b =? N.of_nat n)%N) (canon <$> seq a k) = Some (n - a).
Proof.
  revert a. induction k as [|k IH]; intros a Hn; [lia|]. cbn [seq fmap list_fmap position].
  rewrite canon_number. destruct (N.eqb_spec (N.of_nat a) (N.of_nat n)) as [E|E].
  - f_equal. lia.
  - change (list_fmap _ _ canon (seq (S a) k)) with (canon <$> seq (S a) k). rewrite IH by lia.
    simpl. f_equal. lia.
Qed.

Lemma push_next m a k :
  holds m a k ->
  m_push m (canon (a + k)) = Some (set_m_blocks m (canon <$> seq a (S k)), Applied).
Proof.
  intros [Hb Hf _]. unfold m_push. rewrite Hb.
  assert (forall p, (forall b, p b = true -> same_mb_ref b (canon (a + k)) = true) ->
    existsb p (canon <$> seq a k) = false) as Hno.
  { intros p Hp. apply (canon_absent _ a k (a + k)); [|lia]. intros b Hs%Hp.
    apply andb_true_iff in Hs as [Hs%N.eqb_eq _]. by rewrite Hs, canon_number. }
  rewrite Hno by (intros b; rewrite !andb_true_iff; tauto). rewrite Hno by done.
  rewrite canon_last by lia. destruct k as [|k]; [lia|].
  replace (a + S k) with (S (a + k)) by lia. rewrite canon_number, canon_parent.
  rewrite (proj2 (N.leb_gt _ _)) by lia. replace (S (a + k) - 1) with (a + k) by lia.
  rewrite canon_linked. do 3 f_equal.
  rewrite (seq_S (S k)), fmap_app. simpl. by replace (a + S k) with (S (a + k)) by lia.
Qed.

Lemma holds_push m a k :
  holds m a k -> holds (set_m_blocks m (canon <$> seq a (S k))) a (S k).
Proof. intros [Hb Hf Hm]. by split; [|simpl; lia|]. Qed.

Lemma push_run m a k j :
  holds m a k ->
  push_all m (canon <$> seq (a + k) j) = Some (set_m_blocks m (canon <$> seq a (k + j)), Applied).
Proof.
  revert m k. induction j as [|j IH]; intros m k Hm.
  - rewrite Nat.add_0_r. simpl. rewrite <- (holds_blocks _ _ _ Hm). by destruct m.
  - cbn [seq fmap list_fmap push_all]. rewrite (push_next m a k Hm).
    change (list_fmap _ _ canon (seq (S (a + k)) j)) with (canon <$> seq (S (a + k)) j).
    replace (S (a + k)) with (a + S k) by lia. rewrite (IH _ (S k)) by by apply holds_push.
    by replace (S k + j) with (k + S j) by lia.
Qed.

Lemma finalize_run m a k n :
  holds m a k -> n < a + k ->
  m_finalize m (mb_ref (canon n)) = Some (set_m_f m (Nat.max (m_f m) (n - a)), Applied).
Proof.
  intros [Hb Hf _] Hn. unfold m_finalize, m_finalized. rewrite Hb, !canon_lookup, canon_last by lia.
  simpl. rewrite !canon_number.
  destruct (N.ltb_spec (N.of_nat n) (N.of_nat (a + m_f m))) as [Hlt|Hge].
  - rewrite Nat.max_l by lia. by destruct m.
  - rewrite Nat.add_0_r, (proj2 (N.ltb_ge _ (N.of_nat a))) by lia.
    rewrite (proj2 (N.ltb_ge _ _)) by lia. rewrite canon_position by lia.
    rewrite canon_lookup by lia. replace (a + (n - a)) with n by lia.
    by rewrite bool_decide_eq_true_2.
Qed.

Lemma settle_run m a k :
  holds m a k -> 0 < k ->
  exists f, settle_report m = Some (set_m_f m f, Applied) /\ f = m_f m.
Proof.
  intros Hm Hk. pose proof Hm as [Hb Hf Hmax]. unfold settle_report. rewrite Hb, canon_last by done.
  destruct (m_fin_max m) as [x|] eqn:Ex; [|exists (m_f m); by destruct m; simpl in *; subst].
  destruct (Hmax x eq_refl) as (n & -> & Hn). simpl. rewrite !canon_number.
  rewrite (proj2 (N.leb_le _ _)) by lia. rewrite (finalize_run m a k n Hm) by lia.
  eexists. split; [done|]. lia.
Qed.

(** A report of the chain is noted and settled. *)
Definition report_step (m : RefModel) (report : option BlockRef) : option (RefModel * ApplyOutcome) :=
  match report with
  | Some r =>
      let! (m3, o3) := note_report m r in
      match o3 with Applied => settle_report m3 | bad => Some (m3, bad) end
  | None => Some (m, Applied)
  end.

Lemma holds_set_f m a k f :
  holds m a k -> m_f m <= f < k -> holds (set_m_f m f) a k.
Proof.
  intros [Hb Hf Hm] H. split; simpl; [done|lia|]. intros r Hr. destruct (Hm r Hr) as (n & ? & ?).
  exists n. split; [done|lia].
Qed.

Lemma report_run m a k report :
  holds m a k -> 0 < k ->
  (forall r, report = Some r -> exists n, r = mb_ref (canon n) /\ n < a + k) ->
  exists m', report_step m report = Some (m', Applied) /\ holds m' a k /\
    m_f m <= m_f m' /\ m_cache_size m' = m_cache_size m /\ m_auto_adjust m' = m_auto_adjust m /\
    (forall n, report = Some (mb_ref (canon n)) -> n < a + k -> n <= a + m_f m').
Proof.
  intros Hm Hk Hrep. destruct report as [r|]; [|by exists m]. simpl.
  destruct (Hrep r eq_refl) as (n & -> & Hn). pose proof Hm as [Hb Hf Hmax].
  assert (forall n', Some (mb_ref (canon n)) = Some (mb_ref (canon n')) -> n' = n) as Hinj.
  { intros n' [= E _]. rewrite !canon_number in E. lia. }
  unfold note_report, m_finalized. rewrite Hb, canon_lookup by done. simpl. rewrite !canon_number.
  destruct (N.ltb_spec (N.of_nat n) (N.of_nat (a + m_f m))) as [Hlt|Hge].
  { destruct (settle_run m a k Hm Hk) as (f & -> & ->). exists (set_m_f m (m_f m)).
    replace (set_m_f m (m_f m)) with m by by destruct m. split_and!; try done.
    intros n' ->%Hinj _. lia. }
  assert (exists m3 : RefModel, m3 = set_m_fin_max m (Some (mb_ref (canon n))) /\
    match m_fin_max m with
    | Some x => if (N.of_nat n =? br_number x)%N && negb (bool_decide (mb_hash (canon n) = br_hash x))
                then Some (violation m "conflicting finality reports")
                else if (br_number x <? N.of_nat n)%N then Some (set_m_fin_max m (Some (mb_ref (canon n))), Applied)
                else Some (m, Applied)
    | None => Some (set_m_fin_max m (Some (mb_ref (canon n))), Applied)
    end = Some (m3, Applied)) as (m3 & Em3 & ->).
  { destruct (m_fin_max m) as [x|] eqn:Ex; [|by eexists]. destruct (Hmax x eq_refl) as (n' & -> & Hn').
    simpl. rewrite !canon_number. destruct (decide (n = n')) as [<-|Hne].
    - rewrite bool_decide_eq_true_2, andb_false_r, N.ltb_irrefl by done. exists m.
      split; [|done]. by destruct m; simpl in *; subst.
    - rewrite (proj2 (N.eqb_neq _ _)) by lia. rewrite (proj2 (N.ltb_lt _ _)) by lia. by eexists. }
  unfold settle_report. rewrite Em3. simpl. rewrite Hb, canon_last by done.
  rewrite !canon_number, (proj2 (N.leb_le _ _)) by lia.
  (* the reported block is in the run: the finalized index moves to it *)
  unfold m_finalize, m_finalized. simpl. rewrite Hb, !canon_lookup, canon_last by lia. simpl.
  rewrite !canon_number, (proj2 (N.ltb_ge _ _)) by done.
  rewrite Nat.add_0_r, (proj2 (N.ltb_ge _ (N.of_nat a))), (proj2 (N.ltb_ge _ _)) by lia.
  rewrite canon_position, canon_lookup by lia. replace (a + (n - a)) with n by lia.
  rewrite bool_decide_eq_true_2 by done. simpl. eexists. split; [done|]. simpl.
  split_and!; [|lia|done|done|].
  - split; simpl; [done|lia|]. intros r [= <-]. exists n. split; [done|lia].
  - intros n' ->%Hinj _. lia.
Qed.

Lemma apply_step_run m a k bs report j :
  holds m a k -> bs = canon <$> seq (a + k) j ->
  (forall r, report = Some r -> exists n, r = mb_ref (canon n) /\ n < a + k + j) ->
  exists m', apply_step bs report m = Some (m', Applied) /\ holds m' a (k + j) /\
    m_f m <= m_f m' /\ m_cache_size m' = m_cache_size m /\ m_auto_adjust m' = m_auto_adjust m /\
    (forall n, report = Some (mb_ref (canon n)) -> n < a + k + j -> n <= a + m_f m').
Proof.
  intros Hm -> Hrep. pose proof (holds_f _ _ _ Hm). unfold apply_step. rewrite (push_run m a k j Hm).
  set (m1 := set_m_blocks m _).
  assert (holds m1 a (k + j)) as Hm1 by (destruct Hm; split; simpl; [done|lia|done]).
  destruct (settle_run m1 a (k + j) Hm1 ltac:(lia)) as (f & -> & ->).
  replace (set_m_f m1 (m_f m1)) with m1 by by destruct m1.
  destruct (report_run m1 a (k + j) report Hm1 ltac:(lia)) as (m' & E & H1 & H2 & H3 & H4 & H5).
  { intros r Hr. destruct (Hrep r Hr) as (n & ? & ?). exists n. split; [done|lia]. }
  exists m'. split; [exact E|]. split_and!; [done..|]. intros n Hn Hlt. apply H5; [done|lia].
Qed.

Lemma compact_run m a k :
  holds m a k -> 0 < m_cache_size m ->
  exists a' k', holds (m_compact m) a' k' /\ a' + k' = a + k /\ a <= a' /\
    a + m_f m <= a' + m_f (m_compact m) /\ m_cache_size (m_compact m) = m_cache_size m.
Proof.
  intros [Hb Hf Hmax] Hc. destruct (m_compact_fields m) as [al ->]. rewrite Hb, length_fmap, length_seq.
  set (ex := k - m_cache_size m).
  set (f := if (m_f m <? ex) && m_auto_adjust m then ex else m_f m).
  assert (m_f m <= f < k) as Hfk.
  { subst f. destruct (Nat.ltb_spec (m_f m) ex); simpl; [|lia]. destruct (m_auto_adjust m); subst ex; lia. }
  exists (a + Nat.min ex f), (k - Nat.min ex f). split_and!; simpl; [|lia..|done].
  split; simpl; [|lia|].
  - rewrite <- fmap_drop. f_equal. rewrite drop_seq. done.
  - intros r Hr. destruct (Hmax r Hr) as (n & -> & Hn). exists n. split; [done|lia].
Qed.

Lemma holds_well_formed m a k : holds m a k -> well_formed m = true.
Proof.
  intros [Hb Hf _]. unfold well_formed. rewrite Hb, length_fmap, length_seq.
  rewrite (proj2 (Nat.ltb_lt _ _)), andb_true_r by done.
  apply andb_true_iff. split.
  - destruct k; [lia|]. done.
  - assert (adjacent (fun x y => linked x y && (mb_number x <? mb_number y)%N = true)
      (canon <$> seq a k)) as Ha.
    { apply adjacent_fmap. intros i x y [-> _]%lookup_seq [-> _]%lookup_seq.
      rewrite Nat.add_succ_r, canon_linked, !canon_number. apply N.ltb_lt. lia. }
    apply adjacent_windows2 in Ha. rewrite Forall_forall in Ha.
    apply forallb_forall. intros [x y] Hxy%list_elem_of_In. exact (Ha _ Hxy).
Qed.

(** One batch that continues the run is applied. *)
Lemma batch_run m a k batch j :
  holds m a k -> 0 < m_cache_size m -> validate_passes batch ->
  abs_block <$> batch_blocks batch = canon <$> seq (a + k) j ->
  (forall r, batch_finalized_head batch = Some r -> exists n, r = mb_ref (canon n) /\ n < a + k + j) ->
  exists m' a' k',
    apply_batch m (abs_block <$> batch_blocks batch) (batch_finalized_head batch) = Some (m', Applied) /\
    holds m' a' k' /\ a' + k' = a + k + j /\ m_cache_size m' = m_cache_size m /\
    a + m_f m <= a' + m_f m' /\
    (forall n, batch_finalized_head batch = Some (mb_ref (canon n)) -> n < a + k + j -> n <= a' + m_f m').
Proof.
  intros Hm Hc Hv Hbs Hrep. destruct (apply_batch_checks m batch) as [[_ ->]|[Hn _]]; [|done].
  destruct (apply_step_run m a k _ _ j Hm Hbs Hrep) as (m1 & E1 & Hm1 & Hf1 & Hc1 & _ & Hn1).
  unfold atomic_step. rewrite E1.
  destruct (compact_run m1 a (k + j) Hm1) as (a' & k' & Hm2 & Hak & Ha & Hf2 & Hc2); [congruence|].
  unfold assert_well_formed. rewrite (holds_well_formed _ _ _ Hm2).
  do 3 eexists. split; [done|]. split; [exact Hm2|]. split_and!; [lia|congruence|lia|].
  intros n Hr Hlt. specialize (Hn1 n Hr Hlt). lia.
Qed.

(** A session over a run cut into batches: every batch is applied, whatever
    the cut, and the finalized head is not below any report. *)
Lemma session_run batches m a k J :
  holds m a k -> 0 < m_cache_size m -> Forall validate_passes batches ->
  abs_block <$> concat (batch_blocks <$> batches) = canon <$> seq (a + k) J ->
  Forall (fun o => forall l r, last (batch_blocks o) = Some l -> batch_finalized_head o = Some r ->
    exists n, r = mb_ref (canon n) /\ (N.of_nat n <= number l)%N) batches ->
  exists m' a' k', model_session m batches = Some (m', Applied) /\ holds m' a' k' /\
    a' + k' = a + k + J /\ a + m_f m <= a' + m_f m' /\
    (forall o n, o ∈ batches -> batch_finalized_head o = Some (mb_ref (canon n)) -> n <= a' + m_f m').
Proof.
  revert m a k J. induction batches as [|b batches IH]; intros m a k J Hm Hc Hv Hbs Hrep.
  { exists m, a, k. destruct J; [|done]. split_and!; [done|done|lia|lia|set_solver]. }
  rewrite fmap_cons in Hbs. simpl in Hbs. rewrite fmap_app in Hbs.
  apply Forall_cons in Hv as [Hvb Hv]. apply Forall_cons in Hrep as [Hrb Hrep].
  set (j := length (batch_blocks b)).
  assert (J = j + (J - j)) as HJ.
  { apply (f_equal length) in Hbs. rewrite length_app, !length_fmap, length_seq in Hbs. lia. }
  rewrite HJ, seq_app, fmap_app in Hbs.
  apply app_inj_1 in Hbs as [Hb Hrest]; [|by rewrite !length_fmap, length_seq].
  assert (forall l, last (batch_blocks b) = Some l -> number l = N.of_nat (a + k + j - 1) /\ 0 < j) as Hlast.
  { intros l Hl. apply (f_equal last) in Hb. rewrite fmap_last, Hl in Hb.
    assert (0 < j) by (subst j; destruct (batch_blocks b); simpl; [done|lia]).
    rewrite canon_last in Hb by done. injection Hb as Hb. split; [|done].
    transitivity (mb_number (abs_block l)); [done|]. by rewrite Hb, canon_number. }
  destruct (batch_run m a k b j Hm Hc Hvb Hb) as (m1 & a1 & k1 & E1 & Hm1 & Hak & Hc1 & Hf1 & Hn1).
  { intros r Hr. destruct Hvb as (Hne & _). destruct (last (batch_blocks b)) as [l|] eqn:El.
    - destruct (Hrb l r eq_refl Hr) as (n & ? & ?). destruct (Hlast l eq_refl). exists n. split; [done|lia].
    - by apply last_None in El. }
  destruct (IH m1 a1 k1 (J - j) Hm1) as (m2 & a2 & k2 & E2 & Hm2 & Hak2 & Hf2 & Hn2).
  { by rewrite Hc1. } { done. } { by rewrite Hrest, Hak. } { done. }
  exists m2, a2, k2. cbn [model_session]. rewrite E1. split; [done|]. split; [done|].
  split_and!; [lia|lia|]. intros o n [->|Ho]%elem_of_cons Hr; [|by eapply Hn2].
  destruct Hvb as (Hne & _). destruct (last (batch_blocks b)) as [l|] eqn:El; [|by apply last_None in El].
  destruct (Hrb l _ eq_refl Hr) as (n' & [= En _] & Hle). destruct (Hlast l eq_refl).
  rewrite !canon_number in En. specialize (Hn1 n Hr ltac:(lia)). lia.
Qed.

(** The replay of the events such a session leaves. *)
Lemma replay_session m batches m' :
  model_session m batches = Some (m', Applied) ->
  replay_events m ((fun b => mkBatchEvent (header_of <$> batch_blocks b) (batch_finalized_head b) false)
                     <$> batches) = Some m'.
Proof.
  revert m. induction batches as [|b batches IH]; intros m; [by intros [= <-]|].
  cbn [model_session fmap list_fmap replay_events ev_finalized_stream ev_blocks ev_finalized].
  change (header_of <$> batch_blocks b) with (abs_block <$> batch_blocks b).
  destruct (apply_batch _ _ _) as [[m1 []]|]; [|done..]. apply IH.
Qed.
End canonical.

(** ** The simulated chain is canonical *)
#[local] Opaque hash_at sim_line.

Section simulated.
Context `{!Zstd} `{!ZstdLaws}.

Lemma parent_number_sim seed n :
  parent_number (sim_block seed n) = (if (n =? 0) then 0 else n - 1)%N.
Proof. done. Qed.

Lemma parent_hash_sim seed n :
  parent_hash (sim_block seed n) = if (n =? 0)%N then "0x0"%string else hash_at seed (n - 1) 0.
Proof. done. Qed.

Lemma payload_decodes seed n :
  exists t, zstd_decode (json_line_zstd (sim_block seed n)) = Some t.
Proof. eexists. apply zstd_roundtrip. Qed.

Lemma number_sim seed n : number (sim_block seed n) = n.
Proof. done. Qed.

#[local] Opaque sim_block.

Definition sim_canon (seed : N) (i : nat) : ModelBlock := header_of (sim_block seed (N.of_nat i)).

Lemma sim_canon_number seed i : mb_number (sim_canon seed i) = N.of_nat i.
Proof. done. Qed.

Lemma sim_canon_parent seed i : mb_parent_number (sim_canon seed (S i)) = N.of_nat i.
Proof.
  change (parent_number (sim_block seed (N.of_nat (S i))) = N.of_nat i).
  rewrite parent_number_sim, (proj2 (N.eqb_neq _ _)) by lia. lia.
Qed.

Lemma sim_canon_linked seed i : linked (sim_canon seed i) (sim_canon seed (S i)) = true.
Proof.
  unfold linked. rewrite sim_canon_parent, sim_canon_number, N.eqb_refl.
  apply bool_decide_eq_true.
  change (hash_at seed (N.of_nat i) 0 = parent_hash (sim_block seed (N.of_nat (S i)))).
  rewrite parent_hash_sim, (proj2 (N.eqb_neq _ _)) by lia. f_equal. lia.
Qed.

Lemma generate_lookup seed len i b :
  sc_blocks (generate seed len) !! i = Some b <->
  b = sim_block seed (N.of_nat i) /\ i < N.to_nat len.
Proof.
  simpl. rewrite !list_lookup_fmap. destruct (decide (i < N.to_nat len)) as [Hi|Hi].
  - rewrite lookup_seq_lt by done. simpl. naive_solver.
  - rewrite lookup_seq_ge by lia. simpl. naive_solver.
Qed.

Lemma generate_indexed seed len : indexed (sc_blocks (generate seed len)).
Proof. by intros i b [-> _]%generate_lookup. Qed.

Lemma generate_length seed len : length (sc_blocks (generate seed len)) = N.to_nat len.
Proof. simpl. by rewrite !length_fmap, length_seq. Qed.

Lemma sim_block_legal seed n :
  hash_legal (hash (sim_block seed n)) /\ hash_legal (parent_hash (sim_block seed n)).
Proof.
  split; [apply hash_at_legal|]. rewrite parent_hash_sim.
  destruct (n =? 0)%N; [done|apply hash_at_legal].
Qed.

Lemma generate_follows seed len : adjacent follows (sc_blocks (generate seed len)).
Proof.
  intros i x y [-> _]%generate_lookup [-> _]%generate_lookup. split.
  - rewrite <- linked_abs. apply sim_canon_linked.
  - rewrite !number_sim. lia.
Qed.

Lemma abs_drop seed len from :
  abs_block <$> drop from (sc_blocks (generate seed len)) =
  sim_canon seed <$> seq from (N.to_nat len - from).
Proof.
  apply list_eq. intros i. rewrite !list_lookup_fmap, lookup_drop.
  destruct (decide (from + i < N.to_nat len)) as [Hi|Hi].
  - rewrite lookup_seq_lt by lia. rewrite (proj2 (generate_lookup _ _ _ _) (conj eq_refl Hi)). done.
  - rewrite lookup_seq_ge by lia.
    destruct (sc_blocks (generate seed len) !! (from + i)) as [b|] eqn:E; [|done].
    apply generate_lookup in E. lia.
Qed.

(** ** What the ledger vouches for *)

(** Every entry is a block of the chain, with that block's own text. *)
Definition vouching (seed : N) (entries : gmap ModelBlock LedgerEntry) : Prop :=
  forall h e, entries !! h = Some e -> exists i, h = sim_canon seed i /\
    zstd_decode (json_line_zstd (sim_block seed (N.of_nat i))) = Some (le_json_line e).

Lemma sim_canon_inj seed i j : sim_canon seed i = sim_canon seed j -> i = j.
Proof. intros E. apply (f_equal mb_number) in E. rewrite !sim_canon_number in E. lia. Qed.

Lemma record_block_vouching seed entries i :
  vouching seed entries ->
  exists entries', record_block entries (sim_block seed (N.of_nat i)) = Some entries' /\
    vouching seed entries' /\ entries ⊆ entries' /\ is_Some (entries' !! sim_canon seed i).
Proof.
  intros Hv. unfold record_block. destruct (payload_decodes seed (N.of_nat i)) as [t Ht]. rewrite Ht.
  change (header_of (sim_block seed (N.of_nat i))) with (sim_canon seed i).
  destruct (entries !! sim_canon seed i) as [e|] eqn:E.
  - destruct (Hv _ _ E) as (j & <-%sim_canon_inj & Hd). rewrite Ht in Hd.
    injection Hd as ->. rewrite bool_decide_eq_true_2 by done. by exists entries.
  - eexists. split; [done|]. split_and!; [|by apply insert_subseteq|by rewrite lookup_insert_eq].
    intros h e' [[<- <-]|[_ He]]%lookup_insert_Some; [|by apply Hv].
    by exists i.
Qed.

Lemma record_blocks_vouching seed bs entries :
  vouching seed entries -> (forall b, b ∈ bs -> exists i, b = sim_block seed (N.of_nat i)) ->
  exists entries', record_blocks entries bs = Some entries' /\ vouching seed entries' /\
    entries ⊆ entries' /\ (forall b, b ∈ bs -> is_Some (entries' !! header_of b)).
Proof.
  revert entries. induction bs as [|b bs IH]; intros entries Hv Hbs.
  { exists entries. split_and!; [done..|]. by intros b ?%not_elem_of_nil. }
  destruct (Hbs b) as [i ->]; [by left|].
  destruct (record_block_vouching seed entries i Hv) as (e1 & E1 & Hv1 & Hs1 & Hi1).
  destruct (IH e1 Hv1) as (e2 & E2 & Hv2 & Hs2 & Hi2). { intros b Hb. apply Hbs. by right. }
  exists e2. simpl. rewrite E1. split_and!; [done|done|by etransitivity|].
  intros b [->|Hb]%elem_of_cons; [|by apply Hi2].
  destruct Hi1 as [x Hx]. exists x. by eapply lookup_weaken.
Qed.

Lemma record_all_vouching seed fs batches lg :
  vouching seed (lg_entries lg) ->
  (forall b, b ∈ concat (batch_blocks <$> batches) -> exists i, b = sim_block seed (N.of_nat i)) ->
  exists lg', record_all lg fs batches = Some lg' /\ vouching seed (lg_entries lg') /\
    lg_entries lg ⊆ lg_entries lg' /\
    (forall b, b ∈ concat (batch_blocks <$> batches) -> is_Some (lg_entries lg' !! header_of b)) /\
    lg_events lg' = lg_events lg ++
      ((fun b => mkBatchEvent (header_of <$> batch_blocks b) (batch_finalized_head b) fs) <$> batches).
Proof.
  revert lg. induction batches as [|b batches IH]; intros lg Hv Hbs.
  { exists lg. split_and!; [done..| |by rewrite app_nil_r]. by intros b ?%not_elem_of_nil. }
  rewrite fmap_cons in *. simpl in Hbs.
  destruct (record_blocks_vouching seed (batch_blocks b) (lg_entries lg) Hv) as (e1 & E1 & Hv1 & Hs1 & Hi1).
  { intros x Hx. apply Hbs, elem_of_app. by left. }
  cbn [record_all]. unfold record. rewrite E1.
  edestruct IH as (lg2 & E2 & Hv2 & Hs2 & Hi2 & Hev2); [|intros x Hx; apply Hbs, elem_of_app; by right|].
  2: { exists lg2. split; [exact E2|]. split_and!; [done| | |].
       - by etransitivity; [|exact Hs2].
       - simpl. intros x [Hx|Hx]%elem_of_app; [|by apply Hi2]. destruct (Hi1 x Hx) as [y Hy].
         exists y. by eapply lookup_weaken.
       - rewrite Hev2. simpl. by rewrite <- app_assoc. }
  exact Hv1.
Qed.

Lemma vouching_line seed lg i :
  vouching seed (lg_entries lg) -> is_Some (lg_entries lg !! sim_canon seed i) ->
  line_of lg (sim_canon seed i) = zstd_decode (json_line_zstd (sim_block seed (N.of_nat i))).
Proof.
  intros Hv [e He]. unfold line_of. rewrite He. destruct (Hv _ _ He) as (j & <-%sim_canon_inj & ->). done.
Qed.

(** ** Seeding and streaming *)

Definition first_service : Service := mkService None None false [].

Lemma batch_passes seed len bs :
  bs <> [] -> (forall b, b ∈ bs -> b ∈ sc_blocks (generate seed len)) -> adjacent follows bs ->
  forall fin, (forall r, fin = Some r -> exists n, r = block_ref (sim_block seed n)) ->
  validate_passes (mkBlockBatch bs fin).
Proof.
  intros Hne Hin Hadj fin Hfin. split_and!; simpl; [done| | |done].
  - apply Forall_forall. intros b [i [-> _]%generate_lookup]%Hin%list_elem_of_lookup_1.
    by destruct (sim_block_legal seed (N.of_nat i)) as [[? ?] [? ?]].
  - intros r Hr. destruct (Hfin r Hr) as [n ->]. by destruct (sim_block_legal seed n) as [[? ?] _].
Qed.

(** The seed block of height [fin], as the finalized stream delivers it. *)
Definition seed_batch (seed fin : N) : BlockBatch :=
  mkBlockBatch [sim_block seed fin] (Some (block_ref (sim_block seed fin))).

Lemma finalized_stream_seed seed len bs lag fin :
  (fin < len)%N ->
  sim_get_finalized_stream (sim_source (generate seed len) bs lag fin)
    (seed_request (block_ref (sim_block seed fin))) = [Ok (seed_batch seed fin)].
Proof.
  intros Hf. unfold sim_get_finalized_stream, sim_source. cbn [ss_chain].
  set (req := seed_request _).
  assert (forall p l, Forall (fun b => number b < fin)%N l -> forall rest,
    finalized_items req p (l ++ rest) = finalized_items req p rest) as Hskip.
  { intros p l Hl rest. induction Hl as [|b l Hb _ IH]; [done|]. simpl. rewrite number_sim.
    by rewrite (proj2 (N.ltb_lt _ _)). }
  rewrite <- (take_drop (N.to_nat fin) (sc_blocks (generate seed len))), Hskip.
  2:{ apply Forall_lookup_2. intros i b [[-> _]%generate_lookup Hlt]%lookup_take_Some.
      rewrite number_sim. lia. }
  rewrite (drop_S _ (sim_block seed fin)).
  2:{ apply generate_lookup. rewrite N2Nat.id. split; [done|lia]. }
  assert (Hstep : forall p b l, finalized_items req p (b :: l) =
    if (number b <? fin)%N then finalized_items req p l
    else if (fin <? number b)%N then []
    else Ok (mkBlockBatch [b] (Some (block_ref b))) :: finalized_items req true l).
  { intros p b l. cbn [finalized_items]. unfold past_end, base_mismatch, req. cbn.
    rewrite number_sim, andb_false_r. done. }
  rewrite Hstep, number_sim, N.ltb_irrefl.
  destruct (drop (S (N.to_nat fin)) (sc_blocks (generate seed len))) as [|b rest] eqn:Ed; [done|].
  assert (sc_blocks (generate seed len) !! (S (N.to_nat fin)) = Some b) as [-> _]%generate_lookup
    by (rewrite <- (Nat.add_0_r (S _)), <- lookup_drop; by rewrite Ed).
  rewrite Hstep, number_sim, (proj2 (N.ltb_ge _ _)), (proj2 (N.ltb_lt _ _)) by lia. done.
Qed.

Lemma init_seeded seed fin cache auto :
  0 < cache -> exists s1 c,
    init cache auto first_service
      (mkSeedAnswers (Ok (block_ref (sim_block seed fin))) (Some (Ok (seed_batch seed fin)))) =
      Some (s1, Ok tt) /\
    service_ready s1 c /\ sv_finalized_max s1 = None /\
    abs c None [] = mkRefModel [sim_canon seed (N.to_nat fin)] 0 cache auto None [].
Proof.
  intros Hc. assert (validate_ingest_batch (seed_batch seed fin) = Ok tt) as Hv.
  { apply validate_ok. eapply (batch_passes seed (fin + 1)); [done| |apply adjacent_singleton|].
    - intros b ->%list_elem_of_singleton. apply (list_elem_of_lookup_2 _ (N.to_nat fin)).
      apply generate_lookup. rewrite N2Nat.id. split; [done|lia].
    - intros r [= <-]. by exists fin. }
  destruct (sim_block_legal seed fin) as [[Hh1 Hh2] _].
  assert (parent_number (sim_block seed fin) <= number (sim_block seed fin))%N as Hp.
  { rewrite parent_number_sim, number_sim. case_match; lia. }
  unfold init, accept_seed. rewrite (proj2 (Nat.eqb_neq _ _)) by lia. cbn [sa_head sa_item].
  cbn [block_ref br_hash br_number]. rewrite Hh1, Hh2. cbn [negb]. rewrite Hv.
  cbn [seed_batch batch_blocks length Nat.eqb negb lookup list_lookup].
  rewrite (proj2 (N.ltb_ge _ _)) by done. rewrite N.eqb_refl, bool_decide_eq_true_2 by done.
  cbn [negb andb first_service sv_chain mbind option_bind].
  destruct (chain_new_ready (sim_block seed fin) cache auto Hc Hp) as (c & Ec & Hwf & Hu & Hb).
  rewrite Ec. destruct (trigger_update_total c Hwf) as [es ->].
  do 2 eexists. split; [reflexivity|]. split; [by split_and!|]. split; [done|].
  unfold chain_new in Ec. destruct (cache =? 0); [done|]. injection Ec as <-.
  unfold abs, sim_canon. simpl. by rewrite N2Nat.id.
Qed.

(** The head stream opened on the seed. *)
Lemma head_stream_seeded seed len bs lag fin :
  (fin < len)%N -> (len <= u64_max)%N ->
  exists out, sim_get_stream (sim_source (generate seed len) bs lag fin)
                (session_request (block_ref (sim_block seed fin))) = Some out /\
    concat (batch_blocks <$> out) = drop (S (N.to_nat fin)) (sc_blocks (generate seed len)) /\
    Forall (batch_ok (sim_source (generate seed len) bs lag fin)) out.
Proof.
  intros Hf Hl. apply sim_stream_total; [apply generate_indexed|done| |].
  - simpl. rewrite number_sim. unfold saturating_add. lia.
  - intros b ph [-> _]%generate_lookup [= <-]. rewrite parent_hash_sim.
    rewrite (proj2 (N.eqb_neq _ _)) by lia.
    change (hash_at seed fin 0 = hash_at seed (N.of_nat (S (N.to_nat fin)) - 1) 0). f_equal. lia.
Qed.

(** Such a delivery passes the service's validation, and reports a block of
    the chain not above its own last block. *)
Lemma delivery_passes seed len bs lag fin out from :
  concat (batch_blocks <$> out) = drop from (sc_blocks (generate seed len)) ->
  Forall (batch_ok (sim_source (generate seed len) bs lag fin)) out ->
  Forall validate_passes out /\
  Forall (fun o => forall l r, last (batch_blocks o) = Some l -> batch_finalized_head o = Some r ->
    exists n, r = mb_ref (sim_canon seed n) /\ (N.of_nat n <= number l)%N) out /\
  Forall (fun o => forall l, last (batch_blocks o) = Some l -> (lag <= number l)%N ->
    batch_finalized_head o = Some (mb_ref (sim_canon seed (N.to_nat (number l - lag))))) out.
Proof.
  intros Hc Hok.
  assert (Forall (adjacent follows) (batch_blocks <$> out)) as Hadj.
  { apply adjacent_concat. rewrite Hc. apply adjacent_drop, generate_follows. }
  rewrite Forall_fmap in Hadj.
  assert (forall o b, o ∈ out -> b ∈ batch_blocks o -> b ∈ sc_blocks (generate seed len)) as Hin.
  { intros o b Ho Hb. assert (b ∈ concat (batch_blocks <$> out)) as Hbc.
    { apply list_elem_of_In, in_concat. exists (batch_blocks o). rewrite <- !list_elem_of_In.
      split; [by apply list_elem_of_fmap_2|done]. }
    rewrite Hc in Hbc. apply list_elem_of_lookup_1 in Hbc as [i Hi]. rewrite lookup_drop in Hi.
    by eapply list_elem_of_lookup_2. }
  assert (forall o l, o ∈ out -> last (batch_blocks o) = Some l -> report_of (sim_source (generate seed len) bs lag fin) o ->
    batch_finalized_head o = if (number l <? lag)%N then None
      else Some (mb_ref (sim_canon seed (N.to_nat (number l - lag))))) as Hrep.
  { intros o l Ho El (l' & El' & Hr). assert (l' = l) as -> by congruence. rewrite Hr. cbn [ss_fin_lag sim_source ss_chain].
    destruct (N.ltb_spec (number l) lag) as [|Hge]; [done|].
    assert (l ∈ sc_blocks (generate seed len)) as [i [-> Hi]%generate_lookup]%list_elem_of_lookup_1.
    { apply (Hin o); [done|]. by apply last_Some_elem_of. }
    rewrite number_sim in *.
    assert (sc_blocks (generate seed len) !! N.to_nat (N.of_nat i - lag) =
      Some (sim_block seed (N.of_nat (N.to_nat (N.of_nat i - lag))))) as ->
      by (apply generate_lookup; split; [done|lia]).
    done. }
  split_and!; apply Forall_forall; intros o Ho;
    pose proof (proj1 (Forall_forall _ _) Hok o Ho) as (Hne & _ & Hr).
  - destruct o as [obs ofin]. eapply (batch_passes seed len); simpl in *; [done| | |].
    + intros b Hb. by eapply (Hin _ b Ho).
    + exact (proj1 (Forall_forall _ _) Hadj _ Ho).
    + intros r ->. destruct (last obs) as [l|] eqn:El; [|by apply last_None in El].
      specialize (Hrep _ l Ho El Hr). simpl in Hrep. destruct (_ <? _)%N; [done|]. injection Hrep as ->.
      by eexists.
  - intros l r El Hrr. specialize (Hrep o l Ho El Hr). rewrite Hrr in Hrep.
    destruct (N.ltb_spec (number l) lag); [done|]. injection Hrep as ->. eexists. split; [done|]. lia.
  - intros l El Hge. rewrite (Hrep o l Ho El Hr). by rewrite (proj2 (N.ltb_ge _ _)).
Qed.

Lemma vouching_empty seed : vouching seed ∅.
Proof. intros h e He. by rewrite lookup_empty in He. Qed.

Lemma drop_members seed len from b :
  b ∈ drop from (sc_blocks (generate seed len)) -> exists i, b = sim_block seed (N.of_nat i).
Proof.
  intros [i Hi]%list_elem_of_lookup_1. rewrite lookup_drop in Hi.
  apply generate_lookup in Hi as [-> _]. by eexists.
Qed.

(** The ledger of one seed delivery and then the head stream. *)
Lemma ledger_recorded seed len fin out :
  concat (batch_blocks <$> out) = drop (S (N.to_nat fin)) (sc_blocks (generate seed len)) ->
  exists lg1 lg, record ledger_default (seed_batch seed fin) true = Some lg1 /\
    record_all lg1 false out = Some lg /\
    lg_events lg = mkBatchEvent [sim_canon seed (N.to_nat fin)] (Some (block_ref (sim_block seed fin))) true
      :: ((fun b => mkBatchEvent (header_of <$> batch_blocks b) (batch_finalized_head b) false) <$> out) /\
    (forall b, b ∈ sim_block seed fin :: concat (batch_blocks <$> out) ->
       line_of lg (header_of b) = zstd_decode (json_line_zstd b)).
Proof.
  intros Hc.
  destruct (record_all_vouching seed true [seed_batch seed fin] ledger_default (vouching_empty seed))
    as (lg1 & E1 & Hv1 & _ & Hi1 & Hev1).
  { intros b ->%list_elem_of_singleton. exists (N.to_nat fin). by rewrite N2Nat.id. }
  cbn [record_all] in E1. destruct (record ledger_default (seed_batch seed fin) true) as [lg0|] eqn:E0; [|done].
  injection E1 as ->.
  destruct (record_all_vouching seed false out lg1 Hv1) as (lg & E & Hv & Hs & Hi & Hev).
  { intros b Hb. rewrite Hc in Hb. by eapply drop_members. }
  exists lg1, lg. split_and!; [done|done| |].
  - rewrite Hev, Hev1. unfold sim_canon. by rewrite N2Nat.id.
  - intros b Hb. assert (is_Some (lg_entries lg !! header_of b)) as He.
    { apply elem_of_cons in Hb as [->|Hb]; [|by apply Hi].
      destruct (Hi1 (sim_block seed fin)) as [e He]; [by apply list_elem_of_singleton|].
      exists e. by eapply lookup_weaken. }
    assert (exists i, b = sim_block seed (N.of_nat i)) as [i ->].
    { apply elem_of_cons in Hb as [->|Hb]; [exists (N.to_nat fin); by rewrite N2Nat.id|].
      rewrite Hc in Hb. by eapply drop_members. }
    by apply vouching_line.
Qed.

Lemma model_init_seed seed n cache auto :
  0 < cache ->
  model_init (sim_canon seed n) cache auto =
    Some (Ok (mkRefModel [sim_canon seed n] 0 cache auto None [])).
Proof.
  intros Hc. destruct (sim_block_legal seed (N.of_nat n)) as [[Hh1 Hh2] [Hp1 Hp2]].
  unfold model_init. rewrite (proj2 (Nat.eqb_neq _ _)) by lia.
  change (str_is_empty ?s) with (is_empty s). change (model_is_header_safe_hash ?s) with (is_header_safe_hash s).
  cbn [sim_canon header_of mb_hash mb_parent_hash mb_number mb_parent_number].
  rewrite Hh1, Hh2, Hp1, Hp2. cbn [negb].
  rewrite (proj2 (N.ltb_ge _ _)); [done|]. rewrite parent_number_sim, number_sim. case_match; lia.
Qed.

Lemma sim_block_ref_at seed len n :
  (n < len)%N -> sim_block_ref (generate seed len) n = Some (block_ref (sim_block seed n)).
Proof.
  intros Hn. unfold sim_block_ref. rewrite (proj2 (generate_lookup _ _ _ (sim_block seed n))); [done|].
  rewrite N2Nat.id. split; [done|lia].
Qed.

(** The last batch of a delivery ends at the end of the chain. *)
Lemma last_delivered seed len bs lag fin out o :
  concat (batch_blocks <$> out) = drop (S (N.to_nat fin)) (sc_blocks (generate seed len)) ->
  Forall (batch_ok (sim_source (generate seed len) bs lag fin)) out -> last out = Some o ->
  exists l, last (batch_blocks o) = Some l /\ number l = (len - 1)%N.
Proof.
  intros Hc Hok Ho. destruct (last (batch_blocks o)) as [l|] eqn:El'.
  2: { apply last_None in El'. by destruct (proj1 (Forall_forall _ _) Hok o (last_Some_elem_of _ _ Ho)). }
  exists l. split; [done|]. apply last_Some in Ho as [before ->].
  rewrite fmap_app, concat_app in Hc.
  change (concat (batch_blocks <$> [o])) with (batch_blocks o ++ []) in Hc. rewrite app_nil_r in Hc.
  apply (f_equal last) in Hc. rewrite last_app, El' in Hc.
  assert (S (N.to_nat fin) < N.to_nat len).
  { destruct (decide (S (N.to_nat fin) < N.to_nat len)); [done|].
    rewrite drop_ge in Hc by (rewrite generate_length; lia). done. }
  rewrite last_lookup, lookup_drop, length_drop, generate_length in Hc.
  symmetry in Hc. apply generate_lookup in Hc as [-> _]. rewrite number_sim. lia.
Qed.

(** C37: A run of the service on the simulator is the replay of the ledger: the
    source yields the seed it names and the head stream does not panic; the
    service seeds, accepts every batch of whatever size and ends holding the
    chain's last block; the ledger vouches for the bytes of every block
    delivered, and replaying it through the reference model gives exactly the
    service's buffer and finality. When anything was delivered the finalized
    head is at least [fin_lag] below the end of the chain. *)
Theorem simulated_session_agrees (seed len : N) (batch_size : nat) (fin_lag fin : N)
    (cache : nat) (auto : bool) (clock : BlockBatch -> nat -> N)
    (Hfin : (fin < len)%N) (Hlen : (len <= u64_max)%N) (Hcache : 0 < cache) :
  let sim := generate seed len in
  let s := sim_source sim batch_size fin_lag fin in
  exists head sb batches lg1 lg s1 s2 c m,
    sim_get_finalized_head s = Some head /\
    sim_get_finalized_stream s (seed_request head) = [Ok sb] /\
    init cache auto first_service (mkSeedAnswers (Ok head) (Some (Ok sb))) = Some (s1, Ok tt) /\
    sim_get_stream s (session_request head) = Some batches /\
    ingest_session s1 (batch_items ((fun b => (clock b, b)) <$> batches)) = Some (s2, None) /\
    service_ready s2 c /\
    record ledger_default sb true = Some lg1 /\ record_all lg1 false batches = Some lg /\
    replay lg cache auto = Some m /\
    m_blocks m = abs_block <$> blocks c /\ m_f m = finalized_head c /\
    get_head c = sim_block_ref sim (len - 1) /\
    (forall b, b ∈ concat (batch_blocks <$> (sb :: batches)) ->
       line_of lg (header_of b) = zstd_decode (json_line_zstd b)) /\
    (batches <> [] -> (fin_lag < len)%N -> exists fh, get_finalized_head c = Some fh /\
       (len - 1 - fin_lag <= br_number fh)%N).
Proof.
  intros sim s.
  destruct (head_stream_seeded seed len batch_size fin_lag fin Hfin Hlen) as (out & Eo & Hc & Hok).
  destruct (init_seeded seed fin cache auto Hcache) as (s1 & c1 & Ei & Hs1 & Hmax & Habs).
  destruct (ledger_recorded seed len fin out Hc) as (lg1 & lg & El1 & El & Hev & Hline).
  destruct (delivery_passes _ _ _ _ _ _ _ Hc Hok) as (Hv & Hrep & Hlast).
  set (m0 := mkRefModel [sim_canon seed (N.to_nat fin)] 0 cache auto None []) in *.
  destruct (session_run (sim_canon seed) (sim_canon_number seed) (sim_canon_linked seed) (sim_canon_parent seed)
    out m0 (N.to_nat fin) 1 (N.to_nat len - S (N.to_nat fin)))
    as (m & a & k & Em & Hm & Hak & _ & Hfm); [split; [done|simpl; lia|done]|done|done| |done|].
  { rewrite Hc, abs_drop. do 2 f_equal. lia. }
  destruct (session_refines s1 c1 ((fun b => (clock b, b)) <$> out) [] Hs1)
    as (s2 & c & st & m' & o & Es & Hs2 & Em' & Hb & Hf & Hst).
  assert (snd <$> ((fun b => (clock b, b)) <$> out) = out) as Eout.
  { rewrite <- list_fmap_compose. exact (list_fmap_id out). }
  rewrite Hmax, Habs, Eout, Em in Em'. injection Em' as <- <-.
  assert (st = None) as -> by (destruct st as [[]|]; [done|by destruct Hst|done]).
  assert (0 < k) as Hk by (pose proof (holds_f _ _ _ _ Hm); lia).
  exists (block_ref (sim_block seed fin)), (seed_batch seed fin), out, lg1, lg, s1, s2, c, m.
  split_and!; [|by apply finalized_stream_seed|done..| |done|done| | |].
  - unfold sim_get_finalized_head, s, sim. cbn [ss_chain sim_source ss_init_finalized].
    by apply sim_block_ref_at.
  - unfold replay. rewrite Hev. cbn [ev_finalized_stream ev_blocks length negb andb Nat.eqb lookup list_lookup].
    rewrite model_init_seed by done. by apply replay_session.
  - assert (mb_ref <$> last (m_blocks m) = sim_block_ref sim (len - 1)) as Hh.
    { rewrite (holds_blocks _ _ _ _ Hm), canon_last by done. unfold sim.
      rewrite sim_block_ref_at by lia. unfold sim_canon.
      by replace (N.of_nat (a + k - 1)) with (len - 1)%N by lia. }
    rewrite <- Hh, Hb, fmap_last. unfold get_head. by destruct (last_block c) eqn:E; unfold last_block in E; rewrite E.
  - intros b Hb'. apply Hline. rewrite fmap_cons in Hb'. exact Hb'.
  - intros Hne Hlag. destruct (last out) as [o|] eqn:Eo'; [|by apply last_None in Eo'].
    assert (o ∈ out) as Ho by by apply last_Some_elem_of.
    destruct (last_delivered _ _ _ _ _ _ _ Hc Hok Eo') as (l & Hl & Hn).
    specialize (Hfm o (N.to_nat (number l - fin_lag)) Ho).
    rewrite (proj1 (Forall_forall _ _) Hlast o Ho l Hl) in Hfm by lia. specialize (Hfm eq_refl).
    exists (mb_ref (sim_canon seed (a + m_f m))). split; [|simpl; rewrite number_sim; lia].
    rewrite <- (m_finalized_abs c None []). unfold m_finalized, abs. cbn [m_blocks m_f].
    rewrite <- Hb, <- Hf, (holds_blocks _ _ _ _ Hm), canon_lookup by apply (holds_f _ _ _ _ Hm). done.
Qed.
End simulated.

(** ** Scripted histories *)
Section scripted.
Context `{!Zstd}.

Lemma abs_block_of b : abs_block (block_of b) = b.
Proof. by destruct b. Qed.

Lemma abs_event ev : abs_block <$> batch_blocks (event_batch ev) = event_blocks ev.
Proof.
  destruct ev as [bs fin]. simpl. rewrite <- list_fmap_compose.
  induction bs as [|b bs IH]; [done|]. rewrite fmap_cons, IH. f_equal. apply abs_block_of.
Qed.

Lemma script_session m events :
  script_events m events = model_session m (event_batch <$> events).
Proof.
  revert m. induction events as [|ev events IH]; intros m; [done|].
  rewrite fmap_cons. cbn [script_events model_session]. rewrite abs_event.
  cbn [event_batch batch_finalized_head].
  destruct (apply_batch _ _ _) as [[m1 []]|]; [apply IH|done..].
Qed.

(** Both reject, each with its own reason. *)
Ltac rejects := do 3 eexists; split; [reflexivity|]; split; [reflexivity|]; split; [done|by intros].

(** Seeding agrees with the model's T1, on every block a source may name. *)
Lemma seed_agrees (b : Block) cache auto :
  exists s1 r r',
    init cache auto first_service
      (mkSeedAnswers (Ok (block_ref b)) (Some (Ok (mkBlockBatch [b] (Some (block_ref b)))))) = Some (s1, r) /\
    model_init (abs_block b) cache auto = Some r' /\ is_ok r = is_ok r' /\
    forall m, r' = Ok m -> exists c, service_ready s1 c /\ sv_finalized_max s1 = None /\ abs c None [] = m.
Proof.
  unfold init, accept_seed, model_init.
  cbn [sa_head sa_item block_ref br_hash br_number abs_block mb_hash mb_number mb_parent_hash mb_parent_number].
  change (str_is_empty ?s) with (is_empty s). change (model_is_header_safe_hash ?s) with (is_header_safe_hash s).
  destruct (Nat.eqb_spec cache 0) as [->|Hc]; [rejects|].
  destruct (is_empty (hash b)) eqn:E1; [rejects|].
  destruct (is_header_safe_hash (hash b)) eqn:E2; cbn [negb].
  2: { destruct (is_empty (parent_hash b)); rejects. }
  cbn [batch_blocks length Nat.eqb negb lookup list_lookup]. unfold validate_ingest_batch.
  cbn [batch_blocks validate_hashes]. rewrite E1, E2.
  destruct (is_empty (parent_hash b)) eqn:E3; [rejects|].
  destruct (is_header_safe_hash (parent_hash b)) eqn:E4; cbn [negb]; [|rejects].
  cbn [batch_finalized_head validate_report block_ref br_hash]. rewrite E1, E2. cbn [negb windows2 validate_links].
  destruct (N.ltb_spec (number b) (parent_number b)) as [Hlt|Hge]; [rejects|].
  rewrite N.eqb_refl, bool_decide_eq_true_2 by done. cbn [negb andb first_service sv_chain mbind option_bind].
  destruct (chain_new_ready b cache auto) as (c & Ec & Hwf & Hu & Hb); [lia|done|]. rewrite Ec.
  destruct (trigger_update_total c Hwf) as [es ->].
  do 3 eexists. split; [reflexivity|]. split; [reflexivity|]. split; [done|].
  intros m [= <-]. exists c. split; [by split_and!|]. split; [done|].
  unfold chain_new in Ec. destruct (cache =? 0); [done|]. by injection Ec as <-.
Qed.

(** Differential runs agree on every history: whatever blocks and finality
    reports a script delivers, however malformed, the service driven by the
    scripted source and the reference model replaying the script accept the
    same seed, apply the same deliveries, stop at the same one, and end with
    the same buffer, finality and session maximum; the replacement session
    delivers nothing. *)
Theorem scripted_session_agrees (seed : ModelBlock) (events : list Event) (cache : nat) (auto : bool)
    (clock : BlockBatch -> nat -> N) :
  let answers := mkSeedAnswers (Ok (scripted_get_head seed))
                   (Ok <$> head (scripted_get_finalized_stream seed)) in
  exists s1 r, init cache auto first_service answers = Some (s1, r) /\
  match script_replay seed events cache auto with
  | None => is_ok r = false
  | Some (m, o) =>
      r = Ok tt /\
      exists s2 c status,
        ingest_session s1 (batch_items ((fun b => (clock b, b)) <$> scripted_get_stream events 0)) =
          Some (s2, status) /\ service_ready s2 c /\
        m_blocks m = abs_block <$> blocks c /\ m_f m = finalized_head c /\
        (status = None <-> o = Applied) /\ (o = Applied -> m_fin_max m = sv_finalized_max s2) /\
        (forall call, 0 < call -> scripted_get_stream events call = [])
  end.
Proof.
  intros answers. destruct (seed_agrees (block_of seed) cache auto) as (s1 & r & r' & Ei & Em & Hr & Hready).
  exists s1, r. split; [exact Ei|]. unfold script_replay. rewrite abs_block_of in Em. rewrite Em.
  destruct r' as [m|e]; [|by destruct r].
  destruct (Hready m eq_refl) as (c1 & Hs1 & Hmax & Habs).
  destruct (session_refines s1 c1 ((fun b => (clock b, b)) <$> (event_batch <$> events)) [] Hs1)
    as (s2 & c & st & m' & o & Es & Hs2 & Em' & Hb & Hf & Hst).
  rewrite Hmax, Habs in Em'. rewrite <- (list_fmap_compose _ snd) in Em'.
  change (snd ∘ (fun b => (clock b, b))) with (@id BlockBatch) in Em'. rewrite list_fmap_id in Em'.
  rewrite script_session, Em'. split; [by destruct r as [[]|]|].
  exists s2, c, st. split_and!; [done..| | |intros [|call] Hcall; [lia|done]].
  - destruct st as [[[]|e]|]; [done| |by destruct Hst as [-> _]]. split; [done|by intros ->].
  - intros ->. by destruct st as [[]|]; [|destruct Hst|destruct Hst].
Qed.
End scripted.

(** ** Concrete runs *)

#[export] Instance identity_zstd : Zstd := {
  zstd_encode := String.list_byte_of_string;
  zstd_decode bs := Some (String.string_of_list_byte bs)
}.

#[export] Instance identity_zstd_laws : ZstdLaws.
Proof. split. intros s. simpl. by rewrite String.string_of_list_byte_of_string. Qed.

Lemma heights_have_distinct_hashes_witness :
  hash_at 0xC0FFEE 51 0 <> hash_at 0xC0FFEE 52 0 /\ hash_at 0xC0FFEE 51 0 <> hash_at 0xC0FFEE 51 1.
Proof.
  destruct (heights_have_distinct_hashes 0xC0FFEE 0 51 52) as [H1 _]; [by vm_compute..|].
  destruct (heights_have_distinct_hashes 0xC0FFEE 0 51 51) as [_ H2]; [by vm_compute..|].
  split; intros E; [apply H1 in E; done|apply (H2 1%N) in E; done].
Defined.

(** The smoke test's shape: 60 blocks, seeded at 50, batches of three. *)
Lemma simulated_session_agrees_witness :
  exists s2 c lg m batches,
    sim_get_stream (sim_source (generate 0xC0FFEE 60) 3 5 50) (session_request (block_ref (sim_block 0xC0FFEE 50))) =
      Some batches /\ length batches = 3 /\
    service_ready s2 c /\ replay lg 1000 false = Some m /\ m_blocks m = abs_block <$> blocks c.
Proof.
  destruct (simulated_session_agrees 0xC0FFEE 60 3 5 50 1000 false (fun _ _ => 7%N))
    as (h & sb & bs & lg1 & lg & s1 & s2 & c & m & Eh & _ & _ & Eb & _ & Hs & _ & _ & Em & Hb & _);
    [done|done|lia|].
  assert (h = block_ref (sim_block 0xC0FFEE 50)) as -> by (vm_compute in Eh; injection Eh as <-; by vm_compute).
  exists s2, c, lg, m, bs. split; [exact Eb|]. split; [|by split_and!].
  clear -Eb. vm_compute in Eb. injection Eb as <-. reflexivity.
Defined.
