(* ===== verification/Validators.v ===== *)
(** * Validators: the conformance harness's structural checks (harness/src/validators.rs)

    What the harness holds every response of the service to: the framing of a
    body, the records it decodes to, the headers that go with it, and the
    closed taxonomy of the outcomes that carry no data. A check returns the
    value it read or the text of the breach.

    The compressors' frame-at-a-time decoders and serde_json are interfaces; a
    [String] is the list of its bytes, trimming is of ASCII white space. The
    theorems say that each check accepts exactly what it is there to accept. *)
From S2P Require Import Prelude Types RefModel Service Rlp Frames Normalize Sim.
From stdpp Require Import pretty.
From Stdlib Require Import Ascii Strings.Byte.
Local Open Scope rust_scope.

Abbreviation text_of := String.string_of_list_byte.
Abbreviation bytes_of := String.list_byte_of_string.

#[export] Instance byte_eq_decision : EqDecision byte := Byte.byte_eq_dec.

(** ** What the checks rely on *)

(** Decoding one zstd frame, or one gzip member, at the head of the input: the
    bytes consumed and the output; and decoding a whole body across them. *)
Class BodyDecoder := {
  decode_one_zstd_frame : list byte -> Result (nat * list byte) string;
  decode_one_gzip_member : list byte -> Result (nat * list byte) string;
  decode_all_zstd : list byte -> Result (list byte) string;
  decode_all_gzip : list byte -> Result (list byte) string
}.

(** [serde_json::Value] as the checks inspect it, and its parser. *)
Class Json (V : Type) := {
  json_get : V -> string -> option V;
  json_as_u64 : V -> option N;
  json_as_str : V -> option string;
  json_as_array : V -> option (list V);
  json_from_slice : list byte -> Result V string
}.

(** [{:?}] of a string, and the texts of the two UTF-8 errors. *)
Class Formats := {
  debug_str : string -> string;
  utf8_error : list byte -> string
}.

(** ** Strings *)

Definition is_newline (c : ascii) : bool := Ascii.eqb c (Ascii.ascii_of_nat 10).

(** [text.ends_with('\n')] *)
Fixpoint ends_with_newline (s : string) : bool :=
  match s with
  | EmptyString => false
  | String c EmptyString => is_newline c
  | String _ rest => ends_with_newline rest
  end.

Fixpoint count_newlines (s : string) : nat :=
  match s with
  | EmptyString => 0
  | String c rest => (if is_newline c then 1 else 0) + count_newlines rest
  end.

(** [text.split_inclusive('\n')] *)
Fixpoint split_inclusive (s : string) : list string :=
  match s with
  | EmptyString => []
  | String c rest =>
      if is_newline c then String c EmptyString :: split_inclusive rest
      else match split_inclusive rest with
           | [] => [String c EmptyString]
           | line :: lines => String c line :: lines
           end
  end.

(** [value.split(separator)], and the part [split_once] puts before it. *)
Fixpoint split_at (separator : ascii) (s : string) : list string :=
  match s with
  | EmptyString => [EmptyString]
  | String c rest =>
      if Ascii.eqb c separator then EmptyString :: split_at separator rest
      else match split_at separator rest with
           | [] => [String c EmptyString]
           | token :: tokens => String c token :: tokens
           end
  end.

Fixpoint before (separator : ascii) (s : string) : string :=
  match s with
  | EmptyString => EmptyString
  | String c rest => if Ascii.eqb c separator then EmptyString else String c (before separator rest)
  end.

Definition is_whitespace (c : ascii) : bool :=
  let n := N_of_ascii c in ((9 <=? n)%N && (n <=? 13)%N) || (n =? 32)%N.

Fixpoint trim_start (s : string) : string :=
  match s with
  | String c rest => if is_whitespace c then trim_start rest else s
  | EmptyString => EmptyString
  end.

Fixpoint trim_end (s : string) : string :=
  match s with
  | EmptyString => EmptyString
  | String c rest =>
      match trim_end rest with
      | EmptyString => if is_whitespace c then EmptyString else String c EmptyString
      | rest => String c rest
      end
  end.

Definition trim (s : string) : string := trim_end (trim_start s).

(** [u64::from_str]: an optional plus sign, decimal digits, no overflow. *)
Fixpoint parse_decimal (max acc : N) (s : string) : Result N IntErrorKind :=
  match s with
  | EmptyString => Ok acc
  | String c rest =>
      let n := N_of_ascii c in
      if (48 <=? n)%N && (n <=? 57)%N then
        let acc := (acc * 10 + (n - 48))%N in
        if (acc <=? max)%N then parse_decimal max acc rest else Err PosOverflow
      else Err InvalidDigit
  end.

Definition parse_u64 (s : string) : Result N IntErrorKind :=
  match s with
  | EmptyString => Err EmptyInt
  | String "+" EmptyString => Err InvalidDigit
  | String "+" rest => parse_decimal u64_max 0 rest
  | _ => parse_decimal u64_max 0 s
  end.

Section checks.
Context `{BodyDecoder} `{Formats} {V : Type} `{!Json V}.

Definition from_utf8 (bs : list byte) : Result string string :=
  if utf8_ok (length bs) (Byte.to_N <$> bs) then Ok (text_of bs) else Err (utf8_error bs).

Definition lossy (bs : list byte) : string := from_utf8_lossy (Byte.to_N <$> bs).

(** ** Framing *)

Record Frame := mkFrame { fr_bytes : nat; fr_text : string }.

(** The loop of [split_frames] at [pos]; the fuel bounds the bytes left. *)
Fixpoint split_frames_at (fuel pos : nat) (body : list byte) : Result (list Frame) string :=
  match fuel with
  | 0 => Ok []
  | S fuel =>
      if pos <? length body then
        let? (consumed, out) := decode_one_zstd_frame (drop pos body) in
        if consumed =? 0 then Err ("frame consumed no input at byte " +:+ pretty pos)
        else
          let? text := from_utf8 out in
          let? frames := split_frames_at fuel (pos + consumed) body in
          Ok (mkFrame consumed text :: frames)
      else Ok []
  end.

Definition split_frames (body : list byte) : Result (list Frame) string :=
  split_frames_at (S (length body)) 0 body.

(** [{e:#}] puts a context before its cause. *)
Definition with_context {A} (context : string) (r : Result A string) : Result A string :=
  map_err (fun e => context +:+ ": " +:+ e) r.

(** The loop of [split_gzip_members], on the rest of the body. *)
Fixpoint split_gzip_rest (fuel : nat) (body rest : list byte) : Result (list Frame) string :=
  match fuel with
  | 0 => Ok []
  | S fuel =>
      match rest with
      | [] => Ok []
      | _ =>
          let offset := length body - length rest in
          let? (used, out) := with_context ("gzip member at byte " +:+ pretty offset +:+ " does not decode")
                                (decode_one_gzip_member rest) in
          let next := drop used rest in
          let consumed := length rest - length next in
          if consumed =? 0 then Err ("gzip member consumed no input at byte " +:+ pretty offset)
          else
            let? text := with_context ("gzip member at byte " +:+ pretty offset +:+ " is not UTF-8")
                           (from_utf8 out) in
            let? frames := split_gzip_rest fuel body next in
            Ok (mkFrame consumed text :: frames)
      end
  end.

Definition split_gzip_members (body : list byte) : Result (list Frame) string :=
  split_gzip_rest (S (length body)) body body.

Fixpoint check_frames (i : nat) (frames : list Frame) : Result unit string :=
  match frames with
  | [] => Ok tt
  | frame :: frames =>
      if negb (ends_with_newline (fr_text frame)) then
        Err ("REQ-6: frame " +:+ pretty i +:+ " is not newline-terminated")
      else
        let records := count_newlines (fr_text frame) in
        if negb (records =? 1) then
          Err ("REQ-6: frame " +:+ pretty i +:+ " carries " +:+ pretty records
                +:+ " records — frames are per block")
        else check_frames (S i) frames
  end.

Definition validate_framing (body : list byte) (content_encoding : string)
    : Result (list string) string :=
  let? frames :=
    if bool_decide (content_encoding = "zstd"%string) then
      map_err (fun e => "REQ-6: " +:+ e) (split_frames body)
    else if bool_decide (content_encoding = "gzip"%string) then
      map_err (fun e => "REQ-6: " +:+ e) (split_gzip_members body)
    else Err ("REQ-6: unexpected content-encoding: " +:+ content_encoding) in
  match frames with
  | [] => Err "REQ-6: successful body carries no frame"
  | _ =>
      let? _ := check_frames 0 frames in
      Ok (fr_text <$> frames)
  end.

Definition decode_body (body : list byte) (content_encoding : string) : Result string string :=
  let? out :=
    if bool_decide (content_encoding = "zstd"%string) then decode_all_zstd body
    else if bool_decide (content_encoding = "gzip"%string) then decode_all_gzip body
    else Err ("unexpected content-encoding: " +:+ content_encoding) in
  from_utf8 out.

(** ** Records *)

Record RecordRef := mkRecordRef {
  rr_number : N;
  rr_parent_number : N;
  rr_hash : string;
  rr_parent_hash : string
}.

(** What extracts the linkage of a decoded record. *)
Definition Extract : Type := V -> option (N * N * string * string).

Definition sim_extract : Extract := fun v =>
  let! number := json_get v "number" ≫= json_as_u64 in
  let! parent_number := json_get v "parentNumber" ≫= json_as_u64 in
  let! hash := json_get v "hash" ≫= json_as_str in
  let! parent_hash := json_get v "parentHash" ≫= json_as_str in
  Some (number, parent_number, hash, parent_hash).

Record DataOracle := mkDataOracle {
  do_ledger : option Ledger;
  do_eligible : option (list ModelBlock)
}.

Definition DataOracle_default : DataOracle := mkDataOracle None None.

Definition record_of_line (extract : Extract) (index : nat) (line : string)
    : Result RecordRef string :=
  match json_from_slice (bytes_of line) with
  | Err e => Err ("record " +:+ pretty index +:+ " not valid JSON: " +:+ e)
  | Ok v =>
      match extract v with
      | None => Err ("record " +:+ pretty index +:+ " lacks linkage fields")
      | Some (number, parent_number, hash, parent_hash) =>
          Ok (mkRecordRef number parent_number hash parent_hash)
      end
  end.

(** DEF-2 and DEF-4, on one record. *)
Definition check_reference (r : RecordRef) : Result unit string :=
  if is_empty (rr_hash r) || is_empty (rr_parent_hash r) then
    Err ("DEF-2: record " +:+ pretty (rr_number r) +:+ " carries an empty hash")
  else if (rr_number r <? rr_parent_number r)%N then
    Err ("DEF-4: record " +:+ pretty (rr_number r) +:+ " claims parent height "
           +:+ pretty (rr_parent_number r) +:+ " above itself")
  else Ok tt.

(** Where coverage has to start. *)
Definition check_start (from : N) (eligible : option (list ModelBlock)) (number : N)
    : Result unit string :=
  if (number <? from)%N then
    Err ("INV-20: coverage starts at " +:+ pretty number +:+ ", below requested " +:+ pretty from)
  else match eligible with
  | None => Ok tt
  | Some chain =>
      match List.find (fun b => from <=? mb_number b)%N chain with
      | Some lowest =>
          if (mb_number lowest =? number)%N then Ok tt
          else Err ("RP-5/DEF-30: coverage starts at " +:+ pretty number +:+ ", but "
                      +:+ pretty (mb_number lowest) +:+ " is the lowest eligible height ≥ "
                      +:+ pretty from)
      | None =>
          Err ("RP-5: DATA from " +:+ pretty number +:+ ", but no eligible height ≥ " +:+ pretty from
                 +:+ " exists — the empty form was owed")
      end
  end.

Definition check_position (from : N) (eligible : option (list ModelBlock))
    (previous : option RecordRef) (r : RecordRef) : Result unit string :=
  match previous with
  | Some p =>
      if (rr_number r <=? rr_number p)%N then
        Err ("INV-20: records not strictly ascending at " +:+ pretty (rr_number r) +:+ " after "
               +:+ pretty (rr_number p))
      else if negb (rr_parent_number r =? rr_number p)%N
              || negb (bool_decide (rr_parent_hash r = rr_hash p)) then
        Err ("INV-20/DEF-5: record " +:+ pretty (rr_number r) +:+ " not linked to "
               +:+ pretty (rr_number p))
      else Ok tt
  | None => check_start from eligible (rr_number r)
  end.

(** On the eligible branch, wherever the eligible chain speaks of the height. *)
Definition check_eligible (eligible : option (list ModelBlock)) (r : RecordRef)
    : Result unit string :=
  match eligible with
  | Some ((first :: _) as chain) =>
      let in_range := (mb_number first <=? rr_number r)%N
                      && (rr_number r <=? mb_number (default first (last chain)))%N in
      match List.find (fun b => mb_number b =? rr_number r)%N chain with
      | Some b =>
          if negb (bool_decide (mb_hash b = rr_hash r)) then
            Err ("RP-5/INV-21: record " +:+ pretty (rr_number r) +:+ " is " +:+ rr_hash r
                   +:+ ", off the eligible branch (expected " +:+ mb_hash b +:+ ")")
          else if negb (mb_parent_number b =? rr_parent_number r)%N
                  || negb (bool_decide (mb_parent_hash b = rr_parent_hash r)) then
            Err ("DEF-5: record " +:+ pretty (rr_number r) +:+ " claims parent ("
                   +:+ pretty (rr_parent_number r) +:+ ", " +:+ rr_parent_hash r +:+ "), not ("
                   +:+ pretty (mb_parent_number b) +:+ ", " +:+ mb_parent_hash b +:+ ")")
          else Ok tt
      | None =>
          if in_range then
            Err ("RP-5: record " +:+ pretty (rr_number r)
                   +:+ " sits inside the eligible range but at no eligible height")
          else Ok tt
      end
  | _ => Ok tt
  end.

Definition record_header (r : RecordRef) : ModelBlock :=
  mkModelBlock (rr_number r) (rr_hash r) (rr_parent_number r) (rr_parent_hash r).

Definition check_ledger (ledger : option Ledger) (line : string) (r : RecordRef)
    : Result unit string :=
  match ledger with
  | None => Ok tt
  | Some l =>
      match line_of l (record_header r) with
      | Some expected =>
          if bool_decide (expected = line) then Ok tt
          else Err ("INV-25: served bytes differ for block " +:+ pretty (rr_number r))
      | None => Err ("INV-25: block " +:+ pretty (rr_number r) +:+ " was never produced")
      end
  end.

(** The loop over the lines; [records] are those validated before. *)
Fixpoint validate_lines (from : N) (extract : Extract) (oracle : DataOracle)
    (records : list RecordRef) (lines : list string) : Result (list RecordRef) string :=
  match lines with
  | [] => Ok records
  | line :: lines =>
      let? r := record_of_line extract (length records) line in
      let? _ := check_reference r in
      let? _ := check_position from (do_eligible oracle) (last records) r in
      let? _ := check_eligible (do_eligible oracle) r in
      let? _ := check_ledger (do_ledger oracle) line r in
      validate_lines from extract oracle (records ++ [r]) lines
  end.

Definition validate_data (text : string) (from : N) (extract : Extract) (oracle : DataOracle)
    : Result (list RecordRef) string :=
  if is_empty text then Err "INV-23: empty body on a 200 response"
  else if negb (ends_with_newline text) then Err "REQ-6: body does not end at a record boundary"
  else validate_lines from extract oracle [] (split_inclusive text).

(** ** Conflicts *)

Definition MAX_FORK_REFS : nat := 101.

Definition conflict_ref (v : V) : Result BlockRef string :=
  match json_get v "number" ≫= json_as_u64 with
  | None => Err "INV-22: ref lacks number"
  | Some number =>
      match json_get v "hash" ≫= json_as_str with
      | None => Err "INV-22: ref lacks hash"
      | Some h =>
          if is_empty h then Err "DEF-2: conflict ref carries an empty hash"
          else Ok (mkBlockRef number h)
      end
  end.

Definition validate_conflict (body : V) : Result (list BlockRef) string :=
  match json_get body "previousBlocks" ≫= json_as_array with
  | None => Err "INV-22: conflict body lacks previousBlocks"
  | Some [] => Err "INV-22: empty previousBlocks (GAP-6)"
  | Some arr =>
      if MAX_FORK_REFS <? length arr then
        Err ("RP-7: " +:+ pretty (length arr) +:+ " refs exceed P-FORK-REFS-MAX ("
               +:+ pretty MAX_FORK_REFS +:+ ")")
      else
        let? refs := collect_results (conflict_ref <$> arr) in
        if forallb (fun '(a, b) => br_number a <? br_number b)%N (windows2 refs) then Ok refs
        else Err "INV-22: previousBlocks not ascending"
  end.

(** ** Headers *)

Record WireHeaders := mkWireHeaders {
  wh_content_type : option string;
  wh_content_encoding : option string;
  wh_vary : option string;
  wh_finalized_number : option string;
  wh_finalized_hash : option string
}.

Definition is_media_type (value expected : string) : bool :=
  eq_ignore_ascii_case (trim (before ";" value)) expected.

Definition expect_text (content_type : option string) (status : N) : Result unit string :=
  match content_type with
  | Some ct =>
      if is_media_type ct "text/plain" then Ok tt
      else Err ("IB-1: " +:+ pretty status +:+ " body is " +:+ ct +:+ ", not text/plain")
  | None => Err ("IB-1: " +:+ pretty status +:+ " text body lacks Content-Type")
  end.

Definition validate_watermark (number hash : option string) : Result BlockRef string :=
  match number with
  | None => Err "INV-24: missing finalized-head number header"
  | Some raw =>
      match parse_u64 raw with
      | Err e => Err ("INV-24: unparsable finalized-head number: " +:+ int_error_message e)
      | Ok number =>
          if negb (bool_decide (pretty number = raw)) then
            Err ("IB-4: finalized-head number " +:+ debug_str raw +:+ " is not a canonical decimal")
          else match hash with
          | None => Err "INV-24: missing finalized-head hash header"
          | Some hash =>
              if is_empty hash then Err "DEF-2: finalized-head hash is empty"
              else Ok (mkBlockRef number hash)
          end
      end
  end.

Definition validate_watermark_bounds (finalized head : BlockRef) : Result unit string :=
  if (br_number head <? br_number finalized)%N then
    Err ("INV-24: finalized watermark " +:+ pretty (br_number finalized) +:+ " is above the head "
           +:+ pretty (br_number head))
  else if (br_number finalized =? br_number head)%N
          && negb (bool_decide (br_hash finalized = br_hash head)) then
    Err ("INV-24: finalized watermark and head disagree at height " +:+ pretty (br_number finalized)
           +:+ ": " +:+ br_hash finalized +:+ " vs " +:+ br_hash head)
  else Ok tt.

Definition varies_on_encoding (vary : option string) : bool :=
  match vary with
  | Some value =>
      existsb (fun token => eq_ignore_ascii_case (trim token) "accept-encoding") (split_at "," value)
  | None => false
  end.

Definition validate_data_headers (headers : WireHeaders) (accept_encoding : string)
    : Result BlockRef string :=
  let? _ := expect_text (wh_content_type headers) 200 in
  let expected := (if str_contains "zstd" accept_encoding then "zstd" else "gzip")%string in
  match wh_content_encoding headers with
  | None => Err "IB-2: DATA response lacks Content-Encoding"
  | Some actual =>
      if negb (bool_decide (actual = expected)) then
        Err ("IB-2: negotiated " +:+ expected +:+ ", response uses " +:+ actual)
      else if negb (varies_on_encoding (wh_vary headers)) then
        Err "IB-2: DATA response does not vary on Accept-Encoding"
      else validate_watermark (wh_finalized_number headers) (wh_finalized_hash headers)
  end.

(** ** Outcomes *)

Inductive ErrorClass : Type :=
  | ClassInvalidRequest | ClassConflict | ClassEmpty | ClassNotFound | ClassInternal.

Inductive Outcome : Type :=
  | OutcomeClass (c : ErrorClass) | MethodNotAllowed | UnknownRoute | Unavailable.

(** A diagnostic: some text, under a text type. *)
Definition expect_diagnostic (headers : WireHeaders) (status : N) (body : list byte)
    (missing not_text : string) (c : ErrorClass) : Result ErrorClass string :=
  let? _ := expect_text (wh_content_type headers) status in
  if bool_decide (body = []) then Err missing
  else let? _ := map_err (fun e => not_text +:+ e) (from_utf8 body) in Ok c.

Definition validate_error (status : N) (headers : WireHeaders) (body : list byte)
    : Result ErrorClass string :=
  if (status =? 204)%N then
    if negb (bool_decide (body = [])) then Err "IB-5: empty form carries a body"
    else
      let? _ := map_err (fun e => "IB-5: empty form lacks watermarks: " +:+ e)
                  (validate_watermark (wh_finalized_number headers) (wh_finalized_hash headers)) in
      Ok ClassEmpty
  else if (status =? 400)%N then
    expect_diagnostic headers status body "IB-7: 400 carries no text diagnostic"
      "IB-7: 400 diagnostic is not text: " ClassInvalidRequest
  else if (status =? 404)%N then
    expect_diagnostic headers status body "IB-7: 404 carries no text diagnostic"
      "IB-7: 404 body is not text: " ClassNotFound
  else if (status =? 409)%N then
    match wh_content_type headers with
    | None => Err "IB-6: conflict body lacks Content-Type"
    | Some ct =>
        if negb (is_media_type ct "application/json") then
          Err "IB-6: conflict body is not application/json"
        else if bool_decide (is_Some (wh_finalized_number headers))
                || bool_decide (is_Some (wh_finalized_hash headers)) then
          Err "IB-6: conflict carries finalized-head headers"
        else
          let? v := map_err (fun e => "IB-6: conflict body not JSON: " +:+ e) (json_from_slice body) in
          let? _ := validate_conflict v in
          Ok ClassConflict
    end
  else if (status =? 500)%N then
    let? _ := expect_text (wh_content_type headers) status in
    if negb (String.prefix "Internal server error" (lossy body)) then
      Err "IB-7: 500 body lacks the mandated prefix"
    else Ok ClassInternal
  else Err ("INV-27: status " +:+ pretty status +:+ " is outside the closed taxonomy").

Definition validate_outcome (status : N) (headers : WireHeaders) (body : list byte)
    : Result Outcome string :=
  if (status =? 405)%N then Ok MethodNotAllowed
  else if (status =? 503)%N then
    let? _ := expect_text (wh_content_type headers) status in
    if negb (bool_decide (body = bytes_of "false")) then
      Err ("14 §operations: readiness 503 body is " +:+ debug_str (lossy body) +:+ ", not `false`")
    else Ok Unavailable
  else map_ok OutcomeClass (validate_error status headers body).

Definition validate_unknown_route (status : N) : Result Outcome string :=
  if (status =? 404)%N then Ok UnknownRoute
  else Err ("IB-1: unknown route returned " +:+ pretty status +:+ ", expected 404").
End checks.

(** ** Lines *)

Definition join_lines (lines : list string) : string := foldr String.append ""%string lines.

#[local] Arguments join_lines : simpl never.

Lemma string_app_nil_r s : (s +:+ "")%string = s.
Proof. induction s as [|c s IH]; [done|]. exact (f_equal (String c) IH). Qed.

Lemma join_cons l lines : join_lines (l :: lines) = l +:+ join_lines lines.
Proof. done. Qed.

(** One record: its only newline is its last character. *)
Definition single_line (l : string) : Prop := ends_with_newline l = true /\ count_newlines l = 1.

Lemma ends_counted s : ends_with_newline s = true -> 0 < count_newlines s.
Proof.
  induction s as [|c [|c' s] IH]; simpl in *; [done|intros ->; lia|]. intros Hs. specialize (IH Hs). lia.
Qed.

Lemma single_line_cons c l :
  single_line (String c l) <->
  (is_newline c = true /\ l = ""%string) \/ (is_newline c = false /\ single_line l).
Proof.
  unfold single_line. destruct l as [|c' l].
  - simpl. destruct (is_newline c); simpl; intuition (congruence || lia).
  - change (ends_with_newline (String c (String c' l))) with (ends_with_newline (String c' l)).
    change (count_newlines (String c (String c' l)))
      with ((if is_newline c then 1 else 0) + count_newlines (String c' l)).
    destruct (is_newline c); split.
    + intros [He Hn]. apply ends_counted in He. lia.
    + intros [[_ ?]|[? _]]; done.
    + intros [? ?]. by right.
    + intros [[? _]|[_ ?]]; done.
Qed.

Lemma split_line l rest :
  single_line l -> split_inclusive (l +:+ rest) = l :: split_inclusive rest.
Proof.
  induction l as [|c l IH]; [by intros [? _]|].
  intros [[Hc ->]|[Hc Hl]]%single_line_cons.
  - change (String c "" +:+ rest)%string with (String c rest). cbn [split_inclusive]. by rewrite Hc.
  - change (String c l +:+ rest) with (String c (l +:+ rest)). cbn [split_inclusive].
    by rewrite Hc, IH.
Qed.

Lemma split_join lines : Forall single_line lines -> split_inclusive (join_lines lines) = lines.
Proof.
  induction 1 as [|l lines Hl _ IH]; [done|].
  by rewrite join_cons, split_line, IH.
Qed.

Lemma join_split s : join_lines (split_inclusive s) = s.
Proof.
  induction s as [|c s IH]; [done|]. cbn [split_inclusive]. destruct (is_newline c).
  - by rewrite join_cons, IH.
  - destruct (split_inclusive s) as [|line lines]; rewrite <- IH; [done|]. by rewrite !join_cons.
Qed.

Lemma split_single s : ends_with_newline s = true -> Forall single_line (split_inclusive s).
Proof.
  induction s as [|c s IH]; [done|]. intros He. cbn [split_inclusive].
  destruct (is_newline c) eqn:Hc.
  - constructor; [apply single_line_cons; by left|]. destruct s as [|c' s]; [constructor|by apply IH].
  - destruct s as [|c' s]; [simpl in He; congruence|]. specialize (IH He).
    destruct (split_inclusive (String c' s)) as [|line lines] eqn:E.
    { pose proof (join_split (String c' s)) as Hj. by rewrite E in Hj. }
    inversion IH; subst. constructor; [apply single_line_cons; by right|done].
Qed.

Lemma ends_app a b : b <> ""%string -> ends_with_newline (a +:+ b) = ends_with_newline b.
Proof.
  intros Hb. induction a as [|c a IH]; [done|]. change (String c a +:+ b) with (String c (a +:+ b)).
  cbn [ends_with_newline]. rewrite IH. destruct a, b; done.
Qed.

Lemma join_ends lines :
  Forall single_line lines -> lines <> [] ->
  join_lines lines <> ""%string /\ ends_with_newline (join_lines lines) = true.
Proof.
  induction 1 as [|l lines Hl Hls IH]; [done|]. intros _. rewrite join_cons.
  destruct lines as [|l' lines].
  - destruct Hl as [He _]. change (join_lines []) with ""%string. rewrite string_app_nil_r.
    split; [by intros ->|done].
  - destruct IH as [Hne He]; [done|]. rewrite ends_app by done. split; [|done]. by destruct l.
Qed.

(** ** Decimals *)

Lemma digit_char x : (x < 10)%N -> N_of_ascii (pretty_N_char x) = (48 + x)%N.
Proof.
  intros Hx.
  assert (x = 0 \/ x = 1 \/ x = 2 \/ x = 3 \/ x = 4 \/ x = 5 \/ x = 6 \/ x = 7 \/ x = 8 \/ x = 9)%N
    as Hc by lia.
  repeat destruct Hc as [->|Hc]; try done. by subst.
Qed.

Lemma parse_decimal_go max x s :
  (x <= max)%N -> parse_decimal max 0 (pretty_N_go x s) = parse_decimal max x s.
Proof.
  revert s. induction (N.lt_wf_0 x) as [x _ IH]. intros s Hx.
  destruct (decide (x = 0%N)) as [->|Hne]; [by rewrite pretty_N_go_0|].
  assert (x / 10 < x)%N by (apply N.div_lt; lia).
  rewrite pretty_N_go_step by lia. rewrite IH by lia. cbn [parse_decimal].
  pose proof (N.mod_lt x 10 ltac:(lia)) as Hm. rewrite digit_char by done.
  pose proof (N.div_mod x 10 ltac:(lia)) as Hd.
  generalize dependent (x / 10)%N. generalize dependent (x mod 10)%N. intros m Hm d Hd Hlt.
  destruct (N.leb_spec 48 (48 + m)); [|lia]. destruct (N.leb_spec (48 + m) 57); [|lia]. cbn [andb].
  replace (d * 10 + (48 + m - 48))%N with x by lia. by rewrite (proj2 (N.leb_le x max)).
Qed.

Lemma pretty_go_head x s : (0 < x)%N -> exists c rest, pretty_N_go x s = String c rest /\ c <> "+"%char.
Proof.
  revert s. induction (N.lt_wf_0 x) as [x _ IH]. intros s Hx. rewrite pretty_N_go_step by lia.
  assert (pretty_N_char (x mod 10) <> "+"%char) as Hc.
  { intros E. pose proof (digit_char _ (N.mod_lt x 10 ltac:(lia))) as Hd. rewrite E in Hd.
    change (N_of_ascii "+") with 43%N in Hd. generalize dependent (x mod 10)%N. intros; lia. }
  assert (x / 10 < x)%N by (apply N.div_lt; lia).
  destruct (decide (x / 10 = 0)%N) as [->|Hne]; [rewrite pretty_N_go_0; eauto|].
  generalize dependent (x / 10)%N. intros d Hd Hne. apply IH; lia.
Qed.

Lemma parse_pretty n : (n <= u64_max)%N -> parse_u64 (pretty n) = Ok n.
Proof.
  intros Hn. destruct (decide (n = 0%N)) as [->|Hne]; [done|].
  assert (pretty n = pretty_N_go n "") as ->.
  { unfold pretty, pretty_N. by rewrite decide_False. }
  pose proof (parse_decimal_go u64_max n "" Hn) as Hp.
  destruct (pretty_go_head n "" ltac:(lia)) as (c & rest & E & Hc). rewrite E in *.
  unfold parse_u64. destruct c as [[][][][][][][][]]; try done.
Qed.

Lemma parse_decimal_max max acc s n :
  (acc <= max)%N -> parse_decimal max acc s = Ok n -> (n <= max)%N.
Proof.
  revert acc. induction s as [|c s IH]; intros acc Ha; cbn [parse_decimal]; [by intros [= <-]|].
  destruct (_ && _); [|done]. destruct (N.leb_spec (acc * 10 + (N_of_ascii c - 48)) max); [|done].
  by apply IH.
Qed.

Lemma parse_u64_max s n : parse_u64 s = Ok n -> (n <= u64_max)%N.
Proof.
  unfold parse_u64. intros E.
  repeat (case_match; try done; try by eapply parse_decimal_max; [|exact E]).
Qed.

(** ** What the decoders are documented to do *)

(** One unit is read from the head of the input, whatever follows it; a body is
    read unit by unit. *)
Record unit_laws (decode_one : list byte -> Result (nat * list byte) string)
    (decode_all : list byte -> Result (list byte) string) : Prop := {
  unit_within x n out : decode_one x = Ok (n, out) -> n <= length x;
  unit_local x n out rest :
    decode_one x = Ok (n, out) -> decode_one (take n x ++ rest) = Ok (n, out);
  all_nil : decode_all [] = Ok [];
  all_unit x n out outs :
    decode_one x = Ok (n, out) -> 0 < n -> decode_all (drop n x) = Ok outs ->
    decode_all x = Ok (out ++ outs)
}.

Class BodyDecoderLaws `{BodyDecoder} := {
  zstd_units : unit_laws decode_one_zstd_frame decode_all_zstd;
  gzip_units : unit_laws decode_one_gzip_member decode_all_gzip
}.

Section framing.
Context `{BodyDecoderLaws} `{Formats}.

(** The units of a body, decoded one by one. *)
Inductive units (decode : list byte -> Result (nat * list byte) string)
    : list byte -> list Frame -> Prop :=
  | units_nil : units decode [] []
  | units_cons body n out text frames :
      decode body = Ok (n, out) -> 0 < n -> from_utf8 out = Ok text ->
      units decode (drop n body) frames -> units decode body (mkFrame n text :: frames).

Definition decoder_of (content_encoding : string)
    : option ((list byte -> Result (nat * list byte) string)
              * (list byte -> Result (list byte) string)) :=
  if bool_decide (content_encoding = "zstd"%string) then Some (decode_one_zstd_frame, decode_all_zstd)
  else if bool_decide (content_encoding = "gzip"%string)
  then Some (decode_one_gzip_member, decode_all_gzip)
  else None.

Lemma decoder_laws enc one all : decoder_of enc = Some (one, all) -> unit_laws one all.
Proof.
  unfold decoder_of. repeat case_bool_decide; intros; simplify_eq; [apply zstd_units|apply gzip_units].
Qed.

Lemma units_unfold one all body frames :
  unit_laws one all ->
  units one body frames <->
  match body with
  | [] => frames = []
  | _ => exists n out text fs, one body = Ok (n, out) /\ 0 < n <= length body /\
           from_utf8 out = Ok text /\ frames = mkFrame n text :: fs /\ units one (drop n body) fs
  end.
Proof.
  intros Hlaws. split.
  - destruct 1 as [|body n out text fs E Hn Hu Hr]; [done|].
    pose proof (unit_within _ _ Hlaws _ _ _ E). destruct body as [|x body]; [simpl in *; lia|].
    by exists n, out, text, fs.
  - destruct body as [|x body]; [intros ->; constructor|].
    intros (n & out & text & fs & E & Hn & Hu & -> & Hr). econstructor; [done|lia|done|done].
Qed.

Lemma split_frames_exact fuel pos body frames :
  length body < fuel + pos ->
  split_frames_at fuel pos body = Ok frames <-> units decode_one_zstd_frame (drop pos body) frames.
Proof.
  revert pos frames. induction fuel as [|fuel IH]; intros pos frames Hf; cbn [split_frames_at];
    rewrite (units_unfold _ _ _ _ zstd_units).
  { rewrite drop_ge by lia. naive_solver. }
  destruct (Nat.ltb_spec pos (length body)) as [Hlt|Hge]; [|rewrite drop_ge by done; naive_solver].
  assert (0 < length (drop pos body)) as Hl by (rewrite length_drop; lia).
  destruct (drop pos body) as [|x rest] eqn:Ed; [simpl in Hl; lia|]. rewrite <- Ed in *. split.
  - destruct (decode_one_zstd_frame (drop pos body)) as [[n out]|e] eqn:E; [|done].
    destruct (Nat.eqb_spec n 0) as [->|Hn]; [done|].
    destruct (from_utf8 out) as [text|e] eqn:Eu; [|done].
    destruct (split_frames_at fuel (pos + n) body) as [fs|] eqn:Es; [|done]. intros [= <-].
    pose proof (unit_within _ _ zstd_units _ _ _ E). exists n, out, text, fs.
    split_and!; [done|lia|done|done|done|]. rewrite drop_drop. apply IH; [lia|done].
  - intros (n & out & text & fs & -> & Hn & Eu & -> & Hu).
    rewrite (proj2 (Nat.eqb_neq n 0)), Eu by lia. rewrite drop_drop in Hu.
    apply IH in Hu; [|lia]. by rewrite Hu.
Qed.

Lemma split_gzip_exact fuel body rest frames :
  length rest < fuel ->
  split_gzip_rest fuel body rest = Ok frames <-> units decode_one_gzip_member rest frames.
Proof.
  revert rest frames. induction fuel as [|fuel IH]; intros rest frames Hf; [lia|].
  cbn [split_gzip_rest]. rewrite (units_unfold _ _ _ _ gzip_units).
  destruct rest as [|x rest]; [naive_solver|]. set (r := x :: rest) in *.
  unfold with_context. split.
  - destruct (decode_one_gzip_member r) as [[n out]|e] eqn:E; [|done]. cbn [map_err].
    pose proof (unit_within _ _ gzip_units _ _ _ E) as Hle.
    rewrite length_drop. replace (length r - (length r - n)) with n by lia.
    destruct (Nat.eqb_spec n 0) as [->|Hn]; [done|].
    destruct (from_utf8 out) as [text|e] eqn:Eu; [|done]. cbn [map_err].
    destruct (split_gzip_rest fuel body (drop n r)) as [fs|] eqn:Es; [|done]. intros [= <-].
    exists n, out, text, fs. split_and!; [done|lia|done|done|done|].
    apply IH; [rewrite length_drop; lia|done].
  - intros (n & out & text & fs & E & Hn & Eu & -> & Hu). rewrite E. cbn [map_err].
    rewrite length_drop. replace (length r - (length r - n)) with n by lia.
    rewrite (proj2 (Nat.eqb_neq n 0)), Eu by lia. cbn [map_err].
    apply IH in Hu; [|rewrite length_drop; lia]. by rewrite Hu.
Qed.

Lemma check_frames_exact i frames :
  check_frames i frames = Ok tt <-> Forall single_line (fr_text <$> frames).
Proof.
  rewrite Forall_fmap. revert i. induction frames as [|f frames IH]; intros i; cbn [check_frames].
  { split; [constructor|done]. }
  rewrite Forall_cons, <- (IH (S i)). unfold compose, single_line at 1.
  destruct (ends_with_newline (fr_text f)); cbn [negb]; [|by split; [|intros [[? _] _]]].
  destruct (Nat.eqb_spec (count_newlines (fr_text f)) 1); cbn [negb]; [|by split; [|intros [[_ ?] _]]].
  by split; [|intros [_ ?]].
Qed.

Lemma units_decode one all body frames :
  unit_laws one all -> units one body frames ->
  exists outs, all body = Ok (concat outs) /\
    Forall2 (fun f out => from_utf8 out = Ok (fr_text f)) frames outs /\
    length body = sum_list_with fr_bytes frames.
Proof.
  intros Hlaws. induction 1 as [|body n out text frames E Hn Eu Hu (outs & Ha & Ho & Hs)].
  - exists []. by rewrite (all_nil _ _ Hlaws).
  - exists (out :: outs). split_and!; [by eapply all_unit|by constructor|].
    rewrite length_drop in Hs. pose proof (unit_within _ _ Hlaws _ _ _ E). simpl. lia.
Qed.

Lemma units_cut one all body frames k :
  unit_laws one all -> units one body frames ->
  units one (take (sum_list_with fr_bytes (take k frames)) body) (take k frames).
Proof.
  intros Hlaws Hu. revert k. induction Hu as [|body n out text frames E Hn Eu Hu IH]; intros k.
  { rewrite !take_nil. constructor. }
  destruct k as [|k]; [constructor|]. simpl.
  pose proof (unit_within _ _ Hlaws _ _ _ E). set (m := sum_list_with fr_bytes (take k frames)) in *.
  assert (take (n + m) body = take n body ++ take m (drop n body)) as ->.
  { rewrite take_drop_commute, <- (take_drop n (take (n + m) body)) at 1.
    by rewrite take_take, Nat.min_l by lia. }
  econstructor; [by eapply unit_local|done|done|]. rewrite drop_app_length'; [apply IH|].
  rewrite length_take. lia.
Qed.

Lemma validate_framing_units body enc texts :
  validate_framing body enc = Ok texts <->
  exists one all frames, decoder_of enc = Some (one, all) /\ units one body frames /\
    frames <> [] /\ texts = fr_text <$> frames /\ Forall single_line texts.
Proof.
  unfold validate_framing, decoder_of.
  assert (forall one (all : list byte -> Result (list byte) string) (split : Result (list Frame) string),
    (forall fs, split = Ok fs <-> units one body fs) ->
    (match map_err (fun e => "REQ-6: " +:+ e)%string split with
     | Ok [] => Err "REQ-6: successful body carries no frame"%string
     | Ok ((_ :: _) as frames) =>
         let? _ := check_frames 0 frames in Ok (fr_text <$> frames)
     | Err e => Err e
     end = Ok texts <->
     exists one' all' frames, Some (one, all) = Some (one', all') /\ units one' body frames /\
       frames <> [] /\ texts = fr_text <$> frames /\ Forall single_line texts)) as Hsplit.
  { intros one all split Hs. split.
    - destruct split as [[|f fs]|e]; [done| |done]. cbn [map_err].
      destruct (check_frames 0 (f :: fs)) as [[]|] eqn:Ec; [|done]. intros [= <-].
      apply check_frames_exact in Ec. exists one, all, (f :: fs).
      split_and!; [done|by apply Hs|done|done|done].
    - intros (? & ? & fs & [= <- <-] & Hu & Hne & -> & Hf). apply Hs in Hu as ->. cbn [map_err].
      destruct fs as [|f fs]; [done|]. by rewrite (proj2 (check_frames_exact 0 (f :: fs)) Hf). }
  repeat case_bool_decide.
  - rewrite <- (Hsplit decode_one_zstd_frame decode_all_zstd (split_frames body)); [by repeat case_match|].
    intros fs. apply (split_frames_exact _ 0). lia.
  - rewrite <- (Hsplit decode_one_gzip_member decode_all_gzip (split_gzip_members body));
      [by repeat case_match|].
    intros fs. apply split_gzip_exact. lia.
  - split; [done|]. naive_solver.
Qed.

(** The framing check accepts exactly the bodies made of one compression
    unit per record: the units, each decoded on its own, cover the body, there
    is at least one, and each decodes to one newline-terminated line; decoding
    the body as a whole yields the same text, and cutting an accepted body
    after any number of its records leaves a body accepted with exactly those
    records (REQ-6, IB-2, ADR-10). *)
Theorem framing_exact (body : list byte) (enc : string) (texts : list string) :
  (validate_framing body enc = Ok texts <->
   exists one all frames, decoder_of enc = Some (one, all) /\ units one body frames /\
     frames <> [] /\ texts = fr_text <$> frames /\ Forall single_line texts) /\
  (validate_framing body enc = Ok texts ->
   (exists outs, decode_body body enc = from_utf8 (concat outs) /\
      Forall2 (fun text out => from_utf8 out = Ok text) texts outs) /\
   forall k, 0 < k -> exists cut, validate_framing (take cut body) enc = Ok (take k texts)).
Proof.
  split; [apply validate_framing_units|].
  intros (one & all & frames & Hd & Hu & Hne & -> & Hf)%validate_framing_units.
  pose proof (decoder_laws _ _ _ Hd) as Hlaws. split.
  - destruct (units_decode _ _ _ _ Hlaws Hu) as (outs & Ha & Ho & _). exists outs.
    split; [|by apply Forall2_fmap_l]. unfold decode_body, decoder_of in *.
    repeat case_bool_decide; simplify_eq; by rewrite Ha.
  - intros k Hk. exists (sum_list_with fr_bytes (take k frames)). apply validate_framing_units.
    exists one, all, (take k frames). split_and!; [done|by eapply units_cut| | |].
    + destruct k, frames; done || lia.
    + by rewrite fmap_take.
    + by apply Forall_take.
Qed.
End framing.

(** ** Records *)

Section data.
Context `{Formats} {V : Type} `{!Json V}.
Implicit Types (extract : V -> option (N * N * string * string)) (oracle : DataOracle).

(** The record a line spells. *)
Definition reads extract (line : string) (r : RecordRef) : Prop :=
  exists v, json_from_slice (bytes_of line) = Ok v /\
    extract v = Some (rr_number r, rr_parent_number r, rr_hash r, rr_parent_hash r).

Definition reference_ok (r : RecordRef) : Prop :=
  rr_hash r <> ""%string /\ rr_parent_hash r <> ""%string /\ (rr_parent_number r <= rr_number r)%N.

(** Linked and ascending (INV-20, DEF-5). *)
Definition succeeds (p r : RecordRef) : Prop :=
  (rr_number p < rr_number r)%N /\ rr_parent_number r = rr_number p /\ rr_parent_hash r = rr_hash p.

(** Coverage starts at the lowest eligible height from the requested one. *)
Definition starts (from : N) (eligible : option (list ModelBlock)) (r : RecordRef) : Prop :=
  (from <= rr_number r)%N /\
  forall chain, eligible = Some chain ->
    exists b, List.find (fun b => from <=? mb_number b)%N chain = Some b /\ mb_number b = rr_number r.

(** Where the eligible chain has the height the record is its block; a height
    it lacks is outside its range. *)
Definition on_branch (eligible : option (list ModelBlock)) (r : RecordRef) : Prop :=
  forall chain, eligible = Some chain ->
    match List.find (fun b => mb_number b =? rr_number r)%N chain with
    | Some b => b = record_header r
    | None => forall first l, head chain = Some first -> last chain = Some l ->
                ~ (mb_number first <= rr_number r <= mb_number l)%N
    end.

Definition vouched (ledger : option Ledger) (line : string) (r : RecordRef) : Prop :=
  forall lg, ledger = Some lg -> line_of lg (record_header r) = Some line.

Lemma record_of_line_ok extract i line r : record_of_line extract i line = Ok r <-> reads extract line r.
Proof.
  unfold record_of_line, reads. destruct (json_from_slice (bytes_of line)) as [v|e]; [|naive_solver].
  destruct (extract v) as [[[[n pn] h] ph]|] eqn:E; [|naive_solver].
  destruct r as [rn rpn rh rph]; simpl. split; [intros [= <- <- <- <-]; eauto|].
  intros (? & [= <-] & E'). rewrite E in E'. by simplify_eq.
Qed.

Lemma is_empty_spec s : is_empty s = true <-> s = ""%string.
Proof. unfold is_empty. apply bool_decide_eq_true. Qed.

Lemma check_reference_ok r : check_reference r = Ok tt <-> reference_ok r.
Proof.
  unfold check_reference, reference_ok, is_empty. repeat case_bool_decide; simpl; try naive_solver.
  destruct (N.ltb_spec (rr_number r) (rr_parent_number r)); [|naive_solver].
  split; [done|]. intros (_ & _ & ?). lia.
Qed.

Lemma check_start_ok from eligible r :
  check_start from eligible (rr_number r) = Ok tt <-> starts from eligible r.
Proof.
  unfold check_start, starts. destruct (N.ltb_spec (rr_number r) from) as [Hlt|Hge].
  { split; [done|]. intros [? _]. lia. }
  destruct eligible as [chain|]; [|naive_solver].
  destruct (List.find _ chain) as [b|] eqn:E; [destruct (N.eqb_spec (mb_number b) (rr_number r))|];
    naive_solver.
Qed.

Lemma check_position_ok from eligible previous r :
  check_position from eligible previous r = Ok tt <->
  match previous with Some p => succeeds p r | None => starts from eligible r end.
Proof.
  destruct previous as [p|]; [|apply check_start_ok]. unfold check_position, succeeds.
  destruct (N.leb_spec (rr_number r) (rr_number p)); [split; [done|intros [? _]; lia]|].
  destruct (N.eqb_spec (rr_parent_number r) (rr_number p)); [case_bool_decide|]; simpl; naive_solver.
Qed.

Lemma check_eligible_ok eligible r : check_eligible eligible r = Ok tt <-> on_branch eligible r.
Proof.
  unfold check_eligible, on_branch. destruct eligible as [[|first chain]|]; [naive_solver| |naive_solver].
  assert (exists l, last (first :: chain) = Some l) as [l Hl].
  { destruct (last (first :: chain)) eqn:E; [eauto|by apply last_None in E]. }
  rewrite Hl. cbn [default from_option id]. assert (head (first :: chain) = Some first) as Hh by done.
  revert Hl Hh. generalize (first :: chain). intros all Hl Hh.
  destruct (List.find _ all) as [b|] eqn:E.
  - pose proof (find_some _ _ E) as [_ Hn%N.eqb_eq]. destruct b as [bn bh bpn bph]. cbn in *. subst bn.
    destruct r as [rn rpn rh rph]; cbn in *. unfold record_header; cbn.
    split.
    + repeat case_bool_decide; destruct (N.eqb_spec bpn rpn); simpl; try done.
      intros _ c [= <-]. rewrite E. congruence.
    + intros Hc. specialize (Hc _ eq_refl). rewrite E in Hc. simplify_eq.
      by rewrite !bool_decide_true, N.eqb_refl by done.
  - split.
    + destruct (_ && _)%N eqn:Er; [done|]. intros _ c [= <-]. rewrite E. intros f l' Hf' Hl'.
      simplify_eq. apply andb_false_iff in Er as [?%N.leb_gt|?%N.leb_gt]; lia.
    + intros Hc. specialize (Hc _ eq_refl). rewrite E in Hc. specialize (Hc first l Hh Hl).
      destruct (N.leb_spec (mb_number first) (rr_number r)); [|done].
      destruct (N.leb_spec (rr_number r) (mb_number l)); [|done]. exfalso. by apply Hc.
Qed.

Lemma check_ledger_ok ledger line r : check_ledger ledger line r = Ok tt <-> vouched ledger line r.
Proof.
  unfold check_ledger, vouched. destruct ledger as [lg|]; [|naive_solver].
  destruct (line_of lg (record_header r)) as [e|] eqn:E; [case_bool_decide|]; naive_solver.
Qed.

(** The loop, from any records validated before. *)
Lemma validate_lines_ok from extract oracle records lines out :
  validate_lines from extract oracle records lines = Ok out <->
  exists rs, out = records ++ rs /\ Forall2 (reads extract) lines rs /\ Forall reference_ok rs /\
    adjacent succeeds (match last records with Some p => p :: rs | None => rs end) /\
    (last records = None -> forall r, head rs = Some r -> starts from (do_eligible oracle) r) /\
    Forall (on_branch (do_eligible oracle)) rs /\ Forall2 (vouched (do_ledger oracle)) lines rs.
Proof.
  revert records. induction lines as [|line lines IH]; intros records; cbn [validate_lines].
  { split.
    - intros [= <-]. exists []. rewrite app_nil_r. split_and!; [done|constructor|constructor| |done|constructor|constructor].
      destruct (last records); auto with hotblocks.
    - intros (rs & -> & Hr & _). inversion Hr. by rewrite app_nil_r. }
  assert (forall r rs, adjacent succeeds (r :: rs) /\
    match last records with Some p => succeeds p r | None => starts from (do_eligible oracle) r end <->
    adjacent succeeds (match last records with Some p => p :: r :: rs | None => r :: rs end) /\
    (last records = None -> forall r', head (r :: rs) = Some r' -> starts from (do_eligible oracle) r'))
    as Hlink.
  { intros r rs. destruct (last records); [rewrite adjacent_cons|]; naive_solver. }
  split.
  - destruct (record_of_line extract (length records) line) as [r|e] eqn:Er; [|done].
    destruct (check_reference r) as [[]|e] eqn:E1; [|done].
    destruct (check_position from (do_eligible oracle) (last records) r) as [[]|e] eqn:E2; [|done].
    destruct (check_eligible (do_eligible oracle) r) as [[]|e] eqn:E3; [|done].
    destruct (check_ledger (do_ledger oracle) line r) as [[]|e] eqn:E4; [|done].
    apply record_of_line_ok in Er. apply check_reference_ok in E1. apply check_position_ok in E2.
    apply check_eligible_ok in E3. apply check_ledger_ok in E4.
    intros (rs & -> & Hr & Hf & Ha & _ & Hb & Hv)%IH. rewrite last_snoc in Ha.
    exists (r :: rs). rewrite <- app_assoc. destruct (proj1 (Hlink r rs) (conj Ha E2)) as [Ha' Hs].
    split_and!; try done; by constructor.
  - intros (rs & -> & Hr & Hf & Ha & Hs & Hb & Hv).
    inversion Hr as [|? r ? rs' E0 Hr']; subst. inversion Hf; inversion Hb; inversion Hv; subst.
    destruct (proj2 (Hlink r rs') (conj Ha Hs)) as [Ha' E2].
    rewrite (proj2 (record_of_line_ok _ _ _ _) E0), (proj2 (check_reference_ok _)),
      (proj2 (check_position_ok _ _ _ _) E2), (proj2 (check_eligible_ok _ _)),
      (proj2 (check_ledger_ok _ _ _)) by done.
    apply IH. exists rs'. rewrite <- app_assoc, last_snoc. by split_and!.
Qed.

(** A body made of records as a data response must have them is accepted. *)
Lemma validate_data_lines (lines : list string) (from : N) extract oracle (rs : list RecordRef) :
  lines <> [] -> Forall single_line lines ->
  Forall2 (reads extract) lines rs -> Forall reference_ok rs -> adjacent succeeds rs ->
  (forall r, head rs = Some r -> starts from (do_eligible oracle) r) ->
  Forall (on_branch (do_eligible oracle)) rs -> Forall2 (vouched (do_ledger oracle)) lines rs ->
  validate_data (join_lines lines) from extract oracle = Ok rs.
Proof.
  intros Hne Hl Hr Hf Ha Hs Hb Hv. unfold validate_data.
  destruct (join_ends lines Hl Hne) as [Hn He]. rewrite He.
  destruct (is_empty (join_lines lines)) eqn:Ee; [by apply is_empty_spec in Ee|]. cbn [negb].
  rewrite split_join by done. apply validate_lines_ok. by exists rs.
Qed.

(** A body is accepted as data exactly when it is what a data response
    must be: one or more newline-terminated records, each read as JSON with
    its linkage, with non-empty hashes and no parent above itself, linked by
    number and hash and strictly ascending, starting at the lowest eligible
    height from the one requested, every record the eligible chain's block at
    its height, and every line the bytes the ledger vouches for; and the check
    returns exactly those records (INV-20, INV-23, INV-25, RP-5). *)
Theorem validate_data_exact (text : string) (from : N) extract oracle (rs : list RecordRef) :
  validate_data text from extract oracle = Ok rs <->
  exists lines, text = join_lines lines /\ lines <> [] /\ Forall single_line lines /\
    Forall2 (reads extract) lines rs /\ Forall reference_ok rs /\ adjacent succeeds rs /\
    (forall r, head rs = Some r -> starts from (do_eligible oracle) r) /\
    Forall (on_branch (do_eligible oracle)) rs /\ Forall2 (vouched (do_ledger oracle)) lines rs.
Proof.
  split.
  - unfold validate_data. destruct (is_empty text) eqn:Ee; [done|]. destruct (ends_with_newline text) eqn:En; [|done].
    intros (rs' & -> & Hr & Hf & Ha & Hs & Hb & Hv)%validate_lines_ok. exists (split_inclusive text).
    split_and!; [by rewrite join_split| |by apply split_single|done|done|done|by apply Hs|done|done].
    intros Hnil. pose proof (join_split text) as Hj. rewrite Hnil in Hj. by subst text.
  - intros (lines & -> & Hne & Hl & Hr & Hf & Ha & Hs & Hb & Hv). by apply validate_data_lines.
Qed.

(** ** Conflicts *)

(** A conflict body is accepted exactly when it lists between 1 and 101 refs,
    each with a height and a non-empty hash, in strictly ascending order, and
    the refs are returned as listed (INV-22, RP-7). *)
Theorem validate_conflict_exact (body : V) (refs : list BlockRef) :
  validate_conflict body = Ok refs <->
  exists arr, json_get body "previousBlocks" ≫= json_as_array = Some arr /\
    Forall2 (fun v r => json_get v "number" ≫= json_as_u64 = Some (br_number r) /\
                        json_get v "hash" ≫= json_as_str = Some (br_hash r) /\
                        br_hash r <> ""%string) arr refs /\
    refs <> [] /\ length refs <= MAX_FORK_REFS /\
    adjacent (fun a b => br_number a < br_number b)%N refs.
Proof.
  assert (forall arr, collect_results (conflict_ref <$> arr) = Ok refs <->
    Forall2 (fun v r => json_get v "number" ≫= json_as_u64 = Some (br_number r) /\
                        json_get v "hash" ≫= json_as_str = Some (br_hash r) /\
                        br_hash r <> ""%string) arr refs) as Hc.
  { intros arr. revert refs. induction arr as [|v arr IH]; intros refs.
    { simpl. split; [intros [= <-]; constructor|by inversion 1]. }
    rewrite fmap_cons. cbn [collect_results]. unfold conflict_ref at 1.
    destruct (json_get v "number" ≫= json_as_u64) as [n|] eqn:En;
      [|split; [done|by inversion 1 as [|???? [? _]]; congruence]].
    destruct (json_get v "hash" ≫= json_as_str) as [h|] eqn:Eh;
      [|split; [done|by inversion 1 as [|???? (_ & ? & _)]; congruence]].
    destruct (is_empty h) eqn:Ee.
    { apply is_empty_spec in Ee as ->. split; [done|].
      inversion 1 as [|???? (_ & ? & ?)]. congruence. }
    split.
    - destruct (collect_results _) as [rest|] eqn:Er; [|done]. intros [= <-].
      constructor; [|by apply IH]. split_and!; [done|done|]. cbn. intros ->. by vm_compute in Ee.
    - inversion 1 as [|? [rn rh] ? rest (E1 & E2 & _) Hr]; subst. cbn in *. simplify_eq.
      apply IH in Hr. by rewrite Hr. }
  assert (forall l, forallb (fun '(a, b) => br_number a <? br_number b)%N (windows2 l) = true <->
    adjacent (fun a b => br_number a < br_number b)%N l) as Hasc.
  { intros l. rewrite adjacent_windows2, forallb_forall, Forall_forall. setoid_rewrite list_elem_of_In.
    split; intros Hw [a b] Hin; specialize (Hw (a, b) Hin); cbn in *; by apply N.ltb_lt. }
  unfold validate_conflict. split.
  - destruct (json_get body "previousBlocks" ≫= json_as_array) as [[|v arr]|] eqn:Eb; [done| |done].
    destruct (Nat.ltb_spec MAX_FORK_REFS (length (v :: arr))) as [|Hle]; [done|].
    destruct (collect_results _) as [refs'|] eqn:Er; [|done].
    destruct (forallb _ _) eqn:Ef; [|done]. intros [= ->]. exists (v :: arr). apply Hc in Er.
    split_and!; [done|done| | |by apply Hasc].
    + intros ->. inversion Er.
    + by rewrite <- (Forall2_length _ _ _ Er).
  - intros (arr & -> & Hr & Hne & Hlen & Ha). destruct arr as [|v arr]; [by inversion Hr; subst|].
    rewrite <- (Forall2_length _ _ _ Hr) in Hlen.
    destruct (Nat.ltb_spec MAX_FORK_REFS (length (v :: arr))); [lia|].
    by rewrite (proj2 (Hc (v :: arr)) Hr), (proj2 (Hasc refs)).
Qed.

(** ** Watermarks *)

(** A finalized watermark is read from the headers exactly when they spell
    it: the number header is the canonical decimal of a 64-bit height, the
    hash header is present and not empty, and the reference read is the one
    written; so no numeral with a sign, a blank or a leading zero is accepted,
    and distinct watermarks never share their headers (IB-4, RP-9). *)
Theorem watermark_roundtrip (number hash : option string) (r : BlockRef) :
  validate_watermark number hash = Ok r <->
  number = Some (pretty (br_number r)) /\ hash = Some (br_hash r) /\
  (br_number r <= u64_max)%N /\ br_hash r <> ""%string.
Proof.
  unfold validate_watermark. split.
  - destruct number as [raw|]; [|done]. destruct (parse_u64 raw) as [n|e] eqn:Ep; [|done].
    case_bool_decide as Hraw; [|done]. destruct hash as [h|]; [|done].
    destruct (is_empty h) eqn:Eh; [done|]. intros [= <-]. cbn. subst raw.
    split_and!; [done|done|by eapply parse_u64_max|]. intros ->. by vm_compute in Eh.
  - intros (-> & -> & Hn & Hh). rewrite parse_pretty by done. rewrite bool_decide_true by done.
    cbn [negb]. destruct (is_empty (br_hash r)) eqn:Eh; [by apply is_empty_spec in Eh|]. by destruct r.
Qed.
End data.

(** ** Concrete instances *)

(** A compression unit that escapes every byte and ends with a zero. *)
Fixpoint escape (bs : list byte) : list byte :=
  match bs with [] => [x00] | b :: bs => x01 :: b :: escape bs end.

Fixpoint unescape (x : list byte) : Result (nat * list byte) string :=
  match x with
  | x00 :: _ => Ok (1, [])
  | x01 :: b :: rest => let? (n, out) := unescape rest in Ok (S (S n), b :: out)
  | _ => Err "truncated"%string
  end.

Fixpoint unescape_all (fuel : nat) (x : list byte) : Result (list byte) string :=
  match fuel, x with
  | S fuel, _ :: _ =>
      let? (n, out) := unescape x in
      let? outs := unescape_all fuel (drop n x) in
      Ok (out ++ outs)
  | _, _ => Ok []
  end.

Lemma unescape_escape bs rest : unescape (escape bs ++ rest) = Ok (length (escape bs), bs).
Proof. induction bs as [|b bs IH]; [done|]. simpl. by rewrite IH. Qed.

Lemma unescape_read k x n out :
  length x <= k -> unescape x = Ok (n, out) -> exists rest, x = escape out ++ rest /\ n = length (escape out).
Proof.
  revert x n out. induction k as [|k IH]; intros x n out Hk E.
  { destruct x; [done|simpl in Hk; lia]. }
  destruct x as [|[] x]; try done.
  - injection E as <- <-. by exists x.
  - destruct x as [|b x]; [done|]. cbn [unescape] in E.
    destruct (unescape x) as [[m o]|] eqn:Ex; [|done]. injection E as <- <-.
    destruct (IH x m o) as (rest & -> & ->); [simpl in Hk; lia|done|]. by exists rest.
Qed.

Lemma unescape_all_enough fuel fuel' x :
  length x <= fuel -> length x <= fuel' -> unescape_all fuel x = unescape_all fuel' x.
Proof.
  revert fuel' x. induction fuel as [|fuel IH]; intros [|fuel'] [|b x] H1 H2; try done; simpl in H1, H2; try lia.
  cbn [unescape_all]. destruct (unescape (b :: x)) as [[n out]|] eqn:E; [|done].
  apply (unescape_read _ _ _ _ (le_n _)) in E as (rest & Ex & ->).
  assert (0 < length (escape out)) by (destruct out; simpl; lia).
  assert (length (drop (length (escape out)) (b :: x)) < S (length x)) by (rewrite length_drop; simpl; lia).
  rewrite (IH fuel') by lia. done.
Qed.

Lemma unescape_laws : unit_laws unescape (fun x => unescape_all (length x) x).
Proof.
  split.
  - intros x n out (rest & -> & ->)%(unescape_read _ _ _ _ (le_n _)). rewrite length_app. lia.
  - intros x n out rest (more & -> & ->)%(unescape_read _ _ _ _ (le_n _)).
    by rewrite take_app_length, unescape_escape.
  - done.
  - intros x n out outs E Hn Hr. destruct x as [|b x]; [done|]. cbn [length unescape_all]. rewrite E.
    pose proof E as (rest & Ex & ->)%(unescape_read _ _ _ _ (le_n _)).
    rewrite (unescape_all_enough _ (length (drop (length (escape out)) (b :: x)))); [by rewrite Hr| |done].
    rewrite length_drop. simpl. lia.
Qed.

#[export] Instance escape_decoder : BodyDecoder := {
  decode_one_zstd_frame := unescape;
  decode_one_gzip_member := unescape;
  decode_all_zstd x := unescape_all (length x) x;
  decode_all_gzip x := unescape_all (length x) x
}.

#[export] Instance escape_decoder_laws : BodyDecoderLaws.
Proof. split; apply unescape_laws. Qed.

#[export] Instance plain_formats : Formats := {
  debug_str s := s;
  utf8_error _ := "invalid utf-8 sequence"%string
}.

Definition two_lines : list byte :=
  escape [x61; x0a] ++ escape [x62; x63; x0a].

Lemma framing_exact_witness :
  validate_framing two_lines "gzip" = Ok [text_of [x61; x0a]; text_of [x62; x63; x0a]] /\
  exists cut, validate_framing (take cut two_lines) "gzip" = Ok [text_of [x61; x0a]].
Proof.
  split; [by vm_compute|].
  destruct (framing_exact two_lines "gzip" [text_of [x61; x0a]; text_of [x62; x63; x0a]]) as [_ H].
  destruct H as [_ Hcut]; [by vm_compute|]. exact (Hcut 1 (le_n 1)).
Defined.
