(* ===== verification/Conformance.v ===== *)
(** * Conformance: what the endpoint sends passes the harness's validators

    The composition of [Query], [Http] and [Validators]: whatever buffers a
    stream request meets and however its body is cut, the response that goes
    out is accepted by the validators the harness runs on every response, with
    the records of the buffered or backfilled chain. The exceptions are stated:
    an empty response whose height was evicted between two reads of the buffer
    has no watermark, and a body that is too long is answered with a status
    the validators' taxonomy does not list. *)
From S2P Require Import Prelude Types Chain RefModel Service ChainRefines Run Query Metrics Http Rlp Frames Normalize Sim Validators.
From stdpp Require Import pretty.
From Stdlib Require Import Ascii Strings.Byte.
Local Open Scope rust_scope.

(** ** Lists in order *)

Lemma find_head_filter {A} (p : A -> bool) (l : list A) : List.find p l = head (List.filter p l).
Proof. induction l as [|x l IH]; [done|]. simpl. by destruct (p x). Qed.

Lemma find_ascending (bs : list Block) b :
  adjacent below bs -> b ∈ bs -> List.find (fun x => number x =? number b)%N bs = Some b.
Proof.
  intros Ha [i Hi]%list_elem_of_lookup_1.
  destruct (List.find _ bs) as [x|] eqn:E.
  - apply find_some in E as [[j Hj]%list_elem_of_In%list_elem_of_lookup_1 Hn%N.eqb_eq].
    destruct (Nat.lt_trichotomy i j) as [Hlt|[->|Hlt]]; [|by simplify_eq|].
    + pose proof (adjacent_lt _ _ _ _ _ _ Ha Hlt Hi Hj) as Hb. unfold below in Hb. lia.
    + pose proof (adjacent_lt _ _ _ _ _ _ Ha Hlt Hj Hi) as Hb. unfold below in Hb. lia.
  - assert (In b bs) as Hin by (apply list_elem_of_In; by eapply list_elem_of_lookup_2).
    pose proof (find_none _ _ E b Hin) as Hn. cbn in Hn. by rewrite N.eqb_refl in Hn.
Qed.

Lemma legal_nonempty h : hash_legal h -> h <> ""%string.
Proof. intros [E _] ->. by vm_compute in E. Qed.

Section conformance.
Context `{BodyDecoderLaws} `{Formats} {V : Type} `{!Json V} `{!Zstd}.
Variable header_value_ok : string -> bool.
Variable transcode : list byte -> Result (list byte) AnyError.
Variable display_error : AnyError -> string.
Variable extract : V -> option (N * N * string * string).
Variable ledger : option Ledger.

(** serde_json's writer of the two bodies it is used for. *)
Variable ref_json : BlockRef -> list byte.
Variable previous_blocks_json : list BlockRef -> list byte.

(** A stored payload is one zstd frame, its re-encoding one gzip member. *)
Hypothesis zstd_frame : forall s,
  0 < length (zstd_encode s) /\
  decode_one_zstd_frame (zstd_encode s) = Ok (length (zstd_encode s), bytes_of s).
Hypothesis gzip_member : forall s g, transcode (zstd_encode s) = Ok g ->
  0 < length g /\ decode_one_gzip_member g = Ok (length g, bytes_of s).

(** The conflict body written is the body read. *)
Hypothesis previous_blocks_read : forall refs,
  Forall (fun r => br_number r <= u64_max)%N refs ->
  exists v arr, json_from_slice (previous_blocks_json refs) = Ok v /\
    json_get v "previousBlocks" ≫= json_as_array = Some arr /\
    Forall2 (fun v r => json_get v "number" ≫= json_as_u64 = Some (br_number r) /\
                        json_get v "hash" ≫= json_as_str = Some (br_hash r)) arr refs.

Abbreviation handle_stream := (Http.handle_stream header_value_ok transcode display_error).

(** ** The response on the wire *)

Definition wire_headers (r : Response) : WireHeaders :=
  mkWireHeaders (content_type r) (content_encoding r) (vary r) (finalized_number r)
    (finalized_hash r).

Definition wire_body (r : Response) : list byte :=
  match response_body r with
  | TextBody text => bytes_of text
  | RefBody r => ref_json r
  | EmptyBody => []
  | PreviousBlocksBody refs => previous_blocks_json refs
  | FramesBody _ frames _ => concat frames
  end.

(** ** The blocks a response may draw from *)

Definition record_of (b : Block) : RecordRef :=
  mkRecordRef (number b) (parent_number b) (hash b) (parent_hash b).

(** The record a block's payload spells. *)
Definition payload (b : Block) (line : string) : Prop :=
  json_line_zstd b = zstd_encode line /\ single_line line /\
  from_utf8 (bytes_of line) = Ok line /\ reads extract line (record_of b) /\
  vouched ledger line (record_of b).

Record servable (b : Block) : Prop := {
  sv_hash : hash_legal (hash b);
  sv_parent_hash : hash_legal (parent_hash b);
  sv_parent : (parent_number b <= number b)%N;
  sv_height : (number b <= u64_max)%N;
  sv_payload : exists line, payload b line
}.

Definition buffer_ok (c : Chain) : Prop := chain_wf c /\ Forall servable (blocks c).

(** Refs fit to be a conflict's. *)
Definition refs_ok (refs : list BlockRef) : Prop :=
  length refs <= MAX_FORK_REFS /\ adjacent ref_below refs /\
  Forall (fun r => br_hash r <> ""%string /\ br_number r <= u64_max)%N refs.

Fixpoint source_blocks (source : list (Result BlockBatch StreamError)) : list Block :=
  match source with
  | Ok batch :: source => batch_blocks batch ++ source_blocks source
  | _ => []
  end.

(** What the finalized stream of the adapter promises a query from [from]
    below the buffer [c]: heights in order, from the requested one up to the
    buffer; and a fork signal is fit for a conflict. *)
Record source_ok (c : Chain) (from : N) (source : list (Result BlockBatch StreamError)) : Prop := {
  so_blocks : Forall servable (source_blocks source);
  so_ascending : adjacent below (source_blocks source ++ blocks c);
  so_from : Forall (fun b => from <= number b)%N (source_blocks source);
  so_fork refs : Err (Fork refs) ∈ source -> refs_ok refs
}.

(** ** Frames *)

Definition unit_of (use_zstd : bool) : list byte -> Result (nat * list byte) string :=
  if use_zstd then decode_one_zstd_frame else decode_one_gzip_member.

Definition encoding_of (use_zstd : bool) : string := if use_zstd then "zstd" else "gzip".

Lemma encoded_unit use_zstd b line f :
  payload b line -> encode_block transcode use_zstd b = Ok f ->
  0 < length f /\ unit_of use_zstd f = Ok (length f, bytes_of line).
Proof.
  intros (Hp & _). unfold encode_block, unit_of. rewrite Hp.
  destruct use_zstd; [intros [= <-]; apply zstd_frame|apply gzip_member].
Qed.

Lemma unit_of_laws use_zstd : exists all, unit_laws (unit_of use_zstd) all /\
  decoder_of (encoding_of use_zstd) = Some (unit_of use_zstd, all).
Proof. destruct use_zstd; eexists; (split; [|done]); [apply zstd_units|apply gzip_units]. Qed.

(** The encodings of [bs], one after the other, are one unit per block. *)
Lemma encoded_units use_zstd bs fs :
  encodes transcode use_zstd bs fs -> Forall servable bs ->
  exists frames, units (unit_of use_zstd) (concat fs) frames /\
    Forall2 (fun b fr => payload b (fr_text fr)) bs frames.
Proof.
  destruct (unit_of_laws use_zstd) as (all & Hlaws & _).
  induction 1 as [|b f bs fs He _ IH]; intros Hs; [exists []; split; constructor|].
  inversion Hs as [|? ? Hb Hbs]; subst. destruct (IH Hbs) as (frames & Hu & Hp).
  destruct (sv_payload _ Hb) as (line & Hl). destruct (encoded_unit _ _ _ _ Hl He) as [Hpos Hd].
  exists (mkFrame (length f) line :: frames). split; [|by constructor]. simpl.
  eapply units_cons; [|exact Hpos|apply Hl|by rewrite drop_app_length].
  apply (unit_local _ _ Hlaws _ _ _ (concat fs)) in Hd. by rewrite take_ge in Hd.
Qed.

(** ** Data *)

Lemma filter_drop from (all : list Block) :
  adjacent below all ->
  exists k, List.filter (fun b => from <=? number b)%N all = drop k all.
Proof. intros Ha. exists (lower_bound all from). by rewrite drop_lower_bound. Qed.

Lemma record_linked a b : continues a b -> below a b -> succeeds (record_of a) (record_of b).
Proof. intros [? ?]%is_chain_spec Hb. by split_and!. Qed.

Lemma record_on_branch all b :
  adjacent below all -> b ∈ all -> on_branch (Some (abs_block <$> all)) (record_of b).
Proof. intros Ha Hin chain [= <-]. rewrite find_fmap. cbn. by rewrite (find_ascending _ _ Ha Hin). Qed.

Lemma record_starts from all b n :
  head (take n (List.filter (fun b => from <=? number b)%N all)) = Some b ->
  starts from (Some (abs_block <$> all)) (record_of b).
Proof.
  intros Hh. assert (List.find (fun b => from <=? number b)%N all = Some b) as Hf.
  { rewrite find_head_filter. destruct (List.filter _ all), n; done. }
  split; [by apply find_some in Hf as [_ ?%N.leb_le]|].
  intros chain [= <-]. rewrite find_fmap. cbn. rewrite Hf. by exists (abs_block b).
Qed.

(** The encodings of blocks of an ascending linked chain, from the lowest
    height due and without a gap, are the records of a data response. *)
Lemma data_conforms use_zstd from all n fs :
  adjacent continues all -> adjacent below all -> Forall servable all -> fs <> [] ->
  let bs := take n (List.filter (fun b => from <=? number b)%N all) in
  encodes transcode use_zstd bs fs ->
  exists texts, validate_framing (concat fs) (encoding_of use_zstd) = Ok texts /\
    validate_data (join_lines texts) from extract (mkDataOracle ledger (Some (abs_block <$> all)))
      = Ok (record_of <$> bs).
Proof.
  intros Hc Ha Hs Hne bs He.
  assert (forall b, b ∈ bs -> b ∈ all) as Hin.
  { intros b [i [Hi%list_elem_of_lookup_2%list_elem_of_In _]%lookup_take_Some]%list_elem_of_lookup_1.
    apply filter_In in Hi as [Hi _]. by apply list_elem_of_In. }
  assert (Forall servable bs) as Hsb.
  { apply Forall_forall. intros b Hb. apply (proj1 (Forall_forall _ _) Hs). auto. }
  destruct (encoded_units _ _ _ He Hsb) as (frames & Hu & Hp).
  assert (frames <> []) as Hfr.
  { intros ->. inversion Hp as [E|]. rewrite <- E in He. by inversion He; subst. }
  assert (Forall2 payload bs (fr_text <$> frames)) as Hp' by by apply Forall2_fmap_r.
  assert (Forall single_line (fr_text <$> frames)) as Hl.
  { clear -Hp'. induction Hp' as [|b l bs ls Hb _ IH]; constructor; [apply Hb|done]. }
  destruct (unit_of_laws use_zstd) as (one & Hlaws & Hd).
  exists (fr_text <$> frames). split.
  { apply validate_framing_units. by exists (unit_of use_zstd), one, frames. }
  destruct (filter_drop from all Ha) as [k Hk].
  assert (adjacent continues bs /\ adjacent below bs) as [Hcb Hab].
  { unfold bs. rewrite Hk. auto with hotblocks. }
  apply validate_data_lines; [by destruct frames|done|..]; cbn [do_ledger do_eligible].
  - clear -Hp'. induction Hp' as [|b l bs ls Hb _ IH]; constructor; [apply Hb|done].
  - apply Forall_fmap. eapply Forall_impl; [exact Hsb|]. intros b [].
    by split_and!; [apply legal_nonempty..|].
  - apply adjacent_fmap. intros i x y Hx Hy. apply record_linked; eauto.
  - intros r Hr. assert (head (record_of <$> bs) = record_of <$> head bs) as E by by destruct bs.
    rewrite E in Hr. destruct (head bs) as [b|] eqn:Eb; [|done]. injection Hr as <-.
    by eapply record_starts.
  - apply Forall_fmap, Forall_forall. intros b Hb. apply record_on_branch; auto.
  - clear -Hp'. induction Hp' as [|b l bs ls Hb _ IH]; constructor; [apply Hb|done].
Qed.

(** ** Headers *)

Lemma data_headers z fh status fs cause accept :
  z = str_contains "zstd" accept ->
  (br_number fh <= u64_max)%N -> br_hash fh <> ""%string ->
  validate_data_headers (wire_headers (mkResponse status (Some fh) (FramesBody z fs cause))) accept
    = Ok fh.
Proof.
  intros -> Hn Hh. unfold validate_data_headers, wire_headers. cbn [wh_content_type wh_content_encoding wh_vary].
  change (expect_text _ 200) with (@Ok unit string tt). cbv iota.
  change (content_encoding _) with (Some (if str_contains "zstd" accept then "zstd" else "gzip")%string).
  cbv iota. rewrite bool_decide_true by done. cbn [negb].
  change (negb (varies_on_encoding _)) with false. cbv iota.
  by apply watermark_roundtrip.
Qed.

Lemma servable_watermark c fh :
  Forall servable (blocks c) -> get_finalized_head c = Some fh ->
  (br_number fh <= u64_max)%N /\ br_hash fh <> ""%string.
Proof.
  intros Hs. unfold get_finalized_head. destruct (blocks c !! finalized_head c) as [b|] eqn:Hb; [|done].
  intros [= <-]. destruct (Forall_lookup_1 _ _ _ _ Hs Hb). split; [done|]. by apply legal_nonempty.
Qed.

Lemma empty_conforms fh :
  (br_number fh <= u64_max)%N -> br_hash fh <> ""%string ->
  validate_error 204 (wire_headers (mkResponse 204 (Some fh) EmptyBody))
    (wire_body (mkResponse 204 (Some fh) EmptyBody)) = Ok ClassEmpty.
Proof.
  intros Hn Hh. unfold validate_error. rewrite N.eqb_refl. cbn [negb wire_body response_body].
  rewrite bool_decide_true by done. cbn [negb].
  by rewrite (proj2 (watermark_roundtrip _ _ fh)).
Qed.

Lemma lossy_prefix p rest :
  Forall (fun b => b < 128)%N p ->
  utf8_lossy (length (p ++ rest)) (p ++ rest) = p ++ utf8_lossy (length rest) rest.
Proof.
  induction 1 as [|b p Hb _ IH]; [done|]. simpl. unfold utf8_next.
  rewrite (proj2 (N.ltb_lt b 128) Hb). cbn. by rewrite drop_0, IH.
Qed.

Lemma internal_conforms e :
  validate_error 500 (wire_headers (internal_error display_error e)) (wire_body (internal_error display_error e))
    = Ok ClassInternal.
Proof.
  unfold validate_error. change (500 =? 204)%N with false. change (500 =? 400)%N with false.
  change (500 =? 404)%N with false. change (500 =? 409)%N with false. rewrite N.eqb_refl. cbv iota.
  change (expect_text _ 500) with (@Ok unit string tt). cbv iota.
  cbn [wire_body internal_error text_response response_body].
  assert (forall s, String.prefix "Internal server error"
    (lossy (bytes_of ("Internal server error" +:+ s))) = true) as ->; [|done].
  intros s. unfold lossy, from_utf8_lossy.
  assert (Byte.to_N <$> bytes_of ("Internal server error" +:+ s)
    = (Byte.to_N <$> bytes_of "Internal server error") ++ (Byte.to_N <$> bytes_of s)) as -> by done.
  rewrite lossy_prefix by (by repeat constructor). generalize (utf8_lossy (length (Byte.to_N <$> bytes_of s))
    (Byte.to_N <$> bytes_of s)). intros l. by destruct l.
Qed.

Lemma conflict_conforms refs :
  refs <> [] -> refs_ok refs ->
  validate_error 409 (wire_headers (mkResponse 409 None (PreviousBlocksBody refs)))
    (wire_body (mkResponse 409 None (PreviousBlocksBody refs))) = Ok ClassConflict.
Proof.
  intros Hne (Hlen & Hasc & Hf). unfold validate_error. change (409 =? 204)%N with false.
  change (409 =? 400)%N with false. change (409 =? 404)%N with false. rewrite N.eqb_refl. cbv iota.
  change (wh_content_type _) with (Some "application/json"%string). cbv iota.
  change (is_media_type "application/json" "application/json") with true. cbn [negb].
  cbn [wire_headers wh_finalized_number wh_finalized_hash finalized_number finalized_hash finalized_header
    fmap option_fmap option_map]. rewrite !bool_decide_false by (by intros [? ?]). cbn [orb].
  cbn [wire_body response_body].
  destruct (previous_blocks_read refs) as (v & arr & -> & Ha & Hr).
  { eapply Forall_impl; [exact Hf|]. by intros r [_ ?]. }
  cbn [map_err]. rewrite (proj2 (validate_conflict_exact v refs)); [done|].
  exists arr. split_and!; [done| |done|done|done].
  clear -Hr Hf. induction Hr as [|v r arr refs [? ?] _ IH]; [constructor|].
  inversion Hf as [|? ? [? ?] ?]; subst. constructor; auto.
Qed.

(** ** Answers *)

Lemma delivered_prefix ph prev tail source :
  delivered (producer ph prev tail source) `prefix_of` source_blocks source /\
  (forallb is_ok (producer ph prev tail source) = true ->
   delivered (producer ph prev tail source) = source_blocks source).
Proof.
  revert prev. induction source as [|[batch|e] source IH]; intros prev; simpl.
  - unfold splice. repeat case_match; simpl; (split; [done|done]).
  - destruct (check_batch ph prev (batch_blocks batch)) as [prev'|e]; simpl.
    + destruct (IH prev') as [Hp Ho]. split; [by apply prefix_app|]. intros H'. by rewrite Ho.
    + split; [apply prefix_nil|done].
  - split; [done|done].
Qed.

Lemma adjacent_prefix {A} (R : A -> A -> Prop) l1 l2 : l1 `prefix_of` l2 -> adjacent R l2 -> adjacent R l1.
Proof. by intros [k ->] [? _]%adjacent_app. Qed.

Lemma filter_from from all :
  adjacent below all -> (forall b, head all = Some b -> from <= number b)%N ->
  List.filter (fun b => from <=? number b)%N all = all.
Proof.
  intros Ha Hh. rewrite <- drop_lower_bound by done. destruct all as [|b all]; [done|].
  simpl. specialize (Hh b eq_refl). by rewrite (proj2 (N.ltb_ge _ _)).
Qed.

(** The chain a data response is drawn from. *)
Definition drawn (c2 c3 : Chain) (source : list (Result BlockBatch StreamError)) (all : list Block) : Prop :=
  all = blocks c2 \/ all = blocks c3 \/ all `prefix_of` source_blocks source ++ blocks c2.

Record drawable (from : N) (data : DataResponse) (all : list Block) : Prop := {
  dr_linked : adjacent continues all;
  dr_ascending : adjacent below all;
  dr_servable : Forall servable all;
  dr_served : exists n, served (block_stream (resp_head data) (default [] (resp_tail data))) =
                take n (List.filter (fun b => from <=? number b)%N all)
}.

Lemma buffer_chain c : buffer_ok c -> adjacent continues (blocks c) /\ adjacent below (blocks c).
Proof.
  intros [[[_ Hlk _] _ _] _]. split; [|by apply follows_below].
  eapply adjacent_impl; [|exact Hlk]. by intros x y [? _].
Qed.

Lemma window_drawable c from ph data tail :
  buffer_ok c -> (from <= u64_max)%N -> query c from ph = Some (Ok data) -> resp_tail data = Some tail ->
  resp_finalized_head data = get_finalized_head c /\ drawable from data (blocks c).
Proof.
  intros Hc Hu E Ht. destruct (buffer_chain c Hc) as [Hl Ha].
  pose proof (query_tail_exact c from ph data tail (proj1 Hc) Hu E Ht) as (-> & _ & Hf & _).
  split; [done|]. split; [done|done|apply Hc|]. exists (length (blocks c)). rewrite Ht.
  assert (resp_head data = None) as ->.
  { destruct (query_total c from ph (proj1 Hc) Hu) as (r & E' & Hq). simplify_eq. by inversion Hq; subst. }
  cbn [default from_option id block_stream]. unfold block_stream. cbn [forallb app].
  rewrite <- (app_nil_r (fmap _ _)), served_app, app_nil_r, take_ge; [done|]. apply filter_length_le.
Qed.

Lemma backfill_drawable c from ph source data :
  buffer_ok c -> source_ok c from source -> below_query c from ph source = Some (Ok data) ->
  resp_finalized_head data = get_finalized_head c /\
  exists all, all `prefix_of` source_blocks source ++ blocks c /\ drawable from data all.
Proof.
  intros Hc [Hs Ha Hf _] E.
  assert (exists h, resp_head data = Some h /\ resp_finalized_head data = get_finalized_head c /\
    resp_tail data = Some (blocks c) /\ h = producer ph None (blocks c) source) as (h & Hh & Hfh & Ht & Hp).
  { unfold below_query, snapshot in E. destruct (get_finalized_head c) as [fh|]; [|done].
    destruct (below_request c from ph) as [req|]; [|done].
    destruct source as [|[?|[[]|]] ?]; simplify_eq/=; eauto. }
  split; [done|]. destruct (buffer_chain c Hc) as [Hlk _].
  destruct (producer_continuing ph None (blocks c) source Hlk (shape_nonempty _ (wf_shape _ (proj1 Hc))))
    as [[Hl _] Hok].
  destruct (delivered_prefix ph None (blocks c) source) as [Hpre Hall]. rewrite <- Hp in *.
  set (all := delivered h ++ (if forallb is_ok h then blocks c else [])) in *.
  assert (all `prefix_of` source_blocks source ++ blocks c) as Hprefix.
  { unfold all. destruct (forallb is_ok h); [by rewrite Hall|]. rewrite app_nil_r. by apply prefix_app_r. }
  assert (forall b, head all = Some b -> from <= number b)%N as Hhead.
  { intros b Hb. rewrite Forall_forall in Hf. apply Hf. destruct Hpre as [k ->]. apply elem_of_app. left.
    unfold all in Hb. destruct (delivered h) as [|x l] eqn:Ed; [|injection Hb as <-; left].
    destruct (forallb is_ok h); [|done]. destruct Hok as (bs & _ & _ & Hn); [done|]. by destruct Hn. }
  exists all. split; [done|]. split; [done|by eapply adjacent_prefix| |].
  - destruct Hprefix as [k Hk]. assert (Forall servable (source_blocks source ++ blocks c)) as Hall'
      by (apply Forall_app; split; [done|apply Hc]). rewrite Hk in Hall'. by apply Forall_app in Hall' as [? _].
  - exists (length all). rewrite Hh, Ht. cbn [default from_option id].
    rewrite served_block_stream, filter_from, firstn_all by (done || by eapply adjacent_prefix). done.
Qed.

(** What a data response becomes. *)
Lemma respond_cases use_zstd expires env data class r settled :
  respond header_value_ok transcode display_error use_zstd expires env data class = Some (r, settled) ->
  send_result (env 0) = SendDone ->
  (exists e, r = internal_error display_error e) \/
  r = mkResponse 204 (resp_finalized_head data) EmptyBody \/
  exists fs cause n, r = mkResponse 200 (resp_finalized_head data) (FramesBody use_zstd fs cause) /\
    fs <> [] /\ (is_Some (resp_head data) \/ is_Some (resp_tail data)) /\
    encodes transcode use_zstd
      (take n (served (block_stream (resp_head data) (default [] (resp_tail data))))) fs.
Proof.
  intros E Henv. unfold respond in E.
  assert ((match resp_finalized_head data with
           | Some fh => let! h := insert_finalized_head header_value_ok fh in Some (Some h)
           | None => Some None end) = Some (resp_finalized_head data) \/
          (match resp_finalized_head data with
           | Some fh => let! h := insert_finalized_head header_value_ok fh in Some (Some h)
           | None => Some None end) = None) as [Eh|Eh].
  { unfold insert_finalized_head. repeat case_match; simplify_eq; auto. }
  2: by rewrite Eh in E.
  rewrite Eh in E. destruct (negb _) eqn:En; [injection E as <- <-; auto|].
  destruct expires; [injection E as <- <-; auto|].
  destruct (block_stream _ _) as [|[[b s]|e] records] eqn:Eb; [injection E as <- <-; auto| |].
  2: injection E as <- <-; eauto.
  destruct (encode_block transcode use_zstd b) as [f|e] eqn:Ef; [|injection E as <- <-; eauto].
  right; right. unfold body_loop in E. rewrite Henv in E.
  destruct (body_rest transcode use_zstd env 1 records) as [fs c] eqn:Er. injection E as <- <-.
  destruct (body_rest_encodes _ _ _ _ _ _ _ Er) as (n & He & _).
  exists (f :: fs), c, (S n). split_and!; [done|done| |by constructor].
  apply negb_false_iff, orb_true_iff in En as [En%bool_decide_eq_true|En]; [by left|right].
  destruct (resp_tail data); [eauto|done].
Qed.

Section request.
Context (c1 c2 c3 : Chain) (from : N) (ph : option string) (source : list (Result BlockBatch StreamError)).
Hypothesis Hc1 : chain_wf c1.
Hypothesis Hc2 : buffer_ok c2.
Hypothesis Hc3 : buffer_ok c3.
Hypothesis Hfrom : (from <= u64_max)%N.
Hypothesis Hsource : below_window c1 from = Some true -> source_ok c2 from source.

(** The window moved past the height while the request waited. *)
Definition evicted_while_waiting : Prop :=
  below_window c1 from = Some false /\ below_window c3 from = Some true.

Lemma empty_evicted c data :
  chain_wf c -> query c from ph = Some (Ok data) -> resp_tail data = None ->
  resp_finalized_head data = get_finalized_head c \/
  (resp_finalized_head data = None /\ below_window c from = Some true).
Proof.
  intros Hc E Ht. destruct (query_total c from ph Hc Hfrom) as (r & E' & Hq). simplify_eq.
  inversion Hq as [first Hf Hne Hle| | | |last fin _ _ _ Hfin]; subst; [right|done|left; by rewrite Hfin].
  split; [done|]. unfold below_window. rewrite Hf.
  by rewrite (proj2 (N.eqb_neq _ _) Hne), (proj2 (N.leb_le _ _) Hle).
Qed.

Lemma answer_cases data class :
  classify_query c1 c2 c3 from ph source = Some (Ok (data, class)) ->
  (resp_head data = None /\ resp_tail data = None /\
   (resp_finalized_head data = get_finalized_head c3 \/
    resp_finalized_head data = None /\ evicted_while_waiting)) \/
  ((resp_finalized_head data = get_finalized_head c2 \/ resp_finalized_head data = get_finalized_head c3) /\
   exists all, drawn c2 c3 source all /\ drawable from data all).
Proof.
  intros E. unfold classify_query in E. destruct (below_window c1 from) as [[]|] eqn:Eb; [| |done].
  - destruct (below_query c2 from ph source) as [[d|e]|] eqn:Eq; [|done..]. injection E as <- _.
    destruct (backfill_drawable c2 from ph source d Hc2 (Hsource eq_refl) Eq) as (Hfh & all & Hp & Hd).
    right. split; [by left|]. exists all. split; [by right; right|done].
  - destruct (query c2 from ph) as [[d|e]|] eqn:E2; [|done..]. cbn [lift_conflict map_err] in E.
    case_bool_decide as Ht.
    + injection E as <- _. destruct Ht as [tail Ht].
      destruct (window_drawable c2 from ph d tail Hc2 Hfrom E2 Ht) as [Hf Hd].
      right. split; [by left|]. exists (blocks c2). split; [by left|done].
    + destruct (query c3 from ph) as [[d3|e]|] eqn:E3; [|done..]. injection E as <- _.
      destruct (resp_tail d3) as [tail|] eqn:Et.
      * destruct (window_drawable c3 from ph d3 tail Hc3 Hfrom E3 Et) as [Hf Hd].
        right. split; [by right|]. exists (blocks c3). split; [by right; left|done].
      * left. split_and!; [|done|].
        { destruct (query_total c3 from ph (proj1 Hc3) Hfrom) as (r & E' & Hq). simplify_eq.
          by inversion Hq; subst. }
        destruct (empty_evicted c3 d3 (proj1 Hc3) E3 Et) as [?|[? ?]]; [by left|right].
        by split_and!.
Qed.

Lemma known_ref_ok c r : buffer_ok c -> known_ref c r -> br_hash r <> ""%string /\ (br_number r <= u64_max)%N.
Proof.
  intros [_ Hs] (b & Hb & Hr). rewrite Forall_forall in Hs. destruct (Hs b Hb) as [? ? ? ? _].
  destruct Hr as [<-|[_ <-]]; cbn; (split; [by apply legal_nonempty|lia]).
Qed.

Lemma conflict_refs refs :
  classify_query c1 c2 c3 from ph source = Some (Err (QInvalidBaseBlock (mkInvalidBaseBlock refs))) ->
  refs <> [] /\ refs_ok refs.
Proof.
  assert (forall c, buffer_ok c -> query c from ph = Some (Err (mkInvalidBaseBlock refs)) ->
    refs <> [] /\ refs_ok refs) as Hq.
  { intros c Hc E. destruct (query_conflict_refs c from ph _ (proj1 Hc) Hfrom E) as (Hne & Hl & Ha & Hk).
    split; [done|]. split_and!; [done|done|]. eapply Forall_impl; [exact Hk|]. intros r.
    by apply known_ref_ok. }
  intros E. unfold classify_query in E. destruct (below_window c1 from) as [[]|] eqn:Eb; [| |done].
  - unfold below_query in E. destruct (get_finalized_head c2); [|done].
    destruct (below_request c2 from ph); [|done].
    destruct source as [|[bt|[[|r rs]|e]] rest] eqn:Es; try done. injection E as <-.
    split; [done|]. apply (so_fork _ _ _ (Hsource eq_refl)). left.
  - destruct (query c2 from ph) as [[d|e]|] eqn:E2; [| |done].
    + cbn [lift_conflict map_err] in E. case_bool_decide; [done|].
      destruct (query c3 from ph) as [[d3|e]|] eqn:E3; [done| |done]. injection E as ->. by apply (Hq c3).
    + injection E as ->. by apply (Hq c2).
Qed.

(** What a response on the wire must be, by its status. *)
Definition conforms (accept : string) (r : Response) : Prop :=
  (status r = 200%N /\
   exists fh texts all n,
     validate_data_headers (wire_headers r) accept = Ok fh /\
     (get_finalized_head c2 = Some fh \/ get_finalized_head c3 = Some fh) /\
     validate_framing (wire_body r) (default ""%string (content_encoding r)) = Ok texts /\
     drawn c2 c3 source all /\
     validate_data (join_lines texts) from extract (mkDataOracle ledger (Some (abs_block <$> all)))
       = Ok (record_of <$> take n (List.filter (fun b => from <=? number b)%N all))) \/
  (status r = 204%N /\
   (validate_error (status r) (wire_headers r) (wire_body r) = Ok ClassEmpty \/
    finalized_header r = None /\ wire_body r = [] /\ evicted_while_waiting)) \/
  (status r = 409%N /\ validate_error (status r) (wire_headers r) (wire_body r) = Ok ClassConflict) \/
  (status r = 500%N /\ validate_error (status r) (wire_headers r) (wire_body r) = Ok ClassInternal).

Lemma finalized_ok c fh :
  (c = c2 \/ c = c3) -> get_finalized_head c = Some fh ->
  (br_number fh <= u64_max)%N /\ br_hash fh <> ""%string.
Proof. intros [->| ->]; eapply servable_watermark; [apply Hc2|apply Hc3]. Qed.

Lemma finalized_some c : (c = c2 \/ c = c3) -> exists fh, get_finalized_head c = Some fh.
Proof.
  intros H'. assert (chain_wf c) as Hwf by (destruct H' as [->| ->]; [apply Hc2|apply Hc3]).
  destruct (finalized_head_some c Hwf) as (b & _ & ->). eauto.
Qed.

Lemma answer_conforms accept data class expires env r settled :
  classify_query c1 c2 c3 from ph source = Some (Ok (data, class)) ->
  send_result (env 0) = SendDone ->
  respond header_value_ok transcode display_error (str_contains "zstd" accept) expires env data class
    = Some (r, settled) ->
  conforms accept r.
Proof.
  intros E Henv Er. apply answer_cases in E.
  apply respond_cases in Er as [(e & ->)|[->|(fs & cause & n & -> & Hne & Hsome & He)]]; [| | |done].
  - right; right; right. split; [done|apply internal_conforms].
  - right; left. split; [done|].
    assert (forall c fh, (c = c2 \/ c = c3) -> get_finalized_head c = Some fh ->
      validate_error 204 (wire_headers (mkResponse 204 (Some fh) EmptyBody)) [] = Ok ClassEmpty) as Hwm.
    { intros c fh Hc Hfh. destruct (finalized_ok c fh Hc Hfh). by apply (empty_conforms fh). }
    destruct (finalized_some c2) as [f2 F2]; [by left|]. destruct (finalized_some c3) as [f3 F3]; [by right|].
    destruct E as [(_ & _ & [Ef|[Ef Hev]])|[[Ef|Ef] _]]; rewrite Ef.
    1, 3, 4: left; first [rewrite F2; eapply (Hwm c2); [by left|done] | rewrite F3; eapply (Hwm c3); [by right|done]].
    right. by split_and!.
  - left. split; [done|]. destruct E as [(Eh & Et & _)|(Hf & all & Hdrawn & [Hl Ha Hs (m & Hserved)])].
    { rewrite Eh, Et in Hsome. by destruct Hsome as [[? ?]|[? ?]]. }
    assert (exists c fh, (c = c2 \/ c = c3) /\ get_finalized_head c = Some fh /\
      resp_finalized_head data = Some fh) as (c & fh & Hc & Hfh & ->).
    { destruct Hf as [->| ->]; [exists c2|exists c3];
        (edestruct finalized_some as [fh ->]; [eauto|]); eauto. }
    destruct (finalized_ok c fh Hc Hfh) as [Hn Hh].
    rewrite Hserved, take_take in He.
    destruct (data_conforms _ from all _ fs Hl Ha Hs Hne He) as (texts & Ht & Hd).
    exists fh, texts, all, (n `min` m). split_and!; [by apply data_headers| |done|done|done].
    destruct Hc as [->| ->]; auto.
Qed.

Hypothesis Hs1 : Forall servable (blocks c1).
Hypothesis header_value_complete : forall h, is_header_safe_hash h = true -> header_value_ok h = true.

Lemma servable_legal c : Forall servable (blocks c) -> hashes_legal c.
Proof. intros Hs b Hb. rewrite Forall_forall in Hs. by destruct (Hs b Hb). Qed.

(** Every response to a stream request passes the harness's validators.
    Whatever buffers the request's three reads meet, whatever the finalized
    source delivers within its contract and however the budget and the client
    cut the body after its first record, the request is answered, and: a 200
    has valid headers with a watermark of the buffer, a body of one
    compression unit per record, and its records are accepted as data of the
    requested range against the chain it was drawn from and against the
    ledger; a 409 and a 500 have the headers and body of their class; and so
    has a 204, unless its height was evicted while the request waited, when it
    lacks the watermark it owes. *)
Theorem responses_conform (accept : string) (expires : bool) (env : nat -> LoopEnv)
    (Henv : send_result (env 0) = SendDone) :
  exists q, classify_query c1 c2 c3 from ph source = Some q /\
  forall verdict,
    verdict from ph = VerdictDone q \/
    (exists fh, get_finalized_head c3 = Some fh /\ verdict from ph = VerdictExpired fh) ->
    exists r settled,
      handle_stream accept (BodyParsed from ph) verdict expires env = Some (r, settled) /\
      conforms accept r.
Proof.
  destruct (stream_never_panics header_value_ok transcode display_error header_value_complete
    c1 c2 c3 accept from ph source expires env) as (q & Eq & Hrun).
  { intros c [->|[->| ->]]; (split; [|apply servable_legal]); first [done|apply Hc2|apply Hc3]. }
  { done. }
  exists q. split; [done|]. intros verdict Hv. destruct (Hrun verdict Hv) as (r & settled & E).
  exists r, settled. split; [done|]. unfold Http.handle_stream in E. destruct Hv as [Hv|(fh & Hfh & Hv)].
  - rewrite Hv in E. destruct q as [[data class]|[[refs]|e]].
    + by eapply answer_conforms.
    + injection E as <- _. right; right; left. split; [done|].
      destruct (conflict_refs _ Eq). by apply conflict_conforms.
    + injection E as <- _. right; right; right. split; [done|apply internal_conforms].
  - rewrite Hv in E. unfold insert_finalized_head in E. destruct (header_value_ok _); [|done].
    injection E as <- _. right; left. split; [done|left].
    destruct (finalized_ok c3 fh); [by right|done|]. by apply empty_conforms.
Qed.
End request.

(** ** Requests that never become a query, and the other routes *)

Lemma utf8_ok_prefix p rest :
  Forall (fun b => b < 128)%N p ->
  utf8_ok (length (p ++ rest)) (p ++ rest) = utf8_ok (length rest) rest.
Proof.
  induction 1 as [|b p Hb _ IH]; [done|]. simpl. unfold utf8_next.
  rewrite (proj2 (N.ltb_lt b 128) Hb). cbn. by rewrite drop_0, IH.
Qed.

Lemma from_utf8_prefix p s :
  Forall (fun b => b < 128)%N (Byte.to_N <$> bytes_of p) ->
  from_utf8 (bytes_of s) = Ok s -> is_ok (from_utf8 (bytes_of (p +:+ s))) = true.
Proof.
  intros Hp. unfold from_utf8.
  assert (bytes_of (p +:+ s) = bytes_of p ++ bytes_of s) as ->.
  { unfold String.list_byte_of_string. clear. induction p as [|c p IH]; [done|].
    change (String c p +:+ s) with (String c (p +:+ s)). cbn in *. by rewrite IH. }
  rewrite fmap_app, <- (length_fmap Byte.to_N (_ ++ _)), fmap_app, utf8_ok_prefix by done.
  rewrite <- (length_fmap Byte.to_N (bytes_of s)) at 1. by destruct (utf8_ok _ _).
Qed.

Lemma diagnostic_ok status code body c m1 m2 :
  body <> [] -> is_ok (from_utf8 body) = true ->
  expect_diagnostic (wire_headers (text_response code status)) code body m1 m2 c = Ok c.
Proof.
  intros Hne Hu. unfold expect_diagnostic.
  change (expect_text _ code) with (@Ok unit string tt). cbv iota.
  rewrite bool_decide_false by done. by destruct (from_utf8 body).
Qed.

(** Outside the query itself: a body that does not parse or cannot be read
    is answered with a 400 the validators accept as an invalid request; the
    metric and the block that are not found with a 404 they accept; a negative
    readiness with a 503 they accept as unavailable. A body over the limit is
    answered with 413, which is outside the taxonomy of the validators and
    rejected by them, although the interface binds it to the same class. *)
Theorem refusals_judged accept verdict expires env (e : string) (Hutf8 : from_utf8 (bytes_of e) = Ok e) :
  let verdict_of r := validate_outcome (status r) (wire_headers r) (wire_body r) in
  (forall body, body = BodyInvalid e \/ body = BodyUnreadable ->
     exists r, handle_stream accept body verdict expires env = Some (r, []) /\ status r = 400%N /\
       verdict_of r = Ok (OutcomeClass ClassInvalidRequest)) /\
  (verdict_of (handle_metrics_name None) = Ok (OutcomeClass ClassNotFound)) /\
  (forall now times height, cache_get now times height = None ->
     verdict_of (handle_block_time now times height) = Ok (OutcomeClass ClassNotFound)) /\
  (forall now m c r, handle_readiness now m c = Some r -> status r = 200%N \/ verdict_of r = Ok Unavailable) /\
  (exists r, handle_stream accept BodyTooLarge verdict expires env = Some (r, []) /\ status r = 413%N /\
     verdict_of r = Err "INV-27: status 413 is outside the closed taxonomy"%string).
Proof.
  assert (forall text, is_ok (from_utf8 (bytes_of text)) = true -> text <> ""%string ->
    validate_outcome 400 (wire_headers (text_response 400 text)) (wire_body (text_response 400 text))
      = Ok (OutcomeClass ClassInvalidRequest) /\
    validate_outcome 404 (wire_headers (text_response 404 text)) (wire_body (text_response 404 text))
      = Ok (OutcomeClass ClassNotFound)) as Htext.
  { intros text Hu Hne. unfold validate_outcome, validate_error. cbn [N.eqb Pos.eqb].
    cbn [wire_body text_response response_body].
    assert (bytes_of text <> []) by (by destruct text).
    split; [rewrite (diagnostic_ok text 400)|rewrite (diagnostic_ok text 404)]; done. }
  cbn zeta. split_and!.
  - intros body [->| ->]; (eexists; split; [reflexivity|]; split; [done|]); apply Htext; try done.
    by apply from_utf8_prefix; [repeat constructor|].
  - by apply Htext.
  - intros now times height E. unfold handle_block_time. rewrite E. by apply Htext.
  - intros now m c r. unfold handle_readiness. destruct (is_ready now m c) as [[]|]; [| |done];
      intros [= <-]; [by left|by right].
  - eexists. split; [reflexivity|]. by split.
Qed.
End conformance.

(** The two watermark routes, read from one committed buffer, are in order: the
    finalized head is not above the head, and at the same height it is the
    head (INV-24). *)
Theorem watermarks_ordered (c : Chain) (f h : BlockRef) (Hc : chain_wf c)
    (Hf : get_finalized_head c = Some f) (Hh : get_head c = Some h) :
  validate_watermark_bounds f h = Ok tt.
Proof.
  unfold get_finalized_head, get_head in *. destruct (blocks c !! finalized_head c) as [b|] eqn:Hb; [|done].
  destruct (last_block c) as [l|] eqn:El; [|done]. injection Hf as <-. injection Hh as <-.
  apply last_block_lookup in El. pose proof (lookup_lt_Some _ _ _ Hb) as Hlt.
  unfold validate_watermark_bounds. cbn [br_number br_hash block_ref].
  destruct (decide (finalized_head c = length (blocks c) - 1)) as [E|Hne].
  - rewrite E, El in Hb. injection Hb as ->. rewrite N.ltb_irrefl, N.eqb_refl. by rewrite bool_decide_true.
  - assert (finalized_head c < length (blocks c) - 1) as Hpos by lia.
    pose proof (adjacent_lt below _ _ _ _ _ (follows_below _ (shape_linked _ (wf_shape _ Hc)))
      Hpos Hb El) as Hbl. unfold below in Hbl.
    rewrite (proj2 (N.ltb_ge _ _)), (proj2 (N.eqb_neq _ _)) by lia. done.
Qed.

Lemma watermarks_ordered_witness :
  validate_watermark_bounds (mkBlockRef 13 "d") (mkBlockRef 14 "e") = Ok tt.
Proof. apply (watermarks_ordered (mkChain [make_block 12 "c" 11 "b"; make_block 13 "d" 12 "c";
  make_block 14 "e" 13 "d"] 1 4 false None)); [by apply chain_wfb_sound|reflexivity..]. Defined.

(** ** Concrete instances *)

#[export] Instance escape_zstd : Zstd := {
  zstd_encode s := escape (bytes_of s);
  zstd_decode bs := match unescape bs with Ok (_, out) => Some (text_of out) | Err _ => None end
}.

(** Documents as this service writes them, spelt as the bits of their code. *)
Inductive Doc : Type :=
  | DocRecord (number parent_number : N) (hash parent_hash : string)
  | DocConflict (refs : list (N * string))
  | DocRefs (refs : list (N * string))
  | DocRef (number : N) (hash : string)
  | DocNumber (n : N)
  | DocString (s : string).

Fixpoint bits (p : positive) : list byte :=
  match p with xH => [] | xO p => x30 :: bits p | xI p => x31 :: bits p end.

Fixpoint of_bits (bs : list byte) : positive :=
  match bs with x30 :: bs => xO (of_bits bs) | x31 :: bs => xI (of_bits bs) | _ => xH end.

Lemma of_bits_bits p rest : (rest = [] \/ exists tl, rest = x0a :: tl) -> of_bits (bits p ++ rest) = p.
Proof. intros Hr. induction p as [p IH|p IH|]; simpl; [by rewrite IH..|]. by destruct Hr as [->|[tl ->]]. Qed.

Abbreviation Written := ((N * N * (string * string)) + list (N * string))%type.

#[export] Instance doc_json : Json Doc := {
  json_get v key :=
    match v with
    | DocRecord n pn h ph =>
        if bool_decide (key = "number"%string) then Some (DocNumber n)
        else if bool_decide (key = "parentNumber"%string) then Some (DocNumber pn)
        else if bool_decide (key = "hash"%string) then Some (DocString h)
        else if bool_decide (key = "parentHash"%string) then Some (DocString ph) else None
    | DocConflict refs => if bool_decide (key = "previousBlocks"%string) then Some (DocRefs refs) else None
    | DocRef n h =>
        if bool_decide (key = "number"%string) then Some (DocNumber n)
        else if bool_decide (key = "hash"%string) then Some (DocString h) else None
    | _ => None
    end;
  json_as_u64 v := match v with DocNumber n => Some n | _ => None end;
  json_as_str v := match v with DocString s => Some s | _ => None end;
  json_as_array v :=
    match v with DocRefs refs => Some ((fun '(n, h) => DocRef n h) <$> refs) | _ => None end;
  json_from_slice bs :=
    match decode (A := Written) (of_bits bs) with
    | Some (inl (n, pn, (h, ph))) => Ok (DocRecord n pn h ph)
    | Some (inr refs) => Ok (DocConflict refs)
    | None => Err "expected value"%string
    end
}.

Definition doc_previous_blocks (refs : list BlockRef) : list byte :=
  bits (encode (A := Written) (inr ((fun r => (br_number r, br_hash r)) <$> refs))).

Lemma doc_previous_blocks_read refs :
  Forall (fun r => br_number r <= u64_max)%N refs ->
  exists v arr, json_from_slice (doc_previous_blocks refs) = Ok v /\
    json_get v "previousBlocks" ≫= json_as_array = Some arr /\
    Forall2 (fun v r => json_get v "number" ≫= json_as_u64 = Some (br_number r) /\
                        json_get v "hash" ≫= json_as_str = Some (br_hash r)) arr refs.
Proof.
  intros _. unfold doc_previous_blocks.
  exists (DocConflict ((fun r => (br_number r, br_hash r)) <$> refs)),
    ((fun '(n, h) => DocRef n h) <$> ((fun r => (br_number r, br_hash r)) <$> refs)).
  split_and!; [|done|].
  - cbn [json_from_slice doc_json]. rewrite <- (app_nil_r (bits _)), of_bits_bits by auto.
    by rewrite decode_encode.
  - induction refs as [|r refs IH]; [constructor|]. by constructor.
Qed.

Definition doc_line (n pn : N) (h ph : string) : string :=
  text_of (bits (encode (A := Written) (inl (n, pn, (h, ph)))) ++ [x0a]).

Definition doc_block (n : N) (h : string) (pn : N) (ph : string) : Block :=
  mkBlock n h pn ph None (escape (bytes_of (doc_line n pn h ph))) None.

(** A buffer over [12..14]. *)
Definition doc_chain : Chain :=
  mkChain [doc_block 12 "c" 11 "b"; doc_block 13 "d" 12 "c"; doc_block 14 "e" 13 "d"] 1 4 false None.

Lemma doc_servable :
  Forall (servable (V := Doc) sim_extract None) (blocks doc_chain).
Proof.
  repeat constructor; try by vm_compute.
  all: eexists; split; [reflexivity|].
  all: split; [by vm_compute|]. all: split; [by vm_compute|]. all: split; [|done].
  all: eexists; split; [by vm_compute|reflexivity].
Qed.

Definition stored_as_is (bs : list byte) : Result (list byte) AnyError := Ok bs.

Definition doc_ref_json (r : BlockRef) : list byte := doc_previous_blocks [r].

Lemma escape_frame s :
  0 < length (zstd_encode s) /\
  decode_one_zstd_frame (zstd_encode s) = Ok (length (zstd_encode s), bytes_of s).
Proof.
  cbn [zstd_encode escape_zstd]. split; [destruct (bytes_of s); simpl; lia|].
  rewrite <- (app_nil_r (escape _)) at 1. apply unescape_escape.
Qed.

Lemma escape_member s g :
  stored_as_is (zstd_encode s) = Ok g ->
  0 < length g /\ decode_one_gzip_member g = Ok (length g, bytes_of s).
Proof. intros [= <-]. apply escape_frame. Qed.

Lemma responses_conform_witness :
  exists q r settled,
    classify_query doc_chain doc_chain doc_chain 13 (Some "c"%string) [] = Some q /\
    handle_stream is_header_safe_hash stored_as_is no_text "gzip, zstd" (BodyParsed 13 (Some "c"%string))
      (fun _ _ => VerdictDone q) false hurried = Some (r, settled) /\
    status r = 200%N /\
    conforms sim_extract None doc_ref_json doc_previous_blocks doc_chain doc_chain doc_chain 13 [] "gzip, zstd" r.
Proof.
  assert (buffer_ok sim_extract None doc_chain) as Hb by (split; [by apply chain_wfb_sound|exact doc_servable]).
  destruct (responses_conform is_header_safe_hash stored_as_is no_text sim_extract None doc_ref_json
    doc_previous_blocks
    escape_frame escape_member
    doc_previous_blocks_read doc_chain doc_chain doc_chain 13 (Some "c"%string) []
    (proj1 Hb) Hb Hb ltac:(done) ltac:(done) (proj2 Hb) (fun h Hh => Hh) "gzip, zstd" false hurried eq_refl)
    as (q & Eq & Hr).
  destruct (Hr (fun _ _ => VerdictDone q) (or_introl eq_refl)) as (r & settled & E & Hc).
  exists q, r, settled. split; [exact Eq|]. split; [exact E|]. split; [|exact Hc].
  assert (q = Ok (mkDataResponse (Some (mkBlockRef 13 "d")) None (Some (drop 1 (blocks doc_chain))), QWindow))
    as Hq by (vm_compute in Eq; by injection Eq as <-).
  rewrite Hq in E. vm_compute in E. by injection E as <- _.
Defined.

Lemma refusals_judged_witness :
  from_utf8 (bytes_of "expected value") = Ok "expected value"%string /\
  exists r, handle_stream is_header_safe_hash stored_as_is no_text "" BodyTooLarge
      (fun _ _ => VerdictDone (Err (QInternal EmptyBatch))) false calm = Some (r, []) /\
    status r = 413%N /\
    validate_outcome (V := Doc) (status r) (wire_headers r) (wire_body doc_ref_json doc_previous_blocks r)
      = Err "INV-27: status 413 is outside the closed taxonomy"%string.
Proof.
  split; [by vm_compute|].
  destruct (refusals_judged is_header_safe_hash stored_as_is no_text doc_ref_json doc_previous_blocks ""
    (fun _ _ => VerdictDone (Err (QInternal EmptyBatch))) false calm "expected value" ltac:(by vm_compute))
    as (_ & _ & _ & _ & H).
  exact H.
Defined.

(** The eviction really happens: a request one above the head of [12..14] that
    waits until the buffer holds [17..18] only is answered with an empty form
    without a watermark, which the validators reject (the specification's
    GAP-30). *)
Example evicted_wait_lacks_watermark :
  let moved := mkChain [doc_block 17 "h" 16 "g"; doc_block 18 "i" 17 "h"] 0 4 false None in
  exists q r settled,
    classify_query doc_chain doc_chain moved 15 (Some "e"%string) [] = Some q /\
    handle_stream is_header_safe_hash stored_as_is no_text "zstd" (BodyParsed 15 (Some "e"%string))
      (fun _ _ => VerdictDone q) false calm = Some (r, settled) /\
    status r = 204%N /\ evicted_while_waiting doc_chain moved 15 /\
    validate_error (V := Doc) (status r) (wire_headers r) (wire_body doc_ref_json doc_previous_blocks r)
      = Err "IB-5: empty form lacks watermarks: INV-24: missing finalized-head number header"%string.
Proof.
  eexists _, _, _. split; [vm_compute; reflexivity|]. split; [vm_compute; reflexivity|].
  split; [reflexivity|]. split; [by split|]. by vm_compute.
Qed.
