(* ===== verification/Driver.v ===== *)
(** * Driver: the harness's client against the service's router (client.rs)

    The harness drives the service through one small HTTP client. Here are its
    requests and what it keeps of a response, the routes and the request
    bodies of http.rs, and the two put together: [service] answers a request
    by the handlers of Http.v, and the theorems say what the client captures
    of the answer, which is what the validators judge. *)
From S2P Require Import Prelude Types Chain RefModel Service ChainRefines Run Query Metrics Http Rlp Frames Normalize Sim Validators Conformance.
From stdpp Require Import pretty.
From Stdlib Require Import Ascii Strings.Byte.
Local Open Scope rust_scope.

(** ** Messages *)

(** [OtherMethod]: any but these and HEAD, which a GET route also takes. *)
Inductive Method : Type := GET | POST | OtherMethod.

(** A path is its segments. *)
Record DriverRequest := mkDriverRequest {
  rq_method : Method;
  rq_path : list string;
  rq_accept_encoding : option string;
  rq_body : list byte
}.

(** Header names are in lower case. *)
Record WireResponse := mkWireResponse {
  rs_status : N;
  rs_headers : list (string * string);
  rs_body : list byte
}.

(** [HeaderValue::to_str]: visible ASCII and the tab. *)
Definition is_visible (c : ascii) : bool :=
  let n := N_of_ascii c in ((32 <=? n) && (n <? 127) || (n =? 9))%N.

Fixpoint all_visible (s : string) : bool :=
  match s with EmptyString => true | String c s => is_visible c && all_visible s end.

Definition to_str (s : string) : option string := if all_visible s then Some s else None.

(** [headers().get(name)]: the first of that name. *)
Fixpoint header_value (name : string) (headers : list (string * string)) : option string :=
  match headers with
  | [] => None
  | (k, v) :: headers => if String.eqb k name then Some v else header_value name headers
  end.

Definition header_str (name : string) (r : WireResponse) : option string :=
  header_value name (rs_headers r) ≫= to_str.

(** ** The client *)

Inductive DriverError : Type :=
  | RequestFailed (what : string)
  | StatusError (status : N)
  | NotJson (what : string).

(** A captured response of any GET route. *)
Record RawResponse := mkRawResponse {
  raw_status : N;
  raw_content_type : option string;
  raw_body : list byte
}.

(** A captured response of the stream route. *)
Record StreamResponse := mkStreamResponse {
  st_status : N;
  st_content_type : option string;
  st_content_encoding : option string;
  st_vary : option string;
  st_finalized_number : option string;
  st_finalized_hash : option string;
  st_body : list byte
}.

(** The fields of a request's body. *)
Inductive BodyField : Type := BNumber (n : N) | BText (s : string).

Definition stream_body (from_block : N) (parent_block_hash : option string) : list (string * BodyField) :=
  ("fromBlock"%string, BNumber from_block)
  :: match parent_block_hash with Some ph => [("parentBlockHash"%string, BText ph)] | None => [] end.

Section client.
(** What comes back from a request; the reader of a ref; the text of a body. *)
Variable net : DriverRequest -> Result WireResponse string.
Variable parse_ref : list byte -> Result BlockRef string.
Variable to_vec : list (string * BodyField) -> list byte.

Definition get_request (path : list string) : DriverRequest := mkDriverRequest GET path None [].

Definition error_for_status (r : WireResponse) : Result WireResponse DriverError :=
  if ((400 <=? rs_status r) && (rs_status r <? 600))%N then Err (StatusError (rs_status r)) else Ok r.

Definition get_ref (path : list string) : Result BlockRef DriverError :=
  let? resp := map_err RequestFailed (net (get_request path)) in
  let? resp := error_for_status resp in
  map_err NotJson (parse_ref (rs_body resp)).

Definition driver_head : Result BlockRef DriverError := get_ref ["head"%string].
Definition driver_finalized_head : Result BlockRef DriverError := get_ref ["finalized-head"%string].

Definition get_raw (path : list string) : Result RawResponse DriverError :=
  let? resp := map_err RequestFailed (net (get_request path)) in
  Ok (mkRawResponse (rs_status resp) (header_str "content-type" resp) (rs_body resp)).

Definition stream_request (from_block : N) (parent_block_hash : option string) (accept_encoding : string)
    : DriverRequest :=
  mkDriverRequest POST ["stream"%string] (Some accept_encoding) (to_vec (stream_body from_block parent_block_hash)).

Definition driver_stream (from_block : N) (parent_block_hash : option string) (accept_encoding : string)
    : Result StreamResponse DriverError :=
  let? resp := map_err RequestFailed (net (stream_request from_block parent_block_hash accept_encoding)) in
  Ok (mkStreamResponse (rs_status resp) (header_str "content-type" resp) (header_str "content-encoding" resp)
        (header_str "vary" resp) (header_str "x-sqd-finalized-head-number" resp)
        (header_str "x-sqd-finalized-head-hash" resp) (rs_body resp)).
End client.

(** What the validators look at. *)
Definition captured_headers (r : StreamResponse) : WireHeaders :=
  mkWireHeaders (st_content_type r) (st_content_encoding r) (st_vary r) (st_finalized_number r)
    (st_finalized_hash r).

(** ** The router *)

Inductive Route : Type :=
  | Root | Head | FinalizedHead | Readiness | Stream | MetricsAll | MetricsName (name : string)
  | BlockTime (height : string) | MethodNotAllowed | NotFound.

Definition routed (allowed method : Method) (r : Route) : Route :=
  match allowed, method with GET, GET | POST, POST => r | _, _ => MethodNotAllowed end.

Definition build_router (method : Method) (path : list string) : Route :=
  match path with
  | [] => routed GET method Root
  | [a] =>
      if bool_decide (a = "head"%string) then routed GET method Head
      else if bool_decide (a = "finalized-head"%string) then routed GET method FinalizedHead
      else if bool_decide (a = "readiness"%string) then routed GET method Readiness
      else if bool_decide (a = "stream"%string) then routed POST method Stream
      else if bool_decide (a = "metrics"%string) then routed GET method MetricsAll
      else NotFound
  | [a; b] =>
      if bool_decide (a = "metrics"%string) then routed GET method (MetricsName b)
      else if bool_decide (a = "block-time"%string) then routed GET method (BlockTime b)
      else NotFound
  | _ => NotFound
  end.

(** The limit on a request's body, in bytes. *)
Definition BODY_LIMIT : nat := 1024.

Record StreamRequest := mkStreamRequest {
  from_block : N;
  parent_block_hash : option string
}.

(** Reading and parsing the body of a stream request. *)
Definition read_request (parse : list byte -> Result StreamRequest string) (body : list byte) : RequestBody :=
  if BODY_LIMIT <? length body then BodyTooLarge
  else match parse body with
       | Err e => BodyInvalid e
       | Ok r => BodyParsed (from_block r) (parent_block_hash r)
       end.

(** What is left of headers whose watermark hash the client cannot read. *)
Definition legible (h : WireHeaders) : WireHeaders :=
  mkWireHeaders (wh_content_type h) (wh_content_encoding h) (wh_vary h) (wh_finalized_number h)
    (wh_finalized_hash h ≫= to_str).

(** ** The service on the wire *)

Definition option_header (name : string) (v : option string) : list (string * string) :=
  match v with Some v => [(name, v)] | None => [] end.

(** The headers http.rs sets, and those [IntoResponse] sets for it. *)
Definition header_lines (r : Response) : list (string * string) :=
  option_header "content-type" (content_type r)
  ++ option_header "content-encoding" (content_encoding r)
  ++ option_header "vary" (vary r)
  ++ option_header "x-sqd-finalized-head-number" (finalized_number r)
  ++ option_header "x-sqd-finalized-head-hash" (finalized_hash r).

Section service.
Variable header_value_ok : string -> bool.
Variable transcode : list byte -> Result (list byte) AnyError.
Variable display_error : AnyError -> string.
Variable ref_json : BlockRef -> list byte.
Variable previous_blocks_json : list BlockRef -> list byte.
Variable parse : list byte -> Result StreamRequest string.
(** The metric and block-time routes, whose bodies are not refs or records. *)
Variable other_routes : Route -> WireResponse.

Definition send (r : Response) : WireResponse :=
  mkWireResponse (status r) (header_lines r) (wire_body ref_json previous_blocks_json r).

(** One request against a service whose buffer is [c]; [None]: the handler
    panicked. *)
Definition service (now : N) (m : Metrics) (c : Chain) (verdict : N -> option string -> Verdict)
    (first_expires : bool) (env : nat -> LoopEnv) (req : DriverRequest) : option WireResponse :=
  match build_router (rq_method req) (rq_path req) with
  | Root => Some (send handle_root)
  | Head => send <$> handle_head c
  | FinalizedHead => send <$> handle_finalized_head c
  | Readiness => send <$> handle_readiness now m c
  | Stream =>
      let accept := default EmptyString (rq_accept_encoding req ≫= to_str) in
      let! (r, _) := handle_stream header_value_ok transcode display_error accept
                       (read_request parse (rq_body req)) verdict first_expires env in
      Some (send r)
  | MethodNotAllowed => Some (mkWireResponse 405 [] [])
  | NotFound => Some (mkWireResponse 404 [] [])
  | r => Some (other_routes r)
  end.

(** A panic closes the connection. *)
Definition net_of (server : DriverRequest -> option WireResponse) (req : DriverRequest)
    : Result WireResponse string :=
  match server req with Some r => Ok r | None => Err "connection closed"%string end.

(** ** What the client captures *)

Lemma digit_visible x : is_visible (pretty_N_char x) = true.
Proof. unfold pretty_N_char. by repeat case_match. Qed.

Lemma pretty_go_visible x s : all_visible s = true -> all_visible (pretty_N_go x s) = true.
Proof.
  revert s. induction (N.lt_wf_0 x) as [x _ IH]. intros s Hs.
  destruct (decide (x = 0%N)) as [->|Hne]; [by rewrite pretty_N_go_0|].
  rewrite pretty_N_go_step by lia. apply IH; [apply N.div_lt; lia|]. cbn. by rewrite digit_visible.
Qed.

Lemma pretty_visible (n : N) : to_str (pretty n) = Some (pretty n).
Proof.
  unfold to_str, pretty, pretty_N. destruct (decide (n = 0%N)); [done|]. by rewrite pretty_go_visible.
Qed.

(** Every header the service sends reads back, but for a hash of the buffer
    that is not visible ASCII, which is captured as absent. *)
Lemma headers_captured r :
  let w := send r in
  header_str "content-type" w = content_type r
  /\ header_str "content-encoding" w = content_encoding r /\ header_str "vary" w = vary r
  /\ header_str "x-sqd-finalized-head-number" w = finalized_number r
  /\ header_str "x-sqd-finalized-head-hash" w = (finalized_hash r ≫= to_str).
Proof.
  destruct r as [code fh body]. unfold header_str, header_lines, finalized_number, finalized_hash, send.
  cbn [rs_headers finalized_header]. pose proof pretty_visible as Hp.
  destruct body as [text|b| |refs|[|] fs t], fh as [fh|]; cbn -[to_str pretty];
    rewrite ?Hp; by split_and!.
Qed.
End service.

(** ** The harness against the service *)

Section exchange.
Context `{BodyDecoderLaws} `{Formats} {V : Type} `{!Json V} `{!Zstd}.
Variable header_value_ok : string -> bool.
Variable transcode : list byte -> Result (list byte) AnyError.
Variable display_error : AnyError -> string.
Variable extract : V -> option (N * N * string * string).
Variable ledger : option Ledger.
Variable ref_json : BlockRef -> list byte.
Variable previous_blocks_json : list BlockRef -> list byte.
Variable parse : list byte -> Result StreamRequest string.
Variable other_routes : Route -> WireResponse.
Variable parse_ref : list byte -> Result BlockRef string.
Variable to_vec : list (string * BodyField) -> list byte.

(** serde_json reads back what it writes. *)
Hypothesis ref_read_back : forall r, parse_ref (ref_json r) = Ok r.
Hypothesis request_read_back : forall from ph, parse (to_vec (stream_body from ph)) = Ok (mkStreamRequest from ph).

Abbreviation served now m c verdict expires env :=
  (net_of (service header_value_ok transcode display_error ref_json previous_blocks_json parse other_routes
             now m c verdict expires env)).

Abbreviation handle := (handle_stream header_value_ok transcode display_error).
Abbreviation sent := (send ref_json previous_blocks_json).

(** What the server reads of a stream request. *)
Definition asked (from : N) (ph : option string) : RequestBody :=
  if BODY_LIMIT <? length (to_vec (stream_body from ph)) then BodyTooLarge else BodyParsed from ph.

Lemma stream_served now m c verdict expires env from ph accept :
  all_visible accept = true ->
  service header_value_ok transcode display_error ref_json previous_blocks_json parse other_routes
    now m c verdict expires env (stream_request to_vec from ph accept)
  = let! (r, _) := handle accept (asked from ph) verdict expires env in Some (sent r).
Proof.
  intros Ha. unfold service, stream_request. cbn [rq_method rq_path rq_accept_encoding rq_body].
  change (build_router POST ["stream"%string]) with Stream. cbv iota.
  unfold asked, read_request. rewrite request_read_back. cbn [from_block parent_block_hash].
  change (Some accept ≫= to_str) with (to_str accept). unfold to_str. by rewrite Ha.
Qed.

(** The client's request reaches the handler as it was asked, unless its hash
    makes it longer than the limit; what it captures is the response. *)
Lemma stream_captured now m c verdict expires env from ph accept r settled :
  all_visible accept = true -> handle accept (asked from ph) verdict expires env = Some (r, settled) ->
  exists w, driver_stream (served now m c verdict expires env) to_vec from ph accept = Ok w
    /\ st_status w = status r /\ st_body w = wire_body ref_json previous_blocks_json r
    /\ captured_headers w = legible (wire_headers r).
Proof.
  intros Ha Hr. unfold driver_stream, net_of. rewrite stream_served by done. rewrite Hr. cbn [map_err].
  eexists. split; [reflexivity|]. split; [done|]. split; [done|]. unfold captured_headers.
  cbn [st_content_type st_content_encoding st_vary st_finalized_number st_finalized_hash].
  destruct (headers_captured ref_json previous_blocks_json r) as (-> & -> & -> & -> & ->). done.
Qed.

(** The watermark routes, as the client reads them. *)
Theorem watermarks_captured now m c verdict expires env h f :
  get_head c = Some h -> get_finalized_head c = Some f ->
  driver_head (served now m c verdict expires env) parse_ref = Ok h
  /\ driver_finalized_head (served now m c verdict expires env) parse_ref = Ok f.
Proof.
  intros Hh Hf. unfold driver_head, driver_finalized_head, get_ref, net_of, service, get_request.
  cbn [rq_method rq_path]. change (build_router GET ["head"%string]) with Head.
  change (build_router GET ["finalized-head"%string]) with FinalizedHead. cbv iota.
  unfold handle_head, handle_finalized_head. rewrite Hh, Hf. cbn. by rewrite !ref_read_back.
Qed.

(** *** What is captured conforms *)

Hypothesis zstd_frame : forall s,
  0 < length (zstd_encode s) /\
  decode_one_zstd_frame (zstd_encode s) = Ok (length (zstd_encode s), bytes_of s).
Hypothesis gzip_member : forall s g, transcode (zstd_encode s) = Ok g ->
  0 < length g /\ decode_one_gzip_member g = Ok (length g, bytes_of s).
Hypothesis previous_blocks_read : forall refs,
  Forall (fun r => br_number r <= u64_max)%N refs ->
  exists v arr, json_from_slice (previous_blocks_json refs) = Ok v /\
    json_get v "previousBlocks" ≫= json_as_array = Some arr /\
    Forall2 (fun v r => json_get v "number" ≫= json_as_u64 = Some (br_number r) /\
                        json_get v "hash" ≫= json_as_str = Some (br_hash r)) arr refs.
Hypothesis header_value_complete : forall h, is_header_safe_hash h = true -> header_value_ok h = true.

(** C10: What the harness's client captures of the service is accepted by its
    validators. For a stream request that fits the body limit, sent through the
    router to a service whose buffers and source keep their contracts, however
    the budget and the connection cut the body after its first record, the
    client gets a response; its status, body and headers are those of a
    response that conforms, but for a watermark hash that is not visible ASCII,
    which the client alone takes for absent. *)
Theorem captures_conform now m c c1 c2 c3 from ph source accept expires env :
  chain_wf c1 -> buffer_ok extract ledger c2 -> buffer_ok extract ledger c3 -> (from <= u64_max)%N ->
  (below_window c1 from = Some true -> source_ok extract ledger c2 from source) ->
  Forall (servable extract ledger) (blocks c1) ->
  send_result (env 0) = SendDone -> all_visible accept = true ->
  length (to_vec (stream_body from ph)) <= BODY_LIMIT ->
  exists q, classify_query c1 c2 c3 from ph source = Some q /\
  forall verdict,
    verdict from ph = VerdictDone q \/
    (exists fh, get_finalized_head c3 = Some fh /\ verdict from ph = VerdictExpired fh) ->
    exists w r,
      driver_stream (served now m c verdict expires env) to_vec from ph accept = Ok w
      /\ conforms extract ledger ref_json previous_blocks_json c1 c2 c3 from source accept r
      /\ st_status w = status r /\ st_body w = wire_body ref_json previous_blocks_json r
      /\ captured_headers w = legible (wire_headers r).
Proof.
  intros Hc1 Hc2 Hc3 Hfrom Hsrc Hs1 Henv Ha Hlen.
  destruct (responses_conform header_value_ok transcode display_error extract ledger ref_json previous_blocks_json
    zstd_frame gzip_member previous_blocks_read c1 c2 c3 from ph source Hc1 Hc2 Hc3 Hfrom Hsrc Hs1
    header_value_complete accept expires env Henv) as (q & Hq & Hall).
  exists q. split; [done|]. intros verdict Hv. destruct (Hall verdict Hv) as (r & settled & Hr & Hconf).
  assert (asked from ph = BodyParsed from ph) as Hasked.
  { unfold asked. by rewrite (proj2 (Nat.ltb_ge _ _) Hlen). }
  rewrite <- Hasked in Hr.
  destruct (stream_captured now m c verdict expires env from ph accept r settled Ha Hr) as (w & Hw & Hst & Hb & Hh).
  by exists w, r.
Qed.
End exchange.

(** ** Concrete instances *)

(** A body as the bits of its fields. *)
Definition demo_to_vec (fields : list (string * BodyField)) : list byte :=
  match fields with
  | (_, BNumber n) :: rest =>
      bits (encode (n, match rest with (_, BText s) :: _ => Some s | _ => None end))
  | _ => []
  end.

Definition demo_parse (bs : list byte) : Result StreamRequest string :=
  match decode (Conformance.of_bits bs) with
  | Some (n, ph) => Ok (mkStreamRequest n ph)
  | None => Err "expected value"%string
  end.

Lemma read_bits p : Conformance.of_bits (bits p) = p.
Proof. rewrite <- (app_nil_r (bits p)). apply of_bits_bits. by left. Qed.

Lemma demo_read_back from ph : demo_parse (demo_to_vec (stream_body from ph)) = Ok (mkStreamRequest from ph).
Proof. unfold demo_parse, demo_to_vec, stream_body. destruct ph as [s|]; by rewrite read_bits, decode_encode. Qed.

Definition demo_parse_ref (bs : list byte) : Result BlockRef string :=
  match decode (A := Written) (Conformance.of_bits bs) with
  | Some (inr [(n, h)]) => Ok (mkBlockRef n h)
  | _ => Err "expected value"%string
  end.

Lemma demo_ref_read_back r : demo_parse_ref (doc_ref_json r) = Ok r.
Proof.
  unfold demo_parse_ref, doc_ref_json, doc_previous_blocks. rewrite read_bits, decode_encode. by destruct r.
Qed.

Definition demo_server (verdict : N -> option string -> Verdict) (env : nat -> LoopEnv)
    : DriverRequest -> Result WireResponse string :=
  net_of (service is_header_safe_hash stored_as_is no_text doc_ref_json doc_previous_blocks demo_parse
            (fun _ => mkWireResponse 200 [] []) 0 (metrics_new 0 0) doc_chain verdict false env).

Lemma watermarks_captured_witness :
  driver_head (demo_server (fun _ _ => VerdictDone (Err (QInternal EmptyBatch))) calm) demo_parse_ref
  = Ok (mkBlockRef 14 "e").
Proof.
  apply (watermarks_captured is_header_safe_hash stored_as_is no_text doc_ref_json doc_previous_blocks demo_parse
           (fun _ => mkWireResponse 200 [] []) demo_parse_ref demo_ref_read_back
           0 (metrics_new 0 0) doc_chain _ false calm (mkBlockRef 14 "e") (mkBlockRef 13 "d")); reflexivity.
Defined.

Lemma captures_conform_witness :
  exists q w r,
    driver_stream (demo_server (fun _ _ => VerdictDone q) hurried) demo_to_vec 13 (Some "c"%string) "gzip, zstd" = Ok w
    /\ st_status w = 200%N
    /\ conforms sim_extract None doc_ref_json doc_previous_blocks doc_chain doc_chain doc_chain 13 [] "gzip, zstd" r
    /\ captured_headers w = wire_headers r.
Proof.
  assert (buffer_ok sim_extract None doc_chain) as Hb by (split; [by apply chain_wfb_sound|exact doc_servable]).
  destruct (captures_conform is_header_safe_hash stored_as_is no_text sim_extract None doc_ref_json
    doc_previous_blocks demo_parse (fun _ => mkWireResponse 200 [] []) demo_to_vec demo_read_back
    escape_frame escape_member doc_previous_blocks_read (fun h Hh => Hh)
    0 (metrics_new 0 0) doc_chain doc_chain doc_chain doc_chain 13 (Some "c"%string) [] "gzip, zstd" false hurried
    (proj1 Hb) Hb Hb ltac:(done) ltac:(done) (proj2 Hb) eq_refl eq_refl) as (q & Eq & Hr).
  { vm_compute. lia. }
  destruct (Hr (fun _ _ => VerdictDone q) (or_introl eq_refl)) as (w & r & E & Hc & Hst & _ & Hh).
  exists q, w, r. split; [exact E|].
  assert (q = Ok (mkDataResponse (Some (mkBlockRef 13 "d")) None (Some (drop 1 (blocks doc_chain))), QWindow))
    as Hq by (vm_compute in Eq; by injection Eq as <-).
  split; [rewrite Hq in E; vm_compute in E; by injection E as <-|]. split; [exact Hc|].
  rewrite Hq in E. vm_compute in E. injection E as <-. unfold captured_headers, legible in *.
  cbn -[wire_headers to_str] in Hh. injection Hh as H1 H2 H3 H4 H5. unfold wire_headers in *.
  cbn -[to_str] in *. destruct (finalized_hash r) as [h|]; [|done]. cbn [mbind option_bind] in H5.
  unfold to_str in H5. destruct (all_visible h); [|done]. injection H5 as <-. congruence.
Defined.

(** A hash the service may put in a header and its own harness cannot read. *)
Example illegible_watermark :
  let hash := String (Ascii.ascii_of_N 195) (String (Ascii.ascii_of_N 169) EmptyString) in
  let headers := wire_headers (mkResponse 204 (Some (mkBlockRef 5 hash)) EmptyBody) in
  is_header_safe_hash hash = true
  /\ validate_error (V := Doc) 204 headers [] = Ok ClassEmpty
  /\ validate_error (V := Doc) 204 (legible headers) []
     = Err "IB-5: empty form lacks watermarks: INV-24: missing finalized-head hash header"%string.
Proof. by vm_compute. Qed.
