(* ===== verification/Stub.v ===== *)
(** * Stub: the fault-injecting upstream of the harness (harness/src/upstream.rs)

    A scripted chain served over JSON-RPC, with faults registered per method,
    tracer and block, and a count of the calls. The state is the record
    [Inner]; [answer] is one call, [handle] one HTTP request, and a [Mutex] is
    the state passed from one to the next. A JSON value is the tree of
    serde_json, an object its entries in order of insertion.

    The theorems: what the stub answers over any history of calls, faults and
    counters included, is the pure function of the script a test expects; the
    chain it serves without faults is linked, and the same by hash and by
    number; what the helper behind the faults serves for a header is not. *)
From stdpp Require Import gmap strings pretty.
From S2P Require Import Prelude Types Rlp EvmTypes Sim.
Local Open Scope rust_scope.

(** ** JSON *)

Inductive Value : Type :=
  | VNull
  | VBool (b : bool)
  | VNum (n : Z)
  | VStr (s : string)
  | VArr (l : list Value)
  | VObj (l : list (string * Value)).

Definition obj_get (k : string) (l : list (string * Value)) : option Value :=
  snd <$> List.find (fun e => String.eqb e.1 k) l.

(** [v.get(key)] and [v.get(0)]. *)
Definition get (k : string) (v : Value) : option Value :=
  match v with VObj l => obj_get k l | _ => None end.

Definition get_at (i : nat) (v : Value) : option Value :=
  match v with VArr l => l !! i | _ => None end.

Definition value_str (v : Value) : option string := match v with VStr s => Some s | _ => None end.
Definition as_bool (v : Value) : option bool := match v with VBool b => Some b | _ => None end.
Definition is_array (v : Value) : bool := match v with VArr _ => true | _ => false end.

(** [Map::insert]: a key that is there keeps its place. *)
Fixpoint obj_insert (k : string) (x : Value) (l : list (string * Value)) : list (string * Value) :=
  match l with
  | [] => [(k, x)]
  | (k', y) :: l => if String.eqb k' k then (k', x) :: l else (k', y) :: obj_insert k x l
  end.

(** [Map::remove] of the insertion-ordered map: the last entry takes the place. *)
Fixpoint obj_remove (k : string) (l : list (string * Value)) : list (string * Value) :=
  match l with
  | [] => []
  | (k', y) :: l =>
      if String.eqb k' k then
        match last l with Some e => e :: removelast l | None => [] end
      else (k', y) :: obj_remove k l
  end.

(** [for entry in value.as_array_mut()..., as_object_mut()]. *)
Definition map_entries (f : list (string * Value) -> list (string * Value)) (v : Value) : Value :=
  match v with
  | VArr l => VArr (map (fun e => match e with VObj o => VObj (f o) | e => e end) l)
  | v => v
  end.

(** ** The script *)

(** Four words drawn from one seed. *)
Fixpoint digest_words (n : nat) (s : N) : string :=
  match n with
  | O => ""
  | S n => let s := splitmix64 s in hex16 s +:+ digest_words n s
  end.

Definition digest (kind a b : N) : string :=
  "0x" +:+ digest_words 4
    (splitmix64 (N.lxor (N.lxor kind (rotate_left64 a 17)) (wrap64 (b * 0x9E3779B97F4A7C15)))).

Definition qty2_u64 (s : string) : N :=
  match from_str_radix_16 u64_max (strip_0x s) with Ok n => n | Err _ => 0%N end.

Definition zero_bloom : string := "0x" +:+ zeros 512.

(** [{n:040x}]. *)
Definition addr (n : N) : string := "0x" +:+ zeros (40 - String.length (lower_hex n)) +:+ lower_hex n.

Definition EMPTY_TRIE_ROOT : string :=
  "0x56e81f171bcc55a6ff8345e692c0f86e5b48e01b996cadc001622fb5e363b421".

Record ChainBlock := mkChainBlock {
  cb_number : N;
  cb_hash : string;
  cb_parent_hash : string;
  txs : list string
}.

Definition commitment (b : ChainBlock) (salt : N) : string :=
  match txs b with [] => EMPTY_TRIE_ROOT | _ => digest 7 (cb_number b) salt end.

Record Script := mkScript { cs_blocks : list ChainBlock; cs_branch : N }.

(** [a..b] *)
Definition range (a b : N) : list N := (fun i => a + N.of_nat i)%N <$> seq 0 (N.to_nat (b - a)).

Definition branched_block (branch : N) (txs_per_block : nat) (number : N) : ChainBlock :=
  mkChainBlock number (digest branch number 1) (digest branch (saturating_sub number 1) 1)
    ((fun i => digest branch number (100 + i)%N) <$> range 0 (N.of_nat txs_per_block)).

Definition branched (from count : N) (txs_per_block : nat) (branch : N) : Script :=
  mkScript (branched_block branch txs_per_block <$> range from (wrap64 (from + count))) branch.

Definition linear (from count : N) (txs_per_block : nat) : Script := branched from count txs_per_block 0.

(** [None]: [expect] on an empty chain. *)
Definition first (c : Script) : option ChainBlock := head (cs_blocks c).
Definition last_of (c : Script) : option ChainBlock := last (cs_blocks c).

Definition at_number (c : Script) (number : N) : option ChainBlock :=
  List.find (fun b => (cb_number b =? number)%N) (cs_blocks c).

Definition by_hash (c : Script) (hash : string) : option ChainBlock :=
  List.find (fun b => String.eqb (cb_hash b) hash) (cs_blocks c).

(** [None]: a panic of [first] or of [remove(0)]. *)
Definition foreign (c : Script) (number : N) : option ChainBlock :=
  let! b := first c in
  head (cs_blocks (branched number 1 (length (txs b)) (wrap64 (cs_branch c + 1)))).

(** ** Faults and state *)

Inductive Fault : Type :=
  | FError (code : Z) (message : string)
  | FNull
  | FWrongBlock
  | FTruncated
  | FMalformed
  | FMalformedEntry
  | FDropKey (key : string)
  | FEmptyKey (key : string)
  | FDuplicated
  | FMixedFrames
  | FInvalidDebugFrameStructure
  | FForgedField (key : string) (value : Value)
  | FDelay (d : N).

Definition Fault_error (message : string) : Fault := FError (-32003) message.

Record Key := mkKey {
  k_method : string;
  k_tracer : option string;
  k_block : N;
  addressed_by_hash : bool
}.

#[export] Instance Key_eq_dec : EqDecision Key.
Proof. solve_decision. Defined.

#[export] Instance Key_countable : Countable Key.
Proof.
  refine (inj_countable' (fun k => (k_method k, k_tracer k, k_block k, addressed_by_hash k))
            (fun '(m, t, b, h) => mkKey m t b h) _).
  by intros [].
Defined.

Record Injection := mkInjection {
  i_method : string;
  i_tracer : option string;
  i_block : N;
  i_fault : Fault;
  remaining : option nat
}.

Record Inner := mkInner {
  chain : Script;
  in_head : N;
  in_finalized : N;
  injections : list Injection;
  calls_map : gmap Key nat
}.

(** [None]: the chain is empty. *)
Definition start (c : Script) : option Inner :=
  let! l := last_of c in
  let! f := first c in
  Some (mkInner c (cb_number l) (cb_number f) [] ∅).

Definition set_head (number : N) (s : Inner) : Inner :=
  mkInner (chain s) number (in_finalized s) (injections s) (calls_map s).

Definition set_finalized (number : N) (s : Inner) : Inner :=
  mkInner (chain s) (in_head s) number (injections s) (calls_map s).

Definition push_injection (method : string) (tracer : option string) (block : N) (fault : Fault)
    (remaining : option nat) (s : Inner) : Inner :=
  mkInner (chain s) (in_head s) (in_finalized s)
    (injections s ++ [mkInjection method tracer block fault remaining]) (calls_map s).

Definition inject (method : string) (block : N) (fault : Fault) : Inner -> Inner :=
  push_injection method None block fault None.

Definition inject_tracer (method tracer : string) (block : N) (fault : Fault) : Inner -> Inner :=
  push_injection method (Some tracer) block fault None.

Definition inject_for (method : string) (block : N) (fault : Fault) (n : nat) : Inner -> Inner :=
  push_injection method None block fault (Some n).

(** The counts of the keys that qualify. *)
Definition calls_where (p : Key -> bool) (s : Inner) : nat :=
  sum_list ((map_to_list (filter (fun e => p e.1) (calls_map s))).*2).

Definition calls (method : string) (block : N) : Inner -> nat :=
  calls_where (fun k => String.eqb (k_method k) method && (k_block k =? block)%N).

Definition calls_with_tracer (method tracer : string) (block : N) : Inner -> nat :=
  calls_where (fun k => String.eqb (k_method k) method && bool_decide (k_tracer k = Some tracer)
                        && (k_block k =? block)%N).

Definition calls_by_address (method : string) (block : N) (by_hash : bool) : Inner -> nat :=
  calls_where (fun k => String.eqb (k_method k) method && (k_block k =? block)%N
                        && Bool.eqb (addressed_by_hash k) by_hash).

Definition calls_by_hash (method : string) (block : N) : Inner -> nat := calls_by_address method block true.
Definition calls_by_number (method : string) (block : N) : Inner -> nat := calls_by_address method block false.

(** ** Payloads *)

Section payloads.
Local Open Scope string_scope.

#[local] Abbreviation qty n := (to_qty n).

Definition header_tx (b : ChainBlock) (i : nat) (hash : string) : Value :=
  VObj [("hash", VStr hash);
        ("nonce", VStr (qty (N.of_nat i)));
        ("blockHash", VStr (cb_hash b));
        ("blockNumber", VStr (qty (cb_number b)));
        ("transactionIndex", VStr (qty (N.of_nat i)));
        ("from", VStr (addr 1));
        ("to", VStr (addr 2));
        ("value", VStr "0x0");
        ("gas", VStr "0x5208");
        ("gasPrice", VStr "0x1");
        ("input", VStr "0x");
        ("type", VStr "0x2");
        ("chainId", VStr "0x1");
        ("maxFeePerGas", VStr "0x1");
        ("maxPriorityFeePerGas", VStr "0x1");
        ("accessList", VArr []);
        ("v", VStr "0x0");
        ("r", VStr "0x1");
        ("s", VStr "0x1")].

Definition header (b : ChainBlock) (full_txs : bool) : Value :=
  let transactions := if full_txs then imap (header_tx b) (txs b) else VStr <$> txs b in
  VObj [("number", VStr (qty (cb_number b)));
        ("hash", VStr (cb_hash b));
        ("parentHash", VStr (cb_parent_hash b));
        ("difficulty", VStr "0x0");
        ("totalDifficulty", VStr "0x0");
        ("extraData", VStr "0x");
        ("gasLimit", VStr "0x1c9c380");
        ("gasUsed", VStr (qty (wrap64 (21000 * N.of_nat (length (txs b))))));
        ("sha3Uncles", VStr "0x1dcc4de8dec75d7aab85b567b6ccd41ad312451b948a7413f0a142fd40d49347");
        ("logsBloom", VStr zero_bloom);
        ("transactionsRoot", VStr (commitment b 2));
        ("receiptsRoot", VStr (commitment b 3));
        ("stateRoot", VStr (digest 7 (cb_number b) 4));
        ("miner", VStr (addr 0));
        ("mixHash", VStr (digest 7 (cb_number b) 5));
        ("nonce", VStr "0x0000000000000000");
        ("baseFeePerGas", VStr "0x1");
        ("size", VStr "0x220");
        ("timestamp", VStr (qty (wrap64 (1700000000 + cb_number b * 12))));
        ("transactions", VArr transactions);
        ("uncles", VArr []);
        ("withdrawals", VArr [])].

(** [hash] is [b.txs[i]]. *)
Definition receipt (b : ChainBlock) (i : nat) (hash : string) : Value :=
  VObj [("blockHash", VStr (cb_hash b));
        ("blockNumber", VStr (qty (cb_number b)));
        ("transactionHash", VStr hash);
        ("transactionIndex", VStr (qty (N.of_nat i)));
        ("contractAddress", VNull);
        ("cumulativeGasUsed", VStr (qty (wrap64 (21000 * (N.of_nat i + 1)))));
        ("gasUsed", VStr "0x5208");
        ("from", VStr (addr 1));
        ("to", VStr (addr 2));
        ("effectiveGasPrice", VStr "0x1");
        ("logs", VArr []);
        ("logsBloom", VStr zero_bloom);
        ("status", VStr "0x1");
        ("type", VStr "0x2")].

Definition debug_frame (hash : string) : Value :=
  VObj [("txHash", VStr hash);
        ("result", VObj [("type", VStr "CALL");
                         ("from", VStr (addr 1));
                         ("to", VStr (addr 2));
                         ("value", VStr "0x0");
                         ("gas", VStr "0x5208");
                         ("gasUsed", VStr "0x5208");
                         ("input", VStr "0x");
                         ("output", VStr "0x")])].

Definition debug_frames (b : ChainBlock) : Value := VArr (debug_frame <$> txs b).

Definition debug_state_diff (hash : string) : Value :=
  VObj [("txHash", VStr hash);
        ("result",
          VObj [("pre", VObj [(addr 1, VObj [("balance", VStr "0x2"); ("nonce", VNum 1)])]);
                ("post", VObj [(addr 1, VObj [("balance", VStr "0x1"); ("nonce", VNum 2)])])])].

Definition debug_state_diffs (b : ChainBlock) : Value := VArr (debug_state_diff <$> txs b).

Definition replay_trace_frame (b : ChainBlock) (i : nat) (hash : string) : Value :=
  VObj [("action", VObj [("callType", VStr "call");
                         ("from", VStr (addr 1));
                         ("to", VStr (addr 2));
                         ("value", VStr "0x0");
                         ("gas", VStr "0x5208");
                         ("input", VStr "0x")]);
        ("result", VObj [("gasUsed", VStr "0x5208"); ("output", VStr "0x")]);
        ("blockHash", VStr (cb_hash b));
        ("blockNumber", VNum (Z.of_N (cb_number b)));
        ("subtraces", VNum 0);
        ("traceAddress", VArr []);
        ("transactionHash", VStr hash);
        ("transactionPosition", VNum (Z.of_nat i));
        ("type", VStr "call")].

Definition trace_replay (b : ChainBlock) (i : nat) (hash : string) : Value :=
  VObj [("transactionHash", VStr hash);
        ("output", VStr "0x");
        ("trace", VArr [replay_trace_frame b i hash]);
        ("stateDiff",
          VObj [(addr 1, VObj [("balance", VObj [("*", VObj [("from", VStr "0x2"); ("to", VStr "0x1")])])])])].

Definition trace_replays (b : ChainBlock) : Value := VArr (imap (trace_replay b) (txs b)).

Definition reward_frame (b : ChainBlock) : Value :=
  VObj [("action", VObj [("author", VStr (addr 0)); ("rewardType", VStr "block"); ("value", VStr "0x1")]);
        ("blockHash", VStr (cb_hash b));
        ("blockNumber", VNum (Z.of_N (cb_number b)));
        ("result", VNull);
        ("subtraces", VNum 0);
        ("traceAddress", VArr []);
        ("transactionHash", VNull);
        ("transactionPosition", VNull);
        ("type", VStr "reward")].

Definition trace_block_frames (b : ChainBlock) : Value :=
  VArr (imap (replay_trace_frame b) (txs b) ++ [reward_frame b]).

(** [matches!(method, "debug_traceBlockByNumber" | "debug_traceBlockByHash")] *)
Definition is_debug (method : string) : bool :=
  String.eqb method "debug_traceBlockByNumber" || String.eqb method "debug_traceBlockByHash".

Definition is_prestate (tracer : option string) : bool :=
  match tracer with Some t => String.eqb t "prestateTracer" | None => false end.

Definition malformed_entry (method : string) (tracer : option string) : Value :=
  if is_debug method then
    if is_prestate tracer then VArr [VObj [("result", VObj [("pre", VStr "not-a-map")])]]
    else VArr [VObj [("result", VObj [("type", VStr "CALL")])]]
  else if String.eqb method "trace_replayBlockTransactions" then
    VArr [VObj [("trace", VStr "not-an-array")]]
  else if String.eqb method "trace_block" then
    VArr [VObj [("type", VStr "call"); ("subtraces", VStr "many")]]
  else VArr [VObj [("unexpected", VBool true)]].

Definition component (method : string) (tracer : option string) (b : ChainBlock) : Value :=
  if String.eqb method "eth_getBlockReceipts" then VArr (imap (receipt b) (txs b))
  else if is_debug method then
    if is_prestate tracer then debug_state_diffs b else debug_frames b
  else if String.eqb method "trace_replayBlockTransactions" then trace_replays b
  else if String.eqb method "trace_block" then trace_block_frames b
  else VNull.
End payloads.

(** ** One call *)

Section answering.
Local Open Scope string_scope.

Definition visible (s : Inner) (block : option N) : option ChainBlock :=
  match block with
  | None => None
  | Some number => if (in_head s <? number)%N then None else at_number (chain s) number
  end.

(** What the helper behind the faults starts from. *)
Definition truthful (s : Inner) (method : string) (tracer : option string) (block : N) : Value :=
  match visible s (Some block) with
  | Some b => component method tracer b
  | None => VNull
  end.

Definition tracer_of (method : string) (params : Value) : option string :=
  if is_debug method then (get_at 1 params ≫= get "tracer") ≫= value_str else None.

Definition full_txs (params : Value) : bool := default false (get_at 1 params ≫= as_bool).

Definition tx_position (hash : string) (l : list string) : option nat :=
  fst <$> list_find (fun t => t = hash) l.

Definition truth (s : Inner) (method : string) (params p0 : Value) (tracer : option string)
    (block : option N) : Value :=
  if String.eqb method "eth_chainId" then VStr "0x1"
  else if String.eqb method "eth_blockNumber" then VStr (to_qty (in_head s))
  else if String.eqb method "eth_getLogs" then VArr []
  else if String.eqb method "eth_getBlockByNumber" then
    match visible s block with
    | Some b => header b (full_txs params)
    | None => VNull
    end
  else if String.eqb method "eth_getTransactionReceipt" then
    let hash := default "" (value_str p0) in
    default VNull (b ← visible s block; i ← tx_position hash (txs b); Some (receipt b i hash))
  else match visible s block with
       | Some b => component method tracer b
       | None => VNull
       end.

(** The methods whose first parameter is a block. *)
Definition by_block (method : string) : bool :=
  existsb (String.eqb method)
    ["eth_getBlockByNumber"; "eth_getBlockReceipts"; "debug_traceBlockByNumber"; "debug_traceBlockByHash";
     "trace_replayBlockTransactions"; "trace_block"].

Definition addressed_block (s : Inner) (method : string) (p0 : Value) : option N :=
  if by_block method then
    let! p := value_str p0 in
    if existsb (String.eqb p) ["latest"; "safe"; "pending"] then Some (in_head s)
    else if String.eqb p "finalized" then Some (in_finalized s)
    else if Nat.ltb 42 (String.length p) then cb_number <$> by_hash (chain s) p
    else Some (qty2_u64 p)
  else if String.eqb method "eth_getTransactionReceipt" then
    let! hash := value_str p0 in
    cb_number <$> List.find (fun b => existsb (String.eqb hash) (txs b)) (cs_blocks (chain s))
  else None.

(** [.find(...)] of the injection that faults a call. *)
Definition serves (method : string) (tracer : option string) (block : N) (i : Injection) : bool :=
  String.eqb (i_method i) method && (i_block i =? block)%N
  && match i_tracer i with None => true | Some t => bool_decide (Some t = tracer) end
  && match remaining i with Some 0 => false | _ => true end.

Definition used (i : Injection) : Injection :=
  mkInjection (i_method i) (i_tracer i) (i_block i) (i_fault i) (pred <$> remaining i).

Fixpoint take_fault (method : string) (tracer : option string) (block : N) (l : list Injection)
    : option Fault * list Injection :=
  match l with
  | [] => (None, [])
  | i :: l =>
      if serves method tracer block i then (Some (i_fault i), used i :: l)
      else let '(f, l) := take_fault method tracer block l in (f, i :: l)
  end.

(** [arr.retain] of the flat frames, [arr.pop] of the others. *)
Definition truncate (method dropped : string) (v : Value) : Value :=
  match v with
  | VArr l =>
      if String.eqb method "trace_block" then
        VArr (List.filter (fun f => negb (bool_decide (get "transactionHash" f ≫= value_str = Some dropped))) l)
      else VArr (removelast l)
  | v => v
  end.

Definition duplicate_last (v : Value) : Value :=
  match v with
  | VArr l => match last l with Some x => VArr (l ++ [x]) | None => VArr l end
  | v => v
  end.

(** [first.get_mut("trace")], extended. *)
Definition extend_trace (extra : list Value) (o : list (string * Value)) : list (string * Value) :=
  match obj_get "trace" o with
  | Some (VArr own) => obj_insert "trace" (VArr (own ++ extra)) o
  | _ => o
  end.

Definition mix_frames (v : Value) : Value :=
  match v with
  | VArr (VObj first :: (_ :: _) as l) =>
      let borrowed := last l ≫= get "trace" in
      let first := obj_remove "transactionHash" first in
      let first := match borrowed with Some (VArr extra) => extend_trace extra first | _ => first end in
      VArr (VObj first :: tail l)
  | v => v
  end.

Definition self_destruct_calls : Value :=
  VArr [VObj [("type", VStr "SELFDESTRUCT"); ("from", VStr (addr 2)); ("gas", VStr "0x0")]].

Definition break_first_frame (v : Value) : Value :=
  match v with
  | VArr (VObj entry :: l) =>
      match obj_get "result" entry with
      | Some (VObj result) =>
          VArr (VObj (obj_insert "result" (VObj (obj_insert "calls" self_destruct_calls result)) entry) :: l)
      | _ => v
      end
  | v => v
  end.

Definition empty_key (key : string) (o : list (string * Value)) : list (string * Value) :=
  match obj_get key o with Some _ => obj_insert key (VArr []) o | None => o end.

(** [None] is a panic. *)
Definition faulted (s : Inner) (method : string) (params : Value) (tracer : option string) (block : N)
    (fault : Fault) : option (Result Value (Z * string)) :=
  let value := truthful s method tracer block in
  match fault with
  | FError code message => Some (Err (code, message))
  | FNull => Some (Ok VNull)
  | FMalformed => Some (Ok (VObj [("unexpected", VStr "payload")]))
  | FWrongBlock => let! b := foreign (chain s) block in Some (Ok (component method tracer b))
  | FTruncated =>
      match visible s (Some block) with
      | Some b => Some (Ok (truncate method (default "" (last (txs b))) value))
      | None => Some (Ok VNull)
      end
  | FMalformedEntry => Some (Ok (malformed_entry method tracer))
  | FDropKey key => Some (Ok (map_entries (obj_remove key) value))
  | FEmptyKey key => Some (Ok (map_entries (empty_key key) value))
  | FDuplicated => Some (Ok (duplicate_last value))
  | FMixedFrames => Some (Ok (mix_frames value))
  | FInvalidDebugFrameStructure => Some (Ok (break_first_frame value))
  | FDelay _ => Some (Ok (truth s method params (default VNull (get_at 0 params)) tracer (Some block)))
  | FForgedField key v =>
      match visible s (Some block) with
      | Some b =>
          match header b (full_txs params) with
          | VObj o => Some (Ok (VObj (obj_insert key v o)))
          | h => Some (Ok h)
          end
      | None => Some (Ok VNull)
      end
  end.

Definition count_call (k : Key) (s : Inner) : Inner :=
  mkInner (chain s) (in_head s) (in_finalized s) (injections s)
    (<[k := S (default 0 (calls_map s !! k))]> (calls_map s)).

Definition with_injections (l : list Injection) (s : Inner) : Inner :=
  mkInner (chain s) (in_head s) (in_finalized s) l (calls_map s).

Definition delay_after (fault : Fault) (delay : N) : N :=
  match fault with FDelay d => N.max delay d | _ => delay end.

Definition call_key (method : string) (tracer : option string) (number : N) (p0 : Value) : Key :=
  mkKey method tracer number (match value_str p0 with Some v => Nat.ltb 42 (String.length v) | None => false end).

(** One call: its answer, the delay so far, the state. *)
Definition answer (method : string) (params : Value) (delay : N) (s : Inner)
    : option (Result Value (Z * string) * N * Inner) :=
  let p0 := default VNull (get_at 0 params) in
  let tracer := tracer_of method params in
  let block := addressed_block s method p0 in
  match block with
  | Some number =>
      let s := count_call (call_key method tracer number p0) s in
      let '(fault, l) := take_fault method tracer number (injections s) in
      let s := with_injections l s in
      match fault with
      | Some fault =>
          let! r := faulted s method params tracer number fault in
          Some (r, delay_after fault delay, s)
      | None => Some (Ok (truth s method params p0 tracer block), delay, s)
      end
  | None => Some (Ok (truth s method params p0 tracer block), delay, s)
  end.

(** ** One request *)

Definition reply (id : Value) (r : Result Value (Z * string)) : Value :=
  match r with
  | Ok result => VObj [("jsonrpc", VStr "2.0"); ("id", id); ("result", result)]
  | Err (code, message) =>
      VObj [("jsonrpc", VStr "2.0"); ("id", id);
            ("error", VObj [("code", VNum code); ("message", VStr message)])]
  end.

Fixpoint answer_calls (l : list Value) (delay : N) (s : Inner) : option (list Value * N * Inner) :=
  match l with
  | [] => Some ([], delay, s)
  | call :: l =>
      let id := default (VNum 1) (get "id" call) in
      let method := default "" (get "method" call ≫= value_str) in
      let params := default (VArr []) (get "params" call) in
      let! (r, delay, s) := answer method params delay s in
      let! (rs, delay, s) := answer_calls l delay s in
      Some (reply id r :: rs, delay, s)
  end.

(** The parsed body, an empty object if there is none; the response, how long
    it is held back, and the state. *)
Definition handle (body : option Value) (s : Inner) : option (Value * N * Inner) :=
  let req := default (VObj []) body in
  let calls := match req with VArr l => l | v => [v] end in
  let! (responses, delay, s) := answer_calls calls 0 s in
  let out := match responses with
             | single :: _ => if is_array req then VArr responses else single
             | [] => VArr responses
             end in
  Some (out, delay, s).
End answering.

(** ** Which calls are faulted *)

(** What a call is counted and faulted under. *)
Definition call_method (call : Value) : string := default "" (get "method" call ≫= value_str).
Definition call_params (call : Value) : Value := default (VArr []) (get "params" call).
Definition call_p0 (call : Value) : Value := default VNull (get_at 0 (call_params call)).

Definition key_of (s : Inner) (call : Value) : option Key :=
  (fun number => call_key (call_method call) (tracer_of (call_method call) (call_params call)) number (call_p0 call))
    <$> addressed_block s (call_method call) (call_p0 call).

(** The calls a fault is for. *)
Definition hits (i : Injection) (k : option Key) : bool :=
  match k with
  | Some k => String.eqb (i_method i) (k_method k) && (i_block i =? k_block k)%N
              && match i_tracer i with None => true | Some t => bool_decide (Some t = k_tracer k) end
  | None => false
  end.

(** A fault takes up to [left] of the calls it is for that none has taken. *)
Fixpoint take_up (i : Injection) (left : option nat) (ks : list (option Key)) (fs : list (option Fault))
    : list (option Fault) :=
  match ks, fs with
  | k :: ks, None :: fs =>
      if hits i k && negb (bool_decide (left = Some 0)) then Some (i_fault i) :: take_up i (pred <$> left) ks fs
      else None :: take_up i left ks fs
  | _ :: ks, f :: fs => f :: take_up i left ks fs
  | _, _ => []
  end.

Definition settle_fault (ks : list (option Key)) (fs : list (option Fault)) (i : Injection) : list (option Fault) :=
  take_up i (remaining i) ks fs.

(** In order of registration. *)
Definition assigned (l : list Injection) (ks : list (option Key)) : list (option Fault) :=
  foldl (settle_fault ks) (replicate (length ks) None) l.

Lemma serves_hits i k :
  serves (k_method k) (k_tracer k) (k_block k) i = hits i (Some k) && negb (bool_decide (remaining i = Some 0)).
Proof. unfold serves, hits. by destruct (remaining i) as [[|n]|]. Qed.

Lemma foldl_taken l k ks f fs : foldl (settle_fault (k :: ks)) (Some f :: fs) l = Some f :: foldl (settle_fault ks) fs l.
Proof. revert fs. induction l as [|i l IH]; intros fs; [done|]. apply IH. Qed.

Lemma take_up_used i ks fs : settle_fault ks fs (used i) = take_up i (pred <$> remaining i) ks fs.
Proof.
  assert (forall left, take_up (used i) left ks fs = take_up i left ks fs) as H; [|by apply H].
  revert fs. induction ks as [|k ks IH]; intros [|[f|] fs] left; [done..| |]; cbn [take_up]; [by rewrite IH|].
  change (hits (used i) k) with (hits i k). case_match; by rewrite IH.
Qed.

Lemma foldl_take_fault l k ks fs :
  foldl (settle_fault (Some k :: ks)) (None :: fs) l
  = (take_fault (k_method k) (k_tracer k) (k_block k) l).1
    :: foldl (settle_fault ks) fs (take_fault (k_method k) (k_tracer k) (k_block k) l).2.
Proof.
  revert fs. induction l as [|i l IH]; intros fs; [done|]. cbn [foldl take_fault].
  unfold settle_fault at 2. cbn [take_up].
  rewrite serves_hits. destruct (hits i (Some k) && negb (bool_decide (remaining i = Some 0))).
  - cbn [fst snd foldl]. by rewrite foldl_taken, take_up_used.
  - rewrite IH. by destruct (take_fault _ _ _ l).
Qed.

Lemma foldl_unaddressed l ks fs : foldl (settle_fault (None :: ks)) (None :: fs) l = None :: foldl (settle_fault ks) fs l.
Proof. revert fs. induction l as [|i l IH]; intros fs; [done|]. apply IH. Qed.

(** The faults of the calls, one after the other. *)
Lemma assigned_cons l k ks :
  assigned l (Some k :: ks)
  = (take_fault (k_method k) (k_tracer k) (k_block k) l).1
    :: assigned (take_fault (k_method k) (k_tracer k) (k_block k) l).2 ks.
Proof. apply foldl_take_fault. Qed.

Lemma assigned_nil l : assigned l [] = [].
Proof. unfold assigned. induction l as [|i l IH]; [done|exact IH]. Qed.

Lemma assigned_unaddressed l ks : assigned l (None :: ks) = None :: assigned l ks.
Proof. apply foldl_unaddressed. Qed.

(** ** The counters *)

Definition count_of (p : Key -> bool) (ks : list (option Key)) : nat :=
  length (List.filter (fun k => match k with Some k => p k | None => false end) ks).

Lemma calls_where_count p k s :
  calls_where p (count_call k s) = calls_where p s + (if p k then 1 else 0).
Proof.
  unfold calls_where, count_call. cbn [calls_map]. generalize (calls_map s). clear s. intros m.
  set (q := fun e : Key * nat => p e.1).
  assert (forall x, sum_list (map_to_list (filter q (<[k := x]> (delete k m)))).*2
                    = (if p k then x else 0) + sum_list (map_to_list (filter q (delete k m))).*2) as H.
  { intros x. destruct (p k) eqn:Hp.
    - rewrite map_filter_insert_True by (unfold q; cbn; by rewrite Hp).
      rewrite map_to_list_insert; [done|]. apply map_lookup_filter_None. left. apply lookup_delete_eq.
    - rewrite map_filter_insert_not; [done|]. intros y Hq. unfold q in Hq. cbn in Hq. by rewrite Hp in Hq. }
  unfold q in H. rewrite <- (insert_delete_eq m k), H.
  destruct (m !! k) as [v|] eqn:Hk; cbn [from_option].
  - pose proof (H v) as Hv. rewrite insert_delete_eq, (insert_id m k v Hk) in Hv. rewrite Hv. unfold id. destruct (p k); lia.
  - rewrite (delete_id _ _ Hk). destruct (p k); lia.
Qed.

(** ** What the stub answers *)

(** The answer of the script to a call, under a fault or none. *)
Definition script_answer (s : Inner) (call : Value) (fault : option Fault) : option (Result Value (Z * string)) :=
  let method := call_method call in
  let params := call_params call in
  let tracer := tracer_of method params in
  match addressed_block s method (call_p0 call), fault with
  | Some number, Some f => faulted s method params tracer number f
  | block, _ => Some (Ok (truth s method params (call_p0 call) tracer block))
  end.

Definition held_back (delay : N) (fault : option Fault) : N :=
  match fault with Some f => delay_after f delay | None => delay end.

Definition call_id (call : Value) : Value := default (VNum 1) (get "id" call).

(** The state after the calls to the keys [ks]. *)
Record after_calls (s : Inner) (ks : list (option Key)) (s' : Inner) : Prop := {
  ac_chain : chain s' = chain s;
  ac_head : in_head s' = in_head s;
  ac_finalized : in_finalized s' = in_finalized s;
  ac_counts : forall p, calls_where p s' = calls_where p s + count_of p ks
}.

Lemma answer_unaddressed call delay s :
  key_of s call = None ->
  answer (call_method call) (call_params call) delay s
  = (let! r := script_answer s call None in Some (r, delay, s)).
Proof.
  unfold key_of, answer, script_answer. fold (call_p0 call).
  by destruct (addressed_block s (call_method call) (call_p0 call)).
Qed.

Lemma answer_addressed call delay s k :
  key_of s call = Some k ->
  let '(f, l) := take_fault (k_method k) (k_tracer k) (k_block k) (injections s) in
  answer (call_method call) (call_params call) delay s
  = (let! r := script_answer s call f in Some (r, held_back delay f, with_injections l (count_call k s))).
Proof.
  unfold key_of, answer, script_answer. fold (call_p0 call).
  destruct (addressed_block s (call_method call) (call_p0 call)) as [n|]; [|done].
  intros [= <-]. cbn [k_method k_tracer k_block call_key injections count_call].
  by destruct (take_fault _ _ _ (injections s)) as [[f|] l].
Qed.

Definition wrong_block_fits (i : Injection) : Prop := i_fault i = FWrongBlock -> (i_block i < u64_max)%N.

(** A script that can be played: it has a block, and none is faulted with the
    wrong block at the last height there is. *)
Definition playable (s : Inner) : Prop :=
  first (chain s) <> None
  /\ Forall wrong_block_fits (injections s).

Lemma take_fault_block m t b l f l' :
  take_fault m t b l = (Some f, l') -> exists i, i ∈ l /\ i_fault i = f /\ i_block i = b.
Proof.
  revert l'. induction l as [|i l IH]; intros l'; cbn [take_fault]; [done|].
  destruct (serves m t b i) eqn:Hs.
  - intros [= <- _]. exists i. split_and!; [left|done|]. unfold serves in Hs.
    repeat (apply andb_true_iff in Hs as [Hs ?]). by apply N.eqb_eq.
  - destruct (take_fault m t b l) as [f' l2]. intros [= -> _].
    destruct (IH _ eq_refl) as (j & Hj & ?). exists j. split; [by right|done].
Qed.

Lemma take_fault_keeps (P : Injection -> Prop) m t b l :
  (forall i, P i -> P (used i)) -> Forall P l -> Forall P (take_fault m t b l).2.
Proof.
  intros Hu. induction 1 as [|i l Hi Hl IH]; cbn [take_fault]; [constructor|].
  destruct (serves m t b i); [by constructor; [apply Hu|]|].
  destruct (take_fault m t b l) as [f l']. by constructor.
Qed.

Lemma foreign_some c n : first c <> None -> (n < u64_max)%N -> exists b, foreign c n = Some b.
Proof.
  intros Hc Hn. unfold foreign. destruct (first c) as [b|]; [|done]. unfold branched, range. cbn [cs_blocks].
  assert (wrap64 (n + 1) - n = 1)%N as ->.
  { rewrite wrap64_small; unfold u64_max in Hn; change (2 ^ 64)%N with 18446744073709551616%N; lia. }
  by eexists.
Qed.

Lemma answers_total s call f :
  first (chain s) <> None ->
  (forall k, key_of s call = Some k -> f = Some FWrongBlock -> (k_block k < u64_max)%N) ->
  exists r, script_answer s call f = Some r.
Proof.
  intros Hc Hf. unfold script_answer, key_of in *.
  destruct (addressed_block s (call_method call) (call_p0 call)) as [n|]; [|by eexists].
  destruct f as [[]|]; try (by eexists); unfold faulted.
  - destruct (foreign_some (chain s) n Hc) as [b ->]; [|by eexists]. by apply (Hf _ eq_refl).
  - destruct (visible s (Some n)); by eexists.
  - destruct (visible s (Some n)); by eexists.
Qed.

Lemma after_one s k l ks s' :
  after_calls (with_injections l (count_call k s)) ks s' -> after_calls s (Some k :: ks) s'.
Proof.
  intros [Hc Hh Hf Hn]. split; [done..|]. intros p. rewrite Hn.
  change (calls_where p (with_injections l (count_call k s))) with (calls_where p (count_call k s)).
  rewrite calls_where_count. unfold count_of. cbn [List.filter]. destruct (p k); simpl; lia.
Qed.

(** C39: The stub plays its script, whatever the history: over any calls, in
    one batch or many, each fault is served to the first calls it is for that
    no fault registered before it has taken, and to no more than asked for;
    every call is answered from the script under its fault alone; the response
    is held back for the longest delay served; every counter goes up by
    exactly the calls that addressed what it counts; nothing else changes. *)
Theorem stub_plays_script s l delay :
  playable s ->
  let ks := key_of s <$> l in
  let fs := assigned (injections s) ks in
  exists rs s', answer_calls l delay s = Some (rs, foldl held_back delay fs, s')
    /\ Forall3 (fun call f r => reply (call_id call) <$> script_answer s call f = Some r) l fs rs
    /\ after_calls s ks s'.
Proof.
  revert s delay. induction l as [|call l IH]; intros s delay [Hc Hi]; cbn zeta.
  - exists [], s. rewrite fmap_nil, assigned_nil.
    split; [done|]. split; [constructor|]. split; [done..|]. intros p. unfold count_of. simpl. lia.
  - rewrite fmap_cons. destruct (key_of s call) as [k|] eqn:Hk.
    + rewrite assigned_cons. pose proof (answer_addressed call delay s k Hk) as Ha.
      pose proof (take_fault_block (k_method k) (k_tracer k) (k_block k) (injections s)) as Hb.
      pose proof (take_fault_keeps wrong_block_fits (k_method k) (k_tracer k) (k_block k) (injections s) (fun i H => H) Hi) as Hi'.
      destruct (take_fault (k_method k) (k_tracer k) (k_block k) (injections s)) as [f l'].
      cbn [fst snd] in *. set (s2 := with_injections l' (count_call k s)) in *.
      destruct (answers_total s call f Hc) as [r Hr].
      { intros k' [= <-]%(eq_trans (eq_sym Hk)) ->. destruct (Hb _ _ eq_refl) as (i & Hin & Hw & <-).
        eapply Forall_forall in Hi; [|exact Hin]. by apply Hi. }
      destruct (IH s2 (held_back delay f)) as (rs & s' & Heq & HF & Hac); [by split|].
      exists (reply (call_id call) r :: rs), s'. split; [|split].
      * cbn [answer_calls foldl]. fold (call_id call) (call_method call) (call_params call).
        rewrite Ha, Hr. by rewrite Heq.
      * constructor; [by rewrite Hr|exact HF].
      * by apply (after_one _ _ l').
    + rewrite assigned_unaddressed. pose proof (answer_unaddressed call delay s Hk) as Ha.
      destruct (answers_total s call None Hc) as [r Hr]; [done|].
      destruct (IH s delay) as (rs & s' & Heq & HF & [H1 H2 H3 H4]); [by split|].
      exists (reply (call_id call) r :: rs), s'. split; [|split].
      * cbn [answer_calls foldl held_back]. fold (call_id call) (call_method call) (call_params call).
        rewrite Ha, Hr. by rewrite Heq.
      * constructor; [by rewrite Hr|exact HF].
      * split; [done..|]. intros p. rewrite H4. unfold count_of. simpl. lia.
Qed.

(** ** Digests tell heights apart *)

Lemma length_zeros n : String.length (zeros n) = n.
Proof. induction n as [|n IH]; [done|]. simpl. by rewrite IH. Qed.

Lemma length_string_app s t : String.length (s +:+ t) = String.length s + String.length t.
Proof. induction s as [|c s IH]; [done|]. simpl. by rewrite IH. Qed.

Lemma length_hex_digits fuel k : forall n acc,
  (n < 16 ^ N.of_nat (S k))%N -> String.length (hex_digits fuel n acc) <= S k + String.length acc.
Proof.
  revert k. induction fuel as [|fuel IH]; intros k n acc Hn; [simpl; lia|]. cbn [hex_digits].
  destruct (n / 16 =? 0)%N eqn:E; [simpl; lia|]. apply N.eqb_neq in E.
  destruct k as [|k].
  - change (16 ^ N.of_nat 1)%N with 16%N in Hn. by rewrite N.div_small in E.
  - etransitivity; [apply (IH k)|simpl; lia]. apply N.Div0.div_lt_upper_bound.
    by rewrite <- N.pow_succ_r', <- Nat2N.inj_succ.
Qed.

Lemma length_hex16 n : (n < 2 ^ 64)%N -> String.length (hex16 n) = 16.
Proof.
  intros Hn. unfold hex16. rewrite length_string_app, length_zeros.
  assert (String.length (lower_hex n) <= 16); [|lia].
  etransitivity; [apply (length_hex_digits _ 15)|simpl; lia]. exact Hn.
Qed.

Lemma string_app_inj s s' t t' :
  String.length s = String.length s' -> s +:+ t = s' +:+ t' -> s = s' /\ t = t'.
Proof.
  revert s'. induction s as [|c s IH]; intros [|c' s'] Hl E; try done.
  injection Hl as Hl. injection E as -> E. by destruct (IH s' Hl E) as [-> ->].
Qed.

Lemma hex16_inj n m : (n < 2 ^ 64)%N -> (m < 2 ^ 64)%N -> hex16 n = hex16 m -> n = m.
Proof.
  intros Hn Hm E. pose proof (hex16_parse n Hn) as Pn. pose proof (hex16_parse m Hm) as Pm.
  rewrite E in Pn. congruence.
Qed.

Lemma digest_words_inj k s t :
  (s < 2 ^ 64)%N -> (t < 2 ^ 64)%N -> digest_words (S k) s = digest_words (S k) t -> s = t.
Proof.
  intros Hs Ht E. cbn [digest_words] in E. apply string_app_inj in E as [E _].
  - apply hex16_inj in E; [|apply splitmix64_bound..]. by apply splitmix64_inj.
  - by rewrite !length_hex16 by apply splitmix64_bound.
Qed.

Lemma lxor_cancel_r x y z : N.lxor x z = N.lxor y z -> x = y.
Proof.
  intros E. apply (f_equal (fun w => N.lxor w z)) in E.
  by rewrite !N.lxor_assoc, N.lxor_nilpotent, !N.lxor_0_r in E.
Qed.

Lemma lxor_cancel_l x y z : N.lxor z x = N.lxor z y -> x = y.
Proof. rewrite !(N.lxor_comm z). apply lxor_cancel_r. Qed.

Lemma digest_inj kind a a' b :
  (kind < 2 ^ 64)%N -> (a < 2 ^ 64)%N -> (a' < 2 ^ 64)%N -> digest kind a b = digest kind a' b -> a = a'.
Proof.
  intros Hk Ha Ha' E. unfold digest in E. apply string_app_inj in E as [_ E]; [|done].
  assert (forall x, (x < 2 ^ 64)%N ->
    (N.lxor (N.lxor kind (rotate_left64 x 17)) (wrap64 (b * 0x9E3779B97F4A7C15)) < 2 ^ 64)%N) as Hb.
  { intros x Hx. apply lxor_bound; [apply lxor_bound; [done|by apply rotate_bound]|apply wrap64_bound]. }
  apply digest_words_inj in E; [|apply splitmix64_bound..]. apply splitmix64_inj in E; [|by apply Hb..].
  apply lxor_cancel_r, lxor_cancel_l in E. by apply rotate_inj in E.
Qed.

Lemma length_digest kind a b : String.length (digest kind a b) = 66.
Proof.
  unfold digest. rewrite length_string_app. cbn [digest_words].
  rewrite !length_string_app, !length_hex16 by apply splitmix64_bound. done.
Qed.

(** ** The chain without faults *)

Lemma find_unique {A} (p : A -> bool) (l : list A) b :
  (forall y, y ∈ l -> p y = true -> y = b) -> b ∈ l -> p b = true -> List.find p l = Some b.
Proof.
  intros Hu Hb Hp. destruct (List.find p l) as [y|] eqn:E.
  - apply List.find_some in E as [Hy Hpy]. f_equal. apply Hu; [|done]. by apply list_elem_of_In.
  - apply list_elem_of_In in Hb. by rewrite (List.find_none _ _ E b Hb) in Hp.
Qed.

Lemma find_nothing {A} (p : A -> bool) (l : list A) :
  (forall y, y ∈ l -> p y = false) -> List.find p l = None.
Proof.
  intros Hn. destruct (List.find p l) as [y|] eqn:E; [|done].
  apply List.find_some in E as [Hy Hpy]. apply list_elem_of_In in Hy. by rewrite Hn in Hpy.
Qed.

Lemma elem_of_range a z n : n ∈ range a z <-> (a <= n < z)%N.
Proof.
  unfold range. rewrite list_elem_of_fmap. split.
  - intros (i & -> & Hi%elem_of_seq). lia.
  - intros H. exists (N.to_nat (n - a)). split; [lia|]. apply elem_of_seq. lia.
Qed.

Definition request (method : string) (p0 : Value) (rest : list Value) : Value :=
  VObj [("method", VStr method); ("params", VArr (p0 :: rest))]%string.

(** What a method serves of a block. *)
Definition served (method : string) (params : Value) (b : ChainBlock) : Value :=
  if String.eqb method "eth_getBlockByNumber" then header b (full_txs params)
  else component method (tracer_of method params) b.

Section honest.
Context (s : Inner) (from count branch : N) (txs_per_block : nat).
Context (Hchain : chain s = branched from count txs_per_block branch).
Context (Hcount : (from + count < 2 ^ 64)%N) (Hbranch : (branch < 2 ^ 64)%N).
#[local] Abbreviation block n := (branched_block branch txs_per_block n).

Lemma chain_elem b : b ∈ cs_blocks (chain s) <-> exists n, b = block n /\ (from <= n < from + count)%N.
Proof.
  rewrite Hchain. unfold branched. cbn [cs_blocks]. rewrite list_elem_of_fmap, wrap64_small by done.
  by setoid_rewrite elem_of_range.
Qed.

Lemma chain_at n : (from <= n < from + count)%N -> at_number (chain s) n = Some (block n).
Proof.
  intros Hn. apply find_unique.
  - intros y (m & -> & _)%chain_elem E. by apply N.eqb_eq in E as <-.
  - apply chain_elem. by exists n.
  - apply N.eqb_refl.
Qed.

Lemma chain_not_at n : ~ (from <= n < from + count)%N -> at_number (chain s) n = None.
Proof.
  intros Hn. apply find_nothing. intros y (m & -> & Hm)%chain_elem. apply N.eqb_neq. cbn. by intros ->.
Qed.

Lemma chain_by_hash n : (from <= n < from + count)%N -> by_hash (chain s) (cb_hash (block n)) = Some (block n).
Proof.
  intros Hn. apply find_unique.
  - intros y (m & -> & Hm)%chain_elem E. apply String.eqb_eq in E. f_equal.
    apply (digest_inj branch m n 1); [done|lia|lia|exact E].
  - apply chain_elem. by exists n.
  - apply String.eqb_refl.
Qed.

Lemma visible_block n :
  visible s (Some n)
  = (if (n <=? in_head s)%N && (from <=? n)%N && (n <? from + count)%N then Some (block n) else None).
Proof.
  unfold visible. destruct (N.ltb_spec (in_head s) n), (N.leb_spec n (in_head s)); try lia; [done|]. cbn [andb].
  destruct (N.leb_spec from n), (N.ltb_spec n (from + count)); cbn [andb];
    first [apply chain_at; lia | apply chain_not_at; lia].
Qed.
End honest.

(** ** Addresses *)

Lemma by_block_cases m : by_block m = true ->
  m = "eth_getBlockByNumber"%string \/ m = "eth_getBlockReceipts"%string \/ m = "debug_traceBlockByNumber"%string
  \/ m = "debug_traceBlockByHash"%string \/ m = "trace_replayBlockTransactions"%string \/ m = "trace_block"%string.
Proof.
  unfold by_block. cbn [existsb]. rewrite !orb_true_iff, !String.eqb_eq. naive_solver.
Qed.

Lemma length_to_qty n : (n < 2 ^ 64)%N -> String.length (to_qty n) <= 18.
Proof.
  intros Hn. unfold to_qty. rewrite length_string_app.
  pose proof (length_hex_digits (S (N.to_nat (N.size n))) 15 n "" Hn) as H. unfold lower_hex. simpl in *. lia.
Qed.

Lemma addressed_number s m n : by_block m = true -> (n < 2 ^ 64)%N -> addressed_block s m (VStr (to_qty n)) = Some n.
Proof.
  intros Hm Hn. unfold addressed_block. rewrite Hm. cbn [value_str].
  pose proof (length_to_qty n Hn) as Hl.
  assert (Nat.ltb 42 (String.length (to_qty n)) = false) as -> by (apply Nat.ltb_ge; lia).
  unfold to_qty at 1 2. cbn [String.append existsb String.eqb Ascii.eqb Bool.eqb orb].
  unfold qty2_u64. change (strip_0x (to_qty n)) with (lower_hex n).
  rewrite parse_lower_hex; [done|]. unfold u64_max. change (2 ^ 64)%N with 18446744073709551616%N in Hn. lia.
Qed.

Lemma addressed_hash s m h b :
  by_block m = true -> (exists kind a x, h = digest kind a x) -> by_hash (chain s) h = Some b ->
  addressed_block s m (VStr h) = Some (cb_number b).
Proof.
  intros Hm (kind & a & x & Hd) Hb. unfold addressed_block. rewrite Hm. cbn [value_str].
  assert (Nat.ltb 42 (String.length h) = true) as -> by (rewrite Hd, length_digest; done).
  rewrite Hb, Hd. unfold digest. cbn [String.append existsb String.eqb Ascii.eqb Bool.eqb orb]. done.
Qed.

Lemma truth_payload s m params p0 block :
  by_block m = true ->
  truth s m params p0 (tracer_of m params) block
  = match visible s block with Some b => served m params b | None => VNull end.
Proof. intros Hm. by destruct (by_block_cases m Hm) as [->|[->|[->|[->|[->| ->]]]]]. Qed.

Lemma answers_request s m p0 rest :
  script_answer s (request m p0 rest) None
  = Some (Ok (truth s m (VArr (p0 :: rest)) p0 (tracer_of m (VArr (p0 :: rest))) (addressed_block s m p0))).
Proof. unfold script_answer, call_method, call_params, call_p0, request. cbn. by destruct (addressed_block s m p0). Qed.

(** Without faults the stub serves one linked chain, whichever way a block
    is asked for: at a height of the script at or below the head, by number
    and by hash alike, the header or component of the one block there; at any
    other height null; and each header names its parent by the hash the parent
    is served with. *)
Theorem honest_chain_served s from count branch txs_per_block m n rest :
  chain s = branched from count txs_per_block branch ->
  (from + count < 2 ^ 64)%N -> (branch < 2 ^ 64)%N -> (n < 2 ^ 64)%N -> by_block m = true ->
  let b := branched_block branch txs_per_block n in
  script_answer s (request m (VStr (to_qty n)) rest) None
  = Some (Ok (if (n <=? in_head s)%N && (from <=? n)%N && (n <? from + count)%N
              then served m (VArr (VStr (to_qty n) :: rest)) b else VNull))
  /\ ((from <= n < from + count)%N ->
      script_answer s (request m (VStr (cb_hash b)) rest) None = script_answer s (request m (VStr (to_qty n)) rest) None)
  /\ get "parentHash" (header (branched_block branch txs_per_block (n + 1)) true) = get "hash" (header b true).
Proof.
  intros Hc Hcount Hbranch Hn Hm b.
  assert (forall p0, served m (VArr (p0 :: rest)) = served m (VArr (VNull :: rest))) as Hp by done.
  rewrite !answers_request, !truth_payload by done. split; [|split].
  - rewrite addressed_number, (visible_block s from count branch txs_per_block) by done.
    by destruct (_ && _).
  - intros Hr.
    rewrite (addressed_hash s m (cb_hash b) b), addressed_number; try done; [by exists branch, n, 1%N|].
    by apply (chain_by_hash s from count branch txs_per_block).
  - cbn. unfold saturating_sub. by replace (n + 1 - 1)%N with n by lia.
Qed.

(** ** The faults of a header *)

(** Faults that edit or replace a component. *)
Definition edits (f : Fault) : bool :=
  match f with
  | FWrongBlock | FTruncated | FDropKey _ | FEmptyKey _ | FDuplicated | FMixedFrames
  | FInvalidDebugFrameStructure => true
  | _ => false
  end.

(** What [truthful] starts from is not what the call gets without a fault: of
    a header, and of a single receipt, it has nothing to edit, and every such
    fault is served as the null of a block that is not there. *)
Theorem edited_headers_are_null s m params tracer block f r :
  m = "eth_getBlockByNumber"%string \/ m = "eth_getTransactionReceipt"%string ->
  edits f = true -> faulted s m params tracer block f = Some r -> r = Ok VNull.
Proof.
  intros Hm Hf Hr.
  assert (forall b, component m tracer b = VNull) as Hn by (by destruct Hm as [-> | ->]).
  assert (truthful s m tracer block = VNull) as Ht by (unfold truthful; by destruct (visible s (Some block))).
  unfold faulted in Hr. rewrite Ht in Hr.
  destruct f; try discriminate Hf; try (by injection Hr as <-).
  - destruct (foreign (chain s) block) as [b|]; [|done]. rewrite Hn in Hr. by injection Hr as <-.
  - destruct (visible s (Some block)); by injection Hr as <-.
Qed.

(** ** Instances *)

(** A batch over three blocks, the receipts of the second faulted once, its
    header for ever. *)
Definition demo : Inner :=
  inject "eth_getBlockByNumber" 2 (FForgedField "gasUsed" (VStr "0x1"))
    (inject_for "eth_getBlockReceipts" 2 (FError 7 "no") 1
       (mkInner (linear 1 3 1) 3 1 [] ∅)).

Definition demo_calls : list Value :=
  [request "eth_getBlockReceipts" (VStr "0x2") []; request "eth_getBlockReceipts" (VStr "0x2") [];
   request "eth_chainId" VNull []; request "eth_getBlockByNumber" (VStr "latest") [VBool false]]%string.

Example demo_started : start (linear 1 3 1) = Some (mkInner (linear 1 3 1) 3 1 [] ∅).
Proof. vm_compute. reflexivity. Qed.

Example demo_faults :
  assigned (injections demo) (key_of demo <$> demo_calls) = [Some (FError 7 "no"%string); None; None; None].
Proof. vm_compute. reflexivity. Qed.

Lemma stub_plays_script_witness :
  exists rs s', answer_calls demo_calls 0 demo = Some (rs, 0%N, s')
    /\ Forall3 (fun call f r => reply (call_id call) <$> script_answer demo call f = Some r) demo_calls
         [Some (FError 7 "no"%string); None; None; None] rs
    /\ calls "eth_getBlockReceipts" 2 s' = 2.
Proof.
  destruct (stub_plays_script demo demo_calls 0) as (rs & s' & H1 & H2 & H3).
  - split; [by vm_compute|]. repeat constructor; discriminate.
  - exists rs, s'. rewrite demo_faults in H1, H2. split; [exact H1|]. split; [exact H2|].
    unfold calls. rewrite (ac_counts _ _ _ H3). vm_compute. reflexivity.
Defined.

Lemma honest_chain_served_witness :
  script_answer demo (request "eth_getBlockByNumber" (VStr (to_qty 3)) []) None
  = Some (Ok (header (branched_block 0 1 3) false)).
Proof.
  destruct (honest_chain_served demo 1 3 0 1 "eth_getBlockByNumber" 3 []) as [H _];
    [reflexivity|done|done|done|reflexivity|]. exact H.
Defined.

Lemma edited_headers_are_null_witness :
  faulted demo "eth_getBlockByNumber" (VArr []) None 2 FDuplicated = Some (Ok VNull).
Proof.
  destruct (faulted demo "eth_getBlockByNumber" (VArr []) None 2 FDuplicated) as [r|] eqn:E; [|done].
  f_equal. apply (edited_headers_are_null demo "eth_getBlockByNumber" (VArr []) None 2 FDuplicated r);
    [by left|done|exact E].
Defined.
