(* ===== verification/Race.v ===== *)
(** * Race: the head-access race (latency-bench/src/bin/detect-race.rs)

    A probe that polls a node three ways at once: a reference leg stamps when
    the chain is known to have reached each block, and every block is acquired
    by one of two arms, asked for before it exists or after it was reported.
    The legs run concurrently and meet in a ledger. [race_step] is one answer
    to one leg, [race_run] any interleaving of them; the tables the probe
    prints are functions of the ledger. Times are exact numbers of
    milliseconds.

    The theorem: in every interleaving each block is asked for by one arm only,
    the one it is assigned, and its reference stamp is the first report of a
    head at or above it. *)
From stdpp Require Import gmap fin_maps pretty sorting.
From S2P Require Import Prelude Rlp Rate Validators.
From Stdlib Require Import QArith Qround.
Local Open Scope nat_scope.
Local Open Scope rust_scope.

(** ** Answers *)

Inductive ProbeError : Type :=
  | CallFailed (what : string)
  | ErrorResponse (text : string)
  | MissingResult
  | InvalidNumber
  | InvalidTimestamp.

Record Body := mkBody {
  bd_number : N;
  bd_timestamp_s : N;
  bd_tx_count : nat;
  bd_bytes : nat
}.

Section answers.
Context {V : Type} `{!Json V}.
(** [Value::is_null] and [Value::to_string]. *)
Variable is_null : V -> bool.
Variable to_text : V -> string.

Definition probe_qty (v : V) : option N :=
  let! s := json_as_str v in
  let! digits := strip_prefix "0x" s in
  match from_str_radix_16 u64_max digits with Ok n => Some n | Err _ => None end.

(** [qty(&block[key])]: indexing gives null where there is nothing. *)
Definition qty_at (key : string) (block : V) : option N := json_get block key ≫= probe_qty.

Definition parse_body (response : V) : Result (option Body) ProbeError :=
  match json_get response "error" with
  | Some e => Err (ErrorResponse (to_text e))
  | None =>
      match json_get response "result" with
      | None => Err MissingResult
      | Some block =>
          if is_null block then Ok None
          else match qty_at "number" block with
          | None => Err InvalidNumber
          | Some number =>
              match qty_at "timestamp" block with
              | None => Err InvalidTimestamp
              | Some timestamp_s =>
                  Ok (Some (mkBody number timestamp_s
                        (match json_get block "transactions" ≫= json_as_array with
                         | Some txs => length txs | None => 0 end)
                        (String.length (to_text block))))
              end
          end
      end
  end.
End answers.

(** What one poll comes back with. *)
Definition Answer : Type := Result (option Body) ProbeError.

(** ** The ledger *)

Inductive Mode : Type := Spec | Tagged.

Definition Mode_as_str (m : Mode) : string := match m with Spec => "spec" | Tagged => "tagged" end.

#[export] Instance Mode_eq_dec : EqDecision Mode.
Proof. solve_decision. Defined.

Record RaceRecord := mkRaceRecord {
  ref_at : option Q;
  rr_timestamp_s : option N;
  rr_mode : option Mode;
  body_at : option Q;
  body_rtt_ms : option Q;
  null_polls : N;
  poll_gap_ms : option Q;
  rr_tx_count : option nat;
  rr_bytes : option nat;
  rr_errors : N
}.

Definition RaceRecord_default : RaceRecord :=
  mkRaceRecord None None None None None 0 None None None 0.

Abbreviation RaceLedger := (gmap N RaceRecord).

(** [entry(number).or_default()], then the writes of [f]. *)
Definition entry (number : N) (f : RaceRecord -> RaceRecord) (l : RaceLedger) : RaceLedger :=
  <[number := f (default RaceRecord_default (l !! number))]> l.

Definition get_or_insert {A} (v : A) (o : option A) : option A := Some (default v o).

(** [u32::saturating_add(1)]. *)
Definition tick (n : N) : N := N.min (n + 1) 4294967295.

(** ** The arms *)

(** One acquisition task; [None]: it has its body and is done. *)
Record ArmState := mkArmState { arm_nulls : N; arm_errors : N; last_empty_at : option Q }.

Record Arm := mkArm { arm_number : N; arm_mode : Mode; arm_state : option ArmState }.

Definition arm_new (number : N) (mode : Mode) : Arm := mkArm number mode (Some (mkArmState 0 0 None)).

(** What an arm writes when it has its body, asked for at [issued_at]. *)
Definition record_hit (mode : Mode) (s : ArmState) (issued_at at_ : Q) (body : Body) (r : RaceRecord) : RaceRecord :=
  mkRaceRecord (ref_at r) (get_or_insert (bd_timestamp_s body) (rr_timestamp_s r)) (Some mode) (Some at_)
    (Some (at_ - issued_at)%Q) (arm_nulls s)
    (match mode with Spec => (fun empty => (issued_at - empty)%Q) <$> last_empty_at s | Tagged => poll_gap_ms r end)
    (Some (bd_tx_count body)) (Some (bd_bytes body)) (rr_errors r + arm_errors s).

(** One poll of an arm, asked at [issued_at] and answered at [at_]. *)
Definition acquire (mode : Mode) (number : N) (issued_at at_ : Q) (answer : Answer) (s : ArmState) (l : RaceLedger)
    : option ArmState * RaceLedger :=
  match answer with
  | Ok (Some body) => (None, entry number (record_hit mode s issued_at at_ body) l)
  | Ok None =>
      (Some (mkArmState (tick (arm_nulls s)) (arm_errors s)
               (match mode with Spec => Some at_ | Tagged => last_empty_at s end)), l)
  | Err _ => (Some (mkArmState (arm_nulls s) (tick (arm_errors s)) (last_empty_at s)), l)
  end.

Definition acquire_speculative : N -> Q -> Q -> Answer -> ArmState -> RaceLedger -> option ArmState * RaceLedger :=
  acquire Spec.

Definition acquire_tagged : N -> Q -> Q -> Answer -> ArmState -> RaceLedger -> option ArmState * RaceLedger :=
  acquire Tagged.

(** ** The start *)

Inductive SeedError : Type := SeedingFailed (e : ProbeError) | LatestUnavailable (attempts : nat).

(** Ten attempts at the latest block; [None]: the fuel ran out. *)
Fixpoint seed_loop (fuel attempt : nat) (answers : nat -> Answer) : option (Result Body SeedError) :=
  match fuel with
  | 0 => None
  | S fuel =>
      match answers attempt with
      | Ok (Some body) => Some (Ok body)
      | other =>
          if 10 <=? S attempt then
            Some (Err (match other with Err e => SeedingFailed e | _ => LatestUnavailable (S attempt) end))
          else seed_loop fuel (S attempt) answers
      end
  end.

Definition seed (answers : nat -> Answer) : option (Result Body SeedError) := seed_loop 10 0 answers.

(** [MODE]: which arm a block is assigned to. *)
Definition assignment (mode_env : string) : option (N -> Mode) :=
  if bool_decide (mode_env = "alternate"%string) then Some (fun n => if (n mod 2 =? 0)%N then Spec else Tagged)
  else if bool_decide (mode_env = "spec"%string) then Some (fun _ => Spec)
  else if bool_decide (mode_env = "tagged"%string) then Some (fun _ => Tagged)
  else None.

(** ** The race *)

(** The reference leg: about to launch, waiting for an answer, or stamping the
    blocks a report passed, of which [rest] is left. *)
Inductive Leg : Type :=
  | Launching
  | Asking
  | Reaching (seen_at : Q) (head : Body) (rest : list N).

Record RaceState := mkRaceState {
  highest : N;
  speculating_for : option N;
  ledger : RaceLedger;
  arms : list Arm;
  ref_errors : N;
  leg : Leg
}.

Definition race_start (seed : Body) : RaceState := mkRaceState (bd_number seed) None ∅ [] 0 Launching.

Section race.
Variable assign : N -> Mode.

(** The speculative arm is polling before its block exists. *)
Definition launch (st : RaceState) : RaceState :=
  let next := (highest st + 1)%N in
  if (highest st <? u64_max)%N && negb (bool_decide (speculating_for st = Some next))
     && bool_decide (assign next = Spec)
  then mkRaceState (highest st) (Some next) (ledger st) (arms st ++ [arm_new next Spec]) (ref_errors st) Asking
  else mkRaceState (highest st) (speculating_for st) (ledger st) (arms st) (ref_errors st) Asking.

(** [(highest + 1)..=head.number]. *)
Definition passed (from to_ : N) : list N :=
  (fun i => (from + 1 + N.of_nat i)%N) <$> seq 0 (N.to_nat (to_ - from)).

(** One answer to the reference leg's poll. *)
Definition ref_answered (seen_at : Q) (answer : Answer) (st : RaceState) : RaceState :=
  match answer with
  | Ok (Some head) =>
      mkRaceState (highest st) (speculating_for st) (ledger st) (arms st) (ref_errors st)
        (if (highest st <? bd_number head)%N
         then Reaching seen_at head (passed (highest st) (bd_number head)) else Launching)
  | Ok None => mkRaceState (highest st) (speculating_for st) (ledger st) (arms st) (ref_errors st) Launching
  | Err _ => mkRaceState (highest st) (speculating_for st) (ledger st) (arms st) (tick (ref_errors st)) Launching
  end.

Definition stamp (seen_at : Q) (head : Body) (number : N) (r : RaceRecord) : RaceRecord :=
  mkRaceRecord (get_or_insert seen_at (ref_at r))
    (if (number =? bd_number head)%N then get_or_insert (bd_timestamp_s head) (rr_timestamp_s r)
     else rr_timestamp_s r)
    (rr_mode r) (body_at r) (body_rtt_ms r) (null_polls r) (poll_gap_ms r) (rr_tx_count r) (rr_bytes r)
    (rr_errors r).

(** One block of those a report passed. *)
Definition reach (seen_at : Q) (head : Body) (number : N) (st : RaceState) : RaceState :=
  let already_speculative := bool_decide (speculating_for st = Some number) in
  mkRaceState (highest st) (speculating_for st) (entry number (stamp seen_at head number) (ledger st))
    (if negb already_speculative && bool_decide (assign number = Tagged)
     then arms st ++ [arm_new number Tagged] else arms st)
    (ref_errors st) (leg st).

(** The reference leg's next block, or the end of its turn. *)
Definition reach_next (st : RaceState) : option RaceState :=
  match leg st with
  | Reaching seen_at head (number :: rest) =>
      let st := reach seen_at head number st in
      Some (mkRaceState (highest st) (speculating_for st) (ledger st) (arms st) (ref_errors st)
              (Reaching seen_at head rest))
  | Reaching _ head [] =>
      Some (mkRaceState (bd_number head) (speculating_for st) (ledger st) (arms st) (ref_errors st) Launching)
  | _ => None
  end.

(** An answer to the [k]-th task. *)
Definition poll_arm (k : nat) (issued_at at_ : Q) (answer : Answer) (st : RaceState) : option RaceState :=
  let! a := arms st !! k in
  let! s := arm_state a in
  let poll := match arm_mode a with Spec => acquire_speculative | Tagged => acquire_tagged end in
  let (s', l) := poll (arm_number a) issued_at at_ answer s (ledger st) in
  Some (mkRaceState (highest st) (speculating_for st) l
          (<[k := mkArm (arm_number a) (arm_mode a) s']> (arms st)) (ref_errors st) (leg st)).

Inductive RaceEvent : Type :=
  | Launch
  | Answered (seen_at : Q) (answer : Answer)
  | Reach
  | ArmPoll (k : nat) (issued_at at_ : Q) (answer : Answer).

Definition race_step (e : RaceEvent) (st : RaceState) : option RaceState :=
  match e, leg st with
  | Launch, Launching => Some (launch st)
  | Answered seen_at answer, Asking => Some (ref_answered seen_at answer st)
  | Reach, _ => reach_next st
  | ArmPoll k issued_at at_ answer, _ => poll_arm k issued_at at_ answer st
  | _, _ => None
  end.

Fixpoint race_run (es : list RaceEvent) (st : RaceState) : option RaceState :=
  match es with
  | [] => Some st
  | e :: es => let! st := race_step e st in race_run es st
  end.
End race.

(** ** The tables *)

Definition row_complete (r : RaceRecord) : bool :=
  match ref_at r, body_at r, rr_mode r with Some _, Some _, Some _ => true | _, _, _ => false end.

#[local] Instance by_number_dec : RelDecision (fun x y : N * RaceRecord => (x.1 <= y.1)%N).
Proof. intros x y. apply _. Defined.

(** The complete rows, by number. *)
Definition race_rows (l : RaceLedger) : list (N * RaceRecord) :=
  List.filter (fun x => row_complete x.2) (merge_sort (fun x y => (x.1 <= y.1)%N) (map_to_list l)).

Definition of_mode (mode : Mode) (x : N * RaceRecord) : bool := bool_decide (rr_mode x.2 = Some mode).

#[local] Instance Qle_rel_dec : RelDecision Qle.
Proof. intros x y. destruct (Qle_bool x y) eqn:E; [left|right]; rewrite <- Qle_bool_iff, E; done. Defined.

(** [body_at.unwrap() - ref_at.unwrap()]. *)
Definition body_lag (r : RaceRecord) : option Q :=
  let! b := body_at r in let! a := ref_at r in Some (b - a)%Q.

(** The lags of an arm, sorted; [None] is the panic of an [unwrap]. *)
Definition lag (mode : Mode) (rows : list (N * RaceRecord)) : option (list Q) :=
  let! v := mapM (fun x => body_lag x.2) (List.filter (of_mode mode) rows) in Some (merge_sort Qle v).

(** [v[((len - 1) as f64 * q).round()]]; NaN on an empty sample is [Some None],
    an index out of range panics. *)
Definition race_pct (v : list Q) (q : Q) : option (option Q) :=
  match v with
  | [] => Some None
  | _ => Some <$> v !! Z.to_nat (Qfloor (Q_of_nat (length v - 1) * q + (1 # 2)))
  end.

(** The blocks of an arm that saw a null, and all of them. *)
Definition retried (mode : Mode) (rows : list (N * RaceRecord)) : nat * nat :=
  let rows := List.filter (of_mode mode) rows in
  (length (List.filter (fun x => 0 <? null_polls x.2)%N rows), length rows).

(** What the service's own metric would have reported for the speculative arm. *)
Definition poll_gaps (rows : list (N * RaceRecord)) : list Q :=
  merge_sort Qle (omap (fun x => poll_gap_ms x.2) (List.filter (of_mode Spec) rows)).

(** ** The history of a race *)

(** The reports of the reference leg, in order. *)
Definition reports (es : list RaceEvent) : list (Q * N) :=
  omap (fun e => match e with Answered seen_at (Ok (Some head)) => Some (seen_at, bd_number head) | _ => None end) es.

(** When block [n] was first known to exist. *)
Definition first_report (n : N) (hs : list (Q * N)) : option Q :=
  fst <$> List.find (fun h => n <=? h.2)%N hs.

Lemma first_report_app n hs hs' :
  first_report n (hs ++ hs') = match first_report n hs with Some t => Some t | None => first_report n hs' end.
Proof.
  unfold first_report. induction hs as [|h hs IH]; [done|]. cbn. by destruct (n <=? h.2)%N.
Qed.

Lemma first_report_below n hs b :
  Forall (fun h => h.2 <= b)%N hs -> (b < n)%N -> first_report n hs = None.
Proof.
  intros Hf Hb. induction Hf as [|h hs Hh _ IH]; [done|]. unfold first_report in *. cbn.
  by rewrite (proj2 (N.leb_gt _ _)) by lia.
Qed.

(** The blocks stamped so far are those up to here. *)
Definition frontier (st : RaceState) : N :=
  match leg st with
  | Reaching _ head rest => (bd_number head - N.of_nat (length rest))%N
  | _ => highest st
  end.

Lemma length_passed a b : length (passed a b) = N.to_nat (b - a).
Proof. unfold passed. by rewrite length_fmap, length_seq. Qed.

Lemma passed_step a b : (a < b)%N -> passed a b = (a + 1)%N :: passed (a + 1) b.
Proof.
  intros Hab. unfold passed. destruct (N.to_nat (b - a)) as [|k] eqn:Hk; [lia|].
  replace (N.to_nat (b - (a + 1))) with k by lia. cbn [seq fmap list_fmap]. f_equal; [lia|].
  rewrite <- (fmap_S_seq 0 k), <- list_fmap_compose. apply list_fmap_ext. intros i x _. cbn. lia.
Qed.

Lemma passed_nil a b : passed a b = [] -> (b <= a)%N.
Proof. intros H. apply (f_equal length) in H. rewrite length_passed in H. cbn in H. lia. Qed.

(** What every interleaving keeps. *)
Record race_inv (assign : N -> Mode) (seed : N) (hs : list (Q * N)) (st : RaceState) : Prop := {
  ri_seed : (seed <= highest st)%N;
  ri_leg : match leg st with
           | Reaching seen_at head rest =>
               (highest st < bd_number head)%N /\ (highest st <= frontier st)%N
               /\ rest = passed (frontier st) (bd_number head)
               /\ exists hs', hs = hs' ++ [(seen_at, bd_number head)] /\ Forall (fun h => h.2 <= highest st)%N hs'
           | _ => Forall (fun h => h.2 <= highest st)%N hs
           end;
  ri_reported : (seed < highest st)%N -> exists h, h ∈ hs /\ h.2 = highest st;
  ri_once : NoDup (arm_number <$> arms st);
  ri_assigned : Forall (fun a => arm_mode a = assign (arm_number a) /\ (seed < arm_number a)%N /\
                  ((arm_number a <= frontier st)%N \/
                   arm_number a = (highest st + 1)%N /\ speculating_for st = Some (arm_number a))) (arms st);
  ri_mode : forall n r m, ledger st !! n = Some r -> rr_mode r = Some m -> m = assign n;
  ri_stamped : forall n, (ledger st !! n ≫= ref_at) =
                 if ((seed <? n) && (n <=? frontier st))%N then first_report n hs else None
}.

Lemma entry_ref_at number f l n :
  (forall r, ref_at (f r) = ref_at r) -> (entry number f l !! n ≫= ref_at) = (l !! n ≫= ref_at).
Proof.
  intros Hf. unfold entry. destruct (decide (number = n)) as [->|Hne].
  - rewrite lookup_insert_eq. cbn. rewrite Hf. by destruct (l !! n).
  - by rewrite lookup_insert_ne.
Qed.

Lemma entry_mode assign number f l :
  (forall n r m, l !! n = Some r -> rr_mode r = Some m -> m = assign n) ->
  (forall r m, rr_mode (f r) = Some m -> rr_mode r = Some m \/ m = assign number) ->
  forall n r m, entry number f l !! n = Some r -> rr_mode r = Some m -> m = assign n.
Proof.
  intros Hl Hf n r m. unfold entry. destruct (decide (number = n)) as [->|Hne].
  - rewrite lookup_insert_eq. intros [= <-] [Hm|Hm]%Hf; [|done].
    destruct (l !! n) as [r0|] eqn:E; [by apply (Hl n r0)|done].
  - rewrite lookup_insert_ne by done. apply Hl.
Qed.

Lemma acquire_ledger assign mode number issued_at at_ answer s l s' l' :
  mode = assign number ->
  (forall n r m, l !! n = Some r -> rr_mode r = Some m -> m = assign n) ->
  acquire mode number issued_at at_ answer s l = (s', l') ->
  (forall n r m, l' !! n = Some r -> rr_mode r = Some m -> m = assign n)
  /\ forall n, (l' !! n ≫= ref_at) = (l !! n ≫= ref_at).
Proof.
  intros Hm Hl H. destruct answer as [[body|]|e]; cbn in H; injection H as _ <-; [|by split..].
  split; [|intros n; by apply entry_ref_at].
  apply entry_mode; [done|]. intros r m. cbn. intros [= <-]. by right.
Qed.

Lemma first_report_some n hs h : h ∈ hs -> (n <= h.2)%N -> exists t, first_report n hs = Some t.
Proof.
  unfold first_report. intros Hin Hn. destruct (List.find _ hs) as [x|] eqn:E; [by exists x.1|].
  apply list_elem_of_In in Hin. pose proof (find_none _ _ E h Hin) as H. cbn in H. by apply N.leb_gt in H; lia.
Qed.

Section invariant.
Variable assign : N -> Mode.
Abbreviation inv := (race_inv assign).

Lemma launch_inv seed hs st : leg st = Launching -> inv seed hs st -> inv seed hs (launch assign st).
Proof.
  intros Hleg [Hs Hl Hp Ho Ha Hm Hr]. unfold frontier in *. rewrite Hleg in *. unfold launch.
  destruct (_ && _ && _) eqn:E; [|split; unfold frontier; done].
  apply andb_prop in E as [[_ Hnew%negb_true_iff%bool_decide_eq_false]%andb_prop Hspec%bool_decide_eq_true].
  split; unfold frontier; try done; cbn [arms highest speculating_for leg].
  - rewrite fmap_app. apply NoDup_app. split_and!; [done| |apply NoDup_singleton].
    intros n [a [-> Hin]]%list_elem_of_fmap Hn%list_elem_of_singleton. cbn in Hn.
    rewrite Forall_forall in Ha. destruct (Ha a Hin) as (_ & _ & [?|[? Hx]]); [lia|]. congruence.
  - apply Forall_app. split; [|apply Forall_singleton; cbn; split_and!; [done|lia|right; by split]].
    eapply Forall_impl; [exact Ha|]. intros a (? & ? & [?|[Hn Hx]]); split_and!; try done; [by left|].
    right. split; [done|]. by rewrite Hn.
Qed.

(** A later report is not the first of a block already stamped. *)
Lemma stamped_kept seed hs hs' st :
  (seed <= highest st)%N -> ((seed < highest st)%N -> exists h, h ∈ hs /\ h.2 = highest st) ->
  forall n, (if ((seed <? n) && (n <=? highest st))%N then first_report n hs else None)
    = if ((seed <? n) && (n <=? highest st))%N then first_report n (hs ++ hs') else None.
Proof.
  intros Hs Hp n. destruct ((seed <? n) && (n <=? highest st))%N eqn:E; [|done].
  apply andb_prop in E as [Hn%N.ltb_lt Hn'%N.leb_le]. destruct Hp as (h & Hin & Hh); [lia|].
  destruct (first_report_some n hs h Hin) as [t Ht]; [lia|]. by rewrite first_report_app, Ht.
Qed.

Lemma ref_answered_inv seed hs st seen_at answer :
  leg st = Asking -> inv seed hs st ->
  inv seed (hs ++ reports [Answered seen_at answer]) (ref_answered seen_at answer st).
Proof.
  intros Hleg [Hs Hl Hp Ho Ha Hm Hr]. unfold frontier in *. rewrite Hleg in *.
  pose proof (stamped_kept seed hs (reports [Answered seen_at answer]) st Hs Hp) as Hkept.
  destruct answer as [[head|]|e]; cbn [ref_answered reports omap list_omap] in *; rewrite ?app_nil_r in *;
    [|split; unfold frontier; done..].
  assert (forall b, (seed < b)%N -> (exists h, h ∈ hs /\ h.2 = b) ->
    exists h, h ∈ hs ++ [(seen_at, bd_number head)] /\ h.2 = b) as Hp'.
  { intros b _ (h & Hin & Hh). exists h. split; [|done]. apply elem_of_app. by left. }
  destruct (N.ltb_spec (highest st) (bd_number head)) as [Hlt|Hge].
  - assert (bd_number head - N.of_nat (length (passed (highest st) (bd_number head))) = highest st)%N as Hfr
      by (rewrite length_passed; lia).
    split; unfold frontier; cbn [leg highest ledger arms speculating_for]; rewrite ?Hfr; try done.
    + split_and!; [done|lia|done|]. by exists hs.
    + intros H'. by apply Hp', Hp.
    + intros n. by rewrite Hr, Hkept.
  - split; unfold frontier; cbn [leg highest ledger arms speculating_for]; try done.
    + apply Forall_app. split; [done|]. by apply Forall_singleton.
    + intros H'. by apply Hp', Hp.
    + intros n. by rewrite Hr, Hkept.
Qed.

Lemma reach_inv seed hs st st' : inv seed hs st -> reach_next assign st = Some st' -> inv seed hs st'.
Proof.
  intros [Hs Hl Hp Ho Ha Hm Hr]. unfold reach_next. destruct (leg st) as [| |seen_at head rest] eqn:Hleg; [done..|].
  destruct Hl as (Hlt & Hge & Hrest & hs' & -> & Hhs').
  destruct rest as [|number rest]; intros [= <-].
  - unfold frontier in *. rewrite Hleg in *. cbn [length] in *. rewrite N.sub_0_r in *.
    split; unfold frontier; cbn [leg highest ledger arms speculating_for]; try done; [lia| | |].
    + apply Forall_app. split; [|by apply Forall_singleton].
      eapply Forall_impl; [exact Hhs'|]. cbn. intros h ?. lia.
    + intros _. eexists. split; [apply elem_of_app; right; by apply list_elem_of_singleton|done].
    + eapply Forall_impl; [exact Ha|]. intros a (? & ? & [?|[? ?]]); split_and!; try done; left; lia.
  - assert (frontier st < bd_number head)%N as Hf.
    { destruct (N.lt_ge_cases (frontier st) (bd_number head)) as [|Hle]; [done|].
      apply (f_equal length) in Hrest. rewrite length_passed in Hrest. cbn in Hrest. lia. }
    rewrite passed_step in Hrest by done. injection Hrest as -> ->.
    set (f := frontier st) in *.
    assert (bd_number head - N.of_nat (length (passed (f + 1) (bd_number head))) = f + 1)%N as Hfr
      by (rewrite length_passed; lia).
    split; unfold frontier; cbn [leg highest ledger arms speculating_for reach]; rewrite ?Hfr; try done.
    + split_and!; [done|lia|done|]. by exists hs'.
    + destruct (_ && _) eqn:E; [|done]. apply andb_prop in E as [Hnew%negb_true_iff%bool_decide_eq_false _].
      rewrite fmap_app. apply NoDup_app. split_and!; [done| |apply NoDup_singleton].
      intros n [a [-> Hin]]%list_elem_of_fmap Hn%list_elem_of_singleton. cbn in Hn.
      rewrite Forall_forall in Ha. destruct (Ha a Hin) as (_ & _ & [?|[? Hx]]); [lia|]. congruence.
    + assert (Forall (fun a => arm_mode a = assign (arm_number a) /\ (seed < arm_number a)%N /\
        ((arm_number a <= f + 1)%N \/
         arm_number a = (highest st + 1)%N /\ speculating_for st = Some (arm_number a))) (arms st)) as Ha'.
      { eapply Forall_impl; [exact Ha|]. intros a (? & ? & [?|?]); split_and!; try done; [left; lia|by right]. }
      destruct (_ && _) eqn:E; [|done]. apply andb_prop in E as [_ Ht%bool_decide_eq_true].
      apply Forall_app. split; [done|]. apply Forall_singleton. cbn. split_and!; [done|lia|left; lia].
    + apply entry_mode; [done|]. intros r m Hr'. by left.
    + intros n. destruct (decide (n = f + 1)%N) as [->|Hne].
      * unfold entry. rewrite lookup_insert_eq. cbn [mbind option_bind stamp ref_at].
        pose proof (Hr (f + 1)%N) as H1. rewrite (proj2 (N.leb_gt (f + 1) f)), andb_false_r in H1 by lia.
        rewrite (proj2 (N.ltb_lt _ _)), N.leb_refl by lia. cbn [andb].
        rewrite first_report_app, (first_report_below _ hs' (highest st)) by (done || lia).
        unfold first_report. cbn. rewrite (proj2 (N.leb_le _ _)) by lia. cbn.
        destruct (ledger st !! (f + 1)%N) as [r|]; cbn in *; [by rewrite H1|done].
      * unfold entry. rewrite lookup_insert_ne by done. rewrite Hr.
        replace (n <=? f + 1)%N with (n <=? f)%N; [done|].
        destruct (N.leb_spec n f), (N.leb_spec n (f + 1)); try done; lia.
Qed.

Lemma poll_inv seed hs st st' k issued_at at_ answer :
  inv seed hs st -> poll_arm k issued_at at_ answer st = Some st' -> inv seed hs st'.
Proof.
  intros [Hs Hl Hp Ho Ha Hm Hr]. unfold poll_arm. destruct (arms st !! k) as [a|] eqn:Hk; [|done]. cbn.
  destruct (arm_state a) as [s|]; [|done]. cbn.
  replace (match arm_mode a with Spec => acquire_speculative | Tagged => acquire_tagged end)
    with (acquire (arm_mode a)) by (by destruct (arm_mode a)).
  destruct (acquire _ _ _ _ _ _ _) as [s' l] eqn:Hq. intros [= <-].
  pose proof (Forall_lookup_1 _ _ _ _ Ha Hk) as (Hmode & Hna).
  destruct (acquire_ledger assign _ _ _ _ _ _ _ _ _ Hmode Hm Hq) as [Hm' Hr'].
  set (a' := mkArm (arm_number a) (arm_mode a) s').
  assert (arm_number <$> <[k := a']> (arms st) = arm_number <$> arms st) as Hn.
  { rewrite list_fmap_insert. apply list_insert_id. by rewrite list_lookup_fmap, Hk. }
  split; unfold frontier in *; cbn [leg highest ledger arms speculating_for]; try done.
  - by rewrite Hn.
  - by apply Forall_insert.
  - intros n. by rewrite Hr', Hr.
Qed.

Lemma race_start_inv seed : inv (bd_number seed) [] (race_start seed).
Proof.
  split; cbn; try done; [lia|constructor|].
  intros n. by destruct (_ && _).
Qed.

Lemma race_run_inv seed es : forall hs st st',
  inv seed hs st -> race_run assign es st = Some st' -> inv seed (hs ++ reports es) st'.
Proof.
  induction es as [|e es IH]; intros hs st st' Hi Hr; cbn [race_run] in Hr.
  { injection Hr as <-. cbn. by rewrite app_nil_r. }
  destruct (race_step assign e st) as [st1|] eqn:E; [|done].
  assert (inv seed (hs ++ reports [e]) st1) as H1.
  { destruct e as [|seen_at answer| |k issued_at at_ answer]; cbn [race_step] in E.
    - destruct (leg st) eqn:Hleg; try done. injection E as <-. cbn. rewrite app_nil_r. by apply launch_inv.
    - destruct (leg st) eqn:Hleg; try done. injection E as <-. by apply ref_answered_inv.
    - cbn. rewrite app_nil_r. by eapply reach_inv.
    - cbn. rewrite app_nil_r. by eapply poll_inv. }
  pose proof (IH _ _ _ H1 Hr) as H2. rewrite <- app_assoc in H2.
  unfold reports in *. by rewrite <- omap_app in H2.
Qed.

(** ** The tables of a race *)

Lemma race_rows_complete l n r : (n, r) ∈ race_rows l -> l !! n = Some r /\ row_complete r = true.
Proof.
  unfold race_rows. intros H%list_elem_of_In%filter_In. destruct H as [H Hc]. split; [|done].
  apply list_elem_of_In in H. rewrite merge_sort_Permutation in H. by apply elem_of_map_to_list.
Qed.

Lemma lag_total mode rows : Forall (fun x => row_complete x.2 = true) rows -> exists v, lag mode rows = Some v.
Proof.
  intros Hc. unfold lag.
  assert (exists v, mapM (fun x => body_lag x.2) (List.filter (of_mode mode) rows) = Some v) as [v ->]; [|by eexists].
  induction Hc as [|x rows Hx _ [v IH]]; [by exists []|]. cbn.
  destruct (of_mode mode x); [|by exists v]. cbn. unfold body_lag, row_complete in *.
  destruct (ref_at x.2); [|done]. destruct (body_at x.2); [|done]. cbn. rewrite IH. by eexists.
Qed.

Lemma race_pct_total v q : (0 <= q)%Q -> (q <= 1)%Q -> exists p, race_pct v q = Some p.
Proof.
  intros H0 H1. destruct v as [|x v]; [by exists None|]. unfold race_pct.
  set (n := length (x :: v)).
  destruct (lookup_lt_is_Some_2 (x :: v) (Z.to_nat (Qfloor (Q_of_nat (n - 1) * q + (1 # 2))))) as [p ->];
    [|by eexists].
  fold n. assert (0 <= Q_of_nat (n - 1))%Q as Hn by (unfold Q_of_nat, Qle; cbn; lia).
  assert (Q_of_nat (n - 1) * q + (1 # 2) < Q_of_nat (n - 1) + 1)%Q as Hlt.
  { apply Qle_lt_trans with (Q_of_nat (n - 1) * 1 + (1 # 2))%Q.
    - apply Qplus_le_l. rewrite !(Qmult_comm (Q_of_nat _)). by apply Qmult_le_compat_r.
    - rewrite Qmult_1_r. by apply Qplus_lt_r. }
  pose proof (Qfloor_le (Q_of_nat (n - 1) * q + (1 # 2))) as Hf.
  assert (inject_Z (Qfloor (Q_of_nat (n - 1) * q + (1 # 2))) < inject_Z (Z.of_nat n))%Q as Hz.
  { eapply Qle_lt_trans; [exact Hf|]. eapply Qlt_le_trans; [exact Hlt|].
    unfold Q_of_nat, Qle, inject_Z. cbn. subst n. cbn [length]. lia. }
  rewrite <- Zlt_Qlt in Hz. subst n. cbn [length] in *. lia.
Qed.

(** In every interleaving of the legs, whatever the node answers: each block is
    asked for by at most one arm, the one it is assigned to, so the two
    patterns never share a block; a row of the results has its block's arm, and
    its reference stamp is the first report of a head at or above it; and the
    tables are computed without a panic. *)
Theorem race_exact seed es st :
  race_run assign es (race_start seed) = Some st ->
  NoDup (arm_number <$> arms st)
  /\ (forall a, a ∈ arms st -> arm_mode a = assign (arm_number a))
  /\ (forall n r, (n, r) ∈ race_rows (ledger st) ->
       rr_mode r = Some (assign n) /\ (bd_number seed < n)%N
       /\ exists t, ref_at r = Some t /\ first_report n (reports es) = Some t)
  /\ (forall mode, exists v, lag mode (race_rows (ledger st)) = Some v
       /\ forall q, (0 <= q)%Q -> (q <= 1)%Q -> exists p, race_pct v q = Some p).
Proof.
  intros Hr. pose proof (race_run_inv (bd_number seed) es [] _ _ (race_start_inv seed) Hr) as [Hs _ _ Ho Ha Hm Hst].
  split_and!; [done| | |].
  - intros a Hin. rewrite Forall_forall in Ha. by apply Ha.
  - intros n r [Hn Hc]%race_rows_complete. pose proof (Hst n) as H1. rewrite Hn in H1. cbn in H1.
    unfold row_complete in Hc. destruct (ref_at r) as [t|] eqn:Ht; [|done]. destruct (body_at r); [|done].
    destruct (rr_mode r) as [m|] eqn:Hmode; [|done]. rewrite (Hm n r m Hn Hmode).
    destruct (N.ltb_spec (bd_number seed) n); [|done]. destruct (n <=? frontier st)%N; [|done].
    split_and!; [done|done|]. by exists t.
  - intros mode. destruct (lag_total mode (race_rows (ledger st))) as [v Hv].
    { apply Forall_forall. intros [n r] [_ Hc]%race_rows_complete. done. }
    exists v. split; [done|]. intros q. apply race_pct_total.
Qed.
End invariant.

(** ** A race *)

Definition demo_body (n : N) : Body := mkBody n (n * 12) 3 100.

(** Alternating from block 10: 11 is asked for once it is reported, 12 before
    it exists, and the tag jumps over 13. *)
Definition demo_race : list RaceEvent :=
  [Launch; Answered 0 (Ok (Some (demo_body 11))); Reach; Reach; ArmPoll 0 0 30 (Ok (Some (demo_body 11)));
   Launch; ArmPoll 1 31 35 (Ok None); Answered 40 (Ok None); ArmPoll 1 60 64 (Ok (Some (demo_body 12)));
   Launch; Answered 70 (Ok (Some (demo_body 13))); Reach; Reach; ArmPoll 2 70 90 (Ok (Some (demo_body 13))); Reach]%Q.

Definition alternate (n : N) : Mode := if (n mod 2 =? 0)%N then Spec else Tagged.

Lemma race_exact_witness :
  exists st, race_run alternate demo_race (race_start (demo_body 10)) = Some st
    /\ NoDup (arm_number <$> arms st) /\ (arm_number <$> arms st) = [11; 12; 13]%N
    /\ lag Spec (race_rows (ledger st)) = Some [-6]%Q.
Proof.
  destruct (race_run alternate demo_race (race_start (demo_body 10))) as [st|] eqn:E; [|by vm_compute in E].
  exists st. split; [done|]. split; [apply (race_exact alternate (demo_body 10) demo_race st E)|].
  vm_compute in E. injection E as <-. by vm_compute.
Defined.

(** The tag went from 11 to 13, so 12 was passed over, and yet it is scored as
    speculative: the arm for the block after the head was polling for it. *)
Example passed_over_scored :
  reports demo_race = [(0, 11%N); (70, 13%N)]%Q
  /\ (st ← race_run alternate demo_race (race_start (demo_body 10)); r ← ledger st !! 12%N; rr_mode r) = Some Spec.
Proof. by vm_compute. Qed.

(** ** The seed *)

Lemma seed_loop_exact answers : forall fuel attempt,
  attempt + fuel = 10 -> 0 < fuel ->
  exists r, seed_loop fuel attempt answers = Some r /\
    match r with
    | Ok body => exists k, attempt <= k < 10 /\ answers k = Ok (Some body)
    | Err _ => forall k body, attempt <= k < 10 -> answers k <> Ok (Some body)
    end.
Proof.
  induction fuel as [|fuel IH]; intros attempt Hf Hpos; [lia|]. cbn [seed_loop].
  destruct (answers attempt) as [[body|]|e] eqn:Ha; [eexists; split; [done|]; exists attempt; split; [lia|done]|..].
  all: destruct (Nat.leb_spec 10 (S attempt)) as [Hlast|Hmore].
  1, 3: eexists; split; [done|]; intros k body Hk; assert (k = attempt) as -> by lia; congruence.
  all: destruct (IH (S attempt)) as (r & -> & Hr); [lia..|]; exists r; split; [done|].
  all: destruct r as [body|]; [destruct Hr as (k & Hk & Hb); exists k; split; [lia|done]|].
  all: intros k body Hk; destruct (decide (k = attempt)) as [->|]; [congruence|apply Hr; lia].
Qed.

(** The seeding ends within ten attempts: with the first body, or with an error
    when none of the ten has one. *)
Theorem seed_exact answers :
  exists r, seed answers = Some r /\
    match r with
    | Ok body => exists k, k < 10 /\ answers k = Ok (Some body)
    | Err _ => forall k body, k < 10 -> answers k <> Ok (Some body)
    end.
Proof.
  destruct (seed_loop_exact answers 10 0 eq_refl) as (r & Hs & Hr); [lia|]. exists r. split; [done|].
  destruct r as [body|]; [destruct Hr as (k & Hk & Hb); exists k; split; [lia|done]|].
  intros k body Hk. apply Hr. lia.
Qed.
