(* ===== verification/Bench.v ===== *)
(** * Bench: the fabricated chain of the benchmarks (latency-bench/src/lib.rs, upstream.rs)

    The head-path benchmark runs the service against a chain made of one
    captured block: each height keeps its transactions and receipts, is linked
    to the one below and gets its hash from the service's own computation. A
    scripted upstream serves it up to a watermark. JSON values are those of
    Stub.v; the fixtures and the parser of a block are parameters.

    The theorems: the fabricated chain is linked, numbered and labelled
    throughout, by hashes the service computes; and below its watermark the
    upstream serves exactly it. *)
From stdpp Require Import gmap strings pretty.
From Stdlib Require Import Strings.Ascii.
From S2P Require Import Prelude Rlp EvmTypes RpcData Commitments ChainUtils Frames Stub.
Local Open Scope nat_scope.
Local Open Scope rust_scope.

(** ** JSON, read and written by key *)

(** [v[key]] of an immutable value: null where there is nothing. *)
Definition value_at (k : string) (v : Value) : Value := default VNull (get k v).

(** [v[key] = x]: a null becomes an object, anything else panics. *)
Definition value_set (k : string) (x : Value) (v : Value) : option Value :=
  match v with
  | VObj l => Some (VObj (obj_insert k x l))
  | VNull => Some (VObj [(k, x)])
  | _ => None
  end.

Definition value_array (v : Value) : option (list Value) := match v with VArr l => Some l | _ => None end.

(** [v[key].as_array_mut()]: indexing mutably inserts a null that is absent. *)
Definition array_at (k : string) (v : Value) : option (option (list Value)) :=
  match v with
  | VObj _ | VNull => Some (value_array (value_at k v))
  | _ => None
  end.

Fixpoint each {A B} (f : A -> option B) (l : list A) : option (list B) :=
  match l with
  | [] => Some []
  | x :: l => let! y := f x in let! ys := each f l in Some (y :: ys)
  end.

(** ** The fabricated chain *)

Definition BASE_HEIGHT : N := 18500000.

Definition bench_qty (n : N) : string := to_qty n.

Record BenchBlock := mkBenchBlock {
  bb_number : N;
  bb_hash : string;
  bb_full : Value;
  bb_header_only : Value;
  bb_receipts : Value
}.

Abbreviation BenchChain := (list BenchBlock).

Definition height_of (idx : nat) : N := (BASE_HEIGHT + N.of_nat idx)%N.

(** [trim_start_matches]: every leading [0x]. *)
Fixpoint trim_0x (fuel : nat) (s : string) : string :=
  match fuel with
  | 0 => s
  | S fuel => match strip_prefix "0x" s with Some t => trim_0x fuel t | None => s end
  end.

Definition trimmed (s : string) : string := trim_0x (String.length s) s.

Definition context_of {A} (what : string) (o : option A) : Result A string :=
  match o with Some x => Ok x | None => Err what end.

(** [base_ts + 12 * i as u64], in the release build. *)
Definition block_timestamp (base_ts : N) (i : nat) : N := ((base_ts + 12 * N.of_nat i) mod 2 ^ 64)%N.

Section build.
Context `{Hex} `{Keccak}.
(** [serde_json::from_value::<RpcBlock>]. *)
Variable from_value : Value -> Result RpcBlock string.
Variable template receipts_template : Value.

(** The label of a transaction, a receipt or a log. *)
Definition relabel (hash : string) (number : N) (v : Value) : option Value :=
  let! v := value_set "blockHash" (VStr hash) v in
  value_set "blockNumber" (VStr (bench_qty number)) v.

Definition relabel_receipt (hash : string) (number : N) (receipt : Value) : option Value :=
  let! receipt := relabel hash number receipt in
  let! logs := array_at "logs" receipt in
  match logs with
  | None => value_set "logs" (value_at "logs" receipt) receipt
  | Some logs => let! logs := each (relabel hash number) logs in value_set "logs" (VArr logs) receipt
  end.

(** A block before its hash is known. *)
Definition rechained (number : N) (parent_hash : string) (timestamp : N) : option Value :=
  let! v := value_set "number" (VStr (bench_qty number)) template in
  let! v := value_set "parentHash" (VStr parent_hash) v in
  value_set "timestamp" (VStr (bench_qty timestamp)) v.

Definition block_hash_of (i : nat) (full : Value) : Result string string :=
  let? rpc_block := map_err (fun _ => "fixture block does not parse"%string) (from_value full) in
  if i =? 0 then context_of "fixture hash" (value_str (value_at "hash" template))
  else calculate_block_hash (chain_utils_new 1 false) rpc_block.

(** One height; [None] is the panic of an index that is no object. *)
Definition build_block (base_ts : N) (i : nat) (parent_hash : string) : option (Result BenchBlock string) :=
  let number := height_of i in
  let! full := rechained number parent_hash (block_timestamp base_ts i) in
  match block_hash_of i full with
  | Err e => Some (Err e)
  | Ok hash =>
      let! full := value_set "hash" (VStr hash) full in
      let! txs := array_at "transactions" full in
      match txs with
      | None => Some (Err "txs"%string)
      | Some txs =>
          let! txs := each (relabel hash number) txs in
          let! full := value_set "transactions" (VArr txs) full in
          let! header_only := value_set "transactions" (VArr (value_at "hash" <$> txs)) full in
          match value_array receipts_template with
          | None => Some (Err "receipts"%string)
          | Some receipts =>
              let! receipts := each (relabel_receipt hash number) receipts in
              Some (Ok (mkBenchBlock number hash full header_only (VArr receipts)))
          end
      end
  end.

Fixpoint build_from (base_ts : N) (n i : nat) (parent_hash : string) : option (Result BenchChain string) :=
  match n with
  | 0 => Some (Ok [])
  | S n =>
      let! r := build_block base_ts i parent_hash in
      match r with
      | Err e => Some (Err e)
      | Ok b =>
          let! rest := build_from base_ts n (S i) (bb_hash b) in
          Some (map_ok (cons b) rest)
      end
  end.

Definition base_timestamp : Result N string :=
  context_of "fixture timestamp"
    ((fun s => match from_str_radix_16 u64_max (trimmed s) with Ok n => n | Err _ => 0%N end)
       <$> value_str (value_at "timestamp" template)).

Definition build_chain (count : nat) : option (Result BenchChain string) :=
  match base_timestamp, context_of "fixture parentHash" (value_str (value_at "parentHash" template)) with
  | Err e, _ => Some (Err e)
  | Ok _, Err e => Some (Err e)
  | Ok base_ts, Ok parent_hash => build_from base_ts count 0 parent_hash
  end.
End build.

(** The call frames of the traces leg: the pool, cycled, without its labels;
    [pool] is what the captured blocks hold. *)
Definition trace_frames_of (pool : list Value) (count : nat) : Result (list Value) string :=
  match pool with
  | [] => Err "no frames in base-traces.json"%string
  | _ =>
      Ok ((fun i => match default VNull (pool !! (i mod length pool)) with
                    | VObj l => VObj (obj_remove "txHash" l)
                    | v => v
                    end) <$> seq 0 count)
  end.

(** ** The scripted upstream *)

Record BenchUpstream := mkBenchUpstream {
  bu_chain : BenchChain;
  head_idx : nat;
  finalized_idx : nat;
  rtt_ms : N;
  trace_frames : Value;
  state_diffs : Value;
  body_served_ms : gmap N N
}.

Definition bench_set_head (idx : nat) (u : BenchUpstream) : BenchUpstream :=
  mkBenchUpstream (bu_chain u) idx (finalized_idx u) (rtt_ms u) (trace_frames u) (state_diffs u) (body_served_ms u).

Definition bench_set_finalized (idx : nat) (u : BenchUpstream) : BenchUpstream :=
  mkBenchUpstream (bu_chain u) (head_idx u) idx (rtt_ms u) (trace_frames u) (state_diffs u) (body_served_ms u).

Definition resolve_tag (u : BenchUpstream) (tag : string) : option nat :=
  if bool_decide (tag ∈ ["latest"; "safe"; "pending"]%string) then Some (head_idx u)
  else if bool_decide (tag = "finalized"%string) then Some (finalized_idx u)
  else if bool_decide (tag = "earliest"%string) then Some 0
  else
    match from_str_radix_16 u64_max (trimmed tag) with
    | Err _ => None
    | Ok n =>
        if (n <? BASE_HEIGHT)%N then None
        else
          let idx := N.to_nat (n - BASE_HEIGHT) in
          if (idx <=? head_idx u) && (idx <? length (bu_chain u)) then Some idx else None
    end.

(** [entry(number).or_insert_with(...)] *)
Definition stamp_served (now_ms number : N) (u : BenchUpstream) : BenchUpstream :=
  mkBenchUpstream (bu_chain u) (head_idx u) (finalized_idx u) (rtt_ms u) (trace_frames u) (state_diffs u)
    (match body_served_ms u !! number with
     | Some _ => body_served_ms u
     | None => <[number := (now_ms + rtt_ms u / 2)%N]> (body_served_ms u)
     end).

Definition param_str (i : nat) (params : Value) : string :=
  default EmptyString (get_at i params ≫= value_str).

(** One call; [None] is the panic of an index out of the chain. *)
Definition bench_answer (now_ms : N) (u : BenchUpstream) (method : string) (params : Value)
    : option (Value * BenchUpstream) :=
  if bool_decide (method = "eth_chainId"%string) then Some (VStr "0x1", u)
  else if bool_decide (method = "eth_blockNumber"%string) then Some (VStr (bench_qty (height_of (head_idx u))), u)
  else if bool_decide (method = "eth_getLogs"%string) then Some (VArr [], u)
  else if bool_decide (method = "eth_getBlockByNumber"%string) then
    match resolve_tag u (param_str 0 params) with
    | None => Some (VNull, u)
    | Some idx =>
        let! b := bu_chain u !! idx in
        if default false (get_at 1 params ≫= as_bool) then Some (bb_full b, stamp_served now_ms (bb_number b) u)
        else Some (bb_header_only b, u)
    end
  else if bool_decide (method = "eth_getBlockReceipts"%string) then
    match resolve_tag u (param_str 0 params) with
    | None => Some (VNull, u)
    | Some idx => let! b := bu_chain u !! idx in Some (bb_receipts b, u)
    end
  else if bool_decide (method ∈ ["debug_traceBlockByNumber"; "debug_traceBlockByHash"]%string) then
    let target := param_str 0 params in
    let! visible :=
      if 66 <=? String.length target then
        if head_idx u <? length (bu_chain u) then
          Some (existsb (fun b => eq_ignore_ascii_case (bb_hash b) target) (take (S (head_idx u)) (bu_chain u)))
        else None
      else Some (bool_decide (is_Some (resolve_tag u target))) in
    if negb visible then Some (VNull, u)
    else
      let tracer := default EmptyString ((get_at 1 params ≫= get "tracer") ≫= value_str) in
      Some (if bool_decide (tracer = "callTracer"%string) then trace_frames u
            else if bool_decide (tracer = "prestateTracer"%string) then state_diffs u else VNull, u)
  else Some (VNull, u).

(** The calls of one body, in order; [body] is the parsed one. *)
Definition bench_call (now_ms : N) (u : BenchUpstream) (call : Value) : option (Value * BenchUpstream) :=
  let id := default (VNum 1) (get "id" call) in
  let method := default EmptyString (get "method" call ≫= value_str) in
  let params := default (VArr []) (get "params" call) in
  let! (result, u) := bench_answer now_ms u method params in
  Some (VObj [("jsonrpc", VStr "2.0"); ("id", id); ("result", result)]%string, u).

Fixpoint bench_calls (now_ms : N) (u : BenchUpstream) (calls : list Value) : option (list Value * BenchUpstream) :=
  match calls with
  | [] => Some ([], u)
  | call :: calls =>
      let! (r, u) := bench_call now_ms u call in
      let! (rs, u) := bench_calls now_ms u calls in
      Some (r :: rs, u)
  end.

Definition bench_handler (now_ms : N) (u : BenchUpstream) (body : option Value) : option (Value * BenchUpstream) :=
  let request := default (VObj []) body in
  let! (responses, u) := bench_calls now_ms u (default [request] (value_array request)) in
  if is_array request then Some (VArr responses, u)
  else let! first := responses !! 0 in Some (first, u).

(** ** Lemmas *)

#[local] Arguments height_of : simpl never.
#[local] Arguments block_timestamp : simpl never.
#[local] Arguments bench_qty : simpl never.

Lemma bind_some {A B} (e : option A) (f : A -> option B) y :
  (let! x := e in f x) = Some y -> exists x, e = Some x /\ f x = Some y.
Proof. destruct e as [x|]; [by eauto|done]. Qed.

Lemma each_length {A B} (f : A -> option B) l l' : each f l = Some l' -> length l' = length l.
Proof.
  revert l'. induction l as [|x l IH]; intros l' E; cbn in E; [by simplify_eq|].
  apply bind_some in E as (y & _ & E). apply bind_some in E as (ys & Ey & E). simplify_eq.
  cbn. by rewrite (IH ys).
Qed.

Lemma each_lookup {A B} (f : A -> option B) l l' i y :
  each f l = Some l' -> l' !! i = Some y -> exists x, l !! i = Some x /\ f x = Some y.
Proof.
  revert l' i. induction l as [|x l IH]; intros l' i E Hi; cbn in E; [by simplify_eq|].
  apply bind_some in E as (z & Ez & E). apply bind_some in E as (zs & Es & E). simplify_eq.
  destruct i as [|i]; cbn in *; [simplify_eq; by eauto|by eapply IH].
Qed.

Lemma obj_insert_get k k' x l :
  obj_get k (obj_insert k' x l) = if decide (k = k') then Some x else obj_get k l.
Proof.
  unfold obj_get. induction l as [|[k1 y] l IH]; cbn.
  - destruct (String.eqb_spec k' k), (decide (k = k')); try done; congruence.
  - destruct (String.eqb_spec k1 k') as [->|Hk]; cbn.
    + destruct (String.eqb_spec k' k), (decide (k = k')); try done; congruence.
    + destruct (String.eqb_spec k1 k) as [->|Hk1]; [|done]. by rewrite decide_False.
Qed.

Lemma value_set_get k k' x v v' :
  value_set k' x v = Some v' -> get k v' = if decide (k = k') then Some x else get k v.
Proof.
  destruct v; cbn; intros E; simplify_eq; cbn; [|by rewrite obj_insert_get].
  unfold obj_get. cbn. destruct (String.eqb_spec k' k), (decide (k = k')); try done; congruence.
Qed.

(** Reads the fields of a value a chain of [value_set] made. *)
Ltac read_fields :=
  repeat match goal with
    | E : value_set ?k' ?x ?v = Some ?v' |- context [get ?k ?v'] =>
        rewrite (value_set_get k k' x v v' E);
        first [rewrite decide_True by reflexivity | rewrite decide_False by discriminate]
    end.

(** ** The chain is linked, numbered and labelled *)

Definition labelled (hash : string) (number : N) (v : Value) : Prop :=
  get "blockHash" v = Some (VStr hash) /\ get "blockNumber" v = Some (VStr (bench_qty number)).

(** A receipt carries its block's label, and so does each of its logs. *)
Definition receipt_labelled (hash : string) (number : N) (receipt : Value) : Prop :=
  labelled hash number receipt
  /\ forall logs l, get "logs" receipt = Some (VArr logs) -> l ∈ logs -> labelled hash number l.

Lemma relabel_labelled hash number v v' : relabel hash number v = Some v' -> labelled hash number v'.
Proof. intros E. apply bind_some in E as (w & Ew & E). by split; read_fields. Qed.

Lemma each_relabel hash number l l' x :
  each (relabel hash number) l = Some l' -> x ∈ l' -> labelled hash number x.
Proof.
  intros E [i Hi]%list_elem_of_lookup. destruct (each_lookup _ _ _ _ _ E Hi) as (y & _ & Hy).
  by eapply relabel_labelled.
Qed.

Lemma relabel_receipt_labelled hash number r r' :
  relabel_receipt hash number r = Some r' -> receipt_labelled hash number r'.
Proof.
  intros E. apply bind_some in E as (w & Ew & E). apply relabel_labelled in Ew as [H1 H2].
  apply bind_some in E as (logs & El & E). destruct logs as [logs|].
  - apply bind_some in E as (ls & Els & E). split; [split; by read_fields|].
    intros logs' l. read_fields. intros [= <-]. by eapply each_relabel.
  - split; [split; by read_fields|]. intros logs' l. read_fields. intros [= Hl].
    unfold array_at in El. rewrite Hl in El. by destruct w.
Qed.

Section chain.
Context `{Hex} `{Keccak}.
Variable from_value : Value -> Result RpcBlock string.
Variable template receipts_template : Value.

(** What one fabricated block is, over the hash of the block below it. *)
Record fabricated (base_ts : N) (i : nat) (parent : string) (b : BenchBlock) : Prop := {
  fab_number : bb_number b = height_of i;
  fab_hash : exists v block,
    rechained template (height_of i) parent (block_timestamp base_ts i) = Some v
    /\ from_value v = Ok block
    /\ if i =? 0 then get "hash" template = Some (VStr (bb_hash b))
       else calculate_block_hash (chain_utils_new 1 false) block = Ok (bb_hash b);
  fab_full :
    get "hash" (bb_full b) = Some (VStr (bb_hash b))
    /\ get "number" (bb_full b) = Some (VStr (bench_qty (height_of i)))
    /\ get "parentHash" (bb_full b) = Some (VStr parent)
    /\ get "timestamp" (bb_full b) = Some (VStr (bench_qty (block_timestamp base_ts i)));
  fab_rest : forall k, k ∉ ["hash"; "number"; "parentHash"; "timestamp"; "transactions"]%string ->
    get k (bb_full b) = get k template /\ get k (bb_header_only b) = get k template;
  fab_transactions : exists txs,
    get "transactions" (bb_full b) = Some (VArr txs)
    /\ (forall tx, tx ∈ txs -> labelled (bb_hash b) (height_of i) tx)
    /\ get "transactions" (bb_header_only b) = Some (VArr (value_at "hash" <$> txs))
    /\ get "hash" (bb_header_only b) = get "hash" (bb_full b);
  fab_receipts : exists receipts rs,
    receipts_template = VArr rs /\ bb_receipts b = VArr receipts /\ length receipts = length rs
    /\ forall r, r ∈ receipts -> receipt_labelled (bb_hash b) (height_of i) r
}.

Lemma value_str_get k v s : value_str (value_at k v) = Some s -> get k v = Some (VStr s).
Proof. unfold value_at. destruct (get k v) as [[]|]; cbn; congruence. Qed.

Lemma build_block_fabricated base_ts i parent b :
  build_block from_value template receipts_template base_ts i parent = Some (Ok b) ->
  fabricated base_ts i parent b.
Proof.
  intros E. unfold build_block in E. apply bind_some in E as (full & Ef & E).
  destruct (block_hash_of _ _ _ _) as [hash|] eqn:Eh; [|done].
  apply bind_some in E as (full1 & E1 & E). apply bind_some in E as ([txs0|] & _ & E); [|done].
  apply bind_some in E as (txs & Et & E). apply bind_some in E as (full2 & E2 & E).
  apply bind_some in E as (header & E3 & E).
  destruct (value_array receipts_template) as [rs|] eqn:Er; [|done].
  apply bind_some in E as (receipts & Es & E). simplify_eq.
  pose proof Ef as Ef'. unfold rechained in Ef'.
  apply bind_some in Ef' as (v1 & V1 & Ef'). apply bind_some in Ef' as (v2 & V2 & V3).
  split; cbn [bb_number bb_hash bb_full bb_header_only bb_receipts].
  - reflexivity.
  - exists full. unfold block_hash_of in Eh. destruct (from_value full) as [block|] eqn:Eb; [|done].
    exists block. split_and!; [done|done|]. cbn in Eh. destruct (i =? 0); [|done].
    unfold context_of in Eh. destruct (value_str _) eqn:Ev; simplify_eq. by apply value_str_get.
  - split_and!; by read_fields.
  - intros k Hk. rewrite !not_elem_of_cons in Hk. destruct Hk as (? & ? & ? & ? & ? & _).
    repeat match goal with
      | E : value_set ?k' ?x ?v = Some ?v' |- context [get k ?v'] =>
          rewrite (value_set_get k k' x v v' E); rewrite decide_False by done
      end.
    done.
  - exists txs. split_and!; [by read_fields| |by read_fields|by read_fields].
    intros tx. by eapply each_relabel.
  - exists receipts, rs. destruct receipts_template; simplify_eq; cbn in Er; simplify_eq.
    split_and!; [done|done|by eapply each_length|]. intros r [j Hj]%list_elem_of_lookup.
    destruct (each_lookup _ _ _ _ _ Es Hj) as (y & _ & Hy). by eapply relabel_receipt_labelled.
Qed.

(** The hash the block at [i] of [c] is built on. *)
Definition parent_of (first_parent : string) (c : BenchChain) (i : nat) : option string :=
  match i with 0 => Some first_parent | S j => bb_hash <$> c !! j end.

Lemma build_from_linked base_ts n i0 parent c :
  build_from from_value template receipts_template base_ts n i0 parent = Some (Ok c) ->
  length c = n
  /\ forall i b, c !! i = Some b ->
       exists p, parent_of parent c i = Some p /\ fabricated base_ts (i0 + i) p b.
Proof.
  revert i0 parent c. induction n as [|n IH]; intros i0 parent c E; cbn in E; [by simplify_eq|].
  apply bind_some in E as ([b0|] & Eb & E); [|done].
  apply bind_some in E as ([rest|] & Er & E); cbn in E; simplify_eq.
  destruct (IH _ _ _ Er) as [Hl Hi]. split; [cbn; by rewrite Hl|].
  intros [|i] b Hb; cbn in Hb; simplify_eq.
  - exists parent. rewrite Nat.add_0_r. split; [done|by apply build_block_fabricated].
  - destruct (Hi i b Hb) as (p & Hp & Hf). exists p. replace (i0 + S i) with (S i0 + i) by lia.
    split; [|done]. by destruct i; cbn in *.
Qed.

(** A chain that gets built has a block for every height asked for, and each
    is the captured block rechained: numbered by its height, on the hash of the
    block below, hashed by the service's own computation (the first keeps its
    captured hash), its transactions, receipts and logs relabelled with that
    hash, and everything else of the capture as it was. *)
Theorem built_chain_linked count c
    (Hc : build_chain from_value template receipts_template count = Some (Ok c)) :
  length c = count
  /\ exists base_ts first_parent,
       get "parentHash" template = Some (VStr first_parent)
       /\ forall i b, c !! i = Some b ->
            exists p, parent_of first_parent c i = Some p /\ fabricated base_ts i p b.
Proof.
  unfold build_chain in Hc. destruct base_timestamp as [base_ts|]; [|done].
  unfold context_of in Hc. destruct (value_str (value_at "parentHash" template)) as [p|] eqn:Ep; [|done].
  destruct (build_from_linked _ _ _ _ _ Hc) as [Hl Hi]. split; [done|].
  exists base_ts, p. split; [by apply value_str_get|done].
Qed.
End chain.

(** ** The upstream serves it below its watermark *)

Lemma lower_hex_no_prefix n : (n <= u64_max)%N -> strip_prefix "0x" (lower_hex n) = None.
Proof.
  intros Hn. pose proof (parse_lower_hex _ _ Hn) as Hp.
  destruct (lower_hex n) as [|c0 [|c1 s]]; [done| |]; cbn [strip_prefix].
  - by destruct (Ascii.eqb "0"%char c0).
  - destruct (Ascii.eqb_spec "0"%char c0) as [<-|]; [|done].
    destruct (Ascii.eqb_spec "x"%char c1) as [<-|]; [|done].
    by rewrite from_str_radix_plain in Hp.
Qed.

Lemma trim_0x_none fuel s : strip_prefix "0x" s = None -> trim_0x fuel s = s.
Proof. intros E. destruct fuel; cbn [trim_0x]; [done|by rewrite E]. Qed.

Lemma trimmed_qty n : (n <= u64_max)%N -> trimmed (bench_qty n) = lower_hex n.
Proof.
  intros Hn. change (trimmed (bench_qty n)) with (trim_0x (S (String.length (lower_hex n))) (lower_hex n)).
  apply trim_0x_none, lower_hex_no_prefix, Hn.
Qed.

Lemma qty_no_tag n tag : match tag with String "0"%char (String "x"%char _) => False | _ => True end -> bench_qty n <> tag.
Proof. intros Ht <-. exact Ht. Qed.

(** The quantity of a height resolves to its block, when that is released. *)
Lemma resolve_height u i :
  (height_of i <= u64_max)%N ->
  resolve_tag u (bench_qty (height_of i))
  = if (i <=? head_idx u) && (i <? length (bu_chain u)) then Some i else None.
Proof.
  intros Hn. unfold resolve_tag.
  rewrite bool_decide_eq_false_2.
  2:{ rewrite !not_elem_of_cons. split_and!; [by apply qty_no_tag..|by apply not_elem_of_nil]. }
  rewrite !bool_decide_eq_false_2 by (by apply qty_no_tag).
  rewrite (trimmed_qty _ Hn), (parse_lower_hex _ _ Hn).
  assert ((height_of i <? BASE_HEIGHT)%N = false) as -> by (apply N.ltb_ge; unfold height_of; lia).
  replace (N.to_nat (height_of i - BASE_HEIGHT)) with i by (unfold height_of; lia). done.
Qed.

(** The watermarks lie within the chain: what the benches set. *)
Definition in_chain (u : BenchUpstream) : Prop :=
  head_idx u < length (bu_chain u) /\ finalized_idx u < length (bu_chain u).

Lemma resolve_in_chain u tag i : in_chain u -> resolve_tag u tag = Some i -> i < length (bu_chain u).
Proof.
  intros [Hh Hf]. unfold resolve_tag.
  repeat match goal with
    | |- context [if ?b then _ else _] => destruct b eqn:?
    | |- context [match from_str_radix_16 ?m ?s with _ => _ end] => destruct (from_str_radix_16 m s)
    end; intros [= <-]; try lia.
  match goal with E : _ && _ = true |- _ => apply andb_prop in E as [_ E]; by apply Nat.ltb_lt in E end.
Qed.

(** What an answer may change: only stamps, and only new ones. *)
Definition served_more (u u' : BenchUpstream) : Prop :=
  u' = mkBenchUpstream (bu_chain u) (head_idx u) (finalized_idx u) (rtt_ms u) (trace_frames u) (state_diffs u)
         (body_served_ms u')
  /\ body_served_ms u ⊆ body_served_ms u'.

#[global] Instance served_more_preorder : PreOrder served_more.
Proof.
  split; [by intros []|]. intros u v w [Ev Hv] [Ew Hw]. split; [|by etrans].
  rewrite Ew at 1. by rewrite Ev.
Qed.

Lemma served_more_in_chain u u' : served_more u u' -> in_chain u -> in_chain u'.
Proof. intros [-> _]. done. Qed.

Lemma stamp_served_more now n u : served_more u (stamp_served now n u).
Proof.
  split; [done|]. cbn. destruct (body_served_ms u !! n) eqn:E; [done|by apply insert_subseteq].
Qed.

Lemma bench_answer_total now u method params :
  in_chain u -> exists v u', bench_answer now u method params = Some (v, u') /\ served_more u u'.
Proof.
  intros Hu. unfold bench_answer. pose proof (resolve_in_chain u) as Hr. pose proof Hu as [Hh Hf].
  repeat match goal with
    | |- context [if bool_decide ?P then _ else _] => destruct (bool_decide P)
    end; try by eexists _, _.
  3-5: rewrite (proj2 (Nat.ltb_lt _ _) Hh); destruct (66 <=? _); cbv iota; destruct (negb _); by eexists _, _.
  - destruct (resolve_tag u (param_str 0 params)) as [i|] eqn:Ei; [|by eexists _, _].
    destruct (lookup_lt_is_Some_2 (bu_chain u) i (Hr _ _ Hu Ei)) as [b ->].
    destruct (default _ _); eexists _, _; split; try done. apply stamp_served_more.
  - destruct (resolve_tag u (param_str 0 params)) as [i|] eqn:Ei; [|by eexists _, _].
    destruct (lookup_lt_is_Some_2 (bu_chain u) i (Hr _ _ Hu Ei)) as [b ->]. by eexists _, _.
Qed.

Lemma bench_call_total now u call :
  in_chain u -> exists v u', bench_call now u call = Some (v, u') /\ served_more u u'.
Proof.
  intros Hu. unfold bench_call.
  edestruct (bench_answer_total now u) as (v & u' & -> & Hs); [done|]. by eexists _, _.
Qed.

Lemma bench_calls_total now calls : forall u,
  in_chain u ->
  exists vs u', bench_calls now u calls = Some (vs, u') /\ length vs = length calls /\ served_more u u'.
Proof.
  induction calls as [|c calls IH]; intros u Hu; cbn [bench_calls]; [by exists [], u|].
  destruct (bench_call_total now u c Hu) as (v & u1 & -> & H1).
  destruct (IH u1) as (vs & u2 & -> & Hl & H2); [by eapply served_more_in_chain|].
  eexists _, _. split_and!; [done|cbn; by rewrite Hl|by etrans].
Qed.

(** While its watermarks lie within the chain the upstream answers every body,
    a batch by as many answers as it has calls, without a panic; it changes
    nothing but the stamps, and a stamp once made is kept. *)
Theorem bench_handler_total now u body (Hu : in_chain u) :
  exists v u', bench_handler now u body = Some (v, u') /\ served_more u u'
    /\ forall calls, body = Some (VArr calls) ->
         exists answers, v = VArr answers /\ length answers = length calls.
Proof.
  unfold bench_handler.
  destruct (bench_calls_total now (default [default (VObj []) body] (value_array (default (VObj []) body))) u Hu)
    as (vs & u' & E & Hl & Hs).
  rewrite E. destruct body as [[]|]; cbn in *;
    try (destruct vs as [|w vs]; [done|]; exists w, u'; split_and!; [done..|discriminate]).
  exists (VArr vs), u'. split_and!; [done..|]. intros calls [= <-]. by exists vs.
Qed.

(** A block asked for by its number is served exactly when it is released: the
    body as fabricated, whole or with hashes for transactions, and its receipts;
    the first whole body of a height is stamped, half a round trip ahead, and
    later ones are not. *)
Theorem bench_serves_released now u i (full : bool)
    (Hu : in_chain u) (Hi : (height_of i <= u64_max)%N) :
  let call := VArr [VStr (bench_qty (height_of i)); VBool full] in
  match bu_chain u !! i with
  | Some b =>
      if i <=? head_idx u then
        bench_answer now u "eth_getBlockByNumber" call
          = Some (if full then (bb_full b, stamp_served now (bb_number b) u) else (bb_header_only b, u))
        /\ bench_answer now u "eth_getBlockReceipts" call = Some (bb_receipts b, u)
        /\ body_served_ms (stamp_served now (bb_number b) u) !! bb_number b
             = Some (default (now + rtt_ms u / 2)%N (body_served_ms u !! bb_number b))
      else bench_answer now u "eth_getBlockByNumber" call = Some (VNull, u)
        /\ bench_answer now u "eth_getBlockReceipts" call = Some (VNull, u)
  | None =>
      bench_answer now u "eth_getBlockByNumber" call = Some (VNull, u)
      /\ bench_answer now u "eth_getBlockReceipts" call = Some (VNull, u)
  end.
Proof.
  cbv zeta. unfold bench_answer, param_str. cbn [get_at lookup list_lookup mbind option_bind default value_str as_bool].
  repeat match goal with
    | |- context [bool_decide (?a = ?b)] =>
        first [rewrite (bool_decide_eq_true_2 (a = b)) by reflexivity
              |rewrite (bool_decide_eq_false_2 (a = b)) by discriminate]
    end.
  cbv iota. cbn.
  rewrite !(resolve_height u i Hi).
  destruct (bu_chain u !! i) as [b|] eqn:Eb.
  - pose proof (lookup_lt_Some _ _ _ Eb) as Hl. apply Nat.ltb_lt in Hl as ->. rewrite andb_true_r.
    destruct (i <=? head_idx u); [|done]. rewrite Eb. split_and!; [by destruct full|done|].
    destruct (body_served_ms u !! bb_number b) eqn:Es; cbn; [done|by rewrite lookup_insert_eq].
  - apply lookup_ge_None_1, Nat.ltb_ge in Eb as ->. by rewrite andb_false_r.
Qed.

(** ** A concrete chain and its upstream *)

Definition demo_template : Value :=
  VObj [("hash", VStr "0xaa"); ("number", VStr "0x1"); ("parentHash", VStr "0xbb"); ("timestamp", VStr "0x64");
        ("transactions", VArr [VObj [("hash", VStr "0xt0")]])]%string.

Definition demo_receipts : Value := VArr [VObj [("logs", VArr [VObj []])]]%string.

(** A parser that reads the two fields the chain is linked by. *)
Definition demo_from_value (v : Value) : Result RpcBlock string :=
  match get "parentHash" v ≫= value_str, get "number" v ≫= value_str with
  | Some parent, Some number => Ok (sample_block parent number)
  | _, _ => Err "field"%string
  end.

Definition demo_build (count : nat) : option (Result BenchChain string) :=
  @build_chain hex_ref toy_keccak demo_from_value demo_template demo_receipts count.

Definition demo_chain (count : nat) : BenchChain :=
  match demo_build count with Some (Ok c) => c | _ => [] end.

Lemma demo_built : demo_build 3 = Some (Ok (demo_chain 3)).
Proof. by vm_compute. Qed.

Lemma built_chain_linked_witness :
  length (demo_chain 3) = 3
  /\ (get "parentHash" ∘ bb_full <$> demo_chain 3 !! 2) = (Some ∘ VStr ∘ bb_hash <$> demo_chain 3 !! 1).
Proof.
  destruct (@built_chain_linked hex_ref toy_keccak demo_from_value demo_template demo_receipts
              3 (demo_chain 3)) as (Hl & base_ts & p & _ & H); [exact demo_built|].
  revert Hl H. generalize (demo_chain 3). intros c Hl H. split; [exact Hl|].
  destruct (lookup_lt_is_Some_2 c 2) as [b Eb]; [rewrite Hl; lia|].
  destruct (H 2 b Eb) as (q & Hq & Hf). rewrite Eb. unfold parent_of in Hq.
  destruct (c !! 1) as [a|]; [|discriminate Hq]. injection Hq as <-. cbn. f_equal. apply Hf.
Defined.

(** Two blocks released of three, one of them final. *)
Definition demo_upstream : BenchUpstream := mkBenchUpstream (demo_chain 3) 1 0 10 (VArr []) (VArr []) ∅.

Lemma demo_in_chain : in_chain demo_upstream.
Proof. split; [apply (bool_decide_unpack (1 < _))|apply (bool_decide_unpack (0 < _))]; by vm_compute. Qed.

Definition ask_block (i : nat) : Value :=
  VObj [("id", VNum 7); ("method", VStr "eth_getBlockByNumber");
        ("params", VArr [VStr (bench_qty (height_of i)); VBool true])]%string.

(** The released block, asked for twice, is stamped once. *)
Example demo_session :
  (fun r => (r.1, body_served_ms r.2 !! height_of 1, body_served_ms r.2 !! height_of 2))
    <$> (bench_calls 100 demo_upstream [ask_block 1; ask_block 2]
           ≫= fun r => bench_handler 900 r.2 (Some (ask_block 1)))
  = (fun b => (VObj [("jsonrpc", VStr "2.0"); ("id", VNum 7); ("result", bb_full b)]%string, Some 105%N, None))
      <$> demo_chain 3 !! 1.
Proof. by vm_compute. Qed.

Lemma bench_serves_released_witness :
  bench_answer 5 demo_upstream "eth_getBlockReceipts" (VArr [VStr (bench_qty (height_of 2)); VBool true])
  = Some (VNull, demo_upstream).
Proof.
  pose proof (bench_serves_released 5 demo_upstream 2 true demo_in_chain ltac:(by vm_compute)) as H.
  cbv zeta in H. destruct (bu_chain demo_upstream !! 2); [|exact (proj2 H)].
  change (2 <=? head_idx demo_upstream) with false in H. exact (proj2 H).
Defined.

Lemma bench_handler_total_witness :
  exists v u', bench_handler 5 demo_upstream (Some (VArr [ask_block 0; VNull])) = Some (v, u')
    /\ served_more demo_upstream u'.
Proof.
  destruct (bench_handler_total 5 demo_upstream (Some (VArr [ask_block 0; VNull])) demo_in_chain)
    as (v & u' & E & Hs & _). exact (ex_intro _ v (ex_intro _ u' (conj E Hs))).
Defined.
